(* ===== verification/_CoqProject ===== *)
-Q . S2P
Prelude.v
Order.v
BTree.v
Bytes.v
Version.v
Mvcc.v
Oracle.v
Publication.v
PublicationSpec.v
PublicationInv.v
PublicationRuns.v
Journal.v
JournalCodec.v
JournalRuns.v
Wal.v
WalCodec.v
WalRuns.v
SlateCodec.v
SlateEngine.v
SlateView.v
SlateOps.v
SlateRuns.v
Retention.v
RetentionRuns.v
Quorum.v
Envelope.v
EnvelopeCodec.v
Generation.v
GenerationRuns.v
CellTypes.v
CellCert.v
CellState.v
CellSerial.v
CellDemo.v
CellDirect.v
CellFeed.v
CellSteps.v
CellStaged.v
CellDomains.v
CellDurable.v
CellCapacity.v
CellPartition.v
Persist.v
StateMachine.v
StateMachineRuns.v
Snapshot.v
SnapshotRuns.v
CommandCodec.v
RaftLog.v
Resolver.v
ResolverRuns.v
ResolverContract.v
ResolverAgreement.v
LogCert.v
TLog.v
WalSingle.v
TLogDemo.v
TLogSteps.v
TLogRuns.v
TLogFence.v
RangeView.v
RangeViewSpec.v
RangeViewRuns.v
RangeRead.v
RangeReadRuns.v
KvRuntime.v
PgPage.v
PgCommit.v
PgCodec.v
PgRuns.v
PgReads.v
ManifestBound.v
ObjStore.v
ObjStoreRuns.v
PubAdapter.v
AdapterSweep.v
CommitSim.v
Routine.v
GcModel.v
Htap.v
