(* ===== verification/Prelude.v ===== *)
(** * objectKV: a verification development

    objectKV is a transactional key-value store over object storage, written in
    Rust under [src/crates]. This development models its deterministic core and
    proves what its parts promise. Paths below are relative to [src/crates].

    ** The parts and how they interact

    A client's transaction is proposed to a replicated log. Each consensus node
    keeps its vote and log in a journal on disk ([okv-wal/src/node_journal.rs])
    through the log adapter that OpenRaft calls ([okv-consensus/src/lib.rs]),
    and applies committed entries to a state machine
    ([okv-consensus/src/state_machine.rs]). The state machine holds three
    authorities: the generation authority, which says which transaction system
    may write ([okv-consensus/src/generation.rs]); the cells, which check
    conflicts, number transactions and publish them once their tagged log sets
    have stored them ([okv-consensus/src/cell_transaction.rs], with the commit
    envelope of [okv-sim/src/commit.rs]); and the publication authority, which
    decides which immutable objects are roots, leased, collected or deletable
    ([okv-publication/src/lib.rs]). Conflicts can also be checked outside the
    cell: resolver processes that each own a range of the keys sign decisions,
    which the cell verifies ([okv-consensus/src/partitioned_resolver.rs]).
    Between the two stages of a commit the envelope is stored by the nodes of
    its log sets, which sign that they hold it, that they do not, or that a
    generation is over, and later drop what is no longer needed
    ([okv-object/src/tagged_log_process.rs]).
    Committed data is served by a multi-version
    engine over SlateDB ([okv-slate/src/lib.rs]) whose history is trimmed by a
    compaction filter ([okv-slate/src/mvcc_retention.rs]). What reads must
    return is defined by a reference model, checked in the repository against a
    naive oracle ([okv-model/src/lib.rs], [history.rs]). A serving view lays the
    certified log records above a published root over the engine's reader
    ([okv-object/src/range_serving_view.rs]); a router answers for the ranges
    assigned to it through such views and a client reads through any number of
    routers ([range_read_service.rs], [range_read_client.rs]), within the memory
    its process accounts for ([kv_runtime.rs]). On top of the client, relation
    pages of PostgreSQL are stored as keys, written by transactions of a cell and
    read back ([okv-postgres/src/lib.rs], [extent.rs], [write.rs], [commit.rs]).
    A second write-ahead log replicates records over local directories
    ([okv-wal/src/lib.rs]). Objects are written and read through a client that
    verifies identities over any backend ([okv-object/src/lib.rs]); an authority
    that is kept in the replicated log decides, after a mark, which of them a
    sweep may delete ([okv-object/src/publication_adapter.rs]). Four protocols are
    also stated as seeded contracts with deliberately broken modes: commits over
    three replicas ([okv-sim/src/commit.rs]), collection, voter reconfiguration,
    and analytical reads over a columnar base and a log tail
    ([okv-model/src/publication_gc.rs], [routine_reconfiguration.rs], [htap.rs]).

    ** Files

    Foundations: [Prelude] (results, notations, tactics, list and integer
    lemmas), [Order] (Rust's [Ord] as a class), [BTree] (ordered maps as [gmap]
    read through their sorted entries), [Bytes] (fixed-width integers), [Quorum]
    (the loop every certificate check shares).

    Reference model: [Version] (versions, batches, fingerprints), [Mvcc]
    ([Model::apply], [get], [scan], [retain_from], [TransactionView]), [Oracle]
    ([NaiveOracle] and the simulation between the two).

    Storage engine: [SlateCodec] (physical keys), [SlateEngine] ([SlateEngine],
    [AuthorityBoundSlateReader], the scan cursor), [SlateView] and [SlateOps]
    (the physical key space represents the model), [SlateRuns]; [Retention] and
    [RetentionRuns] (the floor and the compaction filter).

    Logs: [Journal], [JournalCodec], [JournalRuns] (the node journal); [Wal],
    [WalCodec], [WalRuns] (the local replicated log).

    Publication authority: [Publication] (all seventeen actions),
    [PublicationSpec] (the contract, and that the code implements it),
    [PublicationInv], [PublicationRuns].

    Consensus: [Envelope] and [EnvelopeCodec] (the commit envelope);
    [Generation] and [GenerationRuns]; [CellTypes], [CellCert], [CellState] (the
    data, the certificate checks and both apply paths of the cells);
    [CellSerial] (the serializability argument), [CellDirect] (the direct path),
    [CellFeed] (the committed envelopes that others read),
    [CellSteps] and [CellStaged] (the staged path, through a step relation),
    [CellDomains] (tenants), [CellDurable], [CellCapacity], [CellPartition];
    [StateMachine] and [StateMachineRuns] (the apply loop); [Snapshot] and
    [SnapshotRuns]; [CommandCodec]; [RaftLog] (the log adapter and the Raft log
    it implements). [CellDemo] holds the concrete commands of
    the examples. [Persist] is the file replacement that snapshots and resolvers
    share.

    Resolvers: [Resolver] (a resolver process with its requests and its file),
    [ResolverRuns] (its runs, with crashes), [ResolverContract] (the
    coordinator, the resolvers and the cell together, beside an oracle) and
    [ResolverAgreement] (they decide as the oracle does).

    Log sets: [LogCert] (the statements log nodes sign, and the quorum checks on
    them), [TLog] (a log node: its requests, its log, fence and chunk files),
    [WalSingle] (a replicated log with a single directory), [TLogSteps] (what a
    request may change on the disk of a node), [TLogRuns] (the runs of a node),
    [TLogFence] (a cluster of nodes). [TLogDemo] holds the concrete JSON and keys
    of the examples.

    Reads: [RangeView] (serving views), [RangeViewSpec] (what a view over a base
    and a tail answers), [RangeViewRuns] (views of a cell's history); [RangeRead]
    (the router and the client), [RangeReadRuns] (reads through them);
    [KvRuntime] (the accounting of a process).

    PostgreSQL: [PgPage] (keys, values and the page reader), [PgCommit] (the
    admission, the plan and the receipt of a page write), [PgCodec] (the
    encodings), [PgRuns] (page writes on a cell), [PgReads] (reading them back).

    Objects: [ObjStore] (the backend interface, the adapter to a driver, the
    observing, faulty and broken backends, the client), [ObjStoreRuns] (the
    client's contract over any lawful backend); [PubAdapter] (the durable
    authority and its runs with crashes, the mark and the sweep), [AdapterSweep]
    (what a sweep keeps); [ManifestBound] (the read-only view of a store at one
    manifest, [okv-slate/src/manifest_bound_store.rs]).

    Contracts: [CommitSim] (commits), [GcModel] (collection), [Routine]
    (reconfiguration), [Htap] (analytical reads).

    ** How the code is modelled

    A method that changes a struct is a function from the record to the record
    and the answer; an early return is a branch. [Result] is [res], with [Err]
    for errors and [Panic] for a failed [expect] or an overflowing length. A
    [BTreeMap] is a [gmap], a [BTreeSet] a [gset], a [Vec] a list; iteration
    order is the sorted order. Unsigned integers are [N]; saturating, checked
    and wrapping operations are written out where the code uses them, and the
    codecs bound their fields by the width. Fault switches of the code
    ([GenerationFenceFaults] and the like) are fields of the model as well; the
    theorems are about the switches being off unless they say otherwise. Disk
    writes take how the disk answers as an argument, so that torn writes and
    crashes are states of the model.

    SHA-256, Ed25519, [serde_json] and SlateDB are not part of the repository.
    They are parameters: functions, or the classes [Serialize], [Ed25519],
    [Ed25519Sign], [CellJson], [CommandJson], [ResolverJson], [LogJson],
    [TLogJson] and [OrderedStore]. Serving views are written against an interface
    for their base ([SnapshotBase], with the contract [base_serves]), which the
    reader of the engine implements ([slate_base_serves]). The servers and the
    routing authority a client talks to are functions of a world that changes
    with every call, so calls may be lost, refused or answered late.
    Hypotheses on them state documented behaviour only (digests have 32 bytes,
    JSON reads back what it wrote, a signature verifies under the key of its
    seed, the store's reads return what was written, a backend's conditional
    writes are atomic while other clients write ([lawful]); for the log sets, also that
    different statements have different JSON, that of the signatures anyone
    presents, one that verifies under a node's key was made by that node
    ([log_cluster]), and that the quorums of a policy intersect) and every theorem that has one is applied to a concrete instance in its witness. The comparisons of
    the model with the oracle and with the engine assume that the batches of the
    history at hand have different fingerprints ([collision_free]); no theorem
    assumes that SHA-256 is injective.

    ** What the theorems show

    - Reads. The model agrees with the oracle on every history
      ([differential_refinement]); a version below the newest never changes its
      answers while it is retained ([snapshot_stability]). The engine answers as
      the model
      ([engine_refines_model]), and dropping history
      below the floor changes no read above it ([collection_preserves_reads]). A
      serving view answers with the rows of its cell at every version it covers
      ([serving_view_exact]), and so does a client that reads through routers,
      whatever happens to its routes ([client_reads_exact]). A view of the store at
      one manifest does not depend on newer ones ([bound_view_pinned]).
    - PostgreSQL pages. Page writes on a fork are serial, keep its extent and
      never store a page ahead of the flushed WAL ([page_writes_serial]); a write
      prepared on the latest version is committed by the state machine, once,
      unless a generation authority fences it ([page_write_commits]); reads return
      exactly the pages acknowledged up to their version
      ([postgres_reads_exact]).
    - Transactions. The direct path is serializable in log order and the staged
      path in the order of commit sequences ([direct_serializable],
      [staged_serializable]); nothing becomes visible without quorum evidence
      that each of its log sets stored it, under a policy the domain had and in
      certificates it recorded ([visible_is_durable]); others read the committed
      envelopes in full, in order and chained ([committed_feed_exact]); capacity is
      granted within the signed limits ([capacity_reserved_within_limit]);
      resolver processes that are
      restarted along the way decide every history as an oracle that knows all
      writes ([partitioned_matches_oracle]); a decision a resolver signed
      survives its crashes and is never contradicted, if a resolver whose disk
      failed is restarted ([resolver_decisions_final]).
    - Log sets. What a node acknowledged it keeps, through crashes, until it is
      popped, if no append finds a torn tail ([acknowledged_append_kept]); a transaction that was aborted because
      a quorum attested its absence can never be certified
      ([abort_excludes_certificate]).
    - The replicated state machine. A request takes effect once and retries get
      the first answer ([request_exactly_once]); the log has one writer
      generation at a time, in increasing order ([log_single_writer]), each handed
      over by certificates of a quorum
      ([handoff_certified], [generation_wf]); tenants do not affect each other
      ([tenant_isolation]); snapshots restore what they were built from
      ([snapshot_restores]).
    - Publication and deletion. The authority implements its contract, which is
      stated without the operations ([allowed], [carried_out], [authority_exact]);
      a leased snapshot
      stays readable, prepared objects get no delete permit
      ([leased_snapshot_kept], [delete_permit_guard]). The object client does what
      its outcomes say over any lawful backend, lost answers included
      ([object_client_exact]); the adapter's authority is atomic, and durable until
      a request fails part-way ([authority_request_atomic]), and its sweep keeps every root readable that was
      ([sweep_keeps_roots_readable]).
    - Contracts. A commit's outcome is final, through recoveries and retries
      ([commit_outcomes_final]); a mark is complete exactly when the roots are
      readable, and collecting what it left out keeps them so
      ([gc_collection_exact]); a base
      with its tail answers every query as the whole history does
      ([overlay_exact]); voters change only through a prepared, caught-up and
      committed reconfiguration ([routine_change_justified]).
    - Logs. Acknowledged records survive crashes and rewrites that keep them
      ([acknowledged_never_lost]); a batch cut off by a crash leaves the effect of a
      prefix ([crash_recovers_prefix]); recovery is total and sound
      ([replay_total_sound]). On top of the node journal the log adapter implements
      the log OpenRaft expects ([raft_log_exact]).
    - Codecs are exact: they read back what they wrote from well-formed values and
      accept nothing else ([envelope_codec_exact]).
    - Concrete runs in which the code does not do what it means to, outside the
      manifest: [policy_transition_lost_update] (a policy transition lets two conflicting
      transactions commit), [takeover_republishes_visible] (a takeover publishes
      a visible transaction again), [intent_hides_root_closure] (an intent that
      names a root's manifest hides what it refers to from the mark, and the sweep
      deletes it), [interrupted_rewrite_loses] (a rewrite that fails half-way loses
      records on a log of three replicas), [acknowledged_after_failure_lost] (the
      adapter's authority loses a request acknowledged after a failed one),
      [failed_persist_equivocates] (a
      resolver whose disk fails signs two transactions for one candidate),
      [failed_write_unrecoverable] (a journal that keeps accepting records behind
      a torn one), [append_after_torn_tail_lost] (a log node that does the same),
      [unordered_evidence_unreadable] (a committed envelope nobody can decode),
      [pin_ignores_reservation], [intent_closure_unprotected],
      [unnamed_voters_admitted], [reused_id_blocks],
      [lease_over_reserved_object], [empty_vote_unrecoverable],
      [acknowledged_append_lost] and [late_clear_diverges].
    - The components also carry theorems that are not in the manifest, such as
      [commit_effect], [scan_exact], [read_your_writes_commit],
      [floor_advance_forward], [filter_exact], [canonical_same_verdict],
      [collection_published_once], [publish_exactly_once], [journal_durable],
      [recover_exact], [recover_total_sound], [partitioned_conflict_exact],
      [token_determines_view], [pressure_bounded], [engine_commits_atomic],
      [snapshots_converge], [generation_single_writer], [authority_invariant],
      [observed_transparent], [damaged_read_rejected], [absent_delete_fails],
      [page_write_fenced] (a page write is refused once a generation authority is
      initialized), the verdicts of two contracts in every mode ([gc_contract_verdicts],
      [htap_contract_verdicts]), and the exactness of further
      codecs ([snapshot_codec_exact], [frame_codec_exact], [key_codec_exact],
      [page_codec_exact], [extent_codec_exact]).

    ** Fuel and bounds

    Loops over files ([replay_loop], [scan_loop]) get the length of the file as
    fuel: each iteration consumes at least one byte, and [replay_total_sound]
    and [recover_total_sound] show that fuel never runs out. [bsearch_loop] gets
    the length of the vector, which halves in every round; [recover_loop] runs
    over the indexes up to the largest one a replica holds. The
    compare-and-exchange loop of the retention floor ([advance_loop]) takes the
    values it observes as an explicit list. A scan ([scan_rows], [cursor_next])
    gets the number of entries the store's iterator still has, and
    [engine_refines_model] shows that it answers. The merge of a view's scan
    ([merge_loop]) gets the rows both sides still have, and a client's scan
    ([scan_once_loop]) one turn more than its snapshot has routes;
    [serving_view_exact] and [client_reads_exact] show that both end. The walk over
    objects ([collect_closure]) gets two turns more than the store has objects and
    [gc_collection_exact] rests on its being enough; the adapter's walk
    ([walk_closure]) takes its fuel as an argument, and [walk_closure_total] shows
    that [walk_fuel] is enough for it over any store. All other recursion is structural,
    and input sizes are restricted by the machine widths only.

    ** Not modelled

    OpenRaft itself, sockets, threads and child processes ([okv-consensus]
    processes and contracts, the other processes of [okv-object], the services of
    [okv-postgres], the framing of [range_read_service.rs]): they are asynchronous
    I/O around the decisions modelled here. Of the resolvers, the deliberately
    broken modes of their contract and the recovery run of memory-only resolvers.
    Of the object client, its conformance suite and the constructors that
    open drivers; of the publication adapter, its scenario drivers. [okv-htap],
    which is built on Arrow and Parquet. The simulators of [okv-sim], the
    measurement drivers of [okv-slate] and the evaluation harness [okv-eval]: they
    test or measure what is modelled directly. *)

From stdpp Require Export base tactics numbers list gmap strings sorting.

(** ** Outcomes of fallible code

    [Ok] and [Err] are Rust's [Result]; [Panic] is a panicking call
    ([expect], [BTreeMap::range] on an inverted range, ...). *)
Inductive res (E A : Type) : Type :=
  | Ok (a : A)
  | Err (e : E)
  | Panic.
Arguments Ok {E A} a.
Arguments Err {E A} e.
Arguments Panic {E A}.

Definition res_bind {E A B} (r : res E A) (k : A → res E B) : res E B :=
  match r with
  | Ok a => k a
  | Err e => Err e
  | Panic => Panic
  end.

Definition res_map {E A B} (f : A → B) (r : res E A) : res E B :=
  res_bind r (λ a, Ok (f a)).

Definition map_err {E F A} (f : E → F) (r : res E A) : res F A :=
  match r with
  | Ok a => Ok a
  | Err e => Err (f e)
  | Panic => Panic
  end.

Declare Scope okv_scope.
Delimit Scope okv_scope with okv.

(** [let? x := e in k] is the [?] operator. *)
Notation "'let?' x := e 'in' k" := (res_bind e (λ x, k))
  (at level 10, x binder, e at level 100, k at level 200) : okv_scope.
Notation "'guard!' b 'else' e 'in' k" := (if b then k else Err e)
  (at level 10, b at level 100, e at level 100, k at level 200) : okv_scope.
Open Scope okv_scope.

#[global] Instance res_eq_dec {E A} `{EqDecision E, EqDecision A} : EqDecision (res E A).
Proof. solve_decision. Defined.

Lemma res_bind_Ok {E A B} (r : res E A) (k : A → res E B) b :
  res_bind r k = Ok b ↔ ∃ a, r = Ok a ∧ k a = Ok b.
Proof. destruct r; naive_solver. Qed.

Lemma res_bind_assoc {E A B C} (r : res E A) (k : A → res E B) (l : B → res E C) :
  res_bind (res_bind r k) l = res_bind r (λ a, res_bind (k a) l).
Proof. by destruct r. Qed.

(** Left fold whose body may fail: a [for] loop with [?] in it. *)
Fixpoint res_fold {E A S} (f : S → A → res E S) (l : list A) (s : S) : res E S :=
  match l with
  | [] => Ok s
  | x :: l => let? s' := f s x in res_fold f l s'
  end.

Lemma res_fold_app {E A S} (f : S → A → res E S) l1 l2 s :
  res_fold f (l1 ++ l2) s = let? s' := res_fold f l1 s in res_fold f l2 s'.
Proof.
  revert s. induction l1 as [|x l1 IH]; intros s; [done|].
  simpl. rewrite res_bind_assoc. destruct (f s x); simpl; [apply IH|done..].
Qed.

(** An invariant of the loop body is an invariant of the loop. *)
Lemma res_fold_inv {E A S} (P : S → Prop) (f : S → A → res E S) l s s' :
  (∀ t x t', x ∈ l → P t → f t x = Ok t' → P t') →
  P s → res_fold f l s = Ok s' → P s'.
Proof.
  revert s. induction l as [|x l IH]; intros s Hstep Hs; simpl; [naive_solver|].
  intros (t & Ht & Hl)%res_bind_Ok.
  eapply IH; [|eapply (Hstep s x t); eauto; constructor|done].
  intros t1 y t2 Hy. apply Hstep. by constructor.
Qed.

(** [collect::<Result<Vec<_>, _>>()]. *)
Fixpoint res_collect {E A B} (f : A → res E B) (l : list A) : res E (list B) :=
  match l with
  | [] => Ok []
  | x :: l => let? y := f x in let? ys := res_collect f l in Ok (y :: ys)
  end.

Lemma res_collect_Ok {E A B} (f : A → res E B) l ys :
  res_collect f l = Ok ys ↔ Forall2 (λ x y, f x = Ok y) l ys.
Proof.
  revert ys. induction l as [|x l IH]; intros ys; simpl.
  - split; [intros [= <-]; constructor|by inversion 1].
  - split.
    + intros (y & Hy & (zs & Hzs & [= <-])%res_bind_Ok)%res_bind_Ok.
      constructor; [done|by apply IH].
    + inversion 1 as [|? y ? zs Hy Hzs]; subst. rewrite Hy. simpl.
      apply IH in Hzs. by rewrite Hzs.
Qed.

(** ** Machine integers

    A [w]-bit unsigned integer is an [N]; the operations the source uses at its
    width are written out. *)
Definition U64_MAX : N := 18446744073709551615.
Definition U32_MAX : N := 4294967295.

Definition u64_wf (n : N) : Prop := (n ≤ U64_MAX)%N.

Definition saturating_add (a b : N) : N := (a + b) `min` U64_MAX.
Definition saturating_sub (a b : N) : N := a - b.

Lemma saturating_add_wf a b : u64_wf (saturating_add a b).
Proof. unfold u64_wf, saturating_add. lia. Qed.

Lemma saturating_add_succ a : (a < U64_MAX)%N → saturating_add a 1 = (a + 1)%N.
Proof. unfold saturating_add. lia. Qed.

Lemma saturating_add_le a b : u64_wf a → (a ≤ saturating_add a b)%N.
Proof. unfold u64_wf, saturating_add. lia. Qed.

(** [usize] of a collection length as the [u64] the code converts it to. *)
Definition len {A} (l : list A) : N := N.of_nat (length l).

(** ** Small shared facts on booleans, options and lists *)
Definition is_some {A} (o : option A) : bool :=
  match o with Some _ => true | None => false end.

Lemma is_some_spec {A} (o : option A) : is_some o = true ↔ is_Some o.
Proof.
  destruct o; simpl; split; [by eexists|done|done|].
  intros Hs. by apply is_Some_None in Hs.
Qed.

Lemma is_some_false {A} (o : option A) : is_some o = false ↔ o = None.
Proof. by destruct o. Qed.

Lemma existsb_exists' {A} (f : A → bool) l :
  existsb f l = true ↔ ∃ x, x ∈ l ∧ f x = true.
Proof. rewrite existsb_exists. by setoid_rewrite list_elem_of_In. Qed.

Lemma existsb_false {A} (f : A → bool) l :
  existsb f l = false ↔ ∀ x, x ∈ l → f x = false.
Proof.
  rewrite <-not_true_iff_false, existsb_exists'. split.
  - intros H x Hx. apply not_true_iff_false. naive_solver.
  - intros H (x & Hx & Hf). rewrite H in Hf; done.
Qed.
(** The first element with a property. *)
Lemma first_true {A} (f : A → bool) l :
  existsb f l = true → ∃ i x, l !! i = Some x ∧ f x = true ∧ existsb f (take i l) = false.
Proof.
  induction l as [|y l IH]; [done|]. simpl. destruct (f y) eqn:Hy; [by exists 0, y|].
  intros (i & x & Hi & Hx & Hpre)%IH. exists (S i), x. simpl. by rewrite Hy, Hpre.
Qed.

Lemma forallb_Forall {A} (f : A → bool) l :
  forallb f l = true ↔ Forall (λ x, f x = true) l.
Proof. by rewrite forallb_forall, Forall_forall; setoid_rewrite list_elem_of_In. Qed.

Lemma cons_eq_inv {A} (x y : A) l k : x :: l = y :: k → x = y ∧ l = k.
Proof. by intros [= -> ->]. Qed.

(** [Iterator::min] over integers. *)
Definition iter_min (l : list N) : option N :=
  match l with
  | [] => None
  | x :: l => Some (foldl N.min x l)
  end.

Lemma foldl_min_spec l x :
  (foldl N.min x l ≤ x)%N ∧ (∀ y, y ∈ l → (foldl N.min x l ≤ y)%N) ∧
  foldl N.min x l ∈ x :: l.
Proof.
  revert x. induction l as [|z l IH]; intros x; simpl.
  { split_and!; [lia|intros y Hy; by apply elem_of_nil in Hy|by constructor]. }
  destruct (IH (N.min x z)) as (H1 & H2 & H3). split_and!; [lia| |].
  - intros y [->|Hy]%elem_of_cons; [lia|auto].
  - apply elem_of_cons in H3 as [->|H3]; [|by do 2 constructor].
    destruct (N.min_spec x z) as [[_ ->]|[_ ->]]; repeat constructor.
Qed.

Lemma iter_min_Some l m :
  iter_min l = Some m → m ∈ l ∧ ∀ y, y ∈ l → (m ≤ y)%N.
Proof.
  destruct l as [|x l]; [done|]. simpl. intros [= <-].
  destruct (foldl_min_spec l x) as (H1 & H2 & H3). split; [done|].
  intros y [->|Hy]%elem_of_cons; auto.
Qed.

Lemma iter_min_None l : iter_min l = None ↔ l = [].
Proof. by destruct l. Qed.

(** [slice::partition_point]: the binary search of [core::slice], which probes
    [base + size / 2] while more than one candidate is left. [size] fuel is
    enough because every probe shrinks the candidates. *)
Fixpoint bsearch_loop {A} (fuel : nat) (p : A → bool) (l : list A) (base size : nat) : nat :=
  match fuel with
  | O => base
  | S fuel =>
      if size <=? 1 then base
      else
        let half := size / 2 in
        let mid := base + half in
        bsearch_loop fuel p l (if default false (p <$> l !! mid) then mid else base)
          (size - half)
  end.

Definition partition_point {A} (p : A → bool) (l : list A) : nat :=
  match l with
  | [] => 0
  | _ :: _ =>
      let base := bsearch_loop (length l) p l 0 (length l) in
      base + (if default false (p <$> l !! base) then 1 else 0)
  end.

(** [l] is partitioned at [k]: [p] holds exactly of the first [k] elements. *)
Definition partitioned {A} (p : A → bool) (l : list A) (k : nat) : Prop :=
  k ≤ length l ∧ ∀ i x, l !! i = Some x → p x = bool_decide (i < k).

Lemma partitioned_lookup {A} (p : A → bool) l k i :
  partitioned p l k → i < length l → default false (p <$> l !! i) = bool_decide (i < k).
Proof.
  intros [_ Hp] Hi. destruct (lookup_lt_is_Some_2 l i Hi) as [x Hx].
  rewrite Hx. simpl. by apply Hp.
Qed.

Lemma bsearch_loop_spec {A} (p : A → bool) l k fuel base size :
  partitioned p l k → 0 < size → base + size ≤ length l → size ≤ S fuel →
  k ≤ base + size → (base = 0 ∨ base < k) →
  let b := bsearch_loop fuel p l base size in
  b < length l ∧ k ≤ b + 1 ∧ (b = 0 ∨ b < k).
Proof.
  intros Hp. revert base size. induction fuel as [|fuel IH]; intros base size Hs Hl Hf Hk Hb.
  { simpl. lia. }
  cbn [bsearch_loop]. destruct (size <=? 1) eqn:Hsz.
  { apply Nat.leb_le in Hsz. lia. }
  apply Nat.leb_gt in Hsz.
  assert (1 ≤ size / 2 ∧ 2 * (size / 2) ≤ size) as Hhalf.
  { pose proof (Nat.div_mod_eq size 2). pose proof (Nat.mod_upper_bound size 2). lia. }
  rewrite (partitioned_lookup p l k) by (done || lia).
  case_bool_decide; apply IH; lia.
Qed.

Lemma partition_point_spec {A} (p : A → bool) l k :
  partitioned p l k → partition_point p l = k.
Proof.
  intros Hp. unfold partition_point. destruct l as [|x l].
  { destruct Hp as [Hk _]. simpl in Hk. lia. }
  set (xs := x :: l) in *.
  destruct (bsearch_loop_spec p xs k (length xs) 0 (length xs)) as (Hb & Hk & Hor);
    try (simpl; lia); try done; [by destruct Hp|].
  rewrite (partitioned_lookup p xs k) by done. case_bool_decide; lia.
Qed.

(** ** Strings: [is_empty] and [ends_with('/')] *)
Definition str_is_empty (s : string) : bool :=
  match s with EmptyString => true | String _ _ => false end.

Fixpoint ends_with_slash (s : string) : bool :=
  match s with
  | EmptyString => false
  | String c EmptyString => bool_decide (Ascii.N_of_ascii c = 47%N)
  | String _ s => ends_with_slash s
  end.

Lemma str_is_empty_true s : str_is_empty s = true ↔ s = EmptyString.
Proof. by destruct s. Qed.

Lemma str_is_empty_false s : str_is_empty s = false ↔ s ≠ EmptyString.
Proof. by destruct s. Qed.

(** ** The development's tactics and hint database *)
Create HintDb okv.
Create Rewrite HintDb len_simpl.
#[export] Hint Resolve saturating_add_wf saturating_add_le : okv.
#[export] Hint Rewrite @length_app @length_take @length_drop @length_fmap
  @length_replicate : len_simpl.

(** Split every boolean guard that occurs in the goal or in a hypothesis. *)
Ltac case_guards :=
  repeat match goal with
  | |- context [if ?b then _ else _] => destruct b eqn:?
  | H : context [if ?b then _ else _] |- _ => destruct b eqn:?
  end.

(** Undo the unfolding of [omap] on lists by [simpl]. *)
Ltac fold_omap :=
  repeat match goal with
  | |- context [list_omap ?A ?B ?f ?l] => change (list_omap A B f l) with (omap f l)
  | H : context [list_omap ?A ?B ?f ?l] |- _ =>
      change (list_omap A B f l) with (omap f l) in H
  end.

(** Invert a successful monadic computation in hypothesis [H]. *)
Ltac inv_bind H :=
  let a := fresh "a" in let Ha := fresh "Hbind" in
  apply res_bind_Ok in H; destruct H as (a & Ha & H).

Ltac destruct_bool_hyps :=
  repeat match goal with
  | H : true = false |- _ => discriminate H
  | H : false = true |- _ => discriminate H
  | H : _ && _ = true |- _ => apply andb_true_iff in H; destruct H
  | H : _ && _ = false |- _ => apply andb_false_iff in H
  | H : _ || _ = false |- _ => apply orb_false_iff in H; destruct H
  | H : _ || _ = true |- _ => apply orb_true_iff in H
  | H : negb _ = true |- _ => apply negb_true_iff in H
  | H : negb _ = false |- _ => apply negb_false_iff in H
  | H : bool_decide _ = true |- _ => apply bool_decide_eq_true_1 in H
  | H : bool_decide _ = false |- _ => apply bool_decide_eq_false_1 in H
  | H : is_some _ = false |- _ => apply is_some_false in H
  | H : is_some _ = true |- _ => apply is_some_spec in H
  | H : (_ =? _)%N = true |- _ => apply N.eqb_eq in H
  | H : (_ =? _)%N = false |- _ => apply N.eqb_neq in H
  | H : (_ <=? _)%N = true |- _ => apply N.leb_le in H
  | H : (_ <=? _)%N = false |- _ => apply N.leb_gt in H
  | H : (_ <? _)%N = true |- _ => apply N.ltb_lt in H
  | H : (_ <? _)%N = false |- _ => apply N.ltb_ge in H
  | H : str_is_empty _ = true |- _ => apply str_is_empty_true in H
  | H : str_is_empty _ = false |- _ => apply str_is_empty_false in H
  | H : _ ∨ _ |- _ => destruct H
  end.
