(* ===== verification/Order.v ===== *)
(** * Ordered keys and ordered maps

    Rust's [Ord] as a class with an executable comparison, its instances for
    integers, byte strings, tuples and strings, and [BTreeMap] as a [gmap]
    read through its key-sorted list of entries. *)

From S2P Require Import Prelude.

(** ** Rust's [Ord] *)
Class KeyOrder (K : Type) := {
  kcmp : K → K → comparison;
  kcmp_eq x y : kcmp x y = Eq ↔ x = y;
  kcmp_antisym x y : kcmp y x = CompOpp (kcmp x y);
  kcmp_trans x y z : kcmp x y = Lt → kcmp y z = Lt → kcmp x z = Lt;
}.

Definition key_lt `{KeyOrder K} (x y : K) : Prop := kcmp x y = Lt.
Definition key_le `{KeyOrder K} (x y : K) : Prop := kcmp x y ≠ Gt.
Definition key_ltb `{KeyOrder K} (x y : K) : bool :=
  match kcmp x y with Lt => true | _ => false end.
Definition key_leb `{KeyOrder K} (x y : K) : bool :=
  match kcmp x y with Gt => false | _ => true end.
Definition key_eqb `{KeyOrder K} (x y : K) : bool :=
  match kcmp x y with Eq => true | _ => false end.

Infix "<ₖ" := key_lt (at level 70) : okv_scope.
Infix "≤ₖ" := key_le (at level 70) : okv_scope.
Infix "<ₖ?" := key_ltb (at level 68) : okv_scope.
Infix "≤ₖ?" := key_leb (at level 68) : okv_scope.
Infix "=ₖ?" := key_eqb (at level 68) : okv_scope.

Section key_order.
Context `{KeyOrder K}.
Implicit Types x y z : K.

Lemma kcmp_refl x : kcmp x x = Eq.
Proof. by apply kcmp_eq. Qed.

Lemma key_lt_irrefl x : ¬ x <ₖ x.
Proof. unfold key_lt. by rewrite kcmp_refl. Qed.

Lemma key_lt_trans x y z : x <ₖ y → y <ₖ z → x <ₖ z.
Proof. apply kcmp_trans. Qed.

Lemma key_le_lt_eq x y : x ≤ₖ y ↔ x <ₖ y ∨ x = y.
Proof.
  unfold key_le, key_lt. rewrite <-kcmp_eq. destruct (kcmp x y); naive_solver.
Qed.

Lemma key_lt_le x y : x <ₖ y → x ≤ₖ y.
Proof. rewrite key_le_lt_eq. auto. Qed.

Lemma key_le_refl x : x ≤ₖ x.
Proof. rewrite key_le_lt_eq. auto. Qed.

Lemma key_not_lt x y : ¬ x <ₖ y ↔ y ≤ₖ x.
Proof.
  unfold key_le, key_lt. rewrite (kcmp_antisym x y).
  destruct (kcmp x y); naive_solver.
Qed.

Lemma key_not_le x y : ¬ x ≤ₖ y ↔ y <ₖ x.
Proof.
  unfold key_le, key_lt. rewrite (kcmp_antisym x y).
  destruct (kcmp x y); naive_solver.
Qed.

Lemma key_le_lt_trans x y z : x ≤ₖ y → y <ₖ z → x <ₖ z.
Proof. rewrite key_le_lt_eq. intros [?| ->]; eauto using key_lt_trans. Qed.

Lemma key_lt_le_trans x y z : x <ₖ y → y ≤ₖ z → x <ₖ z.
Proof. rewrite key_le_lt_eq. intros ? [?|<-]; eauto using key_lt_trans. Qed.

Lemma key_le_trans x y z : x ≤ₖ y → y ≤ₖ z → x ≤ₖ z.
Proof.
  rewrite !key_le_lt_eq.
  intros [?| ->] [?| ->]; eauto using key_lt_trans.
Qed.

Lemma key_le_antisymm x y : x ≤ₖ y → y ≤ₖ x → x = y.
Proof.
  rewrite !key_le_lt_eq. intros [Hxy| ->] [Hyx|?]; try done.
  destruct (key_lt_irrefl x). by eapply key_lt_trans.
Qed.

Lemma key_trichotomy x y : x <ₖ y ∨ x = y ∨ y <ₖ x.
Proof.
  destruct (kcmp x y) eqn:E.
  - right; left. by apply kcmp_eq.
  - by left.
  - right; right. apply key_not_le. unfold key_le. rewrite E. auto.
Qed.

Lemma key_ltb_spec x y : x <ₖ? y = true ↔ x <ₖ y.
Proof. unfold key_ltb, key_lt. by destruct (kcmp x y). Qed.
Lemma key_leb_spec x y : x ≤ₖ? y = true ↔ x ≤ₖ y.
Proof. unfold key_leb, key_le. destruct (kcmp x y); naive_solver. Qed.
Lemma key_ltb_false x y : x <ₖ? y = false ↔ y ≤ₖ x.
Proof. rewrite <-not_true_iff_false, key_ltb_spec. apply key_not_lt. Qed.
Lemma key_leb_false x y : x ≤ₖ? y = false ↔ y <ₖ x.
Proof. rewrite <-not_true_iff_false, key_leb_spec. apply key_not_le. Qed.
Lemma key_eqb_spec x y : x =ₖ? y = true ↔ x = y.
Proof. rewrite <-kcmp_eq. unfold key_eqb. by destruct (kcmp x y). Qed.
Lemma key_eqb_false x y : x =ₖ? y = false ↔ x ≠ y.
Proof. by rewrite <-not_true_iff_false, key_eqb_spec. Qed.

Lemma key_lt_ne x y : x <ₖ y → x ≠ y.
Proof. intros Hlt ->. by apply key_lt_irrefl in Hlt. Qed.

#[global] Instance key_lt_dec : RelDecision (key_lt (K:=K)).
Proof. intros x y. unfold key_lt. solve_decision. Defined.
#[global] Instance key_le_dec : RelDecision (key_le (K:=K)).
Proof. intros x y. unfold key_le. solve_decision. Defined.
#[global] Instance key_le_total : Total (key_le (K:=K)).
Proof.
  intros x y. destruct (key_trichotomy x y) as [?|[->|?]];
    auto using key_lt_le, key_le_refl.
Qed.
#[global] Instance key_le_po : PartialOrder (key_le (K:=K)).
Proof.
  split; [split|]; intros x; eauto using key_le_refl, key_le_trans, key_le_antisymm.
Qed.
End key_order.

#[export] Hint Resolve key_lt_le key_le_refl : okv.

(** Decide an order goal from order hypotheses on two or three keys. *)
Ltac key_order :=
  repeat match goal with
  | H : key_ltb _ _ = true |- _ => apply key_ltb_spec in H
  | H : key_leb _ _ = true |- _ => apply key_leb_spec in H
  | H : key_ltb _ _ = false |- _ => apply key_ltb_false in H
  | H : key_leb _ _ = false |- _ => apply key_leb_false in H
  | H : key_eqb _ _ = true |- _ => apply key_eqb_spec in H; subst
  | H : key_eqb _ _ = false |- _ => apply key_eqb_false in H
  | H : ¬ key_le _ _ |- _ => apply key_not_le in H
  | H : ¬ key_lt _ _ |- _ => apply key_not_lt in H
  | |- key_ltb _ _ = true => apply key_ltb_spec
  | |- key_leb _ _ = true => apply key_leb_spec
  | |- key_ltb _ _ = false => apply key_ltb_false
  | |- key_leb _ _ = false => apply key_leb_false
  | |- ¬ key_le _ _ => apply key_not_le
  | |- ¬ key_lt _ _ => apply key_not_lt
  end;
  try solve
    [ eauto 4 using key_lt_trans, key_le_trans, key_lt_le_trans, key_le_lt_trans,
        key_lt_le, key_le_refl, key_le_antisymm
    | exfalso; match goal with
      | H1 : key_lt ?x ?y, H2 : key_le ?y ?x |- _ =>
          exact (key_lt_irrefl _ (key_lt_le_trans _ _ _ H1 H2))
      | H1 : key_lt ?x ?y, H2 : key_lt ?y ?x |- _ =>
          exact (key_lt_irrefl _ (key_lt_trans _ _ _ H1 H2))
      | H1 : key_lt ?x ?x |- _ => exact (key_lt_irrefl _ H1)
      end ].

(** ** Instances *)
#[global] Program Instance N_key_order : KeyOrder N := {| kcmp := N.compare |}.
Next Obligation. intros; apply N.compare_eq_iff. Qed.
Next Obligation. intros; apply N.compare_antisym. Qed.
Next Obligation. intros x y z; rewrite !N.compare_lt_iff. lia. Qed.

Lemma N_key_lt (x y : N) : x <ₖ y ↔ (x < y)%N.
Proof. apply N.compare_lt_iff. Qed.
Lemma N_key_le (x y : N) : x ≤ₖ y ↔ (x ≤ y)%N.
Proof. by rewrite <-key_not_lt, N_key_lt, N.nlt_ge. Qed.

(** Tuples compare field by field. *)
Section pair_order.
Context `{KeyOrder A, KeyOrder B}.
Definition pair_cmp (p q : A * B) : comparison :=
  match kcmp p.1 q.1 with
  | Eq => kcmp p.2 q.2
  | c => c
  end.
#[global] Program Instance pair_key_order : KeyOrder (A * B) := {| kcmp := pair_cmp |}.
Next Obligation.
  intros [a1 b1] [a2 b2]. unfold pair_cmp; simpl.
  destruct (kcmp a1 a2) eqn:E.
  - apply kcmp_eq in E. rewrite kcmp_eq. naive_solver.
  - split; [done|]. intros [= -> ->]. by rewrite kcmp_refl in E.
  - split; [done|]. intros [= -> ->]. by rewrite kcmp_refl in E.
Qed.
Next Obligation.
  intros [a1 b1] [a2 b2]. unfold pair_cmp; simpl.
  rewrite (kcmp_antisym a1 a2). destruct (kcmp a1 a2); simpl; auto using kcmp_antisym.
Qed.
Next Obligation.
  intros [a1 b1] [a2 b2] [a3 b3]. unfold pair_cmp; simpl.
  destruct (kcmp a1 a2) eqn:E12; [|destruct (kcmp a2 a3) eqn:E23|]; intros H12 H23; try done.
  - apply kcmp_eq in E12 as ->. destruct (kcmp a2 a3) eqn:E; [|done..].
    by eapply kcmp_trans.
  - apply kcmp_eq in E23 as <-. by rewrite E12.
  - by rewrite (kcmp_trans _ _ _ E12 E23).
Qed.
End pair_order.

(** Slices compare lexicographically, a proper prefix first. *)
Section list_order.
Context `{KeyOrder A}.
Fixpoint list_cmp (l1 l2 : list A) : comparison :=
  match l1, l2 with
  | [], [] => Eq
  | [], _ => Lt
  | _, [] => Gt
  | x :: l1, y :: l2 =>
      match kcmp x y with
      | Eq => list_cmp l1 l2
      | c => c
      end
  end.
#[global] Program Instance list_key_order : KeyOrder (list A) := {| kcmp := list_cmp |}.
Next Obligation.
  induction x as [|x l1 IH]; intros [|y l2]; simpl; try done.
  destruct (kcmp x y) eqn:E.
  - apply kcmp_eq in E. rewrite IH. naive_solver.
  - split; [done|]. intros [= -> ->]. by rewrite kcmp_refl in E.
  - split; [done|]. intros [= -> ->]. by rewrite kcmp_refl in E.
Qed.
Next Obligation.
  induction x as [|x l1 IH]; intros [|y l2]; simpl; try done.
  rewrite (kcmp_antisym x y). by destruct (kcmp x y); simpl.
Qed.
Next Obligation.
  induction x as [|x l1 IH]; intros [|y l2] [|z l3]; simpl; try done.
  destruct (kcmp x y) eqn:E12; [|destruct (kcmp y z) eqn:E23|]; intros H12 H23; try done.
  - apply kcmp_eq in E12 as ->. destruct (kcmp y z) eqn:E; [|done..].
    by eapply IH.
  - apply kcmp_eq in E23 as <-. by rewrite E12.
  - by rewrite (kcmp_trans _ _ _ E12 E23).
Qed.

Lemma list_cmp_app_l (l l1 l2 : list A) : kcmp (l ++ l1) (l ++ l2) = kcmp l1 l2.
Proof. induction l as [|x l IH]; [done|]. simpl in *. by rewrite kcmp_refl. Qed.

Lemma list_cmp_app_eq (l1 l2 l1' l2' : list A) :
  length l1 = length l2 →
  kcmp (l1 ++ l1') (l2 ++ l2') =
  match kcmp l1 l2 with Eq => kcmp l1' l2' | c => c end.
Proof.
  revert l2. induction l1 as [|x l1 IH]; intros [|y l2] Hl; simplify_eq/=; [done|].
  destruct (kcmp x y); [|done..]. by apply IH.
Qed.
End list_order.

(** A type ordered through an injective projection (newtypes, records). *)
Section projected_order.
Context `{KeyOrder B} {A : Type} (f : A → B) `{!Inj (=) (=) f}.
Program Definition projected_order : KeyOrder A := {| kcmp x y := kcmp (f x) (f y) |}.
Next Obligation. intros x y; simpl. rewrite kcmp_eq. naive_solver. Qed.
Next Obligation. intros; apply kcmp_antisym. Qed.
Next Obligation. intros x y z; apply kcmp_trans. Qed.
End projected_order.

(** Rust orders a [String] by its bytes. *)
Fixpoint string_bytes (s : string) : list N :=
  match s with
  | EmptyString => []
  | String c s => Ascii.N_of_ascii c :: string_bytes s
  end.

#[global] Instance string_bytes_inj : Inj (=) (=) string_bytes.
Proof.
  intros s. induction s as [|c s IH]; intros [|d t]; simpl; intros [=]; [done|].
  f_equal; [|by apply IH].
  rewrite <-(Ascii.ascii_N_embedding c), <-(Ascii.ascii_N_embedding d). by f_equal.
Qed.

#[global] Instance string_key_order : KeyOrder string := projected_order string_bytes.
