(* ===== verification/BTree.v ===== *)
(** * [BTreeMap] and [BTreeSet]

    An ordered map is a [gmap]; what the code observes of the order is read
    through [bt_items], the entries by ascending key. *)

From S2P Require Import Prelude Order.

Lemma Forall_lfilter {A} (P : A → Prop) f l : Forall P l → Forall P (List.filter f l).
Proof. induction 1 as [|x l Hx _ IH]; simpl; [done|]. destruct (f x); [by constructor|done]. Qed.

Lemma ssorted_lfilter {A} (R : relation A) f l :
  StronglySorted R l → StronglySorted R (List.filter f l).
Proof.
  induction 1 as [|x l Hl IH Hx]; simpl; [constructor|].
  destruct (f x); [|done]. constructor; [done|]. by apply Forall_lfilter.
Qed.

(** Two lists sorted by an asymmetric relation with the same elements are the
    same list. *)
Lemma ssorted_ext {A} (R : relation A) l1 l2 :
  (∀ x y, R x y → R y x → False) →
  StronglySorted R l1 → StronglySorted R l2 → (∀ x, x ∈ l1 ↔ x ∈ l2) → l1 = l2.
Proof.
  intros Hasym H1. revert l2. induction H1 as [|p l1 Hl1 IH Hp]; intros l2 H2 Hiff.
  - destruct l2 as [|q l2]; [done|].
    assert (q ∈ []) as Hq%elem_of_nil; [|done]. apply Hiff. constructor.
  - destruct H2 as [|q l2 Hl2 Hq].
    { assert (p ∈ []) as Hp'%elem_of_nil; [|done]. apply Hiff. constructor. }
    rewrite Forall_forall in Hp, Hq.
    assert (p = q) as <-.
    { destruct (proj1 (elem_of_cons _ _ _) (proj1 (Hiff p) (list_elem_of_here _ _)))
        as [?|Hpq]; [done|].
      destruct (proj1 (elem_of_cons _ _ _) (proj2 (Hiff q) (list_elem_of_here _ _)))
        as [?|Hqp]; [done|].
      destruct (Hasym p q); auto. }
    f_equal. apply IH; [done|]. intros r. split; intros Hr.
    + destruct (proj1 (elem_of_cons _ _ _) (proj1 (Hiff r) (list_elem_of_further _ _ _ Hr)))
        as [->|?]; [|done].
      destruct (Hasym p p); auto.
    + destruct (proj1 (elem_of_cons _ _ _) (proj2 (Hiff r) (list_elem_of_further _ _ _ Hr)))
        as [->|?]; [|done].
      destruct (Hasym p p); auto.
Qed.

(** Deleting a list of keys one by one. *)
Lemma delete_list_lookup `{Countable K} {A} (m : gmap K A) ks k :
  foldl (λ m k, delete k m) m ks !! k = if bool_decide (k ∈ ks) then None else m !! k.
Proof.
  revert m. induction ks as [|k' ks IH]; intros m; simpl; [done|].
  rewrite IH. destruct (decide (k' = k)) as [->|Hne].
  - rewrite lookup_delete_eq, (bool_decide_true (k ∈ k :: ks)) by by constructor.
    by case_bool_decide.
  - rewrite lookup_delete_ne by done. repeat case_bool_decide; try done.
    + by exfalso; eauto using list_elem_of_further.
    + match goal with H : _ ∈ _ :: _ |- _ => by apply elem_of_cons in H as [?|?] end.
Qed.

Section btree.
Context `{Countable K} {KO : KeyOrder K} {V : Type}.
Implicit Types (m : gmap K V) (k : K) (v : V) (l : list (K * V)).

Definition entry_le (p q : K * V) : Prop := p.1 ≤ₖ q.1.
Definition entry_lt (p q : K * V) : Prop := p.1 <ₖ q.1.

#[global] Instance entry_le_dec : RelDecision entry_le.
Proof. intros p q. unfold entry_le. apply _. Defined.
#[global] Instance entry_le_total : Total entry_le.
Proof. intros p q. apply key_le_total. Qed.
#[global] Instance entry_le_trans : Transitive entry_le.
Proof. intros p q r. apply key_le_trans. Qed.

(** [iter()]: the entries by ascending key. *)
Definition bt_items m : list (K * V) := merge_sort entry_le (map_to_list m).

(** [range(..)] over the keys [f] selects. *)
Definition bt_range (f : K → bool) m : list (K * V) :=
  List.filter (λ p, f p.1) (bt_items m).

(** [last_key_value()], [range(..).next_back()]. *)
Definition bt_last m : option (K * V) := last (bt_items m).
Definition bt_range_last (f : K → bool) m : option (K * V) := last (bt_range f m).

(** [retain(|k, _| f(k))]. *)
Definition bt_retain (f : K → bool) m : gmap K V := filter (λ p, f p.1 = true) m.

Lemma elem_of_bt_items m k v : (k, v) ∈ bt_items m ↔ m !! k = Some v.
Proof. unfold bt_items. by rewrite merge_sort_Permutation, elem_of_map_to_list. Qed.

Lemma bt_items_NoDup m : NoDup (bt_items m).*1.
Proof.
  unfold bt_items. rewrite merge_sort_Permutation. apply NoDup_fst_map_to_list.
Qed.

Lemma elem_of_bt_range f m k v :
  (k, v) ∈ bt_range f m ↔ m !! k = Some v ∧ f k = true.
Proof.
  unfold bt_range. rewrite list_elem_of_In, filter_In, <-list_elem_of_In.
  by rewrite elem_of_bt_items.
Qed.

(** Strict sortedness of an association list by its keys. *)
Definition keys_sorted l : Prop := StronglySorted entry_lt l.

Lemma sorted_le_NoDup_lt l :
  StronglySorted entry_le l → NoDup l.*1 → keys_sorted l.
Proof.
  induction 1 as [|p l Hl IH Hp]; intros Hnd; [constructor|].
  apply NoDup_cons in Hnd as [Hnotin Hnd].
  constructor; [by apply IH|].
  rewrite Forall_forall in Hp |- *. intros q Hq.
  destruct (proj1 (key_le_lt_eq _ _) (Hp q Hq)) as [?|Heq]; [done|].
  destruct Hnotin. apply list_elem_of_fmap. by exists q.
Qed.

Lemma bt_items_sorted m : keys_sorted (bt_items m).
Proof.
  apply sorted_le_NoDup_lt; [|apply bt_items_NoDup].
  apply StronglySorted_merge_sort; apply _.
Qed.

Lemma keys_sorted_filter f l : keys_sorted l → keys_sorted (List.filter f l).
Proof. apply ssorted_lfilter. Qed.

Lemma bt_range_sorted f m : keys_sorted (bt_range f m).
Proof. apply keys_sorted_filter, bt_items_sorted. Qed.

(** Two sorted lists with the same entries are the same list. *)
Lemma keys_sorted_ext l1 l2 :
  keys_sorted l1 → keys_sorted l2 → (∀ p, p ∈ l1 ↔ p ∈ l2) → l1 = l2.
Proof. apply ssorted_ext. unfold entry_lt. intros p q ? ?. key_order. Qed.

Lemma keys_sorted_last l p q :
  keys_sorted l → last l = Some p → q ∈ l → q.1 ≤ₖ p.1.
Proof.
  intros Hs Hlast Hq. apply last_Some in Hlast as [l' ->].
  apply elem_of_app in Hq as [Hq|Hq%list_elem_of_singleton]; [|subst; apply key_le_refl].
  apply key_lt_le. change (entry_lt q p).
  eapply (StronglySorted_app_1_elem_of _ l' [p]); [done..|].
  by apply list_elem_of_singleton.
Qed.

Lemma bt_range_last_Some f m k v :
  bt_range_last f m = Some (k, v) ↔
  m !! k = Some v ∧ f k = true ∧
  ∀ k' v', m !! k' = Some v' → f k' = true → k' ≤ₖ k.
Proof.
  unfold bt_range_last. split.
  - intros Hlast.
    assert ((k, v) ∈ bt_range f m) as Hin.
    { apply last_Some in Hlast as [l' ->]. set_solver. }
    apply elem_of_bt_range in Hin as [Hk Hf]. split_and!; [done..|].
    intros k' v' Hk' Hf'.
    apply (keys_sorted_last _ (k, v) (k', v') (bt_range_sorted f m) Hlast).
    by apply elem_of_bt_range.
  - intros (Hk & Hf & Hmax).
    destruct (last (bt_range f m)) as [[k' v']|] eqn:Hlast.
    + assert ((k', v') ∈ bt_range f m) as Hin.
      { apply last_Some in Hlast as [l' ->]. set_solver. }
      pose proof (keys_sorted_last _ _ (k, v) (bt_range_sorted f m) Hlast) as Hle.
      rewrite elem_of_bt_range in Hle. apply elem_of_bt_range in Hin as [Hk' Hf'].
      assert (k' = k) as ->; [|by simplify_eq].
      apply key_le_antisymm; [by eapply Hmax|by apply Hle].
    + apply last_None in Hlast.
      assert ((k, v) ∈ bt_range f m) as Hin by by apply elem_of_bt_range.
      rewrite Hlast in Hin. by apply elem_of_nil in Hin.
Qed.

Lemma bt_range_last_None f m :
  bt_range_last f m = None ↔ ∀ k v, m !! k = Some v → f k = false.
Proof.
  unfold bt_range_last. rewrite last_None. split.
  - intros Hnil k v Hk. apply not_true_iff_false. intros Hf.
    assert ((k, v) ∈ bt_range f m) as Hin by by apply elem_of_bt_range.
    rewrite Hnil in Hin. by apply elem_of_nil in Hin.
  - intros Hall. destruct (bt_range f m) as [|[k v] l] eqn:E; [done|].
    assert ((k, v) ∈ bt_range f m) as [Hk Hf]%elem_of_bt_range.
    { rewrite E. constructor. }
    by rewrite (Hall k v Hk) in Hf.
Qed.

Lemma bt_last_range m : bt_last m = bt_range_last (λ _, true) m.
Proof.
  unfold bt_last, bt_range_last, bt_range. f_equal.
  induction (bt_items m) as [|p l IH]; [done|]. simpl. by rewrite <-IH.
Qed.

Lemma bt_last_Some m k v :
  bt_last m = Some (k, v) ↔
  m !! k = Some v ∧ ∀ k' v', m !! k' = Some v' → k' ≤ₖ k.
Proof. rewrite bt_last_range, bt_range_last_Some. naive_solver. Qed.

Lemma bt_last_None m : bt_last m = None ↔ m = ∅.
Proof.
  rewrite bt_last_range, bt_range_last_None, map_empty. split.
  - intros Hall k. destruct (m !! k) as [v|] eqn:E; [by apply Hall in E|done].
  - intros Hall k v. by rewrite Hall.
Qed.

Lemma bt_retain_lookup f m k :
  bt_retain f m !! k = if f k then m !! k else None.
Proof.
  unfold bt_retain. destruct (f k) eqn:Hf.
  - destruct (m !! k) as [v|] eqn:E.
    + by apply map_lookup_filter_Some.
    + apply map_lookup_filter_None. by left.
  - apply map_lookup_filter_None. right. intros v _. simpl. by rewrite Hf.
Qed.

(** [values().any(f)], and the values with their keys for [iter().any]. *)
Definition bt_any (f : V → bool) m : bool := existsb (λ p, f p.2) (bt_items m).

Lemma bt_any_true f m : bt_any f m = true ↔ ∃ k v, m !! k = Some v ∧ f v = true.
Proof.
  unfold bt_any. rewrite existsb_exists'. split.
  - intros ([k v] & Hin & Hf). apply elem_of_bt_items in Hin. eauto.
  - intros (k & v & Hk & Hf). exists (k, v). by rewrite elem_of_bt_items.
Qed.

Lemma bt_any_false f m : bt_any f m = false ↔ ∀ k v, m !! k = Some v → f v = false.
Proof.
  rewrite <-not_true_iff_false, bt_any_true. split.
  - intros Hn k v Hk. apply not_true_iff_false. naive_solver.
  - intros Hf (k & v & Hk & Ht). by rewrite (Hf k v) in Ht.
Qed.
End btree.

(** ** [BTreeSet] and sorted, deduplicated vectors *)
Section sorted_lists.
Context {A : Type} `{EqDecision A} {KO : KeyOrder A}.
Implicit Types (l : list A) (x y : A).

(** [Vec::dedup]: drop all but one of each run of equal elements. *)
Fixpoint dedup l : list A :=
  match l with
  | [] => []
  | x :: l' =>
      match l' with
      | y :: _ => if decide (x = y) then dedup l' else x :: dedup l'
      | [] => [x]
      end
  end.

(** [sort(); dedup()]. *)
Definition sort_dedup l : list A := dedup (merge_sort key_le l).

Lemma elem_of_dedup l x : x ∈ dedup l ↔ x ∈ l.
Proof.
  induction l as [|y l IH]; [done|]. simpl. destruct l as [|z l]; [done|].
  case_decide as Hyz; [subst; rewrite IH; set_solver|].
  rewrite elem_of_cons, IH. by rewrite (elem_of_cons (z :: l)).
Qed.

Lemma dedup_sorted l : StronglySorted key_le l → StronglySorted key_lt (dedup l).
Proof.
  induction 1 as [|x l Hl IH Hx]; simpl; [constructor|].
  destruct l as [|y l]; [repeat constructor|].
  case_decide as Hxy; [done|]. constructor; [done|].
  apply Forall_forall. intros z Hz. rewrite elem_of_dedup in Hz.
  inversion Hl as [|? ? Hl' Hy]; subst.
  rewrite Forall_forall in Hx, Hy.
  assert (x <ₖ y) as Hlt.
  { destruct (proj1 (key_le_lt_eq x y) (Hx y (list_elem_of_here _ _))); done. }
  apply elem_of_cons in Hz as [->|Hz]; [done|].
  by eapply key_lt_le_trans; [|apply Hy].
Qed.

Lemma elem_of_sort_dedup l x : x ∈ sort_dedup l ↔ x ∈ l.
Proof. unfold sort_dedup. by rewrite elem_of_dedup, merge_sort_Permutation. Qed.

Lemma sort_dedup_sorted l : StronglySorted key_lt (sort_dedup l).
Proof. apply dedup_sorted. apply StronglySorted_merge_sort; apply _. Qed.

Lemma sorted_lt_ext l1 l2 :
  StronglySorted key_lt l1 → StronglySorted key_lt l2 →
  (∀ x, x ∈ l1 ↔ x ∈ l2) → l1 = l2.
Proof. apply ssorted_ext. intros x y ? ?. key_order. Qed.

Lemma sort_dedup_ext l1 l2 : sort_dedup l1 = sort_dedup l2 ↔ ∀ x, x ∈ l1 ↔ x ∈ l2.
Proof.
  split.
  - intros Heq x. by rewrite <-elem_of_sort_dedup, Heq, elem_of_sort_dedup.
  - intros Hiff. apply sorted_lt_ext; auto using sort_dedup_sorted.
    intros x. by rewrite !elem_of_sort_dedup.
Qed.

Lemma sorted_lt_NoDup l : StronglySorted key_lt l → NoDup l.
Proof.
  induction 1 as [|x l Hl IH Hx]; constructor; [|done].
  intros Hin. rewrite Forall_forall in Hx. specialize (Hx _ Hin). key_order.
Qed.

Context {C : Countable A}.

(** [BTreeSet::iter]. *)
Definition bts_items (s : gset A) : list A := merge_sort key_le (elements s).

Lemma elem_of_bts_items s x : x ∈ bts_items s ↔ x ∈ s.
Proof. unfold bts_items. by rewrite merge_sort_Permutation, elem_of_elements. Qed.

Lemma bts_items_sorted s : StronglySorted key_lt (bts_items s).
Proof.
  assert (NoDup (bts_items s)) as Hnd.
  { unfold bts_items. rewrite merge_sort_Permutation. apply NoDup_elements. }
  assert (StronglySorted key_le (bts_items s)) as Hs.
  { apply StronglySorted_merge_sort; apply _. }
  revert Hnd. induction Hs as [|x l Hl IH Hx]; intros Hnd; [constructor|].
  apply NoDup_cons in Hnd as [Hnotin Hnd]. constructor; [auto|].
  rewrite Forall_forall in Hx |- *. intros y Hy.
  by destruct (proj1 (key_le_lt_eq x y) (Hx y Hy)) as [?| ->].
Qed.

(** [iter().any(f)] and [iter().all(f)] of a [BTreeSet]. *)
Definition bts_any (f : A → bool) (s : gset A) : bool := existsb f (bts_items s).
Definition bts_all (f : A → bool) (s : gset A) : bool := forallb f (bts_items s).

Lemma bts_any_true f s : bts_any f s = true ↔ ∃ x, x ∈ s ∧ f x = true.
Proof. unfold bts_any. rewrite existsb_exists'. by setoid_rewrite elem_of_bts_items. Qed.

Lemma bts_any_false f s : bts_any f s = false ↔ ∀ x, x ∈ s → f x = false.
Proof. unfold bts_any. rewrite existsb_false. by setoid_rewrite elem_of_bts_items. Qed.

Lemma bts_all_true f s : bts_all f s = true ↔ ∀ x, x ∈ s → f x = true.
Proof.
  unfold bts_all. rewrite forallb_Forall, Forall_forall.
  by setoid_rewrite elem_of_bts_items.
Qed.
End sorted_lists.
