(* ===== verification/Bytes.v ===== *)
(** * Byte strings and fixed-width big-endian integers

    [to_be_bytes] / [from_be_bytes] of the unsigned integer types, with their
    round trips and the fact every codec of the system leans on: the encoding
    of integers of one width is monotone for the lexicographic byte order. *)

From S2P Require Import Prelude Order.

Abbreviation bytes := (list N).

Definition is_byte (b : N) : Prop := (b < 256)%N.
Abbreviation bytes_wf := (Forall is_byte).

Lemma bytes_wf_check (l : bytes) : forallb (λ b, (b <? 256)%N) l = true → bytes_wf l.
Proof.
  intros Hl. apply forallb_Forall in Hl. eapply Forall_impl; [exact Hl|].
  intros b Hb. by apply N.ltb_lt.
Qed.

(** [be w v]: the low [8 * w] bits of [v], most significant byte first. *)
Fixpoint be (w : nat) (v : N) : bytes :=
  match w with
  | O => []
  | S w => ((v `div` 256 ^ N.of_nat w) `mod` 256)%N :: be w v
  end.

Fixpoint of_be_acc (acc : N) (l : bytes) : N :=
  match l with
  | [] => acc
  | b :: l => of_be_acc (acc * 256 + b) l
  end.
Definition of_be (l : bytes) : N := of_be_acc 0 l.

Lemma length_be w v : length (be w v) = w.
Proof. induction w; simpl; auto. Qed.
#[export] Hint Rewrite length_be : len_simpl.

Lemma be_wf w v : bytes_wf (be w v).
Proof.
  induction w; simpl; constructor; [|done].
  unfold is_byte. apply N.mod_lt. lia.
Qed.

Lemma pow256_S w : (256 ^ N.of_nat (S w) = 256 * 256 ^ N.of_nat w)%N.
Proof. by rewrite Nat2N.inj_succ, N.pow_succ_r'. Qed.

Lemma pow256_pos w : (256 ^ N.of_nat w ≠ 0)%N.
Proof. apply N.pow_nonzero. lia. Qed.

Lemma of_be_acc_be w acc v :
  of_be_acc acc (be w v) = (acc * 256 ^ N.of_nat w + v `mod` 256 ^ N.of_nat w)%N.
Proof.
  revert acc. induction w as [|w IH]; intros acc.
  - simpl. rewrite N.mod_1_r. lia.
  - cbn [be of_be_acc]. rewrite IH, pow256_S.
    rewrite (N.mul_comm 256 (256 ^ N.of_nat w)).
    rewrite N.Div0.mod_mul_r. lia.
Qed.

Lemma of_be_be w v : (v < 256 ^ N.of_nat w)%N → of_be (be w v) = v.
Proof.
  intros Hv. unfold of_be. rewrite of_be_acc_be, N.mod_small by done. lia.
Qed.

Lemma of_be_acc_app acc l1 l2 : of_be_acc acc (l1 ++ l2) = of_be_acc (of_be_acc acc l1) l2.
Proof. revert acc. induction l1; simpl; auto. Qed.

Lemma of_be_acc_bound l acc :
  bytes_wf l → (of_be_acc acc l < (acc + 1) * 256 ^ N.of_nat (length l))%N.
Proof.
  revert acc. induction l as [|b l IH]; intros acc Hwf; [simpl; lia|].
  apply Forall_cons in Hwf as [Hb Hl]. cbn [of_be_acc length].
  rewrite pow256_S. specialize (IH (acc * 256 + b)%N Hl). unfold is_byte in Hb. nia.
Qed.

Lemma of_be_bound l : bytes_wf l → (of_be l < 256 ^ N.of_nat (length l))%N.
Proof. intros Hl. pose proof (of_be_acc_bound l 0 Hl). unfold of_be. lia. Qed.

Lemma of_be_acc_lin acc l :
  of_be_acc acc l = (acc * 256 ^ N.of_nat (length l) + of_be l)%N.
Proof.
  revert acc. induction l as [|b l IH]; intros acc; [cbn; lia|].
  unfold of_be. cbn [of_be_acc length]. rewrite pow256_S, IH, (IH (0 * 256 + b)%N). lia.
Qed.

Lemma be_of_be_acc acc l :
  bytes_wf l → be (length l) (of_be_acc acc l) = l.
Proof.
  revert acc. induction l as [|b l IH]; intros acc Hwf; [done|].
  apply Forall_cons in Hwf as [Hb Hl]. cbn [be of_be_acc length].
  f_equal; [|by apply IH].
  rewrite of_be_acc_lin.
  rewrite N.div_add_l by apply pow256_pos.
  rewrite (N.div_small (of_be l)) by by apply of_be_bound.
  rewrite N.add_0_r, N.add_comm, N.Div0.mod_add. by apply N.mod_small.
Qed.

Lemma be_of_be l : bytes_wf l → be (length l) (of_be l) = l.
Proof. apply be_of_be_acc. Qed.

Lemma be_of_be_len w l : length l = w → bytes_wf l → be w (of_be l) = l.
Proof. intros <-. apply be_of_be. Qed.

Lemma be_inj w v1 v2 :
  (v1 < 256 ^ N.of_nat w)%N → (v2 < 256 ^ N.of_nat w)%N → be w v1 = be w v2 → v1 = v2.
Proof. intros H1 H2 Heq. by rewrite <-(of_be_be w v1), <-(of_be_be w v2), Heq. Qed.

Lemma N_compare_add_l a b c : (a + b ?= a + c)%N = (b ?= c)%N.
Proof. destruct (N.compare_spec b c); [subst; apply N.compare_refl|..];
  [apply N.compare_lt_iff|apply N.compare_gt_iff]; lia. Qed.

(** Lexicographic comparison of equal-length byte strings is numeric
    comparison. *)
Lemma of_be_cmp l1 l2 :
  bytes_wf l1 → bytes_wf l2 → length l1 = length l2 →
  kcmp l1 l2 = (of_be l1 ?= of_be l2)%N.
Proof.
  revert l2. induction l1 as [|b1 l1 IH]; intros [|b2 l2] H1 H2 Hlen; simplify_eq/=; [done|].
  apply Forall_cons in H1 as [Hb1 H1], H2 as [Hb2 H2].
  pose proof (of_be_bound _ H1). pose proof (of_be_bound _ H2).
  unfold of_be in *. cbn [of_be_acc]. rewrite !(of_be_acc_lin (0 * 256 + _)).
  fold (of_be l1) in *. fold (of_be l2) in *. rewrite Hlen in *.
  pose proof (pow256_pos (length l2)) as Hp.
  set (P := (256 ^ N.of_nat (length l2))%N) in *.
  destruct (b1 ?= b2)%N eqn:E.
  - apply N.compare_eq_iff in E as ->.
    rewrite N_compare_add_l. by apply IH.
  - rewrite N.compare_lt_iff in E. symmetry. rewrite N.compare_lt_iff.
    pose proof (N.mul_le_mono_r (b1 + 1) b2 P ltac:(lia)). lia.
  - rewrite N.compare_gt_iff in E. symmetry. rewrite N.compare_gt_iff.
    pose proof (N.mul_le_mono_r (b2 + 1) b1 P ltac:(lia)). lia.
Qed.

Lemma be_cmp w v1 v2 :
  (v1 < 256 ^ N.of_nat w)%N → (v2 < 256 ^ N.of_nat w)%N →
  kcmp (be w v1) (be w v2) = (v1 ?= v2)%N.
Proof.
  intros H1 H2. rewrite of_be_cmp by (auto using be_wf; by rewrite !length_be).
  by rewrite !of_be_be.
Qed.

(** Widths used by the codecs. *)
Definition u16_be (v : N) : bytes := be 2 v.
Definition u32_be (v : N) : bytes := be 4 v.
Definition u64_be (v : N) : bytes := be 8 v.

Lemma u64_wf_pow v : u64_wf v ↔ (v < 256 ^ N.of_nat 8)%N.
Proof. unfold u64_wf, U64_MAX. change (256 ^ N.of_nat 8)%N with 18446744073709551616%N. lia. Qed.

Lemma of_u64_be v : u64_wf v → of_be (u64_be v) = v.
Proof. rewrite u64_wf_pow. apply of_be_be. Qed.

Lemma u64_be_inj v1 v2 : u64_wf v1 → u64_wf v2 → u64_be v1 = u64_be v2 → v1 = v2.
Proof. rewrite !u64_wf_pow. apply be_inj. Qed.

Lemma u64_be_cmp v1 v2 : u64_wf v1 → u64_wf v2 → kcmp (u64_be v1) (u64_be v2) = kcmp v1 v2.
Proof. rewrite !u64_wf_pow. apply be_cmp. Qed.

Lemma length_u64_be v : length (u64_be v) = 8.
Proof. apply length_be. Qed.
Lemma length_u32_be v : length (u32_be v) = 4.
Proof. apply length_be. Qed.
Lemma length_u16_be v : length (u16_be v) = 2.
Proof. apply length_be. Qed.
#[export] Hint Rewrite length_u64_be length_u32_be length_u16_be : len_simpl.

Lemma u64_be_wf v : bytes_wf (u64_be v).
Proof. apply be_wf. Qed.

#[global] Arguments be : simpl never.
#[global] Arguments of_be : simpl never.
#[global] Arguments u16_be : simpl never.
#[global] Arguments u32_be : simpl never.
#[global] Arguments u64_be : simpl never.

(** [slice a b l] is [&l[a..b]] for in-range bounds. *)
Definition slice (a b : nat) (l : bytes) : bytes := take (b - a) (drop a l).

Lemma slice_app_mid l1 l2 l3 :
  slice (length l1) (length l1 + length l2) (l1 ++ l2 ++ l3) = l2.
Proof.
  unfold slice. rewrite drop_app_length.
  replace (_ - _) with (length l2) by lia. apply take_app_length.
Qed.

Lemma slice_app_at a b l1 l2 l3 :
  length l1 = a → a + length l2 = b → slice a b (l1 ++ l2 ++ l3) = l2.
Proof. intros <- <-. apply slice_app_mid. Qed.

Lemma slice_0_app n l1 l2 : length l1 = n → slice 0 n (l1 ++ l2) = l1.
Proof. intros <-. unfold slice. rewrite drop_0, Nat.sub_0_r. apply take_app_length. Qed.

Lemma slice_wf i j l : bytes_wf l → bytes_wf (slice i j l).
Proof. intros Hl. by apply Forall_take, Forall_drop. Qed.

Lemma length_slice i j (l : bytes) : j ≤ length l → length (slice i j l) = j - i.
Proof. intros Hj. unfold slice. rewrite length_take, length_drop. lia. Qed.

Lemma slice_0 n (l : bytes) : slice 0 n l = take n l.
Proof. unfold slice. by rewrite drop_0, Nat.sub_0_r. Qed.

Lemma slice_join i j (l : bytes) : i ≤ j → take i l ++ slice i j l = take j l.
Proof.
  intros Hij. unfold slice. rewrite take_drop_commute, Nat.add_comm, Nat.sub_add by done.
  rewrite <-(take_drop i (take j l)) at 2. by rewrite take_take, Nat.min_l.
Qed.

Lemma slice_drop a b (l : bytes) : a ≤ b → slice a b l ++ drop b l = drop a l.
Proof.
  intros Hab. unfold slice. rewrite <-(take_drop (b - a) (drop a l)) at 2.
  rewrite drop_drop. do 2 f_equal. lia.
Qed.

(** Lower-case hexadecimal, and the string of some bytes. *)
Definition hex_digit (d : N) : N := if (d <? 10)%N then 48 + d else 87 + d.
Fixpoint hex_digits (w : nat) (v : N) : bytes :=
  match w with
  | O => []
  | S w => hex_digit ((v `div` 16 ^ N.of_nat w) `mod` 16)%N :: hex_digits w v
  end.
Definition hex_bytes (b : bytes) : bytes := b ≫= hex_digits 2.
Definition bytes_string (b : bytes) : string :=
  foldr (λ n s, String (Ascii.ascii_of_N n) s) EmptyString b.

(** SHA-256 digests have 32 bytes. *)
Definition digest_len (sha256 : bytes → bytes) : Prop := ∀ b, length (sha256 b) = 32.

(** A function of that shape, for concrete runs. *)
Definition prefix_digest (b : bytes) : bytes := take 32 (b ++ replicate 32 0%N).
Lemma prefix_digest_len : digest_len prefix_digest.
Proof. intros b. unfold prefix_digest. rewrite length_take, length_app, length_replicate. lia. Qed.
