(* ===== verification/Version.v ===== *)
(** * Commit versions, key ranges, mutations and commit batches

    The data of [okv-model/src/lib.rs]: [Version] and its order-preserving
    encoding, [CommitIdentity], [KeyRange], [Mutation], [CommitBatch] with its
    canonical form and replay fingerprint. *)

From S2P Require Import Prelude Order BTree Bytes.

(** ** [Version] *)
Record Version := from_parts { generation : N; sequence : N }.

Definition version_pair (v : Version) : N * N := (generation v, sequence v).

#[global] Instance version_pair_inj : Inj (=) (=) version_pair.
Proof. intros [] []; by intros [= -> ->]. Qed.
#[global] Instance Version_eq_dec : EqDecision Version.
Proof. solve_decision. Defined.
#[global] Instance Version_countable : Countable Version.
Proof.
  refine (inj_countable' version_pair (λ p, from_parts p.1 p.2) _). by intros [].
Defined.
(** The derived [Ord]: generation first, then sequence. *)
#[global] Instance Version_key_order : KeyOrder Version := projected_order version_pair.

Definition VERSION_ZERO : Version := from_parts 0 0.
Definition version_new (sequence : N) : Version := from_parts 0 sequence.

Definition version_wf (v : Version) : Prop := u64_wf (generation v) ∧ u64_wf (sequence v).

Definition version_to_be_bytes (v : Version) : bytes :=
  u64_be (generation v) ++ u64_be (sequence v).
Definition version_from_be_bytes (encoded : bytes) : Version :=
  from_parts (of_be (slice 0 8 encoded)) (of_be (slice 8 16 encoded)).

Lemma length_version_to_be_bytes v : length (version_to_be_bytes v) = 16.
Proof. unfold version_to_be_bytes. by autorewrite with len_simpl. Qed.
#[export] Hint Rewrite length_version_to_be_bytes : len_simpl.

Lemma version_to_be_bytes_wf v : bytes_wf (version_to_be_bytes v).
Proof. apply Forall_app; split; apply u64_be_wf. Qed.

Lemma version_bytes_cmp v w :
  version_wf v → version_wf w →
  kcmp (version_to_be_bytes v) (version_to_be_bytes w) = kcmp v w.
Proof.
  intros [Hvg Hvs] [Hwg Hws]. unfold version_to_be_bytes.
  rewrite list_cmp_app_eq by by autorewrite with len_simpl.
  by rewrite !u64_be_cmp.
Qed.

Lemma version_bytes_inj v w :
  version_wf v → version_wf w →
  version_to_be_bytes v = version_to_be_bytes w → v = w.
Proof.
  intros Hv Hw Heq. apply kcmp_eq. rewrite <-version_bytes_cmp by done. by apply kcmp_eq.
Qed.

Lemma version_from_to v : version_wf v → version_from_be_bytes (version_to_be_bytes v) = v.
Proof.
  intros [Hg Hs]. destruct v as [g s]. unfold version_from_be_bytes, version_to_be_bytes.
  simpl in *. f_equal.
  - by transitivity (of_be (u64_be g)); [|apply of_u64_be].
  - by transitivity (of_be (u64_be s)); [|apply of_u64_be].
Qed.

Lemma version_to_from l :
  length l = 16 → bytes_wf l → version_to_be_bytes (version_from_be_bytes l) = l.
Proof.
  intros Hl Hwf. unfold version_to_be_bytes, version_from_be_bytes, u64_be, slice.
  cbn [generation sequence].
  rewrite !be_of_be_len.
  - rewrite drop_0, (take_ge (drop 8 l)) by (rewrite length_drop; lia). apply take_drop.
  - rewrite length_take, length_drop. lia.
  - by apply Forall_take, Forall_drop.
  - rewrite length_take, length_drop. lia.
  - by apply Forall_take, Forall_drop.
Qed.

(** The origin is the least version. *)
Lemma version_zero_le v : VERSION_ZERO ≤ₖ v.
Proof.
  apply key_not_lt. destruct v as [g s]. unfold key_lt; simpl. unfold pair_cmp; simpl.
  destruct g, s; done.
Qed.

Lemma version_zero_lt v : v ≠ VERSION_ZERO → VERSION_ZERO <ₖ v.
Proof. intros Hne. by destruct (proj1 (key_le_lt_eq _ _) (version_zero_le v)). Qed.

(** ** Identities, ranges, mutations, batches *)
Record CommitIdentity := { client_id : bytes; request_id : N }.
#[global] Instance CommitIdentity_eq_dec : EqDecision CommitIdentity.
Proof. solve_decision. Defined.

Record KeyRange := { range_start : bytes; range_end : bytes }.
#[global] Instance KeyRange_eq_dec : EqDecision KeyRange.
Proof. solve_decision. Defined.

Inductive Mutation :=
  | MSet (key value : bytes)
  | MClear (key : bytes)
  | MClearRange (range : KeyRange).
#[global] Instance Mutation_eq_dec : EqDecision Mutation.
Proof. solve_decision. Defined.

Record CommitBatch := {
  batch_version : Version;
  batch_identity : CommitIdentity;
  batch_mutations : list Mutation;
}.

Inductive ApplyOutcome := Applied | AlreadyApplied.

Inductive ModelError :=
  | AmbiguousPointMutations (key : bytes)
  | ConflictingReplay (version : Version)
  | InvalidRange (start end_ : bytes)
  | NonMonotonicVersion (latest attempted : Version)
  | VersionNotApplied (latest requested : Version)
  | VersionTooOld (oldest requested : Version)
  | ZeroVersion.

(** [KeyRange::new] and [KeyRange::contains]. *)
Definition KeyRange_new (start end_ : bytes) : res ModelError KeyRange :=
  if end_ ≤ₖ? start then Err (InvalidRange start end_)
  else Ok {| range_start := start; range_end := end_ |}.

Definition range_contains (r : KeyRange) (key : bytes) : bool :=
  (range_start r ≤ₖ? key) && (key <ₖ? range_end r).

(** ** Canonical mutation order *)
Definition mutation_key (m : Mutation) : N * (bytes * bytes) :=
  match m with
  | MClearRange r => (0, (range_start r, range_end r))
  | MClear k => (1, (k, []))
  | MSet k v => (2, (k, v))
  end%N.

#[global] Instance mutation_key_inj : Inj (=) (=) mutation_key.
Proof. intros [k v|k|[s e]] [k' v'|k'|[s' e']]; simpl; naive_solver. Qed.
#[global] Instance Mutation_key_order : KeyOrder Mutation := projected_order mutation_key.

Definition point_key (m : Mutation) : option bytes :=
  match m with
  | MSet k _ => Some k
  | MClear k => Some k
  | MClearRange _ => None
  end.

(** The first key two point mutations share, scanning with a [BTreeSet] of the
    keys seen so far. *)
Fixpoint ambiguous_key (point_keys : gset bytes) (l : list Mutation) : option bytes :=
  match l with
  | [] => None
  | m :: l =>
      match point_key m with
      | Some k =>
          if decide (k ∈ point_keys) then Some k
          else ambiguous_key ({[k]} ∪ point_keys) l
      | None => ambiguous_key point_keys l
      end
  end.

Definition canonical_mutations (mutations : list Mutation) : res ModelError (list Mutation) :=
  let canonical := sort_dedup mutations in
  match ambiguous_key ∅ canonical with
  | Some k => Err (AmbiguousPointMutations k)
  | None => Ok canonical
  end.

(** Distinct point mutations of a canonical list name distinct keys. *)
Lemma ambiguous_key_None seen l :
  ambiguous_key seen l = None ↔
  NoDup (omap point_key l) ∧ ∀ k, k ∈ omap point_key l → k ∉ seen.
Proof.
  revert seen. induction l as [|m l IH]; intros seen; simpl.
  { split; [|done]. intros _. split; [constructor|]. intros k Hk%elem_of_nil. done. }
  destruct (point_key m) as [k|]; [|apply IH].
  case_decide as Hk; [split; [done|]; set_solver|].
  rewrite IH, NoDup_cons. set_solver.
Qed.

Lemma canonical_mutations_Ok ms c :
  canonical_mutations ms = Ok c ↔ c = sort_dedup ms ∧ NoDup (omap point_key c).
Proof.
  unfold canonical_mutations.
  destruct (ambiguous_key ∅ (sort_dedup ms)) as [k|] eqn:E.
  - split; [done|]. intros [-> Hnd].
    rewrite (proj2 (ambiguous_key_None ∅ _)) in E; [done|]. set_solver.
  - apply ambiguous_key_None in E as [Hnd _]. naive_solver.
Qed.

Lemma canonical_point_unique ms c m1 m2 k :
  canonical_mutations ms = Ok c → m1 ∈ c → m2 ∈ c →
  point_key m1 = Some k → point_key m2 = Some k → m1 = m2.
Proof.
  intros [_ Hnd]%canonical_mutations_Ok H1 H2 Hk1 Hk2.
  induction c as [|m c IH]; [by apply elem_of_nil in H1|]. simpl in Hnd.
  assert (∀ m', m' ∈ c → point_key m' = Some k → k ∈ omap point_key c).
  { intros m' ??. apply list_elem_of_omap. eauto. }
  apply elem_of_cons in H1 as [->|H1], H2 as [->|H2]; [done|..].
  - rewrite Hk1 in Hnd. apply NoDup_cons in Hnd as [[]]. eauto.
  - rewrite Hk2 in Hnd. apply NoDup_cons in Hnd as [[]]. eauto.
  - apply IH; [|done..]. destruct (point_key m); [by apply NoDup_cons in Hnd as [_ ?]|done].
Qed.

(** ** The replay fingerprint *)
Definition hash_bytes (b : bytes) : bytes := u64_be (len b) ++ b.

Definition hash_mutation (m : Mutation) : bytes :=
  match m with
  | MSet k v => [1%N] ++ hash_bytes k ++ hash_bytes v
  | MClear k => [2%N] ++ hash_bytes k
  | MClearRange r => [3%N] ++ hash_bytes (range_start r) ++ hash_bytes (range_end r)
  end.

(** The bytes fed to SHA-256, in the order of the [update] calls. *)
Definition fingerprint_input (b : CommitBatch) (canonical : list Mutation) : bytes :=
  string_bytes "okv-commit-v2" ++ version_to_be_bytes (batch_version b) ++
  client_id (batch_identity b) ++ u64_be (request_id (batch_identity b)) ++
  u64_be (len canonical) ++ mjoin (hash_mutation <$> canonical).

Section fingerprint.
(** SHA-256 of the [sha2] crate. *)
Context (sha256 : bytes → bytes).

Definition fingerprint (b : CommitBatch) : res ModelError bytes :=
  let? canonical := canonical_mutations (batch_mutations b) in
  Ok (sha256 (fingerprint_input b canonical)).
End fingerprint.

(** Collections in memory are shorter than [2^64] bytes. *)
Definition fits {A} (l : list A) : Prop := u64_wf (len l).

Definition mutation_wf (m : Mutation) : Prop :=
  match m with
  | MSet k v => fits k ∧ fits v
  | MClear k => fits k
  | MClearRange r => fits (range_start r) ∧ fits (range_end r)
  end.

Record batch_wf (b : CommitBatch) : Prop := {
  batch_wf_version : version_wf (batch_version b);
  batch_wf_client : length (client_id (batch_identity b)) = 16;
  batch_wf_request : u64_wf (request_id (batch_identity b));
  batch_wf_mutations : Forall mutation_wf (batch_mutations b);
}.

Lemma hash_bytes_app_inj b1 b2 r1 r2 :
  fits b1 → fits b2 → hash_bytes b1 ++ r1 = hash_bytes b2 ++ r2 → b1 = b2 ∧ r1 = r2.
Proof.
  unfold hash_bytes, fits. rewrite <-!app_assoc. intros H1 H2 Heq.
  apply app_inj_1 in Heq as [Hlen Heq]; [|by autorewrite with len_simpl].
  apply u64_be_inj in Hlen; [|done..]. unfold len in Hlen.
  apply app_inj_1 in Heq; [done|lia].
Qed.

Lemma hash_mutation_app_inj m1 m2 r1 r2 :
  mutation_wf m1 → mutation_wf m2 →
  hash_mutation m1 ++ r1 = hash_mutation m2 ++ r2 → m1 = m2 ∧ r1 = r2.
Proof.
  destruct m1 as [k v|k|[s e]], m2 as [k' v'|k'|[s' e']]; simpl; intros H1 H2 Heq;
    apply cons_eq_inv in Heq as [Htag Heq]; try discriminate;
    rewrite <-?app_assoc in Heq; destruct_and?;
    repeat (apply hash_bytes_app_inj in Heq as [-> Heq]; [|done..]); done.
Qed.

Lemma hash_mutations_inj l1 l2 :
  Forall mutation_wf l1 → Forall mutation_wf l2 → length l1 = length l2 →
  mjoin (hash_mutation <$> l1) = mjoin (hash_mutation <$> l2) → l1 = l2.
Proof.
  revert l2. induction l1 as [|m1 l1 IH]; intros [|m2 l2] H1 H2 Hlen Heq; simplify_eq/=; [done|].
  apply Forall_cons in H1 as [? ?], H2 as [? ?].
  apply hash_mutation_app_inj in Heq as [-> Heq]; [|done..]. f_equal. by apply IH.
Qed.

(** The hashed bytes determine version, identity and canonical mutations. *)
Lemma fingerprint_input_inj b1 b2 c1 c2 :
  batch_wf b1 → batch_wf b2 → Forall mutation_wf c1 → Forall mutation_wf c2 →
  fits c1 → fits c2 →
  fingerprint_input b1 c1 = fingerprint_input b2 c2 →
  batch_version b1 = batch_version b2 ∧ batch_identity b1 = batch_identity b2 ∧ c1 = c2.
Proof.
  intros W1 W2 Hc1 Hc2 Hf1 Hf2 Heq. unfold fingerprint_input in Heq.
  apply app_inj_1 in Heq as [_ Heq]; [|done].
  apply app_inj_1 in Heq as [Hv Heq]; [|by autorewrite with len_simpl].
  apply app_inj_1 in Heq as [Hid Heq]; [|by rewrite !batch_wf_client].
  apply app_inj_1 in Heq as [Hreq Heq]; [|by autorewrite with len_simpl].
  apply app_inj_1 in Heq as [Hlen Heq]; [|by autorewrite with len_simpl].
  apply version_bytes_inj in Hv; [|by apply batch_wf_version..].
  apply u64_be_inj in Hreq; [|by apply batch_wf_request..].
  apply u64_be_inj in Hlen; [|done..].
  split_and!; [done| |].
  - destruct (batch_identity b1), (batch_identity b2); simpl in *; congruence.
  - apply hash_mutations_inj; [done..| |done]. unfold len in Hlen. lia.
Qed.
