(* ===== verification/Mvcc.v ===== *)
(** * The MVCC reference model

    [Model] and [TransactionView] of [okv-model/src/lib.rs]: version-ordered
    commits with canonical replay, point and range-clear visibility, ordered
    scans, the retention boundary and the read-your-writes overlay. *)

From S2P Require Import Prelude Order BTree Bytes Version.

Abbreviation KeyHistory := (list (Version * option bytes)).
Abbreviation Row := (bytes * bytes)%type.

Record CommitRecord := { rec_identity : CommitIdentity; rec_fingerprint : bytes }.

Record Model := {
  commits : gmap Version CommitRecord;
  keys : gmap bytes KeyHistory;
  range_clears : list (Version * KeyRange);
  latest : Version;
  oldest_readable : Version;
}.

Definition Model_default : Model :=
  {| commits := ∅; keys := ∅; range_clears := [];
     latest := VERSION_ZERO; oldest_readable := VERSION_ZERO |}.

Definition check_read_version (m : Model) (requested : Version) : res ModelError unit :=
  if latest m <ₖ? requested then Err (VersionNotApplied (latest m) requested)
  else if requested <ₖ? oldest_readable m then Err (VersionTooOld (oldest_readable m) requested)
  else Ok tt.

Definition retain_from (m : Model) (version : Version) : res ModelError Model :=
  let? _ := check_read_version m version in
  if version <ₖ? oldest_readable m then Err (VersionTooOld (oldest_readable m) version)
  else Ok {| commits := commits m; keys := keys m; range_clears := range_clears m;
             latest := latest m; oldest_readable := version |}.

(** [entry(key).or_default().push(..)]. *)
Definition push_history (k : bytes) (e : Version * option bytes)
    (ks : gmap bytes KeyHistory) : gmap bytes KeyHistory :=
  <[k := default [] (ks !! k) ++ [e]]> ks.

Definition apply_mutation (v : Version) (m : Model) (mu : Mutation) : Model :=
  match mu with
  | MSet k x =>
      {| commits := commits m; keys := push_history k (v, Some x) (keys m);
         range_clears := range_clears m; latest := latest m;
         oldest_readable := oldest_readable m |}
  | MClear k =>
      {| commits := commits m; keys := push_history k (v, None) (keys m);
         range_clears := range_clears m; latest := latest m;
         oldest_readable := oldest_readable m |}
  | MClearRange r =>
      {| commits := commits m; keys := keys m;
         range_clears := range_clears m ++ [(v, r)]; latest := latest m;
         oldest_readable := oldest_readable m |}
  end.

Section apply.
Context (sha256 : bytes → bytes).

(** The new state is returned only on success: every error of the source is
    raised before its first assignment. *)
Definition apply (m : Model) (b : CommitBatch) : res ModelError (ApplyOutcome * Model) :=
  if decide (batch_version b = VERSION_ZERO) then Err ZeroVersion
  else
    let? fp := fingerprint sha256 b in
    match commits m !! batch_version b with
    | Some existing =>
        if bool_decide (rec_identity existing = batch_identity b) &&
           bool_decide (rec_fingerprint existing = fp)
        then Ok (AlreadyApplied, m)
        else Err (ConflictingReplay (batch_version b))
    | None =>
        if batch_version b ≤ₖ? latest m
        then Err (NonMonotonicVersion (latest m) (batch_version b))
        else
          let? canonical := canonical_mutations (batch_mutations b) in
          let m' := foldl (apply_mutation (batch_version b)) m canonical in
          Ok (Applied,
              {| commits := <[batch_version b :=
                     {| rec_identity := batch_identity b; rec_fingerprint := fp |}]> (commits m');
                 keys := keys m'; range_clears := range_clears m';
                 latest := batch_version b; oldest_readable := oldest_readable m' |})
    end.
End apply.

(** [iter().rev().find(f)]. *)
Definition rfind {A} (f : A → bool) (l : list A) : option A := List.find f (reverse l).

Definition find_point (m : Model) (key : bytes) (rv : Version) : option (Version * option bytes) :=
  history ← keys m !! key; rfind (λ e, e.1 ≤ₖ? rv) history.

Definition find_clear (m : Model) (key : bytes) (rv : Version) : option Version :=
  fst <$> rfind (λ e, (e.1 ≤ₖ? rv) && range_contains e.2 key) (range_clears m).

(** The [match] of [Model::get]. *)
Definition resolve_visible (point : option (Version * option bytes))
    (cleared_at : option Version) : option bytes :=
  match point, cleared_at with
  | Some (pv, x), Some cv => if pv <ₖ? cv then None else x
  | Some (_, x), None => x
  | None, _ => None
  end.

Definition get (m : Model) (key : bytes) (read_version : Version) : res ModelError (option bytes) :=
  let? _ := check_read_version m read_version in
  Ok (resolve_visible (find_point m key read_version) (find_clear m key read_version)).

(** The row loop of both scans: read each key, keep the visible ones. *)
Definition push_visible (f : bytes → res ModelError (option bytes))
    (rows : list Row) (k : bytes) : res ModelError (list Row) :=
  let? v := f k in
  Ok (match v with Some v => rows ++ [(k, v)] | None => rows end).
Definition visible_rows (f : bytes → res ModelError (option bytes)) (ks : list bytes)
    : res ModelError (list Row) :=
  res_fold (push_visible f) ks [].

(** [BTreeMap::range(start..end)] panics on an inverted range. *)
Definition scan (m : Model) (range : KeyRange) (read_version : Version)
    : res ModelError (list Row) :=
  let? _ := check_read_version m read_version in
  if range_end range <ₖ? range_start range then Panic
  else visible_rows (λ k, get m k read_version) (bt_range (range_contains range) (keys m)).*1.

(** ** The read-your-writes view *)
Record TransactionView := {
  tx_model : Model;
  tx_read_version : Version;
  tx_mutations : list Mutation;
}.

Definition transaction (m : Model) (read_version : Version) : res ModelError TransactionView :=
  let? _ := check_read_version m read_version in
  Ok {| tx_model := m; tx_read_version := read_version; tx_mutations := [] |}.

Definition mutate (t : TransactionView) (mu : Mutation) : TransactionView :=
  {| tx_model := tx_model t; tx_read_version := tx_read_version t;
     tx_mutations := tx_mutations t ++ [mu] |}.

Definition overlay (key : bytes) (value : option bytes) (mu : Mutation) : option bytes :=
  match mu with
  | MSet target new => if decide (target = key) then Some new else value
  | MClear target => if decide (target = key) then None else value
  | MClearRange r => if range_contains r key then None else value
  end.

Definition tx_get (t : TransactionView) (key : bytes) : res ModelError (option bytes) :=
  let? value := get (tx_model t) key (tx_read_version t) in
  Ok (foldl (overlay key) value (tx_mutations t)).

Definition pending_key (r : KeyRange) (mu : Mutation) : option bytes :=
  match mu with
  | MSet k _ => if range_contains r k then Some k else None
  | _ => None
  end.

Definition tx_scan (t : TransactionView) (range : KeyRange) : res ModelError (list Row) :=
  let? rows := scan (tx_model t) range (tx_read_version t) in
  let ks : gset bytes :=
    list_to_set rows.*1 ∪ list_to_set (omap (pending_key range) (tx_mutations t)) in
  visible_rows (tx_get t) (bts_items ks).

(** ** What one commit does to the visible state

    [visible] is the value [get] returns once the read version is admitted;
    [batch_effect] is the meaning of a commit: its point mutation for the key
    wins, else a covering range clear hides the older value. *)
Definition visible (m : Model) (key : bytes) (rv : Version) : option bytes :=
  resolve_visible (find_point m key rv) (find_clear m key rv).

Definition point_value (key : bytes) (mu : Mutation) : option (option bytes) :=
  match mu with
  | MSet k x => if decide (k = key) then Some (Some x) else None
  | MClear k => if decide (k = key) then Some None else None
  | MClearRange _ => None
  end.

Definition clear_covers (key : bytes) (mu : Mutation) : bool :=
  match mu with
  | MClearRange r => range_contains r key
  | _ => false
  end.

Definition batch_effect (c : list Mutation) (key : bytes) (old : option bytes) : option bytes :=
  match last (omap (point_value key) c) with
  | Some x => x
  | None => if existsb (clear_covers key) c then None else old
  end.

Record model_inv (m : Model) : Prop := {
  inv_keys k h : keys m !! k = Some h → Forall (λ e, e.1 ≤ₖ latest m) h;
  inv_clears : Forall (λ e, e.1 ≤ₖ latest m) (range_clears m);
  inv_commits v r : commits m !! v = Some r → v ≤ₖ latest m ∧ v ≠ VERSION_ZERO;
  inv_latest : latest m = VERSION_ZERO ∨ is_Some (commits m !! latest m);
  inv_oldest : oldest_readable m ≤ₖ latest m;
}.

Lemma model_inv_default : model_inv Model_default.
Proof.
  split; simpl; [|constructor| |by left|apply key_le_refl];
    intros *; by rewrite lookup_empty.
Qed.

Lemma rfind_app {A} (f : A → bool) l1 l2 :
  rfind f (l1 ++ l2) = match rfind f l2 with Some x => Some x | None => rfind f l1 end.
Proof.
  unfold rfind. rewrite reverse_app.
  induction (reverse l2) as [|x l IH]; [done|]. simpl. by destruct (f x).
Qed.

Lemma rfind_all {A} (f : A → bool) l : Forall (λ x, f x = true) l → rfind f l = last l.
Proof.
  intros Hl. destruct l as [|x l _] using rev_ind; [done|].
  apply Forall_app in Hl as [_ Hx]. inversion Hx as [|? ? Hfx]; subst.
  rewrite rfind_app, last_snoc. unfold rfind; simpl. by rewrite Hfx.
Qed.

Lemma rfind_none {A} (f : A → bool) l : Forall (λ x, f x = false) l → rfind f l = None.
Proof.
  rewrite <-Forall_reverse. unfold rfind.
  induction 1 as [|x k Hx _ IH]; [done|]. simpl. by rewrite Hx.
Qed.

Lemma rfind_ext {A} (f g : A → bool) l :
  Forall (λ x, f x = g x) l → rfind f l = rfind g l.
Proof.
  rewrite <-Forall_reverse. unfold rfind.
  induction 1 as [|x k Hx _ IH]; [done|]. simpl. by rewrite Hx, IH.
Qed.

Lemma rfind_Some {A} (f : A → bool) l x : rfind f l = Some x → x ∈ l ∧ f x = true.
Proof.
  unfold rfind. intros [Hin Hf]%find_some.
  by rewrite <-list_elem_of_In, elem_of_reverse in Hin.
Qed.

Definition history (m : Model) (k : bytes) : KeyHistory := default [] (keys m !! k).

Definition point_entry (v : Version) (k : bytes) (mu : Mutation) : option (Version * option bytes) :=
  pair v <$> point_value k mu.
Definition clear_entry (v : Version) (mu : Mutation) : option (Version * KeyRange) :=
  match mu with MClearRange r => Some (v, r) | _ => None end.

Lemma find_point_history m k rv : find_point m k rv = rfind (λ e, e.1 ≤ₖ? rv) (history m k).
Proof. unfold find_point, history. by destruct (keys m !! k). Qed.

Lemma history_push k k' e ks :
  default [] (push_history k e ks !! k') = default [] (ks !! k') ++ (if decide (k = k') then [e] else []).
Proof.
  unfold push_history. destruct (decide (k = k')) as [->|?].
  - by rewrite lookup_insert_eq.
  - by rewrite lookup_insert_ne, app_nil_r.
Qed.

(** The state after the mutation loop, as lists. *)
Lemma history_fold v c m k :
  history (foldl (apply_mutation v) m c) k = history m k ++ omap (point_entry v k) c.
Proof.
  revert m. induction c as [|mu c IH]; intros m; simpl; [by rewrite app_nil_r|].
  rewrite IH. unfold history, point_entry. destruct mu as [k' x|k'|r]; simpl; [..|done];
    rewrite history_push; case_decide; simpl; by rewrite <-app_assoc.
Qed.

Lemma clears_fold v c m :
  range_clears (foldl (apply_mutation v) m c) = range_clears m ++ omap (clear_entry v) c.
Proof.
  revert m. induction c as [|mu c IH]; intros m; simpl; [by rewrite app_nil_r|].
  rewrite IH. destruct mu; simpl; [done..|]. by rewrite <-app_assoc.
Qed.

Lemma fold_frame v c m :
  commits (foldl (apply_mutation v) m c) = commits m ∧
  latest (foldl (apply_mutation v) m c) = latest m ∧
  oldest_readable (foldl (apply_mutation v) m c) = oldest_readable m.
Proof.
  revert m. induction c as [|mu c IH]; intros m; [done|]. simpl.
  destruct (IH (apply_mutation v m mu)) as (-> & -> & ->). by destruct mu.
Qed.

Lemma point_entries_last v k c :
  last (omap (point_entry v k) c) = pair v <$> last (omap (point_value k) c).
Proof.
  rewrite <-fmap_last. f_equal. unfold point_entry.
  induction c as [|mu c IH]; [done|]. simpl.
  destruct (point_value k mu); simpl; [f_equal|]; apply IH.
Qed.

Lemma point_entries_version v k (c : list Mutation) e : e ∈ omap (point_entry v k) c → e.1 = v.
Proof.
  rewrite list_elem_of_omap. intros (mu & _ & He). unfold point_entry in He.
  by destruct (point_value k mu); simplify_eq/=.
Qed.

Lemma clear_entries_version v (c : list Mutation) e : e ∈ omap (clear_entry v) c → e.1 = v.
Proof.
  rewrite list_elem_of_omap. intros (mu & _ & He). by destruct mu; simplify_eq/=.
Qed.

Lemma rfind_clear_entries v k rv c :
  v ≤ₖ rv →
  fst <$> rfind (λ e, (e.1 ≤ₖ? rv) && range_contains e.2 k) (omap (clear_entry v) c) =
  if existsb (clear_covers k) c then Some v else None.
Proof.
  intros Hrv. induction c as [|mu c IH]; [done|].
  destruct mu as [k' x|k'|r]; [apply IH..|].
  change (omap _ _) with ([(v, r)] ++ omap (clear_entry v) c).
  cbn [existsb clear_covers]. rewrite rfind_app.
  destruct (rfind _ (omap _ c)) as [e|]; simpl in *.
  - destruct (range_contains r k); simpl; [|done]. by destruct (existsb _ c).
  - unfold rfind; simpl. rewrite (proj2 (key_leb_spec v rv)) by done. simpl.
    by destruct (range_contains r k).
Qed.

Section effect.
Context (m : Model) (v : Version) (c : list Mutation) (Hinv : model_inv m)
        (Hv : latest m <ₖ v).
Let m' := foldl (apply_mutation v) m c.

(** Reads below the new version do not see the commit. *)
Lemma visible_fold_old k rv : rv <ₖ v → visible m' k rv = visible m k rv.
Proof.
  intros Hrv. unfold visible. f_equal.
  - rewrite !find_point_history. unfold m'. rewrite history_fold, rfind_app.
    rewrite rfind_none; [done|]. apply Forall_forall.
    intros e ->%point_entries_version. key_order.
  - unfold find_clear, m'. rewrite clears_fold, rfind_app.
    rewrite rfind_none; [done|]. apply Forall_forall.
    intros e ->%clear_entries_version. rewrite (proj2 (key_leb_false v rv)); done.
Qed.

Lemma history_bounded k : Forall (λ e, e.1 ≤ₖ latest m) (history m k).
Proof.
  unfold history. destruct (keys m !! k) eqn:E; simpl; [|constructor].
  by eapply inv_keys.
Qed.

(** Reads at or above the latest version all see the latest state. *)
Lemma visible_saturated k rv : latest m ≤ₖ rv → visible m k rv = visible m k (latest m).
Proof.
  intros Hrv. unfold visible. f_equal.
  - rewrite !find_point_history. apply rfind_ext.
    eapply Forall_impl; [apply history_bounded|]. intros e He; simpl in *.
    rewrite (proj2 (key_leb_spec _ rv)), (proj2 (key_leb_spec _ (latest m))); key_order.
  - unfold find_clear. f_equal. apply rfind_ext.
    eapply Forall_impl; [apply (inv_clears _ Hinv)|]. intros e He; simpl in *.
    rewrite (proj2 (key_leb_spec _ rv)), (proj2 (key_leb_spec _ (latest m))); key_order.
Qed.

(** Reads at or above the new version see the latest state changed by the
    commit's effect. *)
Lemma visible_fold_new k rv :
  v ≤ₖ rv → visible m' k rv = batch_effect c k (visible m k (latest m)).
Proof.
  intros Hrv. rewrite <-(visible_saturated k rv) by key_order.
  unfold visible, batch_effect.
  rewrite !find_point_history. unfold find_clear, m'.
  rewrite history_fold, clears_fold, !rfind_app.
  rewrite (rfind_all _ (omap (point_entry v k) c)), point_entries_last;
    [|apply Forall_forall; intros e ->%point_entries_version; key_order].
  pose proof (rfind_clear_entries v k rv c Hrv) as Hclear.
  destruct (last (omap (point_value k) c)) as [x|]; simpl.
  { destruct (rfind _ (omap (clear_entry v) c)) as [[cv r]|] eqn:E; simpl in *.
    - destruct (existsb _ c); simplify_eq. by rewrite (proj2 (key_ltb_false v v)) by key_order.
    - destruct (rfind _ (range_clears m)) as [[cv r]|] eqn:E'; simpl; [|done].
      apply rfind_Some in E' as [Hin _].
      pose proof (inv_clears _ Hinv) as Hc. rewrite Forall_forall in Hc.
      specialize (Hc _ Hin). simpl in Hc.
      rewrite (proj2 (key_ltb_false v cv)); [done|]. key_order. }
  destruct (rfind _ (omap (clear_entry v) c)) as [[cv r]|] eqn:E; simpl in *.
  - destruct (existsb _ c); simplify_eq.
    destruct (rfind _ (history m k)) as [[pv x]|] eqn:E'; simpl; [|done].
    apply rfind_Some in E' as [Hin _].
    pose proof (history_bounded k) as Hh. rewrite Forall_forall in Hh.
    specialize (Hh _ Hin). simpl in Hh.
    rewrite (proj2 (key_ltb_spec pv v)); [done|]. key_order.
  - by destruct (existsb _ c).
Qed.
End effect.

(** ** The meaning of a batch does not depend on its order *)
Lemma point_value_key k mu x : point_value k mu = Some x → point_key mu = Some k.
Proof. destruct mu; simpl; by repeat case_decide; intros; simplify_eq. Qed.

Lemma point_key_value k mu : point_key mu = Some k → is_Some (point_value k mu).
Proof. destruct mu; simpl; intros; simplify_eq; by rewrite decide_True by done. Qed.

Lemma last_point_Some k (ms : list Mutation) x :
  last (omap (point_value k) ms) = Some x → ∃ mu, mu ∈ ms ∧ point_value k mu = Some x.
Proof.
  intros Hlast. apply list_elem_of_omap.
  apply last_Some in Hlast as [l ->]. set_solver.
Qed.

Lemma last_point_None k (ms : list Mutation) :
  last (omap (point_value k) ms) = None ↔ ∀ mu, mu ∈ ms → point_value k mu = None.
Proof.
  rewrite last_None. split.
  - intros Hnil mu Hmu. destruct (point_value k mu) as [x|] eqn:E; [|done].
    assert (x ∈ omap (point_value k) ms) as Hx by (apply list_elem_of_omap; eauto).
    rewrite Hnil in Hx. by apply elem_of_nil in Hx.
  - intros Hall. destruct (omap (point_value k) ms) as [|x l] eqn:E; [done|].
    assert (x ∈ omap (point_value k) ms) as (mu & Hmu & Hx)%list_elem_of_omap.
    { rewrite E. constructor. }
    by rewrite Hall in Hx.
Qed.

Lemma existsb_elements {A} (f : A → bool) l1 l2 :
  (∀ x, x ∈ l1 ↔ x ∈ l2) → existsb f l1 = existsb f l2.
Proof. intros Hiff. apply eq_true_iff_eq. rewrite !existsb_exists'. naive_solver. Qed.

Lemma batch_effect_canonical ms c k old :
  canonical_mutations ms = Ok c → batch_effect ms k old = batch_effect c k old.
Proof.
  intros Hc. pose proof Hc as [-> _]%canonical_mutations_Ok.
  unfold batch_effect.
  rewrite (existsb_elements (clear_covers k) (sort_dedup ms) ms) by apply elem_of_sort_dedup.
  destruct (last (omap (point_value k) ms)) as [x|] eqn:E1.
  - apply last_point_Some in E1 as (mu & Hmu & Hx).
    destruct (last (omap (point_value k) (sort_dedup ms))) as [y|] eqn:E2.
    + apply last_point_Some in E2 as (mu' & Hmu' & Hy).
      rewrite <-elem_of_sort_dedup in Hmu.
      apply point_value_key in Hx as Hk. apply point_value_key in Hy as Hk'.
      rewrite (canonical_point_unique _ _ mu mu' k Hc Hmu Hmu' Hk Hk') in Hx.
      by simplify_eq.
    + rewrite last_point_None in E2. rewrite E2 in Hx; [done|].
      by apply elem_of_sort_dedup.
  - rewrite last_point_None in E1.
    rewrite (proj2 (last_point_None k (sort_dedup ms))); [done|].
    intros mu Hmu. rewrite elem_of_sort_dedup in Hmu. auto.
Qed.

(** ** [apply], by outcome *)
Definition committed (sha256 : bytes → bytes) (m : Model) (b : CommitBatch)
    (c : list Mutation) : Model :=
  let m' := foldl (apply_mutation (batch_version b)) m c in
  {| commits := <[batch_version b :=
         {| rec_identity := batch_identity b;
            rec_fingerprint := sha256 (fingerprint_input b c) |}]> (commits m);
     keys := keys m'; range_clears := range_clears m';
     latest := batch_version b; oldest_readable := oldest_readable m |}.

Section apply_facts.
Context (sha256 : bytes → bytes).
Implicit Types (m : Model) (b : CommitBatch).

Lemma apply_Applied m b m' :
  apply sha256 m b = Ok (Applied, m') ↔
  ∃ c, canonical_mutations (batch_mutations b) = Ok c ∧
       batch_version b ≠ VERSION_ZERO ∧ commits m !! batch_version b = None ∧
       latest m <ₖ batch_version b ∧ m' = committed sha256 m b c.
Proof.
  unfold apply, fingerprint. split.
  - case_decide as Hz; [done|].
    destruct (canonical_mutations _) as [c|e|] eqn:Hc; simpl; [|done..].
    destruct (commits m !! _) as [r|] eqn:Hr; [case_guards; congruence|].
    destruct (_ ≤ₖ? _) eqn:Hle; [done|]. intros [= <-].
    exists c. split_and!; [done..|key_order|].
    unfold committed. by destruct (fold_frame (batch_version b) c m) as (-> & _ & ->).
  - intros (c & Hc & Hz & Hr & Hlt & ->). rewrite decide_False by done.
    rewrite Hc. simpl. rewrite Hr, (proj2 (key_leb_false _ _)) by done.
    unfold committed. by destruct (fold_frame (batch_version b) c m) as (-> & _ & ->).
Qed.

Lemma apply_AlreadyApplied m b m' :
  apply sha256 m b = Ok (AlreadyApplied, m') ↔
  ∃ c, canonical_mutations (batch_mutations b) = Ok c ∧
       batch_version b ≠ VERSION_ZERO ∧ m' = m ∧
       commits m !! batch_version b =
         Some {| rec_identity := batch_identity b;
                 rec_fingerprint := sha256 (fingerprint_input b c) |}.
Proof.
  unfold apply, fingerprint. split.
  - case_decide as Hz; [done|].
    destruct (canonical_mutations _) as [c|e|] eqn:Hc; simpl; [|done..].
    destruct (commits m !! _) as [[i f]|] eqn:Hr; [|by case_guards].
    simpl. case_guards; [|done]. intros [= <-]. destruct_bool_hyps. naive_solver.
  - intros (c & Hc & Hz & -> & Hr). rewrite decide_False by done.
    rewrite Hc. simpl. rewrite Hr. simpl. by rewrite !bool_decide_eq_true_2.
Qed.

Lemma committed_visible_old m b c k rv :
  rv <ₖ batch_version b → visible (committed sha256 m b c) k rv = visible m k rv.
Proof. apply visible_fold_old. Qed.

Lemma committed_visible_new m b c k rv :
  model_inv m → latest m <ₖ batch_version b → batch_version b ≤ₖ rv →
  visible (committed sha256 m b c) k rv = batch_effect c k (visible m k (latest m)).
Proof. intros Hinv Hlt. by apply visible_fold_new. Qed.

Lemma committed_inv m b c :
  model_inv m → batch_version b ≠ VERSION_ZERO → latest m <ₖ batch_version b →
  model_inv (committed sha256 m b c).
Proof.
  intros Hinv Hz Hlt. split; simpl.
  - intros k h Hk.
    pose proof (history_fold (batch_version b) c m k) as Hh.
    unfold history in Hh at 1. rewrite Hk in Hh. simpl in Hh. subst h.
    apply Forall_app; split.
    + eapply Forall_impl; [by apply history_bounded|]. intros e He; simpl in *. key_order.
    + apply Forall_forall. intros e ->%point_entries_version. apply key_le_refl.
  - rewrite clears_fold. apply Forall_app; split.
    + eapply Forall_impl; [apply (inv_clears _ Hinv)|]. intros e He; simpl in *. key_order.
    + apply Forall_forall. intros e ->%clear_entries_version. apply key_le_refl.
  - intros v r. rewrite lookup_insert. case_decide as Hv; subst.
    + intros _. split; [apply key_le_refl|done].
    + intros [Hle Hv0]%(inv_commits _ Hinv). split; [key_order|done].
  - right. by rewrite lookup_insert_eq.
  - pose proof (inv_oldest _ Hinv). key_order.
Qed.
End apply_facts.

Lemma retain_from_Ok m v m' :
  retain_from m v = Ok m' ↔
  v ≤ₖ latest m ∧ oldest_readable m ≤ₖ v ∧
  m' = {| commits := commits m; keys := keys m; range_clears := range_clears m;
          latest := latest m; oldest_readable := v |}.
Proof.
  unfold retain_from, check_read_version.
  destruct (latest m <ₖ? v) eqn:E1; simpl.
  { split; [done|]. intros (? & ? & ?). key_order. }
  destruct (v <ₖ? oldest_readable m) eqn:E2; simpl.
  { split; [done|]. intros (? & ? & ?). key_order. }
  apply key_ltb_false in E1, E2. naive_solver.
Qed.

Lemma check_read_version_Ok m v :
  check_read_version m v = Ok tt ↔ oldest_readable m ≤ₖ v ∧ v ≤ₖ latest m.
Proof.
  unfold check_read_version. split.
  - case_guards; [done..|]. intros _. split; key_order.
  - intros [Hold Hnew].
    by rewrite (proj2 (key_ltb_false _ _) Hnew), (proj2 (key_ltb_false _ _) Hold).
Qed.

Lemma get_Ok m k rv x :
  get m k rv = Ok x ↔ oldest_readable m ≤ₖ rv ∧ rv ≤ₖ latest m ∧ x = visible m k rv.
Proof.
  unfold get. rewrite res_bind_Ok. split.
  - intros ([] & [? ?]%check_read_version_Ok & [= <-]). done.
  - intros (? & ? & ->). exists tt. by rewrite check_read_version_Ok.
Qed.

Lemma visible_rows_Ok f ks (g : bytes → option bytes) :
  (∀ k, k ∈ ks → f k = Ok (g k)) →
  visible_rows f ks = Ok (omap (λ k, pair k <$> g k) ks).
Proof.
  unfold visible_rows.
  assert (∀ rows, (∀ k, k ∈ ks → f k = Ok (g k)) →
    res_fold (push_visible f) ks rows = Ok (rows ++ omap (λ k, pair k <$> g k) ks)) as Hgen;
    [|by apply Hgen].
  induction ks as [|k ks IH]; intros rows Hf; simpl; [by rewrite app_nil_r|].
  unfold push_visible at 1. rewrite Hf by constructor. simpl.
  rewrite IH by (intros k' Hk'; apply Hf; by constructor).
  destruct (g k); simpl; [by rewrite <-app_assoc|done].
Qed.

Lemma omap_rows_sorted (g : bytes → option bytes) ks :
  StronglySorted key_lt ks →
  keys_sorted (omap (λ k, pair k <$> g k) ks : list Row).
Proof.
  induction 1 as [|k ks Hks IH Hk]; simpl; [constructor|].
  destruct (g k); simpl; [|done]. constructor; [done|]. fold_omap.
  apply Forall_forall. intros [k' y] (k'' & Hk'' & Hy)%list_elem_of_omap.
  destruct (g k''); simplify_eq/=. unfold entry_lt; simpl.
  rewrite Forall_forall in Hk. auto.
Qed.

Lemma elem_of_omap_rows (g : bytes → option bytes) ks k x :
  (k, x) ∈ (omap (λ k, pair k <$> g k) ks : list Row) ↔ k ∈ ks ∧ g k = Some x.
Proof.
  rewrite list_elem_of_omap. split.
  - intros (k' & Hk' & Hx). destruct (g k') eqn:E; by simplify_eq/=.
  - intros [Hk Hx]. exists k. by rewrite Hx.
Qed.

Lemma fst_sorted {V} (l : list (bytes * V)) : keys_sorted l → StronglySorted key_lt l.*1.
Proof.
  induction 1 as [|p l Hl IH Hp]; simpl; constructor; [done|].
  rewrite Forall_forall in Hp. apply Forall_forall.
  intros k (q & -> & Hq)%list_elem_of_fmap. by apply Hp.
Qed.

Lemma find_point_key m k rv e : find_point m k rv = Some e → is_Some (keys m !! k).
Proof. unfold find_point. by destruct (keys m !! k). Qed.

Lemma visible_key m k rv x : visible m k rv = Some x → is_Some (keys m !! k).
Proof.
  unfold visible. destruct (find_point m k rv) eqn:E; [|done].
  intros _. by eapply find_point_key.
Qed.

(** A scan that is admitted returns the visible rows of the range. *)
Lemma scan_Ok m r rv :
  oldest_readable m ≤ₖ rv → rv ≤ₖ latest m → range_start r ≤ₖ range_end r →
  ∃ rows, scan m r rv = Ok rows ∧ keys_sorted rows ∧
    ∀ k x, (k, x) ∈ rows ↔ range_contains r k = true ∧ visible m k rv = Some x.
Proof.
  intros Hold Hnew Hr. unfold scan.
  rewrite (proj2 (check_read_version_Ok m rv)) by done. simpl.
  rewrite (proj2 (key_ltb_false _ _)) by done.
  rewrite (visible_rows_Ok _ _ (λ k, visible m k rv));
    [|intros k _; by apply get_Ok].
  eexists; split_and!; [done|..].
  - apply omap_rows_sorted, fst_sorted, bt_range_sorted.
  - intros k x. rewrite elem_of_omap_rows, list_elem_of_fmap. split.
    + intros [([k' h] & -> & [_ ?]%elem_of_bt_range) ?]. done.
    + intros [Hin Hx]. split; [|done].
      destruct (visible_key _ _ _ _ Hx) as [h Hh].
      exists (k, h). by rewrite elem_of_bt_range.
Qed.

(** ** Histories of the model *)
Section history.
Context (sha256 : bytes → bytes).

(** One successful call that may change the model. *)
Inductive model_step : Model → Model → Prop :=
  | step_apply m b o m' : apply sha256 m b = Ok (o, m') → model_step m m'
  | step_retain m v m' : retain_from m v = Ok m' → model_step m m'.

Definition model_reachable (m : Model) : Prop := rtc model_step Model_default m.

Lemma model_step_inv m m' : model_step m m' → model_inv m → model_inv m'.
Proof.
  destruct 1 as [m b [] m' Ha|m v m' Hr]; intros Hinv.
  - apply apply_Applied in Ha as (c & _ & Hz & _ & Hlt & ->). by apply committed_inv.
  - by apply apply_AlreadyApplied in Ha as (c & _ & _ & -> & _).
  - apply retain_from_Ok in Hr as (Hle & Hold & ->).
    destruct Hinv. by split; simpl.
Qed.

Lemma model_steps_inv m m' : rtc model_step m m' → model_inv m → model_inv m'.
Proof. induction 1; eauto using model_step_inv. Qed.

Lemma model_reachable_inv m : model_reachable m → model_inv m.
Proof. intros H. eapply model_steps_inv; [done|]. apply model_inv_default. Qed.

(** Steps only move the frontier and the retention boundary up, and change
    nothing a read at or below the old frontier can see. *)
Lemma model_step_mono m m' :
  model_step m m' →
  latest m ≤ₖ latest m' ∧ oldest_readable m ≤ₖ oldest_readable m' ∧
  ∀ k rv, rv ≤ₖ latest m → visible m' k rv = visible m k rv.
Proof.
  destruct 1 as [m b [] m' Ha|m v m' Hr].
  - apply apply_Applied in Ha as (c & _ & _ & _ & Hlt & ->).
    split_and!; [by apply key_lt_le|apply key_le_refl|].
    intros k rv Hrv. apply committed_visible_old. key_order.
  - apply apply_AlreadyApplied in Ha as (c & _ & _ & -> & _).
    split_and!; [apply key_le_refl..|done].
  - apply retain_from_Ok in Hr as (Hle & Hold & ->).
    split_and!; [apply key_le_refl|done|done].
Qed.

Lemma model_steps_mono m m' :
  rtc model_step m m' →
  latest m ≤ₖ latest m' ∧ oldest_readable m ≤ₖ oldest_readable m' ∧
  ∀ k rv, rv ≤ₖ latest m → visible m' k rv = visible m k rv.
Proof.
  induction 1 as [m|m m1 m' Hs Hrtc (IHl & IHo & IHv)].
  { split_and!; [apply key_le_refl..|done]. }
  apply model_step_mono in Hs as (Hl & Ho & Hv). split_and!; [key_order..|].
  intros k rv Hrv. rewrite IHv by key_order. by apply Hv.
Qed.

Lemma model_steps_commits m m' v r :
  model_inv m → rtc model_step m m' → commits m !! v = Some r → commits m' !! v = Some r.
Proof.
  intros Hinv Hrtc. revert Hinv.
  induction Hrtc as [|m m1 m' Hs Hrtc IH]; intros Hinv Hr; [done|].
  apply IH; [by eapply model_step_inv|].
  destruct Hs as [m b [] m1 Ha|m v' m1 Hr'].
  - apply apply_Applied in Ha as (c & _ & _ & Hnone & _ & ->). simpl.
    rewrite lookup_insert_ne; [done|]. intros <-. congruence.
  - by apply apply_AlreadyApplied in Ha as (c & _ & _ & -> & _).
  - by apply retain_from_Ok in Hr' as (_ & _ & ->).
Qed.

(** C18. Snapshot stability: a read admitted at a version keeps its answer
    through every later commit, replay and retention change, until the
    retention boundary passes that version and the read is refused as too
    old. *)
Theorem snapshot_stability m m' k rv x :
  model_reachable m → rtc model_step m m' → get m k rv = Ok x →
  get m' k rv = Ok x ∨ get m' k rv = Err (VersionTooOld (oldest_readable m') rv).
Proof.
  intros _ Hsteps (Hold & Hnew & ->)%get_Ok.
  apply model_steps_mono in Hsteps as (Hl & Ho & Hv).
  destruct (decide (oldest_readable m' ≤ₖ rv)) as [Hle|Hlt].
  - left. apply get_Ok. split_and!; [done|key_order|]. by rewrite Hv.
  - right. unfold get, check_read_version.
    rewrite (proj2 (key_ltb_false (latest m') rv)) by key_order.
    by rewrite (proj2 (key_ltb_spec rv _)) by key_order.
Qed.

(** What a commit does: after [apply] accepts a new batch, a read at the
    batch's version returns, for every key, the batch's own point mutation if
    it has one, else nothing if a range clear of the batch covers the key,
    else the value visible before the commit. *)
Theorem commit_effect m b m' k :
  model_reachable m → apply sha256 m b = Ok (Applied, m') →
  get m' k (batch_version b) =
    Ok (batch_effect (batch_mutations b) k (visible m k (latest m))).
Proof.
  intros Hinv%model_reachable_inv (c & Hc & Hz & Hnone & Hlt & ->)%apply_Applied.
  apply get_Ok. simpl. split_and!.
  - pose proof (inv_oldest _ Hinv). key_order.
  - apply key_le_refl.
  - rewrite committed_visible_new by (done || apply key_le_refl).
    by apply batch_effect_canonical.
Qed.

(** Replay is idempotent: a batch that was applied once is recognised at
    any later point of the history and changes nothing. *)
Theorem replay_idempotent m b m1 m2 :
  model_reachable m → apply sha256 m b = Ok (Applied, m1) → rtc model_step m1 m2 →
  apply sha256 m2 b = Ok (AlreadyApplied, m2).
Proof.
  intros Hinv%model_reachable_inv (c & Hc & Hz & Hnone & Hlt & ->)%apply_Applied Hsteps.
  apply apply_AlreadyApplied. exists c. split_and!; [done..|].
  eapply model_steps_commits; [|done|]; [by apply committed_inv|].
  apply lookup_insert_eq.
Qed.
End history.

(** A scan over a non-inverted range at an admitted version never fails and
    returns exactly the visible rows of the range, each key once, by ascending
    key. *)
Theorem scan_exact m r rv :
  oldest_readable m ≤ₖ rv → rv ≤ₖ latest m → range_start r ≤ₖ range_end r →
  ∃ rows, scan m r rv = Ok rows ∧ keys_sorted rows ∧
    ∀ k x, (k, x) ∈ rows ↔ range_contains r k = true ∧ get m k rv = Ok (Some x).
Proof.
  intros Hold Hnew Hr. destruct (scan_Ok m r rv Hold Hnew Hr) as (rows & Hs & Hsort & Hin).
  exists rows. split_and!; [done..|]. intros k x. rewrite Hin, get_Ok. naive_solver.
Qed.

(** ** The read-your-writes view *)
Lemma tx_get_Ok t k :
  oldest_readable (tx_model t) ≤ₖ tx_read_version t →
  tx_read_version t ≤ₖ latest (tx_model t) →
  tx_get t k =
    Ok (foldl (overlay k) (visible (tx_model t) k (tx_read_version t)) (tx_mutations t)).
Proof.
  intros Hold Hnew. unfold tx_get.
  rewrite (proj2 (get_Ok (tx_model t) k _ (visible (tx_model t) k (tx_read_version t)))); done.
Qed.

Lemma overlay_Some k value ms x :
  foldl (overlay k) value ms = Some x → value = Some x ∨ ∃ y, MSet k y ∈ ms.
Proof.
  revert value. induction ms as [|mu ms IH]; intros value; simpl; [by left|].
  intros [Hv|[y Hy]]%IH; [|right; exists y; by constructor].
  destruct mu as [k' y|k'|r]; simpl in Hv.
  - destruct (decide (k' = k)) as [->|?]; [|by left]. right. exists y. constructor.
  - by destruct (decide (k' = k)); [|left].
  - by destruct (range_contains r k); [|left].
Qed.

(** The overlay of a list of pending mutations in which no range clear follows
    a point mutation it covers is the effect of committing them. *)
Definition covered_point (r : KeyRange) (mu : Mutation) : Prop :=
  ∃ k, point_key mu = Some k ∧ range_contains r k = true.

Fixpoint no_late_clear (ms : list Mutation) : Prop :=
  match ms with
  | [] => True
  | mu :: ms =>
      (∀ r, MClearRange r ∈ ms → ¬ covered_point r mu) ∧ no_late_clear ms
  end.

Lemma no_late_clear_snoc ms mu :
  no_late_clear (ms ++ [mu]) ↔
  no_late_clear ms ∧ ∀ r, mu = MClearRange r → ∀ p, p ∈ ms → ¬ covered_point r p.
Proof.
  induction ms as [|p ms IH]; simpl.
  - split; intros _; split; try done.
    + intros r _ q Hq. by apply elem_of_nil in Hq.
    + intros r Hr. by apply elem_of_nil in Hr.
  - rewrite IH. setoid_rewrite elem_of_cons. setoid_rewrite elem_of_app.
    setoid_rewrite list_elem_of_singleton. naive_solver.
Qed.

Lemma overlay_batch_effect k value ms :
  no_late_clear ms → foldl (overlay k) value ms = batch_effect ms k value.
Proof.
  induction ms as [|mu ms IH] using rev_ind; [done|].
  rewrite no_late_clear_snoc, foldl_snoc. intros [Hms Hlate].
  rewrite IH by done. unfold batch_effect.
  rewrite omap_app, existsb_app. simpl.
  destruct mu as [k' x|k'|r]; simpl.
  - rewrite orb_false_r. case_decide; [by rewrite last_snoc|]. by rewrite app_nil_r.
  - rewrite orb_false_r. case_decide; [by rewrite last_snoc|]. by rewrite app_nil_r.
  - rewrite app_nil_r, orb_false_r.
    destruct (range_contains r k) eqn:Hr; [|by rewrite orb_false_r].
    rewrite orb_true_r, (proj2 (last_point_None k ms)); [done|].
    intros p Hp. destruct (point_value k p) as [y|] eqn:E; [|done].
    destruct (Hlate r eq_refl p Hp). exists k. split; [|done]. by eapply point_value_key.
Qed.

(** A transaction's scan agrees with its point reads: it returns exactly the
    keys of the range the transaction itself reads as present, pending writes
    included, by ascending key. *)
Theorem transaction_scan_exact t r :
  oldest_readable (tx_model t) ≤ₖ tx_read_version t →
  tx_read_version t ≤ₖ latest (tx_model t) → range_start r ≤ₖ range_end r →
  ∃ rows, tx_scan t r = Ok rows ∧ keys_sorted rows ∧
    ∀ k x, (k, x) ∈ rows ↔ range_contains r k = true ∧ tx_get t k = Ok (Some x).
Proof.
  intros Hold Hnew Hr. unfold tx_scan.
  destruct (scan_Ok (tx_model t) r (tx_read_version t) Hold Hnew Hr) as (rows & -> & _ & Hin).
  simpl. erewrite visible_rows_Ok by (intros k _; by apply tx_get_Ok).
  eexists; split_and!; [done|apply omap_rows_sorted, bts_items_sorted|].
  intros k x. rewrite elem_of_omap_rows, elem_of_bts_items, tx_get_Ok by done.
  rewrite elem_of_union, !elem_of_list_to_set, list_elem_of_fmap, list_elem_of_omap. split.
  - intros [Hk Hx]. split; [|by f_equal].
    destruct Hk as [([k' y] & -> & [? _]%Hin)|(mu & _ & Hmu)]; [done|].
    destruct mu; simplify_eq/=. by case_guards; simplify_eq.
  - intros [Hk [= Hx]]. split; [|done].
    apply overlay_Some in Hx as [Hv|[y Hy]].
    + left. exists (k, x). by rewrite Hin.
    + right. exists (MSet k y). simpl. by rewrite Hk.
Qed.

(** Read-your-writes is what the commit makes visible: when the pending
    mutations of a transaction at the latest version contain no range clear
    issued after a point mutation it covers, every key reads inside the
    transaction as it reads at the commit version once they are applied. *)
Theorem read_your_writes_commit sha256 m t b m' k :
  model_reachable sha256 m → transaction m (latest m) = Ok t →
  no_late_clear (batch_mutations b) →
  apply sha256 m b = Ok (Applied, m') →
  tx_get (foldl mutate t (batch_mutations b)) k = get m' k (batch_version b).
Proof.
  intros Hinv%model_reachable_inv Ht Hlate Ha.
  assert (∀ ms u, tx_model (foldl mutate u ms) = tx_model u ∧
    tx_read_version (foldl mutate u ms) = tx_read_version u ∧
    tx_mutations (foldl mutate u ms) = tx_mutations u ++ ms) as Hfold.
  { intros ms. induction ms as [|mu ms IH]; intros u; simpl; [by rewrite app_nil_r|].
    destruct (IH (mutate u mu)) as (-> & -> & ->). simpl. by rewrite <-app_assoc. }
  unfold transaction in Ht. apply res_bind_Ok in Ht as (? & _ & [= <-]).
  destruct (Hfold (batch_mutations b)
    {| tx_model := m; tx_read_version := latest m; tx_mutations := [] |}) as (Hm & Hrv & Hms).
  rewrite tx_get_Ok; rewrite Hm, Hrv; simpl; [|apply (inv_oldest _ Hinv)|apply key_le_refl].
  rewrite Hms. simpl. rewrite overlay_batch_effect by done. symmetry.
  apply apply_Applied in Ha as (c & Hc & Hz & Hnone & Hlt & ->).
  apply get_Ok. simpl. split_and!.
  - pose proof (inv_oldest _ Hinv). key_order.
  - apply key_le_refl.
  - rewrite committed_visible_new by (done || apply key_le_refl).
    by apply batch_effect_canonical.
Qed.

(** ** A concrete history

    Two commits on key [k] ("k" = 107), the second of them clearing the range
    around a key it also sets. *)
Module demo.
(** Any function stands for the hash in a concrete run. *)
Definition sha (b : bytes) : bytes := take 32 b.
Definition identity (r : N) : CommitIdentity :=
  {| client_id := replicate 16 0%N; request_id := r |}.
Definition batch (v : N) (ms : list Mutation) : CommitBatch :=
  {| batch_version := version_new v; batch_identity := identity v; batch_mutations := ms |}.
Definition b1 : CommitBatch := batch 1 [MSet [107] [1]; MSet [109] [9]]%N.
Definition b2 : CommitBatch :=
  batch 2 [MClearRange {| range_start := [97]; range_end := [122] |}; MSet [107] [2]]%N.
Definition run (m : Model) (b : CommitBatch) : Model :=
  match apply sha m b with Ok (_, m') => m' | _ => m end.
Definition m1 : Model := run Model_default b1.
Definition m2 : Model := run m1 b2.
Definition tx : TransactionView :=
  {| tx_model := m1; tx_read_version := version_new 1; tx_mutations := [MSet [108] [7]]%N |}.
Definition all_keys : KeyRange := {| range_start := []; range_end := [255]%N |}.

Lemma apply_b1 : apply sha Model_default b1 = Ok (Applied, m1).
Proof. vm_compute. reflexivity. Qed.
Lemma apply_b2 : apply sha m1 b2 = Ok (Applied, m2).
Proof. vm_compute. reflexivity. Qed.
Lemma reach_m1 : model_reachable sha m1.
Proof. eapply rtc_once, step_apply, apply_b1. Qed.
Lemma step_m2 : rtc (model_step sha) m1 m2.
Proof. eapply rtc_once, step_apply, apply_b2. Qed.
End demo.

Lemma snapshot_stability_witness :
  get demo.m1 [107%N] (version_new 1) = Ok (Some [1%N]) ∧
  get demo.m2 [107%N] (version_new 2) = Ok (Some [2%N]) ∧
  (get demo.m2 [107%N] (version_new 1) = Ok (Some [1%N]) ∨
   get demo.m2 [107%N] (version_new 1) =
     Err (VersionTooOld (oldest_readable demo.m2) (version_new 1))).
Proof.
  split; [by vm_compute|]. split; [by vm_compute|].
  apply (snapshot_stability demo.sha demo.m1 demo.m2); [apply demo.reach_m1|apply demo.step_m2|].
  by vm_compute.
Defined.

Lemma commit_effect_witness :
  get demo.m2 [109%N] (version_new 2) =
    Ok (batch_effect (batch_mutations demo.b2) [109%N] (Some [9%N])) ∧
  batch_effect (batch_mutations demo.b2) [109%N] (Some [9%N]) = None.
Proof.
  split; [|by vm_compute].
  exact (commit_effect demo.sha demo.m1 demo.b2 demo.m2 [109%N] demo.reach_m1 demo.apply_b2).
Defined.

Lemma replay_idempotent_witness :
  apply demo.sha demo.m2 demo.b1 = Ok (AlreadyApplied, demo.m2).
Proof.
  exact (replay_idempotent demo.sha Model_default demo.b1 demo.m1 demo.m2
    (rtc_refl _ _) demo.apply_b1 demo.step_m2).
Defined.

Lemma scan_exact_witness :
  (∃ rows, scan demo.m1 demo.all_keys (version_new 1) = Ok rows ∧ keys_sorted rows ∧
    ∀ k x, (k, x) ∈ rows ↔
      range_contains demo.all_keys k = true ∧ get demo.m1 k (version_new 1) = Ok (Some x)) ∧
  scan demo.m1 demo.all_keys (version_new 1) = Ok [([107], [1]); ([109], [9])]%N.
Proof.
  split; [|by vm_compute]. apply scan_exact; by vm_compute.
Defined.

Lemma transaction_scan_exact_witness :
  (∃ rows, tx_scan demo.tx demo.all_keys = Ok rows ∧ keys_sorted rows ∧
    ∀ k x, (k, x) ∈ rows ↔
      range_contains demo.all_keys k = true ∧ tx_get demo.tx k = Ok (Some x)) ∧
  tx_scan demo.tx demo.all_keys = Ok [([107], [1]); ([108], [7]); ([109], [9])]%N.
Proof.
  split; [|by vm_compute]. apply transaction_scan_exact; by vm_compute.
Defined.

Lemma read_your_writes_commit_witness :
  tx_get (foldl mutate {| tx_model := demo.m1; tx_read_version := version_new 1;
                          tx_mutations := [] |} (batch_mutations demo.b2)) [107%N] =
    get demo.m2 [107%N] (version_new 2) ∧
  get demo.m2 [107%N] (version_new 2) = Ok (Some [2%N]).
Proof.
  split; [|by vm_compute].
  apply (read_your_writes_commit demo.sha demo.m1 _ demo.b2 demo.m2).
  - apply demo.reach_m1.
  - by vm_compute.
  - simpl. split_and!; [|intros r Hr; by apply elem_of_nil in Hr|done].
    intros r _ (k & Hk & _). done.
  - apply demo.apply_b2.
Defined.

(** The converse of the condition of [read_your_writes_commit]: a range clear
    issued after a set it covers hides the key inside the transaction, while
    committing the same mutations makes the set visible. *)
Example late_clear_diverges :
  let ms := [MSet [107] [1]; MClearRange {| range_start := [97]; range_end := [122] |}]%N in
  let t := foldl mutate {| tx_model := Model_default; tx_read_version := VERSION_ZERO;
                           tx_mutations := [] |} ms in
  tx_get t [107%N] = Ok None ∧
  get (demo.run Model_default (demo.batch 1 ms)) [107%N] (version_new 1) = Ok (Some [1%N]).
Proof. by vm_compute. Qed.
