(* ===== verification/Oracle.v ===== *)
(** * The naive oracle and the differential refinement

    [NaiveOracle] of [okv-model/src/history.rs] keeps one complete snapshot per
    commit. The differential runner of the source samples histories and
    compares the model with it; here every history is covered: the model and
    the oracle give the same answers, by a simulation. *)

From S2P Require Import Prelude Order BTree Bytes Version Mvcc.

Inductive OracleMutation :=
  | OClearRange (start end_ : bytes)
  | OClear (key : bytes)
  | OSet (key value : bytes).
#[global] Instance OracleMutation_eq_dec : EqDecision OracleMutation.
Proof. solve_decision. Defined.

(** The derived [Ord]: constructor index, then the fields. *)
Definition oracle_mutation_key (m : OracleMutation) : N * (bytes * bytes) :=
  match m with
  | OClearRange s e => (0, (s, e))
  | OClear k => (1, (k, []))
  | OSet k v => (2, (k, v))
  end%N.
#[global] Instance oracle_mutation_key_inj : Inj (=) (=) oracle_mutation_key.
Proof. intros [] []; simpl; naive_solver. Qed.
#[global] Instance OracleMutation_key_order : KeyOrder OracleMutation :=
  projected_order oracle_mutation_key.

Definition oracle_mutation (m : Mutation) : OracleMutation :=
  match m with
  | MSet k v => OSet k v
  | MClear k => OClear k
  | MClearRange r => OClearRange (range_start r) (range_end r)
  end.

Definition oracle_signature (mutations : list Mutation) : list OracleMutation :=
  sort_dedup (oracle_mutation <$> mutations).

Record NaiveOracle := {
  snapshots : gmap Version (gmap bytes bytes);
  o_commits : gmap Version (CommitIdentity * list OracleMutation);
  o_latest : Version;
  o_oldest_readable : Version;
}.

Definition NaiveOracle_default : NaiveOracle :=
  {| snapshots := ∅; o_commits := ∅; o_latest := VERSION_ZERO;
     o_oldest_readable := VERSION_ZERO |}.

(** [snapshots.range(..=version).next_back()]. *)
Definition snapshot_at (o : NaiveOracle) (version : Version) : option (gmap bytes bytes) :=
  snd <$> bt_range_last (λ v, v ≤ₖ? version) (snapshots o).

Definition oracle_clear (s : gmap bytes bytes) (mu : Mutation) : gmap bytes bytes :=
  match mu with
  | MClearRange r => bt_retain (λ k, negb (range_contains r k)) s
  | _ => s
  end.

Definition oracle_point (s : gmap bytes bytes) (mu : Mutation) : gmap bytes bytes :=
  match mu with
  | MSet k v => <[k := v]> s
  | MClear k => delete k s
  | MClearRange _ => s
  end.

Definition oracle_apply (o : NaiveOracle) (b : CommitBatch)
    : res ModelError (ApplyOutcome * NaiveOracle) :=
  let signature := oracle_signature (batch_mutations b) in
  match o_commits o !! batch_version b with
  | Some (identity, existing) =>
      if bool_decide (identity = batch_identity b) && bool_decide (existing = signature)
      then Ok (AlreadyApplied, o)
      else Err (ConflictingReplay (batch_version b))
  | None =>
      if decide (batch_version b = VERSION_ZERO) then Err ZeroVersion
      else if batch_version b ≤ₖ? o_latest o
      then Err (NonMonotonicVersion (o_latest o) (batch_version b))
      else
        let snapshot := default ∅ (snapshot_at o (o_latest o)) in
        let snapshot := foldl oracle_clear snapshot (batch_mutations b) in
        let snapshot := foldl oracle_point snapshot (batch_mutations b) in
        Ok (Applied,
            {| snapshots := <[batch_version b := snapshot]> (snapshots o);
               o_commits := <[batch_version b := (batch_identity b, signature)]> (o_commits o);
               o_latest := batch_version b;
               o_oldest_readable := o_oldest_readable o |})
  end.

Definition oracle_check_read_version (o : NaiveOracle) (requested : Version)
    : res ModelError unit :=
  if o_latest o <ₖ? requested then Err (VersionNotApplied (o_latest o) requested)
  else if requested <ₖ? o_oldest_readable o
  then Err (VersionTooOld (o_oldest_readable o) requested)
  else Ok tt.

Definition oracle_retain_from (o : NaiveOracle) (version : Version) : res ModelError NaiveOracle :=
  let? _ := oracle_check_read_version o version in
  Ok {| snapshots := snapshots o; o_commits := o_commits o; o_latest := o_latest o;
        o_oldest_readable := version |}.

Definition oracle_get (o : NaiveOracle) (key : bytes) (version : Version)
    : res ModelError (option bytes) :=
  let? _ := oracle_check_read_version o version in
  Ok (s ← snapshot_at o version; s !! key).

(** The range of an absent snapshot is never computed, so only a present one
    can panic. *)
Definition oracle_scan (o : NaiveOracle) (range : KeyRange) (version : Version)
    : res ModelError (list Row) :=
  let? _ := oracle_check_read_version o version in
  match snapshot_at o version with
  | Some s =>
      if range_end range <ₖ? range_start range then Panic
      else Ok (bt_range (range_contains range) s)
  | None => Ok []
  end.

(** ** The operations of a history and their observations *)
Inductive Op :=
  | OpApply (b : CommitBatch)
  | OpRetain (v : Version)
  | OpGet (k : bytes) (v : Version)
  | OpScan (r : KeyRange) (v : Version).

Inductive Obs :=
  | ObsApply (r : res ModelError ApplyOutcome)
  | ObsRetain (r : res ModelError unit)
  | ObsGet (r : res ModelError (option bytes))
  | ObsScan (r : res ModelError (list Row)).

Definition model_op (sha256 : bytes → bytes) (m : Model) (op : Op) : Model * Obs :=
  match op with
  | OpApply b =>
      match apply sha256 m b with
      | Ok (o, m') => (m', ObsApply (Ok o))
      | Err e => (m, ObsApply (Err e))
      | Panic => (m, ObsApply Panic)
      end
  | OpRetain v =>
      match retain_from m v with
      | Ok m' => (m', ObsRetain (Ok tt))
      | Err e => (m, ObsRetain (Err e))
      | Panic => (m, ObsRetain Panic)
      end
  | OpGet k v => (m, ObsGet (get m k v))
  | OpScan r v => (m, ObsScan (scan m r v))
  end.

Definition oracle_op (o : NaiveOracle) (op : Op) : NaiveOracle * Obs :=
  match op with
  | OpApply b =>
      match oracle_apply o b with
      | Ok (r, o') => (o', ObsApply (Ok r))
      | Err e => (o, ObsApply (Err e))
      | Panic => (o, ObsApply Panic)
      end
  | OpRetain v =>
      match oracle_retain_from o v with
      | Ok o' => (o', ObsRetain (Ok tt))
      | Err e => (o, ObsRetain (Err e))
      | Panic => (o, ObsRetain Panic)
      end
  | OpGet k v => (o, ObsGet (oracle_get o k v))
  | OpScan r v => (o, ObsScan (oracle_scan o r v))
  end.

Fixpoint observe {S} (step : S → Op → S * Obs) (s : S) (ops : list Op) : list Obs :=
  match ops with
  | [] => []
  | op :: ops => let '(s', obs) := step s op in obs :: observe step s' ops
  end.

(** ** The oracle's commit is the model's *)
#[global] Instance oracle_mutation_inj : Inj (=) (=) oracle_mutation.
Proof. intros [| |[]] [| |[]]; simpl; naive_solver. Qed.

Lemma oracle_signature_ext ms1 ms2 :
  oracle_signature ms1 = oracle_signature ms2 ↔ sort_dedup ms1 = sort_dedup ms2.
Proof.
  unfold oracle_signature. rewrite !sort_dedup_ext. split.
  - intros Hiff x. specialize (Hiff (oracle_mutation x)).
    by rewrite !list_elem_of_fmap_inj in Hiff by apply _.
  - intros Hiff x. rewrite !list_elem_of_fmap. naive_solver.
Qed.

Lemma oracle_clear_lookup ms s k :
  foldl oracle_clear s ms !! k = if existsb (clear_covers k) ms then None else s !! k.
Proof.
  revert s. induction ms as [|mu ms IH]; intros s; [done|]. simpl. rewrite IH.
  destruct (existsb (clear_covers k) ms); [by rewrite orb_true_r|]. rewrite orb_false_r.
  destruct mu as [k' x|k'|r]; simpl; [done..|]. rewrite bt_retain_lookup.
  by destruct (range_contains r k).
Qed.

Lemma oracle_point_lookup ms s k :
  foldl oracle_point s ms !! k =
  match last (omap (point_value k) ms) with Some x => x | None => s !! k end.
Proof.
  induction ms as [|mu ms IH] using rev_ind; [done|].
  rewrite foldl_snoc, omap_app. simpl.
  destruct mu as [k' x|k'|r]; simpl; [| |by rewrite app_nil_r].
  - case_decide as Hk; [subst; by rewrite lookup_insert_eq, last_snoc|].
    by rewrite lookup_insert_ne, app_nil_r.
  - case_decide as Hk; [subst; by rewrite lookup_delete_eq, last_snoc|].
    by rewrite lookup_delete_ne, app_nil_r.
Qed.

Lemma oracle_effect ms s k :
  foldl oracle_point (foldl oracle_clear s ms) ms !! k = batch_effect ms k (s !! k).
Proof. unfold batch_effect. by rewrite oracle_point_lookup, oracle_clear_lookup. Qed.

Section snapshots.
Context (S : gmap Version (gmap bytes bytes)) (v : Version) (s : gmap bytes bytes).

Lemma snapshot_insert_below rv :
  rv <ₖ v →
  bt_range_last (λ w, w ≤ₖ? rv) (<[v := s]> S) = bt_range_last (λ w, w ≤ₖ? rv) S.
Proof.
  intros Hrv. unfold bt_range_last. f_equal.
  apply keys_sorted_ext; [apply bt_range_sorted..|]. intros [w t].
  rewrite !elem_of_bt_range, key_leb_spec, lookup_insert.
  case_decide as Hw; [|done]. subst w. split; intros [_ Hle]; key_order.
Qed.

Lemma snapshot_insert_above rv :
  v ≤ₖ rv → (∀ w t, S !! w = Some t → w <ₖ v) →
  bt_range_last (λ w, w ≤ₖ? rv) (<[v := s]> S) = Some (v, s).
Proof.
  intros Hrv HS. apply bt_range_last_Some. split_and!.
  - apply lookup_insert_eq.
  - by apply key_leb_spec.
  - intros w t. rewrite lookup_insert. case_decide as Hw; [subst; intros; apply key_le_refl|].
    intros Ht%HS _. by apply key_lt_le.
Qed.
End snapshots.

(** ** The simulation *)
Section simulation.
Context (sha256 : bytes → bytes).

(** Batches a history may apply: unambiguous and within machine width. *)
Record admissible (b : CommitBatch) : Prop := {
  adm_wf : batch_wf b;
  adm_canonical : ∃ c, canonical_mutations (batch_mutations b) = Ok c ∧ fits c;
}.

(** No two of the batches collide under the hash. *)
Definition collision_free (P : CommitBatch → Prop) : Prop :=
  ∀ b1 b2 c1 c2, P b1 → P b2 →
    canonical_mutations (batch_mutations b1) = Ok c1 →
    canonical_mutations (batch_mutations b2) = Ok c2 →
    sha256 (fingerprint_input b1 c1) = sha256 (fingerprint_input b2 c2) →
    fingerprint_input b1 c1 = fingerprint_input b2 c2.

Context (P : CommitBatch → Prop).
Context (Hadm : ∀ b, P b → admissible b) (Hfree : collision_free P).

Definition same_commit (v : Version) (r : CommitRecord)
    (e : CommitIdentity * list OracleMutation) : Prop :=
  ∃ b c, P b ∧ batch_version b = v ∧
    canonical_mutations (batch_mutations b) = Ok c ∧
    r = {| rec_identity := batch_identity b;
           rec_fingerprint := sha256 (fingerprint_input b c) |} ∧
    e = (batch_identity b, oracle_signature (batch_mutations b)).

Record sim (m : Model) (o : NaiveOracle) : Prop := {
  sim_inv : model_inv m;
  sim_latest : o_latest o = latest m;
  sim_oldest : o_oldest_readable o = oldest_readable m;
  sim_commits v : option_Forall2 (same_commit v) (commits m !! v) (o_commits o !! v);
  sim_snapshots v s : snapshots o !! v = Some s → v ≤ₖ latest m;
  sim_visible k rv : visible m k rv = (s ← snapshot_at o rv; s !! k);
}.

Lemma sim_default : sim Model_default NaiveOracle_default.
Proof.
  split; simpl; [apply model_inv_default|done|done|..].
  - intros v. rewrite !lookup_empty. constructor.
  - intros v s. by rewrite lookup_empty.
  - done.
Qed.

(** Equal fingerprints and equal signatures agree on admissible batches of
    one version and identity. *)
Lemma fingerprint_signature b1 b2 c1 c2 :
  P b1 → P b2 →
  canonical_mutations (batch_mutations b1) = Ok c1 →
  canonical_mutations (batch_mutations b2) = Ok c2 →
  batch_version b1 = batch_version b2 → batch_identity b1 = batch_identity b2 →
  sha256 (fingerprint_input b1 c1) = sha256 (fingerprint_input b2 c2) ↔
  oracle_signature (batch_mutations b1) = oracle_signature (batch_mutations b2).
Proof.
  intros H1 H2 Hc1 Hc2 Hv Hi.
  pose proof Hc1 as [E1 _]%canonical_mutations_Ok.
  pose proof Hc2 as [E2 _]%canonical_mutations_Ok.
  rewrite oracle_signature_ext, <-E1, <-E2. split.
  - intros Heq%Hfree; [|done..].
    destruct (Hadm b1 H1) as [W1 (c1' & Hc1' & F1)], (Hadm b2 H2) as [W2 (c2' & Hc2' & F2)].
    rewrite Hc1 in Hc1'. rewrite Hc2 in Hc2'. injection Hc1' as <-. injection Hc2' as <-.
    subst c1 c2. apply (fingerprint_input_inj b1 b2) in Heq as (_ & _ & ?); try done.
    + apply Forall_forall. intros x Hx. rewrite elem_of_sort_dedup in Hx.
      pose proof (batch_wf_mutations b1 W1) as Hwf. rewrite Forall_forall in Hwf. auto.
    + apply Forall_forall. intros x Hx. rewrite elem_of_sort_dedup in Hx.
      pose proof (batch_wf_mutations b2 W2) as Hwf. rewrite Forall_forall in Hwf. auto.
  - intros ->. unfold fingerprint_input. by rewrite Hv, Hi.
Qed.

Lemma sim_committed m o b c :
  sim m o → P b → canonical_mutations (batch_mutations b) = Ok c →
  batch_version b ≠ VERSION_ZERO → latest m <ₖ batch_version b →
  sim (committed sha256 m b c)
    {| snapshots := <[batch_version b :=
         foldl oracle_point
           (foldl oracle_clear (default ∅ (snapshot_at o (o_latest o))) (batch_mutations b))
           (batch_mutations b)]> (snapshots o);
       o_commits := <[batch_version b :=
         (batch_identity b, oracle_signature (batch_mutations b))]> (o_commits o);
       o_latest := batch_version b; o_oldest_readable := o_oldest_readable o |}.
Proof.
  intros Hsim HP Hc Hz Hlt. split; simpl; [|done|apply Hsim|..].
  - apply committed_inv; [apply Hsim|done..].
  - intros v. rewrite !lookup_insert. case_decide as Hv; [|apply Hsim].
    constructor. exists b, c. done.
  - intros v s. rewrite lookup_insert. case_decide as Hv; [subst; intros; apply key_le_refl|].
    intros Hs%(sim_snapshots _ _ Hsim). key_order.
  - intros k rv. unfold snapshot_at. simpl.
    destruct (decide (batch_version b ≤ₖ rv)) as [Hrv|Hrv].
    + rewrite snapshot_insert_above; [|done|intros w t Ht%(sim_snapshots _ _ Hsim); key_order].
      simpl. rewrite oracle_effect, committed_visible_new; [|apply Hsim|done..].
      rewrite (batch_effect_canonical _ _ _ _ Hc). f_equal.
      rewrite (sim_visible _ _ Hsim), (sim_latest _ _ Hsim).
      unfold snapshot_at.
      destruct (bt_range_last _ _); simpl; [done|by rewrite lookup_empty].
    + apply key_not_le in Hrv. rewrite snapshot_insert_below by done.
      rewrite committed_visible_old by done. apply Hsim.
Qed.

Lemma sim_apply m o b :
  sim m o → P b →
  (model_op sha256 m (OpApply b)).2 = (oracle_op o (OpApply b)).2 ∧
  sim (model_op sha256 m (OpApply b)).1 (oracle_op o (OpApply b)).1.
Proof.
  intros Hsim HP. destruct (Hadm b HP) as [Hwf (c & Hc & Hfit)].
  unfold model_op, oracle_op, apply, oracle_apply, fingerprint. rewrite Hc. simpl.
  pose proof (sim_commits _ _ Hsim (batch_version b)) as Hcm.
  destruct (commits m !! batch_version b) as [r|] eqn:E;
    destruct (o_commits o !! batch_version b) as [[i sg]|] eqn:E';
    inversion Hcm as [? ? Hsame|]; subst.
  - rewrite decide_False by by eapply (inv_commits _ (sim_inv _ _ Hsim)).
    destruct Hsame as (b0 & c0 & HP0 & Hv & Hc0 & -> & [= -> ->]). simpl.
    assert (bool_decide (batch_identity b0 = batch_identity b) &&
        bool_decide (sha256 (fingerprint_input b0 c0) = sha256 (fingerprint_input b c)) =
      bool_decide (batch_identity b0 = batch_identity b) &&
        bool_decide (oracle_signature (batch_mutations b0) =
                     oracle_signature (batch_mutations b))) as ->.
    { destruct (bool_decide_reflect (batch_identity b0 = batch_identity b)); [|done]. simpl.
      apply bool_decide_ext. by apply fingerprint_signature. }
    by destruct (_ && _).
  - case_decide as Hz; [done|]. rewrite (sim_latest _ _ Hsim).
    destruct (_ ≤ₖ? _) eqn:Hle; [done|]. apply key_leb_false in Hle. simpl.
    split; [done|].
    pose proof (sim_committed m o b c Hsim HP Hc Hz Hle) as Hs.
    rewrite (sim_latest _ _ Hsim) in Hs. unfold committed in Hs.
    by destruct (fold_frame (batch_version b) c m) as (-> & _ & ->).
Qed.

Lemma sim_check m o v :
  sim m o → oracle_check_read_version o v = check_read_version m v.
Proof.
  intros Hsim. unfold oracle_check_read_version, check_read_version.
  by rewrite (sim_latest _ _ Hsim), (sim_oldest _ _ Hsim).
Qed.

Lemma sim_retain m o v :
  sim m o →
  (model_op sha256 m (OpRetain v)).2 = (oracle_op o (OpRetain v)).2 ∧
  sim (model_op sha256 m (OpRetain v)).1 (oracle_op o (OpRetain v)).1.
Proof.
  intros Hsim. unfold model_op, oracle_op, retain_from, oracle_retain_from.
  rewrite (sim_check _ _ _ Hsim).
  destruct (check_read_version m v) as [[]|e|] eqn:E; [|done..]. simpl.
  apply check_read_version_Ok in E as [Hold Hnew].
  rewrite (proj2 (key_ltb_false _ _) Hold). simpl. split; [done|].
  destruct Hsim as [[] ? ? ? ? ?]. split; simpl; try done.
Qed.

Lemma sim_get m o k v : sim m o → get m k v = oracle_get o k v.
Proof.
  intros Hsim. unfold get, oracle_get. rewrite (sim_check _ _ _ Hsim).
  destruct (check_read_version m v); [|done..]. simpl. f_equal. apply Hsim.
Qed.

Lemma sim_scan m o r v :
  sim m o → range_start r ≤ₖ range_end r → scan m r v = oracle_scan o r v.
Proof.
  intros Hsim Hr. unfold oracle_scan. rewrite (sim_check _ _ _ Hsim).
  destruct (check_read_version m v) as [[]|e|] eqn:E; [|unfold scan; by rewrite E..].
  simpl. apply check_read_version_Ok in E as [Hold Hnew].
  destruct (scan_Ok m r v Hold Hnew Hr) as (rows & -> & Hsort & Hin).
  setoid_rewrite (sim_visible _ _ Hsim) in Hin.
  destruct (snapshot_at o v) as [s|]; simpl in Hin.
  - rewrite (proj2 (key_ltb_false _ _) Hr). f_equal.
    apply keys_sorted_ext; [done|apply bt_range_sorted|]. intros [k x].
    rewrite Hin, elem_of_bt_range. naive_solver.
  - f_equal. destruct rows as [|[k x] rows]; [done|].
    by destruct (proj1 (Hin k x) (list_elem_of_here _ _)).
Qed.

Definition op_ok (op : Op) : Prop :=
  match op with
  | OpApply b => P b
  | OpScan r _ => range_start r ≤ₖ range_end r
  | _ => True
  end.

Lemma sim_step m o op :
  sim m o → op_ok op →
  (model_op sha256 m op).2 = (oracle_op o op).2 ∧
  sim (model_op sha256 m op).1 (oracle_op o op).1.
Proof.
  intros Hsim Hop. destruct op as [b|v|k v|r v].
  - by apply sim_apply.
  - by apply sim_retain.
  - simpl. by rewrite (sim_get m o).
  - simpl. by rewrite (sim_scan m o).
Qed.

Lemma sim_observe m o ops :
  sim m o → Forall op_ok ops →
  observe (model_op sha256) m ops = observe oracle_op o ops.
Proof.
  intros Hsim Hops. revert m o Hsim.
  induction Hops as [|op ops Hop _ IH]; intros m o Hsim; [done|]. simpl.
  destruct (sim_step m o op Hsim Hop) as [Hobs Hsim'].
  destruct (model_op sha256 m op) as [m' r1], (oracle_op o op) as [o' r2].
  simpl in *. f_equal; auto.
Qed.
End simulation.

(** The batches a history applies. *)
Definition applied_in (ops : list Op) (b : CommitBatch) : Prop := OpApply b ∈ ops.
Definition scans_proper (ops : list Op) : Prop :=
  ∀ r v, OpScan r v ∈ ops → range_start r ≤ₖ range_end r.

(** C1. Differential refinement: on every history of unambiguous, machine-width
    batches, retention moves, point reads and scans, on which the hash does not
    collide, the model returns exactly what the snapshot-per-commit oracle
    returns, errors included. *)
Theorem differential_refinement sha256 ops :
  (∀ b, applied_in ops b → admissible b) →
  collision_free sha256 (applied_in ops) → scans_proper ops →
  observe (model_op sha256) Model_default ops = observe oracle_op NaiveOracle_default ops.
Proof.
  intros Hadm Hfree Hscans.
  apply (sim_observe sha256 (applied_in ops)); [done..|apply sim_default|].
  apply Forall_forall. intros [b|v|k v|r v] Hin; simpl; [done..|]. by eapply Hscans.
Qed.

(** ** Checking concrete batches *)
Definition mutation_check (mu : Mutation) : bool :=
  match mu with
  | MSet k v => (len k <=? U64_MAX)%N && (len v <=? U64_MAX)%N
  | MClear k => (len k <=? U64_MAX)%N
  | MClearRange r => (len (range_start r) <=? U64_MAX)%N && (len (range_end r) <=? U64_MAX)%N
  end.

Definition batch_check (b : CommitBatch) : bool :=
  (generation (batch_version b) <=? U64_MAX)%N && (sequence (batch_version b) <=? U64_MAX)%N &&
  (length (client_id (batch_identity b)) =? 16) &&
  (request_id (batch_identity b) <=? U64_MAX)%N &&
  forallb mutation_check (batch_mutations b) &&
  match canonical_mutations (batch_mutations b) with Ok c => (len c <=? U64_MAX)%N | _ => false end.

Lemma mutation_check_wf mu : mutation_check mu = true → mutation_wf mu.
Proof.
  destruct mu; simpl; rewrite ?andb_true_iff, ?N.leb_le; done.
Qed.

Lemma batch_check_admissible b : batch_check b = true → admissible b.
Proof.
  unfold batch_check. rewrite !andb_true_iff, !N.leb_le, Nat.eqb_eq.
  intros [[[[[Hg Hs] Hc] Hr] Hm] Hcan].
  split; [split; [done..|]|].
  - apply forallb_Forall in Hm. eapply Forall_impl; [exact Hm|]. apply mutation_check_wf.
  - destruct (canonical_mutations _) as [c|e|]; [|done..]. exists c. split; [done|].
    by apply N.leb_le in Hcan.
Qed.

Lemma batches_checked bs b : forallb batch_check bs = true → b ∈ bs → admissible b.
Proof.
  rewrite forallb_Forall, Forall_forall. intros Hall Hb. by apply batch_check_admissible, Hall.
Qed.

(** The hash separates the batches of a list. *)
Definition separated (sha256 : bytes → bytes) (bs : list CommitBatch) : bool :=
  let input b := fingerprint_input b (sort_dedup (batch_mutations b)) in
  forallb (λ b1, forallb (λ b2, implb (bool_decide (sha256 (input b1) = sha256 (input b2)))
    (bool_decide (input b1 = input b2))) bs) bs.

Lemma separated_collision_free sha256 bs (P : CommitBatch → Prop) :
  (∀ b, P b → b ∈ bs) → separated sha256 bs = true → collision_free sha256 P.
Proof.
  intros Hin Hsep b1 b2 c1 c2 H1%Hin H2%Hin [-> _]%canonical_mutations_Ok
    [-> _]%canonical_mutations_Ok Hsha.
  unfold separated in Hsep. rewrite forallb_Forall, Forall_forall in Hsep.
  pose proof (Hsep b1 H1) as Hb. cbv beta in Hb. rewrite forallb_Forall, Forall_forall in Hb.
  pose proof (Hb b2 H2) as Heq. cbv beta in Heq.
  rewrite bool_decide_true in Heq by exact Hsha. by apply bool_decide_eq_true in Heq.
Qed.

(** ** A concrete history: commits, an exact replay, a conflicting replay, a
    point and a range read, and a read below the retention boundary. *)
Module demo_history.
(** A polynomial hash to 32 bytes. *)
Definition sha (b : bytes) : bytes :=
  be 32 (foldl (λ a x, (a * 257 + x + 1) `mod` 2 ^ 256)%N 0%N b).
Definition conflict : CommitBatch := demo.batch 1 [MSet [107] [3]]%N.
Definition batches : list CommitBatch := [demo.b1; demo.b2; conflict].
Definition ops : list Op :=
  [OpApply demo.b1; OpApply demo.b2; OpApply demo.b1; OpApply conflict;
   OpGet [107%N] (version_new 1); OpScan demo.all_keys (version_new 2);
   OpRetain (version_new 2); OpGet [107%N] (version_new 1)].

Lemma applied b : applied_in ops b → b ∈ batches.
Proof.
  unfold applied_in, ops. intros H.
  repeat (apply elem_of_cons in H as [[=]|H]); try by apply elem_of_nil in H.
  all: subst b; unfold batches; repeat constructor.
Qed.

Lemma admissible_all b : applied_in ops b → admissible b.
Proof. intros Hb%applied. by apply (batches_checked batches). Qed.

Lemma no_collision : collision_free sha (applied_in ops).
Proof. apply (separated_collision_free sha batches); [apply applied|by vm_compute]. Qed.
End demo_history.

Lemma differential_refinement_witness :
  observe (model_op demo_history.sha) Model_default demo_history.ops =
    observe oracle_op NaiveOracle_default demo_history.ops ∧
  observe oracle_op NaiveOracle_default demo_history.ops =
    [ObsApply (Ok Applied); ObsApply (Ok Applied); ObsApply (Ok AlreadyApplied);
     ObsApply (Err (ConflictingReplay (version_new 1)));
     ObsGet (Ok (Some [1%N])); ObsScan (Ok [([107%N], [2%N])]); ObsRetain (Ok tt);
     ObsGet (Err (VersionTooOld (version_new 2) (version_new 1)))].
Proof.
  split; [|by vm_compute].
  apply differential_refinement.
  - exact demo_history.admissible_all.
  - exact demo_history.no_collision.
  - intros r v Hin. unfold demo_history.ops in Hin.
    repeat (apply elem_of_cons in Hin as [[=]|Hin]); try by apply elem_of_nil in Hin.
    subst r. by vm_compute.
Defined.
