(* ===== verification/Publication.v ===== *)
(** * The publication authority

    [okv-publication/src/lib.rs]: the replicated state that names which
    immutable objects are roots, prepared, pinned, leased or being collected,
    and that hands out delete permits. Every action of the authority is one
    definition below; [apply] dispatches as the code does. An operation returns
    the state it leaves and the transition it reports, so that an early return
    is visible as the unchanged state beside a rejected transition.

    Strings are UTF-8 byte strings; [BTreeMap] and [BTreeSet] are [gmap] and
    [gset] iterated in key order. *)

From S2P Require Import Prelude Order BTree.
From coqutil Require Export Datatypes.RecordSetters.
Export OCamlLikeNotations.

Definition PUBLICATION_FORMAT_VERSION : N := 1.

(** ** Data *)
Record AuthorityPosition := { pos_term : N; pos_index : N }.
Definition position_is_valid (p : AuthorityPosition) : bool := negb (pos_index p =? 0)%N.
Definition AuthorityPosition_default : AuthorityPosition := {| pos_term := 0; pos_index := 0 |}.

Record AuthorityContext := { ctx_generation : N; ctx_position : AuthorityPosition }.
Definition context_is_valid (c : AuthorityContext) : bool :=
  negb (ctx_generation c =? 0)%N && position_is_valid (ctx_position c).

Record RevisionToken := { e_tag : option string; rev_version : option string }.
Record ObjectIdentity :=
  { id_revision : RevisionToken; id_length : N; id_sha256 : string }.
Inductive ObjectKind := Data | Manifest.
Record ObjectReference :=
  { ref_kind : ObjectKind; ref_key : string; ref_length : N; ref_sha256 : string }.

Definition hex_byte (b : N) : bool :=
  ((48 <=? b) && (b <=? 57) || (97 <=? b) && (b <=? 102))%N.
Definition valid_sha256 (value : string) : bool :=
  Nat.eqb (String.length value) 64 && forallb hex_byte (string_bytes value).

Definition identity_is_valid (i : ObjectIdentity) : bool := valid_sha256 (id_sha256 i).
Definition reference_is_valid (r : ObjectReference) : bool :=
  negb (str_is_empty (ref_key r)) && valid_sha256 (ref_sha256 r).
Definition is_manifest (k : ObjectKind) : bool :=
  match k with Manifest => true | Data => false end.

Record PublicationIntent := {
  intent_object_keys : gset string;
  intent_manifest : ObjectReference;
  intent_destination_root : string;
  intent_expected_prior_root : option ObjectReference;
}.
Definition intent_is_valid (i : PublicationIntent) : bool :=
  is_manifest (ref_kind (intent_manifest i))
  && reference_is_valid (intent_manifest i)
  && negb (str_is_empty (intent_destination_root i))
  && match intent_expected_prior_root i with
     | None => true
     | Some r => reference_is_valid r
     end
  && bool_decide (ref_key (intent_manifest i) ∈ intent_object_keys i)
  && bts_all (λ key, negb (str_is_empty key)) (intent_object_keys i).

Record PreparedPublication :=
  { prep_owner_generation : N; prep_intent : PublicationIntent }.

Record SnapshotClosure :=
  { closure_manifest : ObjectReference; closure_object_keys : gset string }.
Definition closure_is_valid (c : SnapshotClosure) : bool :=
  is_manifest (ref_kind (closure_manifest c))
  && reference_is_valid (closure_manifest c)
  && bool_decide (ref_key (closure_manifest c) ∈ closure_object_keys c)
  && bts_all (λ key, negb (str_is_empty key)) (closure_object_keys c).
Definition closure_names (c : SnapshotClosure) (key : string) : bool :=
  bool_decide (key ∈ closure_object_keys c).

Record SnapshotLeaseToken := {
  lt_lease_id : string;
  lt_tenant_id : string;
  lt_snapshot_version : N;
  lt_lease_epoch : N;
  lt_owner : string;
  lt_purpose : string;
  lt_deadline_tick : N;
  lt_closure : SnapshotClosure;
  lt_owner_generation : N;
  lt_authority_position : AuthorityPosition;
}.

Inductive SnapshotLeaseValidationError :=
  | AuthorityFormatInvalid | LeaseValidationMissing | TokenMismatch | LeaseExpired.

Record CollectionJobToken := {
  job_job_id : string;
  job_owner_generation : N;
  job_authority_position : AuthorityPosition;
  job_frozen_floor : N;
  job_input_manifest : ObjectReference;
  job_destination_root : string;
  job_range_map_epoch : N;
  job_expected_collected_through : N;
  job_output_namespace : string;
}.

Record CollectionReceipt := {
  receipt_token : CollectionJobToken;
  receipt_output_manifest : ObjectReference;
  receipt_object_keys : gset string;
}.
Definition receipt_is_valid (r : CollectionReceipt) : bool :=
  is_manifest (ref_kind (receipt_output_manifest r))
  && reference_is_valid (receipt_output_manifest r)
  && bool_decide (ref_key (receipt_output_manifest r) ∈ receipt_object_keys r)
  && bts_all (λ key, String.prefix (job_output_namespace (receipt_token r)) key)
       (receipt_object_keys r).

Record DeletePermit := {
  permit_key : string;
  permit_identity : ObjectIdentity;
  permit_plan_id : string;
  permit_owner_generation : N;
  permit_authority_position : AuthorityPosition;
}.
Definition DeletePermit_new (key : string) (identity : ObjectIdentity) (plan_id : string)
    (context : AuthorityContext) : DeletePermit :=
  {| permit_key := key; permit_identity := identity; permit_plan_id := plan_id;
     permit_owner_generation := ctx_generation context;
     permit_authority_position := ctx_position context |}.

#[global] Instance AuthorityPosition_eq_dec : EqDecision AuthorityPosition.
Proof. solve_decision. Defined.
#[global] Instance RevisionToken_eq_dec : EqDecision RevisionToken.
Proof. solve_decision. Defined.
#[global] Instance ObjectIdentity_eq_dec : EqDecision ObjectIdentity.
Proof. solve_decision. Defined.
#[global] Instance ObjectKind_eq_dec : EqDecision ObjectKind.
Proof. solve_decision. Defined.
#[global] Instance ObjectReference_eq_dec : EqDecision ObjectReference.
Proof. solve_decision. Defined.
#[global] Instance PublicationIntent_eq_dec : EqDecision PublicationIntent.
Proof. solve_decision. Defined.
#[global] Instance PreparedPublication_eq_dec : EqDecision PreparedPublication.
Proof. solve_decision. Defined.
#[global] Instance SnapshotClosure_eq_dec : EqDecision SnapshotClosure.
Proof. solve_decision. Defined.
#[global] Instance SnapshotLeaseToken_eq_dec : EqDecision SnapshotLeaseToken.
Proof. solve_decision. Defined.
#[global] Instance CollectionJobToken_eq_dec : EqDecision CollectionJobToken.
Proof. solve_decision. Defined.
#[global] Instance CollectionReceipt_eq_dec : EqDecision CollectionReceipt.
Proof. solve_decision. Defined.
#[global] Instance DeletePermit_eq_dec : EqDecision DeletePermit.
Proof. solve_decision. Defined.

(** ** The authority's state *)
Record PublicationAuthorityState := {
  format_version : N;
  revision : AuthorityPosition;
  root_intent_epoch : N;
  intents : gmap string PreparedPublication;
  roots : gmap string ObjectReference;
  pins : gmap string ObjectReference;
  deletion_reservations : gmap string DeletePermit;
  observed_commit_frontier : N;
  retention_window : option N;
  retention_policy_epoch : N;
  policy_floor : N;
  minimum_readable_version : N;
  physically_collected_through : N;
  lease_clock_tick : N;
  lease_epoch : N;
  leases : gmap string SnapshotLeaseToken;
  range_map_epoch : N;
  collection_root : option string;
  collection_jobs : gmap string CollectionJobToken;
}.

Definition PublicationAuthorityState_default : PublicationAuthorityState := {|
  format_version := PUBLICATION_FORMAT_VERSION;
  revision := AuthorityPosition_default;
  root_intent_epoch := 0;
  intents := ∅; roots := ∅; pins := ∅; deletion_reservations := ∅;
  observed_commit_frontier := 0;
  retention_window := None;
  retention_policy_epoch := 0;
  policy_floor := 0;
  minimum_readable_version := 0;
  physically_collected_through := 0;
  lease_clock_tick := 0;
  lease_epoch := 0;
  leases := ∅;
  range_map_epoch := 0;
  collection_root := None;
  collection_jobs := ∅;
|}.

Inductive PublicationAction :=
  | ObserveCommittedFrontier (committed_frontier : N)
  | SetRetentionWindow (expected_policy_epoch retention_window : N)
  | ObserveRangeMapEpoch (range_map_epoch : N)
  | ConfigureCollectionRoot (expected : option string) (destination_root : string)
  | AcquireLease (lease_id tenant_id : string) (snapshot_version : N)
      (owner purpose : string) (deadline_tick : N) (closure : SnapshotClosure)
  | RenewLease (lease_id : string) (expected_lease_epoch new_deadline_tick : N)
  | ReleaseLease (lease_id : string) (expected_lease_epoch : N)
  | AdvanceLeaseClock (expected_tick next_tick : N)
  | PrepareCollection (job_id : string) (frozen_floor : N) (input_manifest : ObjectReference)
      (destination_root : string) (range_map_epoch expected_collected_through : N)
      (output_namespace : string)
  | PublishCollection (receipt : CollectionReceipt)
  | AbandonCollection (token : CollectionJobToken)
  | Prepare (publication_id : string) (intent : PublicationIntent)
  | Publish (publication_id destination_root : string)
      (expected_prior_root : option ObjectReference) (manifest : ObjectReference)
  | Pin (pin_id : string) (expected : option ObjectReference) (manifest : ObjectReference)
  | Unpin (pin_id : string) (expected : ObjectReference)
  | ReserveDelete (plan_id : string) (mark_epoch : N) (key : string)
      (identity : ObjectIdentity)
  | RetireDelete (permit : DeletePermit).

Inductive PublicationCommandStatus :=
  | Accepted | GenerationFenced | InvalidRequest | PublicationExists
  | PublicationIntentMissing | PublicationIntentMismatch | CrossGenerationIntent
  | RootCompareFailed | PinCompareFailed | RootIntentEpochChanged
  | ObjectDeletionReserved | ObjectNamedByIntent | DeleteReservationExists
  | DeleteReservationMissing | CrossGenerationDeletePermit | DeletePlanMismatch
  | CommittedFrontierRetreated | RetentionPolicyEpochMismatch
  | RetentionPolicyUnconfigured | SnapshotBelowFloor | SnapshotAheadOfFrontier
  | LeaseExists | LeaseMissing | LeaseEpochMismatch | LeaseDeadlineInvalid
  | LeaseClockMismatch | LeaseClockRetreated | RangeMapEpochRetreated
  | RangeMapEpochMismatch | CollectionJobExists | CollectionJobMissing
  | CollectionJobMismatch | CollectionConflict | CollectionFloorInvalid
  | CollectionFrontierMismatch | CollectionReceiptMismatch
  | CollectionRootCompareFailed.
#[global] Instance PublicationCommandStatus_eq_dec : EqDecision PublicationCommandStatus.
Proof. solve_decision. Defined.

Inductive PublicationOutcome :=
  | Applied
  | DeleteReserved (permit : DeletePermit)
  | LeaseAcquired (token : SnapshotLeaseToken)
  | LeaseRenewed (token : SnapshotLeaseToken)
  | LeasesExpired (lease_ids : list string)
  | CollectionPrepared (token : CollectionJobToken)
  | CollectionPublished (receipt : CollectionReceipt).

Record PublicationTransition :=
  { status : PublicationCommandStatus; outcome : option PublicationOutcome }.
Definition accepted (o : PublicationOutcome) : PublicationTransition :=
  {| status := Accepted; outcome := Some o |}.
Definition rejected (st : PublicationCommandStatus) : PublicationTransition :=
  {| status := st; outcome := None |}.

(** Unsafe behaviours of the negative-control authorities. *)
Record PublicationAuthorityFaults := {
  publish_without_intent : bool;
  ignore_root_epoch : bool;
  ignore_delete_reservation : bool;
  ignore_root_compare : bool;
  allow_cross_generation_intent : bool;
  retire_by_plan_key_only : bool;
  accept_backdated_lease : bool;
  omit_lease_root_epoch : bool;
  ignore_collection_range_epoch : bool;
  advance_collection_without_publication : bool;
  ignore_collection_input_root : bool;
}.
Definition no_faults : PublicationAuthorityFaults :=
  {| publish_without_intent := false; ignore_root_epoch := false;
     ignore_delete_reservation := false; ignore_root_compare := false;
     allow_cross_generation_intent := false; retire_by_plan_key_only := false;
     accept_backdated_lease := false; omit_lease_root_epoch := false;
     ignore_collection_range_epoch := false;
     advance_collection_without_publication := false;
     ignore_collection_input_root := false |}.

Implicit Type s : PublicationAuthorityState.
Implicit Type faults : PublicationAuthorityFaults.

Definition validate_active_snapshot_lease s (token : SnapshotLeaseToken)
    : res SnapshotLeaseValidationError unit :=
  if negb (format_version s =? PUBLICATION_FORMAT_VERSION)%N then Err AuthorityFormatInvalid
  else match leases s !! lt_lease_id token with
  | None => Err LeaseValidationMissing
  | Some active =>
      if negb (bool_decide (active = token)) then Err TokenMismatch
      else if (lt_deadline_tick token <=? lease_clock_tick s)%N then Err LeaseExpired
      else Ok tt
  end.

Definition bump_root_epoch s : PublicationAuthorityState :=
  { s with root_intent_epoch := saturating_add (root_intent_epoch s) 1 }.
Definition bump_lease_epoch s : PublicationAuthorityState :=
  { s with lease_epoch := saturating_add (lease_epoch s) 1 }.
Definition bump_lease_root faults s : PublicationAuthorityState :=
  if negb (omit_lease_root_epoch faults) then bump_root_epoch s else s.

Definition recompute_read_floor s : PublicationAuthorityState :=
  match retention_window s with
  | None => s
  | Some window =>
      let proposed_policy_floor := saturating_sub (observed_commit_frontier s) window in
      let floor := N.max (policy_floor s) proposed_policy_floor in
      let candidate :=
        match iter_min ((λ p, lt_snapshot_version p.2) <$> bt_items (leases s)) with
        | None => floor
        | Some oldest_lease => N.min floor oldest_lease
        end in
      { s with policy_floor := floor;
               minimum_readable_version := N.max (minimum_readable_version s) candidate }
  end.

(** ** Operations *)
Definition reply : Type := PublicationAuthorityState * PublicationTransition.
Definition reject s (st : PublicationCommandStatus) : reply := (s, rejected st).
Definition accept s (o : PublicationOutcome) : reply := (s, accepted o).

Definition observe_committed_frontier s (committed_frontier : N) : reply :=
  if (committed_frontier =? 0)%N then reject s InvalidRequest
  else if (committed_frontier <? observed_commit_frontier s)%N then
    reject s CommittedFrontierRetreated
  else
    accept (recompute_read_floor { s with observed_commit_frontier := committed_frontier })
      Applied.

Definition set_retention_window s (expected_policy_epoch window : N) : reply :=
  if negb (expected_policy_epoch =? retention_policy_epoch s)%N then
    reject s RetentionPolicyEpochMismatch
  else
    accept (recompute_read_floor
      { s with retention_window := Some window;
               retention_policy_epoch := saturating_add (retention_policy_epoch s) 1 })
      Applied.

Definition observe_range_map_epoch s (epoch : N) : reply :=
  if (epoch =? 0)%N then reject s InvalidRequest
  else if (epoch <? range_map_epoch s)%N then reject s RangeMapEpochRetreated
  else accept { s with range_map_epoch := epoch } Applied.

Definition configure_collection_root s (expected : option string) (destination_root : string)
    : reply :=
  if str_is_empty destination_root || negb (is_some (roots s !! destination_root)) then
    reject s InvalidRequest
  else if negb (bool_decide (collection_root s = expected)) then
    reject s CollectionRootCompareFailed
  else if negb (bool_decide (collection_jobs s = ∅)) then reject s CollectionConflict
  else accept (bump_root_epoch { s with collection_root := Some destination_root }) Applied.

Definition acquire_lease s (lease_id tenant_id : string) (snapshot_version : N)
    (owner purpose : string) (deadline_tick : N) (closure : SnapshotClosure)
    (context : AuthorityContext) faults : reply :=
  if str_is_empty lease_id || str_is_empty tenant_id || (snapshot_version =? 0)%N
     || str_is_empty owner || str_is_empty purpose || negb (closure_is_valid closure)
  then reject s InvalidRequest
  else if negb (is_some (retention_window s)) then reject s RetentionPolicyUnconfigured
  else if is_some (leases s !! lease_id) then reject s LeaseExists
  else if (snapshot_version <? minimum_readable_version s)%N
          && negb (accept_backdated_lease faults)
  then reject s SnapshotBelowFloor
  else if (observed_commit_frontier s <? snapshot_version)%N then
    reject s SnapshotAheadOfFrontier
  else if (deadline_tick <=? lease_clock_tick s)%N then reject s LeaseDeadlineInvalid
  else
    let s1 := bump_lease_epoch s in
    let token :=
      {| lt_lease_id := lease_id; lt_tenant_id := tenant_id;
         lt_snapshot_version := snapshot_version; lt_lease_epoch := lease_epoch s1;
         lt_owner := owner; lt_purpose := purpose; lt_deadline_tick := deadline_tick;
         lt_closure := closure; lt_owner_generation := ctx_generation context;
         lt_authority_position := ctx_position context |} in
    let s2 := { s1 with leases := <[lease_id := token]> (leases s1) } in
    accept (recompute_read_floor (bump_lease_root faults s2)) (LeaseAcquired token).

Definition renew_lease s (lease_id : string) (expected_lease_epoch new_deadline_tick : N)
    (context : AuthorityContext) faults : reply :=
  match leases s !! lease_id with
  | None => reject s LeaseMissing
  | Some existing =>
      if negb (lt_lease_epoch existing =? expected_lease_epoch)%N then
        reject s LeaseEpochMismatch
      else if (new_deadline_tick <=? lease_clock_tick s)%N
              || (new_deadline_tick <=? lt_deadline_tick existing)%N then
        reject s LeaseDeadlineInvalid
      else
        let s1 := bump_lease_epoch s in
        let token := { existing with lt_lease_epoch := lease_epoch s1;
                                     lt_deadline_tick := new_deadline_tick;
                                     lt_owner_generation := ctx_generation context;
                                     lt_authority_position := ctx_position context } in
        let s2 := { s1 with leases := <[lease_id := token]> (leases s1) } in
        accept (bump_lease_root faults s2) (LeaseRenewed token)
  end.

Definition release_lease s (lease_id : string) (expected_lease_epoch : N) faults : reply :=
  match leases s !! lease_id with
  | None => reject s LeaseMissing
  | Some existing =>
      if negb (lt_lease_epoch existing =? expected_lease_epoch)%N then
        reject s LeaseEpochMismatch
      else
        let s1 := bump_lease_epoch { s with leases := delete lease_id (leases s) } in
        accept (recompute_read_floor (bump_lease_root faults s1)) Applied
  end.

(** The leases whose deadline has passed at [tick], by ascending id. *)
Definition expired_leases s (tick : N) : list string :=
  (List.filter (λ p, (lt_deadline_tick p.2 <=? tick)%N) (bt_items (leases s))).*1.

Definition advance_lease_clock s (expected_tick next_tick : N) faults : reply :=
  if negb (expected_tick =? lease_clock_tick s)%N then reject s LeaseClockMismatch
  else if (next_tick <=? expected_tick)%N then reject s LeaseClockRetreated
  else
    let s1 := { s with lease_clock_tick := next_tick } in
    let expired := expired_leases s1 next_tick in
    let s2 := { s1 with leases := foldl (λ m id, delete id m) (leases s1) expired } in
    let s3 := match expired with
              | [] => s2
              | _ :: _ => bump_lease_root faults (bump_lease_epoch s2)
              end in
    accept (recompute_read_floor s3) (LeasesExpired expired).

(** Whether an outstanding job excludes a new one. *)
Definition job_conflicts (destination_root output_namespace : string)
    (job : CollectionJobToken) : bool :=
  bool_decide (job_destination_root job = destination_root)
  || bool_decide (job_output_namespace job = output_namespace)
  || String.prefix output_namespace (job_output_namespace job)
  || String.prefix (job_output_namespace job) output_namespace.

Definition prepare_collection s (job_id : string) (frozen_floor : N)
    (input_manifest : ObjectReference) (destination_root : string)
    (epoch expected_collected_through : N) (output_namespace : string)
    (context : AuthorityContext) faults : reply :=
  if str_is_empty job_id || (frozen_floor =? 0)%N
     || negb (is_manifest (ref_kind input_manifest))
     || negb (reference_is_valid input_manifest) || str_is_empty destination_root
     || (epoch =? 0)%N || str_is_empty output_namespace
     || negb (ends_with_slash output_namespace)
  then reject s InvalidRequest
  else if is_some (collection_jobs s !! job_id) then reject s CollectionJobExists
  else if bt_any (job_conflicts destination_root output_namespace) (collection_jobs s) then
    reject s CollectionConflict
  else if negb (epoch =? range_map_epoch s)%N && negb (ignore_collection_range_epoch faults)
  then reject s RangeMapEpochMismatch
  else if negb (bool_decide (collection_root s = Some destination_root)) then
    reject s CollectionRootCompareFailed
  else if negb (expected_collected_through =? physically_collected_through s)%N then
    reject s CollectionFrontierMismatch
  else if (frozen_floor <=? physically_collected_through s)%N
          || (minimum_readable_version s <? frozen_floor)%N then
    reject s CollectionFloorInvalid
  else if negb (bool_decide (roots s !! destination_root = Some input_manifest))
          && negb (ignore_collection_input_root faults) then
    reject s RootCompareFailed
  else
    let token :=
      {| job_job_id := job_id; job_owner_generation := ctx_generation context;
         job_authority_position := ctx_position context; job_frozen_floor := frozen_floor;
         job_input_manifest := input_manifest; job_destination_root := destination_root;
         job_range_map_epoch := epoch;
         job_expected_collected_through := expected_collected_through;
         job_output_namespace := output_namespace |} in
    let s1 := { s with collection_jobs := <[job_id := token]> (collection_jobs s) } in
    let s2 := if advance_collection_without_publication faults
              then { s1 with physically_collected_through := frozen_floor } else s1 in
    accept (bump_root_epoch s2) (CollectionPrepared token).

Definition publish_collection s (receipt : CollectionReceipt) (generation : N) faults : reply :=
  if negb (receipt_is_valid receipt)
     || bool_decide (receipt_output_manifest receipt = job_input_manifest (receipt_token receipt))
  then reject s InvalidRequest
  else match collection_jobs s !! job_job_id (receipt_token receipt) with
  | None => reject s CollectionJobMissing
  | Some prepared =>
      if negb (bool_decide (prepared = receipt_token receipt)) then
        reject s CollectionReceiptMismatch
      else if negb (job_owner_generation prepared =? generation)%N then
        reject s CrossGenerationIntent
      else if negb (job_range_map_epoch prepared =? range_map_epoch s)%N
              && negb (ignore_collection_range_epoch faults) then
        reject s RangeMapEpochMismatch
      else if negb (bool_decide (collection_root s = Some (job_destination_root prepared)))
      then reject s CollectionRootCompareFailed
      else if negb (job_expected_collected_through prepared
                    =? physically_collected_through s)%N then
        reject s CollectionFrontierMismatch
      else if negb (bool_decide (roots s !! job_destination_root prepared
                                 = Some (job_input_manifest prepared)))
              && negb (ignore_collection_input_root faults) then
        reject s RootCompareFailed
      else if bts_any (λ key, is_some (deletion_reservations s !! key))
                (receipt_object_keys receipt) then
        reject s ObjectDeletionReserved
      else
        accept (bump_root_epoch
          { s with
            roots := <[job_destination_root prepared := receipt_output_manifest receipt]>
                       (roots s);
            physically_collected_through := job_frozen_floor prepared;
            collection_jobs := delete (job_job_id prepared) (collection_jobs s) })
          (CollectionPublished receipt)
  end.

Definition abandon_collection s (token : CollectionJobToken) (generation : N) : reply :=
  match collection_jobs s !! job_job_id token with
  | None => reject s CollectionJobMissing
  | Some prepared =>
      if negb (bool_decide (prepared = token)) then reject s CollectionJobMismatch
      else if negb (job_owner_generation token =? generation)%N then
        reject s CrossGenerationIntent
      else
        accept (bump_root_epoch
          { s with collection_jobs := delete (job_job_id token) (collection_jobs s) }) Applied
  end.

Definition prepare s (publication_id : string) (intent : PublicationIntent)
    (owner_generation : N) faults : reply :=
  if str_is_empty publication_id || negb (intent_is_valid intent) then
    reject s InvalidRequest
  else if is_some (intents s !! publication_id) then reject s PublicationExists
  else if negb (ignore_delete_reservation faults)
          && bts_any (λ key, is_some (deletion_reservations s !! key))
               (intent_object_keys intent) then
    reject s ObjectDeletionReserved
  else
    accept (bump_root_epoch
      { s with intents := <[publication_id :=
          {| prep_owner_generation := owner_generation; prep_intent := intent |}]> (intents s) })
      Applied.

(** The guards of the prepared intent in [publish]; [None] lets the call go on. *)
Definition publish_intent_refusal s (publication_id destination_root : string)
    (expected_prior_root : option ObjectReference) (manifest : ObjectReference)
    (generation : N) faults : option PublicationCommandStatus :=
  match intents s !! publication_id with
  | Some prepared =>
      let i := prep_intent prepared in
      if bool_decide (intent_manifest i = manifest)
         && bool_decide (intent_destination_root i = destination_root)
         && bool_decide (intent_expected_prior_root i = expected_prior_root)
         && bool_decide (ref_key manifest ∈ intent_object_keys i)
      then if negb (prep_owner_generation prepared =? generation)%N
              && negb (allow_cross_generation_intent faults)
           then Some CrossGenerationIntent
           else None
      else Some PublicationIntentMismatch
  | None => if publish_without_intent faults then None else Some PublicationIntentMissing
  end.

Definition publish s (publication_id destination_root : string)
    (expected_prior_root : option ObjectReference) (manifest : ObjectReference)
    (generation : N) faults : reply :=
  if str_is_empty publication_id || str_is_empty destination_root
     || negb (is_manifest (ref_kind manifest)) || negb (reference_is_valid manifest)
  then reject s InvalidRequest
  else match publish_intent_refusal s publication_id destination_root expected_prior_root
               manifest generation faults with
  | Some st => reject s st
  | None =>
      if negb (ignore_root_compare faults)
         && negb (bool_decide (roots s !! destination_root = expected_prior_root)) then
        reject s RootCompareFailed
      else
        accept (bump_root_epoch
          { s with roots := <[destination_root := manifest]> (roots s);
                   intents := delete publication_id (intents s) }) Applied
  end.

Definition pin s (pin_id : string) (expected : option ObjectReference)
    (manifest : ObjectReference) : reply :=
  if str_is_empty pin_id || negb (is_manifest (ref_kind manifest))
     || negb (reference_is_valid manifest) then reject s InvalidRequest
  else if negb (bool_decide (pins s !! pin_id = expected)) then reject s PinCompareFailed
  else accept (bump_root_epoch { s with pins := <[pin_id := manifest]> (pins s) }) Applied.

Definition unpin s (pin_id : string) (expected : ObjectReference) : reply :=
  if str_is_empty pin_id || negb (reference_is_valid expected) then reject s InvalidRequest
  else if negb (bool_decide (pins s !! pin_id = Some expected)) then
    reject s PinCompareFailed
  else accept (bump_root_epoch { s with pins := delete pin_id (pins s) }) Applied.

(** Whether an outstanding collection job protects [key]. *)
Definition job_protects (key : string) (job : CollectionJobToken) : bool :=
  bool_decide (ref_key (job_input_manifest job) = key)
  || String.prefix (job_output_namespace job) key.

Definition reserve_delete s (plan_id : string) (mark_epoch : N) (key : string)
    (identity : ObjectIdentity) (context : AuthorityContext) faults : reply :=
  if str_is_empty plan_id || str_is_empty key || negb (identity_is_valid identity) then
    reject s InvalidRequest
  else if negb (ignore_root_epoch faults) && negb (mark_epoch =? root_intent_epoch s)%N then
    reject s RootIntentEpochChanged
  else if bt_any (λ prepared, bool_decide (key ∈ intent_object_keys (prep_intent prepared)))
            (intents s) then
    reject s ObjectNamedByIntent
  else if bt_any (λ lease, closure_names (lt_closure lease) key) (leases s)
          || bt_any (job_protects key) (collection_jobs s) then
    reject s ObjectNamedByIntent
  else if is_some (deletion_reservations s !! key) then reject s DeleteReservationExists
  else
    let permit := DeletePermit_new key identity plan_id context in
    accept { s with deletion_reservations := <[key := permit]> (deletion_reservations s) }
      (DeleteReserved permit).

Definition retire_delete s (permit : DeletePermit) (generation : N) faults : reply :=
  match deletion_reservations s !! permit_key permit with
  | None => reject s DeleteReservationMissing
  | Some reservation =>
      if negb (permit_owner_generation permit =? generation)%N then
        reject s CrossGenerationDeletePermit
      else
        let exact := bool_decide (reservation = permit) in
        let weak_match := retire_by_plan_key_only faults
          && bool_decide (permit_plan_id reservation = permit_plan_id permit)
          && bool_decide (permit_key reservation = permit_key permit) in
        if negb exact && negb weak_match then reject s DeletePlanMismatch
        else accept { s with deletion_reservations :=
                        delete (permit_key permit) (deletion_reservations s) } Applied
  end.

(** The dispatch of [PublicationAuthorityState::apply]. *)
Definition dispatch s (action : PublicationAction) (context : AuthorityContext) faults : reply :=
  match action with
  | ObserveCommittedFrontier frontier => observe_committed_frontier s frontier
  | SetRetentionWindow expected window => set_retention_window s expected window
  | ObserveRangeMapEpoch epoch => observe_range_map_epoch s epoch
  | ConfigureCollectionRoot expected root => configure_collection_root s expected root
  | AcquireLease id tenant snapshot owner purpose deadline closure =>
      acquire_lease s id tenant snapshot owner purpose deadline closure context faults
  | RenewLease id expected deadline => renew_lease s id expected deadline context faults
  | ReleaseLease id expected => release_lease s id expected faults
  | AdvanceLeaseClock expected next => advance_lease_clock s expected next faults
  | PrepareCollection job floor input root epoch expected namespace =>
      prepare_collection s job floor input root epoch expected namespace context faults
  | PublishCollection receipt =>
      publish_collection s receipt (ctx_generation context) faults
  | AbandonCollection token => abandon_collection s token (ctx_generation context)
  | Prepare id intent => prepare s id intent (ctx_generation context) faults
  | Publish id root expected manifest =>
      publish s id root expected manifest (ctx_generation context) faults
  | Pin id expected manifest => pin s id expected manifest
  | Unpin id expected => unpin s id expected
  | ReserveDelete plan mark key identity =>
      reserve_delete s plan mark key identity context faults
  | RetireDelete permit => retire_delete s permit (ctx_generation context) faults
  end.

Definition publication_apply s (action : PublicationAction) (context : AuthorityContext)
    faults : reply :=
  if negb (format_version s =? PUBLICATION_FORMAT_VERSION)%N
     || negb (context_is_valid context) then reject s InvalidRequest
  else
    let '(s', transition) := dispatch s action context faults in
    if bool_decide (status transition = Accepted)
    then ({ s' with revision := ctx_position context }, transition)
    else (s', transition).
