(* ===== verification/PublicationSpec.v ===== *)
(** * The publication authority's contract

    For every action the condition under which the authority accepts it
    ([guarded]) and the state it then leaves ([effect]), stated without the
    order of the checks, and the proof that each operation of [Publication]
    without faults accepts exactly then and otherwise changes nothing. *)

From S2P Require Import Prelude Order BTree Publication.

Implicit Type s : PublicationAuthorityState.
Implicit Type c : AuthorityContext.

Ltac simp_state := repeat (progress record.simp).

(** ** Accepted transitions *)

(** The token an admitted lease carries. *)
Definition new_lease c s id tenant snapshot owner purpose deadline closure :=
  {| lt_lease_id := id; lt_tenant_id := tenant; lt_snapshot_version := snapshot;
     lt_lease_epoch := saturating_add (lease_epoch s) 1; lt_owner := owner;
     lt_purpose := purpose; lt_deadline_tick := deadline; lt_closure := closure;
     lt_owner_generation := ctx_generation c; lt_authority_position := ctx_position c |}.

Definition renewed_lease c s (l : SnapshotLeaseToken) (deadline : N) : SnapshotLeaseToken :=
  {| lt_lease_id := lt_lease_id l; lt_tenant_id := lt_tenant_id l;
     lt_snapshot_version := lt_snapshot_version l;
     lt_lease_epoch := saturating_add (lease_epoch s) 1; lt_owner := lt_owner l;
     lt_purpose := lt_purpose l; lt_deadline_tick := deadline; lt_closure := lt_closure l;
     lt_owner_generation := ctx_generation c; lt_authority_position := ctx_position c |}.

Definition valid_manifest (r : ObjectReference) : Prop :=
  ref_kind r = Manifest ∧ reference_is_valid r = true.

Definition live_leases (m : gmap string SnapshotLeaseToken) (tick : N)
    : gmap string SnapshotLeaseToken :=
  filter (λ p, (tick < lt_deadline_tick p.2)%N) m.

(** [guarded c s a] is what the authority checks before it accepts [a]. *)
Definition guarded c s (a : PublicationAction) : Prop :=
  match a with
  | ObserveCommittedFrontier v => (0 < v)%N ∧ (observed_commit_frontier s ≤ v)%N
  | SetRetentionWindow e _ => e = retention_policy_epoch s
  | ObserveRangeMapEpoch e => (0 < e)%N ∧ (range_map_epoch s ≤ e)%N
  | ConfigureCollectionRoot expected root =>
      root ≠ EmptyString ∧ is_Some (roots s !! root) ∧ collection_root s = expected ∧
      collection_jobs s = ∅
  | AcquireLease id tenant v owner purpose deadline closure =>
      (id ≠ EmptyString ∧ tenant ≠ EmptyString ∧ owner ≠ EmptyString ∧
       purpose ≠ EmptyString ∧ closure_is_valid closure = true) ∧
      is_Some (retention_window s) ∧ leases s !! id = None ∧
      (0 < v)%N ∧ (minimum_readable_version s ≤ v)%N ∧ (v ≤ observed_commit_frontier s)%N ∧
      (lease_clock_tick s < deadline)%N
  | RenewLease id epoch deadline =>
      ∃ l, leases s !! id = Some l ∧ lt_lease_epoch l = epoch ∧
        (lease_clock_tick s < deadline)%N ∧ (lt_deadline_tick l < deadline)%N
  | ReleaseLease id epoch => ∃ l, leases s !! id = Some l ∧ lt_lease_epoch l = epoch
  | AdvanceLeaseClock t t' => t = lease_clock_tick s ∧ (t < t')%N
  | PrepareCollection id floor input root epoch expected namespace =>
      (id ≠ EmptyString ∧ valid_manifest input ∧ root ≠ EmptyString ∧ (0 < epoch)%N ∧
       namespace ≠ EmptyString ∧ ends_with_slash namespace = true) ∧
      collection_jobs s !! id = None ∧
      (∀ id' j, collection_jobs s !! id' = Some j → job_conflicts root namespace j = false) ∧
      epoch = range_map_epoch s ∧ collection_root s = Some root ∧
      expected = physically_collected_through s ∧
      (physically_collected_through s < floor)%N ∧ (floor ≤ minimum_readable_version s)%N ∧
      roots s !! root = Some input
  | PublishCollection r =>
      let j := receipt_token r in
      receipt_is_valid r = true ∧ receipt_output_manifest r ≠ job_input_manifest j ∧
      collection_jobs s !! job_job_id j = Some j ∧ job_owner_generation j = ctx_generation c ∧
      job_range_map_epoch j = range_map_epoch s ∧
      collection_root s = Some (job_destination_root j) ∧
      job_expected_collected_through j = physically_collected_through s ∧
      roots s !! job_destination_root j = Some (job_input_manifest j) ∧
      (∀ key, key ∈ receipt_object_keys r → deletion_reservations s !! key = None)
  | AbandonCollection j =>
      collection_jobs s !! job_job_id j = Some j ∧ job_owner_generation j = ctx_generation c
  | Prepare id i =>
      id ≠ EmptyString ∧ intent_is_valid i = true ∧ intents s !! id = None ∧
      (∀ key, key ∈ intent_object_keys i → deletion_reservations s !! key = None)
  | Publish id root expected m =>
      (id ≠ EmptyString ∧ root ≠ EmptyString ∧ valid_manifest m) ∧
      (∃ i, intents s !! id =
              Some {| prep_owner_generation := ctx_generation c; prep_intent := i |} ∧
        intent_manifest i = m ∧ intent_destination_root i = root ∧
        intent_expected_prior_root i = expected ∧ ref_key m ∈ intent_object_keys i) ∧
      roots s !! root = expected
  | Pin id expected m => id ≠ EmptyString ∧ valid_manifest m ∧ pins s !! id = expected
  | Unpin id expected =>
      id ≠ EmptyString ∧ reference_is_valid expected = true ∧ pins s !! id = Some expected
  | ReserveDelete plan mark key identity =>
      (plan ≠ EmptyString ∧ key ≠ EmptyString ∧ identity_is_valid identity = true) ∧
      mark = root_intent_epoch s ∧
      (∀ id i, intents s !! id = Some i → key ∉ intent_object_keys (prep_intent i)) ∧
      (∀ id l, leases s !! id = Some l → key ∉ closure_object_keys (lt_closure l)) ∧
      (∀ id j, collection_jobs s !! id = Some j → job_protects key j = false) ∧
      deletion_reservations s !! key = None
  | RetireDelete p =>
      deletion_reservations s !! permit_key p = Some p ∧
      permit_owner_generation p = ctx_generation c
  end.

(** [effect c s a] is the state an accepted [a] leaves, up to the revision. *)
Definition effect c s (a : PublicationAction) : PublicationAuthorityState :=
  match a with
  | ObserveCommittedFrontier v => recompute_read_floor { s with observed_commit_frontier := v }
  | SetRetentionWindow _ w =>
      recompute_read_floor
        { s with retention_window := Some w;
                 retention_policy_epoch := saturating_add (retention_policy_epoch s) 1 }
  | ObserveRangeMapEpoch e => { s with range_map_epoch := e }
  | ConfigureCollectionRoot _ root => bump_root_epoch { s with collection_root := Some root }
  | AcquireLease id tenant v owner purpose deadline closure =>
      recompute_read_floor (bump_root_epoch (bump_lease_epoch
        { s with leases :=
            <[id := new_lease c s id tenant v owner purpose deadline closure]> (leases s) }))
  | RenewLease id _ deadline =>
      bump_root_epoch (bump_lease_epoch
        { s with leases := alter (λ l, renewed_lease c s l deadline) id (leases s) })
  | ReleaseLease id _ =>
      recompute_read_floor
        (bump_root_epoch (bump_lease_epoch { s with leases := delete id (leases s) }))
  | AdvanceLeaseClock _ t =>
      let s1 := { s with lease_clock_tick := t; leases := live_leases (leases s) t } in
      recompute_read_floor
        (match expired_leases s t with
         | [] => s1
         | _ :: _ => bump_root_epoch (bump_lease_epoch s1)
         end)
  | PrepareCollection id floor input root epoch expected namespace =>
      bump_root_epoch
        { s with collection_jobs := <[id :=
            {| job_job_id := id; job_owner_generation := ctx_generation c;
               job_authority_position := ctx_position c; job_frozen_floor := floor;
               job_input_manifest := input; job_destination_root := root;
               job_range_map_epoch := epoch; job_expected_collected_through := expected;
               job_output_namespace := namespace |}]> (collection_jobs s) }
  | PublishCollection r =>
      let j := receipt_token r in
      bump_root_epoch
        { s with roots := <[job_destination_root j := receipt_output_manifest r]> (roots s);
                 physically_collected_through := job_frozen_floor j;
                 collection_jobs := delete (job_job_id j) (collection_jobs s) }
  | AbandonCollection j =>
      bump_root_epoch { s with collection_jobs := delete (job_job_id j) (collection_jobs s) }
  | Prepare id i =>
      bump_root_epoch
        { s with intents :=
            <[id := {| prep_owner_generation := ctx_generation c; prep_intent := i |}]>
              (intents s) }
  | Publish id root _ m =>
      bump_root_epoch { s with roots := <[root := m]> (roots s);
                               intents := delete id (intents s) }
  | Pin id _ m => bump_root_epoch { s with pins := <[id := m]> (pins s) }
  | Unpin id _ => bump_root_epoch { s with pins := delete id (pins s) }
  | ReserveDelete plan _ key identity =>
      { s with deletion_reservations :=
          <[key := DeletePermit_new key identity plan c]> (deletion_reservations s) }
  | RetireDelete p =>
      { s with deletion_reservations := delete (permit_key p) (deletion_reservations s) }
  end.

(** What an accepted [a] hands out. *)
Definition granted c s (a : PublicationAction) : PublicationOutcome :=
  match a with
  | AcquireLease id tenant v owner purpose deadline closure =>
      LeaseAcquired (new_lease c s id tenant v owner purpose deadline closure)
  | RenewLease id _ deadline =>
      match leases s !! id with
      | Some l => LeaseRenewed (renewed_lease c s l deadline)
      | None => Applied
      end
  | AdvanceLeaseClock _ t => LeasesExpired (expired_leases s t)
  | PrepareCollection id floor input root epoch expected namespace =>
      CollectionPrepared
        {| job_job_id := id; job_owner_generation := ctx_generation c;
           job_authority_position := ctx_position c; job_frozen_floor := floor;
           job_input_manifest := input; job_destination_root := root;
           job_range_map_epoch := epoch; job_expected_collected_through := expected;
           job_output_namespace := namespace |}
  | PublishCollection r => CollectionPublished r
  | ReserveDelete plan _ key identity => DeleteReserved (DeletePermit_new key identity plan c)
  | _ => Applied
  end.

Lemma is_manifest_true k : is_manifest k = true ↔ k = Manifest.
Proof. by destruct k. Qed.
Lemma is_manifest_false k : is_manifest k = false ↔ k ≠ Manifest.
Proof. by destruct k. Qed.

(** Turn the guards an operation has branched on into propositions. *)
Ltac guard_props :=
  repeat first [progress destruct_bool_hyps |
    match goal with
    | H : is_manifest _ = true |- _ => apply is_manifest_true in H
    | H : is_manifest _ = false |- _ => apply is_manifest_false in H
    | H : bt_any _ _ = true |- _ => apply bt_any_true in H; destruct H as (? & ? & ? & ?)
    | H : bt_any _ _ = false |- _ => rewrite bt_any_false in H
    | H : bts_any _ _ = true |- _ => apply bts_any_true in H; destruct H as (? & ? & ?)
    | H : bts_any _ _ = false |- _ => rewrite bts_any_false in H
    | H : closure_names _ _ = true |- _ => unfold closure_names in H
    | H : is_Some _ |- _ => destruct H
    end].

(** An operation either rejects and leaves the state alone, or its guard holds
    and it leaves the specified state. *)
Definition implements c s (a : PublicationAction) (r : reply) : Prop :=
  (guarded c s a ∧ r = accept (effect c s a) (granted c s a)) ∨
  (¬ guarded c s a ∧ status r.2 ≠ Accepted ∧ outcome r.2 = None ∧ r.1 = s).

Lemma implements_accept c s a s' o :
  guarded c s a → (s', o) = (effect c s a, granted c s a) → implements c s a (accept s' o).
Proof. intros Hg [= -> ->]. by left. Qed.
Lemma implements_reject c s a st :
  ¬ guarded c s a → st ≠ Accepted → implements c s a (reject s st).
Proof. by right. Qed.

Ltac refuse :=
  apply implements_reject; [|done]; guard_props; simpl; unfold valid_manifest; intros Hg;
  repeat match goal with
  | H : _ ∧ _ |- _ => destruct H
  | H : ∃ _, _ |- _ => destruct H
  | H : is_Some _ |- _ => destruct H
  end;
  repeat match goal with
  | Hall : ∀ x, x ∈ ?X → _, H : _ ∈ ?X |- _ => specialize (Hall _ H)
  | Hall : ∀ id v, ?m !! id = Some v → _, H : ?m !! _ = Some _ |- _ =>
      specialize (Hall _ _ H)
  | H1 : ?m !! ?k = Some ?x, H2 : ?m !! ?k = Some ?y |- _ =>
      assert (x = y) by congruence; clear H2; subst
  end;
  first [lia | congruence | intuition congruence].

Lemma expired_leases_spec s t id :
  id ∈ expired_leases s t ↔
  ∃ l, leases s !! id = Some l ∧ (lt_deadline_tick l ≤ t)%N.
Proof.
  unfold expired_leases. rewrite list_elem_of_fmap. split.
  - intros ([k l] & -> & Hin). apply list_elem_of_In, filter_In in Hin as [Hin Hle].
    apply list_elem_of_In, elem_of_bt_items in Hin. exists l. by apply N.leb_le in Hle.
  - intros (l & Hl & Hle). exists (id, l). split; [done|].
    apply list_elem_of_In, filter_In. split.
    + by apply list_elem_of_In, elem_of_bt_items.
    + by apply N.leb_le.
Qed.

Lemma alter_as_insert {A} (f : A → A) k (m : gmap string A) v :
  m !! k = Some v → alter f k m = <[k := f v]> m.
Proof.
  intros Hk. apply map_eq. intros j. destruct (decide (k = j)) as [->|].
  - by rewrite lookup_alter_eq, lookup_insert_eq, Hk.
  - by rewrite lookup_alter_ne, lookup_insert_ne.
Qed.

Lemma live_leases_lookup m t id l :
  live_leases m t !! id = Some l ↔ m !! id = Some l ∧ (t < lt_deadline_tick l)%N.
Proof. unfold live_leases. by rewrite map_lookup_filter_Some. Qed.

Lemma expire_live s t :
  foldl (λ m id, delete id m) (leases s) (expired_leases s t) = live_leases (leases s) t.
Proof.
  apply map_eq. intros k. apply option_eq. intros l.
  rewrite delete_list_lookup, live_leases_lookup. case_bool_decide as Hk.
  - apply expired_leases_spec in Hk as (l' & Hl' & ?). split; [done|].
    intros [Hl ?]. simplify_eq. lia.
  - split; [|naive_solver]. intros Hl. split; [done|].
    apply N.lt_nge. intros Hle. apply Hk, expired_leases_spec. eauto.
Qed.

#[local] Arguments apply_update : simpl never.

Ltac branch op :=
  unfold op; cbn -[guarded effect granted apply_update implements]; case_guards; try refuse.

Lemma observe_committed_frontier_spec c s v :
  implements c s (ObserveCommittedFrontier v) (observe_committed_frontier s v).
Proof.
  branch observe_committed_frontier. guard_props.
  apply implements_accept; [simpl; lia|done].
Qed.

Lemma set_retention_window_spec c s e w :
  implements c s (SetRetentionWindow e w) (set_retention_window s e w).
Proof. branch set_retention_window. guard_props. by apply implements_accept. Qed.

Lemma observe_range_map_epoch_spec c s e :
  implements c s (ObserveRangeMapEpoch e) (observe_range_map_epoch s e).
Proof.
  branch observe_range_map_epoch. guard_props. apply implements_accept; [simpl; lia|done].
Qed.

Lemma configure_collection_root_spec c s expected root :
  implements c s (ConfigureCollectionRoot expected root)
    (configure_collection_root s expected root).
Proof. branch configure_collection_root. guard_props. by apply implements_accept. Qed.

Lemma acquire_lease_spec c s id tenant v owner purpose deadline closure :
  implements c s (AcquireLease id tenant v owner purpose deadline closure)
    (acquire_lease s id tenant v owner purpose deadline closure c no_faults).
Proof.
  branch acquire_lease. guard_props; apply implements_accept; simpl; try done.
  all: split_and!; try done; try lia; by eexists.
Qed.

Lemma renew_lease_spec c s id epoch deadline :
  implements c s (RenewLease id epoch deadline) (renew_lease s id epoch deadline c no_faults).
Proof.
  unfold renew_lease. destruct (leases s !! id) as [l|] eqn:Hl; [|refuse].
  cbn -[guarded effect granted apply_update implements]; case_guards; try refuse.
  guard_props. apply implements_accept; [exists l; split_and!; try done; lia|].
  simpl. rewrite (alter_as_insert _ _ _ _ Hl), Hl. done.
Qed.

Lemma release_lease_spec c s id epoch :
  implements c s (ReleaseLease id epoch) (release_lease s id epoch no_faults).
Proof.
  unfold release_lease. destruct (leases s !! id) as [l|] eqn:Hl; [|refuse].
  cbn -[guarded effect granted apply_update implements]; case_guards; try refuse.
  guard_props. apply implements_accept; [by exists l|done].
Qed.

Lemma advance_lease_clock_spec c s t t' :
  implements c s (AdvanceLeaseClock t t') (advance_lease_clock s t t' no_faults).
Proof.
  branch advance_lease_clock.
  all: guard_props; apply implements_accept; [by subst|].
  all: change (expired_leases _ _) with (expired_leases s t') in Heql |- *; unfold effect, granted.
  all: rewrite <-expire_live, Heql; done.
Qed.

Lemma prepare_collection_spec c s id floor input root epoch expected namespace :
  implements c s (PrepareCollection id floor input root epoch expected namespace)
    (prepare_collection s id floor input root epoch expected namespace c no_faults).
Proof.
  branch prepare_collection. guard_props; apply implements_accept; simpl; try done.
  all: unfold valid_manifest; split_and!; try done; lia.
Qed.

Lemma publish_collection_spec c s r :
  implements c s (PublishCollection r) (publish_collection s r (ctx_generation c) no_faults).
Proof.
  unfold publish_collection. destruct (negb _ || _) eqn:?; [refuse|].
  destruct (collection_jobs s !! _) as [j|] eqn:Hj; [|refuse].
  cbn -[guarded effect granted apply_update implements]; case_guards; try refuse.
  guard_props. subst j. apply implements_accept; [|done].
  simpl. split_and!; try done. intros key Hkey. by apply is_some_false; auto.
Qed.

Lemma abandon_collection_spec c s j :
  implements c s (AbandonCollection j) (abandon_collection s j (ctx_generation c)).
Proof.
  unfold abandon_collection.
  destruct (collection_jobs s !! _) as [j'|] eqn:Hj; [|refuse]. case_guards; try refuse.
  guard_props. subst j'. by apply implements_accept.
Qed.

Lemma prepare_spec c s id i :
  implements c s (Prepare id i) (prepare s id i (ctx_generation c) no_faults).
Proof.
  branch prepare. guard_props. apply implements_accept; [|done].
  simpl. split_and!; try done. intros key Hkey. by apply is_some_false; auto.
Qed.

Lemma publish_spec c s id root expected m :
  implements c s (Publish id root expected m)
    (publish s id root expected m (ctx_generation c) no_faults).
Proof.
  unfold publish. destruct (str_is_empty _ || _ || _ || _) eqn:?; [refuse|]. unfold publish_intent_refusal.
  destruct (intents s !! id) as [[g i]|] eqn:Hi; [|refuse].
  cbn -[guarded effect granted apply_update implements]; case_guards; try refuse.
  guard_props. subst. apply implements_accept; [|done]. unfold guarded, valid_manifest.
  split_and!; try done. by exists i.
Qed.

Lemma pin_spec c s id expected m :
  implements c s (Pin id expected m) (pin s id expected m).
Proof. branch pin. guard_props. by apply implements_accept. Qed.

Lemma unpin_spec c s id expected :
  implements c s (Unpin id expected) (unpin s id expected).
Proof. branch unpin. guard_props. by apply implements_accept. Qed.

Lemma reserve_delete_spec c s plan mark key identity :
  implements c s (ReserveDelete plan mark key identity)
    (reserve_delete s plan mark key identity c no_faults).
Proof.
  branch reserve_delete. guard_props. apply implements_accept; [|done].
  simpl. split_and!; try done.
  - intros ? i Hi. eapply bool_decide_eq_false_1. naive_solver.
  - intros ? l Hl. eapply bool_decide_eq_false_1. naive_solver.
Qed.

Lemma retire_delete_spec c s p :
  implements c s (RetireDelete p) (retire_delete s p (ctx_generation c) no_faults).
Proof.
  unfold retire_delete.
  destruct (deletion_reservations s !! _) as [q|] eqn:Hq; [|refuse].
  cbn -[guarded effect granted apply_update implements]; case_guards; try refuse.
  guard_props. subst q. by apply implements_accept.
Qed.

Lemma dispatch_spec c s a : implements c s a (dispatch s a c no_faults).
Proof.
  destruct a; unfold dispatch;
  [ apply observe_committed_frontier_spec | apply set_retention_window_spec
  | apply observe_range_map_epoch_spec | apply configure_collection_root_spec
  | apply acquire_lease_spec | apply renew_lease_spec | apply release_lease_spec
  | apply advance_lease_clock_spec | apply prepare_collection_spec
  | apply publish_collection_spec | apply abandon_collection_spec | apply prepare_spec
  | apply publish_spec | apply pin_spec | apply unpin_spec | apply reserve_delete_spec
  | apply retire_delete_spec ].
Qed.

(** ** Runs of an authority without faults *)
Definition authority_ready c s : Prop :=
  format_version s = PUBLICATION_FORMAT_VERSION ∧ context_is_valid c = true.

Lemma publication_apply_exact c s a :
  let r := publication_apply s a c no_faults in
  (authority_ready c s ∧ guarded c s a ∧
   r = accept { effect c s a with revision := ctx_position c } (granted c s a)) ∨
  (¬ (authority_ready c s ∧ guarded c s a) ∧ status r.2 ≠ Accepted ∧
   outcome r.2 = None ∧ r.1 = s).
Proof.
  unfold publication_apply. destruct (negb _ || negb _) eqn:Hready.
  { right. simpl. split_and!; try done. intros [[Hf Hc] _].
    rewrite Hf, Hc in Hready. done. }
  guard_props. pose proof (dispatch_spec c s a) as Hd.
  destruct (dispatch s a c no_faults) as [s' t]. unfold implements in Hd. simpl in *.
  destruct Hd as [(Hg & [= -> ->])|(Hg & Hst & Ho & ->)].
  - left. done.
  - right. rewrite bool_decide_false by done. naive_solver.
Qed.

Lemma publication_apply_cases c s a :
  let r := publication_apply s a c no_faults in
  (authority_ready c s ∧ guarded c s a ∧ status r.2 = Accepted ∧
   r.1 = { effect c s a with revision := ctx_position c }) ∨
  (¬ (authority_ready c s ∧ guarded c s a) ∧ status r.2 ≠ Accepted ∧
   outcome r.2 = None ∧ r.1 = s).
Proof.
  intros r. unfold r. destruct (publication_apply_exact c s a) as [(Hr & Hg & ->)|H]; [by left|by right].
Qed.

Inductive authority_step : relation PublicationAuthorityState :=
  | authority_apply c s a :
      authority_step s (publication_apply s a c no_faults).1.
Definition authority_reachable s : Prop :=
  rtc authority_step PublicationAuthorityState_default s.

(** ** The contract

    What the authority promises, field by field and without reference to the
    helpers of the code: which requests are well-formed, when one is accepted,
    and what an accepted one changes. *)

Definition hex_digest (value : string) : Prop :=
  String.length value = 64 ∧
  ∀ b, b ∈ string_bytes value → (48 ≤ b ≤ 57 ∨ 97 ≤ b ≤ 102)%N.
Definition reference_ok (r : ObjectReference) : Prop :=
  ref_key r ≠ EmptyString ∧ hex_digest (ref_sha256 r).
Definition manifest_ok (r : ObjectReference) : Prop := ref_kind r = Manifest ∧ reference_ok r.
(** A manifest among its named objects. *)
Definition objects_ok (m : ObjectReference) (keys : gset string) : Prop :=
  manifest_ok m ∧ ref_key m ∈ keys ∧ EmptyString ∉ keys.
Definition intent_ok (i : PublicationIntent) : Prop :=
  objects_ok (intent_manifest i) (intent_object_keys i) ∧
  intent_destination_root i ≠ EmptyString ∧
  ∀ r, intent_expected_prior_root i = Some r → reference_ok r.
Definition receipt_ok (r : CollectionReceipt) : Prop :=
  manifest_ok (receipt_output_manifest r) ∧
  ref_key (receipt_output_manifest r) ∈ receipt_object_keys r ∧
  ∀ key, key ∈ receipt_object_keys r →
    String.prefix (job_output_namespace (receipt_token r)) key = true.

(** Two collections that may not be outstanding together, and the objects one
    protects. *)
Definition overlaps (root namespace : string) (j : CollectionJobToken) : Prop :=
  job_destination_root j = root ∨ String.prefix namespace (job_output_namespace j) = true ∨
  String.prefix (job_output_namespace j) namespace = true.
Definition collects (key : string) (j : CollectionJobToken) : Prop :=
  ref_key (job_input_manifest j) = key ∨ String.prefix (job_output_namespace j) key = true.

Definition allowed c s (a : PublicationAction) : Prop :=
  match a with
  | ObserveCommittedFrontier v => (0 < v)%N ∧ (observed_commit_frontier s ≤ v)%N
  | SetRetentionWindow e _ => e = retention_policy_epoch s
  | ObserveRangeMapEpoch e => (0 < e)%N ∧ (range_map_epoch s ≤ e)%N
  | ConfigureCollectionRoot expected root =>
      root ≠ EmptyString ∧ is_Some (roots s !! root) ∧ collection_root s = expected ∧
      collection_jobs s = ∅
  | RenewLease id epoch deadline =>
      ∃ l, leases s !! id = Some l ∧ lt_lease_epoch l = epoch ∧
        (lease_clock_tick s < deadline)%N ∧ (lt_deadline_tick l < deadline)%N
  | ReleaseLease id epoch => ∃ l, leases s !! id = Some l ∧ lt_lease_epoch l = epoch
  | AdvanceLeaseClock t t' => t = lease_clock_tick s ∧ (t < t')%N
  | AbandonCollection j =>
      collection_jobs s !! job_job_id j = Some j ∧ job_owner_generation j = ctx_generation c
  | RetireDelete p =>
      deletion_reservations s !! permit_key p = Some p ∧
      permit_owner_generation p = ctx_generation c
  | AcquireLease id tenant v owner purpose deadline closure =>
      (id ≠ EmptyString ∧ tenant ≠ EmptyString ∧ owner ≠ EmptyString ∧ purpose ≠ EmptyString ∧
       objects_ok (closure_manifest closure) (closure_object_keys closure)) ∧
      is_Some (retention_window s) ∧ leases s !! id = None ∧
      (0 < v)%N ∧ (minimum_readable_version s ≤ v ≤ observed_commit_frontier s)%N ∧
      (lease_clock_tick s < deadline)%N
  | PrepareCollection id floor input root epoch expected namespace =>
      (id ≠ EmptyString ∧ manifest_ok input ∧ root ≠ EmptyString ∧ (0 < epoch)%N ∧
       namespace ≠ EmptyString ∧ ends_with_slash namespace = true) ∧
      collection_jobs s !! id = None ∧
      (∀ id' j, collection_jobs s !! id' = Some j → ¬ overlaps root namespace j) ∧
      epoch = range_map_epoch s ∧ collection_root s = Some root ∧
      expected = physically_collected_through s ∧
      (physically_collected_through s < floor ≤ minimum_readable_version s)%N ∧
      roots s !! root = Some input
  | PublishCollection r =>
      let j := receipt_token r in
      receipt_ok r ∧ receipt_output_manifest r ≠ job_input_manifest j ∧
      collection_jobs s !! job_job_id j = Some j ∧ job_owner_generation j = ctx_generation c ∧
      job_range_map_epoch j = range_map_epoch s ∧
      collection_root s = Some (job_destination_root j) ∧
      job_expected_collected_through j = physically_collected_through s ∧
      roots s !! job_destination_root j = Some (job_input_manifest j) ∧
      (∀ key, key ∈ receipt_object_keys r → deletion_reservations s !! key = None)
  | Prepare id i =>
      id ≠ EmptyString ∧ intent_ok i ∧ intents s !! id = None ∧
      (∀ key, key ∈ intent_object_keys i → deletion_reservations s !! key = None)
  | Publish id root expected m =>
      (id ≠ EmptyString ∧ root ≠ EmptyString ∧ manifest_ok m) ∧
      (∃ i, intents s !! id =
              Some {| prep_owner_generation := ctx_generation c; prep_intent := i |} ∧
        intent_manifest i = m ∧ intent_destination_root i = root ∧
        intent_expected_prior_root i = expected ∧ ref_key m ∈ intent_object_keys i) ∧
      roots s !! root = expected
  | Pin id expected m => id ≠ EmptyString ∧ manifest_ok m ∧ pins s !! id = expected
  | Unpin id expected => id ≠ EmptyString ∧ reference_ok expected ∧ pins s !! id = Some expected
  | ReserveDelete plan mark key identity =>
      (plan ≠ EmptyString ∧ key ≠ EmptyString ∧ hex_digest (id_sha256 identity)) ∧
      mark = root_intent_epoch s ∧
      (∀ id i, intents s !! id = Some i → key ∉ intent_object_keys (prep_intent i)) ∧
      (∀ id l, leases s !! id = Some l → key ∉ closure_object_keys (lt_closure l)) ∧
      (∀ id j, collection_jobs s !! id = Some j → ¬ collects key j) ∧
      deletion_reservations s !! key = None
  end.

(** A lease runs out when the clock reaches [t]. *)
Definition expires s (t : N) (id : string) : Prop :=
  ∃ l, leases s !! id = Some l ∧ (lt_deadline_tick l ≤ t)%N.

(** The actions that may change what is protected from deletion, that change the
    leases, and after which the read floor is set. *)
Definition moves_root_epoch s (a : PublicationAction) : Prop :=
  match a with
  | ObserveCommittedFrontier _ | SetRetentionWindow _ _ | ObserveRangeMapEpoch _
  | ReserveDelete _ _ _ _ | RetireDelete _ => False
  | AdvanceLeaseClock _ t => ∃ id, expires s t id
  | _ => True
  end.
Definition moves_lease_epoch s (a : PublicationAction) : Prop :=
  match a with
  | AcquireLease _ _ _ _ _ _ _ | RenewLease _ _ _ | ReleaseLease _ _ => True
  | AdvanceLeaseClock _ t => ∃ id, expires s t id
  | _ => False
  end.
Definition sets_floor (a : PublicationAction) : bool :=
  match a with
  | ObserveCommittedFrontier _ | SetRetentionWindow _ _ | AcquireLease _ _ _ _ _ _ _
  | ReleaseLease _ _ | AdvanceLeaseClock _ _ => true
  | _ => false
  end.

Definition counted (moves : Prop) (before after : N) : Prop :=
  (moves → after = N.min (before + 1) U64_MAX) ∧ (¬ moves → after = before).

(** [carried_out c s a s' o]: [s'] and [o] are what an accepted [a] leaves and
    hands out. *)
Record carried_out c s (a : PublicationAction) s' (o : PublicationOutcome) : Prop := {
  co_format : format_version s' = format_version s;
  co_revision : revision s' = ctx_position c;
  co_intents : intents s' =
    match a with
    | Prepare id i =>
        <[id := {| prep_owner_generation := ctx_generation c; prep_intent := i |}]> (intents s)
    | Publish id _ _ _ => delete id (intents s)
    | _ => intents s
    end;
  co_roots : roots s' =
    match a with
    | Publish _ root _ m => <[root := m]> (roots s)
    | PublishCollection r =>
        <[job_destination_root (receipt_token r) := receipt_output_manifest r]> (roots s)
    | _ => roots s
    end;
  co_pins : pins s' =
    match a with
    | Pin id _ m => <[id := m]> (pins s)
    | Unpin id _ => delete id (pins s)
    | _ => pins s
    end;
  co_reservations : deletion_reservations s' =
    match a with
    | ReserveDelete plan _ key identity =>
        <[key := {| permit_key := key; permit_identity := identity; permit_plan_id := plan;
                    permit_owner_generation := ctx_generation c;
                    permit_authority_position := ctx_position c |}]> (deletion_reservations s)
    | RetireDelete p => delete (permit_key p) (deletion_reservations s)
    | _ => deletion_reservations s
    end;
  co_frontier : observed_commit_frontier s' =
    match a with ObserveCommittedFrontier v => v | _ => observed_commit_frontier s end;
  co_window : retention_window s' =
    match a with SetRetentionWindow _ w => Some w | _ => retention_window s end;
  co_policy_epoch :
    counted (match a with SetRetentionWindow _ _ => True | _ => False end)
      (retention_policy_epoch s) (retention_policy_epoch s');
  co_collected : physically_collected_through s' =
    match a with
    | PublishCollection r => job_frozen_floor (receipt_token r)
    | _ => physically_collected_through s
    end;
  co_clock : lease_clock_tick s' =
    match a with AdvanceLeaseClock _ t => t | _ => lease_clock_tick s end;
  co_leases : ∀ id l, leases s' !! id = Some l ↔
    match a with
    | AcquireLease id' tenant v owner purpose deadline closure =>
        id = id' ∧ l = new_lease c s id tenant v owner purpose deadline closure ∨
        id ≠ id' ∧ leases s !! id = Some l
    | RenewLease id' _ deadline =>
        id = id' ∧ (∃ l0, leases s !! id = Some l0 ∧ l = renewed_lease c s l0 deadline) ∨
        id ≠ id' ∧ leases s !! id = Some l
    | ReleaseLease id' _ => id ≠ id' ∧ leases s !! id = Some l
    | AdvanceLeaseClock _ t => leases s !! id = Some l ∧ (t < lt_deadline_tick l)%N
    | _ => leases s !! id = Some l
    end;
  co_range_epoch : range_map_epoch s' =
    match a with ObserveRangeMapEpoch e => e | _ => range_map_epoch s end;
  co_collection_root : collection_root s' =
    match a with ConfigureCollectionRoot _ root => Some root | _ => collection_root s end;
  co_jobs : collection_jobs s' =
    match a with
    | PrepareCollection id floor input root epoch expected namespace =>
        <[id := {| job_job_id := id; job_owner_generation := ctx_generation c;
                   job_authority_position := ctx_position c; job_frozen_floor := floor;
                   job_input_manifest := input; job_destination_root := root;
                   job_range_map_epoch := epoch; job_expected_collected_through := expected;
                   job_output_namespace := namespace |}]> (collection_jobs s)
    | PublishCollection r => delete (job_job_id (receipt_token r)) (collection_jobs s)
    | AbandonCollection j => delete (job_job_id j) (collection_jobs s)
    | _ => collection_jobs s
    end;
  co_root_epoch : counted (moves_root_epoch s a) (root_intent_epoch s) (root_intent_epoch s');
  co_lease_epoch : counted (moves_lease_epoch s a) (lease_epoch s) (lease_epoch s');
  (** The policy floor is the least version within the window that is not below
      the floor before; the read floor gives way to the oldest lease and never
      falls. *)
  co_floors : ∀ v,
    match retention_window s' with
    | Some window =>
        if sets_floor a then
          ((policy_floor s' ≤ v)%N ↔
             (policy_floor s ≤ v)%N ∧ (observed_commit_frontier s' ≤ v + window)%N) ∧
          ((minimum_readable_version s' ≤ v)%N ↔
             (minimum_readable_version s ≤ v)%N ∧
             ((policy_floor s' ≤ v)%N ∨
              ∃ id l, leases s' !! id = Some l ∧ (lt_snapshot_version l ≤ v)%N))
        else policy_floor s' = policy_floor s ∧
             minimum_readable_version s' = minimum_readable_version s
    | None => policy_floor s' = policy_floor s ∧
              minimum_readable_version s' = minimum_readable_version s
    end;
  co_outcome :
    match a with
    | AcquireLease id _ _ _ _ _ _ => ∃ l, leases s' !! id = Some l ∧ o = LeaseAcquired l
    | RenewLease id _ _ => ∃ l, leases s' !! id = Some l ∧ o = LeaseRenewed l
    | AdvanceLeaseClock _ t =>
        ∃ ids, o = LeasesExpired ids ∧ StronglySorted key_lt ids ∧ ∀ id, id ∈ ids ↔ expires s t id
    | PrepareCollection id _ _ _ _ _ _ =>
        ∃ j, collection_jobs s' !! id = Some j ∧ o = CollectionPrepared j
    | PublishCollection r => o = CollectionPublished r
    | ReserveDelete _ _ key _ =>
        ∃ p, deletion_reservations s' !! key = Some p ∧ o = DeleteReserved p
    | _ => o = Applied
    end;
}.

(** *** The conditions of the code are those of the contract *)
Lemma hex_byte_true b : hex_byte b = true ↔ (48 ≤ b ≤ 57 ∨ 97 ≤ b ≤ 102)%N.
Proof. unfold hex_byte. rewrite orb_true_iff, !andb_true_iff, !N.leb_le. done. Qed.
Lemma valid_sha256_true v : valid_sha256 v = true ↔ hex_digest v.
Proof.
  unfold valid_sha256, hex_digest. rewrite andb_true_iff, Nat.eqb_eq, forallb_Forall, Forall_forall.
  by setoid_rewrite hex_byte_true.
Qed.
Lemma reference_is_valid_true r : reference_is_valid r = true ↔ reference_ok r.
Proof.
  unfold reference_is_valid. by rewrite andb_true_iff, negb_true_iff, str_is_empty_false, valid_sha256_true.
Qed.
Lemma valid_manifest_ok r : valid_manifest r ↔ manifest_ok r.
Proof. unfold valid_manifest. by rewrite reference_is_valid_true. Qed.
Lemma named_keys keys : bts_all (λ key, negb (str_is_empty key)) keys = true ↔ EmptyString ∉ keys.
Proof.
  rewrite bts_all_true. split.
  - intros Hall Hin. by specialize (Hall _ Hin).
  - intros Hn key Hkey. apply negb_true_iff, str_is_empty_false. by intros ->.
Qed.

Lemma closure_is_valid_true cl :
  closure_is_valid cl = true ↔ objects_ok (closure_manifest cl) (closure_object_keys cl).
Proof.
  unfold closure_is_valid, objects_ok, manifest_ok. rewrite !andb_true_iff, is_manifest_true.
  rewrite reference_is_valid_true, bool_decide_eq_true, named_keys. tauto.
Qed.
Lemma intent_is_valid_true i : intent_is_valid i = true ↔ intent_ok i.
Proof.
  unfold intent_is_valid, intent_ok, objects_ok, manifest_ok. rewrite !andb_true_iff, is_manifest_true.
  rewrite reference_is_valid_true, bool_decide_eq_true, named_keys, negb_true_iff, str_is_empty_false.
  destruct (intent_expected_prior_root i) as [r|]; rewrite ?reference_is_valid_true; naive_solver.
Qed.
Lemma receipt_is_valid_true r : receipt_is_valid r = true ↔ receipt_ok r.
Proof.
  unfold receipt_is_valid, receipt_ok, manifest_ok. rewrite !andb_true_iff, is_manifest_true.
  rewrite reference_is_valid_true, bool_decide_eq_true, bts_all_true. tauto.
Qed.
Lemma prefix_refl x : String.prefix x x = true.
Proof. induction x as [|a x IH]; [done|]. simpl. by destruct (Ascii.ascii_dec a a). Qed.
Lemma job_conflicts_false root namespace j :
  job_conflicts root namespace j = false ↔ ¬ overlaps root namespace j.
Proof.
  unfold job_conflicts, overlaps. rewrite !orb_false_iff, !bool_decide_eq_false, <-!not_true_iff_false.
  split; [naive_solver|]. intros Hn. split_and!; try naive_solver.
  intros Heq. apply Hn. right. left. rewrite Heq. apply prefix_refl.
Qed.
Lemma job_protects_false key j : job_protects key j = false ↔ ¬ collects key j.
Proof.
  unfold job_protects, collects. rewrite orb_false_iff, bool_decide_eq_false, <-not_true_iff_false.
  tauto.
Qed.

Lemma allowed_guarded c s a : allowed c s a ↔ guarded c s a.
Proof.
  destruct a; cbn [allowed guarded]; try done;
    rewrite ?closure_is_valid_true, ?valid_manifest_ok, ?intent_is_valid_true, ?receipt_is_valid_true,
      ?reference_is_valid_true; try tauto.
  - setoid_rewrite job_conflicts_false. tauto.
  - setoid_rewrite job_protects_false. unfold identity_is_valid. rewrite valid_sha256_true. tauto.
Qed.

(** *** The state an operation leaves is the one of the contract *)
Lemma recompute_exact s :
  ∃ p f, recompute_read_floor s = { s with policy_floor := p; minimum_readable_version := f } ∧
    ∀ v, match retention_window s with
         | Some window =>
             ((p ≤ v)%N ↔ (policy_floor s ≤ v)%N ∧ (observed_commit_frontier s ≤ v + window)%N) ∧
             ((f ≤ v)%N ↔ (minimum_readable_version s ≤ v)%N ∧
                ((p ≤ v)%N ∨ ∃ id l, leases s !! id = Some l ∧ (lt_snapshot_version l ≤ v)%N))
         | None => p = policy_floor s ∧ f = minimum_readable_version s
         end.
Proof.
  unfold recompute_read_floor. destruct (retention_window s) as [w|].
  2: { exists (policy_floor s), (minimum_readable_version s). split; [by destruct s|done]. }
  eexists _, _. split; [reflexivity|]. intros v. unfold saturating_sub. split; [lia|].
  rewrite N.max_lub_iff. apply and_iff_compat_l.
  destruct (iter_min _) as [m|] eqn:Hm.
  - apply iter_min_Some in Hm as [([id l] & -> & Hl%elem_of_bt_items)%list_elem_of_fmap Hmin].
    rewrite N.min_le_iff. apply or_iff_compat_l. simpl. split; [by eauto|].
    intros (id' & l' & Hl' & Hle). etrans; [|exact Hle]. apply Hmin, list_elem_of_fmap.
    exists (id', l'). split; [done|]. by apply elem_of_bt_items.
  - apply iter_min_None, fmap_nil_inv in Hm. split; [by left|]. intros [|(id & l & Hl & _)]; [done|].
    apply elem_of_bt_items in Hl. rewrite Hm in Hl. by apply elem_of_nil in Hl.
Qed.

Lemma expired_sorted s t : StronglySorted key_lt (expired_leases s t).
Proof.
  unfold expired_leases. pose proof (keys_sorted_filter (λ p, (lt_deadline_tick p.2 <=? t)%N) _
    (bt_items_sorted (leases s))) as Hs. revert Hs. generalize (List.filter (λ p, (lt_deadline_tick p.2 <=? t)%N)
    (bt_items (leases s))).
  induction l as [|p l IH]; [constructor|]. intros [Hl Hp]%StronglySorted_inv. constructor; [by apply IH|].
  apply Forall_fmap. exact Hp.
Qed.

Lemma counted_yes before : counted True before (saturating_add before 1).
Proof. by split. Qed.
Lemma counted_no before : counted False before before.
Proof. by split. Qed.

(** Clocks: the epochs move when some lease runs out. *)
Lemma expired_none s t : expired_leases s t = [] → ¬ ∃ id, expires s t id.
Proof. intros He [id Hid%expired_leases_spec]. rewrite He in Hid. by apply elem_of_nil in Hid. Qed.
Lemma expired_some s t id ids : expired_leases s t = id :: ids → ∃ id, expires s t id.
Proof. intros He. exists id. apply expired_leases_spec. rewrite He. left. Qed.

Ltac contract_field :=
  simp_state;
  first [ done | apply counted_yes | apply counted_no
        | intros ??; rewrite ?lookup_insert_Some, ?lookup_delete_Some, ?live_leases_lookup; naive_solver
        | eexists; split; [apply lookup_insert_eq|done] ].

Lemma clock_carried_out c s t t' :
  carried_out c s (AdvanceLeaseClock t t')
    { effect c s (AdvanceLeaseClock t t') with revision := ctx_position c }
    (granted c s (AdvanceLeaseClock t t')).
Proof.
  unfold effect, granted. destruct (expired_leases s t') as [|id ids] eqn:He.
  all: match goal with |- context [recompute_read_floor ?s0] =>
         destruct (recompute_exact s0) as (p & f & -> & Hpf) end;
       unfold bump_root_epoch, bump_lease_epoch in *; simp_state; split; try contract_field.
  - split; [|done]. intros Hm. by destruct (expired_none _ _ He).
  - split; [|done]. intros Hm. by destruct (expired_none _ _ He).
  - exists []. split_and!; [done|constructor|]. intros id. split; [by intros []%elem_of_nil|].
    intros Hid. destruct (expired_none _ _ He). eauto.
  - split; [done|]. intros Hn. destruct Hn. by eapply expired_some.
  - split; [done|]. intros Hn. destruct Hn. by eapply expired_some.
  - exists (id :: ids). rewrite <-He. split_and!; [done|apply expired_sorted|apply expired_leases_spec].
Qed.

Lemma renew_carried_out c s id epoch deadline :
  guarded c s (RenewLease id epoch deadline) →
  carried_out c s (RenewLease id epoch deadline)
    { effect c s (RenewLease id epoch deadline) with revision := ctx_position c }
    (granted c s (RenewLease id epoch deadline)).
Proof.
  intros (l & Hl & _). unfold effect, granted. rewrite Hl, (alter_as_insert _ _ _ _ Hl).
  unfold bump_root_epoch, bump_lease_epoch. split; try contract_field.
  intros v. simp_state. by destruct (retention_window s).
Qed.

Lemma effect_carried_out c s a :
  guarded c s a →
  carried_out c s a { effect c s a with revision := ctx_position c } (granted c s a).
Proof.
  destruct a; intros Hg; try apply clock_carried_out; try by apply renew_carried_out.
  all: unfold effect, granted;
    try match goal with |- context [recompute_read_floor ?s0] =>
         destruct (recompute_exact s0) as (p & f & -> & Hpf) end;
    unfold bump_root_epoch, bump_lease_epoch in *; simp_state; split; try contract_field.
  all: intros v; simp_state; by destruct (retention_window s).
Qed.
