(* ===== verification/PublicationInv.v ===== *)
(** * The invariant of the publication authority

    The relations between the authority's frontiers, leases, collection jobs,
    intents and reservations, and their preservation by every action. *)

From S2P Require Import Prelude Order BTree Publication PublicationSpec.

Implicit Type s : PublicationAuthorityState.
Implicit Type c : AuthorityContext.
#[local] Arguments apply_update : simpl never.

(** [recompute_read_floor] only moves the two floors, upwards and never past a
    leased snapshot that the readable floor had not passed already. *)
Lemma recompute_read_floor_spec s :
  ∃ p f, recompute_read_floor s = { s with policy_floor := p; minimum_readable_version := f } ∧
    (policy_floor s ≤ p ≤ N.max (policy_floor s) (observed_commit_frontier s))%N ∧
    (minimum_readable_version s ≤ f ≤ N.max (minimum_readable_version s) p)%N ∧
    ∀ id l, leases s !! id = Some l →
      (f ≤ N.max (minimum_readable_version s) (lt_snapshot_version l))%N.
Proof.
  unfold recompute_read_floor. destruct (retention_window s) as [w|].
  - eexists _, _. split; [reflexivity|]. unfold saturating_sub. split; [lia|].
    destruct (iter_min _) as [m|] eqn:Hm.
    + apply iter_min_Some in Hm as [_ Hmin]. split; [lia|]. intros id l Hl.
      assert (m ≤ lt_snapshot_version l)%N; [|lia]. apply Hmin.
      apply list_elem_of_fmap. exists (id, l). by rewrite elem_of_bt_items.
    + split; [lia|]. intros id l Hl. apply iter_min_None, fmap_nil_inv in Hm.
      apply elem_of_bt_items in Hl. rewrite Hm in Hl. by apply elem_of_nil in Hl.
  - exists (policy_floor s), (minimum_readable_version s).
    split; [by destruct s|]. split_and!; lia || (intros; lia).
Qed.

Ltac recompute :=
  match goal with
  | |- context [recompute_read_floor ?s] =>
      let p := fresh "p" in let f := fresh "f" in
      destruct (recompute_read_floor_spec s) as (p & f & -> & Hp & Hf & Hfl)
  end.

(** ** The invariant *)
Record lease_ok s (id : string) (l : SnapshotLeaseToken) : Prop := {
  lease_ok_id : lt_lease_id l = id;
  lease_ok_readable : (minimum_readable_version s ≤ lt_snapshot_version l)%N;
  lease_ok_committed : (lt_snapshot_version l ≤ observed_commit_frontier s)%N;
  lease_ok_deadline : (lease_clock_tick s < lt_deadline_tick l)%N;
  lease_ok_epoch : (lt_lease_epoch l ≤ lease_epoch s)%N;
  lease_ok_closure : closure_is_valid (lt_closure l) = true;
}.

Record job_ok s (id : string) (j : CollectionJobToken) : Prop := {
  job_ok_id : job_job_id j = id;
  job_ok_root : collection_root s = Some (job_destination_root j);
  job_ok_expected : job_expected_collected_through j = physically_collected_through s;
  job_ok_progress : (physically_collected_through s < job_frozen_floor j)%N;
  job_ok_floor : (job_frozen_floor j ≤ minimum_readable_version s)%N;
}.

Record authority_inv s : Prop := {
  inv_format : format_version s = PUBLICATION_FORMAT_VERSION;
  inv_collected : (physically_collected_through s ≤ minimum_readable_version s)%N;
  inv_readable : (minimum_readable_version s ≤ policy_floor s)%N;
  inv_policy : (policy_floor s ≤ observed_commit_frontier s)%N;
  inv_leases : ∀ id l, leases s !! id = Some l → lease_ok s id l;
  inv_jobs : ∀ id j, collection_jobs s !! id = Some j → job_ok s id j;
  inv_one_job : ∀ id1 j1 id2 j2,
    collection_jobs s !! id1 = Some j1 → collection_jobs s !! id2 = Some j2 → id1 = id2;
  inv_reserved : ∀ key p, deletion_reservations s !! key = Some p →
    permit_key p = key ∧
    ∀ id i, intents s !! id = Some i → key ∉ intent_object_keys (prep_intent i);
  inv_manifests : ∀ id m, roots s !! id = Some m → valid_manifest m;
  inv_root_epoch : u64_wf (root_intent_epoch s);
  inv_lease_epoch : u64_wf (lease_epoch s);
}.

Lemma authority_inv_default : authority_inv PublicationAuthorityState_default.
Proof. split; try done; intros *; simpl; rewrite ?lookup_empty; done. Qed.

(** ** Preservation *)
Ltac open_effect :=
  unfold effect; try recompute; unfold bump_root_epoch, bump_lease_epoch in *; simp_state.

(** Reduce a lookup in an updated map to one in the old map. *)
Ltac old_lookup :=
  try match goal with
  | H : ?m !! _ = Some _, Hfl : ∀ id l, ?m !! id = Some l → (_ ≤ _)%N |- _ =>
      pose proof (Hfl _ _ H)
  end;
  repeat match goal with
  | H : <[_ := _]> _ !! _ = Some _ |- _ => apply lookup_insert_Some in H as [[<- <-]|[? H]]
  | H : delete _ _ !! _ = Some _ |- _ => apply lookup_delete_Some in H as [? H]
  | H : alter _ _ _ !! _ = Some _ |- _ =>
      apply lookup_alter_Some in H as [(<- & ? & ? & ->)|[? H]]
  | H : live_leases _ _ !! _ = Some _ |- _ => apply live_leases_lookup in H as [H ?]
  end.

(** What the invariant says of the leases and jobs at hand. *)
Ltac use_entries I :=
  repeat match goal with
  | H : leases _ !! _ = Some _ |- _ => apply (inv_leases _ I) in H as []
  | H : collection_jobs _ !! _ = Some _ |- _ => apply (inv_jobs _ I) in H as []
  end.

(** Open the invariant of the new state; what remains are the leases and the
    jobs the action touched. *)
Ltac preserve I :=
  pose proof (inv_collected _ I); pose proof (inv_readable _ I); pose proof (inv_policy _ I);
  pose proof (inv_root_epoch _ I); pose proof (inv_lease_epoch _ I) as Hle;
  pose proof (saturating_add_le _ 1 Hle);
  split; simp_state; try (by apply I); try lia; try (by apply saturating_add_wf);
  intros; old_lookup; try (by eapply I);
  try (use_entries I; split; simp_state; simpl in *; try done; lia).

Lemma configure_inv c s expected root :
  authority_inv s → guarded c s (ConfigureCollectionRoot expected root) →
  authority_inv { effect c s (ConfigureCollectionRoot expected root)
                  with revision := ctx_position c }.
Proof.
  intros I (_ & _ & _ & Hempty). open_effect. preserve I.
  rewrite Hempty, lookup_empty in *. done.
Qed.

Lemma renew_inv c s id epoch deadline :
  authority_inv s → guarded c s (RenewLease id epoch deadline) →
  authority_inv { effect c s (RenewLease id epoch deadline) with revision := ctx_position c }.
Proof.
  intros I (l & Hl & _ & Hdeadline & _). open_effect. preserve I.
Qed.

Lemma advance_inv c s t t' :
  authority_inv s → guarded c s (AdvanceLeaseClock t t') →
  authority_inv { effect c s (AdvanceLeaseClock t t') with revision := ctx_position c }.
Proof.
  intros I [_ Ht]. simpl. destruct (expired_leases s t'); open_effect; preserve I.
Qed.

(** With one outstanding job per authority, a second preparation conflicts. *)
Lemma prepare_collection_inv c s id floor input root epoch expected namespace :
  let a := PrepareCollection id floor input root epoch expected namespace in
  authority_inv s → guarded c s a →
  authority_inv { effect c s a with revision := ctx_position c }.
Proof.
  intros a I (_ & _ & Hfree & _ & Hroot & -> & Hlo & Hhi & _).
  assert (∀ id' j, collection_jobs s !! id' = Some j → False) as Hnone.
  { intros id' j Hj. pose proof (Hfree _ _ Hj) as Hc. apply (inv_jobs _ I) in Hj as [].
    unfold job_conflicts in Hc. rewrite bool_decide_true in Hc by congruence. done. }
  unfold a. open_effect. preserve I; naive_solver.
Qed.

Lemma publish_collection_inv c s r :
  authority_inv s → guarded c s (PublishCollection r) →
  authority_inv { effect c s (PublishCollection r) with revision := ctx_position c }.
Proof.
  intros I (Hr & _ & Hj & _). open_effect.
  pose proof (inv_jobs _ I _ _ Hj) as [? ? ? Hlo Hhi]. preserve I.
  - exfalso. by eapply (inv_one_job _ I) in Hj; [|done].
  - unfold receipt_is_valid in Hr. guard_props. by split.
Qed.

Lemma prepare_inv c s id i :
  authority_inv s → guarded c s (Prepare id i) →
  authority_inv { effect c s (Prepare id i) with revision := ctx_position c }.
Proof.
  intros I (_ & _ & _ & Hfree). open_effect. preserve I.
  match goal with H : deletion_reservations s !! _ = Some _ |- _ =>
    rename H into Hres; destruct (inv_reserved _ I _ _ Hres) as [? Hold] end.
  split; [done|]. intros id' i' Hi. old_lookup; [|eauto].
  intros Hin. simpl in Hin. rewrite Hfree in Hres; done.
Qed.

Lemma publish_inv c s id root expected m :
  authority_inv s → guarded c s (Publish id root expected m) →
  authority_inv { effect c s (Publish id root expected m) with revision := ctx_position c }.
Proof.
  intros I ((_ & _ & Hm) & _ & _). open_effect. preserve I; [|done].
  match goal with H : deletion_reservations s !! _ = Some _ |- _ =>
    destruct (inv_reserved _ I _ _ H) as [? Hold] end.
  split; [done|]. intros id' i' Hi. old_lookup. eauto.
Qed.

Lemma effect_inv c s a :
  authority_inv s → guarded c s a →
  authority_inv { effect c s a with revision := ctx_position c }.
Proof.
  intros I G. destruct a.
  all: auto using configure_inv, renew_inv, advance_inv, prepare_collection_inv,
    publish_collection_inv, prepare_inv, publish_inv.
  all: simpl in G; destruct_and? G; open_effect; preserve I.
Qed.

Lemma authority_step_inv s s' : authority_step s s' → authority_inv s → authority_inv s'.
Proof.
  intros [c s0 a] I. destruct (publication_apply_cases c s0 a)
    as [(_ & G & _ & ->)|(_ & _ & _ & ->)]; [|done].
  by apply effect_inv.
Qed.

Lemma authority_steps_inv s s' : rtc authority_step s s' → authority_inv s → authority_inv s'.
Proof. induction 1; eauto using authority_step_inv. Qed.

Lemma authority_reachable_inv s : authority_reachable s → authority_inv s.
Proof. intros Hr. eapply authority_steps_inv; [done|apply authority_inv_default]. Qed.
