(* ===== verification/PublicationRuns.v ===== *)
(** * What the publication authority guarantees over every run

    Properties of runs of any length from the empty authority: the order and
    monotonicity of the frontiers, the readability of a leased snapshot until
    its release or expiry, exclusive collection, compare-and-publish, the
    exclusion of prepared objects from deletion, and the detection of any
    change of the protected set by the root epoch. *)

From S2P Require Import Prelude Order BTree Publication PublicationSpec PublicationInv.

Implicit Type s : PublicationAuthorityState.
Implicit Type c : AuthorityContext.
#[local] Arguments apply_update : simpl never.

(** ** Runs *)
Definition run (acts : list (AuthorityContext * PublicationAction)) s :
    PublicationAuthorityState :=
  foldl (λ s ca, (publication_apply s ca.2 ca.1 no_faults).1) s acts.

Lemma run_steps acts s : rtc authority_step s (run acts s).
Proof.
  unfold run. revert s. induction acts as [|[c a] acts IH]; intros s; simpl; [done|].
  eapply rtc_l; [|apply IH]. apply (authority_apply c).
Qed.

Lemma steps_run s s' : rtc authority_step s s' → ∃ acts, s' = run acts s.
Proof.
  induction 1 as [|s0 s1 s2 [c s a] _ [acts IH]]; [by exists []|].
  exists ((c, a) :: acts). by rewrite IH.
Qed.

(** Every counter and frontier of the authority only moves forward. *)
Record forward s s' : Prop := {
  fwd_collected : (physically_collected_through s ≤ physically_collected_through s')%N;
  fwd_readable : (minimum_readable_version s ≤ minimum_readable_version s')%N;
  fwd_policy : (policy_floor s ≤ policy_floor s')%N;
  fwd_frontier : (observed_commit_frontier s ≤ observed_commit_frontier s')%N;
  fwd_clock : (lease_clock_tick s ≤ lease_clock_tick s')%N;
  fwd_range_map : (range_map_epoch s ≤ range_map_epoch s')%N;
  fwd_root_epoch : (root_intent_epoch s ≤ root_intent_epoch s')%N;
  fwd_lease_epoch : (lease_epoch s ≤ lease_epoch s')%N;
}.

#[global] Instance forward_preorder : PreOrder forward.
Proof.
  split; [intros s; by split|].
  intros s1 s2 s3 [] []. split; by etrans.
Qed.

Lemma effect_forward c s a :
  authority_inv s → guarded c s a → forward s { effect c s a with revision := ctx_position c }.
Proof.
  intros I G. pose proof (saturating_add_le _ 1 (inv_root_epoch _ I)).
  pose proof (saturating_add_le _ 1 (inv_lease_epoch _ I)).
  destruct a; simpl in G; destruct_and? G.
  all: try (open_effect; split; simp_state; lia).
  - simpl. destruct (expired_leases s next_tick); open_effect; split; simp_state; lia.
  - open_effect.
    match goal with H : collection_jobs s !! _ = Some _ |- _ =>
      apply (inv_jobs _ I) in H as [] end.
    split; simp_state; lia.
Qed.

Lemma authority_steps_forward s s' :
  authority_inv s → rtc authority_step s s' → forward s s'.
Proof.
  intros I Hs. revert I. induction Hs as [s|s s1 s2 Hstep _ IH]; intros I; [done|].
  transitivity s1; [|eauto using authority_step_inv].
  destruct Hstep as [c s a]. destruct (publication_apply_cases c s a)
    as [(_ & G & _ & ->)|(_ & _ & _ & ->)]; [|done].
  by apply effect_forward.
Qed.

(** The objects deletion must spare are found from these fields. *)
Definition protected s :=
  (intents s, roots s, pins s, leases s, collection_root s, collection_jobs s).

Lemma live_leases_all s t : expired_leases s t = [] → live_leases (leases s) t = leases s.
Proof. intros He. by rewrite <-expire_live, He. Qed.

Lemma effect_root_epoch c s a :
  authority_inv s → guarded c s a →
  protected (effect c s a) = protected s ∨
  root_intent_epoch (effect c s a) = saturating_add (root_intent_epoch s) 1.
Proof.
  intros I G. destruct a; simpl in G; destruct_and? G.
  all: try (right; open_effect; done).
  all: try (left; open_effect; unfold protected; simp_state; done).
  simpl. destruct (expired_leases s next_tick) eqn:He.
  - left. open_effect. unfold protected. simp_state. by rewrite live_leases_all.
  - right. by open_effect.
Qed.

Lemma steps_root_epoch s s' :
  authority_inv s → rtc authority_step s s' →
  root_intent_epoch s' = root_intent_epoch s → (root_intent_epoch s < U64_MAX)%N →
  protected s' = protected s.
Proof.
  intros I Hs. revert I. induction Hs as [s|s s1 s2 Hstep Hs IH]; intros I Heq Hlt; [done|].
  pose proof (authority_step_inv _ _ Hstep I) as I1.
  pose proof (authority_steps_forward _ _ I1 Hs) as [].
  destruct Hstep as [c s a].
  destruct (publication_apply_cases c s a) as [(_ & G & _ & E)|(_ & _ & _ & E)];
    rewrite E in *; [|by apply IH].
  destruct (effect_root_epoch c s a I G) as [Hp|Hp]; simp_state.
  - assert (root_intent_epoch (effect c s a) = root_intent_epoch s) as He.
    { pose proof (effect_forward c s a I G) as []. simp_state. lia. }
    rewrite IH; [done|done|by simp_state; lia|simp_state; lia].
  - rewrite saturating_add_succ in Hp by done. simp_state. lia.
Qed.

(** ** Leases over a run *)
Record same_lease (l l' : SnapshotLeaseToken) : Prop := {
  same_id : lt_lease_id l' = lt_lease_id l;
  same_snapshot : lt_snapshot_version l' = lt_snapshot_version l;
  same_closure : lt_closure l' = lt_closure l;
  same_owner : lt_owner l' = lt_owner l;
  same_deadline : (lt_deadline_tick l ≤ lt_deadline_tick l')%N;
}.

#[global] Instance same_lease_preorder : PreOrder same_lease.
Proof.
  split; [intros l; by split|].
  intros l1 l2 l3 [] []. split; try congruence. by etrans.
Qed.

Lemma recompute_leases s : leases (recompute_read_floor s) = leases s.
Proof. destruct (recompute_read_floor_spec s) as (p & f & -> & _). by simp_state. Qed.
Lemma recompute_clock s : lease_clock_tick (recompute_read_floor s) = lease_clock_tick s.
Proof. destruct (recompute_read_floor_spec s) as (p & f & -> & _). by simp_state. Qed.

Lemma effect_lease c s a id l :
  guarded c s a → leases s !! id = Some l → (∀ e, a ≠ ReleaseLease id e) →
  (lease_clock_tick (effect c s a) < lt_deadline_tick l)%N →
  ∃ l', leases (effect c s a) !! id = Some l' ∧ same_lease l l'.
Proof.
  intros G Hl Hrel Hclock.
  destruct a; simpl in G; unfold effect in *; rewrite ?recompute_leases, ?recompute_clock in *;
    unfold bump_root_epoch, bump_lease_epoch in *; simp_state; try (by exists l).
  - exists l. split; [|done]. rewrite lookup_insert_ne; [done|]. naive_solver.
  - destruct (decide (lease_id = id)) as [->|].
    + rewrite lookup_alter_eq, Hl. simpl. eexists; split; [done|].
      destruct G as (l0 & Hl0 & _ & _ & Hd). simplify_eq. split; try done. simpl. lia.
    + rewrite lookup_alter_ne by done. by exists l.
  - exists l. split; [|done]. rewrite lookup_delete_ne; [done|]. naive_solver.
  - exists l. split; [|done].
    destruct (expired_leases s next_tick); simp_state; by apply live_leases_lookup.
Qed.

Lemma run_lease acts s id l :
  authority_inv s → leases s !! id = Some l → (∀ c e, (c, ReleaseLease id e) ∉ acts) →
  (lease_clock_tick (run acts s) < lt_deadline_tick l)%N →
  ∃ l', leases (run acts s) !! id = Some l' ∧ same_lease l l'.
Proof.
  revert s l. induction acts as [|[c a] acts IH]; intros s l I Hl Hrel Hclock; [by exists l|].
  simpl in *. set (s1 := (publication_apply s a c no_faults).1) in *.
  assert (authority_inv s1) as I1 by (eapply authority_step_inv; [apply authority_apply|done]).
  pose proof (authority_steps_forward _ _ I1 (run_steps acts s1)) as [].
  assert (∃ l1, leases s1 !! id = Some l1 ∧ same_lease l l1) as (l1 & Hl1 & Hs1).
  { unfold s1 in *. destruct (publication_apply_cases c s a) as [(_ & G & _ & E)|(_ & _ & _ & E)];
      rewrite E in *; [|by exists l].
    simp_state. eapply effect_lease; [done..| |lia].
    intros e ->. apply (Hrel c e). by constructor. }
  destruct (IH s1 l1) as (l2 & Hl2 & Hs2); [done..| |pose proof (same_deadline _ _ Hs1); lia|].
  { intros c' e Hin. apply (Hrel c' e). by constructor. }
  exists l2. split; [done|]. by etrans.
Qed.

(** ** The authority's properties *)

(** C10. The authority implements its contract exactly: it accepts an action if
    and only if the state format and the context are valid and the action is
    allowed; an accepted action changes and hands out what the contract says, field
    by field, and nothing else; any other call changes nothing and returns no
    capability. In the contract the policy floor is the least version, not below
    the one before, that the window reaches back to from the committed frontier,
    and the read floor is the least version, not below the one before, that is at or
    above the policy floor or some active lease; the epochs count the actions that
    change what is protected and the leases, a clock step only if a lease runs out. *)
Theorem authority_exact c s a :
  let r := publication_apply s a c no_faults in
  (status r.2 = Accepted ↔
     format_version s = PUBLICATION_FORMAT_VERSION ∧ ctx_generation c ≠ 0%N ∧
     pos_index (ctx_position c) ≠ 0%N ∧ allowed c s a) ∧
  (status r.2 = Accepted → ∃ o, outcome r.2 = Some o ∧ carried_out c s a r.1 o) ∧
  (status r.2 ≠ Accepted → r.1 = s ∧ outcome r.2 = None).
Proof.
  intros r.
  assert (authority_ready c s ∧ guarded c s a ↔ format_version s = PUBLICATION_FORMAT_VERSION ∧
    ctx_generation c ≠ 0%N ∧ pos_index (ctx_position c) ≠ 0%N ∧ allowed c s a) as Hready.
  { rewrite allowed_guarded. unfold authority_ready, context_is_valid, position_is_valid.
    rewrite andb_true_iff, !negb_true_iff, !N.eqb_neq. tauto. }
  rewrite <-Hready. unfold r.
  destruct (publication_apply_exact c s a) as [(Hr & G & ->)|(Hn & Hst & Ho & Hs)].
  - split_and!; [done| |done]. intros _. eexists. split; [done|]. by apply effect_carried_out.
  - naive_solver.
Qed.

(** In every reachable state the collected, readable, policy and committed
    frontiers are ordered, every active lease reads at or above the readable
    floor and has not expired, at most one collection is outstanding and it ends
    between the collected and the readable frontier, and no prepared object has
    an outstanding delete permit. *)
Theorem authority_invariant s : authority_reachable s → authority_inv s.
Proof. apply authority_reachable_inv. Qed.

(** C21. A lease the authority validates keeps its snapshot: along every later
    run that does not release it and does not reach its deadline, it stays
    active with the same snapshot and object closure, and the collected and the
    readable frontier stay at or below that snapshot. *)
Theorem leased_snapshot_kept s token acts :
  authority_reachable s → validate_active_snapshot_lease s token = Ok tt →
  (∀ c e, (c, ReleaseLease (lt_lease_id token) e) ∉ acts) →
  let s' := run acts s in
  (lease_clock_tick s' < lt_deadline_tick token)%N →
  ∃ l, leases s' !! lt_lease_id token = Some l ∧ same_lease token l ∧
    validate_active_snapshot_lease s' l = Ok tt ∧
    (physically_collected_through s' ≤ minimum_readable_version s')%N ∧
    (minimum_readable_version s' ≤ lt_snapshot_version token)%N ∧
    (lt_snapshot_version token ≤ observed_commit_frontier s')%N.
Proof.
  intros Hr Hval Hrel s' Hclock. pose proof (authority_reachable_inv _ Hr) as I.
  assert (leases s !! lt_lease_id token = Some token) as Hl.
  { unfold validate_active_snapshot_lease in Hval.
    destruct (leases s !! _); case_guards; destruct_bool_hyps; congruence. }
  destruct (run_lease acts s _ _ I Hl Hrel Hclock) as (l & Hl' & Hsame).
  pose proof (authority_steps_inv _ _ (run_steps acts s) I) as I'. fold s' in I', Hl'.
  pose proof (inv_leases _ I' _ _ Hl') as []. destruct Hsame as [Hid Hsn ???].
  exists l. split_and!; [done|done| |apply I'|congruence|congruence].
  unfold validate_active_snapshot_lease. rewrite (inv_format _ I'), Hid, Hl'. simpl.
  rewrite bool_decide_true by done. simpl.
  by apply N.leb_gt in lease_ok_deadline as ->.
Qed.

(** C22. A delete permit is only issued against an unchanged protected set: if
    deletion of [key] is reserved with the root epoch read in an earlier state
    and that epoch is not saturated, then intents, roots, pins, leases and
    collection jobs are those of the earlier state, and none of its intents,
    leases or jobs names the key. *)
Theorem delete_permit_guard s s' c plan key identity :
  authority_reachable s → rtc authority_step s s' → (root_intent_epoch s < U64_MAX)%N →
  let a := ReserveDelete plan (root_intent_epoch s) key identity in
  status (publication_apply s' a c no_faults).2 = Accepted →
  protected s' = protected s ∧
  (∀ id i, intents s !! id = Some i → key ∉ intent_object_keys (prep_intent i)) ∧
  (∀ id l, leases s !! id = Some l → key ∉ closure_object_keys (lt_closure l)) ∧
  (∀ id j, collection_jobs s !! id = Some j → job_protects key j = false).
Proof.
  intros Hr Hs Hlt a Hst. pose proof (authority_reachable_inv _ Hr) as I.
  destruct (publication_apply_cases c s' a) as [(_ & G & _ & _)|(_ & Hno & _)]; [|done].
  destruct G as (_ & Hepoch & Hi & Hl & Hj & _).
  pose proof (steps_root_epoch _ _ I Hs (eq_sym Hepoch) Hlt) as Hp.
  split; [done|]. unfold protected in Hp. injection Hp as Ei _ _ El _ Ej.
  rewrite Ei in Hi. rewrite El in Hl. rewrite Ej in Hj. done.
Qed.

(** Along every run all frontiers, the lease clock and all epochs of the
    authority are monotone. *)
Theorem authority_monotone s s' :
  authority_reachable s → rtc authority_step s s' → forward s s'.
Proof. intros Hr. apply authority_steps_forward. by apply authority_reachable_inv. Qed.

(** Compare-and-publish: an accepted publication found the expected prior
    root and an intent prepared by the same generation for exactly this
    manifest; it moves that root only, consumes the intent, raises the root
    epoch, and cannot be accepted again. *)
Theorem publish_exactly_once s c id root expected m :
  let r := publication_apply s (Publish id root expected m) c no_faults in
  status r.2 = Accepted →
  roots s !! root = expected ∧
  (∃ i, intents s !! id =
     Some {| prep_owner_generation := ctx_generation c; prep_intent := i |} ∧
     intent_manifest i = m ∧ intent_expected_prior_root i = expected) ∧
  roots r.1 = <[root := m]> (roots s) ∧ intents r.1 = delete id (intents s) ∧
  pins r.1 = pins s ∧ leases r.1 = leases s ∧
  deletion_reservations r.1 = deletion_reservations s ∧
  root_intent_epoch r.1 = saturating_add (root_intent_epoch s) 1 ∧
  ∀ c' root' expected' m',
    status (publication_apply r.1 (Publish id root' expected' m') c' no_faults).2 ≠ Accepted.
Proof.
  intros r Hst. unfold r in *.
  destruct (publication_apply_cases c s (Publish id root expected m))
    as [(_ & (_ & (i & Hi & Hm & _ & He & _) & Hroot) & _ & E)|(_ & Hno & _)]; [|done].
  rewrite E. unfold effect, bump_root_epoch. simp_state.
  split_and!; try done; [by exists i|]. intros c' root' expected' m'.
  destruct (publication_apply_cases c' { s with
      roots := <[root:=m]> (roots s); intents := delete id (intents s);
      root_intent_epoch := saturating_add (root_intent_epoch s) 1;
      revision := ctx_position c } (Publish id root' expected' m'))
    as [(_ & (_ & (i' & Hi' & _) & _) & _)|(_ & Hno & _)]; [|done].
  simp_state. by rewrite lookup_delete_eq in Hi'.
Qed.

(** Publishing a collection is exclusive and safe: in a reachable state an
    accepted receipt advances the collected frontier, strictly, to the floor
    frozen when the job was prepared, which no active lease is below; it swaps
    the collection root from the job's input to the receipt's output and leaves
    no outstanding job, so that the same receipt cannot be accepted again. *)
Theorem collection_published_once s c receipt :
  authority_reachable s →
  let j := receipt_token receipt in
  let r := publication_apply s (PublishCollection receipt) c no_faults in
  status r.2 = Accepted →
  roots s !! job_destination_root j = Some (job_input_manifest j) ∧
  roots r.1 = <[job_destination_root j := receipt_output_manifest receipt]> (roots s) ∧
  (physically_collected_through s < physically_collected_through r.1)%N ∧
  physically_collected_through r.1 = job_frozen_floor j ∧
  (∀ id l, leases s !! id = Some l → (job_frozen_floor j ≤ lt_snapshot_version l)%N) ∧
  collection_jobs r.1 = ∅ ∧
  ∀ c', status (publication_apply r.1 (PublishCollection receipt) c' no_faults).2 ≠ Accepted.
Proof.
  intros Hr j r Hst. pose proof (authority_reachable_inv _ Hr) as I. unfold r in *.
  destruct (publication_apply_cases c s (PublishCollection receipt))
    as [(_ & (_ & _ & Hj & _ & _ & _ & _ & Hroot & _) & _ & E)|(_ & Hno & _)]; [|done].
  fold j in Hj, Hroot. rewrite E. unfold effect, bump_root_epoch. fold j. simp_state.
  pose proof (inv_jobs _ I _ _ Hj) as [_ _ _ Hlo Hhi].
  split_and!; try done.
  - intros id l Hl. apply (inv_leases _ I) in Hl as []. lia.
  - apply map_empty. intros id. apply eq_None_not_Some. intros [j' Hj'].
    apply lookup_delete_Some in Hj' as [Hne Hj']. by pose proof (inv_one_job _ I _ _ _ _ Hj Hj').
  - intros c'. match goal with |- status (publication_apply ?s1 _ _ _).2 ≠ _ =>
      destruct (publication_apply_cases c' s1 (PublishCollection receipt))
        as [(_ & (_ & _ & Hj' & _) & _)|(_ & Hno & _)]; [|done] end.
    fold j in Hj'. simp_state. by rewrite lookup_delete_eq in Hj'.
Qed.

(** A rejected command changes nothing and issues no capability, also for
    the fault-injected authorities of the negative controls. *)
Theorem rejected_unchanged s a c faults :
  let r := publication_apply s a c faults in
  status r.2 ≠ Accepted → r.1 = s ∧ outcome r.2 = None.
Proof.
  intros r. unfold r, publication_apply. case_guards; [done|].
  destruct (dispatch s a c faults) as [s' t] eqn:Hd.
  case_bool_decide; [done|]. simpl. intros _. revert Hd.
  destruct a; unfold dispatch, observe_committed_frontier, set_retention_window,
    observe_range_map_epoch, configure_collection_root, acquire_lease, renew_lease,
    release_lease, advance_lease_clock, prepare_collection, publish_collection,
    abandon_collection, prepare, publish, pin, unpin, reserve_delete, retire_delete,
    accept, reject; repeat (case_match; try (intros [= <- <-]; done)).
Qed.

(** ** A concrete run *)
Module demo_authority.
Definition at_index (i : N) : AuthorityContext :=
  {| ctx_generation := 7; ctx_position := {| pos_term := 1; pos_index := i |} |}.
Definition sha : string :=
  "0123456789abcdef0123456789abcdef0123456789abcdef0123456789abcdef".
Definition manifest (key : string) : ObjectReference :=
  {| ref_kind := Manifest; ref_key := key; ref_length := 10; ref_sha256 := sha |}.
Definition identity : ObjectIdentity :=
  {| id_revision := {| e_tag := Some "e1"; rev_version := None |}; id_length := 10;
     id_sha256 := sha |}.
Definition intent : PublicationIntent :=
  {| intent_object_keys := {["m1"; "o1"]}; intent_manifest := manifest "m1";
     intent_destination_root := "root"; intent_expected_prior_root := None |}.
Definition closure (key : string) : SnapshotClosure :=
  {| closure_manifest := manifest key; closure_object_keys := {[key]} |}.
Definition lease (key : string) : PublicationAction :=
  AcquireLease "l1" "tenant" 9 "reader" "scan" 5 (closure key).
Definition collect : PublicationAction :=
  PrepareCollection "job" 8 (manifest "m1") "root" 1 0 "out/".

(** The contexts number the actions of a run from 1. *)
Definition numbered (l : list PublicationAction) : list (AuthorityContext * PublicationAction) :=
  imap (λ i a, (at_index (N.of_nat i + 1), a)) l.

Definition setup : list PublicationAction :=
  [ObserveCommittedFrontier 10; SetRetentionWindow 0 2; ObserveRangeMapEpoch 1;
   Prepare "p1" intent; Publish "p1" "root" None (manifest "m1");
   ConfigureCollectionRoot None "root"].
Definition leased : PublicationAuthorityState :=
  run (numbered (setup ++ [lease "m1"])) PublicationAuthorityState_default.
Definition collecting : PublicationAuthorityState :=
  run (numbered (setup ++ [lease "m1"; collect])) PublicationAuthorityState_default.
Definition token (index : N) (key : string) : SnapshotLeaseToken :=
  {| lt_lease_id := "l1"; lt_tenant_id := "tenant"; lt_snapshot_version := 9;
     lt_lease_epoch := 1; lt_owner := "reader"; lt_purpose := "scan"; lt_deadline_tick := 5;
     lt_closure := closure key; lt_owner_generation := 7;
     lt_authority_position := {| pos_term := 1; pos_index := index |} |}.
Definition job : CollectionJobToken :=
  {| job_job_id := "job"; job_owner_generation := 7;
     job_authority_position := {| pos_term := 1; pos_index := 8 |}; job_frozen_floor := 8;
     job_input_manifest := manifest "m1"; job_destination_root := "root";
     job_range_map_epoch := 1; job_expected_collected_through := 0;
     job_output_namespace := "out/" |}.
Definition receipt : CollectionReceipt :=
  {| receipt_token := job; receipt_output_manifest := manifest "out/m2";
     receipt_object_keys := {["out/m2"]} |}.

Lemma run_reachable acts : authority_reachable (run acts PublicationAuthorityState_default).
Proof. apply run_steps. Qed.
End demo_authority.

(** The frontier moves to 40 with a window of 2, past a lease at 9. *)
Lemma authority_exact_witness :
  let r := publication_apply demo_authority.leased (ObserveCommittedFrontier 40)
             (demo_authority.at_index 8) no_faults in
  status r.2 = Accepted ∧ (policy_floor r.1 ≤ 38)%N ∧ ¬ (policy_floor r.1 ≤ 37)%N ∧
  (minimum_readable_version r.1 ≤ 9)%N ∧ ¬ (minimum_readable_version r.1 ≤ 8)%N.
Proof.
  intros r. destruct (authority_exact (demo_authority.at_index 8) demo_authority.leased
    (ObserveCommittedFrontier 40)) as (_ & Hdone & _). fold r in Hdone.
  assert (status r.2 = Accepted) as Hst by (vm_compute; reflexivity).
  destruct (Hdone Hst) as (o & _ & Hco). split; [exact Hst|].
  pose proof (co_floors _ _ _ _ _ Hco) as Hfl. rewrite (co_window _ _ _ _ _ Hco) in Hfl.
  change (retention_window demo_authority.leased) with (Some 2%N) in Hfl. cbn [sets_floor] in Hfl.
  rewrite (co_frontier _ _ _ _ _ Hco) in Hfl.
  change (policy_floor demo_authority.leased) with 8%N in Hfl.
  change (minimum_readable_version demo_authority.leased) with 8%N in Hfl.
  pose proof (Hfl 38%N) as [H38 _]. pose proof (Hfl 37%N) as [H37 _].
  pose proof (Hfl 9%N) as [_ H9]. pose proof (Hfl 8%N) as [_ H8]. split_and!.
  - apply H38. lia.
  - rewrite H37. lia.
  - apply H9. split; [lia|]. right. exists "l1", (demo_authority.token 7 "m1").
    split; [|cbn; lia]. apply (co_leases _ _ _ _ _ Hco). vm_compute. reflexivity.
  - rewrite H8. intros [_ [Hp|(id & l & Hl & Hle)]].
    + apply (N.le_trans _ _ 37) in Hp; [|lia]. apply H37 in Hp. lia.
    + apply (co_leases _ _ _ _ _ Hco) in Hl.
      change (leases demo_authority.leased !! id = Some l) in Hl.
      assert (leases demo_authority.leased = {["l1" := demo_authority.token 7 "m1"]}) as E
        by (vm_compute; reflexivity).
      rewrite E in Hl. apply lookup_singleton_Some in Hl as [_ <-]. cbn in Hle. lia.
Defined.

Lemma authority_invariant_witness :
  minimum_readable_version demo_authority.collecting = 8%N ∧
  authority_inv demo_authority.collecting.
Proof.
  split; [by vm_compute|]. apply authority_invariant, demo_authority.run_reachable.
Defined.

Lemma leased_snapshot_kept_witness :
  let s' := run [(demo_authority.at_index 8, ObserveCommittedFrontier 40)]
              demo_authority.leased in
  minimum_readable_version s' = 9%N ∧ policy_floor s' = 38%N ∧
  ∃ l, leases s' !! "l1" = Some l ∧ same_lease (demo_authority.token 7 "m1") l.
Proof.
  intros s'. split_and!; [by vm_compute..|].
  destruct (leased_snapshot_kept demo_authority.leased (demo_authority.token 7 "m1")
    [(demo_authority.at_index 8, ObserveCommittedFrontier 40)]) as (l & Hl & Hs & _).
  - apply demo_authority.run_reachable.
  - by vm_compute.
  - intros c e Hin. by apply list_elem_of_singleton in Hin as [=].
  - by vm_compute.
  - exists l. split; [exact Hl|exact Hs].
Defined.

Lemma delete_permit_guard_witness :
  let s' := run [(demo_authority.at_index 8, ObserveCommittedFrontier 40)]
              demo_authority.leased in
  protected s' = protected demo_authority.leased ∧
  "old" ∉ closure_object_keys (demo_authority.closure "m1").
Proof.
  intros s'.
  destruct (delete_permit_guard demo_authority.leased s' (demo_authority.at_index 9) "plan"
    "old" demo_authority.identity) as (Hp & _ & Hl & _).
  - apply demo_authority.run_reachable.
  - apply run_steps.
  - by vm_compute.
  - by vm_compute.
  - split; [exact Hp|]. apply (Hl "l1" (demo_authority.token 7 "m1")). by vm_compute.
Defined.

Lemma authority_monotone_witness :
  forward demo_authority.leased
    (run [(demo_authority.at_index 8, demo_authority.collect)] demo_authority.leased).
Proof.
  apply authority_monotone; [apply demo_authority.run_reachable|apply run_steps].
Defined.

Lemma publish_exactly_once_witness :
  let s := run (demo_authority.numbered (take 4 demo_authority.setup))
             PublicationAuthorityState_default in
  let r := publication_apply s (Publish "p1" "root" None (demo_authority.manifest "m1"))
             (demo_authority.at_index 5) no_faults in
  status r.2 = Accepted ∧ roots r.1 = <["root" := demo_authority.manifest "m1"]> (roots s).
Proof.
  intros s r. assert (status r.2 = Accepted) as Hst by (by vm_compute).
  split; [exact Hst|].
  apply (publish_exactly_once s) in Hst as (_ & _ & Hroots & _). exact Hroots.
Defined.

Lemma collection_published_once_witness :
  let r := publication_apply demo_authority.collecting
             (PublishCollection demo_authority.receipt) (demo_authority.at_index 9) no_faults in
  status r.2 = Accepted ∧ physically_collected_through r.1 = 8%N.
Proof.
  intros r. assert (status r.2 = Accepted) as Hst by (by vm_compute).
  split; [exact Hst|].
  apply (collection_published_once demo_authority.collecting) in Hst
    as (_ & _ & _ & Hg & _); [exact Hg|]. apply demo_authority.run_reachable.
Defined.

Lemma rejected_unchanged_witness :
  let r := publication_apply demo_authority.leased (demo_authority.lease "m1")
             (demo_authority.at_index 9) no_faults in
  status r.2 = LeaseExists ∧ r.1 = demo_authority.leased.
Proof.
  intros r. split; [by vm_compute|].
  apply (rejected_unchanged demo_authority.leased). by vm_compute.
Defined.

(** Unlike [Prepare], [AcquireLease] does not consult the deletion
    reservations: there is a run in which the deletion of an object is reserved,
    a lease whose closure names that object is then admitted and validates, and
    the delete permit is still outstanding. *)
Theorem lease_over_reserved_object :
  ∃ acts token key permit,
    let s := run acts PublicationAuthorityState_default in
    validate_active_snapshot_lease s token = Ok tt ∧
    key ∈ closure_object_keys (lt_closure token) ∧
    deletion_reservations s !! key = Some permit.
Proof.
  exists (demo_authority.numbered (demo_authority.setup ++
    [ReserveDelete "plan" 3 "old" demo_authority.identity; demo_authority.lease "old"])).
  exists (demo_authority.token 8 "old"), "old", (DeletePermit_new "old" demo_authority.identity "plan"
    (demo_authority.at_index 7)).
  cbv zeta. split_and!; [by vm_compute|simpl; by apply elem_of_singleton|by vm_compute].
Qed.
