(* ===== verification/Journal.v ===== *)
(** * The per-node stable journal

    [okv-wal/src/node_journal.rs]: an append-only file of checksummed records
    from which a consensus node's vote, committed id, purge marker and log
    entries are rebuilt. The file is its byte string; [persist_batch] takes how
    the disk answers, so that a write that fails part-way and a crash are both
    states of the model. SHA-256 is a parameter of which only the digest length
    is used. *)

From S2P Require Import Prelude Order BTree Bytes.

Definition JOURNAL_MAGIC : bytes := string_bytes "OKVR".
Definition JOURNAL_VERSION : N := 1.
Definition JOURNAL_HEADER_BYTES : nat := 4 + 2 + 1 + 1 + 4.
Definition JOURNAL_CHECKSUM_BYTES : nat := 32.
Definition MAX_RECORD_BODY_BYTES : N := 64 * 1024 * 1024.

Definition KIND_VOTE : N := 1.
Definition KIND_COMMITTED : N := 2.
Definition KIND_APPEND : N := 3.
Definition KIND_TRUNCATE : N := 4.
Definition KIND_PURGE : N := 5.
Definition FLAG_NONE : N := 0.
Definition FLAG_SOME : N := 1.

(** ** Data *)
Record JournalMarker := { marker_index : N; marker_payload : bytes }.
#[global] Instance JournalMarker_eq_dec : EqDecision JournalMarker.
Proof. solve_decision. Defined.

Record JournalState := {
  js_vote : option bytes;
  js_committed : option bytes;
  js_last_purged : option JournalMarker;
  js_entries : gmap N bytes;
}.
Definition JournalState_default : JournalState :=
  {| js_vote := None; js_committed := None; js_last_purged := None; js_entries := ∅ |}.

Definition last_entry (st : JournalState) : option (N * bytes) := bt_last (js_entries st).

(** [entries(range)] for a range given by its membership test. *)
Definition entries_in (st : JournalState) (range : N → bool) : list (N * bytes) :=
  bt_range range (js_entries st).

Inductive JournalError :=
  | Io
  | PayloadTooLarge (length : N)
  | CorruptFrame (offset : N)
  | InvalidRecord (reason : string)
  | NonConsecutive (expected actual : N)
  | TruncatePurged (from purged : N)
  | PurgeRegression (current proposed : N).

Inductive JRecord :=
  | RVote (payload : bytes)
  | RCommitted (payload : option bytes)
  | RAppend (index : N) (payload : bytes)
  | RTruncate (from : N)
  | RPurge (marker : JournalMarker).

(** ** The meaning of a record *)
Fixpoint validate_entries (expected : option N) (entries : list (N * bytes))
    : res JournalError unit :=
  match entries with
  | [] => Ok tt
  | (index, payload) :: entries =>
      if (MAX_RECORD_BODY_BYTES <? saturating_add (len payload) 8)%N then
        Err (PayloadTooLarge (len payload))
      else
        match expected with
        | Some want =>
            if negb (index =? want)%N then Err (NonConsecutive want index)
            else validate_entries (Some (saturating_add index 1)) entries
        | None => validate_entries (Some (saturating_add index 1)) entries
        end
  end.

(** The index the next entry must have, when any is fixed. *)
Definition next_expected (st : JournalState) : option N :=
  match last_entry st with
  | Some (index, _) => Some (saturating_add index 1)
  | None =>
      match js_last_purged st with
      | Some marker => Some (saturating_add (marker_index marker) 1)
      | None => None
      end
  end.

Definition validate_append (st : JournalState) (entries : list (N * bytes))
    : res JournalError unit :=
  validate_entries (next_expected st) entries.

(** Removing the collected keys of a range one by one. *)
Definition remove_range (range : N → bool) (m : gmap N bytes) : gmap N bytes :=
  foldl (λ m index, delete index m) m (bt_range range m).*1.

Definition apply_record (st : JournalState) (record : JRecord)
    : res JournalError JournalState :=
  match record with
  | RVote payload =>
      Ok {| js_vote := Some payload; js_committed := js_committed st;
            js_last_purged := js_last_purged st; js_entries := js_entries st |}
  | RCommitted payload =>
      Ok {| js_vote := js_vote st; js_committed := payload;
            js_last_purged := js_last_purged st; js_entries := js_entries st |}
  | RAppend index payload =>
      let? _ := validate_append st [(index, payload)] in
      Ok {| js_vote := js_vote st; js_committed := js_committed st;
            js_last_purged := js_last_purged st;
            js_entries := <[index := payload]> (js_entries st) |}
  | RTruncate from =>
      let truncated :=
        {| js_vote := js_vote st; js_committed := js_committed st;
           js_last_purged := js_last_purged st;
           js_entries := remove_range (λ i, (from <=? i)%N) (js_entries st) |} in
      match js_last_purged st with
      | Some purged =>
          if (from <=? marker_index purged)%N
          then Err (TruncatePurged from (marker_index purged))
          else Ok truncated
      | None => Ok truncated
      end
  | RPurge marker =>
      let purged :=
        {| js_vote := js_vote st; js_committed := js_committed st;
           js_last_purged := Some marker;
           js_entries := remove_range (λ i, (i <=? marker_index marker)%N) (js_entries st) |} in
      match js_last_purged st with
      | Some current =>
          if (marker_index marker <? marker_index current)%N
          then Err (PurgeRegression (marker_index current) (marker_index marker))
          else if (marker_index marker =? marker_index current)%N
                  && negb (bool_decide (marker_payload marker = marker_payload current))
          then Err (InvalidRecord "purge marker changed at the same index")
          else Ok purged
      | None => Ok purged
      end
  end.

Definition apply_records (st : JournalState) (records : list JRecord)
    : res JournalError JournalState := res_fold apply_record records st.

(** ** The record codec *)
Definition decode_record (kind flags : N) (body : bytes) : option JRecord :=
  if ((kind =? KIND_VOTE) && (flags =? FLAG_SOME))%N && negb (bool_decide (body = [])) then
    Some (RVote body)
  else if ((kind =? KIND_COMMITTED) && (flags =? FLAG_NONE))%N && bool_decide (body = []) then
    Some (RCommitted None)
  else if ((kind =? KIND_COMMITTED) && (flags =? FLAG_SOME))%N
          && negb (bool_decide (body = [])) then
    Some (RCommitted (Some body))
  else if ((kind =? KIND_APPEND) && (flags =? FLAG_NONE))%N && (8 <=? length body) then
    Some (RAppend (of_be (take 8 body)) (drop 8 body))
  else if ((kind =? KIND_TRUNCATE) && (flags =? FLAG_NONE))%N && (length body =? 8) then
    Some (RTruncate (of_be body))
  else if ((kind =? KIND_PURGE) && (flags =? FLAG_NONE))%N && (8 <? length body) then
    Some (RPurge {| marker_index := of_be (take 8 body); marker_payload := drop 8 body |})
  else None.

Definition record_parts (record : JRecord) : N * N * bytes :=
  match record with
  | RVote payload => (KIND_VOTE, FLAG_SOME, payload)
  | RCommitted (Some payload) => (KIND_COMMITTED, FLAG_SOME, payload)
  | RCommitted None => (KIND_COMMITTED, FLAG_NONE, [])
  | RAppend index payload => (KIND_APPEND, FLAG_NONE, u64_be index ++ payload)
  | RTruncate from => (KIND_TRUNCATE, FLAG_NONE, u64_be from)
  | RPurge marker =>
      (KIND_PURGE, FLAG_NONE, u64_be (marker_index marker) ++ marker_payload marker)
  end.

(** [Vec] bytes before the checksum. *)
Definition frame_prefix (kind flags : N) (body : bytes) : bytes :=
  JOURNAL_MAGIC ++ u16_be JOURNAL_VERSION ++ [kind; flags] ++ u32_be (len body) ++ body.

Section journal.
Context (sha256 : bytes → bytes).

Definition encode_record (record : JRecord) : res JournalError bytes :=
  let '(kind, flags, body) := record_parts record in
  if (MAX_RECORD_BODY_BYTES <? len body)%N || (U32_MAX <? len body)%N then
    Err (PayloadTooLarge (len body))
  else
    let frame := frame_prefix kind flags body in
    Ok (frame ++ sha256 frame).

(** What the loop of [replay] finds at the start of the unread bytes. *)
Inductive frame_result :=
  | FrameTorn
  | FrameCorrupt
  | FrameRecord (record : JRecord) (frame_len : nat).

Definition read_frame (rest : bytes) : frame_result :=
  if length rest <? JOURNAL_HEADER_BYTES then FrameTorn
  else
    let header := slice 0 JOURNAL_HEADER_BYTES rest in
    if negb (bool_decide (slice 0 4 header = JOURNAL_MAGIC))
       || negb (of_be (slice 4 6 header) =? JOURNAL_VERSION)%N then FrameCorrupt
    else
      let body_len := of_be (slice 8 12 header) in
      if (MAX_RECORD_BODY_BYTES <? body_len)%N then FrameCorrupt
      else
        let frame_len :=
          (N.of_nat JOURNAL_HEADER_BYTES + body_len + N.of_nat JOURNAL_CHECKSUM_BYTES)%N in
        if (len rest <? frame_len)%N then FrameTorn
        else
          let frame_len := N.to_nat frame_len in
          let frame := slice 0 frame_len rest in
          let checksum_offset := frame_len - JOURNAL_CHECKSUM_BYTES in
          if negb (bool_decide (sha256 (take checksum_offset frame) = drop checksum_offset frame))
          then FrameCorrupt
          else
            match decode_record (nth 6 header 0%N) (nth 7 header 0%N)
                    (slice JOURNAL_HEADER_BYTES checksum_offset frame) with
            | Some record => FrameRecord record frame_len
            | None => FrameCorrupt
            end.

(** The loop of [replay]. A frame has at least 44 bytes, so [length bytes]
    iterations are enough; running out of fuel is reported as [Panic]. *)
Fixpoint replay_loop (fuel : nat) (bs : bytes) (st : JournalState) (offset : nat)
    : res JournalError (JournalState * nat * bool) :=
  if negb (offset <? length bs) then Ok (st, offset, false)
  else
    match fuel with
    | O => Panic
    | S fuel =>
        match read_frame (drop offset bs) with
        | FrameTorn => Ok (st, offset, true)
        | FrameCorrupt => Err (CorruptFrame (N.of_nat offset))
        | FrameRecord record frame_len =>
            let? st' := apply_record st record in
            replay_loop fuel bs st' (offset + frame_len)
        end
    end.

Definition replay (bs : bytes) : res JournalError (JournalState * nat * bool) :=
  replay_loop (length bs) bs JournalState_default 0.

(** ** The journal file *)
Record NodeJournal := {
  nj_file : bytes;
  nj_state : JournalState;
  nj_recovered_torn_tail : bool;
}.

(** [NodeJournal::open] on a directory whose journal holds [file] (a missing
    file is created empty). *)
Definition open (file : bytes) : res JournalError NodeJournal :=
  let? '(st, valid_bytes, torn) := replay file in
  Ok {| nj_file := if torn then take valid_bytes file else file;
        nj_state := st; nj_recovered_torn_tail := torn |}.

(** How the writes and the [sync_all] of one batch end: [None] when all
    succeed, [Some n] when an error is returned with [n] bytes in the file. *)
Abbreviation disk := (option nat) (only parsing).

Definition persist_batch (j : NodeJournal) (records : list JRecord) (d : disk)
    : NodeJournal * res JournalError unit :=
  match apply_records (nj_state j) records, res_collect encode_record records with
  | Ok next, Ok frames =>
      match d with
      | None => ({| nj_file := nj_file j ++ mjoin frames; nj_state := next;
                    nj_recovered_torn_tail := false |}, Ok tt)
      | Some n => ({| nj_file := nj_file j ++ take n (mjoin frames); nj_state := nj_state j;
                      nj_recovered_torn_tail := nj_recovered_torn_tail j |}, Err Io)
      end
  | Err e, _ => (j, Err e)
  | Ok _, Err e => (j, Err e)
  | _, _ => (j, Panic)
  end.

Definition save_vote (j : NodeJournal) (payload : bytes) (d : disk) :=
  persist_batch j [RVote payload] d.
Definition save_committed (j : NodeJournal) (payload : option bytes) (d : disk) :=
  persist_batch j [RCommitted payload] d.
Definition truncate (j : NodeJournal) (from : N) (d : disk) :=
  persist_batch j [RTruncate from] d.
Definition purge (j : NodeJournal) (marker : JournalMarker) (d : disk) :=
  persist_batch j [RPurge marker] d.

(** ** Planning an append *)

(** The entries after the purged prefix. *)
Definition live_entries (st : JournalState) (entries : list (N * bytes)) : list (N * bytes) :=
  match js_last_purged st with
  | Some purged =>
      drop (partition_point (λ e, (e.1 <=? marker_index purged)%N) entries) entries
  | None => entries
  end.

(** The batch starts at [expected] and counts up by one. *)
Fixpoint check_batch (expected : N) (entries : list (N * bytes)) : res JournalError unit :=
  match entries with
  | [] => Ok tt
  | (index, payload) :: entries =>
      if negb (index =? expected)%N then Err (NonConsecutive expected index)
      else if (MAX_RECORD_BODY_BYTES <? saturating_add (len payload) 8)%N then
        Err (PayloadTooLarge (len payload))
      else check_batch (saturating_add expected 1) entries
  end.

Definition plan_prefix (st : JournalState) (first : N) : res JournalError (list JRecord) :=
  match last_entry st with
  | Some (last, _) =>
      if (first <=? last)%N then Ok [RTruncate first]
      else
        let wanted := saturating_add last 1 in
        if negb (first =? wanted)%N then Err (NonConsecutive wanted first) else Ok []
  | None =>
      match js_last_purged st with
      | Some purged =>
          let wanted := saturating_add (marker_index purged) 1 in
          if negb (first =? wanted)%N then Err (NonConsecutive wanted first) else Ok []
      | None => Ok []
      end
  end.

Definition plan_append (st : JournalState) (entries : list (N * bytes))
    : res JournalError (list JRecord) :=
  match live_entries st entries with
  | [] => Ok []
  | (first, payload) :: rest =>
      let entries := (first, payload) :: rest in
      let? _ := check_batch first entries in
      let? prefix := plan_prefix st first in
      Ok (prefix ++ ((λ e, RAppend e.1 e.2) <$> entries))
  end.

Definition append (j : NodeJournal) (entries : list (N * bytes)) (d : disk)
    : NodeJournal * res JournalError unit :=
  match entries with
  | [] => (j, Ok tt)
  | _ :: _ =>
      match plan_append (nj_state j) entries with
      | Ok records => persist_batch j records d
      | Err e => (j, Err e)
      | Panic => (j, Panic)
      end
  end.
End journal.
