(* ===== verification/JournalCodec.v ===== *)
(** * The journal codec and recovery

    Round trip of a record through its frame, soundness of [read_frame], and
    the run of [replay] over written frames, whole and torn. *)

From S2P Require Import Prelude Order BTree Bytes Journal.

(** The records [encode_record] writes and [decode_record] reads back: integers
    fit their width, and the payloads a body stands for alone are not empty. *)
Definition record_ok (r : JRecord) : Prop :=
  match r with
  | RVote p => p ≠ []
  | RCommitted (Some p) => p ≠ []
  | RCommitted None => True
  | RAppend i _ => u64_wf i
  | RTruncate i => u64_wf i
  | RPurge m => u64_wf (marker_index m) ∧ marker_payload m ≠ []
  end.

(** The records a caller can pass: integers of their width. Of those, a vote, a
    committed id or a purge marker without a payload cannot be read back. *)
Definition record_wf (r : JRecord) : Prop :=
  match r with
  | RAppend i _ | RTruncate i => u64_wf i
  | RPurge m => u64_wf (marker_index m)
  | _ => True
  end.
Definition unreadable (r : JRecord) : bool :=
  match r with
  | RVote p | RCommitted (Some p) => bool_decide (p = [])
  | RPurge m => bool_decide (marker_payload m = [])
  | _ => false
  end.

Lemma record_ok_split r : record_ok r ↔ record_wf r ∧ unreadable r = false.
Proof.
  destruct r as [p|[p|]|i p|i|[i p]]; cbn; rewrite ?bool_decide_eq_false; naive_solver.
Qed.

Lemma decode_unreadable r :
  unreadable r = true → let '(k, f, b) := record_parts r in decode_record k f b = None.
Proof.
  destruct r as [p|[p|]|i p|i|[i p]]; cbn; try done; rewrite bool_decide_eq_true; by intros ->.
Qed.

Lemma take_u64_app v l : take 8 (u64_be v ++ l) = u64_be v.
Proof. rewrite take_app_le by (by rewrite length_u64_be). by rewrite firstn_all2. Qed.
Lemma drop_u64_app v l : drop 8 (u64_be v ++ l) = l.
Proof. by rewrite drop_app_length' by (by rewrite length_u64_be). Qed.

Lemma decode_record_parts r :
  record_ok r → let '(k, f, b) := record_parts r in decode_record k f b = Some r.
Proof.
  destruct r as [p|[p|]|i p|i|[i p]]; unfold decode_record;
    cbn -[Nat.leb Nat.ltb Nat.eqb take drop app].
  - intros Hp. by rewrite bool_decide_false.
  - intros Hp. by rewrite bool_decide_false.
  - done.
  - intros Hi. rewrite length_app, length_u64_be, (proj2 (Nat.leb_le _ _)) by lia.
    by rewrite take_u64_app, drop_u64_app, of_u64_be.
  - intros Hi. rewrite length_u64_be. by rewrite of_u64_be.
  - intros [Hi Hp]. rewrite length_app, length_u64_be, (proj2 (Nat.ltb_lt _ _)).
    + by rewrite take_u64_app, drop_u64_app, of_u64_be.
    + destruct p; [done|simpl; lia].
Qed.

Lemma u64_be_of_be l : bytes_wf l → length l = 8 → u64_be (of_be l) = l.
Proof. intros Hl Hlen. by apply be_of_be_len. Qed.

Lemma of_be_u64 l : length l = 8 → bytes_wf l → u64_wf (of_be l).
Proof. intros Hlen Hl. apply u64_wf_pow. rewrite <-Hlen. by apply of_be_bound. Qed.

(** Decoding inverts the record's parts: the body is the only one that yields it. *)
Lemma decode_record_inv k f b r :
  bytes_wf b → decode_record k f b = Some r → record_parts r = (k, f, b) ∧ record_ok r.
Proof.
  intros Hb. unfold decode_record.
  repeat match goal with
  | |- (if ?c then _ else _) = _ → _ => destruct c eqn:?
  end; intros [= <-];
  repeat match goal with H : _ = false |- _ => clear H end;
  destruct_bool_hyps; subst; try done;
  cbn [record_parts record_ok marker_index marker_payload].
  - match goal with H : (8 <=? _) = true |- _ => apply Nat.leb_le in H end.
    rewrite u64_be_of_be, take_drop by (auto using Forall_take; by rewrite length_take_le).
    split; [done|]. apply of_be_u64. by rewrite length_take_le.
    by apply Forall_take.
  - match goal with H : (_ =? 8) = true |- _ => apply Nat.eqb_eq in H end.
    rewrite u64_be_of_be by done. split; [done|]. by apply of_be_u64.
  - match goal with H : (8 <? _) = true |- _ => apply Nat.ltb_lt in H end.
    rewrite u64_be_of_be, take_drop
      by (auto using Forall_take; rewrite length_take_le; lia).
    split; [done|]. split; [apply of_be_u64; [rewrite length_take_le; lia|by apply Forall_take]|].
    intros Hnil. apply (f_equal length) in Hnil. rewrite length_drop in Hnil. simpl in Hnil. lia.
Qed.

(** ** Frames *)
Lemma length_frame_prefix k f b : length (frame_prefix k f b) = 12 + length b.
Proof. unfold frame_prefix. autorewrite with len_simpl. done. Qed.

Section frames.
Context (sha256 : bytes → bytes) (sha256_len : ∀ b, length (sha256 b) = 32).

Definition frame_of (k f : N) (b : bytes) : bytes :=
  frame_prefix k f b ++ sha256 (frame_prefix k f b).

Lemma length_frame_of k f b : length (frame_of k f b) = 44 + length b.
Proof. unfold frame_of. rewrite length_app, length_frame_prefix, sha256_len. lia. Qed.

Definition header_of (k f : N) (b : bytes) : bytes :=
  JOURNAL_MAGIC ++ u16_be JOURNAL_VERSION ++ [k; f] ++ u32_be (len b).

Lemma frame_header k f b : frame_prefix k f b = header_of k f b ++ b.
Proof. unfold frame_prefix, header_of. by rewrite <-!app_assoc. Qed.

Lemma length_header_of k f b : length (header_of k f b) = 12.
Proof. unfold header_of. autorewrite with len_simpl. done. Qed.

Lemma header_fields k f b :
  (len b ≤ MAX_RECORD_BODY_BYTES)%N →
  let h := header_of k f b in
  slice 0 4 h = JOURNAL_MAGIC ∧ of_be (slice 4 6 h) = JOURNAL_VERSION ∧
  nth 6 h 0%N = k ∧ nth 7 h 0%N = f ∧ of_be (slice 8 12 h) = len b.
Proof.
  intros Hb h. unfold h, header_of. split_and!; [done..|].
  replace (slice 8 12 _) with (u32_be (len b)).
  2: { symmetry. rewrite !app_assoc, <-(app_nil_r (_ ++ u32_be _)), <-app_assoc.
       by apply slice_app_at; autorewrite with len_simpl. }
  apply of_be_be. unfold MAX_RECORD_BODY_BYTES in Hb.
  change (256 ^ N.of_nat 4)%N with 4294967296%N. lia.
Qed.

Lemma read_frame_of k f b rest :
  (len b ≤ MAX_RECORD_BODY_BYTES)%N →
  read_frame sha256 (frame_of k f b ++ rest) =
    match decode_record k f b with
    | Some r => FrameRecord r (length (frame_of k f b))
    | None => FrameCorrupt
    end.
Proof.
  intros Hb. unfold read_frame.
  rewrite (proj2 (Nat.ltb_ge _ _)).
  2: { rewrite length_app, length_frame_of. unfold JOURNAL_HEADER_BYTES. lia. }
  assert (slice 0 JOURNAL_HEADER_BYTES (frame_of k f b ++ rest) = header_of k f b) as ->.
  { unfold frame_of. rewrite frame_header, <-!app_assoc.
    apply slice_0_app, length_header_of. }
  destruct (header_fields k f b Hb) as (-> & -> & -> & -> & ->).
  rewrite bool_decide_true by done. cbn [negb orb].
  rewrite (proj2 (N.ltb_ge _ _)) by done.
  assert (N.of_nat JOURNAL_HEADER_BYTES + len b + N.of_nat JOURNAL_CHECKSUM_BYTES
    = len (frame_of k f b))%N as ->.
  { unfold len. rewrite length_frame_of. unfold JOURNAL_HEADER_BYTES, JOURNAL_CHECKSUM_BYTES. lia. }
  rewrite (proj2 (N.ltb_ge _ _)) by (unfold len; rewrite length_app; lia).
  unfold len. rewrite Nat2N.id.
  rewrite slice_0_app by done.
  assert (length (frame_of k f b) - JOURNAL_CHECKSUM_BYTES = length (frame_prefix k f b)) as ->.
  { rewrite length_frame_of, length_frame_prefix. unfold JOURNAL_CHECKSUM_BYTES. lia. }
  rewrite bool_decide_true.
  2: { unfold frame_of. by rewrite take_app_length, drop_app_length. }
  assert (slice JOURNAL_HEADER_BYTES (length (frame_prefix k f b)) (frame_of k f b) = b) as ->.
  { unfold frame_of. rewrite frame_header, <-app_assoc.
    apply slice_app_at; [apply length_header_of|]. by rewrite length_app, length_header_of. }
  done.
Qed.

(** A proper prefix of a frame is torn, wherever it ends. *)
Lemma read_frame_torn k f b n :
  (len b ≤ MAX_RECORD_BODY_BYTES)%N → n < length (frame_of k f b) →
  read_frame sha256 (take n (frame_of k f b)) = FrameTorn.
Proof.
  intros Hb Hn. unfold read_frame.
  destruct (_ <? JOURNAL_HEADER_BYTES) eqn:Hlt; [done|].
  apply Nat.ltb_ge in Hlt. rewrite length_take_le in Hlt by lia.
  assert (slice 0 JOURNAL_HEADER_BYTES (take n (frame_of k f b)) = header_of k f b) as ->.
  { unfold slice. rewrite drop_0, take_take, Nat.min_l by (unfold JOURNAL_HEADER_BYTES in *; lia).
    unfold frame_of. rewrite frame_header, <-app_assoc.
    rewrite Nat.sub_0_r. apply take_app_length'. by rewrite length_header_of. }
  destruct (header_fields k f b Hb) as (-> & -> & _ & _ & ->).
  rewrite bool_decide_true by done. cbn [negb orb].
  rewrite (proj2 (N.ltb_ge _ _)) by done.
  rewrite (proj2 (N.ltb_lt _ _)); [done|].
  unfold len. rewrite length_take_le by lia. rewrite length_frame_of in Hn.
  unfold JOURNAL_HEADER_BYTES, JOURNAL_CHECKSUM_BYTES. lia.
Qed.

Lemma header_of_fields h b :
  bytes_wf h → length h = 12 → slice 0 4 h = JOURNAL_MAGIC →
  of_be (slice 4 6 h) = JOURNAL_VERSION → of_be (slice 8 12 h) = len b →
  h = header_of (nth 6 h 0%N) (nth 7 h 0%N) b.
Proof.
  intros Hwf Hlen Hmagic Hver Hb. unfold header_of. rewrite <-Hmagic, <-Hver, <-Hb.
  unfold u16_be, u32_be.
  rewrite !be_of_be_len; try by apply slice_wf.
  - do 12 (destruct h as [|? h]; [done|]). by destruct h.
  - rewrite length_slice; lia.
  - rewrite length_slice; lia.
Qed.

(** Whatever [read_frame] accepts is the frame of the record it returns. *)
Lemma read_frame_inv rest r n :
  bytes_wf rest → read_frame sha256 rest = FrameRecord r n →
  ∃ k f b, rest = frame_of k f b ++ drop n rest ∧ n = length (frame_of k f b) ∧
    (len b ≤ MAX_RECORD_BODY_BYTES)%N ∧ decode_record k f b = Some r.
Proof.
  intros Hwf. unfold read_frame.
  destruct (_ <? JOURNAL_HEADER_BYTES) eqn:Hlt; [done|]. apply Nat.ltb_ge in Hlt.
  set (h := slice 0 JOURNAL_HEADER_BYTES rest).
  destruct (_ || _) eqn:Hor; [done|]. destruct_bool_hyps.
  destruct (MAX_RECORD_BODY_BYTES <? _)%N eqn:Hmax; [done|]. apply N.ltb_ge in Hmax.
  set (body_len := of_be (slice 8 12 h)) in *.
  destruct (len rest <? _)%N eqn:Hrem; [done|]. apply N.ltb_ge in Hrem.
  set (m := N.to_nat _).
  assert (m = 44 + N.to_nat body_len ∧ m ≤ length rest) as [Hm Hmr].
  { unfold m, len, JOURNAL_HEADER_BYTES, JOURNAL_CHECKSUM_BYTES in *. lia. }
  destruct (negb _) eqn:Hsum; [done|]. destruct_bool_hyps.
  set (b := slice JOURNAL_HEADER_BYTES (m - JOURNAL_CHECKSUM_BYTES) (slice 0 m rest)).
  destruct (decode_record _ _ b) as [r'|] eqn:Hdec; [|done]. intros [= -> <-].
  unfold JOURNAL_CHECKSUM_BYTES, JOURNAL_HEADER_BYTES in *.
  assert (length (slice 0 m rest) = m) as Hlm by (rewrite length_slice; lia).
  assert (len b = body_len) as Hlb.
  { unfold b, len. rewrite length_slice by lia. lia. }
  exists (nth 6 h 0%N), (nth 7 h 0%N), b.
  assert (h = header_of (nth 6 h 0%N) (nth 7 h 0%N) b) as Hh.
  { apply header_of_fields; [by apply slice_wf| |done..].
    unfold h. rewrite length_slice by lia. lia. }
  assert (take (m - 32) (slice 0 m rest) = frame_prefix (nth 6 h 0%N) (nth 7 h 0%N) b) as Hpre.
  { rewrite frame_header, <-Hh. unfold h, b. rewrite !slice_0.
    rewrite <-(slice_join 12 (m - 32)) by lia. by rewrite take_take, Nat.min_l by lia. }
  split_and!; [| |by rewrite Hlb|done].
  - rewrite <-(take_drop m rest) at 1. f_equal. unfold frame_of. rewrite <-Hpre.
    match goal with H : sha256 _ = drop _ _ |- _ => rewrite H end.
    by rewrite take_drop, slice_0.
  - rewrite length_frame_of. unfold len in Hlb. lia.
Qed.

Lemma encode_record_frame r fr :
  encode_record sha256 r = Ok fr ↔
  let '(k, f, b) := record_parts r in
  fr = frame_of k f b ∧ (len b ≤ MAX_RECORD_BODY_BYTES)%N.
Proof.
  unfold encode_record. destruct (record_parts r) as [[k f] b].
  destruct (_ || _) eqn:Hor; destruct_bool_hyps; split; try done.
  - intros [_ Hle]. lia.
  - intros [_ Hle]. unfold MAX_RECORD_BODY_BYTES, U32_MAX in *. lia.
  - by intros [= <-].
  - by intros [-> _].
Qed.

(** Round trip of one record, with the unread bytes after it. *)
Lemma read_encoded r fr rest :
  record_ok r → encode_record sha256 r = Ok fr →
  read_frame sha256 (fr ++ rest) = FrameRecord r (length fr).
Proof.
  intros Hok. rewrite encode_record_frame. pose proof (decode_record_parts r Hok) as Hdec.
  destruct (record_parts r) as [[k f] b]. intros [-> Hb]. by rewrite read_frame_of, Hdec.
Qed.

Lemma read_unreadable r fr rest :
  unreadable r = true → encode_record sha256 r = Ok fr → read_frame sha256 (fr ++ rest) = FrameCorrupt.
Proof.
  intros Hr. rewrite encode_record_frame. pose proof (decode_unreadable r Hr) as Hdec.
  destruct (record_parts r) as [[k f] b]. intros [-> Hb]. by rewrite read_frame_of, Hdec.
Qed.

Lemma read_encoded_torn r fr n :
  encode_record sha256 r = Ok fr → n < length fr →
  read_frame sha256 (take n fr) = FrameTorn.
Proof.
  rewrite encode_record_frame. destruct (record_parts r) as [[k f] b].
  intros [-> Hb] Hn. by apply read_frame_torn.
Qed.

Lemma encoded_length r fr : encode_record sha256 r = Ok fr → 44 ≤ length fr.
Proof.
  rewrite encode_record_frame. destruct (record_parts r) as [[k f] b].
  intros [-> _]. rewrite length_frame_of. lia.
Qed.

(** Whatever [read_frame] accepts is the encoding of the record it returns. *)
Lemma read_frame_sound rest r n :
  bytes_wf rest → read_frame sha256 rest = FrameRecord r n →
  ∃ fr, encode_record sha256 r = Ok fr ∧ record_ok r ∧ n = length fr ∧
    rest = fr ++ drop n rest.
Proof.
  intros Hwf Hread. destruct (read_frame_inv _ _ _ Hwf Hread) as (k & f & b & Hrest & -> & Hb & Hdec).
  apply decode_record_inv in Hdec as [Hparts Hok].
  - exists (frame_of k f b). split_and!; try done. apply encode_record_frame. by rewrite Hparts.
  - rewrite Hrest in Hwf. apply Forall_app in Hwf as [Hwf _].
    unfold frame_of in Hwf. rewrite frame_header, <-app_assoc in Hwf.
    by apply Forall_app in Hwf as [_ [Hwf _]%Forall_app].
Qed.

(** ** Replay *)
Abbreviation encode_all := (res_collect (encode_record sha256)).

Lemma encode_all_app rs1 rs2 fs1 fs2 :
  encode_all rs1 = Ok fs1 → encode_all rs2 = Ok fs2 → encode_all (rs1 ++ rs2) = Ok (fs1 ++ fs2).
Proof.
  revert fs1. induction rs1 as [|r rs IH]; intros fs1; simpl; [by intros [= <-]|].
  intros H1 H2. inv_bind H1. inv_bind H1. injection H1 as <-.
  rewrite Hbind. simpl. by erewrite IH by done.
Qed.

Lemma encode_all_take rs fs n : encode_all rs = Ok fs → encode_all (take n rs) = Ok (take n fs).
Proof.
  revert fs n. induction rs as [|r rs IH]; intros fs n; simpl.
  { intros [= <-]. by rewrite !take_nil. }
  intros H. inv_bind H. inv_bind H. injection H as <-. destruct n as [|n]; [done|].
  simpl. rewrite Hbind. simpl. by rewrite (IH _ n Hbind0).
Qed.

Lemma replay_loop_end fuel bs st : replay_loop sha256 fuel bs st (length bs) = Ok (st, length bs, false).
Proof. destruct fuel; simpl; by rewrite Nat.ltb_irrefl. Qed.

(** One whole frame: [replay] consumes it and goes on with the record applied. *)
Lemma replay_loop_frame fuel bs st offset r fr rest :
  record_ok r → encode_record sha256 r = Ok fr → drop offset bs = fr ++ rest →
  offset ≤ length bs → length bs - offset ≤ fuel →
  ∃ fuel', length bs - (offset + length fr) ≤ fuel' ∧
    offset + length fr ≤ length bs ∧ drop (offset + length fr) bs = rest ∧
    replay_loop sha256 fuel bs st offset =
      res_bind (apply_record st r) (λ st', replay_loop sha256 fuel' bs st' (offset + length fr)).
Proof.
  intros Hok Henc Hdrop Hoff Hfuel. pose proof (encoded_length _ _ Henc) as Hlen.
  assert (length bs - offset = length fr + length rest) as Hl.
  { by rewrite <-length_drop, Hdrop, length_app. }
  destruct fuel as [|fuel]; [lia|]. exists fuel. split_and!; [lia|lia| |].
  { by rewrite <-drop_drop, Hdrop, drop_app_length. }
  simpl. rewrite (proj2 (Nat.ltb_lt _ _)) by lia. cbn [negb].
  by rewrite Hdrop, (read_encoded r fr).
Qed.

Lemma replay_loop_frames rs frames fuel bs st st' offset tail :
  encode_all rs = Ok frames → Forall record_ok rs → apply_records st rs = Ok st' →
  drop offset bs = mjoin frames ++ tail → offset ≤ length bs → length bs - offset ≤ fuel →
  ∃ fuel', length bs - (offset + length (mjoin frames)) ≤ fuel' ∧
    offset + length (mjoin frames) ≤ length bs ∧
    drop (offset + length (mjoin frames)) bs = tail ∧
    replay_loop sha256 fuel bs st offset =
      replay_loop sha256 fuel' bs st' (offset + length (mjoin frames)).
Proof.
  revert frames fuel st offset. induction rs as [|r rs IH]; intros frames fuel st offset.
  { intros [= <-] _ [= <-] Hdrop Hoff Hfuel. simpl in *. rewrite Nat.add_0_r. eauto. }
  simpl. intros Henc [Hok Hoks]%Forall_cons Happ Hdrop Hoff Hfuel.
  inv_bind Henc. inv_bind Henc. injection Henc as <-. simpl in *.
  rewrite <-app_assoc in Hdrop.
  destruct (replay_loop_frame fuel bs st offset r a _ Hok Hbind Hdrop Hoff Hfuel)
    as (fuel1 & Hf1 & Ho1 & Hd1 & ->).
  unfold apply_records in Happ. simpl in Happ. inv_bind Happ. rewrite Hbind1. simpl.
  destruct (IH a0 fuel1 a1 (offset + length a)) as (fuel2 & ? & ? & ? & ?); [done..|].
  exists fuel2. rewrite length_app, Nat.add_assoc. done.
Qed.

(** A file of whole frames. *)
Definition written (file : bytes) (rs : list JRecord) (st : JournalState) : Prop :=
  ∃ frames, encode_all rs = Ok frames ∧ Forall record_ok rs ∧ file = mjoin frames ∧
    apply_records JournalState_default rs = Ok st.

Lemma replay_written file rs st : written file rs st → replay sha256 file = Ok (st, length file, false).
Proof.
  intros (frames & Henc & Hok & -> & Happ). unfold replay.
  destruct (replay_loop_frames rs frames (length (mjoin frames)) (mjoin frames)
    JournalState_default st 0 []) as (fuel & _ & _ & _ & ->); try done; try lia.
  { by rewrite app_nil_r. }
  apply replay_loop_end.
Qed.

(** A torn frame after whole ones is cut off. *)
Lemma replay_torn file rs st r fr n :
  written file rs st → encode_record sha256 r = Ok fr → 0 < n < length fr →
  replay sha256 (file ++ take n fr) = Ok (st, length file, true).
Proof.
  intros (frames & Henc & Hok & -> & Happ) Hr Hn. unfold replay.
  set (bs := mjoin frames ++ take n fr).
  destruct (replay_loop_frames rs frames (length bs) bs JournalState_default st 0 (take n fr))
    as (fuel & Hf & Ho & Hd & ->); try done; try lia.
  assert (length bs = length (mjoin frames) + n) as Hl.
  { unfold bs. rewrite length_app, length_take_le; lia. }
  destruct fuel as [|fuel]; [simpl in *; lia|]. simpl in *.
  rewrite (proj2 (Nat.ltb_lt _ _)) by lia. cbn [negb].
  by rewrite Hd, (read_encoded_torn r fr) by (done || lia).
Qed.

(** An unreadable frame after readable ones stops recovery. *)
Lemma replay_unreadable file rs st r fr rest :
  written file rs st → unreadable r = true → encode_record sha256 r = Ok fr →
  replay sha256 (file ++ fr ++ rest) = Err (CorruptFrame (N.of_nat (length file))).
Proof.
  intros (frames & Henc & Hok & -> & Happ) Hr Hfr. unfold replay.
  set (bs := mjoin frames ++ fr ++ rest).
  destruct (replay_loop_frames rs frames (length bs) bs JournalState_default st 0 (fr ++ rest))
    as (fuel & Hf & Ho & Hd & ->); try done; try lia.
  pose proof (encoded_length _ _ Hfr) as Hlen.
  assert (length (mjoin frames) < length bs) as Hl by (unfold bs; rewrite !length_app; lia).
  destruct fuel as [|fuel]; [simpl in *; lia|]. simpl in *.
  rewrite (proj2 (Nat.ltb_lt _ _)) by lia. cbn [negb].
  by rewrite Hd, (read_unreadable r fr).
Qed.

(** Everything [replay] returns was written as a whole checksummed frame. *)
Lemma replay_loop_sound fuel bs st offset st' v torn :
  bytes_wf bs → offset ≤ length bs →
  replay_loop sha256 fuel bs st offset = Ok (st', v, torn) →
  ∃ rs frames, encode_all rs = Ok frames ∧ Forall record_ok rs ∧
    apply_records st rs = Ok st' ∧ v = offset + length (mjoin frames) ∧
    drop offset bs = mjoin frames ++ drop v bs ∧ v ≤ length bs ∧
    if torn then v < length bs ∧ read_frame sha256 (drop v bs) = FrameTorn else v = length bs.
Proof.
  intros Hwf. revert st offset. induction fuel as [|fuel IH]; intros st offset Hoff.
  all: destruct (decide (offset = length bs)) as [->|Hne];
    [rewrite replay_loop_end; intros [= <- <- <-]; exists [], []; split_and!; try done; simpl; lia|].
  all: simpl; rewrite (proj2 (Nat.ltb_lt _ _)) by lia; cbn [negb].
  { done. }
  destruct (read_frame sha256 (drop offset bs)) as [| |r n] eqn:Hread; [|done|].
  { intros [= <- <- <-]. exists [], []. split_and!; try done; simpl; lia. }
  intros Hrep. inv_bind Hrep.
  destruct (read_frame_sound _ _ _ (Forall_drop _ _ _ Hwf) Hread) as (fr & Henc & Hok & -> & Hdrop).
  rewrite drop_drop in Hdrop.
  assert (offset + length fr ≤ length bs) as Hle.
  { apply (f_equal length) in Hdrop. rewrite length_app, !length_drop in Hdrop. lia. }
  destruct (IH _ _ Hle Hrep) as (rs & frames & Hencs & Hoks & Happ & Hv & Hd & Hvl & Ht).
  exists (r :: rs), (fr :: frames). split_and!; try done.
  - simpl. rewrite Henc. simpl. by rewrite Hencs.
  - by apply Forall_cons.
  - unfold apply_records. simpl. by rewrite Hbind.
  - simpl. rewrite length_app. lia.
  - simpl. rewrite <-app_assoc, <-Hd. done.
Qed.

Lemma replay_sound bs st v torn :
  bytes_wf bs → replay sha256 bs = Ok (st, v, torn) →
  ∃ rs, written (take v bs) rs st ∧ v ≤ length bs ∧
    if torn then v < length bs ∧ read_frame sha256 (drop v bs) = FrameTorn else v = length bs.
Proof.
  intros Hwf Hrep. destruct (replay_loop_sound _ _ _ _ _ _ _ Hwf (Nat.le_0_l _) Hrep)
    as (rs & frames & Henc & Hok & Happ & Hv & Hd & Hvl & Ht).
  exists rs. split_and!; try done. exists frames. split_and!; try done.
  rewrite drop_0 in Hd. rewrite Hd at 1. simpl in Hv. rewrite Hv. apply take_app_length.
Qed.

Lemma validate_entries_total e l : validate_entries e l ≠ Panic.
Proof.
  revert e. induction l as [|[i p] l IH]; intros e; simpl; [done|].
  repeat case_match; auto.
Qed.

Lemma apply_record_total st r : apply_record st r ≠ Panic.
Proof.
  destruct r as [p|p|i p|i|m]; unfold apply_record, validate_append; try done.
  - pose proof (validate_entries_total (next_expected st) [(i, p)]).
    by destruct (validate_entries _ _).
  - repeat case_match; done.
  - repeat case_match; done.
Qed.

(** The fuel of [replay] never runs out. *)
Lemma replay_loop_total fuel bs st offset :
  length bs - offset ≤ fuel → offset ≤ length bs → replay_loop sha256 fuel bs st offset ≠ Panic.
Proof.
  revert st offset. induction fuel as [|fuel IH]; intros st offset Hf Ho.
  all: destruct (decide (offset = length bs)) as [->|Hne]; [by rewrite replay_loop_end|].
  all: simpl; rewrite (proj2 (Nat.ltb_lt _ _)) by lia; cbn [negb].
  { lia. }
  destruct (read_frame _ _) as [| |r n] eqn:Hread; try done.
  assert (44 ≤ n ≤ length bs - offset) as Hn.
  { revert Hread. unfold read_frame. repeat case_match; try done. intros [= _ <-].
    destruct_bool_hyps. unfold len in *. rewrite length_drop in *.
    unfold JOURNAL_HEADER_BYTES, JOURNAL_CHECKSUM_BYTES in *. lia. }
  pose proof (apply_record_total st r).
  destruct (apply_record st r) as [st'|e|]; simpl; [apply IH; lia|done|done].
Qed.
End frames.
