(* ===== verification/JournalRuns.v ===== *)
(** * What the journal guarantees

    The shape of the recovered log, the effect of an append, durability of
    acknowledged records, recovery from a crash at any byte, and two histories
    after which an acknowledged journal can no longer be opened. *)

From S2P Require Import Prelude Order BTree Bytes Journal JournalCodec.

(** ** The recovered log *)

(** No index is missing between two retained entries, and every retained entry
    is after the purged prefix (a purge at [u64::MAX] saturates). *)
Record entries_ok (st : JournalState) : Prop := {
  eo_contiguous : ∀ i j k, is_Some (js_entries st !! i) → is_Some (js_entries st !! k) →
    (i ≤ j)%N → (j ≤ k)%N → is_Some (js_entries st !! j);
  eo_after_purge : ∀ m i, js_last_purged st = Some m → is_Some (js_entries st !! i) →
    (marker_index m < i)%N ∨ marker_index m = U64_MAX;
  eo_width : ∀ i, is_Some (js_entries st !! i) → u64_wf i;
  eo_purge_width : ∀ m, js_last_purged st = Some m → u64_wf (marker_index m);
}.

Lemma remove_range_lookup f m i : remove_range f m !! i = if f i then None else m !! i.
Proof.
  unfold remove_range. rewrite delete_list_lookup. case_bool_decide as Hin.
  - apply list_elem_of_fmap in Hin as ([k v] & -> & Hin).
    apply elem_of_bt_range in Hin as [_ Hf]. simpl. by rewrite Hf.
  - destruct (f i) eqn:Hf; [|done]. apply eq_None_not_Some. intros [v Hv]. apply Hin.
    apply list_elem_of_fmap. exists (i, v). by rewrite elem_of_bt_range.
Qed.

Lemma last_entry_Some st i p :
  last_entry st = Some (i, p) →
  js_entries st !! i = Some p ∧ ∀ k, is_Some (js_entries st !! k) → (k ≤ i)%N.
Proof.
  intros H. apply bt_last_Some in H as [Hi Hmax]. split; [done|].
  intros k [v Hv]. apply N_key_le. by eapply Hmax.
Qed.

Lemma last_entry_None st : last_entry st = None → js_entries st = ∅.
Proof. apply bt_last_None. Qed.

Lemma saturating_payload (p : bytes) :
  (saturating_add (len p) 8 ≤ MAX_RECORD_BODY_BYTES ↔ len p + 8 ≤ MAX_RECORD_BODY_BYTES)%N.
Proof. unfold saturating_add, MAX_RECORD_BODY_BYTES, U64_MAX. lia. Qed.

Lemma validate_one st i p :
  validate_append st [(i, p)] = Ok tt →
  match next_expected st with Some want => i = want | None => True end ∧
  (len p + 8 ≤ MAX_RECORD_BODY_BYTES)%N.
Proof.
  unfold validate_append. cbn [validate_entries].
  destruct (MAX_RECORD_BODY_BYTES <? _)%N eqn:Hlen; [intros H; discriminate H|].
  apply N.ltb_ge, saturating_payload in Hlen.
  destruct (next_expected st) as [want|]; [|intros _; split; [exact I|exact Hlen]].
  destruct (i =? want)%N eqn:Heq; cbn [negb]; [|intros H; discriminate H].
  intros _. apply N.eqb_eq in Heq. split; [exact Heq|exact Hlen].
Qed.

Lemma apply_append_Ok st i p st' :
  apply_record st (RAppend i p) = Ok st' ↔
  validate_append st [(i, p)] = Ok tt ∧
  st' = {| js_vote := js_vote st; js_committed := js_committed st;
           js_last_purged := js_last_purged st; js_entries := <[i := p]> (js_entries st) |}.
Proof.
  simpl. rewrite res_bind_Ok. split.
  - intros ([] & Hv & [= <-]). done.
  - intros [Hv ->]. by exists tt.
Qed.

Lemma insert_is_Some (m : gmap N bytes) i p k :
  is_Some (<[i := p]> m !! k) ↔ k = i ∨ is_Some (m !! k).
Proof.
  destruct (decide (i = k)) as [->|Hne].
  - rewrite lookup_insert_eq. split; [by left|by eexists].
  - rewrite lookup_insert_ne by done. naive_solver.
Qed.

Lemma saturating_succ_bounds l : u64_wf l → (l ≤ saturating_add l 1 ≤ l + 1)%N.
Proof. unfold u64_wf, saturating_add. lia. Qed.

(** The index an accepted entry has, relative to the entries and the marker. *)
Lemma validate_next st i p :
  entries_ok st → validate_append st [(i, p)] = Ok tt →
  (∀ k, is_Some (js_entries st !! k) → (k ≤ i)%N) ∧
  (js_entries st = ∅ ∨ ∃ l, is_Some (js_entries st !! l) ∧ (i ≤ l + 1)%N) ∧
  (∀ m, js_last_purged st = Some m → (marker_index m < i)%N ∨ marker_index m = U64_MAX).
Proof.
  intros [Hc Hp Hw Hpw] Hv. apply validate_one in Hv as [Hexp _]. unfold next_expected in Hexp.
  destruct (last_entry st) as [[l q]|] eqn:Hl.
  - apply last_entry_Some in Hl as [Hl Hmax]. subst i.
    assert (is_Some (js_entries st !! l)) as Hls by by eexists.
    pose proof (saturating_succ_bounds l (Hw l Hls)) as Hb. split_and!.
    + intros k Hk. specialize (Hmax k Hk). lia.
    + right. exists l. split; [done|lia].
    + intros m Hm. destruct (Hp m l Hm Hls); [left; lia|by right].
  - apply last_entry_None in Hl. rewrite Hl. split_and!.
    + intros k [v Hk]. by rewrite lookup_empty in Hk.
    + by left.
    + intros m Hm. rewrite Hm in Hexp. subst i. pose proof (Hpw m Hm) as Hmw.
      unfold u64_wf, saturating_add in *. lia.
Qed.

Lemma append_entries_ok st i p st' :
  entries_ok st → u64_wf i → apply_record st (RAppend i p) = Ok st' → entries_ok st'.
Proof.
  intros E Hi. rewrite apply_append_Ok. intros [Hv ->].
  destruct (validate_next _ _ _ E Hv) as (Hmax & Hnext & Hm). destruct E as [Hc Hp Hw Hpw].
  split; simpl; [| | |done].
  - intros a b c. rewrite !insert_is_Some. intros [->|Ha] [->|Hc'] Hab Hbc.
    + left. lia.
    + left. specialize (Hmax c Hc'). lia.
    + destruct Hnext as [Hnil|(l & Hl & Hil)].
      { rewrite Hnil, lookup_empty in Ha. by destruct Ha. }
      destruct (decide (b = i)) as [->|]; [by left|]. right. apply (Hc a b l); auto. lia.
    + right. by apply (Hc a b c).
  - intros m k Hpm. rewrite insert_is_Some. intros [->|Hk]; eauto.
  - intros k. rewrite insert_is_Some. intros [->|Hk]; auto.
Qed.

Lemma remove_is_Some f (m : gmap N bytes) k :
  is_Some (remove_range f m !! k) ↔ f k = false ∧ is_Some (m !! k).
Proof.
  rewrite remove_range_lookup. destruct (f k); [|naive_solver].
  split; [intros Hs; by apply is_Some_None in Hs|by intros [? _]].
Qed.

Lemma remove_entries_ok st f vote committed purged :
  entries_ok st →
  (∀ i j k, (i ≤ j)%N → (j ≤ k)%N → f i = false → f k = false → f j = false) →
  (∀ m i, purged = Some m → is_Some (js_entries st !! i) → f i = false → (marker_index m < i)%N) ∨
  purged = js_last_purged st →
  (∀ m, purged = Some m → u64_wf (marker_index m)) →
  entries_ok {| js_vote := vote; js_committed := committed; js_last_purged := purged;
                js_entries := remove_range f (js_entries st) |}.
Proof.
  intros [Hc Hp Hw Hpw] Hf Hm Hmw. split; simpl; [| | |done].
  - intros i j k. rewrite !remove_is_Some. intros [Hfi Hi] [Hfk Hk] Hij Hjk.
    split; [by apply (Hf i j k)|by apply (Hc i j k)].
  - intros m i Hpm. rewrite remove_is_Some. intros [Hfi Hi].
    destruct Hm as [Hm| ->]; [left; by eapply Hm|by apply Hp].
  - intros i. rewrite remove_is_Some. intros [_ Hi]. auto.
Qed.

Lemma apply_record_entries_ok st r st' :
  entries_ok st → record_ok r → apply_record st r = Ok st' → entries_ok st'.
Proof.
  intros E Hok Happ. destruct r as [p|p|i p|from|m].
  - injection Happ as <-. by destruct E.
  - injection Happ as <-. by destruct E.
  - by eapply append_entries_ok.
  - assert (st' = {| js_vote := js_vote st; js_committed := js_committed st;
      js_last_purged := js_last_purged st;
      js_entries := remove_range (λ i, (from <=? i)%N) (js_entries st) |}) as ->.
    { unfold apply_record in Happ. repeat case_match; naive_solver. }
    apply remove_entries_ok; [done| |by right|by apply E].
    intros i j k. rewrite !N.leb_gt. lia.
  - assert (st' = {| js_vote := js_vote st; js_committed := js_committed st;
      js_last_purged := Some m;
      js_entries := remove_range (λ i, (i <=? marker_index m)%N) (js_entries st) |}) as ->.
    { unfold apply_record in Happ. repeat case_match; naive_solver. }
    destruct Hok as [Hmw _]. apply remove_entries_ok; [done| | |naive_solver].
    + intros i j k. rewrite !N.leb_gt. lia.
    + left. intros m' i [= <-] _. by rewrite N.leb_gt.
Qed.

Lemma apply_records_entries_ok st rs st' :
  entries_ok st → Forall record_ok rs → apply_records st rs = Ok st' → entries_ok st'.
Proof.
  intros E Hok. unfold apply_records. revert st E.
  induction Hok as [|r rs Hr _ IH]; intros st E; simpl; [by intros [= <-]|].
  intros H. inv_bind H. eauto using apply_record_entries_ok.
Qed.

Lemma entries_ok_default : entries_ok JournalState_default.
Proof. split; simpl; try done; intros *; rewrite lookup_empty; intros Hs; by apply is_Some_None in Hs. Qed.

(** ** The effect of an append *)
Definition same_meta (st st' : JournalState) : Prop :=
  js_vote st' = js_vote st ∧ js_committed st' = js_committed st ∧
  js_last_purged st' = js_last_purged st.

Definition appends (l : list (N * bytes)) : list JRecord := (λ e, RAppend e.1 e.2) <$> l.

Lemma appends_effect l st st' :
  apply_records st (appends l) = Ok st' →
  js_entries st' = list_to_map (reverse l) ∪ js_entries st ∧ same_meta st st'.
Proof.
  unfold apply_records. revert st. induction l as [|[i p] l IH]; intros st.
  { intros [= <-]. split; [by rewrite reverse_nil, list_to_map_nil, (left_id_L ∅ (∪))|done]. }
  cbn [appends fmap list_fmap res_fold]. intros H. apply res_bind_Ok in H as (st1 & H1 & H).
  rewrite apply_append_Ok in H1. destruct H1 as [_ ->].
  destruct (IH _ H) as [He Hm]. split; [|done]. rewrite He. simpl.
  rewrite reverse_cons, list_to_map_app, insert_union_singleton_l, (assoc_L (∪)).
  by rewrite list_to_map_cons, list_to_map_nil, insert_empty.
Qed.

Lemma remove_from_filter first m :
  remove_range (λ i, (first <=? i)%N) m = filter (λ p, (p.1 < first)%N) m.
Proof.
  apply map_eq. intros i. rewrite remove_range_lookup. apply option_eq. intros v.
  rewrite map_lookup_filter_Some. simpl. destruct (first <=? i)%N eqn:E.
  - apply N.leb_le in E. split; [done|]. intros [_ ?]. lia.
  - apply N.leb_gt in E. naive_solver.
Qed.

Lemma filter_below_all first (m : gmap N bytes) :
  (∀ k, is_Some (m !! k) → (k < first)%N) → filter (λ p, (p.1 < first)%N) m = m.
Proof.
  intros Hall. apply map_eq. intros i. apply option_eq. intros v.
  rewrite map_lookup_filter_Some. split; [by intros [? _]|].
  intros Hi. split; [done|]. apply Hall. by eexists.
Qed.

Lemma plan_prefix_effect st first prefix st1 :
  plan_prefix st first = Ok prefix → apply_records st prefix = Ok st1 →
  js_entries st1 = filter (λ p, (p.1 < first)%N) (js_entries st) ∧ same_meta st st1.
Proof.
  unfold plan_prefix, apply_records. destruct (last_entry st) as [[l q]|] eqn:Hl.
  - apply last_entry_Some in Hl as [_ Hmax]. destruct (first <=? l)%N eqn:Hle.
    + intros [= <-]. cbn [res_fold apply_record]. rewrite remove_from_filter. intros H.
      apply res_bind_Ok in H as (st2 & H & [= <-]).
      repeat case_match; try done; by injection H as <-.
    + apply N.leb_gt in Hle. case_match; [done|]. intros [= <-] [= <-]. split; [|done].
      symmetry. apply filter_below_all. intros k Hk. specialize (Hmax k Hk). lia.
  - apply last_entry_None in Hl.
    assert (filter (λ p : N * bytes, (p.1 < first)%N) (js_entries st) = js_entries st) as ->.
    { rewrite Hl. apply map_filter_empty. }
    intros H. assert (prefix = []) as -> by (repeat case_match; congruence).
    by intros [= <-].
Qed.

(** Strictly ascending batches are partitioned at the purged prefix. *)
Lemma ascending_partitioned (x : N) (entries : list (N * bytes)) :
  StronglySorted N.lt entries.*1 →
  ∃ k, partitioned (λ e, (e.1 <=? x)%N) entries k ∧
    drop k entries = List.filter (λ e, (x <? e.1)%N) entries.
Proof.
  induction entries as [|[i p] l IH]; intros Hs.
  { exists 0. split; [|done]. split; [done|]. intros i y Hy. by rewrite lookup_nil in Hy. }
  apply StronglySorted_inv in Hs as [Hs Hall]. simpl in Hall.
  destruct (IH Hs) as (k & [Hk Hp] & Hd). destruct (i <=? x)%N eqn:Hix.
  - exists (S k). split; [|simpl; by rewrite N.ltb_antisym, Hix]. split; [simpl; lia|].
    intros [|n] y Hy; simpl in Hy.
    + injection Hy as <-. by rewrite bool_decide_true by lia.
    + rewrite (Hp _ _ Hy). apply bool_decide_ext. lia.
  - exists 0. assert (∀ e, e ∈ l → (x < e.1)%N) as Hgt.
    { intros e He. rewrite Forall_forall in Hall. apply N.leb_gt in Hix.
      specialize (Hall e.1 ltac:(by apply list_elem_of_fmap_2)). lia. }
    split; [split; [lia|]|].
    + intros [|n] y Hy; simpl in Hy; [by injection Hy as <-; rewrite bool_decide_false by lia|].
      apply list_elem_of_lookup_2, Hgt in Hy. rewrite bool_decide_false by lia.
      by apply N.leb_gt.
    + simpl. rewrite N.ltb_antisym, Hix. simpl. f_equal. symmetry.
      clear -Hgt. induction l as [|e l IH]; [done|]. simpl.
      rewrite (proj2 (N.ltb_lt _ _)) by (apply Hgt; by constructor).
      f_equal. apply IH. intros e' He'. apply Hgt. by constructor.
Qed.

Lemma live_entries_ascending st entries :
  StronglySorted N.lt entries.*1 →
  live_entries st entries =
    match js_last_purged st with
    | Some m => List.filter (λ e, (marker_index m <? e.1)%N) entries
    | None => entries
    end.
Proof.
  intros Hs. unfold live_entries. destruct (js_last_purged st) as [m|]; [|done].
  destruct (ascending_partitioned (marker_index m) entries Hs) as (k & Hp & Hd).
  by rewrite (partition_point_spec _ _ _ Hp).
Qed.

(** ** Durability and crash recovery *)
Section durability.
Context (sha256 : bytes → bytes) (sha256_len : ∀ b, length (sha256 b) = 32).

Abbreviation encode_all := (res_collect (encode_record sha256)).

(** A journal whose file holds whole frames of the records its state is made of. *)
Definition journal_ok (j : NodeJournal) : Prop :=
  ∃ rs, written sha256 (nj_file j) rs (nj_state j).

Lemma apply_records_app st rs1 rs2 :
  apply_records st (rs1 ++ rs2) = res_bind (apply_records st rs1) (λ st', apply_records st' rs2).
Proof. apply res_fold_app. Qed.

Lemma written_app file rs st rs' frames st' :
  written sha256 file rs st → Forall record_ok rs' → encode_all rs' = Ok frames →
  apply_records st rs' = Ok st' → written sha256 (file ++ mjoin frames) (rs ++ rs') st'.
Proof.
  intros (fs & Henc & Hok & -> & Happ) Hok' Henc' Happ'. exists (fs ++ frames).
  split_and!; [by apply encode_all_app|by apply Forall_app|by rewrite join_app|].
  by rewrite apply_records_app, Happ.
Qed.

Lemma journal_ok_reopen j :
  journal_ok j →
  open sha256 (nj_file j) =
    Ok {| nj_file := nj_file j; nj_state := nj_state j; nj_recovered_torn_tail := false |}.
Proof.
  intros [rs Hw]. unfold open. by rewrite (replay_written sha256 sha256_len _ _ _ Hw).
Qed.

Lemma persist_Ok j rs j' :
  persist_batch sha256 j rs None = (j', Ok tt) →
  ∃ frames, encode_all rs = Ok frames ∧ apply_records (nj_state j) rs = Ok (nj_state j') ∧
    nj_file j' = nj_file j ++ mjoin frames.
Proof.
  unfold persist_batch.
  destruct (apply_records _ _) as [next|e|], (encode_all rs) as [frames|e'|]; try done.
  intros [= <-]. by exists frames.
Qed.

Lemma persist_journal_ok j rs j' :
  journal_ok j → Forall record_ok rs → persist_batch sha256 j rs None = (j', Ok tt) →
  journal_ok j'.
Proof.
  intros [rs0 Hw] Hok (frames & Henc & Happ & Hf)%persist_Ok. exists (rs0 ++ rs).
  rewrite Hf. by eapply written_app.
Qed.

(** A prefix of a sequence of frames is whole frames and a prefix of the next. *)
Lemma take_frames (frames : list bytes) n :
  ∃ k m, k ≤ length frames ∧
    take n (mjoin frames) = mjoin (take k frames) ++ default [] (take m <$> frames !! k) ∧
    (∀ f, frames !! k = Some f → m < length f) ∧
    (length (mjoin frames) ≤ n → k = length frames).
Proof.
  revert n. induction frames as [|f fs IH]; intros n.
  { exists 0, 0. split_and!; try done. by destruct n. }
  simpl. destruct (decide (n < length f)) as [Hn|Hn].
  - exists 0, n. rewrite take_app_le by lia. split_and!; try done; [lia|naive_solver|].
    rewrite length_app. lia.
  - destruct (IH (n - length f)) as (k & m & Hk & Ht & Hm & Hall).
    exists (S k), m. simpl. split_and!; [lia| |done|].
    + rewrite take_app_ge by lia. by rewrite Ht, app_assoc.
    + rewrite length_app. intros Hle. rewrite Hall; lia.
Qed.

Lemma encode_all_lookup rs frames k f :
  encode_all rs = Ok frames → frames !! k = Some f →
  ∃ r, rs !! k = Some r ∧ encode_record sha256 r = Ok f.
Proof.
  revert frames k. induction rs as [|r rs IH]; intros frames k; simpl; [by intros [= <-]|].
  intros H Hk. inv_bind H. inv_bind H. injection H as <-.
  destruct k as [|k]; simpl in Hk; [injection Hk as <-; by exists r|]. eauto.
Qed.

Lemma crash_recover j rs next frames k m :
  journal_ok j → Forall record_ok (take k rs) → apply_records (nj_state j) rs = Ok next →
  encode_all rs = Ok frames → (∀ f, frames !! k = Some f → m < length f) →
  ∃ stk torn, apply_records (nj_state j) (take k rs) = Ok stk ∧
    open sha256 (nj_file j ++ mjoin (take k frames) ++ default [] (take m <$> frames !! k)) =
      Ok {| nj_file := nj_file j ++ mjoin (take k frames); nj_state := stk;
            nj_recovered_torn_tail := torn |} ∧
    ∃ rs', written sha256 (nj_file j ++ mjoin (take k frames)) rs' stk.
Proof.
  intros [rs0 Hw] Hok Happ Henc Hm.
  rewrite <-(take_drop k rs), apply_records_app in Happ.
  apply res_bind_Ok in Happ as (stk & Hstk & _).
  assert (written sha256 (nj_file j ++ mjoin (take k frames)) (rs0 ++ take k rs) stk) as Hwk.
  { eapply written_app; [done|done|by apply encode_all_take|done]. }
  rewrite app_assoc. set (file := nj_file j ++ mjoin (take k frames)) in *.
  assert (∃ torn, open sha256 (file ++ default [] (take m <$> frames !! k)) =
    Ok {| nj_file := file; nj_state := stk; nj_recovered_torn_tail := torn |}) as [torn Hopen].
  { unfold open. destruct (frames !! k) as [f|] eqn:Hf; simpl;
      [destruct (decide (m = 0)) as [->|Hm0]|].
    2: { destruct (encode_all_lookup _ _ _ _ Henc Hf) as (r & _ & Hr).
         specialize (Hm _ eq_refl).
         rewrite (replay_torn sha256 sha256_len _ _ _ r f m Hwk Hr) by lia. simpl.
         exists true. by rewrite take_app_length. }
    all: exists false; rewrite ?take_0, app_nil_r.
    all: by rewrite (replay_written sha256 sha256_len _ _ _ Hwk). }
  exists stk, torn. split_and!; eauto.
Qed.

(** The same for a readable batch cut off after [n] bytes. *)
Lemma crash_recover_batch j rs next frames n :
  journal_ok j → Forall record_ok rs → apply_records (nj_state j) rs = Ok next →
  encode_all rs = Ok frames →
  ∃ k stk torn, k ≤ length frames ∧ (length (mjoin frames) ≤ n → k = length frames) ∧
    apply_records (nj_state j) (take k rs) = Ok stk ∧
    open sha256 (nj_file j ++ take n (mjoin frames)) =
      Ok {| nj_file := nj_file j ++ mjoin (take k frames); nj_state := stk;
            nj_recovered_torn_tail := torn |} ∧
    ∃ rs', written sha256 (nj_file j ++ mjoin (take k frames)) rs' stk.
Proof.
  intros Hj Hok Happ Henc. destruct (take_frames frames n) as (k & m & Hk & -> & Hm & Hall).
  destruct (crash_recover j rs next frames k m Hj (Forall_take _ _ _ Hok) Happ Henc Hm)
    as (stk & torn & H). by exists k, stk, torn.
Qed.

Lemma encode_all_length rs frames : encode_all rs = Ok frames → length frames = length rs.
Proof.
  revert frames. induction rs as [|r rs IH]; intros frames; simpl; [by intros [= <-]|].
  intros H. inv_bind H. inv_bind H. injection H as <-. simpl. by rewrite (IH _ Hbind0).
Qed.

(** The first record that cannot be read back, among the whole frames. *)
Lemma crash_unreadable j rs next frames k rest :
  journal_ok j → Forall record_wf rs → apply_records (nj_state j) rs = Ok next →
  encode_all rs = Ok frames → existsb unreadable (take k rs) = true →
  ∃ offset, open sha256 (nj_file j ++ mjoin (take k frames) ++ rest) = Err (CorruptFrame offset).
Proof.
  intros [rs0 Hw] Hwf Happ Henc Hbad.
  destruct (first_true unreadable (take k rs) Hbad) as (i & r & Hi & Hr & Hpre).
  rewrite take_take in Hpre. pose proof (lookup_lt_Some _ _ _ Hi) as Hlen. rewrite length_take in Hlen.
  rewrite Nat.min_l in Hpre by lia. rewrite lookup_take_lt in Hi by lia.
  pose proof (encode_all_length _ _ Henc) as Hfl.
  destruct (lookup_lt_is_Some_2 frames i) as [f Hf]; [lia|].
  destruct (encode_all_lookup _ _ _ _ Henc Hf) as (r' & Hr' & Hfr).
  rewrite Hi in Hr'. injection Hr' as <-.
  rewrite <-(take_drop i rs), apply_records_app in Happ. apply res_bind_Ok in Happ as (sti & Hsti & _).
  assert (written sha256 (nj_file j ++ mjoin (take i frames)) (rs0 ++ take i rs) sti) as Hwi.
  { eapply written_app; [done| |by apply encode_all_take|done].
    apply Forall_forall. intros x Hx. apply record_ok_split. split.
    - rewrite Forall_forall in Hwf. apply Hwf. by apply (subseteq_take i).
    - apply existsb_false with (l := take i rs); done. }
  assert (∃ rest', nj_file j ++ mjoin (take k frames) ++ rest =
    (nj_file j ++ mjoin (take i frames)) ++ f ++ rest') as [rest' ->].
  { exists (mjoin (drop (S i) (take k frames)) ++ rest).
    assert (take k frames !! i = Some f) as Hfk by (by rewrite lookup_take_lt by lia).
    rewrite <-(take_drop_middle _ _ _ Hfk) at 1. rewrite take_take, Nat.min_l by lia.
    rewrite join_app. cbn [mjoin list_join]. by rewrite <-!(assoc_L (++)). }
  eexists. unfold open. by rewrite (replay_unreadable sha256 sha256_len _ _ _ r f rest' Hwi).
Qed.

(** The journals a node can hold: opened empty, extended by acknowledged
    batches, or reopened after a batch stopped at any byte. *)
Inductive journal_run : NodeJournal → Prop :=
  | run_open j : open sha256 [] = Ok j → journal_run j
  | run_persist j rs j' :
      journal_run j → Forall record_ok rs → persist_batch sha256 j rs None = (j', Ok tt) →
      journal_run j'
  | run_crash j rs n j1 j' :
      journal_run j → Forall record_ok rs → persist_batch sha256 j rs (Some n) = (j1, Err Io) →
      open sha256 (nj_file j1) = Ok j' → journal_run j'.

Lemma persist_crash j rs n j1 :
  persist_batch sha256 j rs (Some n) = (j1, Err Io) → journal_ok j →
  (∃ next frames, apply_records (nj_state j) rs = Ok next ∧ encode_all rs = Ok frames ∧
    nj_file j1 = nj_file j ++ take n (mjoin frames)) ∨ j1 = j.
Proof.
  unfold persist_batch.
  destruct (apply_records _ _) as [next|e|] eqn:Happ, (encode_all rs) as [frames|e'|] eqn:Henc;
    try (intros [= <-]; by right); try (intros; congruence).
  intros [= <-] _. left. by exists next, frames.
Qed.

Lemma journal_run_ok j : journal_run j → journal_ok j.
Proof.
  induction 1 as [j Hopen|j rs j' _ IH Hok Hp|j rs n j1 j' _ IH Hok Hp Hopen].
  - unfold open in Hopen. simpl in Hopen. injection Hopen as <-.
    exists []. by exists [].
  - by eapply persist_journal_ok.
  - destruct (persist_crash _ _ _ _ Hp IH) as [(next & frames & Happ & Henc & Hf)| ->].
    + destruct (crash_recover_batch j rs next frames n IH Hok Happ Henc)
        as (k & stk & torn & _ & _ & _ & Ho & rs' & Hw).
      rewrite Hf, Ho in Hopen. injection Hopen as <-. by exists rs'.
    + rewrite (journal_ok_reopen j IH) in Hopen. by injection Hopen as <-.
Qed.
End durability.

(** ** The journal's properties *)

(** The frame codec is a bijection between well-formed records and the
    frames recovery accepts: unread bytes are read as record [r] exactly when
    they start with the encoding of [r], whatever follows. *)
Theorem frame_codec_exact sha256 rest r n :
  digest_len sha256 → bytes_wf rest →
  read_frame sha256 rest = FrameRecord r n ↔
  record_ok r ∧ ∃ fr tail, encode_record sha256 r = Ok fr ∧ rest = fr ++ tail ∧ n = length fr.
Proof.
  intros Hlen Hwf. split.
  - intros (fr & Henc & Hok & -> & Hrest)%(read_frame_sound _ Hlen); [|done]. eauto 8.
  - intros (Hok & fr & tail & Henc & -> & ->). by apply read_encoded.
Qed.

(** C35. Recovery is total and sound on any file: it returns a state or an
    error, and a returned state is the effect of the whole checksummed frames
    the file starts with, everything after them being empty or a torn frame. *)
Theorem replay_total_sound sha256 bs :
  digest_len sha256 → bytes_wf bs →
  replay sha256 bs ≠ Panic ∧
  ∀ st v torn, replay sha256 bs = Ok (st, v, torn) →
    ∃ rs, written sha256 (take v bs) rs st ∧ v ≤ length bs ∧
      if torn then v < length bs ∧ read_frame sha256 (drop v bs) = FrameTorn
      else v = length bs.
Proof.
  intros Hlen Hwf. split.
  - apply replay_loop_total; lia.
  - intros st v torn Hrep. by apply replay_sound.
Qed.

(** Durability: the file of a journal that was opened, extended by
    acknowledged batches and reopened after crashes reopens to exactly the
    state held in memory. *)
Theorem journal_durable sha256 j :
  digest_len sha256 → journal_run sha256 j →
  open sha256 (nj_file j) =
    Ok {| nj_file := nj_file j; nj_state := nj_state j; nj_recovered_torn_tail := false |}.
Proof. intros Hlen Hj. by apply journal_ok_reopen, journal_run_ok. Qed.


(** The log of every journal has no gap and starts after its purge marker. *)
Theorem journal_log_contiguous sha256 j :
  digest_len sha256 → journal_run sha256 j → entries_ok (nj_state j).
Proof.
  intros Hlen Hj. apply journal_run_ok in Hj as (rs & frames & _ & Hok & _ & Happ); [|done].
  eapply apply_records_entries_ok; eauto using entries_ok_default.
Qed.

(** Appending: an acknowledged append drops the batch's entries up to the
    purge marker, replaces every retained entry from the first live index on by
    the live entries, and changes nothing else; with nothing live it changes
    nothing. *)
Theorem append_effect sha256 j entries j' :
  append sha256 j entries None = (j', Ok tt) →
  StronglySorted N.lt entries.*1 →
  let st := nj_state j in
  let live := match js_last_purged st with
              | Some m => List.filter (λ e, (marker_index m <? e.1)%N) entries
              | None => entries
              end in
  same_meta st (nj_state j') ∧
  js_entries (nj_state j') =
    match live with
    | [] => js_entries st
    | (first, _) :: _ =>
        list_to_map (reverse live) ∪ filter (λ p, (p.1 < first)%N) (js_entries st)
    end.
Proof.
  intros Happ Hs st live. unfold append in Happ.
  assert (live_entries st entries = live) as Hlive by by apply live_entries_ascending.
  destruct entries as [|e0 entries0].
  { injection Happ as <-. assert (live = []) as -> by (unfold live; by case_match). done. }
  destruct (plan_append _ _) as [rs|e|] eqn:Hplan; try done.
  apply persist_Ok in Happ as (frames & _ & Hrs & _).
  unfold plan_append in Hplan. fold st in Hplan, Hrs. rewrite Hlive in Hplan.
  destruct live as [|[first p] rest].
  { injection Hplan as <-. by injection Hrs as <-. }
  inv_bind Hplan. inv_bind Hplan. injection Hplan as <-.
  rewrite apply_records_app in Hrs. apply res_bind_Ok in Hrs as (st1 & H1 & H2).
  destruct (plan_prefix_effect _ _ _ _ Hbind0 H1) as [He1 (? & ? & ?)].
  destruct (appends_effect ((first, p) :: rest) st1 (nj_state j') H2) as [He2 (? & ? & ?)].
  split; [by split_and!; congruence|]. by rewrite He2, He1.
Qed.

(** [encode_record] persists a vote with an empty payload, but recovery
    rejects its frame: after acknowledging [save_vote(b"")] a fresh journal can
    no longer be opened. *)
Theorem empty_vote_unrecoverable sha256 :
  digest_len sha256 →
  ∃ j j', open sha256 [] = Ok j ∧ save_vote sha256 j [] None = (j', Ok tt) ∧
    open sha256 (nj_file j') = Err (CorruptFrame 0).
Proof.
  intros Hlen. set (fr := frame_of sha256 KIND_VOTE FLAG_SOME []).
  set (st := {| js_vote := Some []; js_committed := None; js_last_purged := None;
                js_entries := ∅ |}).
  exists {| nj_file := []; nj_state := JournalState_default; nj_recovered_torn_tail := false |}.
  exists {| nj_file := fr; nj_state := st; nj_recovered_torn_tail := false |}.
  split; [done|]. split.
  { unfold save_vote, persist_batch. simpl. by rewrite app_nil_r. }
  cbn [nj_file]. unfold open, replay.
  assert (length fr = 44) as Hfr by apply (length_frame_of sha256 Hlen).
  rewrite Hfr. cbn [replay_loop]. rewrite Hfr. cbn [Nat.ltb Nat.leb negb].
  rewrite drop_0, <-(app_nil_r fr). unfold fr. by rewrite read_frame_of.
Qed.

(** After a write that failed part-way, the journal accepts and
    acknowledges further records behind the partial frame, and then can no
    longer be opened: here one byte of a failed vote precedes an acknowledged
    one. *)
Theorem failed_write_unrecoverable sha256 :
  ∃ j j1 j2, open sha256 [] = Ok j ∧ save_vote sha256 j [1%N] (Some 1) = (j1, Err Io) ∧
    save_vote sha256 j1 [2%N] None = (j2, Ok tt) ∧
    open sha256 (nj_file j2) = Err (CorruptFrame 0).
Proof.
  eexists _, _, _. split_and!; reflexivity.
Qed.

(** ** A concrete journal *)
Module demo_journal.
Abbreviation sha := prefix_digest (only parsing).

Definition empty : NodeJournal :=
  {| nj_file := []; nj_state := JournalState_default; nj_recovered_torn_tail := false |}.
Definition entry (i : N) : N * bytes := (i, [i; 0]%N).
Definition logged : NodeJournal := (append sha empty (entry <$> [1; 2; 3]%N) None).1.
Definition batch : list JRecord := [RVote [9%N]; RTruncate 3].
Definition frames : list bytes :=
  match res_collect (encode_record sha) batch with Ok fs => fs | _ => [] end.
Definition voted : NodeJournal := (persist_batch sha logged batch None).1.

Lemma run_empty : journal_run sha empty.
Proof. by apply run_open. Qed.

Lemma run_logged : journal_run sha logged.
Proof.
  apply (run_persist sha empty (appends (entry <$> [1; 2; 3]%N))).
  - apply run_empty.
  - repeat (apply Forall_cons; split; [by vm_compute|]). by apply Forall_nil.
  - vm_compute. reflexivity.
Qed.

Lemma batch_ok : Forall record_ok batch.
Proof. repeat (apply Forall_cons; split; [by vm_compute|]). by apply Forall_nil. Qed.

Lemma run_voted : journal_run sha voted.
Proof.
  apply (run_persist sha logged batch); [apply run_logged|apply batch_ok|].
  vm_compute. reflexivity.
Qed.
End demo_journal.

Lemma frame_codec_exact_witness :
  let fr := frame_of demo_journal.sha KIND_VOTE FLAG_SOME [9%N] in
  read_frame demo_journal.sha (fr ++ [1; 2]%N) = FrameRecord (RVote [9%N]) 45.
Proof.
  intros fr. apply frame_codec_exact.
  - apply prefix_digest_len.
  - apply bytes_wf_check. vm_compute. reflexivity.
  - split; [done|]. exists fr, [1; 2]%N. vm_compute. done.
Defined.

Lemma replay_total_sound_witness :
  ∃ rs, written demo_journal.sha
    (take (length (nj_file demo_journal.voted))
       (nj_file demo_journal.voted ++ take 20 (mjoin demo_journal.frames)))
    rs (nj_state demo_journal.voted).
Proof.
  destruct (replay_total_sound demo_journal.sha
    (nj_file demo_journal.voted ++ take 20 (mjoin demo_journal.frames))) as [_ Hs].
  - apply prefix_digest_len.
  - apply bytes_wf_check. vm_compute. reflexivity.
  - destruct (Hs (nj_state demo_journal.voted) (length (nj_file demo_journal.voted)) true)
      as (rs & Hw & _); [vm_compute; reflexivity|]. exists rs. exact Hw.
Defined.

Lemma journal_durable_witness :
  js_vote (nj_state demo_journal.voted) = Some [9%N] ∧
  open demo_journal.sha (nj_file demo_journal.voted) =
    Ok {| nj_file := nj_file demo_journal.voted; nj_state := nj_state demo_journal.voted;
          nj_recovered_torn_tail := false |}.
Proof.
  split; [vm_compute; reflexivity|].
  apply journal_durable; [apply prefix_digest_len|apply demo_journal.run_voted].
Defined.


Lemma journal_log_contiguous_witness :
  is_Some (js_entries (nj_state demo_journal.logged) !! 2%N) ∧
  entries_ok (nj_state demo_journal.logged).
Proof.
  split; [vm_compute; by eexists|].
  apply (journal_log_contiguous demo_journal.sha);
    [apply prefix_digest_len|apply demo_journal.run_logged].
Defined.

Lemma append_effect_witness :
  let j' := (append demo_journal.sha demo_journal.logged [(2, [7])]%N None).1 in
  js_entries (nj_state j') =
    list_to_map [(2, [7])]%N ∪
      filter (λ p, (p.1 < 2)%N) (js_entries (nj_state demo_journal.logged)).
Proof.
  intros j'. apply (append_effect demo_journal.sha demo_journal.logged [(2, [7])]%N j').
  - vm_compute. reflexivity.
  - repeat constructor.
Defined.

Lemma empty_vote_unrecoverable_witness :
  ∃ j j', open demo_journal.sha [] = Ok j ∧
    save_vote demo_journal.sha j [] None = (j', Ok tt) ∧
    open demo_journal.sha (nj_file j') = Err (CorruptFrame 0).
Proof. apply empty_vote_unrecoverable, prefix_digest_len. Defined.
