(* ===== verification/Wal.v ===== *)
(** * The local replicated write-ahead log

    [okv-wal/src/lib.rs]: one file of checksummed frames per replica, appends
    that are durable once a quorum of replicas has synced, and reconstruction
    of the contiguous quorum log from the files. A replica's file is its byte
    string; the disk's answer to each write is an argument. SHA-256 is a
    parameter. *)

From S2P Require Import Prelude Order BTree Bytes.

Definition FRAME_MAGIC : bytes := string_bytes "OKVW".
Definition FRAME_VERSION : N := 1.
Definition FRAME_HEADER_BYTES : nat := 4 + 2 + 8 + 4.
Definition FRAME_CHECKSUM_LEN : nat := 32.
Definition MAX_PAYLOAD_LEN : N := 64 * 1024 * 1024.

(** [ReplicaId] is a [u8]; replicas are numbered by their position. *)
Abbreviation ReplicaId := nat (only parsing).

Record AppendOutcome := {
  ao_log_index : N;
  ao_frame_bytes : N;
  ao_synced_replicas : list ReplicaId;
  ao_quorum_durable : bool;
}.

Record RecoveredRecord := {
  rr_log_index : N;
  rr_payload : bytes;
  rr_replica_ids : list ReplicaId;
}.

Record Recovery := {
  rc_records : list RecoveredRecord;
  rc_torn_tail_replicas : list ReplicaId;
  rc_ignored_uncommitted_records : N;
  rc_physical_bytes : N;
}.

Definition last_index (r : Recovery) : N :=
  match last (rc_records r) with Some record => rr_log_index record | None => 0 end.

Inductive WalError :=
  | InvalidTopology
  | InvalidLogIndex (index : N)
  | PayloadTooLarge (length : N)
  | WalIo
  | CompleteFrameCorruption (replica_id : ReplicaId) (log_index : N)
  | MissingContiguousQuorum (index : N)
  | ConflictingQuorum (index : N).

Record LocalReplicatedWal := { wal_files : list bytes; wal_quorum : nat }.
Definition replica_count (w : LocalReplicatedWal) : nat := length (wal_files w).

(** [LocalReplicatedWal::open] over fresh directories. *)
Definition wal_open (count quorum : nat) : res WalError LocalReplicatedWal :=
  if (count =? 0) || (quorum =? 0) || (count <? quorum) then Err InvalidTopology
  else Ok {| wal_files := replicate count []; wal_quorum := quorum |}.

Section wal.
Context (sha256 : bytes → bytes).

Definition wal_frame_prefix (log_index : N) (payload : bytes) : bytes :=
  FRAME_MAGIC ++ u16_be FRAME_VERSION ++ u64_be log_index ++ u32_be (len payload) ++ payload.

(** Panics when the length does not fit, which every caller has excluded. *)
Definition encode_frame (log_index : N) (payload : bytes) : res WalError bytes :=
  if (U32_MAX <? len payload)%N then Panic
  else
    let frame := wal_frame_prefix log_index payload in
    Ok (frame ++ sha256 frame).

Definition decode_header (header : bytes) : option (N * N) :=
  if negb (length header =? FRAME_HEADER_BYTES)
     || negb (bool_decide (slice 0 4 header = FRAME_MAGIC)) then None
  else if negb (of_be (slice 4 6 header) =? FRAME_VERSION)%N then None
  else
    let log_index := of_be (slice 6 14 header) in
    let payload_len := of_be (slice 14 18 header) in
    if (log_index =? 0)%N then None else Some (log_index, payload_len).

(** ** Scanning one replica *)
Record ReplicaScan := {
  rs_replica_id : ReplicaId;
  rs_records : gmap N bytes;
  rs_torn_tail : bool;
  rs_corrupt_index : option N;
  rs_physical_bytes : N;
}.

Inductive scan_end := ScanClean | ScanTorn | ScanCorrupt (index : N).

(** What the loop of [scan_replica] finds at the start of the unread bytes. *)
Inductive scan_item :=
  | ItemStop (e : scan_end)
  | ItemFrame (payload : bytes) (frame_len : nat).

Definition scan_frame (rest : bytes) (expected_index : N) : scan_item :=
  if length rest <? FRAME_HEADER_BYTES then ItemStop ScanTorn
  else
    match decode_header (slice 0 FRAME_HEADER_BYTES rest) with
    | None => ItemStop (ScanCorrupt expected_index)
    | Some (log_index, payload_len) =>
        let frame_len :=
          (N.of_nat FRAME_HEADER_BYTES + payload_len + N.of_nat FRAME_CHECKSUM_LEN)%N in
        if (MAX_PAYLOAD_LEN <? payload_len)%N then ItemStop (ScanCorrupt log_index)
        else if (len rest <? frame_len)%N then ItemStop ScanTorn
        else
          let frame_len := N.to_nat frame_len in
          let frame := slice 0 frame_len rest in
          let checksum_offset := frame_len - FRAME_CHECKSUM_LEN in
          if negb (bool_decide (sha256 (take checksum_offset frame) = drop checksum_offset frame))
          then ItemStop (ScanCorrupt log_index)
          else if negb (log_index =? expected_index)%N then ItemStop (ScanCorrupt expected_index)
          else ItemFrame
                 (slice FRAME_HEADER_BYTES (FRAME_HEADER_BYTES + N.to_nat payload_len) frame)
                 frame_len
    end.

(** A frame has at least 50 bytes, so [length bytes] iterations are enough;
    running out of fuel is reported as [Panic]. *)
Fixpoint scan_loop (fuel : nat) (bs : bytes) (offset : nat) (expected_index : N)
    (records : gmap N bytes) : res WalError (gmap N bytes * scan_end) :=
  if negb (offset <? length bs) then Ok (records, ScanClean)
  else
    match fuel with
    | O => Panic
    | S fuel =>
        match scan_frame (drop offset bs) expected_index with
        | ItemStop e => Ok (records, e)
        | ItemFrame payload frame_len =>
            scan_loop fuel bs (offset + frame_len) (saturating_add expected_index 1)
              (<[expected_index := payload]> records)
        end
    end.

Definition scan_replica (replica_id : ReplicaId) (bs : bytes) : res WalError ReplicaScan :=
  let? '(records, e) := scan_loop (length bs) bs 0 1 ∅ in
  Ok {| rs_replica_id := replica_id; rs_records := records;
        rs_torn_tail := match e with ScanTorn => true | _ => false end;
        rs_corrupt_index := match e with ScanCorrupt i => Some i | _ => None end;
        rs_physical_bytes := len bs |}.

(** ** Recovery *)
Abbreviation candidates := (gmap bytes (bytes * list ReplicaId)).

(** [entry(digest).or_insert_with(..).1.push(replica)]. *)
Definition add_candidate (log_index : N) (m : candidates) (scan : ReplicaScan) : candidates :=
  match rs_records scan !! log_index with
  | Some payload =>
      let '(p, ids) := default (payload, []) (m !! sha256 payload) in
      <[sha256 payload := (p, ids ++ [rs_replica_id scan])]> m
  | None => m
  end.

Definition candidates_at (scans : list ReplicaScan) (log_index : N) : candidates :=
  foldl (add_candidate log_index) ∅ scans.

(** [candidates.into_values().filter(|(_, replicas)| replicas.len() >= quorum)]. *)
Definition quorum_candidates (quorum : nat) (m : candidates) : list (bytes * list ReplicaId) :=
  List.filter (λ c, quorum <=? length c.2) (bt_items m).*2.

(** [*counts.entry(digest).or_default() += 1]. *)
Definition add_count (log_index : N) (m : gmap bytes nat) (scan : ReplicaScan) : gmap bytes nat :=
  match rs_records scan !! log_index with
  | Some payload => <[sha256 payload := S (default 0 (m !! sha256 payload))]> m
  | None => m
  end.

Definition quorum_exists (quorum : nat) (scans : list ReplicaScan) (log_index : N) : bool :=
  bt_any (λ count, quorum <=? count) (foldl (add_count log_index) ∅ scans).

(** [first..=last] over [u64]. *)
Definition indices (first last : N) : list N :=
  (λ n, first + N.of_nat n)%N <$> seq 0 (N.to_nat (last + 1 - first)).

Definition maximum_index (scans : list ReplicaScan) : N :=
  foldl N.max 0%N (omap (λ scan, fst <$> bt_last (rs_records scan)) scans).

(** The loop over [log_index in 1..=maximum_index]. *)
Fixpoint recover_loop (quorum : nat) (scans : list ReplicaScan) (maximum : N)
    (todo : list N) (records : list RecoveredRecord)
    : res WalError (list RecoveredRecord * N) :=
  match todo with
  | [] => Ok (records, 0%N)
  | log_index :: todo =>
      match quorum_candidates quorum (candidates_at scans log_index) with
      | [] =>
          match List.find (λ scan, bool_decide (rs_corrupt_index scan = Some log_index)) scans with
          | Some scan => Err (CompleteFrameCorruption (rs_replica_id scan) log_index)
          | None =>
              if existsb (quorum_exists quorum scans) (indices (log_index + 1) maximum) then
                Err (MissingContiguousQuorum log_index)
              else
                Ok (records,
                    foldl N.add 0%N
                      ((λ scan, len (bt_range (λ i, (log_index <=? i)%N) (rs_records scan)))
                       <$> scans))
          end
      | [(payload, replica_ids)] =>
          recover_loop quorum scans maximum todo
            (records ++ [{| rr_log_index := log_index; rr_payload := payload;
                            rr_replica_ids := merge_sort le replica_ids |}])
      | _ :: _ :: _ => Err (ConflictingQuorum log_index)
      end
  end.

Definition recover (w : LocalReplicatedWal) : res WalError Recovery :=
  let? scans := res_collect (λ f, scan_replica f.1 f.2) (imap pair (wal_files w)) in
  let maximum := maximum_index scans in
  let? '(records, ignored) :=
    recover_loop (wal_quorum w) scans maximum (indices 1 maximum) [] in
  Ok {| rc_records := records;
        rc_torn_tail_replicas := rs_replica_id <$> List.filter rs_torn_tail scans;
        rc_ignored_uncommitted_records := ignored;
        rc_physical_bytes := foldl saturating_add 0%N (rs_physical_bytes <$> scans) |}.

(** ** Appending and rewriting *)

(** Each selected replica is known and named once. *)
Fixpoint check_selected (count : nat) (unique : gset ReplicaId) (selected : list ReplicaId)
    : bool :=
  match selected with
  | [] => true
  | id :: selected =>
      if (count <=? id) || bool_decide (id ∈ unique) then false
      else check_selected count ({[id]} ∪ unique) selected
  end.

(** The writes to the selected replicas in turn; [io id] is [None] when replica
    [id] is written and synced, [Some n] when it fails with [n] bytes in the
    file. *)
Fixpoint write_selected (files : list bytes) (frame : bytes) (io : ReplicaId → option nat)
    (selected : list ReplicaId) : list bytes * bool :=
  match selected with
  | [] => (files, true)
  | id :: selected =>
      match io id with
      | None => write_selected (alter (λ f, f ++ frame) id files) frame io selected
      | Some n => (alter (λ f, f ++ take n frame) id files, false)
      end
  end.

Definition with_files (w : LocalReplicatedWal) (files : list bytes) : LocalReplicatedWal :=
  {| wal_files := files; wal_quorum := wal_quorum w |}.

Definition wal_append (w : LocalReplicatedWal) (log_index : N) (payload : bytes)
    (selected : list ReplicaId) (io : ReplicaId → option nat)
    : LocalReplicatedWal * res WalError AppendOutcome :=
  if (log_index =? 0)%N then (w, Err (InvalidLogIndex log_index))
  else if (MAX_PAYLOAD_LEN <? len payload)%N || (U32_MAX <? len payload)%N then
    (w, Err (PayloadTooLarge (len payload)))
  else if negb (check_selected (replica_count w) ∅ selected) then (w, Err InvalidTopology)
  else
    match encode_frame log_index payload with
    | Ok frame =>
        let '(files, synced) := write_selected (wal_files w) frame io selected in
        if synced then
          (with_files w files,
           Ok {| ao_log_index := log_index; ao_frame_bytes := len frame;
                 ao_synced_replicas := merge_sort le selected;
                 ao_quorum_durable := wal_quorum w <=? length selected |})
        else (with_files w files, Err WalIo)
    | Err e => (w, Err e)
    | Panic => (w, Panic)
    end.

Fixpoint check_rewrite (offset : nat) (records : list (N * bytes)) : res WalError unit :=
  match records with
  | [] => Ok tt
  | (log_index, payload) :: records =>
      let expected := saturating_add (N.of_nat offset) 1 in
      if negb (log_index =? expected)%N then Err (InvalidLogIndex log_index)
      else if (MAX_PAYLOAD_LEN <? len payload)%N || (U32_MAX <? len payload)%N then
        Err (PayloadTooLarge (len payload))
      else check_rewrite (S offset) records
  end.

(** Every replica's file is replaced by a synced temporary through a rename;
    [fail_at] is the replica at which an error is returned, those before it
    having been replaced. *)
Definition wal_rewrite (w : LocalReplicatedWal) (records : list (N * bytes)) (fail_at : option nat)
    : LocalReplicatedWal * res WalError unit :=
  match check_rewrite 0 records, res_collect (λ r, encode_frame r.1 r.2) records with
  | Ok _, Ok frames =>
      match fail_at with
      | None => (with_files w (replicate (replica_count w) (mjoin frames)), Ok tt)
      | Some n =>
          (with_files w (replicate (n `min` replica_count w) (mjoin frames) ++
                         drop n (wal_files w)), Err WalIo)
      end
  | Err e, _ => (w, Err e)
  | Ok _, Err e => (w, Err e)
  | _, _ => (w, Panic)
  end.
End wal.
