(* ===== verification/WalCodec.v ===== *)
(** * The log's frame codec and the scan of a replica

    Round trip of a frame, torn frames, and the scan of a file that holds whole
    frames of a log followed by nothing or by a torn frame. *)

From S2P Require Import Prelude Order BTree Bytes Wal.

Section frames.
Context (sha256 : bytes → bytes) (sha256_len : digest_len sha256).

Definition wframe (i : N) (p : bytes) : bytes :=
  wal_frame_prefix i p ++ sha256 (wal_frame_prefix i p).

Definition wheader (i : N) (p : bytes) : bytes :=
  FRAME_MAGIC ++ u16_be FRAME_VERSION ++ u64_be i ++ u32_be (len p).

Definition payload_ok (p : bytes) : Prop := (len p ≤ MAX_PAYLOAD_LEN)%N.
Definition index_ok (i : N) : Prop := (0 < i)%N ∧ u64_wf i.

Lemma wal_prefix_header i p : wal_frame_prefix i p = wheader i p ++ p.
Proof. unfold wal_frame_prefix, wheader. by rewrite <-!app_assoc. Qed.

Lemma length_wheader i p : length (wheader i p) = FRAME_HEADER_BYTES.
Proof. unfold wheader. autorewrite with len_simpl. done. Qed.

Lemma length_wal_prefix i p : length (wal_frame_prefix i p) = FRAME_HEADER_BYTES + length p.
Proof. by rewrite wal_prefix_header, length_app, length_wheader. Qed.

Lemma length_wframe i p : length (wframe i p) = 50 + length p.
Proof.
  unfold wframe. rewrite length_app, length_wal_prefix, sha256_len.
  unfold FRAME_HEADER_BYTES. lia.
Qed.

Lemma encode_frame_Ok i p : payload_ok p → encode_frame sha256 i p = Ok (wframe i p).
Proof.
  unfold payload_ok, encode_frame. intros Hp. rewrite (proj2 (N.ltb_ge _ _)); [done|].
  unfold MAX_PAYLOAD_LEN, U32_MAX in *. lia.
Qed.

Lemma u32_len p : payload_ok p → of_be (u32_be (len p)) = len p.
Proof.
  intros Hp. apply of_be_be. unfold payload_ok, MAX_PAYLOAD_LEN in Hp.
  change (256 ^ N.of_nat 4)%N with 4294967296%N. lia.
Qed.

Lemma decode_wheader i p :
  index_ok i → payload_ok p → decode_header (wheader i p) = Some (i, len p).
Proof.
  intros [Hi Hw] Hp. unfold decode_header. rewrite length_wheader, Nat.eqb_refl.
  assert (slice 6 14 (wheader i p) = u64_be i) as ->.
  { unfold wheader. rewrite app_assoc. by apply slice_app_at; autorewrite with len_simpl. }
  assert (slice 14 18 (wheader i p) = u32_be (len p)) as ->.
  { unfold wheader. rewrite !app_assoc, <-(app_nil_r (_ ++ u32_be _)), <-app_assoc.
    by apply slice_app_at; autorewrite with len_simpl. }
  rewrite of_u64_be, u32_len by done.
  change (slice 0 4 (wheader i p)) with FRAME_MAGIC.
  change (of_be (slice 4 6 (wheader i p))) with FRAME_VERSION.
  rewrite bool_decide_true by done. cbn [negb orb]. rewrite N.eqb_refl. cbn [negb].
  by rewrite (proj2 (N.eqb_neq _ _)) by lia.
Qed.

Lemma scan_wframe i p rest e :
  index_ok i → payload_ok p →
  scan_frame sha256 (wframe i p ++ rest) e =
    if (i =? e)%N then ItemFrame p (length (wframe i p)) else ItemStop (ScanCorrupt e).
Proof.
  intros Hi Hp. unfold scan_frame. rewrite (proj2 (Nat.ltb_ge _ _)).
  2: { rewrite length_app, length_wframe. unfold FRAME_HEADER_BYTES. lia. }
  assert (slice 0 FRAME_HEADER_BYTES (wframe i p ++ rest) = wheader i p) as ->.
  { unfold wframe. rewrite wal_prefix_header, <-!app_assoc. apply slice_0_app, length_wheader. }
  rewrite decode_wheader by done. rewrite (proj2 (N.ltb_ge _ _)) by done.
  assert (N.of_nat FRAME_HEADER_BYTES + len p + N.of_nat FRAME_CHECKSUM_LEN
    = len (wframe i p))%N as ->.
  { unfold len. rewrite length_wframe. unfold FRAME_HEADER_BYTES, FRAME_CHECKSUM_LEN. lia. }
  rewrite (proj2 (N.ltb_ge _ _)) by (unfold len; rewrite length_app; lia).
  unfold len. rewrite Nat2N.id, Nat2N.id, slice_0_app by done.
  assert (length (wframe i p) - FRAME_CHECKSUM_LEN = length (wal_frame_prefix i p)) as ->.
  { rewrite length_wframe, length_wal_prefix.
    unfold FRAME_CHECKSUM_LEN, FRAME_HEADER_BYTES. lia. }
  rewrite bool_decide_true.
  2: { unfold wframe. by rewrite take_app_length, drop_app_length. }
  assert (slice FRAME_HEADER_BYTES (FRAME_HEADER_BYTES + length p) (wframe i p) = p) as ->.
  { unfold wframe. rewrite wal_prefix_header, <-app_assoc.
    by apply slice_app_at; [apply length_wheader|]. }
  cbn [negb]. by destruct (i =? e)%N.
Qed.

Lemma scan_wframe_torn i p n e :
  index_ok i → payload_ok p → n < length (wframe i p) →
  scan_frame sha256 (take n (wframe i p)) e = ItemStop ScanTorn.
Proof.
  intros Hi Hp Hn. unfold scan_frame.
  destruct (_ <? FRAME_HEADER_BYTES) eqn:Hlt; [done|].
  apply Nat.ltb_ge in Hlt. rewrite length_take_le in Hlt by lia.
  assert (slice 0 FRAME_HEADER_BYTES (take n (wframe i p)) = wheader i p) as ->.
  { rewrite slice_0, take_take, Nat.min_l by done. unfold wframe.
    rewrite wal_prefix_header, <-app_assoc. apply take_app_length'.
    by rewrite length_wheader. }
  rewrite decode_wheader by done. rewrite (proj2 (N.ltb_ge _ _)) by done.
  rewrite (proj2 (N.ltb_lt _ _)); [done|].
  unfold len. rewrite length_take_le by lia. rewrite length_wframe in Hn.
  unfold FRAME_HEADER_BYTES, FRAME_CHECKSUM_LEN. lia.
Qed.

(** ** The file of a log *)

(** The frames of the entries of a log, the first with index [k + 1]. *)
Definition frames_from (k : nat) (log : list bytes) : bytes :=
  mjoin (imap (λ i p, wframe (N.of_nat (k + i) + 1) p) log).
Definition log_file (log : list bytes) : bytes := frames_from 0 log.

Definition log_map (log : list bytes) : gmap N bytes :=
  list_to_map (imap (λ i p, (N.of_nat i + 1, p)%N) log).

Definition log_ok (log : list bytes) : Prop :=
  Forall payload_ok log ∧ (N.of_nat (length log) < U64_MAX)%N.

Lemma frames_from_cons k p log : frames_from k (p :: log) = wframe (N.of_nat k + 1) p ++ frames_from (S k) log.
Proof.
  unfold frames_from. rewrite imap_cons, Nat.add_0_r.
  apply (f_equal2 app); [done|]. apply (f_equal mjoin), imap_ext.
  intros i q _. simpl. by rewrite <-Nat.add_succ_comm.
Qed.

Lemma log_map_snoc log p :
  log_map (log ++ [p]) = <[(N.of_nat (length log) + 1)%N := p]> (log_map log).
Proof.
  unfold log_map. rewrite imap_app. simpl. rewrite Nat.add_0_r.
  rewrite (list_to_map_app (M := gmap N)). simpl.
  rewrite insert_empty, <-insert_union_singleton_r; [done|].
  apply not_elem_of_list_to_map_1. rewrite list_elem_of_fmap.
  intros ([j q] & Hj & Hin). simpl in Hj.
  apply elem_of_lookup_imap in Hin as (i & r & [= -> ->] & Hi).
  apply lookup_lt_Some in Hi. lia.
Qed.

Lemma log_map_lookup log i :
  log_map log !! i = if (i =? 0)%N then None else log !! (N.to_nat i - 1).
Proof.
  induction log as [|p log IH] using rev_ind.
  { unfold log_map. simpl. rewrite lookup_empty. by case_match. }
  rewrite log_map_snoc. destruct (decide (N.of_nat (length log) + 1 = i)%N) as [<-|Hne].
  - rewrite lookup_insert_eq, (proj2 (N.eqb_neq _ _)) by lia.
    replace (N.to_nat _ - 1) with (length log) by lia. by rewrite list_lookup_middle.
  - rewrite lookup_insert_ne, IH by done. destruct (i =? 0)%N eqn:Hi; [done|].
    apply N.eqb_neq in Hi. destruct (decide (N.to_nat i - 1 < length log)).
    + by rewrite lookup_app_l.
    + rewrite !lookup_ge_None_2; [done|rewrite length_app; simpl; lia|lia].
Qed.

(** What a crash leaves after the last whole frame. *)
Definition torn (t : bytes) : Prop :=
  t = [] ∨ ∃ i p n, index_ok i ∧ payload_ok p ∧ n < length (wframe i p) ∧
    t = take n (wframe i p).

Lemma scan_loop_log log2 log1 fuel bs offset t :
  log_ok (log1 ++ log2) → drop offset bs = frames_from (length log1) log2 ++ t →
  offset ≤ length bs → length bs - offset ≤ fuel →
  ∃ fuel' offset', length bs - offset' ≤ fuel' ∧ offset' ≤ length bs ∧ drop offset' bs = t ∧
    scan_loop sha256 fuel bs offset (N.of_nat (length log1) + 1) (log_map log1) =
    scan_loop sha256 fuel' bs offset' (N.of_nat (length (log1 ++ log2)) + 1)
      (log_map (log1 ++ log2)).
Proof.
  revert log1 fuel offset. induction log2 as [|p log2 IH]; intros log1 fuel offset Hok Hd Ho Hf.
  { exists fuel, offset. rewrite app_nil_r. done. }
  rewrite frames_from_cons, <-app_assoc in Hd.
  set (i := (N.of_nat (length log1) + 1)%N) in *.
  assert (length bs - offset = length (wframe i p) + length (frames_from (S (length log1)) log2 ++ t))
    as Hl by by rewrite <-length_drop, Hd, length_app.
  pose proof (length_wframe i p) as Hwl. destruct Hok as [Hps Hlen].
  rewrite length_app in Hlen. simpl in Hlen.
  assert (index_ok i ∧ (i < U64_MAX)%N) as [Hi Hlt] by (unfold i, index_ok, u64_wf in *; lia).
  assert (payload_ok p) as Hp by (apply Forall_app in Hps as [_ Hps]; by inversion Hps).
  destruct fuel as [|fuel]; [lia|].
  destruct (IH (log1 ++ [p]) fuel (offset + length (wframe i p)))
    as (fuel' & off' & Hf' & Ho' & Hd' & Heq); try lia.
  { split; rewrite <-app_assoc; [done|]. rewrite length_app. simpl. lia. }
  { rewrite <-drop_drop, Hd, drop_app_length, length_app. simpl. by rewrite Nat.add_1_r. }
  exists fuel', off'. split_and!; [done..|]. rewrite <-app_assoc in Heq.
  change ([p] ++ log2) with (p :: log2) in Heq. rewrite <-Heq.
  cbn [scan_loop]. rewrite (proj2 (Nat.ltb_lt _ _)) by lia. cbn [negb].
  rewrite Hd, scan_wframe, N.eqb_refl by done.
  rewrite saturating_add_succ, log_map_snoc, length_app by done. simpl.
  do 2 f_equal. unfold i. lia.
Qed.

Lemma scan_loop_done fuel bs offset e m :
  offset ≤ length bs → drop offset bs = [] → scan_loop sha256 fuel bs offset e m = Ok (m, ScanClean).
Proof.
  intros Ho Hd. apply (f_equal length) in Hd. rewrite length_drop in Hd. simpl in Hd.
  destruct fuel; simpl; by rewrite (proj2 (Nat.ltb_ge _ _)) by lia.
Qed.

Lemma scan_replica_log id log t :
  log_ok log → torn t →
  scan_replica sha256 id (log_file log ++ t) =
    Ok {| rs_replica_id := id; rs_records := log_map log;
          rs_torn_tail := negb (bool_decide (t = [])); rs_corrupt_index := None;
          rs_physical_bytes := len (log_file log ++ t) |}.
Proof.
  intros Hok Ht. unfold scan_replica. set (bs := log_file log ++ t).
  destruct (scan_loop_log log [] (length bs) bs 0 t) as (fuel & off & Hf & Ho & Hd & Heq);
    [done..|lia|lia|].
  change (log_map []) with (∅ : gmap N bytes) in Heq.
  change (N.of_nat (length (@nil bytes)) + 1)%N with 1%N in Heq. cbn [app] in Heq.
  rewrite Heq. destruct (decide (t = [])) as [Hnil|Hne].
  { rewrite scan_loop_done by (done || by rewrite Hd). simpl.
    by rewrite (bool_decide_true (t = [])). }
  destruct Ht as [?|(i & p & n & Hi & Hp & Hn & Ht)]; [done|].
  destruct fuel as [|fuel].
  { exfalso. apply Hne. rewrite <-Hd. apply drop_ge. lia. }
  cbn [scan_loop]. rewrite (proj2 (Nat.ltb_lt _ _)).
  2: { apply Nat.nle_gt. intros Hle. apply Hne. rewrite <-Hd. by apply drop_ge. }
  cbn [negb]. rewrite Hd, Ht, scan_wframe_torn by done. simpl. rewrite <-Ht.
  by rewrite (bool_decide_false (t = [])).
Qed.

(** The scan of any file terminates within its fuel. *)
Lemma scan_loop_total fuel bs offset e m :
  length bs - offset ≤ fuel → offset ≤ length bs → scan_loop sha256 fuel bs offset e m ≠ Panic.
Proof.
  revert offset e m. induction fuel as [|fuel IH]; intros offset e m Hf Ho.
  all: cbn [scan_loop]; destruct (offset <? length bs) eqn:Hlt; cbn [negb]; try done.
  all: apply Nat.ltb_lt in Hlt.
  { lia. }
  destruct (scan_frame _ _ _) as [end_|p n] eqn:Hs; [done|].
  assert (50 ≤ n ≤ length bs - offset) as Hn; [|apply IH; lia].
  revert Hs. unfold scan_frame. repeat case_match; try done. intros [= _ <-].
  destruct_bool_hyps. unfold len in *. rewrite length_drop in *.
  unfold FRAME_HEADER_BYTES, FRAME_CHECKSUM_LEN in *. lia.
Qed.
End frames.
