(* ===== verification/WalRuns.v ===== *)
(** * What the replicated log guarantees

    Recovery from replica files that each hold a prefix of one log, torn or
    not, returns exactly the part of the log a quorum holds; an acknowledged
    append to current replicas is recovered; a rewrite replaces the log. *)

From S2P Require Import Prelude Order BTree Bytes Wal WalCodec.

Section recovery.
Context (sha256 : bytes → bytes) (sha256_len : digest_len sha256).

(** ** Candidates at one index *)

(** The replicas whose scan has a record at [i]. *)
Definition holders (scans : list ReplicaScan) (i : N) : list nat :=
  rs_replica_id <$> List.filter (λ s, is_some (rs_records s !! i)) scans.

Definition single (p : bytes) (ids : list nat) : gmap bytes (bytes * list nat) :=
  match ids with [] => ∅ | _ :: _ => {[sha256 p := (p, ids)]} end.

(** Every replica that has a record at [i] has [p]. *)
Definition agree (scans : list ReplicaScan) (i : N) (p : bytes) : Prop :=
  ∀ s, s ∈ scans → rs_records s !! i = None ∨ rs_records s !! i = Some p.

Lemma agree_cons s scans i p :
  agree (s :: scans) i p →
  (rs_records s !! i = None ∨ rs_records s !! i = Some p) ∧ agree scans i p.
Proof.
  intros Ha. split; [apply Ha; by constructor|]. intros s' Hs'. apply Ha. by constructor.
Qed.

Lemma add_single p ids i s :
  rs_records s !! i = Some p →
  add_candidate sha256 i (single p ids) s = single p (ids ++ [rs_replica_id s]).
Proof.
  intros Hs. unfold add_candidate. rewrite Hs. destruct ids as [|id ids]; simpl.
  - by rewrite lookup_empty.
  - rewrite lookup_singleton_eq. simpl. by rewrite insert_singleton_eq.
Qed.

Lemma candidates_single scans i p :
  agree scans i p → candidates_at sha256 scans i = single p (holders scans i).
Proof.
  unfold candidates_at. change (∅ : gmap bytes (bytes * list nat)) with (single p []).
  change (holders scans i) with ([] ++ holders scans i). generalize (@nil nat).
  induction scans as [|s scans IH]; intros ids Ha; [by rewrite app_nil_r|].
  apply agree_cons in Ha as [Hs Ha]. unfold holders. simpl.
  destruct Hs as [Hs|Hs].
  - rewrite Hs. simpl. unfold add_candidate at 2. rewrite Hs. by apply IH.
  - rewrite Hs. simpl. rewrite add_single, IH by done. by rewrite <-app_assoc.
Qed.

Lemma quorum_single quorum p ids :
  0 < quorum →
  quorum_candidates quorum (single p ids) = if quorum <=? length ids then [(p, ids)] else [].
Proof.
  intros Hq. unfold quorum_candidates. destruct ids as [|id ids].
  { simpl. rewrite (proj2 (Nat.leb_gt _ _)) by lia. done. }
  cbn [single]. unfold bt_items. rewrite map_to_list_singleton. done.
Qed.

Lemma counts_single scans i p :
  agree scans i p →
  foldl (add_count sha256 i) ∅ scans =
    match holders scans i with [] => ∅ | ids => {[sha256 p := length ids]} end.
Proof.
  set (cnt := λ n : nat, match n with 0 => ∅ | S _ => {[sha256 p := n]} end : gmap bytes nat).
  assert (∀ n, agree scans i p →
    foldl (add_count sha256 i) (cnt n) scans = cnt (n + length (holders scans i))) as Hgen.
  { induction scans as [|s scans IH]; intros n Ha; [by rewrite Nat.add_0_r|].
    apply agree_cons in Ha as [Hs Ha]. unfold holders. simpl.
    destruct Hs as [Hs|Hs]; rewrite Hs; simpl; unfold add_count at 2; rewrite Hs; [by apply IH|].
    assert (<[sha256 p := S (default 0 (cnt n !! sha256 p))]> (cnt n) = cnt (S n)) as ->.
    { destruct n; simpl; [by rewrite lookup_empty|].
      rewrite lookup_singleton_eq. simpl. by rewrite insert_singleton_eq. }
    rewrite IH by done. by rewrite <-Nat.add_succ_comm. }
  intros Ha. change ∅ with (cnt 0) at 1. rewrite (Hgen 0 Ha). simpl.
  by destruct (holders scans i).
Qed.

Lemma quorum_exists_single quorum scans i p :
  0 < quorum → agree scans i p →
  quorum_exists sha256 quorum scans i = (quorum <=? length (holders scans i)).
Proof.
  intros Hq Ha. unfold quorum_exists. rewrite (counts_single _ _ p Ha).
  destruct (holders scans i) as [|id ids].
  - simpl. rewrite (proj2 (Nat.leb_gt _ _)) by lia. done.
  - unfold bt_any, bt_items. rewrite map_to_list_singleton. simpl. by rewrite orb_false_r.
Qed.

(** ** Replicas that hold prefixes of one log *)

(** Replica files of [log]: the [j]-th holds its first [ks !! j] records and at
    most a torn frame after them. *)
Definition holds (log : list bytes) (files : list bytes) (ks : list nat) : Prop :=
  Forall2 (λ f k, k ≤ length log ∧ ∃ t, torn sha256 t ∧ f = log_file sha256 (take k log) ++ t)
    files ks.

(** How many replicas hold the record after the first [i]. *)
Definition held (ks : list nat) (i : nat) : nat := length (List.filter (λ k, i <? k) ks).

Lemma held_antitone ks i j : i ≤ j → held ks j ≤ held ks i.
Proof.
  intros Hij. unfold held. induction ks as [|k ks IH]; simpl; [done|].
  destruct (j <? k) eqn:Hj, (i <? k) eqn:Hi; simpl; try lia.
  apply Nat.ltb_lt in Hj. apply Nat.ltb_ge in Hi. lia.
Qed.

Lemma held_pos ks i : 0 < held ks i → ∃ k, k ∈ ks ∧ i < k.
Proof.
  unfold held. induction ks as [|k ks IH]; simpl; [lia|].
  destruct (i <? k) eqn:Hi; [apply Nat.ltb_lt in Hi; exists k; split; [constructor|done]|].
  intros (k' & Hk' & ?)%IH. exists k'. split; [by constructor|done].
Qed.

(** [q] records of the log are held by [quorum] replicas. *)
Definition quorum_prefix (quorum : nat) (ks : list nat) (q : nat) : Prop :=
  ∀ i, i < q ↔ quorum ≤ held ks i.

Lemma quorum_prefix_exists quorum ks : 0 < quorum → ∃ q, quorum_prefix quorum ks q.
Proof.
  intros Hq. assert (∃ n, ∀ i, n ≤ i → held ks i < quorum) as [n Hn].
  { exists (S (max_list ks)). intros i Hi. apply Nat.nle_gt. intros Hle.
    destruct (held_pos ks i) as (k & Hk & Hik); [lia|]. apply max_list_elem_of_le in Hk. lia. }
  induction n as [|n IH].
  { exists 0. intros i. specialize (Hn i). lia. }
  destruct (decide (quorum ≤ held ks n)) as [Hle|Hgt].
  - exists (S n). intros i. split; intros Hi.
    + pose proof (held_antitone ks i n). lia.
    + apply Nat.nle_gt. intros Hle'. specialize (Hn i Hle'). lia.
  - apply IH. intros i Hi. destruct (decide (i = n)) as [->|]; [lia|]. apply Hn. lia.
Qed.

Definition scan_holds (log : list bytes) (s : ReplicaScan) (k : nat) : Prop :=
  k ≤ length log ∧ rs_records s = log_map (take k log) ∧ rs_corrupt_index s = None.

Lemma scan_holds_lookup log s k i :
  scan_holds log s k →
  rs_records s !! (N.of_nat i + 1)%N = if i <? k then log !! i else None.
Proof.
  intros (Hk & -> & _). rewrite log_map_lookup, (proj2 (N.eqb_neq _ _)) by lia.
  replace (N.to_nat (N.of_nat i + 1) - 1) with i by lia.
  destruct (i <? k) eqn:Hi.
  - apply Nat.ltb_lt in Hi. by rewrite lookup_take_lt.
  - apply Nat.ltb_ge in Hi. by rewrite lookup_take_ge.
Qed.

(** The payload of index [i + 1]; any value past the end of the log. *)
Definition entry (log : list bytes) (i : nat) : bytes := default [] (log !! i).

Lemma scan_holds_entry log s k i :
  scan_holds log s k →
  rs_records s !! (N.of_nat i + 1)%N = if i <? k then Some (entry log i) else None.
Proof.
  intros Hs. rewrite (scan_holds_lookup _ _ _ i Hs). destruct (i <? k) eqn:Hi; [|done].
  apply Nat.ltb_lt in Hi. destruct Hs as [Hk _]. unfold entry.
  destruct (lookup_lt_is_Some_2 log i) as [p Hp]; [lia|]. by rewrite Hp.
Qed.

Lemma scans_agree log scans ks i :
  Forall2 (scan_holds log) scans ks → agree scans (N.of_nat i + 1) (entry log i).
Proof.
  intros Hs s Hin. apply list_elem_of_lookup in Hin as [j Hj].
  destruct (Forall2_lookup_l _ _ _ _ _ Hs Hj) as (k & _ & Hk).
  rewrite (scan_holds_entry _ _ _ i Hk). destruct (i <? k); auto.
Qed.

Lemma holders_held log scans ks i :
  Forall2 (scan_holds log) scans ks → length (holders scans (N.of_nat i + 1)) = held ks i.
Proof.
  intros Hs. unfold holders, held. rewrite length_fmap.
  induction Hs as [|s k scans ks Hk _ IH]; [done|]. simpl.
  rewrite (scan_holds_entry _ _ _ i Hk). destruct (i <? k); simpl; [by rewrite IH|done].
Qed.

Lemma indices_step i m :
  indices (N.of_nat i + 1) (N.of_nat m) =
    if i <? m then (N.of_nat i + 1)%N :: indices (N.of_nat (S i) + 1) (N.of_nat m) else [].
Proof.
  unfold indices. destruct (i <? m) eqn:Hi.
  - apply Nat.ltb_lt in Hi.
    replace (N.to_nat (N.of_nat m + 1 - (N.of_nat i + 1))) with (S (m - S i)) by lia.
    replace (N.to_nat (N.of_nat m + 1 - (N.of_nat (S i) + 1))) with (m - S i) by lia.
    simpl. f_equal; [lia|]. rewrite <-seq_shift, <-list_fmap_compose.
    apply list_fmap_ext. intros _ x _. simpl. lia.
  - apply Nat.ltb_ge in Hi.
    by replace (N.to_nat (N.of_nat m + 1 - (N.of_nat i + 1))) with 0 by lia.
Qed.

Lemma indices_snoc i :
  indices 1 (N.of_nat (S i)) = indices 1 (N.of_nat i) ++ [(N.of_nat i + 1)%N].
Proof.
  unfold indices. replace (N.to_nat (N.of_nat (S i) + 1 - 1)) with (S i) by lia.
  replace (N.to_nat (N.of_nat i + 1 - 1)) with i by lia.
  rewrite seq_S, fmap_app. f_equal. simpl. f_equal. lia.
Qed.

Lemma elem_of_indices x first last : x ∈ indices first last → (first ≤ x ≤ last)%N.
Proof. unfold indices. intros (n & -> & Hn)%list_elem_of_fmap. apply elem_of_seq in Hn. lia. Qed.

Lemma find_corrupt_None log scans ks i :
  Forall2 (scan_holds log) scans ks →
  List.find (λ s, bool_decide (rs_corrupt_index s = Some i)) scans = None.
Proof.
  induction 1 as [|s k scans ks (_ & _ & Hc) _ IH]; [done|]. simpl.
  by rewrite bool_decide_false by congruence.
Qed.

Lemma later_quorum_none log scans ks quorum q i m :
  Forall2 (scan_holds log) scans ks → 0 < quorum → quorum_prefix quorum ks q → q ≤ i →
  existsb (quorum_exists sha256 quorum scans) (indices (N.of_nat i + 1) m) = false.
Proof.
  intros Hs Hpos Hq Hi. apply existsb_false. intros x Hx%elem_of_indices.
  replace x with (N.of_nat (N.to_nat x - 1) + 1)%N by lia.
  rewrite (quorum_exists_single _ _ _ _ Hpos (scans_agree _ _ _ _ Hs)).
  rewrite (holders_held _ _ _ _ Hs). apply Nat.leb_gt, Nat.nle_gt.
  rewrite <-(Hq _). lia.
Qed.

Definition recovers (log : list bytes) (q : nat) (records : list RecoveredRecord) : Prop :=
  rr_payload <$> records = take q log ∧ rr_log_index <$> records = indices 1 (N.of_nat q).

Lemma recover_loop_prefix log scans ks quorum q m :
  Forall2 (scan_holds log) scans ks → 0 < quorum → quorum_prefix quorum ks q →
  q ≤ length log → q ≤ m →
  ∀ d i records, d = q - i → i ≤ q → recovers log i records →
  ∃ records' ignored,
    recover_loop sha256 quorum scans (N.of_nat m) (indices (N.of_nat i + 1) (N.of_nat m)) records
      = Ok (records', ignored) ∧ recovers log q records'.
Proof.
  intros Hs Hpos Hq Hql Hqm d. induction d as [|d IH]; intros i records Hd Hi Hrec.
  - assert (i = q) as -> by lia. rewrite indices_step. destruct (q <? m); [|by eauto].
    cbn [recover_loop].
    rewrite (candidates_single _ _ _ (scans_agree _ _ _ q Hs)), quorum_single by done.
    rewrite (holders_held _ _ _ _ Hs), (proj2 (Nat.leb_gt _ _)).
    2: { apply Nat.nle_gt. rewrite <-(Hq q). lia. }
    rewrite (find_corrupt_None _ _ _ _ Hs).
    replace (N.of_nat q + 1 + 1)%N with (N.of_nat (S q) + 1)%N by lia.
    rewrite (later_quorum_none _ _ _ _ _ _ _ Hs Hpos Hq) by lia. eauto.
  - rewrite indices_step, (proj2 (Nat.ltb_lt _ _)) by lia. cbn [recover_loop].
    rewrite (candidates_single _ _ _ (scans_agree _ _ _ i Hs)), quorum_single by done.
    rewrite (holders_held _ _ _ _ Hs), (proj2 (Nat.leb_le _ _)) by (apply (Hq i); lia).
    apply IH; [lia|lia|]. destruct Hrec as [Hp Hx].
    destruct (lookup_lt_is_Some_2 log i) as [p Hlp]; [lia|].
    split; rewrite fmap_app; simpl.
    + rewrite Hp, (take_S_r _ _ p) by done. unfold entry. by rewrite Hlp.
    + by rewrite Hx, indices_snoc.
Qed.

Lemma log_ok_take log k : log_ok log → log_ok (take k log).
Proof.
  intros [Hp Hl]. split; [by apply Forall_take|]. rewrite length_take. lia.
Qed.

Lemma collect_scans log files ks (g : nat → nat) :
  log_ok log → holds log files ks →
  ∃ scans, res_collect (λ f, scan_replica sha256 f.1 f.2) (imap (λ i f, (g i, f)) files) =
      Ok scans ∧ Forall2 (scan_holds log) scans ks.
Proof.
  intros Hok Hh. revert g. induction Hh as [|f k files ks (Hk & t & Ht & ->) _ IH]; intros g.
  { exists []. by split; [|constructor]. }
  destruct (IH (λ i, g (S i))) as (scans & Hc & Hs).
  eexists. split.
  - rewrite imap_cons. cbn [res_collect fst snd].
    rewrite (scan_replica_log sha256 sha256_len) by auto using log_ok_take. cbn [res_bind].
    unfold compose. rewrite Hc. reflexivity.
  - by constructor.
Qed.

Lemma foldl_max_le l a : (a ≤ foldl N.max a l)%N ∧ ∀ x, x ∈ l → (x ≤ foldl N.max a l)%N.
Proof.
  revert a. induction l as [|y l IH]; intros a; simpl.
  { split; [done|]. intros x Hx. by apply elem_of_nil in Hx. }
  destruct (IH (N.max a y)) as [H1 H2]. split; [lia|].
  intros x [->|Hx]%elem_of_cons; [lia|auto].
Qed.

Lemma maximum_bound log scans ks k :
  Forall2 (scan_holds log) scans ks → k ∈ ks → (N.of_nat k ≤ maximum_index scans)%N.
Proof.
  intros Hs Hk. destruct k as [|k]; [lia|].
  apply list_elem_of_lookup in Hk as [j Hj].
  destruct (Forall2_lookup_r _ _ _ _ _ Hs Hj) as (s & Hsj & Hh).
  pose proof (scan_holds_entry _ _ _ k Hh) as Hl. rewrite (proj2 (Nat.ltb_lt _ _)) in Hl by lia.
  destruct (bt_last (rs_records s)) as [[i v]|] eqn:Hlast.
  - transitivity i.
    + apply bt_last_Some in Hlast as [_ Hmax]. apply Hmax in Hl. rewrite N_key_le in Hl. lia.
    + unfold maximum_index. apply foldl_max_le. apply list_elem_of_omap. exists s.
      split; [by eapply list_elem_of_lookup_2|]. by rewrite Hlast.
  - apply bt_last_None in Hlast. by rewrite Hlast, lookup_empty in Hl.
Qed.

Lemma last_indices q : last (indices 1 (N.of_nat q)) = if q =? 0 then None else Some (N.of_nat q).
Proof.
  destruct q as [|q]; [done|]. rewrite indices_snoc, last_snoc. simpl. f_equal. lia.
Qed.

Lemma recover_holds log w ks q :
  log_ok log → holds log (wal_files w) ks → 0 < wal_quorum w →
  quorum_prefix (wal_quorum w) ks q →
  ∃ rec, recover sha256 w = Ok rec ∧ recovers log q (rc_records rec) ∧
    last_index rec = N.of_nat q ∧ q ≤ length log.
Proof.
  intros Hok Hh Hpos Hq.
  destruct (collect_scans log (wal_files w) ks (λ i, i) Hok Hh) as (scans & Hc & Hs).
  unfold recover. change (imap pair (wal_files w)) with (imap (λ i f, (i, f)) (wal_files w)).
  rewrite Hc. cbn [res_bind].
  assert (q ≤ N.to_nat (maximum_index scans) ∧ q ≤ length log) as [Hqm Hql].
  { destruct q as [|q]; [lia|]. destruct (held_pos ks q) as (k & Hk & Hqk).
    { specialize (proj1 (Hq q)). lia. }
    pose proof (maximum_bound _ _ _ _ Hs Hk). split; [lia|].
    apply list_elem_of_lookup in Hk as [j Hj].
    destruct (Forall2_lookup_r _ _ _ _ _ Hh Hj) as (f & _ & Hkl & _). lia. }
  destruct (recover_loop_prefix log scans ks (wal_quorum w) q _ Hs Hpos Hq Hql Hqm q 0 [])
    as (records & ignored & Hloop & Hrec); [lia|lia|by split|].
  rewrite N2Nat.id in Hloop. change (N.of_nat 0 + 1)%N with 1%N in Hloop. rewrite Hloop.
  cbn [res_bind]. eexists. split_and!; [reflexivity|done| |done].
  unfold last_index. simpl. destruct Hrec as [_ Hx].
  pose proof (last_indices q) as Hlast. rewrite <-Hx, fmap_last in Hlast.
  destruct (last records) as [r|]; simpl in Hlast; destruct q; simpl in *; try done.
  by injection Hlast as ->.
Qed.

(** ** Appending to current replicas *)
Lemma check_selected_NoDup count unique sel :
  check_selected count unique sel = true →
  NoDup sel ∧ (∀ id, id ∈ sel → id < count ∧ id ∉ unique).
Proof.
  revert unique. induction sel as [|id sel IH]; intros unique; simpl.
  { intros _. split; [constructor|]. intros id Hid. by apply elem_of_nil in Hid. }
  destruct (_ || _) eqn:Hor; [done|]. apply orb_false_iff in Hor as [Hc Hu].
  apply Nat.leb_gt in Hc. apply bool_decide_eq_false_1 in Hu.
  intros [Hnd Hsel]%IH. split.
  - constructor; [|done]. intros Hin. apply Hsel in Hin as [_ Hin]. set_solver.
  - intros id' [->|Hin]%elem_of_cons; [done|]. apply Hsel in Hin. set_solver.
Qed.

(** What a write adds to a replica's file. *)
Definition extension (frame e : bytes) : Prop := e = [] ∨ e = frame ∨ ∃ n, e = take n frame.

Lemma write_selected_spec files frame io sel files' ok :
  NoDup sel → write_selected files frame io sel = (files', ok) →
  length files' = length files ∧
  ∀ j f, files !! j = Some f →
    ∃ e, files' !! j = Some (f ++ e) ∧ extension frame e ∧ (j ∉ sel → e = []) ∧
      (ok = true → j ∈ sel → e = frame).
Proof.
  intros Hnd. revert files. induction Hnd as [|id sel Hid Hnd IH]; intros files; simpl.
  { intros [= <- <-]. split; [done|]. intros j f Hj. exists []. rewrite app_nil_r.
    split_and!; [done|by left|done|]. intros _ Hin. by apply elem_of_nil in Hin. }
  destruct (io id) as [n|].
  - intros [= <- <-]. split; [by rewrite length_alter|]. intros j f Hj.
    destruct (decide (id = j)) as [->|Hne].
    + exists (take n frame). rewrite list_lookup_alter_eq, Hj. simpl.
      split_and!; [done|right; right; eauto| |done]. intros Hn. destruct Hn. by constructor.
    + exists []. rewrite list_lookup_alter_ne, app_nil_r by done. by split_and!; [|left|..].
  - intros Hw. destruct (IH _ Hw) as [Hlen Hall]. rewrite length_alter in Hlen.
    split; [done|]. intros j f Hj. destruct (decide (id = j)) as [->|Hne].
    + destruct (Hall j (f ++ frame)) as (e & He & _ & Hnot & _).
      { by rewrite list_lookup_alter_eq, Hj. }
      rewrite (Hnot Hid), app_nil_r in He. exists frame.
      split_and!; [done|by right; left| |done]. intros Hn. destruct Hn. by constructor.
    + destruct (Hall j f) as (e & He & Hext & Hnot & Hok).
      { by rewrite list_lookup_alter_ne. }
      exists e. split_and!; [done|done| |].
      * intros Hn. apply Hnot. intros Hin. apply Hn. by constructor.
      * intros Hok' [->|Hin]%elem_of_cons; [done|auto].
Qed.

Lemma frames_from_snoc k log p :
  frames_from sha256 k (log ++ [p]) =
    frames_from sha256 k log ++ wframe sha256 (N.of_nat (k + length log) + 1) p.
Proof.
  unfold frames_from. rewrite imap_app, join_app. simpl. by rewrite app_nil_r, Nat.add_0_r.
Qed.

Lemma log_file_snoc log p :
  log_file sha256 (log ++ [p]) = log_file sha256 log ++ wframe sha256 (N.of_nat (length log) + 1) p.
Proof. apply frames_from_snoc. Qed.

(** How many records a replica holds after the write of record [p]. *)
Definition count_after (log : list bytes) (p : bytes) (files files' : list bytes)
    (j k : nat) : nat :=
  if bool_decide (files' !! j = files !! j) then k
  else if bool_decide (files' !! j = Some (log_file sha256 (log ++ [p]))) then S (length log)
  else length log.

Lemma app_self_nil (f e : bytes) : f ++ e = f → e = [].
Proof. intros H. apply (app_inv_head f). by rewrite app_nil_r. Qed.

Lemma holds_after log p files ks files' :
  let frame := wframe sha256 (N.of_nat (length log) + 1) p in
  log_ok (log ++ [p]) → holds log files ks → length files' = length files →
  (∀ j f, files !! j = Some f → ∃ e, files' !! j = Some (f ++ e) ∧ extension frame e ∧
     (f = log_file sha256 log ∨ e = [])) →
  holds (log ++ [p]) files' (imap (count_after log p files files') ks).
Proof.
  intros frame Hok Hh Hlen Hall. pose proof (Forall2_length _ _ _ Hh) as Hl.
  apply Forall2_same_length_lookup_2; [by rewrite length_imap; lia|].
  intros j f' k' Hf' Hk'. rewrite list_lookup_imap in Hk'.
  destruct (ks !! j) as [k|] eqn:Hk; [|done]. injection Hk' as <-.
  destruct (Forall2_lookup_r _ _ _ _ _ Hh Hk) as (f & Hf & Hkl & t & Ht & Heq).
  destruct (Hall j f Hf) as (e & He & Hext & Hcur). rewrite He in Hf'. injection Hf' as <-.
  unfold count_after. rewrite He, Hf, length_app. simpl. case_bool_decide as Hsame.
  { injection Hsame as ->%app_self_nil. split; [lia|]. exists t.
    by rewrite app_nil_r, take_app_le. }
  destruct Hcur as [->| ->]; [|by rewrite app_nil_r in Hsame].
  case_bool_decide as Hfull.
  { injection Hfull as Hfull. split; [lia|]. exists []. split; [by left|].
    rewrite Hfull, app_nil_r. f_equal. symmetry. apply take_ge. rewrite length_app. simpl. lia. }
  split; [lia|]. exists e. rewrite take_app_length. split; [|done].
  destruct Hext as [->|[->|[n ->]]]; [by left|by rewrite log_file_snoc in Hfull|].
  right. exists (N.of_nat (length log) + 1)%N, p, n. destruct Hok as [Hps Hlt].
  rewrite length_app in Hlt. simpl in Hlt. apply Forall_app in Hps as [_ Hps].
  split_and!; [unfold index_ok, u64_wf; lia|by inversion Hps| |done].
  apply Nat.nle_gt. intros Hge. apply Hfull. by rewrite (take_ge frame n Hge), log_file_snoc.
Qed.

Lemma held_mono ks ks' i : Forall2 le ks ks' → held ks i ≤ held ks' i.
Proof.
  induction 1 as [|k k' ks ks' Hk _ IH]; [done|]. unfold held in *. simpl.
  destruct (i <? k) eqn:E1, (i <? k') eqn:E2; simpl; try lia.
  apply Nat.ltb_lt in E1. apply Nat.ltb_ge in E2. lia.
Qed.

Lemma count_after_mono log p files files' ks :
  holds log files ks → Forall2 le ks (imap (count_after log p files files') ks).
Proof.
  intros Hh. apply Forall2_same_length_lookup_2; [by rewrite length_imap|].
  intros j k k' Hk Hk'. rewrite list_lookup_imap, Hk in Hk'. injection Hk' as <-.
  destruct (Forall2_lookup_r _ _ _ _ _ Hh Hk) as (f & _ & Hkl & _).
  unfold count_after. repeat case_bool_decide; lia.
Qed.

(** Distinct replicas that hold record [i + 1] are at most [held ks i]. *)
Lemma held_positions ks i :
  held ks i = length (List.filter (λ j, match ks !! j with Some k => i <? k | None => false end)
                       (seq 0 (length ks))).
Proof.
  induction ks as [|k ks IH]; [done|]. unfold held in *. simpl.
  rewrite <-seq_shift.
  assert (∀ l, length (List.filter (λ j, match (k :: ks) !! j with Some k => i <? k | None => false end)
    (map S l)) = length (List.filter (λ j, match ks !! j with Some k => i <? k | None => false end) l))
    as Hshift.
  { induction l as [|j l IHl]; [done|]. simpl. destruct (match ks !! j with Some _ => _ | _ => _ end);
      simpl; by rewrite IHl. }
  destruct (i <? k); simpl; rewrite Hshift, <-IH; done.
Qed.

Lemma held_distinct ks i sel :
  NoDup sel → (∀ j, j ∈ sel → ∃ k, ks !! j = Some k ∧ i < k) → length sel ≤ held ks i.
Proof.
  intros Hnd Hall. rewrite held_positions. apply submseteq_length, NoDup_submseteq; [done|].
  intros j Hj. destruct (Hall j Hj) as (k & Hk & Hik).
  apply list_elem_of_In, filter_In. split.
  - apply list_elem_of_In, elem_of_seq. apply lookup_lt_Some in Hk. lia.
  - rewrite Hk. by apply Nat.ltb_lt.
Qed.

(** ** Runs of the log *)

Lemma wal_append_cases w i p sel io w' r :
  i ≠ 0%N → wal_append sha256 w i p sel io = (w', r) →
  (w' = w ∧ ∃ e, r = Err e ∧ e ≠ WalIo) ∨
  (payload_ok p ∧ NoDup sel ∧ ∃ files ok,
     write_selected (wal_files w) (wframe sha256 i p) io sel = (files, ok) ∧
     w' = with_files w files ∧
     r = if ok then Ok {| ao_log_index := i; ao_frame_bytes := len (wframe sha256 i p);
                          ao_synced_replicas := merge_sort le sel;
                          ao_quorum_durable := wal_quorum w <=? length sel |}
         else Err WalIo).
Proof.
  intros Hi. unfold wal_append. rewrite (proj2 (N.eqb_neq _ _) Hi).
  destruct (_ || _) eqn:Hp; [intros [= <- <-]; left; eauto|].
  apply orb_false_iff in Hp as [Hp _]. apply N.ltb_ge in Hp.
  destruct (check_selected _ _ _) eqn:Hs; [|intros [= <- <-]; left; eauto].
  apply check_selected_NoDup in Hs as [Hnd _]. cbn [negb].
  rewrite encode_frame_Ok by exact Hp.
  destruct (write_selected _ _ _ _) as [files ok] eqn:Hw. intros Heq. right.
  split_and!; [exact Hp|exact Hnd|]. exists files, ok.
  destruct ok; injection Heq as <- <-; done.
Qed.

(** The append reached the disk: it returned, or failed while writing. *)
Definition attempted (r : res WalError AppendOutcome) : bool :=
  match r with Ok _ | Err WalIo => true | _ => false end.
Definition acknowledged (r : res WalError AppendOutcome) : bool :=
  match r with Ok o => ao_quorum_durable o | _ => false end.

(** What happened to a log: an append with its result, or a rewrite that
    replaced the files. *)
Inductive wal_event :=
  | Appended (p : bytes) (r : res WalError AppendOutcome)
  | Rewritten (records : list (N * bytes)).

(** The payloads the log should hold, and how many of them it must return: an
    append that reached the disk adds its payload; an acknowledgement covers
    everything up to it; a rewrite replaces the log by the given records. *)
Definition log_step (la : list bytes * nat) (e : wal_event) : list bytes * nat :=
  match e with
  | Appended p r =>
      (if attempted r then la.1 ++ [p] else la.1, if acknowledged r then S (length la.1) else la.2)
  | Rewritten records => (records.*2, length records)
  end.
Definition log_after (events : list wal_event) : list bytes * nat := foldl log_step ([], 0) events.

(** The states a log reaches when each append uses the index after the last
    attempted one and names replicas that hold all records before it. Any write
    may fail, leaving any part of the frame. A rewrite is refused, completes, or,
    on a log of one replica, is cut off before or after its rename. *)
Inductive wal_run : list wal_event → LocalReplicatedWal → Prop :=
  | run_open count quorum w : wal_open count quorum = Ok w → wal_run [] w
  | run_append events w p sel io w' r :
      wal_run events w →
      let log := (log_after events).1 in
      (N.of_nat (length log) + 1 < U64_MAX)%N →
      (∀ id, id ∈ sel → wal_files w !! id = Some (log_file sha256 log)) →
      wal_append sha256 w (N.of_nat (length log) + 1) p sel io = (w', r) →
      wal_run (events ++ [Appended p r]) w'
  | run_rewrite events w records w' :
      wal_run events w → (N.of_nat (length records) < U64_MAX)%N →
      wal_rewrite sha256 w records None = (w', Ok tt) →
      wal_run (events ++ [Rewritten records]) w'
  | run_rewrite_cut events w records n w' :
      wal_run events w → (N.of_nat (length records) < U64_MAX)%N → replica_count w = 1 →
      wal_rewrite sha256 w records (Some n) = (w', Err WalIo) →
      wal_run (if n =? 0 then events else events ++ [Rewritten records]) w'
  | run_rewrite_refused events w records fail_at w' e :
      wal_run events w → e ≠ WalIo → wal_rewrite sha256 w records fail_at = (w', Err e) →
      wal_run events w'.

Record wal_inv (log : list bytes) (acked : nat) (w : LocalReplicatedWal) (ks : list nat) : Prop := {
  wi_log : log_ok log;
  wi_holds : holds log (wal_files w) ks;
  wi_quorum : 0 < wal_quorum w ≤ length (wal_files w);
  wi_acked : ∀ i, i < acked → wal_quorum w ≤ held ks i;
}.

Lemma holds_all log n : holds log (replicate n (log_file sha256 log)) (replicate n (length log)).
Proof.
  apply Forall2_replicate. split; [done|]. exists []. split; [by left|].
  by rewrite take_ge, app_nil_r.
Qed.

Lemma held_all n k i : i < k → held (replicate n k) i = n.
Proof.
  intros Hi. unfold held. induction n as [|n IH]; [done|]. cbn [replicate List.filter].
  rewrite (proj2 (Nat.ltb_lt _ _)) by done. simpl. by rewrite IH.
Qed.

Lemma count_after_full log p files files' j k :
  files' !! j = Some (log_file sha256 (log ++ [p])) →
  files !! j = Some (log_file sha256 log) → count_after log p files files' j k = S (length log).
Proof.
  intros H' H. unfold count_after. rewrite H', H, log_file_snoc, bool_decide_false.
  - by rewrite bool_decide_true.
  - intros [= Heq%app_self_nil]. apply (f_equal length) in Heq.
    rewrite (length_wframe sha256 sha256_len) in Heq. simpl in Heq. lia.
Qed.

Lemma append_inv log acked w ks p sel io w' r :
  wal_inv log acked w ks → (N.of_nat (length log) + 1 < U64_MAX)%N →
  (∀ id, id ∈ sel → wal_files w !! id = Some (log_file sha256 log)) →
  wal_append sha256 w (N.of_nat (length log) + 1) p sel io = (w', r) →
  ∃ ks', wal_inv (if attempted r then log ++ [p] else log)
           (if acknowledged r then S (length log) else acked) w' ks'.
Proof.
  intros [Hlog Hh Hq Ha] Hlt Hcur.
  intros [(-> & e & -> & He)|(Hp & Hnd & files & ok & Hw & -> & Hr)]%wal_append_cases; [| |lia].
  { exists ks. destruct e; done || by split. }
  destruct (write_selected_spec _ _ _ _ _ _ Hnd Hw) as [Hlen Hall].
  assert (log_ok (log ++ [p])) as Hlog'.
  { destruct Hlog as [Hf _]. split; [by apply Forall_app; split; [|constructor]|].
    rewrite length_app. simpl. lia. }
  exists (imap (count_after log p (wal_files w) files) ks).
  assert (attempted r = true) as -> by (rewrite Hr; by destruct ok).
  pose proof (count_after_mono log p (wal_files w) files ks Hh) as Hmono.
  split; simpl; [done| |by rewrite Hlen|].
  - apply holds_after; [done..|]. intros j f Hj.
    destruct (Hall j f Hj) as (e & He & Hext & Hnot & _). exists e. split_and!; [done..|].
    destruct (decide (j ∈ sel)) as [Hin|]; [|by right; auto].
    left. specialize (Hcur j Hin). congruence.
  - intros i Hi. pose proof (held_mono _ _ i Hmono) as Hm.
    destruct (acknowledged r) eqn:Hack; [|specialize (Ha i Hi); lia].
    rewrite Hr in Hack. destruct ok; [|done]. simpl in Hack. apply Nat.leb_le in Hack.
    etransitivity; [exact Hack|]. apply held_distinct; [done|]. intros j Hj.
    pose proof (Hcur j Hj) as Hf. destruct (Hall j _ Hf) as (e & He & _ & _ & Hfull).
    rewrite (Hfull eq_refl Hj), <-log_file_snoc in He.
    destruct (Forall2_lookup_l _ _ _ _ _ Hh Hf) as (k & Hk & _).
    exists (S (length log)). split; [|done].
    rewrite list_lookup_imap, Hk. simpl. f_equal. by apply count_after_full.
Qed.

Lemma rewrite_frames records offset :
  (N.of_nat (offset + length records) < U64_MAX)%N → check_rewrite offset records = Ok tt →
  ∃ frames, res_collect (λ r, encode_frame sha256 r.1 r.2) records = Ok frames ∧
    mjoin frames = frames_from sha256 offset records.*2 ∧ Forall payload_ok records.*2.
Proof.
  revert offset. induction records as [|[i p] records IH]; intros offset Hlt; cbn [check_rewrite].
  { intros _. exists []. by split_and!. }
  simpl in Hlt. unfold saturating_add. rewrite N.min_l by lia.
  destruct (i =? _)%N eqn:Hi; [|done]. apply N.eqb_eq in Hi as ->. cbn [negb].
  destruct (_ || _) eqn:Hp; [done|]. apply orb_false_iff in Hp as [Hp _]. apply N.ltb_ge in Hp.
  intros Hr. destruct (IH (S offset)) as (frames & Hc & Hj & Hf); [lia|done|].
  exists (wframe sha256 (N.of_nat offset + 1) p :: frames). cbn [res_collect fst snd fmap list_fmap].
  rewrite encode_frame_Ok by exact Hp. cbn [res_bind]. rewrite Hc. split_and!; [done| |by constructor].
  rewrite frames_from_cons, <-Hj. done.
Qed.

Lemma rewrite_spec w records :
  (N.of_nat (length records) < U64_MAX)%N → check_rewrite 0 records = Ok tt →
  log_ok records.*2 ∧ ∀ fail_at, wal_rewrite sha256 w records fail_at =
    match fail_at with
    | None => (with_files w (replicate (replica_count w) (log_file sha256 records.*2)), Ok tt)
    | Some n =>
        (with_files w (replicate (n `min` replica_count w) (log_file sha256 records.*2) ++
                       drop n (wal_files w)), Err WalIo)
    end.
Proof.
  intros Hlt Hc. destruct (rewrite_frames records 0 Hlt Hc) as (frames & Hf & Hj & Hp).
  split; [split; [done|by rewrite length_fmap]|]. intros fail_at. unfold wal_rewrite.
  rewrite Hc, Hf, Hj. done.
Qed.

Lemma rewrite_refused w records fail_at w' e :
  e ≠ WalIo → wal_rewrite sha256 w records fail_at = (w', Err e) → w' = w.
Proof.
  unfold wal_rewrite. intros He. repeat case_match; intros [= <- <-]; done.
Qed.

Lemma rewrite_inv_full log acked w ks (records : list (N * bytes)) :
  wal_inv log acked w ks → log_ok records.*2 →
  ∃ ks', wal_inv records.*2 (length records)
    (with_files w (replicate (replica_count w) (log_file sha256 records.*2))) ks'.
Proof.
  intros [_ _ Hq _] Hok. exists (replicate (replica_count w) (length records.*2)).
  split; simpl; [done|apply holds_all|by rewrite length_replicate|].
  intros i Hi. rewrite held_all by (by rewrite length_fmap). by apply Hq.
Qed.

Lemma check_rewrite_not_io offset records : check_rewrite offset records ≠ Err WalIo.
Proof.
  revert offset. induction records as [|[i p] records IH]; intros offset; [done|].
  cbn [check_rewrite]. repeat case_match; done || apply IH.
Qed.

(** What a rewrite can do to a log: nothing, or replace it. *)
Lemma rewrite_inv log acked w ks records fail_at w' r :
  wal_inv log acked w ks → (N.of_nat (length records) < U64_MAX)%N →
  wal_rewrite sha256 w records fail_at = (w', r) →
  match fail_at, r with
  | None, Ok _ => ∃ ks', wal_inv records.*2 (length records) w' ks'
  | Some n, Err WalIo =>
      replica_count w = 1 →
      if n =? 0 then w' = w else ∃ ks', wal_inv records.*2 (length records) w' ks'
  | _, Err e => e ≠ WalIo → w' = w
  | _, _ => True
  end.
Proof.
  intros Hinv Hlt. destruct (check_rewrite 0 records) as [[]|e|] eqn:Hc.
  - destruct (rewrite_spec w records Hlt Hc) as [Hok Hspec]. rewrite Hspec.
    destruct fail_at as [n|]; intros [= <- <-]; [|by eapply rewrite_inv_full].
    intros Hone. destruct n as [|n]; simpl; [by destruct w|].
    replace (drop (S n) (wal_files w)) with (@nil bytes)
      by (symmetry; apply drop_ge; unfold replica_count in Hone; lia).
    rewrite app_nil_r, Hone. change (S (n `min` 0)) with (S (min n 0)). rewrite Nat.min_0_r, <-Hone.
    by eapply rewrite_inv_full.
  - unfold wal_rewrite. rewrite Hc. intros [= <- <-].
    destruct fail_at, e; try done. by apply check_rewrite_not_io in Hc.
  - unfold wal_rewrite. rewrite Hc. intros [= <- <-]. by destruct fail_at.
Qed.

Lemma log_after_snoc events e : log_after (events ++ [e]) = log_step (log_after events) e.
Proof. apply foldl_snoc. Qed.

Lemma wal_run_inv events w :
  wal_run events w → ∃ ks, wal_inv (log_after events).1 (log_after events).2 w ks.
Proof.
  induction 1 as [count quorum w Ho|events w p sel io w' r _ [ks IH] log Hlt Hcur Ha
                 |events w records w' _ [ks IH] Hlt Hw|events w records n w' _ [ks IH] Hlt Hone Hw
                 |events w records fail_at w' e _ [ks IH] He Hw].
  - revert Ho. unfold wal_open. destruct (_ || _) eqn:Hg; [done|]. intros [= <-].
    rewrite !orb_false_iff in Hg. destruct Hg as [[Hc Hq] Hcq].
    apply Nat.eqb_neq in Hc, Hq. apply Nat.ltb_ge in Hcq.
    exists (replicate count 0). split; simpl; [by split; [constructor|]|apply (holds_all [])| |lia].
    rewrite length_replicate. lia.
  - rewrite log_after_snoc. by eapply append_inv.
  - rewrite log_after_snoc. by apply (rewrite_inv _ _ _ _ _ _ _ _ IH Hlt Hw).
  - pose proof (rewrite_inv _ _ _ _ _ _ _ _ IH Hlt Hw Hone) as Hr.
    destruct (n =? 0); [subst w'; by exists ks|]. by rewrite log_after_snoc.
  - assert (w' = w) as -> by (by eapply rewrite_refused). by exists ks.
Qed.

(** An acknowledged payload that every later rewrite kept is among those that
    must be returned. *)
Lemma acked_bound events : (log_after events).2 ≤ length (log_after events).1.
Proof.
  induction events as [|e events IH] using rev_ind; [done|]. rewrite log_after_snoc.
  destruct e as [p r|records]; simpl; [|by rewrite length_fmap].
  destruct r as [o|[]|]; simpl; rewrite ?length_app; simpl; try lia. destruct (ao_quorum_durable o); lia.
Qed.

Definition must_return (events : list wal_event) : list bytes :=
  take (log_after events).2 (log_after events).1.

Lemma must_return_step events e p :
  p ∈ must_return events → (∀ records, e = Rewritten records → p ∈ records.*2) →
  p ∈ must_return (events ++ [e]).
Proof.
  unfold must_return. rewrite log_after_snoc. pose proof (acked_bound events) as Hle.
  intros Hp Hkeep. destruct e as [q r|records]; cbn [log_step fst snd].
  - assert (attempted r = false → acknowledged r = false) as Hr by by destruct r as [|[]|].
    destruct (attempted r); destruct (acknowledged r); try done.
    + rewrite take_ge by (rewrite length_app; simpl; lia). apply elem_of_app. left.
      rewrite <-(take_drop (log_after events).2 (log_after events).1). apply elem_of_app. by left.
    + by rewrite take_app_le.
    + by discriminate Hr.
  - rewrite take_ge by (by rewrite length_fmap). by apply Hkeep.
Qed.

Lemma acknowledged_must_return before p o after :
  ao_quorum_durable o = true → (∀ records, Rewritten records ∈ after → p ∈ records.*2) →
  p ∈ must_return (before ++ Appended p (Ok o) :: after).
Proof.
  intros Ho. induction after as [|e after IH] using rev_ind; intros Hkeep.
  - unfold must_return. rewrite log_after_snoc. cbn. rewrite Ho.
    rewrite take_ge by (rewrite length_app; simpl; lia). set_solver.
  - rewrite app_comm_cons, (assoc_L (++)). apply must_return_step.
    + apply IH. set_solver.
    + intros records ->. apply Hkeep. set_solver.
Qed.

(** C5. The replicated log never loses an acknowledged record that was not
    rewritten away. Take any run of appends, each with the index after the last
    attempted one and to replicas that hold all earlier records, every disk write
    failing or tearing at will, and of rewrites, which are refused, complete, or,
    on a log of one replica, are cut off at any point. Recovery succeeds and
    returns a prefix, with consecutive indices from 1, of what the last rewrite
    wrote followed by the payloads appended since, in order. The prefix contains
    everything that rewrite wrote and every record whose append was acknowledged
    as quorum durable since; and a payload that was acknowledged at any time is
    returned unless a later rewrite left it out. *)
Theorem acknowledged_never_lost events w :
  wal_run events w →
  ∃ rec q, recover sha256 w = Ok rec ∧ recovers (log_after events).1 q (rc_records rec) ∧
    last_index rec = N.of_nat q ∧ (log_after events).2 ≤ q ≤ length (log_after events).1 ∧
    ∀ before p o after, events = before ++ Appended p (Ok o) :: after →
      ao_quorum_durable o = true → (∀ records, Rewritten records ∈ after → p ∈ records.*2) →
      p ∈ rr_payload <$> rc_records rec.
Proof.
  intros [ks [Hlog Hh Hq Ha]]%wal_run_inv.
  destruct (quorum_prefix_exists (wal_quorum w) ks) as [q Hqp]; [lia|].
  destruct (recover_holds _ w ks q Hlog Hh) as (rec & Hrec & Hrs & Hlast & Hql); [lia|done|].
  assert ((log_after events).2 ≤ q) as Hacked.
  { destruct (log_after events).2 as [|n]; [lia|]. apply Nat.le_succ_l, (Hqp n), Ha. lia. }
  exists rec, q. split_and!; [done..|]. intros before p o after -> Ho Hkeep.
  destruct Hrs as [-> _]. pose proof (acknowledged_must_return before p o after Ho Hkeep) as Hp.
  unfold must_return in Hp. rewrite <-(Nat.min_l _ _ Hacked), <-take_take in Hp.
  by apply elem_of_take in Hp as (i & Hi & _); eapply list_elem_of_lookup_2.
Qed.

(** Recovery is exact: when every replica's file is a prefix of one log,
    possibly followed by a torn frame, recovery succeeds and returns precisely
    the records that at least [quorum] replicas hold. *)
Theorem recover_exact log w ks :
  log_ok log → holds log (wal_files w) ks → 0 < wal_quorum w →
  ∃ rec q, recover sha256 w = Ok rec ∧ recovers log q (rc_records rec) ∧
    ∀ i, i < q ↔ wal_quorum w ≤ held ks i.
Proof.
  intros Hlog Hh Hq. destruct (quorum_prefix_exists (wal_quorum w) ks Hq) as [q Hqp].
  destruct (recover_holds log w ks q) as (rec & Hrec & Hrs & _); [done..|]. by exists rec, q.
Qed.

(** A completed rewrite replaces the log: whatever the replica files held
    before, corrupt frames included, recovery returns exactly the records that
    were given, in order. *)
Theorem rewrite_recovers w records :
  0 < wal_quorum w ≤ replica_count w → (N.of_nat (length records) < U64_MAX)%N →
  check_rewrite 0 records = Ok tt →
  ∃ w' rec, wal_rewrite sha256 w records None = (w', Ok tt) ∧ recover sha256 w' = Ok rec ∧
    rr_payload <$> rc_records rec = records.*2 ∧
    rr_log_index <$> rc_records rec = indices 1 (len records).
Proof.
  intros Hq Hlt Hc. destruct (rewrite_spec w records Hlt Hc) as [Hok Hspec].
  set (w' := with_files w (replicate (replica_count w) (log_file sha256 records.*2))).
  destruct (recover_holds records.*2 w' (replicate (replica_count w) (length records.*2))
              (length records)) as (rec & Hrec & [Hp Hi] & _).
  - done.
  - apply holds_all.
  - simpl. lia.
  - rewrite length_fmap. intros i. split; intros Hi; [by rewrite held_all; [simpl; lia|]|].
    destruct (held_pos (replicate (replica_count w) (length records)) i) as (k & Hk & ?);
      [simpl in Hi; lia|]. apply elem_of_replicate in Hk as [-> _]. done.
  - exists w', rec. rewrite Hspec. split_and!; [done..| |exact Hi].
    rewrite Hp. apply take_ge. by rewrite length_fmap.
Qed.

(** ** Recovery of arbitrary files *)

(** The replicas [ids] hold a payload of the digest of [p] at index [i]. *)
Definition backed (scans : list ReplicaScan) (i : N) (p : bytes) (ids : list nat) : Prop :=
  ∀ id, id ∈ ids → ∃ s p', s ∈ scans ∧ rs_replica_id s = id ∧
    rs_records s !! i = Some p' ∧ sha256 p' = sha256 p.

Lemma backed_snoc scans s i p ids : backed scans i p ids → backed (scans ++ [s]) i p ids.
Proof.
  intros Hb id (s' & p' & Hs' & ?)%Hb. exists s', p'. split; [by apply elem_of_app; left|done].
Qed.

Lemma candidates_backed scans i d p ids :
  candidates_at sha256 scans i !! d = Some (p, ids) → sha256 p = d ∧ backed scans i p ids.
Proof.
  unfold candidates_at. revert d p ids.
  induction scans as [|s scans IH] using rev_ind; intros d p ids; [done|].
  rewrite foldl_snoc. set (m := foldl _ _ scans) in *. unfold add_candidate.
  destruct (rs_records s !! i) as [p0|] eqn:Hp0;
    [|intros [? ?]%IH; eauto using backed_snoc].
  assert (backed (scans ++ [s]) i p0 [rs_replica_id s]) as Hnew.
  { intros id ->%list_elem_of_singleton. exists s, p0. split_and!; [|done..].
    apply elem_of_app. right. by constructor. }
  destruct (decide (d = sha256 p0)) as [->|Hne].
  - destruct (m !! sha256 p0) as [[p1 ids1]|] eqn:Hm; simpl; rewrite lookup_insert_eq;
      intros [= <- <-]; [|by split].
    destruct (IH _ _ _ Hm) as [Hd Hb]. split; [done|].
    intros id [Hid|Hid]%elem_of_app; [by eapply backed_snoc|].
    destruct (Hnew id Hid) as (s' & p' & ? & ? & ? & ?). exists s', p'. split_and!; congruence.
  - destruct (default _ _) as [p1 ids1]. rewrite lookup_insert_ne by done.
    intros [? ?]%IH. eauto using backed_snoc.
Qed.

(** A record recovery may return. *)
Definition quorum_record (quorum : nat) (scans : list ReplicaScan) (r : RecoveredRecord) : Prop :=
  quorum ≤ length (rr_replica_ids r) ∧
  backed scans (rr_log_index r) (rr_payload r) (rr_replica_ids r).

Lemma quorum_candidates_record quorum scans i p ids :
  (p, ids) ∈ quorum_candidates quorum (candidates_at sha256 scans i) →
  quorum_record quorum scans
    {| rr_log_index := i; rr_payload := p; rr_replica_ids := merge_sort le ids |}.
Proof.
  unfold quorum_candidates. rewrite list_elem_of_In, filter_In, <-list_elem_of_In. simpl.
  intros [([d c] & Hc & Hin)%list_elem_of_fmap Hq]. simpl in Hc. subst c.
  apply elem_of_bt_items, candidates_backed in Hin as [_ Hb]. apply Nat.leb_le in Hq.
  pose proof (merge_sort_Permutation le ids) as Hperm. split; simpl.
  - by rewrite Hperm.
  - intros id Hid. apply Hb. by rewrite <-Hperm.
Qed.

Lemma recover_loop_sound quorum scans m i records :
  rr_log_index <$> records = indices 1 (N.of_nat i) → Forall (quorum_record quorum scans) records →
  match recover_loop sha256 quorum scans (N.of_nat m) (indices (N.of_nat i + 1) (N.of_nat m)) records with
  | Ok (records', _) =>
      (∃ n, rr_log_index <$> records' = indices 1 (N.of_nat n)) ∧
      Forall (quorum_record quorum scans) records'
  | Err _ => True
  | Panic => False
  end.
Proof.
  remember (m - i) as d eqn:Hd. revert i records Hd.
  induction d as [|d IH]; intros i records Hd Hidx Hall; rewrite indices_step.
  all: destruct (i <? m) eqn:Him; [apply Nat.ltb_lt in Him|apply Nat.ltb_ge in Him]; try lia.
  { cbn [recover_loop]. eauto. }
  cbn [recover_loop]. destruct (quorum_candidates _ _) as [|[p ids] [|]] eqn:Hqc; [| |done].
  - repeat case_match; simplify_eq; eauto.
  - apply IH; [lia| |].
    + by rewrite fmap_app, Hidx, indices_snoc.
    + apply Forall_app. split; [done|]. apply Forall_singleton, quorum_candidates_record.
      rewrite Hqc. by constructor.
Qed.

Lemma scan_loop_no_error fuel bs offset e m err : scan_loop sha256 fuel bs offset e m ≠ Err err.
Proof.
  revert offset e m. induction fuel as [|fuel IH]; intros offset e m; cbn [scan_loop];
    repeat case_match; done || apply IH.
Qed.

Lemma scans_total files (g : nat → nat) :
  ∃ scans, res_collect (λ f, scan_replica sha256 f.1 f.2) (imap (λ i f, (g i, f)) files) = Ok scans.
Proof.
  revert g. induction files as [|f files IH]; intros g; [by eexists|].
  destruct (IH (λ i, g (S i))) as [scans Hs]. rewrite imap_cons. cbn [res_collect fst snd].
  pose proof (scan_loop_total sha256 (length f) f 0 1 ∅ ltac:(lia) ltac:(lia)) as Ht.
  pose proof (scan_loop_no_error (length f) f 0 1 ∅) as He.
  unfold scan_replica at 1. destruct (scan_loop _ _ _ _ _ _) as [[records e]|e|]; [|by destruct (He e)|done].
  cbn [res_bind]. unfold compose. rewrite Hs. by eexists.
Qed.

(** Recovery of arbitrary replica files terminates, and what it returns is
    backed by a quorum: the records have the consecutive indices from 1, and
    each names at least [quorum] replicas whose scan found a checksummed record
    at that index with the same payload digest. *)
Theorem recover_total_sound w :
  ∃ scans, res_collect (λ f, scan_replica sha256 f.1 f.2) (imap pair (wal_files w)) = Ok scans ∧
  match recover sha256 w with
  | Ok rec =>
      (∃ n, rr_log_index <$> rc_records rec = indices 1 (N.of_nat n)) ∧
      Forall (quorum_record (wal_quorum w) scans) (rc_records rec)
  | Err _ => True
  | Panic => False
  end.
Proof.
  destruct (scans_total (wal_files w) (λ i, i)) as [scans Hs]. exists scans.
  change (imap (λ i f, (i, f)) (wal_files w)) with (imap pair (wal_files w)) in Hs.
  split; [exact Hs|]. unfold recover. rewrite Hs. cbn [res_bind].
  pose proof (recover_loop_sound (wal_quorum w) scans (N.to_nat (maximum_index scans)) 0 []
    eq_refl (List.Forall_nil _)) as Hl.
  rewrite N2Nat.id in Hl. change (N.of_nat 0 + 1)%N with 1%N in Hl.
  by destruct (recover_loop _ _ _ _ _ _) as [[records ignored]|e|].
Qed.
End recovery.

(** ** Acknowledged, then lost *)
Section lost.
Context (sha256 : bytes → bytes) (sha256_len : digest_len sha256).

Definition no_failure (_ : nat) : option nat := None.

(** Three replicas, quorum 2: record 1 on replicas 0 and 1, record 2 on
    replicas 1 and 2. *)
Definition lost_files : list bytes :=
  [log_file sha256 [[10%N]]; log_file sha256 [[10%N]; [20%N]]; wframe sha256 2 [20%N]].

Lemma scan_gap id :
  scan_replica sha256 id (wframe sha256 2 [20%N]) =
    Ok {| rs_replica_id := id; rs_records := ∅; rs_torn_tail := false;
          rs_corrupt_index := Some 1%N; rs_physical_bytes := 51 |}.
Proof.
  unfold scan_replica, len. rewrite (length_wframe sha256 sha256_len).
  cbn [Nat.add length scan_loop]. rewrite (length_wframe sha256 sha256_len), drop_0.
  cbn [Nat.add length Nat.ltb Nat.leb negb].
  rewrite <-(app_nil_r (wframe sha256 2 [20%N])), scan_wframe by done. done.
Qed.

Lemma lost_scans :
  res_collect (λ f, scan_replica sha256 f.1 f.2) (imap pair lost_files) =
    Ok [{| rs_replica_id := 0; rs_records := log_map [[10%N]]; rs_torn_tail := false;
           rs_corrupt_index := None; rs_physical_bytes := 51 |};
        {| rs_replica_id := 1; rs_records := log_map [[10%N]; [20%N]]; rs_torn_tail := false;
           rs_corrupt_index := None; rs_physical_bytes := 102 |};
        {| rs_replica_id := 2; rs_records := ∅; rs_torn_tail := false;
           rs_corrupt_index := Some 1%N; rs_physical_bytes := 51 |}].
Proof.
  assert (∀ id log, log_ok log → scan_replica sha256 id (log_file sha256 log) =
    Ok {| rs_replica_id := id; rs_records := log_map log; rs_torn_tail := false;
          rs_corrupt_index := None; rs_physical_bytes := len (log_file sha256 log) |}) as Hscan.
  { intros id log Hok. rewrite <-(app_nil_r (log_file sha256 log)).
    rewrite (scan_replica_log sha256 sha256_len) by (done || by left). done. }
  assert (log_ok [[10%N]] ∧ log_ok [[10%N]; [20%N]]) as [H1 H2].
  { split; (split; [repeat constructor; discriminate|done]). }
  assert (len (log_file sha256 [[10%N]]) = 51%N ∧
          len (log_file sha256 [[10%N]; [20%N]]) = 102%N) as [L1 L2].
  { split; unfold len, log_file; rewrite !frames_from_cons;
      rewrite !length_app, !(length_wframe sha256 sha256_len); done. }
  change (imap pair lost_files) with
    [(0, log_file sha256 [[10%N]]); (1, log_file sha256 [[10%N]; [20%N]]);
     (2, wframe sha256 2 [20%N])].
  cbn [fst snd res_collect].
  rewrite (Hscan 0 _ H1), (Hscan 1 _ H2), scan_gap, L1, L2. done.
Qed.

Lemma lost_recovery :
  ∃ rec, recover sha256 {| wal_files := lost_files; wal_quorum := 2 |} = Ok rec ∧
    rr_payload <$> rc_records rec = [[10%N]].
Proof.
  unfold recover. cbn [wal_files wal_quorum]. rewrite lost_scans. cbn [res_bind].
  match goal with |- context [maximum_index ?l] => set (scans := l) end.
  assert (agree scans 1 [10%N]) as Ha1.
  { intros s Hs. unfold scans in Hs. rewrite !elem_of_cons, elem_of_nil in Hs.
    destruct Hs as [->|[->|[->|[]]]]; vm_compute; auto. }
  assert (agree scans 2 [20%N]) as Ha2.
  { intros s Hs. unfold scans in Hs. rewrite !elem_of_cons, elem_of_nil in Hs.
    destruct Hs as [->|[->|[->|[]]]]; vm_compute; auto. }
  change (maximum_index scans) with 2%N. change (indices 1 2) with [1; 2]%N.
  cbn [recover_loop].
  rewrite (candidates_single _ _ _ _ Ha1), (candidates_single _ _ _ _ Ha2), !quorum_single by lia.
  change (holders scans 1) with [0; 1]. change (holders scans 2) with [1].
  cbn [length Nat.leb]. eexists. split; reflexivity.
Qed.

Lemma append_next w i p sel files :
  i ≠ 0%N → payload_ok p → check_selected (replica_count w) ∅ sel = true →
  write_selected (wal_files w) (wframe sha256 i p) no_failure sel = (files, true) →
  ∃ o, wal_append sha256 w i p sel no_failure = (with_files w files, Ok o) ∧
    ao_quorum_durable o = (wal_quorum w <=? length sel).
Proof.
  intros Hi Hp Hc Hw. unfold wal_append. rewrite (proj2 (N.eqb_neq _ _) Hi).
  rewrite (proj2 (N.ltb_ge _ _)) by exact Hp.
  rewrite (proj2 (N.ltb_ge U32_MAX _)) by (etransitivity; [exact Hp|done]).
  cbn [orb]. rewrite Hc. cbn [negb]. rewrite encode_frame_Ok, Hw by exact Hp. eauto.
Qed.

(** A quorum-durable acknowledgement alone does not make a record
    recoverable: with three replicas and quorum 2, appending record 1 to
    replicas 0 and 1 and record 2 to replicas 1 and 2 acknowledges both, and
    recovery then succeeds without record 2 (replica 2 has no record 1, so its
    scan stops there). The documentation of [append] asks the caller for
    nothing but [quorum_durable]. *)
Theorem acknowledged_append_lost :
  ∃ w0 w1 w2 o1 o2 rec,
    wal_open 3 2 = Ok w0 ∧
    wal_append sha256 w0 1 [10%N] [0; 1] no_failure = (w1, Ok o1) ∧
    ao_quorum_durable o1 = true ∧
    wal_append sha256 w1 2 [20%N] [1; 2] no_failure = (w2, Ok o2) ∧
    ao_quorum_durable o2 = true ∧
    recover sha256 w2 = Ok rec ∧ rr_payload <$> rc_records rec = [[10%N]].
Proof.
  set (w0 := {| wal_files := replicate 3 []; wal_quorum := 2 |}).
  set (l1 := log_file sha256 [[10%N]]).
  destruct (append_next w0 1 [10%N] [0; 1] [l1; l1; []]) as (o1 & Ha1 & Hq1);
    [done|discriminate|done| |].
  { unfold l1, log_file. rewrite frames_from_cons, app_nil_r. reflexivity. }
  set (w1 := with_files w0 [l1; l1; []]) in *.
  destruct (append_next w1 2 [20%N] [1; 2] lost_files) as (o2 & Ha2 & Hq2);
    [done|discriminate|done| |].
  { unfold lost_files. fold l1.
    change (log_file sha256 [[10%N]; [20%N]]) with (log_file sha256 ([[10%N]] ++ [[20%N]])).
    rewrite log_file_snoc. reflexivity. }
  destruct lost_recovery as (rec & Hrec & Hp).
  exists w0, w1, (with_files w1 lost_files), o1, o2, rec. by split_and!.
Qed.
End lost.

(** ** Concrete runs *)
Module demo_wal.
Abbreviation sha := prefix_digest (only parsing).

Definition opened : LocalReplicatedWal := {| wal_files := replicate 3 []; wal_quorum := 2 |}.
Definition fails (id n : nat) (j : nat) : option nat := if j =? id then Some n else None.

(** Record 1 reaches replicas 0 and 1; the write of record 2 fails on replica 1
    after seven bytes. *)
Definition first := wal_append sha opened 1 [1; 2]%N [0; 1] no_failure.
Definition second := wal_append sha first.1 2 [3]%N [0; 1] (fails 1 7).

(** A compaction then keeps record 1 and writes another record behind it. *)
Definition kept : list (N * bytes) := [(1, [1; 2]); (2, [5])]%N.
Definition third := wal_rewrite sha second.1 kept None.
Definition history : list wal_event :=
  [Appended [1; 2]%N first.2; Appended [3]%N second.2; Rewritten kept].

Lemma run_first : wal_run sha [Appended [1; 2]%N first.2] first.1.
Proof.
  apply (run_append sha [] opened [1; 2]%N [0; 1] no_failure first.1 first.2).
  - exact (run_open sha 3 2 opened eq_refl).
  - reflexivity.
  - intros id Hid. rewrite !elem_of_cons, elem_of_nil in Hid. by destruct Hid as [->|[->|[]]].
  - reflexivity.
Qed.

Lemma run_third : wal_run sha history third.1.
Proof.
  apply (run_rewrite sha [Appended [1; 2]%N first.2; Appended [3]%N second.2] second.1 kept third.1).
  - apply (run_append sha [Appended [1; 2]%N first.2] first.1 [3]%N [0; 1] (fails 1 7) second.1 second.2).
    + exact run_first.
    + vm_compute. reflexivity.
    + intros id Hid. rewrite !elem_of_cons, elem_of_nil in Hid.
      destruct Hid as [->|[->|[]]]; vm_compute; reflexivity.
    + vm_compute. reflexivity.
  - vm_compute. reflexivity.
  - vm_compute. reflexivity.
Qed.

(** Two acknowledged records on replicas 0 and 1, then a compaction to the second
    one that fails after it replaced the file of replica 0. *)
Definition both := wal_append sha first.1 2 [3]%N [0; 1] no_failure.
Definition interrupted := wal_rewrite sha both.1 [(1, [3])]%N (Some 1).
End demo_wal.

Lemma acknowledged_never_lost_witness :
  ∃ rec q, recover demo_wal.sha demo_wal.third.1 = Ok rec ∧
    recovers [[1; 2]; [5]]%N q (rc_records rec) ∧ last_index rec = N.of_nat q ∧ 2 ≤ q ≤ 2 ∧
    [1; 2]%N ∈ rr_payload <$> rc_records rec.
Proof.
  destruct (acknowledged_never_lost demo_wal.sha prefix_digest_len _ _ demo_wal.run_third)
    as (rec & q & Hrec & Hrs & Hlast & Hq & Hack).
  exists rec, q. split; [exact Hrec|]. split; [exact Hrs|]. split; [exact Hlast|]. split; [exact Hq|].
  eapply (Hack [] [1; 2]%N _ [_; Rewritten demo_wal.kept]).
  - vm_compute. reflexivity.
  - reflexivity.
  - intros records Hin. apply elem_of_cons in Hin as [Hin|Hin]; [discriminate Hin|].
    apply list_elem_of_singleton in Hin. injection Hin as ->. left.
Defined.

(** [rewrite] replaces the replicas one after the other, although its comment
    says that it replaces every replica atomically: when it fails after the first
    of three, the replicas hold different logs, and recovery returns neither the
    records that were acknowledged before nor those the rewrite keeps. *)
Lemma interrupted_rewrite_loses :
  acknowledged demo_wal.both.2 = true ∧ demo_wal.interrupted.2 = Err WalIo ∧
  match recover demo_wal.sha demo_wal.interrupted.1 with
  | Ok rec => rr_payload <$> rc_records rec = []
  | _ => False
  end.
Proof. split_and!; vm_compute; reflexivity. Qed.

Lemma recover_exact_witness :
  ∃ rec q, recover demo_wal.sha
      {| wal_files := [log_file demo_wal.sha [[7]; [8]]%N;
                       log_file demo_wal.sha [[7]]%N ++ take 20 (wframe demo_wal.sha 2 [8]%N); []];
         wal_quorum := 2 |} = Ok rec ∧
    recovers [[7]; [8]]%N q (rc_records rec) ∧ ∀ i, i < q ↔ 2 ≤ held [2; 1; 0] i.
Proof.
  refine (recover_exact demo_wal.sha prefix_digest_len [[7]; [8]]%N
    {| wal_files := _; wal_quorum := 2 |} [2; 1; 0] _ _ _).
  - split; [repeat constructor; discriminate|reflexivity].
  - constructor; [|constructor; [|constructor; [|constructor]]]; (split; [simpl; lia|]).
    + exists []. split; [by left|]. by rewrite app_nil_r.
    + exists (take 20 (wframe demo_wal.sha 2 [8]%N)). split; [|reflexivity].
      right. exists 2%N, [8]%N, 20. split_and!; [split; [lia|discriminate]|discriminate| |done].
      vm_compute. lia.
    + exists []. by split; [left|].
  - simpl. lia.
Defined.

Lemma rewrite_recovers_witness :
  let w := {| wal_files := [[1; 2; 3]%N; []; []]; wal_quorum := 2 |} in
  ∃ w' rec, wal_rewrite demo_wal.sha w [(1, [5]); (2, [6])]%N None = (w', Ok tt) ∧
    recover demo_wal.sha w' = Ok rec ∧ rr_payload <$> rc_records rec = [[5]; [6]]%N ∧
    rr_log_index <$> rc_records rec = indices 1 2.
Proof.
  intros w. apply (rewrite_recovers demo_wal.sha prefix_digest_len w [(1, [5]); (2, [6])]%N).
  - unfold w, replica_count. simpl. lia.
  - reflexivity.
  - reflexivity.
Defined.

Lemma acknowledged_append_lost_witness :
  ∃ w0 w1 w2 o1 o2 rec,
    wal_open 3 2 = Ok w0 ∧
    wal_append demo_wal.sha w0 1 [10%N] [0; 1] no_failure = (w1, Ok o1) ∧
    ao_quorum_durable o1 = true ∧
    wal_append demo_wal.sha w1 2 [20%N] [1; 2] no_failure = (w2, Ok o2) ∧
    ao_quorum_durable o2 = true ∧
    recover demo_wal.sha w2 = Ok rec ∧ rr_payload <$> rc_records rec = [[10%N]].
Proof. exact (acknowledged_append_lost demo_wal.sha prefix_digest_len). Defined.
