(* ===== verification/SlateCodec.v ===== *)
(** * Physical keys and values of the SlateDB adapter

    The encodings of [okv-slate/src/lib.rs]: user keys are escaped and
    terminated so that the physical order is user key ascending, then version
    descending; values carry a set or tombstone tag. *)

From S2P Require Import Prelude Order BTree Bytes Version.

(** The texts of [AdapterError::CorruptMvcc]. *)
Inductive MvccCorruption :=
  | WrongNamespace
  | NoTerminator
  | EndsInsideEscape
  | UnknownEscape (other : N)
  | NoVersionSuffix
  | TombstoneTrailing
  | UnknownValueTag (tag : N)
  | EmptyEnvelope.

Module Adapter.
Inductive AdapterError :=
  | AuthorityManifestMismatch (key : string)
  | Backend
  | ConflictingReplay (version : Version)
  | CorruptMvcc (reason : MvccCorruption)
  | InvalidBatch (error : ModelError)
  | InvalidScanRange (start end_ : bytes)
  | NonMonotonicVersion (latest attempted : Version)
  | RetentionFloorRegression (current attempted : Version)
  | SnapshotExpired (requested minimum : Version)
  | SnapshotUnavailable (requested applied : Version)
  | UnsupportedGeneration (generation : N)
  | UnsupportedRangeClear
  | ZeroVersion.
End Adapter.
Abbreviation AdapterError := Adapter.AdapterError.

Definition COMMIT_KEY_PREFIX : bytes := 0%N :: string_bytes "okv/commit/".
Definition LATEST_VERSION_KEY : bytes := 0%N :: string_bytes "okv/latest-version".
Definition USER_KEY_PREFIX : N := 1.
Definition KEY_ESCAPE : N := 0.
Definition KEY_ESCAPED_ZERO : N := 0xff.
Definition VALUE_TOMBSTONE : N := 0.
Definition VALUE_SET : N := 1.

(** [!byte] of a [u8]. *)
Definition bnot (b : N) : N := N.lxor b 255.

Definition commit_key (v : Version) : bytes := COMMIT_KEY_PREFIX ++ version_to_be_bytes v.

Definition escape_byte (b : N) : bytes :=
  if (b =? KEY_ESCAPE)%N then [KEY_ESCAPE; KEY_ESCAPED_ZERO] else [b].
Definition escape (key : bytes) : bytes := mjoin (escape_byte <$> key).

Definition user_key_prefix (key : bytes) : bytes :=
  USER_KEY_PREFIX :: escape key ++ [KEY_ESCAPE; KEY_ESCAPE].

Definition complemented_version (v : Version) : bytes := bnot <$> version_to_be_bytes v.

Definition user_version_key (key : bytes) (v : Version) : bytes :=
  user_key_prefix key ++ complemented_version v.

(** [*last_mut() = last.saturating_add(1)]. *)
Definition bump_last (l : bytes) : bytes :=
  match last l with
  | Some b => take (length l - 1) l ++ [N.min (b + 1) 255]
  | None => l
  end.
Definition user_key_successor (key : bytes) : bytes := bump_last (user_key_prefix key).

(** The loop of [decode_user_version_key] from the current offset: the key read
    and the bytes after its terminator. *)
Fixpoint unescape (l : bytes) : res AdapterError (bytes * bytes) :=
  match l with
  | [] => Err (Adapter.CorruptMvcc NoTerminator)
  | b :: l =>
      if negb (b =? KEY_ESCAPE)%N then
        let? '(key, rest) := unescape l in Ok (b :: key, rest)
      else
        match l with
        | [] => Err (Adapter.CorruptMvcc EndsInsideEscape)
        | next :: l =>
            if (next =? KEY_ESCAPE)%N then Ok ([], l)
            else if (next =? KEY_ESCAPED_ZERO)%N then
              let? '(key, rest) := unescape l in Ok (KEY_ESCAPE :: key, rest)
            else Err (Adapter.CorruptMvcc (UnknownEscape next))
        end
  end.

Definition decode_user_version_key (encoded : bytes) : res AdapterError (bytes * Version) :=
  match encoded with
  | b :: rest =>
      if negb (b =? USER_KEY_PREFIX)%N then Err (Adapter.CorruptMvcc WrongNamespace)
      else
        let? '(key, complemented) := unescape rest in
        if negb (length complemented =? 16) then Err (Adapter.CorruptMvcc NoVersionSuffix)
        else Ok (key, version_from_be_bytes (bnot <$> complemented))
  | [] => Err (Adapter.CorruptMvcc WrongNamespace)
  end.

Definition encode_set (value : bytes) : bytes := VALUE_SET :: value.
Definition encode_tombstone : bytes := [VALUE_TOMBSTONE].

Definition decode_value (encoded : bytes) : res AdapterError (option bytes) :=
  match encoded with
  | [] => Err (Adapter.CorruptMvcc EmptyEnvelope)
  | tag :: value =>
      if (tag =? VALUE_TOMBSTONE)%N then
        match value with
        | [] => Ok None
        | _ :: _ => Err (Adapter.CorruptMvcc TombstoneTrailing)
        end
      else if (tag =? VALUE_SET)%N then Ok (Some value)
      else Err (Adapter.CorruptMvcc (UnknownValueTag tag))
  end.

(** The envelope of a point mutation. *)
Definition encode_value (x : option bytes) : bytes :=
  match x with Some value => encode_set value | None => encode_tombstone end.

Lemma decode_encode_value x : decode_value (encode_value x) = Ok x.
Proof. by destruct x. Qed.

Lemma decode_value_inv l x : decode_value l = Ok x → l = encode_value x.
Proof.
  unfold decode_value. destruct l as [|tag l]; [done|].
  destruct (tag =? VALUE_TOMBSTONE)%N eqn:Ht.
  - apply N.eqb_eq in Ht as ->. destruct l; [|done]. by intros [= <-].
  - destruct (tag =? VALUE_SET)%N eqn:Hs; [|done]. apply N.eqb_eq in Hs as ->. by intros [= <-].
Qed.

(** ** Complement *)
Lemma bnot_sub b : is_byte b → bnot b = (255 - b)%N.
Proof.
  intros Hb. unfold is_byte in Hb.
  assert (forallb (λ n, (bnot (N.of_nat n) =? 255 - N.of_nat n)%N) (seq 0 256) = true) as Hall
    by (vm_compute; reflexivity).
  rewrite forallb_Forall, Forall_forall in Hall.
  rewrite <-(N2Nat.id b). apply N.eqb_eq, Hall. apply elem_of_seq. lia.
Qed.

Lemma bnot_byte b : is_byte b → is_byte (bnot b).
Proof. intros Hb. rewrite bnot_sub by done. unfold is_byte in *. lia. Qed.

Lemma bnot_invol b : bnot (bnot b) = b.
Proof. unfold bnot. by rewrite N.lxor_assoc, N.lxor_nilpotent, N.lxor_0_r. Qed.

Lemma map_bnot_invol (l : bytes) : bnot <$> (bnot <$> l) = l.
Proof.
  rewrite <-list_fmap_compose. etransitivity; [|apply list_fmap_id].
  apply list_fmap_ext. intros _ b _. apply bnot_invol.
Qed.

(** Complementing bytes reverses the order of equal-length strings. *)
Lemma bnot_cmp l1 l2 :
  bytes_wf l1 → bytes_wf l2 → length l1 = length l2 →
  kcmp (bnot <$> l1) (bnot <$> l2) = kcmp l2 l1.
Proof.
  revert l2. induction l1 as [|b1 l1 IH]; intros [|b2 l2] H1 H2 Hlen; simplify_eq/=; [done|].
  apply Forall_cons in H1 as [Hb1 H1], H2 as [Hb2 H2].
  rewrite !bnot_sub by done. unfold is_byte in *.
  destruct (N.compare_spec b2 b1) as [->|Hlt|Hgt].
  - rewrite N.compare_refl. by apply IH.
  - by rewrite (proj2 (N.compare_lt_iff _ _)) by lia.
  - by rewrite (proj2 (N.compare_gt_iff _ _)) by lia.
Qed.

Lemma length_complemented v : length (complemented_version v) = 16.
Proof. unfold complemented_version. by rewrite length_fmap, length_version_to_be_bytes. Qed.
#[export] Hint Rewrite length_complemented : len_simpl.

(** Newer versions sort first. *)
Lemma complemented_cmp v w :
  version_wf v → version_wf w →
  kcmp (complemented_version v) (complemented_version w) = kcmp w v.
Proof.
  intros Hv Hw. unfold complemented_version.
  rewrite bnot_cmp by (apply version_to_be_bytes_wf || by rewrite !length_version_to_be_bytes).
  by apply version_bytes_cmp.
Qed.

(** ** Escaping *)
Lemma escape_cons b key : escape (b :: key) = escape_byte b ++ escape key.
Proof. done. Qed.

Lemma unescape_escape key rest :
  unescape (escape key ++ [KEY_ESCAPE; KEY_ESCAPE] ++ rest) = Ok (key, rest).
Proof.
  induction key as [|b key IH]; [done|].
  rewrite escape_cons, <-app_assoc. unfold escape_byte.
  destruct (b =? KEY_ESCAPE)%N eqn:Hb; simpl; simpl in IH.
  - apply N.eqb_eq in Hb as ->. by rewrite IH.
  - rewrite Hb. simpl. by rewrite IH.
Qed.

Lemma unescape_sound l key rest :
  unescape l = Ok (key, rest) → l = escape key ++ [KEY_ESCAPE; KEY_ESCAPE] ++ rest.
Proof.
  remember (length l) as n eqn:Hn. revert l key rest Hn.
  induction n as [n IH] using lt_wf_ind; intros [|b l] key rest Hn; simpl; [done|].
  simpl in Hn. destruct (b =? KEY_ESCAPE)%N eqn:Hb; simpl.
  - apply N.eqb_eq in Hb as ->. destruct l as [|next l]; [done|]. simpl in Hn.
    destruct (next =? KEY_ESCAPE)%N eqn:Hz.
    { apply N.eqb_eq in Hz as ->. by intros [= <- <-]. }
    destruct (next =? KEY_ESCAPED_ZERO)%N eqn:Hf; [|done]. apply N.eqb_eq in Hf as ->.
    intros ([key' rest'] & Hu & [= <- <-])%res_bind_Ok.
    apply (IH (length l)) in Hu; [|lia|done]. by rewrite Hu.
  - intros ([key' rest'] & Hu & [= <- <-])%res_bind_Ok.
    apply (IH (length l)) in Hu; [|lia|done]. rewrite escape_cons. unfold escape_byte.
    by rewrite Hb, Hu.
Qed.

Lemma kcmp_cons_eq (b : N) l1 l2 : kcmp (b :: l1) (b :: l2) = kcmp l1 l2.
Proof. apply (list_cmp_app_l [b]). Qed.
Lemma kcmp_cons_lt (a b : N) l1 l2 : (a < b)%N → kcmp (a :: l1) (b :: l2) = Lt.
Proof. intros Hab. cbn. by rewrite (proj2 (N.compare_lt_iff _ _)). Qed.
Lemma kcmp_cons_gt (a b : N) l1 l2 : (b < a)%N → kcmp (a :: l1) (b :: l2) = Gt.
Proof. intros Hab. cbn. by rewrite (proj2 (N.compare_gt_iff _ _)). Qed.

(** The escaped strings, once terminated by [0; c] with [c] below the escape
    of zero, compare as the keys do, whatever follows. *)
Lemma escape_cmp k1 k2 c1 c2 s1 s2 :
  (c1 < KEY_ESCAPED_ZERO)%N → (c2 < KEY_ESCAPED_ZERO)%N →
  kcmp (escape k1 ++ KEY_ESCAPE :: c1 :: s1) (escape k2 ++ KEY_ESCAPE :: c2 :: s2) =
    match kcmp k1 k2 with Eq => kcmp (c1 :: s1) (c2 :: s2) | c => c end.
Proof.
  unfold KEY_ESCAPE, KEY_ESCAPED_ZERO.
  assert (∀ b, (b =? 0)%N = true ∧ b = 0%N ∨ (b =? 0)%N = false ∧ (0 < b)%N) as Hz.
  { intros b. destruct (N.eqb_spec b 0); [by left|right; split; [done|lia]]. }
  intros Hc1 Hc2. revert k2. induction k1 as [|b1 k1 IH]; intros [|b2 k2].
  - apply kcmp_cons_eq.
  - change (escape []) with (@nil N). rewrite escape_cons. unfold escape_byte, KEY_ESCAPE.
    destruct (Hz b2) as [[-> ->]|[-> Hb]]; cbn [app].
    + rewrite kcmp_cons_eq. by apply kcmp_cons_lt.
    + by apply kcmp_cons_lt.
  - change (escape []) with (@nil N). rewrite escape_cons. unfold escape_byte, KEY_ESCAPE.
    destruct (Hz b1) as [[-> ->]|[-> Hb]]; cbn [app].
    + rewrite kcmp_cons_eq. by apply kcmp_cons_gt.
    + by apply kcmp_cons_gt.
  - rewrite !escape_cons, <-!app_assoc.
    destruct (N.lt_trichotomy b1 b2) as [Hlt|[->|Hgt]].
    + rewrite (kcmp_cons_lt b1 b2) by done. unfold escape_byte, KEY_ESCAPE.
      destruct (Hz b2) as [[-> ->]|[-> _]]; [lia|].
      destruct (Hz b1) as [[-> ->]|[-> _]]; by apply kcmp_cons_lt.
    + by rewrite list_cmp_app_l, IH, kcmp_cons_eq.
    + rewrite (kcmp_cons_gt b1 b2) by done. unfold escape_byte, KEY_ESCAPE.
      destruct (Hz b1) as [[-> ->]|[-> _]]; [lia|].
      destruct (Hz b2) as [[-> ->]|[-> _]]; by apply kcmp_cons_gt.
Qed.

Lemma user_version_key_unfold k v :
  user_version_key k v =
    USER_KEY_PREFIX :: escape k ++ KEY_ESCAPE :: KEY_ESCAPE :: complemented_version v.
Proof. unfold user_version_key, user_key_prefix. simpl. by rewrite <-app_assoc. Qed.

Lemma user_key_successor_unfold k :
  user_key_successor k = USER_KEY_PREFIX :: escape k ++ [KEY_ESCAPE; 1%N].
Proof.
  unfold user_key_successor, bump_last, user_key_prefix.
  change (USER_KEY_PREFIX :: escape k ++ [KEY_ESCAPE; KEY_ESCAPE]) with
    ((USER_KEY_PREFIX :: escape k) ++ [KEY_ESCAPE] ++ [KEY_ESCAPE]).
  rewrite app_assoc, last_snoc, length_app, Nat.add_sub, take_app_length. simpl.
  by rewrite <-app_assoc.
Qed.

(** User key ascending, then version descending. *)
Lemma user_version_key_cmp k1 v1 k2 v2 :
  version_wf v1 → version_wf v2 →
  kcmp (user_version_key k1 v1) (user_version_key k2 v2) =
    match kcmp k1 k2 with Eq => kcmp v2 v1 | c => c end.
Proof.
  intros H1 H2. rewrite !user_version_key_unfold, kcmp_cons_eq, escape_cmp by done.
  by rewrite kcmp_cons_eq, complemented_cmp.
Qed.

Lemma user_version_key_inj k1 v1 k2 v2 :
  version_wf v1 → version_wf v2 →
  user_version_key k1 v1 = user_version_key k2 v2 → k1 = k2 ∧ v1 = v2.
Proof.
  intros H1 H2 Heq%kcmp_eq. rewrite user_version_key_cmp in Heq by done.
  destruct (kcmp k1 k2) eqn:Hk; [|done..].
  apply kcmp_eq in Hk as ->. apply kcmp_eq in Heq as ->. done.
Qed.

(** A prefix bounds the entries of its key and of the later ones; a successor
    those of the later keys only. *)
Lemma prefix_le_entry k k' v : user_key_prefix k ≤ₖ user_version_key k' v ↔ k ≤ₖ k'.
Proof.
  unfold key_le. rewrite user_version_key_unfold. unfold user_key_prefix.
  rewrite kcmp_cons_eq, escape_cmp by done. destruct (kcmp k k') eqn:Hk; [|done..].
  rewrite kcmp_cons_eq. split; [done|]. intros _.
  pose proof (length_complemented v). by destruct (complemented_version v).
Qed.

Lemma entry_lt_prefix k k' v : user_version_key k' v <ₖ user_key_prefix k ↔ k' <ₖ k.
Proof. by rewrite <-!key_not_le, prefix_le_entry. Qed.

Lemma entry_lt_successor k k' v : user_version_key k' v <ₖ user_key_successor k ↔ k' ≤ₖ k.
Proof.
  unfold key_lt, key_le. rewrite user_version_key_unfold, user_key_successor_unfold.
  rewrite kcmp_cons_eq, escape_cmp by done. by destruct (kcmp k' k).
Qed.

Lemma successor_lt_prefix k end_ : k <ₖ end_ → user_key_successor k <ₖ user_key_prefix end_.
Proof.
  unfold key_lt. rewrite user_key_successor_unfold. unfold user_key_prefix.
  rewrite kcmp_cons_eq, escape_cmp by done. by intros ->.
Qed.

(** ** Round trips *)
Lemma decode_user_version_key_of k v :
  version_wf v → decode_user_version_key (user_version_key k v) = Ok (k, v).
Proof.
  intros Hv. rewrite user_version_key_unfold. unfold decode_user_version_key.
  rewrite N.eqb_refl. cbn [negb].
  change (KEY_ESCAPE :: KEY_ESCAPE :: complemented_version v) with
    ([KEY_ESCAPE; KEY_ESCAPE] ++ complemented_version v).
  rewrite unescape_escape. cbn [res_bind]. rewrite length_complemented, Nat.eqb_refl. cbn [negb].
  unfold complemented_version.
  by rewrite map_bnot_invol, version_from_to.
Qed.

Lemma version_from_be_bytes_wf l :
  length l = 16 → bytes_wf l → version_wf (version_from_be_bytes l).
Proof.
  intros Hlen Hl. assert (∀ i, i ≤ 8 → u64_wf (of_be (slice i (i + 8) l))) as Hs.
  { intros i Hi. rewrite u64_wf_pow. replace 8 with (length (slice i (i + 8) l)) at 2.
    - by apply of_be_bound, slice_wf.
    - rewrite length_slice by lia. lia. }
  split; [apply (Hs 0)|apply (Hs 8)]; lia.
Qed.

Lemma bnot_wf l : bytes_wf l → bytes_wf (bnot <$> l).
Proof. intros Hl. apply Forall_fmap. eapply Forall_impl; [exact Hl|]. apply bnot_byte. Qed.

Lemma decode_user_version_key_inv l k v :
  bytes_wf l → decode_user_version_key l = Ok (k, v) →
  version_wf v ∧ l = user_version_key k v.
Proof.
  intros Hwf. unfold decode_user_version_key. destruct l as [|b l]; [done|].
  destruct (b =? USER_KEY_PREFIX)%N eqn:Hb; [|done]. apply N.eqb_eq in Hb as ->. cbn [negb].
  intros ([key comp] & Hu & Hd)%res_bind_Ok.
  destruct (length comp =? 16) eqn:Hlen; [|done]. apply Nat.eqb_eq in Hlen.
  cbn [negb] in Hd. injection Hd as <- <-. apply unescape_sound in Hu. subst l.
  apply Forall_cons in Hwf as [_ Hwf]. rewrite !Forall_app in Hwf. destruct Hwf as (_ & _ & Hwf).
  apply bnot_wf in Hwf as Hn.
  split; [by apply version_from_be_bytes_wf; [rewrite length_fmap|]|].
  rewrite user_version_key_unfold. unfold complemented_version.
  rewrite version_to_from by (done || by rewrite length_fmap). by rewrite map_bnot_invol.
Qed.

(** The physical key encoding is exact and order-preserving: decoding
    inverts it and accepts nothing else, and the byte order of two encoded keys
    is user key ascending, then version descending, so that the newest version
    of a key at or below a given one is the first of its entries. *)
Theorem key_codec_exact k1 v1 k2 v2 l :
  version_wf v1 → version_wf v2 → bytes_wf l →
  decode_user_version_key (user_version_key k1 v1) = Ok (k1, v1) ∧
  (decode_user_version_key l = Ok (k1, v1) → l = user_version_key k1 v1) ∧
  (user_version_key k1 v1 <ₖ user_version_key k2 v2 ↔ k1 <ₖ k2 ∨ k1 = k2 ∧ v2 <ₖ v1).
Proof.
  intros H1 H2 Hl. split_and!.
  - by apply decode_user_version_key_of.
  - intros Hd. by apply decode_user_version_key_inv in Hd as [_ ?].
  - unfold key_lt. rewrite user_version_key_cmp by done. destruct (kcmp k1 k2) eqn:Hk.
    + apply kcmp_eq in Hk as ->. naive_solver.
    + naive_solver.
    + split; [done|]. intros [?|[-> _]]; [done|]. by rewrite kcmp_refl in Hk.
Qed.

Lemma key_codec_exact_witness :
  let l := user_version_key [0; 255]%N (version_new 7) in
  decode_user_version_key l = Ok ([0; 255]%N, version_new 7) ∧
  (decode_user_version_key l = Ok ([0; 255]%N, version_new 7) → l = l) ∧
  (l <ₖ user_version_key [0; 255; 0]%N (version_new 9) ↔
     [0; 255]%N <ₖ [0; 255; 0]%N ∨ [0; 255]%N = [0; 255; 0]%N ∧ version_new 9 <ₖ version_new 7).
Proof.
  intros l. apply (key_codec_exact [0; 255]%N (version_new 7) [0; 255; 0]%N (version_new 9) l).
  - by split.
  - by split.
  - by apply bytes_wf_check.
Defined.
