(* ===== verification/SlateEngine.v ===== *)
(** * The SlateDB engine adapter

    [SlateEngine], [AuthorityBoundSlateReader] and its cursor
    ([okv-slate/src/lib.rs]). SlateDB itself is third-party: [OrderedStore]
    lists the calls the adapter makes and [OrderedStoreLaws] the documented
    behaviour it relies on. Every call may fail. *)

From S2P Require Import Prelude Order BTree Bytes Version Mvcc SlateCodec.

(** ** The storage engine the adapter calls *)

(** [D] is a database (or reader) handle and [I] an iterator over a snapshot of
    it; [None] is an error of the call. [store_contents] and [iter_remaining]
    name the logical state. *)
Class OrderedStore (D I : Type) := {
  store_get : D → bytes → option (option bytes);
  store_scan : D → bytes → bytes → option I;
  store_scan_prefix : D → bytes → bytes → option I;
  iter_next : I → option (option (bytes * bytes) * I);
  iter_seek : I → bytes → option I;
  store_write : D → list (bytes * bytes) → N → D * bool;
  store_contents : D → gmap bytes bytes;
  iter_remaining : I → list (bytes * bytes);
}.

(** The puts of a [WriteBatch], later ones last. *)
Definition put_all (S : gmap bytes bytes) (puts : list (bytes * bytes)) : gmap bytes bytes :=
  foldl (λ S p, <[p.1 := p.2]> S) S puts.

(** Entries whose key is [prefix] followed by at least [start]. *)
Definition in_prefix (prefix start key : bytes) : bool :=
  bool_decide (prefix `prefix_of` key) && (start ≤ₖ? drop (length prefix) key).

Class OrderedStoreLaws (D I : Type) `{OrderedStore D I} := {
  store_get_ok d k x : store_get d k = Some x → x = store_contents d !! k;
  store_scan_ok d lo hi it : store_scan d lo hi = Some it →
    iter_remaining it = bt_range (λ k, (lo ≤ₖ? k) && (k <ₖ? hi)) (store_contents d);
  store_scan_prefix_ok d prefix start it : store_scan_prefix d prefix start = Some it →
    iter_remaining it = bt_range (in_prefix prefix start) (store_contents d);
  iter_next_ok it e it' : iter_next it = Some (e, it') →
    match e with
    | Some e => iter_remaining it = e :: iter_remaining it'
    | None => iter_remaining it = []
    end;
  iter_seek_ok it k it' : iter_seek it k = Some it' →
    iter_remaining it' = List.filter (λ e, k ≤ₖ? e.1) (iter_remaining it);
  (** A batch is written whole; after an error it may have been written. *)
  store_write_ok d puts seq d' ok : store_write d puts seq = (d', ok) →
    store_contents d' = put_all (store_contents d) puts ∨
    ok = false ∧ store_contents d' = store_contents d;
}.

(** ** Reads shared by the engine and the authority-bound reader *)
Section slate.
Context (sha256 : bytes → bytes) {D I : Type} `{OrderedStore D I}.

Definition latest_version (d : D) : res AdapterError Version :=
  match store_get d LATEST_VERSION_KEY with
  | None => Err Adapter.Backend
  | Some None => Ok VERSION_ZERO
  | Some (Some encoded) =>
      if length encoded =? 16 then Ok (version_from_be_bytes encoded) else Err Adapter.Backend
  end.

Definition require_applied (d : D) (requested : Version) : res AdapterError unit :=
  let? applied := latest_version d in
  if applied <ₖ? requested then Err (Adapter.SnapshotUnavailable requested applied) else Ok tt.

Definition require_readable (d : D) (requested minimum : Version) : res AdapterError unit :=
  if requested <ₖ? minimum then Err (Adapter.SnapshotExpired requested minimum)
  else require_applied d requested.

Definition get_visible (d : D) (key : bytes) (read_version : Version)
    : res AdapterError (option bytes) :=
  match store_scan_prefix d (user_key_prefix key) (complemented_version read_version) with
  | None => Err Adapter.Backend
  | Some it =>
      match iter_next it with
      | None => Err Adapter.Backend
      | Some (None, _) => Ok None
      | Some (Some entry, _) => decode_value entry.2
      end
  end.

Definition get_latest (d : D) (key : bytes) : res AdapterError (option bytes) :=
  let? latest := latest_version d in get_visible d key latest.

Definition get_at_retained (d : D) (key : bytes) (read_version minimum : Version)
    : res AdapterError (option bytes) :=
  let? _ := require_readable d read_version minimum in get_visible d key read_version.

Definition get_at (d : D) (key : bytes) (read_version : Version)
    : res AdapterError (option bytes) :=
  get_at_retained d key read_version VERSION_ZERO.

(** The row loop of [SlateEngine::scan_at_retained]. Each turn consumes an
    entry, so one more turn than the iterator has entries is enough fuel;
    running out of it is [Panic]. *)
Fixpoint scan_rows (fuel : nat) (it : I) (physical_end : bytes) (read_version : Version)
    (limit : nat) (rows : list Row) : res AdapterError (list Row) :=
  match fuel with
  | O => Panic
  | S fuel =>
      match iter_next it with
      | None => Err Adapter.Backend
      | Some (None, _) => Ok rows
      | Some (Some (key, encoded), it) =>
          let? '(user_key, version) := decode_user_version_key key in
          if read_version <ₖ? version then
            scan_rows fuel it physical_end read_version limit rows
          else
            let? value := decode_value encoded in
            let rows := match value with Some x => rows ++ [(user_key, x)] | None => rows end in
            if is_some value && (length rows =? limit) then Ok rows
            else
              let next_user := user_key_successor user_key in
              if physical_end ≤ₖ? next_user then Ok rows
              else
                match iter_seek it next_user with
                | None => Err Adapter.Backend
                | Some it => scan_rows fuel it physical_end read_version limit rows
                end
      end
  end.

Definition scan_at_retained (d : D) (start end_ : bytes) (read_version minimum : Version)
    (limit : nat) : res AdapterError (list Row) :=
  if end_ ≤ₖ? start then Err (Adapter.InvalidScanRange start end_)
  else
    let? _ := require_readable d read_version minimum in
    if limit =? 0 then Ok []
    else
      let physical_end := user_key_prefix end_ in
      match store_scan d (user_key_prefix start) physical_end with
      | None => Err Adapter.Backend
      | Some it =>
          scan_rows (S (length (iter_remaining it))) it physical_end read_version limit []
      end.

Definition scan_at (d : D) (start end_ : bytes) (read_version : Version) (limit : nat)
    : res AdapterError (list Row) :=
  scan_at_retained d start end_ read_version VERSION_ZERO limit.

(** ** [SlateEngine::apply] *)
Definition replay_outcome (d : D) (ck fp : bytes) (version : Version)
    : res AdapterError (option (res AdapterError ApplyOutcome)) :=
  match store_get d ck with
  | None => Err Adapter.Backend
  | Some existing =>
      Ok ((λ e, if bool_decide (e = fp) then Ok AlreadyApplied
                else Err (Adapter.ConflictingReplay version)) <$> existing)
  end.

Definition is_range_clear (mu : Mutation) : bool :=
  match mu with MClearRange _ => true | _ => false end.

(** The loop that fills the [WriteBatch]; a range clear there is unreachable. *)
Definition put_of (version : Version) (mu : Mutation) : res AdapterError (bytes * bytes) :=
  match mu with
  | MSet key value => Ok (user_version_key key version, encode_set value)
  | MClear key => Ok (user_version_key key version, encode_tombstone)
  | MClearRange _ => Panic
  end.

(** What is known once the replay record and the frontier have been read. *)
Definition refuse_stale (d : D) (ck fp : bytes) (version : Version)
    : res AdapterError (option (res AdapterError ApplyOutcome)) :=
  let? outcome := replay_outcome d ck fp version in
  match outcome with
  | Some outcome => Ok (Some outcome)
  | None =>
      let? latest := latest_version d in
      if version ≤ₖ? latest then Ok (Some (Err (Adapter.NonMonotonicVersion latest version)))
      else Ok None
  end.

Definition lift_batch_error {A} (r : res ModelError A) : res AdapterError A :=
  match r with Ok x => Ok x | Err e => Err (Adapter.InvalidBatch e) | Panic => Panic end.

Definition slate_apply (d : D) (batch : CommitBatch) : D * res AdapterError ApplyOutcome :=
  let version := batch_version batch in
  if bool_decide (version = VERSION_ZERO) then (d, Err Adapter.ZeroVersion)
  else if negb (generation version =? 0)%N then
    (d, Err (Adapter.UnsupportedGeneration (generation version)))
  else if existsb is_range_clear (batch_mutations batch) then
    (d, Err Adapter.UnsupportedRangeClear)
  else
    let ck := commit_key version in
    match lift_batch_error (fingerprint sha256 batch) with
    | Err e => (d, Err e)
    | Panic => (d, Panic)
    | Ok fp =>
        match refuse_stale d ck fp version, res_collect (put_of version) (batch_mutations batch) with
        | Ok (Some outcome), _ => (d, outcome)
        | Ok None, Ok puts =>
            let '(d', ok) :=
              store_write d
                (puts ++ [(ck, fp); (LATEST_VERSION_KEY, version_to_be_bytes version)])
                (sequence version) in
            if ok then (d', Ok Applied)
            else
              match refuse_stale d' ck fp version with
              | Ok (Some outcome) => (d', outcome)
              | Ok None => (d', Err Adapter.Backend)
              | Err e => (d', Err e)
              | Panic => (d', Panic)
              end
        | Ok None, Err e => (d, Err e)
        | Ok None, Panic => (d, Panic)
        | Err e, _ => (d, Err e)
        | Panic, _ => (d, Panic)
        end
    end.

(** ** The authority-bound reader *)
Record AuthorityBoundSlateScan := {
  as_iterator : I;
  as_physical_end : bytes;
  as_read_version : Version;
  as_finished : bool;
}.

(** The loop of [AuthorityBoundSlateScan::next]: the row, the iterator and the
    new value of [finished]. *)
Fixpoint cursor_loop (fuel : nat) (it : I) (physical_end : bytes) (read_version : Version)
    : res AdapterError (option Row * I * bool) :=
  match fuel with
  | O => Panic
  | S fuel =>
      match iter_next it with
      | None => Err Adapter.Backend
      | Some (None, it) => Ok (None, it, true)
      | Some (Some (key, encoded), it) =>
          let? '(user_key, version) := decode_user_version_key key in
          if read_version <ₖ? version then cursor_loop fuel it physical_end read_version
          else
            let? value := decode_value encoded in
            let next_user := user_key_successor user_key in
            let reached_end := physical_end ≤ₖ? next_user in
            let? it := (if reached_end then Ok it
                        else match iter_seek it next_user with
                             | None => Err Adapter.Backend
                             | Some it => Ok it
                             end) in
            match value with
            | Some x => Ok (Some (user_key, x), it, reached_end)
            | None =>
                if reached_end then Ok (None, it, true)
                else cursor_loop fuel it physical_end read_version
            end
      end
  end.

Definition cursor_next (c : AuthorityBoundSlateScan)
    : res AdapterError (option Row * AuthorityBoundSlateScan) :=
  if as_finished c then Ok (None, c)
  else
    let? '(row, it, finished) :=
      cursor_loop (S (length (iter_remaining (as_iterator c)))) (as_iterator c)
        (as_physical_end c) (as_read_version c) in
    Ok (row, {| as_iterator := it; as_physical_end := as_physical_end c;
                as_read_version := as_read_version c; as_finished := finished |}).

Definition scan_cursor_at_retained (d : D) (start end_ : bytes) (read_version minimum : Version)
    : res AdapterError AuthorityBoundSlateScan :=
  if end_ ≤ₖ? start then Err (Adapter.InvalidScanRange start end_)
  else
    let? _ := require_readable d read_version minimum in
    let physical_end := user_key_prefix end_ in
    match store_scan d (user_key_prefix start) physical_end with
    | None => Err Adapter.Backend
    | Some it =>
        Ok {| as_iterator := it; as_physical_end := physical_end;
              as_read_version := read_version; as_finished := false |}
    end.

(** [while let Some(row) = cursor.next()]. *)
Fixpoint drain_cursor (fuel : nat) (c : AuthorityBoundSlateScan) (limit : nat) (rows : list Row)
    : res AdapterError (list Row) :=
  match fuel with
  | O => Panic
  | S fuel =>
      let? '(row, c) := cursor_next c in
      match row with
      | None => Ok rows
      | Some row =>
          let rows := rows ++ [row] in
          if length rows =? limit then Ok rows else drain_cursor fuel c limit rows
      end
  end.

Definition reader_scan_at_retained (d : D) (start end_ : bytes) (read_version minimum : Version)
    (limit : nat) : res AdapterError (list Row) :=
  if end_ ≤ₖ? start then Err (Adapter.InvalidScanRange start end_)
  else if limit =? 0 then
    let? _ := require_readable d read_version minimum in Ok []
  else
    let? cursor := scan_cursor_at_retained d start end_ read_version minimum in
    drain_cursor (S (length (iter_remaining (as_iterator cursor)))) cursor limit [].

(** [AuthorityBoundSlateReader::get_at_retained] inlines the point lookup. *)
Definition reader_get_at_retained (d : D) (key : bytes) (read_version minimum : Version)
    : res AdapterError (option bytes) :=
  let? _ := require_readable d read_version minimum in
  match store_scan_prefix d (user_key_prefix key) (complemented_version read_version) with
  | None => Err Adapter.Backend
  | Some it =>
      match iter_next it with
      | None => Err Adapter.Backend
      | Some (None, _) => Ok None
      | Some (Some entry, _) => decode_value entry.2
      end
  end.
End slate.
