(* ===== verification/SlateView.v ===== *)
(** * The physical state as a versioned map

    What the entries of the physical key space say about one user key: the
    newest entry at or below a version, found by the prefix scan, and the rows
    a range scan yields. Shared by the engine and the retention filter. *)

From S2P Require Import Prelude Order BTree Bytes Version Mvcc SlateCodec SlateEngine.

(** Every key of the user namespace is an encoded user key and version with a
    decodable value. *)
Definition user_shape (S : gmap bytes bytes) : Prop :=
  ∀ l x, S !! l = Some x → head l = Some USER_KEY_PREFIX →
    ∃ k v y, version_wf v ∧ l = user_version_key k v ∧ x = encode_value y.

(** [v] is the newest version of [k] at or below [rv], with value [y]. *)
Definition newest (S : gmap bytes bytes) (k : bytes) (rv v : Version) (y : option bytes) : Prop :=
  version_wf v ∧ S !! user_version_key k v = Some (encode_value y) ∧ v ≤ₖ rv ∧
  ∀ v', version_wf v' → is_Some (S !! user_version_key k v') → v' ≤ₖ rv → v' ≤ₖ v.

Definition none_visible (S : gmap bytes bytes) (k : bytes) (rv : Version) : Prop :=
  ∀ v, version_wf v → v ≤ₖ rv → S !! user_version_key k v = None.

Lemma encode_value_inj x y : encode_value x = encode_value y → x = y.
Proof. intros Heq. apply (f_equal decode_value) in Heq. rewrite !decode_encode_value in Heq. congruence. Qed.

Lemma newest_unique S k rv v1 y1 v2 y2 :
  newest S k rv v1 y1 → newest S k rv v2 y2 → v1 = v2 ∧ y1 = y2.
Proof.
  intros (W1 & L1 & R1 & M1) (W2 & L2 & R2 & M2).
  assert (v1 = v2) as ->.
  { apply key_le_antisymm; [apply M2|apply M1]; eauto. }
  split; [done|]. apply encode_value_inj. congruence.
Qed.

Lemma head_user_version_key k v : head (user_version_key k v) = Some USER_KEY_PREFIX.
Proof. done. Qed.

(** The entries under the prefix of [k] are the versions of [k]. *)
Lemma in_prefix_entry k k' v rv :
  version_wf v → version_wf rv →
  in_prefix (user_key_prefix k) (complemented_version rv) (user_version_key k' v) = true ↔
  k' = k ∧ v ≤ₖ rv.
Proof.
  intros Hv Hrv. unfold in_prefix. rewrite andb_true_iff, bool_decide_eq_true, key_leb_spec. split.
  - intros [[r Hr] Hle]. rewrite user_version_key_unfold in Hr. unfold user_key_prefix in Hr.
    simpl in Hr. injection Hr as Hr. rewrite <-app_assoc in Hr.
    assert (k' = k) as ->.
    { pose proof (unescape_escape k r) as H1.
      pose proof (unescape_escape k' (complemented_version v)) as H2.
      simpl in H1, H2, Hr. rewrite Hr, H1 in H2. by injection H2. }
    split; [done|]. unfold user_version_key in Hle. rewrite drop_app_length in Hle.
    unfold key_le in *. by rewrite complemented_cmp in Hle.
  - intros [-> Hle]. unfold user_version_key. split; [by eexists|].
    rewrite drop_app_length. unfold key_le in *. by rewrite complemented_cmp.
Qed.

Lemma in_prefix_head k s l : in_prefix (user_key_prefix k) s l = true → head l = Some USER_KEY_PREFIX.
Proof.
  unfold in_prefix. rewrite andb_true_iff, bool_decide_eq_true. intros [[r ->] _]. done.
Qed.

Lemma keys_sorted_head {V} (l : list (bytes * V)) p q :
  keys_sorted l → head l = Some p → q ∈ l → p.1 ≤ₖ q.1.
Proof.
  intros Hs Hh Hq. destruct l as [|p' l]; [done|]. injection Hh as ->.
  apply elem_of_cons in Hq as [->|Hq]; [apply key_le_refl|].
  apply StronglySorted_inv in Hs as [_ Hall]. rewrite Forall_forall in Hall.
  by apply key_lt_le, Hall.
Qed.

(** The first entry of the prefix scan is the newest visible one. *)
Lemma prefix_scan_newest S k rv :
  user_shape S → version_wf rv →
  match head (bt_range (in_prefix (user_key_prefix k) (complemented_version rv)) S) with
  | Some e => ∃ v y, newest S k rv v y ∧ e = (user_version_key k v, encode_value y)
  | None => none_visible S k rv
  end.
Proof.
  intros Hshape Hrv. set (f := in_prefix _ _).
  destruct (head (bt_range f S)) as [[l x]|] eqn:Hh.
  - assert ((l, x) ∈ bt_range f S) as [Hl Hf]%elem_of_bt_range.
    { destruct (bt_range f S); [done|]. injection Hh as ->. by constructor. }
    destruct (Hshape l x Hl (in_prefix_head _ _ _ Hf)) as (k' & v & y & Hv & -> & ->).
    apply in_prefix_entry in Hf as [-> Hle]; [|done..].
    exists v, y. split; [|done]. split_and!; [done..|]. intros v' Hv' [x' Hx'] Hle'.
    assert (user_version_key k v ≤ₖ user_version_key k v') as Hc.
    { apply (keys_sorted_head (bt_range f S) (_, _) (_, x') (bt_range_sorted _ _) Hh).
      apply elem_of_bt_range. split; [done|]. by apply in_prefix_entry. }
    unfold key_le in *. by rewrite user_version_key_cmp, kcmp_refl in Hc.
  - intros v Hv Hle. destruct (S !! _) as [x|] eqn:Hx; [|done].
    assert ((user_version_key k v, x) ∈ bt_range f S) as Hin.
    { apply elem_of_bt_range. split; [done|]. by apply in_prefix_entry. }
    destruct (bt_range f S); [by apply elem_of_nil in Hin|done].
Qed.

(** ** Rows of a range scan *)

(** A decoded entry: user key, version, value or tombstone. *)
Abbreviation entry := (bytes * Version * option bytes)%type (only parsing).
Definition phys (e : entry) : bytes * bytes :=
  (user_version_key e.1.1 e.1.2, encode_value e.2).
Definition entry_before (e e' : entry) : Prop :=
  e.1.1 <ₖ e'.1.1 ∨ e.1.1 = e'.1.1 ∧ e'.1.2 <ₖ e.1.2.
Definition entry_wf (e : entry) : Prop := version_wf e.1.2.

Lemma phys_inj e e' : entry_wf e → entry_wf e' → phys e = phys e' → e = e'.
Proof.
  destruct e as [[k v] y], e' as [[k' v'] y']. unfold entry_wf. simpl. intros Hv Hv' Heq.
  destruct (user_version_key_inj k v k' v' Hv Hv' (f_equal fst Heq)) as [-> ->].
  by rewrite (encode_value_inj y y' (f_equal snd Heq)).
Qed.

Lemma phys_before e e' :
  entry_wf e → entry_wf e' → entry_lt (phys e) (phys e') ↔ entry_before e e'.
Proof.
  destruct e as [[k v] y], e' as [[k' v'] y']. unfold entry_wf, entry_lt, entry_before; simpl.
  intros Hv Hv'. unfold key_lt. rewrite user_version_key_cmp by done.
  destruct (kcmp k k') eqn:Hk.
  - apply kcmp_eq in Hk as ->. naive_solver.
  - naive_solver.
  - split; [done|]. intros [?|[-> _]]; [done|]. by rewrite kcmp_refl in Hk.
Qed.

Lemma phys_sorted es :
  Forall entry_wf es → keys_sorted (phys <$> es) → StronglySorted entry_before es.
Proof.
  induction 1 as [|e es He Hes IH]; intros Hs; [constructor|].
  rewrite fmap_cons in Hs.
  apply StronglySorted_inv in Hs as [Hs Hall]. constructor; [by apply IH|].
  rewrite Forall_forall in Hes. rewrite Forall_fmap, Forall_forall in Hall.
  apply Forall_forall. intros e' He'. apply phys_before; [done|by apply Hes|]. by apply Hall.
Qed.

(** The rows of a sorted list of entries: the first entry of each key at or
    below [rv]; [skip] is a key already decided. *)
Fixpoint rows_from (rv : Version) (skip : option bytes) (es : list entry) : list Row :=
  match es with
  | [] => []
  | (k, v, y) :: es =>
      if bool_decide (skip = Some k) || (rv <ₖ? v) then rows_from rv skip es
      else match y with Some x => [(k, x)] | None => [] end ++ rows_from rv (Some k) es
  end.

Lemma before_key (e : entry) es :
  Forall (entry_before e) es → Forall (λ e', e.1.1 ≤ₖ e'.1.1) es.
Proof.
  intros Hall. eapply Forall_impl; [exact Hall|].
  intros e' [Hlt|[-> _]]; [by apply key_lt_le|apply key_le_refl].
Qed.

(** Skipping a decided key is seeking past it. *)
Lemma rows_from_skip rv k es :
  StronglySorted entry_before es → Forall (λ e : entry, k ≤ₖ e.1.1) es →
  rows_from rv (Some k) es = rows_from rv None (List.filter (λ e, k <ₖ? e.1.1) es).
Proof.
  induction 1 as [|[[k' v] y] es Hs IH Hall]; [done|].
  intros [Hk Hks]%Forall_cons. specialize (IH Hks). simpl in *.
  apply key_le_lt_eq in Hk as [Hlt| <-].
  - rewrite (proj2 (key_ltb_spec _ _) Hlt). simpl.
    rewrite bool_decide_false by (intros [= ->]; by apply key_lt_irrefl in Hlt). simpl.
    destruct (rv <ₖ? v); [done|]. f_equal. f_equal.
    symmetry. apply forallb_filter_id, forallb_forall. intros e He%list_elem_of_In.
    apply before_key in Hall. rewrite Forall_forall in Hall.
    specialize (Hall e He). simpl in Hall. apply key_ltb_spec. key_order.
  - rewrite bool_decide_true by done. simpl.
    by rewrite (proj2 (key_ltb_false k k)) by apply key_le_refl.
Qed.

Definition newest_in (es : list entry) (rv : Version) (k : bytes) (v : Version) (y : option bytes)
    : Prop :=
  (k, v, y) ∈ es ∧ v ≤ₖ rv ∧ ∀ v' y', (k, v', y') ∈ es → v' ≤ₖ rv → v' ≤ₖ v.

(** An entry that is not visible does not matter. *)
Lemma newest_in_weaken (A : Prop) e es rv k (x : option bytes) :
  (∀ v y, e = (k, v, y) → ¬ A ∨ ¬ v ≤ₖ rv) →
  A ∧ (∃ v, newest_in es rv k v x) ↔ A ∧ (∃ v, newest_in (e :: es) rv k v x).
Proof.
  intros He. split; intros [HA (v & Hin & Hle & Hmax)]; (split; [done|]); exists v.
  - split_and!; [by constructor|done|].
    intros v' y' [<-|?]%elem_of_cons Hle'; [|eauto]. by destruct (He _ _ eq_refl).
  - apply elem_of_cons in Hin as [<-|Hin]; [by destruct (He _ _ eq_refl)|].
    split_and!; [done..|]. intros v' y' Hin' Hle'. eapply Hmax; [by constructor|done].
Qed.

Lemma elem_of_rows_from rv skip es k x :
  StronglySorted entry_before es → (∀ s, skip = Some s → Forall (λ e : entry, s ≤ₖ e.1.1) es) →
  (k, x) ∈ rows_from rv skip es ↔ skip ≠ Some k ∧ ∃ v, newest_in es rv k v (Some x).
Proof.
  intros Hs. revert skip. induction Hs as [|[[k0 v0] y0] es Hs IH Hall]; intros skip Hskip; simpl.
  { split; [by intros ?%elem_of_nil|]. by intros (_ & v & ?%elem_of_nil & _). }
  assert (∀ s, skip = Some s → Forall (λ e : entry, s ≤ₖ e.1.1) es) as Hskip'.
  { intros s Hsk. by apply Hskip, Forall_cons in Hsk as [_ ?]. }
  pose proof (before_key _ _ Hall) as Hk0. rewrite Forall_forall in Hall.
  assert (∀ v y, (k, v, y) ∈ es → k = k0 → v <ₖ v0) as Hold.
  { intros v y Hin ->. destruct (Hall _ Hin) as [Hlt|[_ ?]]; [by apply key_lt_irrefl in Hlt|done]. }
  destruct (bool_decide (skip = Some k0)) eqn:Hsk; simpl.
  { apply bool_decide_eq_true in Hsk as ->. rewrite IH by done. apply newest_in_weaken.
    intros v y [= -> -> ->]. naive_solver. }
  apply bool_decide_eq_false in Hsk. destruct (rv <ₖ? v0) eqn:Hv.
  { apply key_ltb_spec in Hv. rewrite IH by done. apply newest_in_weaken.
    intros v y [= -> -> ->]. right. key_order. }
  apply key_ltb_false in Hv. rewrite elem_of_app, IH by (by intros s [= <-]).
  destruct (decide (k = k0)) as [->|Hne].
  - split.
    + intros [Hin|[? _]]; [|done]. split; [done|]. exists v0. destruct y0 as [x0|]; [|set_solver].
      apply list_elem_of_singleton in Hin as [= ->]. split_and!; [by constructor|done|].
      intros v' y' [[= -> ->]|Hin]%elem_of_cons _; [apply key_le_refl|].
      apply key_lt_le. by eapply Hold.
    + intros [_ (v & Hin & Hle & Hmax)]. left.
      assert (v0 ≤ₖ v) as Hge by (eapply Hmax; [by constructor|done]).
      apply elem_of_cons in Hin as [[= -> <-]|Hin]; [by constructor|].
      specialize (Hold _ _ Hin eq_refl). key_order.
  - assert (∀ x0, (k, x) ∈ match x0 with Some x => [(k0, x)] | None => [] end → False) as Hno.
    { intros [x0|]; [intros [= -> _]%list_elem_of_singleton; done|by intros ?%elem_of_nil]. }
    split.
    + intros [Hin|[_ (v & Hin & Hle & Hmax)]]; [by apply Hno in Hin|].
      split; [|exists v; split_and!; [by constructor|done|]].
      * intros ->. rewrite Forall_forall in Hk0. specialize (Hk0 _ Hin). simpl in Hk0.
        specialize (Hskip _ eq_refl). apply Forall_cons in Hskip as [Hsk0 _]. simpl in Hsk0.
        by destruct (key_le_antisymm _ _ Hsk0 Hk0).
      * intros v' y' [[= ->]|Hin']%elem_of_cons Hle'; [done|eauto].
    + intros [_ (v & Hin & Hle & Hmax)]. right. split; [naive_solver|]. exists v.
      apply elem_of_cons in Hin as [[= ->]|Hin]; [done|]. split_and!; [done..|].
      intros v' y' Hin' Hle'. eapply Hmax; [by constructor|done].
Qed.

Lemma rows_from_sorted rv skip es :
  StronglySorted entry_before es → (∀ s, skip = Some s → Forall (λ e : entry, s ≤ₖ e.1.1) es) →
  keys_sorted (rows_from rv skip es).
Proof.
  intros Hs. revert skip. induction Hs as [|[[k0 v0] y0] es Hs IH Hall]; intros skip Hskip; simpl.
  { constructor. }
  assert (∀ s, skip = Some s → Forall (λ e : entry, s ≤ₖ e.1.1) es) as Hskip'.
  { intros s Hsk. by apply Hskip, Forall_cons in Hsk as [_ ?]. }
  destruct (_ || _); [by apply IH|].
  assert (∀ s, Some k0 = Some s → Forall (λ e : entry, s ≤ₖ e.1.1) es) as Hk0.
  { intros s [= <-]. by apply before_key in Hall. }
  destruct y0 as [x0|]; [|by apply IH]. constructor; [by apply IH|].
  apply Forall_forall. intros [k x] Hin. apply elem_of_rows_from in Hin as [Hne (v & Hin & _)];
    [|done..].
  specialize (Hk0 _ eq_refl). rewrite Forall_forall in Hk0. specialize (Hk0 _ Hin). simpl in Hk0.
  unfold entry_lt. simpl. apply key_le_lt_eq in Hk0 as [?| ->]; [done|]. by destruct Hne.
Qed.

(** ** The entries of a key range *)
Lemma range_head start end_ l :
  user_key_prefix start ≤ₖ l → l <ₖ user_key_prefix end_ → head l = Some USER_KEY_PREFIX.
Proof.
  unfold user_key_prefix, key_le, key_lt. destruct l as [|b l]; [done|].
  intros H1 H2. simpl. f_equal.
  destruct (N.lt_trichotomy b USER_KEY_PREFIX) as [Hlt|[->|Hgt]]; [|done|].
  - by rewrite kcmp_cons_gt in H1.
  - by rewrite kcmp_cons_gt in H2.
Qed.

Lemma decoded_entries (l : list (bytes * bytes)) :
  (∀ p, p ∈ l → ∃ e, entry_wf e ∧ p = phys e) →
  ∃ es, Forall entry_wf es ∧ l = phys <$> es.
Proof.
  induction l as [|p l IH]; intros Hl.
  { by exists []. }
  destruct (Hl p) as (e & He & ->); [constructor|].
  destruct IH as (es & Hes & ->).
  { intros q Hq. apply Hl. by constructor. }
  exists (e :: es). split; [by constructor|done].
Qed.

Definition user_range (start end_ : bytes) (k : bytes) : bool :=
  (user_key_prefix start ≤ₖ? k) && (k <ₖ? user_key_prefix end_).

Lemma range_entries S start end_ :
  user_shape S →
  ∃ es, bt_range (user_range start end_) S = phys <$> es ∧ Forall entry_wf es ∧
    StronglySorted entry_before es ∧ Forall (λ e : entry, e.1.1 <ₖ end_) es ∧
    ∀ k v y, version_wf v →
      (k, v, y) ∈ es ↔ start ≤ₖ k ∧ k <ₖ end_ ∧ S !! user_version_key k v = Some (encode_value y).
Proof.
  intros Hshape.
  assert (∀ k v x, (user_version_key k v, x) ∈ bt_range (user_range start end_) S ↔
    S !! user_version_key k v = Some x ∧ start ≤ₖ k ∧ k <ₖ end_) as Hin.
  { intros k v x. rewrite elem_of_bt_range. unfold user_range.
    by rewrite andb_true_iff, key_leb_spec, key_ltb_spec, prefix_le_entry, entry_lt_prefix. }
  destruct (decoded_entries (bt_range (user_range start end_) S)) as (es & Hwf & Heq).
  { intros [l x] [Hl Hr]%elem_of_bt_range. unfold user_range in Hr.
    rewrite andb_true_iff, key_leb_spec, key_ltb_spec in Hr. destruct Hr as [H1 H2].
    destruct (Hshape l x Hl (range_head _ _ _ H1 H2)) as (k & v & y & Hv & -> & ->).
    by exists (k, v, y). }
  exists es. split_and!; [done|done| | |].
  - apply phys_sorted; [done|]. rewrite <-Heq. apply bt_range_sorted.
  - apply Forall_forall. intros [[k v] y] He.
    apply (list_elem_of_fmap_2 phys) in He. rewrite <-Heq in He. by apply Hin in He as (_ & _ & ?).
  - intros k v y Hv. split.
    + intros He%(list_elem_of_fmap_2 phys). rewrite <-Heq in He. apply Hin in He. naive_solver.
    + intros (H1 & H2 & HS).
      assert ((user_version_key k v, encode_value y) ∈ bt_range (user_range start end_) S) as He
        by by apply Hin.
      rewrite Heq, list_elem_of_fmap in He. destruct He as (e & Hp & He).
      rewrite Forall_forall in Hwf. by rewrite (phys_inj (k, v, y) e) by auto.
Qed.

(** The rows of a range: sorted, each key with its newest visible value. *)
Lemma range_rows S start end_ rv es :
  Forall entry_wf es → StronglySorted entry_before es →
  (∀ k v y, version_wf v →
     (k, v, y) ∈ es ↔ start ≤ₖ k ∧ k <ₖ end_ ∧ S !! user_version_key k v = Some (encode_value y)) →
  user_shape S →
  ∀ k x, (k, x) ∈ rows_from rv None es ↔
    start ≤ₖ k ∧ k <ₖ end_ ∧ ∃ v, newest S k rv v (Some x).
Proof.
  intros Hwf Hs Hin Hshape k x. rewrite elem_of_rows_from by done.
  assert (∀ e, e ∈ es → version_wf e.1.2) as Hw by (by apply Forall_forall).
  split.
  - intros [_ (v & He & Hle & Hmax)]. pose proof (Hw _ He) as Hv. simpl in Hv.
    pose proof (proj1 (Hin k v (Some x) Hv) He) as (Hst & Hen & HS).
    split_and!; [done..|]. exists v. split_and!; [done..|].
    intros v' Hv' [x' Hx'] Hle'.
    destruct (Hshape _ _ Hx' (head_user_version_key _ _)) as (k0 & v0 & y0 & Hv0 & Hk0 & ->).
    apply user_version_key_inj in Hk0 as [<- <-]; [|done..].
    eapply (Hmax v' y0); [|done]. by apply Hin.
  - intros (Hst & Hen & v & Hv & HS & Hle & Hmax). split; [done|]. exists v.
    split_and!; [by apply Hin|done|]. intros v' y' He Hle'. pose proof (Hw _ He) as Hv'.
    apply Hmax; [done| |done]. apply Hin in He as (_ & _ & ->); [by eexists|done].
Qed.

(** ** Building well-shaped states *)
Lemma user_shape_empty : user_shape ∅.
Proof. intros l x. by rewrite lookup_empty. Qed.

Lemma user_shape_puts S puts :
  user_shape S →
  Forall (λ p, head p.1 ≠ Some USER_KEY_PREFIX ∨ ∃ e, entry_wf e ∧ p = phys e) puts →
  user_shape (put_all S puts).
Proof.
  intros HS Hp. revert S HS. induction Hp as [|[l x] puts Hlx _ IH]; intros S HS; [done|].
  apply IH. intros l' x'. rewrite lookup_insert. case_decide as Hl; [|apply HS].
  simpl in Hl. subst l'. intros [= <-] Hh.
  destruct Hlx as [?|([[k v] y] & Hv & Hp)]; [done|].
  exists k, v, y. split_and!; [done|exact (f_equal fst Hp)|exact (f_equal snd Hp)].
Qed.
