(* ===== verification/SlateOps.v ===== *)
(** * The engine adapter implements the MVCC model

    The physical key space written by [SlateEngine::apply] represents the
    reference model of [Mvcc.v]; point reads, range scans and cursor scans
    return the model's answers, and a failed write leaves the old or the new
    state. Everything is proved for any store with the behaviour of
    [OrderedStoreLaws]. *)

From S2P Require Import Prelude Order BTree Bytes Version Mvcc Oracle SlateCodec SlateEngine SlateView.

(** A store whose calls all succeed. *)
Record store_reliable (D I : Type) `{OrderedStore D I} : Prop := {
  rel_get (d : D) k : is_Some (store_get d k);
  rel_scan (d : D) lo hi : is_Some (store_scan d lo hi);
  rel_prefix (d : D) prefix start : is_Some (store_scan_prefix d prefix start);
  rel_next (it : I) : is_Some (iter_next it);
  rel_seek (it : I) k : is_Some (iter_seek it k);
  rel_write (d : D) puts seq : (store_write d puts seq).2 = true;
}.

(** Closes a goal [e = Err Backend ∧ ¬ store_reliable D I ∨ _] with the failed
    call in the context. *)
Ltac store_failed :=
  left; split; [done|]; let Hr := fresh "Hr" in intros Hr;
  match goal with
  | H : store_get ?d ?k = None |- _ => destruct (rel_get _ _ Hr d k); congruence
  | H : store_scan ?d ?lo ?hi = None |- _ => destruct (rel_scan _ _ Hr d lo hi); congruence
  | H : store_scan_prefix ?d ?p ?s = None |- _ => destruct (rel_prefix _ _ Hr d p s); congruence
  | H : iter_next ?it = None |- _ => destruct (rel_next _ _ Hr it); congruence
  | H : iter_seek ?it ?k = None |- _ => destruct (rel_seek _ _ Hr it k); congruence
  end.

(** ** The scan loops *)
Section scans.
Context {D I : Type} `{OrderedStoreLaws D I}.

Lemma seek_entries k (es : list (bytes * Version * option bytes)) :
  List.filter (λ e, user_key_successor k ≤ₖ? e.1) (phys <$> es) =
    phys <$> List.filter (λ e, k <ₖ? e.1.1) es.
Proof.
  induction es as [|[[k' v] y] es IH]; [done|].
  assert ((user_key_successor k ≤ₖ? user_version_key k' v) = (k <ₖ? k')) as Hb.
  { apply eq_true_iff_eq. rewrite key_leb_spec, key_ltb_spec.
    by rewrite <-key_not_lt, entry_lt_successor, key_not_le. }
  rewrite fmap_cons. unfold phys at 1. cbn [List.filter fst snd]. rewrite Hb.
  destruct (k <ₖ? k'); [|exact IH]. rewrite fmap_cons. by f_equal.
Qed.

(** What a scan loop works on: the decoded entries still to come. *)
Record pending (it : I) (end_ : bytes) (es : list (bytes * Version * option bytes)) : Prop := {
  pend_remaining : iter_remaining it = phys <$> es;
  pend_wf : Forall entry_wf es;
  pend_sorted : StronglySorted entry_before es;
  pend_end : Forall (λ e, e.1.1 <ₖ end_) es;
}.

Lemma pending_next it end_ es e it' :
  pending it end_ es → iter_next it = Some (e, it') →
  match e with
  | None => es = []
  | Some p => ∃ k v y es', es = (k, v, y) :: es' ∧ p = phys (k, v, y) ∧ version_wf v ∧
      k <ₖ end_ ∧ Forall (λ e : bytes * Version * option bytes, k ≤ₖ e.1.1) es' ∧
      pending it' end_ es'
  end.
Proof.
  intros [Hr Hw Hs He] Hn%iter_next_ok. destruct e as [p|].
  - rewrite Hr in Hn. destruct es as [|[[k v] y] es]; [done|]. rewrite fmap_cons in Hn.
    injection Hn as Hp Hrest. exists k, v, y, es.
    apply Forall_cons in Hw as [Hv Hw], He as [Hk He]. apply StronglySorted_inv in Hs as [Hs Hall].
    apply before_key in Hall. by split_and!.
  - rewrite Hr in Hn. by destruct es.
Qed.

Lemma pending_seek it end_ k es it' :
  pending it end_ es → iter_seek it (user_key_successor k) = Some it' →
  pending it' end_ (List.filter (λ e, k <ₖ? e.1.1) es).
Proof.
  intros [Hr Hw Hs He] Hk%iter_seek_ok. split.
  - by rewrite Hk, Hr, seek_entries.
  - by apply Forall_lfilter.
  - by apply ssorted_lfilter.
  - by apply Forall_lfilter.
Qed.

Lemma length_lfilter {A} (f : A → bool) l : length (List.filter f l) ≤ length l.
Proof. induction l as [|x l IH]; simpl; [done|]. destruct (f x); simpl; lia. Qed.

Lemma decode_phys k v y : version_wf v → decode_user_version_key (phys (k, v, y)).1 = Ok (k, v).
Proof. apply decode_user_version_key_of. Qed.

(** The row loop returns the first [limit] rows, unless the store fails. *)
Lemma scan_rows_spec fuel it end_ rv limit rows es :
  pending it end_ es → length es < fuel → length rows < limit →
  scan_rows fuel it (user_key_prefix end_) rv limit rows = Err Adapter.Backend ∧ ¬ store_reliable D I ∨
  scan_rows fuel it (user_key_prefix end_) rv limit rows =
    Ok (take limit (rows ++ rows_from rv None es)).
Proof.
  revert it rows es. induction fuel as [|fuel IH]; intros it rows es Hp Hf Hl; [lia|].
  cbn [scan_rows]. destruct (iter_next it) as [[[p|] it']|] eqn:Hn; [| |store_failed].
  2: { apply (pending_next _ _ _ _ _ Hp) in Hn as ->. right. simpl.
       by rewrite app_nil_r, take_ge by lia. }
  apply (pending_next _ _ _ _ _ Hp) in Hn as (k & v & y & es' & -> & -> & Hv & Hk & Hall & Hp').
  simpl in Hf. rewrite (surjective_pairing (phys (k, v, y))), decode_phys by done. cbn [res_bind].
  cbn [rows_from]. rewrite (bool_decide_false (None = Some k)) by done. cbn [orb].
  destruct (rv <ₖ? v); [apply IH; [done|lia|done]|].
  change (phys (k, v, y)).2 with (encode_value y). rewrite decode_encode_value. cbn [res_bind].
  rewrite (proj2 (key_leb_false _ _)) by by apply successor_lt_prefix.
  rewrite rows_from_skip by (done || apply (pend_sorted _ _ _ Hp')).
  destruct (is_some y && _) eqn:Hfull.
  - right. apply andb_true_iff in Hfull as [Hy Hlen]. apply Nat.eqb_eq in Hlen.
    destruct y as [x|]; [|done]. f_equal. rewrite app_assoc. symmetry.
    by apply take_app_length'.
  - destruct (iter_seek it' _) as [it''|] eqn:Hs; [|store_failed].
    apply (pending_seek _ _ _ _ _ Hp') in Hs.
    pose proof (length_lfilter (λ e : bytes * Version * option bytes, k <ₖ? e.1.1) es') as Hle.
    destruct y as [x|].
    + rewrite app_assoc. apply IH; [done|lia|].
      simpl in Hfull. apply Nat.eqb_neq in Hfull. rewrite length_app in Hfull |- *. simpl in *. lia.
    + apply IH; [done|lia|done].
Qed.

(** One step of the cursor yields the next row. *)
Lemma cursor_loop_spec fuel it end_ rv es :
  pending it end_ es → length es < fuel →
  cursor_loop fuel it (user_key_prefix end_) rv = Err Adapter.Backend ∧ ¬ store_reliable D I ∨
  ∃ row it' finished, cursor_loop fuel it (user_key_prefix end_) rv = Ok (row, it', finished) ∧
    match row with
    | None => rows_from rv None es = []
    | Some row => finished = false ∧ ∃ es', pending it' end_ es' ∧ length es' < length es ∧
        rows_from rv None es = row :: rows_from rv None es'
    end.
Proof.
  revert it es. induction fuel as [|fuel IH]; intros it es Hp Hf; [lia|].
  cbn [cursor_loop]. destruct (iter_next it) as [[[p|] it']|] eqn:Hn; [| |store_failed].
  2: { apply (pending_next _ _ _ _ _ Hp) in Hn as ->. right. by eexists _, _, _. }
  apply (pending_next _ _ _ _ _ Hp) in Hn as (k & v & y & es' & -> & -> & Hv & Hk & Hall & Hp').
  simpl in Hf. rewrite (surjective_pairing (phys (k, v, y))), decode_phys by done. cbn [res_bind].
  cbn [rows_from]. rewrite (bool_decide_false (None = Some k)) by done. cbn [orb].
  destruct (rv <ₖ? v).
  { destruct (IH it' es' Hp') as [[? ?]|(row & it2 & fin & Heq & Hrow)]; [lia|by left|].
    right. exists row, it2, fin. split; [done|]. destruct row as [row|]; [|done].
    destruct Hrow as (? & es2 & ? & ? & ?). split; [done|]. exists es2. simpl.
    split_and!; [done|lia|done]. }
  change (phys (k, v, y)).2 with (encode_value y). rewrite decode_encode_value. cbn [res_bind].
  rewrite (proj2 (key_leb_false _ _)) by by apply successor_lt_prefix.
  rewrite rows_from_skip by (done || apply (pend_sorted _ _ _ Hp')).
  destruct (iter_seek it' _) as [it''|] eqn:Hs; [|store_failed]. cbn [res_bind].
  apply (pending_seek _ _ _ _ _ Hp') in Hs.
  pose proof (length_lfilter (λ e : bytes * Version * option bytes, k <ₖ? e.1.1) es') as Hle.
  destruct y as [x|].
  - right. eexists _, _, _. split; [done|]. split; [done|].
    exists (List.filter (λ e, k <ₖ? e.1.1) es'). simpl. split_and!; [done|lia|done].
  - destruct (IH it'' _ Hs) as [[? ?]|(row & it2 & fin & Heq & Hrow)]; [lia|by left|].
    right. exists row, it2, fin. split; [done|]. destruct row as [row|]; [|done].
    destruct Hrow as (? & es2 & ? & ? & ?). split; [done|]. exists es2. simpl.
    split_and!; [done|lia|done].
Qed.

Lemma drain_cursor_spec fuel c end_ limit rows es :
  pending (as_iterator c) end_ es → as_physical_end c = user_key_prefix end_ →
  as_finished c = false → length es < fuel → length rows < limit →
  drain_cursor fuel c limit rows = Err Adapter.Backend ∧ ¬ store_reliable D I ∨
  drain_cursor fuel c limit rows =
    Ok (take limit (rows ++ rows_from (as_read_version c) None es)).
Proof.
  revert c rows es. induction fuel as [|fuel IH]; intros c rows es Hp He Hfin Hf Hl; [lia|].
  cbn [drain_cursor]. unfold cursor_next. rewrite Hfin, He.
  assert (length (iter_remaining (as_iterator c)) = length es) as ->.
  { by rewrite (pend_remaining _ _ _ Hp), length_fmap. }
  destruct (cursor_loop_spec (S (length es)) _ _ (as_read_version c) _ Hp)
    as [[-> ?]|(row & it & fin & -> & Hrow)]; [lia|by left|]. cbn [res_bind].
  destruct row as [row|].
  - destruct Hrow as (-> & es' & Hp' & Hlt & Heq). rewrite Heq.
    rewrite (cons_middle row rows (rows_from _ _ es')), (app_assoc rows [row]).
    destruct (length (rows ++ [row]) =? limit) eqn:Hlen.
    + apply Nat.eqb_eq in Hlen. right. f_equal. symmetry. by apply take_app_length'.
    + apply Nat.eqb_neq in Hlen. rewrite length_app in Hlen. simpl in Hlen.
      apply (IH {| as_iterator := it |}); simpl; [done..|lia|]. rewrite length_app. simpl. lia.
  - rewrite Hrow, app_nil_r, take_ge by lia. by right.
Qed.

(** ** Reads of the physical state *)
Definition phys_value (S : gmap bytes bytes) (k : bytes) (rv : Version) (y : option bytes) : Prop :=
  (∃ v, newest S k rv v y) ∨ (none_visible S k rv ∧ y = None).

Definition phys_rows (S : gmap bytes bytes) (start end_ : bytes) (rv : Version) (rows : list Row)
    : Prop :=
  keys_sorted rows ∧
  ∀ k x, (k, x) ∈ rows ↔ start ≤ₖ k ∧ k <ₖ end_ ∧ ∃ v, newest S k rv v (Some x).

Lemma get_visible_phys (d : D) k rv :
  user_shape (store_contents d) → version_wf rv →
  get_visible d k rv = Err Adapter.Backend ∧ ¬ store_reliable D I ∨
  ∃ y, get_visible d k rv = Ok y ∧ phys_value (store_contents d) k rv y.
Proof.
  intros Hshape Hrv. unfold get_visible.
  destruct (store_scan_prefix d _ _) as [it|] eqn:Hs; [|store_failed].
  apply store_scan_prefix_ok in Hs.
  pose proof (prefix_scan_newest _ k rv Hshape Hrv) as Hn. rewrite <-Hs in Hn.
  destruct (iter_next it) as [[[p|] it']|] eqn:Hi; [..|store_failed];
    apply iter_next_ok in Hi; rewrite Hi in Hn; cbn in Hn; right.
  - destruct Hn as (v & y & Hn & ->). exists y. cbn [snd]. rewrite decode_encode_value.
    split; [done|]. left. eauto.
  - exists None. split; [done|]. by right.
Qed.

Lemma phys_rows_exist S start end_ rv :
  user_shape S → ∃ rows, phys_rows S start end_ rv rows.
Proof.
  intros Hshape. destruct (range_entries S start end_ Hshape) as (es & _ & Hwf & Hso & _ & Hin).
  exists (rows_from rv None es). split; [by apply rows_from_sorted|].
  by apply (range_rows S start end_ rv es).
Qed.

Lemma phys_rows_unique S start end_ rv rows1 rows2 :
  phys_rows S start end_ rv rows1 → phys_rows S start end_ rv rows2 → rows1 = rows2.
Proof.
  intros [S1 E1] [S2 E2]. apply keys_sorted_ext; [done..|]. intros [k x]. by rewrite E1, E2.
Qed.

Lemma pending_rows (d : D) start end_ rv it :
  user_shape (store_contents d) →
  store_scan d (user_key_prefix start) (user_key_prefix end_) = Some it →
  ∃ es, pending it end_ es ∧ length (iter_remaining it) = length es ∧
    phys_rows (store_contents d) start end_ rv (rows_from rv None es).
Proof.
  intros Hshape Hs%store_scan_ok.
  destruct (range_entries _ start end_ Hshape) as (es & Heq & Hwf & Hso & Hend & Hin).
  assert (iter_remaining it = phys <$> es) as Hr by by rewrite Hs.
  exists es. split_and!; [by split|by rewrite Hr, length_fmap|]. split; [by apply rows_from_sorted|].
  by apply (range_rows _ start end_ rv es).
Qed.

(** Both range scans: the range check, the admission check, the rows. *)
Definition scan_result (d : D) (start end_ : bytes) (rv minimum : Version) (limit : nat)
    (rows : list Row) : res AdapterError (list Row) :=
  if end_ ≤ₖ? start then Err (Adapter.InvalidScanRange start end_)
  else let? _ := require_readable d rv minimum in Ok (take limit rows).

Lemma scan_at_retained_phys (d : D) start end_ rv minimum limit rows :
  phys_rows (store_contents d) start end_ rv rows → user_shape (store_contents d) →
  scan_at_retained d start end_ rv minimum limit = Err Adapter.Backend ∧ ¬ store_reliable D I ∨
  scan_at_retained d start end_ rv minimum limit = scan_result d start end_ rv minimum limit rows.
Proof.
  intros Hrows Hshape. unfold scan_at_retained, scan_result. destruct (end_ ≤ₖ? start); [by right|].
  destruct (require_readable d rv minimum) as [[]|e|]; cbn [res_bind]; [|by right..].
  destruct (limit =? 0) eqn:Hl; [apply Nat.eqb_eq in Hl as ->; by right|].
  apply Nat.eqb_neq in Hl. destruct (store_scan d _ _) as [it|] eqn:Hs; [|store_failed].
  destruct (pending_rows d start end_ rv it Hshape Hs) as (es & Hp & -> & Hes).
  rewrite (phys_rows_unique _ _ _ _ _ _ Hrows Hes).
  apply (scan_rows_spec _ it end_ rv limit [] es Hp); simpl; lia.
Qed.

Lemma reader_scan_at_retained_phys (d : D) start end_ rv minimum limit rows :
  phys_rows (store_contents d) start end_ rv rows → user_shape (store_contents d) →
  reader_scan_at_retained d start end_ rv minimum limit = Err Adapter.Backend ∧
    ¬ store_reliable D I ∨
  reader_scan_at_retained d start end_ rv minimum limit =
    scan_result d start end_ rv minimum limit rows.
Proof.
  intros Hrows Hshape. unfold reader_scan_at_retained, scan_cursor_at_retained, scan_result.
  destruct (end_ ≤ₖ? start); [by right|].
  destruct (require_readable d rv minimum) as [[]|e|]; cbn [res_bind];
    [|by right; destruct (limit =? 0)..].
  destruct (limit =? 0) eqn:Hl; [apply Nat.eqb_eq in Hl as ->; by right|].
  apply Nat.eqb_neq in Hl. destruct (store_scan d _ _) as [it|] eqn:Hs; [|store_failed].
  destruct (pending_rows d start end_ rv it Hshape Hs) as (es & Hp & Hlen & Hes).
  rewrite (phys_rows_unique _ _ _ _ _ _ Hrows Hes). cbn [res_bind as_iterator]. rewrite Hlen.
  apply (drain_cursor_spec _ {| as_iterator := it |} end_ limit [] es Hp); simpl; done || lia.
Qed.
End scans.

(** ** Physical writes *)
Definition puts_to (l : bytes) (puts : list (bytes * bytes)) : list bytes :=
  omap (λ p, if decide (p.1 = l) then Some p.2 else None) puts.

Lemma put_all_lookup S puts l :
  put_all S puts !! l = match last (puts_to l puts) with Some x => Some x | None => S !! l end.
Proof.
  unfold put_all, puts_to. revert S. induction puts as [|[l' x] puts IH] using rev_ind; intros S; [done|].
  rewrite foldl_app, omap_app. simpl. case_decide as Hl.
  - subst l'. by rewrite lookup_insert_eq, last_snoc.
  - by rewrite lookup_insert_ne, app_nil_r, IH.
Qed.

Definition mutation_put (v : Version) (mu : Mutation) : option (bytes * bytes) :=
  match mu with
  | MSet k x => Some (phys (k, v, Some x))
  | MClear k => Some (phys (k, v, None))
  | MClearRange _ => None
  end.
Definition mutation_puts (v : Version) (ms : list Mutation) : list (bytes * bytes) :=
  omap (mutation_put v) ms.

Lemma puts_of_mutations v ms :
  existsb is_range_clear ms = false → res_collect (put_of v) ms = Ok (mutation_puts v ms).
Proof.
  induction ms as [|mu ms IH]; [done|]. cbn [existsb]. intros [Hmu Hms]%orb_false_iff.
  cbn [res_collect]. destruct mu as [k x|k|r]; [..|done]; cbn [put_of res_bind];
    rewrite (IH Hms); done.
Qed.

Lemma elem_of_mutation_puts v ms p :
  p ∈ mutation_puts v ms → ∃ k y, p = phys (k, v, y).
Proof.
  intros (mu & _ & Hp)%list_elem_of_omap. destruct mu; simplify_eq/=; eauto.
Qed.

(** The puts to an entry of [k] at the batch's version are its point mutations
    of [k]; no other key of the namespace is touched. *)
Lemma puts_to_entry v ms k v' :
  version_wf v → version_wf v' →
  puts_to (user_version_key k v') (mutation_puts v ms) =
    if decide (v' = v) then encode_value <$> omap (point_value k) ms else [].
Proof.
  intros Hv Hv'. unfold mutation_puts, puts_to.
  induction ms as [|mu ms IH]; [by case_decide|].
  assert (∀ k' y, (if decide (user_version_key k' v = user_version_key k v')
      then Some (encode_value y) else None) =
    if decide (k' = k) then if decide (v' = v) then Some (encode_value y) else None else None) as Hp.
  { intros k' y. destruct (decide (user_version_key k' v = _)) as [Heq|Hne].
    - apply user_version_key_inj in Heq as [-> ->]; [|done..]. by rewrite !decide_True.
    - repeat case_decide; subst; done. }
  destruct mu as [k' x|k'|r]; cbn [omap list_omap mutation_put point_value phys fst snd];
    [..|exact IH].
  all: rewrite Hp; destruct (decide (k' = k)); [|exact IH].
  all: destruct (decide (v' = v)); [|exact IH]; simpl; f_equal; exact IH.
Qed.

Lemma puts_to_nil l puts : (∀ p, p ∈ puts → p.1 ≠ l) → puts_to l puts = [].
Proof.
  unfold puts_to. induction puts as [|p puts IH]; intros Hall; [done|]. simpl.
  rewrite decide_False by (apply Hall; constructor). apply IH. intros q Hq. apply Hall.
  by constructor.
Qed.

Lemma puts_to_other v ms l :
  head l ≠ Some USER_KEY_PREFIX → puts_to l (mutation_puts v ms) = [].
Proof.
  intros Hl. apply puts_to_nil. intros p (k & y & ->)%elem_of_mutation_puts <-. by apply Hl.
Qed.

Lemma elem_of_puts_to l puts x : x ∈ puts_to l puts → (l, x) ∈ puts.
Proof.
  intros ([l' x'] & Hin & Hx)%list_elem_of_omap. simpl in Hx. case_decide; by simplify_eq.
Qed.

Lemma puts_to_app l p1 p2 : puts_to l (p1 ++ p2) = puts_to l p1 ++ puts_to l p2.
Proof. apply omap_app. Qed.

(** ** At most one point mutation per key *)
Lemma last_point_unique ms c k y :
  canonical_mutations ms = Ok c →
  last (omap (point_value k) ms) = Some y ↔ ∃ mu, mu ∈ ms ∧ point_value k mu = Some y.
Proof.
  intros Hc. split; [apply last_point_Some|]. intros (mu & Hmu & Hy).
  destruct (last (omap (point_value k) ms)) as [y'|] eqn:Hl.
  - apply last_point_Some in Hl as (mu' & Hmu' & Hy').
    pose proof Hc as [-> _]%canonical_mutations_Ok.
    rewrite <-elem_of_sort_dedup in Hmu, Hmu'.
    rewrite (canonical_point_unique _ _ mu mu' k Hc Hmu Hmu') in Hy
      by eauto using point_value_key. congruence.
  - rewrite last_point_None in Hl. by rewrite Hl in Hy.
Qed.

Lemma canonical_point_values ms c k :
  canonical_mutations ms = Ok c → length (omap (point_value k) c) ≤ 1.
Proof.
  intros [_ Hnd]%canonical_mutations_Ok. induction c as [|mu c IH]; [simpl; lia|].
  cbn [omap list_omap]. destruct (point_value k mu) as [y|] eqn:Hy.
  - apply point_value_key in Hy. simpl in Hnd. rewrite Hy in Hnd.
    apply NoDup_cons in Hnd as [Hk _].
    assert (omap (point_value k) c = []) as Hnil; [|fold_omap; rewrite Hnil; simpl; lia].
    apply last_None, last_point_None. intros mu' Hmu'.
    destruct (point_value k mu') as [y'|] eqn:Hy'; [|done]. destruct Hk.
    apply list_elem_of_omap. exists mu'. split; [done|]. by eapply point_value_key.
  - apply IH. simpl in Hnd. destruct (point_key mu); [by apply NoDup_cons in Hnd as [_ ?]|done].
Qed.

(** ** Representation *)
Lemma head_commit_key v : head (commit_key v) ≠ Some USER_KEY_PREFIX.
Proof. done. Qed.

Lemma commit_key_latest v : commit_key v ≠ LATEST_VERSION_KEY.
Proof.
  intros Heq%(f_equal length). unfold commit_key in Heq.
  rewrite length_app, length_version_to_be_bytes in Heq. vm_compute in Heq. done.
Qed.

Lemma commit_key_inj v w : version_wf v → version_wf w → commit_key v = commit_key w → v = w.
Proof. intros Hv Hw Heq%(inj (app COMMIT_KEY_PREFIX)). by apply version_bytes_inj. Qed.

(** In a history of ascending versions the last entry at or below [rv] is the
    newest one. *)
Lemma rfind_newest (h : KeyHistory) rv :
  StronglySorted (λ a b, a.1 <ₖ b.1) h →
  match rfind (λ e, e.1 ≤ₖ? rv) h with
  | Some (v, y) => (v, y) ∈ h ∧ v ≤ₖ rv ∧ ∀ e, e ∈ h → e.1 ≤ₖ rv → e.1 ≤ₖ v
  | None => ∀ e, e ∈ h → ¬ e.1 ≤ₖ rv
  end.
Proof.
  induction h as [|[v y] h IH] using rev_ind; intros Hs.
  { simpl. intros e He. by apply elem_of_nil in He. }
  pose proof (StronglySorted_app_1_l _ _ _ Hs) as Hs1.
  assert (∀ e, e ∈ h → e.1 <ₖ v) as Hlt.
  { intros e He. change ((λ a b : Version * option bytes, a.1 <ₖ b.1) e (v, y)).
    eapply (StronglySorted_app_1_elem_of _ h [(v, y)]); [done..|]. by constructor. }
  rewrite rfind_app. unfold rfind at 1. simpl. destruct (v ≤ₖ? rv) eqn:Hv.
  - apply key_leb_spec in Hv. split_and!; [set_solver|done|].
    intros e [He|He%list_elem_of_singleton]%elem_of_app _; [by apply key_lt_le, Hlt|].
    subst e. apply key_le_refl.
  - apply key_leb_false in Hv. specialize (IH Hs1).
    destruct (rfind _ h) as [[v' y']|].
    + destruct IH as (Hin & Hle & Hmax). split_and!; [set_solver|done|].
      intros e [He|He%list_elem_of_singleton]%elem_of_app Hle'; [auto|]. subst e. simpl in *. key_order.
    + intros e [He|He%list_elem_of_singleton]%elem_of_app Hle'; [by eapply IH|].
      subst e. simpl in *. key_order.
Qed.

Section represent.
Context (sha256 : bytes → bytes) (P : CommitBatch → Prop).
Context (Hadm : ∀ b, P b → admissible b) (Hfree : collision_free sha256 P).

(** The physical contents [S] hold the commits, the frontier and the point
    history of [m]. *)
Record represents (S : gmap bytes bytes) (m : Model) : Prop := {
  rep_inv : model_inv m;
  rep_clears : range_clears m = [];
  rep_oldest : oldest_readable m = VERSION_ZERO;
  rep_latest_wf : version_wf (latest m);
  rep_latest : S !! LATEST_VERSION_KEY =
    if decide (latest m = VERSION_ZERO) then None else Some (version_to_be_bytes (latest m));
  rep_commits v : version_wf v → S !! commit_key v = rec_fingerprint <$> commits m !! v;
  rep_sources v r : commits m !! v = Some r → ∃ b c, P b ∧ batch_version b = v ∧
    canonical_mutations (batch_mutations b) = Ok c ∧
    r = {| rec_identity := batch_identity b; rec_fingerprint := sha256 (fingerprint_input b c) |};
  rep_user k v y : version_wf v →
    S !! user_version_key k v = Some (encode_value y) ↔ (v, y) ∈ history m k;
  rep_shape : user_shape S;
  rep_history k v y : (v, y) ∈ history m k → version_wf v;
  rep_sorted k : StronglySorted (λ a b, a.1 <ₖ b.1) (history m k);
}.

Lemma represents_empty : represents ∅ Model_default.
Proof.
  assert (∀ k, history Model_default k = []) as Hh.
  { intros k. unfold history. cbn [keys Model_default]. by rewrite lookup_empty. }
  split; try done.
  - apply model_inv_default.
  - intros k v y _. by rewrite Hh, elem_of_nil.
  - intros k v y. rewrite Hh. by intros ?%elem_of_nil.
  - intros k. rewrite Hh. constructor.
Qed.

Lemma rep_lookup S m k v x :
  represents S m → version_wf v → S !! user_version_key k v = Some x →
  ∃ y, x = encode_value y ∧ (v, y) ∈ history m k.
Proof.
  intros Hrep Hv Hx.
  destruct (rep_shape _ _ Hrep _ _ Hx (head_user_version_key _ _)) as (k' & v' & y & Hv' & Hk & ->).
  apply user_version_key_inj in Hk as [<- <-]; [|done..]. exists y. split; [done|].
  by apply (rep_user _ _ Hrep).
Qed.

(** The model's visible value is the newest physical entry's. *)
Lemma rep_visible S m k rv :
  represents S m → version_wf rv →
  (∃ v y, newest S k rv v y ∧ visible m k rv = y) ∨
  (none_visible S k rv ∧ visible m k rv = None).
Proof.
  intros Hrep Hrv. unfold visible, find_clear. rewrite (rep_clears _ _ Hrep), find_point_history.
  pose proof (rfind_newest _ rv (rep_sorted _ _ Hrep k)) as Hn. simpl.
  destruct (rfind _ (history m k)) as [[v y]|]; simpl.
  - left. destruct Hn as (Hin & Hle & Hmax).
    pose proof (rep_history _ _ Hrep _ _ _ Hin) as Hv. exists v, y. split; [|done].
    split_and!; [done|by apply (rep_user _ _ Hrep)|done|].
    intros v' Hv' [x Hx] Hle'. apply (rep_lookup _ _ _ _ _ Hrep Hv') in Hx as (y' & _ & Hin').
    by apply (Hmax (v', y')).
  - right. split; [|done]. intros v Hv Hle. destruct (S !! _) as [x|] eqn:Hx; [|done].
    apply (rep_lookup _ _ _ _ _ Hrep Hv) in Hx as (y & _ & Hin). by destruct (Hn (v, y)).
Qed.

Lemma rep_visible_Some S m k rv x :
  represents S m → version_wf rv →
  visible m k rv = Some x ↔ ∃ v, newest S k rv v (Some x).
Proof.
  intros Hrep Hrv. destruct (rep_visible S m k rv Hrep Hrv) as [(v & y & Hn & ->)|[Hn ->]].
  - split; [intros ->; eauto|]. intros (v' & Hn').
    by destruct (newest_unique _ _ _ _ _ _ _ Hn Hn').
  - split; [done|]. intros (v & Hv & HS & Hle & _). by rewrite (Hn v) in HS.
Qed.

(** *** A commit *)
Section commit.
Context (S : gmap bytes bytes) (m : Model) (b : CommitBatch) (c : list Mutation).
Context (Hrep : represents S m) (HP : P b).
Context (Hc : canonical_mutations (batch_mutations b) = Ok c).
Context (Hz : batch_version b ≠ VERSION_ZERO) (Hlt : latest m <ₖ batch_version b).
Let v := batch_version b.
Let puts := mutation_puts v (batch_mutations b) ++
  [(commit_key v, sha256 (fingerprint_input b c)); (LATEST_VERSION_KEY, version_to_be_bytes v)].

Lemma commit_version_wf : version_wf v.
Proof. apply batch_wf_version, (adm_wf _ (Hadm b HP)). Qed.

Lemma commit_history k : history (committed sha256 m b c) k = history m k ++ omap (point_entry v k) c.
Proof. apply history_fold. Qed.

Lemma commit_new_entry k v' y :
  (v', y) ∈ omap (point_entry v k) c ↔
  v' = v ∧ last (omap (point_value k) (batch_mutations b)) = Some y.
Proof.
  rewrite (last_point_unique _ _ _ _ Hc), list_elem_of_omap.
  pose proof Hc as [-> _]%canonical_mutations_Ok. unfold point_entry. split.
  - intros (mu & Hmu & Hy). rewrite elem_of_sort_dedup in Hmu.
    destruct (point_value k mu) eqn:Hp; simplify_eq/=. eauto.
  - intros (-> & mu & Hmu & Hy). exists mu. by rewrite elem_of_sort_dedup, Hy.
Qed.

Lemma commit_old_entry k v' y : (v', y) ∈ history m k → v' <ₖ v.
Proof.
  intros Hin. pose proof (history_bounded m (rep_inv _ _ Hrep) k) as Hb.
  rewrite Forall_forall in Hb. specialize (Hb _ Hin). simpl in Hb. unfold v. key_order.
Qed.

Lemma commit_entry_lookup k v' :
  version_wf v' →
  put_all S puts !! user_version_key k v' =
    if decide (v' = v) then encode_value <$> last (omap (point_value k) (batch_mutations b))
    else S !! user_version_key k v'.
Proof.
  intros Hv'. rewrite put_all_lookup. unfold puts.
  rewrite puts_to_app, puts_to_entry, (puts_to_nil _ [_; _]), app_nil_r
    by (apply commit_version_wf || done || intros p; rewrite !elem_of_cons, elem_of_nil;
        intros [->|[->|[]]]; done).
  case_decide as Hvv; [|done]. subst v'. rewrite fmap_last.
  destruct (last _) as [y|]; [done|]. simpl. destruct (S !! _) as [x|] eqn:Hx; [|done].
  apply (rep_lookup _ _ _ _ _ Hrep Hv') in Hx as (y & _ & Hin%commit_old_entry).
  by apply key_lt_irrefl in Hin.
Qed.

Lemma commit_meta_lookup l :
  head l ≠ Some USER_KEY_PREFIX →
  put_all S puts !! l =
    if decide (l = LATEST_VERSION_KEY) then Some (version_to_be_bytes v)
    else if decide (l = commit_key v) then Some (sha256 (fingerprint_input b c)) else S !! l.
Proof.
  intros Hl. rewrite put_all_lookup. unfold puts. rewrite puts_to_app, puts_to_other by done.
  unfold puts_to. cbn [omap list_omap fst snd app].
  destruct (decide (commit_key v = l)) as [<-|Hne].
  - rewrite !(decide_False (P := commit_key v = LATEST_VERSION_KEY)) by apply commit_key_latest.
    rewrite decide_False by (intros ?; by destruct (commit_key_latest v)). by rewrite decide_True.
  - rewrite (decide_False (P := l = commit_key v)) by done.
    destruct (decide (LATEST_VERSION_KEY = l)) as [<-|]; [by rewrite decide_True|].
    by rewrite decide_False.
Qed.

Lemma committed_shape : user_shape (put_all S puts).
Proof.
  intros l x Hx Hhead. rewrite put_all_lookup in Hx.
  destruct (last (puts_to l puts)) as [x'|] eqn:Hl; [|by apply (rep_shape _ _ Hrep)].
  injection Hx as ->. assert ((l, x) ∈ puts) as Hin.
  { apply elem_of_puts_to. apply last_Some in Hl as [l' ->]. set_solver. }
  apply elem_of_app in Hin as [(k & y & Hp)%elem_of_mutation_puts|Hin].
  - exists k, v, y. split; [apply commit_version_wf|].
    split; [exact (f_equal fst Hp)|exact (f_equal snd Hp)].
  - rewrite !elem_of_cons, elem_of_nil in Hin. by destruct Hin as [[= -> ->]|[[= -> ->]|[]]].
Qed.

Lemma committed_sorted k :
  StronglySorted (λ a b, a.1 <ₖ b.1) (history (committed sha256 m b c) k).
Proof.
  rewrite commit_history. pose proof (canonical_point_values _ _ k Hc) as Hlen.
  assert (omap (point_entry v k) c = pair v <$> omap (point_value k) c) as Heq.
  { clear. unfold point_entry. induction c as [|mu c' IH]; [done|]. simpl.
    destruct (point_value k mu); simpl; [f_equal|]; apply IH. }
  pose proof (rep_sorted _ _ Hrep k) as Hs.
  destruct (omap (point_value k) c) as [|y [|]] eqn:Ho; [| |simpl in Hlen; lia].
  - rewrite Heq. simpl. by rewrite app_nil_r.
  - rewrite Heq. apply StronglySorted_app_2; [|done|repeat constructor].
    intros [v' y'] e Hin ->%list_elem_of_singleton. by eapply commit_old_entry.
Qed.

Lemma committed_clears :
  existsb is_range_clear (batch_mutations b) = false →
  range_clears (committed sha256 m b c) = [].
Proof.
  intros Hnr. cbn [range_clears committed]. rewrite clears_fold, (rep_clears _ _ Hrep). simpl.
  pose proof Hc as [-> _]%canonical_mutations_Ok.
  destruct (omap (clear_entry (batch_version b)) _) as [|e l] eqn:He; [done|].
  assert (e ∈ omap (clear_entry (batch_version b)) (sort_dedup (batch_mutations b)))
    as (mu & Hmu & Hm)%list_elem_of_omap by (rewrite He; constructor).
  rewrite elem_of_sort_dedup in Hmu. rewrite existsb_false in Hnr. apply Hnr in Hmu.
  by destruct mu.
Qed.

Lemma committed_represents :
  existsb is_range_clear (batch_mutations b) = false →
  represents (put_all S puts) (committed sha256 m b c).
Proof.
  intros Hnr. pose proof commit_version_wf as Hv. split.
  - apply committed_inv; [apply Hrep|done..].
  - by apply committed_clears.
  - apply (rep_oldest _ _ Hrep).
  - exact Hv.
  - rewrite commit_meta_lookup by done. rewrite decide_True by done.
    by rewrite decide_False.
  - intros v' Hv'. rewrite commit_meta_lookup by apply head_commit_key.
    rewrite decide_False by apply commit_key_latest. cbn [commits committed].
    rewrite lookup_insert. fold v. destruct (decide (v = v')) as [<-|Hne]; [by rewrite decide_True|].
    rewrite decide_False by (intros Heq%commit_key_inj; done). by apply (rep_commits _ _ Hrep).
  - intros v' r. cbn [commits committed]. rewrite lookup_insert. case_decide as Hvv.
    + intros [= <-]. exists b, c. by split_and!.
    + apply (rep_sources _ _ Hrep).
  - intros k v' y Hv'. rewrite commit_entry_lookup, commit_history, elem_of_app by done.
    rewrite commit_new_entry. case_decide as Hvv.
    + subst v'. split.
      * intros (y' & -> & Heq%encode_value_inj)%fmap_Some. naive_solver.
      * intros [Hin%commit_old_entry|[_ ->]]; [by apply key_lt_irrefl in Hin|done].
    + rewrite (rep_user _ _ Hrep) by done. naive_solver.
  - apply committed_shape.
  - intros k v' y. rewrite commit_history, elem_of_app, commit_new_entry.
    intros [Hin|[-> _]]; [by apply (rep_history _ _ Hrep) in Hin|done].
  - apply committed_sorted.
Qed.
End commit.

(** ** The operations *)
Section engine.
Context {D I : Type} `{OrderedStoreLaws D I}.

(** Batches the adapter accepts at all. *)
Definition supported (b : CommitBatch) : Prop :=
  generation (batch_version b) = 0%N ∧ existsb is_range_clear (batch_mutations b) = false.

(** The adapter's answer for an answer of the model. *)
Definition apply_answer (r : res ModelError (ApplyOutcome * Model)) : res AdapterError ApplyOutcome :=
  match r with
  | Ok (o, _) => Ok o
  | Err (ConflictingReplay v) => Err (Adapter.ConflictingReplay v)
  | Err (NonMonotonicVersion l v) => Err (Adapter.NonMonotonicVersion l v)
  | Err ZeroVersion => Err Adapter.ZeroVersion
  | Err e => Err (Adapter.InvalidBatch e)
  | Panic => Panic
  end.

Definition next_model (m : Model) (b : CommitBatch) : Model :=
  match apply sha256 m b with Ok (_, m') => m' | _ => m end.

Lemma latest_version_spec (d : D) m :
  represents (store_contents d) m →
  latest_version d = Err Adapter.Backend ∧ ¬ store_reliable D I ∨ latest_version d = Ok (latest m).
Proof.
  intros Hrep. unfold latest_version. destruct (store_get d _) as [x|] eqn:Hg; [|store_failed].
  apply store_get_ok in Hg as ->. rewrite (rep_latest _ _ Hrep). right.
  case_decide as Hz; [by rewrite Hz|]. rewrite length_version_to_be_bytes. simpl.
  by rewrite version_from_to by apply (rep_latest_wf _ _ Hrep).
Qed.

(** Equal fingerprints belong to one identity. *)
Lemma same_identity S m b c r :
  represents S m → P b → canonical_mutations (batch_mutations b) = Ok c →
  commits m !! batch_version b = Some r → rec_fingerprint r = sha256 (fingerprint_input b c) →
  rec_identity r = batch_identity b.
Proof.
  intros Hrep HP Hc Hr Hfp.
  destruct (rep_sources _ _ Hrep _ _ Hr) as (b0 & c0 & HP0 & _ & Hc0 & ->). simpl in *.
  apply Hfree in Hfp; [|done..].
  destruct (Hadm b HP) as [W (c' & Hc' & F)], (Hadm b0 HP0) as [W0 (c0' & Hc0' & F0)].
  rewrite Hc in Hc'. rewrite Hc0 in Hc0'. injection Hc' as <-. injection Hc0' as <-.
  apply fingerprint_input_inj in Hfp as (_ & ? & _); [done..| | |done|done].
  - pose proof Hc0 as [-> _]%canonical_mutations_Ok. apply Forall_forall. intros mu Hmu.
    rewrite elem_of_sort_dedup in Hmu. pose proof (batch_wf_mutations _ W0) as Hw.
    rewrite Forall_forall in Hw. auto.
  - pose proof Hc as [-> _]%canonical_mutations_Ok. apply Forall_forall. intros mu Hmu.
    rewrite elem_of_sort_dedup in Hmu. pose proof (batch_wf_mutations _ W) as Hw.
    rewrite Forall_forall in Hw. auto.
Qed.

(** The replay and frontier checks decide as the model does. *)
Lemma refuse_stale_spec (d : D) m b c :
  represents (store_contents d) m → P b → canonical_mutations (batch_mutations b) = Ok c →
  batch_version b ≠ VERSION_ZERO →
  let v := batch_version b in
  let r := refuse_stale d (commit_key v) (sha256 (fingerprint_input b c)) v in
  r = Err Adapter.Backend ∧ ¬ store_reliable D I ∨
  match apply sha256 m b with
  | Ok (Applied, m') => r = Ok None ∧ latest m <ₖ v ∧ m' = committed sha256 m b c
  | o => r = Ok (Some (apply_answer o)) ∧ next_model m b = m
  end.
Proof.
  intros Hrep HP Hc Hz v r.
  assert (version_wf v) as Hv by apply batch_wf_version, (adm_wf _ (Hadm b HP)).
  unfold r, refuse_stale, replay_outcome.
  destruct (store_get d (commit_key v)) as [x|] eqn:Hg; [|store_failed].
  apply store_get_ok in Hg as ->. rewrite (rep_commits _ _ Hrep v Hv). cbn [res_bind].
  unfold next_model, apply, fingerprint. rewrite decide_False by done. rewrite Hc. cbn [res_bind].
  fold v. destruct (commits m !! v) as [e|] eqn:He; cbn [fmap option_fmap option_map].
  - right. destruct (bool_decide (rec_fingerprint e = _)) eqn:Hfp; [|by rewrite andb_false_r].
    apply bool_decide_eq_true in Hfp.
    by rewrite bool_decide_true by by eapply same_identity.
  - destruct (latest_version_spec d m Hrep) as [[-> ?]| ->]; [by left|]. cbn [res_bind]. right.
    destruct (v ≤ₖ? latest m) eqn:Hle; [done|]. apply key_leb_false in Hle.
    split_and!; [done..|]. unfold committed. fold v.
    by destruct (fold_frame v c m) as (-> & _ & ->).
Qed.

Lemma store_write_cases (d : D) puts seq d' ok :
  store_write d puts seq = (d', ok) →
  (ok = true ∧ store_contents d' = put_all (store_contents d) puts) ∨
  (ok = false ∧ ¬ store_reliable D I ∧
    (store_contents d' = put_all (store_contents d) puts ∨ store_contents d' = store_contents d)).
Proof.
  intros Hw. assert (ok = false → ¬ store_reliable D I) as Hrel.
  { intros -> Hr. pose proof (rel_write _ _ Hr d puts seq) as Ht. by rewrite Hw in Ht. }
  destruct (store_write_ok _ _ _ _ _ Hw) as [?|[-> ?]]; [|right; auto].
  destruct ok; [by left|right; auto].
Qed.

(** What an [apply] call may do: answer as the model and reach its next state;
    or, the store having failed, report a backend error or a completed replay
    with the batch written whole or not at all. *)
Definition applies (d : D) (m : Model) (b : CommitBatch) (d' : D)
    (r : res AdapterError ApplyOutcome) : Prop :=
  r = apply_answer (apply sha256 m b) ∧ represents (store_contents d') (next_model m b) ∨
  ¬ store_reliable D I ∧
  (r = Err Adapter.Backend ∧
     (represents (store_contents d') m ∨ represents (store_contents d') (next_model m b)) ∨
   r = Ok AlreadyApplied ∧ apply sha256 m b = Ok (Applied, next_model m b) ∧
     represents (store_contents d') (next_model m b)).

(** The retry check after a failed write that did take effect. *)
Lemma refuse_stale_committed (d : D) m b c :
  represents (store_contents d) (committed sha256 m b c) → P b →
  canonical_mutations (batch_mutations b) = Ok c →
  let v := batch_version b in
  let r := refuse_stale d (commit_key v) (sha256 (fingerprint_input b c)) v in
  r = Err Adapter.Backend ∨ r = Ok (Some (Ok AlreadyApplied)).
Proof.
  intros Hrep HP Hc v r.
  assert (version_wf v) as Hv by apply batch_wf_version, (adm_wf _ (Hadm b HP)).
  unfold r, refuse_stale, replay_outcome.
  destruct (store_get d (commit_key v)) as [x|] eqn:Hg; [|by left].
  apply store_get_ok in Hg as ->. rewrite (rep_commits _ _ Hrep v Hv). cbn [commits committed].
  rewrite lookup_insert_eq. cbn. rewrite bool_decide_true by done. by right.
Qed.

Lemma slate_apply_spec (d : D) m b d' r :
  represents (store_contents d) m → supported b →
  (∀ c, canonical_mutations (batch_mutations b) = Ok c → P b) →
  slate_apply sha256 d b = (d', r) → applies d m b d' r.
Proof.
  intros Hrep [Hgen Hnr] HP. unfold slate_apply. case_bool_decide as Hz.
  { intros [= <- <-]. left. unfold apply_answer, next_model, apply. by rewrite decide_True. }
  rewrite Hgen, Hnr. cbn [N.eqb negb]. unfold fingerprint.
  destruct (canonical_mutations (batch_mutations b)) as [c|e|] eqn:Hc.
  2: { intros [= <- <-]. left. unfold apply_answer, next_model, apply, fingerprint.
       rewrite decide_False, Hc by done. cbn. unfold canonical_mutations in Hc.
       destruct (ambiguous_key _ _); by simplify_eq. }
  2: { unfold canonical_mutations in Hc. by destruct (ambiguous_key _ _). }
  specialize (HP c eq_refl). cbn [res_bind lift_batch_error].
  rewrite puts_of_mutations by done.
  pose proof (refuse_stale_spec d m b c Hrep HP Hc Hz) as Hs. cbn zeta in Hs.
  destruct Hs as [[-> Hr]|Hs].
  { intros [= <- <-]. right. split; [done|]. left. auto. }
  destruct (apply sha256 m b) as [[[|] m']|e|] eqn:Ha.
  2-4: destruct Hs as [-> Hnext]; intros [= <- <-]; left; rewrite Ha, Hnext; done.
  destruct Hs as (-> & Hlt & ->).
  assert (next_model m b = committed sha256 m b c) as Hnext by (unfold next_model; by rewrite Ha).
  destruct (store_write _ _ _) as [dw ok] eqn:Hw.
  pose proof (committed_represents _ m b c Hrep HP Hc Hz Hlt Hnr) as Hcom.
  destruct (store_write_cases _ _ _ _ _ Hw) as [[-> Heq]|(-> & Hr & [Heq|Heq])].
  - intros [= <- <-]. left. by rewrite Ha, Hnext, Heq.
  - rewrite <-Heq in Hcom.
    destruct (refuse_stale_committed dw m b c Hcom HP Hc) as [-> | ->]; intros [= <- <-];
      right; (split; [done|]); rewrite Hnext.
    + left. auto.
    + right. by rewrite Ha.
  - rewrite <-Heq in Hrep.
    pose proof (refuse_stale_spec dw m b c Hrep HP Hc Hz) as Hs. cbn zeta in Hs. rewrite Ha in Hs.
    destruct Hs as [[-> _]|[-> _]]; intros [= <- <-]; right; (split; [done|]); left; auto.
Qed.

(** ** Reads *)
Lemma get_visible_spec (d : D) m k rv :
  represents (store_contents d) m → version_wf rv →
  get_visible d k rv = Err Adapter.Backend ∧ ¬ store_reliable D I ∨
  get_visible d k rv = Ok (visible m k rv).
Proof.
  intros Hrep Hrv.
  destruct (get_visible_phys d k rv (rep_shape _ _ Hrep) Hrv) as [?|(y & -> & Hy)]; [by left|].
  right. f_equal. destruct (rep_visible _ _ k rv Hrep Hrv) as [(v' & y' & Hn' & ->)|[Hnone ->]],
    Hy as [[v Hn]|[Hnone' ->]]; [|..|done].
  - by destruct (newest_unique _ _ _ _ _ _ _ Hn Hn').
  - destruct Hn' as (Hv & HS & Hle & _). by rewrite (Hnone' v' Hv Hle) in HS.
  - destruct Hn as (Hv & HS & Hle & _). by rewrite (Hnone v Hv Hle) in HS.
Qed.

(** The admission check of the adapter: the caller's minimum, then the frontier. *)
Definition admission (m : Model) (requested minimum : Version) : res AdapterError unit :=
  if requested <ₖ? minimum then Err (Adapter.SnapshotExpired requested minimum)
  else if latest m <ₖ? requested then Err (Adapter.SnapshotUnavailable requested (latest m))
  else Ok tt.

Lemma require_readable_spec (d : D) m requested minimum :
  represents (store_contents d) m →
  require_readable d requested minimum = Err Adapter.Backend ∧ ¬ store_reliable D I ∨
  require_readable d requested minimum = admission m requested minimum.
Proof.
  intros Hrep. unfold require_readable, require_applied, admission.
  destruct (requested <ₖ? minimum); [by right|].
  destruct (latest_version_spec d m Hrep) as [[-> Hr]| ->]; [by left|by right].
Qed.

Lemma get_at_retained_spec (d : D) m k rv minimum :
  represents (store_contents d) m → version_wf rv →
  get_at_retained d k rv minimum = Err Adapter.Backend ∧ ¬ store_reliable D I ∨
  get_at_retained d k rv minimum = (let? _ := admission m rv minimum in Ok (visible m k rv)).
Proof.
  intros Hrep Hrv. unfold get_at_retained.
  destruct (require_readable_spec d m rv minimum Hrep) as [[-> Hr]| ->]; [by left|].
  destruct (admission m rv minimum); [|by right..]. by apply get_visible_spec.
Qed.

(** The rows a scan of the model shows. *)
Definition model_rows (m : Model) (start end_ : bytes) (rv : Version) (rows : list Row) : Prop :=
  keys_sorted rows ∧
  ∀ k x, (k, x) ∈ rows ↔ start ≤ₖ k ∧ k <ₖ end_ ∧ visible m k rv = Some x.

Lemma model_rows_phys S m start end_ rv rows :
  represents S m → version_wf rv →
  model_rows m start end_ rv rows ↔ phys_rows S start end_ rv rows.
Proof.
  intros Hrep Hrv. unfold model_rows, phys_rows.
  assert (∀ k x, visible m k rv = Some x ↔ ∃ v, newest S k rv v (Some x)) as Hiff.
  { intros k x. by apply rep_visible_Some. }
  by setoid_rewrite Hiff.
Qed.

Lemma model_rows_unique m start end_ rv rows1 rows2 :
  model_rows m start end_ rv rows1 → model_rows m start end_ rv rows2 → rows1 = rows2.
Proof.
  intros [S1 E1] [S2 E2]. apply keys_sorted_ext; [done..|]. intros [k x]. by rewrite E1, E2.
Qed.

(** A bounded scan of the model, with the adapter's admission check. *)
Definition scan_answer (m : Model) (start end_ : bytes) (rv minimum : Version) (limit : nat)
    (r : res AdapterError (list Row)) : Prop :=
  if end_ ≤ₖ? start then r = Err (Adapter.InvalidScanRange start end_)
  else match admission m rv minimum with
       | Ok _ => ∃ rows, model_rows m start end_ rv rows ∧ r = Ok (take limit rows)
       | Err e => r = Err e
       | Panic => False
       end.

Lemma admission_total m rv minimum : admission m rv minimum ≠ Panic.
Proof. unfold admission. by repeat case_match. Qed.

Lemma scan_result_answer (d : D) m start end_ rv minimum limit rows :
  represents (store_contents d) m → model_rows m start end_ rv rows →
  scan_result d start end_ rv minimum limit rows = Err Adapter.Backend ∧ ¬ store_reliable D I ∨
  scan_answer m start end_ rv minimum limit (scan_result d start end_ rv minimum limit rows).
Proof.
  intros Hrep Hrows. unfold scan_result, scan_answer. destruct (end_ ≤ₖ? start); [by right|].
  destruct (require_readable_spec d m rv minimum Hrep) as [[-> Hr]| ->]; [by left|]. right.
  pose proof (admission_total m rv minimum).
  destruct (admission m rv minimum) as [[]|e|]; cbn [res_bind]; [|done..]. by exists rows.
Qed.

Lemma scan_at_retained_spec (d : D) m start end_ rv minimum limit :
  represents (store_contents d) m → version_wf rv →
  scan_at_retained d start end_ rv minimum limit = Err Adapter.Backend ∧ ¬ store_reliable D I ∨
  scan_answer m start end_ rv minimum limit (scan_at_retained d start end_ rv minimum limit).
Proof.
  intros Hrep Hrv. destruct (phys_rows_exist _ start end_ rv (rep_shape _ _ Hrep)) as [rows Hrows].
  destruct (scan_at_retained_phys d start end_ rv minimum limit rows Hrows (rep_shape _ _ Hrep))
    as [?| ->]; [by left|].
  apply scan_result_answer; [done|]. by apply (model_rows_phys (store_contents d)).
Qed.

Lemma reader_scan_at_retained_spec (d : D) m start end_ rv minimum limit :
  represents (store_contents d) m → version_wf rv →
  reader_scan_at_retained d start end_ rv minimum limit = Err Adapter.Backend ∧
    ¬ store_reliable D I ∨
  scan_answer m start end_ rv minimum limit (reader_scan_at_retained d start end_ rv minimum limit).
Proof.
  intros Hrep Hrv. destruct (phys_rows_exist _ start end_ rv (rep_shape _ _ Hrep)) as [rows Hrows].
  destruct (reader_scan_at_retained_phys d start end_ rv minimum limit rows Hrows
    (rep_shape _ _ Hrep)) as [?| ->]; [by left|].
  apply scan_result_answer; [done|]. by apply (model_rows_phys (store_contents d)).
Qed.
End engine.
End represent.
