(* ===== verification/SlateRuns.v ===== *)
(** * Runs of the engine adapter

    Over a store whose calls succeed, every sequence of [apply], point read and
    range scan (through the engine or through an authority-bound reader) is
    answered as the reference model answers it. Over a store that may fail, the
    state is always that of a sequence of whole commits that contains every
    acknowledged one. *)

From S2P Require Import Prelude Order BTree Bytes Version Mvcc Oracle.
From S2P Require Import SlateCodec SlateEngine SlateView SlateOps.

Inductive slate_op :=
  | EApply (b : CommitBatch)
  | EGet (key : bytes) (rv minimum : Version)
  | EScan (start end_ : bytes) (rv minimum : Version) (limit : nat)
  | EReaderGet (key : bytes) (rv minimum : Version)
  | EReaderScan (start end_ : bytes) (rv minimum : Version) (limit : nat).

Inductive slate_obs :=
  | AnsApply (r : res AdapterError ApplyOutcome)
  | AnsGet (r : res AdapterError (option bytes))
  | AnsScan (r : res AdapterError (list Row)).

Fixpoint responses {S A B} (step : S → A → S * B) (s : S) (ops : list A) : list B :=
  match ops with
  | [] => []
  | op :: ops => let '(s', b) := step s op in b :: responses step s' ops
  end.

(** The adapter's wording of the model's read errors. *)
Definition read_answer {A} (r : res ModelError A) : res AdapterError A :=
  match r with
  | Ok x => Ok x
  | Err (VersionNotApplied latest requested) => Err (Adapter.SnapshotUnavailable requested latest)
  | Err (VersionTooOld oldest requested) => Err (Adapter.SnapshotExpired requested oldest)
  | Err e => Err (Adapter.InvalidBatch e)
  | Panic => Panic
  end.

Definition expired {A} (rv minimum : Version) (r : res AdapterError A) : res AdapterError A :=
  if rv <ₖ? minimum then Err (Adapter.SnapshotExpired rv minimum) else r.

Definition bounded_scan (m : Model) (start end_ : bytes) (rv minimum : Version) (limit : nat)
    : res AdapterError (list Row) :=
  if end_ ≤ₖ? start then Err (Adapter.InvalidScanRange start end_)
  else expired rv minimum
    (let? rows := read_answer (scan m {| range_start := start; range_end := end_ |} rv) in
     Ok (take limit rows)).

(** What the reference model answers. *)
Definition reference_step (sha256 : bytes → bytes) (m : Model) (op : slate_op) : Model * slate_obs :=
  match op with
  | EApply b => (next_model sha256 m b, AnsApply (apply_answer (apply sha256 m b)))
  | EGet k rv minimum | EReaderGet k rv minimum =>
      (m, AnsGet (expired rv minimum (read_answer (get m k rv))))
  | EScan s e rv minimum limit | EReaderScan s e rv minimum limit =>
      (m, AnsScan (bounded_scan m s e rv minimum limit))
  end.

Section runs.
Context (sha256 : bytes → bytes) {D I : Type} `{OrderedStoreLaws D I}.

Definition engine_step (d : D) (op : slate_op) : D * slate_obs :=
  match op with
  | EApply b => let '(d', r) := slate_apply sha256 d b in (d', AnsApply r)
  | EGet k rv minimum => (d, AnsGet (get_at_retained d k rv minimum))
  | EScan s e rv minimum limit => (d, AnsScan (scan_at_retained d s e rv minimum limit))
  | EReaderGet k rv minimum => (d, AnsGet (reader_get_at_retained d k rv minimum))
  | EReaderScan s e rv minimum limit =>
      (d, AnsScan (reader_scan_at_retained d s e rv minimum limit))
  end.

(** The batches a sequence commits, as far as they are well-formed. *)
Definition committed_in (ops : list slate_op) (b : CommitBatch) : Prop :=
  EApply b ∈ ops ∧ ∃ c, canonical_mutations (batch_mutations b) = Ok c.

Definition op_supported (op : slate_op) : Prop :=
  match op with
  | EApply b => supported b
  | EGet _ rv _ | EReaderGet _ rv _ | EScan _ _ rv _ _ | EReaderScan _ _ rv _ _ => version_wf rv
  end.

Section step.
Context (P : CommitBatch → Prop).
Context (Hadm : ∀ b, P b → admissible b) (Hfree : collision_free sha256 P).
Context (Hrel : store_reliable D I).

Lemma get_answer m k rv minimum :
  oldest_readable m = VERSION_ZERO →
  (let? _ := admission m rv minimum in Ok (visible m k rv)) =
    expired rv minimum (read_answer (get m k rv)).
Proof.
  intros Hold. unfold admission, expired, get, check_read_version. rewrite Hold.
  destruct (rv <ₖ? minimum); [done|]. destruct (latest m <ₖ? rv); [done|].
  by rewrite (proj2 (key_ltb_false _ _)) by apply version_zero_le.
Qed.

Lemma scan_answer_bounded m s e rv minimum limit r :
  oldest_readable m = VERSION_ZERO →
  scan_answer m s e rv minimum limit r → r = bounded_scan m s e rv minimum limit.
Proof.
  intros Hold. unfold scan_answer, bounded_scan.
  destruct (e ≤ₖ? s) eqn:Hse; [done|]. apply key_leb_false in Hse.
  unfold admission, expired. destruct (rv <ₖ? minimum); [done|].
  destruct (latest m <ₖ? rv) eqn:Hl.
  { intros ->. unfold scan, check_read_version. by rewrite Hl. }
  apply key_ltb_false in Hl. intros (rows & Hrows & ->).
  destruct (scan_Ok m {| range_start := s; range_end := e |} rv) as (rows' & -> & Hs & Hin);
    [rewrite Hold; apply version_zero_le|done|by apply key_lt_le|]. cbn.
  do 2 f_equal. eapply model_rows_unique; [done|]. split; [done|]. intros k x.
  rewrite Hin. unfold range_contains. simpl. rewrite andb_true_iff, key_leb_spec, key_ltb_spec.
  by rewrite <-(assoc (∧)).
Qed.

Lemma engine_step_spec d m op :
  represents sha256 P (store_contents d) m → op_supported op →
  (∀ b c, op = EApply b → canonical_mutations (batch_mutations b) = Ok c → P b) →
  (engine_step d op).2 = (reference_step sha256 m op).2 ∧
  represents sha256 P (store_contents (engine_step d op).1) (reference_step sha256 m op).1.
Proof.
  intros Hrep Hop HP. pose proof (rep_oldest _ _ _ _ Hrep) as Hold.
  destruct op as [b|k rv mn|s e rv mn l|k rv mn|s e rv mn l]; simpl in *.
  - destruct (slate_apply sha256 d b) as [d' r] eqn:Ha. simpl.
    destruct (slate_apply_spec sha256 P Hadm Hfree d m b d' r Hrep Hop) as [[-> ?]|[[] _]];
      [by eauto|done|done|done].
  - split; [|done]. f_equal. rewrite <-get_answer by done.
    by destruct (get_at_retained_spec sha256 P d m k rv mn Hrep Hop) as [[_ []]|].
  - split; [|done]. f_equal. apply scan_answer_bounded; [done|].
    by destruct (scan_at_retained_spec sha256 P d m s e rv mn l Hrep Hop) as [[_ []]|].
  - split; [|done]. f_equal. rewrite <-get_answer by done.
    by destruct (get_at_retained_spec sha256 P d m k rv mn Hrep Hop) as [[_ []]|].
  - split; [|done]. f_equal. apply scan_answer_bounded; [done|].
    by destruct (reader_scan_at_retained_spec sha256 P d m s e rv mn l Hrep Hop) as [[_ []]|].
Qed.

Lemma engine_responses d m ops :
  represents sha256 P (store_contents d) m → Forall op_supported ops →
  (∀ b c, EApply b ∈ ops → canonical_mutations (batch_mutations b) = Ok c → P b) →
  responses engine_step d ops = responses (reference_step sha256) m ops.
Proof.
  intros Hrep Hops. revert d m Hrep. induction Hops as [|op ops Hop _ IH]; intros d m Hrep HP; [done|].
  destruct (engine_step_spec d m op Hrep Hop) as [Ho Hr].
  { intros b c -> Hc. eapply HP; [constructor|done]. }
  simpl. destruct (engine_step d op) as [d' o], (reference_step sha256 m op) as [m' o'].
  simpl in *. subst o'. f_equal. apply IH; [done|]. intros b c Hin. apply HP. by constructor.
Qed.
End step.

(** C11. The engine implements the reference model: over any store with the
    documented behaviour whose calls succeed, started empty, every sequence of
    supported commits, point reads and bounded range scans, through the engine
    or through an authority-bound reader, is answered exactly as the model
    answers it, errors included. SHA-256 does not collide on the batches of the
    sequence. *)
Theorem engine_refines_model (d : D) (ops : list slate_op) :
  store_reliable D I → store_contents d = ∅ →
  Forall op_supported ops → (∀ b, committed_in ops b → admissible b) →
  collision_free sha256 (committed_in ops) →
  responses engine_step d ops = responses (reference_step sha256) Model_default ops.
Proof.
  intros Hrel Hd Hops Hadm Hfree. eapply (engine_responses (committed_in ops)); [done..| |done|].
  - rewrite Hd. apply represents_empty.
  - intros b c Hb Hc. by split; [|exists c].
Qed.

(** ** Commits over a failing store *)
Fixpoint run_applies (d : D) (bs : list CommitBatch) : D * list (res AdapterError ApplyOutcome) :=
  match bs with
  | [] => (d, [])
  | b :: bs =>
      let '(d', r) := slate_apply sha256 d b in
      let '(d'', rs) := run_applies d' bs in
      (d'', r :: rs)
  end.

(** The model holds the commit of [b]. *)
Definition recorded (m : Model) (b : CommitBatch) : Prop :=
  ∃ c, canonical_mutations (batch_mutations b) = Ok c ∧
    commits m !! batch_version b =
      Some {| rec_identity := batch_identity b; rec_fingerprint := sha256 (fingerprint_input b c) |}.

Lemma next_model_commits m b v r :
  commits m !! v = Some r → commits (next_model sha256 m b) !! v = Some r.
Proof.
  intros Hr. unfold next_model. destruct (apply sha256 m b) as [[[|] m']|e|] eqn:Ha; [|..|done|done].
  - apply apply_Applied in Ha as (c & _ & _ & Hn & _ & ->). simpl.
    rewrite lookup_insert_ne; [done|]. intros <-. congruence.
  - by apply apply_AlreadyApplied in Ha as (c & _ & _ & -> & _).
Qed.

Lemma next_models_commits m bs v r :
  commits m !! v = Some r → commits (foldl (next_model sha256) m bs) !! v = Some r.
Proof.
  revert m. induction bs as [|b bs IH]; intros m Hr; [done|]. by apply IH, next_model_commits.
Qed.

Lemma apply_recorded m b o m' : apply sha256 m b = Ok (o, m') → recorded m' b.
Proof.
  destruct o.
  - intros (c & Hc & _ & _ & _ & ->)%apply_Applied. exists c. split; [done|]. apply lookup_insert_eq.
  - intros (c & Hc & _ & -> & Hr)%apply_AlreadyApplied. by exists c.
Qed.

Lemma applies_recorded P (d d' : D) m b o :
  applies sha256 P d m b d' (Ok o) → recorded (next_model sha256 m b) b.
Proof.
  unfold next_model. intros [[Ha _]|[_ [[? _]|[_ [Ha _]]]]]; [|done|].
  - destruct (apply sha256 m b) as [[o' m']|[]|] eqn:Hm; try done. by eapply apply_recorded.
  - rewrite Ha. by eapply apply_recorded.
Qed.

Lemma run_applies_spec P (d : D) m bs d' rs :
  (∀ b, P b → admissible b) → collision_free sha256 P →
  represents sha256 P (store_contents d) m → Forall supported bs →
  (∀ b c, b ∈ bs → canonical_mutations (batch_mutations b) = Ok c → P b) →
  run_applies d bs = (d', rs) →
  ∃ kept, kept `sublist_of` bs ∧
    represents sha256 P (store_contents d') (foldl (next_model sha256) m kept) ∧
    ∀ i b o, bs !! i = Some b → rs !! i = Some (Ok o) →
      recorded (foldl (next_model sha256) m kept) b.
Proof.
  intros Hadm Hfree Hrep Hs. revert d m rs Hrep.
  induction Hs as [|b bs Hb _ IH]; intros d m rs Hrep HP; simpl.
  { intros [= <- <-]. by exists []. }
  destruct (slate_apply sha256 d b) as [d1 r] eqn:Ha.
  destruct (run_applies d1 bs) as [d2 rs'] eqn:Hrun. intros [= <- <-].
  assert (applies sha256 P d m b d1 r) as Happ.
  { eapply slate_apply_spec; eauto using list_elem_of_here. }
  assert (∃ m1 kept1, kept1 `sublist_of` [b] ∧ m1 = foldl (next_model sha256) m kept1 ∧
    represents sha256 P (store_contents d1) m1 ∧
    ∀ o, r = Ok o → recorded m1 b) as (m1 & kept1 & Hk1 & -> & Hrep1 & Hrec1).
  { destruct (Happ) as [[-> Hr]|[Hf [[-> [Hr|Hr]]|(-> & ? & Hr)]]].
    - exists (next_model sha256 m b), [b]. split_and!; [done..|]. intros o Ho. rewrite Ho in Happ.
      by eapply applies_recorded.
    - exists m, []. split_and!; [apply sublist_nil_l|done..].
    - by exists (next_model sha256 m b), [b].
    - exists (next_model sha256 m b), [b]. split_and!; [done..|]. intros o _.
      by eapply applies_recorded. }
  destruct (IH d1 _ rs' Hrep1) as (kept & Hk & Hrep2 & Hrec2); [|done|].
  { intros b' c Hin. apply HP. by constructor. }
  exists (kept1 ++ kept). rewrite foldl_app. split_and!; [|done|].
  - change (b :: bs) with ([b] ++ bs). by apply sublist_app.
  - intros [|i] b' o Hb' Hr'; simpl in *; [|by eapply Hrec2].
    injection Hb' as <-. injection Hr' as Hr'. destruct (Hrec1 o Hr') as (c & Hc & Hin).
    exists c. split; [done|]. by apply next_models_commits.
Qed.

(** Commits are atomic and acknowledged commits are durable over a store
    that may fail: after any sequence of [apply] calls on an empty store, each
    call failing or losing its acknowledgement at will, there is a subsequence
    of the batches that contains every acknowledged one (an exact replay
    included) such that every read either fails in the store or returns what
    the model returns after exactly those commits. *)
Theorem engine_commits_atomic (d d' : D) bs rs :
  store_contents d = ∅ → Forall supported bs →
  let P b := b ∈ bs ∧ ∃ c, canonical_mutations (batch_mutations b) = Ok c in
  (∀ b, P b → admissible b) → collision_free sha256 P →
  run_applies d bs = (d', rs) →
  ∃ kept, kept `sublist_of` bs ∧
    let m := foldl (next_model sha256) Model_default kept in
    (∀ i b o, bs !! i = Some b → rs !! i = Some (Ok o) → recorded m b) ∧
    ∀ k rv minimum, version_wf rv →
      get_at_retained d' k rv minimum = Err Adapter.Backend ∨
      get_at_retained d' k rv minimum = expired rv minimum (read_answer (get m k rv)).
Proof.
  intros Hd Hs P Hadm Hfree Hrun.
  destruct (run_applies_spec P d Model_default bs d' rs) as (kept & Hk & Hrep & Hrec);
    [done..| |done| |done|].
  - rewrite Hd. apply represents_empty.
  - intros b c Hb Hc. by split; [|exists c].
  - exists kept. split; [done|]. cbn zeta. split; [exact Hrec|]. intros k rv mn Hrv.
    rewrite <-get_answer by apply (rep_oldest _ _ _ _ Hrep).
    destruct (get_at_retained_spec sha256 P d' _ k rv mn Hrep Hrv) as [[? _]|?]; auto.
Qed.
End runs.

(** ** Stores *)

(** A map that never fails. *)
#[export] Instance map_store : OrderedStore (gmap bytes bytes) (list (bytes * bytes)) := {|
  store_get S k := Some (S !! k);
  store_scan S lo hi := Some (bt_range (λ k, (lo ≤ₖ? k) && (k <ₖ? hi)) S);
  store_scan_prefix S prefix start := Some (bt_range (in_prefix prefix start) S);
  iter_next l := Some (match l with [] => (None, []) | e :: l => (Some e, l) end);
  iter_seek l k := Some (List.filter (λ e, k ≤ₖ? e.1) l);
  store_write S puts _ := (put_all S puts, true);
  store_contents S := S;
  iter_remaining l := l;
|}.

#[export] Instance map_store_laws : OrderedStoreLaws (gmap bytes bytes) (list (bytes * bytes)).
Proof.
  split; simpl; try by intros; simplify_eq.
  - intros [|e0 l] e it' [= <- <-]; done.
  - intros d puts _ d' ok [= <- <-]. by left.
Qed.

Lemma map_store_reliable : store_reliable (gmap bytes bytes) (list (bytes * bytes)).
Proof. split; simpl; intros; by eauto. Qed.

(** A map whose writes follow a script: [None] succeeds, [Some true] fails
    after writing, [Some false] fails without writing. *)
Definition scripted : Type := gmap bytes bytes * list (option bool).
#[export] Instance scripted_store : OrderedStore scripted (list (bytes * bytes)) := {|
  store_get S k := Some (S.1 !! k);
  store_scan S lo hi := Some (bt_range (λ k, (lo ≤ₖ? k) && (k <ₖ? hi)) S.1);
  store_scan_prefix S prefix start := Some (bt_range (in_prefix prefix start) S.1);
  iter_next l := Some (match l with [] => (None, []) | e :: l => (Some e, l) end);
  iter_seek l k := Some (List.filter (λ e, k ≤ₖ? e.1) l);
  store_write S puts _ :=
    match S.2 with
    | Some false :: script => ((S.1, script), false)
    | Some true :: script => ((put_all S.1 puts, script), false)
    | None :: script => ((put_all S.1 puts, script), true)
    | [] => ((put_all S.1 puts, []), true)
    end;
  store_contents S := S.1;
  iter_remaining l := l;
|}.

#[export] Instance scripted_store_laws : OrderedStoreLaws scripted (list (bytes * bytes)).
Proof.
  split; simpl; try by intros; simplify_eq.
  - intros [|e0 l] e it' [= <- <-]; done.
  - intros [S script] puts _ d' ok. simpl. repeat case_match; intros [= <- <-]; simpl; auto.
Qed.

Module demo_slate.
Definition point (v : N) (ms : list Mutation) : CommitBatch := demo.batch v ms.
Definition c1 : CommitBatch := point 1 [MSet [0; 107] [1]; MSet [109] [9]]%N.
Definition c2 : CommitBatch := point 2 [MClear [109]; MSet [107] [2]]%N.
Definition stale : CommitBatch := point 1 [MSet [107] [3]]%N.
Definition ops : list slate_op :=
  [EApply c1; EApply c2; EApply c1; EApply stale;
   EGet [109]%N (version_new 1) VERSION_ZERO; EGet [109]%N (version_new 2) VERSION_ZERO;
   EScan [] [255]%N (version_new 2) VERSION_ZERO 10;
   EReaderScan [] [255]%N (version_new 1) VERSION_ZERO 1;
   EReaderGet [109]%N (version_new 1) (version_new 2);
   EGet [109]%N (version_new 3) VERSION_ZERO].
Definition batches : list CommitBatch := [c1; c2; stale].

Lemma in_batches b : committed_in ops b → b ∈ batches.
Proof.
  intros [Hin _]. unfold ops in Hin. rewrite !elem_of_cons, elem_of_nil in Hin.
  unfold batches. rewrite !elem_of_cons, elem_of_nil. naive_solver.
Qed.

Lemma ops_admissible b : committed_in ops b → admissible b.
Proof. intros Hb%in_batches. apply (batches_checked batches); [vm_compute; reflexivity|exact Hb]. Qed.

Lemma ops_separated : collision_free demo_history.sha (committed_in ops).
Proof.
  apply (separated_collision_free _ batches); [exact in_batches|vm_compute; reflexivity].
Qed.

Lemma ops_supported : Forall op_supported ops.
Proof. repeat constructor; vm_compute; done. Qed.
End demo_slate.

Lemma engine_refines_model_witness :
  responses (engine_step demo_history.sha (D := gmap bytes bytes)) ∅ demo_slate.ops =
    responses (reference_step demo_history.sha) Model_default demo_slate.ops ∧
  responses (engine_step demo_history.sha (D := gmap bytes bytes)) ∅ demo_slate.ops =
    [AnsApply (Ok Applied); AnsApply (Ok Applied); AnsApply (Ok AlreadyApplied);
     AnsApply (Err (Adapter.ConflictingReplay (version_new 1)));
     AnsGet (Ok (Some [9%N])); AnsGet (Ok None);
     AnsScan (Ok [([0; 107]%N, [1%N]); ([107%N], [2%N])]);
     AnsScan (Ok [([0; 107]%N, [1%N])]);
     AnsGet (Err (Adapter.SnapshotExpired (version_new 1) (version_new 2)));
     AnsGet (Err (Adapter.SnapshotUnavailable (version_new 3) (version_new 2)))].
Proof.
  split; [|vm_compute; reflexivity].
  apply (engine_refines_model demo_history.sha (∅ : gmap bytes bytes)).
  - exact map_store_reliable.
  - reflexivity.
  - exact demo_slate.ops_supported.
  - exact demo_slate.ops_admissible.
  - exact demo_slate.ops_separated.
Defined.

(** The first write is applied although it reports an error, the second is
    lost. *)
Lemma engine_commits_atomic_witness :
  let run := run_applies demo_history.sha ((∅, [Some true; Some false]) : scripted)
               [demo_slate.c1; demo_slate.c2] in
  run.2 = [Ok AlreadyApplied; Err Adapter.Backend] ∧
  ∃ kept, kept `sublist_of` [demo_slate.c1; demo_slate.c2] ∧
    let m := foldl (next_model demo_history.sha) Model_default kept in
    (∀ i b o, [demo_slate.c1; demo_slate.c2] !! i = Some b → run.2 !! i = Some (Ok o) →
       recorded demo_history.sha m b) ∧
    ∀ k rv minimum, version_wf rv →
      get_at_retained run.1 k rv minimum = Err Adapter.Backend ∨
      get_at_retained run.1 k rv minimum = expired rv minimum (read_answer (get m k rv)).
Proof.
  intros run. split; [vm_compute; reflexivity|].
  assert (∀ b, b ∈ [demo_slate.c1; demo_slate.c2] ∧
    (∃ c, canonical_mutations (batch_mutations b) = Ok c) → b ∈ demo_slate.batches) as Hin.
  { intros b [Hb _]. unfold demo_slate.batches. set_solver. }
  apply (engine_commits_atomic demo_history.sha ((∅, [Some true; Some false]) : scripted) run.1
           [demo_slate.c1; demo_slate.c2] run.2).
  - reflexivity.
  - repeat constructor; vm_compute; done.
  - intros b Hb%Hin. apply (batches_checked demo_slate.batches); [vm_compute; reflexivity|exact Hb].
  - apply (separated_collision_free _ demo_slate.batches); [exact Hin|vm_compute; reflexivity].
  - apply surjective_pairing.
Defined.
