(* ===== verification/Retention.v ===== *)
(** * History retention: the minimum-readable floor and the compaction filter

    [okv-slate/src/mvcc_retention.rs]. The floor is an atomic that competing
    threads advance with compare-and-exchange loops; each compaction job freezes
    it into a filter that sees the physical entries in key order and keeps, of
    every user key, the versions above the floor and the newest one at or below
    it. *)

From S2P Require Import Prelude Order BTree Bytes Version SlateCodec SlateEngine SlateView.
From coqutil Require Import Datatypes.RecordSetters.
Import OCamlLikeNotations.

(** ** The floor *)
Record MvccRetentionFloor := { floor_sequence : N }.

Definition require_generation_zero (v : Version) : res AdapterError unit :=
  if (generation v =? 0)%N then Ok tt else Err (Adapter.UnsupportedGeneration (generation v)).

Definition floor_new (initial : Version) : res AdapterError MvccRetentionFloor :=
  let? _ := require_generation_zero initial in
  Ok {| floor_sequence := sequence initial |}.

Definition floor_current (f : MvccRetentionFloor) : Version := version_new (floor_sequence f).

(** The loop of [advance] after its first load. [attempts] lists what each
    [compare_exchange_weak] meets: the value of the atomic at that moment and
    whether the exchange fails spuriously. The result is the value written, if
    any, and what is returned; a call whose attempts all failed is still
    running, [Panic] here. *)
Fixpoint advance_loop (attempted : Version) (current : N) (attempts : list (N * bool))
    : option N * res AdapterError bool :=
  if (sequence attempted <? current)%N then
    (None, Err (Adapter.RetentionFloorRegression (version_new current) attempted))
  else if (sequence attempted =? current)%N then (None, Ok false)
  else
    match attempts with
    | [] => (None, Panic)
    | (observed, spurious) :: attempts =>
        if (observed =? current)%N && negb spurious then (Some (sequence attempted), Ok true)
        else advance_loop attempted observed attempts
    end.

Definition floor_advance (loaded : N) (attempted : Version) (attempts : list (N * bool))
    : option N * res AdapterError bool :=
  match require_generation_zero attempted with
  | Ok _ => advance_loop attempted loaded attempts
  | Err e => (None, Err e)
  | Panic => (None, Panic)
  end.

(** ** The filter *)
Record MvccHistoryFilterStats := {
  inspected_user_entries : N;
  kept_newer_entries : N;
  kept_floor_anchors : N;
  dropped_older_entries : N;
  kept_metadata_entries : N;
  malformed_entries : N;
}.
Definition MvccHistoryFilterStats_default : MvccHistoryFilterStats :=
  {| inspected_user_entries := 0; kept_newer_entries := 0; kept_floor_anchors := 0;
     dropped_older_entries := 0; kept_metadata_entries := 0; malformed_entries := 0 |}.

Inductive MvccHistoryFilterMode :=
  | Correct
  | DropFloorAnchor
  | DropTombstoneAnchor
  | ReloadFloorDuringJob.
#[global] Instance MvccHistoryFilterMode_eq_dec : EqDecision MvccHistoryFilterMode.
Proof. solve_decision. Defined.

(** SlateDB's row value and filter decision. *)
Inductive ValueDeletable := Value (b : bytes) | Merge (b : bytes) | Tombstone.
#[global] Instance ValueDeletable_eq_dec : EqDecision ValueDeletable.
Proof. solve_decision. Defined.
Inductive CompactionFilterDecision := Keep | Drop.

Inductive CompactionFilterError :=
  | MalformedKey (e : AdapterError)
  | KeysNotAscending
  | VersionsNotDescending.

Record MvccHistoryFilter := {
  hf_floor : Version;
  hf_current_user_key : option bytes;
  hf_previous_version : option Version;
  hf_floor_anchor_seen : bool;
  hf_stats : MvccHistoryFilterStats;
  hf_mode : MvccHistoryFilterMode;
  hf_live_floor : bool;
  hf_internal_floor : option N;
}.

(** [create_compaction_filter]: the floor is read once, here, except in the
    [ReloadFloorDuringJob] falsifier, which keeps a handle to it. *)
Definition create_compaction_filter (floor : MvccRetentionFloor) (stats : MvccHistoryFilterStats)
    (mode : MvccHistoryFilterMode) (retention_min_seq : option N) : MvccHistoryFilter :=
  let objectkv_floor := sequence (floor_current floor) in
  let effective_floor :=
    match retention_min_seq with
    | None => objectkv_floor
    | Some internal_floor => N.min objectkv_floor internal_floor
    end in
  {| hf_floor := version_new effective_floor; hf_current_user_key := None;
     hf_previous_version := None; hf_floor_anchor_seen := false; hf_stats := stats;
     hf_mode := mode; hf_live_floor := bool_decide (mode = ReloadFloorDuringJob);
     hf_internal_floor := retention_min_seq |}.

(** [live] is the floor at the time of the call. *)
Definition effective_floor (f : MvccHistoryFilter) (live : MvccRetentionFloor) : Version :=
  let floor := if hf_live_floor f then floor_current live else hf_floor f in
  match hf_internal_floor f with
  | None => floor
  | Some internal => version_new (N.min (sequence floor) internal)
  end.

(** [fetch_add(1)] wraps. *)
Definition bump (n : N) : N := ((n + 1) mod (U64_MAX + 1))%N.

Definition note_metadata (s : MvccHistoryFilterStats) : MvccHistoryFilterStats :=
  { s with kept_metadata_entries := bump (kept_metadata_entries s) }.
Definition note_malformed (s : MvccHistoryFilterStats) : MvccHistoryFilterStats :=
  { s with malformed_entries := bump (malformed_entries s) }.
Definition note_inspected (s : MvccHistoryFilterStats) : MvccHistoryFilterStats :=
  { s with inspected_user_entries := bump (inspected_user_entries s) }.
Definition note_newer (s : MvccHistoryFilterStats) : MvccHistoryFilterStats :=
  { s with kept_newer_entries := bump (kept_newer_entries s) }.
Definition note_anchor (s : MvccHistoryFilterStats) : MvccHistoryFilterStats :=
  { s with kept_floor_anchors := bump (kept_floor_anchors s) }.
Definition note_dropped (s : MvccHistoryFilterStats) : MvccHistoryFilterStats :=
  { s with dropped_older_entries := bump (dropped_older_entries s) }.

Definition note (f : MvccHistoryFilter) (g : MvccHistoryFilterStats → MvccHistoryFilterStats)
    : MvccHistoryFilter := { f with hf_stats := g (hf_stats f) }.

(** [malformed]: count the entry and fail the job. *)
Definition malformed (f : MvccHistoryFilter) (e : CompactionFilterError)
    : MvccHistoryFilter * res CompactionFilterError CompactionFilterDecision :=
  (note f note_malformed, Err e).

(** Entering a new user key; [None] when the keys are not ascending. *)
Definition enter_key (f : MvccHistoryFilter) (user_key : bytes) : option MvccHistoryFilter :=
  if bool_decide (hf_current_user_key f = Some user_key) then Some f
  else if match hf_current_user_key f with
          | Some previous => user_key ≤ₖ? previous
          | None => false
          end then None
  else Some { f with hf_current_user_key := Some user_key;
                     hf_previous_version := None; hf_floor_anchor_seen := false }.

(** The entry's fate once its key and version are in order. *)
Definition retain_entry (f : MvccHistoryFilter) (live : MvccRetentionFloor) (version : Version)
    (value : ValueDeletable) : MvccHistoryFilter * CompactionFilterDecision :=
  if effective_floor f live <ₖ? version then (note f note_newer, Keep)
  else if negb (hf_floor_anchor_seen f) then
    if bool_decide (hf_mode f = DropFloorAnchor) then
      (note { f with hf_floor_anchor_seen := true } note_dropped, Drop)
    else if bool_decide (hf_mode f = DropTombstoneAnchor) &&
            bool_decide (value = Value [0%N]) then
      (note f note_dropped, Drop)
    else (note { f with hf_floor_anchor_seen := true } note_anchor, Keep)
  else (note f note_dropped, Drop).

Definition filter_entry (f : MvccHistoryFilter) (live : MvccRetentionFloor)
    (key : bytes) (value : ValueDeletable)
    : MvccHistoryFilter * res CompactionFilterError CompactionFilterDecision :=
  if negb (bool_decide (head key = Some USER_KEY_PREFIX)) then (note f note_metadata, Ok Keep)
  else
    match decode_user_version_key key with
    | Err e => malformed f (MalformedKey e)
    | Panic => (f, Panic)
    | Ok (user_key, version) =>
        let f := note f note_inspected in
        match enter_key f user_key with
        | None => malformed f KeysNotAscending
        | Some f =>
            if match hf_previous_version f with
               | Some previous => previous <ₖ? version
               | None => false
               end then malformed f VersionsNotDescending
            else
              let f := { f with hf_previous_version := Some version } in
              let '(f, decision) := retain_entry f live version value in
              (f, Ok decision)
        end
    end.

(** A compaction job: the filter sees the entries in order, the floor having
    the value [live i] at the [i]-th; the first error aborts the job. *)
Fixpoint run_filter (f : MvccHistoryFilter) (live : nat → MvccRetentionFloor)
    (entries : list (bytes * ValueDeletable))
    : MvccHistoryFilter * res CompactionFilterError (list CompactionFilterDecision) :=
  match entries with
  | [] => (f, Ok [])
  | (key, value) :: entries =>
      match filter_entry f (live 0) key value with
      | (f, Ok d) =>
          let '(f, ds) := run_filter f (λ i, live (S i)) entries in
          (f, let? ds := ds in Ok (d :: ds))
      | (f, Err e) => (f, Err e)
      | (f, Panic) => (f, Panic)
      end
  end.
