(* ===== verification/RetentionRuns.v ===== *)
(** * What the retention filter guarantees

    A job over sorted physical entries never fails, keeps exactly the versions
    above the floor and one anchor per key, and so changes no read at or above
    the floor; the floor itself only moves forward. *)

From S2P Require Import Prelude Order BTree Bytes Version Mvcc Oracle.
From S2P Require Import SlateCodec SlateEngine SlateView SlateOps SlateRuns Retention.
From coqutil Require Import Datatypes.RecordSetters.
Import OCamlLikeNotations.

(** ** The decisions of a job *)

(** Some entry of [prefix] is a version of [k] at or below the floor. *)
Definition anchored (floor : Version) (prefix : list (bytes * bytes)) (k : bytes) : bool :=
  existsb (λ p, match decode_user_version_key p.1 with
                | Ok (k', v) => bool_decide (k' = k) && (v ≤ₖ? floor)
                | _ => false
                end) prefix.

Definition decide_entry (floor : Version) (prefix : list (bytes * bytes)) (key : bytes)
    : CompactionFilterDecision :=
  match decode_user_version_key key with
  | Ok (k, v) => if (v ≤ₖ? floor) && anchored floor prefix k then Drop else Keep
  | _ => Keep
  end.

Fixpoint decide_all (floor : Version) (prefix l : list (bytes * bytes))
    : list CompactionFilterDecision :=
  match l with
  | [] => []
  | p :: l => decide_entry floor prefix p.1 :: decide_all floor (prefix ++ [p]) l
  end.

Definition job_entries (l : list (bytes * bytes)) : list (bytes * ValueDeletable) :=
  (λ p, (p.1, Value p.2)) <$> l.

(** Entries of the user namespace are encoded keys. *)
Definition job_shape (l : list (bytes * bytes)) : Prop :=
  ∀ p, p ∈ l → head p.1 = Some USER_KEY_PREFIX → ∃ e, entry_wf e ∧ p = phys e.

Lemma decode_metadata key :
  head key ≠ Some USER_KEY_PREFIX →
  decode_user_version_key key = Err (Adapter.CorruptMvcc WrongNamespace).
Proof.
  destruct key as [|b key]; [done|]. intros Hb. simpl.
  destruct (b =? USER_KEY_PREFIX)%N eqn:E; [|done]. apply N.eqb_eq in E as ->. by destruct Hb.
Qed.

Lemma anchored_true floor prefix k :
  job_shape prefix →
  anchored floor prefix k = true ↔
    ∃ v x, version_wf v ∧ (user_version_key k v, x) ∈ prefix ∧ v ≤ₖ floor.
Proof.
  intros Hshape. unfold anchored. rewrite existsb_exists'. split.
  - intros ([l x] & Hin & Hd). simpl in Hd.
    destruct (decide (head l = Some USER_KEY_PREFIX)) as [Hh|Hh];
      [|by rewrite decode_metadata in Hd].
    destruct (Hshape _ Hin Hh) as ([[k' v] y] & Hv & Hp).
    pose proof (f_equal fst Hp) as Hl. simpl in Hl. subst l.
    rewrite decode_user_version_key_of in Hd by done.
    rewrite andb_true_iff, bool_decide_eq_true, key_leb_spec in Hd. destruct Hd as [-> Hle].
    by exists v, x.
  - intros (v & x & Hv & Hin & Hle). exists (user_version_key k v, x). split; [done|].
    simpl fst. rewrite decode_user_version_key_of by done.
    by rewrite bool_decide_true, (proj2 (key_leb_spec _ _) Hle).
Qed.

Lemma anchored_snoc floor prefix p k :
  anchored floor (prefix ++ [p]) k =
    anchored floor prefix k ||
    match decode_user_version_key p.1 with
    | Ok (k', v) => bool_decide (k' = k) && (v ≤ₖ? floor)
    | _ => false
    end.
Proof. unfold anchored. rewrite existsb_app. simpl. by rewrite orb_false_r. Qed.

Lemma snoc_before (l : list (bytes * bytes)) p q :
  keys_sorted (l ++ [p]) → q ∈ l → q.1 <ₖ p.1.
Proof.
  intros Hs Hq. change (entry_lt q p).
  eapply (StronglySorted_app_1_elem_of _ l [p]); [done..|]. by constructor.
Qed.

(** ** The filter's state after a prefix *)
Section job.
Context (floor : Version) (internal : option N).
Context (Hfloor : match internal with
                  | None => True
                  | Some i => version_new (N.min (sequence floor) i) = floor
                  end).

Record filter_inv (f : MvccHistoryFilter) (prefix : list (bytes * bytes)) : Prop := {
  fi_floor : hf_floor f = floor;
  fi_mode : hf_mode f = Correct;
  fi_live : hf_live_floor f = false;
  fi_internal : hf_internal_floor f = internal;
  fi_key : match hf_current_user_key f with
           | None => ∀ k v x, version_wf v → (user_version_key k v, x) ∉ prefix
           | Some k0 => ∃ v0 x0, version_wf v0 ∧ (user_version_key k0 v0, x0) ∈ prefix ∧
               hf_previous_version f = Some v0 ∧
               hf_floor_anchor_seen f = anchored floor prefix k0 ∧
               ∀ k v x, version_wf v → (user_version_key k v, x) ∈ prefix → k ≤ₖ k0
           end;
}.

Lemma filter_effective f prefix live : filter_inv f prefix → effective_floor f live = floor.
Proof.
  intros [Hf Hm Hl Hi _]. unfold effective_floor. rewrite Hl, Hi, Hf. by destruct internal.
Qed.

Lemma filter_meta f prefix p :
  filter_inv f prefix → head p.1 ≠ Some USER_KEY_PREFIX →
  filter_inv (note f note_metadata) (prefix ++ [p]).
Proof.
  intros [Hf Hm Hl Hi Hk] Hh.
  assert (∀ k v x, (user_version_key k v, x) ∈ prefix ++ [p] ↔ (user_version_key k v, x) ∈ prefix) as Hin.
  { intros k v x. rewrite elem_of_app, list_elem_of_singleton. split; [|by left].
    intros [?|Hp]; [done|]. by rewrite <-Hp in Hh. }
  split; [done..|].
  change (hf_current_user_key (note f note_metadata)) with (hf_current_user_key f).
  destruct (hf_current_user_key f) as [k0|].
  - destruct Hk as (v0 & x0 & Hv0 & Hin0 & Hp & Ha & Hmax). exists v0, x0.
    split_and!; [done|by apply Hin|done| |].
    + by rewrite anchored_snoc, decode_metadata, orb_false_r.
    + intros k v x Hv Hx. apply Hin in Hx. by eapply Hmax.
  - intros k v x Hv. rewrite Hin. by apply Hk.
Qed.

(** Entering the key of the next entry of a sorted job. *)
Lemma enter_key_sorted f prefix k1 v1 y1 :
  filter_inv f prefix → version_wf v1 → job_shape prefix →
  keys_sorted (prefix ++ [phys (k1, v1, y1)]) →
  ∃ f', enter_key f k1 = Some f' ∧ hf_floor f' = floor ∧ hf_mode f' = Correct ∧
    hf_live_floor f' = false ∧ hf_internal_floor f' = internal ∧
    hf_current_user_key f' = Some k1 ∧
    match hf_previous_version f' with Some v0 => v1 <ₖ v0 | None => True end ∧
    hf_floor_anchor_seen f' = anchored floor prefix k1 ∧
    ∀ k v x, version_wf v → (user_version_key k v, x) ∈ prefix → k ≤ₖ k1.
Proof.
  intros [Hf Hm Hl Hi Hk] Hv1 Hshape Hs.
  assert (∀ k v x, version_wf v → (user_version_key k v, x) ∈ prefix →
    k <ₖ k1 ∨ k = k1 ∧ v1 <ₖ v) as Hbefore.
  { intros k v x Hv Hx. apply (snoc_before _ _ _ Hs) in Hx. change (user_version_key k v <ₖ user_version_key k1 v1) in Hx. unfold key_lt in Hx.
    rewrite user_version_key_cmp in Hx by done. destruct (kcmp k k1) eqn:Hkk; [|by left|done].
    apply kcmp_eq in Hkk as ->. by right. }
  assert (∀ k v x, version_wf v → (user_version_key k v, x) ∈ prefix → k ≤ₖ k1) as Hle.
  { intros k v x Hv Hx. destruct (Hbefore _ _ _ Hv Hx) as [?|[-> _]];
      [by apply key_lt_le|apply key_le_refl]. }
  unfold enter_key. destruct (hf_current_user_key f) as [k0|] eqn:Hcur.
  - destruct Hk as (v0 & x0 & Hv0 & Hin0 & Hp & Ha & Hmax). case_bool_decide as Hsame.
    + injection Hsame as ->. exists f. rewrite Hp, Ha. split_and!; try done.
      destruct (Hbefore _ _ _ Hv0 Hin0) as [Hlt|[_ ?]]; [by apply key_lt_irrefl in Hlt|done].
    + assert (k0 <ₖ k1) as Hlt.
      { destruct (Hbefore _ _ _ Hv0 Hin0) as [?|[-> _]]; [done|]. by destruct Hsame. }
      rewrite (proj2 (key_leb_false _ _) Hlt). eexists. split; [reflexivity|].
      cbn. split_and!; try done. symmetry. apply not_true_iff_false.
      rewrite (anchored_true _ _ _ Hshape). intros (v & x & Hv & Hx & _).
      apply Hmax in Hx; [|done]. key_order.
  - rewrite bool_decide_false by done. eexists. split; [reflexivity|].
    cbn. split_and!; try done. symmetry. apply not_true_iff_false.
    rewrite (anchored_true _ _ _ Hshape). intros (v & x & Hv & Hx & _). by apply Hk in Hx.
Qed.

Lemma filter_user f prefix live k1 v1 y1 :
  filter_inv f prefix → version_wf v1 → job_shape prefix →
  keys_sorted (prefix ++ [phys (k1, v1, y1)]) →
  ∃ f', filter_entry f live (user_version_key k1 v1) (Value (encode_value y1)) =
      (f', Ok (decide_entry floor prefix (user_version_key k1 v1))) ∧
    filter_inv f' (prefix ++ [phys (k1, v1, y1)]).
Proof.
  intros Hinv Hv1 Hshape Hs. unfold filter_entry, decide_entry.
  rewrite bool_decide_true by done. cbn [negb]. rewrite decode_user_version_key_of by done.
  assert (filter_inv (note f note_inspected) prefix) as Hinv' by by destruct Hinv.
  destruct (enter_key_sorted _ prefix k1 v1 y1 Hinv' Hv1 Hshape Hs)
    as (f1 & -> & Hfl & Hmo & Hli & Hin & Hcu & Hpr & Han & Hmax).
  assert (match hf_previous_version f1 with Some previous => previous <ₖ? v1 | None => false end
          = false) as ->.
  { destruct (hf_previous_version f1) as [v0|]; [|done]. apply key_ltb_false. by apply key_lt_le. }
  set (f2 := { f1 with hf_previous_version := Some v1 }).
  assert (effective_floor f2 live = floor) as Heff.
  { change (effective_floor f2 live) with (effective_floor f1 live).
    unfold effective_floor. rewrite Hli, Hin, Hfl. by destruct internal. }
  unfold retain_entry. rewrite Heff.
  assert (hf_mode f2 = Correct) as -> by done.
  assert (hf_floor_anchor_seen f2 = anchored floor prefix k1) as -> by done.
  rewrite !bool_decide_false by done. cbn [andb].
  assert (∀ f', hf_floor f' = floor → hf_mode f' = Correct → hf_live_floor f' = false →
    hf_internal_floor f' = internal → hf_current_user_key f' = Some k1 →
    hf_previous_version f' = Some v1 →
    hf_floor_anchor_seen f' = anchored floor prefix k1 || (v1 ≤ₖ? floor) →
    filter_inv f' (prefix ++ [phys (k1, v1, y1)])) as Hdone.
  { intros f' ? ? ? ? Hc Hp Ha. split; [done..|]. rewrite Hc. exists v1, (encode_value y1).
    split_and!; [done| |done| |].
    - apply elem_of_app. right. by constructor.
    - rewrite Ha, anchored_snoc. simpl fst. rewrite decode_user_version_key_of by done.
      by rewrite bool_decide_true by done.
    - intros k v x Hv [Hx|Hx%list_elem_of_singleton]%elem_of_app; [by eapply Hmax|].
      apply (f_equal fst) in Hx. change (user_version_key k v = user_version_key k1 v1) in Hx.
      apply user_version_key_inj in Hx as [-> _]; [apply key_le_refl|done..]. }
  destruct (v1 ≤ₖ? floor) eqn:Hle; [apply key_leb_spec in Hle|apply key_leb_false in Hle].
  - rewrite (proj2 (key_ltb_false _ _) Hle). cbn [andb].
    destruct (anchored floor prefix k1); cbn [negb]; (eexists; split; [reflexivity|]);
      apply Hdone; done.
  - rewrite (proj2 (key_ltb_spec _ _) Hle). cbn [andb]. eexists. split; [reflexivity|].
    apply Hdone; try done. by rewrite orb_false_r.
Qed.

Lemma run_filter_spec l f prefix live :
  filter_inv f prefix → job_shape (prefix ++ l) → keys_sorted (prefix ++ l) →
  (run_filter f live (job_entries l)).2 = Ok (decide_all floor prefix l).
Proof.
  revert f prefix live. induction l as [|p l IH]; intros f prefix live Hinv Hshape Hs; [done|].
  assert (prefix ++ p :: l = (prefix ++ [p]) ++ l) as Heq by by rewrite <-app_assoc.
  rewrite Heq in Hshape, Hs.
  assert (job_shape prefix) as Hpre.
  { intros q Hq. apply Hshape. apply elem_of_app. left. apply elem_of_app. by left. }
  pose proof (StronglySorted_app_1_l _ _ _ Hs) as Hs1.
  assert (∃ f', filter_entry f (live 0) p.1 (Value p.2) = (f', Ok (decide_entry floor prefix p.1)) ∧
    filter_inv f' (prefix ++ [p])) as (f' & Hstep & Hinv').
  { destruct (decide (head p.1 = Some USER_KEY_PREFIX)) as [Hh|Hh].
    - destruct (Hshape p) as ([[k v] y] & Hv & ->); [|done|].
      { apply elem_of_app. left. apply elem_of_app. right. by constructor. }
      by apply filter_user.
    - exists (note f note_metadata). split; [|by apply filter_meta].
      unfold filter_entry, decide_entry. rewrite bool_decide_false by done.
      by rewrite decode_metadata. }
  unfold job_entries. rewrite fmap_cons. fold (job_entries l). cbn [run_filter]. rewrite Hstep.
  specialize (IH f' (prefix ++ [p]) (λ i, live (S i)) Hinv' Hshape Hs).
  destruct (run_filter f' _ (job_entries l)) as [f2 ds]. simpl in IH |- *. by rewrite IH.
Qed.
End job.

Lemma decide_all_lookup floor prefix l i p :
  l !! i = Some p → decide_all floor prefix l !! i = Some (decide_entry floor (prefix ++ take i l) p.1).
Proof.
  revert prefix i. induction l as [|q l IH]; intros prefix [|i] Hi; simplify_eq/=.
  - by rewrite app_nil_r.
  - rewrite IH by done. by rewrite <-app_assoc.
Qed.

Lemma length_decide_all floor prefix l : length (decide_all floor prefix l) = length l.
Proof. revert prefix. induction l; intros prefix; simpl; auto. Qed.

(** ** Collection *)

(** The keys a job drops. *)
Definition dropped (l : list (bytes * bytes)) (ds : list CompactionFilterDecision) : list bytes :=
  omap (λ q, match q.2 with Drop => Some q.1.1 | Keep => None end) (zip l ds).

Definition collect (S : gmap bytes bytes) (l : list (bytes * bytes))
    (ds : list CompactionFilterDecision) : gmap bytes bytes :=
  foldl (λ S k, delete k S) S (dropped l ds).

Lemma elem_of_dropped l ds k :
  k ∈ dropped l ds ↔ ∃ i p, l !! i = Some p ∧ ds !! i = Some Drop ∧ p.1 = k.
Proof.
  unfold dropped. rewrite list_elem_of_omap. split.
  - intros ([p d] & Hin & Hd). apply list_elem_of_lookup in Hin as [i Hi].
    apply lookup_zip_Some in Hi as [Hp Hd']. destruct d; simplify_eq/=. eauto.
  - intros (i & p & Hp & Hd & <-). exists (p, Drop). split; [|done].
    apply list_elem_of_lookup. exists i. by apply lookup_zip_Some.
Qed.

Lemma collect_lookup S l ds k :
  collect S l ds !! k = if bool_decide (k ∈ dropped l ds) then None else S !! k.
Proof. apply delete_list_lookup. Qed.

Lemma sorted_lookup_lt (l : list (bytes * bytes)) i j p q :
  keys_sorted l → l !! i = Some p → l !! j = Some q → i < j → p.1 <ₖ q.1.
Proof.
  intros Hs Hi Hj Hlt. rewrite <-(take_drop j l) in Hs. change (entry_lt p q).
  eapply (StronglySorted_app_1_elem_of _ (take j l) (drop j l)); [done|..].
  - apply list_elem_of_lookup. exists i. by rewrite lookup_take_lt.
  - apply list_elem_of_lookup. exists 0. by rewrite lookup_drop, Nat.add_0_r.
Qed.

Section collection.
Context (S : gmap bytes bytes) (l : list (bytes * bytes)) (floor : Version).
Context (Hshape : user_shape S) (Hsorted : keys_sorted l).
Context (Hin : ∀ p, p ∈ l → S !! p.1 = Some p.2).

Lemma collection_job_shape : job_shape l.
Proof.
  intros [key x] Hp Hh. apply Hin in Hp. simpl in Hp.
  destruct (Hshape _ _ Hp Hh) as (k & v & y & Hv & -> & ->). by exists (k, v, y).
Qed.

(** An entry is dropped exactly when the job has a newer version of its key at
    or below the floor. *)
Lemma dropped_iff key :
  key ∈ dropped l (decide_all floor [] l) ↔
  ∃ k v v' x x', version_wf v ∧ version_wf v' ∧ key = user_version_key k v ∧
    (user_version_key k v, x) ∈ l ∧ (user_version_key k v', x') ∈ l ∧ v <ₖ v' ∧ v' ≤ₖ floor.
Proof.
  pose proof collection_job_shape as Hjob.
  assert (∀ i, job_shape (take i l)) as Hpre.
  { intros i p Hp. apply Hjob. apply elem_of_take in Hp as (j & Hj & _).
    by eapply list_elem_of_lookup_2. }
  rewrite elem_of_dropped. split.
  - intros (i & p & Hp & Hd & <-). rewrite (decide_all_lookup _ _ _ _ _ Hp) in Hd.
    injection Hd as Hd. simpl app in Hd. unfold decide_entry in Hd.
    destruct (decide (head p.1 = Some USER_KEY_PREFIX)) as [Hh|Hh];
      [|by rewrite decode_metadata in Hd].
    destruct (Hjob p) as ([[k v] y] & Hv & ->); [by eapply list_elem_of_lookup_2|done|].
    change (phys (k, v, y)).1 with (user_version_key k v) in *.
    rewrite decode_user_version_key_of in Hd by done.
    destruct (v ≤ₖ? floor) eqn:Hle; [|done]. destruct (anchored _ _ _) eqn:Ha; [|done].
    apply (anchored_true _ _ _ (Hpre i)) in Ha as (v' & x' & Hv' & Hx' & Hle').
    apply elem_of_take in Hx' as (j & Hj & Hji).
    pose proof (sorted_lookup_lt _ _ _ _ _ Hsorted Hj Hp Hji) as Hlt.
    change (user_version_key k v' <ₖ user_version_key k v) in Hlt.
    unfold key_lt in Hlt. rewrite user_version_key_cmp, kcmp_refl in Hlt by done.
    exists k, v, v', (encode_value y), x'. split_and!; [done..| | |done|done];
      by eapply list_elem_of_lookup_2.
  - intros (k & v & v' & x & x' & Hv & Hv' & -> & Hx & Hx' & Hlt & Hle).
    apply list_elem_of_lookup in Hx as [i Hi], Hx' as [j Hj].
    exists i, (user_version_key k v, x). split_and!; [done| |done].
    rewrite (decide_all_lookup _ _ _ _ _ Hi). simpl app. f_equal. unfold decide_entry.
    change (user_version_key k v, x).1 with (user_version_key k v).
    rewrite decode_user_version_key_of by done.
    rewrite (proj2 (key_leb_spec v floor)) by key_order.
    rewrite (proj2 (anchored_true _ _ _ (Hpre i))); [done|].
    exists v', x'. split_and!; [done| |done]. apply list_elem_of_lookup. exists j.
    rewrite lookup_take_lt; [done|]. apply Nat.nle_gt. intros Hij.
    apply Nat.lt_eq_cases in Hij as [Hij| ->].
    + pose proof (sorted_lookup_lt _ _ _ _ _ Hsorted Hi Hj Hij) as Hk.
      change (user_version_key k v <ₖ user_version_key k v') in Hk.
      unfold key_lt in Hk. rewrite user_version_key_cmp, kcmp_refl in Hk by done.
      change (v' <ₖ v) in Hk. key_order.
    + rewrite Hi in Hj.
      pose proof (f_equal (λ o : option (bytes * bytes), default [] (fst <$> o)) Hj) as Heq.
      change (user_version_key k v = user_version_key k v') in Heq.
      apply user_version_key_inj in Heq as [_ ->]; [by apply key_lt_irrefl in Hlt|done..].
Qed.

Let S' := collect S l (decide_all floor [] l).

Lemma collect_entry k v x :
  version_wf v → S' !! user_version_key k v = Some x → S !! user_version_key k v = Some x.
Proof. intros Hv. unfold S'. rewrite collect_lookup. by case_bool_decide. Qed.

Lemma collect_shape : user_shape S'.
Proof.
  intros key x. unfold S'. rewrite collect_lookup. case_bool_decide; [done|]. apply Hshape.
Qed.

Lemma collect_metadata key : head key ≠ Some USER_KEY_PREFIX → S' !! key = S !! key.
Proof.
  intros Hh. unfold S'. rewrite collect_lookup, bool_decide_false; [done|].
  rewrite dropped_iff. by intros (k & v & v' & x & x' & _ & _ & -> & _).
Qed.

(** The newest version at or below [rv], when [rv] is at or above the floor, is
    never dropped. *)
Lemma newest_kept k rv v y :
  floor ≤ₖ rv → newest S k rv v y → S' !! user_version_key k v = Some (encode_value y).
Proof.
  intros Hrv (Hv & HS & Hle & Hmax). unfold S'. rewrite collect_lookup, bool_decide_false; [done|].
  rewrite dropped_iff. intros (k' & v1 & v2 & x1 & x2 & Hv1 & Hv2 & Heq & _ & Hx2 & Hlt & Hle2).
  apply user_version_key_inj in Heq as [<- <-]; [|done..]. apply Hin in Hx2.
  change (S !! user_version_key k v2 = Some x2) in Hx2.
  assert (v2 ≤ₖ v); [|key_order]. apply Hmax; [done|by eexists|key_order].
Qed.

Lemma newest_exists k rv :
  version_wf rv → none_visible S k rv ∨ ∃ v y, newest S k rv v y.
Proof.
  intros Hrv. pose proof (prefix_scan_newest S k rv Hshape Hrv) as Hn.
  destruct (head _) as [e|]; [|by left]. right. destruct Hn as (v & y & Hn & _). eauto.
Qed.

Lemma collect_newest k rv v y :
  version_wf rv → floor ≤ₖ rv → newest S' k rv v y ↔ newest S k rv v y.
Proof.
  intros Hrv Hfl.
  assert (∀ v y, newest S k rv v y → newest S' k rv v y) as Hto.
  { intros v' y' Hn. pose proof Hn as (Hv & HS & Hle & Hmax).
    split_and!; [done|by eapply newest_kept|done|].
    intros w Hw [x Hx]. apply Hmax; [done|]. apply collect_entry in Hx; [|done]. by eexists. }
  split; [|apply Hto]. intros Hn'. destruct (newest_exists k rv Hrv) as [Hnone|(v' & y' & Hn)].
  - destruct Hn' as (Hv & HS & Hle & _). apply collect_entry in HS; [|done].
    by rewrite (Hnone v Hv Hle) in HS.
  - destruct (newest_unique _ _ _ _ _ _ _ Hn' (Hto _ _ Hn)) as [-> ->]. done.
Qed.
End collection.

Lemma version_new_le a b : (a ≤ b)%N → version_new a ≤ₖ version_new b.
Proof. intros Hab. unfold key_le. cbn. by apply N.compare_le_iff in Hab. Qed.

(** A fresh filter is in the state of an empty prefix. *)
Lemma created_floor floor stats internal :
  let f := create_compaction_filter floor stats Correct internal in
  hf_floor f ≤ₖ floor_current floor ∧
  match internal with
  | None => True
  | Some i => version_new (N.min (sequence (hf_floor f)) i) = hf_floor f
  end ∧ filter_inv (hf_floor f) internal f [].
Proof.
  assert (∀ f k, hf_current_user_key f = None →
    match hf_current_user_key f with
    | None => ∀ k v x, version_wf v → (user_version_key k v, x) ∉ (@nil (bytes * bytes))
    | Some k0 => ∃ v0 x0, version_wf v0 ∧ (user_version_key k0 v0, x0) ∈ (@nil (bytes * bytes)) ∧
        hf_previous_version f = Some v0 ∧ hf_floor_anchor_seen f = anchored k [] k0 ∧
        ∀ k v x, version_wf v → (user_version_key k v, x) ∈ (@nil (bytes * bytes)) → k ≤ₖ k0
    end) as Hnil.
  { intros f k ->. intros k' v x _. apply not_elem_of_nil. }
  destruct internal as [i|]; simpl; (split; [|split; [|split; try done; by apply Hnil]]).
  - apply version_new_le. lia.
  - f_equal. lia.
  - apply version_new_le. lia.
  - done.
Qed.

Lemma run_created floor stats internal live l :
  job_shape l → keys_sorted l →
  let f := create_compaction_filter floor stats Correct internal in
  (run_filter f live (job_entries l)).2 = Ok (decide_all (hf_floor f) [] l).
Proof.
  intros Hj Hs f. destruct (created_floor floor stats internal) as (_ & Hi & Hinv).
  by apply (run_filter_spec _ internal Hi l f [] live).
Qed.

(** Collection exactness: a job over physical entries in key order, frozen
    at the floor of its creation, never fails, and drops an entry exactly when
    it is a user version for which the job also holds a newer version of the
    same key at or below that floor. Of each key it keeps every version above
    the floor and one anchor at or below it; metadata is kept. *)
Theorem filter_exact S l floor stats internal live :
  user_shape S → keys_sorted l → (∀ p, p ∈ l → S !! p.1 = Some p.2) →
  let f := create_compaction_filter floor stats Correct internal in
  ∃ ds, (run_filter f live (job_entries l)).2 = Ok ds ∧ length ds = length l ∧
    ∀ key, key ∈ dropped l ds ↔
      ∃ k v v' x x', version_wf v ∧ version_wf v' ∧ key = user_version_key k v ∧
        (user_version_key k v, x) ∈ l ∧ (user_version_key k v', x') ∈ l ∧
        v <ₖ v' ∧ v' ≤ₖ hf_floor f.
Proof.
  intros Hshape Hs Hin f. eexists. split.
  - apply run_created; [by eapply collection_job_shape|done].
  - split; [apply length_decide_all|]. by eapply dropped_iff.
Qed.

Section reads.
Context {D I : Type} `{OrderedStoreLaws D I}.

Lemma reliable_readable (d d' : D) rv minimum :
  store_reliable D I →
  store_contents d !! LATEST_VERSION_KEY = store_contents d' !! LATEST_VERSION_KEY →
  require_readable d rv minimum = require_readable d' rv minimum.
Proof.
  intros Hr Heq. unfold require_readable, require_applied, latest_version.
  destruct (rel_get _ _ Hr d LATEST_VERSION_KEY) as [x Hx].
  destruct (rel_get _ _ Hr d' LATEST_VERSION_KEY) as [x' Hx']. rewrite Hx, Hx'.
  apply store_get_ok in Hx as ->, Hx' as ->. by rewrite Heq.
Qed.

Lemma phys_value_unique S k rv y1 y2 : phys_value S k rv y1 → phys_value S k rv y2 → y1 = y2.
Proof.
  intros [[v1 H1]|[N1 ->]] [[v2 H2]|[N2 ->]]; [|..|done].
  - by destruct (newest_unique _ _ _ _ _ _ _ H1 H2).
  - destruct H1 as (Hv & HS & Hle & _). by rewrite (N2 _ Hv Hle) in HS.
  - destruct H2 as (Hv & HS & Hle & _). by rewrite (N1 _ Hv Hle) in HS.
Qed.

(** C23. Collection is invisible to admitted readers: when a job's drops are
    removed from the physical state, every point read and range scan with a
    minimum at or above the floor the job was created with, through the same
    store contents otherwise, returns what it returned before, whatever other
    entries the job did not see. *)
Theorem collection_preserves_reads (d d' : D) l floor stats internal live :
  store_reliable D I → user_shape (store_contents d) → keys_sorted l →
  (∀ p, p ∈ l → store_contents d !! p.1 = Some p.2) →
  let f := create_compaction_filter floor stats Correct internal in
  ∃ ds, (run_filter f live (job_entries l)).2 = Ok ds ∧
    (store_contents d' = collect (store_contents d) l ds →
     ∀ rv minimum, version_wf rv → floor_current floor ≤ₖ minimum →
       (∀ k, get_at_retained d' k rv minimum = get_at_retained d k rv minimum) ∧
       ∀ s e limit, scan_at_retained d' s e rv minimum limit = scan_at_retained d s e rv minimum limit).
Proof.
  intros Hr Hshape Hs Hin f. eexists. split.
  { apply run_created; [by eapply collection_job_shape|done]. }
  fold f. intros Hd' rv minimum Hrv Hmin.
  destruct (created_floor floor stats internal) as (Hfl & _). fold f in Hfl.
  assert (user_shape (store_contents d')) as Hshape'.
  { rewrite Hd'. by apply collect_shape. }
  assert (require_readable d' rv minimum = require_readable d rv minimum) as Hrr.
  { apply reliable_readable; [done|]. rewrite Hd'. by apply collect_metadata. }
  destruct (rv <ₖ? minimum) eqn:Hlt.
  { unfold get_at_retained, scan_at_retained. rewrite Hrr. unfold require_readable.
    rewrite Hlt. by split. }
  apply key_ltb_false in Hlt. assert (hf_floor f ≤ₖ rv) as Hle by key_order.
  assert (∀ k v y, newest (store_contents d') k rv v y ↔ newest (store_contents d) k rv v y) as Hnew.
  { intros k v y. rewrite Hd'. by apply collect_newest. }
  split.
  - intros k. unfold get_at_retained. rewrite Hrr.
    destruct (require_readable d rv minimum) as [[]|e|]; [|done..]. cbn [res_bind].
    destruct (get_visible_phys d k rv Hshape Hrv) as [[_ []]|(y & -> & Hy)]; [done|].
    destruct (get_visible_phys d' k rv Hshape' Hrv) as [[_ []]|(y' & -> & Hy')]; [done|].
    f_equal. apply (phys_value_unique (store_contents d) k rv); [|done].
    destruct Hy' as [[v Hv]|[Hno ->]]; [left; exists v; by apply Hnew|].
    destruct Hy as [[v Hv]|Hno']; [|by right; destruct Hno'].
    apply Hnew in Hv as (Hv & HS & Hvle & _). by rewrite (Hno v Hv Hvle) in HS.
  - intros s e limit.
    destruct (phys_rows_exist (store_contents d) s e rv Hshape) as [rows Hrows].
    assert (phys_rows (store_contents d') s e rv rows) as Hrows'.
    { destruct Hrows as [Hso Hrows]. split; [done|]. intros k x. rewrite Hrows.
      by setoid_rewrite Hnew. }
    destruct (scan_at_retained_phys d s e rv minimum limit rows Hrows Hshape) as [[_ []]| ->]; [done|].
    destruct (scan_at_retained_phys d' s e rv minimum limit rows Hrows' Hshape') as [[_ []]| ->];
      [done|]. unfold scan_result. by rewrite Hrr.
Qed.
End reads.

(** ** The floor under contention *)

(** The floor only moves forward and advancing it completes: whatever the
    other threads do between the attempts, a call writes at most once, only the
    attempted sequence, over a strictly smaller value it has just observed, and
    reports [true] exactly then; and once the atomic stops changing the call
    returns within two attempts. *)
Theorem floor_advance_forward loaded attempted attempts v :
  generation attempted = 0%N →
  (floor_advance loaded attempted (attempts ++ [(v, false); (v, false)])).2 ≠ Panic ∧
  match floor_advance loaded attempted attempts with
  | (Some w, r) => r = Ok true ∧ w = sequence attempted ∧
      ∃ a pre post, attempts = pre ++ (a, false) :: post ∧ (a < w)%N
  | (None, r) => r ≠ Ok true
  end.
Proof.
  intros Hg. unfold floor_advance, require_generation_zero. rewrite Hg. cbn [N.eqb].
  split.
  - revert loaded. induction attempts as [|[a s] attempts IH]; intros loaded; simpl.
    + destruct (sequence attempted <? loaded)%N; [done|].
      destruct (sequence attempted =? loaded)%N; [done|].
      destruct (v =? loaded)%N; [done|]. simpl.
      destruct (sequence attempted <? v)%N; [done|].
      destruct (sequence attempted =? v)%N; [done|]. by rewrite N.eqb_refl.
    + destruct (sequence attempted <? loaded)%N; [done|].
      destruct (sequence attempted =? loaded)%N; [done|].
      destruct ((a =? loaded)%N && negb s); [done|]. apply IH.
  - revert loaded. induction attempts as [|[a s] attempts IH]; intros loaded; simpl.
    + by destruct (sequence attempted <? loaded)%N, (sequence attempted =? loaded)%N.
    + destruct (sequence attempted <? loaded)%N eqn:E1; [done|].
      destruct (sequence attempted =? loaded)%N eqn:E2; [done|].
      apply N.ltb_ge in E1. apply N.eqb_neq in E2.
      destruct ((a =? loaded)%N && negb s) eqn:E3.
      * apply andb_true_iff in E3 as [Ha%N.eqb_eq Hs]. destruct s; [done|]. subst a.
        split_and!; [done..|]. exists loaded, [], attempts. split; [done|]. lia.
      * specialize (IH a). destruct (advance_loop attempted a attempts) as [[w|] r]; [|done].
        destruct IH as (-> & -> & b & pre & post & -> & Hlt). split_and!; [done..|].
        by exists b, ((a, s) :: pre), post.
Qed.

Lemma floor_advance_forward_witness :
  (floor_advance 5 (version_new 9) ([(5, true); (7, false)]%N ++ [(7, false); (7, false)]%N)).2
    ≠ Panic ∧
  match floor_advance 5 (version_new 9) [(5, true); (7, false)]%N with
  | (Some w, r) => r = Ok true ∧ w = 9%N ∧
      ∃ a pre post, [(5, true); (7, false)]%N = pre ++ (a, false) :: post ∧ (a < w)%N
  | (None, r) => r ≠ Ok true
  end.
Proof. apply (floor_advance_forward 5 (version_new 9) [(5, true); (7, false)]%N 7). reflexivity. Defined.

(** ** A concrete collection *)
Module demo_retention.
Definition entries : list (bytes * Version * option bytes) :=
  [([107], version_new 3, Some [3]); ([107], version_new 2, None); ([107], version_new 1, Some [1]);
   ([109], version_new 1, Some [9])]%N.
Definition state : gmap bytes bytes :=
  put_all ∅ ((LATEST_VERSION_KEY, version_to_be_bytes (version_new 3)) :: (phys <$> entries)).
Definition floor : MvccRetentionFloor := {| floor_sequence := 2 |}.
Definition job : list (bytes * bytes) := bt_items state.

Lemma state_shape : user_shape state.
Proof.
  unfold state. apply user_shape_puts; [apply user_shape_empty|]. apply Forall_cons. split.
  - by left.
  - apply Forall_fmap, Forall_forall. intros e He. right. exists e. split; [|done].
    unfold entries in He. rewrite !elem_of_cons, elem_of_nil in He.
    destruct He as [->|[->|[->|[->|[]]]]]; by split.
Qed.

Lemma job_in p : p ∈ job → state !! p.1 = Some p.2.
Proof. destruct p as [k x]. apply elem_of_bt_items. Qed.

Definition live (_ : nat) : MvccRetentionFloor := {| floor_sequence := 50 |}.
End demo_retention.

(** The version of [107] below the anchor is dropped; that the floor has moved
    to 50 meanwhile does not matter. *)
Lemma filter_exact_witness :
  let f := create_compaction_filter demo_retention.floor MvccHistoryFilterStats_default Correct None in
  (run_filter f demo_retention.live (job_entries demo_retention.job)).2 =
    Ok [Keep; Keep; Keep; Drop; Keep] ∧
  ∃ ds, (run_filter f demo_retention.live (job_entries demo_retention.job)).2 = Ok ds ∧
    length ds = length demo_retention.job ∧
    ∀ key, key ∈ dropped demo_retention.job ds ↔
      ∃ k v v' x x', version_wf v ∧ version_wf v' ∧ key = user_version_key k v ∧
        (user_version_key k v, x) ∈ demo_retention.job ∧
        (user_version_key k v', x') ∈ demo_retention.job ∧ v <ₖ v' ∧ v' ≤ₖ hf_floor f.
Proof.
  intros f. split; [vm_compute; reflexivity|].
  apply (filter_exact demo_retention.state demo_retention.job).
  - exact demo_retention.state_shape.
  - apply bt_items_sorted.
  - exact demo_retention.job_in.
Defined.

Lemma collection_preserves_reads_witness :
  let f := create_compaction_filter demo_retention.floor MvccHistoryFilterStats_default Correct None in
  let after := collect demo_retention.state demo_retention.job [Keep; Keep; Keep; Drop; Keep] in
  size after = 4 ∧
  ∃ ds, (run_filter f demo_retention.live (job_entries demo_retention.job)).2 = Ok ds ∧
    (after = collect demo_retention.state demo_retention.job ds →
     ∀ rv minimum, version_wf rv → version_new 2 ≤ₖ minimum →
       (∀ k, get_at_retained after k rv minimum =
             get_at_retained demo_retention.state k rv minimum) ∧
       ∀ s e limit, scan_at_retained after s e rv minimum limit =
                    scan_at_retained demo_retention.state s e rv minimum limit).
Proof.
  intros f after. split; [vm_compute; reflexivity|].
  exact (collection_preserves_reads demo_retention.state after demo_retention.job
    demo_retention.floor MvccHistoryFilterStats_default None demo_retention.live map_store_reliable
    demo_retention.state_shape (bt_items_sorted _) demo_retention.job_in).
Defined.
