(* ===== verification/Quorum.v ===== *)
(** * Signed quorums

    What every certificate verifier of [okv-consensus] has in common: the loop
    over the attestations that admits each signer once, finds its key among the
    members and checks its signature. [serde_json::to_vec], Ed25519 and SHA-256
    are not part of the repository: they are classes whose operations the
    definitions take as parameters. *)

From S2P Require Import Prelude Order BTree Bytes.

(** [serde_json::to_vec] at a serializable type. *)
Class Serialize (A : Type) := to_vec : A → option bytes.

(** [ring]: the public key of a seed, and verification of a signature over a
    message under a public key. *)
Class Ed25519 := {
  ed25519_public_key : bytes → bytes;
  ed25519_verify : bytes → bytes → bytes → bool;
}.

(** [ring]'s signing operation, with the seed of a key pair. *)
Class Ed25519Sign := ed25519_sign : bytes → bytes → bytes.

(** [members.iter().map(|m| (m.id, m.key)).collect::<BTreeMap<_, _>>()]: a later
    duplicate replaces an earlier one. *)
Definition collect_map {A} (entries : list (N * A)) : gmap N A :=
  foldl (λ m e, <[e.1 := e.2]> m) ∅ entries.

Section attestations.
Context {A : Type} (signer : A → N) (ok : A → bool).

(** [for attestation in attestations { if !distinct.insert(signer) || !ok {
    return false } }]: the distinct signers when the loop completes. *)
Fixpoint attest_loop (attestations : list A) (distinct : gset N) : option (gset N) :=
  match attestations with
  | [] => Some distinct
  | a :: attestations =>
      if bool_decide (signer a ∈ distinct) then None
      else if negb (ok a) then None
      else attest_loop attestations ({[signer a]} ∪ distinct)
  end.

Definition attested (attestations : list A) (quorum : nat) : bool :=
  match attest_loop attestations ∅ with
  | Some distinct => quorum <=? size distinct
  | None => false
  end.

Lemma attest_loop_spec atts d d' :
  attest_loop atts d = Some d' ↔
  NoDup (signer <$> atts) ∧ (∀ a, a ∈ atts → ok a = true ∧ signer a ∉ d) ∧
  d' = list_to_set (signer <$> atts) ∪ d.
Proof.
  revert d. induction atts as [|a atts IH]; intros d; cbn [attest_loop].
  { rewrite fmap_nil. split.
    - intros [= <-]. split_and!; [constructor|set_solver|set_solver].
    - intros (_ & _ & ->). f_equal. set_solver. }
  rewrite fmap_cons. case_bool_decide as Hin.
  { split; [done|]. intros (_ & Hall & _). destruct (Hall a); [by constructor|done]. }
  destruct (ok a) eqn:Hok; simpl.
  2: { split; [done|]. intros (_ & Hall & _). destruct (Hall a); [by constructor|congruence]. }
  rewrite IH, NoDup_cons. split.
  - intros (Hnd & Hall & ->). split_and!.
    + intros (b & Hb & Hbin)%list_elem_of_fmap. destruct (Hall b Hbin). set_solver.
    + done.
    + intros b [->|Hb]%elem_of_cons; [done|]. destruct (Hall b Hb). set_solver.
    + set_solver.
  - intros ((Hnotin & Hnd) & Hall & ->). split_and!; [done| |set_solver].
    intros b Hb. destruct (Hall b) as [Hobk Hbd]; [by constructor|]. split; [done|].
    intros [Heq|?]%elem_of_union; [|done]. apply elem_of_singleton in Heq.
    destruct Hnotin. apply list_elem_of_fmap. by exists b.
Qed.

(** A quorum is attested exactly when the signers are distinct, every
    attestation passes, and there are enough of them. *)
Lemma attested_spec atts quorum :
  attested atts quorum = true ↔
  NoDup (signer <$> atts) ∧ Forall (λ a, ok a = true) atts ∧ quorum ≤ length atts.
Proof.
  unfold attested. rewrite Forall_forall.
  destruct (attest_loop atts ∅) as [d|] eqn:E.
  - apply attest_loop_spec in E as (Hnd & Hall & ->). rewrite Nat.leb_le.
    rewrite union_empty_r_L, size_list_to_set, length_fmap by done.
    split; [|naive_solver]. intros ?. split_and!; [done| |done].
    intros a Ha. by apply Hall.
  - split; [done|]. intros (Hnd & Hall & _).
    enough (attest_loop atts ∅ = Some (list_to_set (signer <$> atts) ∪ ∅)) by congruence.
    apply attest_loop_spec. split_and!; [done| |done].
    intros a Ha. split; [by apply Hall|set_solver].
Qed.
End attestations.

(** The signers of an attested quorum of known members. *)
Lemma attested_members {A} (signer : A → N) ok atts quorum {V} (members : gmap N V) :
  attested signer ok atts quorum = true →
  (∀ a, a ∈ atts → ok a = true → is_Some (members !! signer a)) →
  let signers := list_to_set (signer <$> atts) : gset N in
  signers ⊆ dom members ∧ quorum ≤ size signers.
Proof.
  intros (Hnd & Hok & Hq)%attested_spec Hm. cbn zeta. split.
  - intros n Hn. apply elem_of_list_to_set, list_elem_of_fmap in Hn as (a & -> & Ha).
    rewrite Forall_forall in Hok. apply elem_of_dom. by apply Hm; [|apply Hok].
  - by rewrite size_list_to_set, length_fmap.
Qed.

(** Two quorums that together outnumber the members share one. *)
Lemma quorums_intersect (members q1 q2 : gset N) :
  q1 ⊆ members → q2 ⊆ members → size members < size q1 + size q2 →
  ∃ n, n ∈ q1 ∧ n ∈ q2.
Proof.
  intros H1 H2 Hsize.
  destruct (decide (q1 ∩ q2 = ∅)) as [Hempty|Hne].
  - assert (size (q1 ∪ q2) ≤ size members) as Hle by (apply subseteq_size; set_solver).
    rewrite size_union in Hle by set_solver. lia.
  - apply set_choose_L in Hne as [n Hn]. exists n. set_solver.
Qed.

Lemma elem_of_collect_map {A} (entries : list (N * A)) k :
  is_Some (collect_map entries !! k) ↔ k ∈ entries.*1.
Proof.
  unfold collect_map.
  assert (∀ m : gmap N A,
    is_Some (foldl (λ m e, <[e.1 := e.2]> m) m entries !! k) ↔
    k ∈ entries.*1 ∨ is_Some (m !! k)) as Hgen.
  { induction entries as [|[k' v] entries IH]; intros m; simpl; [set_solver|].
    rewrite IH, elem_of_cons, lookup_insert_is_Some. destruct (decide (k = k')); naive_solver. }
  rewrite Hgen, lookup_empty. split; [|auto].
  intros [?|[? ?]]; [done|congruence].
Qed.

Lemma size_collect_map {A} (entries : list (N * A)) :
  size (dom (collect_map entries)) ≤ length entries.
Proof.
  unfold collect_map. rewrite size_dom.
  enough (∀ m : gmap N A, size (foldl (λ m e, <[e.1 := e.2]> m) m entries) ≤ size m + length entries)
    as Hgen by (etrans; [apply Hgen|by rewrite map_size_empty]).
  induction entries as [|[k v] entries IH]; intros m; cbn; [lia|].
  etrans; [apply IH|]. rewrite map_size_insert. case_match; cbn; lia.
Qed.
