(* ===== verification/Envelope.v ===== *)
(** * The commit envelope

    [okv-sim/src/commit.rs]: [CommitEnvelope], the record a transaction
    authority emits for one commit, with its binary codec. Construction and
    encoding panic when a length leaves its field; decoding reads the payload
    with a cursor and rechecks every structural and cryptographic binding.
    SHA-256 is a parameter. *)

From S2P Require Import Prelude Order BTree Bytes Version.

Definition ENVELOPE_MAGIC : bytes := string_bytes "OKVC".
Definition CODEC_VERSION : N := 1.
Definition SIM_REQUIRED_RESOLVERS : list N := [1; 2]%N.
Definition SIM_RESOLVER_SET_ID : bytes := replicate 16 51%N.
Definition U16_MAX : N := 65535.

Record CommitEnvelope := {
  env_codec_version : N;
  env_envelope_len : N;
  env_cell_id : bytes;
  env_tenant_id : bytes;
  env_generation : N;
  env_version : Version;
  env_log_index : N;
  env_client_id : bytes;
  env_request_id : N;
  env_resolver_set_id : bytes;
  env_logical_fingerprint : bytes;
  env_read_conflicts : bytes;
  env_write_conflicts : bytes;
  env_canonical_mutations : bytes;
  env_required_resolvers : list N;
  env_required_log_tags : list N;
  env_previous_log_chain : bytes;
  env_checksum : bytes;
}.

Record CommitEnvelopeParts := {
  part_cell_id : bytes;
  part_tenant_id : bytes;
  part_generation : N;
  part_version : Version;
  part_log_index : N;
  part_client_id : bytes;
  part_request_id : N;
  part_resolver_set_id : bytes;
  part_read_conflicts : bytes;
  part_write_conflicts : bytes;
  part_canonical_mutations : bytes;
  part_required_resolvers : list N;
  part_required_log_tags : list N;
  part_previous_log_chain : bytes;
}.

Inductive CommitCodecError :=
  | Truncated
  | BadMagic
  | UnsupportedCodec (codec_version : N)
  | InvalidLength
  | ChecksumMismatch
  | InvalidGenerationVersion
  | FingerprintMismatch
  | InvalidSet
  | TrailingBytes.

Record CommitRequest := {
  creq_cell_id : bytes;
  creq_tenant_id : bytes;
  creq_generation : N;
  creq_client_id : bytes;
  creq_request_id : N;
  creq_read_conflicts : bytes;
  creq_write_conflicts : bytes;
  creq_canonical_mutations : bytes;
}.

(** [values.windows(2).all(|w| w[0] < w[1])]. *)
Fixpoint strictly_sorted (values : list N) : bool :=
  match values with
  | x :: (y :: _) as rest => (x <? y)%N && strictly_sorted rest
  | _ => true
  end.

(** [hash_byte_vec], as the bytes fed to the hasher. *)
Definition hash_byte_vec (b : bytes) : bytes := u64_be (len b) ++ b.

(** ** Encoding *)
Definition push_u16_vec (values : list N) : res CommitCodecError bytes :=
  if (U16_MAX <? len values)%N then Panic
  else Ok (u16_be (len values) ++ concat (u16_be <$> values)).

Definition push_byte_vec (value : bytes) : res CommitCodecError bytes :=
  if (U32_MAX <? len value)%N then Panic else Ok (u32_be (len value) ++ value).

Definition encode_without_checksum (e : CommitEnvelope) : res CommitCodecError bytes :=
  let? reads := push_byte_vec (env_read_conflicts e) in
  let? writes := push_byte_vec (env_write_conflicts e) in
  let? mutations := push_byte_vec (env_canonical_mutations e) in
  let? resolvers := push_u16_vec (env_required_resolvers e) in
  let? tags := push_u16_vec (env_required_log_tags e) in
  Ok (ENVELOPE_MAGIC ++ u16_be (env_codec_version e) ++ u32_be (env_envelope_len e) ++
      env_cell_id e ++ env_tenant_id e ++ u64_be (env_generation e) ++
      version_to_be_bytes (env_version e) ++ u64_be (env_log_index e) ++
      env_client_id e ++ u64_be (env_request_id e) ++ env_resolver_set_id e ++
      env_logical_fingerprint e ++ reads ++ writes ++ mutations ++ resolvers ++ tags ++
      env_previous_log_chain e).

Definition envelope_encode (e : CommitEnvelope) : res CommitCodecError bytes :=
  let? payload := encode_without_checksum e in
  Ok (payload ++ env_checksum e).

Definition with_len (e : CommitEnvelope) (l : N) : CommitEnvelope :=
  {| env_codec_version := env_codec_version e; env_envelope_len := l;
     env_cell_id := env_cell_id e; env_tenant_id := env_tenant_id e;
     env_generation := env_generation e; env_version := env_version e;
     env_log_index := env_log_index e; env_client_id := env_client_id e;
     env_request_id := env_request_id e; env_resolver_set_id := env_resolver_set_id e;
     env_logical_fingerprint := env_logical_fingerprint e;
     env_read_conflicts := env_read_conflicts e;
     env_write_conflicts := env_write_conflicts e;
     env_canonical_mutations := env_canonical_mutations e;
     env_required_resolvers := env_required_resolvers e;
     env_required_log_tags := env_required_log_tags e;
     env_previous_log_chain := env_previous_log_chain e; env_checksum := env_checksum e |}.

Definition with_checksum (e : CommitEnvelope) (c : bytes) : CommitEnvelope :=
  {| env_codec_version := env_codec_version e; env_envelope_len := env_envelope_len e;
     env_cell_id := env_cell_id e; env_tenant_id := env_tenant_id e;
     env_generation := env_generation e; env_version := env_version e;
     env_log_index := env_log_index e; env_client_id := env_client_id e;
     env_request_id := env_request_id e; env_resolver_set_id := env_resolver_set_id e;
     env_logical_fingerprint := env_logical_fingerprint e;
     env_read_conflicts := env_read_conflicts e;
     env_write_conflicts := env_write_conflicts e;
     env_canonical_mutations := env_canonical_mutations e;
     env_required_resolvers := env_required_resolvers e;
     env_required_log_tags := env_required_log_tags e;
     env_previous_log_chain := env_previous_log_chain e; env_checksum := c |}.

Definition with_resolvers (e : CommitEnvelope) (set_id : bytes) (rs : list N) : CommitEnvelope :=
  {| env_codec_version := env_codec_version e; env_envelope_len := env_envelope_len e;
     env_cell_id := env_cell_id e; env_tenant_id := env_tenant_id e;
     env_generation := env_generation e; env_version := env_version e;
     env_log_index := env_log_index e; env_client_id := env_client_id e;
     env_request_id := env_request_id e; env_resolver_set_id := set_id;
     env_logical_fingerprint := env_logical_fingerprint e;
     env_read_conflicts := env_read_conflicts e;
     env_write_conflicts := env_write_conflicts e;
     env_canonical_mutations := env_canonical_mutations e;
     env_required_resolvers := rs;
     env_required_log_tags := env_required_log_tags e;
     env_previous_log_chain := env_previous_log_chain e; env_checksum := env_checksum e |}.

(** ** The cursor: its state is the unread bytes *)
Definition rd_take (n : nat) (r : bytes) : res CommitCodecError (bytes * bytes) :=
  if length r <? n then Err Truncated else Ok (take n r, drop n r).

Definition rd_int (w : nat) (r : bytes) : res CommitCodecError (N * bytes) :=
  let? '(b, r) := rd_take w r in Ok (of_be b, r).

Definition rd_byte_vec (r : bytes) : res CommitCodecError (bytes * bytes) :=
  let? '(count, r) := rd_int 4 r in rd_take (N.to_nat count) r.

Fixpoint rd_u16s (count : nat) (r : bytes) : res CommitCodecError (list N * bytes) :=
  match count with
  | O => Ok ([], r)
  | S count =>
      let? '(v, r) := rd_int 2 r in
      let? '(vs, r) := rd_u16s count r in
      Ok (v :: vs, r)
  end.

Definition rd_u16_vec (r : bytes) : res CommitCodecError (list N * bytes) :=
  let? '(count, r) := rd_int 2 r in rd_u16s (N.to_nat count) r.

Section envelope.
Context (sha256 : bytes → bytes).

Definition fingerprint (r : CommitRequest) : bytes :=
  sha256 (string_bytes "okv-commit-request-v1" ++ creq_cell_id r ++ creq_tenant_id r ++
          u64_be (creq_generation r) ++ creq_client_id r ++ u64_be (creq_request_id r) ++
          hash_byte_vec (creq_read_conflicts r) ++ hash_byte_vec (creq_write_conflicts r) ++
          hash_byte_vec (creq_canonical_mutations r)).

(** Length, then checksum, computed over the envelope's own bytes. *)
Definition seal (e : CommitEnvelope) : res CommitCodecError CommitEnvelope :=
  let? bytes := encode_without_checksum e in
  if (U32_MAX <? len bytes + 32)%N then Panic
  else
    let e := with_len e (len bytes + 32) in
    let? bytes := encode_without_checksum e in
    Ok (with_checksum e (sha256 bytes)).

Definition envelope_new (request : CommitRequest) (version : Version) (log_index : N)
    (required_log_tags : list N) (previous_log_chain : bytes)
    : res CommitCodecError CommitEnvelope :=
  seal
    {| env_codec_version := CODEC_VERSION; env_envelope_len := 0;
       env_cell_id := creq_cell_id request; env_tenant_id := creq_tenant_id request;
       env_generation := creq_generation request; env_version := version;
       env_log_index := log_index; env_client_id := creq_client_id request;
       env_request_id := creq_request_id request;
       env_resolver_set_id := SIM_RESOLVER_SET_ID;
       env_logical_fingerprint := fingerprint request;
       env_read_conflicts := creq_read_conflicts request;
       env_write_conflicts := creq_write_conflicts request;
       env_canonical_mutations := creq_canonical_mutations request;
       env_required_resolvers := SIM_REQUIRED_RESOLVERS;
       env_required_log_tags := required_log_tags;
       env_previous_log_chain := previous_log_chain;
       env_checksum := replicate 32 0%N |}.

Definition from_parts (p : CommitEnvelopeParts) : res CommitCodecError CommitEnvelope :=
  let request :=
    {| creq_cell_id := part_cell_id p; creq_tenant_id := part_tenant_id p;
       creq_generation := part_generation p; creq_client_id := part_client_id p;
       creq_request_id := part_request_id p; creq_read_conflicts := part_read_conflicts p;
       creq_write_conflicts := part_write_conflicts p;
       creq_canonical_mutations := part_canonical_mutations p |} in
  let? e := envelope_new request (part_version p) (part_log_index p)
              (part_required_log_tags p) (part_previous_log_chain p) in
  seal (with_resolvers e (part_resolver_set_id p) (part_required_resolvers p)).

(** The fields of a payload, in the order the cursor reads them. *)
Definition decode_payload (total : nat) (payload stored_checksum : bytes)
    : res CommitCodecError CommitEnvelope :=
  let? '(magic, r) := rd_take 4 payload in
  guard! bool_decide (magic = ENVELOPE_MAGIC) else BadMagic in
  let? '(codec_version, r) := rd_int 2 r in
  guard! (codec_version =? CODEC_VERSION)%N else UnsupportedCodec codec_version in
  let? '(envelope_len, r) := rd_int 4 r in
  guard! (envelope_len =? N.of_nat total)%N else InvalidLength in
  let? '(cell_id, r) := rd_take 16 r in
  let? '(tenant_id, r) := rd_take 16 r in
  let? '(generation, r) := rd_int 8 r in
  let? '(version, r) := rd_take 16 r in
  let version := version_from_be_bytes version in
  guard! negb (bool_decide (version = VERSION_ZERO))
         && (Version.generation version =? generation)%N else InvalidGenerationVersion in
  let? '(log_index, r) := rd_int 8 r in
  let? '(client_id, r) := rd_take 16 r in
  let? '(request_id, r) := rd_int 8 r in
  let? '(resolver_set_id, r) := rd_take 16 r in
  let? '(logical_fingerprint, r) := rd_take 32 r in
  let? '(read_conflicts, r) := rd_byte_vec r in
  let? '(write_conflicts, r) := rd_byte_vec r in
  let? '(canonical_mutations, r) := rd_byte_vec r in
  let? '(required_resolvers, r) := rd_u16_vec r in
  let? '(required_log_tags, r) := rd_u16_vec r in
  let? '(previous_log_chain, r) := rd_take 32 r in
  guard! bool_decide (r = []) else TrailingBytes in
  guard! negb (bool_decide (required_resolvers = []))
         && negb (bool_decide (required_log_tags = []))
         && strictly_sorted required_resolvers && strictly_sorted required_log_tags
    else InvalidSet in
  guard! bool_decide
      (fingerprint {| creq_cell_id := cell_id; creq_tenant_id := tenant_id;
                      creq_generation := generation; creq_client_id := client_id;
                      creq_request_id := request_id; creq_read_conflicts := read_conflicts;
                      creq_write_conflicts := write_conflicts;
                      creq_canonical_mutations := canonical_mutations |}
       = logical_fingerprint) else FingerprintMismatch in
  Ok {| env_codec_version := codec_version; env_envelope_len := envelope_len;
        env_cell_id := cell_id; env_tenant_id := tenant_id; env_generation := generation;
        env_version := version; env_log_index := log_index; env_client_id := client_id;
        env_request_id := request_id; env_resolver_set_id := resolver_set_id;
        env_logical_fingerprint := logical_fingerprint;
        env_read_conflicts := read_conflicts; env_write_conflicts := write_conflicts;
        env_canonical_mutations := canonical_mutations;
        env_required_resolvers := required_resolvers;
        env_required_log_tags := required_log_tags;
        env_previous_log_chain := previous_log_chain; env_checksum := stored_checksum |}.

Definition envelope_decode (bytes : bytes) : res CommitCodecError CommitEnvelope :=
  if length bytes <? 32 then Err Truncated
  else
    let payload := take (length bytes - 32) bytes in
    let stored_checksum := drop (length bytes - 32) bytes in
    guard! bool_decide (sha256 payload = stored_checksum) else ChecksumMismatch in
    decode_payload (length bytes) payload stored_checksum.
End envelope.
