(* ===== verification/EnvelopeCodec.v ===== *)
(** * The envelope codec

    The envelopes decoding accepts are the sealed, well-formed ones, each
    through exactly one byte string, and construction produces such envelopes
    without panicking whenever the lengths fit. *)

From S2P Require Import Prelude Order BTree Bytes Version Envelope.

(** ** The cursor reads what was written and nothing else *)
Lemma rd_take_app n x r : length x = n → rd_take n (x ++ r) = Ok (x, r).
Proof.
  intros <-. unfold rd_take. rewrite length_app, (proj2 (Nat.ltb_ge _ _)) by lia.
  by rewrite take_app_length, drop_app_length.
Qed.

Lemma rd_take_Ok n l x r : rd_take n l = Ok (x, r) → l = x ++ r ∧ length x = n.
Proof.
  unfold rd_take. destruct (length l <? n) eqn:E; [done|]. intros [= <- <-].
  apply Nat.ltb_ge in E. by rewrite take_drop, length_take_le.
Qed.

Lemma rd_int_app w v r :
  (v < 256 ^ N.of_nat w)%N → rd_int w (be w v ++ r) = Ok (v, r).
Proof. intros Hv. unfold rd_int. rewrite rd_take_app by apply length_be. simpl. by rewrite of_be_be. Qed.

Lemma rd_int_Ok w l v r :
  bytes_wf l → rd_int w l = Ok (v, r) → l = be w v ++ r ∧ (v < 256 ^ N.of_nat w)%N.
Proof.
  intros Hl. unfold rd_int. intros ([x r'] & Hx & [= <- <-])%res_bind_Ok.
  apply rd_take_Ok in Hx as [-> Hlen]. apply Forall_app in Hl as [Hx _].
  split; [by rewrite be_of_be_len|]. rewrite <-Hlen. by apply of_be_bound.
Qed.

Lemma U32_pow : (256 ^ N.of_nat 4 = U32_MAX + 1)%N.
Proof. done. Qed.
Lemma U16_pow : (256 ^ N.of_nat 2 = U16_MAX + 1)%N.
Proof. done. Qed.

Lemma push_byte_vec_Ok v b :
  push_byte_vec v = Ok b ↔ (len v ≤ U32_MAX)%N ∧ b = u32_be (len v) ++ v.
Proof.
  unfold push_byte_vec. destruct (_ <? _)%N eqn:E; destruct_bool_hyps.
  - split; [done|]. intros [? _]. lia.
  - split; [by intros [= <-]|by intros [_ ->]].
Qed.

Lemma rd_byte_vec_app v b r : push_byte_vec v = Ok b → rd_byte_vec (b ++ r) = Ok (v, r).
Proof.
  intros [Hv ->]%push_byte_vec_Ok. unfold rd_byte_vec, u32_be. rewrite <-app_assoc.
  rewrite rd_int_app by (rewrite U32_pow; lia). simpl. unfold len. rewrite Nat2N.id.
  by apply rd_take_app.
Qed.

Lemma rd_byte_vec_Ok l v r :
  bytes_wf l → rd_byte_vec l = Ok (v, r) → ∃ b, l = b ++ r ∧ push_byte_vec v = Ok b.
Proof.
  intros Hl. unfold rd_byte_vec. intros ([n r'] & Hn & Hr)%res_bind_Ok.
  apply rd_int_Ok in Hn as [-> Hn]; [|done]. simpl in Hr.
  apply rd_take_Ok in Hr as [-> Hlen]. exists (be 4 n ++ v). rewrite <-app_assoc.
  split; [done|]. apply push_byte_vec_Ok. rewrite U32_pow in Hn.
  assert (len v = n) as -> by (unfold len; lia). split; [lia|done].
Qed.

Lemma rd_u16s_app vs r :
  Forall (λ v, (v ≤ U16_MAX)%N) vs →
  rd_u16s (length vs) (concat (u16_be <$> vs) ++ r) = Ok (vs, r).
Proof.
  induction 1 as [|v vs Hv _ IH]; [done|]. cbn [length rd_u16s fmap list_fmap concat].
  unfold u16_be at 1. rewrite <-app_assoc, rd_int_app by (rewrite U16_pow; lia).
  simpl. by rewrite IH.
Qed.

Lemma rd_u16s_Ok n l vs r :
  bytes_wf l → rd_u16s n l = Ok (vs, r) →
  l = concat (u16_be <$> vs) ++ r ∧ length vs = n ∧ Forall (λ v, (v ≤ U16_MAX)%N) vs.
Proof.
  revert l vs r. induction n as [|n IH]; intros l vs r Hl; cbn [rd_u16s].
  { by intros [= <- <-]. }
  intros ([v r1] & Hv & ([vs1 r2] & Hvs & [= <- <-])%res_bind_Ok)%res_bind_Ok.
  apply rd_int_Ok in Hv as [-> Hv]; [|done]. apply Forall_app in Hl as [_ Hl].
  destruct (IH _ _ _ Hl Hvs) as (-> & <- & Hall). cbn [fmap list_fmap concat length].
  rewrite <-app_assoc. split_and!; [done..|]. constructor; [|done]. rewrite U16_pow in Hv. lia.
Qed.

Lemma push_u16_vec_Ok vs b :
  push_u16_vec vs = Ok b ↔
  (len vs ≤ U16_MAX)%N ∧ b = u16_be (len vs) ++ concat (u16_be <$> vs).
Proof.
  unfold push_u16_vec. destruct (_ <? _)%N eqn:E; destruct_bool_hyps.
  - split; [done|]. intros [? _]. lia.
  - split; [by intros [= <-]|by intros [_ ->]].
Qed.

Lemma rd_u16_vec_app vs b r :
  Forall (λ v, (v ≤ U16_MAX)%N) vs → push_u16_vec vs = Ok b → rd_u16_vec (b ++ r) = Ok (vs, r).
Proof.
  intros Hall [Hv ->]%push_u16_vec_Ok. unfold rd_u16_vec, u16_be at 1. rewrite <-app_assoc.
  rewrite rd_int_app by (rewrite U16_pow; lia). simpl. unfold len. rewrite Nat2N.id.
  by apply rd_u16s_app.
Qed.

Lemma rd_u16_vec_Ok l vs r :
  bytes_wf l → rd_u16_vec l = Ok (vs, r) →
  ∃ b, l = b ++ r ∧ push_u16_vec vs = Ok b ∧ Forall (λ v, (v ≤ U16_MAX)%N) vs.
Proof.
  intros Hl. unfold rd_u16_vec. intros ([n r'] & Hn & Hr)%res_bind_Ok.
  apply rd_int_Ok in Hn as [-> Hn]; [|done]. simpl in Hr. apply Forall_app in Hl as [_ Hl].
  apply rd_u16s_Ok in Hr as (-> & Hlen & Hall); [|done].
  exists (be 2 n ++ concat (u16_be <$> vs)). rewrite <-app_assoc. split_and!; [done| |done].
  apply push_u16_vec_Ok. rewrite U16_pow in Hn.
  assert (len vs = n) as -> by (unfold len; lia). split; [lia|done].
Qed.

(** ** Well-formed envelopes *)
Definition request_of (e : CommitEnvelope) : CommitRequest :=
  {| creq_cell_id := env_cell_id e; creq_tenant_id := env_tenant_id e;
     creq_generation := env_generation e; creq_client_id := env_client_id e;
     creq_request_id := env_request_id e; creq_read_conflicts := env_read_conflicts e;
     creq_write_conflicts := env_write_conflicts e;
     creq_canonical_mutations := env_canonical_mutations e |}.

Definition u16_set (vs : list N) : Prop :=
  vs ≠ [] ∧ strictly_sorted vs = true ∧ Forall (λ v, (v ≤ U16_MAX)%N) vs.

(** The fields fit their width and satisfy the structural checks. *)
Record fields_wf (e : CommitEnvelope) : Prop := {
  fw_codec : env_codec_version e = CODEC_VERSION;
  fw_cell : length (env_cell_id e) = 16;
  fw_tenant : length (env_tenant_id e) = 16;
  fw_client : length (env_client_id e) = 16;
  fw_set_id : length (env_resolver_set_id e) = 16;
  fw_chain : length (env_previous_log_chain e) = 32;
  fw_generation : u64_wf (env_generation e);
  fw_version : version_wf (env_version e);
  fw_nonzero : env_version e ≠ VERSION_ZERO;
  fw_bound : generation (env_version e) = env_generation e;
  fw_log_index : u64_wf (env_log_index e);
  fw_request : u64_wf (env_request_id e);
  fw_resolvers : u16_set (env_required_resolvers e);
  fw_tags : u16_set (env_required_log_tags e);
}.

Lemma encode_without_checksum_Ok e b :
  encode_without_checksum e = Ok b ↔
  ∃ br bw bm brs bts,
    push_byte_vec (env_read_conflicts e) = Ok br ∧
    push_byte_vec (env_write_conflicts e) = Ok bw ∧
    push_byte_vec (env_canonical_mutations e) = Ok bm ∧
    push_u16_vec (env_required_resolvers e) = Ok brs ∧
    push_u16_vec (env_required_log_tags e) = Ok bts ∧
    b = ENVELOPE_MAGIC ++ be 2 (env_codec_version e) ++ be 4 (env_envelope_len e) ++
        env_cell_id e ++ env_tenant_id e ++ be 8 (env_generation e) ++
        version_to_be_bytes (env_version e) ++ be 8 (env_log_index e) ++
        env_client_id e ++ be 8 (env_request_id e) ++ env_resolver_set_id e ++
        env_logical_fingerprint e ++ br ++ bw ++ bm ++ brs ++ bts ++ env_previous_log_chain e.
Proof.
  unfold encode_without_checksum. rewrite res_bind_Ok. setoid_rewrite res_bind_Ok.
  setoid_rewrite res_bind_Ok. setoid_rewrite res_bind_Ok. setoid_rewrite res_bind_Ok.
  split.
  - intros (br & ? & bw & ? & bm & ? & brs & ? & bts & ? & [= <-]). by eauto 20.
  - intros (br & bw & bm & brs & bts & ? & ? & ? & ? & ? & ->).
    do 5 (eexists; split; [done|]). done.
Qed.

Section codec.
Context (sha256 : bytes → bytes) (sha256_len : digest_len sha256).

(** Length, checksum and fingerprint bind the other fields. *)
Definition sealed (e : CommitEnvelope) : Prop :=
  env_logical_fingerprint e = fingerprint sha256 (request_of e) ∧
  ∃ payload, encode_without_checksum e = Ok payload ∧
    env_envelope_len e = (len payload + 32)%N ∧ (len payload + 32 ≤ U32_MAX)%N ∧
    env_checksum e = sha256 payload.

Lemma decode_payload_encode e payload :
  fields_wf e → env_logical_fingerprint e = fingerprint sha256 (request_of e) →
  encode_without_checksum e = Ok payload →
  env_envelope_len e = (len payload + 32)%N → (len payload + 32 ≤ U32_MAX)%N →
  decode_payload sha256 (length payload + 32) payload (env_checksum e) = Ok e.
Proof.
  intros Hwf Hfp Henc Hlen Hmax. destruct Hwf. unfold decode_payload.
  destruct fw_resolvers0 as (Hr1 & Hr2 & Hr3), fw_tags0 as (Ht1 & Ht2 & Ht3).
  assert (env_envelope_len e = N.of_nat (length payload + 32)) as Hlen'.
  { rewrite Hlen. unfold len. lia. }
  apply encode_without_checksum_Ok in Henc as (br & bw & bm & brs & bts & H1 & H2 & H3 & H4 & H5 & Hb).
  rewrite <-Hlen', Hb.
  rewrite rd_take_app by done. cbn [res_bind]. rewrite bool_decide_true by done.
  rewrite rd_int_app by by rewrite fw_codec0. cbn [res_bind].
  rewrite (proj2 (N.eqb_eq _ _) fw_codec0).
  rewrite rd_int_app by (rewrite U32_pow; lia). cbn [res_bind].
  rewrite N.eqb_refl.
  rewrite rd_take_app by done. cbn [res_bind]. rewrite rd_take_app by done. cbn [res_bind].
  rewrite rd_int_app by by apply u64_wf_pow. cbn [res_bind].
  rewrite rd_take_app by apply length_version_to_be_bytes. cbn [res_bind].
  rewrite version_from_to by done.
  rewrite bool_decide_false by done. rewrite (proj2 (N.eqb_eq _ _) fw_bound0). cbn [negb andb].
  rewrite rd_int_app by by apply u64_wf_pow. cbn [res_bind].
  rewrite rd_take_app by done. cbn [res_bind].
  rewrite rd_int_app by by apply u64_wf_pow. cbn [res_bind].
  rewrite rd_take_app by done. cbn [res_bind].
  rewrite rd_take_app by (rewrite Hfp; apply sha256_len). cbn [res_bind].
  rewrite (rd_byte_vec_app _ _ _ H1). cbn [res_bind].
  rewrite (rd_byte_vec_app _ _ _ H2). cbn [res_bind].
  rewrite (rd_byte_vec_app _ _ _ H3). cbn [res_bind].
  rewrite (rd_u16_vec_app _ _ _ Hr3 H4). cbn [res_bind].
  rewrite (rd_u16_vec_app _ _ _ Ht3 H5). cbn [res_bind].
  rewrite <-(app_nil_r (env_previous_log_chain e)), rd_take_app by done. cbn [res_bind].
  rewrite bool_decide_true by done.
  rewrite !bool_decide_false, Hr2, Ht2 by done. cbn [negb andb].
  rewrite bool_decide_true by by rewrite Hfp. by destruct e.
Qed.

Ltac rd_inv :=
  match goal with
  | H : res_bind (rd_take _ _) _ = Ok _ |- _ =>
      let x := fresh "x" in let r := fresh "r" in let Hl := fresh "Hl" in
      let Hx := fresh "Hx" in
      apply res_bind_Ok in H as ([x r] & Hx & H); apply rd_take_Ok in Hx as [-> Hl]
  | H : res_bind (rd_int _ _) _ = Ok _ |- _ =>
      let x := fresh "v" in let r := fresh "r" in let Hl := fresh "Hv" in
      let Hx := fresh "Hx" in
      apply res_bind_Ok in H as ([x r] & Hx & H); apply rd_int_Ok in Hx as [-> Hl]; [|done]
  | H : res_bind (rd_byte_vec _) _ = Ok _ |- _ =>
      let x := fresh "x" in let r := fresh "r" in let Hl := fresh "Hp" in
      let b := fresh "b" in let Hx := fresh "Hx" in
      apply res_bind_Ok in H as ([x r] & Hx & H); apply rd_byte_vec_Ok in Hx as (b & -> & Hl); [|done]
  | H : res_bind (rd_u16_vec _) _ = Ok _ |- _ =>
      let x := fresh "vs" in let r := fresh "r" in let Hl := fresh "Hp" in
      let Ha := fresh "Ha" in let b := fresh "b" in let Hx := fresh "Hx" in
      apply res_bind_Ok in H as ([x r] & Hx & H);
      apply rd_u16_vec_Ok in Hx as (b & -> & Hl & Ha); [|done]
  | H : (if ?c then _ else Err _) = Ok _ |- _ => destruct c eqn:?; [|discriminate H]
  | H : bytes_wf (_ ++ _) |- _ => apply Forall_app in H as [? H]
  end; cbn [res_bind] in *.

Lemma u64_wf_pow8 v : (v < 256 ^ N.of_nat 8)%N → u64_wf v.
Proof. apply u64_wf_pow. Qed.

Lemma version_from_wf l : length l = 16 → bytes_wf l → version_wf (version_from_be_bytes l).
Proof.
  intros Hl Hwf. unfold version_from_be_bytes. split; simpl; apply u64_wf_pow8;
    match goal with |- (of_be ?x < _)%N => pose proof (of_be_bound x) as Hb end;
    rewrite length_slice in Hb by (rewrite Hl; lia); apply Hb; by apply slice_wf.
Qed.

Lemma decode_payload_Ok total payload c e :
  bytes_wf payload → (N.of_nat total = len payload + 32)%N →
  decode_payload sha256 total payload c = Ok e →
  fields_wf e ∧ env_checksum e = c ∧
  env_logical_fingerprint e = fingerprint sha256 (request_of e) ∧
  encode_without_checksum e = Ok payload ∧
  env_envelope_len e = (len payload + 32)%N ∧ (len payload + 32 ≤ U32_MAX)%N.
Proof.
  intros Hwf Htot H. unfold decode_payload in H. set (n := len payload) in *. clearbody n.
  repeat rd_inv. destruct_bool_hyps. subst. injection H as <-.
  split_and!; cbn; try done; try lia.
  - constructor; cbn; try done; auto using u64_wf_pow8, version_from_wf; by repeat split.
  - apply encode_without_checksum_Ok. cbn. do 5 eexists. split_and!; try eassumption.
    rewrite version_to_from by done. by rewrite app_nil_r.
  - rewrite U32_pow in Hv0. lia.
Qed.

(** ** Construction *)
Definition payload_len (e : CommitEnvelope) : N :=
  194 + len (env_read_conflicts e) + len (env_write_conflicts e)
  + len (env_canonical_mutations e) + 2 * len (env_required_resolvers e)
  + 2 * len (env_required_log_tags e).

(** The lengths an envelope can hold. *)
Definition fits (e : CommitEnvelope) : Prop :=
  (payload_len e + 32 ≤ U32_MAX ∧ len (env_required_resolvers e) ≤ U16_MAX ∧
   len (env_required_log_tags e) ≤ U16_MAX)%N.

Lemma length_concat_u16 vs : length (concat (u16_be <$> vs)) = 2 * length vs.
Proof. induction vs as [|v vs IH]; [done|]. cbn [fmap list_fmap concat length]. rewrite length_app, IH, length_u16_be. lia. Qed.

(** The fixed-width fields have their width. *)
Definition lengths_wf (e : CommitEnvelope) : Prop :=
  length (env_cell_id e) = 16 ∧ length (env_tenant_id e) = 16 ∧
  length (env_client_id e) = 16 ∧ length (env_resolver_set_id e) = 16 ∧
  length (env_previous_log_chain e) = 32 ∧ length (env_logical_fingerprint e) = 32.

Lemma encode_fits e :
  lengths_wf e → fits e → ∃ b, encode_without_checksum e = Ok b ∧ len b = payload_len e.
Proof.
  intros (Hcell & Htenant & Hclient & Hset & Hchain & Hfp) (Hfit & Hrs & Hts).
  unfold payload_len in Hfit. eexists. split.
  - apply encode_without_checksum_Ok. do 5 eexists. split_and!; try reflexivity.
    1-3: apply push_byte_vec_Ok; split; [lia|reflexivity].
    all: apply push_u16_vec_Ok; by split.
  - unfold payload_len, len. autorewrite with len_simpl. rewrite !length_concat_u16.
    rewrite Hcell, Htenant, Hclient, Hset, Hchain, Hfp.
    change (length ENVELOPE_MAGIC) with 4. lia.
Qed.

Definition sealed_as (e e' : CommitEnvelope) : Prop :=
  ∃ l c, e' = with_checksum (with_len e l) c.

(** Sealing needs the widths and lengths only. *)
Lemma seal_total e :
  lengths_wf e → fits e →
  ∃ b b1, encode_without_checksum e = Ok b ∧ len b = payload_len e ∧
    encode_without_checksum (with_len e (len b + 32)) = Ok b1 ∧ len b1 = payload_len e ∧
    seal sha256 e = Ok (with_checksum (with_len e (len b + 32)) (sha256 b1)).
Proof.
  intros Hl Hfit. destruct (encode_fits e) as (b & Hb & Hlen); [done..|].
  destruct (encode_fits (with_len e (len b + 32))) as (b1 & Hb1 & Hlen1); [done..|].
  exists b, b1. split_and!; [done..|]. unfold seal. rewrite Hb. simpl.
  destruct Hfit as [Hfit _]. rewrite (proj2 (N.ltb_ge _ _)) by lia. by rewrite Hb1.
Qed.

Lemma seal_fits e :
  fields_wf e → env_logical_fingerprint e = fingerprint sha256 (request_of e) → fits e →
  ∃ e', seal sha256 e = Ok e' ∧ sealed_as e e' ∧ fields_wf e' ∧ sealed e'.
Proof.
  intros Hwf Hfp Hfit.
  assert (lengths_wf e) as Hl.
  { destruct Hwf. split_and!; [done..|]. rewrite Hfp. apply sha256_len. }
  destruct (seal_total e Hl Hfit) as (b & b1 & Hb & Hlen & Hb1 & Hlen1 & Hs).
  rewrite Hs. eexists. split_and!; [done|by eexists _, _|by destruct Hwf; constructor|].
  destruct Hfit as [Hfit _]. split; [done|]. exists b1. split_and!; [done| |lia|done]. cbn. lia.
Qed.

(** The envelope a construction asks for, before it is sealed. *)
Definition parts_envelope (p : CommitEnvelopeParts) : CommitEnvelope :=
  {| env_codec_version := CODEC_VERSION; env_envelope_len := 0;
     env_cell_id := part_cell_id p; env_tenant_id := part_tenant_id p;
     env_generation := part_generation p; env_version := part_version p;
     env_log_index := part_log_index p; env_client_id := part_client_id p;
     env_request_id := part_request_id p; env_resolver_set_id := part_resolver_set_id p;
     env_logical_fingerprint :=
       fingerprint sha256
         {| creq_cell_id := part_cell_id p; creq_tenant_id := part_tenant_id p;
            creq_generation := part_generation p; creq_client_id := part_client_id p;
            creq_request_id := part_request_id p; creq_read_conflicts := part_read_conflicts p;
            creq_write_conflicts := part_write_conflicts p;
            creq_canonical_mutations := part_canonical_mutations p |};
     env_read_conflicts := part_read_conflicts p; env_write_conflicts := part_write_conflicts p;
     env_canonical_mutations := part_canonical_mutations p;
     env_required_resolvers := part_required_resolvers p;
     env_required_log_tags := part_required_log_tags p;
     env_previous_log_chain := part_previous_log_chain p; env_checksum := replicate 32 0%N |}.

(** [new] seals with the two default resolvers before [from_parts] replaces
    them, so the lengths must fit with those too. *)
Definition parts_fit (p : CommitEnvelopeParts) : Prop :=
  fits (parts_envelope p) ∧
  fits (with_resolvers (parts_envelope p) SIM_RESOLVER_SET_ID SIM_REQUIRED_RESOLVERS).

Lemma from_parts_fits p :
  fields_wf (parts_envelope p) → parts_fit p →
  ∃ e, from_parts sha256 p = Ok e ∧ sealed_as (parts_envelope p) e ∧ fields_wf e ∧ sealed e.
Proof.
  intros Hwf [Hfit Hfit0]. unfold from_parts, envelope_new. cbn [creq_cell_id creq_tenant_id
    creq_generation creq_client_id creq_request_id creq_read_conflicts creq_write_conflicts
    creq_canonical_mutations].
  match goal with |- context [seal sha256 ?e] =>
    destruct (seal_fits e) as (e1 & -> & (l & c & ->) & _ & _) end.
  - destruct Hwf; constructor; cbn; try done. split_and!; [done..|].
    repeat constructor; unfold U16_MAX; lia.
  - done.
  - done.
  - cbn [res_bind].
    match goal with |- context [seal sha256 ?e] =>
      destruct (seal_fits e) as (e2 & -> & (l2 & c2 & ->) & Hwf2 & Hs2) end; [by destruct Hwf; constructor|done..|].
    eexists. split_and!; [done| |done..]. by exists l2, c2.
Qed.

Lemma encode_with_checksum e c :
  encode_without_checksum (with_checksum e c) = encode_without_checksum e.
Proof. by destruct e. Qed.

Lemma from_parts_total p :
  lengths_wf (parts_envelope p) → parts_fit p →
  ∃ e b, from_parts sha256 p = Ok e ∧ sealed_as (parts_envelope p) e ∧ envelope_encode e = Ok b.
Proof.
  intros (? & ? & ? & ? & ? & ?) [Hfit Hfit0]. unfold from_parts, envelope_new. cbn [creq_cell_id
    creq_tenant_id creq_generation creq_client_id creq_request_id creq_read_conflicts
    creq_write_conflicts creq_canonical_mutations].
  match goal with |- context [seal sha256 ?e] =>
    destruct (seal_total e) as (b0 & b1 & _ & _ & _ & _ & ->) end;
    [by repeat split|done|]. cbn [res_bind].
  match goal with |- context [seal sha256 ?e] =>
    destruct (seal_total e) as (b2 & b3 & _ & _ & Hb3 & _ & ->) end;
    [by repeat split|done|].
  eexists _, _. split; [done|]. split; [by eexists _, _|]. unfold envelope_encode.
  by rewrite encode_with_checksum, Hb3.
Qed.

Lemma decode_encode e b :
  fields_wf e → sealed e → envelope_encode e = Ok b → envelope_decode sha256 b = Ok e.
Proof.
  intros Hwf (Hfp & payload & Henc & Hlen & Hmax & Hc). unfold envelope_encode.
  rewrite Henc. simpl. intros [= <-].
  assert (length (env_checksum e) = 32) as Hc32 by (rewrite Hc; apply sha256_len).
  unfold envelope_decode. rewrite length_app, Hc32.
  rewrite (proj2 (Nat.ltb_ge _ _)) by lia.
  replace (length payload + 32 - 32) with (length payload) by lia.
  rewrite take_app_length, drop_app_length, bool_decide_true by done.
  by apply decode_payload_encode.
Qed.

Lemma decode_Ok b e :
  bytes_wf b → envelope_decode sha256 b = Ok e →
  fields_wf e ∧ sealed e ∧ envelope_encode e = Ok b.
Proof.
  intros Hb. unfold envelope_decode. destruct (length b <? 32) eqn:E; [done|].
  apply Nat.ltb_ge in E. case_bool_decide as Hsha; [|done]. intros Hd.
  apply decode_payload_Ok in Hd as (Hwf & Hc & Hfp & Henc & Hlen & Hmax).
  - split_and!; [done| |].
    + split; [done|]. eexists. split_and!; [done..|]. by rewrite Hc, Hsha.
    + unfold envelope_encode. rewrite Henc. simpl. by rewrite Hc, take_drop.
  - by apply Forall_take.
  - unfold len. rewrite length_take_le by lia. lia.
Qed.
End codec.

(** C36. The commit envelope codec is exact. Constructing an envelope from
    parts whose lengths fit never panics, keeps every part and gives an envelope
    that can be encoded. What was encoded decodes to itself exactly when the
    fields fit their width, the version is a non-zero version of its generation
    and the resolver and tag sets are non-empty and strictly sorted; construction
    does not check the latter, so an envelope of unsorted resolvers is written
    and cannot be read. Decoding accepts a byte string exactly when it is the
    encoding of such an envelope whose length, fingerprint and checksum are those
    of its contents: no two byte strings decode to the same envelope. *)
Theorem envelope_codec_exact (sha256 : bytes → bytes) :
  digest_len sha256 →
  (∀ p, lengths_wf (parts_envelope sha256 p) → parts_fit sha256 p →
    ∃ e b, from_parts sha256 p = Ok e ∧ sealed_as (parts_envelope sha256 p) e ∧
      envelope_encode e = Ok b ∧
      (fields_wf (parts_envelope sha256 p) → envelope_decode sha256 b = Ok e) ∧
      (bytes_wf b → envelope_decode sha256 b = Ok e → fields_wf (parts_envelope sha256 p))) ∧
  (∀ b e, bytes_wf b →
    envelope_decode sha256 b = Ok e ↔
      fields_wf e ∧ sealed sha256 e ∧ envelope_encode e = Ok b).
Proof.
  intros Hsha. split.
  - intros p Hl Hfit. destruct (from_parts_total sha256 p Hl Hfit) as (e & b & He & Has & Henc).
    exists e, b. split_and!; [done..| |].
    + intros Hwf. destruct (from_parts_fits sha256 Hsha p Hwf Hfit) as (e' & He' & _ & Hewf & Hseal).
      rewrite He in He'. injection He' as <-. by apply decode_encode.
    + intros Hb Hd. apply decode_Ok in Hd as [Hwf _]; [|done].
      destruct Has as (l & c & ->). destruct Hwf. by constructor.
  - intros b e Hb. split; [by apply decode_Ok|]. intros (Hwf & Hs & Henc).
    by apply decode_encode.
Qed.

(** *** A concrete envelope *)
Module demo_envelope.
Definition parts : CommitEnvelopeParts :=
  {| part_cell_id := replicate 16 17%N; part_tenant_id := replicate 16 34%N;
     part_generation := 3; part_version := Version.from_parts 3 9; part_log_index := 7;
     part_client_id := replicate 16 1%N; part_request_id := 5;
     part_resolver_set_id := replicate 16 51%N;
     part_read_conflicts := [1; 2]%N; part_write_conflicts := []; part_canonical_mutations := [255]%N;
     part_required_resolvers := [1; 2; 3]%N; part_required_log_tags := [10; 20]%N;
     part_previous_log_chain := replicate 32 68%N |}.

Lemma parts_ok : fields_wf (parts_envelope prefix_digest parts) ∧ parts_fit prefix_digest parts.
Proof.
  split.
  - constructor; cbn; try done; unfold u64_wf, version_wf, U64_MAX; cbn; try lia.
    all: repeat split; try done; repeat constructor; unfold U16_MAX, u64_wf, U64_MAX; cbn; lia.
  - repeat split; vm_compute; done.
Qed.
End demo_envelope.

(** The codec on a concrete envelope. *)
Lemma envelope_codec_exact_witness :
  ∃ e b, from_parts prefix_digest demo_envelope.parts = Ok e ∧
    envelope_encode e = Ok b ∧ envelope_decode prefix_digest b = Ok e ∧
    env_required_resolvers e = [1; 2; 3]%N.
Proof.
  destruct (envelope_codec_exact prefix_digest prefix_digest_len) as [Hbuild _].
  destruct (Hbuild demo_envelope.parts ltac:(repeat split) (proj2 demo_envelope.parts_ok))
    as (e & b & He & (l & c & Has) & Henc & Hdec & _).
  exists e, b. split; [exact He|]. split; [exact Henc|].
  split; [exact (Hdec (proj1 demo_envelope.parts_ok))|].
  rewrite Has. reflexivity.
Defined.
