(* ===== verification/Generation.v ===== *)
(** * The generation authority

    [okv-consensus/src/generation.rs]: the coordinator-owned descriptor of the
    active transaction system of a cell, the certificates by which a data
    quorum fences the old generation and proves recovery of the new one, and
    routine replacement of one voter inside a generation. Every action is one
    definition; [generation_apply] dispatches as the code does. *)

From S2P Require Import Prelude Order BTree Bytes Quorum.
From coqutil Require Export Datatypes.RecordSetters.
Export OCamlLikeNotations.

Definition RECOVERY_CERTIFICATE_MAGIC : bytes :=
  string_bytes "OKV-RECOVERY-CERTIFICATE-V1" ++ [0%N].
Definition RECOVERY_CERTIFICATE_VERSION : N := 1.
Definition ROUTINE_CERTIFICATE_MAGIC : bytes :=
  string_bytes "OKV-ROUTINE-RECONFIGURATION-CERTIFICATE-V1" ++ [0%N].
Definition ROUTINE_CERTIFICATE_VERSION : N := 1.
Definition ZERO16 : bytes := replicate 16 0%N.

(** ** Data *)
Record RecoveryLogPosition := { rlp_term : N; rlp_index : N }.
#[global] Instance RecoveryLogPosition_eq_dec : EqDecision RecoveryLogPosition.
Proof. solve_decision. Defined.

Inductive RecoveryCertificateKind := KFence | KRecovered.
#[global] Instance RecoveryCertificateKind_eq_dec : EqDecision RecoveryCertificateKind.
Proof. solve_decision. Defined.

Record RecoveryCertificateStatement := {
  rs_protocol_version : N;
  rs_kind : RecoveryCertificateKind;
  rs_cell_id : N;
  rs_generation : N;
  rs_recovery_id : N;
  rs_active_transaction_system_id : string;
  rs_pending_transaction_system_id : string;
  rs_log_position : RecoveryLogPosition;
  rs_membership_sha256 : bytes;
}.

Record RecoveryAttestation := { ra_signer_id : N; ra_signature : bytes }.

Record RecoveryCertificate := {
  rcert_statement : RecoveryCertificateStatement;
  rcert_attestations : list RecoveryAttestation;
}.

Inductive RoutineReconfigurationCertificateKind := KLearnerReady | KMembershipCommitted.
#[global] Instance RoutineKind_eq_dec : EqDecision RoutineReconfigurationCertificateKind.
Proof. solve_decision. Defined.

Record RoutineReconfigurationCertificateStatement := {
  rrs_protocol_version : N;
  rrs_kind : RoutineReconfigurationCertificateKind;
  rrs_cell_id : N;
  rrs_generation : N;
  rrs_membership_epoch : N;
  rrs_reconfiguration_id : N;
  rrs_transaction_system_id : string;
  rrs_old_membership_sha256 : bytes;
  rrs_next_membership_sha256 : bytes;
  rrs_replacement_node : N;
  rrs_replacement_incarnation : bytes;
  rrs_snapshot_position : RecoveryLogPosition;
  rrs_applied_position : RecoveryLogPosition;
}.
#[global] Instance RoutineStatement_eq_dec :
  EqDecision RoutineReconfigurationCertificateStatement.
Proof. solve_decision. Defined.

Record RoutineReconfigurationCertificate := {
  rrc_statement : RoutineReconfigurationCertificateStatement;
  rrc_attestations : list RecoveryAttestation;
}.

Inductive GenerationPhase := Uninitialized | Active | Fencing | Recovering.
#[global] Instance GenerationPhase_eq_dec : EqDecision GenerationPhase.
Proof. solve_decision. Defined.

Inductive RoutineReconfigurationPhase := Prepared | LearnerReady.
#[global] Instance RoutinePhase_eq_dec : EqDecision RoutineReconfigurationPhase.
Proof. solve_decision. Defined.

Record PendingRoutineReconfiguration := {
  prr_reconfiguration_id : N;
  prr_expected_membership_epoch : N;
  prr_phase : RoutineReconfigurationPhase;
  prr_replacement_node : N;
  prr_replacement_incarnation : bytes;
  prr_next_members : gmap N bytes;
  prr_next_incarnations : gmap N bytes;
  prr_learner_snapshot_position : option RecoveryLogPosition;
  prr_learner_applied_position : option RecoveryLogPosition;
}.
#[global] Instance PendingRoutine_eq_dec : EqDecision PendingRoutineReconfiguration.
Proof. solve_decision. Defined.

Record CompletedRoutineReconfiguration := {
  crr_reconfiguration_id : N;
  crr_membership_epoch : N;
  crr_membership_sha256 : bytes;
  crr_membership_position : RecoveryLogPosition;
  crr_certificate_sha256 : bytes;
}.

Record GenerationAuthorityState := {
  ga_cell_id : N;
  ga_generation : N;
  ga_phase : GenerationPhase;
  ga_recovery_id : option N;
  ga_transaction_system_id : option string;
  ga_pending_transaction_system_id : option string;
  ga_transaction_system_members : gmap N bytes;
  ga_transaction_system_incarnations : gmap N bytes;
  ga_pending_transaction_system_members : gmap N bytes;
  ga_pending_transaction_system_incarnations : gmap N bytes;
  ga_wal_root : option string;
  ga_control_root_version : N;
  ga_fenced_log_index : N;
  ga_recovered_log_index : N;
  ga_fenced_log_position : option RecoveryLogPosition;
  ga_recovered_log_position : option RecoveryLogPosition;
  ga_last_completed_generation : N;
  ga_last_completed_recovery_id : option N;
  ga_membership_epoch : N;
  ga_pending_reconfiguration : option PendingRoutineReconfiguration;
  ga_completed_reconfigurations : gmap N CompletedRoutineReconfiguration;
}.

Definition GenerationAuthorityState_default : GenerationAuthorityState :=
  {| ga_cell_id := 0; ga_generation := 0; ga_phase := Uninitialized; ga_recovery_id := None;
     ga_transaction_system_id := None; ga_pending_transaction_system_id := None;
     ga_transaction_system_members := ∅; ga_transaction_system_incarnations := ∅;
     ga_pending_transaction_system_members := ∅;
     ga_pending_transaction_system_incarnations := ∅;
     ga_wal_root := None; ga_control_root_version := 0; ga_fenced_log_index := 0;
     ga_recovered_log_index := 0; ga_fenced_log_position := None;
     ga_recovered_log_position := None; ga_last_completed_generation := 0;
     ga_last_completed_recovery_id := None; ga_membership_epoch := 0;
     ga_pending_reconfiguration := None; ga_completed_reconfigurations := ∅ |}.

Inductive GenerationAction :=
  | Bootstrap (cell_id generation : N) (transaction_system_id : string)
      (transaction_system_members transaction_system_incarnations : gmap N bytes)
      (wal_root : string) (control_root_version : N)
  | PrepareGeneration (expected_generation next_generation expected_control_root_version
      recovery_id : N) (next_transaction_system_id : string)
      (next_transaction_system_members next_transaction_system_incarnations : gmap N bytes)
  | ReserveGeneration (generation recovery_id : N) (transaction_system_id : string)
      (expected_control_root_version : N) (certificate : option RecoveryCertificate)
  | ActivateGeneration (generation recovery_id : N) (transaction_system_id wal_root : string)
      (expected_control_root_version next_control_root_version : N)
      (certificate : option RecoveryCertificate)
  | PrepareRoutineReconfiguration (expected_generation expected_membership_epoch : N)
      (expected_membership_sha256 : bytes) (reconfiguration_id replacement_node : N)
      (replacement_incarnation : bytes)
      (next_transaction_system_members next_transaction_system_incarnations : gmap N bytes)
  | MarkRoutineLearnerReady (generation membership_epoch reconfiguration_id : N)
      (certificate : option RoutineReconfigurationCertificate)
  | FinalizeRoutineReconfiguration (generation expected_membership_epoch
      reconfiguration_id : N) (certificate : option RoutineReconfigurationCertificate).

Inductive GenerationCommandStatus :=
  | GenAccepted
  | StaleGeneration
  | CompareFailed
  | RecoveryConflict
  | MissingRecoveryProof
  | InvalidRecoveryProof
  | StaleMembershipEpoch
  | ReconfigurationConflict
  | MissingRoutineProof
  | InvalidRoutineProof
  | InvalidPhase
  | GenInvalidRequest.
#[global] Instance GenerationCommandStatus_eq_dec : EqDecision GenerationCommandStatus.
Proof. solve_decision. Defined.

Record GenerationAuthorityFaults := {
  accept_competing_recovery : bool;
  activate_without_recovery_proof : bool;
  accept_invalid_recovery_certificate : bool;
}.
Definition no_authority_faults : GenerationAuthorityFaults :=
  {| accept_competing_recovery := false; activate_without_recovery_proof := false;
     accept_invalid_recovery_certificate := false |}.

(** ** What the authority authorizes *)
Definition authorizes (s : GenerationAuthorityState) (generation : N)
    (transaction_system_id : string) : bool :=
  bool_decide (ga_phase s = Active) && (ga_generation s =? generation)%N
  && bool_decide (ga_transaction_system_id s = Some transaction_system_id).

Definition authorizes_node s (generation : N) (transaction_system_id : string) (node_id : N)
    : bool :=
  authorizes s generation transaction_system_id
  && is_some (ga_transaction_system_members s !! node_id).

Definition authorizes_routine_learner s (generation membership_epoch reconfiguration_id
    node_id : N) (storage_incarnation : bytes) : bool :=
  bool_decide (ga_phase s = Active) && (ga_generation s =? generation)%N
  && (ga_membership_epoch s =? membership_epoch)%N
  && match ga_pending_reconfiguration s with
     | Some pending =>
         (prr_reconfiguration_id pending =? reconfiguration_id)%N
         && (prr_replacement_node pending =? node_id)%N
         && bool_decide (prr_replacement_incarnation pending = storage_incarnation)
         && match prr_phase pending with Prepared | LearnerReady => true end
     | None => false
     end.

Definition authorizes_routine_membership s (generation membership_epoch
    reconfiguration_id : N) (voters : gset N) : bool :=
  bool_decide (ga_phase s = Active) && (ga_generation s =? generation)%N
  && (ga_membership_epoch s =? membership_epoch)%N
  && match ga_pending_reconfiguration s with
     | Some pending =>
         (prr_reconfiguration_id pending =? reconfiguration_id)%N
         && bool_decide (prr_phase pending = LearnerReady)
         && bool_decide (dom (prr_next_members pending) = voters)
     | None => false
     end.

Definition authorizes_recovery s (generation recovery_id : N)
    (pending_transaction_system_id : string) : bool :=
  bool_decide (ga_phase s = Recovering) && (ga_generation s =? generation)%N
  && bool_decide (ga_recovery_id s = Some recovery_id)
  && bool_decide (ga_pending_transaction_system_id s = Some pending_transaction_system_id).

Definition authorizes_fencing s (generation recovery_id : N)
    (pending_transaction_system_id : string) : bool :=
  bool_decide (ga_phase s = Fencing) && (ga_generation s =? generation)%N
  && bool_decide (ga_recovery_id s = Some recovery_id)
  && bool_decide (ga_pending_transaction_system_id s = Some pending_transaction_system_id).

(** ** Memberships *)
Definition quorum_size (member_count : nat) : nat := member_count / 2 + 1.

(** [members.iter().all(f)]. *)
Definition map_all {V} (f : N → V → bool) (m : gmap N V) : bool :=
  forallb (λ e, f e.1 e.2) (bt_items m).

Definition valid_recovery_members (members : gmap N bytes) : bool :=
  negb (bool_decide (members = ∅))
  && map_all (λ node_id public_key, negb (node_id =? 0)%N && (length public_key =? 32)) members.

Definition valid_routine_members (members incarnations : gmap N bytes) : bool :=
  valid_recovery_members members
  && bool_decide ((bt_items members).*1 = (bt_items incarnations).*1)
  && map_all (λ _ incarnation, negb (bool_decide (incarnation = ZERO16))) incarnations.

Definition valid_members_with_optional_incarnations (members incarnations : gmap N bytes) : bool :=
  valid_recovery_members members
  && (bool_decide (incarnations = ∅) || valid_routine_members members incarnations).

(** The keys of [m1] that [m2] lacks. *)
Definition keys_without {V W} (m1 : gmap N V) (m2 : gmap N W) : list N :=
  List.filter (λ node_id, negb (is_some (m2 !! node_id))) (bt_items m1).*1.

Definition valid_routine_replacement (old_members old_incarnations next_members
    next_incarnations : gmap N bytes) (replacement_node : N)
    (replacement_incarnation : bytes) : bool :=
  if negb (valid_routine_members old_members old_incarnations)
     || negb (valid_routine_members next_members next_incarnations)
     || negb (size old_members =? size next_members)
     || is_some (old_members !! replacement_node)
     || negb (bool_decide (next_incarnations !! replacement_node
                           = Some replacement_incarnation))
     || negb (map_all (λ _ incarnation,
                negb (bool_decide (incarnation = replacement_incarnation))) old_incarnations)
  then false
  else
    (length (keys_without old_members next_members) =? 1)
    && (length (keys_without next_members old_members) =? 1)
    && is_some (next_members !! replacement_node).

Section generation.
Context (sha256 : bytes → bytes).
Context `{Ed25519}.
Context `{Serialize RecoveryCertificateStatement}.
Context `{Serialize RoutineReconfigurationCertificateStatement}.
Implicit Types s : GenerationAuthorityState.

(** ** Certificates *)
Definition recovery_signing_bytes (st : RecoveryCertificateStatement) : option bytes :=
  (λ json, RECOVERY_CERTIFICATE_MAGIC ++ json) <$> to_vec st.

Definition routine_signing_bytes (st : RoutineReconfigurationCertificateStatement)
    : option bytes :=
  (λ json, ROUTINE_CERTIFICATE_MAGIC ++ json) <$> to_vec st.

Definition routine_membership_digest (members incarnations : gmap N bytes) : bytes :=
  sha256 (string_bytes "OKV-ROUTINE-MEMBERSHIP-V1" ++ [0%N] ++
          u64_be (N.of_nat (size members)) ++
          concat ((λ e, u64_be e.1 ++ u64_be (len e.2) ++ e.2 ++
                        default [] (incarnations !! e.1)) <$> bt_items members)).

Definition recovery_membership_digest (members : gmap N bytes) : bytes :=
  sha256 (string_bytes "OKV-RECOVERY-MEMBERSHIP-V1" ++ [0%N] ++
          u64_be (N.of_nat (size members)) ++
          concat ((λ e, u64_be e.1 ++ u64_be (len e.2) ++ e.2) <$> bt_items members)).

Definition recovery_statement_new (kind : RecoveryCertificateKind) s
    (log_position : RecoveryLogPosition) (members : gmap N bytes)
    : RecoveryCertificateStatement :=
  {| rs_protocol_version := RECOVERY_CERTIFICATE_VERSION; rs_kind := kind;
     rs_cell_id := ga_cell_id s; rs_generation := ga_generation s;
     rs_recovery_id := default 0%N (ga_recovery_id s);
     rs_active_transaction_system_id := default "" (ga_transaction_system_id s);
     rs_pending_transaction_system_id := default "" (ga_pending_transaction_system_id s);
     rs_log_position := log_position;
     rs_membership_sha256 := recovery_membership_digest members |}.

Definition routine_statement_new (kind : RoutineReconfigurationCertificateKind) s
    (snapshot_position applied_position : RecoveryLogPosition)
    : option RoutineReconfigurationCertificateStatement :=
  match ga_pending_reconfiguration s with
  | None => None
  | Some pending =>
      Some {| rrs_protocol_version := ROUTINE_CERTIFICATE_VERSION; rrs_kind := kind;
              rrs_cell_id := ga_cell_id s; rrs_generation := ga_generation s;
              rrs_membership_epoch := ga_membership_epoch s;
              rrs_reconfiguration_id := prr_reconfiguration_id pending;
              rrs_transaction_system_id := default "" (ga_transaction_system_id s);
              rrs_old_membership_sha256 :=
                routine_membership_digest (ga_transaction_system_members s)
                  (ga_transaction_system_incarnations s);
              rrs_next_membership_sha256 :=
                routine_membership_digest (prr_next_members pending)
                  (prr_next_incarnations pending);
              rrs_replacement_node := prr_replacement_node pending;
              rrs_replacement_incarnation := prr_replacement_incarnation pending;
              rrs_snapshot_position := snapshot_position;
              rrs_applied_position := applied_position |}
  end.

(** The signature check of one attestation against a member map. *)
Definition signed_by (members : N → option bytes) (message : bytes)
    (a : RecoveryAttestation) : bool :=
  match members (ra_signer_id a) with
  | Some public_key => ed25519_verify public_key message (ra_signature a)
  | None => false
  end.

Definition verify_recovery_certificate s (certificate : RecoveryCertificate)
    (expected_kind : RecoveryCertificateKind) (members : gmap N bytes) : bool :=
  let statement := rcert_statement certificate in
  if negb (rs_protocol_version statement =? RECOVERY_CERTIFICATE_VERSION)%N
     || negb (bool_decide (rs_kind statement = expected_kind))
     || negb (rs_cell_id statement =? ga_cell_id s)%N
     || negb (rs_generation statement =? ga_generation s)%N
     || negb (bool_decide (Some (rs_recovery_id statement) = ga_recovery_id s))
     || negb (bool_decide (Some (rs_active_transaction_system_id statement)
                           = ga_transaction_system_id s))
     || negb (bool_decide (Some (rs_pending_transaction_system_id statement)
                           = ga_pending_transaction_system_id s))
     || (rlp_index (rs_log_position statement) =? 0)%N
     || negb (valid_recovery_members members)
     || negb (bool_decide (rs_membership_sha256 statement
                           = recovery_membership_digest members))
  then false
  else if bool_decide (expected_kind = KRecovered)
          && (rlp_index (rs_log_position statement) <=? ga_fenced_log_index s)%N
  then false
  else
    match recovery_signing_bytes statement with
    | None => false
    | Some message =>
        attested ra_signer_id (signed_by (λ n, members !! n) message)
          (rcert_attestations certificate) (quorum_size (size members))
    end.

Definition count_in {V} (members : gmap N V) (signers : gset N) : nat :=
  length (List.filter (λ node_id, is_some (members !! node_id)) (bts_items signers)).

Definition verify_routine_certificate s (certificate : RoutineReconfigurationCertificate)
    (expected_kind : RoutineReconfigurationCertificateKind) : bool :=
  match ga_pending_reconfiguration s with
  | None => false
  | Some pending =>
      let statement := rrc_statement certificate in
      let expected := routine_statement_new expected_kind s
                        (rrs_snapshot_position statement) (rrs_applied_position statement) in
      if negb (bool_decide (expected = Some statement))
         || (rlp_index (rrs_snapshot_position statement) =? 0)%N
         || (rlp_index (rrs_applied_position statement)
             <? rlp_index (rrs_snapshot_position statement))%N
      then false
      else if bool_decide (expected_kind = KMembershipCommitted)
              && match prr_learner_applied_position pending with
                 | None => true
                 | Some position =>
                     (rlp_index (rrs_applied_position statement) <=? rlp_index position)%N
                 end
      then false
      else
        match routine_signing_bytes statement with
        | None => false
        | Some message =>
            let key node_id :=
              match ga_transaction_system_members s !! node_id with
              | Some public_key => Some public_key
              | None => prr_next_members pending !! node_id
              end in
            match attest_loop ra_signer_id (signed_by key message)
                    (rrc_attestations certificate) ∅ with
            | None => false
            | Some distinct_signers =>
                match expected_kind with
                | KLearnerReady =>
                    bool_decide (prr_replacement_node pending ∈ distinct_signers)
                    && (quorum_size (size (ga_transaction_system_members s))
                        <=? count_in (ga_transaction_system_members s) distinct_signers)
                | KMembershipCommitted =>
                    quorum_size (size (prr_next_members pending))
                    <=? count_in (prr_next_members pending) distinct_signers
                end
            end
        end
  end.

Definition routine_certificate_digest (certificate : RoutineReconfigurationCertificate)
    : option bytes :=
  sha256 <$> routine_signing_bytes (rrc_statement certificate).

Definition verify_routine_quorum (certificate : RoutineReconfigurationCertificate)
    (members : gmap N bytes) : bool :=
  match routine_signing_bytes (rrc_statement certificate) with
  | None => false
  | Some message =>
      attested ra_signer_id (signed_by (λ n, members !! n) message)
        (rrc_attestations certificate) (quorum_size (size members))
  end.

(** ** Actions

    An action returns the state it leaves and its status; [Panic] is a failed
    [expect]. *)
Abbreviation gen_reply := (res Empty_set (GenerationAuthorityState * GenerationCommandStatus)).

Definition gen_bootstrap s (cell_id generation : N) (transaction_system_id : string)
    (members incarnations : gmap N bytes) (wal_root : string) (control_root_version : N)
    : gen_reply :=
  if negb (bool_decide (ga_phase s = Uninitialized)) || (cell_id =? 0)%N
     || (generation =? 0)%N || str_is_empty transaction_system_id
     || negb (valid_members_with_optional_incarnations members incarnations)
     || str_is_empty wal_root || (control_root_version =? 0)%N
  then Ok (s, InvalidPhase)
  else
    Ok ({| ga_cell_id := cell_id; ga_generation := generation; ga_phase := Active;
           ga_recovery_id := None; ga_transaction_system_id := Some transaction_system_id;
           ga_pending_transaction_system_id := None;
           ga_transaction_system_members := members;
           ga_transaction_system_incarnations := incarnations;
           ga_pending_transaction_system_members := ∅;
           ga_pending_transaction_system_incarnations := ∅;
           ga_wal_root := Some wal_root; ga_control_root_version := control_root_version;
           ga_fenced_log_index := 0; ga_recovered_log_index := 0;
           ga_fenced_log_position := None; ga_recovered_log_position := None;
           ga_last_completed_generation := generation; ga_last_completed_recovery_id := None;
           ga_membership_epoch := 0; ga_pending_reconfiguration := None;
           ga_completed_reconfigurations := ∅ |}, GenAccepted).

Definition gen_prepare s (expected_generation next_generation expected_control_root_version
    recovery_id : N) (next_id : string) (next_members next_incarnations : gmap N bytes)
    (faults : GenerationAuthorityFaults) : gen_reply :=
  let normal :=
    bool_decide (ga_phase s = Active)
    && negb (is_some (ga_pending_reconfiguration s))
    && (expected_generation =? ga_generation s)%N
    && (next_generation =? saturating_add (ga_generation s) 1)%N
    && (expected_control_root_version =? ga_control_root_version s)%N in
  let competing :=
    accept_competing_recovery faults && bool_decide (ga_phase s = Fencing)
    && (next_generation =? ga_generation s)%N
    && (saturating_add expected_generation 1 =? ga_generation s)%N
    && (expected_control_root_version =? ga_control_root_version s)%N in
  if negb normal && negb competing then
    if (expected_generation <? ga_generation s)%N then Ok (s, StaleGeneration)
    else if bool_decide (ga_phase s = Fencing) || bool_decide (ga_phase s = Recovering)
    then Ok (s, RecoveryConflict)
    else Ok (s, CompareFailed)
  else if (recovery_id =? 0)%N || str_is_empty next_id
          || negb (valid_members_with_optional_incarnations next_members next_incarnations)
  then Ok (s, GenInvalidRequest)
  else
    Ok ({ s with ga_generation := next_generation; ga_phase := Fencing;
                 ga_recovery_id := Some recovery_id;
                 ga_pending_transaction_system_id := Some next_id;
                 ga_pending_transaction_system_members := next_members;
                 ga_pending_transaction_system_incarnations := next_incarnations;
                 ga_fenced_log_index := 0%N; ga_recovered_log_index := 0%N;
                 ga_fenced_log_position := None; ga_recovered_log_position := None },
        GenAccepted).

Definition gen_reserve s (generation recovery_id : N) (transaction_system_id : string)
    (expected_control_root_version : N) (certificate : option RecoveryCertificate)
    (faults : GenerationAuthorityFaults) : gen_reply :=
  if negb (bool_decide (ga_phase s = Fencing)) || negb (generation =? ga_generation s)%N
  then Ok (s, InvalidPhase)
  else if negb (bool_decide (ga_recovery_id s = Some recovery_id))
          || negb (bool_decide (ga_pending_transaction_system_id s
                                = Some transaction_system_id))
  then Ok (s, RecoveryConflict)
  else if negb (expected_control_root_version =? ga_control_root_version s)%N
  then Ok (s, CompareFailed)
  else
    match certificate with
    | None => Ok (s, MissingRecoveryProof)
    | Some certificate =>
        if negb (accept_invalid_recovery_certificate faults)
           && negb (verify_recovery_certificate s certificate KFence
                      (ga_transaction_system_members s))
        then Ok (s, InvalidRecoveryProof)
        else
          let position := rs_log_position (rcert_statement certificate) in
          Ok ({ s with ga_phase := Recovering;
                       ga_fenced_log_index := rlp_index position;
                       ga_fenced_log_position := Some position }, GenAccepted)
    end.

(** The switch to the pending transaction system. *)
Definition switch_system s (transaction_system_id wal_root : string)
    (next_control_root_version generation : N) : GenerationAuthorityState :=
  { s with ga_phase := Active; ga_last_completed_recovery_id := ga_recovery_id s;
           ga_recovery_id := None; ga_transaction_system_id := Some transaction_system_id;
           ga_transaction_system_members := ga_pending_transaction_system_members s;
           ga_transaction_system_incarnations :=
             ga_pending_transaction_system_incarnations s;
           ga_pending_transaction_system_id := None;
           ga_pending_transaction_system_members := ∅;
           ga_pending_transaction_system_incarnations := ∅;
           ga_wal_root := Some wal_root;
           ga_control_root_version := next_control_root_version;
           ga_last_completed_generation := generation }.

Definition gen_activate s (generation recovery_id : N)
    (transaction_system_id wal_root : string)
    (expected_control_root_version next_control_root_version : N)
    (certificate : option RecoveryCertificate) (faults : GenerationAuthorityFaults)
    : gen_reply :=
  if negb (bool_decide (ga_phase s = Recovering)) || negb (generation =? ga_generation s)%N
  then Ok (s, InvalidPhase)
  else if negb (bool_decide (ga_recovery_id s = Some recovery_id))
          || negb (bool_decide (ga_pending_transaction_system_id s
                                = Some transaction_system_id))
  then Ok (s, RecoveryConflict)
  else if negb (expected_control_root_version =? ga_control_root_version s)%N
          || negb (next_control_root_version
                   =? saturating_add (ga_control_root_version s) 1)%N
  then Ok (s, CompareFailed)
  else if str_is_empty transaction_system_id || str_is_empty wal_root
  then Ok (s, GenInvalidRequest)
  else
    let switched := switch_system s transaction_system_id wal_root
                      next_control_root_version generation in
    match certificate with
    | None =>
        if activate_without_recovery_proof faults then Ok (switched, GenAccepted)
        else Ok (s, MissingRecoveryProof)
    | Some certificate =>
        if negb (accept_invalid_recovery_certificate faults)
           && negb (verify_recovery_certificate s certificate KRecovered
                      (ga_pending_transaction_system_members s))
        then Ok (s, InvalidRecoveryProof)
        else
          let position := rs_log_position (rcert_statement certificate) in
          Ok ({ switched with ga_recovered_log_index := rlp_index position;
                              ga_recovered_log_position := Some position }, GenAccepted)
    end.

Definition gen_prepare_routine s (expected_generation expected_membership_epoch : N)
    (expected_membership_sha256 : bytes) (reconfiguration_id replacement_node : N)
    (replacement_incarnation : bytes) (next_members next_incarnations : gmap N bytes)
    : gen_reply :=
  let next_digest := routine_membership_digest next_members next_incarnations in
  match ga_completed_reconfigurations s !! reconfiguration_id with
  | Some completed =>
      if bool_decide (crr_membership_sha256 completed = next_digest)
         && (crr_membership_epoch completed
             =? saturating_add expected_membership_epoch 1)%N
      then Ok (s, GenAccepted) else Ok (s, ReconfigurationConflict)
  | None =>
      if negb (bool_decide (ga_phase s = Active))
         || negb (expected_generation =? ga_generation s)%N
      then Ok (s, InvalidPhase)
      else if negb (expected_membership_epoch =? ga_membership_epoch s)%N
      then Ok (s, StaleMembershipEpoch)
      else
        let active_digest :=
          routine_membership_digest (ga_transaction_system_members s)
            (ga_transaction_system_incarnations s) in
        if negb (bool_decide (expected_membership_sha256 = active_digest))
        then Ok (s, CompareFailed)
        else if (reconfiguration_id =? 0)%N || (replacement_node =? 0)%N
                || bool_decide (replacement_incarnation = ZERO16)
                || negb (valid_routine_replacement (ga_transaction_system_members s)
                           (ga_transaction_system_incarnations s) next_members
                           next_incarnations replacement_node replacement_incarnation)
        then Ok (s, GenInvalidRequest)
        else
          let candidate :=
            {| prr_reconfiguration_id := reconfiguration_id;
               prr_expected_membership_epoch := expected_membership_epoch;
               prr_phase := Prepared; prr_replacement_node := replacement_node;
               prr_replacement_incarnation := replacement_incarnation;
               prr_next_members := next_members;
               prr_next_incarnations := next_incarnations;
               prr_learner_snapshot_position := None;
               prr_learner_applied_position := None |} in
          match ga_pending_reconfiguration s with
          | Some pending =>
              if bool_decide (pending = candidate) then Ok (s, GenAccepted)
              else Ok (s, ReconfigurationConflict)
          | None => Ok ({ s with ga_pending_reconfiguration := Some candidate }, GenAccepted)
          end
  end.

Definition gen_mark_learner_ready s (generation membership_epoch reconfiguration_id : N)
    (certificate : option RoutineReconfigurationCertificate) : gen_reply :=
  if negb (bool_decide (ga_phase s = Active)) || negb (generation =? ga_generation s)%N
  then Ok (s, InvalidPhase)
  else if negb (membership_epoch =? ga_membership_epoch s)%N
  then Ok (s, StaleMembershipEpoch)
  else
    match ga_pending_reconfiguration s with
    | None => Ok (s, ReconfigurationConflict)
    | Some pending =>
        if negb (prr_reconfiguration_id pending =? reconfiguration_id)%N
        then Ok (s, ReconfigurationConflict)
        else if bool_decide (prr_phase pending = LearnerReady) then
          match certificate with
          | None => Ok (s, MissingRoutineProof)
          | Some certificate =>
              let statement := rrc_statement certificate in
              if bool_decide (prr_learner_snapshot_position pending
                              = Some (rrs_snapshot_position statement))
                 && bool_decide (prr_learner_applied_position pending
                                 = Some (rrs_applied_position statement))
              then Ok (s, GenAccepted) else Ok (s, ReconfigurationConflict)
          end
        else
          match certificate with
          | None => Ok (s, MissingRoutineProof)
          | Some certificate =>
              let statement := rrc_statement certificate in
              if negb (verify_routine_certificate s certificate KLearnerReady)
              then Ok (s, InvalidRoutineProof)
              else
                Ok ({ s with ga_pending_reconfiguration := Some
                      { pending with
                        prr_phase := LearnerReady;
                        prr_learner_snapshot_position :=
                          Some (rrs_snapshot_position statement);
                        prr_learner_applied_position :=
                          Some (rrs_applied_position statement) } }, GenAccepted)
          end
    end.

Definition gen_finalize_routine s (generation expected_membership_epoch
    reconfiguration_id : N) (certificate : option RoutineReconfigurationCertificate)
    : gen_reply :=
  match ga_completed_reconfigurations s !! reconfiguration_id with
  | Some completed =>
      match certificate with
      | None => Ok (s, MissingRoutineProof)
      | Some certificate =>
          let statement := rrc_statement certificate in
          if (crr_membership_epoch completed
              =? saturating_add expected_membership_epoch 1)%N
             && bool_decide (crr_membership_position completed
                             = rrs_applied_position statement)
             && bool_decide (crr_membership_sha256 completed
                             = rrs_next_membership_sha256 statement)
             && bool_decide (routine_certificate_digest certificate
                             = Some (crr_certificate_sha256 completed))
             && verify_routine_quorum certificate (ga_transaction_system_members s)
          then Ok (s, GenAccepted) else Ok (s, ReconfigurationConflict)
      end
  | None =>
      if negb (bool_decide (ga_phase s = Active)) || negb (generation =? ga_generation s)%N
      then Ok (s, InvalidPhase)
      else if negb (expected_membership_epoch =? ga_membership_epoch s)%N
      then Ok (s, StaleMembershipEpoch)
      else
        match ga_pending_reconfiguration s with
        | None => Ok (s, ReconfigurationConflict)
        | Some pending =>
            if negb (prr_reconfiguration_id pending =? reconfiguration_id)%N
               || negb (bool_decide (prr_phase pending = LearnerReady))
            then Ok (s, ReconfigurationConflict)
            else
              match certificate with
              | None => Ok (s, MissingRoutineProof)
              | Some certificate =>
                  let statement := rrc_statement certificate in
                  if negb (verify_routine_certificate s certificate KMembershipCommitted)
                  then Ok (s, InvalidRoutineProof)
                  else
                    let epoch := saturating_add (ga_membership_epoch s) 1 in
                    match routine_certificate_digest certificate with
                    | None => Panic
                    | Some certificate_sha256 =>
                        Ok ({ s with
                              ga_pending_reconfiguration := None;
                              ga_transaction_system_members := prr_next_members pending;
                              ga_transaction_system_incarnations :=
                                prr_next_incarnations pending;
                              ga_membership_epoch := epoch;
                              ga_completed_reconfigurations :=
                                <[reconfiguration_id :=
                                    {| crr_reconfiguration_id := reconfiguration_id;
                                       crr_membership_epoch := epoch;
                                       crr_membership_sha256 :=
                                         rrs_next_membership_sha256 statement;
                                       crr_membership_position :=
                                         rrs_applied_position statement;
                                       crr_certificate_sha256 := certificate_sha256 |}]>
                                  (ga_completed_reconfigurations s) }, GenAccepted)
                    end
              end
        end
  end.

Definition generation_apply s (action : GenerationAction)
    (faults : GenerationAuthorityFaults) : gen_reply :=
  match action with
  | Bootstrap cell_id generation id members incarnations wal_root control_root_version =>
      gen_bootstrap s cell_id generation id members incarnations wal_root
        control_root_version
  | PrepareGeneration expected next expected_root recovery_id id members incarnations =>
      gen_prepare s expected next expected_root recovery_id id members incarnations faults
  | ReserveGeneration generation recovery_id id expected_root certificate =>
      gen_reserve s generation recovery_id id expected_root certificate faults
  | ActivateGeneration generation recovery_id id wal_root expected_root next_root
      certificate =>
      gen_activate s generation recovery_id id wal_root expected_root next_root certificate
        faults
  | PrepareRoutineReconfiguration expected epoch digest id node incarnation members
      incarnations =>
      gen_prepare_routine s expected epoch digest id node incarnation members incarnations
  | MarkRoutineLearnerReady generation epoch id certificate =>
      gen_mark_learner_ready s generation epoch id certificate
  | FinalizeRoutineReconfiguration generation epoch id certificate =>
      gen_finalize_routine s generation epoch id certificate
  end.
End generation.
