(* ===== verification/GenerationRuns.v ===== *)
(** * Runs of the generation authority

    The well-formedness invariant of the authority's state, the order in which
    transaction systems are authorized, and the certificates behind every
    change of generation. *)

From S2P Require Import Prelude Order BTree Bytes Quorum Generation.

Lemma quorum_size_majority n k : quorum_size n ≤ k → n < 2 * k.
Proof.
  unfold quorum_size. intros Hq. pose proof (Nat.div_mod_eq n 2).
  pose proof (Nat.mod_upper_bound n 2). lia.
Qed.

Section runs.
Context (sha256 : bytes → bytes).
Context `{Ed25519}.
Context `{Serialize RecoveryCertificateStatement}.
Context `{Serialize RoutineReconfigurationCertificateStatement}.
Implicit Types s : GenerationAuthorityState.

Abbreviation apply := (generation_apply sha256).
Abbreviation verify := (verify_recovery_certificate sha256).

(** The memberships a state names are well-formed. *)
Definition members_ok s : Prop :=
  valid_members_with_optional_incarnations (ga_transaction_system_members s)
    (ga_transaction_system_incarnations s) = true.
Definition pending_members_ok s : Prop :=
  valid_members_with_optional_incarnations (ga_pending_transaction_system_members s)
    (ga_pending_transaction_system_incarnations s) = true.

(** A recovery is under way for the next generation. *)
Record takeover s : Prop := {
  tk_generation : ga_generation s = saturating_add (ga_last_completed_generation s) 1;
  tk_recovery : ∃ r, ga_recovery_id s = Some r ∧ r ≠ 0%N;
  tk_system : ∃ id, ga_transaction_system_id s = Some id ∧ id ≠ ""%string;
  tk_pending : ∃ id, ga_pending_transaction_system_id s = Some id ∧ id ≠ ""%string;
  tk_members : members_ok s;
  tk_pending_members : pending_members_ok s;
  tk_no_routine : ga_pending_reconfiguration s = None;
}.

(** A routine replacement is pending for the active membership. *)
Definition routine_ok s (p : PendingRoutineReconfiguration) : Prop :=
  prr_expected_membership_epoch p = ga_membership_epoch s ∧
  prr_reconfiguration_id p ≠ 0%N ∧
  ga_completed_reconfigurations s !! prr_reconfiguration_id p = None ∧
  valid_routine_replacement (ga_transaction_system_members s)
    (ga_transaction_system_incarnations s) (prr_next_members p) (prr_next_incarnations p)
    (prr_replacement_node p) (prr_replacement_incarnation p) = true ∧
  (prr_phase p = LearnerReady ↔ is_Some (prr_learner_applied_position p)).

Record active s : Prop := {
  ac_generation : ga_generation s = ga_last_completed_generation s;
  ac_nonzero : ga_generation s ≠ 0%N;
  ac_recovery : ga_recovery_id s = None;
  ac_system : ∃ id, ga_transaction_system_id s = Some id ∧ id ≠ ""%string;
  ac_pending : ga_pending_transaction_system_id s = None;
  ac_members : members_ok s;
  ac_routine : ∀ p, ga_pending_reconfiguration s = Some p → routine_ok s p;
}.

Definition fence_certified s : Prop :=
  ∃ c, verify s c KFence (ga_transaction_system_members s) = true ∧
    ga_fenced_log_position s = Some (rs_log_position (rcert_statement c)) ∧
    ga_fenced_log_index s = rlp_index (rs_log_position (rcert_statement c)).

Definition gen_wf s : Prop :=
  match ga_phase s with
  | Uninitialized => s = GenerationAuthorityState_default
  | Active => active s
  | Fencing => takeover s
  | Recovering => takeover s ∧ fence_certified s
  end.

(** One command of the fault-free authority, its integers of machine width,
    and what a run of commands reaches. *)
Definition action_wf (a : GenerationAction) : Prop :=
  match a with Bootstrap _ generation _ _ _ _ _ => u64_wf generation | _ => True end.
Definition gen_step s s' : Prop :=
  ∃ a st, action_wf a ∧ apply s a no_authority_faults = Ok (s', st).
Definition gen_reachable : GenerationAuthorityState → Prop :=
  rtc gen_step GenerationAuthorityState_default.

(** The guards of an accepted action, as hypotheses. *)
Ltac gen_guards :=
  repeat match goal with
  | H : (if ?c then _ else _) = Ok _ |- _ => destruct c eqn:?
  | H : match ?o with Some _ => _ | None => _ end = Ok _ |- _ => destruct o eqn:?
  | H : Ok (_, _) = Ok (_, _) |- _ => injection H; clear H; intros; subst
  | H : Panic = Ok _ |- _ => discriminate H
  end;
  repeat match goal with
  | H : negb _ && negb _ = false |- _ => apply andb_false_iff in H
  end;
  destruct_bool_hyps; simplify_eq; try done.

Lemma gen_bootstrap_wf s c g id ms ics w v s' st :
  gen_wf s → gen_bootstrap s c g id ms ics w v = Ok (s', st) → gen_wf s'.
Proof.
  intros Hwf Hap. unfold gen_bootstrap in Hap. gen_guards.
  split; cbn; try done. by eauto.
Qed.

(** Look up what the invariant says in the phase a guard established, and
    compute the updated record. *)
Ltac use_phase Hwf :=
  match goal with Hs : GenerationAuthorityState |- _ => destruct Hs end;
  cbv [constant switch_system] in *; cbn in *; subst; cbn in *.

Lemma gen_prepare_wf s e n v r id ms ics s' st :
  gen_wf s → gen_prepare s e n v r id ms ics no_authority_faults = Ok (s', st) → gen_wf s'.
Proof.
  intros Hwf Hap. unfold gen_prepare in Hap. gen_guards.
  use_phase Hwf. destruct Hwf as [Hgen _ _ Hsys _ Hms _]. cbn in *. subst.
  split; cbn; try done; eauto.
Qed.

Lemma gen_reserve_wf s g r id v c s' st :
  gen_wf s → gen_reserve sha256 s g r id v c no_authority_faults = Ok (s', st) → gen_wf s'.
Proof.
  intros Hwf Hap. unfold gen_reserve in Hap. gen_guards.
  use_phase Hwf. split; [by destruct Hwf; split|]. eexists. by split.
Qed.

Lemma gen_activate_wf s g r id w v n c s' st :
  gen_wf s → gen_activate sha256 s g r id w v n c no_authority_faults = Ok (s', st) → gen_wf s'.
Proof.
  intros Hwf Hap. unfold gen_activate in Hap. gen_guards.
  use_phase Hwf. destruct Hwf as [[Hgen _ _ _ _ Hms Hnr] _]. cbn in *. subst.
  split; cbn; try done; eauto. unfold saturating_add, U64_MAX. lia.
Qed.

Lemma gen_prepare_routine_wf s e ep d i n inc ms ics s' st :
  gen_wf s → gen_prepare_routine sha256 s e ep d i n inc ms ics = Ok (s', st) → gen_wf s'.
Proof.
  intros Hwf Hap. unfold gen_prepare_routine in Hap. gen_guards.
  use_phase Hwf. destruct Hwf. split; cbn; try done.
  intros p [= <-]. split_and!; cbn; try done.
Qed.

Lemma gen_mark_learner_ready_wf s g ep i c s' st :
  gen_wf s → gen_mark_learner_ready sha256 s g ep i c = Ok (s', st) → gen_wf s'.
Proof.
  intros Hwf Hap. unfold gen_mark_learner_ready in Hap. gen_guards.
  use_phase Hwf. destruct Hwf. split; cbn; try done.
  intros p' [= <-]. edestruct ac_routine0 as (? & ? & ? & ? & ?); [done|].
  split_and!; cbn; try done.
Qed.

(** A valid replacement leaves a valid membership. *)
Lemma valid_routine_replacement_members om oi nm ni n inc :
  valid_routine_replacement om oi nm ni n inc = true →
  valid_members_with_optional_incarnations nm ni = true.
Proof.
  unfold valid_routine_replacement. case_guards; [done|]. intros _. destruct_bool_hyps.
  unfold valid_members_with_optional_incarnations.
  match goal with Hm : valid_routine_members nm ni = true |- _ => rewrite Hm;
    unfold valid_routine_members in Hm end.
  destruct_bool_hyps. rewrite orb_true_r, andb_true_r. done.
Qed.

Lemma gen_finalize_routine_wf s g ep i c s' st :
  gen_wf s → gen_finalize_routine sha256 s g ep i c = Ok (s', st) → gen_wf s'.
Proof.
  intros Hwf Hap. unfold gen_finalize_routine in Hap. gen_guards.
  use_phase Hwf. destruct Hwf. split; cbn; try done.
  edestruct ac_routine0 as (_ & _ & _ & Hv & _); [done|].
  by apply valid_routine_replacement_members in Hv.
Qed.

Lemma gen_apply_wf s a s' st :
  gen_wf s → apply s a no_authority_faults = Ok (s', st) → gen_wf s'.
Proof.
  intros Hwf. destruct a; cbn [generation_apply]; intros Hap;
    [eapply gen_bootstrap_wf|eapply gen_prepare_wf|eapply gen_reserve_wf
    |eapply gen_activate_wf|eapply gen_prepare_routine_wf|eapply gen_mark_learner_ready_wf
    |eapply gen_finalize_routine_wf]; eassumption.
Qed.

(** The [expect] on the digest of a verified certificate cannot fail. *)
Lemma gen_apply_total s a f : ∃ s' st, apply s a f = Ok (s', st).
Proof.
  destruct a; cbn [generation_apply];
    unfold gen_bootstrap, gen_prepare, gen_reserve, gen_activate, gen_prepare_routine,
      gen_mark_learner_ready, gen_finalize_routine;
    repeat case_match; eauto.
  match goal with
  | Hv : negb (verify_routine_certificate _ _ _ _) = false,
    Hd : routine_certificate_digest _ _ = None |- _ =>
      apply negb_false_iff in Hv; unfold verify_routine_certificate in Hv;
      unfold routine_certificate_digest in Hd;
      destruct (routine_signing_bytes _); [done|]; by repeat case_match
  end.
Qed.

(** ** Who is authorized when *)
Definition gen_later s s' : Prop :=
  (ga_generation s < ga_generation s')%N ∨
  (ga_generation s = ga_generation s' ∧
   (ga_phase s = Active →
    ga_phase s' = Active ∧ ga_transaction_system_id s' = ga_transaction_system_id s)).

#[local] Instance gen_later_trans : Transitive gen_later.
Proof.
  intros s1 s2 s3 [H12|[E12 H12]] [H23|[E23 H23]]; try (left; lia).
  right. split; [congruence|]. intros Ha. destruct (H12 Ha) as [Ha2 Hid].
  destruct (H23 Ha2) as [? ?]. split; congruence.
Qed.

(** Every command leaves the generation alone or moves it up, and an active
    system stays active until the generation moves. *)
Lemma gen_apply_later s a s' st :
  gen_wf s → apply s a no_authority_faults = Ok (s', st) →
  (ga_generation s' < U64_MAX)%N → gen_later s s'.
Proof.
  intros Hwf Hap Hmax. destruct a; cbn [generation_apply] in Hap.
  - unfold gen_bootstrap in Hap. gen_guards; try by right.
    unfold gen_wf in Hwf. match goal with Hp : ga_phase s = _ |- _ => rewrite Hp in Hwf end.
    subst. left. cbn. lia.
  - unfold gen_prepare in Hap. gen_guards; try by right.
    left. cbn in *. unfold constant, saturating_add in *. destruct s; cbn in *. lia.
  - unfold gen_reserve in Hap. gen_guards; try by right.
    right. destruct s; cbn in *. split; congruence.
  - unfold gen_activate in Hap. gen_guards; try by right.
    right. destruct s; cbn in *. split; congruence.
  - unfold gen_prepare_routine in Hap. gen_guards; try by right.
    all: right; by destruct s.
  - unfold gen_mark_learner_ready in Hap. gen_guards; try by right.
    all: right; by destruct s.
  - unfold gen_finalize_routine in Hap. gen_guards; try by right.
    all: right; by destruct s.
Qed.

Lemma gen_apply_u64 s a s' st :
  action_wf a → u64_wf (ga_generation s) →
  apply s a no_authority_faults = Ok (s', st) → u64_wf (ga_generation s').
Proof.
  intros Ha Hs Hap. destruct a; cbn [generation_apply action_wf] in *.
  - unfold gen_bootstrap in Hap. by gen_guards.
  - unfold gen_prepare in Hap. gen_guards. destruct s. apply saturating_add_wf.
  - unfold gen_reserve in Hap. gen_guards; try done. all: by destruct s.
  - unfold gen_activate in Hap. gen_guards; try done. all: by destruct s.
  - unfold gen_prepare_routine in Hap. gen_guards; try done. all: by destruct s.
  - unfold gen_mark_learner_ready in Hap. gen_guards; try done. all: by destruct s.
  - unfold gen_finalize_routine in Hap. gen_guards; try done. all: by destruct s.
Qed.

Lemma gen_steps_wf s s' :
  rtc gen_step s s' → gen_wf s ∧ u64_wf (ga_generation s) →
  gen_wf s' ∧ u64_wf (ga_generation s').
Proof.
  induction 1 as [|s s1 s' (a & st & Ha & Hap) _ IH]; [done|]. intros [Hwf Hu].
  apply IH. split; [by eapply gen_apply_wf|by eapply gen_apply_u64].
Qed.

Lemma gen_reachable_wf s : gen_reachable s → gen_wf s ∧ u64_wf (ga_generation s).
Proof. intros Hr. apply (gen_steps_wf _ _ Hr). done. Qed.

Lemma gen_steps_later s s' :
  rtc gen_step s s' → gen_wf s → u64_wf (ga_generation s) →
  (ga_generation s' < U64_MAX)%N → gen_later s s' ∧ (ga_generation s ≤ ga_generation s')%N.
Proof.
  induction 1 as [|s s1 s' (a & st & Ha & Hap) _ IH]; intros Hwf Hu Hmax.
  { split; [by right|lia]. }
  destruct IH as [Hl Hle]; [by eapply gen_apply_wf|by eapply gen_apply_u64|done|].
  destruct (gen_apply_later _ _ _ _ Hwf Hap) as [Hlt|[Heq ?]]; [lia|..].
  - split; [|lia]. transitivity s1; [by left|done].
  - split; [|lia]. transitivity s1; [by right|done].
Qed.

Lemma authorizes_spec s g id :
  authorizes s g id = true ↔
  ga_phase s = Active ∧ ga_generation s = g ∧ ga_transaction_system_id s = Some id.
Proof.
  unfold authorizes. rewrite !andb_true_iff, !bool_decide_eq_true, N.eqb_eq. tauto.
Qed.

(** ** What a verified certificate says *)

(** Distinct members, more than half of them, signed the message. *)
Definition majority_signed (members : gmap N bytes) (message : bytes)
    (atts : list RecoveryAttestation) : Prop :=
  NoDup (ra_signer_id <$> atts) ∧
  (∀ a, a ∈ atts → ∃ key, members !! ra_signer_id a = Some key ∧
     ed25519_verify key message (ra_signature a) = true) ∧
  size members < 2 * length atts.

Definition certified s (c : RecoveryCertificate) (kind : RecoveryCertificateKind)
    (members : gmap N bytes) : Prop :=
  let st := rcert_statement c in
  rs_kind st = kind ∧ rs_cell_id st = ga_cell_id s ∧ rs_generation st = ga_generation s ∧
  Some (rs_recovery_id st) = ga_recovery_id s ∧
  Some (rs_active_transaction_system_id st) = ga_transaction_system_id s ∧
  Some (rs_pending_transaction_system_id st) = ga_pending_transaction_system_id s ∧
  rs_membership_sha256 st = recovery_membership_digest sha256 members ∧
  ∃ message, recovery_signing_bytes st = Some message ∧
    majority_signed members message (rcert_attestations c).

Lemma attested_majority members message atts :
  attested ra_signer_id (signed_by (λ n, members !! n) message) atts
    (quorum_size (size members)) = true →
  majority_signed members message atts.
Proof.
  intros (Hnd & Hok & Hq)%attested_spec. split_and!; [done| |by apply quorum_size_majority].
  intros a Ha. rewrite Forall_forall in Hok. specialize (Hok a Ha). unfold signed_by in Hok.
  destruct (members !! ra_signer_id a) as [key|] eqn:E; [|done]. by exists key.
Qed.

Lemma verify_certified s c kind members :
  verify s c kind members = true →
  certified s c kind members ∧
  (kind = KRecovered →
   (ga_fenced_log_index s < rlp_index (rs_log_position (rcert_statement c)))%N).
Proof.
  unfold verify_recovery_certificate.
  repeat match goal with
  | |- (if ?b then _ else _) = true → _ => destruct b eqn:?; [done|]
  end.
  destruct (recovery_signing_bytes _) as [message|] eqn:Hm; [|done].
  intros Hq%attested_majority. destruct_bool_hyps; try done.
  all: split; [by repeat (split; [done|]); exists message|].
  all: intros; (done || lia).
Qed.

(** Every majority of the members contains a signer. *)
Lemma majority_meets members message atts (q : gset N) :
  majority_signed members message atts → q ⊆ dom members → size members < 2 * size q →
  ∃ a, a ∈ atts ∧ ra_signer_id a ∈ q.
Proof.
  intros (Hnd & Hsig & Hn) Hq Hsize.
  set (signers := list_to_set (ra_signer_id <$> atts) : gset N).
  assert (signers ⊆ dom members) as Hsub.
  { intros n Hin. apply elem_of_list_to_set, list_elem_of_fmap in Hin as (a & -> & Ha).
    destruct (Hsig a Ha) as (key & Hk & _). apply elem_of_dom. eauto. }
  assert (size signers = length atts) as Hss.
  { unfold signers. by rewrite size_list_to_set, length_fmap. }
  destruct (quorums_intersect (dom members) signers q) as (n & Hn1 & Hn2); [done..| |].
  { rewrite size_dom. lia. }
  apply elem_of_list_to_set, list_elem_of_fmap in Hn1 as (a & -> & Ha). eauto.
Qed.

Lemma gen_activation s a s' st :
  gen_wf s → apply s a no_authority_faults = Ok (s', st) →
  ga_phase s' = Active → ga_phase s ≠ Active → ga_phase s ≠ Uninitialized →
  ∃ c, ga_phase s = Recovering ∧
    verify s c KRecovered (ga_pending_transaction_system_members s) = true ∧
    ga_generation s' = ga_generation s ∧
    ga_transaction_system_id s' = ga_pending_transaction_system_id s ∧
    ga_transaction_system_members s' = ga_pending_transaction_system_members s ∧
    ga_last_completed_recovery_id s' = ga_recovery_id s ∧
    ga_recovered_log_position s' = Some (rs_log_position (rcert_statement c)).
Proof.
  intros Hwf Hap Hp' Hp Hu. destruct a; cbn [generation_apply] in Hap.
  - unfold gen_bootstrap in Hap. by gen_guards.
  - unfold gen_prepare in Hap. gen_guards; by destruct s.
  - unfold gen_reserve in Hap. gen_guards; by destruct s.
  - unfold gen_activate in Hap. gen_guards.
    match goal with c : RecoveryCertificate |- _ => exists c end.
    split_and!; try done; destruct s; cbn in *; congruence.
  - unfold gen_prepare_routine in Hap. gen_guards; by destruct s.
  - unfold gen_mark_learner_ready in Hap. gen_guards; by destruct s.
  - unfold gen_finalize_routine in Hap. gen_guards; by destruct s.
Qed.

(** Authorization is ordered by generation. *)
Lemma authorized_order s s' g g' id id' :
  gen_reachable s → rtc gen_step s s' → (ga_generation s' < U64_MAX)%N →
  authorizes s g id = true → authorizes s' g' id' = true →
  (g ≤ g')%N ∧ (g = g' → id = id').
Proof.
  intros [Hwf Hu]%gen_reachable_wf Hrun Hmax (Hp & <- & Hid)%authorizes_spec
    (Hp' & <- & Hid')%authorizes_spec.
  destruct (gen_steps_later s s') as [Hl Hle]; [done..|]. split; [done|]. intros Heq.
  destruct Hl as [?|[_ Hsame]]; [lia|]. destruct (Hsame Hp) as [_ Hid2]. congruence.
Qed.

(** One transaction system per generation, in order. Along every
    fault-free run of machine-width commands, whoever is authorized later is
    authorized for no earlier generation, and for the same generation it is the
    same transaction system: two systems never commit in one generation, and a
    fenced generation is never authorized again. (The generation must stay
    below the largest [u64], where its increment saturates.) *)
Theorem generation_single_writer s s' g g' id id' :
  gen_reachable s → rtc gen_step s s' → (ga_generation s' < U64_MAX)%N →
  authorizes s g id = true → authorizes s' g' id' = true →
  (g ≤ g')%N ∧ (g = g' → id = id').
Proof. apply authorized_order. Qed.

(** C24. A change of generation is certified on both sides. In every reachable
    state, a command that makes a transaction system active either bootstraps
    the authority or completes a recovery: then a majority of the members of
    the old system signed the fence, a majority of the members of the new one
    signed the recovery, both statements name this generation, this recovery
    and both systems, the recovered position comes strictly after the
    fenced one, and the system that becomes active is the one that signed. Any
    majority of the old members that could still acknowledge a commit contains
    a signer of the fence. *)
Theorem handoff_certified s a s' st :
  gen_reachable s → apply s a no_authority_faults = Ok (s', st) →
  ga_phase s' = Active → ga_phase s ≠ Active →
  s = GenerationAuthorityState_default ∨
  ∃ cf cr,
    certified s cf KFence (ga_transaction_system_members s) ∧
    certified s cr KRecovered (ga_pending_transaction_system_members s) ∧
    (rlp_index (rs_log_position (rcert_statement cf))
      < rlp_index (rs_log_position (rcert_statement cr)))%N ∧
    (∀ q, q ⊆ dom (ga_transaction_system_members s) →
      size (ga_transaction_system_members s) < 2 * size q →
      ∃ att, att ∈ rcert_attestations cf ∧ ra_signer_id att ∈ q) ∧
    ga_generation s' = ga_generation s ∧
    ga_generation s = saturating_add (ga_last_completed_generation s) 1 ∧
    ga_transaction_system_id s' = ga_pending_transaction_system_id s ∧
    ga_transaction_system_members s' = ga_pending_transaction_system_members s ∧
    ga_last_completed_recovery_id s' = ga_recovery_id s ∧
    ga_recovered_log_position s' = Some (rs_log_position (rcert_statement cr)).
Proof.
  intros [Hwf _]%gen_reachable_wf Hap Hp' Hp.
  destruct (decide (ga_phase s = Uninitialized)) as [Hun|Hun].
  { left. unfold gen_wf in Hwf. by rewrite Hun in Hwf. }
  right. destruct (gen_activation _ _ _ _ Hwf Hap Hp' Hp Hun)
    as (cr & Hrec & Hver & Hg & Hid & Hms & Hr & Hpos).
  unfold gen_wf in Hwf. rewrite Hrec in Hwf. destruct Hwf as [Htk (cf & Hf & _ & Hidx)].
  apply verify_certified in Hf as [Hf _], Hver as [Hver Hlt].
  exists cf, cr. split_and!; try done.
  - rewrite <-Hidx. by apply Hlt.
  - intros q Hq Hsize. destruct Hf as (_ & _ & _ & _ & _ & _ & _ & m & _ & Hmaj).
    by eapply majority_meets.
  - by destruct Htk.
Qed.

(** C32. Every state the authority reaches is well-formed for its phase, and
    no command panics. An active authority names exactly one transaction
    system with valid members (non-empty, non-zero ids, 32-byte keys) and no
    recovery; a fencing or recovering one names the next generation, a
    recovery, the old and the new system with valid members and no pending
    replacement, and once recovering holds a fence its old members certified;
    a pending routine replacement swaps exactly one member of the active
    membership. *)
Theorem generation_wf s :
  gen_reachable s →
  gen_wf s ∧ ∀ a f, ∃ s' st, apply s a f = Ok (s', st).
Proof.
  intros Hr. split; [by apply gen_reachable_wf|]. intros a f. apply gen_apply_total.
Qed.
End runs.

(** *** A concrete takeover

    Keys are tags, a signature is the key followed by the message, and a
    statement is serialized by its generation, recovery and position. *)
Module demo_generation.
#[export] Instance demo_ed25519 : Ed25519 :=
  {| ed25519_public_key := λ seed, seed;
     ed25519_verify := λ key message signature, bool_decide (signature = key ++ message) |}.
#[export] Instance demo_recovery_json : Serialize RecoveryCertificateStatement :=
  λ st, Some [rs_generation st; rs_recovery_id st; rlp_index (rs_log_position st)].
#[export] Instance demo_routine_json : Serialize RoutineReconfigurationCertificateStatement :=
  λ st, Some [rrs_generation st; rrs_reconfiguration_id st].

Definition key (n : N) : bytes := replicate 32 n.
Definition members (l : list N) : gmap N bytes := list_to_map ((λ n, (n, key n)) <$> l).

Abbreviation apply := (generation_apply prefix_digest).

Definition step_to s a : GenerationAuthorityState :=
  match apply s a no_authority_faults with Ok (s', _) => s' | _ => s end.

Definition certificate s kind index ms (signers : list N) : RecoveryCertificate :=
  let st := recovery_statement_new prefix_digest kind s {| rlp_term := 1; rlp_index := index |} ms in
  {| rcert_statement := st;
     rcert_attestations :=
       (λ n, {| ra_signer_id := n;
                ra_signature := key n ++ default [] (recovery_signing_bytes st) |}) <$> signers |}.

Definition boot : GenerationAction :=
  Bootstrap 1 1 "old" (members [1; 2; 3]%N) ∅ "wal-1" 1.
Definition s1 := step_to GenerationAuthorityState_default boot.
Definition prepare : GenerationAction :=
  PrepareGeneration 1 2 1 9 "new" (members [4; 5; 6]%N) ∅.
Definition s2 := step_to s1 prepare.
Definition reserve : GenerationAction :=
  ReserveGeneration 2 9 "new" 1
    (Some (certificate s2 KFence 40 (ga_transaction_system_members s2) [1; 3]%N)).
Definition s3 := step_to s2 reserve.
Definition activate : GenerationAction :=
  ActivateGeneration 2 9 "new" "wal-2" 1 2
    (Some (certificate s3 KRecovered 41 (ga_pending_transaction_system_members s3) [5; 6]%N)).
Definition s4 := step_to s3 activate.

Lemma step1 : apply GenerationAuthorityState_default boot no_authority_faults = Ok (s1, GenAccepted).
Proof. by vm_compute. Qed.
Lemma step2 : apply s1 prepare no_authority_faults = Ok (s2, GenAccepted).
Proof. by vm_compute. Qed.
Lemma step3 : apply s2 reserve no_authority_faults = Ok (s3, GenAccepted).
Proof. by vm_compute. Qed.
Lemma step4 : apply s3 activate no_authority_faults = Ok (s4, GenAccepted).
Proof. by vm_compute. Qed.

Lemma reach_active : gen_reachable prefix_digest s1.
Proof. eapply rtc_l; [|done]. exists boot, GenAccepted. by split. Qed.
Lemma run_takeover : rtc (gen_step prefix_digest) s1 s3.
Proof.
  apply rtc_l with s2; [exists prepare, GenAccepted; by split; [|apply step2]|].
  apply rtc_l with s3; [exists reserve, GenAccepted; by split; [|apply step3]|]. done.
Qed.
Lemma reach_recovering : gen_reachable prefix_digest s3.
Proof. unfold gen_reachable. etrans; [apply reach_active|apply run_takeover]. Qed.
Lemma run_activated : rtc (gen_step prefix_digest) s1 s4.
Proof.
  etrans; [apply run_takeover|].
  eapply rtc_l; [|done]. exists activate, GenAccepted. by split; [|apply step4].
Qed.
End demo_generation.
Import demo_generation.

(** The takeover authorizes the new system for the next generation. *)
Lemma generation_single_writer_witness :
  (1 ≤ 2)%N ∧ (1%N = 2%N → "old"%string = "new"%string).
Proof.
  exact (generation_single_writer prefix_digest s1 s4 1 2
    "old" "new" reach_active run_activated
    ltac:(vm_compute; reflexivity) ltac:(vm_compute; reflexivity) ltac:(vm_compute; reflexivity)).
Defined.

Lemma handoff_certified_witness :
  ga_phase s4 = Active ∧ ga_generation s4 = 2%N.
Proof.
  destruct (handoff_certified prefix_digest s3 activate
    s4 GenAccepted reach_recovering step4)
    as [Hdef|(cf & cr & _ & _ & _ & _ & Hg & _)];
    [vm_compute; reflexivity|vm_compute; discriminate|vm_compute in Hdef; discriminate|].
  split; [vm_compute; reflexivity|]. rewrite Hg. vm_compute. reflexivity.
Defined.

Lemma generation_wf_witness : gen_wf prefix_digest s3.
Proof. exact (proj1 (generation_wf prefix_digest s3 reach_recovering)). Defined.
