(* ===== verification/CellTypes.v ===== *)
(** * Cell transactions: data

    The types of [okv-consensus/src/cell_transaction.rs]: key ranges,
    mutations, commands with their canonical form, the resolver map, the signed
    statements and certificates, policies, the staged command and the state of
    a cell domain. *)

From S2P Require Import Prelude Order BTree Bytes Quorum.
From S2P Require Export Generation.

Definition MAX_STAGED_PREFIX_RECORDS : nat := 4.
Definition MAX_STAGED_PREFIX_BYTES : N := 16 * 1024.
Definition RESOLVER_SET_ID : bytes := replicate 16 51%N.
Definition REQUIRED_RESOLVERS : list N := [1; 2]%N.
Definition REQUIRED_LOG_TAGS : list N := [10; 20]%N.
Definition ZERO32 : bytes := replicate 32 0%N.

(** A type with decidable equality by its fields. *)
Ltac eq_dec := solve_decision.

Record RequestIdentity := { rid_client_id : N; rid_request_id : N }.
#[global] Instance RequestIdentity_eq_dec : EqDecision RequestIdentity.
Proof. eq_dec. Defined.
#[global] Instance RequestIdentity_countable : Countable RequestIdentity.
Proof.
  refine (inj_countable' (λ r, (rid_client_id r, rid_request_id r))
    (λ p, {| rid_client_id := p.1; rid_request_id := p.2 |}) _). by intros [].
Defined.

Record GenerationCredential := { gc_generation : N; gc_transaction_system_id : string }.
#[global] Instance GenerationCredential_eq_dec : EqDecision GenerationCredential.
Proof. eq_dec. Defined.

(** ** Versions, ranges, mutations *)
Record CellReadVersion := { crv_generation : N; crv_sequence : N }.
#[global] Instance CellReadVersion_eq_dec : EqDecision CellReadVersion.
Proof. eq_dec. Defined.

Record CellKeyRange := { ckr_start : bytes; ckr_end : bytes }.
#[global] Instance CellKeyRange_eq_dec : EqDecision CellKeyRange.
Proof. eq_dec. Defined.
Definition range_pair (r : CellKeyRange) : bytes * bytes := (ckr_start r, ckr_end r).
#[global] Instance range_pair_inj : Inj (=) (=) range_pair.
Proof. intros [] []. by intros [= -> ->]. Qed.
#[global] Instance CellKeyRange_key_order : KeyOrder CellKeyRange := projected_order range_pair.

Definition range_point (key : bytes) : CellKeyRange :=
  {| ckr_start := key; ckr_end := key ++ [0%N] |}.
Definition range_valid (r : CellKeyRange) : bool := ckr_start r <ₖ? ckr_end r.
Definition range_contains (r : CellKeyRange) (key : bytes) : bool :=
  (ckr_start r ≤ₖ? key) && (key <ₖ? ckr_end r).
Definition range_overlaps (r other : CellKeyRange) : bool :=
  (ckr_start r <ₖ? ckr_end other) && (ckr_start other <ₖ? ckr_end r).

Inductive CellMutation :=
  | CClear (key : bytes)
  | CSet (key value : bytes).
#[global] Instance CellMutation_eq_dec : EqDecision CellMutation.
Proof. eq_dec. Defined.
Definition mutation_key (m : CellMutation) : bytes :=
  match m with CClear key | CSet key _ => key end.

(** The derived order: the variant first, then its fields. *)
Definition mutation_rank (m : CellMutation) : N * (bytes * bytes) :=
  match m with CClear key => (0%N, (key, [])) | CSet key value => (1%N, (key, value)) end.
#[global] Instance mutation_rank_inj : Inj (=) (=) mutation_rank.
Proof. intros [] []; simpl; congruence. Qed.
#[global] Instance CellMutation_key_order : KeyOrder CellMutation :=
  projected_order mutation_rank.

(** ** Resolver evidence *)
Record CellResolverPartition := { crp_resolver_id : N; crp_start : bytes; crp_end : bytes }.

Inductive CellResolverDecision := RAccept | RConflict.
#[global] Instance CellResolverDecision_eq_dec : EqDecision CellResolverDecision.
Proof. eq_dec. Defined.

Record CellResolverDecisionStatement := {
  rds_format_version : N;
  rds_cell_id : bytes;
  rds_tenant_id : bytes;
  rds_generation : N;
  rds_map_epoch : N;
  rds_map_sha256 : bytes;
  rds_resolver_id : N;
  rds_resolver_incarnation : bytes;
  rds_transaction_identity : RequestIdentity;
  rds_candidate_sequence : N;
  rds_read_version : CellReadVersion;
  rds_resolver_read_sequence : N;
  rds_transaction_sha256 : bytes;
  rds_read_conflicts : list CellKeyRange;
  rds_write_conflicts : list CellKeyRange;
  rds_decision : CellResolverDecision;
}.
#[global] Instance CellResolverDecisionStatement_eq_dec :
  EqDecision CellResolverDecisionStatement.
Proof. eq_dec. Defined.

Record CellResolverDecisionAttestation := {
  rda_statement : CellResolverDecisionStatement;
  rda_signature : bytes;
}.
#[global] Instance CellResolverDecisionAttestation_eq_dec :
  EqDecision CellResolverDecisionAttestation.
Proof. eq_dec. Defined.

Record CellPartitionedResolution := {
  cpr_transaction_system_generation : N;
  cpr_resolver_read_sequence : N;
  cpr_map_epoch : N;
  cpr_candidate_sequence : N;
  cpr_attestations : list CellResolverDecisionAttestation;
}.
#[global] Instance CellPartitionedResolution_eq_dec : EqDecision CellPartitionedResolution.
Proof. eq_dec. Defined.

Record CellTransactionCommand := {
  ct_identity : RequestIdentity;
  ct_credential : option GenerationCredential;
  ct_cell_id : bytes;
  ct_tenant_id : bytes;
  ct_generation : N;
  ct_read_version : CellReadVersion;
  ct_read_conflicts : list CellKeyRange;
  ct_write_conflicts : list CellKeyRange;
  ct_mutations : list CellMutation;
  ct_partitioned_resolution : option CellPartitionedResolution;
  ct_accepted_resolvers : list N;
  ct_durable_log_tags : list N;
}.
#[global] Instance CellTransactionCommand_eq_dec : EqDecision CellTransactionCommand.
Proof. eq_dec. Defined.

(** [sort_by_key], which is stable. *)
Section sort_by_key.
Context {A : Type} (key : A → N).
Fixpoint insert_by_key (x : A) (l : list A) : list A :=
  match l with
  | [] => [x]
  | y :: l' => if (key x <=? key y)%N then x :: l else y :: insert_by_key x l'
  end.
Definition sort_by_key (l : list A) : list A := foldr insert_by_key [] l.
End sort_by_key.

Definition canonicalize_transaction (c : CellTransactionCommand) : CellTransactionCommand :=
  {| ct_identity := ct_identity c; ct_credential := ct_credential c;
     ct_cell_id := ct_cell_id c; ct_tenant_id := ct_tenant_id c;
     ct_generation := ct_generation c; ct_read_version := ct_read_version c;
     ct_read_conflicts := sort_dedup (ct_read_conflicts c);
     ct_write_conflicts := sort_dedup (ct_write_conflicts c);
     ct_mutations := sort_dedup (ct_mutations c);
     ct_partitioned_resolution :=
       (λ r, {| cpr_transaction_system_generation := cpr_transaction_system_generation r;
                cpr_resolver_read_sequence := cpr_resolver_read_sequence r;
                cpr_map_epoch := cpr_map_epoch r;
                cpr_candidate_sequence := cpr_candidate_sequence r;
                cpr_attestations :=
                  sort_by_key (λ a, rds_resolver_id (rda_statement a)) (cpr_attestations r) |})
       <$> ct_partitioned_resolution c;
     ct_accepted_resolvers := sort_dedup (ct_accepted_resolvers c);
     ct_durable_log_tags := sort_dedup (ct_durable_log_tags c) |}.

Definition cell_resolver_partitions : list CellResolverPartition :=
  [{| crp_resolver_id := 1; crp_start := [0%N]; crp_end := [80%N] |};
   {| crp_resolver_id := 2; crp_start := [80%N]; crp_end := [160%N] |};
   {| crp_resolver_id := 3; crp_start := [160%N]; crp_end := [240%N] |}].

Definition cell_resolver_incarnation (resolver_id : N) : bytes :=
  u16_be resolver_id ++ string_bytes "okv-resolver-v".

(** ** The direct path's answers *)
Inductive CellTransactionStatus :=
  | TCommitted
  | TConflict
  | TFutureReadVersion
  | TInvalidReadVersion
  | TInvalidRequest
  | TMissingLogTag
  | TMissingResolver.
#[global] Instance CellTransactionStatus_eq_dec : EqDecision CellTransactionStatus.
Proof. eq_dec. Defined.

Record CellTransactionApplyResponse := {
  ctr_status : CellTransactionStatus;
  ctr_generation : N;
  ctr_commit_sequence : option N;
  ctr_envelope : option bytes;
  ctr_row_count : N;
}.

Record CellCommittedEnvelopeRequest := {
  cer_cell_id : bytes;
  cer_tenant_id : bytes;
  cer_generation : N;
  cer_after_version : N;
  cer_through_version : N;
}.

Record CellCommittedEnvelopeFeed := {
  cef_authority_position : RecoveryLogPosition;
  cef_cell_id : bytes;
  cef_tenant_id : bytes;
  cef_generation : N;
  cef_after_version : N;
  cef_through_version : N;
  cef_latest_commit_version : N;
  cef_envelopes : list bytes;
}.

(** ** Log sets: receipts, policies, statements, certificates *)
Record CellTaggedLogReceipt := {
  tlr_format_version : N;
  tlr_log_set_id : N;
  tlr_generation : N;
  tlr_envelope_sha256 : bytes;
  tlr_durable_position : N;
  tlr_quorum_node_ids : list N;
}.
#[global] Instance CellTaggedLogReceipt_eq_dec : EqDecision CellTaggedLogReceipt.
Proof. eq_dec. Defined.

Record CellLogSetMember := { lsm_node_id : N; lsm_public_key : bytes }.
#[global] Instance CellLogSetMember_eq_dec : EqDecision CellLogSetMember.
Proof. eq_dec. Defined.
Definition member_pair (m : CellLogSetMember) : N * bytes := (lsm_node_id m, lsm_public_key m).
#[global] Instance member_pair_inj : Inj (=) (=) member_pair.
Proof. intros [] []. by intros [= -> ->]. Qed.
#[global] Instance CellLogSetMember_key_order : KeyOrder CellLogSetMember :=
  projected_order member_pair.

Record CellLogSetPolicy := {
  lsp_format_version : N;
  lsp_generation : N;
  lsp_policy_epoch : N;
  lsp_log_set_id : N;
  lsp_quorum_size : N;
  lsp_ratekeeper_soft_limit_bytes : N;
  lsp_members : list CellLogSetMember;
}.
#[global] Instance CellLogSetPolicy_eq_dec : EqDecision CellLogSetPolicy.
Proof. eq_dec. Defined.

Record CellTaggedLogStatement := {
  tls_format_version : N;
  tls_cell_id : bytes;
  tls_tenant_id : bytes;
  tls_generation : N;
  tls_transaction_identity : RequestIdentity;
  tls_commit_sequence : N;
  tls_log_set_id : N;
  tls_policy_epoch : N;
  tls_envelope_sha256 : bytes;
  tls_durable_position : N;
}.
#[global] Instance CellTaggedLogStatement_eq_dec : EqDecision CellTaggedLogStatement.
Proof. eq_dec. Defined.
Record CellTaggedLogAttestation := { tla_signer_id : N; tla_signature : bytes }.
#[global] Instance CellTaggedLogAttestation_eq_dec : EqDecision CellTaggedLogAttestation.
Proof. eq_dec. Defined.
Record CellTaggedLogCertificate := {
  tlc_statement : CellTaggedLogStatement;
  tlc_attestations : list CellTaggedLogAttestation;
}.
#[global] Instance CellTaggedLogCertificate_eq_dec : EqDecision CellTaggedLogCertificate.
Proof. eq_dec. Defined.

Record CellTaggedLogFenceStatement := {
  tfs_format_version : N;
  tfs_cell_id : bytes;
  tfs_tenant_id : bytes;
  tfs_generation : N;
  tfs_recovery_id : N;
  tfs_transaction_identity : RequestIdentity;
  tfs_commit_sequence : N;
  tfs_log_set_id : N;
  tfs_policy_epoch : N;
  tfs_envelope_sha256 : bytes;
}.
Record CellTaggedLogFenceAttestation := {
  tfa_signer_id : N;
  tfa_record_present : bool;
  tfa_signature : bytes;
}.
Record CellTaggedLogFenceCertificate := {
  tfc_statement : CellTaggedLogFenceStatement;
  tfc_attestations : list CellTaggedLogFenceAttestation;
}.

Record CellStagedWindowRecord := {
  swr_transaction_identity : RequestIdentity;
  swr_commit_sequence : N;
  swr_envelope_sha256 : bytes;
}.
#[global] Instance CellStagedWindowRecord_eq_dec : EqDecision CellStagedWindowRecord.
Proof. eq_dec. Defined.
Record CellStagedWindow := {
  csw_format_version : N;
  csw_first_sequence : N;
  csw_last_sequence : N;
  csw_encoded_bytes : N;
  csw_records : list CellStagedWindowRecord;
  csw_window_sha256 : bytes;
}.
#[global] Instance CellStagedWindow_eq_dec : EqDecision CellStagedWindow.
Proof. eq_dec. Defined.

Record CellTaggedLogPrefixFenceStatement := {
  pfs_format_version : N;
  pfs_cell_id : bytes;
  pfs_tenant_id : bytes;
  pfs_generation : N;
  pfs_recovery_id : N;
  pfs_log_set_id : N;
  pfs_policy_epoch : N;
  pfs_window : CellStagedWindow;
}.
Record CellTaggedLogPrefixObservation := {
  pfo_transaction_identity : RequestIdentity;
  pfo_commit_sequence : N;
  pfo_envelope_sha256 : bytes;
  pfo_record_present : bool;
}.
Record CellTaggedLogPrefixFenceAttestation := {
  pfa_signer_id : N;
  pfa_observations : list CellTaggedLogPrefixObservation;
  pfa_signature : bytes;
}.
Record CellTaggedLogPrefixFenceCertificate := {
  pfc_statement : CellTaggedLogPrefixFenceStatement;
  pfc_attestations : list CellTaggedLogPrefixFenceAttestation;
}.

Record CellTaggedLogCapacityStatement := {
  tcs_format_version : N;
  tcs_cell_id : bytes;
  tcs_tenant_id : bytes;
  tcs_generation : N;
  tcs_transaction_identity : RequestIdentity;
  tcs_transaction_sha256 : bytes;
  tcs_log_set_id : N;
  tcs_policy_epoch : N;
  tcs_projected_frame_bytes : N;
  tcs_soft_limit_bytes : N;
  tcs_reservation_epoch : N;
}.
Record CellTaggedLogCapacityAttestation := {
  tca_signer_id : N;
  tca_last_position : N;
  tca_popped_through : N;
  tca_retained_bytes : N;
  tca_hard_limit_bytes : N;
  tca_sample_epoch : N;
  tca_signature : bytes;
}.
Record CellTaggedLogCapacityCertificate := {
  tcc_statement : CellTaggedLogCapacityStatement;
  tcc_attestations : list CellTaggedLogCapacityAttestation;
}.

Inductive CellTaggedLogRepairPhase := BaseSnapshot | RepairLearnerReady.
#[global] Instance CellTaggedLogRepairPhase_eq_dec : EqDecision CellTaggedLogRepairPhase.
Proof. eq_dec. Defined.
Record CellTaggedLogRepairStatement := {
  trs_format_version : N;
  trs_phase : CellTaggedLogRepairPhase;
  trs_cell_id : bytes;
  trs_tenant_id : bytes;
  trs_generation : N;
  trs_log_set_id : N;
  trs_policy_epoch : N;
  trs_repair_id : N;
  trs_failed_node_id : N;
  trs_learner_node_id : N;
  trs_learner_incarnation : bytes;
  trs_learner_public_key : bytes;
  trs_last_position : N;
  trs_popped_through : N;
  trs_snapshot_length : N;
  trs_snapshot_sha256 : bytes;
}.
Record CellTaggedLogRepairAttestation := {
  tra_signer_id : N;
  tra_source_sample_epoch : N;
  tra_signature : bytes;
}.
Record CellTaggedLogRepairCertificate := {
  trc_statement : CellTaggedLogRepairStatement;
  trc_attestations : list CellTaggedLogRepairAttestation;
}.

Record CellLogSetPolicyTransition := {
  lpt_format_version : N;
  lpt_cell_id : bytes;
  lpt_tenant_id : bytes;
  lpt_generation : N;
  lpt_transition_id : N;
  lpt_log_set_id : N;
  lpt_old_policy : CellLogSetPolicy;
  lpt_next_policy : CellLogSetPolicy;
  lpt_failed_node_id : N;
  lpt_learner_node_id : N;
  lpt_learner_incarnation : bytes;
  lpt_learner_public_key : bytes;
  lpt_repair_readiness_sha256 : bytes;
  lpt_retained_root_sha256 : bytes;
  lpt_retained_last_position : N;
}.
#[global] Instance CellLogSetPolicyTransition_eq_dec : EqDecision CellLogSetPolicyTransition.
Proof. eq_dec. Defined.

Record CellTaggedLogPolicyStageStatement := {
  pss_format_version : N;
  pss_cell_id : bytes;
  pss_tenant_id : bytes;
  pss_generation : N;
  pss_transition_id : N;
  pss_log_set_id : N;
  pss_old_policy_epoch : N;
  pss_next_policy_epoch : N;
  pss_transition_sha256 : bytes;
  pss_retained_root_sha256 : bytes;
  pss_retained_last_position : N;
}.
Record CellTaggedLogPolicyStageAttestation := {
  psa_signer_id : N;
  psa_source_sample_epoch : N;
  psa_signature : bytes;
}.
Record CellTaggedLogPolicyStageCertificate := {
  psc_statement : CellTaggedLogPolicyStageStatement;
  psc_attestations : list CellTaggedLogPolicyStageAttestation;
}.

Record CompletedCellLogSetPolicyTransition := {
  cpt_transition : CellLogSetPolicyTransition;
  cpt_successor_stage_sha256 : bytes;
  cpt_authority_commit_index : N;
}.

(** ** Staged commands and their answers *)
Inductive CellStagedTransactionAction :=
  | InstallLogSetPolicies (policies : list CellLogSetPolicy)
  | PrepareLogSetPolicyTransition (transition : CellLogSetPolicyTransition)
      (repair_readiness : CellTaggedLogRepairCertificate)
  | CommitLogSetPolicyTransition (transition_id : N)
      (successor_stage : CellTaggedLogPolicyStageCertificate)
  | ReserveCapacity (transaction : CellTransactionCommand)
      (certificates : list CellTaggedLogCapacityCertificate)
  | Stage (transaction : CellTransactionCommand)
  | RecordLogReceipt (receipt : CellTaggedLogReceipt)
  | RecordLogCertificate (certificate : CellTaggedLogCertificate)
  | Publish
  | TakeoverPublish (previous_generation recovery_id expected_commit_sequence : N)
      (expected_envelope_sha256 : bytes)
  | TakeoverAbort (previous_generation recovery_id expected_commit_sequence : N)
      (expected_envelope_sha256 : bytes) (log_set_fences : list CellTaggedLogFenceCertificate)
  | TakeoverRecoverPrefix (previous_generation recovery_id : N)
      (staged_window : CellStagedWindow)
      (log_set_inventories : list CellTaggedLogPrefixFenceCertificate).

Record CellStagedTransactionCommand := {
  cs_identity : RequestIdentity;
  cs_credential : option GenerationCredential;
  cs_cell_id : bytes;
  cs_tenant_id : bytes;
  cs_generation : N;
  cs_transaction_identity : RequestIdentity;
  cs_action : CellStagedTransactionAction;
}.

Inductive CellStagedTransactionStatus :=
  | SLogSetPoliciesInstalled
  | SPolicyTransitionPrepared
  | SPolicyTransitionCommitted
  | SAlreadyPolicyTransitionCommitted
  | SInvalidPolicyTransition
  | SCapacityReserved
  | SRateLimited
  | SInvalidCapacityCertificate
  | SRatekeepingRequired
  | SStaged
  | SLogReceiptRecorded
  | SLogCertificateRecorded
  | SCommitted
  | SAlreadyCommitted
  | SConflict
  | SInvalidRequest
  | SInvalidLogReceipt
  | SConflictingLogReceipt
  | SInvalidLogCertificate
  | SConflictingLogCertificate
  | SInvalidLogSetPolicy
  | SMissingLogReceipt
  | SInvalidGenerationTakeover
  | SAborted
  | SAlreadyAborted
  | SPrefixRecovered
  | SAlreadyPrefixRecovered
  | SInvalidStagedPrefix.
#[global] Instance CellStagedTransactionStatus_eq_dec : EqDecision CellStagedTransactionStatus.
Proof. eq_dec. Defined.

Record CellStagedTransactionApplyResponse := {
  csr_status : CellStagedTransactionStatus;
  csr_transaction_identity : RequestIdentity;
  csr_generation : N;
  csr_commit_sequence : option N;
  csr_envelope : option bytes;
  csr_durable_log_sets : list N;
  csr_visible : bool;
  csr_aborted : bool;
  csr_row_count : N;
  csr_recovered_records : N;
  csr_aborted_records : N;
  csr_capacity_retry_token : option bytes;
  csr_capacity_reservation_epoch : option N;
}.

(** ** State *)
Record CapacityReservation := {
  cap_transaction : CellTransactionCommand;
  cap_reservation_epoch : N;
  cap_sample_epochs : gmap N (gmap N N);
}.

Record CommittedWrite := { cw_sequence : N; cw_range : CellKeyRange }.

Record StagedTransaction := {
  st_identity : RequestIdentity;
  st_transaction : CellTransactionCommand;
  st_commit_sequence : N;
  st_envelope : bytes;
  st_receipts : gmap N CellTaggedLogReceipt;
  st_certificates : gmap N CellTaggedLogCertificate;
  st_visible : bool;
  st_aborted : bool;
}.

Record CellDomainState := {
  cd_cell_id : bytes;
  cd_tenant_id : bytes;
  cd_generation : N;
  cd_latest_sequence : N;
  cd_last_resolver_candidate : N;
  cd_last_resolver_transaction_system_generation : N;
  cd_rows : gmap bytes bytes;
  cd_committed_writes : list CommittedWrite;
  cd_committed_envelopes : list bytes;
  cd_previous_log_chain : bytes;
  cd_log_set_policies : gmap N CellLogSetPolicy;
  cd_pending_log_set_policy_transition : option CellLogSetPolicyTransition;
  cd_completed_log_set_policy_transitions : gmap N CompletedCellLogSetPolicyTransition;
  cd_staged_transactions : list StagedTransaction;
  cd_capacity_reservations : gmap bytes CapacityReservation;
  cd_capacity_attempt_epochs : gmap bytes N;
  cd_capacity_retry_tokens : gmap bytes bytes;
  cd_capacity_sample_epochs : gmap N (gmap N N);
}.

(** The read-only projection of a domain, which manifests hold. *)
Record CellStateSnapshot := {
  css_cell_id : bytes;
  css_tenant_id : bytes;
  css_generation : N;
  css_latest_sequence : N;
  css_rows : list (bytes * bytes);
  css_committed_envelopes : list bytes;
  css_log_set_policies : list CellLogSetPolicy;
  css_pending_log_set_policy_transition : option CellLogSetPolicyTransition;
  css_completed_log_set_policy_transitions : list CompletedCellLogSetPolicyTransition;
}.

(** A domain first named by a command of [generation]. *)
Definition CellDomainState_new (cell_id tenant_id : bytes) (generation : N)
    : CellDomainState :=
  {| cd_cell_id := cell_id; cd_tenant_id := tenant_id; cd_generation := generation;
     cd_latest_sequence := 0; cd_last_resolver_candidate := 0;
     cd_last_resolver_transaction_system_generation := 0; cd_rows := ∅;
     cd_committed_writes := []; cd_committed_envelopes := [];
     cd_previous_log_chain := ZERO32; cd_log_set_policies := ∅;
     cd_pending_log_set_policy_transition := None;
     cd_completed_log_set_policy_transitions := ∅; cd_staged_transactions := [];
     cd_capacity_reservations := ∅; cd_capacity_attempt_epochs := ∅;
     cd_capacity_retry_tokens := ∅; cd_capacity_sample_epochs := ∅ |}.

(** [CellTransactionState]. *)
Abbreviation CellTransactionState := (list CellDomainState).

Record GenerationFenceFaults := {
  bypass_commit_fence : bool;
  bypass_apply_fence : bool;
  accept_apply_during_recovery : bool;
  accept_recovering_commits : bool;
  allow_preauthorized_test_write : bool;
  accept_incomplete_staged_head : bool;
  ignore_staged_head_takeover_expectation : bool;
  allow_successor_to_skip_staged_head : bool;
  accept_invalid_staged_abort_proof : bool;
  reuse_aborted_sequence_or_chain : bool;
  publish_beyond_staged_absence : bool;
  abort_quorum_present_staged_record : bool;
  skip_recoverable_staged_prefix : bool;
  retain_aborted_staged_suffix : bool;
  accept_over_limit_staged_window : bool;
  accept_missing_staged_inventory : bool;
  ratekeeper_accept_best_node_capacity : bool;
  ratekeeper_accept_stale_sample : bool;
  ratekeeper_allow_stage_without_reservation : bool;
  policy_transition_accept_missing_readiness : bool;
  policy_transition_accept_unresolved_stage : bool;
  policy_transition_accept_invalid_next_policy : bool;
  policy_transition_accept_mixed_stage_quorum : bool;
  policy_transition_double_apply : bool;
}.

Definition no_fence_faults : GenerationFenceFaults :=
  {| bypass_commit_fence := false; bypass_apply_fence := false;
     accept_apply_during_recovery := false; accept_recovering_commits := false;
     allow_preauthorized_test_write := false; accept_incomplete_staged_head := false;
     ignore_staged_head_takeover_expectation := false;
     allow_successor_to_skip_staged_head := false;
     accept_invalid_staged_abort_proof := false; reuse_aborted_sequence_or_chain := false;
     publish_beyond_staged_absence := false; abort_quorum_present_staged_record := false;
     skip_recoverable_staged_prefix := false; retain_aborted_staged_suffix := false;
     accept_over_limit_staged_window := false; accept_missing_staged_inventory := false;
     ratekeeper_accept_best_node_capacity := false; ratekeeper_accept_stale_sample := false;
     ratekeeper_allow_stage_without_reservation := false;
     policy_transition_accept_missing_readiness := false;
     policy_transition_accept_unresolved_stage := false;
     policy_transition_accept_invalid_next_policy := false;
     policy_transition_accept_mixed_stage_quorum := false;
     policy_transition_double_apply := false |}.
