(* ===== verification/CellCert.v ===== *)
(** * Cell transactions: verification of evidence

    The checks of [okv-consensus/src/cell_transaction.rs] on signed evidence:
    durability, fence, inventory, capacity, repair and policy-stage
    certificates against the replicated log-set policy, staged windows, and the
    resolver attestations of a partitioned transaction. *)

From S2P Require Import Prelude Order BTree Bytes Version Quorum Envelope.
From S2P Require Export CellTypes.

(** The JSON encodings the code signs or hashes. *)
Class CellJson := {
  json_ranges :: Serialize (list CellKeyRange);
  json_mutations :: Serialize (list CellMutation);
  json_transaction :: Serialize CellTransactionCommand;
  json_partitions :: Serialize (list CellResolverPartition);
  json_decision :: Serialize CellResolverDecisionStatement;
  json_log :: Serialize CellTaggedLogStatement;
  json_fence :: Serialize CellTaggedLogFenceStatement;
  json_prefix :: Serialize (CellTaggedLogPrefixFenceStatement
                             * list CellTaggedLogPrefixObservation);
  json_window :: Serialize (N * N * N * N * list CellStagedWindowRecord);
  json_capacity :: Serialize (CellTaggedLogCapacityStatement * N * N * N * N * N * N);
  json_repair :: Serialize (CellTaggedLogRepairStatement * N * N);
  json_policy_stage :: Serialize (CellTaggedLogPolicyStageStatement * N * N);
  json_transition :: Serialize CellLogSetPolicyTransition;
  json_repair_certificate :: Serialize CellTaggedLogRepairCertificate;
  json_stage_certificate :: Serialize CellTaggedLogPolicyStageCertificate;
}.

Definition TAGGED_LOG_CERTIFICATE_MAGIC : bytes :=
  string_bytes "OKV-TAGGED-LOG-CERTIFICATE-V1" ++ [0%N].
Definition TAGGED_LOG_FENCE_CERTIFICATE_MAGIC : bytes :=
  string_bytes "OKV-TAGGED-LOG-FENCE-CERTIFICATE-V1" ++ [0%N].
Definition TAGGED_LOG_PREFIX_FENCE_CERTIFICATE_MAGIC : bytes :=
  string_bytes "OKV-TAGGED-LOG-PREFIX-FENCE-CERTIFICATE-V1" ++ [0%N].
Definition TAGGED_LOG_CAPACITY_CERTIFICATE_MAGIC : bytes :=
  string_bytes "OKV-TAGGED-LOG-CAPACITY-CERTIFICATE-V1" ++ [0%N].
Definition TAGGED_LOG_REPAIR_CERTIFICATE_MAGIC : bytes :=
  string_bytes "OKV-TAGGED-LOG-REPAIR-CERTIFICATE-V1" ++ [0%N].
Definition TAGGED_LOG_POLICY_STAGE_CERTIFICATE_MAGIC : bytes :=
  string_bytes "OKV-TAGGED-LOG-POLICY-STAGE-CERTIFICATE-V1" ++ [0%N].
Definition STAGED_WINDOW_MAGIC : bytes := string_bytes "OKV-STAGED-WINDOW-V1" ++ [0%N].
Definition RESOLVER_DECISION_MAGIC : bytes :=
  string_bytes "OKV-RESOLVER-DECISION-V1" ++ [0%N].

(** [policy.members.iter().map(|m| (m.node_id, m.public_key)).collect()]. *)
Definition member_map (members : list CellLogSetMember) : gmap N bytes :=
  collect_map (member_pair <$> members).

(** [values.iter().copied().collect::<BTreeSet<_>>()]. *)
Definition set_of (values : list N) : gset N := list_to_set values.

Definition contains_all (actual required : list N) : bool :=
  forallb (λ item, bool_decide (item ∈ set_of actual)) required.

Definition valid_request (command : CellTransactionCommand) : bool :=
  if bool_decide (ct_mutations command = [])
     || existsb (λ r, negb (range_valid r))
          (ct_read_conflicts command ++ ct_write_conflicts command)
  then false
  else
    (size (list_to_set (mutation_key <$> ct_mutations command) : gset bytes)
     =? length (ct_mutations command))
    && forallb (λ mutation,
         existsb (λ range, range_contains range (mutation_key mutation))
           (ct_write_conflicts command)) (ct_mutations command).

(** [std::cmp::max] and [std::cmp::min] on keys. *)
Definition key_max (a b : bytes) : bytes := if b <ₖ? a then a else b.
Definition key_min (a b : bytes) : bytes := if b <ₖ? a then b else a.

Definition clipped_conflicts (conflicts : list CellKeyRange)
    (partition : CellResolverPartition) : list CellKeyRange :=
  let owned := {| ckr_start := crp_start partition; ckr_end := crp_end partition |} in
  sort_dedup
    ((λ range, {| ckr_start := key_max (ckr_start range) (ckr_start owned);
                  ckr_end := key_min (ckr_end range) (ckr_end owned) |}) <$>
     List.filter (λ range, range_overlaps range owned) conflicts).

Definition valid_log_set_policy (policy : CellLogSetPolicy) (generation : N) : bool :=
  let member_ids := set_of (lsm_node_id <$> lsp_members policy) in
  (lsp_format_version policy =? 1)%N && (lsp_generation policy =? generation)%N
  && (0 <? lsp_policy_epoch policy)%N && (0 <? lsp_log_set_id policy)%N
  && (0 <? lsp_quorum_size policy)%N
  && ((lsp_ratekeeper_soft_limit_bytes policy =? 0)%N
      || (1024 <=? lsp_ratekeeper_soft_limit_bytes policy)%N)
  && (lsp_quorum_size policy <=? len (lsp_members policy))%N
  && (size member_ids =? length (lsp_members policy))
  && forallb (λ m, (0 <? lsm_node_id m)%N && (length (lsm_public_key m) =? 32))
       (lsp_members policy).

(** The identity key and retry token of a capacity reservation. *)
Definition capacity_identity_key (identity : RequestIdentity) : bytes :=
  hex_digits 16 (rid_client_id identity) ++ [58%N] ++ hex_digits 16 (rid_request_id identity).

Section cert.
Context (sha256 : bytes → bytes).
Context `{Ed25519} `{CellJson}.

Definition capacity_retry_token (identity : RequestIdentity) : bytes :=
  sha256 (string_bytes "okv-ratekeeper-retry-token-v1" ++
          u64_be (rid_client_id identity) ++ u64_be (rid_request_id identity)).

(** The signature of one attestation under a member's key. *)
Definition member_signed (members : gmap N bytes) (signer : N) (message : option bytes)
    (signature : bytes) : bool :=
  match members !! signer, message with
  | Some public_key, Some bytes => ed25519_verify public_key bytes signature
  | _, _ => false
  end.

(** ** Digests *)
Definition cell_resolver_map_sha256 : res CommitCodecError bytes :=
  match to_vec cell_resolver_partitions with
  | Some bytes => Ok (sha256 bytes)
  | None => Panic
  end.

Definition cell_resolver_private_key_seed (resolver_id : N) (incarnation : bytes) : bytes :=
  sha256 (string_bytes "okv-eval-resolver-key-v1" ++ u16_be resolver_id ++ incarnation).

Definition cell_resolver_public_key (resolver_id : N) (incarnation : bytes) : bytes :=
  ed25519_public_key (cell_resolver_private_key_seed resolver_id incarnation).

Definition resolver_signing_bytes (statement : CellResolverDecisionStatement) : option bytes :=
  (λ json, RESOLVER_DECISION_MAGIC ++ json) <$> to_vec statement.

Definition cell_partitioned_transaction_sha256 (command : CellTransactionCommand)
    : option bytes :=
  let canonical := canonicalize_transaction
    {| ct_identity := ct_identity command; ct_credential := ct_credential command;
       ct_cell_id := ct_cell_id command; ct_tenant_id := ct_tenant_id command;
       ct_generation := ct_generation command; ct_read_version := ct_read_version command;
       ct_read_conflicts := ct_read_conflicts command;
       ct_write_conflicts := ct_write_conflicts command;
       ct_mutations := ct_mutations command; ct_partitioned_resolution := None;
       ct_accepted_resolvers := []; ct_durable_log_tags := ct_durable_log_tags command |} in
  sha256 <$> to_vec canonical.

Definition ratekeeper_transaction_sha256 (transaction : CellTransactionCommand)
    : option bytes :=
  (λ bytes, sha256 (string_bytes "okv-ratekeeper-transaction-v1" ++ bytes))
  <$> to_vec (canonicalize_transaction transaction).

Definition sort_members (policy : CellLogSetPolicy) : CellLogSetPolicy :=
  {| lsp_format_version := lsp_format_version policy; lsp_generation := lsp_generation policy;
     lsp_policy_epoch := lsp_policy_epoch policy; lsp_log_set_id := lsp_log_set_id policy;
     lsp_quorum_size := lsp_quorum_size policy;
     lsp_ratekeeper_soft_limit_bytes := lsp_ratekeeper_soft_limit_bytes policy;
     lsp_members := merge_sort key_le (lsp_members policy) |}.

Definition cell_log_set_policy_transition_sha256 (t : CellLogSetPolicyTransition) : bytes :=
  let canonical :=
    {| lpt_format_version := lpt_format_version t; lpt_cell_id := lpt_cell_id t;
       lpt_tenant_id := lpt_tenant_id t; lpt_generation := lpt_generation t;
       lpt_transition_id := lpt_transition_id t; lpt_log_set_id := lpt_log_set_id t;
       lpt_old_policy := sort_members (lpt_old_policy t);
       lpt_next_policy := sort_members (lpt_next_policy t);
       lpt_failed_node_id := lpt_failed_node_id t;
       lpt_learner_node_id := lpt_learner_node_id t;
       lpt_learner_incarnation := lpt_learner_incarnation t;
       lpt_learner_public_key := lpt_learner_public_key t;
       lpt_repair_readiness_sha256 := lpt_repair_readiness_sha256 t;
       lpt_retained_root_sha256 := lpt_retained_root_sha256 t;
       lpt_retained_last_position := lpt_retained_last_position t |} in
  sha256 (default [] (to_vec canonical)).

Definition cell_tagged_log_repair_certificate_sha256 (c : CellTaggedLogRepairCertificate)
    : bytes :=
  sha256 (default [] (to_vec
    {| trc_statement := trc_statement c;
       trc_attestations := sort_by_key tra_signer_id (trc_attestations c) |})).

Definition cell_tagged_log_policy_stage_certificate_sha256
    (c : CellTaggedLogPolicyStageCertificate) : bytes :=
  sha256 (default [] (to_vec
    {| psc_statement := psc_statement c;
       psc_attestations := sort_by_key psa_signer_id (psc_attestations c) |})).

(** ** Log-set certificates *)
Definition log_signing_bytes (statement : CellTaggedLogStatement) : option bytes :=
  (λ json, TAGGED_LOG_CERTIFICATE_MAGIC ++ json) <$> to_vec statement.

Definition verify_tagged_log_envelope_certificate (certificate : CellTaggedLogCertificate)
    (policy : CellLogSetPolicy) (encoded_envelope : bytes) : bool :=
  match envelope_decode sha256 encoded_envelope with
  | Ok envelope =>
      let statement := tlc_statement certificate in
      if negb (bool_decide (take 8 (env_client_id envelope) = replicate 8 0%N))
      then false
      else if
        negb (lsp_format_version policy =? 1)%N
        || negb (lsp_generation policy =? env_generation envelope)%N
        || (lsp_policy_epoch policy =? 0)%N || (lsp_log_set_id policy =? 0)%N
        || (lsp_quorum_size policy =? 0)%N
        || (len (lsp_members policy) <? lsp_quorum_size policy)%N
        || negb (size (set_of (lsm_node_id <$> lsp_members policy))
                 =? length (lsp_members policy))
        || negb (tls_format_version statement =? 1)%N
        || negb (bool_decide (tls_cell_id statement = env_cell_id envelope))
        || negb (bool_decide (tls_tenant_id statement = env_tenant_id envelope))
        || negb (tls_generation statement =? env_generation envelope)%N
        || negb (bool_decide (tls_transaction_identity statement =
                   {| rid_client_id := of_be (drop 8 (env_client_id envelope));
                      rid_request_id := env_request_id envelope |}))
        || negb (tls_commit_sequence statement =? sequence (env_version envelope))%N
        || negb (tls_log_set_id statement =? lsp_log_set_id policy)%N
        || negb (tls_policy_epoch statement =? lsp_policy_epoch policy)%N
        || negb (bool_decide (tls_envelope_sha256 statement = sha256 encoded_envelope))
        || (tls_durable_position statement =? 0)%N
        || negb (bool_decide (tls_log_set_id statement ∈ env_required_log_tags envelope))
      then false
      else
        let members := member_map (lsp_members policy) in
        let bytes := log_signing_bytes statement in
        is_some bytes
        && attested tla_signer_id
             (λ a, member_signed members (tla_signer_id a) bytes (tla_signature a))
             (tlc_attestations certificate) (N.to_nat (lsp_quorum_size policy))
  | _ => false
  end.

Definition verify_tagged_log_certificate (certificate : CellTaggedLogCertificate)
    (policy : CellLogSetPolicy) (staged : StagedTransaction) (cell_id tenant_id : bytes)
    (generation : N) : bool :=
  let statement := tlc_statement certificate in
  if negb (bool_decide (tls_cell_id statement = cell_id))
     || negb (bool_decide (tls_tenant_id statement = tenant_id))
     || negb (tls_generation statement =? generation)%N
     || negb (bool_decide (tls_transaction_identity statement = st_identity staged))
     || negb (tls_commit_sequence statement =? st_commit_sequence staged)%N
     || negb (bool_decide (tls_log_set_id statement
                           ∈ ct_durable_log_tags (st_transaction staged)))
  then false
  else verify_tagged_log_envelope_certificate certificate policy (st_envelope staged).

Definition fence_signing_bytes (statement : CellTaggedLogFenceStatement)
    (record_present : bool) : option bytes :=
  (λ json, TAGGED_LOG_FENCE_CERTIFICATE_MAGIC ++ json ++ [if record_present then 1%N else 0%N])
  <$> to_vec statement.

Definition verify_tagged_log_fence_certificate (certificate : CellTaggedLogFenceCertificate)
    (policy : CellLogSetPolicy) (staged : StagedTransaction) (cell_id tenant_id : bytes)
    (generation recovery_id : N) : bool :=
  let statement := tfc_statement certificate in
  if negb (tfs_format_version statement =? 1)%N
     || negb (bool_decide (tfs_cell_id statement = cell_id))
     || negb (bool_decide (tfs_tenant_id statement = tenant_id))
     || negb (tfs_generation statement =? generation)%N
     || negb (tfs_recovery_id statement =? recovery_id)%N
     || negb (bool_decide (tfs_transaction_identity statement = st_identity staged))
     || negb (tfs_commit_sequence statement =? st_commit_sequence staged)%N
     || negb (tfs_log_set_id statement =? lsp_log_set_id policy)%N
     || negb (tfs_policy_epoch statement =? lsp_policy_epoch policy)%N
     || negb (bool_decide (tfs_envelope_sha256 statement = sha256 (st_envelope staged)))
     || negb (bool_decide (tfs_log_set_id statement
                           ∈ ct_durable_log_tags (st_transaction staged)))
  then false
  else
    attested tfa_signer_id
      (λ a, member_signed (member_map (lsp_members policy)) (tfa_signer_id a)
              (fence_signing_bytes statement (tfa_record_present a)) (tfa_signature a))
      (tfc_attestations certificate) (N.to_nat (lsp_quorum_size policy)).

(** ** Staged windows and their inventories *)
Fixpoint consecutive (sequences : list N) : bool :=
  match sequences with
  | a :: (b :: _) as rest => (b =? saturating_add a 1)%N && consecutive rest
  | _ => true
  end.

Definition window_sha256 (w : CellStagedWindow) : option bytes :=
  (λ json, sha256 (STAGED_WINDOW_MAGIC ++ json)) <$>
  to_vec (csw_format_version w, csw_first_sequence w, csw_last_sequence w,
          csw_encoded_bytes w, csw_records w).

Definition window_new (records : list CellStagedWindowRecord) (encoded_bytes : N)
    : option CellStagedWindow :=
  let sequences := swr_commit_sequence <$> records in
  match sequences with
  | [] => None
  | first_sequence :: _ =>
      if (encoded_bytes =? 0)%N || existsb (λ s, (s =? 0)%N) sequences
         || negb (consecutive sequences)
      then None
      else
        let w :=
          {| csw_format_version := 1; csw_first_sequence := first_sequence;
             csw_last_sequence := default 0%N (last sequences);
             csw_encoded_bytes := encoded_bytes; csw_records := records;
             csw_window_sha256 := ZERO32 |} in
        (λ digest,
           {| csw_format_version := 1; csw_first_sequence := first_sequence;
              csw_last_sequence := default 0%N (last sequences);
              csw_encoded_bytes := encoded_bytes; csw_records := records;
              csw_window_sha256 := digest |}) <$> window_sha256 w
  end.

Definition valid_identity (w : CellStagedWindow) : bool :=
  let sequences := swr_commit_sequence <$> csw_records w in
  (csw_format_version w =? 1)%N && negb (bool_decide (csw_records w = []))
  && (csw_first_sequence w =? default 0 (head sequences))%N
  && (csw_last_sequence w =? default 0 (last sequences))%N
  && consecutive sequences
  && bool_decide (window_sha256 w = Some (csw_window_sha256 w)).

Definition prefix_signing_bytes (statement : CellTaggedLogPrefixFenceStatement)
    (observations : list CellTaggedLogPrefixObservation) : option bytes :=
  (λ json, TAGGED_LOG_PREFIX_FENCE_CERTIFICATE_MAGIC ++ json)
  <$> to_vec (statement, observations).

Definition record_key (r : CellStagedWindowRecord) : RequestIdentity * N * bytes :=
  (swr_transaction_identity r, swr_commit_sequence r, swr_envelope_sha256 r).
Definition observation_key (o : CellTaggedLogPrefixObservation) : RequestIdentity * N * bytes :=
  (pfo_transaction_identity o, pfo_commit_sequence o, pfo_envelope_sha256 o).

Definition verify_tagged_log_prefix_fence_certificate
    (certificate : CellTaggedLogPrefixFenceCertificate) (policy : CellLogSetPolicy)
    (staged_window : CellStagedWindow) (cell_id tenant_id : bytes)
    (generation recovery_id : N) : bool :=
  let statement := pfc_statement certificate in
  if negb (pfs_format_version statement =? 1)%N
     || negb (bool_decide (pfs_cell_id statement = cell_id))
     || negb (bool_decide (pfs_tenant_id statement = tenant_id))
     || negb (pfs_generation statement =? generation)%N
     || negb (pfs_recovery_id statement =? recovery_id)%N
     || negb (pfs_log_set_id statement =? lsp_log_set_id policy)%N
     || negb (pfs_policy_epoch statement =? lsp_policy_epoch policy)%N
     || negb (bool_decide (pfs_window statement = staged_window))
     || negb (valid_identity (pfs_window statement))
  then false
  else
    let expected_observations := record_key <$> csw_records staged_window in
    attested pfa_signer_id
      (λ a, bool_decide (observation_key <$> pfa_observations a = expected_observations)
            && member_signed (member_map (lsp_members policy)) (pfa_signer_id a)
                 (prefix_signing_bytes statement (pfa_observations a)) (pfa_signature a))
      (pfc_attestations certificate) (N.to_nat (lsp_quorum_size policy)).

(** ** Capacity, repair and policy-stage certificates *)
Definition capacity_signing_bytes (statement : CellTaggedLogCapacityStatement)
    (a : CellTaggedLogCapacityAttestation) : option bytes :=
  (λ json, TAGGED_LOG_CAPACITY_CERTIFICATE_MAGIC ++ json) <$>
  to_vec (statement, tca_signer_id a, tca_last_position a, tca_popped_through a,
          tca_retained_bytes a, tca_hard_limit_bytes a, tca_sample_epoch a).

Definition verify_tagged_log_capacity_certificate
    (certificate : CellTaggedLogCapacityCertificate) (policy : CellLogSetPolicy) : bool :=
  let statement := tcc_statement certificate in
  if negb (tcs_format_version statement =? 1)%N
     || negb (tcs_generation statement =? lsp_generation policy)%N
     || negb (tcs_log_set_id statement =? lsp_log_set_id policy)%N
     || negb (tcs_policy_epoch statement =? lsp_policy_epoch policy)%N
     || (tcs_projected_frame_bytes statement =? 0)%N
     || (tcs_soft_limit_bytes statement =? 0)%N
     || (tcs_reservation_epoch statement =? 0)%N
  then false
  else
    attested tca_signer_id
      (λ a, negb (tca_sample_epoch a =? 0)%N
            && negb (tca_hard_limit_bytes a <? tcs_soft_limit_bytes statement)%N
            && member_signed (member_map (lsp_members policy)) (tca_signer_id a)
                 (capacity_signing_bytes statement a) (tca_signature a))
      (tcc_attestations certificate) (N.to_nat (lsp_quorum_size policy)).

Definition repair_signing_bytes (statement : CellTaggedLogRepairStatement)
    (a : CellTaggedLogRepairAttestation) : option bytes :=
  (λ json, TAGGED_LOG_REPAIR_CERTIFICATE_MAGIC ++ json) <$>
  to_vec (statement, tra_signer_id a, tra_source_sample_epoch a).

Definition verify_tagged_log_repair_certificate
    (certificate : CellTaggedLogRepairCertificate) (policy : CellLogSetPolicy) : bool :=
  let statement := trc_statement certificate in
  if negb (trs_format_version statement =? 1)%N
     || negb (trs_generation statement =? lsp_generation policy)%N
     || negb (trs_log_set_id statement =? lsp_log_set_id policy)%N
     || negb (trs_policy_epoch statement =? lsp_policy_epoch policy)%N
     || (trs_repair_id statement =? 0)%N || (trs_failed_node_id statement =? 0)%N
     || (trs_learner_node_id statement =? 0)%N
     || (trs_failed_node_id statement =? trs_learner_node_id statement)%N
     || bool_decide (trs_learner_incarnation statement = ZERO16)
     || negb (length (trs_learner_public_key statement) =? 32)
     || (trs_last_position statement =? 0)%N || (trs_popped_through statement =? 0)%N
     || (trs_snapshot_length statement =? 0)%N
     || bool_decide (trs_snapshot_sha256 statement = ZERO32)
     || negb (existsb (λ m, (lsm_node_id m =? trs_failed_node_id statement)%N)
                (lsp_members policy))
     || existsb (λ m, (lsm_node_id m =? trs_learner_node_id statement)%N)
          (lsp_members policy)
  then false
  else
    attested tra_signer_id
      (λ a, negb (tra_source_sample_epoch a =? 0)%N
            && member_signed (member_map (lsp_members policy)) (tra_signer_id a)
                 (repair_signing_bytes statement a) (tra_signature a))
      (trc_attestations certificate) (N.to_nat (lsp_quorum_size policy)).

Definition policy_stage_signing_bytes (statement : CellTaggedLogPolicyStageStatement)
    (a : CellTaggedLogPolicyStageAttestation) : option bytes :=
  (λ json, TAGGED_LOG_POLICY_STAGE_CERTIFICATE_MAGIC ++ json) <$>
  to_vec (statement, psa_signer_id a, psa_source_sample_epoch a).

Definition verify_tagged_log_policy_stage_certificate
    (certificate : CellTaggedLogPolicyStageCertificate)
    (transition : CellLogSetPolicyTransition) : bool :=
  let statement := psc_statement certificate in
  if negb (pss_format_version statement =? 1)%N
     || negb (bool_decide (pss_cell_id statement = lpt_cell_id transition))
     || negb (bool_decide (pss_tenant_id statement = lpt_tenant_id transition))
     || negb (pss_generation statement =? lpt_generation transition)%N
     || negb (pss_transition_id statement =? lpt_transition_id transition)%N
     || negb (pss_log_set_id statement =? lpt_log_set_id transition)%N
     || negb (pss_old_policy_epoch statement
              =? lsp_policy_epoch (lpt_old_policy transition))%N
     || negb (pss_next_policy_epoch statement
              =? lsp_policy_epoch (lpt_next_policy transition))%N
     || negb (bool_decide (pss_transition_sha256 statement
                           = cell_log_set_policy_transition_sha256 transition))
     || negb (bool_decide (pss_retained_root_sha256 statement
                           = lpt_retained_root_sha256 transition))
     || negb (pss_retained_last_position statement
              =? lpt_retained_last_position transition)%N
  then false
  else
    attested psa_signer_id
      (λ a, negb (psa_source_sample_epoch a =? 0)%N
            && member_signed (member_map (lsp_members (lpt_next_policy transition)))
                 (psa_signer_id a) (policy_stage_signing_bytes statement a)
                 (psa_signature a))
      (psc_attestations certificate)
      (N.to_nat (lsp_quorum_size (lpt_next_policy transition))).

Definition valid_log_set_policy_transition (transition : CellLogSetPolicyTransition)
    (repair_readiness : CellTaggedLogRepairCertificate) (current : CellLogSetPolicy)
    (cell_id tenant_id : bytes) (generation : N) : bool :=
  let old_members := member_map (lsp_members (lpt_old_policy transition)) in
  let next_policy := lpt_next_policy transition in
  let next_members := member_map (lsp_members next_policy) in
  let repair := trc_statement repair_readiness in
  (lpt_format_version transition =? 1)%N
  && bool_decide (lpt_cell_id transition = cell_id)
  && bool_decide (lpt_tenant_id transition = tenant_id)
  && (lpt_generation transition =? generation)%N
  && (0 <? lpt_transition_id transition)%N
  && (lpt_log_set_id transition =? lsp_log_set_id current)%N
  && bool_decide (lpt_old_policy transition = current)
  && valid_log_set_policy next_policy generation
  && (lsp_log_set_id next_policy =? lsp_log_set_id current)%N
  && (lsp_policy_epoch next_policy =? saturating_add (lsp_policy_epoch current) 1)%N
  && (lsp_quorum_size next_policy =? lsp_quorum_size current)%N
  && (lsp_ratekeeper_soft_limit_bytes next_policy
      =? lsp_ratekeeper_soft_limit_bytes current)%N
  && (length (lsp_members next_policy) =? length (lsp_members current))
  && bool_decide (keys_without old_members next_members = [lpt_failed_node_id transition])
  && bool_decide (keys_without next_members old_members = [lpt_learner_node_id transition])
  && map_all (λ node_id public_key,
       (node_id =? lpt_failed_node_id transition)%N
       || bool_decide (next_members !! node_id = Some public_key)) old_members
  && bool_decide (next_members !! lpt_learner_node_id transition
                  = Some (lpt_learner_public_key transition))
  && negb (bool_decide (lpt_learner_incarnation transition = ZERO16))
  && (length (lpt_learner_public_key transition) =? 32)
  && bool_decide (trs_phase repair = RepairLearnerReady)
  && bool_decide (trs_cell_id repair = cell_id)
  && bool_decide (trs_tenant_id repair = tenant_id)
  && (trs_generation repair =? generation)%N
  && (trs_log_set_id repair =? lpt_log_set_id transition)%N
  && (trs_policy_epoch repair =? lsp_policy_epoch current)%N
  && (trs_failed_node_id repair =? lpt_failed_node_id transition)%N
  && (trs_learner_node_id repair =? lpt_learner_node_id transition)%N
  && bool_decide (trs_learner_incarnation repair = lpt_learner_incarnation transition)
  && bool_decide (trs_learner_public_key repair = lpt_learner_public_key transition)
  && bool_decide (trs_snapshot_sha256 repair = lpt_retained_root_sha256 transition)
  && (trs_last_position repair =? lpt_retained_last_position transition)%N
  && bool_decide (cell_tagged_log_repair_certificate_sha256 repair_readiness
                  = lpt_repair_readiness_sha256 transition)
  && verify_tagged_log_repair_certificate repair_readiness current.

(** ** Partitioned resolution *)

(** The clipped conflicts each resolver must have decided. *)
Definition required_partitions (command : CellTransactionCommand)
    : gmap N (list CellKeyRange * list CellKeyRange) :=
  foldl (λ required partition,
    let reads := clipped_conflicts (ct_read_conflicts command) partition in
    let writes := clipped_conflicts (ct_write_conflicts command) partition in
    if negb (bool_decide (reads = [])) || negb (bool_decide (writes = []))
    then <[crp_resolver_id partition := (reads, writes)]> required
    else required) ∅ cell_resolver_partitions.

Section resolution.
Context (command : CellTransactionCommand) (resolution : CellPartitionedResolution).
Context (transaction_system_generation resolver_read_sequence : N).
Context (transaction_sha256 map_sha256 : bytes).
Context (required : gmap N (list CellKeyRange * list CellKeyRange)).

Definition resolver_statement_ok (a : CellResolverDecisionAttestation) : bool :=
  let statement := rda_statement a in
  match required !! rds_resolver_id statement with
  | None => false
  | Some (read_conflicts, write_conflicts) =>
      (rds_format_version statement =? 1)%N
      && bool_decide (rds_cell_id statement = ct_cell_id command)
      && bool_decide (rds_tenant_id statement = ct_tenant_id command)
      && (rds_generation statement =? transaction_system_generation)%N
      && (rds_map_epoch statement =? cpr_map_epoch resolution)%N
      && bool_decide (rds_map_sha256 statement = map_sha256)
      && bool_decide (rds_resolver_incarnation statement
                      = cell_resolver_incarnation (rds_resolver_id statement))
      && bool_decide (rds_transaction_identity statement = ct_identity command)
      && (rds_candidate_sequence statement =? cpr_candidate_sequence resolution)%N
      && bool_decide (rds_read_version statement = ct_read_version command)
      && (rds_resolver_read_sequence statement =? resolver_read_sequence)%N
      && bool_decide (rds_transaction_sha256 statement = transaction_sha256)
      && bool_decide (rds_read_conflicts statement = read_conflicts)
      && bool_decide (rds_write_conflicts statement = write_conflicts)
      && match resolver_signing_bytes statement with
         | None => false
         | Some bytes =>
             ed25519_verify
               (cell_resolver_public_key (rds_resolver_id statement)
                  (rds_resolver_incarnation statement)) bytes (rda_signature a)
         end
  end.
End resolution.

Definition resolution_generation (command : CellTransactionCommand)
    (resolution : CellPartitionedResolution) : N :=
  if (cpr_transaction_system_generation resolution =? 0)%N then ct_generation command
  else cpr_transaction_system_generation resolution.

(** [Ok None] is [Err(())]. *)
Definition verify_partitioned_resolution (command : CellTransactionCommand)
    (resolution : CellPartitionedResolution)
    : res CommitCodecError (option CellResolverDecision) :=
  if negb (cpr_map_epoch resolution =? 1)%N || (cpr_candidate_sequence resolution =? 0)%N
  then Ok None
  else
    let resolver_read_sequence :=
      if (cpr_resolver_read_sequence resolution =? 0)%N
      then crv_sequence (ct_read_version command)
      else cpr_resolver_read_sequence resolution in
    match cell_partitioned_transaction_sha256 command with
    | None => Ok None
    | Some transaction_sha256 =>
        let? map_sha256 := cell_resolver_map_sha256 in
        let required := required_partitions command in
        if bool_decide (required = ∅)
           || negb (length (cpr_attestations resolution) =? size required)
        then Ok None
        else
          match attest_loop (λ a, rds_resolver_id (rda_statement a))
                  (resolver_statement_ok command resolution
                     (resolution_generation command resolution) resolver_read_sequence
                     transaction_sha256 map_sha256 required)
                  (cpr_attestations resolution) ∅ with
          | None => Ok None
          | Some distinct =>
              if negb (size distinct =? size required) then Ok None
              else
                Ok (Some (if existsb
                               (λ a, bool_decide (rds_decision (rda_statement a) = RConflict))
                               (cpr_attestations resolution)
                          then RConflict else RAccept))
          end
    end.
End cert.
