(* ===== verification/CellState.v ===== *)
(** * Cell transactions: the replicated state machine

    [CellTransactionState] of [okv-consensus/src/cell_transaction.rs]: the
    direct path [apply], and [apply_staged] with one definition per action. An
    operation works on its domain and returns the domain it leaves with its
    answer; [Panic] is a failed [expect] on a serialization or on an envelope
    length. SHA-256, Ed25519 and the JSON encodings are parameters. *)

From S2P Require Import Prelude Order BTree Bytes Version Quorum Envelope.
From S2P Require Export CellCert.

(** [expect]. *)
Definition expect {E A} (o : option A) : res E A :=
  match o with Some a => Ok a | None => Panic end.

(** [domains.iter().position(..)], pushing a fresh domain when there is none. *)
Fixpoint domain_position (domains : CellTransactionState) (cell_id tenant_id : bytes) : nat :=
  match domains with
  | [] => 0
  | d :: domains =>
      if bool_decide (cd_cell_id d = cell_id) && bool_decide (cd_tenant_id d = tenant_id)
      then 0 else S (domain_position domains cell_id tenant_id)
  end.

Definition with_domain {R} (domains : CellTransactionState) (cell_id tenant_id : bytes)
    (generation : N) (f : CellDomainState → res CommitCodecError (CellDomainState * R))
    : res CommitCodecError (CellTransactionState * R) :=
  let domain_index := domain_position domains cell_id tenant_id in
  let domains :=
    if domain_index <? length domains then domains
    else domains ++ [CellDomainState_new cell_id tenant_id generation] in
  let? domain := expect (domains !! domain_index) in
  let? '(domain, response) := f domain in
  Ok (<[domain_index := domain]> domains, response).

Definition row_count (d : CellDomainState) : N := N.of_nat (size (cd_rows d)).
Definition unresolved (s : StagedTransaction) : bool :=
  negb (st_visible s) && negb (st_aborted s).

Definition mark_visible (s : StagedTransaction) : StagedTransaction :=
  { s with st_visible := true }.
Definition mark_aborted (s : StagedTransaction) : StagedTransaction :=
  { s with st_aborted := true }.

(** [iter().position(|staged| staged.identity == identity)] and [find]. *)
Fixpoint staged_position (l : list StagedTransaction) (identity : RequestIdentity)
    : option nat :=
  match l with
  | [] => None
  | s :: l =>
      if decide (st_identity s = identity) then Some 0
      else S <$> staged_position l identity
  end.
Definition find_staged (d : CellDomainState) (identity : RequestIdentity)
    : option StagedTransaction :=
  match staged_position (cd_staged_transactions d) identity with
  | Some i => cd_staged_transactions d !! i
  | None => None
  end.

(** The mutations of a transaction on the rows. *)
Definition apply_mutation (rows : gmap bytes bytes) (m : CellMutation) : gmap bytes bytes :=
  match m with CClear key => delete key rows | CSet key value => <[key := value]> rows end.
Definition apply_mutations (ms : list CellMutation) (rows : gmap bytes bytes)
    : gmap bytes bytes := foldl apply_mutation rows ms.

Definition pushed_writes (sequence : N) (ranges : list CellKeyRange) : list CommittedWrite :=
  (λ range, {| cw_sequence := sequence; cw_range := range |}) <$> ranges.

Definition client_bytes (identity : RequestIdentity) : bytes :=
  replicate 8 0%N ++ u64_be (rid_client_id identity).

(** Whether a resolver candidate follows the last one of the domain. *)
Definition candidate_order_valid (d : CellDomainState) (generation candidate : N) : bool :=
  if (generation =? cd_last_resolver_transaction_system_generation d)%N
  then (candidate =? saturating_add (cd_last_resolver_candidate d) 1)%N
  else (cd_last_resolver_transaction_system_generation d <? generation)%N
       && (cd_last_resolver_candidate d <? candidate)%N.

Definition required_resolver_ids (c : CellTransactionCommand) : list N :=
  match ct_partitioned_resolution c with
  | None => REQUIRED_RESOLVERS
  | Some resolution => (λ a, rds_resolver_id (rda_statement a)) <$> cpr_attestations resolution
  end.

Section cell.
Context (sha256 : bytes → bytes).
Context `{Ed25519} `{CellJson}.
Implicit Types (d : CellDomainState) (faults : GenerationFenceFaults).

(** The evidence of a partitioned transaction: the domain that remembers the
    candidate, and the decision; [None] when the order or the evidence is
    invalid, told apart by the flag. *)
Inductive evidence :=
  | EvNone
  | EvDecision (d : CellDomainState) (decision : CellResolverDecision)
  | EvOutOfOrder
  | EvInvalid.

Definition resolver_evidence d (c : CellTransactionCommand) : res CommitCodecError evidence :=
  match ct_partitioned_resolution c with
  | None => Ok EvNone
  | Some resolution =>
      let generation := resolution_generation c resolution in
      if negb (candidate_order_valid d generation (cpr_candidate_sequence resolution))
      then Ok EvOutOfOrder
      else
        let? decision := verify_partitioned_resolution sha256 c resolution in
        match decision with
        | None => Ok EvInvalid
        | Some decision =>
            Ok (EvDecision
              { d with cd_last_resolver_candidate := cpr_candidate_sequence resolution;
                       cd_last_resolver_transaction_system_generation := generation } decision)
        end
  end.

(** The envelope of a commit at [commit_sequence]. *)
Definition commit_envelope (c : CellTransactionCommand) (commit_sequence log_index : N)
    (tags : list N) (previous_log_chain : bytes) : res CommitCodecError bytes :=
  let? read_conflicts := expect (to_vec (ct_read_conflicts c)) in
  let? write_conflicts := expect (to_vec (ct_write_conflicts c)) in
  let? canonical_mutations := expect (to_vec (ct_mutations c)) in
  let? envelope := Envelope.from_parts sha256
    {| part_cell_id := ct_cell_id c; part_tenant_id := ct_tenant_id c;
       part_generation := ct_generation c;
       part_version := Version.from_parts (ct_generation c) commit_sequence;
       part_log_index := log_index; part_client_id := client_bytes (ct_identity c);
       part_request_id := rid_request_id (ct_identity c);
       part_resolver_set_id := RESOLVER_SET_ID; part_read_conflicts := read_conflicts;
       part_write_conflicts := write_conflicts;
       part_canonical_mutations := canonical_mutations;
       part_required_resolvers := required_resolver_ids c;
       part_required_log_tags := tags; part_previous_log_chain := previous_log_chain |} in
  envelope_encode envelope.

(** ** The direct path *)
Definition direct_reject d (c : CellTransactionCommand) (status : CellTransactionStatus)
    : CellDomainState * CellTransactionApplyResponse :=
  (d, {| ctr_status := status; ctr_generation := ct_generation c;
         ctr_commit_sequence := None; ctr_envelope := None; ctr_row_count := row_count d |}).

Definition committed_conflict d (c : CellTransactionCommand) : bool :=
  existsb (λ read,
    existsb (λ write,
      (crv_sequence (ct_read_version c) <? cw_sequence write)%N
      && range_overlaps read (cw_range write)) (cd_committed_writes d))
    (ct_read_conflicts c).

Definition direct_commit d (c : CellTransactionCommand) (log_index : N)
    : res CommitCodecError (CellDomainState * CellTransactionApplyResponse) :=
  let? encoded := commit_envelope c log_index log_index REQUIRED_LOG_TAGS
                    (cd_previous_log_chain d) in
  let d' :=
    { d with cd_rows := apply_mutations (ct_mutations c) (cd_rows d);
             cd_committed_writes :=
               cd_committed_writes d ++ pushed_writes log_index (ct_write_conflicts c);
             cd_generation := ct_generation c;
             cd_latest_sequence := log_index;
             cd_previous_log_chain := sha256 encoded;
             cd_committed_envelopes := cd_committed_envelopes d ++ [encoded] } in
  Ok (d', {| ctr_status := TCommitted; ctr_generation := ct_generation c;
             ctr_commit_sequence := Some log_index; ctr_envelope := Some encoded;
             ctr_row_count := row_count d' |}).

Definition direct_apply (c : CellTransactionCommand) (log_index : N) faults d
    : res CommitCodecError (CellDomainState * CellTransactionApplyResponse) :=
  let d :=
    if allow_successor_to_skip_staged_head faults
       && (ct_generation c =? saturating_add (cd_generation d) 1)%N
       && existsb unresolved (cd_staged_transactions d)
    then { d with cd_generation := ct_generation c } else d in
  if (ct_generation c =? 0)%N || negb (cd_generation d =? ct_generation c)%N
     || (negb (crv_sequence (ct_read_version c) =? 0)%N
         && negb (crv_generation (ct_read_version c) =? ct_generation c)%N)
  then Ok (direct_reject d c TInvalidReadVersion)
  else if (cd_latest_sequence d <? crv_sequence (ct_read_version c))%N
  then Ok (direct_reject d c TFutureReadVersion)
  else if negb (contains_all (ct_durable_log_tags c) REQUIRED_LOG_TAGS)
  then Ok (direct_reject d c TMissingLogTag)
  else if negb (valid_request c) then Ok (direct_reject d c TInvalidRequest)
  else
    let? ev := resolver_evidence d c in
    match ev with
    | EvOutOfOrder => Ok (direct_reject d c TInvalidRequest)
    | EvInvalid => Ok (direct_reject d c TMissingResolver)
    | EvDecision d RConflict => Ok (direct_reject d c TConflict)
    | EvDecision d RAccept => direct_commit d c log_index
    | EvNone =>
        if negb (contains_all (ct_accepted_resolvers c) REQUIRED_RESOLVERS)
        then Ok (direct_reject d c TMissingResolver)
        else if committed_conflict d c then Ok (direct_reject d c TConflict)
        else direct_commit d c log_index
    end.

(** ** Answers of the staged path *)
Definition staged_response d (identity : RequestIdentity)
    (status : CellStagedTransactionStatus) (envelope : option bytes)
    : CellStagedTransactionApplyResponse :=
  let capacity_key := capacity_identity_key identity in
  let staged := find_staged d identity in
  {| csr_status := status; csr_transaction_identity := identity;
     csr_generation := cd_generation d;
     csr_commit_sequence := st_commit_sequence <$> staged;
     csr_envelope :=
       match envelope with Some e => Some e | None => st_envelope <$> staged end;
     csr_durable_log_sets :=
       match staged with
       | None => []
       | Some s => bts_items (dom (st_receipts s) ∪ dom (st_certificates s))
       end;
     csr_visible := match staged with Some s => st_visible s | None => false end;
     csr_aborted := match staged with Some s => st_aborted s | None => false end;
     csr_row_count := row_count d; csr_recovered_records := 0; csr_aborted_records := 0;
     csr_capacity_retry_token := cd_capacity_retry_tokens d !! capacity_key;
     csr_capacity_reservation_epoch :=
       match cd_capacity_reservations d !! capacity_key with
       | Some reservation => Some (cap_reservation_epoch reservation)
       | None => cd_capacity_attempt_epochs d !! capacity_key
       end |}.

Abbreviation staged_reply := (CellDomainState * CellStagedTransactionApplyResponse)%type.

Definition answer (cmd : CellStagedTransactionCommand) d
    (status : CellStagedTransactionStatus) : staged_reply :=
  (d, staged_response d (cs_transaction_identity cmd) status None).

(** The status of a command that names an already staged transaction. *)
Definition staged_again (existing : StagedTransaction) (transaction : CellTransactionCommand)
    : CellStagedTransactionStatus :=
  if negb (bool_decide (st_transaction existing = transaction)) then SInvalidRequest
  else if st_visible existing then SAlreadyCommitted
  else if st_aborted existing then SAlreadyAborted
  else SStaged.

Definition pending_transition_touches d (tags : list N) : bool :=
  match cd_pending_log_set_policy_transition d with
  | Some pending => bool_decide (lpt_log_set_id pending ∈ tags)
  | None => false
  end.

(** ** Policies *)
Definition install_log_set_policies (cmd : CellStagedTransactionCommand)
    (policies : list CellLogSetPolicy) d : staged_reply :=
  if bool_decide (policies = []) || existsb unresolved (cd_staged_transactions d)
     || existsb (λ policy,
          negb (valid_log_set_policy policy (cs_generation cmd))
          || match cd_log_set_policies d !! lsp_log_set_id policy with
             | Some existing =>
                 negb (bool_decide (existing = policy))
                 && (lsp_generation existing =? lsp_generation policy)%N
             | None => false
             end) policies
     || negb (size (set_of (lsp_log_set_id <$> policies)) =? length policies)
  then answer cmd d SInvalidLogSetPolicy
  else
    answer cmd
      { d with cd_log_set_policies :=
          foldl (λ m policy, <[lsp_log_set_id policy := policy]> m)
            (cd_log_set_policies d) policies } SLogSetPoliciesInstalled.

Definition prepare_policy_transition (cmd : CellStagedTransactionCommand)
    (transition : CellLogSetPolicyTransition)
    (repair_readiness : CellTaggedLogRepairCertificate) faults d : staged_reply :=
  match cd_completed_log_set_policy_transitions d !! lpt_transition_id transition with
  | Some completed =>
      answer cmd d
        (if bool_decide (cpt_transition completed = transition)
         then SAlreadyPolicyTransitionCommitted else SInvalidPolicyTransition)
  | None =>
      match cd_pending_log_set_policy_transition d with
      | Some pending =>
          answer cmd d
            (if bool_decide (pending = transition)
             then SPolicyTransitionPrepared else SInvalidPolicyTransition)
      | None =>
          let is_unresolved := existsb unresolved (cd_staged_transactions d) in
          let valid :=
            match cd_log_set_policies d !! lpt_log_set_id transition with
            | Some current =>
                valid_log_set_policy_transition sha256 transition repair_readiness current
                  (cs_cell_id cmd) (cs_tenant_id cmd) (cs_generation cmd)
            | None => false
            end in
          let readiness_missing :=
            bool_decide (lpt_repair_readiness_sha256 transition = ZERO32) in
          let accepts_invalid :=
            policy_transition_accept_invalid_next_policy faults
            || (readiness_missing && policy_transition_accept_missing_readiness faults) in
          if (is_unresolved && negb (policy_transition_accept_unresolved_stage faults))
             || (negb valid && negb accepts_invalid)
          then answer cmd d SInvalidPolicyTransition
          else
            answer cmd
              { d with cd_pending_log_set_policy_transition := Some transition;
                       cd_latest_sequence := saturating_add (cd_latest_sequence d) 1 }
              SPolicyTransitionPrepared
      end
  end.

Definition commit_policy_transition (cmd : CellStagedTransactionCommand)
    (transition_id : N) (successor_stage : CellTaggedLogPolicyStageCertificate)
    (log_index : N) faults d : staged_reply :=
  let stage_sha256 := cell_tagged_log_policy_stage_certificate_sha256 sha256 successor_stage in
  match cd_completed_log_set_policy_transitions d !! transition_id with
  | Some completed =>
      answer cmd d
        (if policy_transition_double_apply faults then SPolicyTransitionCommitted
         else if bool_decide (cpt_successor_stage_sha256 completed = stage_sha256)
         then SAlreadyPolicyTransitionCommitted else SInvalidPolicyTransition)
  | None =>
      match cd_pending_log_set_policy_transition d with
      | None => answer cmd d SInvalidPolicyTransition
      | Some transition =>
          let is_unresolved := existsb unresolved (cd_staged_transactions d) in
          if negb (lpt_transition_id transition =? transition_id)%N
             || (is_unresolved && negb (policy_transition_accept_unresolved_stage faults))
             || (negb (verify_tagged_log_policy_stage_certificate sha256 successor_stage
                         transition)
                 && negb (policy_transition_accept_mixed_stage_quorum faults))
          then answer cmd d SInvalidPolicyTransition
          else
            answer cmd
              { d with
                cd_log_set_policies :=
                  <[lpt_log_set_id transition := lpt_next_policy transition]>
                    (cd_log_set_policies d);
                cd_completed_log_set_policy_transitions :=
                  <[transition_id :=
                      {| cpt_transition := transition;
                         cpt_successor_stage_sha256 := stage_sha256;
                         cpt_authority_commit_index := log_index |}]>
                    (cd_completed_log_set_policy_transitions d);
                cd_pending_log_set_policy_transition := None;
                cd_latest_sequence := saturating_add (cd_latest_sequence d) 1 }
              SPolicyTransitionCommitted
      end
  end.

(** ** Capacity *)

(** The guards [ReserveCapacity] and [Stage] share. *)
Definition transaction_matches (cmd : CellStagedTransactionCommand)
    (t : CellTransactionCommand) : bool :=
  bool_decide (ct_identity t = cs_transaction_identity cmd)
  && bool_decide (ct_cell_id t = cs_cell_id cmd)
  && bool_decide (ct_tenant_id t = cs_tenant_id cmd)
  && (ct_generation t =? cs_generation cmd)%N
  && bool_decide (ct_credential t = cs_credential cmd).

(** The policies of the transaction's log sets that limit retained bytes. *)
Definition configured_policies d (t : CellTransactionCommand) : list CellLogSetPolicy :=
  List.filter (λ policy, (0 <? lsp_ratekeeper_soft_limit_bytes policy)%N)
    (omap (λ log_set, cd_log_set_policies d !! log_set) (ct_durable_log_tags t)).

Definition capacity_certificate_valid d (t : CellTransactionCommand)
    (reservation_epoch : N) faults (certificate : CellTaggedLogCapacityCertificate) : bool :=
  let statement := tcc_statement certificate in
  match cd_log_set_policies d !! tcs_log_set_id statement with
  | None => false
  | Some policy =>
      bool_decide (tcs_log_set_id statement ∈ ct_durable_log_tags t)
      && bool_decide (tcs_cell_id statement = ct_cell_id t)
      && bool_decide (tcs_tenant_id statement = ct_tenant_id t)
      && (tcs_generation statement =? ct_generation t)%N
      && bool_decide (tcs_transaction_identity statement = ct_identity t)
      && bool_decide (Some (tcs_transaction_sha256 statement)
                      = ratekeeper_transaction_sha256 sha256 t)
      && (tcs_soft_limit_bytes statement =? lsp_ratekeeper_soft_limit_bytes policy)%N
      && (tcs_reservation_epoch statement =? reservation_epoch)%N
      && (ratekeeper_accept_stale_sample faults
          || forallb (λ a,
               (default 0 (default ∅ (cd_capacity_sample_epochs d
                                        !! tcs_log_set_id statement) !! tca_signer_id a)
                <? tca_sample_epoch a)%N) (tcc_attestations certificate))
      && verify_tagged_log_capacity_certificate certificate policy
  end.

Definition has_capacity (configured : list CellLogSetPolicy)
    (certificates : list CellTaggedLogCapacityCertificate) faults : bool :=
  forallb (λ policy,
    match List.find (λ c, (tcs_log_set_id (tcc_statement c) =? lsp_log_set_id policy)%N)
            certificates with
    | None => false
    | Some certificate =>
        let eligible :=
          length (List.filter (λ a,
            (saturating_add (tca_retained_bytes a)
               (tcs_projected_frame_bytes (tcc_statement certificate))
             <=? lsp_ratekeeper_soft_limit_bytes policy)%N) (tcc_attestations certificate)) in
        (if ratekeeper_accept_best_node_capacity faults then 1
         else N.to_nat (lsp_quorum_size policy)) <=? eligible
    end) configured.

(** [entry(key).or_insert_with(value)]. *)
Definition or_insert {V} (key : bytes) (value : V) (m : gmap bytes V) : gmap bytes V :=
  match m !! key with Some _ => m | None => <[key := value]> m end.

Definition certificate_samples (c : CellTaggedLogCapacityCertificate) : N * gmap N N :=
  (tcs_log_set_id (tcc_statement c),
   collect_map ((λ a, (tca_signer_id a, tca_sample_epoch a)) <$> tcc_attestations c)).

Definition reserve_capacity (cmd : CellStagedTransactionCommand)
    (t : CellTransactionCommand) (certificates : list CellTaggedLogCapacityCertificate)
    faults d : staged_reply :=
  let capacity_key := capacity_identity_key (cs_transaction_identity cmd) in
  if negb (transaction_matches cmd t)
     || (cd_latest_sequence d <? crv_sequence (ct_read_version t))%N
     || negb (contains_all (ct_accepted_resolvers t) REQUIRED_RESOLVERS)
     || negb (contains_all (ct_durable_log_tags t) REQUIRED_LOG_TAGS)
     || negb (valid_request t)
  then answer cmd d SInvalidRequest
  else if pending_transition_touches d (ct_durable_log_tags t)
  then answer cmd d SInvalidPolicyTransition
  else
    let existing := find_staged d (cs_transaction_identity cmd) in
    let tolerated e :=
      ratekeeper_allow_stage_without_reservation faults
      && bool_decide (st_transaction e = t) && unresolved e in
    let early :=
      match existing with
      | Some e => if tolerated e then None else Some (answer cmd d (staged_again e t))
      | None => None
      end in
    match early with
    | Some reply => reply
    | None =>
        let configured := configured_policies d t in
        let distinct := set_of ((λ c, tcs_log_set_id (tcc_statement c)) <$> certificates) in
        let reservation_epoch :=
          match certificates with
          | c :: _ => tcs_reservation_epoch (tcc_statement c)
          | [] => 0%N
          end in
        let previous_epoch := default 0%N (cd_capacity_attempt_epochs d !! capacity_key) in
        let certificates_valid :=
          negb (bool_decide (configured = []))
          && (length configured =? length certificates)
          && (size distinct =? length certificates)
          && (previous_epoch <? reservation_epoch)%N
          && forallb (capacity_certificate_valid d t reservation_epoch faults) certificates in
        if negb certificates_valid then answer cmd d SInvalidCapacityCertificate
        else
          let d :=
            { d with
              cd_capacity_attempt_epochs :=
                <[capacity_key := reservation_epoch]> (cd_capacity_attempt_epochs d);
              cd_capacity_retry_tokens :=
                or_insert capacity_key
                  (capacity_retry_token sha256 (cs_transaction_identity cmd))
                  (cd_capacity_retry_tokens d) } in
          if negb (has_capacity configured certificates faults) then
            answer cmd
              { d with cd_capacity_reservations :=
                  delete capacity_key (cd_capacity_reservations d) } SRateLimited
          else
            answer cmd
              { d with cd_capacity_reservations :=
                  <[capacity_key :=
                      {| cap_transaction := t; cap_reservation_epoch := reservation_epoch;
                         cap_sample_epochs := collect_map (certificate_samples <$> certificates)
                      |}]> (cd_capacity_reservations d) } SCapacityReserved
    end.

(** Consuming a reservation keeps the largest sample epoch of each signer. *)
Definition merge_samples (retained samples : gmap N N) : gmap N N :=
  foldl (λ m e,
    <[e.1 := match m !! e.1 with Some current => N.max current e.2 | None => e.2 end]> m)
    retained (bt_items samples).

Definition consume_reservation (capacity_key : bytes) d : CellDomainState :=
  match cd_capacity_reservations d !! capacity_key with
  | None => d
  | Some reservation =>
      { d with
        cd_capacity_reservations := delete capacity_key (cd_capacity_reservations d);
        cd_capacity_sample_epochs :=
          foldl (λ m e, <[e.1 := merge_samples (default ∅ (m !! e.1)) e.2]> m)
            (cd_capacity_sample_epochs d) (bt_items (cap_sample_epochs reservation)) }
  end.

(** ** Staging *)
Definition staged_conflict d (t : CellTransactionCommand) : bool :=
  existsb (λ read,
    existsb (λ write,
      (crv_sequence (ct_read_version t) <? cw_sequence write)%N
      && range_overlaps read (cw_range write)) (cd_committed_writes d)
    || existsb (λ staged,
         negb (st_aborted staged)
         && (crv_sequence (ct_read_version t) <? st_commit_sequence staged)%N
         && existsb (range_overlaps read) (ct_write_conflicts (st_transaction staged)))
         (cd_staged_transactions d))
    (ct_read_conflicts t).

(** [staged.iter().rev().find(f)]. *)
Definition rfind (f : StagedTransaction → bool) (l : list StagedTransaction)
    : option StagedTransaction := List.find f (reverse l).

Definition stage_previous_chain d faults : bytes :=
  match rfind (λ s, reuse_aborted_sequence_or_chain faults || negb (st_aborted s))
          (cd_staged_transactions d) with
  | None => cd_previous_log_chain d
  | Some s => sha256 (st_envelope s)
  end.

Definition stage_sequence d faults : N :=
  saturating_add
    (match rfind (λ s, negb (reuse_aborted_sequence_or_chain faults) || negb (st_aborted s))
             (cd_staged_transactions d) with
     | None => cd_latest_sequence d
     | Some s => st_commit_sequence s
     end) 1.

Definition stage_request_valid (cmd : CellStagedTransactionCommand)
    (t : CellTransactionCommand) d : bool :=
  let configured_policy_count :=
    length (List.filter (λ log_set, is_some (cd_log_set_policies d !! log_set))
              (ct_durable_log_tags t)) in
  transaction_matches cmd t
  && ((crv_sequence (ct_read_version t) =? 0)%N
      || (crv_generation (ct_read_version t) =? ct_generation t)%N)
  && (crv_sequence (ct_read_version t) <=? cd_latest_sequence d)%N
  && (is_some (ct_partitioned_resolution t)
      || contains_all (ct_accepted_resolvers t) REQUIRED_RESOLVERS)
  && contains_all (ct_durable_log_tags t) REQUIRED_LOG_TAGS
  && ((configured_policy_count =? 0)
      || (configured_policy_count =? length (ct_durable_log_tags t)))
  && valid_request t.

Definition ratekeeping_required d (t : CellTransactionCommand) : bool :=
  existsb (λ log_set,
    match cd_log_set_policies d !! log_set with
    | Some policy => (0 <? lsp_ratekeeper_soft_limit_bytes policy)%N
    | None => false
    end) (ct_durable_log_tags t).

(** Numbering, sealing and remembering an admitted transaction. *)
Definition stage_admit (cmd : CellStagedTransactionCommand) (t : CellTransactionCommand)
    (log_index : N) faults d : res CommitCodecError staged_reply :=
  let commit_sequence := stage_sequence d faults in
  let? encoded := commit_envelope t commit_sequence log_index (ct_durable_log_tags t)
                    (stage_previous_chain d faults) in
  let staged :=
    {| st_identity := cs_transaction_identity cmd; st_transaction := t;
       st_commit_sequence := commit_sequence; st_envelope := encoded;
       st_receipts := ∅; st_certificates := ∅; st_visible := false; st_aborted := false |} in
  let d := { d with cd_staged_transactions := cd_staged_transactions d ++ [staged] } in
  let d := consume_reservation (capacity_identity_key (cs_transaction_identity cmd)) d in
  Ok (d, staged_response d (cs_transaction_identity cmd) SStaged (Some encoded)).

Definition stage_resolved (cmd : CellStagedTransactionCommand) (t : CellTransactionCommand)
    (log_index : N) faults (centralized : bool) d : res CommitCodecError staged_reply :=
  let capacity_key := capacity_identity_key (cs_transaction_identity cmd) in
  if ratekeeping_required d t
     && negb (ratekeeper_allow_stage_without_reservation faults)
     && negb match cd_capacity_reservations d !! capacity_key with
             | Some reservation => bool_decide (cap_transaction reservation = t)
             | None => false
             end
  then Ok (answer cmd d SRatekeepingRequired)
  else if centralized && staged_conflict d t then Ok (answer cmd d SConflict)
  else stage_admit cmd t log_index faults d.

Definition stage (cmd : CellStagedTransactionCommand) (t : CellTransactionCommand)
    (log_index : N) faults d : res CommitCodecError staged_reply :=
  if negb (stage_request_valid cmd t d) then Ok (answer cmd d SInvalidRequest)
  else if pending_transition_touches d (ct_durable_log_tags t)
  then Ok (answer cmd d SInvalidPolicyTransition)
  else
    match find_staged d (cs_transaction_identity cmd) with
    | Some existing => Ok (answer cmd d (staged_again existing t))
    | None =>
        let? ev := resolver_evidence d t in
        match ev with
        | EvOutOfOrder | EvInvalid => Ok (answer cmd d SInvalidRequest)
        | EvDecision d RConflict => Ok (answer cmd d SConflict)
        | EvDecision d RAccept => stage_resolved cmd t log_index faults false d
        | EvNone => stage_resolved cmd t log_index faults true d
        end
    end.

(** ** Durability evidence *)
Definition update_staged d (i : nat) (f : StagedTransaction → StagedTransaction)
    : CellDomainState :=
  { d with cd_staged_transactions := alter f i (cd_staged_transactions d) }.

(** Act on the staged transaction a command names. *)
Definition on_staged (cmd : CellStagedTransactionCommand) d
    (missing : CellStagedTransactionStatus)
    (f : nat → StagedTransaction → res CommitCodecError staged_reply)
    : res CommitCodecError staged_reply :=
  match staged_position (cd_staged_transactions d) (cs_transaction_identity cmd) with
  | None => Ok (answer cmd d missing)
  | Some i =>
      match cd_staged_transactions d !! i with
      | None => Panic
      | Some staged => f i staged
      end
  end.

Definition record_log_receipt (cmd : CellStagedTransactionCommand)
    (receipt : CellTaggedLogReceipt) d : res CommitCodecError staged_reply :=
  on_staged cmd d SInvalidRequest (λ i staged,
    if st_aborted staged then Ok (answer cmd d SAlreadyAborted)
    else if is_some (cd_log_set_policies d !! tlr_log_set_id receipt)
    then Ok (answer cmd d SInvalidLogReceipt)
    else
      let quorum := set_of (tlr_quorum_node_ids receipt) in
      if negb (tlr_format_version receipt =? 1)%N
         || negb (tlr_generation receipt =? cs_generation cmd)%N
         || negb (bool_decide (cs_credential cmd = ct_credential (st_transaction staged)))
         || negb (bool_decide (tlr_envelope_sha256 receipt = sha256 (st_envelope staged)))
         || (tlr_durable_position receipt =? 0)%N
         || (size quorum <? 2)
         || negb (size quorum =? length (tlr_quorum_node_ids receipt))
         || negb (bool_decide (tlr_log_set_id receipt
                               ∈ ct_durable_log_tags (st_transaction staged)))
      then Ok (answer cmd d SInvalidLogReceipt)
      else
        match st_receipts staged !! tlr_log_set_id receipt with
        | Some existing =>
            Ok (answer cmd d (if bool_decide (existing = receipt)
                              then SLogReceiptRecorded else SConflictingLogReceipt))
        | None =>
            Ok (answer cmd
              (update_staged d i (λ s,
                 { s with st_receipts := <[tlr_log_set_id receipt := receipt]> (st_receipts s) }))
              SLogReceiptRecorded)
        end).

Definition record_log_certificate (cmd : CellStagedTransactionCommand)
    (certificate : CellTaggedLogCertificate) d : res CommitCodecError staged_reply :=
  on_staged cmd d SInvalidRequest (λ i staged,
    if st_aborted staged then Ok (answer cmd d SAlreadyAborted)
    else
      let log_set_id := tls_log_set_id (tlc_statement certificate) in
      match cd_log_set_policies d !! log_set_id with
      | None => Ok (answer cmd d SInvalidLogCertificate)
      | Some policy =>
          if negb (bool_decide (cs_credential cmd = ct_credential (st_transaction staged)))
             || negb (verify_tagged_log_certificate sha256 certificate policy staged
                        (cs_cell_id cmd) (cs_tenant_id cmd) (cs_generation cmd))
          then Ok (answer cmd d SInvalidLogCertificate)
          else
            match st_certificates staged !! log_set_id with
            | Some existing =>
                Ok (answer cmd d (if bool_decide (existing = certificate)
                                  then SLogCertificateRecorded
                                  else SConflictingLogCertificate))
            | None =>
                Ok (answer cmd
                  (update_staged d i (λ s,
                     { s with st_certificates :=
                         <[log_set_id := certificate]> (st_certificates s) }))
                  SLogCertificateRecorded)
            end
      end).

(** ** Publication *)
Definition publish_staged_transaction d (staged_index : nat) (next_generation : option N)
    : res CommitCodecError (CellDomainState * bytes) :=
  match cd_staged_transactions d !! staged_index with
  | None => Panic
  | Some staged =>
      let t := st_transaction staged in
      let commit_sequence := st_commit_sequence staged in
      let envelope := st_envelope staged in
      Ok ({ d with
            cd_rows := apply_mutations (ct_mutations t) (cd_rows d);
            cd_committed_writes :=
              cd_committed_writes d ++ pushed_writes commit_sequence (ct_write_conflicts t);
            cd_generation := default (ct_generation t) next_generation;
            cd_latest_sequence := commit_sequence;
            cd_previous_log_chain := sha256 envelope;
            cd_committed_envelopes := cd_committed_envelopes d ++ [envelope];
            cd_staged_transactions :=
              alter mark_visible staged_index (cd_staged_transactions d) }, envelope)
  end.

Definition publish_complete d (staged : StagedTransaction) : bool :=
  forallb (λ log_set,
    if is_some (cd_log_set_policies d !! log_set)
    then is_some (st_certificates staged !! log_set)
    else is_some (st_receipts staged !! log_set))
    (ct_durable_log_tags (st_transaction staged)).

Definition publish (cmd : CellStagedTransactionCommand) d
    : res CommitCodecError staged_reply :=
  on_staged cmd d SInvalidRequest (λ i staged,
    if st_visible staged then Ok (answer cmd d SAlreadyCommitted)
    else if st_aborted staged then Ok (answer cmd d SAlreadyAborted)
    else if negb (bool_decide (cs_credential cmd = ct_credential (st_transaction staged)))
    then Ok (answer cmd d SInvalidRequest)
    else
      let earlier_pending :=
        existsb (λ s, unresolved s && (st_commit_sequence s <? st_commit_sequence staged)%N)
          (cd_staged_transactions d) in
      if negb (publish_complete d staged) || earlier_pending
      then Ok (answer cmd d SMissingLogReceipt)
      else
        let? '(d, envelope) := publish_staged_transaction d i None in
        Ok (d, staged_response d (cs_transaction_identity cmd) SCommitted (Some envelope))).

(** ** Takeover *)
Definition successor_authorized (cmd : CellStagedTransactionCommand)
    (authority : GenerationAuthorityState) (recovery_id : N) faults : bool :=
  match cs_credential cmd with
  | None => false
  | Some credential =>
      (gc_generation credential =? cs_generation cmd)%N
      && (authorizes authority (gc_generation credential)
            (gc_transaction_system_id credential)
          || (accept_apply_during_recovery faults
              && authorizes_recovery authority (gc_generation credential) recovery_id
                   (gc_transaction_system_id credential)))
  end.

Definition recovery_completed (authority : GenerationAuthorityState) (recovery_id : N)
    : bool := bool_decide (ga_last_completed_recovery_id authority = Some recovery_id).

Definition envelope_exact (encoded : bytes) (generation commit_sequence : N) : bool :=
  match envelope_decode sha256 encoded with
  | Ok envelope =>
      (env_generation envelope =? generation)%N
      && (sequence (env_version envelope) =? commit_sequence)%N
  | _ => false
  end.

Definition unresolved_count d : nat :=
  length (List.filter unresolved (cd_staged_transactions d)).

Definition takeover_publish (cmd : CellStagedTransactionCommand)
    (previous_generation recovery_id expected_commit_sequence : N)
    (expected_envelope_sha256 : bytes) (authority : GenerationAuthorityState) faults d
    : res CommitCodecError staged_reply :=
  on_staged cmd d SInvalidGenerationTakeover (λ i staged,
    if st_visible staged && (cd_generation d =? cs_generation cmd)%N
    then Ok (answer cmd d SAlreadyCommitted)
    else
      let certificates_complete :=
        forallb (λ log_set, is_some (st_certificates staged !! log_set))
          (ct_durable_log_tags (st_transaction staged)) in
      if negb (successor_authorized cmd authority recovery_id faults)
         || (negb (accept_apply_during_recovery faults)
             && negb (recovery_completed authority recovery_id))
         || negb (cs_generation cmd =? saturating_add previous_generation 1)%N
         || negb (cd_generation d =? previous_generation)%N
         || negb (ct_generation (st_transaction staged) =? previous_generation)%N
         || (negb (ignore_staged_head_takeover_expectation faults)
             && (negb (st_commit_sequence staged =? expected_commit_sequence)%N
                 || negb (bool_decide (sha256 (st_envelope staged)
                                       = expected_envelope_sha256))))
         || negb (envelope_exact (st_envelope staged) previous_generation
                    expected_commit_sequence)
         || (negb (accept_incomplete_staged_head faults) && negb certificates_complete)
         || negb (unresolved_count d =? 1)
      then Ok (answer cmd d SInvalidGenerationTakeover)
      else
        let? '(d, envelope) := publish_staged_transaction d i (Some (cs_generation cmd)) in
        Ok (d, staged_response d (cs_transaction_identity cmd) SCommitted (Some envelope))).

Definition absence_quorum d (missing : gset N) (certificate : CellTaggedLogFenceCertificate)
    : bool :=
  bool_decide (tfs_log_set_id (tfc_statement certificate) ∈ missing)
  && match cd_log_set_policies d !! tfs_log_set_id (tfc_statement certificate) with
     | Some policy =>
         N.to_nat (lsp_quorum_size policy)
         <=? length (List.filter (λ a, negb (tfa_record_present a))
                       (tfc_attestations certificate))
     | None => false
     end.

Definition abort_proof_valid (cmd : CellStagedTransactionCommand)
    (previous_generation recovery_id : N)
    (log_set_fences : list CellTaggedLogFenceCertificate) (staged : StagedTransaction) d
    : bool :=
  let required_log_sets := set_of (ct_durable_log_tags (st_transaction staged)) in
  let fenced_log_sets :=
    set_of ((λ c, tfs_log_set_id (tfc_statement c)) <$> log_set_fences) in
  let every_fence_valid :=
    bool_decide (fenced_log_sets = required_log_sets)
    && (size fenced_log_sets =? length log_set_fences)
    && forallb (λ certificate,
         match cd_log_set_policies d !! tfs_log_set_id (tfc_statement certificate) with
         | Some policy =>
             verify_tagged_log_fence_certificate sha256 certificate policy staged
               (cs_cell_id cmd) (cs_tenant_id cmd) previous_generation recovery_id
         | None => false
         end) log_set_fences in
  let missing_durability :=
    set_of (List.filter (λ log_set, negb (is_some (st_certificates staged !! log_set)))
              (bts_items required_log_sets)) in
  negb (bool_decide (missing_durability = ∅)) && every_fence_valid
  && existsb (absence_quorum d missing_durability) log_set_fences.

Definition takeover_abort (cmd : CellStagedTransactionCommand)
    (previous_generation recovery_id expected_commit_sequence : N)
    (expected_envelope_sha256 : bytes) (log_set_fences : list CellTaggedLogFenceCertificate)
    (authority : GenerationAuthorityState) faults d : res CommitCodecError staged_reply :=
  on_staged cmd d SInvalidGenerationTakeover (λ i staged,
    if st_aborted staged && (cd_generation d =? cs_generation cmd)%N
    then Ok (answer cmd d SAlreadyAborted)
    else if
      negb (successor_authorized cmd authority recovery_id faults)
      || (negb (accept_apply_during_recovery faults)
          && negb (recovery_completed authority recovery_id))
      || negb (cs_generation cmd =? saturating_add previous_generation 1)%N
      || negb (cd_generation d =? previous_generation)%N
      || negb (ct_generation (st_transaction staged) =? previous_generation)%N
      || st_visible staged
      || negb (st_commit_sequence staged =? expected_commit_sequence)%N
      || negb (bool_decide (sha256 (st_envelope staged) = expected_envelope_sha256))
      || negb (envelope_exact (st_envelope staged) previous_generation
                 expected_commit_sequence)
      || (negb (accept_invalid_staged_abort_proof faults)
          && negb (abort_proof_valid cmd previous_generation recovery_id log_set_fences
                     staged d))
      || negb (unresolved_count d =? 1)
    then Ok (answer cmd d SInvalidGenerationTakeover)
    else
      let d := update_staged d i mark_aborted in
      Ok (answer cmd { d with cd_generation := cs_generation cmd } SAborted)).

(** *** Recovery of a staged prefix *)
Definition staged_prefix_response d (identity : RequestIdentity)
    (status : CellStagedTransactionStatus) (recovered_records aborted_records : nat)
    : CellStagedTransactionApplyResponse :=
  { staged_response d identity status None with
    csr_recovered_records := N.of_nat recovered_records;
    csr_aborted_records := N.of_nat aborted_records }.

(** The positions of the records of a window, each checked against its entry. *)
Fixpoint window_indexes (previous_generation : N) (l : list StagedTransaction)
    (records : list CellStagedWindowRecord) : option (list (nat * StagedTransaction)) :=
  match records with
  | [] => Some []
  | expected :: records =>
      match staged_position l (swr_transaction_identity expected) with
      | None => None
      | Some i =>
          match l !! i with
          | None => None
          | Some staged =>
              if negb (st_commit_sequence staged =? swr_commit_sequence expected)%N
                 || negb (bool_decide (sha256 (st_envelope staged)
                                       = swr_envelope_sha256 expected))
                 || negb (ct_generation (st_transaction staged) =? previous_generation)%N
              then None
              else ((i, staged) ::.) <$> window_indexes previous_generation l records
          end
      end
  end.

Fixpoint increasing (l : list nat) : bool :=
  match l with
  | a :: (b :: _) as rest => (a <? b) && increasing rest
  | _ => true
  end.

Definition unresolved_indexes (l : list StagedTransaction) : list nat :=
  (List.filter (λ e, unresolved e.2) (imap pair l)).*1.

(** The log chain of the window; [None] accepts any predecessor. *)
Fixpoint chain_exact (previous_generation : N) (expected : option bytes)
    (window : list StagedTransaction) : bool :=
  match window with
  | [] => true
  | staged :: window =>
      match envelope_decode sha256 (st_envelope staged) with
      | Ok envelope =>
          (env_generation envelope =? previous_generation)%N
          && (sequence (env_version envelope) =? st_commit_sequence staged)%N
          && match expected with
             | None => true
             | Some chain => bool_decide (env_previous_log_chain envelope = chain)
             end
          && chain_exact previous_generation (Some (sha256 (st_envelope staged))) window
      | _ => false
      end
  end.

Definition inventories_valid (cmd : CellStagedTransactionCommand)
    (previous_generation recovery_id : N) (w : CellStagedWindow)
    (inventories : list CellTaggedLogPrefixFenceCertificate) (required : gset N) faults d
    : bool :=
  let supplied := set_of ((λ c, pfs_log_set_id (pfc_statement c)) <$> inventories) in
  (if accept_missing_staged_inventory faults
   then negb (bool_decide (supplied = ∅)) && bool_decide (supplied ⊆ required)
   else bool_decide (supplied = required))
  && (size supplied =? length inventories)
  && forallb (λ certificate,
       match cd_log_set_policies d !! pfs_log_set_id (pfc_statement certificate) with
       | Some policy =>
           verify_tagged_log_prefix_fence_certificate sha256 certificate policy w
             (cs_cell_id cmd) (cs_tenant_id cmd) previous_generation recovery_id
       | None => false
       end) inventories.

(** What an inventory says about one record. *)
Definition observed (record : CellStagedWindowRecord) (present : bool)
    (a : CellTaggedLogPrefixFenceAttestation) : bool :=
  match List.find (λ o, bool_decide (observation_key o = record_key record))
          (pfa_observations a) with
  | Some o => Bool.eqb (pfo_record_present o) present
  | None => false
  end.

(** Present everywhere and absent somewhere; [None] rejects the window. *)
Fixpoint record_presence d (record : CellStagedWindowRecord)
    (inventories : list CellTaggedLogPrefixFenceCertificate)
    (present_everywhere absent_somewhere : bool) : option (bool * bool) :=
  match inventories with
  | [] => Some (present_everywhere, absent_somewhere)
  | certificate :: inventories =>
      match cd_log_set_policies d !! pfs_log_set_id (pfc_statement certificate) with
      | None => None
      | Some policy =>
          let quorum := N.to_nat (lsp_quorum_size policy) in
          let present :=
            length (List.filter (observed record true) (pfc_attestations certificate)) in
          let absent :=
            length (List.filter (observed record false) (pfc_attestations certificate)) in
          if (quorum <=? present) && (quorum <=? absent) then None
          else
            record_presence d record inventories
              (present_everywhere && (quorum <=? present))
              (absent_somewhere || (quorum <=? absent))
      end
  end.

(** The number of records to recover, and whether an absent one ends them. *)
Fixpoint recovered_prefix d (inventories : list CellTaggedLogPrefixFenceCertificate)
    (records : list CellStagedWindowRecord) (recovered_count : nat) : option (nat * bool) :=
  match records with
  | [] => Some (recovered_count, false)
  | record :: records =>
      match record_presence d record inventories true false with
      | None => None
      | Some (true, _) => recovered_prefix d inventories records (S recovered_count)
      | Some (false, true) => Some (recovered_count, true)
      | Some (false, false) => None
      end
  end.

(** Publish the first [recovered_count] records of the window, abort the rest. *)
Fixpoint resolve_window (indexes : list nat) (offset total recovered_count : nat)
    (next_generation : N) faults d : res CommitCodecError CellDomainState :=
  match indexes with
  | [] => Ok d
  | i :: indexes =>
      let abort := update_staged d i mark_aborted in
      let? d' :=
        if offset <? recovered_count then
          if skip_recoverable_staged_prefix faults && (offset =? 0) then Ok abort
          else let? '(d, _) := publish_staged_transaction d i (Some next_generation) in Ok d
        else if retain_aborted_staged_suffix faults && (offset =? total - 1) then
          let? '(d, _) := publish_staged_transaction d i (Some next_generation) in Ok d
        else Ok abort in
      resolve_window indexes (S offset) total recovered_count next_generation faults d'
  end.

Definition count_staged d (f : StagedTransaction → bool) (indexes : list nat) : nat :=
  length (List.filter f (omap (λ i, cd_staged_transactions d !! i) indexes)).

Definition apply_takeover_recover_prefix (cmd : CellStagedTransactionCommand)
    (previous_generation recovery_id : N) (w : CellStagedWindow)
    (inventories : list CellTaggedLogPrefixFenceCertificate)
    (authority : GenerationAuthorityState) faults d : res CommitCodecError staged_reply :=
  let invalid := Ok (answer cmd d SInvalidStagedPrefix) in
  let authorized :=
    match cs_credential cmd with
    | None => false
    | Some credential =>
        (gc_generation credential =? cs_generation cmd)%N
        && authorizes authority (gc_generation credential)
             (gc_transaction_system_id credential)
    end in
  if negb authorized || negb (recovery_completed authority recovery_id)
     || negb (cs_generation cmd =? saturating_add previous_generation 1)%N
     || negb (valid_identity sha256 w)
  then invalid
  else
    match window_indexes previous_generation (cd_staged_transactions d) (csw_records w) with
    | None => invalid
    | Some window =>
        let indexes := window.*1 in
        let staged := window.*2 in
        let encoded_bytes :=
          foldl (λ total s, saturating_add total (len (st_envelope s))) 0%N staged in
        let within_limit :=
          (length (csw_records w) <=? MAX_STAGED_PREFIX_RECORDS)
          && (encoded_bytes <=? MAX_STAGED_PREFIX_BYTES)%N in
        let retry :=
          (cd_generation d =? cs_generation cmd)%N
          && forallb (λ s, st_visible s || st_aborted s) staged in
        let required :=
          match staged with
          | s :: _ => set_of (ct_durable_log_tags (st_transaction s))
          | [] => ∅
          end in
        if negb (csw_encoded_bytes w =? encoded_bytes)%N
           || (negb (accept_over_limit_staged_window faults) && negb within_limit)
           || negb (increasing indexes)
        then invalid
        else if negb retry
                && (negb (cd_generation d =? previous_generation)%N
                    || negb (bool_decide (unresolved_indexes (cd_staged_transactions d)
                                          = indexes)))
        then invalid
        else if negb (chain_exact previous_generation
                        (if retry then None else Some (cd_previous_log_chain d)) staged)
        then invalid
        else if bool_decide (required = ∅)
                || existsb (λ s, negb (bool_decide
                     (set_of (ct_durable_log_tags (st_transaction s)) = required))) staged
        then invalid
        else if negb (inventories_valid cmd previous_generation recovery_id w inventories
                        required faults d)
        then invalid
        else
          match recovered_prefix d inventories (csw_records w) 0 with
          | None => invalid
          | Some (recovered_count, absent_boundary) =>
              if negb absent_boundary && negb (recovered_count =? length indexes)
              then invalid
              else
                let recovered_count :=
                  if abort_quorum_present_staged_record faults && (0 <? recovered_count)
                  then recovered_count - 1 else recovered_count in
                let recovered_count :=
                  if publish_beyond_staged_absence faults
                     && (recovered_count <? length indexes)
                  then S recovered_count else recovered_count in
                if retry then
                  Ok (d, staged_prefix_response d (cs_transaction_identity cmd)
                           SAlreadyPrefixRecovered (count_staged d st_visible indexes)
                           (count_staged d st_aborted indexes))
                else
                  let? d := resolve_window indexes 0 (length indexes) recovered_count
                              (cs_generation cmd) faults d in
                  let d := { d with cd_generation := cs_generation cmd } in
                  Ok (d, staged_prefix_response d (cs_transaction_identity cmd)
                           SPrefixRecovered (count_staged d st_visible indexes)
                           (count_staged d st_aborted indexes))
          end
    end.

(** ** Dispatch *)
Definition is_takeover (action : CellStagedTransactionAction) : bool :=
  match action with
  | TakeoverPublish _ _ _ _ | TakeoverAbort _ _ _ _ _ | TakeoverRecoverPrefix _ _ _ _ => true
  | _ => false
  end.

Definition staged_apply (cmd : CellStagedTransactionCommand) (log_index : N)
    (authority : GenerationAuthorityState) faults d : res CommitCodecError staged_reply :=
  if (cs_generation cmd =? 0)%N
     || (negb (is_takeover (cs_action cmd))
         && negb (cd_generation d =? cs_generation cmd)%N)
  then Ok (answer cmd d SInvalidRequest)
  else
    match cs_action cmd with
    | InstallLogSetPolicies policies => Ok (install_log_set_policies cmd policies d)
    | PrepareLogSetPolicyTransition transition repair_readiness =>
        Ok (prepare_policy_transition cmd transition repair_readiness faults d)
    | CommitLogSetPolicyTransition transition_id successor_stage =>
        Ok (commit_policy_transition cmd transition_id successor_stage log_index faults d)
    | ReserveCapacity transaction certificates =>
        Ok (reserve_capacity cmd transaction certificates faults d)
    | Stage transaction => stage cmd transaction log_index faults d
    | RecordLogReceipt receipt => record_log_receipt cmd receipt d
    | RecordLogCertificate certificate => record_log_certificate cmd certificate d
    | Publish => publish cmd d
    | TakeoverPublish previous_generation recovery_id sequence digest =>
        takeover_publish cmd previous_generation recovery_id sequence digest authority
          faults d
    | TakeoverAbort previous_generation recovery_id sequence digest fences =>
        takeover_abort cmd previous_generation recovery_id sequence digest fences authority
          faults d
    | TakeoverRecoverPrefix previous_generation recovery_id window inventories =>
        apply_takeover_recover_prefix cmd previous_generation recovery_id window
          inventories authority faults d
    end.

Definition cell_apply (s : CellTransactionState) (c : CellTransactionCommand)
    (log_index : N) faults
    : res CommitCodecError (CellTransactionState * CellTransactionApplyResponse) :=
  with_domain s (ct_cell_id c) (ct_tenant_id c) (ct_generation c)
    (direct_apply c log_index faults).

Definition cell_apply_staged (s : CellTransactionState) (cmd : CellStagedTransactionCommand)
    (log_index : N) (authority : GenerationAuthorityState) faults
    : res CommitCodecError (CellTransactionState * CellStagedTransactionApplyResponse) :=
  with_domain s (cs_cell_id cmd) (cs_tenant_id cmd) (cs_generation cmd)
    (staged_apply cmd log_index authority faults).

(** ** The committed-envelope feed *)
Inductive FeedError :=
  | InvalidVersionBound
  | UnknownDomain
  | StaleFeedGeneration
  | TargetBeyondLatest (target latest : N)
  | FeedCodec (error : CommitCodecError)
  | EmptySuffix
  | SuffixEnds (last expected : N).

(** The envelopes with a version in [(after, through]]. *)
Fixpoint feed_suffix (after through : N) (l : list bytes) : res FeedError (list bytes) :=
  match l with
  | [] => Ok []
  | encoded :: l =>
      let? envelope := map_err FeedCodec (envelope_decode sha256 encoded) in
      let version := sequence (env_version envelope) in
      let? rest := feed_suffix after through l in
      Ok (if (after <? version)%N && (version <=? through)%N then encoded :: rest else rest)
  end.

Definition committed_envelope_feed (s : CellTransactionState)
    (request : CellCommittedEnvelopeRequest) (authority_position : RecoveryLogPosition)
    : res FeedError CellCommittedEnvelopeFeed :=
  if (cer_generation request =? 0)%N
     || (cer_through_version request <=? cer_after_version request)%N
     || (rlp_index authority_position <? cer_through_version request)%N
  then Err InvalidVersionBound
  else
    match s !! domain_position s (cer_cell_id request) (cer_tenant_id request) with
    | None => Err UnknownDomain
    | Some d =>
        if negb (cd_generation d =? cer_generation request)%N then Err StaleFeedGeneration
        else if (cd_latest_sequence d <? cer_through_version request)%N
        then Err (TargetBeyondLatest (cer_through_version request) (cd_latest_sequence d))
        else
          let? envelopes := feed_suffix (cer_after_version request)
                              (cer_through_version request) (cd_committed_envelopes d) in
          match last envelopes with
          | None => Err EmptySuffix
          | Some encoded =>
              let? envelope := map_err FeedCodec (envelope_decode sha256 encoded) in
              let last_version := sequence (env_version envelope) in
              if negb (last_version =? cer_through_version request)%N
              then Err (SuffixEnds last_version (cer_through_version request))
              else
                Ok {| cef_authority_position := authority_position;
                      cef_cell_id := cer_cell_id request;
                      cef_tenant_id := cer_tenant_id request;
                      cef_generation := cer_generation request;
                      cef_after_version := cer_after_version request;
                      cef_through_version := cer_through_version request;
                      cef_latest_commit_version := cd_latest_sequence d;
                      cef_envelopes := envelopes |}
          end
    end.
End cell.
