(* ===== verification/CellSerial.v ===== *)
(** * Serializability of conflict-checked histories

    The argument both commit paths share: a history is a list of transactions
    with their commit sequences; replaying it gives the rows; a transaction
    none of whose read ranges overlaps a write committed after its read version
    finds, at its place in the history, the values it read. *)

From S2P Require Import Prelude Order BTree Bytes Quorum.
From S2P Require Import CellState.

Abbreviation commit := (N * CellTransactionCommand)%type.

Definition commit_apply (rows : gmap bytes bytes) (c : commit) : gmap bytes bytes :=
  apply_mutations (ct_mutations c.2) rows.
Definition replay (base : gmap bytes bytes) (h : list commit) : gmap bytes bytes :=
  foldl commit_apply base h.

(** The keys a transaction declares it read. *)
Definition reads (t : CellTransactionCommand) (k : bytes) : Prop :=
  ∃ r, r ∈ ct_read_conflicts t ∧ range_contains r k = true.

Definition read_sequence (t : CellTransactionCommand) : N := crv_sequence (ct_read_version t).

(** None of [t]'s read ranges meets one of the write ranges. *)
Definition undisturbed (t : CellTransactionCommand) (writes : list CellKeyRange) : Prop :=
  ∀ r w, r ∈ ct_read_conflicts t → w ∈ writes → range_overlaps r w = false.

Definition commit_lt (c1 c2 : commit) : Prop := (c1.1 < c2.1)%N.
Abbreviation commits_sorted := (StronglySorted commit_lt).

Lemma contains_overlaps r1 r2 k :
  range_contains r1 k = true → range_contains r2 k = true → range_overlaps r1 r2 = true.
Proof.
  unfold range_contains, range_overlaps. intros H1 H2. destruct_bool_hyps.
  apply andb_true_iff. split; key_order.
Qed.

(** What an admitted request guarantees. *)
Lemma valid_request_covered c m :
  valid_request c = true → m ∈ ct_mutations c →
  ∃ w, w ∈ ct_write_conflicts c ∧ range_contains w (mutation_key m) = true.
Proof.
  unfold valid_request. case_guards; [done|]. intros Hv Hm. destruct_bool_hyps.
  match goal with Hc : forallb _ _ = true |- _ => apply forallb_Forall in Hc;
    rewrite Forall_forall in Hc; apply Hc in Hm; by apply existsb_exists' in Hm end.
Qed.

Lemma apply_mutations_untouched ms rows k :
  (∀ m, m ∈ ms → mutation_key m ≠ k) → apply_mutations ms rows !! k = rows !! k.
Proof.
  unfold apply_mutations. revert rows. induction ms as [|m ms IH]; intros rows Hk; [done|].
  cbn [foldl]. rewrite IH by (intros m' Hm'; apply Hk; by constructor).
  assert (mutation_key m ≠ k) as Hm by (apply Hk; by constructor).
  destruct m; cbn in *; [by rewrite lookup_delete_ne|by rewrite lookup_insert_ne].
Qed.

(** An undisturbed read survives a commit. *)
Lemma undisturbed_apply t c rows k :
  valid_request c.2 = true → undisturbed t (ct_write_conflicts c.2) → reads t k →
  commit_apply rows c !! k = rows !! k.
Proof.
  intros Hv Hu (r & Hr & Hk). apply apply_mutations_untouched. intros m Hm <-.
  destruct (valid_request_covered _ _ Hv Hm) as (w & Hw & Hwk).
  specialize (Hu r w Hr Hw). by rewrite (contains_overlaps _ _ _ Hk Hwk) in Hu.
Qed.

Lemma undisturbed_replay t h rows k :
  (∀ c, c ∈ h → valid_request c.2 = true ∧ undisturbed t (ct_write_conflicts c.2)) →
  reads t k → replay rows h !! k = rows !! k.
Proof.
  unfold replay. intros Hh Hk. revert rows. induction h as [|c h IH]; intros rows; [done|].
  cbn [foldl]. rewrite IH by (intros c' Hc'; apply Hh; by constructor).
  destruct (Hh c) as [? ?]; [by constructor|]. by eapply undisturbed_apply.
Qed.

Lemma replay_app rows h1 h2 : replay rows (h1 ++ h2) = replay (replay rows h1) h2.
Proof. apply foldl_app. Qed.

(** A sorted history splits at any sequence. *)
Definition upto (v : N) (h : list commit) : list commit :=
  List.filter (λ c, (c.1 <=? v)%N) h.
Definition before (v : N) (h : list commit) : list commit :=
  List.filter (λ c, (c.1 <? v)%N) h.

Lemma elem_of_upto v h c : c ∈ upto v h ↔ c ∈ h ∧ (c.1 ≤ v)%N.
Proof. unfold upto. by rewrite list_elem_of_In, filter_In, <-list_elem_of_In, N.leb_le. Qed.
Lemma elem_of_before v h c : c ∈ before v h ↔ c ∈ h ∧ (c.1 < v)%N.
Proof. unfold before. by rewrite list_elem_of_In, filter_In, <-list_elem_of_In, N.ltb_lt. Qed.

Lemma upto_split v h :
  commits_sorted h → h = upto v h ++ List.filter (λ c, negb (c.1 <=? v)%N) h.
Proof.
  induction 1 as [|c h Hh IH Hc]; [done|]. cbn [upto List.filter].
  destruct (c.1 <=? v)%N eqn:E; cbn [negb].
  { cbn [app]. f_equal. apply IH. }
  assert (List.filter (λ c, (c.1 <=? v)%N) h = []) as ->.
  { apply N.leb_gt in E. clear IH Hh. induction Hc as [|c' h Hlt _ IHc]; [done|]. cbn.
    unfold commit_lt in Hlt. rewrite (proj2 (N.leb_gt _ _)) by lia. done. }
  cbn [app]. f_equal. clear IH. apply N.leb_gt in E.
  induction Hc as [|c' h Hlt _ IHc]; [done|]. cbn. unfold commit_lt in Hlt.
  rewrite (proj2 (N.leb_gt _ _)) by lia. cbn. f_equal. apply IHc. by inversion Hh.
Qed.

(** A transaction reads at its place what it read at its version. *)
Lemma serial_read base h seq t k :
  commits_sorted h → reads t k →
  (∀ c, c ∈ h → (read_sequence t < c.1)%N → (c.1 < seq)%N →
     valid_request c.2 = true ∧ undisturbed t (ct_write_conflicts c.2)) →
  (read_sequence t < seq)%N →
  replay base (upto (read_sequence t) h) !! k = replay base (before seq h) !! k.
Proof.
  intros Hs Hk Hfree Hlt.
  assert (commits_sorted (before seq h)) as Hsb by by apply ssorted_lfilter.
  rewrite (upto_split (read_sequence t) (before seq h)) by done.
  assert (upto (read_sequence t) (before seq h) = upto (read_sequence t) h) as ->.
  { apply (ssorted_ext commit_lt); [unfold commit_lt; lia|by apply ssorted_lfilter..|].
    intros c. rewrite !elem_of_upto, elem_of_before. naive_solver lia. }
  rewrite replay_app. symmetry. apply (undisturbed_replay t); [|done].
  intros c Hc. rewrite list_elem_of_In, filter_In, <-list_elem_of_In in Hc.
  destruct Hc as [Hc Hgt]. apply elem_of_before in Hc as [Hc Hlt'].
  apply negb_true_iff, N.leb_gt in Hgt. by apply Hfree.
Qed.

Lemma existsb2_false {A B} (f : A → B → bool) la lb :
  existsb (λ a, existsb (f a) lb) la = false ↔
  ∀ a b, a ∈ la → b ∈ lb → f a b = false.
Proof. rewrite existsb_false. setoid_rewrite existsb_false. naive_solver. Qed.

Lemma sorted_last_le h c : commits_sorted h → c ∈ h →
  (c.1 ≤ match last h with Some l => l.1 | None => 0 end)%N.
Proof.
  intros Hs Hc. destruct (last h) as [l|] eqn:El.
  - apply last_Some in El as [h' ->].
    apply elem_of_app in Hc as [Hc|Hc%list_elem_of_singleton]; [|subst; lia].
    enough (commit_lt c l) by (unfold commit_lt in *; lia).
    eapply (StronglySorted_app_1_elem_of _ h' [l]); [done..|]. by apply list_elem_of_singleton.
  - apply last_None in El as ->. by apply elem_of_nil in Hc.
Qed.

Lemma sorted_snoc h c :
  commits_sorted h → (∀ c', c' ∈ h → commit_lt c' c) → commits_sorted (h ++ [c]).
Proof.
  intros Hs. induction Hs as [|c0 h Hh IH Hc0]; intros Hlt; simpl; [repeat constructor|].
  constructor; [apply IH; intros c' Hc'; apply Hlt; by constructor|].
  apply Forall_app. split; [done|]. repeat constructor. apply Hlt. constructor.
Qed.

(** The writes a history leaves for the conflict check. *)
Definition history_writes (h : list commit) : list CommittedWrite :=
  concat ((λ c : commit, pushed_writes c.1 (ct_write_conflicts c.2)) <$> h).

Lemma elem_of_history_writes h c w :
  c ∈ h → w ∈ ct_write_conflicts c.2 →
  {| cw_sequence := c.1; cw_range := w |} ∈ history_writes h.
Proof.
  intros Hc Hw. unfold history_writes. apply list_elem_of_In, in_concat.
  exists (pushed_writes c.1 (ct_write_conflicts c.2)). split.
  - apply in_map_iff. exists c. split; [done|]. by apply list_elem_of_In.
  - apply list_elem_of_In. unfold pushed_writes. apply list_elem_of_fmap. by exists w.
Qed.

Lemma history_writes_snoc h c :
  history_writes (h ++ [c]) = history_writes h ++ pushed_writes c.1 (ct_write_conflicts c.2).
Proof. unfold history_writes. rewrite fmap_app, concat_app. simpl. by rewrite app_nil_r. Qed.

Lemma no_conflict_undisturbed ws t c :
  existsb (λ read, existsb (λ write,
      (read_sequence t <? cw_sequence write)%N && range_overlaps read (cw_range write)) ws)
    (ct_read_conflicts t) = false →
  (∀ w, w ∈ ct_write_conflicts c.2 → {| cw_sequence := c.1; cw_range := w |} ∈ ws) →
  (read_sequence t < c.1)%N → undisturbed t (ct_write_conflicts c.2).
Proof.
  intros Hc Hin Hlt r w Hr Hw. rewrite existsb2_false in Hc.
  specialize (Hc r _ Hr (Hin w Hw)). cbn in Hc.
  by rewrite (proj2 (N.ltb_lt _ _) Hlt) in Hc.
Qed.

(** The committed part of a domain. *)
Definition same_commits (d d' : CellDomainState) : Prop :=
  cd_rows d' = cd_rows d ∧ cd_latest_sequence d' = cd_latest_sequence d ∧
  cd_committed_writes d' = cd_committed_writes d ∧
  cd_committed_envelopes d' = cd_committed_envelopes d ∧
  cd_previous_log_chain d' = cd_previous_log_chain d.

(** The resolver evidence only moves the candidate counters. *)
Lemma resolver_evidence_same sha256 `{Ed25519} `{CellJson} d c d' decision :
  resolver_evidence sha256 d c = Ok (EvDecision d' decision) →
  same_commits d d' ∧ cd_staged_transactions d' = cd_staged_transactions d.
Proof.
  unfold resolver_evidence. destruct (ct_partitioned_resolution c); [|done].
  case_guards; [done|]. intros (o & _ & Ho)%res_bind_Ok.
  destruct o; [|done]. injection Ho as <- _. by destruct d.
Qed.
