(* ===== verification/CellDemo.v ===== *)
(** * Concrete cell transactions

    Instances of the encodings and signatures, and transactions, from which the
    concrete runs of the cell components are built. A signature is the public
    key followed by the message. *)

From S2P Require Import Prelude Order BTree Bytes Quorum.
From S2P Require Import CellState.

Module demo_cell.
#[export] Instance demo_ed25519 : Ed25519 :=
  {| ed25519_public_key := λ seed, seed;
     ed25519_verify := λ key message signature, bool_decide (signature = key ++ message) |}.

(** Every value is serialized to an empty byte string but for the window and
    transition tuples, which carry a number. *)
#[export] Instance demo_json : CellJson :=
  {| json_ranges := λ _, Some []; json_mutations := λ _, Some [];
     json_transaction := λ t, Some [rid_request_id (ct_identity t)];
     json_partitions := λ _, Some [3%N];
     json_decision := λ st, Some [rds_resolver_id st; rds_candidate_sequence st];
     json_log := λ st, Some [tls_log_set_id st; tls_commit_sequence st];
     json_fence := λ st, Some [tfs_log_set_id st; tfs_commit_sequence st];
     json_prefix := λ p, Some [pfs_log_set_id p.1; len p.2];
     json_window := λ w, Some [len w.2];
     json_capacity := λ _, Some []; json_repair := λ p, Some [trs_repair_id p.1.1];
     json_policy_stage := λ p, Some [pss_transition_id p.1.1];
     json_transition := λ t, Some [lpt_transition_id t];
     json_repair_certificate := λ c, Some [trs_repair_id (trc_statement c)];
     json_stage_certificate := λ c, Some [pss_transition_id (psc_statement c)] |}.

Definition CELL : bytes := replicate 16 17%N.
Definition TENANT : bytes := replicate 16 34%N.
Definition key_a : bytes := [97%N].
Definition key_b : bytes := [98%N].
Definition ident (n : N) : RequestIdentity := {| rid_client_id := 7; rid_request_id := n |}.

(** Transaction [n] of generation 1 that read [keys] at [version] and sets
    [written]. *)
Definition txn (n version : N) (keys : list bytes) (written : bytes) (value : N)
    : CellTransactionCommand :=
  {| ct_identity := ident n; ct_credential := None; ct_cell_id := CELL;
     ct_tenant_id := TENANT; ct_generation := 1;
     ct_read_version := {| crv_generation := 1; crv_sequence := version |};
     ct_read_conflicts := range_point <$> keys;
     ct_write_conflicts := [range_point written];
     ct_mutations := [CSet written [value]];
     ct_partitioned_resolution := None; ct_accepted_resolvers := [1; 2]%N;
     ct_durable_log_tags := [10; 20]%N |}.

Definition fresh : CellDomainState := CellDomainState_new CELL TENANT 1.

(** The value of a run that is known to succeed. *)
Definition ok_or {E A} (a : A) (r : res E A) : A :=
  match r with Ok x => x | _ => a end.
End demo_cell.
