(* ===== verification/CellDirect.v ===== *)
(** * The direct commit path

    Runs of [apply] on one cell domain: the rows are the replay of the
    committed transactions in log order, the committed envelopes form a hash
    chain, and every transaction resolved centrally read, at its place in that
    order, what it read at its version. *)

From S2P Require Import Prelude Order BTree Bytes Version Quorum Envelope EnvelopeCodec.
From S2P Require Import CellState CellSerial CellDemo.

Section direct.
Context (sha256 : bytes → bytes).
Context `{Ed25519} `{CellJson}.

Abbreviation direct := (direct_apply sha256).
Abbreviation domain := CellDomainState.

(** A sequence of commands with their log indexes, collecting what commits. *)
Fixpoint direct_run (ops : list (CellTransactionCommand * N)) (d : domain)
    (h : list commit) : res CommitCodecError (domain * list commit) :=
  match ops with
  | [] => Ok (d, h)
  | (c, i) :: ops =>
      let? '(d', r) := direct c i no_fence_faults d in
      direct_run ops d' (if decide (ctr_status r = TCommitted) then h ++ [(i, c)] else h)
  end.

(** The envelopes of a history, each sealed over the digest of the previous. *)
Fixpoint chained (previous : bytes) (h : list commit) (envelopes : list bytes) : Prop :=
  match h, envelopes with
  | [], [] => True
  | (i, c) :: h, e :: es =>
      commit_envelope sha256 c i i REQUIRED_LOG_TAGS previous = Ok e ∧ chained (sha256 e) h es
  | _, _ => False
  end.

Definition chain_end (previous : bytes) (envelopes : list bytes) : bytes :=
  match last envelopes with Some e => sha256 e | None => previous end.

Lemma chain_end_cons previous e es : chain_end previous (e :: es) = chain_end (sha256 e) es.
Proof. unfold chain_end. rewrite last_cons. by destruct (last es). Qed.

Lemma chained_snoc previous h es i c e :
  chained previous h es →
  commit_envelope sha256 c i i REQUIRED_LOG_TAGS (chain_end previous es) = Ok e →
  chained previous (h ++ [(i, c)]) (es ++ [e]).
Proof.
  revert previous es. induction h as [|[j c'] h IH]; intros previous [|e' es] Hc He;
    simpl in Hc; try done.
  destruct Hc as [? Hc]. rewrite chain_end_cons in He. cbn [app chained]. auto.
Qed.

(** ** The invariant of a run that started from [ZERO32] *)
Record direct_inv (d : domain) (h : list commit) : Prop := {
  di_rows : cd_rows d = replay ∅ h;
  di_sorted : commits_sorted h;
  di_latest : cd_latest_sequence d = match last h with Some c => c.1 | None => 0%N end;
  di_writes : cd_committed_writes d = history_writes h;
  di_chained : chained ZERO32 h (cd_committed_envelopes d);
  di_chain : cd_previous_log_chain d = chain_end ZERO32 (cd_committed_envelopes d);
  di_valid : ∀ c, c ∈ h → valid_request c.2 = true ∧ (read_sequence c.2 < c.1)%N;
  di_free : ∀ seq t c, (seq, t) ∈ h → ct_partitioned_resolution t = None → c ∈ h →
    (read_sequence t < c.1)%N → (c.1 < seq)%N → undisturbed t (ct_write_conflicts c.2);
}.

Lemma direct_inv_same d d' h : same_commits d d' → direct_inv d h → direct_inv d' h.
Proof. intros (E1 & E2 & E3 & E4 & E5) []. split; by rewrite ?E1, ?E2, ?E3, ?E4, ?E5. Qed.

(** The domain a commit leaves. *)
Definition commits_to (d : domain) (c : CellTransactionCommand) (i : N) (d' : domain) : Prop :=
  cd_rows d' = apply_mutations (ct_mutations c) (cd_rows d) ∧
  cd_latest_sequence d' = i ∧
  cd_committed_writes d' = cd_committed_writes d ++ pushed_writes i (ct_write_conflicts c) ∧
  ∃ e, commit_envelope sha256 c i i REQUIRED_LOG_TAGS (cd_previous_log_chain d) = Ok e ∧
    cd_committed_envelopes d' = cd_committed_envelopes d ++ [e] ∧
    cd_previous_log_chain d' = sha256 e.

Lemma direct_commit_to d d0 c i d' r :
  same_commits d d0 → direct_commit sha256 d0 c i = Ok (d', r) →
  ctr_status r = TCommitted ∧ commits_to d c i d'.
Proof.
  intros (E1 & E2 & E3 & E4 & E5). unfold direct_commit.
  intros (e & He & [= <- <-])%res_bind_Ok. split; [done|].
  rewrite E5 in He. destruct d0; cbn in *. unfold commits_to, constant; cbn.
  split_and!; try congruence. exists e. by rewrite E4.
Qed.

(** Every command commits or leaves the committed state alone; a commit had a
    valid request, a known version, and no conflict when resolved centrally. *)
Lemma direct_apply_cases c i d d' r :
  direct c i no_fence_faults d = Ok (d', r) →
  (ctr_status r ≠ TCommitted ∧ same_commits d d') ∨
  (ctr_status r = TCommitted ∧ commits_to d c i d' ∧ valid_request c = true ∧
   (read_sequence c ≤ cd_latest_sequence d)%N ∧
   (ct_partitioned_resolution c = None → committed_conflict d c = false)).
Proof.
  unfold direct_apply. cbn [allow_successor_to_skip_staged_head no_fence_faults andb].
  repeat match goal with
  | |- (if ?b then Ok (direct_reject _ _ _) else _) = _ → _ =>
      destruct b eqn:?; [by intros [= <- <-]; left|]
  end.
  intros (ev & Hev & Hap)%res_bind_Ok.
  repeat match goal with
  | H : (cd_latest_sequence d <? _)%N = false |- _ => apply N.ltb_ge in H
  | H : negb (valid_request c) = false |- _ => apply negb_false_iff in H
  end.
  destruct ev as [|d0 [|]| |].
  - repeat match goal with
    | H : (if ?b then Ok (direct_reject _ _ _) else _) = _ |- _ =>
        destruct b eqn:?; [injection H as <- <-; by left|]
    end.
    apply (direct_commit_to d) in Hap as [? ?]; [|done]. by right.
  - pose proof (resolver_evidence_same _ _ _ _ _ Hev) as [Hsame _].
    apply (direct_commit_to d) in Hap as [? ?]; [|done]. right. split_and!; try done.
    intros Hnone. unfold resolver_evidence in Hev. by rewrite Hnone in Hev.
  - injection Hap as <- <-. left. split; [done|]. by eapply resolver_evidence_same.
  - injection Hap as <- <-. by left.
  - injection Hap as <- <-. by left.
Qed.

Lemma direct_inv_commit d h c i d' :
  direct_inv d h → commits_to d c i d' → (cd_latest_sequence d < i)%N →
  valid_request c = true → (read_sequence c ≤ cd_latest_sequence d)%N →
  (ct_partitioned_resolution c = None → committed_conflict d c = false) →
  direct_inv d' (h ++ [(i, c)]).
Proof.
  intros [] (E1 & E2 & E3 & e & He & E4 & E5) Hi Hv Hrv Hnc.
  assert (∀ c', c' ∈ h → (c'.1 < i)%N) as Hlt.
  { intros c' Hc'. pose proof (sorted_last_le _ _ di_sorted0 Hc'). lia. }
  split.
  - by rewrite E1, di_rows0, replay_app.
  - apply sorted_snoc; [done|]. intros c' Hc'. by apply Hlt.
  - by rewrite last_snoc.
  - by rewrite E3, history_writes_snoc, di_writes0.
  - rewrite E4. apply chained_snoc; [done|]. by rewrite <-di_chain0.
  - rewrite E5, E4. unfold chain_end. by rewrite last_snoc.
  - intros c' [Hc'| ->%list_elem_of_singleton]%elem_of_app; [auto|]. split; [done|]. cbn. lia.
  - intros seq t c' [Ht|Ht%list_elem_of_singleton]%elem_of_app Hn
      [Hc'|Hc'%list_elem_of_singleton]%elem_of_app Hgt Hseq.
    + by eapply di_free0.
    + subst c'. specialize (Hlt _ Ht). cbn in *. lia.
    + simplify_eq. specialize (Hnc Hn). unfold committed_conflict in Hnc.
      eapply no_conflict_undisturbed; [exact Hnc| |done].
      intros w Hw. rewrite di_writes0. by apply elem_of_history_writes.
    + simplify_eq. cbn in *. lia.
Qed.

Lemma direct_inv_new cell tenant g : direct_inv (CellDomainState_new cell tenant g) [].
Proof. split; try done; try constructor; intros; by apply elem_of_nil in H1. Qed.

Lemma direct_run_inv ops d h d' h' :
  direct_inv d h → StronglySorted N.lt (cd_latest_sequence d :: ops.*2) →
  direct_run ops d h = Ok (d', h') →
  direct_inv d' h' ∧ ∃ h2, h' = h ++ h2 ∧ ∀ c, c ∈ h2 → (cd_latest_sequence d < c.1)%N.
Proof.
  revert d h. induction ops as [|[c i] ops IH]; intros d h Hinv Hs; cbn [direct_run].
  { intros [= <- <-]. split; [done|]. exists []. rewrite app_nil_r. split; [done|].
    intros c Hc. by apply elem_of_nil in Hc. }
  intros ([d1 r] & Hap & Hrun)%res_bind_Ok.
  apply StronglySorted_inv in Hs as [Hs Hlt]. apply Forall_cons in Hlt as [Hi Hlt].
  cbn in Hi, Hs. pose proof (StronglySorted_inv Hs) as [Hs' Hilt].
  destruct (direct_apply_cases _ _ _ _ _ Hap)
    as [[Hst Hsame]|(Hst & Hto & Hv & Hrv & Hnc)].
  - rewrite decide_False in Hrun by done. destruct (IH d1 h) as [? (h2 & -> & Hh2)]; try done.
    + by eapply direct_inv_same.
    + destruct Hsame as (_ & -> & _). by constructor.
    + split; [done|]. exists h2. split; [done|]. destruct Hsame as (_ & El & _).
      intros c' Hc'. rewrite <-El. auto.
  - rewrite decide_True in Hrun by done.
    destruct (IH d1 (h ++ [(i, c)])) as [? (h2 & -> & Hh2)]; try done.
    + by eapply direct_inv_commit.
    + destruct Hto as (_ & -> & _). done.
    + split; [done|]. exists ((i, c) :: h2). rewrite <-app_assoc. split; [done|].
      intros c' [->|Hc']%elem_of_cons; [done|]. specialize (Hh2 _ Hc').
      destruct Hto as (_ & El & _). rewrite El in Hh2. lia.
Qed.

Lemma direct_run_latest ops d h d' h' :
  direct_inv d h → StronglySorted N.lt (cd_latest_sequence d :: ops.*2) →
  direct_run ops d h = Ok (d', h') →
  cd_latest_sequence d' = cd_latest_sequence d ∨ cd_latest_sequence d' ∈ ops.*2.
Proof.
  revert d h. induction ops as [|[c i] ops IH]; intros d h Hinv Hs; cbn [direct_run].
  { intros [= <- <-]. by left. }
  intros ([d1 r] & Hap & Hrun)%res_bind_Ok.
  apply StronglySorted_inv in Hs as [Hs Hlt]. apply Forall_cons in Hlt as [Hi Hlt].
  cbn in Hi, Hs. pose proof (StronglySorted_inv Hs) as [Hs' Hilt]. cbn [fmap list_fmap].
  destruct (direct_apply_cases _ _ _ _ _ Hap)
    as [[Hst Hsame]|(Hst & Hto & Hv & Hrv & Hnc)].
  - rewrite decide_False in Hrun by done. destruct (IH d1 h) as [->|?]; try done.
    + by eapply direct_inv_same.
    + destruct Hsame as (_ & -> & _). by constructor.
    + left. by destruct Hsame as (_ & -> & _).
    + right. by constructor.
  - rewrite decide_True in Hrun by done. right.
    destruct (IH d1 (h ++ [(i, c)])) as [->|?]; try done.
    + by eapply direct_inv_commit.
    + destruct Hto as (_ & -> & _). done.
    + destruct Hto as (_ & -> & _). constructor.
    + by constructor.
Qed.

(** Two runs in a row. *)
Lemma direct_runs_inv cell tenant g ops1 ops2 d1 h1 d h :
  StronglySorted N.lt (0%N :: (ops1 ++ ops2).*2) →
  direct_run ops1 (CellDomainState_new cell tenant g) [] = Ok (d1, h1) →
  direct_run ops2 d1 h1 = Ok (d, h) →
  direct_inv d1 h1 ∧ direct_inv d h ∧
  ∃ h2, h = h1 ++ h2 ∧ ∀ c, c ∈ h2 → (cd_latest_sequence d1 < c.1)%N.
Proof.
  intros Hs Hrun1 Hrun2. pose proof (direct_inv_new cell tenant g) as Hnew.
  rewrite fmap_app in Hs.
  assert (StronglySorted N.lt (0%N :: ops1.*2)) as Hs1.
  { apply (StronglySorted_app_1_l _ (0%N :: ops1.*2)) in Hs. done. }
  destruct (direct_run_inv _ _ _ _ _ Hnew Hs1 Hrun1) as [Hinv1 _].
  assert (StronglySorted N.lt (cd_latest_sequence d1 :: ops2.*2)) as Hs2.
  { constructor; [by eapply (StronglySorted_app_1_r _ (0%N :: ops1.*2))|].
    apply Forall_forall. intros i Hi.
    eapply (StronglySorted_app_1_elem_of _ (0%N :: ops1.*2) ops2.*2); [done| |done].
    destruct (direct_run_latest _ _ _ _ _ Hnew Hs1 Hrun1) as [->|?]; by constructor. }
  destruct (direct_run_inv _ _ _ _ _ Hinv1 Hs2 Hrun2) as [Hinv ?].
  done.
Qed.

(** C19. The direct path is serializable in log order. Take any run of
    commands on a fresh domain with strictly increasing log indexes. The rows
    are the replay of the committed transactions in the order of their commit
    sequences, which are distinct, and the committed envelopes form one hash
    chain over them. A committed transaction that was resolved centrally and
    read at the version the domain had in some earlier state sees, at its place
    in that order, exactly the values of that state for every key in its
    declared read ranges. *)
Theorem direct_serializable cell tenant g ops1 ops2 d1 h1 d h :
  StronglySorted N.lt (0%N :: (ops1 ++ ops2).*2) →
  direct_run ops1 (CellDomainState_new cell tenant g) [] = Ok (d1, h1) →
  direct_run ops2 d1 h1 = Ok (d, h) →
  cd_rows d = replay ∅ h ∧ commits_sorted h ∧
  chained ZERO32 h (cd_committed_envelopes d) ∧
  ∀ seq t k, (seq, t) ∈ h → ct_partitioned_resolution t = None →
    read_sequence t = cd_latest_sequence d1 → reads t k →
    cd_rows d1 !! k = replay ∅ (before seq h) !! k.
Proof.
  intros Hs Hrun1 Hrun2.
  destruct (direct_runs_inv _ _ _ _ _ _ _ _ _ Hs Hrun1 Hrun2) as (Hinv1 & Hinv & h2 & -> & Hh2).
  split_and!; [apply Hinv|apply Hinv|apply Hinv|].
  intros seq t k Ht Hnone Hrv Hk.
  destruct Hinv1 as [-> Hsort1 Hl1 _ _ _ _ _].
  assert (upto (read_sequence t) (h1 ++ h2) = h1) as Hup.
  { apply (ssorted_ext commit_lt); [unfold commit_lt; lia| |done|].
    - apply ssorted_lfilter, Hinv.
    - intros c. rewrite elem_of_upto, elem_of_app, Hrv. split.
      + intros [[?|Hc] Hle]; [done|]. specialize (Hh2 _ Hc). lia.
      + intros Hc. split; [by left|]. rewrite Hl1. by apply sorted_last_le. }
  rewrite <-Hup at 1. apply serial_read; [apply Hinv|done| |].
  - intros c Hc Hgt Hlt. split; [by apply Hinv|]. by eapply (di_free _ _ Hinv).
  - apply (di_valid _ _ Hinv (seq, t)). done.
Qed.
End direct.

(** *** A concrete run: the second transaction reads what the first wrote *)
Import demo_cell.
Definition demo_first := ok_or (fresh, [])
  (direct_run prefix_digest [(txn 1 0 [] key_a 1, 5%N)] fresh []).
Definition demo_second := ok_or (fresh, [])
  (direct_run prefix_digest [(txn 2 5 [key_a] key_b 2, 8%N)] demo_first.1 demo_first.2).

Lemma direct_serializable_witness :
  demo_second.2.*1 = [5; 8]%N ∧
  cd_rows demo_first.1 !! key_a = replay ∅ (before 8 demo_second.2) !! key_a.
Proof.
  split; [vm_compute; reflexivity|].
  assert (StronglySorted N.lt [0; 5; 8]%N) as Hs.
  { repeat constructor. }
  refine (proj2 (proj2 (proj2 (direct_serializable prefix_digest CELL TENANT 1
    [(txn 1 0 [] key_a 1, 5%N)] [(txn 2 5 [key_a] key_b 2, 8%N)]
    demo_first.1 demo_first.2 demo_second.1 demo_second.2 Hs _ _)))
    8%N (txn 2 5 [key_a] key_b 2) key_a _ _ _ _).
  - vm_compute. reflexivity.
  - vm_compute. reflexivity.
  - vm_compute. right. left.
  - reflexivity.
  - vm_compute. reflexivity.
  - exists (range_point key_a). split; [left|vm_compute; reflexivity].
Defined.
