(* ===== verification/CellFeed.v ===== *)
(** * The committed envelopes can be read back

    What a committed envelope decodes to, the feed of committed envelopes
    ([committed_envelope_feed] in [okv-consensus/src/cell_transaction.rs]) after
    runs of the direct path, and a run whose committed envelope nobody can
    decode. *)

From S2P Require Import Prelude Order BTree Bytes Version Quorum Envelope EnvelopeCodec.
From S2P Require Import CellState CellSerial CellDirect CellDemo.

Section feed.
Context (sha256 : bytes → bytes) (sha256_len : digest_len sha256).
Context `{Ed25519} `{CellJson}.

Lemma len_with_len e l b b1 :
  encode_without_checksum e = Ok b → encode_without_checksum (with_len e l) = Ok b1 →
  len b1 = len b.
Proof.
  intros (br & bw & bm & brs & bts & E1 & E2 & E3 & E4 & E5 & ->)%encode_without_checksum_Ok
    (br' & bw' & bm' & brs' & bts' & E1' & E2' & E3' & E4' & E5' & ->)%encode_without_checksum_Ok.
  cbn in E1', E2', E3', E4', E5'. rewrite E1 in E1'. rewrite E2 in E2'. rewrite E3 in E3'.
  rewrite E4 in E4'. rewrite E5 in E5'. simplify_eq. unfold len. by rewrite !length_app, !length_be.
Qed.

(** A successful seal binds the contents. *)
Lemma seal_sealed e e' :
  seal sha256 e = Ok e' → env_logical_fingerprint e = fingerprint sha256 (request_of e) →
  sealed_as e e' ∧ sealed sha256 e'.
Proof.
  unfold seal. intros (b & Hb & Hrest)%res_bind_Ok Hfp.
  destruct (_ <? _)%N eqn:E; [done|]. apply N.ltb_ge in E.
  apply res_bind_Ok in Hrest as (b1 & Hb1 & [= <-]). pose proof (len_with_len _ _ _ _ Hb Hb1) as Hl.
  split; [by eexists _, _|]. split; [done|]. exists b1.
  rewrite encode_with_checksum. split_and!; [done|cbn; lia|lia|done].
Qed.

(** The fields of a command as the types of the code bound them, and resolver
    identifiers the envelope admits. *)
Record command_wf (c : CellTransactionCommand) : Prop := {
  cwf_cell : length (ct_cell_id c) = 16;
  cwf_tenant : length (ct_tenant_id c) = 16;
  cwf_generation : u64_wf (ct_generation c);
  cwf_request : u64_wf (rid_request_id (ct_identity c));
  cwf_resolvers : u16_set (required_resolver_ids c);
}.

(** What the envelope of a commit says. *)
Lemma commit_envelope_decodes c i index tags previous e :
  command_wf c → u64_wf i → u64_wf index → i ≠ 0%N → u16_set tags → length previous = 32 →
  commit_envelope sha256 c i index tags previous = Ok e →
  ∃ env, envelope_decode sha256 e = Ok env ∧ env_version env = Version.from_parts (ct_generation c) i ∧
    env_cell_id env = ct_cell_id c ∧ env_tenant_id env = ct_tenant_id c ∧
    env_generation env = ct_generation c ∧ to_vec (ct_mutations c) = Some (env_canonical_mutations env) ∧
    env_required_log_tags env = tags ∧ env_previous_log_chain env = previous.
Proof.
  intros [] Hi Hx Hi0 Ht Hp. unfold commit_envelope, expect.
  destruct (to_vec (ct_read_conflicts c)) as [reads|]; [|done].
  destruct (to_vec (ct_write_conflicts c)) as [writes|]; [|done].
  destruct (to_vec (ct_mutations c)) as [mutations|]; [|done]. cbn [res_bind].
  intros (env & Hfrom & Henc)%res_bind_Ok.
  unfold Envelope.from_parts in Hfrom. apply res_bind_Ok in Hfrom as (e1 & Hnew & Hseal).
  unfold envelope_new in Hnew. apply seal_sealed in Hnew as [(l1 & c1 & ->) _]; [|done].
  apply seal_sealed in Hseal as [(l2 & c2 & ->) Hs]; [|done].
  pose proof Henc as Hdec. apply (decode_encode sha256 sha256_len) in Hdec; [by eauto 10| |done].
  split; cbn; try done. by intros [= _ ?].
Qed.
(** ** Chains *)
Lemma chain_end_app previous es1 es2 :
  chain_end sha256 previous (es1 ++ es2) = chain_end sha256 (chain_end sha256 previous es1) es2.
Proof.
  unfold chain_end. rewrite last_app. by destruct (last es2).
Qed.

Lemma length_chain_end previous es :
  length previous = 32 → length (chain_end sha256 previous es) = 32.
Proof. unfold chain_end. destruct (last es); [intros _; apply sha256_len|done]. Qed.

Lemma chained_app previous h1 h2 es :
  chained sha256 previous (h1 ++ h2) es ↔
  ∃ es1 es2, es = es1 ++ es2 ∧ chained sha256 previous h1 es1 ∧
    chained sha256 (chain_end sha256 previous es1) h2 es2.
Proof.
  revert previous es. induction h1 as [|[i c] h1 IH]; intros previous es.
  - split; [intros Hc; by exists [], es|]. by intros ([|? ?] & es2 & -> & ? & ?).
  - destruct es as [|e es]; [split; [done|by intros ([|? ?] & ? & ? & ? & ?)]|].
    cbn [app chained]. rewrite IH. split.
    + intros (He & es1 & es2 & -> & H1 & H2). exists (e :: es1), es2.
      by rewrite chain_end_cons.
    + intros ([|e' es1] & es2 & Heq & H1 & H2); [done|]. injection Heq as <- ->.
      destruct H1 as [He H1].
      rewrite chain_end_cons in H2. split; [done|]. by exists es1, es2.
Qed.

Lemma chained_length previous h es : chained sha256 previous h es → length h = length es.
Proof.
  revert previous es. induction h as [|[i c] h IH]; intros previous [|e es] Hc; try done.
  cbn. f_equal. by eapply IH, Hc.
Qed.

Definition commit_wf (c : commit) : Prop := command_wf c.2 ∧ u64_wf c.1 ∧ c.1 ≠ 0%N.

Lemma chained_decodes previous h es i c e :
  length previous = 32 → Forall commit_wf h → chained sha256 previous h es →
  ((i, c), e) ∈ zip h es →
  ∃ env, envelope_decode sha256 e = Ok env ∧ sequence (env_version env) = i ∧
    to_vec (ct_mutations c) = Some (env_canonical_mutations env).
Proof.
  revert previous es. induction h as [|[j c'] h IH]; intros previous [|e' es] Hp Hwf Hc Hin;
    try done; try by apply elem_of_nil in Hin.
  apply Forall_cons in Hwf as [(Hw & Hj & Hj0) Hwf]. destruct Hc as [He Hc]. cbn [zip] in Hin.
  apply elem_of_cons in Hin as [[= -> -> ->]|Hin].
  - destruct (commit_envelope_decodes c' j j REQUIRED_LOG_TAGS previous e' Hw)
      as (env & Hd & Hv & _ & _ & _ & Hm & _ & _); try done.
    { split_and!; [done..|]. repeat constructor; by vm_compute. }
    exists env. by rewrite Hv.
  - eapply (IH (sha256 e')); [apply sha256_len|done..].
Qed.

(** The commits of a window. *)
Definition window (after through : N) (h : list commit) : list commit :=
  List.filter (λ c, (after <? c.1)%N && (c.1 <=? through)%N) h.

Lemma feed_suffix_chained after through previous h es :
  length previous = 32 → Forall commit_wf h → chained sha256 previous h es →
  feed_suffix sha256 after through es =
    Ok (List.filter (λ p, (after <? p.1.1)%N && (p.1.1 <=? through)%N) (zip h es)).*2.
Proof.
  revert previous es. induction h as [|[i c] h IH]; intros previous [|e es] Hp Hwf Hc; try done.
  destruct (chained_decodes previous ((i, c) :: h) (e :: es) i c e Hp Hwf Hc) as (env & Hd & Hv & _).
  { constructor. }
  apply Forall_cons in Hwf as [_ Hwf]. destruct Hc as [_ Hc].
  cbn [feed_suffix]. rewrite Hd. cbn [map_err res_bind]. rewrite Hv.
  rewrite (IH (sha256 e)) by (done || apply sha256_len). cbn [res_bind zip List.filter fst].
  by destruct ((after <? i)%N && (i <=? through)%N).
Qed.
Lemma window_split after through h :
  commits_sorted h → ∃ later, h = upto after h ++ window after through h ++ later ∧
    ∀ c, c ∈ later → (after < c.1)%N ∧ (through < c.1)%N.
Proof.
  intros Hs. set (above := List.filter (λ c : commit, negb (c.1 <=? after)%N) h).
  assert (commits_sorted above) as Ha by by apply ssorted_lfilter.
  exists (List.filter (λ c, negb (c.1 <=? through)%N) above). split.
  - rewrite (upto_split after h) at 1 by done. f_equal. fold above.
    rewrite (upto_split through above) at 1 by done. f_equal. unfold upto, above, window.
    clear. induction h as [|c h IH]; [done|]. cbn [List.filter].
    rewrite (N.leb_antisym after c.1). destruct (after <? c.1)%N; cbn [negb andb List.filter]; [|done].
    destruct (c.1 <=? through)%N; by rewrite IH.
  - intros c Hc. rewrite list_elem_of_In, filter_In in Hc. destruct Hc as [Hc Hthrough].
    unfold above in Hc. rewrite filter_In in Hc. destruct Hc as [_ Hafter].
    apply negb_true_iff, N.leb_gt in Hthrough, Hafter. done.
Qed.

Lemma filter_zip_all {A B} (f : A * B → bool) (l : list A) (k : list B) b :
  length l = length k → (∀ x y, x ∈ l → f (x, y) = b) →
  (List.filter f (zip l k)).*2 = if b then k else [].
Proof.
  revert k. induction l as [|x l IH]; intros [|y k] Hlen Hf; try done; [by destruct b|].
  cbn [zip List.filter]. rewrite Hf by constructor.
  assert ((List.filter f (zip l k)).*2 = if b then k else []) as IHk.
  { apply IH; [by injection Hlen|]. intros x' y' Hx'. apply Hf. by constructor. }
  destruct b; [|exact IHk]. cbn [fmap list_fmap]. by f_equal.
Qed.

(** The feed of a window is the chain of its commits. *)
Lemma feed_window after through h es :
  commits_sorted h → Forall commit_wf h → chained sha256 ZERO32 h es → (after < through)%N →
  ∃ es1 es2, feed_suffix sha256 after through es = Ok es2 ∧ es1 ++ es2 `prefix_of` es ∧
    chained sha256 ZERO32 (upto after h) es1 ∧
    chained sha256 (chain_end sha256 ZERO32 es1) (window after through h) es2.
Proof.
  intros Hs Hwf Hc Hlt. rewrite (feed_suffix_chained _ _ ZERO32 h) by done.
  destruct (window_split after through h Hs) as (later & Hh & Hlater).
  assert (∀ c, c ∈ upto after h → (after <? c.1)%N && (c.1 <=? through)%N = false) as Hf1.
  { intros c [_ Hle]%elem_of_upto. by rewrite (proj2 (N.ltb_ge _ _) Hle). }
  assert (∀ c, c ∈ window after through h → (after <? c.1)%N && (c.1 <=? through)%N = true) as Hf2.
  { intros c Hin. unfold window in Hin. rewrite list_elem_of_In, filter_In in Hin. apply Hin. }
  remember (upto after h) as A eqn:EA. remember (window after through h) as W eqn:EW. clear EA EW.
  rewrite Hh in Hc |- *. apply chained_app in Hc as (es1 & es' & -> & H1 & Hc).
  apply chained_app in Hc as (es2 & es3 & -> & H2 & H3).
  exists es1, es2. split_and!; [|rewrite app_assoc; by apply prefix_app_r|done..].
  apply chained_length in H1, H2, H3. rewrite !zip_with_app by done.
  rewrite !List.filter_app, !fmap_app. f_equal.
  rewrite (filter_zip_all _ A es1 false), (filter_zip_all _ W es2 true),
    (filter_zip_all _ later es3 false).
  - by rewrite app_nil_r.
  - done.
  - intros c e [_ Hgt]%Hlater. cbn. rewrite (proj2 (N.leb_gt _ _) Hgt). apply andb_false_r.
  - done.
  - intros c e. apply Hf2.
  - done.
  - intros c e. apply Hf1.
Qed.
(** ** The feed after a run *)
Lemma direct_run_elems ops d h d' h' c :
  direct_run sha256 ops d h = Ok (d', h') → c ∈ h' → c ∈ h ∨ (c.2, c.1) ∈ ops.
Proof.
  revert d h. induction ops as [|[t i] ops IH]; intros d h; cbn [direct_run].
  { intros [= _ <-]. by left. }
  intros ([d1 r] & _ & Hrun)%res_bind_Ok Hc. destruct (IH _ _ Hrun Hc) as [Hin|?].
  - destruct (decide _); [|by left]. apply elem_of_app in Hin as [?|Hin%list_elem_of_singleton].
    + by left.
    + subst c. right. constructor.
  - right. by constructor.
Qed.

Lemma direct_run_app ops1 ops2 d h :
  direct_run sha256 (ops1 ++ ops2) d h =
    let? '(d1, h1) := direct_run sha256 ops1 d h in direct_run sha256 ops2 d1 h1.
Proof.
  revert d h. induction ops1 as [|[c i] ops1 IH]; intros d h; [done|]. cbn [app direct_run].
  destruct (direct_apply sha256 c i no_fence_faults d) as [[d1 r]| |]; [apply IH|done..].
Qed.

Definition op_wf (op : CellTransactionCommand * N) : Prop := command_wf op.1 ∧ u64_wf op.2.

Lemma run_commits_wf cell tenant g ops d h :
  StronglySorted N.lt (0%N :: ops.*2) → Forall op_wf ops →
  direct_run sha256 ops (CellDomainState_new cell tenant g) [] = Ok (d, h) → Forall commit_wf h.
Proof.
  intros [Hs Hpos]%StronglySorted_inv Hwf Hrun. rewrite Forall_forall in Hwf.
  rewrite Forall_forall in Hpos. apply Forall_forall. intros c Hc. destruct (direct_run_elems _ _ _ _ _ _ Hrun Hc) as [[]%elem_of_nil|Hin].
  destruct (Hwf _ Hin) as [? ?]. split_and!; [done..|].
  assert (c.1 ∈ ops.*2) as Hin2 by by apply (list_elem_of_fmap_2 snd _ (c.2, c.1)).
  apply Hpos in Hin2. lia.
Qed.

Lemma chained_last previous h es :
  chained sha256 previous h es →
  match last h, last es with
  | None, None => True
  | Some c, Some e => (c, e) ∈ zip h es
  | _, _ => False
  end.
Proof.
  intros Hc. destruct h as [|c h _] using rev_ind.
  { destruct es; [done|by destruct Hc]. }
  apply chained_app in Hc as (es1 & es2 & -> & H1 & H2).
  destruct c as [i c], es2 as [|e [|e' es2]]; cbn in H2; [done| |by destruct H2].
  rewrite !last_snoc, zip_with_app by by eapply chained_length.
  apply elem_of_app. right. constructor.
Qed.

Lemma last_window after through h :
  commits_sorted h → (after < through)%N →
  match last (window after through h) with
  | Some c => (c.1 ≤ through)%N ∧ (c.1 = through ↔ through ∈ h.*1)
  | None => through ∉ h.*1
  end.
Proof.
  intros Hs Hlt.
  assert (∀ c, c ∈ window after through h ↔ c ∈ h ∧ (after < c.1 ≤ through)%N) as Hin.
  { intros c. unfold window. rewrite list_elem_of_In, filter_In, <-list_elem_of_In.
    rewrite andb_true_iff, N.ltb_lt, N.leb_le. naive_solver. }
  assert (commits_sorted (window after through h)) as Hw by by apply ssorted_lfilter.
  destruct (last (window after through h)) as [c|] eqn:Hl.
  - assert (c ∈ window after through h) as Hc by by apply last_Some_elem_of.
    apply Hin in Hc as [Hc [? Hle]]. split; [done|]. split.
    + intros <-. by apply list_elem_of_fmap_2.
    + intros (c' & -> & Hc')%list_elem_of_fmap.
      assert (c' ∈ window after c'.1 h) as Hcw by (apply Hin; split; [done|lia]).
      pose proof (sorted_last_le _ _ Hw Hcw) as Hle'. rewrite Hl in Hle'. lia.
  - apply last_None in Hl. intros (c' & -> & Hc')%list_elem_of_fmap.
    assert (c' ∈ window after c'.1 h) as Hcw by (apply Hin; split; [done|lia]).
    rewrite Hl in Hcw. by apply elem_of_nil in Hcw.
Qed.
(** C40. The feed of committed envelopes is exact. After any run of the direct
    path on a fresh domain, its commands fitting their widths, with their resolvers
    in ascending order (see [unordered_evidence_unreadable]) and at increasing log
    indexes, take a request for the domain's non-zero generation and for the
    versions after [after] up to a later [through] that is at or below the position
    read at. It is answered exactly when [through] is the sequence of a commit, and
    then with the envelopes of all commits in between, in commit order, each
    sealed over the digest of the one before it, the first over the digest of
    the last commit at or below [after]; otherwise it is refused with an error. *)
Theorem committed_feed_exact cell tenant g ops d h s request position :
  StronglySorted N.lt (0%N :: ops.*2) → Forall op_wf ops →
  direct_run sha256 ops (CellDomainState_new cell tenant g) [] = Ok (d, h) →
  s !! domain_position s (cer_cell_id request) (cer_tenant_id request) = Some d →
  cer_generation request = cd_generation d → cd_generation d ≠ 0%N →
  (cer_after_version request < cer_through_version request ≤ rlp_index position)%N →
  let after := cer_after_version request in
  let through := cer_through_version request in
  match committed_envelope_feed sha256 s request position with
  | Ok feed => through ∈ h.*1 ∧
      ∃ es, es ++ cef_envelopes feed `prefix_of` cd_committed_envelopes d ∧
        chained sha256 ZERO32 (upto after h) es ∧
        chained sha256 (chain_end sha256 ZERO32 es) (window after through h) (cef_envelopes feed)
  | Err _ => through ∉ h.*1
  | Panic => False
  end.
Proof.
  intros Hs Hops Hrun Hd Hg Hg0 [Hlt Hpos]. cbn zeta.
  pose proof (run_commits_wf _ _ _ _ _ _ Hs Hops Hrun) as Hwf.
  destruct (direct_run_inv sha256 _ _ _ _ _ (direct_inv_new sha256 cell tenant g) Hs Hrun) as [Hinv _].
  destruct Hinv as [_ Hsort Hlatest _ Hch _ _ _].
  unfold committed_envelope_feed. rewrite Hg, (proj2 (N.eqb_neq _ _) Hg0).
  rewrite (proj2 (N.leb_gt _ _) Hlt), (proj2 (N.ltb_ge _ _) Hpos), Hd. cbn [orb].
  rewrite N.eqb_refl. cbn [negb].
  destruct (_ <? cer_through_version request)%N eqn:El.
  { apply N.ltb_lt in El. intros (c & Hc & Hin)%list_elem_of_fmap.
    pose proof (sorted_last_le _ _ Hsort Hin). lia. }
  destruct (feed_window (cer_after_version request) (cer_through_version request) h
    (cd_committed_envelopes d)) as (es1 & es2 & -> & Hpre & H1 & H2); try done. cbn [res_bind].
  pose proof (last_window _ _ h Hsort Hlt) as Hlw. pose proof (chained_last _ _ _ H2) as Hcl.
  destruct (last (window _ _ h)) as [[i c]|], (last es2) as [e|]; try done.
  assert (Forall commit_wf (window (cer_after_version request) (cer_through_version request) h))
    as Hwfw by by apply Forall_lfilter.
  destruct (chained_decodes (chain_end sha256 ZERO32 es1) _ _ i c e
    (length_chain_end ZERO32 es1 eq_refl) Hwfw H2 Hcl) as (env & -> & Hi & _).
  cbn [map_err res_bind]. rewrite Hi. cbn [fst] in Hlw. destruct Hlw as [_ Hlw].
  destruct (i =? _)%N eqn:Ei; cbn [negb].
  - apply N.eqb_eq in Ei. split; [by apply Hlw|]. by exists es1.
  - apply N.eqb_neq in Ei. by rewrite <-Hlw.
Qed.
End feed.

(** *** Concrete runs *)
Module demo_feed.
Import demo_cell.

Definition ops : list (CellTransactionCommand * N) :=
  [(txn 1 0 [] key_a 1, 5%N); (txn 2 5 [key_a] key_b 2, 8%N)].
Definition ran := ok_or (fresh, []) (direct_run prefix_digest ops fresh []).
Definition request (after through : N) : CellCommittedEnvelopeRequest :=
  {| cer_cell_id := CELL; cer_tenant_id := TENANT; cer_generation := 1;
     cer_after_version := after; cer_through_version := through |}.
Definition position : RecoveryLogPosition := {| rlp_term := 1; rlp_index := 9 |}.

(** A transaction over the first two partitions, with the evidence of the given
    resolvers, in that order. *)
Definition unresolved_txn : CellTransactionCommand :=
  { txn 1 0 [] key_a 1 with
    ct_write_conflicts := [range_point [10%N]; range_point key_a];
    ct_mutations := [CSet [10%N] [1%N]; CSet key_a [1%N]];
    ct_accepted_resolvers := [] }.
Definition evidence_of (resolver_id : N) : CellResolverDecisionAttestation :=
  let conflicts := default ([], []) (required_partitions unresolved_txn !! resolver_id) in
  let statement :=
    {| rds_format_version := 1; rds_cell_id := CELL; rds_tenant_id := TENANT;
       rds_generation := 1; rds_map_epoch := 1;
       rds_map_sha256 := ok_or [] (cell_resolver_map_sha256 prefix_digest);
       rds_resolver_id := resolver_id;
       rds_resolver_incarnation := cell_resolver_incarnation resolver_id;
       rds_transaction_identity := ident 1; rds_candidate_sequence := 1;
       rds_read_version := ct_read_version unresolved_txn; rds_resolver_read_sequence := 0;
       rds_transaction_sha256 :=
         default [] (cell_partitioned_transaction_sha256 prefix_digest unresolved_txn);
       rds_read_conflicts := conflicts.1; rds_write_conflicts := conflicts.2;
       rds_decision := RAccept |} in
  {| rda_statement := statement;
     rda_signature :=
       cell_resolver_public_key prefix_digest resolver_id (cell_resolver_incarnation resolver_id) ++
       default [] (resolver_signing_bytes statement) |}.
Definition resolved_txn (resolvers : list N) : CellTransactionCommand :=
  { unresolved_txn with ct_partitioned_resolution := Some
      {| cpr_transaction_system_generation := 1; cpr_resolver_read_sequence := 0;
         cpr_map_epoch := 1; cpr_candidate_sequence := 1;
         cpr_attestations := evidence_of <$> resolvers |} }.

(** The domain and the status after a command at index 5. *)
Definition committed (resolvers : list N) : CellDomainState * option CellTransactionStatus :=
  match direct_apply prefix_digest (resolved_txn resolvers) 5 no_fence_faults fresh with
  | Ok (d, r) => (d, Some (ctr_status r))
  | _ => (fresh, None)
  end.
Definition fed (d : CellDomainState) : res FeedError CellCommittedEnvelopeFeed :=
  committed_envelope_feed prefix_digest [d] (request 0 5) position.

Lemma feed_ops_sorted : StronglySorted N.lt (0%N :: ops.*2).
Proof. repeat constructor. Qed.
Lemma feed_ops_wf : Forall op_wf ops.
Proof. repeat constructor; by vm_compute. Qed.
End demo_feed.
Import demo_cell demo_feed.

Lemma committed_feed_exact_witness :
  ∃ feed es, committed_envelope_feed prefix_digest [ran.1] (request 5 8)
      position = Ok feed ∧ length (cef_envelopes feed) = 1 ∧
    chained prefix_digest (chain_end prefix_digest ZERO32 es)
      (window 5 8 ran.2) (cef_envelopes feed).
Proof.
  pose proof (committed_feed_exact prefix_digest prefix_digest_len CELL TENANT
    1 ops ran.1 ran.2 [ran.1] (request 5 8)
    position feed_ops_sorted feed_ops_wf) as Hfeed.
  destruct (committed_envelope_feed _ _ _ _) as [feed| |] eqn:E.
  - exists feed. destruct Hfeed as (_ & es & _ & _ & Hc).
    1-5: vm_compute; by repeat split.
    exists es. split; [done|]. split; [|exact Hc]. revert E. vm_compute. by intros [= <-].
  - exfalso. revert E. by vm_compute.
  - exfalso. revert E. by vm_compute.
Defined.

(** A committed transaction can make the feed unreadable. A transaction over
    two partitions carries the valid signatures of both resolvers. With the
    evidence in ascending resolver order the transaction commits and the feed
    serves its envelope. With the same evidence in descending order it commits
    too, but the envelope lists the resolvers in that order, which decoding
    refuses: the feed fails, for every window and whatever commits later. *)
Theorem unordered_evidence_unreadable :
  (committed [1; 2]%N).2 = Some TCommitted ∧
  (committed [2; 1]%N).2 = Some TCommitted ∧
  (∃ feed, fed (committed [1; 2]%N).1 = Ok feed) ∧
  fed (committed [2; 1]%N).1 = Err (FeedCodec InvalidSet) ∧
  ∀ after through later,
    feed_suffix prefix_digest after through
      (cd_committed_envelopes (committed [2; 1]%N).1 ++ later) = Err (FeedCodec InvalidSet).
Proof.
  split_and!; [vm_compute; reflexivity..| |vm_compute; reflexivity|].
  - eexists. vm_compute. reflexivity.
  - intros after through later. vm_compute. reflexivity.
Qed.
