(* ===== verification/CellSteps.v ===== *)
(** * Steps of the staged path

    What one staged command does to the committed state and the staged list of
    a domain, as a small step relation, with the invariant of every run of such
    steps and the way the staged list grows. *)

From S2P Require Import Prelude Order BTree Bytes Quorum.
From S2P Require Import CellState CellSerial.

(** ** Lists sorted by a relation, around one element *)
Lemma ssorted_app {A} (R : relation A) l1 l2 :
  StronglySorted R (l1 ++ l2) ↔
  StronglySorted R l1 ∧ StronglySorted R l2 ∧ ∀ x y, x ∈ l1 → y ∈ l2 → R x y.
Proof.
  induction l1 as [|a l1 IH]; simpl.
  { split; [intros; split_and!; [constructor|done|]|by intros (_ & ? & _)].
    intros x y Hx. by apply elem_of_nil in Hx. }
  split.
  - intros [Hs Ha]%StronglySorted_inv. apply IH in Hs as (H1 & H2 & H3).
    apply Forall_app in Ha as [Ha1 Ha2]. rewrite Forall_forall in Ha2.
    split_and!; [by constructor|done|].
    intros x y [->|Hx]%elem_of_cons Hy; auto.
  - intros ([H1 Ha]%StronglySorted_inv & H2 & H3). constructor.
    + apply IH. split_and!; [done..|]. intros x y Hx Hy. apply H3; [by constructor|done].
    + apply Forall_app. split; [done|]. apply Forall_forall. intros y Hy.
      apply H3; [constructor|done].
Qed.

Lemma ssorted_middle {A} (R : relation A) l1 x l2 :
  StronglySorted R (l1 ++ x :: l2) →
  (∀ u, u ∈ l1 → R u x) ∧ (∀ t, t ∈ l2 → R x t).
Proof.
  intros (_ & [Hs Hx]%StronglySorted_inv & Hr)%ssorted_app. split.
  - intros u Hu. apply Hr; [done|constructor].
  - by apply Forall_forall.
Qed.

Lemma ssorted_replace {A} (R : relation A) l1 x y l2 :
  StronglySorted R (l1 ++ x :: l2) →
  (∀ u, u ∈ l1 → R u x → R u y) → (∀ t, t ∈ l2 → R x t → R y t) →
  StronglySorted R (l1 ++ y :: l2).
Proof.
  intros (H1 & [Hs Hx]%StronglySorted_inv & Hr)%ssorted_app Hl Ht.
  rewrite Forall_forall in Hx.
  apply ssorted_app. split_and!; [done| |].
  - constructor; [done|]. apply Forall_forall. auto.
  - intros u t Hu [->|Hin]%elem_of_cons.
    + apply Hl; [done|]. apply Hr; [done|constructor].
    + apply Hr; [done|by constructor].
Qed.

Lemma ssorted_snoc {A} (R : relation A) l x :
  StronglySorted R l → (∀ u, u ∈ l → R u x) → StronglySorted R (l ++ [x]).
Proof.
  intros Hl Hx. apply ssorted_app. split_and!; [done|repeat constructor|].
  intros u y Hu ->%list_elem_of_singleton. auto.
Qed.

Lemma alter_middle {A} (f : A → A) l1 x l2 i :
  i = length l1 → alter f i (l1 ++ x :: l2) = l1 ++ f x :: l2.
Proof. intros ->. induction l1 as [|y l1 IH]; [done|]. simpl. f_equal. apply IH. Qed.

(** ** The staged list *)
Definition commit_of (s : StagedTransaction) : commit := (st_commit_sequence s, st_transaction s).
Definition visible_of (l : list StagedTransaction) : list StagedTransaction :=
  List.filter st_visible l.
Definition history (l : list StagedTransaction) : list commit := commit_of <$> visible_of l.

(** What holds of an entry [u] and a later one [s]. *)
Definition ok_pair (u s : StagedTransaction) : Prop :=
  (st_commit_sequence u < st_commit_sequence s)%N ∧
  (unresolved u = true → st_visible s = false) ∧
  (ct_partitioned_resolution (st_transaction s) = None → st_aborted u = false →
   (read_sequence (st_transaction s) < st_commit_sequence u)%N →
   undisturbed (st_transaction s) (ct_write_conflicts (st_transaction u))).

Definition ok_entry (s : StagedTransaction) : Prop :=
  valid_request (st_transaction s) = true ∧
  (read_sequence (st_transaction s) < st_commit_sequence s)%N ∧
  (st_visible s = true → st_aborted s = false).

(** Entries that differ in their evidence only. *)
Definition same_entry (s s' : StagedTransaction) : Prop :=
  st_identity s' = st_identity s ∧ st_transaction s' = st_transaction s ∧
  st_commit_sequence s' = st_commit_sequence s ∧ st_envelope s' = st_envelope s ∧
  st_visible s' = st_visible s ∧ st_aborted s' = st_aborted s.

Section steps.
Context (sha256 : bytes → bytes).
Implicit Types d : CellDomainState.

Inductive core_step d : CellDomainState → Prop :=
  | step_same d' :
      same_commits d d' → cd_staged_transactions d' = cd_staged_transactions d →
      core_step d d'
  | step_stage d' s :
      same_commits d d' →
      cd_staged_transactions d' = cd_staged_transactions d ++ [s] →
      st_identity s ∉ st_identity <$> cd_staged_transactions d →
      st_commit_sequence s = stage_sequence d no_fence_faults →
      (stage_sequence d no_fence_faults < U64_MAX)%N →
      unresolved s = true → valid_request (st_transaction s) = true →
      (read_sequence (st_transaction s) ≤ cd_latest_sequence d)%N →
      (ct_partitioned_resolution (st_transaction s) = None →
       staged_conflict d (st_transaction s) = false) →
      core_step d d'
  | step_touch d' l1 s s' l2 :
      same_commits d d' → cd_staged_transactions d = l1 ++ s :: l2 →
      cd_staged_transactions d' = l1 ++ s' :: l2 → same_entry s s' →
      core_step d d'
  | step_publish d' l1 s l2 :
      cd_staged_transactions d = l1 ++ s :: l2 →
      unresolved s = true → (∀ u, u ∈ l1 → unresolved u = false) →
      cd_rows d' = apply_mutations (ct_mutations (st_transaction s)) (cd_rows d) →
      cd_latest_sequence d' = st_commit_sequence s →
      cd_committed_writes d' = cd_committed_writes d ++
        pushed_writes (st_commit_sequence s) (ct_write_conflicts (st_transaction s)) →
      cd_committed_envelopes d' = cd_committed_envelopes d ++ [st_envelope s] →
      cd_previous_log_chain d' = sha256 (st_envelope s) →
      cd_staged_transactions d' = l1 ++ mark_visible s :: l2 →
      core_step d d'
  | step_abort d' l1 s l2 :
      same_commits d d' → cd_staged_transactions d = l1 ++ s :: l2 →
      unresolved s = true →
      cd_staged_transactions d' = l1 ++ mark_aborted s :: l2 →
      core_step d d'.

(** ** The invariant, relative to the domain [d0] before the first staging *)
Record staged_inv d0 d : Prop := {
  si_ids : NoDup (st_identity <$> cd_staged_transactions d);
  si_pairs : StronglySorted ok_pair (cd_staged_transactions d);
  si_entries : Forall ok_entry (cd_staged_transactions d);
  si_above : Forall (λ s, (cd_latest_sequence d0 < st_commit_sequence s)%N)
               (cd_staged_transactions d);
  si_rows : cd_rows d = replay (cd_rows d0) (history (cd_staged_transactions d));
  si_latest : cd_latest_sequence d =
    match last (history (cd_staged_transactions d)) with
    | Some c => c.1
    | None => cd_latest_sequence d0
    end;
  si_writes : cd_committed_writes d =
    cd_committed_writes d0 ++ history_writes (history (cd_staged_transactions d));
  si_envelopes : cd_committed_envelopes d =
    cd_committed_envelopes d0 ++ (st_envelope <$> visible_of (cd_staged_transactions d));
}.

Lemma staged_inv_start d : cd_staged_transactions d = [] → staged_inv d d.
Proof. intros E. split; rewrite ?E; try done; try constructor; by rewrite app_nil_r. Qed.

Lemma unresolved_true s : unresolved s = true ↔ st_visible s = false ∧ st_aborted s = false.
Proof. unfold unresolved. by rewrite andb_true_iff, !negb_true_iff. Qed.

Lemma visible_of_middle l1 s l2 :
  visible_of (l1 ++ s :: l2) = visible_of l1 ++ (if st_visible s then [s] else []) ++ visible_of l2.
Proof. unfold visible_of. rewrite List.filter_app. simpl. by destruct (st_visible s). Qed.

Lemma visible_of_none l : (∀ t, t ∈ l → st_visible t = false) → visible_of l = [].
Proof.
  unfold visible_of. induction l as [|t l IH]; intros Hl; [done|]. simpl.
  rewrite Hl by constructor. apply IH. intros t' Ht'. apply Hl. by constructor.
Qed.

Lemma history_same l1 s s' l2 :
  same_entry s s' → history (l1 ++ s' :: l2) = history (l1 ++ s :: l2).
Proof.
  intros (_ & E1 & E2 & _ & E3 & _). unfold history. rewrite !visible_of_middle, E3.
  destruct (st_visible s); [|done]. rewrite !fmap_app. do 2 f_equal. unfold commit_of.
  simpl. by rewrite E1, E2.
Qed.

Lemma envelopes_same l1 s s' l2 :
  same_entry s s' →
  st_envelope <$> visible_of (l1 ++ s' :: l2) = st_envelope <$> visible_of (l1 ++ s :: l2).
Proof.
  intros (_ & _ & _ & E1 & E2 & _). rewrite !visible_of_middle, E2.
  destruct (st_visible s); [|done]. rewrite !fmap_app. do 2 f_equal. simpl. by rewrite E1.
Qed.

Lemma visible_unresolved l1 s s' l2 :
  unresolved s = true → st_visible s' = false →
  visible_of (l1 ++ s' :: l2) = visible_of (l1 ++ s :: l2).
Proof. intros [Hv _]%unresolved_true Hv'. by rewrite !visible_of_middle, Hv, Hv'. Qed.

(** The history a publication leaves. *)
Lemma visible_publish l1 s l2 :
  StronglySorted ok_pair (l1 ++ s :: l2) → unresolved s = true →
  visible_of (l1 ++ mark_visible s :: l2) = visible_of (l1 ++ s :: l2) ++ [mark_visible s].
Proof.
  intros [_ Hafter]%ssorted_middle Hu. pose proof (proj1 (unresolved_true s) Hu) as [Hv _].
  rewrite !visible_of_middle, Hv. cbn [st_visible mark_visible].
  rewrite (visible_of_none l2); [by rewrite !app_nil_r|].
  intros t Ht. by apply Hafter.
Qed.

Lemma fmap_middle {A B} (f : A → B) l1 x y l2 :
  f y = f x → f <$> (l1 ++ y :: l2) = f <$> (l1 ++ x :: l2).
Proof. intros E. by rewrite !fmap_app, !fmap_cons, E. Qed.

Lemma Forall_middle {A} (P : A → Prop) l1 x y l2 :
  Forall P (l1 ++ x :: l2) → (P x → P y) → Forall P (l1 ++ y :: l2).
Proof. rewrite !Forall_app, !Forall_cons. naive_solver. Qed.

Lemma staged_inv_touch d0 d d' l1 s s' l2 :
  staged_inv d0 d → same_commits d d' →
  cd_staged_transactions d = l1 ++ s :: l2 →
  cd_staged_transactions d' = l1 ++ s' :: l2 → same_entry s s' → staged_inv d0 d'.
Proof.
  intros [] (E1 & E2 & E3 & E4 & E5) HL HL' Hsame.
  rewrite HL in *. pose proof Hsame as (Ei & Et & Ec & Ee & Ev & Ea).
  split; rewrite ?HL'.
  - by rewrite (fmap_middle st_identity _ s s').
  - eapply ssorted_replace; [done|..]; unfold ok_pair, unresolved;
      intros; by rewrite ?Et, ?Ec, ?Ev, ?Ea.
  - eapply Forall_middle; [done|]. unfold ok_entry. by rewrite Et, Ec, Ev, Ea.
  - eapply Forall_middle; [done|]. by rewrite Ec.
  - by rewrite E1, si_rows0, (history_same _ s s').
  - by rewrite E2, si_latest0, (history_same _ s s').
  - by rewrite E3, si_writes0, (history_same _ s s').
  - by rewrite E4, si_envelopes0, (envelopes_same _ s s').
Qed.

Lemma staged_inv_abort d0 d d' l1 s l2 :
  staged_inv d0 d → same_commits d d' →
  cd_staged_transactions d = l1 ++ s :: l2 → unresolved s = true →
  cd_staged_transactions d' = l1 ++ mark_aborted s :: l2 → staged_inv d0 d'.
Proof.
  intros [] (E1 & E2 & E3 & E4 & E5) HL Hu HL'. rewrite HL in *.
  pose proof (proj1 (unresolved_true s) Hu) as [Hv Ha].
  assert (visible_of (l1 ++ mark_aborted s :: l2) = visible_of (l1 ++ s :: l2)) as Hvis.
  { apply visible_unresolved; [done|]. by destruct s. }
  split; rewrite ?HL'; unfold history in *; rewrite ?Hvis, ?E1, ?E2, ?E3, ?E4; try done.
  - rewrite (fmap_middle st_identity _ s); [done|]. by destruct s.
  - eapply ssorted_replace; [done|..]; unfold ok_pair; destruct s; cbn in *; naive_solver.
  - eapply Forall_middle; [done|]. unfold ok_entry. destruct s; cbn in *; naive_solver.
  - eapply Forall_middle; [done|]. by destruct s.
Qed.

Lemma staged_inv_publish d0 d d' l1 s l2 :
  staged_inv d0 d →
  cd_staged_transactions d = l1 ++ s :: l2 →
  unresolved s = true → (∀ u, u ∈ l1 → unresolved u = false) →
  cd_rows d' = apply_mutations (ct_mutations (st_transaction s)) (cd_rows d) →
  cd_latest_sequence d' = st_commit_sequence s →
  cd_committed_writes d' = cd_committed_writes d ++
    pushed_writes (st_commit_sequence s) (ct_write_conflicts (st_transaction s)) →
  cd_committed_envelopes d' = cd_committed_envelopes d ++ [st_envelope s] →
  cd_staged_transactions d' = l1 ++ mark_visible s :: l2 → staged_inv d0 d'.
Proof.
  intros [] HL Hu Hl1 E1 E2 E3 E4 HL'. rewrite HL in *.
  pose proof (proj1 (unresolved_true s) Hu) as [Hv Ha].
  assert (history (l1 ++ mark_visible s :: l2) = history (l1 ++ s :: l2) ++ [commit_of s]) as Hh.
  { unfold history. rewrite visible_publish by done. rewrite fmap_app. by destruct s. }
  split; rewrite ?HL', ?Hh.
  - rewrite (fmap_middle st_identity _ s); [done|]. by destruct s.
  - eapply ssorted_replace; [done|..]; unfold ok_pair.
    + intros u Hin. rewrite (Hl1 u Hin). destruct s; cbn in *; naive_solver.
    + destruct s; cbn in *; naive_solver.
  - eapply Forall_middle; [done|]. unfold ok_entry. destruct s; cbn in *; naive_solver.
  - eapply Forall_middle; [done|]. by destruct s.
  - by rewrite E1, si_rows0, replay_app.
  - by rewrite last_snoc.
  - by rewrite E3, si_writes0, history_writes_snoc, app_assoc.
  - rewrite E4, si_envelopes0, visible_publish, fmap_app, app_assoc by done. by destruct s.
Qed.

(** ** Staging *)
Definition last_sequence d : N :=
  match last (cd_staged_transactions d) with
  | Some s => st_commit_sequence s
  | None => cd_latest_sequence d
  end.

Lemma stage_sequence_last d :
  (stage_sequence d no_fence_faults < U64_MAX)%N →
  stage_sequence d no_fence_faults = (last_sequence d + 1)%N.
Proof.
  unfold stage_sequence, rfind, last_sequence. cbn [reuse_aborted_sequence_or_chain negb orb
    no_fence_faults].
  destruct (cd_staged_transactions d) as [|x l _] using rev_ind; [unfold saturating_add; simpl; lia|].
  rewrite reverse_snoc, last_snoc. cbn [List.find]. unfold saturating_add. lia.
Qed.

Lemma last_sequence_max d0 d s :
  staged_inv d0 d → s ∈ cd_staged_transactions d → (st_commit_sequence s ≤ last_sequence d)%N.
Proof.
  intros [] Hs. unfold last_sequence.
  destruct (last (cd_staged_transactions d)) as [x|] eqn:El.
  - apply last_Some in El as [l E]. rewrite E in *.
    apply elem_of_app in Hs as [Hs|Hs%list_elem_of_singleton]; [|subst; lia].
    apply ssorted_middle in si_pairs0 as [Hp _]. destruct (Hp s Hs). lia.
  - apply last_None in El. rewrite El in Hs. by apply elem_of_nil in Hs.
Qed.

Lemma elem_of_history c l :
  c ∈ history l ↔ ∃ s, c = commit_of s ∧ s ∈ l ∧ st_visible s = true.
Proof.
  unfold history, visible_of. rewrite list_elem_of_fmap. split.
  - intros (s & -> & Hs). rewrite list_elem_of_In, filter_In, <-list_elem_of_In in Hs. eauto.
  - intros (s & -> & Hs & Hv). exists s. split; [done|].
    by rewrite list_elem_of_In, filter_In, <-list_elem_of_In.
Qed.

Lemma latest_last_sequence d0 d :
  staged_inv d0 d → (cd_latest_sequence d0 ≤ cd_latest_sequence d ≤ last_sequence d)%N.
Proof.
  intros Hinv. pose proof Hinv as []. rewrite si_latest0.
  destruct (last (history (cd_staged_transactions d))) as [c|] eqn:El.
  - assert (c ∈ history (cd_staged_transactions d)) as (s & -> & Hs & Hv)%elem_of_history.
    { apply last_Some in El as [l ->]. set_solver. }
    rewrite Forall_forall in si_above0. specialize (si_above0 s Hs). cbn.
    pose proof (last_sequence_max _ _ _ Hinv Hs). lia.
  - split; [lia|]. unfold last_sequence. destruct (last (cd_staged_transactions d)) as [x|] eqn:Ex.
    + rewrite Forall_forall in si_above0. apply last_Some in Ex as [l E].
      enough (cd_latest_sequence d0 < st_commit_sequence x)%N by lia.
      apply si_above0. rewrite E. set_solver.
    + by rewrite si_latest0.
Qed.

Lemma staged_conflict_undisturbed d t u :
  staged_conflict d t = false → u ∈ cd_staged_transactions d → st_aborted u = false →
  (read_sequence t < st_commit_sequence u)%N →
  undisturbed t (ct_write_conflicts (st_transaction u)).
Proof.
  unfold staged_conflict. intros Hc Hu Ha Hlt r w Hr Hw. rewrite existsb_false in Hc.
  specialize (Hc r Hr). apply orb_false_iff in Hc as [_ Hc]. rewrite existsb_false in Hc.
  specialize (Hc u Hu). rewrite Ha in Hc. cbn [negb andb] in Hc.
  change (crv_sequence (ct_read_version t)) with (read_sequence t) in Hc.
  rewrite (proj2 (N.ltb_lt _ _) Hlt) in Hc. cbn [andb] in Hc. rewrite existsb_false in Hc. auto.
Qed.

Lemma staged_inv_stage d0 d d' s :
  staged_inv d0 d → same_commits d d' →
  cd_staged_transactions d' = cd_staged_transactions d ++ [s] →
  st_identity s ∉ st_identity <$> cd_staged_transactions d →
  st_commit_sequence s = stage_sequence d no_fence_faults →
  (stage_sequence d no_fence_faults < U64_MAX)%N →
  unresolved s = true → valid_request (st_transaction s) = true →
  (read_sequence (st_transaction s) ≤ cd_latest_sequence d)%N →
  (ct_partitioned_resolution (st_transaction s) = None →
   staged_conflict d (st_transaction s) = false) → staged_inv d0 d'.
Proof.
  intros Hinv (E1 & E2 & E3 & E4 & E5) HL' Hid Hseq Hmax Hu Hv Hrv Hfree.
  rewrite (stage_sequence_last d Hmax) in Hseq.
  pose proof (latest_last_sequence _ _ Hinv) as Hle. pose proof Hinv as [].
  pose proof (proj1 (unresolved_true s) Hu) as [Hvis Ha].
  assert (visible_of (cd_staged_transactions d ++ [s]) = visible_of (cd_staged_transactions d)) as Hvo.
  { by rewrite visible_of_middle, Hvis, !app_nil_r. }
  split; rewrite ?HL'; unfold history in *; rewrite ?Hvo, ?E1, ?E2, ?E3, ?E4; try done.
  - rewrite fmap_app, NoDup_app. split_and!; [done| |apply NoDup_singleton].
    intros x Hx ->%list_elem_of_singleton. done.
  - apply ssorted_snoc; [done|]. intros u Hin. split_and!; [|done|].
    + pose proof (last_sequence_max _ _ _ Hinv Hin). lia.
    + intros Hn Hau Hlt. eapply staged_conflict_undisturbed; eauto.
  - apply Forall_app. split; [done|]. repeat constructor; [done|lia|congruence].
  - apply Forall_app. split; [done|]. repeat constructor. lia.
Qed.

(** ** Every step preserves the invariant *)
Lemma core_step_inv d0 d d' : staged_inv d0 d → core_step d d' → staged_inv d0 d'.
Proof.
  intros Hinv Hstep. destruct Hstep as
    [d' (E1 & E2 & E3 & E4 & E5) HL|d' s| | |].
  - destruct Hinv. split; rewrite ?HL, ?E1, ?E2, ?E3, ?E4; done.
  - by eapply staged_inv_stage.
  - by eapply staged_inv_touch.
  - by eapply staged_inv_publish.
  - by eapply staged_inv_abort.
Qed.

Lemma core_steps_inv d0 d d' : staged_inv d0 d → rtc core_step d d' → staged_inv d0 d'.
Proof. intros Hinv. induction 1; [done|]. eauto using core_step_inv. Qed.

(** ** Growth: entries keep their identity, resolutions are final *)
Definition grows_entry (s s' : StagedTransaction) : Prop :=
  st_identity s' = st_identity s ∧ commit_of s' = commit_of s ∧
  st_envelope s' = st_envelope s ∧
  (st_visible s = true → st_visible s' = true) ∧
  (st_aborted s = true → st_aborted s' = true).

#[local] Instance grows_entry_po : PreOrder grows_entry.
Proof.
  split.
  - intros s. by split_and!.
  - intros s1 s2 s3 (? & ? & ? & ? & ?) (? & ? & ? & ? & ?). split_and!; congruence || auto.
Qed.

Lemma grows_entries_refl l : Forall2 grows_entry l l.
Proof. induction l; constructor; [reflexivity|done]. Qed.

Definition grows (l l' : list StagedTransaction) : Prop :=
  ∃ l1 l2, l' = l1 ++ l2 ∧ Forall2 grows_entry l l1.

#[local] Instance grows_po : PreOrder grows.
Proof.
  split.
  - intros l. exists l, []. rewrite app_nil_r. split; [done|]. apply grows_entries_refl.
  - intros l1 l2 l3 (a & b & -> & Ha) (c & e & -> & Hc).
    apply Forall2_app_inv_l in Hc as (c1 & c2 & Hc1 & Hc2 & ->).
    exists c1, (c2 ++ e). rewrite app_assoc. split; [done|].
    clear Hc2. revert c1 Hc1. induction Ha as [|x y l1' a Hxy _ IH]; intros c1 Hc1;
      inversion Hc1; subst; constructor; [by etrans|auto].
Qed.

Lemma grows_middle l1 s s' l2 : grows_entry s s' → grows (l1 ++ s :: l2) (l1 ++ s' :: l2).
Proof.
  intros Hs. exists (l1 ++ s' :: l2), []. rewrite app_nil_r. split; [done|].
  apply Forall2_app; [|constructor; [done|]]; apply grows_entries_refl.
Qed.

Lemma core_step_grows d d' :
  core_step d d' → grows (cd_staged_transactions d) (cd_staged_transactions d').
Proof.
  intros Hstep. destruct Hstep as
    [d' _ HL|d' s _ HL _ _ _ _ _ _ _|d' l1 s s' l2 _ HL HL' (E1 & E2 & E3 & E4 & E5 & E6)
    |d' l1 s l2 HL _ _ _ _ _ _ _ HL'|d' l1 s l2 _ HL _ HL'].
  - by rewrite HL.
  - rewrite HL. eexists _, [s]. split; [done|]. apply grows_entries_refl.
  - rewrite HL, HL'. apply grows_middle. unfold grows_entry, commit_of. split_and!; congruence.
  - rewrite HL, HL'. apply grows_middle. by destruct s.
  - rewrite HL, HL'. apply grows_middle. by destruct s.
Qed.

Lemma core_steps_grow d d' :
  rtc core_step d d' → grows (cd_staged_transactions d) (cd_staged_transactions d').
Proof. induction 1; [done|]. etrans; [by apply core_step_grows|done]. Qed.

Lemma history_sorted d0 d : staged_inv d0 d → commits_sorted (history (cd_staged_transactions d)).
Proof.
  intros []. unfold history, visible_of.
  assert (StronglySorted ok_pair (List.filter st_visible (cd_staged_transactions d))) as Hs
    by by apply ssorted_lfilter.
  clear -Hs. induction Hs as [|s l Hl IH Hx]; simpl; constructor; [done|].
  apply Forall_forall. intros c (t & -> & Ht)%list_elem_of_fmap.
  rewrite Forall_forall in Hx. by apply (Hx t Ht).
Qed.

(** An entry at or below the latest sequence is resolved. *)
Lemma resolved_below_latest d0 d s :
  staged_inv d0 d → s ∈ cd_staged_transactions d →
  (st_commit_sequence s ≤ cd_latest_sequence d)%N → unresolved s = false.
Proof.
  intros Hinv Hs Hle. pose proof Hinv as []. rewrite Forall_forall in si_above0.
  specialize (si_above0 s Hs). rewrite si_latest0 in Hle.
  destruct (last (history (cd_staged_transactions d))) as [c|] eqn:El; [|lia].
  assert (c ∈ history (cd_staged_transactions d)) as (t & -> & Ht & Hv)%elem_of_history.
  { apply last_Some in El as [l ->]. set_solver. }
  destruct (unresolved s) eqn:Hu; [|done]. exfalso.
  apply list_elem_of_split in Hs as (l1 & l2 & E). rewrite E in *.
  apply ssorted_middle in si_pairs0 as [Hbefore Hafter].
  apply elem_of_app in Ht as [Ht|[->|Ht]%elem_of_cons].
  - destruct (Hbefore t Ht) as [? _]. cbn in Hle. lia.
  - apply unresolved_true in Hu as [? _]. congruence.
  - destruct (Hafter t Ht) as (_ & Hinvis & _). by rewrite Hinvis in Hv.
Qed.

(** An entry staged later lies above the latest sequence. *)
Lemma new_above_latest d0 d1 d m l2 s :
  staged_inv d0 d1 → staged_inv d0 d → cd_staged_transactions d = m ++ l2 →
  Forall2 grows_entry (cd_staged_transactions d1) m → s ∈ l2 →
  (cd_latest_sequence d1 < st_commit_sequence s)%N.
Proof.
  intros Hinv1 Hinv E Hm Hs. pose proof (si_pairs _ _ Hinv) as Hp. rewrite E in Hp.
  apply ssorted_app in Hp as (_ & _ & Hp).
  pose proof (latest_last_sequence _ _ Hinv1) as [_ Hlast].
  pose proof (si_above _ _ Hinv) as Ha. rewrite Forall_forall, E in Ha.
  specialize (Ha s ltac:(apply elem_of_app; by right)). unfold last_sequence in Hlast.
  destruct (last (cd_staged_transactions d1)) as [x|] eqn:Ex.
  - apply last_Some in Ex as [l1 Ex].
    assert (cd_staged_transactions d1 !! length l1 = Some x) as Hx.
    { rewrite Ex. by apply list_lookup_middle. }
    destruct (Forall2_lookup_l _ _ _ _ _ Hm Hx) as (x' & Hx' & _ & Hc & _).
    injection Hc as Hseq _.
    destruct (Hp x' s) as [Hlt _]; [by eapply list_elem_of_lookup_2|done|]. lia.
  - apply last_None in Ex. rewrite (si_latest _ _ Hinv1), Ex. done.
Qed.

(** The rows at a version are those of every later history cut at it. *)
Lemma history_upto d0 d1 d :
  staged_inv d0 d1 → rtc core_step d1 d →
  history (cd_staged_transactions d1) =
    upto (cd_latest_sequence d1) (history (cd_staged_transactions d)).
Proof.
  intros Hinv1 Hrun. pose proof (core_steps_inv _ _ _ Hinv1 Hrun) as Hinv.
  pose proof (core_steps_grow _ _ Hrun) as (m & l2 & E & Hm).
  apply (ssorted_ext commit_lt); [unfold commit_lt; lia|by eapply history_sorted| |].
  { by eapply ssorted_lfilter, history_sorted. }
  intros c. rewrite elem_of_upto, !elem_of_history. split.
  - intros (s & -> & Hs & Hv). split.
    + apply list_elem_of_lookup in Hs as [i Hi].
      destruct (Forall2_lookup_l _ _ _ _ _ Hm Hi) as (s' & Hs' & _ & Hc & _ & Hvis & _).
      exists s'. split_and!; [by rewrite Hc| |auto]. rewrite E. apply elem_of_app. left.
      by eapply list_elem_of_lookup_2.
    + rewrite (si_latest _ _ Hinv1).
      assert (commit_of s ∈ history (cd_staged_transactions d1)) as Hin
        by (apply elem_of_history; eauto).
      pose proof (sorted_last_le _ _ (history_sorted _ _ Hinv1) Hin).
      destruct (last _) eqn:El; [done|]. apply last_None in El. rewrite El in Hin.
      by apply elem_of_nil in Hin.
  - intros ((s & -> & Hs & Hv) & Hle). cbn in Hle. rewrite E in Hs.
    apply elem_of_app in Hs as [Hs|Hs].
    + apply list_elem_of_lookup in Hs as [i Hi].
      destruct (Forall2_lookup_r _ _ _ _ _ Hm Hi) as (s1 & Hs1 & _ & Hc & _ & _ & Hab).
      apply list_elem_of_lookup_2 in Hs1. injection Hc as Hseq Htx.
      exists s1. split_and!; [unfold commit_of; congruence|done|].
      assert (unresolved s1 = false) as Hr.
      { apply (resolved_below_latest d0 d1); [done..|]. lia. }
      unfold unresolved in Hr. destruct (st_visible s1); [done|]. cbn in Hr.
      apply negb_false_iff, Hab in Hr. pose proof (si_entries _ _ Hinv) as He.
      rewrite Forall_forall in He. destruct (He s) as (_ & _ & Hex); [|by rewrite Hex in Hr].
      rewrite E. apply elem_of_app. left. by eapply list_elem_of_lookup_2.
    + pose proof (new_above_latest _ _ _ _ _ _ Hinv1 Hinv E Hm Hs). lia.
Qed.

(** The serializability of the staged path, over steps. *)
Lemma staged_reads d0 d1 d s k :
  staged_inv d0 d1 → rtc core_step d1 d →
  s ∈ cd_staged_transactions d → st_visible s = true →
  ct_partitioned_resolution (st_transaction s) = None →
  read_sequence (st_transaction s) = cd_latest_sequence d1 → reads (st_transaction s) k →
  cd_rows d1 !! k =
    replay (cd_rows d0) (before (st_commit_sequence s) (history (cd_staged_transactions d))) !! k.
Proof.
  intros Hinv1 Hrun Hs Hv Hn Hrv Hk.
  pose proof (core_steps_inv _ _ _ Hinv1 Hrun) as Hinv.
  rewrite (si_rows _ _ Hinv1), (history_upto _ _ _ Hinv1 Hrun), <-Hrv.
  pose proof (si_entries _ _ Hinv) as He. rewrite Forall_forall in He.
  apply serial_read; [by eapply history_sorted|done| |by apply (He s Hs)].
  intros c (u & -> & Hu & Huv)%elem_of_history Hgt Hlt. split; [by apply (He u Hu)|].
  destruct (He u Hu) as (_ & _ & Hua). specialize (Hua Huv).
  pose proof (si_pairs _ _ Hinv) as Hp. cbn in Hgt, Hlt |- *.
  apply list_elem_of_split in Hs as (l1 & l2 & E). rewrite E in *.
  apply ssorted_middle in Hp as [Hbefore Hafter].
  apply elem_of_app in Hu as [Hu|[->|Hu]%elem_of_cons].
  - by apply (Hbefore u Hu).
  - lia.
  - destruct (Hafter u Hu). lia.
Qed.
End steps.
