(* ===== verification/CellStaged.v ===== *)
(** * The staged commit path

    Every command of [apply_staged] is a sequence of the steps of [CellSteps],
    as long as no log-set policy transition happens and [TakeoverPublish] names
    a transaction that is not resolved yet; runs of such commands are
    serializable in the order of their commit sequences. *)

From S2P Require Import Prelude Order BTree Bytes Version Quorum Envelope.
From S2P Require Import CellState CellSerial CellSteps CellDemo.

Section staged.
Context (sha256 : bytes → bytes).
Context `{Ed25519} `{CellJson}.
Implicit Types d : CellDomainState.

Abbreviation steps := (rtc (core_step sha256)).

(** The commands the serial order is proved for. A policy transition moves
    [latest_sequence] without staging anything, [TakeoverPublish] applies a
    transaction that is already visible or aborted once more, and a sequence
    that saturates is given out twice. *)
Definition orderly (cmd : CellStagedTransactionCommand) d : bool :=
  match cs_action cmd with
  | PrepareLogSetPolicyTransition _ _ | CommitLogSetPolicyTransition _ _ => false
  | Stage _ => (stage_sequence d no_fence_faults <? U64_MAX)%N
  | TakeoverPublish _ _ _ _ =>
      match find_staged d (cs_transaction_identity cmd) with
      | Some s => unresolved s || (st_visible s && (cd_generation d =? cs_generation cmd)%N)
      | None => true
      end
  | _ => true
  end.

(** ** Finding a staged transaction *)
Lemma staged_position_Some l identity i :
  staged_position l identity = Some i →
  ∃ l1 s l2, l = l1 ++ s :: l2 ∧ length l1 = i ∧ st_identity s = identity.
Proof.
  revert i. induction l as [|x l IH]; intros i; simpl; [done|].
  case_decide as E; [intros [= <-]; by exists [], x, l|].
  intros (j & Hj & ->)%fmap_Some. destruct (IH j Hj) as (l1 & s & l2 & -> & <- & Hs).
  by exists (x :: l1), s, l2.
Qed.

Lemma staged_position_None l identity :
  staged_position l identity = None → identity ∉ st_identity <$> l.
Proof.
  induction l as [|x l IH]; simpl; [set_solver|].
  case_decide as E; [done|]. intros Hn%fmap_None. rewrite not_elem_of_cons. auto.
Qed.

Lemma find_staged_None d identity :
  find_staged d identity = None → identity ∉ st_identity <$> cd_staged_transactions d.
Proof.
  unfold find_staged. destruct (staged_position _ _) as [i|] eqn:Hp.
  - apply staged_position_Some in Hp as (l1 & s & l2 & -> & <- & _).
    by rewrite list_lookup_middle.
  - intros _. by apply staged_position_None.
Qed.

Lemma on_staged_cases cmd d missing f d' r :
  on_staged cmd d missing f = Ok (d', r) →
  d' = d ∨ ∃ l1 s l2, cd_staged_transactions d = l1 ++ s :: l2 ∧
    find_staged d (cs_transaction_identity cmd) = Some s ∧ f (length l1) s = Ok (d', r).
Proof.
  unfold on_staged, find_staged. destruct (staged_position _ _) as [i|] eqn:Hp.
  - apply staged_position_Some in Hp as (l1 & s & l2 & E & <- & _). rewrite E.
    rewrite list_lookup_middle by done. intros Hf. right. by exists l1, s, l2.
  - intros [= <- _]. by left.
Qed.

Lemma step_refl d : core_step sha256 d d.
Proof. by apply step_same. Qed.

(** ** One lemma per kind of change *)
Lemma update_staged_list d l1 s l2 f :
  cd_staged_transactions d = l1 ++ s :: l2 →
  cd_staged_transactions (update_staged d (length l1) f) = l1 ++ f s :: l2.
Proof. intros E. destruct d. cbn in *. rewrite E. by apply alter_middle. Qed.

Lemma update_touch d l1 s l2 f :
  cd_staged_transactions d = l1 ++ s :: l2 → same_entry s (f s) →
  core_step sha256 d (update_staged d (length l1) f).
Proof.
  intros E Hs. eapply (step_touch _ d _ l1 s (f s) l2); [|done| |done].
  - by destruct d.
  - by apply update_staged_list.
Qed.

Lemma update_abort d l1 s l2 :
  cd_staged_transactions d = l1 ++ s :: l2 → st_visible s = false →
  core_step sha256 d (update_staged d (length l1) mark_aborted).
Proof.
  intros E Hv. destruct (st_aborted s) eqn:Ha.
  - eapply update_touch; [done|]. destruct s. cbn in *. by subst.
  - eapply (step_abort _ d _ l1 s l2); [by destruct d|done|by apply unresolved_true|].
    by apply update_staged_list.
Qed.

Lemma publish_step d l1 s l2 next d' envelope :
  publish_staged_transaction sha256 d (length l1) next = Ok (d', envelope) →
  cd_staged_transactions d = l1 ++ s :: l2 → unresolved s = true →
  (∀ u, u ∈ l1 → unresolved u = false) →
  core_step sha256 d d' ∧ cd_staged_transactions d' = l1 ++ mark_visible s :: l2.
Proof.
  unfold publish_staged_transaction. intros Hp E Hu Hl. rewrite E, list_lookup_middle in Hp by done.
  injection Hp as <- _.
  assert (alter mark_visible (length l1) (l1 ++ s :: l2) = l1 ++ mark_visible s :: l2) as Ea
    by by apply alter_middle.
  split; [|destruct d; cbn in *; by rewrite ?E].
  eapply (step_publish _ d _ l1 s l2); try done; destruct d; cbn in *; by rewrite ?E.
Qed.

(** A sole unresolved entry, and one with no earlier pending sequence. *)
Lemma sole_unresolved l1 s l2 u :
  length (List.filter unresolved (l1 ++ s :: l2)) = 1 → unresolved s = true → u ∈ l1 →
  unresolved u = false.
Proof.
  intros Hc Hs Hu. rewrite List.filter_app in Hc. cbn [List.filter] in Hc.
  rewrite Hs, length_app in Hc. cbn [length] in Hc.
  destruct (unresolved u) eqn:E; [|done].
  assert (u ∈ List.filter unresolved l1) as Hin
    by (by rewrite list_elem_of_In, filter_In, <-list_elem_of_In).
  destruct (List.filter unresolved l1); [by apply elem_of_nil in Hin|]. simpl in Hc. lia.
Qed.

Lemma none_earlier d0 d l1 s l2 u :
  staged_inv d0 d → cd_staged_transactions d = l1 ++ s :: l2 →
  existsb (λ s', unresolved s' && (st_commit_sequence s' <? st_commit_sequence s)%N)
    (cd_staged_transactions d) = false →
  u ∈ l1 → unresolved u = false.
Proof.
  intros Hinv E He Hu. pose proof (si_pairs _ _ Hinv) as Hp. rewrite E in *.
  apply ssorted_middle in Hp as [Hbefore _]. destruct (Hbefore u Hu) as [Hlt _].
  rewrite existsb_false in He. specialize (He u ltac:(apply elem_of_app; by left)).
  rewrite (proj2 (N.ltb_lt _ _) Hlt), andb_true_r in He. done.
Qed.

(** ** The actions *)
Lemma install_steps cmd policies d d' r :
  install_log_set_policies cmd policies d = (d', r) → core_step sha256 d d'.
Proof.
  unfold install_log_set_policies, answer. case_guards; intros [= <- _]; [apply step_refl|].
  apply step_same; by destruct d.
Qed.

Lemma reserve_same cmd t certificates faults d d' r :
  reserve_capacity sha256 cmd t certificates faults d = (d', r) →
  same_commits d d' ∧ cd_staged_transactions d' = cd_staged_transactions d.
Proof.
  unfold reserve_capacity, answer.
  repeat match goal with
  | |- context [if ?b then _ else _] => destruct b
  | |- context [match find_staged ?d ?i with _ => _ end] => destruct (find_staged d i)
  end; intros [= <- _]; by destruct d.
Qed.

Lemma reserve_steps cmd t certificates faults d d' r :
  reserve_capacity sha256 cmd t certificates faults d = (d', r) → core_step sha256 d d'.
Proof. intros [? ?]%reserve_same. by apply step_same. Qed.

Lemma consume_reservation_same key d :
  same_commits d (consume_reservation key d) ∧
  cd_staged_transactions (consume_reservation key d) = cd_staged_transactions d.
Proof. unfold consume_reservation. destruct (_ !! key); [|done]. by destruct d. Qed.

Lemma stage_admit_steps cmd t log_index d d1 d' r :
  same_commits d d1 → cd_staged_transactions d1 = cd_staged_transactions d →
  (stage_sequence d no_fence_faults < U64_MAX)%N →
  stage_request_valid cmd t d = true →
  find_staged d (cs_transaction_identity cmd) = None →
  (ct_partitioned_resolution t = None → staged_conflict d t = false) →
  stage_admit sha256 cmd t log_index no_fence_faults d1 = Ok (d', r) → core_step sha256 d d'.
Proof.
  intros Hsame Hst Hmax Hvalid Hf Hn. unfold stage_admit.
  intros (encoded & _ & [= <- _])%res_bind_Ok.
  match goal with |- core_step _ _ (consume_reservation ?key ?d2) =>
    destruct (consume_reservation_same key d2) as [(C1 & C2 & C3 & C4 & C5) C6] end.
  pose proof Hsame as (E1 & E2 & E3 & E4 & E5).
  eapply step_stage.
  - unfold same_commits. rewrite C1, C2, C3, C4, C5. by destruct d1.
  - rewrite C6. rewrite <-Hst. by destruct d1.
  - by apply find_staged_None.
  - cbn. unfold stage_sequence. by rewrite Hst, E2.
  - done.
  - done.
  - cbn. unfold stage_request_valid in Hvalid. by destruct_bool_hyps.
  - cbn. unfold stage_request_valid in Hvalid. unfold read_sequence. destruct_bool_hyps; lia.
  - done.
Qed.

Lemma stage_resolved_steps cmd t log_index centralized d d1 d' r :
  same_commits d d1 → cd_staged_transactions d1 = cd_staged_transactions d →
  (stage_sequence d no_fence_faults < U64_MAX)%N →
  stage_request_valid cmd t d = true →
  find_staged d (cs_transaction_identity cmd) = None →
  (ct_partitioned_resolution t = None → centralized = true) →
  stage_resolved sha256 cmd t log_index no_fence_faults centralized d1 = Ok (d', r) →
  core_step sha256 d d'.
Proof.
  intros Hsame Hst Hmax Hvalid Hf Hn. unfold stage_resolved, answer.
  case_guards; try (intros [= <- _]; by apply step_same).
  eapply stage_admit_steps; try done. intros Ht.
  match goal with Hc : centralized && _ = false |- _ => rewrite (Hn Ht) in Hc end.
  destruct Hsame as (_ & _ & E3 & _). unfold staged_conflict in *.
  rewrite E3, Hst in *. done.
Qed.

Lemma stage_steps cmd t log_index d d' r :
  (stage_sequence d no_fence_faults < U64_MAX)%N →
  stage sha256 cmd t log_index no_fence_faults d = Ok (d', r) → core_step sha256 d d'.
Proof.
  intros Hmax. unfold stage, answer.
  destruct (stage_request_valid cmd t d) eqn:Hvalid; cbn [negb];
    [|intros [= <- _]; apply step_refl].
  destruct (pending_transition_touches _ _); [intros [= <- _]; apply step_refl|].
  destruct (find_staged d _) eqn:Hf; [intros [= <- _]; apply step_refl|].
  intros (ev & Hev & Hap)%res_bind_Ok. destruct ev as [|d1 [|]| |].
  - by eapply (stage_resolved_steps _ _ _ true d d).
  - destruct (resolver_evidence_same _ _ _ _ _ Hev).
    eapply (stage_resolved_steps _ _ _ false d d1); try done.
    intros Hn. unfold resolver_evidence in Hev. by rewrite Hn in Hev.
  - injection Hap as <- _. destruct (resolver_evidence_same _ _ _ _ _ Hev). by apply step_same.
  - injection Hap as <- _. apply step_refl.
  - injection Hap as <- _. apply step_refl.
Qed.

Lemma receipt_steps cmd receipt d d' r :
  record_log_receipt sha256 cmd receipt d = Ok (d', r) → core_step sha256 d d'.
Proof.
  unfold record_log_receipt, answer. intros [->|(l1 & s & l2 & E & _ & Hf)]%on_staged_cases;
    [apply step_refl|]. revert Hf.
  repeat (case_match; try (intros [= <- _]; apply step_refl)).
  intros [= <- _]. eapply update_touch; [done|]. by destruct s.
Qed.

Lemma certificate_steps cmd certificate d d' r :
  record_log_certificate sha256 cmd certificate d = Ok (d', r) → core_step sha256 d d'.
Proof.
  unfold record_log_certificate, answer. intros [->|(l1 & s & l2 & E & _ & Hf)]%on_staged_cases;
    [apply step_refl|]. revert Hf.
  repeat (case_match; try (intros [= <- _]; apply step_refl)).
  intros [= <- _]. eapply update_touch; [done|]. by destruct s.
Qed.

Lemma publish_steps d0 cmd d d' r :
  staged_inv d0 d → publish sha256 cmd d = Ok (d', r) → core_step sha256 d d'.
Proof.
  intros Hinv. unfold publish, answer. intros [->|(l1 & s & l2 & E & _ & Hf)]%on_staged_cases;
    [apply step_refl|]. revert Hf.
  destruct (st_visible s) eqn:Hv; [intros [= <- _]; apply step_refl|].
  destruct (st_aborted s) eqn:Ha; [intros [= <- _]; apply step_refl|].
  destruct (negb _); [intros [= <- _]; apply step_refl|].
  destruct (_ || _) eqn:Hg; [intros [= <- _]; apply step_refl|].
  apply orb_false_iff in Hg as [_ Hearly].
  intros ([d1 e] & Hp & [= <- _])%res_bind_Ok.
  eapply publish_step; [done..|by apply unresolved_true|].
  intros u. by eapply none_earlier.
Qed.

Lemma takeover_publish_steps cmd previous recovery expected digest authority d d' r :
  (∀ s, find_staged d (cs_transaction_identity cmd) = Some s →
     unresolved s || (st_visible s && (cd_generation d =? cs_generation cmd)%N) = true) →
  takeover_publish sha256 cmd previous recovery expected digest authority no_fence_faults d
    = Ok (d', r) → core_step sha256 d d'.
Proof.
  intros Ho. unfold takeover_publish, answer.
  intros [->|(l1 & s & l2 & E & Hs & Hf)]%on_staged_cases; [apply step_refl|].
  specialize (Ho s Hs). revert Hf.
  destruct (st_visible s && _); [intros [= <- _]; apply step_refl|].
  rewrite orb_false_r in Ho.
  destruct (_ || _) eqn:Hg; [intros [= <- _]; apply step_refl|].
  apply orb_false_iff in Hg as [_ Hsole]. apply negb_false_iff, Nat.eqb_eq in Hsole.
  unfold unresolved_count in Hsole. rewrite E in Hsole.
  intros ([d1 e] & Hp & [= <- _])%res_bind_Ok.
  eapply publish_step; [done..|]. intros u. by apply (sole_unresolved l1 s l2).
Qed.

Lemma takeover_abort_steps cmd previous recovery expected digest fences authority d d' r :
  takeover_abort sha256 cmd previous recovery expected digest fences authority no_fence_faults d
    = Ok (d', r) → steps d d'.
Proof.
  unfold takeover_abort, answer.
  intros [->|(l1 & s & l2 & E & Hs & Hf)]%on_staged_cases; [apply rtc_refl|]. revert Hf.
  destruct (st_aborted s && _); [intros [= <- _]; apply rtc_refl|].
  destruct (st_visible s) eqn:Hv.
  { rewrite orb_true_r. cbn [orb]. intros [= <- _]. apply rtc_refl. }
  destruct (_ || _); [intros [= <- _]; apply rtc_refl|]. intros [= <- _].
  eapply rtc_l; [by eapply update_abort|]. apply rtc_once, step_same; by destruct d.
Qed.

(** *** The window of a prefix recovery *)
Definition unresolved_from (k : nat) (l : list StagedTransaction) : list nat :=
  (List.filter (λ e, unresolved e.2) (imap (λ i s, (k + i, s)) l)).*1.

Lemma unresolved_from_cons k x l :
  unresolved_from k (x :: l) =
    (if unresolved x then [k] else []) ++ unresolved_from (S k) l.
Proof.
  unfold unresolved_from. rewrite imap_cons. cbn [List.filter snd].
  assert (imap ((λ i s, (k + i, s)) ∘ S) l = imap (λ i s, (S k + i, s)) l) as ->.
  { apply imap_ext. intros i y _. cbn. f_equal. lia. }
  destruct (unresolved x); [|done]. cbn. by rewrite Nat.add_0_r.
Qed.

Lemma unresolved_from_first k l i rest :
  unresolved_from k l = i :: rest →
  ∃ l1 s l2, l = l1 ++ s :: l2 ∧ i = k + length l1 ∧ unresolved s = true ∧
    (∀ u, u ∈ l1 → unresolved u = false) ∧
    ∀ s', unresolved s' = false → unresolved_from k (l1 ++ s' :: l2) = rest.
Proof.
  revert k. induction l as [|x l IH]; intros k; [done|]. rewrite unresolved_from_cons.
  destruct (unresolved x) eqn:Hx; cbn [app].
  - intros [= <- <-]. exists [], x, l. split_and!; [done|cbn; lia|done|set_solver|].
    intros s' Hs'. cbn [app]. by rewrite unresolved_from_cons, Hs'.
  - intros (l1 & s & l2 & -> & -> & Hs & Hl1 & Hrest)%IH.
    exists (x :: l1), s, l2. split_and!; [done|cbn; lia|done| |].
    + intros u [->|Hu]%elem_of_cons; auto.
    + intros s' Hs'. cbn [app]. rewrite unresolved_from_cons, Hx. by apply Hrest.
Qed.

Lemma resolve_window_steps indexes offset total recovered next d d' :
  unresolved_from 0 (cd_staged_transactions d) = indexes →
  resolve_window sha256 indexes offset total recovered next no_fence_faults d = Ok d' →
  steps d d'.
Proof.
  revert offset d. induction indexes as [|i indexes IH]; intros offset d Hidx;
    cbn [resolve_window skip_recoverable_staged_prefix retain_aborted_staged_suffix
         no_fence_faults andb].
  { intros [= <-]. apply rtc_refl. }
  destruct (unresolved_from_first _ _ _ _ Hidx) as (l1 & s & l2 & E & -> & Hs & Hl1 & Hrest).
  cbn [Nat.add]. intros (d1 & Hd1 & Hres)%res_bind_Ok. destruct (offset <? recovered).
  - apply res_bind_Ok in Hd1 as ([d2 e] & Hp & [= <-]).
    destruct (publish_step _ _ _ _ _ _ _ Hp E Hs Hl1) as [Hstep Hst].
    eapply rtc_l; [done|]. eapply IH; [|done]. rewrite Hst. apply Hrest. by destruct s.
  - injection Hd1 as <-.
    eapply rtc_l; [eapply update_abort; [done|by apply unresolved_true in Hs as []]|].
    eapply IH; [|done]. rewrite (update_staged_list _ _ _ _ _ E). apply Hrest.
    destruct s. apply andb_false_r.
Qed.

Lemma recover_prefix_steps cmd previous recovery w inventories authority d d' r :
  apply_takeover_recover_prefix sha256 cmd previous recovery w inventories authority
    no_fence_faults d = Ok (d', r) → steps d d'.
Proof.
  unfold apply_takeover_recover_prefix, answer.
  cbn [accept_over_limit_staged_window abort_quorum_present_staged_record
       publish_beyond_staged_absence no_fence_faults andb].
  repeat (case_match; try (intros [= <- _]; apply rtc_refl)).
  all: intros (d1 & Hres & [= <- _])%res_bind_Ok.
  all: etrans; [eapply resolve_window_steps; [|exact Hres]
               |apply rtc_once, step_same; by destruct d1].
  all: match goal with Hg : negb false && _ = false |- _ =>
         apply orb_false_iff in Hg as [_ Hg]; apply negb_false_iff, bool_decide_eq_true in Hg;
         exact Hg end.
Qed.

(** Every orderly command is a sequence of steps. *)
Lemma staged_apply_steps d0 cmd log_index authority d d' r :
  staged_inv d0 d → orderly cmd d = true →
  staged_apply sha256 cmd log_index authority no_fence_faults d = Ok (d', r) → steps d d'.
Proof.
  intros Hinv Ho. unfold staged_apply, answer. destruct (_ || _).
  { intros [= <- _]. apply rtc_refl. }
  unfold orderly in Ho. destruct (cs_action cmd); try done.
  - intros [= Hi]. by eapply rtc_once, install_steps.
  - intros [= Hi]. by eapply rtc_once, reserve_steps.
  - intros Hi. eapply rtc_once, stage_steps; [by apply N.ltb_lt|done].
  - intros Hi. by eapply rtc_once, receipt_steps.
  - intros Hi. by eapply rtc_once, certificate_steps.
  - intros Hi. by eapply rtc_once, publish_steps.
  - intros Hi. eapply rtc_once, takeover_publish_steps; [|done].
    intros s Hs. by rewrite Hs in Ho.
  - apply takeover_abort_steps.
  - apply recover_prefix_steps.
Qed.

(** ** Runs *)

(** A sequence of commands with their log indexes and the authority each is
    applied under. *)
Fixpoint staged_run
    (ops : list (CellStagedTransactionCommand * N * GenerationAuthorityState)) d
    : res CommitCodecError CellDomainState :=
  match ops with
  | [] => Ok d
  | (cmd, log_index, authority) :: ops =>
      let? '(d, _) := staged_apply sha256 cmd log_index authority no_fence_faults d in
      staged_run ops d
  end.

(** Every command of the run is orderly where it is applied. *)
Fixpoint orderly_run
    (ops : list (CellStagedTransactionCommand * N * GenerationAuthorityState)) d : bool :=
  match ops with
  | [] => true
  | (cmd, log_index, authority) :: ops =>
      orderly cmd d &&
      match staged_apply sha256 cmd log_index authority no_fence_faults d with
      | Ok (d, _) => orderly_run ops d
      | _ => true
      end
  end.

Lemma staged_run_steps d0 ops d d' :
  staged_inv d0 d → orderly_run ops d = true → staged_run ops d = Ok d' → steps d d'.
Proof.
  revert d. induction ops as [|[[cmd i] a] ops IH]; intros d Hinv; cbn [orderly_run staged_run].
  { intros _ [= <-]. apply rtc_refl. }
  intros [Ho Hos]%andb_true_iff ([d1 r] & Hap & Hrun)%res_bind_Ok. rewrite Hap in Hos.
  pose proof (staged_apply_steps _ _ _ _ _ _ _ Hinv Ho Hap) as Hsteps.
  etrans; [exact Hsteps|]. eapply IH; [|done..]. by eapply core_steps_inv.
Qed.

(** C2. The staged path is serializable in the order of commit sequences.
    Take any run of staged commands from a domain in which nothing was ever
    staged: stagings, receipts, certificates, publications, takeovers that
    publish, abort or recover a prefix, in any interleaving, as long as each is
    orderly (no policy transition, no takeover of a transaction that is already
    resolved, no sequence at the largest [u64]). The rows are the replay of the visible transactions in the
    order of their commit sequences, which are distinct and above the starting
    version, and the committed envelopes are theirs in that order. A visible
    transaction that was resolved centrally and read at the version of some
    earlier state of the run sees, at its place in that order, exactly the
    values of that state for every key in its declared read ranges. *)
Theorem staged_serializable ops1 ops2 d0 d1 d :
  cd_staged_transactions d0 = [] →
  orderly_run ops1 d0 = true → staged_run ops1 d0 = Ok d1 →
  orderly_run ops2 d1 = true → staged_run ops2 d1 = Ok d →
  let h := history (cd_staged_transactions d) in
  cd_rows d = replay (cd_rows d0) h ∧ commits_sorted h ∧
  (∀ c, c ∈ h → (cd_latest_sequence d0 < c.1)%N) ∧
  cd_committed_envelopes d =
    cd_committed_envelopes d0 ++ (st_envelope <$> visible_of (cd_staged_transactions d)) ∧
  ∀ seq t k, (seq, t) ∈ h → ct_partitioned_resolution t = None →
    read_sequence t = cd_latest_sequence d1 → reads t k →
    cd_rows d1 !! k = replay (cd_rows d0) (before seq h) !! k.
Proof.
  intros Hnew Ho1 Hrun1 Ho2 Hrun2. pose proof (staged_inv_start _ Hnew) as Hinv0.
  pose proof (staged_run_steps _ _ _ _ Hinv0 Ho1 Hrun1) as Hsteps1.
  pose proof (core_steps_inv _ _ _ _ Hinv0 Hsteps1) as Hinv1.
  pose proof (staged_run_steps _ _ _ _ Hinv1 Ho2 Hrun2) as Hsteps2.
  pose proof (core_steps_inv _ _ _ _ Hinv1 Hsteps2) as Hinv.
  split_and!; [apply Hinv|by eapply history_sorted| |apply Hinv|].
  - intros c (s & -> & Hs & _)%elem_of_history.
    pose proof (si_above _ _ Hinv) as Ha. rewrite Forall_forall in Ha. by apply Ha.
  - intros seq t k (s & [= -> ->] & Hs & Hv)%elem_of_history Hn Hrv Hk.
    by apply (staged_reads sha256 d0 d1 d s k).
Qed.
End staged.

(** *** A concrete run: the second transaction reads what the first published *)
Module demo_staged.
Import demo_cell.
Definition envelope_digest : bytes :=
  prefix_digest (ok_or [] (commit_envelope prefix_digest (txn 1 0 [] key_a 1) 1 1 [10; 20]%N ZERO32)).

Definition command (n : N) (action : CellStagedTransactionAction) :=
  ({| cs_identity := ident n; cs_credential := None; cs_cell_id := CELL;
      cs_tenant_id := TENANT; cs_generation := 1; cs_transaction_identity := ident n;
      cs_action := action |}, n, GenerationAuthorityState_default).
Definition receipt (log_set : N) : CellTaggedLogReceipt :=
  {| tlr_format_version := 1; tlr_log_set_id := log_set; tlr_generation := 1;
     tlr_envelope_sha256 := envelope_digest; tlr_durable_position := 1;
     tlr_quorum_node_ids := [1; 2]%N |}.
Definition finish (n : N) :=
  [command n (RecordLogReceipt (receipt 10)); command n (RecordLogReceipt (receipt 20));
   command n Publish].

Definition first_ops := command 1 (Stage (txn 1 0 [] key_a 1)) :: finish 1.
Definition second_ops := command 2 (Stage (txn 2 1 [key_a] key_b 2)) :: finish 2.
Definition first := ok_or fresh (staged_run prefix_digest first_ops fresh).
Definition second := ok_or fresh (staged_run prefix_digest second_ops first).

(** A policy transition of log set 30, which the transactions do not use. *)
Definition key (n : N) : bytes := replicate 32 n.
Definition policy (epoch : N) (nodes : list N) : CellLogSetPolicy :=
  {| lsp_format_version := 1; lsp_generation := 1; lsp_policy_epoch := epoch;
     lsp_log_set_id := 30; lsp_quorum_size := 2; lsp_ratekeeper_soft_limit_bytes := 0;
     lsp_members := (λ n, {| lsm_node_id := n; lsm_public_key := key n |}) <$> nodes |}.
Definition repair_statement : CellTaggedLogRepairStatement :=
  {| trs_format_version := 1; trs_phase := RepairLearnerReady; trs_cell_id := CELL;
     trs_tenant_id := TENANT; trs_generation := 1; trs_log_set_id := 30;
     trs_policy_epoch := 1; trs_repair_id := 1; trs_failed_node_id := 3;
     trs_learner_node_id := 4; trs_learner_incarnation := replicate 16 4%N;
     trs_learner_public_key := key 4; trs_last_position := 1; trs_popped_through := 1;
     trs_snapshot_length := 1; trs_snapshot_sha256 := key 9 |}.
Definition repair_attestation (n : N) : CellTaggedLogRepairAttestation :=
  let unsigned := {| tra_signer_id := n; tra_source_sample_epoch := 1; tra_signature := [] |} in
  {| tra_signer_id := n; tra_source_sample_epoch := 1;
     tra_signature := key n ++ default [] (repair_signing_bytes repair_statement unsigned) |}.
Definition readiness : CellTaggedLogRepairCertificate :=
  {| trc_statement := repair_statement;
     trc_attestations := repair_attestation <$> [1; 2]%N |}.
Definition transition : CellLogSetPolicyTransition :=
  {| lpt_format_version := 1; lpt_cell_id := CELL; lpt_tenant_id := TENANT;
     lpt_generation := 1; lpt_transition_id := 1; lpt_log_set_id := 30;
     lpt_old_policy := policy 1 [1; 2; 3]%N; lpt_next_policy := policy 2 [1; 2; 4]%N;
     lpt_failed_node_id := 3; lpt_learner_node_id := 4;
     lpt_learner_incarnation := replicate 16 4%N; lpt_learner_public_key := key 4;
     lpt_repair_readiness_sha256 :=
       cell_tagged_log_repair_certificate_sha256 prefix_digest readiness;
     lpt_retained_root_sha256 := key 9; lpt_retained_last_position := 1 |}.

(** The writer of [key_a] is staged after the transition, then its reader. *)
Definition transition_ops :=
  command 8 (InstallLogSetPolicies [policy 1 [1; 2; 3]%N]) :: first_ops
  ++ [command 9 (PrepareLogSetPolicyTransition transition readiness)].
Definition racing_ops :=
  [command 2 (Stage (txn 2 2 [] key_a 2)); command 3 (Stage (txn 3 2 [key_a] key_b 3))]
  ++ finish 2 ++ finish 3.
Definition moved := ok_or fresh (staged_run prefix_digest transition_ops fresh).
Definition raced := ok_or fresh (staged_run prefix_digest racing_ops moved).
End demo_staged.
Import demo_cell demo_staged.

Lemma staged_serializable_witness :
  history (cd_staged_transactions second)
    = [(1%N, txn 1 0 [] key_a 1); (2%N, txn 2 1 [key_a] key_b 2)] ∧
  cd_rows first !! key_a
    = replay ∅ (before 2 (history (cd_staged_transactions second))) !! key_a.
Proof.
  split; [vm_compute; reflexivity|].
  refine (proj2 (proj2 (proj2 (proj2 (staged_serializable prefix_digest first_ops second_ops
    fresh first second _ _ _ _ _)))) 2%N (txn 2 1 [key_a] key_b 2) key_a _ _ _ _);
    try (vm_compute; reflexivity).
  - vm_compute. right. left.
  - exists (range_point key_a). split; [left|vm_compute; reflexivity].
Defined.

(** A log-set policy transition breaks the serial order. [Stage] numbers a
    transaction after the last staged one, while a prepared transition has moved
    [latest_sequence] on its own. In this run the transition of an unrelated log
    set moves the version from 1 to 2; a writer of [key_a] is then staged as
    commit 2, so the conflict check of a later transaction that read [key_a] at
    version 2 does not see it. Both become visible, and the reader's value is
    not the one at its place in the serial order. *)
Theorem policy_transition_lost_update :
  staged_run prefix_digest transition_ops fresh = Ok moved ∧
  staged_run prefix_digest racing_ops moved = Ok raced ∧
  (3%N, txn 3 2 [key_a] key_b 3) ∈ history (cd_staged_transactions raced) ∧
  cd_latest_sequence moved = 2%N ∧
  cd_rows moved !! key_a = Some [1%N] ∧
  replay ∅ (before 3 (history (cd_staged_transactions raced))) !! key_a = Some [2%N].
Proof. split_and!; try (vm_compute; reflexivity). vm_compute. right. right. left. Qed.

(** *** A takeover that names a transaction already visible *)
Module demo_takeover.
Definition log_policy (log_set : N) : CellLogSetPolicy :=
  {| lsp_format_version := 1; lsp_generation := 1; lsp_policy_epoch := 1;
     lsp_log_set_id := log_set; lsp_quorum_size := 2; lsp_ratekeeper_soft_limit_bytes := 0;
     lsp_members := (λ n, {| lsm_node_id := n; lsm_public_key := key n |}) <$> [1; 2; 3]%N |}.
Definition log_statement (n sequence log_set : N) : CellTaggedLogStatement :=
  {| tls_format_version := 1; tls_cell_id := CELL; tls_tenant_id := TENANT;
     tls_generation := 1; tls_transaction_identity := ident n;
     tls_commit_sequence := sequence; tls_log_set_id := log_set; tls_policy_epoch := 1;
     tls_envelope_sha256 := envelope_digest; tls_durable_position := 1 |}.
Definition log_certificate (n sequence log_set : N) : CellTaggedLogCertificate :=
  let st := log_statement n sequence log_set in
  {| tlc_statement := st;
     tlc_attestations := (λ s, {| tla_signer_id := s;
       tla_signature := key s ++ default [] (log_signing_bytes st) |}) <$> [1; 2]%N |}.

(** Transaction 1 is published, then transaction 2 is staged. *)
Definition staged_ops :=
  [command 8 (InstallLogSetPolicies [log_policy 10; log_policy 20]);
   command 1 (Stage (txn 1 0 [] key_a 1));
   command 1 (RecordLogCertificate (log_certificate 1 1 10));
   command 1 (RecordLogCertificate (log_certificate 1 1 20));
   command 1 Publish; command 2 (Stage (txn 2 1 [] key_a 2))].
Definition before_takeover := ok_or fresh (staged_run prefix_digest staged_ops fresh).

Definition successor : GenerationAuthorityState :=
  { GenerationAuthorityState_default with
    ga_generation := 2%N; ga_phase := Active; ga_transaction_system_id := Some "b"%string;
    ga_last_completed_recovery_id := Some 5%N }.
Definition takeover : CellStagedTransactionCommand :=
  {| cs_identity := ident 9;
     cs_credential := Some {| gc_generation := 2; gc_transaction_system_id := "b" |};
     cs_cell_id := CELL; cs_tenant_id := TENANT; cs_generation := 2;
     cs_transaction_identity := ident 1;
     cs_action := TakeoverPublish 1 5 1 envelope_digest |}.
Definition after_takeover := ok_or (fresh, staged_response fresh (ident 1) SInvalidRequest None)
  (staged_apply prefix_digest takeover 20 successor no_fence_faults before_takeover).
End demo_takeover.
Import demo_takeover.

(** [TakeoverPublish] publishes a transaction a second time. It does not
    look at the [visible] flag when the domain still has the previous
    generation: naming the first transaction, already visible, while a second
    one is the only unresolved one, is accepted. The envelope of the first is
    appended to the committed feed again, the domain moves to the new
    generation, and the second stays unresolved although its generation ended. *)
Theorem takeover_republishes_visible :
  st_visible <$> cd_staged_transactions before_takeover = [true; false] ∧
  length (cd_committed_envelopes before_takeover) = 1 ∧
  csr_status after_takeover.2 = SCommitted ∧
  cd_committed_envelopes after_takeover.1 =
    cd_committed_envelopes before_takeover ++ cd_committed_envelopes before_takeover ∧
  cd_generation after_takeover.1 = 2%N ∧
  unresolved <$> cd_staged_transactions after_takeover.1 = [false; true].
Proof. split_and!; vm_compute; reflexivity. Qed.
