(* ===== verification/CellDomains.v ===== *)
(** * Cell domains

    The domains of [CellTransactionState]: one per cell and tenant, and a
    command only touches the one it names. *)

From S2P Require Import Prelude Order BTree Bytes Version Quorum Envelope.
From S2P Require Import CellState.

Definition domain_key (d : CellDomainState) : bytes * bytes := (cd_cell_id d, cd_tenant_id d).
Definition domains_wf (s : CellTransactionState) : Prop := NoDup (domain_key <$> s).

Lemma domain_position_spec s c t :
  (∃ s1 d s2, s = s1 ++ d :: s2 ∧ domain_position s c t = length s1 ∧
     domain_key d = (c, t)) ∨
  (domain_position s c t = length s ∧ (c, t) ∉ domain_key <$> s).
Proof.
  induction s as [|d s IH]; cbn [domain_position].
  { right. split; [done|]. rewrite fmap_nil. set_solver. }
  destruct (bool_decide _ && bool_decide _) eqn:E.
  - apply andb_true_iff in E as [?%bool_decide_eq_true ?%bool_decide_eq_true].
    left. exists [], d, s. unfold domain_key. split_and!; [done..|congruence].
  - destruct IH as [(s1 & d' & s2 & -> & -> & Hk)|[-> Hn]].
    + left. by exists (d :: s1), d', s2.
    + right. split; [done|]. rewrite fmap_cons, not_elem_of_cons. split; [|done].
      unfold domain_key. intros [= -> ->]. by rewrite !bool_decide_true in E.
Qed.

(** What [with_domain] does: the domain is found or appended, and replaced. *)
Lemma with_domain_cases {R} s c t g (f : CellDomainState → res CommitCodecError (_ * R)) s' r :
  with_domain s c t g f = Ok (s', r) →
  ∃ s1 d d' s2, f d = Ok (d', r) ∧ s' = s1 ++ d' :: s2 ∧ domain_key d = (c, t) ∧
    (s = s1 ++ d :: s2 ∨
     s = s1 ∧ s2 = [] ∧ d = CellDomainState_new c t g ∧ (c, t) ∉ domain_key <$> s).
Proof.
  unfold with_domain.
  destruct (domain_position_spec s c t) as [(s1 & d & s2 & E & -> & Hk)|[-> Hn]].
  - rewrite (proj2 (Nat.ltb_lt _ _)) by (rewrite E, length_app; cbn; lia).
    rewrite E at 1. rewrite list_lookup_middle by done. cbn [expect].
    intros (d0 & [= <-] & ([d' r'] & Hf & [= <- <-])%res_bind_Ok)%res_bind_Ok.
    exists s1, d, d', s2. split_and!; [done| |done|by left]. rewrite E.
    by rewrite insert_app_r_alt, Nat.sub_diag by lia.
  - rewrite (proj2 (Nat.ltb_ge _ _)) by lia. rewrite list_lookup_middle by done. cbn [expect].
    intros (d0 & [= <-] & ([d' r'] & Hf & [= <- <-])%res_bind_Ok)%res_bind_Ok.
    exists s, (CellDomainState_new c t g), d', []. split_and!; [done| |done|by right].
    by rewrite insert_app_r_alt, Nat.sub_diag by lia.
Qed.

(** Only the named domain changes, and domains stay unique. *)
Lemma with_domain_isolated {R} s c t g (f : CellDomainState → res CommitCodecError (_ * R)) s' r :
  (∀ d d' r, f d = Ok (d', r) → domain_key d' = domain_key d) →
  domains_wf s → with_domain s c t g f = Ok (s', r) →
  domains_wf s' ∧ ∀ d, domain_key d ≠ (c, t) → d ∈ s' ↔ d ∈ s.
Proof.
  intros Hf Hwf (s1 & d & d' & s2 & Hd & -> & Hk & Hs)%with_domain_cases.
  apply Hf in Hd. unfold domains_wf in *. destruct Hs as [->|(-> & -> & -> & Hn)].
  - split.
    + by rewrite !fmap_app, !fmap_cons, Hd in *.
    + intros x Hx. rewrite !elem_of_app, !elem_of_cons.
      split; intros [?|[->|?]]; auto; congruence.
  - split.
    + rewrite fmap_app, fmap_cons, fmap_nil, Hd. apply NoDup_app. split_and!; [done| |].
      * intros k Hin ->%list_elem_of_singleton. by rewrite Hk in Hin.
      * apply NoDup_singleton.
    + intros x Hx. rewrite elem_of_app, list_elem_of_singleton.
      split; [intros [?| ->]; [done|congruence]|by left].
Qed.

Section domains.
Context (sha256 : bytes → bytes).
Context `{Ed25519} `{CellJson}.
Implicit Types d : CellDomainState.

(** ** Only policy actions change the policies, and none the key *)
Definition domain_frame d :=
  (domain_key d, cd_log_set_policies d, cd_pending_log_set_policy_transition d,
   cd_completed_log_set_policy_transitions d).
Definition is_policy_action (a : CellStagedTransactionAction) : bool :=
  match a with
  | InstallLogSetPolicies _ | PrepareLogSetPolicyTransition _ _
  | CommitLogSetPolicyTransition _ _ => true
  | _ => false
  end.

Lemma publish_staged_frame d i next d' e :
  publish_staged_transaction sha256 d i next = Ok (d', e) → domain_frame d' = domain_frame d.
Proof.
  unfold publish_staged_transaction. case_match; [|done]. intros [= <- _]. by destruct d.
Qed.

Lemma update_staged_frame d i f : domain_frame (update_staged d i f) = domain_frame d.
Proof. by destruct d. Qed.

Lemma resolver_evidence_frame d c d' decision :
  resolver_evidence sha256 d c = Ok (EvDecision d' decision) → domain_frame d' = domain_frame d.
Proof.
  unfold resolver_evidence. destruct (ct_partitioned_resolution c); [|done].
  case_guards; [done|]. intros (o & _ & Ho)%res_bind_Ok.
  destruct o; [|done]. injection Ho as <- _. by destruct d.
Qed.

Lemma direct_apply_frame c i faults d d' r :
  direct_apply sha256 c i faults d = Ok (d', r) → domain_frame d' = domain_frame d.
Proof.
  unfold direct_apply, direct_reject.
  match goal with |- context [if ?b then ?x else d] => set (d0 := if b then x else d) end.
  assert (domain_frame d0 = domain_frame d) as <- by (unfold d0; case_match; by destruct d).
  clearbody d0. repeat (case_match; [by intros [= <- _]|]).
  intros (ev & Hev & Hap)%res_bind_Ok.
  assert (∀ d1, direct_commit sha256 d1 c i = Ok (d', r) → domain_frame d' = domain_frame d1) as Hc.
  { intros d1. unfold direct_commit. intros (e & _ & [= <- _])%res_bind_Ok. by destruct d1. }
  destruct ev as [|d1 [|]| |].
  - repeat case_match; [injection Hap as <- _; done..|auto].
  - rewrite <-(resolver_evidence_frame _ _ _ _ Hev). auto.
  - injection Hap as <- _. by eapply resolver_evidence_frame.
  - by injection Hap as <- _.
  - by injection Hap as <- _.
Qed.

Lemma on_staged_frame cmd d missing f d' r :
  on_staged cmd d missing f = Ok (d', r) →
  (∀ i s, f i s = Ok (d', r) → domain_frame d' = domain_frame d) → domain_frame d' = domain_frame d.
Proof.
  unfold on_staged, answer. repeat case_match; [|done|by intros [= <- _]]. eauto.
Qed.

Ltac same_frame :=
  intros [= <- _]; match goal with d : CellDomainState |- _ => by destruct d end.

Lemma reserve_frame cmd t certificates faults d d' r :
  reserve_capacity sha256 cmd t certificates faults d = (d', r) → domain_frame d' = domain_frame d.
Proof.
  unfold reserve_capacity, answer.
  repeat match goal with
  | |- context [if ?b then _ else _] => destruct b
  | |- context [match find_staged ?d ?i with _ => _ end] => destruct (find_staged d i)
  end; same_frame.
Qed.

Lemma consume_reservation_frame k d : domain_frame (consume_reservation k d) = domain_frame d.
Proof. unfold consume_reservation. case_match; [by destruct d|done]. Qed.

Lemma stage_frame cmd t i faults d d' r :
  stage sha256 cmd t i faults d = Ok (d', r) → domain_frame d' = domain_frame d.
Proof.
  unfold stage, answer. repeat (case_match; [by intros [= <- _]|]).
  intros (ev & Hev & Hap)%res_bind_Ok.
  assert (∀ b d1, stage_resolved sha256 cmd t i faults b d1 = Ok (d', r) →
            domain_frame d' = domain_frame d1) as Hc.
  { intros b d1. unfold stage_resolved, stage_admit, answer.
    do 2 (destruct (_ && _); [by intros [= <- _]|]).
    intros (e & _ & [= <- _])%res_bind_Ok. rewrite consume_reservation_frame. by destruct d1. }
  destruct ev as [|d1 [|]| |].
  - eauto.
  - rewrite <-(resolver_evidence_frame _ _ _ _ Hev). eauto.
  - injection Hap as <- _. by eapply resolver_evidence_frame.
  - by injection Hap as <- _.
  - by injection Hap as <- _.
Qed.

Lemma resolve_window_frame indexes offset total count next faults d d' :
  resolve_window sha256 indexes offset total count next faults d = Ok d' →
  domain_frame d' = domain_frame d.
Proof.
  revert offset d. induction indexes as [|i indexes IH]; intros offset d; cbn [resolve_window].
  { by intros [= <-]. }
  intros (d1 & Hd1 & Hr)%res_bind_Ok. rewrite (IH _ _ Hr).
  repeat case_match; simplify_eq; try apply update_staged_frame;
    apply res_bind_Ok in Hd1 as ([d2 e] & Hp & [= <-]); by eapply publish_staged_frame.
Qed.

Lemma recover_prefix_frame cmd previous recovery w inventories authority faults d d' r :
  apply_takeover_recover_prefix sha256 cmd previous recovery w inventories authority faults d
    = Ok (d', r) → domain_frame d' = domain_frame d.
Proof.
  unfold apply_takeover_recover_prefix, answer.
  repeat (case_match; try by intros [= <- _]).
  all: intros (d1 & <-%resolve_window_frame & Hd)%res_bind_Ok.
  all: injection Hd as <- _; by destruct d1.
Qed.

Lemma staged_apply_frame cmd i authority faults d d' r :
  is_policy_action (cs_action cmd) = false →
  staged_apply sha256 cmd i authority faults d = Ok (d', r) → domain_frame d' = domain_frame d.
Proof.
  intros Ha. unfold staged_apply. destruct (_ || _); [by intros [= <- _]|].
  destruct (cs_action cmd); try done.
  - intros [= Hr]. by eapply reserve_frame.
  - apply stage_frame.
  - intros Hs. apply (on_staged_frame _ _ _ _ _ _ Hs). intros j s. unfold answer.
    repeat case_match; same_frame.
  - intros Hs. apply (on_staged_frame _ _ _ _ _ _ Hs). intros j s. unfold answer.
    repeat case_match; same_frame.
  - intros Hs. apply (on_staged_frame _ _ _ _ _ _ Hs). intros j s. unfold answer.
    repeat (case_match; try by intros [= <- _]).
    intros ([d1 e] & Hp & [= <- _])%res_bind_Ok. by eapply publish_staged_frame.
  - intros Hs. apply (on_staged_frame _ _ _ _ _ _ Hs). intros j s. unfold answer.
    repeat (case_match; try by intros [= <- _]).
    all: intros ([d1 e] & Hp & [= <- _])%res_bind_Ok; by eapply publish_staged_frame.
  - intros Hs. apply (on_staged_frame _ _ _ _ _ _ Hs). intros j s. unfold answer.
    repeat case_match; same_frame.
  - apply recover_prefix_frame.
Qed.

Lemma staged_apply_key cmd i authority faults d d' r :
  staged_apply sha256 cmd i authority faults d = Ok (d', r) → domain_key d' = domain_key d.
Proof.
  destruct (is_policy_action (cs_action cmd)) eqn:Ha.
  - unfold staged_apply. destruct (_ || _); [by intros [= <- _]|].
    destruct (cs_action cmd); try done;
      unfold install_log_set_policies, prepare_policy_transition, commit_policy_transition, answer;
      repeat case_match; same_frame.
  - intros Hs%staged_apply_frame; [|done]. exact (f_equal (λ x, x.1.1.1) Hs).
Qed.

Lemma direct_apply_key c i faults d d' r :
  direct_apply sha256 c i faults d = Ok (d', r) → domain_key d' = domain_key d.
Proof. intros Hf%direct_apply_frame. exact (f_equal (λ x, x.1.1.1) Hf). Qed.
End domains.

(** ** The read-only projection of the domains *)
Definition cell_snapshot (d : CellDomainState) : CellStateSnapshot :=
  {| css_cell_id := cd_cell_id d; css_tenant_id := cd_tenant_id d;
     css_generation := cd_generation d; css_latest_sequence := cd_latest_sequence d;
     css_rows := bt_items (cd_rows d); css_committed_envelopes := cd_committed_envelopes d;
     css_log_set_policies := (bt_items (cd_log_set_policies d)).*2;
     css_pending_log_set_policy_transition := cd_pending_log_set_policy_transition d;
     css_completed_log_set_policy_transitions :=
       (bt_items (cd_completed_log_set_policy_transitions d)).*2 |}.

Definition snapshots (domains : list CellDomainState) : list CellStateSnapshot :=
  cell_snapshot <$> domains.

(** Comparing snapshots compares what readers see: replicas with the same
    snapshots have the same domains, rows and committed envelopes. *)
Theorem snapshots_converge domains1 domains2 :
  snapshots domains1 = snapshots domains2 →
  (λ d, (domain_key d, cd_latest_sequence d, cd_rows d, cd_committed_envelopes d)) <$> domains1 =
  (λ d, (domain_key d, cd_latest_sequence d, cd_rows d, cd_committed_envelopes d)) <$> domains2.
Proof.
  assert (∀ d, list_to_map (css_rows (cell_snapshot d)) = cd_rows d) as Hrows.
  { intros d. apply map_eq. intros k. apply option_eq. intros v. cbn.
    rewrite <-elem_of_list_to_map by apply bt_items_NoDup. apply elem_of_bt_items. }
  revert domains2. induction domains1 as [|d1 ds1 IH]; intros [|d2 ds2] H; try done.
  injection H as Hcell Htenant _ Hseq Hr Henv _ _ _ Hds.
  pose proof (Hrows d1) as H1. pose proof (Hrows d2) as H2. cbn in H1, H2. rewrite Hr, H2 in H1.
  cbn. unfold domain_key. rewrite Hcell, Htenant, Hseq, H1, Henv. f_equal. by apply IH.
Qed.
