(* ===== verification/CellDurable.v ===== *)
(** * Durability of the staged path

    A staged transaction becomes visible only with evidence that every one of
    its log sets stored it: a quorum of signatures over its certificate, a
    quorum of signed inventories in which it is present, or, for a log set
    without a policy, an unsigned receipt. *)

From S2P Require Import Prelude Order BTree Bytes Version Quorum Envelope.
From S2P Require Import CellState CellSerial CellSteps CellStaged CellDemo.

Lemma NoDup_fmap_lfilter {A B} (f : A → B) (P : A → bool) l :
  NoDup (f <$> l) → NoDup (f <$> List.filter P l).
Proof.
  induction l as [|x l IH]; [done|]. rewrite fmap_cons, NoDup_cons. intros [Hx Hl].
  cbn [List.filter]. destruct (P x); [|auto]. rewrite fmap_cons. constructor; [|auto].
  intros (y & E & Hy)%list_elem_of_fmap. apply list_elem_of_In, filter_In in Hy as [Hy _].
  apply Hx. rewrite E. by apply list_elem_of_fmap_2, list_elem_of_In.
Qed.

Section durable.
Context (sha256 : bytes → bytes).
Context `{Ed25519} `{CellJson}.
Implicit Types (d : CellDomainState) (s : StagedTransaction) (policy : CellLogSetPolicy).

(** Enough distinct members of a log set, each with a property. *)
Definition quorum_of (policy : CellLogSetPolicy) (P : N → Prop) : Prop :=
  ∃ q : gset N, q ⊆ dom (member_map (lsp_members policy)) ∧
    N.to_nat (lsp_quorum_size policy) ≤ size q ∧ ∀ n, n ∈ q → P n.

(** The signature verifies under the key the policy names for the node. *)
Definition signed_with policy (message : bytes) (n : N) (signature : bytes) : Prop :=
  ∃ key, member_map (lsp_members policy) !! n = Some key ∧
    ed25519_verify key message signature = true.

(** The certificate holds the signatures of a quorum that it stored the
    transaction's envelope. *)
Definition stored_by s policy (c : CellTaggedLogCertificate) : Prop :=
  ∃ message, log_signing_bytes (tlc_statement c) = Some message ∧
    tls_log_set_id (tlc_statement c) = lsp_log_set_id policy ∧
    tls_transaction_identity (tlc_statement c) = st_identity s ∧
    tls_commit_sequence (tlc_statement c) = st_commit_sequence s ∧
    tls_envelope_sha256 (tlc_statement c) = sha256 (st_envelope s) ∧
    quorum_of policy (λ n, ∃ a, a ∈ tlc_attestations c ∧ tla_signer_id a = n ∧
      signed_with policy message n (tla_signature a)).

(** The certificate holds the signatures of a quorum over inventories in which
    the transaction is present. *)
Definition observed_by s policy (c : CellTaggedLogPrefixFenceCertificate) : Prop :=
  pfs_log_set_id (pfc_statement c) = lsp_log_set_id policy ∧
  quorum_of policy (λ n, ∃ a o message, a ∈ pfc_attestations c ∧ pfa_signer_id a = n ∧
    prefix_signing_bytes (pfc_statement c) (pfa_observations a) = Some message ∧
    o ∈ pfa_observations a ∧
    observation_key o = (st_identity s, st_commit_sequence s, sha256 (st_envelope s)) ∧
    pfo_record_present o = true ∧ signed_with policy message n (pfa_signature a)).

(** The receipt names two nodes or more that hold the envelope. *)
Definition received_by s (receipt : CellTaggedLogReceipt) : Prop :=
  tlr_envelope_sha256 receipt = sha256 (st_envelope s) ∧
  2 ≤ size (set_of (tlr_quorum_node_ids receipt)).

(** What a run has shown: the policies its states had for a log set, the log sets
    that had none, and the inventories its commands carried. *)
Record shown := {
  ev_policy : N → CellLogSetPolicy → Prop;
  ev_no_policy : N → Prop;
  ev_inventory : CellTaggedLogPrefixFenceCertificate → Prop;
}.
Context (ev : shown).

Definition has_evidence s (tag : N) : Prop :=
  is_Some (st_certificates s !! tag) ∨
  (∃ policy c, ev_policy ev tag policy ∧ ev_inventory ev c ∧
     pfs_log_set_id (pfc_statement c) = tag ∧ observed_by s policy c) ∨
  is_Some (st_receipts s !! tag) ∧ ev_no_policy ev tag.

(** The evidence depends on what was staged only. *)
Definition same_record s s' : Prop :=
  st_identity s' = st_identity s ∧ st_commit_sequence s' = st_commit_sequence s ∧
  st_envelope s' = st_envelope s ∧ st_transaction s' = st_transaction s.

Lemma stored_by_same s s' policy c : same_record s s' → stored_by s policy c → stored_by s' policy c.
Proof. intros (E1 & E2 & E3 & _). unfold stored_by. by rewrite E1, E2, E3. Qed.
Lemma observed_by_same s s' policy c :
  same_record s s' → observed_by s policy c → observed_by s' policy c.
Proof. intros (E1 & E2 & E3 & _). unfold observed_by. by rewrite E1, E2, E3. Qed.

Definition all_durable s : Prop :=
  ∀ tag, tag ∈ ct_durable_log_tags (st_transaction s) → has_evidence s tag.

(** An entry that gains evidence only. *)
Definition gains s s' : Prop :=
  same_record s s' ∧ st_certificates s ⊆ st_certificates s' ∧ st_receipts s ⊆ st_receipts s'.

Lemma all_durable_gains s s' : gains s s' → all_durable s → all_durable s'.
Proof.
  intros (Hs & Hc & Hr) Hd tag Htag. pose proof Hs as (_ & _ & _ & E). rewrite E in Htag.
  destruct (Hd tag Htag) as [[c Hl]|[(policy & c & ? & ? & ? & Ho)|[[receipt Hl] ?]]].
  - left. exists c. by eapply lookup_weaken.
  - right. left. exists policy, c. split_and!; [done..|]. by eapply observed_by_same.
  - right. right. split; [|done]. exists receipt. by eapply lookup_weaken.
Qed.

(** ** What verified evidence says *)
Lemma member_signed_with policy n message signature :
  member_signed (member_map (lsp_members policy)) n message signature = true →
  ∃ bytes, message = Some bytes ∧ signed_with policy bytes n signature.
Proof.
  unfold member_signed, signed_with. destruct (_ !! n) as [key|] eqn:Hk; [|done].
  destruct message as [bytes|]; [|done]. intros Hv. exists bytes. split; [done|]. eauto.
Qed.

Lemma attested_quorum {A} (signer : A → N) ok atts policy (P : N → Prop) :
  attested signer ok atts (N.to_nat (lsp_quorum_size policy)) = true →
  (∀ a, a ∈ atts → ok a = true →
     is_Some (member_map (lsp_members policy) !! signer a) ∧ P (signer a)) →
  quorum_of policy P.
Proof.
  intros Hat Hok. exists (list_to_set (signer <$> atts)).
  destruct (attested_members signer ok atts _ (member_map (lsp_members policy)) Hat)
    as [Hsub Hsize]; [naive_solver|]. split_and!; [done..|].
  intros n Hn. apply elem_of_list_to_set, list_elem_of_fmap in Hn as (a & -> & Ha).
  apply attested_spec in Hat as (_ & Hall & _). rewrite Forall_forall in Hall.
  by apply Hok; [|apply Hall].
Qed.

Lemma certificate_stored c policy s cell tenant generation :
  verify_tagged_log_certificate sha256 c policy s cell tenant generation = true →
  stored_by s policy c.
Proof.
  unfold verify_tagged_log_certificate, verify_tagged_log_envelope_certificate.
  case_match eqn:Hg1; [done|]. case_match eqn:Hdec; [|done..]. case_match; [done|].
  case_match eqn:Hg2; [done|]. intros [Hm Hat]%andb_true_iff.
  repeat match goal with Hg : _ || _ = false |- _ => apply orb_false_iff in Hg as [? ?] end.
  destruct_bool_hyps. destruct Hm as [message Hm].
  exists message. split_and!; try done.
  eapply attested_quorum; [exact Hat|]. intros att Hin Ha.
  apply member_signed_with in Ha as (bytes & Hb & Hs). simplify_eq. split; [|by exists att].
  destruct Hs as (key & Hk & _). eauto.
Qed.

(** The part of an attested quorum that meets a further condition. *)
Lemma attested_filter_quorum {A} (signer : A → N) ok (f : A → bool) atts policy (P : N → Prop) :
  attested signer ok atts (N.to_nat (lsp_quorum_size policy)) = true →
  N.to_nat (lsp_quorum_size policy) ≤ length (List.filter f atts) →
  (∀ a, a ∈ atts → ok a = true → f a = true →
     is_Some (member_map (lsp_members policy) !! signer a) ∧ P (signer a)) →
  quorum_of policy P.
Proof.
  intros (Hnd & Hall & _)%attested_spec Hq Hok. eapply (attested_quorum signer ok).
  - apply attested_spec. split_and!; [by apply NoDup_fmap_lfilter| |exact Hq].
    rewrite Forall_forall in *. intros a Ha. apply Hall.
    apply list_elem_of_In, filter_In in Ha as [Ha _]. by apply list_elem_of_In.
  - intros a Ha Hoka. apply list_elem_of_In, filter_In in Ha as [Ha Hfa].
    by apply Hok; [apply list_elem_of_In|..].
Qed.

(** What an inventory says when a quorum of it has seen a record. *)
Lemma inventory_observed c policy w cell tenant generation recovery record s :
  verify_tagged_log_prefix_fence_certificate sha256 c policy w cell tenant generation recovery
    = true →
  N.to_nat (lsp_quorum_size policy)
    ≤ length (List.filter (observed record true) (pfc_attestations c)) →
  record_key record = (st_identity s, st_commit_sequence s, sha256 (st_envelope s)) →
  observed_by s policy c.
Proof.
  unfold verify_tagged_log_prefix_fence_certificate. case_match eqn:Hg; [done|].
  intros Hat Hq Hkey.
  repeat match goal with Hg : _ || _ = false |- _ => apply orb_false_iff in Hg as [? ?] end.
  destruct_bool_hyps. split; [done|].
  eapply attested_filter_quorum; [exact Hat|exact Hq|].
  intros att Hin [_ Hsig]%andb_true_iff Hobs.
  apply member_signed_with in Hsig as (message & Hm & Hs). split.
  { destruct Hs as (key & Hk & _). eauto. }
  unfold observed in Hobs. destruct (List.find _ _) as [o|] eqn:Hf; [|done].
  apply find_some in Hf as [Ho Hk]. apply bool_decide_eq_true in Hk.
  exists att, o, message.
  split_and!; try done; [by apply list_elem_of_In|congruence|].
  by destruct (pfo_record_present o).
Qed.

(** ** The invariant *)
Record entry_durable s : Prop := {
  ed_certificates : ∀ tag c, st_certificates s !! tag = Some c →
    tls_log_set_id (tlc_statement c) = tag ∧
    ∃ policy, ev_policy ev tag policy ∧ stored_by s policy c;
  ed_receipts : ∀ tag receipt, st_receipts s !! tag = Some receipt → received_by s receipt;
  ed_visible : st_visible s = true → all_durable s;
}.
Definition durable_inv d : Prop := Forall entry_durable (cd_staged_transactions d).

Lemma durable_inv_same d d' :
  cd_staged_transactions d' = cd_staged_transactions d → durable_inv d → durable_inv d'.
Proof. unfold durable_inv. by intros ->. Qed.

Lemma durable_inv_update d l1 s l2 f :
  durable_inv d → cd_staged_transactions d = l1 ++ s :: l2 →
  (entry_durable s → entry_durable (f s)) → durable_inv (update_staged d (length l1) f).
Proof.
  unfold durable_inv. intros Hd E Hf. rewrite (update_staged_list _ _ _ _ _ E).
  rewrite E in Hd. by eapply Forall_middle.
Qed.

Lemma entry_durable_gains s s' :
  gains s s' →
  (∀ tag c, st_certificates s' !! tag = Some c → st_certificates s !! tag = Some c ∨
     tls_log_set_id (tlc_statement c) = tag ∧
     ∃ policy, ev_policy ev tag policy ∧ stored_by s policy c) →
  (∀ tag receipt, st_receipts s' !! tag = Some receipt →
     st_receipts s !! tag = Some receipt ∨ received_by s receipt) →
  (st_visible s' = true → st_visible s = true ∨ all_durable s) →
  entry_durable s → entry_durable s'.
Proof.
  intros Hg Hc' Hr' Hv' [Hc Hr Hv]. pose proof Hg as (Hs & _ & _). split.
  - intros tag c Hl. destruct (Hc' _ _ Hl) as [Hl'|(? & policy & ? & ?)].
    + destruct (Hc _ _ Hl') as (? & policy & ? & ?). eauto using stored_by_same.
    + eauto using stored_by_same.
  - intros tag receipt Hl. pose proof Hs as (_ & _ & E & _). unfold received_by. rewrite E.
    destruct (Hr' _ _ Hl) as [Hl'|?]; [by eapply Hr|done].
  - intros Hvis. eapply all_durable_gains; [done|]. destruct (Hv' Hvis); auto.
Qed.

Lemma mark_visible_durable s :
  all_durable s → entry_durable s → entry_durable (mark_visible s).
Proof. intros Ha. apply entry_durable_gains; destruct s; cbn; auto. by split_and!. Qed.

Lemma mark_aborted_durable s : entry_durable s → entry_durable (mark_aborted s).
Proof. apply entry_durable_gains; destruct s; cbn; auto. by split_and!. Qed.

Lemma publish_staged_alter d i next d' e :
  publish_staged_transaction sha256 d i next = Ok (d', e) →
  cd_staged_transactions d' = alter mark_visible i (cd_staged_transactions d).
Proof.
  unfold publish_staged_transaction. case_match; [|done]. intros [= <- _]. by destruct d.
Qed.

Lemma publish_durable d i s next d' e :
  durable_inv d → cd_staged_transactions d !! i = Some s → all_durable s →
  publish_staged_transaction sha256 d i next = Ok (d', e) → durable_inv d'.
Proof.
  intros Hd Hi Ha Hp. unfold durable_inv. rewrite (publish_staged_alter _ _ _ _ _ Hp).
  apply Forall_alter; [done|]. intros x Hx. simplify_eq. by apply mark_visible_durable.
Qed.

(** The evidence covers the policies of [d]. *)
Definition policies_known d : Prop := ∀ tag,
  match cd_log_set_policies d !! tag with
  | Some policy => ev_policy ev tag policy
  | None => ev_no_policy ev tag
  end.

Lemma publish_complete_durable d s : policies_known d → publish_complete d s = true → all_durable s.
Proof.
  intros Hcov Hp tag Htag. unfold publish_complete in Hp.
  apply forallb_Forall in Hp. rewrite Forall_forall in Hp. specialize (Hp tag Htag).
  specialize (Hcov tag). destruct (cd_log_set_policies d !! tag); apply is_some_spec in Hp.
  - by left.
  - by right; right.
Qed.

Lemma certificates_complete_durable s :
  forallb (λ log_set, is_some (st_certificates s !! log_set))
    (ct_durable_log_tags (st_transaction s)) = true → all_durable s.
Proof.
  intros Hp tag Htag. apply forallb_Forall in Hp. rewrite Forall_forall in Hp.
  specialize (Hp tag Htag). apply is_some_spec in Hp. by left.
Qed.

(** ** The actions *)
Lemma receipt_durable cmd receipt d d' r :
  durable_inv d → record_log_receipt sha256 cmd receipt d = Ok (d', r) → durable_inv d'.
Proof.
  intros Hd. unfold record_log_receipt, answer.
  intros [->|(l1 & s & l2 & E & _ & Hf)]%on_staged_cases; [done|]. revert Hf.
  case_match; [by intros [= <- _]|]. case_match; [by intros [= <- _]|].
  case_match eqn:Hg; [by intros [= <- _]|]. case_match; intros [= <- _]; [done|].
  repeat match goal with Hg : _ || _ = false |- _ => apply orb_false_iff in Hg as [? ?] end.
  destruct_bool_hyps. eapply durable_inv_update; [done..|].
  assert (received_by s receipt) as Hnew by (split; [done|by apply Nat.ltb_ge]).
  apply entry_durable_gains; destruct s; cbn in *; unfold constant; auto.
  - split_and!; cbn; [done|done|by apply insert_subseteq].
  - intros tag r' [[_ <-]|[_ ?]]%lookup_insert_Some; auto.
Qed.

Lemma certificate_durable cmd certificate d d' r :
  policies_known d → durable_inv d → record_log_certificate sha256 cmd certificate d = Ok (d', r) →
  durable_inv d'.
Proof.
  intros Hcov Hd. unfold record_log_certificate, answer.
  intros [->|(l1 & s & l2 & E & _ & Hf)]%on_staged_cases; [done|]. revert Hf.
  case_match; [by intros [= <- _]|]. case_match eqn:Hpol; [|by intros [= <- _]].
  case_match eqn:Hg; [by intros [= <- _]|]. case_match; intros [= <- _]; [done|].
  apply orb_false_iff in Hg as [_ Hver%negb_false_iff].
  apply certificate_stored in Hver as Hstored.
  specialize (Hcov (tls_log_set_id (tlc_statement certificate))). rewrite Hpol in Hcov.
  eapply durable_inv_update; [done..|].
  apply entry_durable_gains; destruct s; cbn in *; unfold constant; auto.
  - split_and!; cbn; [done|by apply insert_subseteq|done].
  - intros tag c' [[<- <-]|[_ ?]]%lookup_insert_Some; eauto.
Qed.

Lemma publish_action_durable cmd d d' r :
  policies_known d → durable_inv d → publish sha256 cmd d = Ok (d', r) → durable_inv d'.
Proof.
  intros Hcov Hd. unfold publish, answer.
  intros [->|(l1 & s & l2 & E & _ & Hf)]%on_staged_cases; [done|]. revert Hf.
  do 3 (case_match; [by intros [= <- _]|]). case_match eqn:Hg; [by intros [= <- _]|].
  apply orb_false_iff in Hg as [Hc%negb_false_iff _].
  intros ([d1 e] & Hp & [= <- _])%res_bind_Ok.
  eapply (publish_durable d (length l1) s); [done|by rewrite E, list_lookup_middle| |done].
  by eapply publish_complete_durable.
Qed.

Lemma takeover_publish_durable cmd previous recovery expected digest authority d d' r :
  durable_inv d →
  takeover_publish sha256 cmd previous recovery expected digest authority no_fence_faults d
    = Ok (d', r) → durable_inv d'.
Proof.
  intros Hd. unfold takeover_publish, answer.
  intros [->|(l1 & s & l2 & E & _ & Hf)]%on_staged_cases; [done|]. revert Hf.
  case_match; [by intros [= <- _]|]. case_match eqn:Hg; [by intros [= <- _]|].
  apply orb_false_iff in Hg as [[_ Hc]%orb_false_iff _]. cbn in Hc.
  apply negb_false_iff in Hc. intros ([d1 e] & Hp & [= <- _])%res_bind_Ok.
  eapply (publish_durable d (length l1) s); [done|by rewrite E, list_lookup_middle| |done].
  by apply certificates_complete_durable.
Qed.

Lemma takeover_abort_durable cmd previous recovery expected digest fences authority d d' r :
  durable_inv d →
  takeover_abort sha256 cmd previous recovery expected digest fences authority no_fence_faults d
    = Ok (d', r) → durable_inv d'.
Proof.
  intros Hd. unfold takeover_abort, answer.
  intros [->|(l1 & s & l2 & E & _ & Hf)]%on_staged_cases; [done|]. revert Hf.
  do 2 (case_match; [by intros [= <- _]|]). intros [= <- _].
  eapply durable_inv_same; [|eapply (durable_inv_update d l1 s l2 mark_aborted)];
    [by destruct d|done..|apply mark_aborted_durable].
Qed.

Lemma stage_durable cmd t log_index d d' r :
  durable_inv d → stage sha256 cmd t log_index no_fence_faults d = Ok (d', r) → durable_inv d'.
Proof.
  intros Hd. unfold stage, answer. repeat (case_match; [by intros [= <- _]|]).
  intros (verdict & Hev & Hap)%res_bind_Ok.
  assert (∀ b d1, cd_staged_transactions d1 = cd_staged_transactions d →
            stage_resolved sha256 cmd t log_index no_fence_faults b d1 = Ok (d', r) →
            durable_inv d') as Hc.
  { intros b d1 Hst. unfold stage_resolved, stage_admit, answer.
    do 2 (destruct (_ && _); [intros [= <- _]; by eapply durable_inv_same|]).
    intros (e & _ & [= <- _])%res_bind_Ok. unfold durable_inv.
    rewrite (proj2 (consume_reservation_same _ _)).
    destruct d1. cbn in *. unfold constant. rewrite Hst.
    apply Forall_app. split; [done|]. apply Forall_singleton. split; cbn; [..|done];
      intros tag ? Hl; by rewrite lookup_empty in Hl. }
  destruct verdict as [|d1 [|]| |].
  - by eapply Hc.
  - destruct (resolver_evidence_same _ _ _ _ _ Hev). by eapply Hc.
  - injection Hap as <- _. destruct (resolver_evidence_same _ _ _ _ _ Hev).
    by eapply durable_inv_same.
  - by injection Hap as <- _.
  - by injection Hap as <- _.
Qed.

(** *** Prefix recovery *)

(** The records of a window are the staged transactions at its positions. *)
Lemma window_indexes_spec generation l records window :
  window_indexes sha256 generation l records = Some window →
  Forall2 (λ record e, l !! e.1 = Some e.2 ∧
    record_key record = (st_identity e.2, st_commit_sequence e.2, sha256 (st_envelope e.2)))
    records window.
Proof.
  revert window. induction records as [|record records IH]; intros window; cbn [window_indexes].
  { intros [= <-]. constructor. }
  destruct (staged_position l _) as [i|] eqn:Hp; [|done].
  apply staged_position_Some in Hp as (l1 & s & l2 & -> & <- & Hid).
  rewrite list_lookup_middle by done. case_match eqn:Hg; [done|].
  intros (rest & Hrest & ->)%fmap_Some. constructor; [|by apply IH].
  repeat match goal with Hg : _ || _ = false |- _ => apply orb_false_iff in Hg as [? ?] end.
  destruct_bool_hyps. cbn. rewrite list_lookup_middle by done. split; [done|].
  unfold record_key. congruence.
Qed.

Lemma record_presence_everywhere d record inventories p0 a0 b :
  record_presence d record inventories p0 a0 = Some (true, b) →
  p0 = true ∧ ∀ c, c ∈ inventories → ∃ policy,
    cd_log_set_policies d !! pfs_log_set_id (pfc_statement c) = Some policy ∧
    N.to_nat (lsp_quorum_size policy)
      ≤ length (List.filter (observed record true) (pfc_attestations c)).
Proof.
  revert p0 a0. induction inventories as [|c inventories IH]; intros p0 a0;
    cbn [record_presence].
  { intros [= -> _]. split; [done|]. intros c Hc. by apply elem_of_nil in Hc. }
  destruct (cd_log_set_policies d !! _) as [policy|] eqn:Hp; [|done].
  case_match; [done|]. intros [[Hp0 Hq]%andb_true_iff Hall]%IH. split; [done|].
  intros c' [->|Hc']%elem_of_cons; [|by apply Hall]. exists policy. split; [done|].
  by apply Nat.leb_le.
Qed.

Lemma recovered_prefix_present d inventories records n0 n absent :
  recovered_prefix d inventories records n0 = Some (n, absent) →
  n0 ≤ n ∧ ∀ j record, records !! j = Some record → n0 + j < n →
    ∃ b, record_presence d record inventories true false = Some (true, b).
Proof.
  revert n0. induction records as [|record records IH]; intros n0; cbn [recovered_prefix].
  { intros [= -> _]. split; [done|]. intros j r Hj. by rewrite lookup_nil in Hj. }
  destruct (record_presence d record inventories true false) as [[p a]|] eqn:Hr; [|done].
  destruct p.
  - intros [Hle Hall]%IH. split; [lia|]. intros [|j] r Hj Hlt; cbn in Hj.
    + simplify_eq. eauto.
    + apply (Hall j r Hj). lia.
  - destruct a; [|done]. intros [= -> _]. split; [done|]. intros j r Hj Hlt. lia.
Qed.

(** Every published position has its evidence. *)
Definition position_durable d (i : nat) : Prop :=
  ∃ s, cd_staged_transactions d !! i = Some s ∧ all_durable s.

Lemma position_durable_alter d d' f i j :
  cd_staged_transactions d' = alter f i (cd_staged_transactions d) →
  (∀ s, gains s (f s)) → position_durable d j → position_durable d' j.
Proof.
  intros E Hf (s & Hs & Ha). unfold position_durable. rewrite E.
  destruct (decide (i = j)) as [->|Hne].
  - exists (f s). rewrite list_lookup_alter_eq, Hs. split; [done|]. by eapply all_durable_gains.
  - exists s. by rewrite list_lookup_alter_ne.
Qed.

Lemma resolve_window_durable indexes offset total count next d d' :
  durable_inv d →
  (∀ j i, indexes !! j = Some i → offset + j < count → position_durable d i) →
  resolve_window sha256 indexes offset total count next no_fence_faults d = Ok d' →
  durable_inv d'.
Proof.
  revert offset d. induction indexes as [|i indexes IH]; intros offset d Hd Hpos;
    cbn [resolve_window skip_recoverable_staged_prefix retain_aborted_staged_suffix
         no_fence_faults andb].
  { by intros [= <-]. }
  intros (d1 & Hd1 & Hres)%res_bind_Ok. eapply IH; [| |exact Hres].
  - destruct (offset <? count) eqn:Hlt.
    + apply Nat.ltb_lt in Hlt. apply res_bind_Ok in Hd1 as ([d2 e] & Hp & [= <-]).
      destruct (Hpos 0 i eq_refl) as (s & Hs & Ha); [lia|]. by eapply publish_durable.
    + injection Hd1 as <-. unfold durable_inv.
      assert (cd_staged_transactions (update_staged d i mark_aborted)
              = alter mark_aborted i (cd_staged_transactions d)) as -> by by destruct d.
      apply Forall_alter; [done|]. intros s _. apply mark_aborted_durable.
  - intros j k Hj Hlt. assert (position_durable d k) as Hk by (apply (Hpos (S j)); [done|lia]).
    destruct (offset <? count).
    + apply res_bind_Ok in Hd1 as ([d2 e] & Hp & [= <-]).
      eapply position_durable_alter; [by eapply publish_staged_alter|by intros []; split_and!|done].
    + injection Hd1 as <-.
      eapply (position_durable_alter d _ mark_aborted i); [by destruct d|by intros []; split_and!|done].
Qed.

Lemma inventories_durable cmd generation recovery w inventories required d record s :
  inventories_valid sha256 cmd generation recovery w inventories required no_fence_faults d
    = true →
  policies_known d → (∀ c, c ∈ inventories → ev_inventory ev c) →
  required = set_of (ct_durable_log_tags (st_transaction s)) →
  record_key record = (st_identity s, st_commit_sequence s, sha256 (st_envelope s)) →
  (∃ b, record_presence d record inventories true false = Some (true, b)) →
  all_durable s.
Proof.
  unfold inventories_valid. cbn.
  intros [[Hsup _]%andb_true_iff Hall]%andb_true_iff Hcov Hinv -> Hkey
    [b [_ Hpres]%record_presence_everywhere] tag Htag.
  apply bool_decide_eq_true in Hsup.
  assert (tag ∈ set_of ((λ c, pfs_log_set_id (pfc_statement c)) <$> inventories)) as Hin
    by (rewrite Hsup; unfold set_of; set_solver).
  apply elem_of_list_to_set, list_elem_of_fmap in Hin as (c & -> & Hc).
  apply forallb_Forall in Hall. rewrite Forall_forall in Hall. specialize (Hall c Hc).
  destruct (Hpres c Hc) as (policy & Hp & Hq). rewrite Hp in Hall.
  pose proof (inventory_observed _ _ _ _ _ _ _ _ s Hall Hq Hkey) as Hobs.
  specialize (Hcov (pfs_log_set_id (pfc_statement c))). rewrite Hp in Hcov.
  right. left. exists policy, c. auto.
Qed.

(** A guard that refuses the command leaves the domain. *)
Ltac refused :=
  match goal with
  | |- (if ?b then Ok _ else _) = _ → _ => destruct b; [by intros [= <- _]|]
  end.

Lemma recover_prefix_durable cmd previous recovery w inventories authority d d' r :
  policies_known d → (∀ c, c ∈ inventories → ev_inventory ev c) → durable_inv d →
  apply_takeover_recover_prefix sha256 cmd previous recovery w inventories authority
    no_fence_faults d = Ok (d', r) → durable_inv d'.
Proof.
  intros Hcov Hpres Hd. unfold apply_takeover_recover_prefix, answer.
  cbn [abort_quorum_present_staged_record publish_beyond_staged_absence no_fence_faults andb].
  cbv zeta. set (required := λ l : list StagedTransaction,
    match l with
    | s :: _ => set_of (ct_durable_log_tags (st_transaction s))
    | [] => ∅
    end).
  refused. destruct (window_indexes _ _ _ _) as [window|] eqn:Hw; [|by intros [= <- _]].
  do 3 refused.
  change (match window.*2 with [] => ∅ | s :: _ => _ end) with (required window.*2).
  destruct (bool_decide (required window.*2 = ∅) || _) eqn:Hreq; [by intros [= <- _]|].
  destruct (inventories_valid _ _ _ _ _ _ _ _ _) eqn:Hinv; [|by intros [= <- _]]. cbn [negb].
  destruct (recovered_prefix _ _ _ _) as [[n absent]|] eqn:Hrec; [|by intros [= <- _]].
  do 2 refused.
  intros (d1 & Hres & [= <- _])%res_bind_Ok.
  eapply durable_inv_same; [|eapply resolve_window_durable; [done| |exact Hres]].
  { by destruct d1. }
  intros j i Hj Hlt. cbn in Hlt. apply window_indexes_spec in Hw.
  rewrite list_lookup_fmap in Hj. apply fmap_Some in Hj as ([i' s] & Hj & ->).
  destruct (Forall2_lookup_r _ _ _ _ _ Hw Hj) as (record & Hrecord & Hs & Hkey).
  cbn in Hs, Hkey |- *. exists s. split; [done|].
  apply orb_false_iff in Hreq as [_ Hreq]. rewrite existsb_false in Hreq.
  eapply inventories_durable; [exact Hinv|done|done| |exact Hkey|].
  - specialize (Hreq s). rewrite negb_false_iff, bool_decide_eq_true in Hreq. symmetry.
    apply Hreq. apply list_elem_of_fmap. exists (i', s). split; [done|].
    by eapply list_elem_of_lookup_2.
  - by eapply (recovered_prefix_present _ _ _ 0).
Qed.

(** The inventories a command carries. *)
Definition inventories_of (cmd : CellStagedTransactionCommand)
    : list CellTaggedLogPrefixFenceCertificate :=
  match cs_action cmd with TakeoverRecoverPrefix _ _ _ inventories => inventories | _ => [] end.

Lemma staged_apply_durable cmd log_index authority d d' r :
  policies_known d → (∀ c, c ∈ inventories_of cmd → ev_inventory ev c) → durable_inv d →
  staged_apply sha256 cmd log_index authority no_fence_faults d = Ok (d', r) → durable_inv d'.
Proof.
  intros Hcov Hpres Hd. unfold staged_apply, answer. destruct (_ || _); [by intros [= <- _]|].
  unfold inventories_of in Hpres. destruct (cs_action cmd).
  - unfold install_log_set_policies, answer.
    case_match; intros [= <- _]; eapply durable_inv_same; [|done| |done]; by destruct d.
  - unfold prepare_policy_transition, answer.
    repeat case_match; intros [= <- _]; (eapply durable_inv_same; [|done]); by destruct d.
  - unfold commit_policy_transition, answer.
    repeat case_match; intros [= <- _]; (eapply durable_inv_same; [|done]); by destruct d.
  - intros [= Hr]. apply reserve_same in Hr as [_ Hr]. by eapply durable_inv_same.
  - by apply stage_durable.
  - by apply receipt_durable.
  - by apply certificate_durable.
  - by apply publish_action_durable.
  - by apply takeover_publish_durable.
  - by apply takeover_abort_durable.
  - by apply recover_prefix_durable.
Qed.
End durable.

Section runs.
Context (sha256 : bytes → bytes).
Context `{Ed25519} `{CellJson}.
Implicit Types (d : CellDomainState) (s : StagedTransaction).

(** The states a run goes through. *)
Definition passes ops d0 d : Prop :=
  ∃ ops1 ops2, ops = ops1 ++ ops2 ∧ staged_run sha256 ops1 d0 = Ok d.

Definition run_evidence (ops : list (CellStagedTransactionCommand * N * GenerationAuthorityState)) d0
    : shown :=
  {| ev_policy tag policy := ∃ d, passes ops d0 d ∧ cd_log_set_policies d !! tag = Some policy;
     ev_no_policy tag := ∃ d, passes ops d0 d ∧ cd_log_set_policies d !! tag = None;
     ev_inventory c := ∃ cmd i a, (cmd, i, a) ∈ ops ∧ c ∈ inventories_of cmd |}.

Lemma passes_known ops d0 d : passes ops d0 d → policies_known (run_evidence ops d0) d.
Proof. intros Hd tag. destruct (cd_log_set_policies d !! tag) eqn:E; by exists d. Qed.

Lemma staged_run_app ops1 ops2 d0 :
  staged_run sha256 (ops1 ++ ops2) d0
  = let? d1 := staged_run sha256 ops1 d0 in staged_run sha256 ops2 d1.
Proof.
  revert d0. induction ops1 as [|[[cmd i] a] ops1 IH]; intros d0; cbn [app staged_run]; [done|].
  destruct (staged_apply _ _ _ _ _ _) as [[d1 r]| |]; cbn; [apply IH|done..].
Qed.

Lemma staged_run_durable ops1 ops2 d0 d :
  cd_staged_transactions d0 = [] → staged_run sha256 ops1 d0 = Ok d →
  durable_inv sha256 (run_evidence (ops1 ++ ops2) d0) d.
Proof.
  intros Hnew. revert ops2 d. induction ops1 as [|[[cmd i] a] ops1 IH] using rev_ind; intros ops2 d.
  { intros [= <-]. unfold durable_inv. rewrite Hnew. constructor. }
  rewrite staged_run_app. intros (d1 & Hrun & Hlast)%res_bind_Ok. cbn [staged_run] in Hlast.
  apply res_bind_Ok in Hlast as ([d2 r] & Hap & [= <-]). rewrite <-(assoc_L (++)).
  eapply (staged_apply_durable sha256); [| |by apply IH|exact Hap].
  - apply passes_known. by exists ops1, ([(cmd, i, a)] ++ ops2).
  - intros c Hc. exists cmd, i, a. split; [set_solver|done].
Qed.

(** C6. No commit without durability. Take a run of staged commands on a domain in
    which nothing was staged before, policy transitions and takeovers included. A
    transaction is visible at its end only if for each of its log sets one of these
    holds. The domain recorded a certificate for it, which carries the signatures of
    a quorum of distinct members, under a policy the domain had for the log set
    during the run, of a statement that names the transaction's identity, commit
    sequence and envelope digest. Or a command of the run carried the inventories of
    a quorum of distinct members under such a policy, each signed and with that
    record present. Or the domain recorded a receipt for its envelope that names at
    least two nodes, and had no policy for the log set at some point of the run (the
    unsigned form). *)
Theorem visible_is_durable ops d0 d s tag :
  cd_staged_transactions d0 = [] → staged_run sha256 ops d0 = Ok d →
  s ∈ cd_staged_transactions d → st_visible s = true →
  tag ∈ ct_durable_log_tags (st_transaction s) →
  (∃ d1 policy certificate, passes ops d0 d1 ∧ cd_log_set_policies d1 !! tag = Some policy ∧
     st_certificates s !! tag = Some certificate ∧
     tls_log_set_id (tlc_statement certificate) = tag ∧ stored_by sha256 s policy certificate) ∨
  (∃ d1 policy cmd i a inventory, passes ops d0 d1 ∧
     cd_log_set_policies d1 !! tag = Some policy ∧ (cmd, i, a) ∈ ops ∧
     inventory ∈ inventories_of cmd ∧ pfs_log_set_id (pfc_statement inventory) = tag ∧
     observed_by sha256 s policy inventory) ∨
  (∃ d1 receipt, passes ops d0 d1 ∧ cd_log_set_policies d1 !! tag = None ∧
     st_receipts s !! tag = Some receipt ∧ received_by sha256 s receipt).
Proof.
  intros Hnew Hrun Hs Hv Htag. pose proof (staged_run_durable ops [] d0 d Hnew Hrun) as Hd.
  rewrite app_nil_r in Hd. unfold durable_inv in Hd. rewrite Forall_forall in Hd.
  destruct (Hd s Hs) as [Hc Hr Hvis].
  destruct (Hvis Hv tag Htag)
    as [[c Hl]|[(policy & c & (d1 & Hp & Hl) & (cmd & i & a & Hin & Hc') & Hid & Ho)
               |[[receipt Hl] (d1 & Hp & Hno)]]].
  - left. destruct (Hc _ _ Hl) as (Hid & policy & (d1 & Hp & Hl') & Hst). by exists d1, policy, c.
  - right. left. by exists d1, policy, cmd, i, a, c.
  - right. right. exists d1, receipt. eauto.
Qed.
End runs.

(** The transaction published with certificates, and the one with receipts. *)
Import demo_cell demo_staged demo_takeover.
Lemma visible_is_durable_witness :
  ∃ s, s ∈ cd_staged_transactions before_takeover ∧ st_visible s = true ∧
    ((∃ d1 policy certificate, passes prefix_digest staged_ops fresh d1 ∧
        cd_log_set_policies d1 !! 10%N = Some policy ∧
        st_certificates s !! 10%N = Some certificate ∧
        tls_log_set_id (tlc_statement certificate) = 10%N ∧
        stored_by prefix_digest s policy certificate) ∨
     (∃ d1 policy cmd i a inventory, passes prefix_digest staged_ops fresh d1 ∧
        cd_log_set_policies d1 !! 10%N = Some policy ∧ (cmd, i, a) ∈ staged_ops ∧
        inventory ∈ inventories_of cmd ∧ pfs_log_set_id (pfc_statement inventory) = 10%N ∧
        observed_by prefix_digest s policy inventory) ∨
     (∃ d1 receipt, passes prefix_digest staged_ops fresh d1 ∧
        cd_log_set_policies d1 !! 10%N = None ∧ st_receipts s !! 10%N = Some receipt ∧
        received_by prefix_digest s receipt)).
Proof.
  pose (s0 := {| st_identity := ident 0; st_transaction := txn 0 0 [] key_a 0;
                 st_commit_sequence := 0; st_envelope := []; st_receipts := ∅;
                 st_certificates := ∅; st_visible := false; st_aborted := false |}).
  exists (default s0 (head (cd_staged_transactions before_takeover))).
  assert (default s0 (head (cd_staged_transactions before_takeover))
          ∈ cd_staged_transactions before_takeover) as Hin by (vm_compute; left).
  split; [exact Hin|]. split; [vm_compute; reflexivity|].
  refine (visible_is_durable prefix_digest staged_ops fresh before_takeover _ 10 _ _ Hin _ _).
  - reflexivity.
  - vm_compute. reflexivity.
  - vm_compute. reflexivity.
  - vm_compute. left.
Defined.
