(* ===== verification/CellCapacity.v ===== *)
(** * Capacity reservations

    The policies of a domain stay keyed by their log set, and a reservation is
    granted only within the soft limits its log sets' members have signed for. *)

From S2P Require Import Prelude Order BTree Bytes Version Quorum Envelope.
From S2P Require Import CellState CellSerial CellSteps CellStaged CellDomains CellDurable CellDemo.

Section capacity.
Context (sha256 : bytes → bytes).
Context `{Ed25519} `{CellJson}.
Implicit Types d : CellDomainState.

Definition keyed (policies : gmap N CellLogSetPolicy) : Prop :=
  map_Forall (λ log_set policy, lsp_log_set_id policy = log_set) policies.

Record policies_ok d : Prop := {
  po_keyed : keyed (cd_log_set_policies d);
  po_pending : ∀ t, cd_pending_log_set_policy_transition d = Some t →
    lsp_log_set_id (lpt_next_policy t) = lpt_log_set_id t;
}.

Lemma keyed_insert policy m : keyed m → keyed (<[lsp_log_set_id policy := policy]> m).
Proof. intros Hm. by apply map_Forall_insert_2. Qed.

Lemma keyed_insert_all policies m :
  keyed m → keyed (foldl (λ m policy, <[lsp_log_set_id policy := policy]> m) m policies).
Proof.
  revert m. induction policies as [|p policies IH]; intros m Hm; [done|]. cbn [foldl].
  by apply IH, keyed_insert.
Qed.

Lemma valid_transition_next t readiness current cell tenant generation :
  valid_log_set_policy_transition sha256 t readiness current cell tenant generation = true →
  lsp_log_set_id (lpt_next_policy t) = lpt_log_set_id t.
Proof.
  unfold valid_log_set_policy_transition. intros Hv.
  repeat match goal with Hv : _ && _ = true |- _ => apply andb_true_iff in Hv as [? ?] end.
  repeat match goal with Hv : (_ =? _)%N = true |- _ => apply N.eqb_eq in Hv end. congruence.
Qed.

Lemma prepare_policies cmd t readiness d d' r :
  policies_ok d →
  prepare_policy_transition sha256 cmd t readiness no_fence_faults d = (d', r) →
  policies_ok d'.
Proof.
  intros Hok. pose proof Hok as [Hk Hp]. unfold prepare_policy_transition, answer.
  do 2 (case_match; [by intros [= <- _]|]). cbn zeta.
  destruct (_ || _) eqn:Hg; [by intros [= <- _]|]. intros [= <- _].
  apply orb_false_iff in Hg as [_ Hg]. cbn in Hg. rewrite andb_false_r, andb_true_r in Hg.
  apply negb_false_iff in Hg. destruct (cd_log_set_policies d !! _); [|done].
  apply valid_transition_next in Hg. destruct d. split; [done|]. cbn. unfold constant.
  by intros t' [= <-].
Qed.

Lemma staged_apply_policies cmd i authority d d' r :
  policies_ok d → staged_apply sha256 cmd i authority no_fence_faults d = Ok (d', r) →
  policies_ok d'.
Proof.
  intros Hok. pose proof Hok as [Hk Hp]. destruct (is_policy_action (cs_action cmd)) eqn:Ha.
  2: { intros Hs%staged_apply_frame; [|done]. unfold domain_frame in Hs.
       injection Hs as _ _ E1 E2 _. split; [by rewrite E1|by rewrite E2]. }
  unfold staged_apply. destruct (_ || _); [by intros [= <- _]|].
  destruct (cs_action cmd); try done.
  - unfold install_log_set_policies, answer. case_match; intros [= <- _]; [done|].
    destruct d. split; [by apply keyed_insert_all|done].
  - intros [= Hpr]. by eapply prepare_policies.
  - unfold commit_policy_transition, answer. cbn.
    repeat (case_match; try by intros [= <- _]).
    intros [= <- _]. destruct d. split; [|done]. cbn. unfold constant.
    apply map_Forall_insert_2; [|done]. by apply Hp.
Qed.

(** A signed sample under which the projected frame still fits. *)
Definition has_room (policy : CellLogSetPolicy) (t : CellTransactionCommand)
    (certificates : list CellTaggedLogCapacityCertificate) (n : N) : Prop :=
  ∃ c a message, c ∈ certificates ∧ a ∈ tcc_attestations c ∧
    capacity_signing_bytes (tcc_statement c) a = Some message ∧
    tcs_log_set_id (tcc_statement c) = lsp_log_set_id policy ∧
    tcs_transaction_identity (tcc_statement c) = ct_identity t ∧
    tca_signer_id a = n ∧ signed_with policy message n (tca_signature a) ∧
    ((lsp_ratekeeper_soft_limit_bytes policy < U64_MAX)%N →
     (tca_retained_bytes a + tcs_projected_frame_bytes (tcc_statement c)
      ≤ lsp_ratekeeper_soft_limit_bytes policy)%N).

Lemma configured_policy_lookup d t policy :
  keyed (cd_log_set_policies d) → policy ∈ configured_policies d t →
  cd_log_set_policies d !! lsp_log_set_id policy = Some policy.
Proof.
  intros Hk Hp. unfold configured_policies in Hp.
  apply list_elem_of_In, filter_In in Hp as [Hp _]. apply list_elem_of_In in Hp.
  apply list_elem_of_omap in Hp as (log_set & _ & Hp). by rewrite (Hk _ _ Hp).
Qed.

Lemma certified_room d t epoch certificates policy :
  keyed (cd_log_set_policies d) → policy ∈ configured_policies d t →
  forallb (capacity_certificate_valid sha256 d t epoch no_fence_faults) certificates = true →
  has_capacity (configured_policies d t) certificates no_fence_faults = true →
  quorum_of policy (has_room policy t certificates).
Proof.
  intros Hk Hp Hvalid Hcap. unfold has_capacity in Hcap.
  apply forallb_Forall in Hvalid. rewrite Forall_forall in Hvalid.
  apply forallb_Forall in Hcap. rewrite Forall_forall in Hcap.
  specialize (Hcap policy Hp). cbn in Hcap.
  destruct (List.find _ certificates) as [c|] eqn:Hf; [|done].
  apply find_some in Hf as [Hc Hid%N.eqb_eq]. apply list_elem_of_In in Hc.
  apply Nat.leb_le in Hcap. specialize (Hvalid c Hc).
  unfold capacity_certificate_valid in Hvalid. rewrite Hid in Hvalid.
  rewrite (configured_policy_lookup _ _ _ Hk Hp) in Hvalid.
  repeat match goal with Hv : _ && _ = true |- _ => apply andb_true_iff in Hv as [Hv ?] end.
  match goal with Hv : verify_tagged_log_capacity_certificate _ _ = true |- _ => rename Hv into Hver end.
  unfold verify_tagged_log_capacity_certificate in Hver. case_match; [done|].
  eapply attested_filter_quorum; [exact Hver|exact Hcap|].
  intros a Hin [_ Hsig]%andb_true_iff Hroom%N.leb_le.
  apply member_signed_with in Hsig as (message & Hm & Hs). split.
  { destruct Hs as (key & Hkey & _). eauto. }
  exists c, a, message. unfold saturating_add in Hroom.
  destruct_bool_hyps; (do 7 (split; [done|]); lia).
Qed.

Lemma staged_again_not_reserved existing t : staged_again existing t ≠ SCapacityReserved.
Proof. unfold staged_again. by repeat case_match. Qed.

Lemma reserve_room cmd t certificates d d' r :
  keyed (cd_log_set_policies d) →
  reserve_capacity sha256 cmd t certificates no_fence_faults d = (d', r) →
  csr_status r = SCapacityReserved →
  ∀ policy, policy ∈ configured_policies d t → quorum_of policy (has_room policy t certificates).
Proof.
  intros Hk. unfold reserve_capacity, answer. cbv zeta. cbn [ratekeeper_allow_stage_without_reservation no_fence_faults andb].
  destruct (_ || _); [by intros [= <- <-]|].
  destruct (pending_transition_touches _ _); [by intros [= <- <-]|].
  destruct (find_staged d _).
  { intros [= <- <-] Hst. by apply staged_again_not_reserved in Hst. }
  destruct (negb _) eqn:Hv; [by intros [= <- <-]|].
  destruct (negb (has_capacity _ _ _)) eqn:Hcap; [by intros [= <- <-]|].
  intros _ _ policy Hp. apply negb_false_iff in Hv, Hcap.
  apply andb_true_iff in Hv as [_ Hv]. by eapply certified_room.
Qed.

Lemma staged_run_policies ops d d' :
  policies_ok d → staged_run sha256 ops d = Ok d' → policies_ok d'.
Proof.
  revert d. induction ops as [|[[cmd i] a] ops IH]; intros d Hd; cbn [staged_run].
  { by intros [= <-]. }
  intros ([d1 r] & Hap & Hrun)%res_bind_Ok. eapply IH; [|done].
  by eapply staged_apply_policies.
Qed.

(** C37. Capacity is reserved within the limits. After any run of staged
    commands on a fresh domain, a reservation is granted only if, for every log
    set of the transaction whose policy limits retained bytes, a quorum of
    distinct members signed, in the certificates of the command, a sample for this
    transaction in which the bytes they retain plus the projected frame do not exceed the policy's soft limit
    (the code's sum saturates, so the limit must be below the largest [u64]). *)
Theorem capacity_reserved_within_limit ops cell tenant g d cmd i authority d' r t certificates :
  staged_run sha256 ops (CellDomainState_new cell tenant g) = Ok d →
  cs_action cmd = ReserveCapacity t certificates →
  staged_apply sha256 cmd i authority no_fence_faults d = Ok (d', r) →
  csr_status r = SCapacityReserved →
  ∀ policy, policy ∈ configured_policies d t →
    quorum_of policy (λ n, ∃ c a message, c ∈ certificates ∧ a ∈ tcc_attestations c ∧
      capacity_signing_bytes (tcc_statement c) a = Some message ∧
      tcs_log_set_id (tcc_statement c) = lsp_log_set_id policy ∧
      tcs_transaction_identity (tcc_statement c) = ct_identity t ∧
      tca_signer_id a = n ∧ signed_with policy message n (tca_signature a) ∧
      ((lsp_ratekeeper_soft_limit_bytes policy < U64_MAX)%N →
       (tca_retained_bytes a + tcs_projected_frame_bytes (tcc_statement c)
        ≤ lsp_ratekeeper_soft_limit_bytes policy)%N)).
Proof.
  intros Hrun Ha Hap Hst. apply staged_run_policies in Hrun as [Hk _].
  - unfold staged_apply in Hap. rewrite Ha in Hap.
    destruct (_ || _); [by injection Hap as <- <-|]. injection Hap as Hap.
    by eapply reserve_room.
  - split; [apply map_Forall_empty|done].
Qed.
End capacity.

(** *** A concrete reservation *)
Module demo_capacity.
Import demo_cell demo_staged demo_takeover.
Definition limited (log_set : N) : CellLogSetPolicy :=
  { log_policy log_set with lsp_ratekeeper_soft_limit_bytes := 2048%N }.
Definition t1 := txn 1 0 [] key_a 1.
Definition statement (log_set : N) : CellTaggedLogCapacityStatement :=
  {| tcs_format_version := 1; tcs_cell_id := CELL; tcs_tenant_id := TENANT;
     tcs_generation := 1; tcs_transaction_identity := ident 1;
     tcs_transaction_sha256 := default [] (ratekeeper_transaction_sha256 prefix_digest t1);
     tcs_log_set_id := log_set; tcs_policy_epoch := 1; tcs_projected_frame_bytes := 48;
     tcs_soft_limit_bytes := 2048; tcs_reservation_epoch := 1 |}.
Definition sample (log_set n : N) : CellTaggedLogCapacityAttestation :=
  let unsigned := {| tca_signer_id := n; tca_last_position := 1; tca_popped_through := 0;
                     tca_retained_bytes := 2000; tca_hard_limit_bytes := 4096;
                     tca_sample_epoch := 1; tca_signature := [] |} in
  { unsigned with tca_signature :=
      key n ++ default [] (capacity_signing_bytes (statement log_set) unsigned) }.
Definition certificate (log_set : N) : CellTaggedLogCapacityCertificate :=
  {| tcc_statement := statement log_set; tcc_attestations := sample log_set <$> [1; 2]%N |}.
Definition certificates := [certificate 10; certificate 20].

Definition install_ops := [command 8 (InstallLogSetPolicies [limited 10; limited 20])].
Definition installed := ok_or fresh (staged_run prefix_digest install_ops fresh).
Definition reserve := (command 1 (ReserveCapacity t1 certificates)).1.1.
Definition reserved := ok_or (fresh, staged_response fresh (ident 1) SInvalidRequest None)
  (staged_apply prefix_digest reserve 9 GenerationAuthorityState_default no_fence_faults installed).
End demo_capacity.
Import demo_cell demo_capacity.

Lemma capacity_reserved_within_limit_witness :
  csr_status reserved.2 = SCapacityReserved ∧
  quorum_of (limited 10) (λ n, ∃ c a message, c ∈ certificates ∧ a ∈ tcc_attestations c ∧
    capacity_signing_bytes (tcc_statement c) a = Some message ∧
    tcs_log_set_id (tcc_statement c) = 10%N ∧
    tcs_transaction_identity (tcc_statement c) = ident 1 ∧ tca_signer_id a = n ∧
    signed_with (limited 10) message n (tca_signature a) ∧
    ((2048 < U64_MAX)%N →
     (tca_retained_bytes a + tcs_projected_frame_bytes (tcc_statement c) ≤ 2048)%N)).
Proof.
  split; [vm_compute; reflexivity|].
  refine (capacity_reserved_within_limit prefix_digest install_ops CELL TENANT 1 installed
    demo_capacity.reserve 9 GenerationAuthorityState_default reserved.1 reserved.2 t1 certificates
    _ _ _ _ (limited 10) _).
  - vm_compute. reflexivity.
  - reflexivity.
  - vm_compute. reflexivity.
  - vm_compute. reflexivity.
  - vm_compute. left.
Defined.
