(* ===== verification/CellPartition.v ===== *)
(** * Partitioned conflict detection

    What the resolvers of the epoch-1 map see of a transaction's conflict
    ranges: exactly the conflicts at keys the map covers. *)

From S2P Require Import Prelude Order BTree Bytes Version Quorum Envelope.
From S2P Require Import CellState CellSerial.

Definition owned_range (p : CellResolverPartition) : CellKeyRange :=
  {| ckr_start := crp_start p; ckr_end := crp_end p |}.
Definition clip (p : CellResolverPartition) (r : CellKeyRange) : CellKeyRange :=
  {| ckr_start := key_max (ckr_start r) (crp_start p);
     ckr_end := key_min (ckr_end r) (crp_end p) |}.

Lemma key_max_le a b k : key_max a b ≤ₖ k ↔ a ≤ₖ k ∧ b ≤ₖ k.
Proof. unfold key_max. destruct (b <ₖ? a) eqn:E; split; intros; destruct_and?; split_and?; key_order. Qed.
Lemma lt_key_min a b k : k <ₖ key_min a b ↔ k <ₖ a ∧ k <ₖ b.
Proof. unfold key_min. destruct (b <ₖ? a) eqn:E; split; intros; destruct_and?; split_and?; key_order. Qed.

Lemma range_contains_spec r k : range_contains r k = true ↔ ckr_start r ≤ₖ k ∧ k <ₖ ckr_end r.
Proof. unfold range_contains. rewrite andb_true_iff. split; intros [? ?]; split; key_order. Qed.

(** Two valid ranges overlap exactly when they share a key. *)
Lemma overlaps_shared_key r w :
  range_valid r = true → range_valid w = true →
  range_overlaps r w = true ↔ ∃ k, range_contains r k = true ∧ range_contains w k = true.
Proof.
  intros Hr Hw. split.
  - intros Ho. exists (key_max (ckr_start r) (ckr_start w)).
    unfold range_overlaps, range_valid in *. apply andb_true_iff in Ho as [H1 H2].
    rewrite !range_contains_spec. unfold key_max.
    destruct (ckr_start w <ₖ? ckr_start r) eqn:E; split_and!; key_order.
  - intros (k & H1 & H2). by eapply contains_overlaps.
Qed.

Lemma elem_of_clipped rs p r :
  r ∈ clipped_conflicts rs p ↔
  ∃ r0, r0 ∈ rs ∧ range_overlaps r0 (owned_range p) = true ∧ r = clip p r0.
Proof.
  unfold clipped_conflicts. rewrite elem_of_sort_dedup, list_elem_of_fmap.
  split.
  - intros (r0 & -> & Hr). apply list_elem_of_In, filter_In in Hr as [Hr Ho].
    exists r0. split_and!; [by apply list_elem_of_In|done..].
  - intros (r0 & Hr & Ho & ->). exists r0. split; [done|].
    apply list_elem_of_In, filter_In. split; [by apply list_elem_of_In|done].
Qed.

Lemma clip_contains p r k :
  range_contains (clip p r) k = true ↔
  range_contains r k = true ∧ range_contains (owned_range p) k = true.
Proof. rewrite !range_contains_spec. cbn. rewrite key_max_le, lt_key_min. tauto. Qed.

Lemma clip_valid p r :
  range_valid r = true → range_valid (owned_range p) = true →
  range_overlaps r (owned_range p) = true → range_valid (clip p r) = true.
Proof.
  intros Hr Hp Ho. apply overlaps_shared_key in Ho as (k & H1 & H2); [|done..].
  assert (range_contains (clip p r) k = true) as [? ?]%range_contains_spec
    by by apply clip_contains.
  unfold range_valid. key_order.
Qed.

(** The keys the map covers. *)
Definition in_map (k : bytes) : Prop := [0%N] ≤ₖ k ∧ k <ₖ [240%N].

Lemma in_map_partition k :
  in_map k ↔ ∃ p, p ∈ cell_resolver_partitions ∧ range_contains (owned_range p) k = true.
Proof.
  unfold in_map. setoid_rewrite range_contains_spec. split.
  - intros [H1 H2]. destruct (decide (k <ₖ [80%N])) as [Hk|Hk%key_not_lt].
    { eexists. split; [left|]. cbn. split; key_order. }
    destruct (decide (k <ₖ [160%N])) as [Hk'|Hk'%key_not_lt].
    { eexists. split; [right; left|]. cbn. split; key_order. }
    eexists. split; [right; right; left|]. cbn. split; key_order.
  - assert ([0%N] <ₖ [80%N] ∧ [80%N] <ₖ [160%N] ∧ [160%N] <ₖ [240%N]) as (? & ? & ?)
      by (split_and!; vm_compute; reflexivity).
    intros (p & Hp & Hlo & Hhi). unfold cell_resolver_partitions in Hp.
    rewrite !elem_of_cons, elem_of_nil in Hp.
    destruct Hp as [->|[->|[->|[]]]]; cbn in *; split; key_order.
Qed.

(** The partitioned conflict check is exact on the map. Some resolver of
    the map sees overlapping pieces of the read ranges of one transaction and
    the write ranges of another exactly when a read and a write range share a
    key between 0x00 and 0xf0. A conflict at the empty key or at a key from 0xf0
    on is in no partition: no resolver sees it. *)
Theorem partitioned_conflict_exact reads writes :
  Forall (λ r, range_valid r = true) reads → Forall (λ r, range_valid r = true) writes →
  (∃ p r w, p ∈ cell_resolver_partitions ∧ r ∈ clipped_conflicts reads p ∧
     w ∈ clipped_conflicts writes p ∧ range_overlaps r w = true) ↔
  (∃ r w k, r ∈ reads ∧ w ∈ writes ∧ range_contains r k = true ∧
     range_contains w k = true ∧ [0%N] ≤ₖ k ∧ k <ₖ [240%N]).
Proof.
  intros Hreads Hwrites. rewrite Forall_forall in Hreads, Hwrites.
  assert (∀ p, p ∈ cell_resolver_partitions → range_valid (owned_range p) = true) as Hparts.
  { intros p Hp. unfold cell_resolver_partitions in Hp.
    rewrite !elem_of_cons, elem_of_nil in Hp. by destruct Hp as [->|[->|[->|[]]]]. }
  split.
  - intros (p & r' & w' & Hp & (r & Hr & Hor & ->)%elem_of_clipped &
      (w & Hw & How & ->)%elem_of_clipped & Ho).
    apply overlaps_shared_key in Ho as (k & [Hkr Hkp]%clip_contains & [Hkw _]%clip_contains);
      [|by apply clip_valid; auto..].
    exists r, w, k. do 4 (split; [done|]). apply in_map_partition. eauto.
  - intros (r & w & k & Hr & Hw & Hkr & Hkw & Hmap).
    apply in_map_partition in Hmap as (p & Hp & Hkp).
    exists p, (clip p r), (clip p w). split_and!; [done|..].
    + apply elem_of_clipped. exists r. split_and!; [done|by eapply contains_overlaps|done].
    + apply elem_of_clipped. exists w. split_and!; [done|by eapply contains_overlaps|done].
    + apply (contains_overlaps _ _ k); by apply clip_contains.
Qed.

Lemma partitioned_conflict_exact_witness :
  ∃ p r w, p ∈ cell_resolver_partitions ∧
    r ∈ clipped_conflicts [{| ckr_start := [70%N]; ckr_end := [170%N] |}] p ∧
    w ∈ clipped_conflicts [range_point [90%N]] p ∧ range_overlaps r w = true.
Proof.
  refine (proj2 (partitioned_conflict_exact [{| ckr_start := [70%N]; ckr_end := [170%N] |}]
    [range_point [90%N]] _ _)
    (ex_intro _ {| ckr_start := [70%N]; ckr_end := [170%N] |}
      (ex_intro _ (range_point [90%N]) (ex_intro _ [90%N] _)))).
  - repeat constructor.
  - repeat constructor.
  - split; [left|]. split; [left|]. split; [reflexivity|]. split; [reflexivity|].
    split; [vm_compute; discriminate|vm_compute; reflexivity].
Defined.
