(* ===== verification/Persist.v ===== *)
(** * Replacing a file

    The way [persist_snapshot] ([okv-consensus/src/state_machine.rs]) and
    [persist_resolver_state] ([okv-consensus/src/partitioned_resolver.rs])
    replace a file: write and synchronize a temporary file, rename it over the
    old one, synchronize the directory. The content is the bytes of the file, or
    the value whose encoding they are. *)

From S2P Require Import Prelude Order Bytes.

(** How the file operations of one persist go: the temporary file is not
    written or renamed, it is renamed but the directory is not synchronized, or
    all succeed. *)
Inductive PersistIo := BeforeRename | AfterRename | Persisted.

(** The file afterwards, and whether the call reports success. *)
Definition replace_file {A} (old : option A) (b : A) (io : PersistIo) : option A * bool :=
  match io with
  | BeforeRename => (old, false)
  | AfterRename => (Some b, false)
  | Persisted => (Some b, true)
  end.

(** Whatever happens, the file is the old one or the new one, and it is the new
    one on success. *)
Lemma replace_file_spec {A} (old : option A) b io file ok :
  replace_file old b io = (file, ok) →
  (file = old ∧ ok = false) ∨ file = Some b.
Proof. destruct io; intros [= <- <-]; auto. Qed.
