(* ===== verification/StateMachine.v ===== *)
(** * The replicated state machine

    [StateMachineStore] of [okv-consensus/src/state_machine.rs]: the apply loop
    over committed Raft entries, which decodes a command, recovers the recorded
    outcome of a retried request, fences commands by the generation authority,
    and drives the generation authority, the publication authority and the cell
    transactions; and the durable snapshots of its state. OpenRaft's membership
    type and the JSON decoding of commands are parameters. *)

From S2P Require Import Prelude Order BTree Bytes Version Quorum Envelope.
From S2P Require Import Publication Generation.
From S2P Require Export CellState.

(** [openraft::LogId<u64>]: the leader's term and node, and the index. *)
Record LogId := { li_term : N; li_node_id : N; li_index : N }.
#[global] Instance LogId_eq_dec : EqDecision LogId.
Proof. solve_decision. Defined.
Definition from_log_id (l : LogId) : RecoveryLogPosition :=
  {| rlp_term := li_term l; rlp_index := li_index l |}.

(** ** Commands *)
Definition COMMAND_MAGIC : bytes := string_bytes "OKVQ1".
Definition GENERATION_COMMAND_MAGIC : bytes := string_bytes "OKVG1".
Definition PUBLICATION_COMMAND_MAGIC : bytes := string_bytes "OKVP1".
Definition CELL_COMMAND_MAGIC : bytes := string_bytes "OKVT1".
Definition STAGED_COMMAND_MAGIC : bytes := string_bytes "OKVT2".

Record GenerationCommand := {
  gcm_identity : RequestIdentity;
  gcm_action : GenerationAction;
}.
Record PublicationCommand := {
  pcm_identity : RequestIdentity;
  pcm_credential : GenerationCredential;
  pcm_action : PublicationAction;
}.
Record ClientCommand := {
  ccm_identity : RequestIdentity;
  ccm_credential : option GenerationCredential;
  ccm_payload : bytes;
}.

(** The JSON form of the five commands. *)
Class CommandJson := {
  json_generation_command :: Serialize GenerationCommand;
  json_publication_command :: Serialize PublicationCommand;
  json_staged_command :: Serialize CellStagedTransactionCommand;
  json_client_command :: Serialize ClientCommand;
  generation_from_slice : bytes → option GenerationCommand;
  publication_from_slice : bytes → option PublicationCommand;
  staged_from_slice : bytes → option CellStagedTransactionCommand;
  cell_from_slice : bytes → option CellTransactionCommand;
  client_from_slice : bytes → option ClientCommand;
}.

(** [strip_prefix]. *)
Fixpoint strip_prefix (prefix b : bytes) : option bytes :=
  match prefix, b with
  | [], _ => Some b
  | p :: prefix, x :: b => if (p =? x)%N then strip_prefix prefix b else None
  | _ :: _, [] => None
  end.

(** [strip_prefix(magic).map(from_slice).transpose()]: absent, present, or a
    decoding error. *)
Inductive decoded (A : Type) :=
  | NotThis
  | Decoded (command : A)
  | DecodeError.
Arguments NotThis {A}.
Arguments Decoded {A} _.
Arguments DecodeError {A}.

Definition decode_with {A} (magic : bytes) (from_slice : bytes → option A) (b : bytes)
    : decoded A :=
  match strip_prefix magic b with
  | None => NotThis
  | Some rest => match from_slice rest with Some c => Decoded c | None => DecodeError end
  end.

(** ** Responses *)
Inductive ApplyError :=
  | AeConflictingRequestIdentity
  | AeGenerationFenced
  | AeUnknownCommandVersion.

Record GenerationApplyResponse := {
  gar_status : GenerationCommandStatus;
  gar_state : GenerationAuthorityState;
  gar_applied_log_index : N;
  gar_applied_log_position : RecoveryLogPosition;
}.
Record PublicationApplyResponse := {
  par_status : PublicationCommandStatus;
  par_outcome : option PublicationOutcome;
  par_state : PublicationAuthorityState;
  par_applied_log_position : RecoveryLogPosition;
}.
Record ApplyResponse := {
  ar_applied_log_index : N;
  ar_identity : option RequestIdentity;
  ar_error : option ApplyError;
  ar_generation : option GenerationApplyResponse;
  ar_publication : option PublicationApplyResponse;
  ar_cell_transaction : option CellTransactionApplyResponse;
  ar_cell_staged_transaction : option CellStagedTransactionApplyResponse;
}.

Definition response_new (index : N) : ApplyResponse :=
  {| ar_applied_log_index := index; ar_identity := None; ar_error := None;
     ar_generation := None; ar_publication := None; ar_cell_transaction := None;
     ar_cell_staged_transaction := None |}.

(** ** Configuration *)
Record PublicationFenceFaults := {
  bypass_generation_fence : bool;
  local_stale_outcome_read : bool;
  prepare_as_previous_generation : bool;
}.
Record StoreConfig := {
  deduplicate_requests : bool;
  generation_faults : GenerationAuthorityFaults;
  generation_fence_faults : GenerationFenceFaults;
  publication_faults : PublicationAuthorityFaults;
  publication_fence_faults : PublicationFenceFaults;
}.

(** [StateMachineStore::default()]. *)
Definition default_config : StoreConfig :=
  {| deduplicate_requests := true; generation_faults := no_authority_faults;
     generation_fence_faults := no_fence_faults; publication_faults := no_faults;
     publication_fence_faults :=
       {| bypass_generation_fence := false; local_stale_outcome_read := false;
          prepare_as_previous_generation := false |} |}.

(** ** State *)
Section state.
Context {Membership : Type}.

(** [StoredMembership]: the entry that carried a membership, and the membership. *)
Record StoredMembership := {
  sm_log_id : option LogId;
  sm_membership : Membership;
}.

Record StateMachineData := {
  last_applied_log : option LogId;
  last_membership : StoredMembership;
  applied_payloads : list bytes;
  durable_outcomes : gmap RequestIdentity ApplyResponse;
  request_fingerprints : gmap RequestIdentity bytes;
  generation_authority : GenerationAuthorityState;
  publication_authority : PublicationAuthorityState;
  cell_transactions : CellTransactionState;
  last_generation_transition_log : option LogId;
}.

Definition StateMachineData_default (no_membership : Membership) : StateMachineData :=
  {| last_applied_log := None;
     last_membership := {| sm_log_id := None; sm_membership := no_membership |};
     applied_payloads := []; durable_outcomes := ∅; request_fingerprints := ∅;
     generation_authority := GenerationAuthorityState_default;
     publication_authority := PublicationAuthorityState_default; cell_transactions := [];
     last_generation_transition_log := None |}.

Inductive EntryPayload :=
  | Blank
  | Normal (payload : bytes)
  | MembershipChange (membership : Membership).
Record Entry := { en_log_id : LogId; en_payload : EntryPayload }.

(** ** Retried requests and fencing *)
Implicit Types (s : StateMachineData) (cfg : StoreConfig).

(** The answer to a request whose identity has a recorded outcome. *)
Definition recovered_reply s (identity : RequestIdentity) (fingerprint : bytes)
    (recovered response : ApplyResponse) : ApplyResponse :=
  if decide (request_fingerprints s !! identity = Some fingerprint) then recovered
  else { response with ar_identity := Some identity;
                       ar_error := Some AeConflictingRequestIdentity }.

Definition record_outcome s (identity : RequestIdentity) (fingerprint : bytes)
    (response : ApplyResponse) : StateMachineData :=
  { s with request_fingerprints := <[identity := fingerprint]> (request_fingerprints s);
           durable_outcomes := <[identity := response]> (durable_outcomes s) }.

(** [self.deduplicate_requests.then(|| outcomes.get(identity)).flatten()]. *)
Definition recovered_outcome cfg s (identity : RequestIdentity) : option ApplyResponse :=
  if deduplicate_requests cfg then durable_outcomes s !! identity else None.

Definition generation_authorized cfg s (credential : option GenerationCredential) : bool :=
  match credential with
  | None => false
  | Some c =>
      authorizes (generation_authority s) (gc_generation c) (gc_transaction_system_id c)
      || (accept_apply_during_recovery (generation_fence_faults cfg)
          && match ga_recovery_id (generation_authority s) with
             | None => false
             | Some recovery_id =>
                 authorizes_recovery (generation_authority s) (gc_generation c) recovery_id
                   (gc_transaction_system_id c)
             end)
  end.

Definition generation_fenced cfg s (credential : option GenerationCredential) : bool :=
  negb (bool_decide (ga_phase (generation_authority s) = Uninitialized))
  && negb (bypass_apply_fence (generation_fence_faults cfg))
  && negb (generation_authorized cfg s credential).

(** ** Applying one command *)
Context (sha256 : bytes → bytes).
Context `{Ed25519} `{CellJson} `{CommandJson}.
Context `{Serialize RecoveryCertificateStatement}.
Context `{Serialize RoutineReconfigurationCertificateStatement}.

Definition request_fingerprint (payload : bytes) : bytes := sha256 payload.

(** An error is a storage error; a panic is a failed [expect] below. *)
Inductive StorageError := ReadStateMachine.
Abbreviation sm_reply := (res StorageError (StateMachineData * ApplyResponse)).

Definition panics {E A} (r : res E A) : res StorageError A :=
  match r with Ok a => Ok a | _ => Panic end.

Definition apply_generation_command cfg s (log_id : LogId) (payload : bytes)
    (command : GenerationCommand) : sm_reply :=
  let response := response_new (li_index log_id) in
  let identity := gcm_identity command in
  let fingerprint := request_fingerprint payload in
  match durable_outcomes s !! identity with
  | Some recovered => Ok (s, recovered_reply s identity fingerprint recovered response)
  | None =>
      let? '(authority, status) :=
        panics (generation_apply sha256 (generation_authority s) (gcm_action command)
                  (generation_faults cfg)) in
      let s := { s with generation_authority := authority } in
      let s :=
        if decide (status = GenAccepted)
        then { s with last_generation_transition_log := Some log_id } else s in
      let response :=
        { response with ar_identity := Some identity;
                        ar_generation := Some
                          {| gar_status := status; gar_state := generation_authority s;
                             gar_applied_log_index := li_index log_id;
                             gar_applied_log_position := from_log_id log_id |} } in
      Ok (record_outcome s identity fingerprint response, response)
  end.

Definition is_prepare (action : PublicationAction) : bool :=
  match action with Publication.Prepare _ _ => true | _ => false end.

Definition apply_publication_command cfg s (log_id : LogId) (payload : bytes)
    (command : PublicationCommand) : sm_reply :=
  let response := response_new (li_index log_id) in
  let identity := pcm_identity command in
  let credential := pcm_credential command in
  let fingerprint := request_fingerprint payload in
  match recovered_outcome cfg s identity with
  | Some recovered => Ok (s, recovered_reply s identity fingerprint recovered response)
  | None =>
      let authorized :=
        bypass_generation_fence (publication_fence_faults cfg)
        || authorizes (generation_authority s) (gc_generation credential)
             (gc_transaction_system_id credential) in
      let context_generation :=
        if prepare_as_previous_generation (publication_fence_faults cfg)
           && is_prepare (pcm_action command)
        then saturating_sub (gc_generation credential) 1 else gc_generation credential in
      let '(s, (status, outcome)) :=
        if authorized then
          let '(authority, transition) :=
            publication_apply (publication_authority s) (pcm_action command)
              {| ctx_generation := context_generation;
                 ctx_position := {| pos_term := li_term log_id; pos_index := li_index log_id |} |}
              (publication_faults cfg) in
          ({ s with publication_authority := authority },
           (Publication.status transition, Publication.outcome transition))
        else (s, (Publication.GenerationFenced, None)) in
      let response :=
        { response with ar_identity := Some identity;
                        ar_publication := Some
                          {| par_status := status; par_outcome := outcome;
                             par_state := publication_authority s;
                             par_applied_log_position := from_log_id log_id |} } in
      Ok (if deduplicate_requests cfg then record_outcome s identity fingerprint response
          else s, response)
  end.

(** The three commands a client proposes share the fence and the bookkeeping;
    [f] is what an authorized command does. *)
Definition fenced_command cfg s (log_id : LogId) (payload : bytes)
    (identity : RequestIdentity) (credential : option GenerationCredential)
    (f : StateMachineData → ApplyResponse → sm_reply) : sm_reply :=
  let response := response_new (li_index log_id) in
  let fingerprint := request_fingerprint payload in
  match recovered_outcome cfg s identity with
  | Some recovered => Ok (s, recovered_reply s identity fingerprint recovered response)
  | None =>
      let response := { response with ar_identity := Some identity } in
      let? '(s, response) :=
        if generation_fenced cfg s credential
        then Ok (s, { response with ar_error := Some AeGenerationFenced })
        else f s response in
      Ok (record_outcome s identity fingerprint response, response)
  end.

Definition apply_staged_command cfg s (log_id : LogId) (payload : bytes)
    (command : CellStagedTransactionCommand) : sm_reply :=
  fenced_command cfg s log_id payload (cs_identity command) (cs_credential command)
    (λ s response,
      let? '(cells, reply) :=
        panics (cell_apply_staged sha256 (cell_transactions s) command (li_index log_id)
                  (generation_authority s) (generation_fence_faults cfg)) in
      Ok ({ s with cell_transactions := cells },
          { response with ar_cell_staged_transaction := Some reply })).

Definition apply_cell_command cfg s (log_id : LogId) (payload : bytes)
    (command : CellTransactionCommand) : sm_reply :=
  fenced_command cfg s log_id payload (ct_identity command) (ct_credential command)
    (λ s response,
      let? '(cells, reply) :=
        panics (cell_apply sha256 (cell_transactions s) command (li_index log_id)
                  (generation_fence_faults cfg)) in
      Ok ({ s with cell_transactions := cells },
          { response with ar_cell_transaction := Some reply })).

Definition apply_client_command cfg s (log_id : LogId) (payload : bytes)
    (command : ClientCommand) : sm_reply :=
  fenced_command cfg s log_id payload (ccm_identity command) (ccm_credential command)
    (λ s response,
      Ok ({ s with applied_payloads := applied_payloads s ++ [ccm_payload command] },
          response)).

(** ** The apply loop *)

(** The five decoders, tried in the order of the source. *)
Inductive AnyCommand :=
  | AnyGeneration (c : GenerationCommand)
  | AnyPublication (c : PublicationCommand)
  | AnyStaged (c : CellStagedTransactionCommand)
  | AnyCell (c : CellTransactionCommand)
  | AnyClient (c : ClientCommand).

Definition or_decode {A B} (r : decoded A) (inject : A → B) (next : decoded B) : decoded B :=
  match r with Decoded c => Decoded (inject c) | DecodeError => DecodeError | NotThis => next end.

Definition decode_command (payload : bytes) : decoded AnyCommand :=
  or_decode (decode_with GENERATION_COMMAND_MAGIC generation_from_slice payload) AnyGeneration
  (or_decode (decode_with PUBLICATION_COMMAND_MAGIC publication_from_slice payload) AnyPublication
  (or_decode (decode_with STAGED_COMMAND_MAGIC staged_from_slice payload) AnyStaged
  (or_decode (decode_with CELL_COMMAND_MAGIC cell_from_slice payload) AnyCell
  (or_decode (decode_with COMMAND_MAGIC client_from_slice payload) AnyClient NotThis)))).

Definition apply_command cfg s (log_id : LogId) (payload : bytes) (command : AnyCommand)
    : sm_reply :=
  match command with
  | AnyGeneration c => apply_generation_command cfg s log_id payload c
  | AnyPublication c => apply_publication_command cfg s log_id payload c
  | AnyStaged c => apply_staged_command cfg s log_id payload c
  | AnyCell c => apply_cell_command cfg s log_id payload c
  | AnyClient c => apply_client_command cfg s log_id payload c
  end.

Definition apply_payload cfg s (log_id : LogId) (payload : bytes) : sm_reply :=
  let response := response_new (li_index log_id) in
  match decode_command payload with
  | Decoded command => apply_command cfg s log_id payload command
  | DecodeError => Err ReadStateMachine
  | NotThis =>
      if is_some (strip_prefix (string_bytes "OKV") payload)
      then Ok (s, { response with ar_error := Some AeUnknownCommandVersion })
      else Ok ({ s with applied_payloads := applied_payloads s ++ [payload] }, response)
  end.

(** The state an entry leaves, also when its payload cannot be decoded: the
    applied position moves first. *)
Definition begin_entry s (e : Entry) : StateMachineData :=
  { s with last_applied_log := Some (en_log_id e) }.

Definition apply_entry cfg s (e : Entry) : sm_reply :=
  let s := begin_entry s e in
  match en_payload e with
  | Blank => Ok (s, response_new (li_index (en_log_id e)))
  | Normal payload => apply_payload cfg s (en_log_id e) payload
  | MembershipChange membership =>
      Ok ({ s with last_membership :=
              {| sm_log_id := Some (en_log_id e); sm_membership := membership |} },
          response_new (li_index (en_log_id e)))
  end.

(** The whole call: the state it leaves and its result. After an error the
    entries before the failed one stay applied. *)
Fixpoint sm_apply cfg s (entries : list Entry) (responses : list ApplyResponse)
    : StateMachineData * res StorageError (list ApplyResponse) :=
  match entries with
  | [] => (s, Ok responses)
  | e :: entries =>
      match apply_entry cfg s e with
      | Ok (s, response) => sm_apply cfg s entries (responses ++ [response])
      | Err error => (begin_entry s e, Err error)
      | Panic => (begin_entry s e, Panic)
      end
  end.
End state.
