(* ===== verification/StateMachineRuns.v ===== *)
(** * Runs of the replicated state machine

    Retried requests take effect once, the commands that take effect come from
    one transaction system per generation, in order, and the components of
    every reachable state satisfy their own invariants. *)

From S2P Require Import Prelude Order BTree Bytes Version Quorum Envelope.
From S2P Require Import Publication PublicationSpec PublicationInv Generation GenerationRuns.
From S2P Require Import StateMachine CellDomains CellDemo.

Section runs.
Context {Membership : Type} (sha256 : bytes → bytes).
Context `{Ed25519} `{CellJson} `{CommandJson}.
Context `{Serialize RecoveryCertificateStatement}.
Context `{Serialize RoutineReconfigurationCertificateStatement}.

Abbreviation data := (@StateMachineData Membership).
Abbreviation entry := (@Entry Membership).
Implicit Types (s : data) (cfg : StoreConfig) (e : entry).

Definition command_identity (c : AnyCommand) : RequestIdentity :=
  match c with
  | AnyGeneration c => gcm_identity c
  | AnyPublication c => pcm_identity c
  | AnyStaged c => cs_identity c
  | AnyCell c => ct_identity c
  | AnyClient c => ccm_identity c
  end.
Definition command_credential (c : AnyCommand) : option GenerationCredential :=
  match c with
  | AnyGeneration _ => None
  | AnyPublication c => Some (pcm_credential c)
  | AnyStaged c => cs_credential c
  | AnyCell c => ct_credential c
  | AnyClient c => ccm_credential c
  end.

(** The command of an entry, when it carries one. *)
Definition entry_command e : option AnyCommand :=
  match en_payload e with
  | Normal payload =>
      match decode_command payload with Decoded c => Some c | _ => None end
  | _ => None
  end.
Definition entry_bytes e : bytes :=
  match en_payload e with Normal payload => payload | _ => [] end.

(** The recorded outcome of a request. *)
Definition recorded s (identity : RequestIdentity) (fingerprint : bytes)
    (response : ApplyResponse) : Prop :=
  durable_outcomes s !! identity = Some response ∧
  request_fingerprints s !! identity = Some fingerprint.

Definition same_outcomes s s' : Prop :=
  durable_outcomes s' = durable_outcomes s ∧ request_fingerprints s' = request_fingerprints s.

(** What a command does to the outcomes: it answers from them, or extends them
    by one fresh identity. *)
Definition books cfg s (identity : RequestIdentity) (payload : bytes)
    (index : N) (r : res StorageError (data * ApplyResponse)) : Prop :=
  match durable_outcomes s !! identity with
  | Some recovered =>
      r = Ok (s, recovered_reply s identity (sha256 payload) recovered (response_new index))
  | None =>
      ∀ s' response, r = Ok (s', response) →
        durable_outcomes s' = <[identity := response]> (durable_outcomes s) ∧
        request_fingerprints s' = <[identity := sha256 payload]> (request_fingerprints s)
  end.

Lemma record_outcome_books s0 s identity fingerprint response :
  same_outcomes s0 s →
  durable_outcomes (record_outcome s identity fingerprint response)
    = <[identity := response]> (durable_outcomes s0) ∧
  request_fingerprints (record_outcome s identity fingerprint response)
    = <[identity := fingerprint]> (request_fingerprints s0).
Proof. intros [<- <-]. by destruct s. Qed.

Lemma fenced_command_books cfg s l payload identity credential f :
  deduplicate_requests cfg = true →
  (∀ r s' r', f s r = Ok (s', r') → same_outcomes s s') →
  books cfg s identity payload (li_index l)
    (fenced_command sha256 cfg s l payload identity credential f).
Proof.
  intros Hd Hf. unfold books, fenced_command, recovered_outcome. rewrite Hd.
  destruct (durable_outcomes s !! identity) eqn:Ho; [done|].
  intros s' response ([s1 r1] & Hr & [= <- <-])%res_bind_Ok.
  apply record_outcome_books. destruct (generation_fenced _ _ _).
  - injection Hr as <- _. done.
  - by eapply Hf.
Qed.

Lemma apply_command_books cfg s l payload c :
  deduplicate_requests cfg = true →
  books cfg s (command_identity c) payload (li_index l)
    (apply_command sha256 cfg s l payload c).
Proof.
  intros Hd. destruct c as [c|c|c|c|c]; cbn [apply_command command_identity].
  - unfold books, apply_generation_command.
    destruct (durable_outcomes s !! _) eqn:Ho; [done|].
    intros s' response ([a st] & _ & Hr)%res_bind_Ok. injection Hr as <- <-.
    apply record_outcome_books. case_decide; by destruct s.
  - unfold books, apply_publication_command, recovered_outcome. rewrite Hd.
    destruct (durable_outcomes s !! _) eqn:Ho; [done|].
    intros s' response Hr. revert Hr. destruct (_ || _).
    + destruct (publication_apply _ _ _ _) as [a t]. intros [= <- <-].
      apply record_outcome_books. by destruct s.
    + intros [= <- <-]. by apply record_outcome_books.
  - apply fenced_command_books; [done|].
    intros r s' r' ([cells reply] & _ & [= <- _])%res_bind_Ok. by destruct s.
  - apply fenced_command_books; [done|].
    intros r s' r' ([cells reply] & _ & [= <- _])%res_bind_Ok. by destruct s.
  - apply fenced_command_books; [done|]. intros r s' r' [= <- _]. by destruct s.
Qed.

Lemma apply_entry_command cfg s e c :
  entry_command e = Some c →
  apply_entry sha256 cfg s e
    = apply_command sha256 cfg (begin_entry s e) (en_log_id e) (entry_bytes e) c.
Proof.
  unfold entry_command, apply_entry, entry_bytes, apply_payload.
  destruct (en_payload e) as [|payload|]; try done.
  destruct (decode_command payload); try done. by intros [= ->].
Qed.

(** An entry without a command touches neither the outcomes nor a component. *)
Definition same_components s s' : Prop :=
  generation_authority s' = generation_authority s ∧
  publication_authority s' = publication_authority s ∧
  cell_transactions s' = cell_transactions s.

Lemma apply_entry_plain cfg s e s' r :
  entry_command e = None → apply_entry sha256 cfg s e = Ok (s', r) →
  same_outcomes s s' ∧ same_components s s'.
Proof.
  unfold entry_command, apply_entry, apply_payload.
  destruct (en_payload e) as [|payload|membership].
  - intros _ [= <- _]. by destruct s.
  - destruct (decode_command payload); try done. intros _.
    destruct (is_some _); intros [= <- _]; by destruct s.
  - intros _ [= <- _]. by destruct s.
Qed.

Lemma begin_entry_outcomes s e : same_outcomes s (begin_entry s e).
Proof. by destruct s. Qed.

Lemma recorded_kept cfg s e s' r identity fp response :
  deduplicate_requests cfg = true → apply_entry sha256 cfg s e = Ok (s', r) →
  recorded s identity fp response → recorded s' identity fp response.
Proof.
  intros Hd Hap [Ho Hf]. destruct (entry_command e) as [c|] eqn:Hc.
  - rewrite (apply_entry_command _ _ _ _ Hc) in Hap.
    pose proof (apply_command_books cfg (begin_entry s e) (en_log_id e) (entry_bytes e) c Hd)
      as Hb. destruct (begin_entry_outcomes s e) as [Eo Ef]. unfold books in Hb.
    destruct (durable_outcomes (begin_entry s e) !! command_identity c) eqn:Hr.
    + rewrite Hb in Hap. injection Hap as <- _. by split; rewrite ?Eo, ?Ef.
    + destruct (Hb s' r Hap) as [Eo' Ef'].
      assert (command_identity c ≠ identity) by (intros <-; congruence).
      by split; rewrite ?Eo', ?Ef', lookup_insert_ne, ?Eo, ?Ef by done.
  - destruct (apply_entry_plain _ _ _ _ _ Hc Hap) as [[Eo Ef] _].
    by split; rewrite ?Eo, ?Ef.
Qed.

Lemma recorded_kept_run cfg s es rs0 s' rs identity fp response :
  deduplicate_requests cfg = true → sm_apply sha256 cfg s es rs0 = (s', Ok rs) →
  recorded s identity fp response → recorded s' identity fp response.
Proof.
  intros Hd. revert s rs0. induction es as [|e es IH]; intros s rs0; cbn [sm_apply].
  { by intros [= <- _]. }
  destruct (apply_entry sha256 cfg s e) as [[s1 r1]| |] eqn:Hap; [|done..].
  intros Hrun Hrec. eapply IH; [done|]. by eapply recorded_kept.
Qed.

Lemma applied_recorded cfg s e c s' r :
  deduplicate_requests cfg = true → entry_command e = Some c →
  apply_entry sha256 cfg s e = Ok (s', r) → ar_error r ≠ Some AeConflictingRequestIdentity →
  recorded s' (command_identity c) (sha256 (entry_bytes e)) r.
Proof.
  intros Hd Hc Hap Hne. rewrite (apply_entry_command _ _ _ _ Hc) in Hap.
  pose proof (apply_command_books cfg (begin_entry s e) (en_log_id e) (entry_bytes e) c Hd)
    as Hb. unfold books in Hb.
  destruct (durable_outcomes (begin_entry s e) !! command_identity c) eqn:Hr.
  - rewrite Hb in Hap. injection Hap as <- <-. unfold recovered_reply in *.
    case_decide; [done|]. by destruct Hne.
  - destruct (Hb s' r Hap) as [Eo' Ef'].
    by split; rewrite ?Eo', ?Ef', lookup_insert_eq.
Qed.

(** C3. A retried request takes effect exactly once. With deduplication on,
    take any state and an entry carrying a command that was answered otherwise
    than with a conflict. After any further entries, an entry that carries a
    command with the same identity never fails and changes nothing but the
    applied position: its answer is the recorded one, log index included, when
    its bytes have the same fingerprint, and the conflict error otherwise. *)
Theorem request_exactly_once cfg s e c s1 r1 es rs s2 e' c' :
  deduplicate_requests cfg = true →
  entry_command e = Some c → apply_entry sha256 cfg s e = Ok (s1, r1) →
  ar_error r1 ≠ Some AeConflictingRequestIdentity →
  sm_apply sha256 cfg s1 es [] = (s2, Ok rs) →
  entry_command e' = Some c' → command_identity c' = command_identity c →
  apply_entry sha256 cfg s2 e' = Ok (begin_entry s2 e',
    if decide (sha256 (entry_bytes e') = sha256 (entry_bytes e)) then r1
    else { response_new (li_index (en_log_id e')) with
           ar_identity := Some (command_identity c);
           ar_error := Some AeConflictingRequestIdentity }).
Proof.
  intros Hd Hc Hap Hne Hrun Hc' Hid.
  pose proof (applied_recorded _ _ _ _ _ _ Hd Hc Hap Hne) as Hrec.
  destruct (recorded_kept_run _ _ _ _ _ _ _ _ _ Hd Hrun Hrec) as [Ho Hf].
  rewrite (apply_entry_command _ _ _ _ Hc').
  pose proof (apply_command_books cfg (begin_entry s2 e') (en_log_id e') (entry_bytes e') c' Hd)
    as Hb. unfold books in Hb. destruct (begin_entry_outcomes s2 e') as [Eo Ef].
  rewrite Eo, Hid, Ho in Hb. rewrite Hb. unfold recovered_reply. rewrite Ef, Hf.
  do 2 f_equal. repeat case_decide; naive_solver congruence.
Qed.

(** ** The components along a run *)
Hypothesis decode_wf : ∀ b c, generation_from_slice b = Some c → action_wf (gcm_action c).

Definition sm_step s s' : Prop := ∃ e r, apply_entry sha256 default_config s e = Ok (s', r).
Definition sm_reachable s : Prop := ∃ m, rtc sm_step (StateMachineData_default m) s.

Lemma generation_command_wf e c :
  entry_command e = Some (AnyGeneration c) → action_wf (gcm_action c).
Proof.
  unfold entry_command, decode_command, or_decode, decode_with.
  destruct (en_payload e) as [|payload|]; try done.
  repeat (case_match; simplify_eq; try done). intros [= ->]. by eapply decode_wf.
Qed.

(** Whoever may change the cells or the publication authority in [s]. *)
Definition admitted s (credential : option GenerationCredential) : Prop :=
  ∃ cr, credential = Some cr ∧
    authorizes (generation_authority s) (gc_generation cr) (gc_transaction_system_id cr) = true.

Lemma not_fenced_admitted s credential :
  generation_fenced default_config s credential = false →
  ga_phase (generation_authority s) = Uninitialized ∨ admitted s credential.
Proof.
  unfold generation_fenced, generation_authorized. cbn.
  case_bool_decide; [by left|]. cbn. intros Hf. right. apply negb_false_iff in Hf.
  destruct credential as [cr|]; [|done]. rewrite orb_false_r in Hf. by exists cr.
Qed.

Lemma record_outcome_components s identity fp r :
  same_components s (record_outcome s identity fp r).
Proof. by destruct s. Qed.

(** An entry leaves a component alone, or it carries an admitted command. *)
Record entry_effect s (c : option AnyCommand) s' : Prop := {
  ee_generation : generation_authority s' = generation_authority s ∨
    gen_step sha256 (generation_authority s) (generation_authority s');
  ee_publication : publication_authority s' = publication_authority s ∨
    (authority_step (publication_authority s) (publication_authority s') ∧
     admitted s (c ≫= command_credential) ∧
     generation_authority s' = generation_authority s);
  ee_cells : cell_transactions s' = cell_transactions s ∨
    ((ga_phase (generation_authority s) = Uninitialized ∨
      admitted s (c ≫= command_credential)) ∧
     generation_authority s' = generation_authority s);
}.

Lemma entry_effect_same s c s' : same_components s s' → entry_effect s c s'.
Proof. intros (E1 & E2 & E3). split; by left. Qed.

Lemma fenced_command_effect s l payload c identity credential f s' r :
  command_credential c = credential →
  (∀ r s1 r1, f s r = Ok (s1, r1) →
     generation_authority s1 = generation_authority s ∧
     publication_authority s1 = publication_authority s) →
  fenced_command sha256 default_config s l payload identity credential f = Ok (s', r) →
  entry_effect s (Some c) s'.
Proof.
  intros Hcr Hf. unfold fenced_command.
  destruct (recovered_outcome _ _ _); [intros [= <- _]; by apply entry_effect_same|].
  intros ([s1 r1] & Hr & [= <- _])%res_bind_Ok.
  destruct (record_outcome_components s1 identity (request_fingerprint sha256 payload) r1)
    as (E1 & E2 & E3).
  destruct (generation_fenced default_config s credential) eqn:Hfence.
  { injection Hr as <- _. by apply entry_effect_same. }
  destruct (Hf _ _ _ Hr) as [G P]. split; rewrite ?E1, ?E2, ?G, ?P; [by left..|].
  right. split; [|done]. cbn. rewrite Hcr. by apply not_fenced_admitted.
Qed.

Lemma generation_command_effect s l payload c s' r :
  action_wf (gcm_action c) →
  apply_generation_command sha256 default_config s l payload c = Ok (s', r) →
  entry_effect s (Some (AnyGeneration c)) s'.
Proof.
  intros Hwf. unfold apply_generation_command.
  destruct (durable_outcomes s !! _); [intros [= <- _]; by apply entry_effect_same|].
  intros ([a st] & Hap & Hr)%res_bind_Ok. injection Hr as <- _.
  match goal with |- entry_effect _ _ (record_outcome ?s1 ?i ?f ?r1) =>
    destruct (record_outcome_components s1 i f r1) as (E1 & E2 & E3) end.
  split; rewrite ?E1, ?E2, ?E3.
  - right. exists (gcm_action c), st. split; [done|].
    destruct (generation_apply _ _ _ _) as [p| |] eqn:Hg; try done. injection Hap as ->.
    case_decide; by destruct s.
  - left. case_decide; by destruct s.
  - left. case_decide; by destruct s.
Qed.

Lemma publication_command_effect s l payload c s' r :
  apply_publication_command sha256 default_config s l payload c = Ok (s', r) →
  entry_effect s (Some (AnyPublication c)) s'.
Proof.
  unfold apply_publication_command. cbn [default_config deduplicate_requests].
  destruct (recovered_outcome _ _ _); [intros [= <- _]; by apply entry_effect_same|].
  cbn [publication_fence_faults bypass_generation_fence orb].
  destruct (authorizes _ _ _) eqn:Ha.
  - destruct (publication_apply _ _ _ _) as [a t] eqn:Hp. intros [= <- _].
    match goal with |- entry_effect _ _ (record_outcome ?s1 ?i ?f ?r1) =>
      destruct (record_outcome_components s1 i f r1) as (E1 & E2 & E3) end.
    split; rewrite ?E1, ?E2, ?E3; [left; by destruct s| |left; by destruct s].
    right. split_and!; [|by exists (pcm_credential c)|by destruct s].
    match type of Hp with publication_apply ?p ?x ?y ?z = _ =>
      change z with no_faults in Hp; pose proof (authority_apply y p x) as Hs;
      rewrite Hp in Hs end.
    by destruct s.
  - intros [= <- _]. apply entry_effect_same. apply record_outcome_components.
Qed.

Lemma apply_entry_effect s e s' r :
  apply_entry sha256 default_config s e = Ok (s', r) → entry_effect s (entry_command e) s'.
Proof.
  intros Hap. destruct (entry_command e) as [c|] eqn:Hc.
  - rewrite (apply_entry_command _ _ _ _ Hc) in Hap.
    enough (entry_effect (begin_entry s e) (Some c) s') as [] by (split; by destruct s).
    destruct c as [c|c|c|c|c]; cbn [apply_command] in Hap.
    + eapply generation_command_effect; [by eapply generation_command_wf|done].
    + by eapply publication_command_effect.
    + eapply fenced_command_effect; [..|exact Hap]; [done|].
      intros r0 s1 r1 ([cells reply] & _ & [= <- _])%res_bind_Ok. by destruct s.
    + eapply fenced_command_effect; [..|exact Hap]; [done|].
      intros r0 s1 r1 ([cells reply] & _ & [= <- _])%res_bind_Ok. by destruct s.
    + eapply fenced_command_effect; [..|exact Hap]; [done|].
      intros r0 s1 r1 [= <- _]. by destruct s.
  - apply entry_effect_same. by eapply apply_entry_plain.
Qed.

Lemma sm_steps_components s s' :
  rtc sm_step s s' →
  rtc (gen_step sha256) (generation_authority s) (generation_authority s') ∧
  rtc authority_step (publication_authority s) (publication_authority s').
Proof.
  induction 1 as [|s s1 s' (e & r & Hap) _ [IHg IHp]]; [done|].
  destruct (apply_entry_effect _ _ _ _ Hap) as [Hg Hp _]. split.
  - destruct Hg as [<-|Hg]; [done|]. by eapply rtc_l.
  - destruct Hp as [<-|(Hp & _)]; [done|]. by eapply rtc_l.
Qed.

Lemma sm_reachable_components s :
  sm_reachable s →
  gen_reachable sha256 (generation_authority s) ∧
  authority_reachable (publication_authority s).
Proof. intros [m Hr]. apply sm_steps_components in Hr. done. Qed.

(** A change of the cells or of the publication authority. *)
Definition affected s s' : Prop :=
  cell_transactions s' ≠ cell_transactions s ∨
  publication_authority s' ≠ publication_authority s.

Lemma affected_admitted s e s' r :
  apply_entry sha256 default_config s e = Ok (s', r) → affected s s' →
  (ga_phase (generation_authority s) = Uninitialized ∨
   admitted s (entry_command e ≫= command_credential)) ∧
  generation_authority s' = generation_authority s.
Proof.
  intros [_ Hp Hc]%apply_entry_effect [Hne|Hne].
  - by destruct Hc as [|?].
  - destruct Hp as [|(_ & ? & ?)]; [done|]. by split; [right|].
Qed.

Lemma initialized_stays g g' :
  gen_wf sha256 g → u64_wf (ga_generation g) → rtc (gen_step sha256) g g' →
  (ga_generation g' < U64_MAX)%N → ga_phase g = Active → ga_phase g' ≠ Uninitialized.
Proof.
  intros Hwf Hu Hrun Hmax Hp Hp'.
  destruct (gen_steps_later _ _ _ Hrun Hwf Hu Hmax) as [_ Hle].
  destruct (gen_steps_wf _ _ _ Hrun (conj Hwf Hu)) as [Hwf' _].
  unfold gen_wf in *. rewrite Hp in Hwf. rewrite Hp' in Hwf'. destruct Hwf.
  rewrite Hwf' in Hle. cbn in Hle. lia.
Qed.

(** C4. The log has one writer per generation, in order. Take any run of the
    fault-free state machine, the generation staying below [u64::MAX], and two of its
    entries, the first after the generation authority was initialized, that change a
    cell or the publication authority. Both carry commands with a credential, the generation of the
    later one is not below that of the earlier one, and when they are equal
    both name the same transaction system: once a successor generation is
    active, no command of a fenced system takes effect, wherever it stands in
    the log. *)
Theorem log_single_writer s1 e1 s1' r1 s2 e2 s2' r2 :
  sm_reachable s1 → ga_phase (generation_authority s1) ≠ Uninitialized →
  apply_entry sha256 default_config s1 e1 = Ok (s1', r1) → affected s1 s1' →
  rtc sm_step s1' s2 →
  apply_entry sha256 default_config s2 e2 = Ok (s2', r2) → affected s2 s2' →
  (ga_generation (generation_authority s2) < U64_MAX)%N →
  ∃ cr1 cr2,
    entry_command e1 ≫= command_credential = Some cr1 ∧
    entry_command e2 ≫= command_credential = Some cr2 ∧
    (gc_generation cr1 ≤ gc_generation cr2)%N ∧
    (gc_generation cr1 = gc_generation cr2 →
     gc_transaction_system_id cr1 = gc_transaction_system_id cr2).
Proof.
  intros [Hg _]%sm_reachable_components Hinit Hap1 Haff1 Hrun Hap2 Haff2 Hmax.
  destruct (affected_admitted _ _ _ _ Hap1 Haff1) as [[?|(cr1 & Hcr1 & Ha1)] Hsame]; [done|].
  apply sm_steps_components in Hrun as [Hrun _]. rewrite Hsame in Hrun.
  pose proof (gen_reachable_wf _ _ Hg) as [Hwf Hu].
  pose proof (proj1 (authorizes_spec _ _ _) Ha1) as (Hact & _).
  destruct (affected_admitted _ _ _ _ Hap2 Haff2) as [[Hun|(cr2 & Hcr2 & Ha2)] _].
  { by destruct (initialized_stays _ _ Hwf Hu Hrun Hmax Hact). }
  exists cr1, cr2. split_and!; [done..| |];
    eapply (authorized_order sha256); done.
Qed.

(** ** The domains along a run *)
Definition command_domain (c : AnyCommand) : option (bytes * bytes) :=
  match c with
  | AnyStaged c => Some (cs_cell_id c, cs_tenant_id c)
  | AnyCell c => Some (ct_cell_id c, ct_tenant_id c)
  | _ => None
  end.

Definition isolated (named : option (bytes * bytes)) (cells cells' : CellTransactionState)
    : Prop :=
  domains_wf cells' ∧ ∀ d, named ≠ Some (domain_key d) → d ∈ cells' ↔ d ∈ cells.

Lemma isolated_same named cells cells' :
  domains_wf cells → cells' = cells → isolated named cells cells'.
Proof. intros Hwf ->. by split. Qed.

Lemma fenced_command_isolated cfg s l payload identity credential f named s' r :
  (∀ r s1 r1, domains_wf (cell_transactions s) → f s r = Ok (s1, r1) →
     isolated named (cell_transactions s) (cell_transactions s1)) →
  domains_wf (cell_transactions s) →
  fenced_command sha256 cfg s l payload identity credential f = Ok (s', r) →
  isolated named (cell_transactions s) (cell_transactions s').
Proof.
  intros Hf Hwf. unfold fenced_command.
  destruct (recovered_outcome _ _ _); [intros [= <- _]; by apply isolated_same|].
  intros ([s1 r1] & Hr & [= <- _])%res_bind_Ok.
  destruct (record_outcome_components s1 identity (request_fingerprint sha256 payload) r1)
    as (_ & _ & ->).
  destruct (generation_fenced _ _ _); [injection Hr as <- _; by apply isolated_same|].
  by eapply Hf.
Qed.

Lemma panics_Ok {E A} (x : res E A) a : panics x = Ok a → x = Ok a.
Proof. destruct x; [by intros [= ->]|done..]. Qed.

Lemma apply_entry_isolated cfg s e s' r :
  domains_wf (cell_transactions s) → apply_entry sha256 cfg s e = Ok (s', r) →
  isolated (entry_command e ≫= command_domain) (cell_transactions s) (cell_transactions s').
Proof.
  intros Hwf Hap. destruct (entry_command e) as [c|] eqn:Hc.
  2: { apply isolated_same; [done|]. by eapply apply_entry_plain. }
  rewrite (apply_entry_command _ _ _ _ Hc) in Hap.
  change (cell_transactions s) with (cell_transactions (begin_entry s e)) in *.
  destruct c as [c|c|c|c|c]; cbn [apply_command] in Hap; cbn [mbind option_bind command_domain].
  - apply isolated_same; [done|]. unfold apply_generation_command in Hap. case_match.
    { by injection Hap as <- _. }
    apply res_bind_Ok in Hap as ([a st] & _ & [= <- _]). case_decide; by destruct s.
  - apply isolated_same; [done|]. unfold apply_publication_command in Hap. case_match.
    { by injection Hap as <- _. }
    revert Hap. destruct (_ || _).
    + destruct (publication_apply _ _ _ _). intros [= <- _]. case_match; by destruct s.
    + intros [= <- _]. case_match; by destruct s.
  - eapply fenced_command_isolated; [|done|exact Hap].
    intros r0 s1 r1 Hwf' ([cells reply] & Hcell%panics_Ok & [= <- _])%res_bind_Ok.
    apply with_domain_isolated in Hcell as [Hw Hiso]; [|by eapply staged_apply_key|done].
    split; [by destruct s|]. intros d Hd. destruct s. apply Hiso. congruence.
  - eapply fenced_command_isolated; [|done|exact Hap].
    intros r0 s1 r1 Hwf' ([cells reply] & Hcell%panics_Ok & [= <- _])%res_bind_Ok.
    apply with_domain_isolated in Hcell as [Hw Hiso]; [|by eapply direct_apply_key|done].
    split; [by destruct s|]. intros d Hd. destruct s. apply Hiso. congruence.
  - eapply fenced_command_isolated; [|done|exact Hap].
    intros r0 s1 r1 Hwf' [= <- _]. apply isolated_same; [done|]. by destruct s.
Qed.

Lemma sm_steps_domains s s' :
  rtc sm_step s s' → domains_wf (cell_transactions s) → domains_wf (cell_transactions s').
Proof.
  induction 1 as [|s s1 s' (e & r & Hap) _ IH]; [done|]. intros Hwf. apply IH.
  by apply (apply_entry_isolated _ _ _ _ _ Hwf Hap).
Qed.

Lemma sm_reachable_domains s : sm_reachable s → domains_wf (cell_transactions s).
Proof. intros [m Hr]. apply (sm_steps_domains _ _ Hr). constructor. Qed.

(** C33. Tenants are isolated. Every state of the fault-free state machine has
    one domain per cell and tenant, and an entry leaves every domain alone but
    the one its command names: a domain of another cell or tenant is in the
    state after the entry exactly when it was there before, field for field. *)
Theorem tenant_isolation s e s' r d :
  sm_reachable s → apply_entry sha256 default_config s e = Ok (s', r) →
  entry_command e ≫= command_domain ≠ Some (domain_key d) →
  domains_wf (cell_transactions s') ∧
  (d ∈ cell_transactions s' ↔ d ∈ cell_transactions s).
Proof.
  intros Hr%sm_reachable_domains Hap Hd.
  destruct (apply_entry_isolated _ _ _ _ _ Hr Hap) as [Hwf Hiso]. auto.
Qed.

(** Every state of the fault-free state machine satisfies the invariants of
    its components: the generation authority is well-formed and the publication
    authority keeps its frontiers, leases, jobs and reservations ordered. *)
Theorem state_machine_invariant s :
  sm_reachable s →
  gen_wf sha256 (generation_authority s) ∧ authority_inv (publication_authority s).
Proof.
  intros [Hg Hp]%sm_reachable_components. split.
  - exact (proj1 (gen_reachable_wf _ _ Hg)).
  - by apply authority_reachable_inv.
Qed.
End runs.

(** *** A concrete log

    A bootstrap, a transaction of the old system, the takeover, a publication
    command of the new system, and a retry of the transaction. The JSON form of
    a command is its number. *)
Module demo_machine.
Import demo_cell demo_generation.

Definition old_txn (n : N) : CellTransactionCommand :=
  { txn n 0 [] key_a n with
    ct_credential := Some {| gc_generation := 1; gc_transaction_system_id := "old" |} }.

(** A transaction of another tenant. *)
Definition other_txn : CellTransactionCommand :=
  { old_txn 8 with ct_tenant_id := replicate 16 35%N }.

#[export] Instance demo_commands : CommandJson :=
  {| json_generation_command := λ _, Some []; json_publication_command := λ _, Some [];
     json_staged_command := λ _, Some []; json_client_command := λ _, Some [];
     generation_from_slice := λ b,
       if decide (b = [1%N]) then Some {| gcm_identity := ident 101; gcm_action := boot |}
       else if decide (b = [2%N]) then Some {| gcm_identity := ident 102; gcm_action := prepare |}
       else if decide (b = [3%N]) then Some {| gcm_identity := ident 103; gcm_action := reserve |}
       else if decide (b = [4%N]) then Some {| gcm_identity := ident 104; gcm_action := activate |}
       else None;
     publication_from_slice := λ b,
       Some {| pcm_identity := ident 105;
               pcm_credential := {| gc_generation := 2; gc_transaction_system_id := "new" |};
               pcm_action := SetRetentionWindow 0 10 |};
     staged_from_slice := λ _, None;
     cell_from_slice := λ b,
       match b with [8%N] => Some other_txn | [n] => Some (old_txn n) | _ => None end;
     client_from_slice := λ _, None |}.

Lemma demo_decode_wf b c : generation_from_slice b = Some c → action_wf (gcm_action c).
Proof.
  cbn. repeat case_decide; intros [= <-]; [|exact I..]. vm_compute. discriminate.
Qed.

Abbreviation machine := (@StateMachineData unit).
Definition entry_at (index : N) (payload : bytes) : @Entry unit :=
  {| en_log_id := {| li_term := 1; li_node_id := 1; li_index := index |};
     en_payload := Normal payload |}.
Definition next (s : machine) (e : Entry) : machine * ApplyResponse :=
  ok_or (s, response_new 0) (apply_entry prefix_digest default_config s e).

Definition generation_entry (index n : N) := entry_at index (GENERATION_COMMAND_MAGIC ++ [n]).
Definition transaction_entry (index : N) := entry_at index (CELL_COMMAND_MAGIC ++ [7%N]).
Definition publication_entry := entry_at 6 PUBLICATION_COMMAND_MAGIC.

Definition m0 : machine := StateMachineData_default tt.
Definition m1 := (next m0 (generation_entry 1 1)).1.
Definition m2 := (next m1 (transaction_entry 2)).1.
Definition m3 := (next m2 (generation_entry 3 2)).1.
Definition m4 := (next m3 (generation_entry 4 3)).1.
Definition m5 := (next m4 (generation_entry 5 4)).1.
Definition m6 := (next m5 publication_entry).1.

(** The transaction of the other tenant first. *)
Definition t2 := (next m1 (entry_at 2 (CELL_COMMAND_MAGIC ++ [8%N]))).1.
Definition t3 := (next t2 (transaction_entry 3)).1.
Definition other_domain : CellDomainState :=
  default (CellDomainState_new CELL TENANT 1) (head (cell_transactions t2)).

Abbreviation step := (sm_step prefix_digest).
Lemma demo_step s e : apply_entry prefix_digest default_config s e = Ok (next s e) → step s (next s e).1.
Proof. intros Hap. exists e, (next s e).2. rewrite Hap. by destruct (next s e). Qed.

Lemma m1_reachable : sm_reachable prefix_digest m1.
Proof. exists tt. eapply rtc_once, demo_step. vm_compute. reflexivity. Qed.
Lemma t2_reachable : sm_reachable prefix_digest t2.
Proof.
  exists tt. apply rtc_l with m1; apply demo_step || apply rtc_once, demo_step; vm_compute; reflexivity.
Qed.
Lemma m2_m5 : rtc step m2 m5.
Proof.
  apply rtc_l with m3; [apply demo_step; vm_compute; reflexivity|].
  apply rtc_l with m4; [apply demo_step; vm_compute; reflexivity|].
  apply rtc_once, demo_step. vm_compute. reflexivity.
Qed.
End demo_machine.
Import demo_cell demo_generation demo_machine.

Lemma request_exactly_once_witness :
  apply_entry prefix_digest default_config m6 (transaction_entry 9)
    = Ok (begin_entry m6 (transaction_entry 9), (next m1 (transaction_entry 2)).2).
Proof.
  rewrite (request_exactly_once prefix_digest default_config m1 (transaction_entry 2)
    (AnyCell (old_txn 7)) m2 (next m1 (transaction_entry 2)).2
    [generation_entry 3 2; generation_entry 4 3; generation_entry 5 4; publication_entry]
    (ok_or [] (sm_apply prefix_digest default_config m2
       [generation_entry 3 2; generation_entry 4 3; generation_entry 5 4; publication_entry] []).2)
    m6 (transaction_entry 9) (AnyCell (old_txn 7)));
    try (vm_compute; reflexivity).
  vm_compute. discriminate.
Defined.

Lemma log_single_writer_witness :
  ∃ cr1 cr2, command_credential (AnyCell (old_txn 7)) = Some cr1 ∧
    (gc_generation cr1 ≤ gc_generation cr2)%N ∧ gc_generation cr2 = 2%N.
Proof.
  destruct (log_single_writer prefix_digest demo_decode_wf m1 (transaction_entry 2) m2
    (next m1 (transaction_entry 2)).2 m5 publication_entry m6 (next m5 publication_entry).2
    m1_reachable) as (cr1 & cr2 & H1 & H2 & Hle & _).
  - vm_compute. discriminate.
  - vm_compute. reflexivity.
  - left. vm_compute. discriminate.
  - exact m2_m5.
  - vm_compute. reflexivity.
  - right. intros E. apply (f_equal retention_window) in E. vm_compute in E. discriminate.
  - vm_compute. reflexivity.
  - exists cr1, cr2. split; [exact H1|]. split; [exact Hle|]. vm_compute in H2.
    injection H2 as <-. reflexivity.
Defined.

Lemma tenant_isolation_witness :
  cd_tenant_id <$> cell_transactions t3 = [replicate 16 35%N; TENANT] ∧
  cd_latest_sequence <$> cell_transactions t3 = [2; 3]%N ∧ domains_wf (cell_transactions t3) ∧
  (other_domain ∈ cell_transactions t3 ↔ other_domain ∈ cell_transactions t2).
Proof.
  split; [vm_compute; reflexivity|]. split; [vm_compute; reflexivity|].
  refine (tenant_isolation prefix_digest t2 (transaction_entry 3) t3
    (next t2 (transaction_entry 3)).2 other_domain t2_reachable _ _).
  - vm_compute. reflexivity.
  - vm_compute. discriminate.
Defined.

Lemma state_machine_invariant_witness :
  gen_wf prefix_digest (generation_authority m1) ∧ authority_inv (publication_authority m1).
Proof. exact (state_machine_invariant prefix_digest demo_decode_wf m1 m1_reachable). Defined.
