(* ===== verification/Snapshot.v ===== *)
(** * Durable snapshots of the state machine

    The snapshot side of [okv-consensus/src/state_machine.rs]: building,
    persisting, opening and installing snapshots, and the checksummed frame of
    the snapshot file. The JSON form of metadata and state is a parameter. *)

From S2P Require Import Prelude Order BTree Bytes Version Quorum Envelope.
From S2P Require Import Publication Generation StateMachine Persist.

Definition SNAPSHOT_MAGIC : bytes := string_bytes "OKVS".
Definition SNAPSHOT_FORMAT_VERSION : N := 1.
Definition SNAPSHOT_HEADER_BYTES : nat := 4 + 2 + 4 + 8 + 32.

Section snapshot.
Context {Membership : Type} `{EqDecision Membership}.
Context (sha256 : bytes → bytes).

Record SnapshotMeta := {
  meta_last_log_id : option LogId;
  meta_last_membership : @StoredMembership Membership;
  meta_snapshot_id : string;
}.
Record StoredSnapshot := { ss_meta : SnapshotMeta; ss_data : bytes }.

Abbreviation data := (@StateMachineData Membership).

(** [serde_json] at the two types of a snapshot. *)
Context (meta_to_vec : SnapshotMeta → option bytes).
Context (meta_from_slice : bytes → option SnapshotMeta).
Context (state_to_vec : data → option bytes).
Context (state_from_slice : bytes → option data).

(** [format!("{}-{}-{sequence}", leader_id, index)]: OpenRaft prints the leader. *)
Context (snapshot_id : option LogId → N → string).

#[global] Instance StoredMembership_eq_dec : EqDecision (@StoredMembership Membership).
Proof. solve_decision. Defined.

Inductive SnapshotFileError :=
  | MetaEncode
  | MetaTooLong
  | Truncated
  | InvalidMagic
  | UnsupportedFormat (version : N)
  | LengthOverflow
  | LengthMismatch (expected : N)
  | ChecksumMismatch
  | MetaDecode
  | StateDecode
  | PositionMismatch
  | MembershipMismatch
  | StateEncode
  | Io.

(** ** The frame *)
Definition snapshot_prefix (meta_length data_length : N) : bytes :=
  SNAPSHOT_MAGIC ++ u16_be SNAPSHOT_FORMAT_VERSION ++ u32_be meta_length
  ++ u64_be data_length.
Definition snapshot_frame (meta data : bytes) : bytes :=
  let prefix := snapshot_prefix (len meta) (len data) in
  prefix ++ sha256 (prefix ++ meta ++ data) ++ meta ++ data.

Definition encode_durable_snapshot (snapshot : StoredSnapshot)
    : res SnapshotFileError bytes :=
  match meta_to_vec (ss_meta snapshot) with
  | None => Err MetaEncode
  | Some meta =>
      if (U32_MAX <? len meta)%N then Err MetaTooLong
      else if (U64_MAX <? N.of_nat SNAPSHOT_HEADER_BYTES + len meta + len (ss_data snapshot))%N
      then Err LengthOverflow
      else Ok (snapshot_frame meta (ss_data snapshot))
  end.

Definition decode_durable_snapshot (b : bytes) : res SnapshotFileError StoredSnapshot :=
  if length b <? SNAPSHOT_HEADER_BYTES then Err Truncated
  else if negb (bool_decide (take 4 b = SNAPSHOT_MAGIC)) then Err InvalidMagic
  else
    let format_version := of_be (slice 4 6 b) in
    if negb (format_version =? SNAPSHOT_FORMAT_VERSION)%N
    then Err (UnsupportedFormat format_version)
    else
      let meta_length := of_be (slice 6 10 b) in
      let data_length := of_be (slice 10 18 b) in
      let expected_length := (N.of_nat SNAPSHOT_HEADER_BYTES + meta_length + data_length)%N in
      if (U64_MAX <? expected_length)%N then Err LengthOverflow
      else if negb (len b =? expected_length)%N then Err (LengthMismatch expected_length)
      else if negb (bool_decide
             (sha256 (take 18 b ++ drop SNAPSHOT_HEADER_BYTES b)
              = slice 18 SNAPSHOT_HEADER_BYTES b)) then Err ChecksumMismatch
      else
        let meta_end := SNAPSHOT_HEADER_BYTES + N.to_nat meta_length in
        match meta_from_slice (slice SNAPSHOT_HEADER_BYTES meta_end b) with
        | None => Err MetaDecode
        | Some meta => Ok {| ss_meta := meta; ss_data := drop meta_end b |}
        end.

(** ** Validation *)
Definition validate_snapshot_state (snapshot : StoredSnapshot) (state : data)
    : res SnapshotFileError unit :=
  if negb (bool_decide (meta_last_log_id (ss_meta snapshot) = last_applied_log state))
  then Err PositionMismatch
  else if negb (bool_decide (meta_last_membership (ss_meta snapshot) = last_membership state))
  then Err MembershipMismatch
  else Ok tt.

Definition decode_and_validate_snapshot (snapshot : StoredSnapshot)
    : res SnapshotFileError data :=
  match state_from_slice (ss_data snapshot) with
  | None => Err StateDecode
  | Some state =>
      let? _ := validate_snapshot_state snapshot state in
      Ok state
  end.

(** ** The store *)

(** The file behind [snapshot_path], when there is a path. *)
Record StateMachineStore := {
  store_data : data;
  snapshot_sequence : N;
  current_snapshot : option StoredSnapshot;
  snapshot_file : option (option bytes);
}.

Definition load_snapshot (file : option bytes)
    : res SnapshotFileError (option StoredSnapshot) :=
  match file with
  | None => Ok None
  | Some b =>
      let? snapshot := decode_durable_snapshot b in
      let? _ := decode_and_validate_snapshot snapshot in
      Ok (Some snapshot)
  end.

Definition open_with_authority_faults (no_membership : Membership) (file : option bytes)
    : res SnapshotFileError StateMachineStore :=
  let? restored := load_snapshot file in
  let? state :=
    match restored with
    | None => Ok (StateMachineData_default no_membership)
    | Some snapshot => decode_and_validate_snapshot snapshot
    end in
  Ok {| store_data := state; snapshot_sequence := 0; current_snapshot := restored;
        snapshot_file := Some file |}.

(** The file after a persist, and its result. *)
Definition persist_snapshot (file : option (option bytes)) (snapshot : StoredSnapshot)
    (io : PersistIo) : option (option bytes) * res SnapshotFileError unit :=
  match file with
  | None => (None, Ok tt)
  | Some old =>
      match encode_durable_snapshot snapshot with
      | Ok b =>
          let '(file, persisted) := replace_file old b io in
          (Some file, if persisted then Ok tt else Err Io)
      | Err error => (Some old, Err error)
      | Panic => (Some old, Panic)
      end
  end.

Definition build_snapshot (st : StateMachineStore) (io : PersistIo)
    : StateMachineStore * res SnapshotFileError StoredSnapshot :=
  let state := store_data st in
  match state_to_vec state with
  | None => (st, Err StateEncode)
  | Some bytes =>
      let sequence := N.land (snapshot_sequence st + 1) U64_MAX in
      let stored :=
        {| ss_meta :=
             {| meta_last_log_id := last_applied_log state;
                meta_last_membership := last_membership state;
                meta_snapshot_id := snapshot_id (last_applied_log state) sequence |};
           ss_data := bytes |} in
      let '(file, result) := persist_snapshot (snapshot_file st) stored io in
      match result with
      | Ok _ =>
          ({| store_data := state; snapshot_sequence := sequence;
              current_snapshot := Some stored; snapshot_file := file |}, Ok stored)
      | Err error =>
          ({| store_data := state; snapshot_sequence := sequence;
              current_snapshot := current_snapshot st; snapshot_file := file |}, Err error)
      | Panic =>
          ({| store_data := state; snapshot_sequence := sequence;
              current_snapshot := current_snapshot st; snapshot_file := file |}, Panic)
      end
  end.

Definition install_snapshot (st : StateMachineStore) (meta : SnapshotMeta) (bytes : bytes)
    (io : PersistIo) : StateMachineStore * res SnapshotFileError unit :=
  let stored := {| ss_meta := meta; ss_data := bytes |} in
  match decode_and_validate_snapshot stored with
  | Ok decoded =>
      let '(file, result) := persist_snapshot (snapshot_file st) stored io in
      match result with
      | Ok _ =>
          ({| store_data := decoded; snapshot_sequence := snapshot_sequence st;
              current_snapshot := Some stored; snapshot_file := file |}, Ok tt)
      | error =>
          ({| store_data := store_data st; snapshot_sequence := snapshot_sequence st;
              current_snapshot := current_snapshot st; snapshot_file := file |}, error)
      end
  | Err error => (st, Err error)
  | Panic => (st, Panic)
  end.
End snapshot.
