(* ===== verification/SnapshotRuns.v ===== *)
(** * Snapshot files

    The snapshot frame is exact, and a persisted snapshot restores the state it
    was built from, whatever happens to the file operations. *)

From S2P Require Import Prelude Order BTree Bytes Version Quorum Envelope.
From S2P Require Import Publication Generation StateMachine Persist Snapshot.

Section runs.
Context {Membership : Type} `{EqDecision Membership}.
Context (sha256 : bytes → bytes).
Abbreviation data := (@StateMachineData Membership).
Context (meta_to_vec : @SnapshotMeta Membership → option bytes).
Context (meta_from_slice : bytes → option (@SnapshotMeta Membership)).
Context (state_to_vec : data → option bytes).
Context (state_from_slice : bytes → option data).
Context (snapshot_id : option LogId → N → string).
Hypothesis sha256_len : digest_len sha256.

Abbreviation decode := (decode_durable_snapshot sha256 meta_from_slice).
Abbreviation frame := (snapshot_frame sha256).

Lemma length_snapshot_prefix m n : length (snapshot_prefix m n) = 18.
Proof. unfold snapshot_prefix. rewrite !length_app. by autorewrite with len_simpl. Qed.

(** The header fields of a frame. *)
Lemma frame_slices (meta bytes : bytes) (d := sha256 (snapshot_prefix (len meta) (len bytes) ++ meta ++ bytes)) :
  take 4 (frame meta bytes) = SNAPSHOT_MAGIC ∧
  slice 4 6 (frame meta bytes) = u16_be SNAPSHOT_FORMAT_VERSION ∧
  slice 6 10 (frame meta bytes) = u32_be (len meta) ∧
  slice 10 18 (frame meta bytes) = u64_be (len bytes) ∧
  take 18 (frame meta bytes) = snapshot_prefix (len meta) (len bytes) ∧
  slice 18 50 (frame meta bytes) = d ∧
  drop 50 (frame meta bytes) = meta ++ bytes.
Proof.
  assert (length d = 32) as Hd by apply sha256_len.
  assert (frame meta bytes = snapshot_prefix (len meta) (len bytes) ++ d ++ meta ++ bytes)
    as -> by done.
  pose proof (length_snapshot_prefix (len meta) (len bytes)) as Hp.
  split_and!.
  - reflexivity.
  - unfold snapshot_prefix. rewrite <-!app_assoc.
    apply (slice_app_at 4 6 SNAPSHOT_MAGIC); by autorewrite with len_simpl.
  - unfold snapshot_prefix. rewrite <-!app_assoc, app_assoc.
    apply (slice_app_at 6 10); by autorewrite with len_simpl.
  - unfold snapshot_prefix. rewrite <-!app_assoc, (app_assoc SNAPSHOT_MAGIC), app_assoc.
    apply (slice_app_at 10 18); by autorewrite with len_simpl.
  - by rewrite take_app_length'.
  - by apply slice_app_at; [|rewrite Hd].
  - rewrite app_assoc, drop_app_length'; [done|]. rewrite length_app. lia.
Qed.

Lemma length_frame (meta bytes : bytes) :
  length (frame meta bytes) = SNAPSHOT_HEADER_BYTES + length meta + length bytes.
Proof.
  unfold snapshot_frame. rewrite !length_app, length_snapshot_prefix, sha256_len.
  unfold SNAPSHOT_HEADER_BYTES. lia.
Qed.

(** What the length fields can say. *)
Definition frame_fits (meta bytes : bytes) : Prop :=
  (len meta ≤ U32_MAX)%N ∧
  (N.of_nat SNAPSHOT_HEADER_BYTES + len meta + len bytes ≤ U64_MAX)%N.

Lemma decode_frame (meta bytes : bytes) m :
  frame_fits meta bytes → meta_from_slice meta = Some m →
  decode (frame meta bytes) = Ok {| ss_meta := m; ss_data := bytes |}.
Proof.
  intros [Hm Hd] Hfrom.
  destruct (frame_slices meta bytes) as (E1 & E2 & E3 & E4 & E5 & E6 & E7).
  pose proof (length_frame meta bytes) as Hlen.
  assert (of_be (u32_be (len meta)) = len meta) as Eu32.
  { apply of_be_be. unfold U32_MAX in Hm. change (256 ^ N.of_nat 4)%N with 4294967296%N. lia. }
  assert (of_be (u64_be (len bytes)) = len bytes) as Eu64.
  { apply of_u64_be. unfold u64_wf. lia. }
  unfold decode_durable_snapshot. change SNAPSHOT_HEADER_BYTES with 50 in *.
  rewrite (proj2 (Nat.ltb_ge _ _)) by lia.
  rewrite E1, bool_decide_true by done. rewrite E2, E3, E4, Eu32, Eu64. cbn [negb].
  rewrite (proj2 (N.ltb_ge _ _)) by lia.
  assert (len (frame meta bytes) = N.of_nat 50 + len meta + len bytes)%N as ->
    by (unfold len; lia).
  rewrite N.eqb_refl. cbn [negb]. rewrite E5, E6, E7, bool_decide_true by done. cbn [negb].
  assert (N.to_nat (len meta) = length meta) as -> by (unfold len; lia).
  assert (slice 50 (50 + length meta) (frame meta bytes) = meta) as ->.
  { unfold slice. rewrite E7. replace (_ - _) with (length meta) by lia. apply take_app_length. }
  assert (drop (50 + length meta) (frame meta bytes) = bytes) as ->.
  { etrans; [|apply (drop_app_length meta bytes)]. by rewrite <-E7, drop_drop. }
  by rewrite Hfrom, N.eqb_refl.
Qed.

Lemma be_slice b i j : bytes_wf b → j ≤ length b → be (j - i) (of_be (slice i j b)) = slice i j b.
Proof. intros Hb Hj. apply be_of_be_len; [by apply length_slice|by apply slice_wf]. Qed.

Lemma decode_is_frame b snapshot :
  bytes_wf b → decode b = Ok snapshot →
  ∃ meta, frame_fits meta (ss_data snapshot) ∧
    meta_from_slice meta = Some (ss_meta snapshot) ∧ b = frame meta (ss_data snapshot).
Proof.
  intros Hb. unfold decode_durable_snapshot. change SNAPSHOT_HEADER_BYTES with 50.
  destruct (length b <? 50) eqn:Hlen; [done|]. apply Nat.ltb_ge in Hlen.
  case_bool_decide as Hmagic; [|done]. cbn [negb].
  destruct (_ =? _)%N eqn:Hver; [|done]. apply N.eqb_eq in Hver. cbn [negb].
  destruct (U64_MAX <? _)%N eqn:Hover; [done|]. apply N.ltb_ge in Hover.
  destruct (len b =? _)%N eqn:Hl; [|done]. apply N.eqb_eq in Hl. cbn [negb].
  case_bool_decide as Hsum; [|done]. cbn [negb].
  destruct (meta_from_slice _) as [m|] eqn:Hmeta; [|done]. intros Hok.
  match type of Hok with Ok ?x = _ => assert (snapshot = x) as -> by congruence end.
  clear Hok. cbn [ss_data ss_meta].
  set (ml := of_be (slice 6 10 b)) in *. set (dl := of_be (slice 10 18 b)) in *.
  set (meta := slice 50 (50 + N.to_nat ml) b) in *.
  assert (len meta = ml) as Eml.
  { unfold meta, len. rewrite length_slice by (unfold len in Hl; lia). lia. }
  assert (len (drop (50 + N.to_nat ml) b) = dl) as Edl.
  { unfold len in *. rewrite length_drop. lia. }
  assert (take 18 b = snapshot_prefix ml dl) as Eprefix.
  { rewrite <-(slice_join 10 18), <-(slice_join 6 10), <-(slice_join 4 6), Hmagic by lia.
    rewrite <-(be_slice b 4 6), <-(be_slice b 6 10), <-(be_slice b 10 18) by (done || lia).
    rewrite Hver. unfold snapshot_prefix. by rewrite <-!app_assoc. }
  exists meta. unfold frame_fits. rewrite Edl, Eml. split_and!; [| |done|].
  - assert (ml < 256 ^ N.of_nat 4)%N as Hml.
    { pose proof (of_be_bound (slice 6 10 b) (slice_wf 6 10 b Hb)) as Hbound.
      by rewrite length_slice in Hbound by lia. }
    change (256 ^ N.of_nat 4)%N with 4294967296%N in Hml. unfold U32_MAX. lia.
  - done.
  - unfold snapshot_frame. rewrite Edl, Eml, <-Eprefix. unfold meta.
    rewrite slice_drop, Hsum, app_assoc, slice_join by lia. by rewrite take_drop.
Qed.

(** The snapshot file format is exact: bytes are read as a snapshot exactly
    when they are the frame of its data and of metadata that parses to its
    metadata, within the widths of the length fields. A file cut short, extended
    or with any header field changed is refused. *)
Theorem snapshot_codec_exact b snapshot :
  bytes_wf b →
  decode b = Ok snapshot ↔
  ∃ meta, frame_fits meta (ss_data snapshot) ∧
    meta_from_slice meta = Some (ss_meta snapshot) ∧ b = frame meta (ss_data snapshot).
Proof.
  intros Hb. split; [by apply decode_is_frame|].
  intros (meta & Hfit & Hm & ->). rewrite (decode_frame _ _ _ Hfit Hm). by destruct snapshot.
Qed.

(** ** Restoring *)
Hypothesis meta_round : ∀ m b, meta_to_vec m = Some b → meta_from_slice b = Some m.
Hypothesis state_round : ∀ s b, state_to_vec s = Some b → state_from_slice b = Some s.

Abbreviation store := (@StateMachineStore Membership).
Abbreviation open := (open_with_authority_faults sha256 meta_from_slice state_from_slice).
Abbreviation build := (build_snapshot sha256 meta_to_vec state_to_vec snapshot_id).
Abbreviation install := (install_snapshot sha256 meta_to_vec state_from_slice).

Lemma encode_decode snapshot b :
  encode_durable_snapshot sha256 meta_to_vec snapshot = Ok b → decode b = Ok snapshot.
Proof.
  unfold encode_durable_snapshot. destruct (meta_to_vec _) as [meta|] eqn:Hm; [|done].
  destruct (U32_MAX <? _)%N eqn:H1; [done|]. destruct (U64_MAX <? _)%N eqn:H2; [done|].
  intros [= <-]. apply N.ltb_ge in H1, H2. rewrite (decode_frame _ _ (ss_meta snapshot)).
  - by destruct snapshot.
  - done.
  - by apply meta_round.
Qed.

(** A persisted file holds the old bytes or a frame of the new snapshot. *)
Lemma persist_cases file snapshot io file' result :
  persist_snapshot sha256 meta_to_vec file snapshot io = (file', result) →
  (file' = file ∧ (result = Ok tt → file = None)) ∨
  ∃ b, file' = Some (Some b) ∧ decode b = Ok snapshot.
Proof.
  unfold persist_snapshot. destruct file as [old|]; [|intros [= <- <-]; by left].
  destruct (encode_durable_snapshot _ _ _) as [b| |] eqn:He.
  - apply encode_decode in He. destruct io; intros [= <- <-]; [by left|..]; right; eauto.
  - intros [= <- <-]. by left.
  - intros [= <- <-]. by left.
Qed.

(** Opening a file with a valid snapshot gives its state. *)
Lemma open_snapshot none b snapshot s :
  decode b = Ok snapshot →
  decode_and_validate_snapshot state_from_slice snapshot = Ok s →
  ∃ st, open none (Some b) = Ok st ∧ store_data st = s ∧ current_snapshot st = Some snapshot.
Proof.
  intros Hd Hv. unfold open_with_authority_faults, load_snapshot. rewrite Hd. cbn.
  rewrite Hv. cbn. rewrite Hv. cbn. eauto.
Qed.

(** C28. Snapshots restore the state they were built from, whatever happens to
    the file operations. Building a snapshot never changes the state. If it
    succeeds, opening the file gives exactly the state. If it fails at any
    point, the file still is what it was, or opens to the current state. *)
Theorem snapshot_restores none (st st' : store) io result :
  build st io = (st', result) → is_Some (snapshot_file st) →
  store_data st' = store_data st ∧
  ((snapshot_file st' = snapshot_file st ∧ ∀ snapshot, result ≠ Ok snapshot) ∨
   ∃ b restored, snapshot_file st' = Some (Some b) ∧ open none (Some b) = Ok restored ∧
     store_data restored = store_data st).
Proof.
  intros Hb [old Hold]. unfold build_snapshot in Hb.
  destruct (state_to_vec (store_data st)) as [bytes|] eqn:Hs.
  2: { injection Hb as <- <-. split; [done|]. by left. }
  destruct (persist_snapshot _ _ _ _ _) as [file r] eqn:Hp.
  pose proof (persist_cases _ _ _ _ _ Hp) as Hcases. rewrite Hold in Hcases.
  assert (store_data st' = store_data st ∧ snapshot_file st' = file ∧
          (∀ snapshot, result = Ok snapshot → r = Ok tt)) as (-> & -> & Hres).
  { destruct r as [[]| |]; injection Hb as <- <-; by split_and!. }
  split; [done|]. destruct Hcases as [[-> Hn]|(b & -> & Hdec)].
  - left. split; [by rewrite Hold|]. intros snapshot Hok. by specialize (Hn (Hres _ Hok)).
  - right. eapply (open_snapshot none) in Hdec as (restored & Ho & Hd & _); [eauto|].
    unfold decode_and_validate_snapshot. cbn. rewrite (state_round _ _ Hs).
    unfold validate_snapshot_state. cbn. by rewrite !bool_decide_true.
Qed.

(** Installing a snapshot is all or nothing. It is accepted only when the
    data parses to a state whose position and membership are those of the
    metadata, and then the store holds exactly that state and the file opens to
    it. Otherwise the state and the current snapshot stay; the file does too, or
    opens to the state that was sent. *)
Theorem install_all_or_nothing none (st st' : store) meta bytes io result :
  install st meta bytes io = (st', result) → is_Some (snapshot_file st) →
  match result with
  | Ok _ =>
      ∃ s b restored, state_from_slice bytes = Some s ∧
        last_applied_log s = meta_last_log_id meta ∧
        last_membership s = meta_last_membership meta ∧ store_data st' = s ∧
        snapshot_file st' = Some (Some b) ∧ open none (Some b) = Ok restored ∧
        store_data restored = s
  | _ =>
      store_data st' = store_data st ∧ current_snapshot st' = current_snapshot st ∧
      (snapshot_file st' = snapshot_file st ∨
       ∃ s b restored, state_from_slice bytes = Some s ∧ snapshot_file st' = Some (Some b) ∧
         open none (Some b) = Ok restored ∧ store_data restored = s)
  end.
Proof.
  intros Hb [old Hold]. unfold install_snapshot in Hb.
  set (stored := {| ss_meta := meta; ss_data := bytes |}) in *.
  destruct (decode_and_validate_snapshot _ stored) as [s| |] eqn:Hv.
  2,3: injection Hb as <- <-; split_and!; [done..|by left].
  assert (state_from_slice bytes = Some s ∧ last_applied_log s = meta_last_log_id meta ∧
          last_membership s = meta_last_membership meta) as (Hs & Hl & Hm).
  { unfold decode_and_validate_snapshot, validate_snapshot_state in Hv. cbn in Hv.
    destruct (state_from_slice bytes); [|done].
    repeat case_bool_decide; try done. injection Hv as <-. done. }
  destruct (persist_snapshot _ _ _ _ _) as [file r] eqn:Hp.
  pose proof (persist_cases _ _ _ _ _ Hp) as Hcases. rewrite Hold in Hcases.
  destruct Hcases as [[-> Hn]|(b & -> & Hdec)].
  - destruct r as [[]| |]; [by specialize (Hn eq_refl)|..]; injection Hb as <- <-;
      (split_and!; [done..|by left]).
  - destruct (open_snapshot none _ _ _ Hdec Hv) as (restored & Ho & Hd & _).
    destruct r as [[]| |]; injection Hb as <- <-; [by exists s, b, restored|..];
      split_and!; try done; right; by exists s, b, restored.
Qed.
End runs.

(** *** A concrete snapshot

    The codecs know one value each: the initial state and its metadata. *)
Module demo_snapshot.
#[export] Instance CompletedRoutineReconfiguration_eq_dec :
  EqDecision CompletedRoutineReconfiguration.
Proof. solve_decision. Defined.
#[export] Instance PendingRoutineReconfiguration_eq_dec :
  EqDecision PendingRoutineReconfiguration.
Proof. solve_decision. Defined.
#[export] Instance GenerationAuthorityState_eq_dec : EqDecision GenerationAuthorityState.
Proof. solve_decision. Defined.
#[export] Instance PublicationAuthorityState_eq_dec : EqDecision PublicationAuthorityState.
Proof. solve_decision. Defined.
#[export] Instance SnapshotMeta_eq_dec : EqDecision (@SnapshotMeta unit).
Proof. solve_decision. Defined.

Definition state : @StateMachineData unit := StateMachineData_default tt.
Definition ident (_ : option LogId) (_ : N) : string := "--1".
Definition meta : @SnapshotMeta unit :=
  {| meta_last_log_id := None; meta_last_membership := last_membership state;
     meta_snapshot_id := "--1" |}.

Definition meta_to_vec (m : @SnapshotMeta unit) : option bytes :=
  if decide (m = meta) then Some [5; 6]%N else None.
Definition meta_from_slice (b : bytes) : option (@SnapshotMeta unit) :=
  if decide (b = [5; 6]%N) then Some meta else None.

Definition initial (s : @StateMachineData unit) : bool :=
  bool_decide (last_applied_log s = None)
  && bool_decide (last_membership s = last_membership state)
  && bool_decide (applied_payloads s = []) && (size (durable_outcomes s) =? 0)
  && (size (request_fingerprints s) =? 0)
  && bool_decide (generation_authority s = GenerationAuthorityState_default)
  && bool_decide (publication_authority s = PublicationAuthorityState_default)
  && (length (cell_transactions s) =? 0)
  && bool_decide (last_generation_transition_log s = None).
Definition state_to_vec (s : @StateMachineData unit) : option bytes :=
  if initial s then Some [7%N] else None.
Definition state_from_slice (b : bytes) : option (@StateMachineData unit) :=
  if decide (b = [7%N]) then Some state else None.

Lemma meta_round m b : meta_to_vec m = Some b → meta_from_slice b = Some m.
Proof. unfold meta_to_vec. case_decide; [|done]. intros [= <-]. by subst. Qed.

Lemma state_round s b : state_to_vec s = Some b → state_from_slice b = Some s.
Proof.
  unfold state_to_vec. destruct (initial s) eqn:Hi; [|done]. intros [= <-].
  unfold initial in Hi. destruct s. cbn in Hi. destruct_bool_hyps.
  repeat match goal with
  | Hs : (_ =? 0) = true |- _ => apply Nat.eqb_eq in Hs
  | Hs : size _ = 0 |- _ => apply map_size_empty_inv in Hs
  | Hs : length _ = 0 |- _ => apply length_zero_iff_nil in Hs
  end.
  by subst.
Qed.

Definition store : @StateMachineStore unit :=
  {| store_data := state; snapshot_sequence := 0; current_snapshot := None;
     snapshot_file := Some None |}.
Definition built :=
  build_snapshot prefix_digest meta_to_vec state_to_vec ident store Persisted.
Definition file : bytes := default [] (default None (snapshot_file built.1)).
End demo_snapshot.

Lemma snapshot_codec_exact_witness :
  decode_durable_snapshot prefix_digest demo_snapshot.meta_from_slice demo_snapshot.file
    = Ok {| ss_meta := demo_snapshot.meta; ss_data := [7%N] |}.
Proof.
  refine (proj2 (snapshot_codec_exact prefix_digest demo_snapshot.meta_from_slice
    prefix_digest_len demo_snapshot.file {| ss_meta := demo_snapshot.meta; ss_data := [7%N] |} _)
    (ex_intro _ [5; 6]%N _)).
  - apply (bool_decide_unpack (Forall (λ b, b < 256)%N _)). vm_compute. exact I.
  - split; [split; vm_compute; discriminate|]. split; vm_compute; reflexivity.
Defined.

Lemma snapshot_restores_witness :
  store_data demo_snapshot.built.1 = demo_snapshot.state ∧ demo_snapshot.file ≠ [].
Proof.
  split; [|vm_compute; discriminate].
  refine (proj1 (snapshot_restores prefix_digest demo_snapshot.meta_to_vec
    demo_snapshot.meta_from_slice demo_snapshot.state_to_vec demo_snapshot.state_from_slice
    demo_snapshot.ident prefix_digest_len demo_snapshot.meta_round demo_snapshot.state_round
    tt demo_snapshot.store demo_snapshot.built.1 Persisted demo_snapshot.built.2 _ _)).
  - vm_compute. reflexivity.
  - exists None. reflexivity.
Defined.

Lemma install_all_or_nothing_witness :
  ∃ s, demo_snapshot.state_from_slice [7%N] = Some s ∧
    last_applied_log s = meta_last_log_id demo_snapshot.meta.
Proof.
  pose (r := install_snapshot prefix_digest demo_snapshot.meta_to_vec
    demo_snapshot.state_from_slice demo_snapshot.store demo_snapshot.meta [7%N] Persisted).
  destruct (install_all_or_nothing prefix_digest demo_snapshot.meta_to_vec
    demo_snapshot.meta_from_slice demo_snapshot.state_from_slice prefix_digest_len
    demo_snapshot.meta_round tt demo_snapshot.store r.1 demo_snapshot.meta [7%N] Persisted
    (Ok tt)) as (s & _ & _ & H1 & H2 & _).
  - vm_compute. reflexivity.
  - exists None. reflexivity.
  - exists s. split; [exact H1|exact H2].
Defined.
