(* ===== verification/CommandCodec.v ===== *)
(** * Encoding of replicated commands

    The [encode] functions of the five commands, with the canonical form each
    is encoded in: every command is decoded by the state machine as what it
    was, in canonical form, and the canonical form of a transaction means the
    same as the transaction. *)

From S2P Require Import Prelude Order BTree Bytes Version Quorum Envelope.
From S2P Require Import Publication Generation StateMachine CellSerial CellDemo.

(** ** Canonical staged commands *)
Definition canonicalize_repair (c : CellTaggedLogRepairCertificate)
    : CellTaggedLogRepairCertificate :=
  {| trc_statement := trc_statement c;
     trc_attestations := sort_by_key tra_signer_id (trc_attestations c) |}.
Definition canonicalize_stage_certificate (c : CellTaggedLogPolicyStageCertificate)
    : CellTaggedLogPolicyStageCertificate :=
  {| psc_statement := psc_statement c;
     psc_attestations := sort_by_key psa_signer_id (psc_attestations c) |}.
Definition canonicalize_capacity (c : CellTaggedLogCapacityCertificate)
    : CellTaggedLogCapacityCertificate :=
  {| tcc_statement := tcc_statement c;
     tcc_attestations := sort_by_key tca_signer_id (tcc_attestations c) |}.
Definition canonicalize_log (c : CellTaggedLogCertificate) : CellTaggedLogCertificate :=
  {| tlc_statement := tlc_statement c;
     tlc_attestations := sort_by_key tla_signer_id (tlc_attestations c) |}.
Definition canonicalize_fence (c : CellTaggedLogFenceCertificate)
    : CellTaggedLogFenceCertificate :=
  {| tfc_statement := tfc_statement c;
     tfc_attestations := sort_by_key tfa_signer_id (tfc_attestations c) |}.
Definition canonicalize_prefix (c : CellTaggedLogPrefixFenceCertificate)
    : CellTaggedLogPrefixFenceCertificate :=
  {| pfc_statement := pfc_statement c;
     pfc_attestations := sort_by_key pfa_signer_id (pfc_attestations c) |}.
Definition canonicalize_transition (t : CellLogSetPolicyTransition)
    : CellLogSetPolicyTransition :=
  { t with lpt_old_policy := sort_members (lpt_old_policy t);
           lpt_next_policy := sort_members (lpt_next_policy t) }.

Definition canonicalize_action (a : CellStagedTransactionAction)
    : CellStagedTransactionAction :=
  match a with
  | InstallLogSetPolicies policies =>
      InstallLogSetPolicies (sort_by_key lsp_log_set_id (sort_members <$> policies))
  | PrepareLogSetPolicyTransition transition readiness =>
      PrepareLogSetPolicyTransition (canonicalize_transition transition)
        (canonicalize_repair readiness)
  | CommitLogSetPolicyTransition id stage =>
      CommitLogSetPolicyTransition id (canonicalize_stage_certificate stage)
  | ReserveCapacity transaction certificates =>
      ReserveCapacity (canonicalize_transaction transaction)
        (sort_by_key (λ c, tcs_log_set_id (tcc_statement c))
           (canonicalize_capacity <$> certificates))
  | Stage transaction => Stage (canonicalize_transaction transaction)
  | RecordLogReceipt receipt =>
      RecordLogReceipt
        { receipt with tlr_quorum_node_ids := sort_dedup (tlr_quorum_node_ids receipt) }
  | RecordLogCertificate certificate => RecordLogCertificate (canonicalize_log certificate)
  | CellTypes.Publish => CellTypes.Publish
  | TakeoverPublish previous recovery sequence digest =>
      TakeoverPublish previous recovery sequence digest
  | TakeoverAbort previous recovery sequence digest fences =>
      TakeoverAbort previous recovery sequence digest
        (sort_by_key (λ c, tfs_log_set_id (tfc_statement c)) (canonicalize_fence <$> fences))
  | TakeoverRecoverPrefix previous recovery window inventories =>
      TakeoverRecoverPrefix previous recovery window
        (sort_by_key (λ c, pfs_log_set_id (pfc_statement c))
           (canonicalize_prefix <$> inventories))
  end.

Definition canonicalize_staged (c : CellStagedTransactionCommand)
    : CellStagedTransactionCommand :=
  { c with cs_action := canonicalize_action (cs_action c) }.

(** ** Magic prefixes *)
Lemma strip_prefix_app m b : strip_prefix m (m ++ b) = Some b.
Proof. induction m as [|x m IH]; [done|]. cbn. by rewrite N.eqb_refl. Qed.

Lemma strip_prefix_other m1 m2 b :
  length m1 = length m2 → m1 ≠ m2 → strip_prefix m1 (m2 ++ b) = None.
Proof.
  revert m2. induction m1 as [|x m1 IH]; intros [|y m2] Hl Hne; try done.
  cbn. destruct (x =? y)%N eqn:E; [|done]. apply N.eqb_eq in E as ->.
  apply IH; [by injection Hl|congruence].
Qed.

Lemma decode_with_magic {A} m (f : bytes → option A) b c :
  f b = Some c → decode_with m f (m ++ b) = Decoded c.
Proof. intros Hf. unfold decode_with. by rewrite strip_prefix_app, Hf. Qed.

Lemma decode_with_other {A} m1 m2 (f : bytes → option A) b :
  length m1 = length m2 → m1 ≠ m2 → decode_with m1 f (m2 ++ b) = NotThis.
Proof. intros Hl Hne. unfold decode_with. by rewrite strip_prefix_other. Qed.

(** ** Encoding *)
Section codec.
Context `{CellJson} `{CommandJson}.

Definition generation_command_encode (c : GenerationCommand) : option bytes :=
  (GENERATION_COMMAND_MAGIC ++.) <$> to_vec c.
Definition publication_command_encode (c : PublicationCommand) : option bytes :=
  (PUBLICATION_COMMAND_MAGIC ++.) <$> to_vec c.
Definition staged_command_encode (c : CellStagedTransactionCommand) : option bytes :=
  (STAGED_COMMAND_MAGIC ++.) <$> to_vec (canonicalize_staged c).
Definition cell_command_encode (c : CellTransactionCommand) : option bytes :=
  (CELL_COMMAND_MAGIC ++.) <$> to_vec (canonicalize_transaction c).
Definition client_command_encode (c : ClientCommand) : option bytes :=
  (COMMAND_MAGIC ++.) <$> to_vec c.

Definition command_encode (c : AnyCommand) : option bytes :=
  match c with
  | AnyGeneration c => generation_command_encode c
  | AnyPublication c => publication_command_encode c
  | AnyStaged c => staged_command_encode c
  | AnyCell c => cell_command_encode c
  | AnyClient c => client_command_encode c
  end.

Definition canonical (c : AnyCommand) : AnyCommand :=
  match c with
  | AnyStaged c => AnyStaged (canonicalize_staged c)
  | AnyCell c => AnyCell (canonicalize_transaction c)
  | c => c
  end.

(** [serde_json] reads back what it wrote. *)
Hypothesis generation_round : ∀ (c : GenerationCommand) b,
  to_vec c = Some b → generation_from_slice b = Some c.
Hypothesis publication_round : ∀ (c : PublicationCommand) b,
  to_vec c = Some b → publication_from_slice b = Some c.
Hypothesis staged_round : ∀ (c : CellStagedTransactionCommand) b,
  to_vec c = Some b → staged_from_slice b = Some c.
Hypothesis cell_round : ∀ (c : CellTransactionCommand) b,
  to_vec c = Some b → cell_from_slice b = Some c.
Hypothesis client_round : ∀ (c : ClientCommand) b,
  to_vec c = Some b → client_from_slice b = Some c.

(** Commands are dispatched as what they are: whatever the JSON form of a
    command is, the bytes [encode] gives it are decoded by the state machine as
    the same kind of command, in its canonical form, and never taken for a raw
    payload or for a command of another kind. *)
Theorem command_dispatch_exact c b :
  command_encode c = Some b → decode_command b = Decoded (canonical c).
Proof.
  destruct c as [c|c|c|c|c]; cbn [command_encode canonical];
    intros (j & Hj & ->)%fmap_Some; unfold decode_command; cbn [or_decode].
  - by rewrite (decode_with_magic _ _ _ _ (generation_round _ _ Hj)).
  - rewrite (decode_with_magic PUBLICATION_COMMAND_MAGIC _ _ _ (publication_round _ _ Hj)).
    by rewrite !decode_with_other by done.
  - rewrite (decode_with_magic STAGED_COMMAND_MAGIC _ _ _ (staged_round _ _ Hj)).
    by rewrite !decode_with_other by done.
  - rewrite (decode_with_magic CELL_COMMAND_MAGIC _ _ _ (cell_round _ _ Hj)).
    by rewrite !decode_with_other by done.
  - rewrite (decode_with_magic COMMAND_MAGIC _ _ _ (client_round _ _ Hj)).
    by rewrite !decode_with_other by done.
Qed.
End codec.

(** ** The meaning of the canonical form *)

(** Mutations of distinct keys commute. *)
Definition mutation_effect (m : CellMutation) : option bytes :=
  match m with CClear _ => None | CSet _ value => Some value end.

Lemma apply_mutation_lookup rows m k :
  apply_mutation rows m !! k
    = if decide (mutation_key m = k) then mutation_effect m else rows !! k.
Proof. destruct m; cbn; case_decide; subst; by simplify_map_eq. Qed.

Lemma apply_mutations_lookup ms rows k :
  NoDup (mutation_key <$> ms) →
  (∃ m, m ∈ ms ∧ mutation_key m = k ∧ apply_mutations ms rows !! k = mutation_effect m) ∨
  (k ∉ mutation_key <$> ms) ∧ apply_mutations ms rows !! k = rows !! k.
Proof.
  unfold apply_mutations. revert rows. induction ms as [|m ms IH]; intros rows Hnd.
  { right. split; [set_solver|done]. }
  rewrite fmap_cons, NoDup_cons in Hnd. destruct Hnd as [Hm Hnd]. cbn [foldl].
  destruct (IH (apply_mutation rows m) Hnd) as [(m' & Hin & Hk & ->)|[Hk ->]].
  { left. exists m'. split_and!; [by constructor|done..]. }
  rewrite apply_mutation_lookup. case_decide as E.
  - left. exists m. split_and!; [constructor|done..].
  - right. split; [|done]. rewrite fmap_cons, not_elem_of_cons. auto.
Qed.

Lemma mutation_key_inj ms m m' :
  NoDup (mutation_key <$> ms) → m ∈ ms → m' ∈ ms → mutation_key m = mutation_key m' → m = m'.
Proof.
  intros Hnd [i Hi]%list_elem_of_lookup [j Hj]%list_elem_of_lookup E.
  assert (i = j) as ->; [|congruence].
  apply (NoDup_lookup (mutation_key <$> ms) i j (mutation_key m)); [done|..];
    rewrite list_lookup_fmap; [by rewrite Hi|by rewrite Hj, E].
Qed.

Lemma apply_mutations_same ms ms' rows :
  NoDup (mutation_key <$> ms) → NoDup (mutation_key <$> ms') → (∀ m, m ∈ ms ↔ m ∈ ms') →
  apply_mutations ms rows = apply_mutations ms' rows.
Proof.
  intros Hnd Hnd' Hiff. apply map_eq. intros k.
  assert (k ∈ mutation_key <$> ms ↔ k ∈ mutation_key <$> ms') as Hkeys.
  { rewrite !list_elem_of_fmap. naive_solver. }
  destruct (apply_mutations_lookup ms rows k Hnd) as [(m & Hm & Hk & ->)|[Hk ->]],
    (apply_mutations_lookup ms' rows k Hnd') as [(m' & Hm' & Hk' & ->)|[Hk' ->]].
  - f_equal. apply (mutation_key_inj ms); [done..|by apply Hiff|congruence].
  - destruct Hk'. apply Hkeys. rewrite <-Hk. by apply list_elem_of_fmap_2.
  - destruct Hk. apply Hkeys. rewrite <-Hk'. by apply list_elem_of_fmap_2.
  - done.
Qed.

Lemma existsb_same {A} (f : A → bool) l l' :
  (∀ x, x ∈ l ↔ x ∈ l') → existsb f l = existsb f l'.
Proof.
  intros Hiff. apply eq_true_iff_eq. rewrite !existsb_exists. setoid_rewrite <-list_elem_of_In.
  naive_solver.
Qed.
Lemma forallb_same {A} (f : A → bool) l l' :
  (∀ x, x ∈ l ↔ x ∈ l') → forallb f l = forallb f l'.
Proof.
  intros Hiff. apply eq_true_iff_eq. rewrite !forallb_forall. setoid_rewrite <-list_elem_of_In.
  naive_solver.
Qed.
Lemma contains_all_same l l' required :
  (∀ x, x ∈ l ↔ x ∈ l') → contains_all l required = contains_all l' required.
Proof.
  intros Hiff. unfold contains_all, set_of.
  assert (list_to_set l =@{gset N} list_to_set l') as -> by (apply set_eq; set_solver). done.
Qed.

Lemma size_list_to_set_le (l : list bytes) : size (list_to_set l : gset bytes) ≤ length l.
Proof.
  induction l as [|x l IH]; [by rewrite list_to_set_nil, size_empty|].
  rewrite list_to_set_cons, size_union_alt, size_singleton. cbn [length].
  assert (size (list_to_set l ∖ {[x]} : gset bytes) ≤ size (list_to_set l : gset bytes))
    by (apply subseteq_size; set_solver). lia.
Qed.

Lemma size_list_to_set_NoDup (l : list bytes) :
  size (list_to_set l : gset bytes) = length l ↔ NoDup l.
Proof.
  split; [|by intros; apply size_list_to_set].
  induction l as [|x l IH]; [constructor|]. cbn [length].
  rewrite list_to_set_cons. intros Hsz. destruct (decide (x ∈ l)) as [Hin|Hin].
  - assert ({[x]} ∪ list_to_set l =@{gset bytes} list_to_set l) as E by set_solver.
    rewrite E in Hsz. pose proof (size_list_to_set_le l). lia.
  - rewrite size_union, size_singleton in Hsz by set_solver.
    constructor; [done|]. apply IH. lia.
Qed.

Section canonical.
Context (c : CellTransactionCommand).
Let c' := canonicalize_transaction c.

Lemma canonical_mutations m : m ∈ ct_mutations c' ↔ m ∈ ct_mutations c.
Proof. apply elem_of_sort_dedup. Qed.

Lemma valid_request_keys : valid_request c = true → NoDup (mutation_key <$> ct_mutations c).
Proof.
  unfold valid_request. case_guards; [done|]. intros [Hs%Nat.eqb_eq _]%andb_true_iff.
  apply size_list_to_set_NoDup. by rewrite length_fmap.
Qed.

Lemma canonical_keys : valid_request c = true → NoDup (mutation_key <$> ct_mutations c').
Proof.
  intros Hv%valid_request_keys.
  assert (NoDup (ct_mutations c')) as Hnd.
  { pose proof (sort_dedup_sorted (ct_mutations c)) as Hs. unfold c'. cbn.
    induction Hs as [|x l _ IH Hx]; constructor; [|done].
    intros Hin. rewrite Forall_forall in Hx. specialize (Hx x Hin). key_order. }
  apply NoDup_fmap_2_strong; [|done]. intros m m' Hm Hm' E.
  rewrite canonical_mutations in Hm, Hm'.
  by apply (mutation_key_inj (ct_mutations c)).
Qed.

Lemma canonical_valid : valid_request c = true → valid_request c' = true.
Proof.
  intros Hv. pose proof (canonical_keys Hv) as Hnd. unfold valid_request in *.
  assert (existsb (λ r, negb (range_valid r)) (ct_read_conflicts c' ++ ct_write_conflicts c')
          = existsb (λ r, negb (range_valid r)) (ct_read_conflicts c ++ ct_write_conflicts c))
    as ->.
  { apply existsb_same. intros r. rewrite !elem_of_app. cbn. by rewrite !elem_of_sort_dedup. }
  assert (ct_mutations c' = [] → ct_mutations c = []) as Hnil.
  { intros E. apply elem_of_nil_inv. intros m. rewrite <-canonical_mutations, E. set_solver. }
  destruct (bool_decide (ct_mutations c = [])) eqn:E1; [done|].
  rewrite (bool_decide_false (ct_mutations c' = [])) by (apply bool_decide_eq_false in E1; auto).
  cbn [orb] in *. destruct (existsb _ _); [done|].
  apply andb_true_iff in Hv as [_ Hcov]. apply andb_true_iff. split.
  - apply Nat.eqb_eq. rewrite <-(length_fmap mutation_key). by apply size_list_to_set_NoDup.
  - rewrite (forallb_same _ _ _ canonical_mutations). rewrite <-Hcov.
    apply eq_true_iff_eq. rewrite !forallb_forall.
    assert (∀ m : CellMutation,
              existsb (λ range, range_contains range (mutation_key m)) (ct_write_conflicts c')
              = existsb (λ range, range_contains range (mutation_key m)) (ct_write_conflicts c))
      as Hw by (intros m; apply existsb_same; intros r; apply elem_of_sort_dedup).
    setoid_rewrite Hw. done.
Qed.

Lemma canonical_conflict d : committed_conflict d c' = committed_conflict d c.
Proof. unfold committed_conflict. apply existsb_same. intros r. apply elem_of_sort_dedup. Qed.
End canonical.

Section verdict.
Context (sha256 : bytes → bytes).
Context `{Ed25519} `{CellJson}.

Lemma direct_commit_rows d c i d' r :
  direct_commit sha256 d c i = Ok (d', r) →
  ctr_status r = TCommitted ∧ cd_rows d' = apply_mutations (ct_mutations c) (cd_rows d) ∧
  cd_latest_sequence d' = i.
Proof. unfold direct_commit. intros (e & _ & [= <- <-])%res_bind_Ok. by destruct d. Qed.

(** The canonical form of a transaction means the same. For a valid
    request that is resolved centrally, the verdict of [apply] on the sorted
    and deduplicated command is the verdict on the command as the client wrote
    it, and so are the rows and the version it leaves: sorting the mutations is
    harmless because a valid request has at most one per key. *)
Theorem canonical_same_verdict c i faults d d1 r1 d2 r2 :
  ct_partitioned_resolution c = None → valid_request c = true →
  direct_apply sha256 c i faults d = Ok (d1, r1) →
  direct_apply sha256 (canonicalize_transaction c) i faults d = Ok (d2, r2) →
  ctr_status r2 = ctr_status r1 ∧ cd_rows d2 = cd_rows d1 ∧
  cd_latest_sequence d2 = cd_latest_sequence d1.
Proof.
  intros Hn Hv. unfold direct_apply, resolver_evidence, direct_reject.
  assert (ct_partitioned_resolution (canonicalize_transaction c) = None) as ->
    by (cbn; by rewrite Hn).
  rewrite Hn, (canonical_valid _ Hv), Hv.
  rewrite (contains_all_same (ct_durable_log_tags (canonicalize_transaction c))
             (ct_durable_log_tags c)) by apply elem_of_sort_dedup.
  rewrite (contains_all_same (ct_accepted_resolvers (canonicalize_transaction c))
             (ct_accepted_resolvers c)) by apply elem_of_sort_dedup.
  cbn [canonicalize_transaction ct_generation ct_read_version negb].
  match goal with |- context [if ?b then ?x else d] => set (d0 := if b then x else d) end.
  cbn [res_bind]. clearbody d0. rewrite canonical_conflict.
  repeat match goal with
  | |- (if ?b then _ else _) = _ → _ =>
      destruct b eqn:?; [by intros [= <- <-] [= <- <-]|]
  end.
  intros (-> & -> & ->)%direct_commit_rows (-> & -> & ->)%direct_commit_rows.
  split_and!; [done| |done].
  apply apply_mutations_same; [by apply canonical_keys|by apply valid_request_keys|].
  intros m. apply canonical_mutations.
Qed.
End verdict.

(** *** Concrete commands *)
Module demo_codec.
Import demo_cell.
#[export] Instance ClientCommand_eq_dec : EqDecision ClientCommand.
Proof. solve_decision. Defined.
Definition client : ClientCommand :=
  {| ccm_identity := ident 1; ccm_credential := None; ccm_payload := [4; 5]%N |}.

(** A JSON form for that command only. *)
Definition no_json : CellJson :=
  {| json_ranges := λ _, None; json_mutations := λ _, None; json_transaction := λ _, None;
     json_partitions := λ _, None; json_decision := λ _, None; json_log := λ _, None;
     json_fence := λ _, None; json_prefix := λ _, None; json_window := λ _, None;
     json_capacity := λ _, None; json_repair := λ _, None; json_policy_stage := λ _, None;
     json_transition := λ _, None; json_repair_certificate := λ _, None;
     json_stage_certificate := λ _, None |}.
Definition client_json : CommandJson :=
  {| json_generation_command := λ _, None; json_publication_command := λ _, None;
     json_staged_command := λ _, None;
     json_client_command := λ c, if decide (c = client) then Some [9%N] else None;
     generation_from_slice := λ _, None; publication_from_slice := λ _, None;
     staged_from_slice := λ _, None; cell_from_slice := λ _, None;
     client_from_slice := λ _, Some client |}.

Lemma client_json_round (c : ClientCommand) b :
  @json_client_command client_json c = Some b → @client_from_slice client_json b = Some c.
Proof. cbn. case_decide; [|done]. by subst. Qed.

(** A transaction whose mutations and ranges are not in order. *)
Definition shuffled : CellTransactionCommand :=
  { txn 1 0 [] key_a 1 with
    ct_write_conflicts := [range_point key_b; range_point key_a];
    ct_mutations := [CSet key_b [2%N]; CSet key_a [1%N]] }.
Definition applied (c : CellTransactionCommand) :=
  direct_apply prefix_digest c 5 no_fence_faults fresh.
Definition reply_or := ok_or (E := CommitCodecError) (direct_reject fresh shuffled TConflict).
End demo_codec.
Import demo_cell demo_codec.

Lemma command_dispatch_exact_witness :
  @decode_command client_json (COMMAND_MAGIC ++ [9%N]) = Decoded (AnyClient client).
Proof.
  refine (@command_dispatch_exact no_json client_json _ _ _ _ _ (AnyClient client) _ _).
  - intros c b Hb. discriminate Hb.
  - intros c b Hb. discriminate Hb.
  - intros c b Hb. discriminate Hb.
  - intros c b Hb. discriminate Hb.
  - exact client_json_round.
  - vm_compute. reflexivity.
Defined.

Lemma canonical_same_verdict_witness :
  ct_mutations (canonicalize_transaction shuffled) = reverse (ct_mutations shuffled) ∧
  ctr_status (reply_or (applied (canonicalize_transaction shuffled))).2 = TCommitted ∧
  cd_rows (reply_or (applied (canonicalize_transaction shuffled))).1
    = cd_rows (reply_or (applied shuffled)).1.
Proof.
  split; [vm_compute; reflexivity|]. split; [vm_compute; reflexivity|].
  refine (proj1 (proj2 (canonical_same_verdict prefix_digest shuffled 5 no_fence_faults fresh
    (reply_or (applied shuffled)).1 (reply_or (applied shuffled)).2
    (reply_or (applied (canonicalize_transaction shuffled))).1
    (reply_or (applied (canonicalize_transaction shuffled))).2 _ _ _ _)));
    vm_compute; reflexivity.
Defined.
