(* ===== verification/RaftLog.v ===== *)
(** * The OpenRaft log adapter

    [okv-consensus/src/lib.rs]: [OpenRaftLogStore] stores OpenRaft's vote,
    committed id, purge marker and log entries in the node journal of
    [Journal.v]. The store and the readers cloned from it share one journal
    behind a mutex, so every call is a function of that journal. OpenRaft's
    [Vote] and the JSON of [serde_json] are parameters ([RaftJson]). The text of
    an error is represented by what it is the text of ([LogCause]).

    The second half specifies the storage OpenRaft expects ([raft_log]): a vote,
    a committed id, a purge marker and entries by index, changed by a handful of
    operations. Every run of the adapter, with refused calls, crashes in the middle
    of a write and restarts, is a run of that specification, and every read answers
    with the specification's value. *)

From S2P Require Import Prelude Order BTree Bytes Journal StateMachine JournalCodec.
From S2P Require Import JournalRuns.

(** ** Errors *)
Inductive ErrorSubject := SubjectVote | SubjectLogs | SubjectLog (log_id : LogId)
  | SubjectLogIndex (index : N).
Inductive ErrorVerb := VerbRead | VerbWrite | VerbDelete.

(** What [storage_error] is given to display. *)
Inductive LogCause :=
  | CauseJson (text : string)
  | CauseJournal (error : JournalError)
  | CauseEntryIndex (index encoded : N)
  | CauseMarkerIndex.

Record StorageError := { se_subject : ErrorSubject; se_verb : ErrorVerb; se_cause : LogCause }.

Definition storage_error (subject : ErrorSubject) (verb : ErrorVerb) (cause : LogCause)
    : StorageError := {| se_subject := subject; se_verb := verb; se_cause := cause |}.

(** ** JSON *)
Class RaftJson (Membership Vote : Type) := {
  vote_to_vec : Vote → res string bytes;
  vote_from_slice : bytes → res string Vote;
  log_id_to_vec : LogId → res string bytes;
  log_id_from_slice : bytes → res string LogId;
  entry_to_vec : @Entry Membership → res string bytes;
  entry_from_slice : bytes → res string (@Entry Membership);
}.

(** [Option::transpose] of a mapped option. *)
Definition transpose {E A B} (f : A → res E B) (o : option A) : res E (option B) :=
  match o with
  | Some a => res_map Some (f a)
  | None => Ok None
  end.

(** [LogState]. *)
Record LogState := { last_purged_log_id : option LogId; last_log_id : option LogId }.

Section adapter.
Context {Membership Vote : Type} `{!RaftJson Membership Vote} (sha256 : bytes → bytes).
Abbreviation Entry := (@Entry Membership).

Definition decode_entry (index : N) (bs : bytes) : res StorageError Entry :=
  let? entry := map_err (λ e, storage_error (SubjectLogIndex index) VerbRead (CauseJson e))
                  (entry_from_slice bs) in
  if negb (li_index (en_log_id entry) =? index)%N
  then Err (storage_error (SubjectLogIndex index) VerbRead
              (CauseEntryIndex index (li_index (en_log_id entry))))
  else Ok entry.

Definition decode_marker (marker : JournalMarker) : res StorageError LogId :=
  let? log_id := map_err (λ e, storage_error (SubjectLogIndex (marker_index marker)) VerbRead
                                 (CauseJson e))
                   (log_id_from_slice (marker_payload marker)) in
  if negb (li_index log_id =? marker_index marker)%N
  then Err (storage_error (SubjectLogIndex (marker_index marker)) VerbRead CauseMarkerIndex)
  else Ok log_id.

(** ** Reads *)

(** [try_get_log_entries] for a range given by its membership test. *)
Definition try_get_log_entries (j : NodeJournal) (range : N → bool)
    : res StorageError (list Entry) :=
  res_collect (λ e, decode_entry e.1 e.2) (entries_in (nj_state j) range).

Definition get_log_state (j : NodeJournal) : res StorageError LogState :=
  let? purged := transpose decode_marker (js_last_purged (nj_state j)) in
  let? last := transpose (λ e, res_map en_log_id (decode_entry e.1 e.2))
                 (last_entry (nj_state j)) in
  Ok {| last_purged_log_id := purged;
        last_log_id := match last with Some id => Some id | None => purged end |}.

Definition read_vote (j : NodeJournal) : res StorageError (option Vote) :=
  transpose (λ bs, map_err (λ e, storage_error SubjectVote VerbRead (CauseJson e))
                     (vote_from_slice bs)) (js_vote (nj_state j)).

Definition read_committed (j : NodeJournal) : res StorageError (option LogId) :=
  transpose (λ bs, map_err (λ e, storage_error SubjectLogs VerbRead (CauseJson e))
                     (log_id_from_slice bs)) (js_committed (nj_state j)).

(** ** Writes *)

(** A journal call whose error becomes a storage error. *)
Definition journal_call (subject : ErrorSubject) (verb : ErrorVerb)
    (answer : NodeJournal * res JournalError unit) : NodeJournal * res StorageError unit :=
  (answer.1, map_err (λ e, storage_error subject verb (CauseJournal e)) answer.2).

(** A journal call that needs an encoding, when encoding succeeds. *)
Definition with_encoded {A} (j : NodeJournal) (encoded : res StorageError A)
    (k : A → NodeJournal * res StorageError unit) : NodeJournal * res StorageError unit :=
  match encoded with
  | Ok a => k a
  | Err e => (j, Err e)
  | Panic => (j, Panic)
  end.

Definition encode_entry (entry : Entry) : res StorageError (N * bytes) :=
  map_err (λ e, storage_error (SubjectLog (en_log_id entry)) VerbWrite (CauseJson e))
    (res_map (λ bs, (li_index (en_log_id entry), bs)) (entry_to_vec entry)).

Definition persist_entries (j : NodeJournal) (entries : list Entry) (d : option nat)
    : NodeJournal * res StorageError unit :=
  with_encoded j (res_collect encode_entry entries) (λ encoded,
    journal_call SubjectLogs VerbWrite (append sha256 j encoded d)).

Definition log_save_vote (j : NodeJournal) (vote : Vote) (d : option nat)
    : NodeJournal * res StorageError unit :=
  with_encoded j
    (map_err (λ e, storage_error SubjectVote VerbWrite (CauseJson e)) (vote_to_vec vote))
    (λ bs, journal_call SubjectVote VerbWrite (save_vote sha256 j bs d)).

Definition log_save_committed (j : NodeJournal) (committed : option LogId) (d : option nat)
    : NodeJournal * res StorageError unit :=
  with_encoded j
    (map_err (λ e, storage_error SubjectLogs VerbWrite (CauseJson e))
       (transpose log_id_to_vec committed))
    (λ encoded, journal_call SubjectLogs VerbWrite (save_committed sha256 j encoded d)).

(** [append]; the last component is whether the flush callback was completed. *)
Definition log_append (j : NodeJournal) (entries : list Entry) (d : option nat)
    : NodeJournal * res StorageError unit * bool :=
  match persist_entries j entries d with
  | (j', Ok tt) => (j', Ok tt, true)
  | (j', r) => (j', r, false)
  end.

Definition log_truncate (j : NodeJournal) (log_id : LogId) (d : option nat)
    : NodeJournal * res StorageError unit :=
  journal_call (SubjectLog log_id) VerbDelete (truncate sha256 j (li_index log_id) d).

Definition log_purge (j : NodeJournal) (log_id : LogId) (d : option nat)
    : NodeJournal * res StorageError unit :=
  with_encoded j
    (map_err (λ e, storage_error (SubjectLog log_id) VerbWrite (CauseJson e))
       (log_id_to_vec log_id))
    (λ payload, journal_call (SubjectLog log_id) VerbDelete
       (purge sha256 j {| marker_index := li_index log_id; marker_payload := payload |} d)).
End adapter.

(** ** The specification *)
Section spec.
Context {Membership Vote : Type}.
Abbreviation Entry := (@Entry Membership).

Record raft_log := {
  rl_vote : option Vote;
  rl_committed : option LogId;
  rl_purged : option LogId;
  rl_entries : gmap N Entry;
}.
Definition raft_log_empty : raft_log :=
  {| rl_vote := None; rl_committed := None; rl_purged := None; rl_entries := ∅ |}.

(** The atomic changes of a log. *)
Inductive log_change :=
  | SetVote (vote : Vote)
  | SetCommitted (committed : option LogId)
  | Put (entry : Entry)
  | DropFrom (index : N)
  | PurgeTo (log_id : LogId).

Definition entry_index (entry : Entry) : N := li_index (en_log_id entry).

Definition change (l : raft_log) (c : log_change) : raft_log :=
  match c with
  | SetVote vote =>
      {| rl_vote := Some vote; rl_committed := rl_committed l; rl_purged := rl_purged l;
         rl_entries := rl_entries l |}
  | SetCommitted committed =>
      {| rl_vote := rl_vote l; rl_committed := committed; rl_purged := rl_purged l;
         rl_entries := rl_entries l |}
  | Put entry =>
      {| rl_vote := rl_vote l; rl_committed := rl_committed l; rl_purged := rl_purged l;
         rl_entries := <[entry_index entry := entry]> (rl_entries l) |}
  | DropFrom index =>
      {| rl_vote := rl_vote l; rl_committed := rl_committed l; rl_purged := rl_purged l;
         rl_entries := filter (λ p, p.1 < index)%N (rl_entries l) |}
  | PurgeTo log_id =>
      {| rl_vote := rl_vote l; rl_committed := rl_committed l; rl_purged := Some log_id;
         rl_entries := filter (λ p, li_index log_id < p.1)%N (rl_entries l) |}
  end.

(** The calls of OpenRaft that change the log. *)
Inductive log_call :=
  | SaveVote (vote : Vote)
  | SaveCommitted (committed : option LogId)
  | AppendEntries (entries : list Entry)
  | TruncateFrom (log_id : LogId)
  | PurgeUpto (log_id : LogId).

(** The entries of a batch that are not purged already. *)
Definition unpurged (l : raft_log) (entries : list Entry) : list Entry :=
  match rl_purged l with
  | Some id => List.filter (λ e, li_index id <? entry_index e)%N entries
  | None => entries
  end.

(** The changes a call stands for, in order: an append replaces everything from
    its first entry on. *)
Definition changes (l : raft_log) (c : log_call) : list log_change :=
  match c with
  | SaveVote vote => [SetVote vote]
  | SaveCommitted committed => [SetCommitted committed]
  | AppendEntries entries =>
      match unpurged l entries with
      | [] => []
      | first :: rest => DropFrom (entry_index first) :: (Put <$> first :: rest)
      end
  | TruncateFrom log_id => [DropFrom (li_index log_id)]
  | PurgeUpto log_id => [PurgeTo log_id]
  end.

(** What happens to a log: a call is done, refused without effect, or cut off
    by a crash after some of its changes; or the node restarts. *)
Inductive log_event := Done (c : log_call) | Refused (c : log_call) | Crashed (c : log_call)
  | Restarted.

Definition spec_step (l : raft_log) (e : log_event) (l' : raft_log) : Prop :=
  match e with
  | Done c => l' = foldl change l (changes l c)
  | Refused _ => l' = l
  | Crashed c => ∃ k, l' = foldl change l (take k (changes l c))
  | Restarted => l' = l
  end.

Inductive spec_run : list log_event → raft_log → Prop :=
  | spec_start : spec_run [] raft_log_empty
  | spec_next es l e l' : spec_run es l → spec_step l e l' → spec_run (es ++ [e]) l'.

(** Batches come with ascending indexes that fit their width. *)
Definition call_ok (c : log_call) : Prop :=
  match c with
  | AppendEntries entries =>
      StronglySorted N.lt (entry_index <$> entries) ∧ Forall (λ e, u64_wf (entry_index e)) entries
  | TruncateFrom id | PurgeUpto id => u64_wf (li_index id)
  | _ => True
  end.
End spec.
Arguments raft_log : clear implicits.
Arguments log_call : clear implicits.
Arguments log_event : clear implicits.
Arguments log_change : clear implicits.

(** JSON reads back what it wrote, and no value has an empty text. *)
Record raft_json_ok {Membership Vote} `{!RaftJson Membership Vote} : Prop := {
  rj_vote v b : vote_to_vec v = Ok b → vote_from_slice b = Ok v ∧ b ≠ [];
  rj_log_id i b : log_id_to_vec i = Ok b → log_id_from_slice b = Ok i ∧ b ≠ [];
  rj_entry e b : entry_to_vec e = Ok b → entry_from_slice b = Ok e;
}.
Arguments raft_json_ok Membership Vote {_}.

(** Related maps list related entries under the same keys. *)
Section related.
Context {A B : Type} (R : N → A → B → Prop) (m1 : gmap N A) (m2 : gmap N B).
Context (related : ∀ i, option_Forall2 (R i) (m1 !! i) (m2 !! i)).

Definition entry_related (p : N * A) (q : N * B) : Prop := p.1 = q.1 ∧ R p.1 p.2 q.2.

Lemma related_counterparts l :
  (∀ p, p ∈ l → m1 !! p.1 = Some p.2) →
  Forall2 entry_related l (omap (λ p, pair p.1 <$> m2 !! p.1) l).
Proof.
  induction l as [|[i a] l IH]; intros Hl; [constructor|].
  pose proof (Hl (i, a) ltac:(left)) as Hi. pose proof (related i) as Hr. simpl in Hi.
  rewrite Hi in Hr. inversion Hr as [? b Hab Ha Hb|]; subst. cbn. rewrite <-Hb. simpl.
  constructor; [done|]. apply IH. intros p Hp. apply Hl. by right.
Qed.

Lemma related_sorted l1 l2 : Forall2 entry_related l1 l2 → keys_sorted l1 → keys_sorted l2.
Proof.
  induction 1 as [|p q l1 l2 [Hpq _] Hl IH]; intros Hs; [constructor|].
  apply StronglySorted_inv in Hs as [Hs Hp]. constructor; [by apply IH|].
  clear IH Hs. induction Hl as [|p' q' l1 l2 [Hpq' _] _ IH]; [constructor|].
  apply Forall_cons in Hp as [Hp Hps]. constructor; [|by apply IH].
  unfold entry_lt in *. by rewrite <-Hpq, <-Hpq'.
Qed.

Lemma bt_range_related f : Forall2 entry_related (bt_range f m1) (bt_range f m2).
Proof.
  assert (Forall2 entry_related (bt_range f m1)
            (omap (λ p, pair p.1 <$> m2 !! p.1) (bt_range f m1))) as H.
  { apply related_counterparts. by intros [i a] [Hi _]%elem_of_bt_range. }
  replace (bt_range f m2) with (omap (λ p, pair p.1 <$> m2 !! p.1) (bt_range f m1)); [done|].
  apply keys_sorted_ext.
  - eapply related_sorted; [done|apply bt_range_sorted].
  - apply bt_range_sorted.
  - intros [i b]. rewrite elem_of_bt_range, list_elem_of_omap. split.
    + intros ([k a] & [_ Hf]%elem_of_bt_range & Hb). simpl in Hb.
      destruct (m2 !! k) eqn:Hk; [|done]. by injection Hb as <- <-.
    + intros [Hb Hf]. pose proof (related i) as Hr. rewrite Hb in Hr.
      inversion Hr as [a ? _ Ha|]; subst. exists (i, a).
      rewrite elem_of_bt_range. simpl. by rewrite Hb.
Qed.

Lemma bt_last_related : option_Forall2 entry_related (bt_last m1) (bt_last m2).
Proof.
  rewrite !bt_last_range. unfold bt_range_last.
  induction (bt_range_related (λ _, true)) as [|p q l1 l2 Hpq Hl IH]; [constructor|].
  rewrite !last_cons. by destruct IH; constructor.
Qed.
End related.

(** ** The runs of the adapter *)
Section runs.
Context {Membership Vote : Type} `{!RaftJson Membership Vote} (sha256 : bytes → bytes).
Abbreviation Entry := (@Entry Membership).
Abbreviation log := (raft_log Membership Vote).
Abbreviation call := (log_call Membership Vote).

Definition log_do (j : NodeJournal) (c : call) (d : option nat)
    : NodeJournal * res StorageError unit :=
  match c with
  | SaveVote vote => log_save_vote sha256 j vote d
  | SaveCommitted committed => log_save_committed sha256 j committed d
  | AppendEntries entries => (log_append sha256 j entries d).1
  | TruncateFrom log_id => log_truncate sha256 j log_id d
  | PurgeUpto log_id => log_purge sha256 j log_id d
  end.

Definition log_step (j : NodeJournal) (e : log_event Membership Vote) (j' : NodeJournal) : Prop :=
  match e with
  | Done c => call_ok c ∧ log_do j c None = (j', Ok tt)
  | Refused c => call_ok c ∧ ∃ error, log_do j c None = (j', Err error)
  | Crashed c => call_ok c ∧ ∃ n j1 error, log_do j c (Some n) = (j1, Err error) ∧
      open sha256 (nj_file j1) = Ok j'
  | Restarted => open sha256 (nj_file j) = Ok j'
  end.

Inductive log_run : list (log_event Membership Vote) → NodeJournal → Prop :=
  | log_start j : open sha256 [] = Ok j → log_run [] j
  | log_next es j e j' : log_run es j → log_step j e j' → log_run (es ++ [e]) j'.

(** The journal's state represents a log. *)
Record represents (st : JournalState) (l : log) : Prop := {
  rep_vote : option_Forall2 (λ b v, vote_from_slice b = Ok v) (js_vote st) (rl_vote l);
  rep_committed :
    option_Forall2 (λ b i, log_id_from_slice b = Ok i) (js_committed st) (rl_committed l);
  rep_purged : option_Forall2 (λ m i, log_id_from_slice (marker_payload m) = Ok i ∧
                                      li_index i = marker_index m) (js_last_purged st) (rl_purged l);
  rep_entries i : option_Forall2 (λ b e, entry_from_slice b = Ok e ∧ entry_index e = i)
                    (js_entries st !! i) (rl_entries l !! i);
}.

(** A journal record stands for a change. *)
Definition encodes (r : JRecord) (c : log_change Membership Vote) : Prop :=
  record_ok r ∧
  match r, c with
  | RVote b, SetVote v => vote_from_slice b = Ok v
  | RCommitted o, SetCommitted o' => option_Forall2 (λ b i, log_id_from_slice b = Ok i) o o'
  | RAppend i b, Put e => entry_from_slice b = Ok e ∧ entry_index e = i
  | RTruncate i, DropFrom i' => i = i'
  | RPurge m, PurgeTo id => log_id_from_slice (marker_payload m) = Ok id ∧ li_index id = marker_index m
  | _, _ => False
  end.

Lemma represents_default : represents JournalState_default raft_log_empty.
Proof. split; constructor. Qed.

(** Dropping the same indexes on both sides keeps the entries related. *)
Lemma removed_entries (f : N → bool) (P : N → Prop) `{!∀ i, Decision (P i)} st l i :
  (∀ i, f i = false ↔ P i) → represents st l →
  option_Forall2 (λ b e, entry_from_slice b = Ok e ∧ entry_index e = i)
    (remove_range f (js_entries st) !! i) (filter (λ p, P p.1) (rl_entries l) !! i).
Proof.
  intros Hf R. rewrite remove_range_lookup, map_lookup_filter.
  pose proof (rep_entries _ _ R i) as Hi. destruct (f i) eqn:E.
  - destruct (rl_entries l !! i); simpl; [|constructor]. rewrite option_guard_False; [constructor|].
    rewrite <-(Hf i), E. done.
  - destruct Hi as [b e He|]; simpl; [|constructor].
    rewrite option_guard_True by (by apply Hf). by constructor.
Qed.

Lemma encodes_step st l r c st' :
  represents st l → encodes r c → apply_record st r = Ok st' → represents st' (change l c).
Proof.
  intros R [_ He] Happ. pose proof R as [Rv Rc Rp Re].
  destruct r as [b|o|i b|i|m], c as [v|o'|e|i'|id]; try done; simpl in He.
  - injection Happ as <-. split; simpl; auto. by constructor.
  - injection Happ as <-. by split.
  - apply apply_append_Ok in Happ as [_ ->]. destruct He as [He <-]. split; simpl; auto.
    intros i. destruct (decide (entry_index e = i)) as [<-|Hne].
    + rewrite !lookup_insert_eq. by constructor.
    + by rewrite !lookup_insert_ne.
  - subst i'. assert (st' = {| js_vote := js_vote st; js_committed := js_committed st;
       js_last_purged := js_last_purged st;
       js_entries := remove_range (λ k, i <=? k)%N (js_entries st) |}) as ->.
    { simpl in Happ. repeat case_match; congruence. }
    split; simpl; auto. intros k. refine (removed_entries (λ k, i <=? k)%N (λ k, k < i)%N st l k _ R).
    intros k'. by rewrite N.leb_gt.
  - assert (st' = {| js_vote := js_vote st; js_committed := js_committed st;
       js_last_purged := Some m;
       js_entries := remove_range (λ k, k <=? marker_index m)%N (js_entries st) |}) as ->.
    { simpl in Happ. repeat case_match; congruence. }
    destruct He as [He Hi]. split; simpl; auto; [by constructor|].
    intros k.
    refine (removed_entries (λ k, k <=? marker_index m)%N (λ k, li_index id < k)%N st l k _ R).
    intros k'. by rewrite N.leb_gt, Hi.
Qed.

Lemma encodes_steps rs cs st l st' :
  Forall2 encodes rs cs → represents st l → apply_records st rs = Ok st' →
  represents st' (foldl change l cs).
Proof.
  intros Hrs. revert st l. induction Hrs as [|r c rs cs Hr _ IH]; intros st l R; simpl.
  { by intros [= <-]. }
  intros H. inv_bind H. eapply IH; [|done]. by eapply encodes_step.
Qed.

(** Records that stand for the changes of a call; the journal leaves out a drop
    that removes nothing. *)
Definition stands_for (l : log) (c : call) (rs : list JRecord) : Prop :=
  ∃ cs, Forall2 encodes rs cs ∧
    (changes l c = cs ∨ ∃ i, changes l c = DropFrom i :: cs ∧ change l (DropFrom i) = l).

Lemma stands_for_ok l c rs : stands_for l c rs → Forall record_ok rs.
Proof.
  intros (cs & Hcs & _). induction Hcs as [|r c' rs cs [Hr _] _ IH]; by constructor.
Qed.

(** A prefix of the records is a prefix of the changes, all of them all. *)
Lemma stands_for_prefix l c rs st k st' :
  stands_for l c rs → represents st l → apply_records st (take k rs) = Ok st' →
  ∃ k', represents st' (foldl change l (take k' (changes l c))) ∧
    (length rs ≤ k → length (changes l c) ≤ k').
Proof.
  intros (cs & Hcs & Hch) R Happ. pose proof (Forall2_length _ _ _ Hcs) as Hlen.
  pose proof (encodes_steps _ _ _ _ _ (Forall2_take _ _ _ k Hcs) R Happ) as R'.
  destruct Hch as [->|(i & -> & Hi)].
  - exists k. split; [done|]. lia.
  - exists (S k). cbn [take foldl]. rewrite Hi. split; [done|]. simpl. lia.
Qed.

Lemma stands_for_all l c rs st st' :
  stands_for l c rs → represents st l → apply_records st rs = Ok st' →
  represents st' (foldl change l (changes l c)).
Proof.
  intros Hs R Happ. destruct (stands_for_prefix l c rs st (length rs) st' Hs R) as (k & R' & Hk).
  { by rewrite firstn_all. }
  by rewrite take_ge in R' by (by apply Hk).
Qed.

(** ** The journal calls of the adapter *)
Section calls.
Context (json : raft_json_ok Membership Vote).

(** An entry and the pair the adapter hands to the journal for it. *)
Definition encoded_as (e : Entry) (p : N * bytes) : Prop :=
  p.1 = entry_index e ∧ entry_from_slice p.2 = Ok e.

Lemma encode_entries_spec entries encoded :
  res_collect encode_entry entries = Ok encoded → Forall2 encoded_as entries encoded.
Proof.
  rewrite res_collect_Ok. intros Hall. apply (Forall2_impl _ _ _ _ Hall). intros e p He. unfold encode_entry in He.
  destruct (entry_to_vec e) as [b| |] eqn:Hb; try done. injection He as <-.
  split; [done|]. by apply (rj_entry json).
Qed.

Lemma encoded_filter (f : N → bool) entries encoded :
  Forall2 encoded_as entries encoded →
  Forall2 encoded_as (List.filter (λ e, f (entry_index e)) entries)
    (List.filter (λ p, f p.1) encoded).
Proof.
  induction 1 as [|e p es ps [Hi He] _ IH]; simpl; [constructor|].
  rewrite Hi. destruct (f (entry_index e)); [|done]. by constructor.
Qed.

Lemma encoded_indexes entries encoded :
  Forall2 encoded_as entries encoded → encoded.*1 = entry_index <$> entries.
Proof. induction 1 as [|e p es ps [Hi _] _ IH]; [done|]. cbn. by rewrite Hi, <-IH. Qed.

Lemma encoded_live st l entries encoded :
  represents st l → Forall2 encoded_as entries encoded →
  StronglySorted N.lt (entry_index <$> entries) →
  Forall2 encoded_as (unpurged l entries) (live_entries st encoded).
Proof.
  intros R He Hs. rewrite live_entries_ascending by (by rewrite (encoded_indexes _ _ He)).
  unfold unpurged. destruct (rep_purged _ _ R) as [m i [_ Hi]|]; [|done].
  rewrite Hi. by apply (encoded_filter (λ k, marker_index m <? k)%N).
Qed.

Lemma encoded_puts entries encoded :
  Forall2 encoded_as entries encoded → Forall (λ e, u64_wf (entry_index e)) entries →
  Forall2 encodes (appends encoded) (Put <$> entries).
Proof.
  induction 1 as [|e p es ps [Hi He] _ IH]; intros Hw; [constructor|].
  apply Forall_cons in Hw as [Hw Hws]. constructor; [|by apply IH].
  split; [by rewrite Hi|]. done.
Qed.

Lemma unpurged_Forall (P : Entry → Prop) (l : log) entries : Forall P entries → Forall P (unpurged l entries).
Proof.
  unfold unpurged. destruct (rl_purged l) as [id|]; [|done]. rewrite !Forall_forall.
  intros H x Hx. apply H. apply list_elem_of_In, filter_In in Hx as [Hx _]. by apply list_elem_of_In.
Qed.

(** The plan drops what overlaps, or nothing overlaps. *)
Lemma plan_prefix_cases st first prefix :
  plan_prefix st first = Ok prefix →
  prefix = [RTruncate first] ∨
  prefix = [] ∧ ∀ k, is_Some (js_entries st !! k) → (k < first)%N.
Proof.
  unfold plan_prefix. destruct (last_entry st) as [[last q]|] eqn:Hl.
  - apply last_entry_Some in Hl as [_ Hmax]. destruct (first <=? last)%N eqn:Hle.
    + intros [= <-]. by left.
    + apply N.leb_gt in Hle. case_match; [done|]. intros [= <-]. right. split; [done|].
      intros k Hk. specialize (Hmax k Hk). lia.
  - apply last_entry_None in Hl. rewrite Hl. intros H. right.
    split; [repeat case_match; congruence|]. intros k [? Hk]. by rewrite lookup_empty in Hk.
Qed.

Lemma plan_stands_for st l entries encoded rs :
  represents st l → Forall2 encoded_as entries encoded → call_ok (AppendEntries (Vote:=Vote) entries) →
  plan_append st encoded = Ok rs → stands_for l (AppendEntries entries) rs.
Proof.
  intros R He [Hs Hw] Hplan. pose proof (encoded_live _ _ _ _ R He Hs) as Hlive.
  apply (unpurged_Forall _ l) in Hw. unfold plan_append in Hplan.
  destruct (live_entries st encoded) as [|[first p] rest].
  { injection Hplan as <-. exists []. split; [constructor|]. left. simpl.
    by inversion Hlive. }
  inv_bind Hplan. inv_bind Hplan. injection Hplan as <-.
  pose proof (encoded_puts _ _ Hlive Hw) as Hputs. unfold stands_for, changes.
  destruct (unpurged l entries) as [|e es]; [by inversion Hlive|].
  apply Forall2_cons in Hlive as [[Hfirst _] _]. simpl in Hfirst. subst first.
  apply Forall_cons in Hw as [Hwe _].
  destruct (plan_prefix_cases _ _ _ Hbind0) as [->|[-> Hbelow]].
  - eexists. split; [|by left]. constructor; [|done]. done.
  - eexists. split; [apply Hputs|]. right. eexists. split; [done|].
    destruct l as [v c pu en]. unfold change. simpl. f_equal. apply map_filter_id. intros k x Hk.
    apply Hbelow. pose proof (rep_entries _ _ R k) as Hr. simpl in Hr. rewrite Hk in Hr.
    by inversion Hr.
Qed.

(** A call changes nothing, or persists records that stand for its changes. *)
Definition persists (j : NodeJournal) (l : log) (c : call) (d : option nat) (j' : NodeJournal)
    (r : res StorageError unit) : Prop :=
  (j' = j ∧ (r = Ok tt → changes l c = [])) ∨
  ∃ rs r0 f, stands_for l c rs ∧ persist_batch sha256 j rs d = (j', r0) ∧ r = map_err f r0.

Lemma journal_call_persists j l c d subject verb rs j' r :
  stands_for l c rs →
  journal_call subject verb (persist_batch sha256 j rs d) = (j', r) → persists j l c d j' r.
Proof.
  intros Hs H. right. unfold journal_call in H.
  destruct (persist_batch sha256 j rs d) as [j1 r0] eqn:Hp. injection H as <- <-. eauto 6.
Qed.

Lemma with_encoded_persists {A} j l c d (encoded : res StorageError A) k j' r :
  with_encoded j encoded k = (j', r) →
  (∀ a, encoded = Ok a → k a = (j', r) → persists j l c d j' r) → persists j l c d j' r.
Proof.
  destruct encoded as [a|e|]; simpl; intros H Hk; [by eapply Hk| |];
    injection H as <- <-; by left.
Qed.

Lemma log_append_persists j l entries d j' r :
  represents (nj_state j) l → call_ok (AppendEntries (Vote:=Vote) entries) →
  persist_entries sha256 j entries d = (j', r) → persists j l (AppendEntries entries) d j' r.
Proof.
  intros R Hok H. eapply with_encoded_persists; [exact H|].
  intros encoded Henc%encode_entries_spec Hcall. unfold append in Hcall.
  destruct encoded as [|e0 encoded].
  { injection Hcall as <- <-. left. split; [done|]. intros _. inversion Henc; subst. simpl.
    unfold unpurged. by destruct (rl_purged l). }
  destruct (plan_append _ _) as [rs|e|] eqn:Hplan; [|injection Hcall as <- <-; by left..].
  eapply journal_call_persists; [|exact Hcall]. by eapply plan_stands_for.
Qed.

Lemma stands_for_one l c r ch :
  changes l c = [ch] → encodes r ch → stands_for l c [r].
Proof. intros Hc He. exists [ch]. split; [|by left].
  apply Forall2_cons. by split; [|apply Forall2_nil]. Qed.

Lemma log_do_persists j l c d j' r :
  represents (nj_state j) l → call_ok c → log_do j c d = (j', r) → persists j l c d j' r.
Proof.
  intros R Hok H. destruct c as [vote|committed|entries|id|id].
  - eapply with_encoded_persists; [exact H|]. intros b Hb Hcall.
    destruct (vote_to_vec vote) as [b'| |] eqn:Hv; try done. injection Hb as ->.
    apply (rj_vote json) in Hv as [Hv Hne].
    eapply journal_call_persists; [|exact Hcall]. by eapply stands_for_one.
  - eapply with_encoded_persists; [exact H|]. intros o Ho Hcall.
    eapply journal_call_persists; [|exact Hcall]. eapply stands_for_one; [done|].
    destruct committed as [id|]; simpl in Ho; [|injection Ho as <-; split; [done|constructor]].
    destruct (log_id_to_vec id) as [b| |] eqn:Hv; try done. injection Ho as <-.
    apply (rj_log_id json) in Hv as [Hv Hne]. split; [done|by constructor].
  - apply log_append_persists; [done..|]. simpl in H. unfold log_append in H.
    destruct (persist_entries sha256 j entries d) as [j1 [[]| |]]; by injection H as <- <-.
  - eapply journal_call_persists; [|exact H]. by eapply stands_for_one.
  - eapply with_encoded_persists; [exact H|]. intros b Hb Hcall.
    destruct (log_id_to_vec id) as [b'| |] eqn:Hv; try done. injection Hb as ->.
    apply (rj_log_id json) in Hv as [Hv Hne].
    eapply journal_call_persists; [|exact Hcall]. by eapply stands_for_one.
Qed.

(** ** Simulation *)
Context (sha256_len : digest_len sha256).

Definition simulates (j : NodeJournal) (l : log) : Prop :=
  represents (nj_state j) l ∧ journal_ok sha256 j.

Lemma simulates_reopen j l :
  simulates j l → ∃ j', open sha256 (nj_file j) = Ok j' ∧ simulates j' l.
Proof.
  intros [R J]. eexists. split; [by apply journal_ok_reopen|]. by split.
Qed.

Lemma persist_Err j rs d j' e :
  persist_batch sha256 j rs d = (j', Err e) →
  j' = j ∨ ∃ n next frames, d = Some n ∧ apply_records (nj_state j) rs = Ok next ∧
    res_collect (encode_record sha256) rs = Ok frames ∧
    nj_file j' = nj_file j ++ take n (mjoin frames).
Proof.
  unfold persist_batch.
  destruct (apply_records _ _) as [next|e'|], (res_collect _ _) as [frames|e''|];
    try (intros [= <- _]; by left); try done.
  destruct d as [n|]; [|done]. intros [= <- _]. right. eauto 8.
Qed.

Lemma persist_acknowledged j rs d j' :
  persist_batch sha256 j rs d = (j', Ok tt) → persist_batch sha256 j rs None = (j', Ok tt).
Proof. unfold persist_batch. destruct d; [|done]. by repeat case_match. Qed.

Lemma done_step j l c j' :
  simulates j l → persists j l c None j' (Ok tt) → simulates j' (foldl change l (changes l c)).
Proof.
  intros [R J] [[-> Hc]|(rs & r0 & f & Hs & Hp & Hr)]; [by rewrite Hc|].
  destruct r0 as [[]| |]; try done.
  split; [|by eapply persist_journal_ok; [|eapply stands_for_ok|]].
  apply persist_Ok in Hp as (frames & _ & Happ & _). by eapply stands_for_all.
Qed.

Lemma crash_step j l c d j1 e :
  simulates j l → persists j l c d j1 (Err e) →
  ∃ k j', open sha256 (nj_file j1) = Ok j' ∧
    simulates j' (foldl change l (take k (changes l c))).
Proof.
  intros S Hp. assert (∃ k j', open sha256 (nj_file j) = Ok j' ∧
    simulates j' (foldl change l (take k (changes l c)))) as Hsame.
  { destruct (simulates_reopen j l S) as (j' & Ho & S'). by exists 0, j'. }
  destruct Hp as [[-> _]|(rs & r0 & f & Hs & Hp & Hr)]; [done|].
  destruct r0 as [|e0|]; try done.
  apply persist_Err in Hp as [->|(n & next & frames & -> & Happ & Henc & Hf)]; [done|].
  destruct S as [R J].
  destruct (crash_recover_batch sha256 sha256_len j rs next frames n J (stands_for_ok _ _ _ Hs) Happ Henc)
    as (k & stk & torn & _ & _ & Hk & Ho & Hw).
  destruct (stands_for_prefix _ _ _ _ _ _ Hs R Hk) as (k' & R' & _).
  rewrite Hf. exists k'. eexists. split; [exact Ho|]. by split.
Qed.

Lemma refused_step j l c j' e :
  simulates j l → persists j l c None j' (Err e) → j' = j.
Proof.
  intros S [[-> _]|(rs & r0 & f & Hs & Hp & Hr)]; [done|]. destruct r0 as [|e0|]; try done.
  by apply persist_Err in Hp as [->|(n & ? & ? & ? & _)].
Qed.

Lemma call_reopens j l c d j1 r :
  simulates j l → persists j l c d j1 r → ∃ j', open sha256 (nj_file j1) = Ok j'.
Proof.
  intros S Hp. destruct (simulates_reopen j l S) as (js & Hsame & _).
  destruct r as [[]|e|].
  2: { destruct (crash_step _ _ _ _ _ _ S Hp) as (k & j' & ? & _). eauto. }
  all: destruct Hp as [[-> _]|(rs & r0 & f & Hs & Hp & Hr)]; [by eauto|].
  all: destruct r0 as [[]| |]; try done.
  - eexists. apply (journal_ok_reopen sha256 sha256_len).
    eapply persist_journal_ok; [apply S|by eapply stands_for_ok|by eapply persist_acknowledged].
  - unfold persist_batch in Hp. repeat case_match; simplify_eq; eauto.
Qed.

Lemma log_step_simulated j l e j' :
  simulates j l → log_step j e j' → ∃ l', spec_step l e l' ∧ simulates j' l'.
Proof.
  intros S. destruct e as [c|c|c|]; simpl.
  - intros [Hok Hdo]. eapply log_do_persists in Hdo; [|apply S|done]. eauto using done_step.
  - intros [Hok [e Hdo]]. eapply log_do_persists in Hdo; [|apply S|done].
    apply refused_step in Hdo as ->; eauto.
  - intros (Hok & n & j1 & e & Hdo & Hopen). eapply log_do_persists in Hdo; [|apply S|done].
    destruct (crash_step _ _ _ _ _ _ S Hdo) as (k & j2 & Ho & S').
    rewrite Ho in Hopen. injection Hopen as ->. eauto.
  - intros Hopen. destruct (simulates_reopen j l S) as (j2 & Ho & S').
    rewrite Ho in Hopen. injection Hopen as ->. eauto.
Qed.

Lemma log_run_simulated es j : log_run es j → ∃ l, spec_run es l ∧ simulates j l.
Proof.
  induction 1 as [j Hopen|es j e j' _ (l & Hl & S) Hstep].
  - exists raft_log_empty. split; [constructor|]. injection Hopen as <-.
    split; [apply represents_default|]. exists []. by exists [].
  - destruct (log_step_simulated _ _ _ _ S Hstep) as (l' & Hs & S').
    exists l'. split; [by econstructor|done].
Qed.
End calls.

(** ** Reads of a represented log *)
Lemma transpose_related {A B E} (P : A → B → Prop) (f : A → res E B) o o' :
  (∀ a b, P a b → f a = Ok b) → option_Forall2 P o o' → transpose f o = Ok o'.
Proof. intros Hf [a b H|]; simpl; [|done]. by rewrite (Hf a b H). Qed.

Lemma decode_entry_Ok i b (e : Entry) :
  entry_from_slice b = Ok e → entry_index e = i → decode_entry i b = Ok e.
Proof.
  intros He <-. unfold decode_entry, entry_index. rewrite He. simpl. by rewrite N.eqb_refl.
Qed.

Lemma decode_marker_Ok m id :
  log_id_from_slice (marker_payload m) = Ok id → li_index id = marker_index m →
  decode_marker m = Ok id.
Proof. intros He Hi. unfold decode_marker. rewrite He. simpl. by rewrite Hi, N.eqb_refl. Qed.

(** The greatest log id: of the last entry, or of the purge marker. *)
Definition spec_last (l : log) : option LogId :=
  match bt_last (rl_entries l) with
  | Some (_, e) => Some (en_log_id e)
  | None => rl_purged l
  end.

Lemma represents_log_state j l :
  represents (nj_state j) l →
  get_log_state j = Ok {| last_purged_log_id := rl_purged l; last_log_id := spec_last l |}.
Proof.
  intros R. unfold get_log_state.
  rewrite (transpose_related _ _ _ _ (λ m id H, decode_marker_Ok m id (proj1 H) (proj2 H))
             (rep_purged _ _ R)). simpl.
  pose proof (bt_last_related _ _ _ (rep_entries _ _ R)) as Hlast.
  unfold last_entry, spec_last.
  destruct Hlast as [[i b] [i' e] [Hi [He Hidx]]|]; [|done]. simpl in *.
  by rewrite (decode_entry_Ok _ _ e He Hidx).
Qed.

Lemma represents_entries j l range :
  represents (nj_state j) l →
  try_get_log_entries j range = Ok (bt_range range (rl_entries l)).*2.
Proof.
  intros R. unfold try_get_log_entries, entries_in. apply res_collect_Ok.
  pose proof (bt_range_related _ _ _ (rep_entries _ _ R) range) as H.
  induction H as [|[i b] [i' e] l1 l2 [Hi [He Hidx]] _ IH]; constructor; [|done].
  simpl in *. by apply decode_entry_Ok.
Qed.

Lemma represents_vote j l : represents (nj_state j) l → read_vote j = Ok (rl_vote l).
Proof.
  intros R. eapply transpose_related; [|apply (rep_vote _ _ R)]. intros b v Hb. simpl.
  by rewrite Hb.
Qed.

Lemma represents_committed j l : represents (nj_state j) l → read_committed j = Ok (rl_committed l).
Proof.
  intros R. eapply transpose_related; [|apply (rep_committed _ _ R)]. intros b v Hb. simpl.
  by rewrite Hb.
Qed.
End runs.

(** C15. The log adapter implements a Raft log. Over any run of its calls whose
    appends carry entries in ascending order of index, with refused calls, crashes after any number of written bytes and restarts, there
    is a run of the specification with the same events whose log every read
    answers with: the vote, the committed id, the state of the log and the
    entries of every range. A refused call changes nothing, a call that a crash
    cuts off leaves a prefix of its changes, and the store can be opened again
    after any call, whatever the disk did. *)
Theorem raft_log_exact {Membership Vote} `{!RaftJson Membership Vote} sha256 es j :
  digest_len sha256 → raft_json_ok Membership Vote → log_run sha256 es j →
  ∃ l, spec_run es l ∧
    read_vote j = Ok (rl_vote l) ∧ read_committed j = Ok (rl_committed l) ∧
    get_log_state j = Ok {| last_purged_log_id := rl_purged l; last_log_id := spec_last l |} ∧
    (∀ range, try_get_log_entries j range = Ok (bt_range range (rl_entries l)).*2) ∧
    (∀ c d j1 r, call_ok c → log_do sha256 j c d = (j1, r) →
       ∃ j', open sha256 (nj_file j1) = Ok j').
Proof.
  intros Hlen Hjson (l & Hl & S)%log_run_simulated; [|done..]. exists l. pose proof S as [R _].
  split_and!; auto using represents_vote, represents_committed, represents_log_state,
    represents_entries.
  intros c d j1 r Hok Hdo. eapply log_do_persists in Hdo; [|done..].
  by eapply call_reopens.
Qed.

(** ** An example *)
Module demo_raft.
#[export] Instance json : RaftJson unit N := {
  vote_to_vec v := Ok [v];
  vote_from_slice b := match b with [v] => Ok v | _ => Err "vote"%string end;
  log_id_to_vec i := Ok [li_term i; li_node_id i; li_index i];
  log_id_from_slice b :=
    match b with
    | [t; n; i] => Ok {| li_term := t; li_node_id := n; li_index := i |}
    | _ => Err "log id"%string
    end;
  entry_to_vec e :=
    let id := en_log_id e in
    Ok (li_term id :: li_node_id id :: li_index id ::
        match en_payload e with
        | Blank => [0%N]
        | Normal payload => 1%N :: payload
        | MembershipChange _ => [2%N]
        end);
  entry_from_slice b :=
    match b with
    | t :: n :: i :: tag :: payload =>
        Ok {| en_log_id := {| li_term := t; li_node_id := n; li_index := i |};
              en_payload := if (tag =? 0)%N then Blank
                            else if (tag =? 1)%N then Normal payload
                            else MembershipChange tt |}
    | _ => Err "entry"%string
    end;
}.

Lemma json_ok : raft_json_ok unit N.
Proof.
  split.
  - by intros v b [= <-].
  - by intros [t n i] b [= <-].
  - by intros [[t n i] [| |[]]] b [= <-].
Qed.

Definition id (term index : N) : LogId := {| li_term := term; li_node_id := 1; li_index := index |}.
Definition put (term index : N) : @Entry unit :=
  {| en_log_id := id term index; en_payload := Normal [index] |}.

(** Three entries, a vote, an overwrite that a crash cuts off after its first
    record, a purge, a truncation that is refused, and a restart. *)
Definition events : list (log_event unit N) :=
  [Done (AppendEntries [put 1 1; put 1 2; put 1 3]); Done (SaveVote 2%N);
   Crashed (AppendEntries [put 2 2; put 2 3]); Done (PurgeUpto (id 1 1));
   Refused (TruncateFrom (id 1 1)); Done (AppendEntries [put 3 2]); Restarted].

Definition opened_on (file : bytes) : NodeJournal :=
  match open prefix_digest file with
  | Ok j => j
  | _ => {| nj_file := []; nj_state := JournalState_default; nj_recovered_torn_tail := false |}
  end.

(** The journal after an event; a crash keeps 60 bytes of the write. *)
Definition after (j : NodeJournal) (e : log_event unit N) : NodeJournal :=
  match e with
  | Done c | Refused c => (log_do prefix_digest j c None).1
  | Crashed c => opened_on (nj_file (log_do prefix_digest j c (Some 60)).1)
  | Restarted => opened_on (nj_file j)
  end.

Definition final : NodeJournal := foldl after (opened_on []) events.

Fixpoint steps_ok (j : NodeJournal) (es : list (log_event unit N)) : Prop :=
  match es with
  | [] => True
  | e :: es => log_step prefix_digest j e (after j e) ∧ steps_ok (after j e) es
  end.

Lemma events_run es0 j es :
  log_run prefix_digest es0 j → steps_ok j es →
  log_run prefix_digest (es0 ++ es) (foldl after j es).
Proof.
  revert es0 j. induction es as [|e es IH]; intros es0 j Hrun; [by rewrite app_nil_r|].
  intros [Hstep Hes]. rewrite cons_middle, (assoc_L (++)). apply IH; [by econstructor|done].
Qed.

Ltac ascending := split; repeat (constructor; try done).

Lemma run_final : log_run prefix_digest events final.
Proof.
  apply (events_run []); [by constructor|]. cbn [steps_ok events].
  refine (conj _ (conj _ (conj _ (conj _ (conj _ (conj _ (conj _ I))))))); cbn [log_step call_ok].
  - split; [ascending|vm_compute; reflexivity].
  - split; [done|vm_compute; reflexivity].
  - split; [ascending|]. exists 60. eexists _, _.
    split; [vm_compute; reflexivity|]. vm_compute. reflexivity.
  - split; [done|vm_compute; reflexivity].
  - split; [done|]. eexists. vm_compute. reflexivity.
  - split; [ascending|vm_compute; reflexivity].
  - vm_compute. reflexivity.
Qed.

Lemma final_vote : read_vote final = Ok (Some 2%N).
Proof. vm_compute. reflexivity. Qed.
Lemma final_state :
  get_log_state final =
    Ok {| last_purged_log_id := Some (id 1 1); last_log_id := Some (id 3 2) |}.
Proof. vm_compute. reflexivity. Qed.
Lemma final_entries : try_get_log_entries final (λ _, true) = Ok [put 3 2].
Proof. vm_compute. reflexivity. Qed.
End demo_raft.

Import demo_raft.

Lemma raft_log_exact_witness :
  ∃ l, spec_run demo_raft.events l ∧
    read_vote demo_raft.final = Ok (rl_vote l) ∧
    rl_vote l = Some 2%N ∧ rl_purged l = Some (demo_raft.id 1 1) ∧
    (bt_range (λ _, true) (rl_entries l)).*2 = [demo_raft.put 3 2].
Proof.
  destruct (raft_log_exact prefix_digest demo_raft.events demo_raft.final)
    as (l & Hl & Hv & _ & Hs & He & _).
  - apply prefix_digest_len.
  - apply demo_raft.json_ok.
  - apply demo_raft.run_final.
  - rewrite demo_raft.final_vote in Hv. rewrite demo_raft.final_state in Hs.
    specialize (He (λ _, true)). rewrite demo_raft.final_entries in He.
    injection Hv as Hv. injection Hs as Hp _. injection He as He. exists l.
    split; [exact Hl|]. split; [by rewrite <-Hv; apply demo_raft.final_vote|]. auto.
Defined.
