(* ===== verification/Resolver.v ===== *)
(** * Resolver processes

    [okv-consensus/src/partitioned_resolver.rs]: one resolver of the partition
    map, which decides the conflicts of the key range it owns. A durable
    resolver answers a prepare only after writing its decision to its file and
    waits for the global outcome before the next one; a memory-only resolver
    counts an accepted transaction as committed at its candidate number. The
    sockets are left out: a request is a value, and its answer is the value that
    is written back. *)

From S2P Require Import Prelude Order BTree Bytes Version Quorum Envelope Persist.
From S2P Require Import CellState.

Record ResolverProcessConfig := {
  rpc_resolver_id : N;
  rpc_cell_id : bytes;
  rpc_tenant_id : bytes;
  rpc_map_epoch : N;
  rpc_transaction_system_generation : N;
  rpc_minimum_read_sequence : N;
  rpc_memory_only : bool;
  rpc_acknowledge_before_durable : bool;
  rpc_allow_map_epoch_override : bool;
}.

Record ResolverPrepare := {
  rpp_cell_id : bytes;
  rpp_tenant_id : bytes;
  rpp_generation : N;
  rpp_map_epoch : N;
  rpp_transaction_identity : RequestIdentity;
  rpp_candidate_sequence : N;
  rpp_read_version : CellReadVersion;
  rpp_resolver_read_sequence : N;
  rpp_transaction_sha256 : bytes;
  rpp_read_conflicts : list CellKeyRange;
  rpp_write_conflicts : list CellKeyRange;
}.

Record ResolverFinalize := {
  rpf_candidate_sequence : N;
  rpf_transaction_sha256 : bytes;
  rpf_global_status : CellTransactionStatus;
  rpf_commit_sequence : option N;
}.

Record ResolverStatus := {
  rst_resolver_id : N;
  rst_prepared : N;
  rst_finalized : N;
  rst_committed_writes : N;
  rst_transaction_system_generation : N;
  rst_minimum_read_sequence : N;
  rst_memory_only : bool;
}.

Inductive ResolverRequest :=
  | RqPrepare (request : ResolverPrepare)
  | RqPrepareBatch (requests : list ResolverPrepare)
  | RqFinalize (request : ResolverFinalize)
  | RqStatus.

Inductive ResolverResponse :=
  | RsPrepared (attestation : CellResolverDecisionAttestation)
  | RsPreparedBatch (attestations : list CellResolverDecisionAttestation)
  | RsFinalized
  | RsStatus (status : ResolverStatus).

Record ResolverPrepared := {
  rpd_statement : CellResolverDecisionStatement;
  rpd_finalized : bool;
}.

Record ResolverCommittedWrite := {
  rcw_sequence : N;
  rcw_range : CellKeyRange;
}.

Record ResolverState := {
  rs_last_candidate : N;
  rs_prepared : gmap N ResolverPrepared;
  rs_committed_writes : list ResolverCommittedWrite;
}.

Definition ResolverState_default : ResolverState :=
  {| rs_last_candidate := 0; rs_prepared := ∅; rs_committed_writes := [] |}.

(** The messages of the errors. *)
Inductive ResolverError :=
  | AbsentFromMap
  | UnsupportedEpoch
  | ZeroGeneration
  | InvalidPrepare
  | OutsideOwnedRange
  | CandidateReused
  | PriorUndisposed
  | CandidateNotAdvanced
  | SeedLength
  | StatementEncode
  | StateEncodeError
  | StateDecodeError
  | PersistFailed
  | EmptyBatch
  | MemoryOnlyFinalize
  | AbsentDecision
  | DigestDiffers
  | LocalConflictCommitted
  | MissingCommitSequence
  | UnexpectedCommitSequence
  | UnsupportedOutcome.

(** [serde_json] at the state a resolver persists. *)
Class ResolverJson := {
  json_resolver_state :: Serialize ResolverState;
  resolver_state_from_slice : bytes → option ResolverState;
}.

(** A process: its memory and its file. *)
Record ResolverProcess := {
  rp_state : ResolverState;
  rp_file : option bytes;
}.

Definition same_prepare (statement : CellResolverDecisionStatement) (request : ResolverPrepare)
    : bool :=
  bool_decide (rds_cell_id statement = rpp_cell_id request)
  && bool_decide (rds_tenant_id statement = rpp_tenant_id request)
  && (rds_generation statement =? rpp_generation request)%N
  && (rds_map_epoch statement =? rpp_map_epoch request)%N
  && bool_decide (rds_transaction_identity statement = rpp_transaction_identity request)
  && (rds_candidate_sequence statement =? rpp_candidate_sequence request)%N
  && bool_decide (rds_read_version statement = rpp_read_version request)
  && (rds_resolver_read_sequence statement =? rpp_resolver_read_sequence request)%N
  && bool_decide (rds_transaction_sha256 statement = rpp_transaction_sha256 request)
  && bool_decide (rds_read_conflicts statement = rpp_read_conflicts request)
  && bool_decide (rds_write_conflicts statement = rpp_write_conflicts request).

Definition resolver_writes (sequence : N) (ranges : list CellKeyRange)
    : list ResolverCommittedWrite :=
  (λ range, {| rcw_sequence := sequence; rcw_range := range |}) <$> ranges.

(** [read_conflicts.iter().any(..)] against the writes a resolver knows. *)
Definition resolver_conflict (reads : list CellKeyRange) (read_sequence : N)
    (writes : list ResolverCommittedWrite) : bool :=
  existsb (λ read,
    existsb (λ write,
      (read_sequence <? rcw_sequence write)%N && range_overlaps read (rcw_range write)) writes)
    reads.

Definition canonical_prepare (request : ResolverPrepare) : ResolverPrepare :=
  {| rpp_cell_id := rpp_cell_id request; rpp_tenant_id := rpp_tenant_id request;
     rpp_generation := rpp_generation request; rpp_map_epoch := rpp_map_epoch request;
     rpp_transaction_identity := rpp_transaction_identity request;
     rpp_candidate_sequence := rpp_candidate_sequence request;
     rpp_read_version := rpp_read_version request;
     rpp_resolver_read_sequence := rpp_resolver_read_sequence request;
     rpp_transaction_sha256 := rpp_transaction_sha256 request;
     rpp_read_conflicts := sort_dedup (rpp_read_conflicts request);
     rpp_write_conflicts := sort_dedup (rpp_write_conflicts request) |}.

Section resolver.
Context (sha256 : bytes → bytes).
Context `{Ed25519} `{Ed25519Sign} `{CellJson} `{ResolverJson}.
Implicit Types (cfg : ResolverProcessConfig) (w : ResolverProcess).

(** ** The file *)
Definition load_resolver_state (file : option bytes) : res ResolverError ResolverState :=
  match file with
  | None => Ok ResolverState_default
  | Some b =>
      match resolver_state_from_slice b with
      | Some state => Ok state
      | None => Err StateDecodeError
      end
  end.

Definition persist_resolver_state w (io : PersistIo) : ResolverProcess * res ResolverError unit :=
  match to_vec (rp_state w) with
  | None => (w, Err StateEncodeError)
  | Some b =>
      let '(file, persisted) := replace_file (rp_file w) b io in
      ({| rp_state := rp_state w; rp_file := file |},
       if persisted then Ok tt else Err PersistFailed)
  end.

(** The start of [run_resolver_process]: the partition and the state it serves. *)
Definition resolver_start cfg (file : option bytes)
    : res ResolverError (CellResolverPartition * ResolverProcess) :=
  match List.find (λ p, (crp_resolver_id p =? rpc_resolver_id cfg)%N) cell_resolver_partitions with
  | None => Err AbsentFromMap
  | Some partition =>
      if negb (rpc_map_epoch cfg =? 1)%N then Err UnsupportedEpoch
      else if (rpc_transaction_system_generation cfg =? 0)%N then Err ZeroGeneration
      else
        let? state :=
          if rpc_memory_only cfg then Ok ResolverState_default else load_resolver_state file in
        Ok (partition, {| rp_state := state; rp_file := file |})
  end.

(** ** Signing *)
Definition sign_cell_resolver_decision (statement : CellResolverDecisionStatement)
    : res ResolverError CellResolverDecisionAttestation :=
  let seed := cell_resolver_private_key_seed sha256 (rds_resolver_id statement)
                (rds_resolver_incarnation statement) in
  guard! length seed =? 32 else SeedLength in
  match resolver_signing_bytes statement with
  | None => Err StatementEncode
  | Some b => Ok {| rda_statement := statement; rda_signature := ed25519_sign seed b |}
  end.

(** ** Requests *)
Definition prepare_valid cfg (request : ResolverPrepare) : bool :=
  let accepted_epoch :=
    (rpp_map_epoch request =? rpc_map_epoch cfg)%N
    || (rpc_allow_map_epoch_override cfg && (rpp_map_epoch request =? 2)%N) in
  accepted_epoch
  && bool_decide (rpp_cell_id request = rpc_cell_id cfg)
  && bool_decide (rpp_tenant_id request = rpc_tenant_id cfg)
  && (rpp_generation request =? rpc_transaction_system_generation cfg)%N
  && negb (rpp_candidate_sequence request =? 0)%N
  && (rpc_minimum_read_sequence cfg <=? rpp_resolver_read_sequence request)%N
  && forallb range_valid (rpp_read_conflicts request)
  && forallb range_valid (rpp_write_conflicts request).

Definition outside_owned (partition : CellResolverPartition) (range : CellKeyRange) : bool :=
  negb (range_overlaps range
          {| ckr_start := crp_start partition; ckr_end := crp_end partition |})
  || (ckr_start range <ₖ? crp_start partition) || (crp_end partition <ₖ? ckr_end range).

Definition decision_statement cfg (state : ResolverState) (map_sha256 : bytes)
    (request : ResolverPrepare) : CellResolverDecisionStatement :=
  {| rds_format_version := 1; rds_cell_id := rpp_cell_id request;
     rds_tenant_id := rpp_tenant_id request; rds_generation := rpp_generation request;
     rds_map_epoch := rpp_map_epoch request; rds_map_sha256 := map_sha256;
     rds_resolver_id := rpc_resolver_id cfg;
     rds_resolver_incarnation := cell_resolver_incarnation (rpc_resolver_id cfg);
     rds_transaction_identity := rpp_transaction_identity request;
     rds_candidate_sequence := rpp_candidate_sequence request;
     rds_read_version := rpp_read_version request;
     rds_resolver_read_sequence := rpp_resolver_read_sequence request;
     rds_transaction_sha256 := rpp_transaction_sha256 request;
     rds_read_conflicts := rpp_read_conflicts request;
     rds_write_conflicts := rpp_write_conflicts request;
     rds_decision :=
       if resolver_conflict (rpp_read_conflicts request) (rpp_resolver_read_sequence request)
            (rs_committed_writes state) then RConflict else RAccept |}.

(** The memory after a new decision; [finalized] in a memory-only resolver. *)
Definition remember (state : ResolverState) (statement : CellResolverDecisionStatement)
    (finalized : bool) : ResolverState :=
  let candidate := rds_candidate_sequence statement in
  {| rs_last_candidate := candidate;
     rs_prepared :=
       <[candidate := {| rpd_statement := statement; rpd_finalized := finalized |}]>
         (rs_prepared state);
     rs_committed_writes :=
       if finalized && bool_decide (rds_decision statement = RAccept)
       then rs_committed_writes state ++ resolver_writes candidate (rds_write_conflicts statement)
       else rs_committed_writes state |}.

Definition resolver_prepare cfg (partition : CellResolverPartition) (io : PersistIo) w
    (request : ResolverPrepare)
    : ResolverProcess * res ResolverError CellResolverDecisionAttestation :=
  let request := canonical_prepare request in
  let state := rp_state w in
  if negb (prepare_valid cfg request) then (w, Err InvalidPrepare)
  else if existsb (outside_owned partition)
            (rpp_read_conflicts request ++ rpp_write_conflicts request)
  then (w, Err OutsideOwnedRange)
  else
    match rs_prepared state !! rpp_candidate_sequence request with
    | Some existing =>
        (w, if same_prepare (rpd_statement existing) request
            then sign_cell_resolver_decision (rpd_statement existing)
            else Err CandidateReused)
    | None =>
        if negb (rpc_memory_only cfg)
           && bt_any (λ prepared, negb (rpd_finalized prepared)) (rs_prepared state)
        then (w, Err PriorUndisposed)
        else if (rpp_candidate_sequence request <=? rs_last_candidate state)%N
        then (w, Err CandidateNotAdvanced)
        else
          match cell_resolver_map_sha256 sha256 with
          | Ok map_sha256 =>
              let statement := decision_statement cfg state map_sha256 request in
              match sign_cell_resolver_decision statement with
              | Ok attestation =>
                  if rpc_memory_only cfg then
                    ({| rp_state := remember state statement true; rp_file := rp_file w |},
                     Ok attestation)
                  else if negb (rpc_acknowledge_before_durable cfg) then
                    let '(w, persisted) :=
                      persist_resolver_state
                        {| rp_state := remember state statement false; rp_file := rp_file w |} io in
                    (w, let? _ := persisted in Ok attestation)
                  else (w, Ok attestation)
              | Err e => (w, Err e)
              | Panic => (w, Panic)
              end
          | _ => (w, Panic)
          end
    end.

(** [io n] is how the [n]-th persist of the batch goes. *)
Fixpoint resolver_prepare_batch cfg (partition : CellResolverPartition) (io : nat → PersistIo)
    w (requests : list ResolverPrepare) (attestations : list CellResolverDecisionAttestation)
    : ResolverProcess * res ResolverError (list CellResolverDecisionAttestation) :=
  match requests with
  | [] => (w, Ok attestations)
  | request :: requests =>
      match resolver_prepare cfg partition (io 0) w request with
      | (w, Ok attestation) =>
          resolver_prepare_batch cfg partition (λ n, io (S n)) w requests
            (attestations ++ [attestation])
      | (w, Err e) => (w, Err e)
      | (w, Panic) => (w, Panic)
      end
  end.

(** What a finalization adds to the writes a resolver knows. *)
Definition finalized_writes (prepared : ResolverPrepared) (request : ResolverFinalize)
    : res ResolverError (list ResolverCommittedWrite) :=
  match rpf_global_status request with
  | TCommitted =>
      if negb (bool_decide (rds_decision (rpd_statement prepared) = RAccept))
      then Err LocalConflictCommitted
      else
        match rpf_commit_sequence request with
        | None => Err MissingCommitSequence
        | Some sequence =>
            Ok (resolver_writes sequence (rds_write_conflicts (rpd_statement prepared)))
        end
  | TConflict =>
      if is_some (rpf_commit_sequence request) then Err UnexpectedCommitSequence else Ok []
  | _ => Err UnsupportedOutcome
  end.

Definition resolver_finalize cfg (io : PersistIo) w (request : ResolverFinalize)
    : ResolverProcess * res ResolverError unit :=
  let state := rp_state w in
  let candidate := rpf_candidate_sequence request in
  if rpc_memory_only cfg then (w, Err MemoryOnlyFinalize)
  else
    match rs_prepared state !! candidate with
    | None => (w, Err AbsentDecision)
    | Some prepared =>
        if negb (bool_decide (rds_transaction_sha256 (rpd_statement prepared)
                              = rpf_transaction_sha256 request))
        then (w, Err DigestDiffers)
        else if rpd_finalized prepared then (w, Ok tt)
        else
          match finalized_writes prepared request with
          | Ok writes =>
              persist_resolver_state
                {| rp_state :=
                     {| rs_last_candidate := rs_last_candidate state;
                        rs_prepared :=
                          <[candidate := {| rpd_statement := rpd_statement prepared;
                                            rpd_finalized := true |}]> (rs_prepared state);
                        rs_committed_writes := rs_committed_writes state ++ writes |};
                   rp_file := rp_file w |} io
          | Err e => (w, Err e)
          | Panic => (w, Panic)
          end
    end.

Definition resolver_status cfg w : ResolverStatus :=
  {| rst_resolver_id := rpc_resolver_id cfg;
     rst_prepared := N.of_nat (size (rs_prepared (rp_state w)));
     rst_finalized :=
       len (List.filter (λ e, rpd_finalized e.2) (bt_items (rs_prepared (rp_state w))));
     rst_committed_writes := len (rs_committed_writes (rp_state w));
     rst_transaction_system_generation := rpc_transaction_system_generation cfg;
     rst_minimum_read_sequence := rpc_minimum_read_sequence cfg;
     rst_memory_only := rpc_memory_only cfg |}.

Definition apply_resolver_request cfg (partition : CellResolverPartition)
    (io : nat → PersistIo) w (request : ResolverRequest)
    : ResolverProcess * res ResolverError ResolverResponse :=
  match request with
  | RqStatus => (w, Ok (RsStatus (resolver_status cfg w)))
  | RqPrepare request =>
      let '(w, r) := resolver_prepare cfg partition (io 0) w request in
      (w, res_map RsPrepared r)
  | RqPrepareBatch requests =>
      if bool_decide (requests = []) then (w, Err EmptyBatch)
      else
        let '(w, r) := resolver_prepare_batch cfg partition io w requests [] in
        (w, res_map RsPreparedBatch r)
  | RqFinalize request =>
      let '(w, r) := resolver_finalize cfg (io 0) w request in
      (w, res_map (λ _, RsFinalized) r)
  end.
End resolver.
