(* ===== verification/ResolverRuns.v ===== *)
(** * What a durable resolver guarantees

    Runs of one resolver process, with failing writes and crashes at any point of
    a request: as long as the process is restarted when a write of its state
    failed, a decision that was handed out is in the file and stays the decision
    for its candidate. A process that goes on serving after such a failure breaks
    this. *)

From S2P Require Import Prelude Order BTree Bytes Version Quorum Envelope Persist.
From S2P Require Import CellState CellDemo Resolver.

(** What happens to a process: it serves a request, dies while it serves one, or
    is restarted between two. The disk answers each write of a request as it
    likes. *)
Inductive ResolverEvent :=
  | Serve (request : ResolverRequest) (io : nat → PersistIo)
  | Crash (request : ResolverRequest) (io : nat → PersistIo)
  | Restart.

(** The attestations of an answer. *)
Definition issued (r : res ResolverError ResolverResponse)
    : list CellResolverDecisionAttestation :=
  match r with
  | Ok (RsPrepared a) => [a]
  | Ok (RsPreparedBatch l) => l
  | _ => []
  end.

(** The answer says that the state could not be written. *)
Definition write_failed {A} (r : res ResolverError A) : bool :=
  match r with Err PersistFailed => true | _ => false end.

Section runs.
Context (sha256 : bytes → bytes).
Context `{Ed25519} `{Ed25519Sign} `{CellJson} `{ResolverJson}.
Context (cfg : ResolverProcessConfig) (partition : CellResolverPartition).
Implicit Types (w : ResolverProcess) (s : ResolverState).

Definition restart w : res ResolverError ResolverProcess :=
  res_map snd (resolver_start cfg (rp_file w)).

Definition resolver_step w (e : ResolverEvent)
    : res ResolverError (ResolverProcess * list CellResolverDecisionAttestation) :=
  match e with
  | Serve request io =>
      let '(w, r) := apply_resolver_request sha256 cfg partition io w request in
      Ok (w, issued r)
  | Crash request io =>
      let? w := restart (apply_resolver_request sha256 cfg partition io w request).1 in
      Ok (w, [])
  | Restart => let? w := restart w in Ok (w, [])
  end.

(** The process after a run, and every attestation it handed out. *)
Fixpoint resolver_run (events : list ResolverEvent) w
    (handed_out : list CellResolverDecisionAttestation)
    : res ResolverError (ResolverProcess * list CellResolverDecisionAttestation) :=
  match events with
  | [] => Ok (w, handed_out)
  | e :: events =>
      let? '(w, l) := resolver_step w e in
      resolver_run events w (handed_out ++ l)
  end.

(** Whenever a write of its state failed ([failed]), the process is restarted
    before it serves the next request. *)
Fixpoint restarted_on_failure (failed : bool) (events : list ResolverEvent) w : bool :=
  match events with
  | [] => true
  | e :: events =>
      negb (failed && match e with Restart => false | _ => true end) &&
      match resolver_step w e with
      | Ok (w', _) =>
          let failed :=
            match e with
            | Serve request io =>
                write_failed (apply_resolver_request sha256 cfg partition io w request).2
            | _ => false
            end in
          restarted_on_failure failed events w'
      | _ => true
      end
  end.

(** A durable resolver, without the faults its tests switch on. *)
Hypothesis durable : rpc_memory_only cfg = false.
Hypothesis not_early : rpc_acknowledge_before_durable cfg = false.
(** [serde_json] reads back the states it writes, and writes every state. *)
Hypothesis state_codec : ∀ s, ∃ b, to_vec s = Some b ∧ resolver_state_from_slice b = Some s.

(** ** The file and the memory *)
Definition in_sync w : Prop := load_resolver_state (rp_file w) = Ok (rp_state w).

(** The decisions of [s] are decisions of [s'], and at most one of them is open. *)
Definition keeps s s' : Prop :=
  ∀ c p, rs_prepared s !! c = Some p →
    ∃ p', rs_prepared s' !! c = Some p' ∧ rpd_statement p' = rpd_statement p.
Definition state_ok s : Prop :=
  (∀ c p, rs_prepared s !! c = Some p → rds_candidate_sequence (rpd_statement p) = c) ∧
  (∀ c1 p1 c2 p2, rs_prepared s !! c1 = Some p1 → rs_prepared s !! c2 = Some p2 →
     rpd_finalized p1 = false → rpd_finalized p2 = false → c1 = c2).

(** A handed-out attestation is the signature of a remembered decision. *)
Definition backed s (a : CellResolverDecisionAttestation) : Prop :=
  sign_cell_resolver_decision sha256 (rda_statement a) = Ok a ∧
  ∃ p, rs_prepared s !! rds_candidate_sequence (rda_statement a) = Some p ∧
    rpd_statement p = rda_statement a.

Lemma keeps_refl s : keeps s s.
Proof. intros c p Hp. eauto. Qed.
Lemma keeps_trans s1 s2 s3 : keeps s1 s2 → keeps s2 s3 → keeps s1 s3.
Proof. intros H12 H23 c p (p' & Hp' & <-)%H12. apply H23 in Hp' as (p'' & ? & <-). eauto. Qed.
Lemma backed_keeps s s' a : keeps s s' → backed s a → backed s' a.
Proof.
  intros Hk (Hs & p & Hp & Heq). destruct (Hk _ _ Hp) as (p' & Hp' & Heq').
  split; [done|]. exists p'. split; [done|congruence].
Qed.

Lemma sign_statement st a :
  sign_cell_resolver_decision sha256 st = Ok a → rda_statement a = st.
Proof.
  unfold sign_cell_resolver_decision. destruct (_ =? 32); [|done].
  destruct (resolver_signing_bytes st); [|done]. by intros [= <-].
Qed.

(** What one request does: the memory moves from [s] to [s']; the file becomes
    a file of one of the states on the way, and of [s'] if nothing failed. *)
Record moved w w' : Prop := {
  moved_keeps : keeps (rp_state w) (rp_state w');
  moved_ok : state_ok (rp_state w) → state_ok (rp_state w');
  moved_file : in_sync w → state_ok (rp_state w) → ∃ s,
    load_resolver_state (rp_file w') = Ok s ∧ keeps (rp_state w) s ∧ state_ok s;
}.

Lemma moved_refl w : moved w w.
Proof. split; [apply keeps_refl|done|]. intros Hs Hok. exists (rp_state w). eauto using keeps_refl. Qed.

Lemma persist_moved w s io w' r :
  keeps (rp_state w) s → (state_ok (rp_state w) → state_ok s) →
  persist_resolver_state {| rp_state := s; rp_file := rp_file w |} io = (w', r) →
  moved w w' ∧ rp_state w' = s ∧ (r = Ok tt ∧ in_sync w' ∨ r = Err PersistFailed).
Proof.
  intros Hk Hok. unfold persist_resolver_state. cbn.
  destruct (state_codec s) as (b & -> & Hb).
  assert (load_resolver_state (Some b) = Ok s) as Hload
    by (unfold load_resolver_state; by rewrite Hb).
  destruct (replace_file _ _ _) as [file ok] eqn:Hf. intros [= <- <-]. cbn.
  split_and!; [split; cbn; [done|done|]|done|].
  - intros Hs Hst. apply replace_file_spec in Hf as [[-> _]| ->]; [|eauto].
    exists (rp_state w). eauto using keeps_refl.
  - destruct ok; [left|by right]. split; [done|]. by apply replace_file_spec in Hf as [[_ ?]| ->].
Qed.

(** ** One request *)
Lemma remember_moved w st :
  rs_prepared (rp_state w) !! rds_candidate_sequence st = None →
  bt_any (λ p, negb (rpd_finalized p)) (rs_prepared (rp_state w)) = false →
  keeps (rp_state w) (remember (rp_state w) st false) ∧
  (state_ok (rp_state w) → state_ok (remember (rp_state w) st false)).
Proof.
  intros Hnew Hdone. rewrite bt_any_false in Hdone. split.
  - intros c p Hp. cbn. exists p. rewrite lookup_insert_ne; [done|congruence].
  - intros [Hc _]. split; cbn.
    + intros c p [[<- <-]|[_ Hp]]%lookup_insert_Some; [done|eauto].
    + intros c1 p1 c2 p2 [[<- <-]|[_ Hp1]]%lookup_insert_Some
        [[<- <-]|[_ Hp2]]%lookup_insert_Some F1 F2; [done|..].
      * apply Hdone in Hp2. by rewrite F2 in Hp2.
      * apply Hdone in Hp1. by rewrite F1 in Hp1.
      * apply Hdone in Hp1. by rewrite F1 in Hp1.
Qed.

(** The outcome of a request that may hand out [out]. *)
Definition served {A} (out : A → list CellResolverDecisionAttestation)
    w w' (r : res ResolverError A) : Prop :=
  moved w w' ∧
  (∀ x, r = Ok x → Forall (backed (rp_state w')) (out x)) ∧
  (write_failed r = false → in_sync w → in_sync w').

Lemma served_refused {A} out w (r : res ResolverError A) : (∀ x, r ≠ Ok x) → served out w w r.
Proof. intros Hr. split_and!; [apply moved_refl| |done]. intros x Hx. by destruct (Hr x). Qed.

Lemma prepare_step io w request w' r :
  resolver_prepare sha256 cfg partition io w request = (w', r) →
  served (λ a, [a]) w w' r.
Proof.
  unfold resolver_prepare. set (q := canonical_prepare request).
  rewrite durable, not_early. cbn [negb andb].
  assert (∀ r0, (w, r0) = (w', r) → (∀ a, r0 ≠ Ok a) → served (λ a, [a]) w w' r)
    as Herr by (intros r0 [= <- <-]; apply served_refused).
  destruct (prepare_valid _ _); [|by intros ?%Herr].
  destruct (existsb _ _); [by intros ?%Herr|]. cbn [negb].
  destruct (rs_prepared (rp_state w) !! rpp_candidate_sequence q) as [existing|] eqn:He.
  { destruct (same_prepare _ _) eqn:Hsame; [|by intros ?%Herr]. intros [= <- <-].
    split_and!; [apply moved_refl| |done]. intros a Ha. apply Forall_singleton.
    assert (rda_statement a = rpd_statement existing) as Hst by by apply sign_statement.
    split; [by rewrite Hst|]. exists existing. split; [|done].
    unfold same_prepare in Hsame. rewrite !andb_true_iff, !N.eqb_eq in Hsame.
    destruct_and?. rewrite Hst. congruence. }
  destruct (bt_any _ _) eqn:Hdone; [by intros ?%Herr|].
  destruct (_ <=? _)%N; [by intros ?%Herr|].
  destruct (cell_resolver_map_sha256 sha256) as [m| |];
    [|by intros ?%Herr..].
  set (st := decision_statement cfg (rp_state w) m q).
  destruct (sign_cell_resolver_decision sha256 st) as [att| |] eqn:Hsign;
    [|by intros ?%Herr..].
  destruct (persist_resolver_state _ _) as [w1 persisted] eqn:Hp. intros [= <- <-].
  destruct (remember_moved w st) as [Hk Hok]; [done|done|].
  destruct (persist_moved w _ io w1 persisted Hk Hok Hp) as (Hm & Hst & Hsync).
  split_and!; [done| |].
  - intros a Ha. apply res_bind_Ok in Ha as (_ & _ & [= <-]). apply Forall_singleton.
    unfold backed. rewrite (sign_statement _ _ Hsign). split; [done|].
    rewrite Hst. cbn. rewrite lookup_insert_eq. eauto.
  - intros Hf _. by destruct Hsync as [[-> ?]| ->].
Qed.

Lemma moved_trans w w1 w2 : in_sync w1 → moved w w1 → moved w1 w2 → moved w w2.
Proof.
  intros Hs [K1 O1 F1] [K2 O2 F2]. split; [by eapply keeps_trans|auto|].
  intros _ Hok. destruct (F2 Hs (O1 Hok)) as (s & ? & ? & ?).
  exists s. eauto using keeps_trans.
Qed.

Lemma batch_step requests io w atts w' r :
  in_sync w → Forall (backed (rp_state w)) atts →
  resolver_prepare_batch sha256 cfg partition io w requests atts = (w', r) →
  served (λ l, l) w w' r.
Proof.
  revert io w atts. induction requests as [|q requests IH]; intros io w atts Hs Hatts; cbn.
  { intros [= <- <-]. split_and!; [apply moved_refl|by intros ? [= <-]|done]. }
  destruct (resolver_prepare _ _ _ _ _ _) as [w1 r1] eqn:Hp.
  apply prepare_step in Hp as (Hm & Hb & Hsync).
  destruct r1 as [a| |]; [|intros [= <- <-]; by split..].
  intros Hrest. assert (in_sync w1) as Hs1 by (by apply Hsync).
  apply IH in Hrest as (Hm' & Hb' & Hsync'); [|done|].
  - split_and!; [by eapply moved_trans|done|]. intros Hf _. by apply Hsync'.
  - apply Forall_app. split; [|by apply Hb].
    eapply Forall_impl; [done|]. intros a'. apply backed_keeps, Hm.
Qed.

Lemma finalize_step io w request w' r :
  resolver_finalize cfg io w request = (w', r) →
  served (λ _, []) w w' r.
Proof.
  unfold resolver_finalize. rewrite durable.
  assert (∀ r0, (w, r0) = (w', r) → served (λ _, []) w w' r) as Hsame.
  { intros r0 [= <- <-]. split_and!; [apply moved_refl|constructor|done]. }
  destruct (rs_prepared (rp_state w) !! _) as [p|] eqn:Hp; [|apply Hsame].
  destruct (negb _); [apply Hsame|]. destruct (rpd_finalized p) eqn:Hf; [apply Hsame|].
  destruct (finalized_writes p request) as [writes| |]; [|apply Hsame..].
  intros Hpersist. apply persist_moved in Hpersist as (Hm & _ & Hsync).
  - split_and!; [done|constructor|]. intros Hw _. by destruct Hsync as [[-> ?]| ->].
  - intros c q Hq. cbn. destruct (decide (c = rpf_candidate_sequence request)) as [->|].
    + rewrite lookup_insert_eq. eexists. split; [done|]. cbn. congruence.
    + rewrite lookup_insert_ne by done. eauto.
  - intros [Hc Ho]. split; cbn.
    + intros c q [[<- <-]|[_ Hq]]%lookup_insert_Some; cbn; eauto.
    + intros c1 p1 c2 p2 [[<- <-]|[_ Hp1]]%lookup_insert_Some
        [[<- <-]|[_ Hp2]]%lookup_insert_Some; cbn; try done. eauto.
Qed.

Lemma request_step io w request w' r :
  in_sync w → apply_resolver_request sha256 cfg partition io w request = (w', r) →
  moved w w' ∧ Forall (backed (rp_state w')) (issued r) ∧
  (write_failed r = false → in_sync w').
Proof.
  intros Hs. unfold apply_resolver_request. destruct request as [q|l|q|].
  - destruct (resolver_prepare _ _ _ _ _ _) as [w1 r1] eqn:Hp. intros [= <- <-].
    apply prepare_step in Hp as (Hm & Hb & Hsync).
    split_and!; [done| |by destruct r1 as [|[]|]; auto].
    destruct r1 as [a| |]; [|constructor..]. by apply Hb.
  - case_bool_decide; [intros [= <- <-]; split_and!; [apply moved_refl|constructor|done]|].
    destruct (resolver_prepare_batch _ _ _ _ _ _ _) as [w1 r1] eqn:Hp. intros [= <- <-].
    apply batch_step in Hp as (Hm & Hb & Hsync); [|done|constructor].
    split_and!; [done| |by destruct r1 as [|[]|]; auto].
    destruct r1 as [a| |]; [|constructor..]. by apply Hb.
  - destruct (resolver_finalize _ _ _ _) as [w1 r1] eqn:Hp. intros [= <- <-].
    apply finalize_step in Hp as (Hm & _ & Hsync).
    split_and!; [done| |by destruct r1 as [|[]|]; auto].
    destruct r1; constructor.
  - intros [= <- <-]. split_and!; [apply moved_refl|constructor|done].
Qed.

(** ** Runs *)

(** The file holds every decision that was handed out; the memory is what the file
    holds unless the last write failed. *)
Definition run_ok (failed : bool) w (handed_out : list CellResolverDecisionAttestation) : Prop :=
  (∃ s, load_resolver_state (rp_file w) = Ok s ∧ state_ok s ∧ Forall (backed s) handed_out) ∧
  (failed = false → in_sync w).

Lemma restart_ok failed w w0 handed_out :
  resolver_start cfg None = Ok (partition, w0) → run_ok failed w handed_out →
  ∃ w2, restart w = Ok w2 ∧ run_ok false w2 handed_out.
Proof.
  intros Hstart [(s & Hload & Hok & Hb) _]. exists {| rp_state := s; rp_file := rp_file w |}.
  split; [|by split; [exists s|]]. unfold restart, resolver_start in *. rewrite durable in *.
  destruct (List.find _ _); [|done]. destruct (negb _); [done|]. destruct (_ =? 0)%N; [done|].
  by rewrite Hload.
Qed.

(** A request on a process whose memory is its file. *)
Lemma serve_ok w request io w' r handed_out :
  run_ok false w handed_out → apply_resolver_request sha256 cfg partition io w request = (w', r) →
  run_ok (write_failed r) w' (handed_out ++ issued r) ∧ run_ok (write_failed r) w' handed_out.
Proof.
  intros [(s & Hload & Hok & Hb) Hsync]. specialize (Hsync eq_refl).
  assert (s = rp_state w) as -> by (unfold in_sync in Hsync; congruence).
  intros (Hm & Hi & Hs)%request_step; [|done].
  destruct (moved_file _ _ Hm Hsync Hok) as (s & Hl & Hk & Hs').
  assert (run_ok (write_failed r) w' handed_out) as Hold.
  { split; [|done]. exists s. split_and!; [done..|].
    eapply Forall_impl; [done|]. intros a. by apply backed_keeps. }
  split; [|done]. destruct (write_failed r) eqn:Hf.
  - assert (issued r = []) as -> by (by destruct r as [|[]|]). by rewrite app_nil_r.
  - split; [|done]. exists (rp_state w'). split_and!; [by apply Hs|by apply (moved_ok _ _ Hm)|].
    apply Forall_app. split; [|done]. eapply Forall_impl; [done|]. intros a. apply backed_keeps, Hm.
Qed.

Lemma run_events_ok events failed w w0 handed_out :
  resolver_start cfg None = Ok (partition, w0) → run_ok failed w handed_out →
  restarted_on_failure failed events w = true →
  ∃ failed' w' l, resolver_run events w handed_out = Ok (w', l) ∧ run_ok failed' w' l.
Proof.
  intros Hstart. revert failed w handed_out.
  induction events as [|e events IH]; intros failed w handed_out Hw;
    cbn [resolver_run restarted_on_failure]; [by eauto|].
  destruct e as [request io|request io|]; cbn [resolver_step]; rewrite ?andb_true_r, ?andb_false_r.
  - destruct failed; [done|].
    destruct (apply_resolver_request _ _ _ _ _ _) as [w1 r] eqn:Happ. cbn [res_bind snd negb andb].
    destruct (serve_ok _ _ _ _ _ _ Hw Happ) as [Hnew _]. by apply IH.
  - destruct failed; [done|].
    destruct (apply_resolver_request _ _ _ _ _ _) as [w1 r] eqn:Happ. cbn [fst].
    destruct (serve_ok _ _ _ _ _ _ Hw Happ) as [_ Hold].
    destruct (restart_ok _ _ _ _ Hstart Hold) as (w2 & -> & Hw2). cbn [res_bind negb andb].
    rewrite app_nil_r. by apply IH.
  - destruct (restart_ok _ _ _ _ Hstart Hw) as (w2 & -> & Hw2). cbn [res_bind negb andb].
    rewrite app_nil_r. by apply IH.
Qed.

Lemma backed_unique s a1 a2 :
  backed s a1 → backed s a2 →
  rds_candidate_sequence (rda_statement a1) = rds_candidate_sequence (rda_statement a2) →
  a1 = a2.
Proof.
  intros (S1 & p1 & P1 & E1) (S2 & p2 & P2 & E2) Hc. rewrite Hc in P1.
  assert (rda_statement a1 = rda_statement a2) as Heq by congruence.
  rewrite Heq in S1. congruence.
Qed.

(** C25. Decisions are final, as long as a resolver whose state could not be
    written is restarted before it serves the next request. A durable resolver that
    starts empty and serves any sequence of requests (prepares, batches,
    finalizations), the disk failing any write before or after the rename, that is
    restarted between requests and dies at any point of serving one, always comes
    back, and then: every attestation it ever handed out is the signature of a
    decision in its file; two attestations for one candidate are the same; at most
    one decision waits for its global outcome. *)
Theorem resolver_decisions_final events w0 :
  resolver_start cfg None = Ok (partition, w0) → restarted_on_failure false events w0 = true →
  ∃ w handed_out s,
    resolver_run events w0 [] = Ok (w, handed_out) ∧
    load_resolver_state (rp_file w) = Ok s ∧
    (∀ a, a ∈ handed_out → sign_cell_resolver_decision sha256 (rda_statement a) = Ok a ∧ ∃ p,
       rs_prepared s !! rds_candidate_sequence (rda_statement a) = Some p ∧
       rpd_statement p = rda_statement a) ∧
    (∀ a1 a2, a1 ∈ handed_out → a2 ∈ handed_out →
       rds_candidate_sequence (rda_statement a1) = rds_candidate_sequence (rda_statement a2) →
       a1 = a2) ∧
    (∀ c1 p1 c2 p2, rs_prepared s !! c1 = Some p1 → rs_prepared s !! c2 = Some p2 →
       rpd_finalized p1 = false → rpd_finalized p2 = false → c1 = c2).
Proof.
  intros Hstart Hrestart.
  destruct (run_events_ok events false w0 w0 [] Hstart) as (failed & w & l & Hr & (s & Hload & [_ Hopen] & Hb) & _);
    [|done|].
  { unfold resolver_start in Hstart. rewrite durable in Hstart.
    destruct (List.find _ _); [|done]. destruct (negb _); [done|].
    destruct (_ =? 0)%N; [done|]. injection Hstart as _ <-. split; [|done].
    eexists. split_and!; [done| |constructor]. split; intros *; cbn; by rewrite lookup_empty. }
  rewrite Forall_forall in Hb. exists w, l, s. split_and!; [done|done|..|done].
  - intros a (? & p & ? & ?)%Hb. eauto.
  - intros a1 a2 B1%Hb B2%Hb. by apply backed_unique with s.
Qed.
End runs.

(** ** Concrete runs *)
Module demo_resolver.
Import demo_cell.

#[export] Instance demo_sign : Ed25519Sign := λ seed message, seed ++ message.

#[export] Instance CellKeyRange_countable : Countable CellKeyRange :=
  inj_countable' (λ r, (ckr_start r, ckr_end r))
    (λ p, {| ckr_start := p.1; ckr_end := p.2 |}) ltac:(by intros []).
#[export] Instance CellReadVersion_countable : Countable CellReadVersion :=
  inj_countable' (λ r, (crv_generation r, crv_sequence r))
    (λ p, {| crv_generation := p.1; crv_sequence := p.2 |}) ltac:(by intros []).
#[export] Instance CellResolverDecision_countable : Countable CellResolverDecision :=
  inj_countable' (λ d, match d with RAccept => true | RConflict => false end)
    (λ b : bool, if b then RAccept else RConflict) ltac:(by intros []).
#[export] Instance statement_countable : Countable CellResolverDecisionStatement :=
  inj_countable'
    (λ st, ((rds_format_version st, rds_cell_id st, rds_tenant_id st, rds_generation st,
             rds_map_epoch st, rds_map_sha256 st, rds_resolver_id st,
             rds_resolver_incarnation st),
            (rds_transaction_identity st, rds_candidate_sequence st, rds_read_version st,
             rds_resolver_read_sequence st, rds_transaction_sha256 st, rds_read_conflicts st,
             rds_write_conflicts st, rds_decision st)))
    (λ '((a, b, c, d, e, f, g, h), (i, j, k, l, m, n, o, p)),
       {| rds_format_version := a; rds_cell_id := b; rds_tenant_id := c; rds_generation := d;
          rds_map_epoch := e; rds_map_sha256 := f; rds_resolver_id := g;
          rds_resolver_incarnation := h; rds_transaction_identity := i;
          rds_candidate_sequence := j; rds_read_version := k;
          rds_resolver_read_sequence := l; rds_transaction_sha256 := m;
          rds_read_conflicts := n; rds_write_conflicts := o; rds_decision := p |})
    ltac:(by intros []).
#[export] Instance ResolverPrepared_eq_dec : EqDecision ResolverPrepared.
Proof. solve_decision. Defined.
#[export] Instance ResolverPrepared_countable : Countable ResolverPrepared :=
  inj_countable' (λ p, (rpd_statement p, rpd_finalized p))
    (λ p, {| rpd_statement := p.1; rpd_finalized := p.2 |}) ltac:(by intros []).
#[export] Instance ResolverCommittedWrite_eq_dec : EqDecision ResolverCommittedWrite.
Proof. solve_decision. Defined.
#[export] Instance ResolverCommittedWrite_countable : Countable ResolverCommittedWrite :=
  inj_countable' (λ w, (rcw_sequence w, rcw_range w))
    (λ p, {| rcw_sequence := p.1; rcw_range := p.2 |}) ltac:(by intros []).
#[export] Instance ResolverState_eq_dec : EqDecision ResolverState.
Proof. solve_decision. Defined.
#[export] Instance ResolverState_countable : Countable ResolverState :=
  inj_countable' (λ s, (rs_last_candidate s, rs_prepared s, rs_committed_writes s))
    (λ p, {| rs_last_candidate := p.1.1; rs_prepared := p.1.2; rs_committed_writes := p.2 |})
    ltac:(by intros []).

(** A state is written as one number. *)
#[export] Instance demo_resolver_json : ResolverJson :=
  {| json_resolver_state := λ s, Some [Npos (encode s)];
     resolver_state_from_slice := λ b,
       match b with [Npos p] => decode p | _ => None end |}.

Lemma demo_codec (s : ResolverState) :
  ∃ b, to_vec s = Some b ∧ resolver_state_from_slice b = Some s.
Proof. eexists. split; [done|]. cbn. apply decode_encode. Qed.

(** The first resolver of the map. *)
Definition config (resolver_id : N) : ResolverProcessConfig :=
  {| rpc_resolver_id := resolver_id; rpc_cell_id := CELL; rpc_tenant_id := TENANT;
     rpc_map_epoch := 1; rpc_transaction_system_generation := 1;
     rpc_minimum_read_sequence := 0; rpc_memory_only := false;
     rpc_acknowledge_before_durable := false; rpc_allow_map_epoch_override := false |}.
Definition partition : CellResolverPartition :=
  {| crp_resolver_id := 1; crp_start := [0%N]; crp_end := [80%N] |}.
Definition empty : ResolverProcess :=
  {| rp_state := ResolverState_default; rp_file := None |}.

(** Transaction [n] as candidate 1: it reads and writes the key [0x10]. *)
Definition request (n : N) : ResolverPrepare :=
  {| rpp_cell_id := CELL; rpp_tenant_id := TENANT; rpp_generation := 1; rpp_map_epoch := 1;
     rpp_transaction_identity := ident n; rpp_candidate_sequence := 1;
     rpp_read_version := {| crv_generation := 1; crv_sequence := 0 |};
     rpp_resolver_read_sequence := 0; rpp_transaction_sha256 := [n];
     rpp_read_conflicts := [range_point [16%N]];
     rpp_write_conflicts := [range_point [16%N]] |}.

Definition prepare (io : PersistIo) (w : ResolverProcess) (n : N) :=
  apply_resolver_request prefix_digest (config 1) partition (λ _, io) w (RqPrepare (request n)).
Definition failed := prepare BeforeRename empty 1.
Definition retried := prepare Persisted failed.1 1.
Definition restarted := ok_or empty (restart (config 1) retried.1).
Definition other := prepare Persisted restarted 2.
End demo_resolver.
Import demo_cell demo_resolver.

(** A prepare, a restart, a crash, and a failed write that is followed by a
    restart and a retry. *)
Definition resolver_events : list ResolverEvent :=
  [Serve (RqPrepare (demo_resolver.request 1)) (λ _, Persisted); Restart;
   Crash (RqPrepare (demo_resolver.request 2)) (λ _, AfterRename);
   Serve (RqFinalize {| rpf_candidate_sequence := 1; rpf_transaction_sha256 := [1%N];
                        rpf_global_status := TConflict; rpf_commit_sequence := None |}) (λ _, BeforeRename);
   Restart; Serve (RqPrepare (demo_resolver.request 1)) (λ _, Persisted)].

Lemma resolver_decisions_final_witness :
  ∃ w handed_out s,
    resolver_run prefix_digest (demo_resolver.config 1) demo_resolver.partition
      resolver_events demo_resolver.empty [] = Ok (w, handed_out) ∧
    load_resolver_state (rp_file w) = Ok s.
Proof.
  destruct (resolver_decisions_final prefix_digest (demo_resolver.config 1)
    demo_resolver.partition eq_refl eq_refl demo_resolver.demo_codec
    resolver_events demo_resolver.empty)
    as (w & l & s & Hrun & Hload & _).
  - vm_compute. reflexivity.
  - vm_compute. reflexivity.
  - exists w, l, s. split; [exact Hrun|exact Hload].
Defined.

(** A failed persist makes a resolver contradict itself. The memory is
    changed before the file is written, and not changed back when that fails. In
    this run the first prepare of candidate 1 is answered with an error, its
    retry is answered from memory although no file exists, and after a restart
    candidate 1 is accepted for another transaction: two signed decisions for
    one candidate, of which the first is nowhere. *)
Theorem failed_persist_equivocates :
  demo_resolver.failed.2 = Err PersistFailed ∧
  rp_file demo_resolver.retried.1 = None ∧
  ∃ a1 a2,
    demo_resolver.retried.2 = Ok (RsPrepared a1) ∧
    demo_resolver.other.2 = Ok (RsPrepared a2) ∧
    rds_candidate_sequence (rda_statement a1) = rds_candidate_sequence (rda_statement a2) ∧
    rds_decision (rda_statement a1) = RAccept ∧ rds_decision (rda_statement a2) = RAccept ∧
    rds_transaction_identity (rda_statement a1) ≠ rds_transaction_identity (rda_statement a2).
Proof.
  split; [vm_compute; reflexivity|]. split; [vm_compute; reflexivity|].
  eexists _, _. split; [vm_compute; reflexivity|]. split; [vm_compute; reflexivity|].
  split_and!; try reflexivity. discriminate.
Qed.
