(* ===== verification/ResolverContract.v ===== *)
(** * The contract of the partitioned resolvers

    The contract of [okv-consensus/src/partitioned_resolver.rs]: a coordinator
    prepares every transaction at the resolvers whose ranges it touches, submits
    it with their attestations to the cell's authority, and tells the resolvers
    the outcome. The contract run of the source compares each outcome with the
    decision of an oracle that knows every write, on generated histories. The
    authority is the direct path of the cell domain; a command reaches it in
    the canonical form of its encoding. *)

From S2P Require Import Prelude Order BTree Bytes Version Quorum Envelope Persist.
From S2P Require Import CellState CellDemo CellPartition CommandCodec Resolver ResolverRuns.

(** ** The oracle *)
Record ResolverOracle := {
  or_latest_sequence : N;
  or_rows : gmap bytes bytes;
  or_writes : list ResolverCommittedWrite;
  or_committed : N;
  or_conflicts : N;
}.
Definition ResolverOracle_default : ResolverOracle :=
  {| or_latest_sequence := 0; or_rows := ∅; or_writes := []; or_committed := 0;
     or_conflicts := 0 |}.

Definition oracle_decision (o : ResolverOracle) (command : CellTransactionCommand)
    : CellTransactionStatus :=
  if resolver_conflict (ct_read_conflicts command) (crv_sequence (ct_read_version command))
       (or_writes o) then TConflict else TCommitted.

(** [None] is a committed outcome without a sequence, on which the code panics. *)
Definition oracle_apply (o : ResolverOracle) (command : CellTransactionCommand)
    (status : CellTransactionStatus) (sequence : option N) : option ResolverOracle :=
  match status with
  | TCommitted =>
      (λ sequence,
         {| or_latest_sequence := sequence;
            or_rows := apply_mutations (ct_mutations command) (or_rows o);
            or_writes := or_writes o ++ resolver_writes sequence (ct_write_conflicts command);
            or_committed := or_committed o + 1; or_conflicts := or_conflicts o |}) <$> sequence
  | TConflict =>
      Some {| or_latest_sequence := or_latest_sequence o; or_rows := or_rows o;
              or_writes := or_writes o; or_committed := or_committed o;
              or_conflicts := or_conflicts o + 1 |}
  | _ => Some o
  end.

(** ** The coordinator *)
Definition touches (command : CellTransactionCommand) (partition : CellResolverPartition) : bool :=
  existsb (λ range, range_overlaps range (owned_range partition))
    (ct_read_conflicts command ++ ct_write_conflicts command).

Definition required_resolvers (command : CellTransactionCommand) : list N :=
  crp_resolver_id <$> List.filter (touches command) cell_resolver_partitions.

Definition clip_ranges (ranges : list CellKeyRange) (start stop : bytes) : list CellKeyRange :=
  let owned := {| ckr_start := start; ckr_end := stop |} in
  sort_dedup
    ((λ range, {| ckr_start := key_max (ckr_start range) (ckr_start owned);
                  ckr_end := key_min (ckr_end range) (ckr_end owned) |})
     <$> List.filter (λ range, range_overlaps range owned) ranges).

Inductive ContractError :=
  | MissingPartition
  | MissingProcess
  | Refused (e : ResolverError)
  | DigestUnavailable.

Definition prepare_request (partition : CellResolverPartition)
    (command : CellTransactionCommand) (candidate map_epoch : N) (digest : bytes)
    : ResolverPrepare :=
  {| rpp_cell_id := ct_cell_id command; rpp_tenant_id := ct_tenant_id command;
     rpp_generation := ct_generation command; rpp_map_epoch := map_epoch;
     rpp_transaction_identity := ct_identity command; rpp_candidate_sequence := candidate;
     rpp_read_version := ct_read_version command;
     rpp_resolver_read_sequence := crv_sequence (ct_read_version command);
     rpp_transaction_sha256 := digest;
     rpp_read_conflicts :=
       clip_ranges (ct_read_conflicts command) (crp_start partition) (crp_end partition);
     rpp_write_conflicts :=
       clip_ranges (ct_write_conflicts command) (crp_start partition) (crp_end partition) |}.

Record Contract := {
  con_resolvers : gmap N ResolverProcess;
  con_domain : CellDomainState;
  con_oracle : ResolverOracle;
  con_candidate : N;
  con_statuses_match : bool;
  con_restart_replay_exact : bool;
}.

Section contract.
Context (sha256 : bytes → bytes).
Context `{Ed25519} `{Ed25519Sign} `{CellJson} `{ResolverJson}.
Context (cell tenant : bytes).

(** [start_resolver] of a correct run. *)
Definition contract_config (resolver_id : N) : ResolverProcessConfig :=
  {| rpc_resolver_id := resolver_id; rpc_cell_id := cell; rpc_tenant_id := tenant;
     rpc_map_epoch := 1; rpc_transaction_system_generation := 1;
     rpc_minimum_read_sequence := 0; rpc_memory_only := false;
     rpc_acknowledge_before_durable := false; rpc_allow_map_epoch_override := false |}.

Definition find_partition (resolver_id : N) : option CellResolverPartition :=
  List.find (λ p, (crp_resolver_id p =? resolver_id)%N) cell_resolver_partitions.

Abbreviation processes := (gmap N ResolverProcess).

Definition contract_prepare (rs : processes) (resolver_id : N)
    (command : CellTransactionCommand) (candidate map_epoch : N) (digest : bytes)
    : res ContractError (processes * CellResolverDecisionAttestation) :=
  match find_partition resolver_id, rs !! resolver_id with
  | None, _ => Err MissingPartition
  | _, None => Err MissingProcess
  | Some partition, Some w =>
      let '(w, r) := resolver_prepare sha256 (contract_config resolver_id) partition Persisted w
                       (prepare_request partition command candidate map_epoch digest) in
      let? attestation := map_err Refused r in
      Ok (<[resolver_id := w]> rs, attestation)
  end.

Fixpoint prepare_all (rs : processes) (required : list N) (command : CellTransactionCommand)
    (candidate : N) (digest : bytes) (attestations : list CellResolverDecisionAttestation)
    : res ContractError (processes * list CellResolverDecisionAttestation) :=
  match required with
  | [] => Ok (rs, attestations)
  | resolver_id :: required =>
      let? '(rs, attestation) := contract_prepare rs resolver_id command candidate 1 digest in
      prepare_all rs required command candidate digest (attestations ++ [attestation])
  end.

Definition contract_finalize (rs : processes) (request : ResolverFinalize) (resolver_id : N)
    : res ContractError processes :=
  match rs !! resolver_id with
  | None => Err MissingProcess
  | Some w =>
      let '(w, r) := resolver_finalize (contract_config resolver_id) Persisted w request in
      let? _ := map_err Refused r in
      Ok (<[resolver_id := w]> rs)
  end.

(** [restart_resolver]. *)
Definition contract_restart (rs : processes) (resolver_id : N) : res ContractError processes :=
  match rs !! resolver_id with
  | None => Err MissingProcess
  | Some w =>
      let? w := map_err Refused (restart (contract_config resolver_id) w) in
      Ok (<[resolver_id := w]> rs)
  end.

(** The probe of the run: resolver 2 is restarted after its decision and asked
    again. *)
Definition restart_probe (rs : processes) (command : CellTransactionCommand) (candidate : N)
    (digest : bytes) (attestations : list CellResolverDecisionAttestation)
    : res ContractError (processes * bool) :=
  match List.find (λ a, (rds_resolver_id (rda_statement a) =? 2)%N) attestations with
  | None => Err MissingProcess
  | Some original =>
      let? rs := contract_restart rs 2 in
      let? '(rs, again) := contract_prepare rs 2 command candidate 1 digest in
      Ok (rs, bool_decide (again = original))
  end.

(** The command as it is submitted, with its evidence. *)
Definition with_resolution (command : CellTransactionCommand) (candidate : N)
    (attestations : list CellResolverDecisionAttestation) : CellTransactionCommand :=
  {| ct_identity := ct_identity command; ct_credential := ct_credential command;
     ct_cell_id := ct_cell_id command; ct_tenant_id := ct_tenant_id command;
     ct_generation := ct_generation command; ct_read_version := ct_read_version command;
     ct_read_conflicts := ct_read_conflicts command;
     ct_write_conflicts := ct_write_conflicts command; ct_mutations := ct_mutations command;
     ct_partitioned_resolution :=
       Some {| cpr_transaction_system_generation := 1;
               cpr_resolver_read_sequence := crv_sequence (ct_read_version command);
               cpr_map_epoch := 1; cpr_candidate_sequence := candidate;
               cpr_attestations := attestations |};
     ct_accepted_resolvers := ct_accepted_resolvers command;
     ct_durable_log_tags := ct_durable_log_tags command |}.

(** One attempt of [run_correct]: the authority applies it at [log_index]; the
    probe runs when [probe] says so and resolver 2 is required. *)
Definition contract_step (con : Contract) (command : CellTransactionCommand) (log_index : N)
    (probe : bool) : res ContractError Contract :=
  let candidate := con_candidate con in
  let expected := oracle_decision (con_oracle con) command in
  match cell_partitioned_transaction_sha256 sha256 command with
  | None => Err DigestUnavailable
  | Some digest =>
      let required := required_resolvers command in
      let? '(rs, attestations) :=
        prepare_all (con_resolvers con) required command candidate digest [] in
      let? '(rs, replayed) :=
        if probe && bool_decide (2%N ∈ required)
        then restart_probe rs command candidate digest attestations
        else Ok (rs, true) in
      match direct_apply sha256
              (canonicalize_transaction (with_resolution command candidate attestations))
              log_index no_fence_faults (con_domain con) with
      | Ok (domain, outcome) =>
          let? rs :=
            res_fold (λ rs, contract_finalize rs
              {| rpf_candidate_sequence := candidate; rpf_transaction_sha256 := digest;
                 rpf_global_status := ctr_status outcome;
                 rpf_commit_sequence := ctr_commit_sequence outcome |}) required rs in
          match oracle_apply (con_oracle con) command expected (ctr_commit_sequence outcome) with
          | None => Panic
          | Some oracle =>
              Ok {| con_resolvers := rs; con_domain := domain; con_oracle := oracle;
                    con_candidate := candidate + 1;
                    con_statuses_match :=
                      con_statuses_match con && bool_decide (ctr_status outcome = expected);
                    con_restart_replay_exact := con_restart_replay_exact con && replayed |}
          end
      | _ => Panic
      end
  end.

Fixpoint contract_run (ops : list (CellTransactionCommand * N * bool)) (con : Contract)
    : res ContractError Contract :=
  match ops with
  | [] => Ok con
  | (command, log_index, probe) :: ops =>
      let? con := contract_step con command log_index probe in
      contract_run ops con
  end.

(** Three started resolvers without files, an empty domain and oracle. *)
Definition contract_start : Contract :=
  {| con_resolvers :=
       list_to_map ((λ p, (crp_resolver_id p,
         {| rp_state := ResolverState_default; rp_file := None |})) <$> cell_resolver_partitions);
     con_domain := CellDomainState_new cell tenant 1; con_oracle := ResolverOracle_default;
     con_candidate := 1; con_statuses_match := true; con_restart_replay_exact := true |}.

(** ** Histories *)

(** The oracle alone, on the same history. *)
Definition oracle_next (o : ResolverOracle) (command : CellTransactionCommand) (log_index : N)
    : ResolverOracle :=
  default o (oracle_apply o command (oracle_decision o command) (Some log_index)).

Definition in_range_map (r : CellKeyRange) : bool :=
  ([0%N] ≤ₖ? ckr_start r) && (ckr_end r ≤ₖ? [240%N]).

(** The envelope of a command fits its length field. *)
Definition command_small (command : CellTransactionCommand) : bool :=
  let c := canonicalize_transaction command in
  match to_vec (ct_read_conflicts c), to_vec (ct_write_conflicts c), to_vec (ct_mutations c) with
  | Some reads, Some writes, Some mutations =>
      (len reads + len writes + len mutations <=? 2147483648)%N
  | _, _, _ => false
  end.

(** The commands of a history: valid requests of the cell's first generation
    that read at a version the oracle knows, whose ranges the map covers, and
    that the log places after what was committed. *)
Definition contract_command (o : ResolverOracle) (command : CellTransactionCommand)
    (log_index : N) : bool :=
  bool_decide (ct_cell_id command = cell) && bool_decide (ct_tenant_id command = tenant)
  && (ct_generation command =? 1)%N
  && ((crv_sequence (ct_read_version command) =? 0)%N
      || (crv_generation (ct_read_version command) =? 1)%N)
  && (crv_sequence (ct_read_version command) <=? or_latest_sequence o)%N
  && contains_all (ct_durable_log_tags command) REQUIRED_LOG_TAGS
  && valid_request command
  && forallb in_range_map (ct_read_conflicts command ++ ct_write_conflicts command)
  && (or_latest_sequence o <? log_index)%N && command_small command.

Fixpoint contract_history (o : ResolverOracle) (ops : list (CellTransactionCommand * N * bool))
    : bool :=
  match ops with
  | [] => true
  | (command, log_index, _) :: ops =>
      contract_command o command log_index && contract_history (oracle_next o command log_index) ops
  end.
Definition oracle_run (o : ResolverOracle) (ops : list (CellTransactionCommand * N * bool))
    : ResolverOracle :=
  foldl (λ o op, oracle_next o op.1.1 op.1.2) o ops.
End contract.
