(* ===== verification/ResolverAgreement.v ===== *)
(** * Agreement of partitioned resolution with a central oracle

    Every history of the contract of [ResolverContract] agrees with its oracle:
    the resolvers together know exactly the oracle's writes, each clipped to its
    range, so some resolver sees a conflict exactly when the oracle does; the
    authority verifies their evidence and decides accordingly. *)

From S2P Require Import Prelude Order BTree Bytes Version Quorum Envelope EnvelopeCodec Persist.
From S2P Require Import CellState CellSerial CellDemo CellPartition CommandCodec.
From S2P Require Import Resolver ResolverRuns ResolverContract.

(** ** Ranges *)
Abbreviation written seq r := {| rcw_sequence := seq; rcw_range := r |}.

(** What a resolver should know of the oracle's writes. *)
Definition knows (p : CellResolverPartition) (known writes : list ResolverCommittedWrite) : Prop :=
  ∀ seq r', written seq r' ∈ known ↔
    ∃ r, written seq r ∈ writes ∧ range_overlaps r (owned_range p) = true ∧ r' = clip p r.

Definition writes_valid (writes : list ResolverCommittedWrite) : Prop :=
  ∀ seq r, written seq r ∈ writes → range_valid r = true.

Lemma resolver_conflict_true reads n writes :
  resolver_conflict reads n writes = true ↔
  ∃ r seq w, r ∈ reads ∧ written seq w ∈ writes ∧ (n < seq)%N ∧ range_overlaps r w = true.
Proof.
  unfold resolver_conflict. rewrite existsb_exists'. split.
  - intros (r & Hr & ([seq w] & Hw & [Hn Ho]%andb_true_iff)%existsb_exists').
    apply N.ltb_lt in Hn. by exists r, seq, w.
  - intros (r & seq & w & Hr & Hw & Hn & Ho). exists r. split; [done|].
    apply existsb_exists'. exists (written seq w). split; [done|].
    apply andb_true_iff. split; [by apply N.ltb_lt|done].
Qed.

Lemma partition_valid p : p ∈ cell_resolver_partitions → range_valid (owned_range p) = true.
Proof.
  unfold cell_resolver_partitions. rewrite !elem_of_cons, elem_of_nil.
  by intros [->|[->|[->|[]]]].
Qed.

Lemma in_range_map_keys r k :
  in_range_map r = true → range_contains r k = true → in_map k.
Proof.
  unfold in_range_map, in_map. rewrite andb_true_iff, range_contains_spec.
  intros [H1 H2] [H3 H4]. split; key_order.
Qed.

(** Some resolver sees a conflict exactly when there is one. *)
Lemma conflict_exact reads n writes known :
  Forall (λ r, range_valid r = true ∧ in_range_map r = true) reads → writes_valid writes →
  (∀ p, p ∈ cell_resolver_partitions → knows p (known p) writes) →
  (∃ p, p ∈ cell_resolver_partitions ∧
     resolver_conflict (clipped_conflicts reads p) n (known p) = true) ↔
  resolver_conflict reads n writes = true.
Proof.
  rewrite Forall_forall. intros Hreads Hwrites Hknown. setoid_rewrite resolver_conflict_true.
  split.
  - intros (p & Hp & r' & seq & w' & (r & Hr & Hor & ->)%elem_of_clipped & Hw & Hn & Ho).
    apply Hknown in Hw as (w & Hw & How & ->); [|done].
    exists r, seq, w. split_and!; [done..|].
    apply overlaps_shared_key in Ho as (k & [Hkr _]%clip_contains & [Hkw _]%clip_contains).
    + by apply (contains_overlaps _ _ k).
    + by apply clip_valid; [apply Hreads|apply partition_valid|].
    + by apply clip_valid; [eapply Hwrites|apply partition_valid|].
  - intros (r & seq & w & Hr & Hw & Hn & Ho). destruct (Hreads r Hr) as [Hv Hm].
    apply overlaps_shared_key in Ho as (k & Hkr & Hkw); [|done|by eapply Hwrites].
    assert (in_map k) as (p & Hp & Hkp)%in_map_partition by by eapply in_range_map_keys.
    exists p. split; [done|]. exists (clip p r), seq, (clip p w). split_and!; [..|done|].
    + apply elem_of_clipped. exists r. split_and!; [done|by eapply contains_overlaps|done].
    + apply Hknown; [done|]. exists w. split_and!; [done|by eapply contains_overlaps|done].
    + apply (contains_overlaps _ _ k); by apply clip_contains.
Qed.

Lemma clipped_same l l' p :
  (∀ r, r ∈ l ↔ r ∈ l') → clipped_conflicts l p = clipped_conflicts l' p.
Proof.
  intros Hiff. apply sorted_lt_ext; [apply sort_dedup_sorted..|].
  intros r. rewrite !elem_of_clipped. naive_solver.
Qed.

Lemma clipped_owned l p r :
  p ∈ cell_resolver_partitions → Forall (λ r, range_valid r = true) l →
  r ∈ clipped_conflicts l p → range_valid r = true ∧ outside_owned p r = false.
Proof.
  rewrite Forall_forall. intros Hp%partition_valid Hl (r0 & Hr & Ho & ->)%elem_of_clipped.
  split; [by apply clip_valid; auto|]. unfold outside_owned. fold (owned_range p).
  apply overlaps_shared_key in Ho as (k & Hk & Hkp); [|by auto..].
  rewrite (contains_overlaps _ _ k); [|by apply clip_contains|done]. cbn.
  unfold key_max, key_min.
  destruct (crp_start p <ₖ? ckr_start r0) eqn:E1, (crp_end p <ₖ? ckr_end r0) eqn:E2; cbn;
    rewrite ?orb_false_iff; split_and?; key_order.
Qed.

Lemma touches_clipped c p :
  negb (bool_decide (clipped_conflicts (ct_read_conflicts c) p = []))
  || negb (bool_decide (clipped_conflicts (ct_write_conflicts c) p = [])) = touches c p.
Proof.
  assert (∀ l, negb (bool_decide (clipped_conflicts l p = [])) =
    existsb (λ range, range_overlaps range (owned_range p)) l) as Heq.
  { intros l. apply eq_true_iff_eq. rewrite existsb_exists', negb_true_iff, bool_decide_eq_false.
    split.
    - intros Hne. destruct (clipped_conflicts l p) as [|r rs] eqn:E; [done|].
      assert (r ∈ clipped_conflicts l p) as (r0 & ? & ? & _)%elem_of_clipped
        by (rewrite E; constructor). eauto.
    - intros (r & Hr & Ho) E. assert (clip p r ∈ clipped_conflicts l p) as Hin
        by (apply elem_of_clipped; eauto). rewrite E in Hin. by apply elem_of_nil in Hin. }
  rewrite !Heq. unfold touches. by rewrite existsb_app.
Qed.

(** ** Evidence *)
Lemma sort_dedup_idem `{EqDecision A, !KeyOrder A} (l : list A) :
  sort_dedup (sort_dedup l) = sort_dedup l.
Proof. apply sort_dedup_ext. intros. apply elem_of_sort_dedup. Qed.

Lemma sort_by_key_sorted {A} (key : A → N) l :
  StronglySorted N.le (key <$> l) → sort_by_key key l = l.
Proof.
  induction l as [|x l IH]; [done|]. rewrite fmap_cons. intros Hs. inversion Hs as [|? ? Hl Hx]; subst.
  unfold sort_by_key. cbn [foldr]. fold (sort_by_key key l). rewrite IH by done.
  destruct l as [|y l]; [done|]. cbn. rewrite fmap_cons in Hx. apply Forall_cons in Hx as [Hx _].
  by rewrite (proj2 (N.leb_le _ _)).
Qed.

Definition touched (c : CellTransactionCommand) : list CellResolverPartition :=
  List.filter (touches c) cell_resolver_partitions.

Lemma touched_in c p : p ∈ touched c ↔ p ∈ cell_resolver_partitions ∧ touches c p = true.
Proof. unfold touched. by rewrite !list_elem_of_In, filter_In. Qed.

Lemma touched_sorted c : StronglySorted N.lt (crp_resolver_id <$> touched c).
Proof.
  unfold touched, cell_resolver_partitions. cbn [List.filter].
  destruct (touches c _), (touches c _), (touches c _); cbn; repeat constructor; lia.
Qed.

Lemma touched_ascending c : StronglySorted N.le (crp_resolver_id <$> touched c).
Proof.
  induction (touched_sorted c) as [|x l _ IH Hx]; constructor; [done|].
  eapply Forall_impl; [done|]. lia.
Qed.

Lemma touched_NoDup c : NoDup (crp_resolver_id <$> touched c).
Proof.
  pose proof (touched_sorted c) as Hs. induction Hs as [|x l _ IH Hx]; constructor; [|done].
  intros Hin. rewrite Forall_forall in Hx. specialize (Hx x Hin). lia.
Qed.

Lemma partition_id_inj p q :
  p ∈ cell_resolver_partitions → q ∈ cell_resolver_partitions →
  crp_resolver_id p = crp_resolver_id q → p = q.
Proof.
  unfold cell_resolver_partitions. rewrite !elem_of_cons, !elem_of_nil.
  intros [->|[->|[->|[]]]] [->|[->|[->|[]]]]; by intros [=].
Qed.

Lemma find_partition_id p :
  p ∈ cell_resolver_partitions → find_partition (crp_resolver_id p) = Some p.
Proof.
  unfold cell_resolver_partitions. rewrite !elem_of_cons, !elem_of_nil.
  by intros [->|[->|[->|[]]]].
Qed.

Lemma required_partitions_touched c :
  required_partitions c =
  list_to_map ((λ p, (crp_resolver_id p,
    (clipped_conflicts (ct_read_conflicts c) p, clipped_conflicts (ct_write_conflicts c) p)))
    <$> touched c).
Proof.
  unfold required_partitions, touched, cell_resolver_partitions. cbn [foldl List.filter].
  rewrite !touches_clipped.
  destruct (touches c _), (touches c _), (touches c _); cbn [fmap list_fmap];
    repeat match goal with |- context [(clipped_conflicts ?a ?p, ?b)] =>
      generalize (clipped_conflicts a p, b) end; intros; vm_compute; reflexivity.
Qed.

Lemma required_lookup c p :
  p ∈ touched c →
  required_partitions c !! crp_resolver_id p =
  Some (clipped_conflicts (ct_read_conflicts c) p, clipped_conflicts (ct_write_conflicts c) p).
Proof.
  intros Hp. rewrite required_partitions_touched. apply elem_of_list_to_map.
  - rewrite <-list_fmap_compose. apply touched_NoDup.
  - by apply (list_elem_of_fmap_2' _ _ p).
Qed.

Lemma required_size c : size (required_partitions c) = length (touched c).
Proof.
  rewrite required_partitions_touched, map_size_list_to_map; [by rewrite length_fmap|].
  rewrite <-list_fmap_compose. apply touched_NoDup.
Qed.

Section agreement.
Context (sha256 : bytes → bytes).
Context `{Ed25519} `{Ed25519Sign} `{CellJson} `{ResolverJson}.
Context (cell tenant : bytes).

(** Documented behaviour of the libraries: SHA-256 digests have 32 bytes, an
    Ed25519 signature verifies under the public key of its seed, and
    [serde_json] writes every value of these types and reads back what it wrote. *)
Hypothesis sha256_len : digest_len sha256.
Hypothesis sign_verify : ∀ seed m, length seed = 32 →
  ed25519_verify (ed25519_public_key seed) m (ed25519_sign seed m) = true.
Hypothesis state_codec : ∀ s : ResolverState,
  ∃ b, to_vec s = Some b ∧ resolver_state_from_slice b = Some s.
Hypothesis json_command : ∀ c : CellTransactionCommand, is_Some (to_vec c).
Hypothesis json_map : is_Some (to_vec cell_resolver_partitions).
Hypothesis json_statement : ∀ st : CellResolverDecisionStatement, is_Some (to_vec st).
(** The identifiers are [[u8; 16]]. *)
Hypothesis cell_len : length cell = 16.
Hypothesis tenant_len : length tenant = 16.

(** The statement of a resolver about a command, but for its decision. *)
Definition statement_of (c : CellTransactionCommand) (candidate : N) (digest m : bytes)
    (p : CellResolverPartition) (decision : CellResolverDecision)
    : CellResolverDecisionStatement :=
  {| rds_format_version := 1; rds_cell_id := ct_cell_id c; rds_tenant_id := ct_tenant_id c;
     rds_generation := ct_generation c; rds_map_epoch := 1; rds_map_sha256 := m;
     rds_resolver_id := crp_resolver_id p;
     rds_resolver_incarnation := cell_resolver_incarnation (crp_resolver_id p);
     rds_transaction_identity := ct_identity c; rds_candidate_sequence := candidate;
     rds_read_version := ct_read_version c;
     rds_resolver_read_sequence := crv_sequence (ct_read_version c);
     rds_transaction_sha256 := digest;
     rds_read_conflicts := clipped_conflicts (ct_read_conflicts c) p;
     rds_write_conflicts := clipped_conflicts (ct_write_conflicts c) p;
     rds_decision := decision |}.

Definition attests c candidate digest m p (a : CellResolverDecisionAttestation) : Prop :=
  sign_cell_resolver_decision sha256 (rda_statement a) = Ok a ∧
  rda_statement a = statement_of c candidate digest m p (rds_decision (rda_statement a)).

Lemma sign_total st : ∃ a, sign_cell_resolver_decision sha256 st = Ok a ∧ rda_statement a = st.
Proof.
  unfold sign_cell_resolver_decision, cell_resolver_private_key_seed, resolver_signing_bytes.
  rewrite sha256_len. cbn. destruct (json_statement st) as [b ->]. cbn. eauto.
Qed.

Lemma sign_verifies st a :
  sign_cell_resolver_decision sha256 st = Ok a →
  ∃ b, resolver_signing_bytes st = Some b ∧
    ed25519_verify (cell_resolver_public_key sha256 (rds_resolver_id st)
      (rds_resolver_incarnation st)) b (rda_signature a) = true.
Proof.
  unfold sign_cell_resolver_decision. destruct (_ =? 32) eqn:Hl; [|done].
  destruct (resolver_signing_bytes st) as [b|]; [|done]. intros [= <-].
  exists b. split; [done|]. cbn. apply sign_verify. by apply Nat.eqb_eq.
Qed.

(** The command as the authority sees it. *)
Abbreviation submitted c candidate l :=
  (canonicalize_transaction (with_resolution c candidate l)).

Lemma submitted_reads c candidate l r :
  r ∈ ct_read_conflicts (submitted c candidate l) ↔ r ∈ ct_read_conflicts c.
Proof. apply elem_of_sort_dedup. Qed.
Lemma submitted_writes c candidate l r :
  r ∈ ct_write_conflicts (submitted c candidate l) ↔ r ∈ ct_write_conflicts c.
Proof. apply elem_of_sort_dedup. Qed.

Lemma submitted_touched c candidate l : touched (submitted c candidate l) = touched c.
Proof.
  unfold touched. apply filter_ext. intros p. unfold touches. apply existsb_same. intros r.
  by rewrite !elem_of_app, submitted_reads, submitted_writes.
Qed.

Lemma submitted_digest c candidate l :
  cell_partitioned_transaction_sha256 sha256 (submitted c candidate l) =
  cell_partitioned_transaction_sha256 sha256 c.
Proof.
  unfold cell_partitioned_transaction_sha256, canonicalize_transaction.
  cbn -[sort_dedup to_vec]. by rewrite !sort_dedup_idem.
Qed.

Definition combined (l : list CellResolverDecisionAttestation) : CellResolverDecision :=
  if existsb (λ a, bool_decide (rds_decision (rda_statement a) = RConflict)) l
  then RConflict else RAccept.

(** Attestations of the touched resolvers, in the order of the map. *)
Lemma attests_ids c candidate digest m ps l :
  Forall2 (attests c candidate digest m) ps l →
  (λ a, rds_resolver_id (rda_statement a)) <$> l = crp_resolver_id <$> ps.
Proof.
  induction 1 as [|p a ps l [_ Hst] _ IH]; [done|]. rewrite !fmap_cons, IH. f_equal.
  by rewrite Hst.
Qed.

Lemma submitted_attestations c candidate digest m l :
  Forall2 (attests c candidate digest m) (touched c) l →
  ct_partitioned_resolution (submitted c candidate l) =
  Some {| cpr_transaction_system_generation := 1;
          cpr_resolver_read_sequence := crv_sequence (ct_read_version c);
          cpr_map_epoch := 1; cpr_candidate_sequence := candidate; cpr_attestations := l |}.
Proof.
  intros Hl. cbn -[sort_by_key sort_dedup]. rewrite sort_by_key_sorted; [done|].
  rewrite (attests_ids _ _ _ _ _ _ Hl). apply touched_ascending.
Qed.

Lemma attested_ok c candidate digest m l p a resolution :
  ct_generation c = 1%N → cpr_map_epoch resolution = 1%N →
  cpr_candidate_sequence resolution = candidate →
  p ∈ touched c → attests c candidate digest m p a →
  resolver_statement_ok sha256 (submitted c candidate l) resolution 1
    (crv_sequence (ct_read_version c)) digest m (required_partitions (submitted c candidate l)) a
  = true.
Proof.
  intros Hg He Hc Hp [Hsign Hst]. unfold resolver_statement_ok.
  assert (p ∈ touched (submitted c candidate l)) as Hp' by by rewrite submitted_touched.
  destruct (sign_verifies _ _ Hsign) as (b & Hb & Hv).
  rewrite Hb, Hv. rewrite Hst. cbn [statement_of rds_resolver_id].
  rewrite (required_lookup _ _ Hp').
  rewrite (clipped_same _ _ p (submitted_reads c candidate l)).
  rewrite (clipped_same _ _ p (submitted_writes c candidate l)).
  cbn. rewrite Hg, He, Hc, !bool_decide_true, !N.eqb_refl by done. done.
Qed.

Lemma evidence_verified c candidate digest m l resolution :
  ct_generation c = 1%N → (0 < candidate)%N → touched c ≠ [] →
  cell_partitioned_transaction_sha256 sha256 c = Some digest →
  cell_resolver_map_sha256 sha256 = Ok m →
  Forall2 (attests c candidate digest m) (touched c) l →
  ct_partitioned_resolution (submitted c candidate l) = Some resolution →
  verify_partitioned_resolution sha256 (submitted c candidate l) resolution =
  Ok (Some (combined l)).
Proof.
  intros Hg Hcand Hne Hdig Hm Hl Hres.
  rewrite (submitted_attestations _ _ _ _ _ Hl) in Hres. injection Hres as <-.
  unfold verify_partitioned_resolution.
  cbn [cpr_map_epoch cpr_candidate_sequence cpr_resolver_read_sequence cpr_attestations].
  rewrite (proj2 (N.eqb_neq candidate 0)) by lia. cbn [negb orb N.eqb Pos.eqb].
  rewrite submitted_digest, Hdig, Hm. cbn [res_bind].
  pose proof (attests_ids _ _ _ _ _ _ Hl) as Hids.
  assert (length l = length (touched c)) as Hlen by (symmetry; by eapply Forall2_length).
  rewrite required_size, submitted_touched, Hlen, Nat.eqb_refl.
  rewrite bool_decide_false. 2:{ intros E. apply (f_equal size) in E.
    rewrite required_size, submitted_touched, map_size_empty in E.
    by apply nil_length_inv in E. }
  cbn [negb orb].
  replace (if (crv_sequence (ct_read_version c) =? 0)%N then
      crv_sequence (ct_read_version (submitted c candidate l))
    else crv_sequence (ct_read_version c)) with (crv_sequence (ct_read_version c))
    by (by destruct (_ =? 0)%N).
  unfold resolution_generation. cbn [cpr_transaction_system_generation N.eqb].
  match goal with |- context [attest_loop ?s ?ok l ∅] =>
    assert (attest_loop s ok l ∅ = Some (list_to_set (s <$> l) ∪ ∅)) as -> end.
  { apply attest_loop_spec. split_and!; [rewrite Hids; apply touched_NoDup| |done].
    intros a Ha. split; [|set_solver].
    apply list_elem_of_lookup in Ha as [i Hi].
    destruct (Forall2_lookup_r _ _ _ _ _ Hl Hi) as (p & Hp & Hatt).
    eapply attested_ok; [done..| |done]. by apply list_elem_of_lookup_2 in Hp. }
  rewrite union_empty_r_L, size_list_to_set by (rewrite Hids; apply touched_NoDup).
  rewrite length_fmap, Hlen, Nat.eqb_refl. done.
Qed.

(** ** One resolver and one transaction *)
Abbreviation config p := (contract_config cell tenant (crp_resolver_id p)).

(** Between transactions every decision is disposed of. *)
Definition idle (candidate : N) (writes : list ResolverCommittedWrite)
    (p : CellResolverPartition) (w : ResolverProcess) : Prop :=
  in_sync w ∧
  (∀ k q, rs_prepared (rp_state w) !! k = Some q → rpd_finalized q = true ∧ (k < candidate)%N) ∧
  (rs_last_candidate (rp_state w) < candidate)%N ∧
  knows p (rs_committed_writes (rp_state w)) writes.

(** After a prepare its decision is open, and follows from what is known. *)
Definition waiting c candidate digest m (writes : list ResolverCommittedWrite)
    (p : CellResolverPartition) (a : CellResolverDecisionAttestation) (w : ResolverProcess) : Prop :=
  in_sync w ∧ attests c candidate digest m p a ∧
  rs_prepared (rp_state w) !! candidate =
    Some {| rpd_statement := rda_statement a; rpd_finalized := false |} ∧
  (∀ k q, k ≠ candidate → rs_prepared (rp_state w) !! k = Some q →
     rpd_finalized q = true ∧ (k < candidate)%N) ∧
  rs_last_candidate (rp_state w) = candidate ∧
  knows p (rs_committed_writes (rp_state w)) writes ∧
  rds_decision (rda_statement a) =
    if resolver_conflict (clipped_conflicts (ct_read_conflicts c) p)
         (crv_sequence (ct_read_version c)) (rs_committed_writes (rp_state w))
    then RConflict else RAccept.

Definition command_ok (c : CellTransactionCommand) : Prop :=
  ct_cell_id c = cell ∧ ct_tenant_id c = tenant ∧ ct_generation c = 1%N ∧
  Forall (λ r, range_valid r = true) (ct_read_conflicts c) ∧
  Forall (λ r, range_valid r = true) (ct_write_conflicts c).

Lemma canonical_request p c candidate digest :
  canonical_prepare (prepare_request p c candidate 1 digest) = prepare_request p c candidate 1 digest.
Proof.
  unfold canonical_prepare, prepare_request, clip_ranges. cbn -[sort_dedup].
  by rewrite !sort_dedup_idem.
Qed.

Lemma request_accepted p c candidate digest :
  p ∈ cell_resolver_partitions → command_ok c → (0 < candidate)%N →
  let q := prepare_request p c candidate 1 digest in
  prepare_valid (config p) q = true ∧
  existsb (outside_owned p) (rpp_read_conflicts q ++ rpp_write_conflicts q) = false.
Proof.
  intros Hp (Hcell & Htenant & Hg & Hr & Hw) Hcand q. split.
  - unfold prepare_valid, q. cbn -[clip_ranges]. rewrite Hcell, Htenant, Hg.
    rewrite !bool_decide_true, (proj2 (N.eqb_neq candidate 0)) by (done || lia). cbn -[clip_ranges].
    rewrite (proj2 (N.leb_le 0 _)) by lia. rewrite !andb_true_iff, !forallb_Forall.
    split_and!; [done|apply Forall_forall; intros r Hin;
      by apply (clipped_owned _ _ _ Hp) in Hin as [? _]..].
  - apply existsb_false. intros r [Hin|Hin]%elem_of_app;
      by apply (clipped_owned _ _ _ Hp) in Hin as [_ ?].
Qed.

Lemma prepare_idle p c candidate digest m writes w :
  p ∈ cell_resolver_partitions → command_ok c → (0 < candidate)%N →
  cell_resolver_map_sha256 sha256 = Ok m → idle candidate writes p w →
  ∃ w' a,
    resolver_prepare sha256 (config p) p Persisted w (prepare_request p c candidate 1 digest)
      = (w', Ok a) ∧ waiting c candidate digest m writes p a w'.
Proof.
  intros Hp Hc Hcand Hm (Hs & Hdone & Hlast & Hknows).
  destruct (request_accepted p c candidate digest) as [Hv Ho]; [done..|].
  set (q := prepare_request p c candidate 1 digest) in *.
  assert (canonical_prepare q = q) as Hq by apply canonical_request.
  unfold resolver_prepare. rewrite !Hq.
  rewrite Hv, Ho. cbn [negb].
  destruct (rs_prepared (rp_state w) !! rpp_candidate_sequence q) as [?|] eqn:Hnew.
  { apply Hdone in Hnew as [_ Hlt]. cbn in Hlt. lia. }
  rewrite (proj2 (bt_any_false _ _)) by (intros k r [-> _]%Hdone; done).
  cbn [rpc_memory_only contract_config negb andb].
  rewrite (proj2 (N.leb_gt _ _)) by (cbn; lia). rewrite Hm.
  set (st := decision_statement _ _ _ _).
  destruct (sign_total st) as (a & Hsign & Hst). rewrite Hsign.
  cbn [rpc_acknowledge_before_durable contract_config negb].
  destruct (persist_resolver_state _ _) as [w' r] eqn:Hpersist.
  unfold persist_resolver_state in Hpersist. cbn [rp_state] in Hpersist.
  destruct (state_codec (remember (rp_state w) st false)) as (b & Hb & Hload).
  rewrite Hb in Hpersist. cbn in Hpersist. injection Hpersist as <- <-.
  eexists _, a. split; [done|]. split_and!; cbn.
  - unfold in_sync, load_resolver_state. cbn. by rewrite Hload.
  - split; rewrite Hst; [done|]. reflexivity.
  - by rewrite lookup_insert_eq, Hst.
  - intros k r Hk. rewrite lookup_insert_ne by done. apply Hdone.
  - done.
  - done.
  - by rewrite Hst.
Qed.

(** The answer to a retry is the same, and changes nothing. *)
Lemma prepare_waiting p c candidate digest m writes a w :
  p ∈ cell_resolver_partitions → command_ok c → (0 < candidate)%N →
  waiting c candidate digest m writes p a w →
  resolver_prepare sha256 (config p) p Persisted w (prepare_request p c candidate 1 digest)
    = (w, Ok a).
Proof.
  intros Hp Hc Hcand (_ & [Hsign Hst] & Hlook & _).
  destruct (request_accepted p c candidate digest) as [Hv Ho]; [done..|].
  set (q := prepare_request p c candidate 1 digest) in *.
  assert (canonical_prepare q = q) as Hq by apply canonical_request.
  unfold resolver_prepare. rewrite !Hq.
  rewrite Hv, Ho. cbn [negb]. change (rpp_candidate_sequence q) with candidate.
  rewrite Hlook. cbn [rpd_statement].
  assert (same_prepare (rda_statement a) q = true) as ->; [|by rewrite Hsign].
  rewrite Hst. unfold same_prepare. cbn -[clip_ranges clipped_conflicts].
  by rewrite !bool_decide_true, !N.eqb_refl.
Qed.

Lemma restart_in_sync p w :
  p ∈ cell_resolver_partitions → in_sync w → restart (config p) w = Ok w.
Proof.
  intros Hp Hs. unfold restart, resolver_start.
  change (List.find _ cell_resolver_partitions) with (find_partition (crp_resolver_id p)).
  rewrite (find_partition_id p Hp). cbn. rewrite Hs. by destruct w.
Qed.

Lemma elem_of_resolver_writes i ranges seq r :
  written seq r ∈ resolver_writes i ranges ↔ seq = i ∧ r ∈ ranges.
Proof.
  unfold resolver_writes. rewrite list_elem_of_fmap. split.
  - by intros (? & [= -> ->] & ?).
  - intros [-> ?]. eauto.
Qed.

Lemma knows_app p known writes i ranges :
  knows p known writes →
  knows p (known ++ resolver_writes i (clipped_conflicts ranges p))
    (writes ++ resolver_writes i ranges).
Proof.
  intros Hk seq r'. rewrite elem_of_app, (Hk seq r'), elem_of_resolver_writes, elem_of_clipped.
  setoid_rewrite elem_of_app. setoid_rewrite elem_of_resolver_writes. naive_solver.
Qed.

(** The writes a global outcome adds. *)
Definition outcome_writes (c : CellTransactionCommand) (commit : option N)
    : list ResolverCommittedWrite :=
  match commit with Some i => resolver_writes i (ct_write_conflicts c) | None => [] end.
Definition outcome_request (candidate : N) (digest : bytes) (commit : option N)
    : ResolverFinalize :=
  {| rpf_candidate_sequence := candidate; rpf_transaction_sha256 := digest;
     rpf_global_status := if is_some commit then TCommitted else TConflict;
     rpf_commit_sequence := commit |}.

Lemma finalize_waiting p c candidate digest m writes a w commit :
  waiting c candidate digest m writes p a w →
  (is_Some commit → rds_decision (rda_statement a) = RAccept) →
  ∃ w', resolver_finalize (config p) Persisted w (outcome_request candidate digest commit)
      = (w', Ok tt) ∧
    idle (candidate + 1) (writes ++ outcome_writes c commit) p w'.
Proof.
  intros (Hs & [_ Hst] & Hlook & Hother & Hlast & Hknows & _) Hdec.
  set (new := match commit with
              | Some i => resolver_writes i (clipped_conflicts (ct_write_conflicts c) p)
              | None => [] end).
  assert (finalized_writes {| rpd_statement := rda_statement a; rpd_finalized := false |}
            (outcome_request candidate digest commit) = Ok new) as Hnew.
  { unfold finalized_writes, new. cbn [rpf_global_status rpf_commit_sequence outcome_request
      rpd_statement]. destruct commit as [i|]; [|done]. cbn [is_some].
    rewrite bool_decide_true by eauto. cbn. by rewrite Hst. }
  unfold resolver_finalize. cbn [rpc_memory_only contract_config outcome_request
    rpf_candidate_sequence rpf_transaction_sha256]. rewrite Hlook. cbn [rpd_statement rpd_finalized].
  rewrite bool_decide_true by (by rewrite Hst). cbn [negb].
  fold (outcome_request candidate digest commit). rewrite Hnew.
  unfold persist_resolver_state. cbn [rp_state].
  match goal with |- context [to_vec ?s] => destruct (state_codec s) as (b & -> & Hload) end.
  cbn [replace_file rp_file]. eexists. split; [done|]. split_and!; cbn.
  - unfold in_sync, load_resolver_state. cbn. by rewrite Hload.
  - intros k q [[<- <-]|[Hk Hq]]%lookup_insert_Some; [split; [done|lia]|].
    destruct (Hother k q) as [? ?]; [done..|]. split; [done|lia].
  - lia.
  - unfold new, outcome_writes. destruct commit; [by apply knows_app|by rewrite !app_nil_r].
Qed.

(** ** All resolvers and one transaction *)
Lemma idle_untouched candidate writes p w c commit :
  touches c p = false → idle candidate writes p w →
  idle (candidate + 1) (writes ++ outcome_writes c commit) p w.
Proof.
  intros Ht (Hs & Hdone & Hlast & Hk). split_and!; [done| |lia|].
  - intros k q [? ?]%Hdone. split; [done|lia].
  - intros seq r'. rewrite (Hk seq r'). setoid_rewrite elem_of_app. split; [naive_solver|].
    intros (r & [Hin|Hin] & Ho & ->); [eauto|]. exfalso.
    unfold outcome_writes in Hin. destruct commit; [|by apply elem_of_nil in Hin].
    apply elem_of_resolver_writes in Hin as [_ Hin].
    unfold touches in Ht. rewrite existsb_false in Ht.
    rewrite Ht in Ho; [done|]. apply elem_of_app. by right.
Qed.

Abbreviation ids ps := (crp_resolver_id <$> ps).
Abbreviation all_waiting c candidate digest m writes rs :=
  (Forall2 (λ p a, ∃ w, rs !! crp_resolver_id p = Some w ∧
     waiting c candidate digest m writes p a w)).

Lemma prepare_all_ok c candidate digest m writes ps (rs : gmap N ResolverProcess) atts :
  command_ok c → (0 < candidate)%N → cell_resolver_map_sha256 sha256 = Ok m →
  NoDup (ids ps) → (∀ p, p ∈ ps → p ∈ cell_resolver_partitions) →
  (∀ p, p ∈ ps → ∃ w, rs !! crp_resolver_id p = Some w ∧ idle candidate writes p w) →
  ∃ rs' l,
    prepare_all sha256 cell tenant rs (ids ps) c candidate digest atts = Ok (rs', atts ++ l) ∧
    all_waiting c candidate digest m writes rs' ps l ∧
    (∀ k, k ∉ ids ps → rs' !! k = rs !! k).
Proof.
  intros Hc Hcand Hm. revert rs atts. induction ps as [|p ps IH]; intros rs atts Hnd Hin Hidle.
  { exists rs, []. rewrite app_nil_r. split_and!; [done|constructor|done]. }
  rewrite fmap_cons in *. apply NoDup_cons in Hnd as [Hp Hnd].
  destruct (Hidle p) as (w & Hw & Hi); [constructor|].
  assert (p ∈ cell_resolver_partitions) as Hpin by (apply Hin; constructor).
  destruct (prepare_idle p c candidate digest m writes w) as (w' & a & Hprep & Hwait); [done..|].
  cbn [prepare_all]. unfold contract_prepare at 1. rewrite (find_partition_id p Hpin), Hw, Hprep.
  cbn [map_err res_bind].
  destruct (IH (<[crp_resolver_id p := w']> rs) (atts ++ [a])) as (rs' & l & Hrun & Hall & Hrest).
  - done.
  - intros q Hq. apply Hin. by constructor.
  - intros q Hq. rewrite lookup_insert_ne; [apply Hidle; by constructor|].
    intros E. apply Hp. rewrite E. by apply list_elem_of_fmap_2.
  - exists rs', (a :: l). rewrite Hrun, <-app_assoc. split_and!; [done| |].
    + constructor; [|done]. exists w'. split; [|done].
      by rewrite Hrest, lookup_insert_eq.
    + intros k [Hk1 Hk2]%not_elem_of_cons. by rewrite Hrest, lookup_insert_ne.
Qed.

Lemma finalize_all_ok c candidate digest m writes commit ps l (rs0 rs : gmap N ResolverProcess) :
  all_waiting c candidate digest m writes rs0 ps l → NoDup (ids ps) →
  (∀ k, k ∈ ids ps → rs !! k = rs0 !! k) →
  (∀ a, a ∈ l → is_Some commit → rds_decision (rda_statement a) = RAccept) →
  ∃ rs',
    res_fold (λ rs, contract_finalize cell tenant rs (outcome_request candidate digest commit))
      (ids ps) rs = Ok rs' ∧
    (∀ p, p ∈ ps → ∃ w, rs' !! crp_resolver_id p = Some w ∧
       idle (candidate + 1) (writes ++ outcome_writes c commit) p w) ∧
    (∀ k, k ∉ ids ps → rs' !! k = rs !! k).
Proof.
  intros Hall. revert rs. induction Hall as [|p a ps l (w & Hw & Hwait) Hall IH]; intros rs Hnd Hsame Hdec.
  { exists rs. split_and!; [done|set_solver|done]. }
  rewrite fmap_cons in *. apply NoDup_cons in Hnd as [Hpn Hnd].
  destruct (finalize_waiting p c candidate digest m writes a w commit Hwait) as (w' & Hfin & Hidle).
  { apply Hdec. constructor. }
  cbn [res_fold]. unfold contract_finalize at 1.
  rewrite Hsame, Hw, Hfin by constructor. cbn [map_err res_bind].
  destruct (IH (<[crp_resolver_id p := w']> rs)) as (rs' & -> & Hdone & Hrest).
  - done.
  - intros k Hk. rewrite lookup_insert_ne by congruence. apply Hsame. by constructor.
  - intros b Hb. apply Hdec. by constructor.
  - exists rs'. split_and!; [done| |].
    + intros q [->|Hq]%elem_of_cons; [|by apply Hdone].
      exists w'. by rewrite Hrest, lookup_insert_eq.
    + intros k [Hk1 Hk2]%not_elem_of_cons. by rewrite Hrest, lookup_insert_ne.
Qed.

(** The restart probe changes nothing and sees the same attestation. *)
Lemma probe_ok c candidate digest m writes (rs : gmap N ResolverProcess) l :
  command_ok c → (0 < candidate)%N →
  all_waiting c candidate digest m writes rs (touched c) l → 2%N ∈ required_resolvers c →
  restart_probe sha256 cell tenant rs c candidate digest l = Ok (rs, true).
Proof.
  intros Hc Hcand Hall Hreq. unfold restart_probe.
  destruct (List.find _ l) as [a|] eqn:Hfind.
  - apply List.find_some in Hfind as [Hin Hid]. apply list_elem_of_In in Hin.
    apply list_elem_of_lookup in Hin as [i Hi].
    destruct (Forall2_lookup_r _ _ _ _ _ Hall Hi) as (p & Hp & w & Hw & Hwait).
    apply list_elem_of_lookup_2, touched_in in Hp as [Hp _].
    assert (crp_resolver_id p = 2%N) as E.
    { destruct Hwait as (_ & [_ Hst] & _). rewrite Hst in Hid. by apply N.eqb_eq in Hid. }
    unfold contract_restart. rewrite <-E, Hw, (restart_in_sync p w Hp) by apply Hwait.
    cbn [map_err res_bind]. unfold contract_prepare.
    rewrite (find_partition_id p Hp), lookup_insert_eq.
    rewrite (prepare_waiting p c candidate digest m writes a w); [|done..].
    cbn [map_err res_bind]. rewrite bool_decide_true by done.
    by rewrite insert_insert_eq, insert_id.
  - exfalso. unfold required_resolvers in Hreq. fold (touched c) in Hreq.
    apply list_elem_of_fmap in Hreq as (p & E & Hp).
    apply list_elem_of_lookup in Hp as [i Hi].
    destruct (Forall2_lookup_l _ _ _ _ _ Hall Hi) as (a & Ha & w & _ & _ & [_ Hst] & _).
    apply list_elem_of_lookup_2, list_elem_of_In in Ha.
    apply (List.find_none _ _ Hfind) in Ha. cbn in Ha. rewrite Hst in Ha. cbn in Ha.
    by rewrite <-E in Ha.
Qed.

(** ** The authority *)
Lemma commit_envelope_small c candidate l i chain :
  ct_cell_id c = cell → ct_tenant_id c = tenant → command_small c = true →
  length l ≤ 3 → length chain = 32 →
  ∃ b, commit_envelope sha256 (submitted c candidate l) i i REQUIRED_LOG_TAGS chain = Ok b.
Proof.
  intros Hcell Htenant Hsmall Hl Hchain. unfold command_small in Hsmall.
  unfold commit_envelope. set (c' := submitted c candidate l).
  change (ct_read_conflicts c') with (ct_read_conflicts (canonicalize_transaction c)).
  change (ct_write_conflicts c') with (ct_write_conflicts (canonicalize_transaction c)).
  change (ct_mutations c') with (ct_mutations (canonicalize_transaction c)).
  destruct (to_vec (ct_read_conflicts _)) as [r|]; [|done].
  destruct (to_vec (ct_write_conflicts _)) as [w|]; [|done].
  destruct (to_vec (ct_mutations _)) as [u|]; [|done].
  apply N.leb_le in Hsmall. cbn [expect res_bind].
  assert (length (required_resolver_ids c') = length l) as Hids.
  { unfold required_resolver_ids. cbn -[sort_by_key]. rewrite length_fmap.
    clear. induction l as [|x l IH]; [done|]. cbn.
    enough (∀ {A} (key : A → N) y k, length (insert_by_key key y k) = S (length k)) as Hins
      by (rewrite Hins; by f_equal).
    intros A key y k. induction k as [|z k IHk]; [done|]. cbn.
    destruct (_ <=? _)%N; cbn; [done|by rewrite IHk]. }
  match goal with |- context [from_parts sha256 ?p] =>
    destruct (from_parts_total sha256 p) as (e & b & -> & _ & Hb) end.
  - unfold lengths_wf. cbn [parts_envelope env_cell_id env_tenant_id env_client_id
      env_resolver_set_id env_previous_log_chain env_logical_fingerprint part_cell_id
      part_tenant_id part_client_id part_resolver_set_id part_previous_log_chain].
    change (ct_cell_id c') with (ct_cell_id c). change (ct_tenant_id c') with (ct_tenant_id c).
    rewrite Hcell, Htenant. split_and!; [done..| | |done|apply sha256_len].
    + unfold client_bytes. by autorewrite with len_simpl.
    + done.
  - unfold parts_fit, fits, payload_len. cbn -[len required_resolver_ids N.mul].
    assert (len (required_resolver_ids c') = len l) as -> by (unfold len; by rewrite Hids).
    assert (len l ≤ 3)%N by (unfold len; lia). unfold U32_MAX, U16_MAX.
    change (len REQUIRED_LOG_TAGS) with 2%N. change (len SIM_REQUIRED_RESOLVERS) with 2%N. lia.
  - cbn [res_bind]. eauto.
Qed.

Definition command_wf (o : ResolverOracle) (c : CellTransactionCommand) (i : N) : Prop :=
  command_ok c ∧
  (crv_sequence (ct_read_version c) = 0 ∨ crv_generation (ct_read_version c) = 1)%N ∧
  (crv_sequence (ct_read_version c) ≤ or_latest_sequence o)%N ∧
  contains_all (ct_durable_log_tags c) REQUIRED_LOG_TAGS = true ∧
  valid_request c = true ∧
  (∀ r, r ∈ ct_read_conflicts c ++ ct_write_conflicts c → in_range_map r = true) ∧
  (or_latest_sequence o < i)%N ∧ command_small c = true.

Lemma valid_request_ranges c :
  valid_request c = true →
  Forall (λ r, range_valid r = true) (ct_read_conflicts c) ∧
  Forall (λ r, range_valid r = true) (ct_write_conflicts c) ∧ ct_write_conflicts c ≠ [].
Proof.
  unfold valid_request. destruct (bool_decide (ct_mutations c = [])) eqn:E; [done|].
  destruct (existsb _ _) eqn:Hr; [done|]. cbn [orb].
  intros [_ Hcov]%andb_true_iff. rewrite existsb_false in Hr.
  assert (∀ r, r ∈ ct_read_conflicts c ++ ct_write_conflicts c → range_valid r = true) as Hv.
  { intros r Hin%Hr. by apply negb_false_iff in Hin. }
  split_and!.
  - apply Forall_forall. intros r Hin. apply Hv, elem_of_app. by left.
  - apply Forall_forall. intros r Hin. apply Hv, elem_of_app. by right.
  - intros Hnil. rewrite Hnil in Hcov. apply bool_decide_eq_false in E.
    by destruct (ct_mutations c).
Qed.

Lemma contract_command_wf o c i :
  contract_command cell tenant o c i = true → command_wf o c i.
Proof.
  unfold contract_command. rewrite !andb_true_iff, orb_true_iff, !bool_decide_eq_true, !N.eqb_eq.
  intros (((((((((Hcell & Htenant) & Hg) & Hrg) & Hrs) & Htags) & Hv) & Hmap) & Hi) & Hsmall).
  apply N.leb_le in Hrs. apply N.ltb_lt in Hi. rewrite forallb_Forall, Forall_forall in Hmap.
  destruct (valid_request_ranges c Hv) as (? & ? & _). by repeat split.
Qed.

(** A transaction of the contract touches some resolver. *)
Lemma touched_some o c i : command_wf o c i → touched c ≠ [].
Proof.
  intros ((_ & _ & _ & _ & Hw) & _ & _ & _ & Hv & Hmap & _) Hnil.
  destruct (valid_request_ranges c Hv) as (_ & _ & Hne).
  destruct (ct_write_conflicts c) as [|r rs] eqn:E; [done|]. clear Hne.
  assert (r ∈ ct_write_conflicts c) as Hr by (rewrite E; constructor).
  rewrite <-E in Hw. rewrite Forall_forall in Hw.
  assert (range_contains r (ckr_start r) = true) as Hk.
  { apply range_contains_spec. specialize (Hw r Hr). unfold range_valid in Hw.
    split; key_order. }
  assert (in_map (ckr_start r)) as (p & Hp & Hkp)%in_map_partition.
  { eapply in_range_map_keys; [|done]. apply Hmap, elem_of_app. right. by rewrite <-E. }
  assert (p ∈ touched c) as Hin; [|rewrite Hnil in Hin; by apply elem_of_nil in Hin].
  apply touched_in. split; [done|]. apply existsb_exists'. exists r.
  split; [apply elem_of_app; by right|by apply (contains_overlaps _ _ (ckr_start r))].
Qed.

Definition domain_ok (o : ResolverOracle) (candidate : N) (d : CellDomainState) : Prop :=
  cd_generation d = 1%N ∧ cd_rows d = or_rows o ∧ cd_latest_sequence d = or_latest_sequence o ∧
  length (cd_previous_log_chain d) = 32 ∧ candidate_order_valid d 1 candidate = true ∧
  len (cd_committed_envelopes d) = or_committed o.

Lemma next_candidate d candidate :
  cd_last_resolver_candidate d = candidate →
  cd_last_resolver_transaction_system_generation d = 1%N → (candidate < U64_MAX)%N →
  candidate_order_valid d 1 (candidate + 1) = true.
Proof.
  intros Hc Hg Hlt. unfold candidate_order_valid. rewrite Hc, Hg.
  by rewrite N.eqb_refl, saturating_add_succ, N.eqb_refl.
Qed.

(** Up to the resolvers' evidence, the authority accepts a command of the
    contract. *)
Lemma authority_accepts o c candidate digest m l i d :
  command_wf o c i → domain_ok o candidate d → (0 < candidate)%N →
  cell_partitioned_transaction_sha256 sha256 c = Some digest →
  cell_resolver_map_sha256 sha256 = Ok m →
  Forall2 (attests c candidate digest m) (touched c) l →
  let d1 := { d with cd_last_resolver_candidate := candidate;
                     cd_last_resolver_transaction_system_generation := 1%N } in
  direct_apply sha256 (submitted c candidate l) i no_fence_faults d =
  match combined l with
  | RConflict => Ok (direct_reject d1 (submitted c candidate l) TConflict)
  | RAccept => direct_commit sha256 d1 (submitted c candidate l) i
  end.
Proof.
  intros Hwf (Hg & _ & Hlatest & _ & Horder & _) Hcand Hdig Hm Hl.
  pose proof (touched_some o c i Hwf) as Hne.
  destruct Hwf as ((_ & _ & Hcg & _ & _) & Hrg & Hrs & Htags & Hv & _ & _ & _).
  pose proof (submitted_attestations _ _ _ _ _ Hl) as Hres.
  pose proof (evidence_verified _ _ _ _ _ _ Hcg Hcand Hne Hdig Hm Hl Hres) as Hverify.
  assert (valid_request (submitted c candidate l) = true) as Hv'
    by by apply (canonical_valid (with_resolution c candidate l)).
  assert (contains_all (ct_durable_log_tags (submitted c candidate l)) REQUIRED_LOG_TAGS = true)
    as Htags' by (rewrite <-Htags; apply contains_all_same, elem_of_sort_dedup).
  unfold direct_apply. cbn [allow_successor_to_skip_staged_head no_fence_faults andb].
  rewrite Htags', Hv'. change (ct_generation (submitted c candidate l)) with (ct_generation c).
  change (ct_read_version (submitted c candidate l)) with (ct_read_version c).
  rewrite Hg, Hcg. cbn [N.eqb Pos.eqb negb orb].
  replace (negb (crv_sequence (ct_read_version c) =? 0)%N &&
    negb (crv_generation (ct_read_version c) =? 1)%N) with false
    by (destruct Hrg as [-> | ->]; [done|by rewrite N.eqb_refl, andb_false_r]).
  rewrite (proj2 (N.ltb_ge _ _)) by lia.
  unfold resolver_evidence. rewrite Hres.
  unfold resolution_generation.
  cbn [cpr_transaction_system_generation cpr_candidate_sequence N.eqb].
  rewrite Horder. cbn [negb]. rewrite Hverify. cbn [res_bind].
  by destruct (combined l).
Qed.

Lemma authority_decides o c candidate digest m l i d :
  command_wf o c i → domain_ok o candidate d → (0 < candidate < U64_MAX)%N → length l ≤ 3 →
  cell_partitioned_transaction_sha256 sha256 c = Some digest →
  cell_resolver_map_sha256 sha256 = Ok m →
  Forall2 (attests c candidate digest m) (touched c) l →
  let commit := if decide (combined l = RAccept) then Some i else None in
  let status := if is_some commit then TCommitted else TConflict in
  ∃ d' r o', direct_apply sha256 (submitted c candidate l) i no_fence_faults d = Ok (d', r) ∧
    ctr_status r = status ∧ ctr_commit_sequence r = commit ∧
    oracle_apply o c status commit = Some o' ∧
    or_writes o' = or_writes o ++ outcome_writes c commit ∧ domain_ok o' (candidate + 1) d'.
Proof.
  intros Hwf Hd Hcand Hlen Hdig Hm Hl. cbv zeta.
  rewrite (authority_accepts o c candidate digest m l i d) by (done || lia).
  destruct Hd as (Hg & Hrows & Hlatest & Hchain & Horder & Henv).
  destruct Hwf as ((Hcell & Htenant & Hcg & _ & _) & _ & _ & _ & Hv & _ & _ & Hsmall).
  destruct (combined l); [|].
  - rewrite decide_True by done. unfold direct_commit.
    destruct (commit_envelope_small c candidate l i (cd_previous_log_chain d)) as (b & Hb); [done..|].
    change (cd_previous_log_chain { d with cd_last_resolver_candidate := candidate;
      cd_last_resolver_transaction_system_generation := 1%N }) with (cd_previous_log_chain d).
    rewrite Hb. cbn [res_bind]. eexists _, _, _. split_and!; [done..|].
    destruct d. cbn in Hrows, Henv. unfold domain_ok. split_and!.
    + exact Hcg.
    + subst. apply apply_mutations_same.
      * by apply (canonical_keys (with_resolution c candidate l)).
      * by apply valid_request_keys.
      * intros u. apply (canonical_mutations (with_resolution c candidate l)).
    + done.
    + apply sha256_len.
    + apply next_candidate; [done..|lia].
    + cbn. unfold len in *. rewrite length_app. cbn. lia.
  - rewrite decide_False by done. eexists _, _, _. split_and!; [done..| |].
    + cbn. by rewrite app_nil_r.
    + destruct d. unfold domain_ok. split_and!; try done. apply next_candidate; [done..|lia].
Qed.

(** ** The step *)
Lemma combined_conflict l :
  combined l = RConflict ↔ ∃ a, a ∈ l ∧ rds_decision (rda_statement a) = RConflict.
Proof.
  unfold combined. destruct (existsb _ l) eqn:E.
  - apply existsb_exists' in E as (a & Ha & Hd%bool_decide_eq_true). naive_solver.
  - rewrite existsb_false in E. split; [done|]. intros (a & Ha & Hd).
    specialize (E a Ha). by apply bool_decide_eq_false in E.
Qed.

Lemma clipped_untouched c p :
  touches c p = false → clipped_conflicts (ct_read_conflicts c) p = [].
Proof.
  rewrite <-touches_clipped, orb_false_iff. intros [Hr _]. by apply negb_false_iff, bool_decide_eq_true in Hr.
Qed.

Lemma combined_exact c candidate digest m writes (rs : gmap N ResolverProcess) l :
  (∀ r, r ∈ ct_read_conflicts c → range_valid r = true ∧ in_range_map r = true) →
  writes_valid writes →
  (∀ p, p ∈ cell_resolver_partitions → ∃ w, rs !! crp_resolver_id p = Some w ∧
     knows p (rs_committed_writes (rp_state w)) writes) →
  all_waiting c candidate digest m writes rs (touched c) l →
  combined l =
    if resolver_conflict (ct_read_conflicts c) (crv_sequence (ct_read_version c)) writes
    then RConflict else RAccept.
Proof.
  intros Hreads Hwrites Hknown Hall.
  set (known p := match rs !! crp_resolver_id p with
                  | Some w => rs_committed_writes (rp_state w) | None => [] end).
  pose proof (conflict_exact (ct_read_conflicts c) (crv_sequence (ct_read_version c)) writes known)
    as Hexact.
  assert (combined l = RConflict ↔ ∃ p, p ∈ cell_resolver_partitions ∧
    resolver_conflict (clipped_conflicts (ct_read_conflicts c) p)
      (crv_sequence (ct_read_version c)) (known p) = true) as Hiff.
  { rewrite combined_conflict. split.
    - intros (a & [i Hi]%list_elem_of_lookup & Hd).
      destruct (Forall2_lookup_r _ _ _ _ _ Hall Hi) as (p & Hp & w & Hw & Hwait).
      apply list_elem_of_lookup_2, touched_in in Hp as [Hp _]. exists p. split; [done|].
      destruct Hwait as (_ & _ & _ & _ & _ & _ & Hdec).
      assert (known p = rs_committed_writes (rp_state w)) as -> by (unfold known; by rewrite Hw).
      rewrite Hd in Hdec. revert Hdec. destruct (resolver_conflict (clipped_conflicts _ p) _ _); [done|intros [=]].
    - intros (p & Hp & Hconf). destruct (touches c p) eqn:Ht.
      + assert (p ∈ touched c) as [i Hi]%list_elem_of_lookup by by apply touched_in.
        destruct (Forall2_lookup_l _ _ _ _ _ Hall Hi) as (a & Ha & w & Hw & Hwait).
        exists a. split; [by eapply list_elem_of_lookup_2|].
        destruct Hwait as (_ & _ & _ & _ & _ & _ & ->).
        assert (known p = rs_committed_writes (rp_state w)) as <- by (unfold known; by rewrite Hw).
        by rewrite Hconf.
      + by rewrite clipped_untouched in Hconf. }
  rewrite Hexact in Hiff.
  - destruct (resolver_conflict _ _ writes) eqn:E1; [by apply Hiff|].
    destruct (combined l); [done|]. discriminate (proj1 Hiff eq_refl).
  - by apply Forall_forall.
  - done.
  - intros p Hp. destruct (Hknown p Hp) as (w & Hw & Hk). unfold known. by rewrite Hw.
Qed.

Definition contract_ok (con : Contract) : Prop :=
  (∀ p, p ∈ cell_resolver_partitions → ∃ w, con_resolvers con !! crp_resolver_id p = Some w ∧
     idle (con_candidate con) (or_writes (con_oracle con)) p w) ∧
  domain_ok (con_oracle con) (con_candidate con) (con_domain con) ∧
  writes_valid (or_writes (con_oracle con)) ∧ (0 < con_candidate con)%N ∧
  con_statuses_match con = true ∧ con_restart_replay_exact con = true.

Lemma writes_valid_app writes c commit :
  writes_valid writes → Forall (λ r, range_valid r = true) (ct_write_conflicts c) →
  writes_valid (writes ++ outcome_writes c commit).
Proof.
  rewrite Forall_forall. intros Hw Hc seq r [Hin|Hin]%elem_of_app; [by eapply Hw|].
  unfold outcome_writes in Hin. destruct commit; [|by apply elem_of_nil in Hin].
  apply elem_of_resolver_writes in Hin as [_ Hin]. auto.
Qed.

Lemma waiting_attests c candidate digest m writes (rs : gmap N ResolverProcess) ps l :
  all_waiting c candidate digest m writes rs ps l → Forall2 (attests c candidate digest m) ps l.
Proof. intros Hall. eapply Forall2_impl; [done|]. by intros p a (w & _ & _ & ? & _). Qed.

Lemma touched_length c : length (touched c) ≤ 3.
Proof.
  unfold touched, cell_resolver_partitions. cbn [List.filter].
  destruct (touches c _), (touches c _), (touches c _); cbn; lia.
Qed.

(** After the prepares every resolver still knows the writes. *)
Lemma prepared_known c candidate digest m writes (rs rs' : gmap N ResolverProcess) l :
  (∀ p, p ∈ cell_resolver_partitions → ∃ w, rs !! crp_resolver_id p = Some w ∧
     idle candidate writes p w) →
  all_waiting c candidate digest m writes rs' (touched c) l →
  (∀ k, k ∉ ids (touched c) → rs' !! k = rs !! k) →
  ∀ p, p ∈ cell_resolver_partitions → ∃ w, rs' !! crp_resolver_id p = Some w ∧
    knows p (rs_committed_writes (rp_state w)) writes.
Proof.
  intros Hidle Hall Hrest p Hp. destruct (touches c p) eqn:Ht.
  - assert (p ∈ touched c) as [i Hi]%list_elem_of_lookup by by apply touched_in.
    destruct (Forall2_lookup_l _ _ _ _ _ Hall Hi) as (a & Ha & w & Hw & Hwait).
    exists w. split; [done|]. by destruct Hwait as (_ & _ & _ & _ & _ & ? & _).
  - destruct (Hidle p Hp) as (w & Hw & (_ & _ & _ & Hk)). exists w. split; [|done].
    rewrite Hrest; [done|]. intros (q & E & Hq)%list_elem_of_fmap.
    apply touched_in in Hq as [Hq Htq].
    apply partition_id_inj in E; [|done..]. by rewrite <-E, Ht in Htq.
Qed.

Lemma digest_total c : ∃ digest, cell_partitioned_transaction_sha256 sha256 c = Some digest.
Proof.
  unfold cell_partitioned_transaction_sha256.
  match goal with |- context [to_vec ?x] => destruct (json_command x) as [b ->] end.
  cbn. eauto.
Qed.
Lemma map_digest_total : ∃ m, cell_resolver_map_sha256 sha256 = Ok m.
Proof. unfold cell_resolver_map_sha256. destruct json_map as [b ->]. eauto. Qed.

(** After the finalizations every resolver is idle again. *)
Lemma finalized_idle c candidate writes commit (rs rs' rs'' : gmap N ResolverProcess) :
  (∀ p, p ∈ cell_resolver_partitions → ∃ w, rs !! crp_resolver_id p = Some w ∧
     idle candidate writes p w) →
  (∀ k, k ∉ ids (touched c) → rs' !! k = rs !! k) →
  (∀ k, k ∉ ids (touched c) → rs'' !! k = rs' !! k) →
  (∀ p, p ∈ touched c → ∃ w, rs'' !! crp_resolver_id p = Some w ∧
     idle (candidate + 1) (writes ++ outcome_writes c commit) p w) →
  ∀ p, p ∈ cell_resolver_partitions → ∃ w, rs'' !! crp_resolver_id p = Some w ∧
    idle (candidate + 1) (writes ++ outcome_writes c commit) p w.
Proof.
  intros Hidle Hrest Hrest' Hdone p Hp. destruct (touches c p) eqn:Ht.
  { apply Hdone. by apply touched_in. }
  assert (crp_resolver_id p ∉ ids (touched c)) as Hnin.
  { intros (q & E & [Hq Htq]%touched_in)%list_elem_of_fmap.
    apply partition_id_inj in E; [|done..]. by rewrite <-E, Ht in Htq. }
  destruct (Hidle p Hp) as (w & Hw & Hi). exists w. rewrite Hrest', Hrest by done.
  split; [done|by apply idle_untouched].
Qed.

Lemma step_agrees con c i probe :
  contract_ok con → contract_command cell tenant (con_oracle con) c i = true →
  (con_candidate con < U64_MAX)%N →
  ∃ con', contract_step sha256 cell tenant con c i probe = Ok con' ∧ contract_ok con' ∧
    con_candidate con' = (con_candidate con + 1)%N ∧
    con_oracle con' = oracle_next (con_oracle con) c i.
Proof.
  intros (Hidle & Hdom & Hwrites & Hcand & Hmatch & Hreplay) Hwf%contract_command_wf Hlt.
  set (o := con_oracle con) in *. set (candidate := con_candidate con) in *.
  pose proof Hwf as (Hok & _ & _ & _ & _ & Hmap & _ & _).
  destruct (digest_total c) as [digest Hdig], map_digest_total as [m Hm].
  destruct (prepare_all_ok c candidate digest m (or_writes o) (touched c) (con_resolvers con) [])
    as (rs & l & Hprep & Hall & Hrest); [done..|apply touched_NoDup| | |].
  { by intros p [? _]%touched_in. }
  { intros p [Hp _]%touched_in. by apply Hidle. }
  pose proof (waiting_attests _ _ _ _ _ _ _ _ Hall) as Hatt.
  assert (length l ≤ 3) as Hlen.
  { rewrite <-(Forall2_length _ _ _ Hatt). apply touched_length. }
  assert (combined l = if resolver_conflict (ct_read_conflicts c)
    (crv_sequence (ct_read_version c)) (or_writes o) then RConflict else RAccept) as Hcomb.
  { eapply combined_exact; [|done|by eapply prepared_known|done].
    intros r Hr. destruct Hok as (_ & _ & _ & Hv & _). rewrite Forall_forall in Hv.
    split; [by apply Hv|]. apply Hmap, elem_of_app. by left. }
  destruct (authority_decides o c candidate digest m l i (con_domain con))
    as (d' & r & o' & Happly & Hstatus & Hseq & Horacle & Hwr & Hdom'); [done|done|lia|done..|].
  set (commit := if decide (combined l = RAccept) then Some i else None) in *.
  assert (oracle_decision o c = (if is_some commit then TCommitted else TConflict) ∧
    oracle_next o c i = o') as [Hexp Hnext].
  { unfold oracle_next, oracle_decision, commit in *. rewrite Hcomb in *.
    destruct (resolver_conflict _ _ _); cbn in Horacle |- *; injection Horacle as <-; done. }
  destruct (finalize_all_ok c candidate digest m (or_writes o) commit (touched c) l rs rs)
    as (rs' & Hfin & Hidle' & Hrest'); [done|apply touched_NoDup|done| |].
  { intros a Ha [n Hn]. destruct (rds_decision (rda_statement a)) eqn:Hd; [done|].
    assert (combined l = RConflict) as Hconf by (apply combined_conflict; eauto).
    unfold commit in Hn. by rewrite Hconf in Hn. }
  unfold contract_step. fold o candidate. rewrite Hdig. unfold required_resolvers.
  fold (touched c). rewrite Hprep. cbn [res_bind app].
  assert ((if probe && bool_decide (2%N ∈ ids (touched c))
    then restart_probe sha256 cell tenant rs c candidate digest l
    else Ok (rs, true)) = Ok (rs, true)) as ->.
  { destruct probe; [|done]. cbn. case_bool_decide; [|done]. by eapply probe_ok. }
  cbn [res_bind]. rewrite Happly, Hstatus, Hseq. fold (outcome_request candidate digest commit).
  rewrite Hfin. cbn [res_bind]. rewrite Hexp, Horacle. eexists. split; [done|].
  split_and!; [|done|done]. unfold contract_ok. cbn. rewrite Hwr. split_and!.
  - by eapply finalized_idle.
  - done.
  - apply writes_valid_app; [done|apply Hok].
  - lia.
  - by rewrite Hmatch, bool_decide_true.
  - by rewrite Hreplay.
Qed.

Lemma start_ok : contract_ok (contract_start cell tenant).
Proof.
  unfold contract_ok, contract_start. cbn [con_resolvers con_candidate con_oracle con_domain
    con_statuses_match con_restart_replay_exact]. split_and!; [|done|..|lia|done|done].
  - intros p Hp. exists {| rp_state := ResolverState_default; rp_file := None |}.
    unfold cell_resolver_partitions in Hp. rewrite !elem_of_cons, elem_of_nil in Hp.
    destruct Hp as [->|[->|[->|[]]]]; (split; [by vm_compute|]);
      (split_and!; [done|by intros k q|by cbn|]); intros seq r'; cbn;
      (split; [by intros ?%elem_of_nil|by intros (? & ?%elem_of_nil & _)]).
  - intros seq r ?%elem_of_nil. done.
Qed.

Lemma run_agrees ops con :
  contract_ok con → contract_history cell tenant (con_oracle con) ops = true →
  (con_candidate con + len ops ≤ U64_MAX)%N →
  ∃ con', contract_run sha256 cell tenant ops con = Ok con' ∧ contract_ok con' ∧
    con_oracle con' = oracle_run (con_oracle con) ops.
Proof.
  revert con. induction ops as [|[[c i] probe] ops IH]; intros con Hok Hh Hlt; [by exists con|].
  cbn [contract_history] in Hh. apply andb_true_iff in Hh as [Hc Hh].
  unfold len in Hlt. cbn in Hlt.
  destruct (step_agrees con c i probe) as (con1 & Hstep & Hok1 & Hcand & Hor); [done|done|lia|].
  destruct (IH con1) as (con2 & Hrun & Hok2 & Hor2); [done|by rewrite Hor|unfold len; lia|].
  exists con2. cbn [contract_run]. rewrite Hstep. cbn [res_bind].
  split_and!; [done..|]. by rewrite Hor2, Hor.
Qed.

(** C16. Partitioned resolution agrees with a central oracle. Run any history of
    well-formed transactions through the three resolver processes and the
    transaction authority, restarting the second resolver between its prepare
    and its finalize wherever the history asks for it. The run completes; every
    status the authority answers is the oracle's; every restarted resolver
    answers the repeated prepare with the decision it had signed; and the rows,
    the latest sequence and the number of commits are the oracle's. *)
Theorem partitioned_matches_oracle ops :
  contract_history cell tenant ResolverOracle_default ops = true →
  (1 + len ops ≤ U64_MAX)%N →
  ∃ con, contract_run sha256 cell tenant ops (contract_start cell tenant) = Ok con ∧
    con_statuses_match con = true ∧ con_restart_replay_exact con = true ∧
    con_oracle con = oracle_run ResolverOracle_default ops ∧
    cd_rows (con_domain con) = or_rows (con_oracle con) ∧
    cd_latest_sequence (con_domain con) = or_latest_sequence (con_oracle con) ∧
    len (cd_committed_envelopes (con_domain con)) = or_committed (con_oracle con).
Proof.
  intros Hh Hlen. destruct (run_agrees ops (contract_start cell tenant))
    as (con & Hrun & (_ & (_ & Hrows & Hseq & _ & _ & Hcom) & _ & _ & Hm & Hr) & Ho);
    [apply start_ok|done|done|]. by exists con.
Qed.
End agreement.

(** ** A history *)
Module demo_agreement.
Import demo_cell demo_resolver.

(** The first transaction reads and writes keys of the second resolver; the
    second one read before it was committed; the third one spans all three. *)
Definition history : list (CellTransactionCommand * N * bool) :=
  [(txn 1 0 [key_a; key_b] key_a 5, 3, true); (txn 2 0 [key_a] key_b 6, 4, true);
   (txn 3 3 [[16]; key_a; [200]] key_a 7, 5, true)]%N.
End demo_agreement.

Lemma partitioned_matches_oracle_witness :
  ∃ con, contract_run (H := demo_cell.demo_ed25519) (H0 := demo_resolver.demo_sign)
      (H1 := demo_cell.demo_json) (H2 := demo_resolver.demo_resolver_json)
      prefix_digest demo_cell.CELL demo_cell.TENANT demo_agreement.history
      (contract_start demo_cell.CELL demo_cell.TENANT) = Ok con ∧
    con_statuses_match con = true ∧ or_committed (con_oracle con) = 2%N.
Proof.
  destruct (partitioned_matches_oracle (H := demo_cell.demo_ed25519)
    (H0 := demo_resolver.demo_sign) (H1 := demo_cell.demo_json)
    (H2 := demo_resolver.demo_resolver_json) prefix_digest demo_cell.CELL demo_cell.TENANT
    prefix_digest_len) with (ops := demo_agreement.history)
    as (con & Hrun & Hm & _ & Ho & _).
  - intros seed m _. cbn. by apply bool_decide_true.
  - apply demo_resolver.demo_codec.
  - done.
  - done.
  - done.
  - done.
  - done.
  - vm_compute. reflexivity.
  - by vm_compute.
  - exists con. split_and!; [done..|]. rewrite Ho. vm_compute. reflexivity.
Defined.
