(* ===== verification/LogCert.v ===== *)
(** * Signing and checking the evidence of the tagged logs

    The [sign_*] functions of [okv-consensus/src/cell_transaction.rs], the pop
    and activation certificates of the same file, and the pop capability of
    [okv-consensus/src/publication.rs]: what a tagged-log process signs and what
    it asks for before it deletes records or changes its policy. *)

From S2P Require Import Prelude Order BTree Bytes Quorum Publication.
From S2P Require Import CellState.

(** ** Pop and activation evidence *)
Record CellTaggedLogPopStatement := {
  tps_format_version : N;
  tps_cell_id : bytes;
  tps_tenant_id : bytes;
  tps_generation : N;
  tps_log_set_id : N;
  tps_policy_epoch : N;
  tps_publication_root_sha256 : bytes;
  tps_object_frontier : N;
  tps_pop_epoch : N;
}.
Record CellTaggedLogPopAttestation := {
  tpa_signer_id : N;
  tpa_last_position : N;
  tpa_popped_through : N;
  tpa_retained_bytes : N;
  tpa_sample_epoch : N;
  tpa_signature : bytes;
}.
Record CellTaggedLogPopCertificate := {
  tpc_statement : CellTaggedLogPopStatement;
  tpc_attestations : list CellTaggedLogPopAttestation;
}.

Record CellLogSetPolicyActivationStatement := {
  pas_format_version : N;
  pas_cell_id : bytes;
  pas_tenant_id : bytes;
  pas_generation : N;
  pas_transition_id : N;
  pas_log_set_id : N;
  pas_next_policy_epoch : N;
  pas_next_policy_sha256 : bytes;
  pas_successor_stage_sha256 : bytes;
  pas_authority_commit_index : N;
}.
#[global] Instance CellLogSetPolicyActivationStatement_eq_dec :
  EqDecision CellLogSetPolicyActivationStatement.
Proof. eq_dec. Defined.
Record CellLogSetPolicyActivationAttestation := { paa_signer_id : N; paa_signature : bytes }.
#[global] Instance CellLogSetPolicyActivationAttestation_eq_dec :
  EqDecision CellLogSetPolicyActivationAttestation.
Proof. eq_dec. Defined.
Record CellLogSetPolicyActivationCertificate := {
  pac_statement : CellLogSetPolicyActivationStatement;
  pac_attestations : list CellLogSetPolicyActivationAttestation;
}.
#[global] Instance CellLogSetPolicyActivationCertificate_eq_dec :
  EqDecision CellLogSetPolicyActivationCertificate.
Proof. eq_dec. Defined.

Record PublicationPopCapabilityStatement := {
  ppc_format_version : N;
  ppc_authority_cell_id : N;
  ppc_generation : N;
  ppc_transaction_system_id : string;
  ppc_destination_root : string;
  ppc_manifest : ObjectReference;
  ppc_object_frontier : N;
  ppc_pop_epoch : N;
}.
Record PublicationPopCapabilityAttestation := { ppa_signer_id : N; ppa_signature : bytes }.
Record PublicationPopCapabilityCertificate := {
  ppx_statement : PublicationPopCapabilityStatement;
  ppx_attestations : list PublicationPopCapabilityAttestation;
}.

(** Equality of the signed statements that are kept in files. *)
#[global] Instance CellTaggedLogFenceStatement_eq_dec : EqDecision CellTaggedLogFenceStatement.
Proof. eq_dec. Defined.
#[global] Instance CellTaggedLogPrefixFenceStatement_eq_dec :
  EqDecision CellTaggedLogPrefixFenceStatement.
Proof. eq_dec. Defined.
#[global] Instance CellTaggedLogRepairStatement_eq_dec : EqDecision CellTaggedLogRepairStatement.
Proof. eq_dec. Defined.
#[global] Instance CellTaggedLogRepairAttestation_eq_dec :
  EqDecision CellTaggedLogRepairAttestation.
Proof. eq_dec. Defined.
#[global] Instance CellTaggedLogRepairCertificate_eq_dec :
  EqDecision CellTaggedLogRepairCertificate.
Proof. eq_dec. Defined.
#[global] Instance CellTaggedLogPolicyStageStatement_eq_dec :
  EqDecision CellTaggedLogPolicyStageStatement.
Proof. eq_dec. Defined.

(** The JSON encodings of the new statements. *)
Class LogJson := {
  json_pop :: Serialize (CellTaggedLogPopStatement * N * N * N * N * N);
  json_activation :: Serialize CellLogSetPolicyActivationStatement;
  json_pop_capability :: Serialize PublicationPopCapabilityStatement;
  json_policy :: Serialize CellLogSetPolicy;
  json_object_reference :: Serialize ObjectReference;
}.

Definition TAGGED_LOG_POP_CERTIFICATE_MAGIC : bytes :=
  string_bytes "OKV-TAGGED-LOG-POP-CERTIFICATE-V1" ++ [0%N].
Definition LOG_SET_POLICY_ACTIVATION_CERTIFICATE_MAGIC : bytes :=
  string_bytes "OKV-LOG-SET-POLICY-ACTIVATION-CERTIFICATE-V1" ++ [0%N].
Definition PUBLICATION_POP_CAPABILITY_MAGIC : bytes :=
  string_bytes "OKV-PUBLICATION-POP-CAPABILITY-V1" ++ [0%N].

Inductive SignError := SeedNot32Bytes | StatementNotEncoded.

Section sign.
Context (sha256 : bytes → bytes).
Context `{Ed25519} `{Ed25519Sign} `{CellJson} `{LogJson}.

(** [Ed25519KeyPair::from_seed_unchecked(seed)] and [pair.sign(&bytes)]. *)
Definition sign_bytes (seed : bytes) (message : option bytes) : res SignError bytes :=
  guard! length seed =? 32 else SeedNot32Bytes in
  match message with
  | Some m => Ok (ed25519_sign seed m)
  | None => Err StatementNotEncoded
  end.

Definition tagged_log_public_key (seed : bytes) : res SignError bytes :=
  guard! length seed =? 32 else SeedNot32Bytes in
  Ok (ed25519_public_key seed).

Definition sign_tagged_log_statement (signer_id : N) (seed : bytes)
    (statement : CellTaggedLogStatement) : res SignError CellTaggedLogAttestation :=
  let? signature := sign_bytes seed (log_signing_bytes statement) in
  Ok {| tla_signer_id := signer_id; tla_signature := signature |}.

Definition sign_tagged_log_fence_statement (signer_id : N) (seed : bytes)
    (statement : CellTaggedLogFenceStatement) (record_present : bool)
    : res SignError CellTaggedLogFenceAttestation :=
  let? signature := sign_bytes seed (fence_signing_bytes statement record_present) in
  Ok {| tfa_signer_id := signer_id; tfa_record_present := record_present;
        tfa_signature := signature |}.

Definition sign_tagged_log_prefix_fence_statement (signer_id : N) (seed : bytes)
    (statement : CellTaggedLogPrefixFenceStatement)
    (observations : list CellTaggedLogPrefixObservation)
    : res SignError CellTaggedLogPrefixFenceAttestation :=
  let? signature := sign_bytes seed (prefix_signing_bytes statement observations) in
  Ok {| pfa_signer_id := signer_id; pfa_observations := observations;
        pfa_signature := signature |}.

(** The remaining functions take the attestation to sign; its signature field is
    not part of what is signed. *)
Definition sign_tagged_log_capacity_statement (seed : bytes)
    (statement : CellTaggedLogCapacityStatement) (a : CellTaggedLogCapacityAttestation)
    : res SignError CellTaggedLogCapacityAttestation :=
  let? signature := sign_bytes seed (capacity_signing_bytes statement a) in
  Ok {| tca_signer_id := tca_signer_id a; tca_last_position := tca_last_position a;
        tca_popped_through := tca_popped_through a; tca_retained_bytes := tca_retained_bytes a;
        tca_hard_limit_bytes := tca_hard_limit_bytes a; tca_sample_epoch := tca_sample_epoch a;
        tca_signature := signature |}.

Definition pop_signing_bytes (statement : CellTaggedLogPopStatement)
    (a : CellTaggedLogPopAttestation) : option bytes :=
  (λ json, TAGGED_LOG_POP_CERTIFICATE_MAGIC ++ json) <$>
  to_vec (statement, tpa_signer_id a, tpa_last_position a, tpa_popped_through a,
          tpa_retained_bytes a, tpa_sample_epoch a).

Definition sign_tagged_log_pop_statement (seed : bytes)
    (statement : CellTaggedLogPopStatement) (a : CellTaggedLogPopAttestation)
    : res SignError CellTaggedLogPopAttestation :=
  let? signature := sign_bytes seed (pop_signing_bytes statement a) in
  Ok {| tpa_signer_id := tpa_signer_id a; tpa_last_position := tpa_last_position a;
        tpa_popped_through := tpa_popped_through a; tpa_retained_bytes := tpa_retained_bytes a;
        tpa_sample_epoch := tpa_sample_epoch a; tpa_signature := signature |}.

Definition sign_tagged_log_repair_statement (seed : bytes)
    (statement : CellTaggedLogRepairStatement) (a : CellTaggedLogRepairAttestation)
    : res SignError CellTaggedLogRepairAttestation :=
  let? signature := sign_bytes seed (repair_signing_bytes statement a) in
  Ok {| tra_signer_id := tra_signer_id a; tra_source_sample_epoch := tra_source_sample_epoch a;
        tra_signature := signature |}.

Definition sign_tagged_log_policy_stage_statement (seed : bytes)
    (statement : CellTaggedLogPolicyStageStatement) (a : CellTaggedLogPolicyStageAttestation)
    : res SignError CellTaggedLogPolicyStageAttestation :=
  let? signature := sign_bytes seed (policy_stage_signing_bytes statement a) in
  Ok {| psa_signer_id := psa_signer_id a; psa_source_sample_epoch := psa_source_sample_epoch a;
        psa_signature := signature |}.

(** ** Pop certificates and capabilities *)
Definition verify_tagged_log_pop_certificate (certificate : CellTaggedLogPopCertificate)
    (policy : CellLogSetPolicy) : bool :=
  let statement := tpc_statement certificate in
  if negb (tps_format_version statement =? 1)%N
     || negb (tps_generation statement =? lsp_generation policy)%N
     || negb (tps_log_set_id statement =? lsp_log_set_id policy)%N
     || negb (tps_policy_epoch statement =? lsp_policy_epoch policy)%N
     || (tps_object_frontier statement =? 0)%N || (tps_pop_epoch statement =? 0)%N
     || bool_decide (tps_publication_root_sha256 statement = ZERO32)
  then false
  else
    attested tpa_signer_id
      (λ a, negb (tpa_sample_epoch a =? 0)%N
            && (tpa_popped_through a =? tps_object_frontier statement)%N
            && member_signed (member_map (lsp_members policy)) (tpa_signer_id a)
                 (pop_signing_bytes statement a) (tpa_signature a))
      (tpc_attestations certificate) (N.to_nat (lsp_quorum_size policy)).

Definition pop_capability_signing_bytes (statement : PublicationPopCapabilityStatement)
    : option bytes :=
  (λ json, PUBLICATION_POP_CAPABILITY_MAGIC ++ json) <$> to_vec statement.

Definition sign_publication_pop_capability (signer_id : N) (seed : bytes)
    (statement : PublicationPopCapabilityStatement)
    : res SignError PublicationPopCapabilityAttestation :=
  let? signature := sign_bytes seed (pop_capability_signing_bytes statement) in
  Ok {| ppa_signer_id := signer_id; ppa_signature := signature |}.

Definition verify_publication_pop_capability (certificate : PublicationPopCapabilityCertificate)
    (members : gmap N bytes) (quorum_size : N) : bool :=
  let statement := ppx_statement certificate in
  if negb (ppc_format_version statement =? 1)%N || (ppc_authority_cell_id statement =? 0)%N
     || (ppc_generation statement =? 0)%N
     || str_is_empty (ppc_transaction_system_id statement)
     || str_is_empty (ppc_destination_root statement)
     || str_is_empty (ref_key (ppc_manifest statement))
     || str_is_empty (ref_sha256 (ppc_manifest statement))
     || (ppc_object_frontier statement =? 0)%N || (ppc_pop_epoch statement =? 0)%N
     || (quorum_size =? 0)%N
  then false
  else
    let bytes := pop_capability_signing_bytes statement in
    is_some bytes
    && attested ppa_signer_id
         (λ a, member_signed members (ppa_signer_id a) bytes (ppa_signature a))
         (ppx_attestations certificate) (N.to_nat quorum_size).

(** ** Policy activation *)
Definition cell_log_set_policy_sha256 (policy : CellLogSetPolicy) : bytes :=
  sha256 (default [] (to_vec (sort_members policy))).

(** [CellLogSetPolicyActivationStatement::new]. *)
Definition activation_statement (completed : CompletedCellLogSetPolicyTransition)
    : CellLogSetPolicyActivationStatement :=
  let transition := cpt_transition completed in
  {| pas_format_version := 1; pas_cell_id := lpt_cell_id transition;
     pas_tenant_id := lpt_tenant_id transition; pas_generation := lpt_generation transition;
     pas_transition_id := lpt_transition_id transition;
     pas_log_set_id := lpt_log_set_id transition;
     pas_next_policy_epoch := lsp_policy_epoch (lpt_next_policy transition);
     pas_next_policy_sha256 := cell_log_set_policy_sha256 (lpt_next_policy transition);
     pas_successor_stage_sha256 := cpt_successor_stage_sha256 completed;
     pas_authority_commit_index := cpt_authority_commit_index completed |}.

Definition activation_signing_bytes (statement : CellLogSetPolicyActivationStatement)
    : option bytes :=
  (λ json, LOG_SET_POLICY_ACTIVATION_CERTIFICATE_MAGIC ++ json) <$> to_vec statement.

Definition sign_cell_log_set_policy_activation_statement (signer_id : N) (seed : bytes)
    (statement : CellLogSetPolicyActivationStatement)
    : res SignError CellLogSetPolicyActivationAttestation :=
  let? signature := sign_bytes seed (activation_signing_bytes statement) in
  Ok {| paa_signer_id := signer_id; paa_signature := signature |}.

Definition verify_cell_log_set_policy_activation_certificate
    (certificate : CellLogSetPolicyActivationCertificate) (authority_members : gmap N bytes)
    (quorum_size : N) : bool :=
  let statement := pac_statement certificate in
  if negb (pas_format_version statement =? 1)%N || (pas_generation statement =? 0)%N
     || (pas_transition_id statement =? 0)%N || (pas_log_set_id statement =? 0)%N
     || (pas_next_policy_epoch statement =? 0)%N
     || bool_decide (pas_next_policy_sha256 statement = ZERO32)
     || bool_decide (pas_successor_stage_sha256 statement = ZERO32)
     || (pas_authority_commit_index statement =? 0)%N || (quorum_size =? 0)%N
     || (N.of_nat (size authority_members) <? quorum_size)%N
  then false
  else
    let bytes := activation_signing_bytes statement in
    is_some bytes
    && attested paa_signer_id
         (λ a, member_signed authority_members (paa_signer_id a) bytes (paa_signature a))
         (pac_attestations certificate) (N.to_nat quorum_size).
End sign.
