(* ===== verification/TLog.v ===== *)
(** * The tagged-log process

    [okv-object/src/tagged_log_process.rs]: the process that stores the envelopes
    of one log set in its write-ahead log, signs what it has stored, and fences,
    pops, repairs and reconfigures itself on request. It keeps nothing in
    memory: every request reads the files again. The disk is a record of those
    files; how each disk operation of a request goes is an argument. A JSON file
    is the value it holds. *)

From S2P Require Import Prelude Order BTree Bytes Version Quorum Envelope Persist Publication Wal.
From S2P Require Import CellState LogCert.

Definition TAGGED_LOG_FORMAT_VERSION : N := 1.
Definition FRAME_CHECKSUM_BYTES : N := 32.

(** ** Data *)
Record TaggedLogRecord := {
  tr_format_version : N;
  tr_position : N;
  tr_range_tags : list N;
  tr_envelope : bytes;
  tr_padding : bytes;
}.
#[global] Instance TaggedLogRecord_eq_dec : EqDecision TaggedLogRecord.
Proof. eq_dec. Defined.

(** [TaggedLogRecord::committed]. *)
Definition committed_record (position : N) (range_tags : list N) (envelope : bytes)
    : TaggedLogRecord :=
  {| tr_format_version := TAGGED_LOG_FORMAT_VERSION; tr_position := position;
     tr_range_tags := range_tags; tr_envelope := envelope; tr_padding := [] |}.

Record PublicationPopPolicy := {
  ppp_members : gmap N bytes;
  ppp_quorum_size : N;
}.
Record TaggedLogRepairFaults := {
  accept_invalid_certificate : bool;
  accept_target_mismatch : bool;
  accept_snapshot_identity_mismatch : bool;
  accept_local_snapshot_mismatch : bool;
}.
Record TaggedLogPolicyTransitionFaults := {
  accept_invalid_stage : bool;
  accept_missing_authority_activation : bool;
  accept_removed_member_activation : bool;
}.

Record TaggedLogProcessConfig := {
  tlp_log_set_id : N;
  tlp_node_id : N;
  tlp_retained_bytes_limit : N;
  tlp_accept_missing_required_tags : bool;
  tlp_policy_epoch : N;
  tlp_signing_seed : option bytes;
  tlp_publication_pop_policy : option PublicationPopPolicy;
  tlp_accept_unauthenticated_pop : bool;
  tlp_persist_fences : bool;
  tlp_storage_incarnation : bytes;
  tlp_learner : bool;
  tlp_repair_source_policy : option CellLogSetPolicy;
  tlp_repair_faults : TaggedLogRepairFaults;
  tlp_policy_activation_authority : option PublicationPopPolicy;
  tlp_policy_transition_faults : TaggedLogPolicyTransitionFaults;
}.

Record TaggedLogRepairTransfer := {
  rtx_format_version : N;
  rtx_transfer_id : N;
  rtx_certificate : CellTaggedLogRepairCertificate;
  rtx_base_snapshot_sha256 : option bytes;
  rtx_payload_sha256 : bytes;
  rtx_payload_length : N;
  rtx_chunk_count : N;
}.
#[global] Instance TaggedLogRepairTransfer_eq_dec : EqDecision TaggedLogRepairTransfer.
Proof. eq_dec. Defined.

Inductive TaggedLogRequest :=
  | TqAppend (record : TaggedLogRecord)
  | TqRead (range_tag after_version through_version : N)
  | TqAttest (statement : CellTaggedLogStatement)
  | TqFence (statement : CellTaggedLogFenceStatement)
  | TqPrefixFence (statement : CellTaggedLogPrefixFenceStatement)
  | TqCapacity (statement : CellTaggedLogCapacityStatement)
  | TqPop (statement : CellTaggedLogPopStatement)
      (capability : PublicationPopCapabilityCertificate) (manifest_bytes : bytes)
  | TqRepairAttest (statement : CellTaggedLogRepairStatement) (snapshot_bytes : bytes)
  | TqRepairInstall (certificate : CellTaggedLogRepairCertificate) (snapshot_bytes : bytes)
  | TqRepairReady (certificate : CellTaggedLogRepairCertificate) (snapshot_bytes : bytes)
  | TqRepairChunk (transfer : TaggedLogRepairTransfer) (chunk_index : N) (chunk_bytes : bytes)
  | TqRepairFinalize (transfer : TaggedLogRepairTransfer)
  | TqPolicyStage (transition : CellLogSetPolicyTransition)
  | TqPolicyActivate (transition : CellLogSetPolicyTransition)
      (successor_stage : CellTaggedLogPolicyStageCertificate)
      (activation : CellLogSetPolicyActivationCertificate)
  | TqStatus.

(** Every answer carries the log set and the node, which are the process's own. *)
Inductive TaggedLogResponse :=
  | TaAppended (position : N) (record_sha256 : bytes) (frame_bytes retained_bytes : N)
  | TaFeed (records : list TaggedLogRecord) (retained_bytes : N)
  | TaReady (last_position popped_through retained_bytes sample_epoch : N)
  | TaAttested (statement : CellTaggedLogStatement) (attestation : CellTaggedLogAttestation)
  | TaFenced (statement : CellTaggedLogFenceStatement)
      (attestation : CellTaggedLogFenceAttestation) (durable : bool)
  | TaPrefixFenced (statement : CellTaggedLogPrefixFenceStatement)
      (attestation : CellTaggedLogPrefixFenceAttestation) (durable : bool)
  | TaCapacityAttested (statement : CellTaggedLogCapacityStatement)
      (attestation : CellTaggedLogCapacityAttestation)
  | TaPopped (statement : CellTaggedLogPopStatement) (attestation : CellTaggedLogPopAttestation)
  | TaRepairAttested (statement : CellTaggedLogRepairStatement)
      (attestation : CellTaggedLogRepairAttestation)
  | TaRepairInstalled (repair_id last_position popped_through installed_records snapshot_bytes : N)
  | TaRepairReady (repair_id last_position : N) (retained_root_sha256 : bytes)
  | TaRepairChunkStored (transfer_id chunk_index chunk_bytes : N)
  | TaPolicyStaged (transition_id : N) (attestation : CellTaggedLogPolicyStageAttestation)
  | TaPolicyActivated (transition_id policy_epoch : N)
  | TaRetainedBytesLimit (retained_bytes proposed_frame_bytes limit : N).

Record TaggedLogRetentionState := {
  trt_last_position : N;
  trt_popped_through : N;
  trt_sample_epoch : N;
}.
Definition TaggedLogRetentionState_default : TaggedLogRetentionState :=
  {| trt_last_position := 0; trt_popped_through := 0; trt_sample_epoch := 0 |}.

Record DurableTaggedLogRepairReceipt := {
  drr_certificate : CellTaggedLogRepairCertificate;
  drr_installed_records : N;
}.
Record DurableTaggedLogPolicyStageReceipt := {
  dps_transition : CellLogSetPolicyTransition;
  dps_statement : CellTaggedLogPolicyStageStatement;
}.
#[global] Instance DurableTaggedLogPolicyStageReceipt_eq_dec :
  EqDecision DurableTaggedLogPolicyStageReceipt.
Proof. eq_dec. Defined.
Record DurableTaggedLogPolicyActivation := {
  dpa_transition : CellLogSetPolicyTransition;
  dpa_successor_stage_sha256 : bytes;
  dpa_activation : CellLogSetPolicyActivationCertificate;
}.
#[global] Instance DurableTaggedLogPolicyActivation_eq_dec :
  EqDecision DurableTaggedLogPolicyActivation.
Proof. eq_dec. Defined.

(** [serde_json] at the records, snapshots and manifests a process reads. *)
Class TLogJson := {
  json_tlog_record :: Serialize TaggedLogRecord;
  tlog_record_from_slice : bytes → option TaggedLogRecord;
  json_tlog_records :: Serialize (list TaggedLogRecord);
  tlog_records_from_slice : bytes → option (list TaggedLogRecord);
  cell_snapshot_from_slice : bytes → option CellStateSnapshot;
}.

Inductive TLogError :=
  | TeWal (e : WalError)
  | TeEnvelope (e : CommitCodecError)
  | TeSign (e : SignError)
  | TeJson
  | TePersist
  | TeLearnerExcluded
  | TeGenerationFenced
  | TeNoSigningKey
  | TeRecordIdentity
  | TeRecordTags
  | TeMissingRequiredTag
  | TeMissingLogSetTag
  | TeNonConsecutive (expected received : N)
  | TeNotDurable
  | TeVersionBounds
  | TeSignerPolicy
  | TeAbsentPosition
  | TeClientIdentity
  | TeStatementDiffers
  | TeFencedByAnother
  | TeTemporaryConflict
  | TeNoRetainedRecord
  | TeDomainDiffers
  | TeCapacityPolicy
  | TePopPolicy
  | TeNoPublicationPolicy
  | TePopCapability
  | TePopBinding
  | TePopFrontier
  | TeNoRepairPolicy
  | TeRepairTarget
  | TeRepairPhase
  | TeRepairConflict
  | TeLearnerNotEmpty
  | TeSnapshotIdentity
  | TeSnapshotSuffix
  | TeSnapshotDomain
  | TeSnapshotFrontier
  | TeSnapshotLocal
  | TeNoBaseInstall
  | TeRepairMismatch
  | TeTransferDescriptor
  | TeTransferConflict
  | TeChunkBounds
  | TeChunkConflict
  | TeMissingDescriptor
  | TeMissingChunk (chunk_index : N)
  | TePayloadDiffers
  | TePayloadRun
  | TeStage
  | TeStageConflict
  | TeActivationConflict
  | TeNotStaged
  | TeActivation.

(** ** The disk *)

(** A file that is created once, through a temporary file that a crash may leave
    behind; [Some None] is a temporary file that does not parse. *)
Record OnceFile (A : Type) := {
  of_final : option A;
  of_temporary : option (option A);
}.
Arguments of_final {A} _.
Arguments of_temporary {A} _.
Definition OnceFile_empty {A} : OnceFile A := {| of_final := None; of_temporary := None |}.

(** How far the creation of such a file gets: the temporary file is not created,
    is torn, is complete, is renamed, or all including the directory is
    synchronized. *)
Inductive OnceIo := OnceNothing | OnceTorn | OnceTemporary | OnceRenamed | OnceDone.

(** [persist_fence] and [persist_prefix_fence] on the file of the generation. *)
Definition create_once `{EqDecision A} (value : A) (io : OnceIo) (f : OnceFile A)
    : OnceFile A * res TLogError unit :=
  let renamed := {| of_final := Some value; of_temporary := None |} in
  let with_temporary t := {| of_final := None; of_temporary := Some t |} in
  match of_final f, of_temporary f with
  | Some existing, _ => (f, if decide (existing = value) then Ok tt else Err TeFencedByAnother)
  | None, Some None => (f, Err TeJson)
  | None, Some (Some recovered) =>
      if decide (recovered = value) then
        match io with
        | OnceDone => (renamed, Ok tt)
        | OnceRenamed => (renamed, Err TePersist)
        | _ => (f, Err TePersist)
        end
      else (f, Err TeTemporaryConflict)
  | None, None =>
      match io with
      | OnceNothing => (f, Err TePersist)
      | OnceTorn => (with_temporary None, Err TePersist)
      | OnceTemporary => (with_temporary (Some value), Err TePersist)
      | OnceRenamed => (renamed, Err TePersist)
      | OnceDone => (renamed, Ok tt)
      end
  end.

(** A chunk of a transfer: its file and its temporary file. *)
Record ChunkFile := {
  cf_final : option bytes;
  cf_temporary : option bytes;
}.
Definition ChunkFile_empty : ChunkFile := {| cf_final := None; cf_temporary := None |}.

(** [ChunkTorn n] leaves the first [n] bytes in the temporary file. *)
Inductive ChunkIo := ChunkNothing | ChunkTorn (n : nat) | ChunkRenamed | ChunkDone.

Record TLogDisk := {
  dk_wal : LocalReplicatedWal;
  dk_retention : option TaggedLogRetentionState;
  dk_fences : gmap N (OnceFile CellTaggedLogFenceStatement);
  dk_prefix_fences : gmap N (OnceFile CellTaggedLogPrefixFenceStatement);
  dk_install : option DurableTaggedLogRepairReceipt;
  dk_ready : option DurableTaggedLogRepairReceipt;
  dk_stage : option DurableTaggedLogPolicyStageReceipt;
  dk_activation : option DurableTaggedLogPolicyActivation;
  dk_transfers : gmap N TaggedLogRepairTransfer;
  dk_chunks : gmap (N * N) ChunkFile;
}.

(** A fresh root: [LocalReplicatedWal::open] creates one empty replica. *)
Definition TLogDisk_empty : TLogDisk :=
  {| dk_wal := {| wal_files := [[]]; wal_quorum := 1 |}; dk_retention := None; dk_fences := ∅;
     dk_prefix_fences := ∅; dk_install := None; dk_ready := None; dk_stage := None;
     dk_activation := None; dk_transfers := ∅; dk_chunks := ∅ |}.

(** The disk operations of one request: the retention file while it is loaded,
    the append, the rewrite, the retention file, the receipt or descriptor, the
    fence, the chunk. *)
Record TLogIo := {
  tio_recover : PersistIo;
  tio_append : option nat;
  tio_rewrite : option nat;
  tio_retention : PersistIo;
  tio_receipt : PersistIo;
  tio_fence : OnceIo;
  tio_chunk : ChunkIo;
}.
Definition tlog_io_ok : TLogIo :=
  {| tio_recover := Persisted; tio_append := None; tio_rewrite := None;
     tio_retention := Persisted; tio_receipt := Persisted; tio_fence := OnceDone;
     tio_chunk := ChunkDone |}.

(** ** Computations on the disk that may fail *)
Definition TL (A : Type) : Type := TLogDisk → TLogDisk * res TLogError A.
Definition tl_lift {A} (r : res TLogError A) : TL A := λ d, (d, r).
Definition tl_bind {A B} (m : TL A) (k : A → TL B) : TL B := λ d,
  match m d with
  | (d, Ok a) => k a d
  | (d, Err e) => (d, Err e)
  | (d, Panic) => (d, Panic)
  end.
Definition tl_get : TL TLogDisk := λ d, (d, Ok d).
Abbreviation tl_ret a := (tl_lift (Ok a)).
Abbreviation tl_fail e := (tl_lift (Err e)).
Notation "'let!' x := m 'in' k" := (tl_bind m (λ x, k))
  (at level 10, x binder, m at level 100, k at level 200) : okv_scope.
Notation "'check!' b 'else' e 'in' k" := (if b then k else tl_fail e)
  (at level 10, b at level 100, e at level 100, k at level 200) : okv_scope.

Section tlog.
Context (sha256 : bytes → bytes).
Context `{Ed25519} `{Ed25519Sign} `{CellJson} `{LogJson} `{TLogJson}.
Implicit Types (cfg : TaggedLogProcessConfig) (io : TLogIo) (records : list RecoveredRecord).

(** ** Records *)
Definition parse_record (payload : bytes) : res TLogError TaggedLogRecord :=
  match tlog_record_from_slice payload with Some r => Ok r | None => Err TeJson end.
Definition parse_records records : res TLogError (list TaggedLogRecord) :=
  res_collect (λ r, parse_record (rr_payload r)) records.
Definition decode_envelope (b : bytes) : res TLogError CommitEnvelope :=
  map_err TeEnvelope (envelope_decode sha256 b).
Definition encode_tlog_record (r : TaggedLogRecord) : res TLogError bytes :=
  match to_vec r with Some b => Ok b | None => Err TeJson end.
Definition encode_tagged_log_repair_snapshot (l : list TaggedLogRecord) : res TLogError bytes :=
  match to_vec l with Some b => Ok b | None => Err TeJson end.

Definition validate_record (record : TaggedLogRecord) (accept_missing_required_tags : bool)
    : res TLogError unit :=
  guard! (tr_format_version record =? TAGGED_LOG_FORMAT_VERSION)%N
         && negb (tr_position record =? 0)%N else TeRecordIdentity in
  let unique := set_of (tr_range_tags record) in
  guard! (size unique =? length (tr_range_tags record)) && negb (bool_decide (unique = ∅))
    else TeRecordTags in
  let? envelope := decode_envelope (tr_envelope record) in
  guard! accept_missing_required_tags
         || forallb (λ tag, bool_decide (tag ∈ unique)) (env_required_log_tags envelope)
    else TeMissingRequiredTag in
  Ok tt.

(** The client of an envelope, when it is one of the authority's. *)
Definition envelope_identity (envelope : CommitEnvelope) : option RequestIdentity :=
  if bool_decide (take 8 (env_client_id envelope) = replicate 8 0%N)
  then Some {| rid_client_id := of_be (drop 8 (env_client_id envelope));
               rid_request_id := env_request_id envelope |}
  else None.

Definition frame_size (payload : bytes) : N :=
  saturating_add (saturating_add (len payload) (N.of_nat FRAME_HEADER_BYTES))
    FRAME_CHECKSUM_BYTES.

Definition retained_frame_bytes records (popped_through : N) : res TLogError N :=
  res_fold (λ total recovered,
    let? record := parse_record (rr_payload recovered) in
    let? envelope := decode_envelope (tr_envelope record) in
    if (sequence (env_version envelope) <=? popped_through)%N then Ok total
    else
      Ok (saturating_add
            (saturating_add (saturating_add total (len (rr_payload recovered)))
               (N.of_nat FRAME_HEADER_BYTES)) FRAME_CHECKSUM_BYTES)) records 0%N.

(** Is the record a fence asks about among the recovered ones? *)
Fixpoint record_present cfg (cell_id tenant_id : bytes) (generation commit_sequence : N)
    (identity : RequestIdentity) (digest : bytes) records : res TLogError bool :=
  match records with
  | [] => Ok false
  | recovered :: records =>
      let? record := parse_record (rr_payload recovered) in
      let? envelope := decode_envelope (tr_envelope record) in
      match envelope_identity envelope with
      | None => record_present cfg cell_id tenant_id generation commit_sequence identity digest records
      | Some id =>
          if bool_decide (env_cell_id envelope = cell_id)
             && bool_decide (env_tenant_id envelope = tenant_id)
             && (env_generation envelope =? generation)%N
             && (sequence (env_version envelope) =? commit_sequence)%N
             && bool_decide (id = identity)
             && bool_decide (sha256 (tr_envelope record) = digest)
             && bool_decide (tlp_log_set_id cfg ∈ tr_range_tags record)
          then Ok true
          else record_present cfg cell_id tenant_id generation commit_sequence identity digest records
      end
  end.

(** ** Files *)
Definition persisted (ok : bool) : res TLogError unit := if ok then Ok tt else Err TePersist.

Definition recover_wal : TL Recovery := λ d,
  (d, map_err TeWal (recover sha256 (dk_wal d))).

Definition persist_retention (state : TaggedLogRetentionState) (io : PersistIo) : TL unit := λ d,
  let '(file, ok) := replace_file (dk_retention d) state io in
  ({ d with dk_retention := file }, persisted ok).

Definition recovered_last records : res TLogError N :=
  res_fold (λ last recovered,
    let? record := parse_record (rr_payload recovered) in
    Ok (N.max last (tr_position record))) records 0%N.

Definition load_or_recover_retention records (io : PersistIo) : TL TaggedLogRetentionState :=
  let! d := tl_get in
  let state := default TaggedLogRetentionState_default (dk_retention d) in
  let! last := tl_lift (recovered_last records) in
  if (trt_last_position state <? last)%N then
    let state :=
      {| trt_last_position := last; trt_popped_through := trt_popped_through state;
         trt_sample_epoch := N.max (saturating_add (trt_sample_epoch state) 1) 1 |} in
    let! _ := persist_retention state io in tl_ret state
  else if (trt_sample_epoch state =? 0)%N then
    let state :=
      {| trt_last_position := trt_last_position state;
         trt_popped_through := trt_popped_through state; trt_sample_epoch := 1 |} in
    let! _ := persist_retention state io in tl_ret state
  else tl_ret state.

Definition fence_file (d : TLogDisk) (generation : N) : OnceFile CellTaggedLogFenceStatement :=
  default OnceFile_empty (dk_fences d !! generation).
Definition prefix_fence_file (d : TLogDisk) (generation : N)
    : OnceFile CellTaggedLogPrefixFenceStatement :=
  default OnceFile_empty (dk_prefix_fences d !! generation).

Definition persist_fence (statement : CellTaggedLogFenceStatement) (io : OnceIo) : TL unit := λ d,
  let generation := tfs_generation statement in
  let '(f, r) := create_once statement io (fence_file d generation) in
  ({ d with dk_fences := <[generation := f]> (dk_fences d) }, r).
Definition persist_prefix_fence (statement : CellTaggedLogPrefixFenceStatement) (io : OnceIo)
    : TL unit := λ d,
  let generation := pfs_generation statement in
  let '(f, r) := create_once statement io (prefix_fence_file d generation) in
  ({ d with dk_prefix_fences := <[generation := f]> (dk_prefix_fences d) }, r).

(** [persist_repair_receipt] at the path of the phase. *)
Definition repair_receipt (phase : CellTaggedLogRepairPhase) (d : TLogDisk)
    : option DurableTaggedLogRepairReceipt :=
  match phase with BaseSnapshot => dk_install d | RepairLearnerReady => dk_ready d end.
Definition persist_repair_receipt (phase : CellTaggedLogRepairPhase)
    (receipt : DurableTaggedLogRepairReceipt) (io : PersistIo) : TL unit := λ d,
  let '(file, ok) := replace_file (repair_receipt phase d) receipt io in
  (match phase with
   | BaseSnapshot => { d with dk_install := file }
   | RepairLearnerReady => { d with dk_ready := file }
   end, persisted ok).

Definition persist_policy_stage (receipt : DurableTaggedLogPolicyStageReceipt) (io : PersistIo)
    : TL unit := λ d,
  match dk_stage d with
  | Some existing =>
      (d, if decide (existing = receipt) then Ok tt else Err TeStageConflict)
  | None =>
      let '(file, ok) := replace_file None receipt io in
      ({ d with dk_stage := file }, persisted ok)
  end.
Definition persist_policy_activation (receipt : DurableTaggedLogPolicyActivation)
    (io : PersistIo) : TL unit := λ d,
  match dk_activation d with
  | Some existing =>
      (d, if decide (existing = receipt) then Ok tt else Err TeActivationConflict)
  | None =>
      let '(file, ok) := replace_file None receipt io in
      ({ d with dk_activation := file }, persisted ok)
  end.

Definition append_wal (log_index : N) (payload : bytes) (io : option nat) : TL AppendOutcome := λ d,
  let '(w, r) := wal_append sha256 (dk_wal d) log_index payload [0] (λ _, io) in
  ({ d with dk_wal := w }, map_err TeWal r).
(** [wal.rewrite] of payloads numbered from 1. *)
Definition number_records (payloads : list bytes) : list (N * bytes) :=
  imap (λ offset payload, (saturating_add (N.of_nat offset) 1, payload)) payloads.
Definition rewrite_wal (payloads : list bytes) (io : option nat) : TL unit := λ d,
  let '(w, r) := wal_rewrite sha256 (dk_wal d) (number_records payloads) io in
  ({ d with dk_wal := w }, map_err TeWal r).

(** ** Statements *)
Definition sign_as {A} (r : res SignError A) : TL A := tl_lift (map_err TeSign r).
Definition signing_seed cfg : TL bytes :=
  match tlp_signing_seed cfg with Some seed => tl_ret seed | None => tl_fail TeNoSigningKey end.

Definition validate_statement_domain records (cell_id tenant_id : bytes) (generation : N)
    : res TLogError unit :=
  guard! negb (bool_decide (length records = 0)) else TeNoRetainedRecord in
  res_fold (λ _ recovered,
    let? record := parse_record (rr_payload recovered) in
    let? envelope := decode_envelope (tr_envelope record) in
    guard! bool_decide (env_cell_id envelope = cell_id)
           && bool_decide (env_tenant_id envelope = tenant_id)
           && (env_generation envelope =? generation)%N else TeDomainDiffers in
    Ok tt) records tt.

Definition validate_capacity_statement cfg (policy_epoch : N)
    (st : CellTaggedLogCapacityStatement) records (retention : TaggedLogRetentionState)
    : res TLogError unit :=
  guard! (tcs_format_version st =? 1)%N && negb (tcs_generation st =? 0)%N
         && (tcs_log_set_id st =? tlp_log_set_id cfg)%N
         && (tcs_policy_epoch st =? policy_epoch)%N
         && negb (tcs_projected_frame_bytes st =? 0)%N
         && negb (tcs_soft_limit_bytes st =? 0)%N
         && negb (tcs_reservation_epoch st =? 0)%N
         && negb (tlp_retained_bytes_limit cfg <? tcs_soft_limit_bytes st)%N
         && negb (trt_sample_epoch retention =? 0)%N else TeCapacityPolicy in
  if bool_decide (length records = 0) then Ok tt
  else validate_statement_domain records (tcs_cell_id st) (tcs_tenant_id st) (tcs_generation st).

Definition maximum_version records : res TLogError N :=
  res_fold (λ maximum recovered,
    let? record := parse_record (rr_payload recovered) in
    let? envelope := decode_envelope (tr_envelope record) in
    Ok (N.max maximum (sequence (env_version envelope)))) records 0%N.

(** The capability names the frontier, and the manifest it names is a snapshot
    of the domain at that frontier. *)
Definition pop_authorized cfg (st : CellTaggedLogPopStatement)
    (capability : PublicationPopCapabilityCertificate) (manifest_bytes : bytes)
    : res TLogError unit :=
  match tlp_publication_pop_policy cfg with
  | None => Err TeNoPublicationPolicy
  | Some policy =>
      guard! verify_publication_pop_capability capability (ppp_members policy)
               (ppp_quorum_size policy) else TePopCapability in
      let cs := ppx_statement capability in
      match to_vec (ppc_manifest cs), cell_snapshot_from_slice manifest_bytes with
      | Some reference, Some snapshot =>
          guard! (ppc_generation cs =? tps_generation st)%N
                 && (ppc_object_frontier cs =? tps_object_frontier st)%N
                 && (ppc_pop_epoch cs =? tps_pop_epoch st)%N
                 && bool_decide (sha256 reference = tps_publication_root_sha256 st)
                 && (ref_length (ppc_manifest cs) =? len manifest_bytes)%N
                 && bool_decide (ref_sha256 (ppc_manifest cs)
                                 = bytes_string (hex_bytes (sha256 manifest_bytes)))
                 && bool_decide (css_cell_id snapshot = tps_cell_id st)
                 && bool_decide (css_tenant_id snapshot = tps_tenant_id st)
                 && (css_generation snapshot =? tps_generation st)%N
                 && (css_latest_sequence snapshot =? tps_object_frontier st)%N
            else TePopBinding in
          Ok tt
      | _, _ => Err TeJson
      end
  end.

Definition validate_pop_statement cfg (policy_epoch : N) (st : CellTaggedLogPopStatement)
    (capability : PublicationPopCapabilityCertificate) (manifest_bytes : bytes) records
    (retention : TaggedLogRetentionState) : res TLogError unit :=
  guard! (tps_format_version st =? 1)%N && negb (tps_generation st =? 0)%N
         && (tps_log_set_id st =? tlp_log_set_id cfg)%N
         && (tps_policy_epoch st =? policy_epoch)%N
         && negb (bool_decide (tps_publication_root_sha256 st = ZERO32))
         && negb (tps_object_frontier st <? trt_popped_through retention)%N
         && negb (tps_pop_epoch st =? 0)%N else TePopPolicy in
  let? _ :=
    if tlp_accept_unauthenticated_pop cfg then Ok tt
    else pop_authorized cfg st capability manifest_bytes in
  let? _ := validate_statement_domain records (tps_cell_id st) (tps_tenant_id st)
              (tps_generation st) in
  let? maximum := maximum_version records in
  guard! negb (maximum <? tps_object_frontier st)%N else TePopFrontier in
  Ok tt.

(** ** Repair *)
Definition validate_repair_target cfg (certificate : CellTaggedLogRepairCertificate)
    : res TLogError unit :=
  match tlp_repair_source_policy cfg, tlp_signing_seed cfg with
  | None, _ => Err TeNoRepairPolicy
  | _, None => Err TeNoSigningKey
  | Some policy, Some seed =>
      let? local_public_key := map_err TeSign (tagged_log_public_key seed) in
      let st := trc_statement certificate in
      let target_matches :=
        (trs_log_set_id st =? tlp_log_set_id cfg)%N
        && (trs_learner_node_id st =? tlp_node_id cfg)%N
        && bool_decide (trs_learner_incarnation st = tlp_storage_incarnation cfg)
        && bool_decide (trs_learner_public_key st = local_public_key) in
      let certificate_valid := verify_tagged_log_repair_certificate certificate policy in
      guard! tlp_learner cfg && negb (bool_decide (tlp_storage_incarnation cfg = ZERO16))
             && (target_matches || accept_target_mismatch (tlp_repair_faults cfg))
             && (certificate_valid || accept_invalid_certificate (tlp_repair_faults cfg))
        else TeRepairTarget in
      Ok tt
  end.

(** [records.windows(2).any(|pair| pair[1].position != pair[0].position + 1)]. *)
Definition positions_consecutive (l : list TaggedLogRecord) : bool :=
  consecutive (tr_position <$> l).

Definition validate_repair_snapshot cfg (st : CellTaggedLogRepairStatement)
    (snapshot_bytes : bytes) records (retention : TaggedLogRetentionState)
    (require_local_match : bool) : res TLogError (list TaggedLogRecord) :=
  let faults := tlp_repair_faults cfg in
  let snapshot_identity_matches :=
    (trs_snapshot_length st =? len snapshot_bytes)%N
    && bool_decide (trs_snapshot_sha256 st = sha256 snapshot_bytes) in
  guard! (trs_format_version st =? 1)%N && negb (trs_generation st =? 0)%N
         && (trs_log_set_id st =? tlp_log_set_id cfg)%N
         && (snapshot_identity_matches || accept_snapshot_identity_mismatch faults)
    else TeSnapshotIdentity in
  match tlog_records_from_slice snapshot_bytes with
  | None => Err TeJson
  | Some l =>
      guard! negb (bool_decide (length l = 0))
             && (bool_decide (tr_position <$> last l = Some (trs_last_position st))
                 || accept_local_snapshot_mismatch faults)
             && positions_consecutive l else TeSnapshotSuffix in
      let? _ :=
        res_fold (λ _ record,
          let? _ := validate_record record (tlp_accept_missing_required_tags cfg) in
          guard! bool_decide (tlp_log_set_id cfg ∈ tr_range_tags record)
            else TeMissingLogSetTag in
          let? envelope := decode_envelope (tr_envelope record) in
          guard! bool_decide (env_cell_id envelope = trs_cell_id st)
                 && bool_decide (env_tenant_id envelope = trs_tenant_id st)
                 && (env_generation envelope =? trs_generation st)%N
                 && negb (sequence (env_version envelope) <=? trs_popped_through st)%N
            else TeSnapshotDomain in
          Ok tt) l tt in
      if require_local_match && negb (accept_local_snapshot_mismatch faults) then
        guard! (trt_last_position retention =? trs_last_position st)%N
               && (trt_popped_through retention =? trs_popped_through st)%N
               && negb (trt_sample_epoch retention =? 0)%N else TeSnapshotFrontier in
        let? local := parse_records records in
        guard! bool_decide (local = l) else TeSnapshotLocal in
        Ok l
      else Ok l
  end.

Definition validate_repair_transfer cfg (transfer : TaggedLogRepairTransfer)
    : res TLogError unit :=
  let? _ := validate_repair_target cfg (rtx_certificate transfer) in
  let phase_shape_valid :=
    match trs_phase (trc_statement (rtx_certificate transfer)) with
    | BaseSnapshot => negb (is_some (rtx_base_snapshot_sha256 transfer))
    | RepairLearnerReady => is_some (rtx_base_snapshot_sha256 transfer)
    end in
  guard! (rtx_format_version transfer =? 1)%N && negb (rtx_transfer_id transfer =? 0)%N
         && negb (rtx_payload_length transfer =? 0)%N
         && (rtx_payload_length transfer <=? 16 * 1024 * 1024)%N
         && negb (rtx_chunk_count transfer =? 0)%N && (rtx_chunk_count transfer <=? 64)%N
         && phase_shape_valid else TeTransferDescriptor in
  Ok tt.

Definition persist_repair_transfer (transfer : TaggedLogRepairTransfer) (io : PersistIo)
    : TL unit := λ d,
  let id := rtx_transfer_id transfer in
  match dk_transfers d !! id with
  | Some existing => (d, if decide (existing = transfer) then Ok tt else Err TeTransferConflict)
  | None =>
      let '(file, ok) := replace_file None transfer io in
      ({ d with dk_transfers := partial_alter (λ _, file) id (dk_transfers d) }, persisted ok)
  end.

Definition chunk_file (d : TLogDisk) (transfer_id chunk_index : N) : ChunkFile :=
  default ChunkFile_empty (dk_chunks d !! (transfer_id, chunk_index)).

(** The chunk's file after an attempt to store [chunk]. *)
Definition store_chunk (chunk : bytes) (io : ChunkIo) (f : ChunkFile)
    : ChunkFile * res TLogError unit :=
  let stored := {| cf_final := Some chunk; cf_temporary := None |} in
  match cf_final f, cf_temporary f with
  | Some existing, _ => (f, if decide (existing = chunk) then Ok tt else Err TeChunkConflict)
  | None, Some recovered =>
      if decide (recovered = chunk) then
        match io with
        | ChunkDone => (stored, Ok tt)
        | ChunkRenamed => (stored, Err TePersist)
        | _ => (f, Err TePersist)
        end
      else (f, Err TeChunkConflict)
  | None, None =>
      match io with
      | ChunkNothing => (f, Err TePersist)
      | ChunkTorn n =>
          ({| cf_final := None; cf_temporary := Some (take n chunk) |}, Err TePersist)
      | ChunkRenamed => (stored, Err TePersist)
      | ChunkDone => (stored, Ok tt)
      end
  end.

Definition store_repair_chunk cfg io (transfer : TaggedLogRepairTransfer) (chunk_index : N)
    (chunk : bytes) : TL TaggedLogResponse :=
  let! _ := tl_lift (validate_repair_transfer cfg transfer) in
  check! (chunk_index <? rtx_chunk_count transfer)%N && negb (bool_decide (chunk = []))
         && (len chunk <=? rtx_payload_length transfer)%N else TeChunkBounds in
  let! _ := persist_repair_transfer transfer (tio_receipt io) in
  let id := rtx_transfer_id transfer in
  let! _ := (λ d,
    let '(f, r) := store_chunk chunk (tio_chunk io) (chunk_file d id chunk_index) in
    ({ d with dk_chunks := <[(id, chunk_index) := f]> (dk_chunks d) }, r)) in
  tl_ret (TaRepairChunkStored id chunk_index (len chunk)).

(** The chunks in order. *)
Fixpoint read_chunks (d : TLogDisk) (transfer_id chunk_index : N) (count : nat)
    : res TLogError bytes :=
  match count with
  | O => Ok []
  | S count =>
      match cf_final (chunk_file d transfer_id chunk_index) with
      | None => Err (TeMissingChunk chunk_index)
      | Some chunk =>
          let? rest := read_chunks d transfer_id (chunk_index + 1) count in
          Ok (chunk ++ rest)
      end
  end.

Definition load_repair_payload (d : TLogDisk) (transfer : TaggedLogRepairTransfer)
    : res TLogError (list TaggedLogRecord) :=
  let? payload := read_chunks d (rtx_transfer_id transfer) 0
                    (N.to_nat (rtx_chunk_count transfer)) in
  guard! (len payload =? rtx_payload_length transfer)%N
         && bool_decide (sha256 payload = rtx_payload_sha256 transfer) else TePayloadDiffers in
  match tlog_records_from_slice payload with
  | None => Err TeJson
  | Some l =>
      guard! negb (bool_decide (length l = 0)) && positions_consecutive l else TePayloadRun in
      Ok l
  end.

Definition combine_repair_records (d : TLogDisk) records (retention : TaggedLogRetentionState)
    (transfer : TaggedLogRepairTransfer) (payload_records : list TaggedLogRecord)
    : res TLogError (list TaggedLogRecord) :=
  let st := trc_statement (rtx_certificate transfer) in
  match trs_phase st with
  | BaseSnapshot =>
      guard! bool_decide (length records = 0) && (trt_last_position retention =? 0)%N
             && (trt_popped_through retention =? 0)%N else TeLearnerNotEmpty in
      Ok payload_records
  | RepairLearnerReady =>
      match dk_install d with
      | None => Err TeNoBaseInstall
      | Some installed =>
          let base_st := trc_statement (drr_certificate installed) in
          guard! (trs_repair_id base_st =? trs_repair_id st)%N
                 && bool_decide (rtx_base_snapshot_sha256 transfer
                                 = Some (trs_snapshot_sha256 base_st))
            else TeRepairMismatch in
          let? base := parse_records records in
          let? base_bytes := encode_tagged_log_repair_snapshot base in
          guard! bool_decide (rtx_base_snapshot_sha256 transfer = Some (sha256 base_bytes))
                 && bool_decide (tr_position <$> head payload_records
                                 = Some (saturating_add (trt_last_position retention) 1))
            else TeRepairMismatch in
          Ok (base ++ payload_records)
      end
  end.

Definition repair_finalize_response (st : CellTaggedLogRepairStatement) (installed_records : N)
    : TaggedLogResponse :=
  match trs_phase st with
  | BaseSnapshot =>
      TaRepairInstalled (trs_repair_id st) (trs_last_position st) (trs_popped_through st)
        installed_records (trs_snapshot_length st)
  | RepairLearnerReady =>
      TaRepairReady (trs_repair_id st) (trs_last_position st) (trs_snapshot_sha256 st)
  end.

(** ** Requests *)

(** What every request starts from. *)
Record TLogContext := {
  cx_records : list RecoveredRecord;
  cx_last_index : N;
  cx_retention : TaggedLogRetentionState;
  cx_retained_bytes : N;
  cx_policy_epoch : N;
  cx_learner : bool;
}.
Implicit Types (cx : TLogContext).

Definition tlog_context cfg io : TL TLogContext :=
  let! recovery := recover_wal in
  let records := rc_records recovery in
  let! retention := load_or_recover_retention records (tio_recover io) in
  let! retained_bytes := tl_lift (retained_frame_bytes records (trt_popped_through retention)) in
  let! d := tl_get in
  tl_ret
    {| cx_records := records; cx_last_index := last_index recovery; cx_retention := retention;
       cx_retained_bytes := retained_bytes;
       cx_policy_epoch :=
         match dk_activation d with
         | Some receipt => lsp_policy_epoch (lpt_next_policy (dpa_transition receipt))
         | None => tlp_policy_epoch cfg
         end;
       cx_learner := tlp_learner cfg && negb (is_some (dk_activation d)) |}.

Definition tlog_status cx : TaggedLogResponse :=
  TaReady (trt_last_position (cx_retention cx)) (trt_popped_through (cx_retention cx))
    (cx_retained_bytes cx) (trt_sample_epoch (cx_retention cx)).

Definition generation_is_fenced (d : TLogDisk) (generation : N) : bool :=
  is_some (of_final (fence_file d generation))
  || is_some (of_final (prefix_fence_file d generation)).

Definition tlog_append cfg io cx (record : TaggedLogRecord) : TL TaggedLogResponse :=
  check! negb (cx_learner cx) else TeLearnerExcluded in
  let! envelope := tl_lift (decode_envelope (tr_envelope record)) in
  let! d := tl_get in
  check! negb (generation_is_fenced d (env_generation envelope)) else TeGenerationFenced in
  let! payload := tl_lift (encode_tlog_record record) in
  let proposed_frame_bytes := frame_size payload in
  if (tlp_retained_bytes_limit cfg <? saturating_add (cx_retained_bytes cx) proposed_frame_bytes)%N
  then tl_ret (TaRetainedBytesLimit (cx_retained_bytes cx) proposed_frame_bytes
                 (tlp_retained_bytes_limit cfg))
  else
    let! _ := tl_lift (validate_record record (tlp_accept_missing_required_tags cfg)) in
    check! tlp_accept_missing_required_tags cfg
           || bool_decide (tlp_log_set_id cfg ∈ tr_range_tags record) else TeMissingLogSetTag in
    let retention := cx_retention cx in
    let expected_position := saturating_add (trt_last_position retention) 1 in
    check! (tr_position record =? expected_position)%N
      else TeNonConsecutive expected_position (tr_position record) in
    let! outcome := append_wal (saturating_add (cx_last_index cx) 1) payload (tio_append io) in
    check! ao_quorum_durable outcome else TeNotDurable in
    let! _ := persist_retention
      {| trt_last_position := tr_position record;
         trt_popped_through := trt_popped_through retention;
         trt_sample_epoch := saturating_add (trt_sample_epoch retention) 1 |}
      (tio_retention io) in
    tl_ret (TaAppended (tr_position record) (sha256 payload) (ao_frame_bytes outcome)
              (saturating_add (cx_retained_bytes cx) (ao_frame_bytes outcome))).

Definition tlog_read cfg cx (range_tag after_version through_version : N)
    : TL TaggedLogResponse :=
  check! negb (through_version <=? after_version)%N else TeVersionBounds in
  let! l := tl_lift (res_fold (λ l recovered,
    let? record := parse_record (rr_payload recovered) in
    let? _ := validate_record record (tlp_accept_missing_required_tags cfg) in
    let? envelope := decode_envelope (tr_envelope record) in
    let version := sequence (env_version envelope) in
    Ok (if (trt_popped_through (cx_retention cx) <? version)%N
           && bool_decide (range_tag ∈ tr_range_tags record)
           && (after_version <? version)%N && (version <=? through_version)%N
        then l ++ [record] else l)) (cx_records cx) []) in
  tl_ret (TaFeed l (cx_retained_bytes cx)).

(** The first recovered record at the stated position. *)
Definition find_position records (position : N) : option RecoveredRecord :=
  List.find (λ recovered,
    match parse_record (rr_payload recovered) with
    | Ok record => (tr_position record =? position)%N
    | _ => false
    end) records.

Definition tlog_attest cfg cx (st : CellTaggedLogStatement) : TL TaggedLogResponse :=
  check! negb (cx_learner cx) else TeLearnerExcluded in
  let! seed := signing_seed cfg in
  check! negb (cx_policy_epoch cx =? 0)%N && (tls_policy_epoch st =? cx_policy_epoch cx)%N
         && (tls_log_set_id st =? tlp_log_set_id cfg)%N
         && negb (tls_durable_position st =? 0)%N else TeSignerPolicy in
  match find_position (cx_records cx) (tls_durable_position st) with
  | None => tl_fail TeAbsentPosition
  | Some recovered =>
      let! record := tl_lift (parse_record (rr_payload recovered)) in
      let! _ := tl_lift (validate_record record (tlp_accept_missing_required_tags cfg)) in
      let! envelope := tl_lift (decode_envelope (tr_envelope record)) in
      match envelope_identity envelope with
      | None => tl_fail TeClientIdentity
      | Some client =>
          check! (tls_format_version st =? 1)%N
                 && bool_decide (tls_cell_id st = env_cell_id envelope)
                 && bool_decide (tls_tenant_id st = env_tenant_id envelope)
                 && (tls_generation st =? env_generation envelope)%N
                 && bool_decide (tls_transaction_identity st = client)
                 && (tls_commit_sequence st =? sequence (env_version envelope))%N
                 && bool_decide (tls_envelope_sha256 st = sha256 (tr_envelope record))
                 && (tr_position record =? tls_durable_position st)%N
                 && bool_decide (tlp_log_set_id cfg ∈ tr_range_tags record)
            else TeStatementDiffers in
          let! attestation := sign_as (sign_tagged_log_statement (tlp_node_id cfg) seed st) in
          tl_ret (TaAttested st attestation)
      end
  end.

Definition tlog_fence cfg io cx (st : CellTaggedLogFenceStatement) : TL TaggedLogResponse :=
  check! negb (cx_learner cx) else TeLearnerExcluded in
  let! seed := signing_seed cfg in
  check! negb (cx_policy_epoch cx =? 0)%N && (tfs_format_version st =? 1)%N
         && (tfs_policy_epoch st =? cx_policy_epoch cx)%N
         && (tfs_log_set_id st =? tlp_log_set_id cfg)%N
         && negb (tfs_generation st =? 0)%N && negb (tfs_recovery_id st =? 0)%N
         && negb (tfs_commit_sequence st =? 0)%N else TeSignerPolicy in
  let! d := tl_get in
  check! match of_final (fence_file d (tfs_generation st)) with
         | Some existing => bool_decide (existing = st)
         | None => true
         end else TeFencedByAnother in
  let! present := tl_lift (record_present cfg (tfs_cell_id st) (tfs_tenant_id st)
    (tfs_generation st) (tfs_commit_sequence st) (tfs_transaction_identity st)
    (tfs_envelope_sha256 st) (cx_records cx)) in
  let! _ := if tlp_persist_fences cfg then persist_fence st (tio_fence io) else tl_ret tt in
  let! attestation := sign_as (sign_tagged_log_fence_statement (tlp_node_id cfg) seed st present) in
  tl_ret (TaFenced st attestation (tlp_persist_fences cfg)).

Definition observe_window cfg cx (st : CellTaggedLogPrefixFenceStatement)
    : res TLogError (list CellTaggedLogPrefixObservation) :=
  res_collect (λ expected,
    let? present := record_present cfg (pfs_cell_id st) (pfs_tenant_id st) (pfs_generation st)
      (swr_commit_sequence expected) (swr_transaction_identity expected)
      (swr_envelope_sha256 expected) (cx_records cx) in
    Ok {| pfo_transaction_identity := swr_transaction_identity expected;
          pfo_commit_sequence := swr_commit_sequence expected;
          pfo_envelope_sha256 := swr_envelope_sha256 expected;
          pfo_record_present := present |}) (csw_records (pfs_window st)).

Definition tlog_prefix_fence cfg io cx (st : CellTaggedLogPrefixFenceStatement)
    : TL TaggedLogResponse :=
  check! negb (cx_learner cx) else TeLearnerExcluded in
  let! seed := signing_seed cfg in
  check! negb (cx_policy_epoch cx =? 0)%N && (pfs_format_version st =? 1)%N
         && (pfs_policy_epoch st =? cx_policy_epoch cx)%N
         && (pfs_log_set_id st =? tlp_log_set_id cfg)%N
         && negb (pfs_generation st =? 0)%N && negb (pfs_recovery_id st =? 0)%N
         && (csw_format_version (pfs_window st) =? 1)%N
         && negb (bool_decide (csw_records (pfs_window st) = [])) else TeSignerPolicy in
  let! d := tl_get in
  check! match of_final (prefix_fence_file d (pfs_generation st)) with
         | Some existing => bool_decide (existing = st)
         | None => true
         end else TeFencedByAnother in
  let! observations := tl_lift (observe_window cfg cx st) in
  let! _ := if tlp_persist_fences cfg then persist_prefix_fence st (tio_fence io) else tl_ret tt in
  let! attestation :=
    sign_as (sign_tagged_log_prefix_fence_statement (tlp_node_id cfg) seed st observations) in
  tl_ret (TaPrefixFenced st attestation (tlp_persist_fences cfg)).

Definition tlog_capacity cfg cx (st : CellTaggedLogCapacityStatement) : TL TaggedLogResponse :=
  check! negb (cx_learner cx) else TeLearnerExcluded in
  let! seed := signing_seed cfg in
  let retention := cx_retention cx in
  let! _ := tl_lift (validate_capacity_statement cfg (cx_policy_epoch cx) st (cx_records cx)
                       retention) in
  let! attestation := sign_as (sign_tagged_log_capacity_statement seed st
    {| tca_signer_id := tlp_node_id cfg; tca_last_position := trt_last_position retention;
       tca_popped_through := trt_popped_through retention;
       tca_retained_bytes := cx_retained_bytes cx;
       tca_hard_limit_bytes := tlp_retained_bytes_limit cfg;
       tca_sample_epoch := trt_sample_epoch retention; tca_signature := [] |}) in
  tl_ret (TaCapacityAttested st attestation).

(** The payloads above the frontier. *)
Definition payloads_above records (frontier : N) : res TLogError (list bytes) :=
  res_fold (λ l recovered,
    let? record := parse_record (rr_payload recovered) in
    let? envelope := decode_envelope (tr_envelope record) in
    Ok (if (frontier <? sequence (env_version envelope))%N
        then l ++ [rr_payload recovered] else l)) records [].

Definition tlog_pop cfg io cx (st : CellTaggedLogPopStatement)
    (capability : PublicationPopCapabilityCertificate) (manifest_bytes : bytes)
    : TL TaggedLogResponse :=
  check! negb (cx_learner cx) else TeLearnerExcluded in
  let! seed := signing_seed cfg in
  let retention := cx_retention cx in
  let! _ := tl_lift (validate_pop_statement cfg (cx_policy_epoch cx) st capability manifest_bytes
                       (cx_records cx) retention) in
  let! retention :=
    if (trt_popped_through retention <? tps_object_frontier st)%N then
      let retention :=
        {| trt_last_position := trt_last_position retention;
           trt_popped_through := tps_object_frontier st;
           trt_sample_epoch := saturating_add (trt_sample_epoch retention) 1 |} in
      let! _ := persist_retention retention (tio_retention io) in
      let! rewritten := tl_lift (payloads_above (cx_records cx) (tps_object_frontier st)) in
      let! _ := rewrite_wal rewritten (tio_rewrite io) in
      tl_ret retention
    else tl_ret retention in
  let! compacted := recover_wal in
  let! compacted_bytes :=
    tl_lift (retained_frame_bytes (rc_records compacted) (trt_popped_through retention)) in
  let! attestation := sign_as (sign_tagged_log_pop_statement seed st
    {| tpa_signer_id := tlp_node_id cfg; tpa_last_position := trt_last_position retention;
       tpa_popped_through := trt_popped_through retention;
       tpa_retained_bytes := compacted_bytes; tpa_sample_epoch := trt_sample_epoch retention;
       tpa_signature := [] |}) in
  tl_ret (TaPopped st attestation).

Definition tlog_repair_attest cfg cx (st : CellTaggedLogRepairStatement) (snapshot_bytes : bytes)
    : TL TaggedLogResponse :=
  check! negb (cx_learner cx) else TeLearnerExcluded in
  let! seed := signing_seed cfg in
  let! _ := tl_lift (validate_repair_snapshot cfg st snapshot_bytes (cx_records cx)
                       (cx_retention cx) true) in
  let! attestation := sign_as (sign_tagged_log_repair_statement seed st
    {| tra_signer_id := tlp_node_id cfg;
       tra_source_sample_epoch := trt_sample_epoch (cx_retention cx); tra_signature := [] |}) in
  tl_ret (TaRepairAttested st attestation).

(** Replacing a learner's log by the records of a certified snapshot. *)
Definition install_records io (st : CellTaggedLogRepairStatement)
    (certificate : CellTaggedLogRepairCertificate) (l : list TaggedLogRecord) (sample_epoch : N)
    : TL N :=
  let! payloads := tl_lift (res_collect encode_tlog_record l) in
  let! _ := rewrite_wal payloads (tio_rewrite io) in
  let! _ := persist_retention
    {| trt_last_position := trs_last_position st; trt_popped_through := trs_popped_through st;
       trt_sample_epoch := sample_epoch |} (tio_retention io) in
  let! _ := persist_repair_receipt (trs_phase st)
    {| drr_certificate := certificate; drr_installed_records := len l |} (tio_receipt io) in
  tl_ret (len l).

Definition tlog_repair_install cfg io cx (certificate : CellTaggedLogRepairCertificate)
    (snapshot_bytes : bytes) : TL TaggedLogResponse :=
  let! _ := tl_lift (validate_repair_target cfg certificate) in
  let st := trc_statement certificate in
  check! bool_decide (trs_phase st = BaseSnapshot) else TeRepairPhase in
  let! d := tl_get in
  match dk_install d with
  | Some receipt =>
      check! bool_decide (drr_certificate receipt = certificate) else TeRepairConflict in
      tl_ret (repair_finalize_response st (drr_installed_records receipt))
  | None =>
      let retention := cx_retention cx in
      check! bool_decide (length (cx_records cx) = 0) && (trt_last_position retention =? 0)%N
             && (trt_popped_through retention =? 0)%N else TeLearnerNotEmpty in
      let! l := tl_lift (validate_repair_snapshot cfg st snapshot_bytes [] retention false) in
      let! installed := install_records io st certificate l 1 in
      tl_ret (repair_finalize_response st installed)
  end.

Definition tlog_repair_ready cfg io cx (certificate : CellTaggedLogRepairCertificate)
    (snapshot_bytes : bytes) : TL TaggedLogResponse :=
  let! _ := tl_lift (validate_repair_target cfg certificate) in
  let st := trc_statement certificate in
  check! bool_decide (trs_phase st = RepairLearnerReady) else TeRepairPhase in
  let! d := tl_get in
  match dk_install d with
  | None => tl_fail TeNoBaseInstall
  | Some installed =>
      let base := trc_statement (drr_certificate installed) in
      check! (trs_repair_id base =? trs_repair_id st)%N
             && (trs_learner_node_id base =? trs_learner_node_id st)%N
             && bool_decide (trs_learner_incarnation base = trs_learner_incarnation st)
        else TeRepairMismatch in
      let! _ := tl_lift (validate_repair_snapshot cfg st snapshot_bytes (cx_records cx)
                           (cx_retention cx) true) in
      let! _ :=
        match dk_ready d with
        | Some existing =>
            check! bool_decide (drr_certificate existing = certificate) else TeRepairConflict in
            tl_ret tt
        | None =>
            persist_repair_receipt RepairLearnerReady
              {| drr_certificate := certificate;
                 drr_installed_records := len (cx_records cx) |} (tio_receipt io)
        end in
      tl_ret (repair_finalize_response st 0)
  end.

Definition finalize_repair_transfer cfg io cx (transfer : TaggedLogRepairTransfer)
    : TL TaggedLogResponse :=
  let! _ := tl_lift (validate_repair_transfer cfg transfer) in
  let! d := tl_get in
  match dk_transfers d !! rtx_transfer_id transfer with
  | None => tl_fail TeMissingDescriptor
  | Some stored =>
      check! bool_decide (stored = transfer) else TeTransferConflict in
      let st := trc_statement (rtx_certificate transfer) in
      match repair_receipt (trs_phase st) d with
      | Some receipt =>
          check! bool_decide (drr_certificate receipt = rtx_certificate transfer)
            else TeRepairConflict in
          tl_ret (repair_finalize_response st (drr_installed_records receipt))
      | None =>
          let retention := cx_retention cx in
          let! payload_records := tl_lift (load_repair_payload d transfer) in
          let! combined := tl_lift (combine_repair_records d (cx_records cx) retention transfer
                                      payload_records) in
          let combined := sort_by_key tr_position combined in
          let! combined_bytes := tl_lift (encode_tagged_log_repair_snapshot combined) in
          let! _ := tl_lift (validate_repair_snapshot cfg st combined_bytes [] retention false) in
          let! installed := install_records io st (rtx_certificate transfer) combined
            (N.max (saturating_add (trt_sample_epoch retention) 1) 1) in
          tl_ret (repair_finalize_response st installed)
      end
  end.

(** ** Policy changes *)
Definition stage_statement (t : CellLogSetPolicyTransition) : CellTaggedLogPolicyStageStatement :=
  {| pss_format_version := 1; pss_cell_id := lpt_cell_id t; pss_tenant_id := lpt_tenant_id t;
     pss_generation := lpt_generation t; pss_transition_id := lpt_transition_id t;
     pss_log_set_id := lpt_log_set_id t;
     pss_old_policy_epoch := lsp_policy_epoch (lpt_old_policy t);
     pss_next_policy_epoch := lsp_policy_epoch (lpt_next_policy t);
     pss_transition_sha256 := cell_log_set_policy_transition_sha256 sha256 t;
     pss_retained_root_sha256 := lpt_retained_root_sha256 t;
     pss_retained_last_position := lpt_retained_last_position t |}.

(** The local log is the one the transition names, and this node belongs to the
    next policy: a learner by its readiness, another node by the old policy. *)
Definition stage_valid cfg (d : TLogDisk) (retention : TaggedLogRetentionState)
    (local_public_key local_root : bytes) (t : CellLogSetPolicyTransition) : bool :=
  let next_member :=
    List.find (λ m, (lsm_node_id m =? tlp_node_id cfg)%N) (lsp_members (lpt_next_policy t)) in
  let readiness_matches :=
    if tlp_learner cfg then
      match dk_ready d with
      | Some receipt =>
          bool_decide (cell_tagged_log_repair_certificate_sha256 sha256 (drr_certificate receipt)
                       = lpt_repair_readiness_sha256 t)
          && bool_decide (trs_learner_incarnation (trc_statement (drr_certificate receipt))
                          = lpt_learner_incarnation t)
      | None => false
      end
    else existsb (λ m, (lsm_node_id m =? tlp_node_id cfg)%N) (lsp_members (lpt_old_policy t)) in
  (lpt_format_version t =? 1)%N && (lpt_log_set_id t =? tlp_log_set_id cfg)%N
  && (lsp_policy_epoch (lpt_old_policy t) =? tlp_policy_epoch cfg)%N
  && (lsp_policy_epoch (lpt_next_policy t)
      =? saturating_add (lsp_policy_epoch (lpt_old_policy t)) 1)%N
  && match next_member with
     | Some m => bool_decide (lsm_public_key m = local_public_key)
     | None => false
     end
  && (trt_last_position retention =? lpt_retained_last_position t)%N
  && bool_decide (local_root = lpt_retained_root_sha256 t)
  && readiness_matches.

Definition tlog_policy_stage cfg io cx (t : CellLogSetPolicyTransition) : TL TaggedLogResponse :=
  let! seed := signing_seed cfg in
  let! local_public_key := sign_as (tagged_log_public_key seed) in
  let! local_records := tl_lift (parse_records (cx_records cx)) in
  let! local_snapshot := tl_lift (encode_tagged_log_repair_snapshot local_records) in
  let! d := tl_get in
  check! stage_valid cfg d (cx_retention cx) local_public_key (sha256 local_snapshot) t
         || accept_invalid_stage (tlp_policy_transition_faults cfg) else TeStage in
  let st := stage_statement t in
  let! _ := persist_policy_stage {| dps_transition := t; dps_statement := st |} (tio_receipt io) in
  let! attestation := sign_as (sign_tagged_log_policy_stage_statement seed st
    {| psa_signer_id := tlp_node_id cfg;
       psa_source_sample_epoch := trt_sample_epoch (cx_retention cx); psa_signature := [] |}) in
  tl_ret (TaPolicyStaged (lpt_transition_id t) attestation).

Definition activation_matches (t : CellLogSetPolicyTransition) (stage_sha256 : bytes)
    (st : CellLogSetPolicyActivationStatement) : bool :=
  (pas_format_version st =? 1)%N && bool_decide (pas_cell_id st = lpt_cell_id t)
  && bool_decide (pas_tenant_id st = lpt_tenant_id t)
  && (pas_generation st =? lpt_generation t)%N
  && (pas_transition_id st =? lpt_transition_id t)%N
  && (pas_log_set_id st =? lpt_log_set_id t)%N
  && (pas_next_policy_epoch st =? lsp_policy_epoch (lpt_next_policy t))%N
  && bool_decide (pas_next_policy_sha256 st
                  = cell_log_set_policy_sha256 sha256 (lpt_next_policy t))
  && bool_decide (pas_successor_stage_sha256 st = stage_sha256).

Definition tlog_policy_activate cfg io (t : CellLogSetPolicyTransition)
    (successor_stage : CellTaggedLogPolicyStageCertificate)
    (activation : CellLogSetPolicyActivationCertificate) : TL TaggedLogResponse :=
  let activated := TaPolicyActivated (lpt_transition_id t) (lsp_policy_epoch (lpt_next_policy t)) in
  let stage_sha256 := cell_tagged_log_policy_stage_certificate_sha256 sha256 successor_stage in
  let receipt :=
    {| dpa_transition := t; dpa_successor_stage_sha256 := stage_sha256;
       dpa_activation := activation |} in
  let! d := tl_get in
  match dk_activation d with
  | Some existing =>
      check! bool_decide (existing = receipt) else TeActivationConflict in tl_ret activated
  | None =>
      match dk_stage d with
      | None => tl_fail TeNotStaged
      | Some staged =>
          let faults := tlp_policy_transition_faults cfg in
          let local_member :=
            existsb (λ m, (lsm_node_id m =? tlp_node_id cfg)%N)
              (lsp_members (lpt_next_policy t)) in
          let stage_valid :=
            bool_decide (dps_transition staged = t)
            && bool_decide (dps_statement staged = psc_statement successor_stage)
            && verify_tagged_log_policy_stage_certificate sha256 successor_stage t in
          let authority_valid :=
            match tlp_policy_activation_authority cfg with
            | Some policy =>
                verify_cell_log_set_policy_activation_certificate activation
                  (ppp_members policy) (ppp_quorum_size policy)
            | None => false
            end in
          check! (local_member || accept_removed_member_activation faults)
                 && (stage_valid || accept_invalid_stage faults)
                 && activation_matches t stage_sha256 (pac_statement activation)
                 && (authority_valid || accept_missing_authority_activation faults)
            else TeActivation in
          let! _ := persist_policy_activation receipt (tio_receipt io) in
          tl_ret activated
      end
  end.

(** ** One request *)
Definition handle_request_inner cfg io (request : TaggedLogRequest) : TL TaggedLogResponse :=
  let! cx := tlog_context cfg io in
  match request with
  | TqStatus => tl_ret (tlog_status cx)
  | TqAppend record => tlog_append cfg io cx record
  | TqRead range_tag after_version through_version =>
      tlog_read cfg cx range_tag after_version through_version
  | TqAttest st => tlog_attest cfg cx st
  | TqFence st => tlog_fence cfg io cx st
  | TqPrefixFence st => tlog_prefix_fence cfg io cx st
  | TqCapacity st => tlog_capacity cfg cx st
  | TqPop st capability manifest_bytes => tlog_pop cfg io cx st capability manifest_bytes
  | TqRepairAttest st snapshot_bytes => tlog_repair_attest cfg cx st snapshot_bytes
  | TqRepairChunk transfer chunk_index chunk =>
      store_repair_chunk cfg io transfer chunk_index chunk
  | TqRepairFinalize transfer => finalize_repair_transfer cfg io cx transfer
  | TqRepairInstall certificate snapshot_bytes =>
      tlog_repair_install cfg io cx certificate snapshot_bytes
  | TqRepairReady certificate snapshot_bytes =>
      tlog_repair_ready cfg io cx certificate snapshot_bytes
  | TqPolicyStage t => tlog_policy_stage cfg io cx t
  | TqPolicyActivate t successor_stage activation =>
      tlog_policy_activate cfg io t successor_stage activation
  end.
End tlog.
