(* ===== verification/WalSingle.v ===== *)
(** * A write-ahead log of one replica

    [LocalReplicatedWal::open(root, 1, 1)], the topology of a tagged-log process:
    what recovery, an append and a rewrite do to the one file. *)

From S2P Require Import Prelude Order BTree Bytes Wal WalCodec WalRuns.

Section single.
Context (sha256 : bytes → bytes) (sha256_len : digest_len sha256).

(** The file holds [log], and after it what a failed append left. *)
Definition single_log (w : LocalReplicatedWal) (log : list bytes) (t : bytes) : Prop :=
  wal_quorum w = 1 ∧ log_ok log ∧ torn sha256 t ∧ wal_files w = [log_file sha256 log ++ t].

Lemma single_holds w log t :
  single_log w log t → holds sha256 log (wal_files w) [length log].
Proof.
  intros (_ & _ & Ht & ->). constructor; [|constructor].
  split; [done|]. exists t. split; [done|]. by rewrite take_ge.
Qed.

Lemma single_prefix n : quorum_prefix 1 [n] n.
Proof.
  intros i. unfold held. cbn [List.filter]. destruct (i <? n) eqn:Hi; cbn [length].
  - apply Nat.ltb_lt in Hi. split; intros; [lia|done].
  - apply Nat.ltb_ge in Hi. split; intros; lia.
Qed.

Lemma recover_torn w log t rec :
  single_log w log t → recover sha256 w = Ok rec →
  rc_torn_tail_replicas rec = if decide (t = []) then [] else [0].
Proof.
  intros (_ & Hok & Ht & Hf). unfold recover. rewrite Hf. cbn [imap res_collect fst snd].
  rewrite (scan_replica_log sha256 sha256_len) by done. cbn [res_bind].
  intros ([records ignored] & _ & [= <-])%res_bind_Ok. cbn.
  destruct (decide (t = [])) as [->|Hne]; [done|]. by rewrite bool_decide_false.
Qed.

Lemma recover_single w log t :
  single_log w log t → ∃ rec, recover sha256 w = Ok rec ∧ rr_payload <$> rc_records rec = log ∧
    last_index rec = len log ∧ rc_torn_tail_replicas rec = if decide (t = []) then [] else [0].
Proof.
  intros Hs. pose proof Hs as (Hq & Hok & Ht & _).
  destruct (recover_holds sha256 sha256_len log w [length log] (length log))
    as (rec & Hrec & [Hp _] & Hl & _); [done|by eapply single_holds|lia|by rewrite Hq; apply single_prefix|].
  exists rec. split_and!; [done| |done|by eapply recover_torn].
  by rewrite Hp, take_ge.
Qed.

(** An append to a complete file adds the record, or fails and leaves the file
    as it was, torn, or with the record in it. *)
Lemma append_single w log p io w' r :
  single_log w log [] → (len log + 1 < U64_MAX)%N →
  wal_append sha256 w (saturating_add (len log) 1) p [0] (λ _, io) = (w', r) →
  (w' = w ∧ ∃ e, r = Err e) ∨
  (single_log w' (log ++ [p]) [] ∧
     (r = Err WalIo ∨ ∃ o, r = Ok o ∧ ao_quorum_durable o = true ∧
        ao_frame_bytes o = len p + 50)%N) ∨
  (r = Err WalIo ∧ ∃ t, single_log w' log t).
Proof.
  intros (Hq & Hok & _ & Hf) Hlt. unfold saturating_add. rewrite N.min_l by lia.
  intros [(-> & e & -> & _)|(Hp & _ & files & ok & Hw & -> & ->)]%(wal_append_cases sha256 sha256_len);
    [left; eauto| |lia].
  rewrite app_nil_r in Hf. rewrite Hf in Hw. cbn in Hw.
  assert (log_ok (log ++ [p])) as Hok'.
  { destruct Hok as [Hall _]. split; [by apply Forall_app; split; [|constructor]|].
    rewrite length_app. cbn. unfold len in Hlt. lia. }
  assert (∀ e, e = wframe sha256 (len log + 1) p →
    single_log (with_files w [log_file sha256 log ++ e]) (log ++ [p]) []) as Hfull.
  { intros e ->. split_and!; [done|done|by left|]. cbn. by rewrite app_nil_r, log_file_snoc. }
  right. destruct io as [n|]; injection Hw as <- <-.
  - destruct (decide (length (wframe sha256 (len log + 1) p) ≤ n)) as [Hn|Hn].
    + left. split; [|by left]. apply Hfull. by apply take_ge.
    + right. split; [done|]. exists (take n (wframe sha256 (len log + 1) p)).
      split_and!; [done|done| |done]. right. exists (len log + 1)%N, p, n.
      split_and!; [split; unfold u64_wf; lia|done|lia|done].
  - left. split; [by apply Hfull|]. right. eexists. split; [done|]. cbn [ao_quorum_durable ao_frame_bytes]. rewrite Hq. split; [done|].
    unfold len. rewrite (length_wframe sha256 sha256_len). lia.
Qed.

(** A rewrite replaces the file, or leaves it. *)
Lemma rewrite_single w log t records io w' r :
  single_log w log t → (len records < U64_MAX)%N → wal_rewrite sha256 w records io = (w', r) →
  (w' = w ∧ r ≠ Ok tt) ∨ single_log w' records.*2 [].
Proof.
  intros (Hq & _ & _ & Hf) Hlt Hw.
  destruct (check_rewrite 0 records) as [[]|e|] eqn:Hc.
  2,3: unfold wal_rewrite in Hw; rewrite Hc in Hw; injection Hw as <- <-; by left.
  destruct (rewrite_spec sha256 w records) as [Hok Hspec]; [done..|].
  rewrite Hspec in Hw. unfold with_files, replica_count in Hw. rewrite Hf in Hw.
  assert (∀ f, f = log_file sha256 records.*2 → wal_quorum w = 1 →
    single_log {| wal_files := [f]; wal_quorum := wal_quorum w |} records.*2 []) as Hnew.
  { intros f -> ?. split_and!; [done|done|by left|]. cbn. by rewrite app_nil_r. }
  destruct io as [[|n]|]; injection Hw as <- <-.
  - left. split; [|done]. destruct w; cbn in *. by subst.
  - right. rewrite drop_ge by (cbn; lia). cbn [length]. rewrite Nat.min_r by lia. by apply Hnew.
  - right. by apply Hnew.
Qed.
End single.
