(* ===== verification/TLogDemo.v ===== *)
(** * Concrete log nodes

    Encodings that lose nothing, signatures that verify exactly when their key and
    message were signed, and two log sets of three nodes, from which the concrete runs
    of the tagged-log process are built. *)

From S2P Require Import Prelude Order BTree Bytes Quorum Envelope CellCert CellState CellDemo.
From S2P Require Import Publication LogCert TLog.

Module demo_tlog.
Import demo_cell.

#[export] Instance log_statement_countable : Countable CellTaggedLogStatement :=
  inj_countable'
    (λ s, (tls_format_version s, tls_cell_id s, tls_tenant_id s, tls_generation s,
       tls_transaction_identity s, (tls_commit_sequence s, tls_log_set_id s, tls_policy_epoch s,
       tls_envelope_sha256 s, tls_durable_position s)))
    (λ '(a, b, c, d, e, (f, g, h, i, j)), Build_CellTaggedLogStatement a b c d e f g h i j)
    ltac:(by intros []).
#[export] Instance fence_statement_countable : Countable CellTaggedLogFenceStatement :=
  inj_countable'
    (λ s, (tfs_format_version s, tfs_cell_id s, tfs_tenant_id s, tfs_generation s,
       tfs_recovery_id s, (tfs_transaction_identity s, tfs_commit_sequence s, tfs_log_set_id s,
       tfs_policy_epoch s, tfs_envelope_sha256 s)))
    (λ '(a, b, c, d, e, (f, g, h, i, j)), Build_CellTaggedLogFenceStatement a b c d e f g h i j)
    ltac:(by intros []).
#[export] Instance window_record_countable : Countable CellStagedWindowRecord :=
  inj_countable'
    (λ r, (swr_transaction_identity r, swr_commit_sequence r, swr_envelope_sha256 r))
    (λ '(a, b, c), Build_CellStagedWindowRecord a b c) ltac:(by intros []).
#[export] Instance window_countable : Countable CellStagedWindow :=
  inj_countable'
    (λ w, (csw_format_version w, csw_first_sequence w, csw_last_sequence w, csw_encoded_bytes w,
       csw_records w, csw_window_sha256 w))
    (λ '(a, b, c, d, e, f), Build_CellStagedWindow a b c d e f) ltac:(by intros []).
#[export] Instance prefix_statement_countable : Countable CellTaggedLogPrefixFenceStatement :=
  inj_countable'
    (λ s, (pfs_format_version s, pfs_cell_id s, pfs_tenant_id s, pfs_generation s,
       pfs_recovery_id s, pfs_log_set_id s, pfs_policy_epoch s, pfs_window s))
    (λ '(a, b, c, d, e, f, g, h), Build_CellTaggedLogPrefixFenceStatement a b c d e f g h)
    ltac:(by intros []).
#[export] Instance observation_eq_dec : EqDecision CellTaggedLogPrefixObservation.
Proof. eq_dec. Defined.
#[export] Instance observation_countable : Countable CellTaggedLogPrefixObservation :=
  inj_countable'
    (λ o, (pfo_transaction_identity o, pfo_commit_sequence o, pfo_envelope_sha256 o,
       pfo_record_present o))
    (λ '(a, b, c, d), Build_CellTaggedLogPrefixObservation a b c d) ltac:(by intros []).
#[export] Instance tlog_record_countable : Countable TaggedLogRecord :=
  inj_countable'
    (λ r, (tr_format_version r, tr_position r, tr_range_tags r, tr_envelope r, tr_padding r))
    (λ '(a, b, c, d, e), Build_TaggedLogRecord a b c d e) ltac:(by intros []).

(** One number that is the value. *)
Definition write `{Countable A} (a : A) : option bytes := Some [N.pos (encode a)].
Definition read `{Countable A} (b : bytes) : option A :=
  match b with [N.pos p] => decode p | _ => None end.
Lemma read_write `{Countable A} (a : A) b : write a = Some b → read b = Some a.
Proof. intros [= <-]. apply decode_encode. Qed.
Lemma write_inj `{Countable A} (a a' : A) b : write a = Some b → write a' = Some b → a = a'.
Proof. intros ?%read_write ?%read_write. congruence. Qed.

#[export] Instance demo_cell_json : CellJson :=
  {| json_ranges := λ _, Some []; json_mutations := λ _, Some [];
     json_transaction := λ t, Some [rid_request_id (ct_identity t)];
     json_partitions := λ _, Some []; json_decision := λ _, Some []; json_log := write;
     json_fence := write; json_prefix := write; json_window := λ w, Some [len w.2];
     json_capacity := λ _, Some []; json_repair := λ _, Some []; json_policy_stage := λ _, Some [];
     json_transition := λ _, Some []; json_repair_certificate := λ _, Some [];
     json_stage_certificate := λ _, Some [] |}.
#[export] Instance demo_log_json : LogJson :=
  {| json_pop := λ _, Some []; json_activation := λ _, Some [];
     json_pop_capability := λ _, Some []; json_policy := λ _, Some [];
     json_object_reference := λ _, Some [] |}.
(** A list of records fits in memory. *)
#[export] Instance demo_tlog_json : TLogJson :=
  {| json_tlog_record := write; tlog_record_from_slice := read;
     json_tlog_records := λ l, if (len l <? U64_MAX)%N then write l else None;
     tlog_records_from_slice := λ b,
       match read b with
       | Some l => if (len l <? U64_MAX)%N then Some l else None
       | None => None
       end;
     cell_snapshot_from_slice := λ _, None |}.

Lemma demo_record_codec (r : TaggedLogRecord) b : to_vec r = Some b → tlog_record_from_slice b = Some r.
Proof. apply read_write. Qed.
Lemma demo_records_codec (l : list TaggedLogRecord) b :
  to_vec l = Some b → tlog_records_from_slice b = Some l.
Proof.
  unfold to_vec. cbn [json_tlog_records demo_tlog_json tlog_records_from_slice].
  destruct (_ <? _)%N eqn:Hl; [|done]. intros ->%read_write. by rewrite Hl.
Qed.
Lemma demo_records_bounded b (l : list TaggedLogRecord) :
  tlog_records_from_slice b = Some l → (len l < U64_MAX)%N.
Proof.
  cbn [demo_tlog_json tlog_records_from_slice]. destruct (read b); [|done].
  destruct (_ <? _)%N eqn:Hl; [|done]. intros [= <-]. by apply N.ltb_lt.
Qed.

(** ** Two log sets of three nodes *)
Definition node_key (log_set n : N) : bytes := replicate 32 (log_set + n)%N.
Definition log_policy (log_set : N) : CellLogSetPolicy :=
  {| lsp_format_version := 1; lsp_generation := 1; lsp_policy_epoch := 1;
     lsp_log_set_id := log_set; lsp_quorum_size := 2; lsp_ratekeeper_soft_limit_bytes := 0;
     lsp_members := (λ n, {| lsm_node_id := n; lsm_public_key := node_key log_set n |})
                      <$> [1; 2; 3]%N |}.

Definition envelope (n sequence : N) : bytes :=
  ok_or [] (commit_envelope prefix_digest (txn n 0 [] key_a n) sequence sequence [10; 20]%N ZERO32).
Definition record (position : N) : TaggedLogRecord :=
  committed_record position [10; 20]%N (envelope position position).
Definition fence (log_set : N) : CellTaggedLogFenceStatement :=
  {| tfs_format_version := 1; tfs_cell_id := CELL; tfs_tenant_id := TENANT; tfs_generation := 1;
     tfs_recovery_id := 5; tfs_transaction_identity := ident 1; tfs_commit_sequence := 1;
     tfs_log_set_id := log_set; tfs_policy_epoch := 1;
     tfs_envelope_sha256 := prefix_digest (envelope 1 1) |}.
Definition fence_bytes (log_set : N) : bytes := default [] (fence_signing_bytes (fence log_set) false).

(** The key and the message are the signature. *)
#[export] Instance demo_verify : Ed25519 :=
  {| ed25519_public_key := λ seed, seed;
     ed25519_verify := λ key message signature, bool_decide (signature = key ++ message) |}.
#[export] Instance demo_sign : Ed25519Sign := λ seed message, seed ++ message.

Definition config (log_set n : N) : TaggedLogProcessConfig :=
  {| tlp_log_set_id := log_set; tlp_node_id := n; tlp_retained_bytes_limit := 1000;
     tlp_accept_missing_required_tags := false; tlp_policy_epoch := 1;
     tlp_signing_seed := Some (node_key log_set n); tlp_publication_pop_policy := None;
     tlp_accept_unauthenticated_pop := false; tlp_persist_fences := true;
     tlp_storage_incarnation := ZERO16; tlp_learner := false; tlp_repair_source_policy := None;
     tlp_repair_faults :=
       {| accept_invalid_certificate := false; accept_target_mismatch := false;
          accept_snapshot_identity_mismatch := false; accept_local_snapshot_mismatch := false |};
     tlp_policy_activation_authority := None;
     tlp_policy_transition_faults :=
       {| accept_invalid_stage := false; accept_missing_authority_activation := false;
          accept_removed_member_activation := false |} |}.

Definition fence_attestation (log_set n : N) : CellTaggedLogFenceAttestation :=
  {| tfa_signer_id := n; tfa_record_present := false;
     tfa_signature := node_key log_set n ++ fence_bytes log_set |}.

Definition torn_append (n : nat) : TLogIo := { tlog_io_ok with tio_append := Some n }.
End demo_tlog.
