(* ===== verification/TLogSteps.v ===== *)
(** * The disk steps of a tagged-log process

    Serving a request changes the disk in a few elementary ways, and a failure
    or a crash stops between two of them. Here are those steps, with the
    condition under which each happens, the proof that every request of
    [TLog.v] only takes such steps, and what a signed answer says of the log at
    the moment it is given. *)

From S2P Require Import Prelude Order BTree Bytes Version Quorum Envelope Persist Publication.
From S2P Require Import Wal WalCodec WalRuns WalSingle CellState LogCert TLog.

(** What names a record to a signer: its domain, its place and its envelope. *)
Record RecordKey := {
  rk_cell_id : bytes;
  rk_tenant_id : bytes;
  rk_generation : N;
  rk_commit_sequence : N;
  rk_identity : RequestIdentity;
  rk_envelope_sha256 : bytes;
}.
Definition statement_key (st : CellTaggedLogStatement) : RecordKey :=
  {| rk_cell_id := tls_cell_id st; rk_tenant_id := tls_tenant_id st;
     rk_generation := tls_generation st; rk_commit_sequence := tls_commit_sequence st;
     rk_identity := tls_transaction_identity st; rk_envelope_sha256 := tls_envelope_sha256 st |}.
Definition fence_key (st : CellTaggedLogFenceStatement) : RecordKey :=
  {| rk_cell_id := tfs_cell_id st; rk_tenant_id := tfs_tenant_id st;
     rk_generation := tfs_generation st; rk_commit_sequence := tfs_commit_sequence st;
     rk_identity := tfs_transaction_identity st; rk_envelope_sha256 := tfs_envelope_sha256 st |}.
Definition observed_key (st : CellTaggedLogPrefixFenceStatement)
    (o : CellTaggedLogPrefixObservation) : RecordKey :=
  {| rk_cell_id := pfs_cell_id st; rk_tenant_id := pfs_tenant_id st;
     rk_generation := pfs_generation st; rk_commit_sequence := pfo_commit_sequence o;
     rk_identity := pfo_transaction_identity o; rk_envelope_sha256 := pfo_envelope_sha256 o |}.

(** The process as it is deployed: the switches that plant faults are off. *)
Definition faultless (cfg : TaggedLogProcessConfig) : Prop :=
  tlp_persist_fences cfg = true ∧ tlp_accept_unauthenticated_pop cfg = false ∧
  accept_invalid_stage (tlp_policy_transition_faults cfg) = false.

Section steps.
Context (sha256 : bytes → bytes) (sha256_len : digest_len sha256).
Context `{Ed25519} `{Ed25519Sign} `{CellJson} `{LogJson} `{TLogJson}.
(** [serde_json] reads back the records it wrote, and a vector it returns is one
    that fits in memory. *)
Context (record_codec : ∀ r b, to_vec r = Some b → tlog_record_from_slice b = Some r).
Context (records_codec : ∀ l b, to_vec l = Some b → tlog_records_from_slice b = Some l).
Context (records_bounded : ∀ b l, tlog_records_from_slice b = Some l → (len l < U64_MAX)%N).
Context (cfg : TaggedLogProcessConfig) (cfg_faultless : faultless cfg).
Implicit Types (d : TLogDisk) (log : list bytes) (key : RecordKey).

(** ** Records of a log *)
Definition parses (p : bytes) (record : TaggedLogRecord) (envelope : CommitEnvelope) : Prop :=
  parse_record p = Ok record ∧ decode_envelope sha256 (tr_envelope record) = Ok envelope.

Definition record_matches key (record : TaggedLogRecord) (envelope : CommitEnvelope) : Prop :=
  envelope_identity envelope = Some (rk_identity key) ∧ env_cell_id envelope = rk_cell_id key ∧
  env_tenant_id envelope = rk_tenant_id key ∧ env_generation envelope = rk_generation key ∧
  sequence (env_version envelope) = rk_commit_sequence key ∧
  sha256 (tr_envelope record) = rk_envelope_sha256 key ∧
  tlp_log_set_id cfg ∈ tr_range_tags record.

Definition log_holds key log : Prop :=
  ∃ p record envelope, p ∈ log ∧ parses p record envelope ∧ record_matches key record envelope.

Lemma record_present_spec cell_id tenant_id generation commit_sequence identity' digest records b :
  record_present sha256 cfg cell_id tenant_id generation commit_sequence identity' digest records
    = Ok b →
  b = true ↔
  log_holds {| rk_cell_id := cell_id; rk_tenant_id := tenant_id; rk_generation := generation;
               rk_commit_sequence := commit_sequence; rk_identity := identity';
               rk_envelope_sha256 := digest |} (rr_payload <$> records).
Proof.
  set (key := Build_RecordKey _ _ _ _ _ _).
  induction records as [|rr records IH]; cbn [record_present].
  { intros [= <-]. split; [done|]. by intros (p & ? & ? & Hp%elem_of_nil & _). }
  intros (record & Hr & (envelope & He & Hb)%res_bind_Ok)%res_bind_Ok.
  rewrite fmap_cons.
  assert (∀ log, log_holds key (rr_payload rr :: log) ↔
    record_matches key record envelope ∨ log_holds key log) as ->.
  { intros log. split.
    - intros (p & r' & e' & [->|Hp]%elem_of_cons & [Hr' He'] & Hm); [left|right; by exists p, r', e'].
      congruence.
    - intros [Hm|(p & r' & e' & Hp & Hm)]; [exists (rr_payload rr), record, envelope|exists p, r', e'];
        (split; [by constructor|done]). }
  destruct (envelope_identity envelope) as [id|] eqn:Hid.
  2: { rewrite (IH Hb). split; [by right|]. intros [[Hm _]|?]; [congruence|done]. }
  destruct (_ && _) eqn:Hg in Hb.
  - injection Hb as <-. split; [|done]. intros _. left.
    rewrite !andb_true_iff, !bool_decide_eq_true, !N.eqb_eq in Hg.
    destruct Hg as ((((((? & ?) & ?) & ?) & ->) & ?) & ?). done.
  - rewrite (IH Hb). split; [by right|]. intros [(Hm & Hc & Ht & Hgen & Hs & Hd & Htag)|?]; [|done].
    apply not_true_iff_false in Hg as []. rewrite !andb_true_iff, !bool_decide_eq_true, !N.eqb_eq.
    rewrite Hm in Hid. injection Hid as ->. done.
Qed.

(** ** Steps *)
Definition learning d : bool := tlp_learner cfg && negb (is_some (dk_activation d)).

(** The elementary changes of the disk and of the log it holds, while the
    request [req] is served. *)
Inductive disk_step (req : TaggedLogRequest) : TLogDisk * list bytes → TLogDisk * list bytes → Prop :=
  | step_retention d log s :
      disk_step req (d, log) ({ d with dk_retention := Some s }, log)
  | step_fence d log generation f :
      (is_Some (of_final (fence_file d generation)) → is_Some (of_final f)) →
      disk_step req (d, log) ({ d with dk_fences := <[generation := f]> (dk_fences d) }, log)
  | step_prefix_fence d log generation f :
      (is_Some (of_final (prefix_fence_file d generation)) → is_Some (of_final f)) →
      disk_step req (d, log)
        ({ d with dk_prefix_fences := <[generation := f]> (dk_prefix_fences d) }, log)
  | step_append d log w p record envelope log' :
      learning d = false → parses p record envelope →
      generation_is_fenced d (env_generation envelope) = false →
      req = TqAppend record → log' = log ∨ log' = log ++ [p] →
      disk_step req (d, log) ({ d with dk_wal := w }, log')
  | step_pop d log w st capability manifest_bytes log' :
      learning d = false → req = TqPop st capability manifest_bytes →
      pop_authorized sha256 cfg st capability manifest_bytes = Ok tt →
      (∀ p, p ∈ log' → p ∈ log) →
      (∀ p record envelope, p ∈ log → parses p record envelope →
         p ∈ log' ∨ (sequence (env_version envelope) ≤ tps_object_frontier st)%N) →
      disk_step req (d, log) ({ d with dk_wal := w }, log')
  | step_install d log w log' :
      learning d = true → disk_step req (d, log) ({ d with dk_wal := w }, log')
  | step_install_receipt d log receipt :
      disk_step req (d, log) ({ d with dk_install := Some receipt }, log)
  | step_ready_receipt d log receipt :
      is_Some (dk_install d) →
      disk_step req (d, log) ({ d with dk_ready := Some receipt }, log)
  | step_stage d log receipt :
      (tlp_learner cfg = true → is_Some (dk_ready d)) →
      disk_step req (d, log) ({ d with dk_stage := Some receipt }, log)
  | step_activate d log receipt :
      is_Some (dk_stage d) →
      disk_step req (d, log) ({ d with dk_activation := Some receipt }, log)
  | step_transfer d log transfers :
      disk_step req (d, log) ({ d with dk_transfers := transfers }, log)
  | step_chunk d log chunks :
      disk_step req (d, log) ({ d with dk_chunks := chunks }, log).

(** A learner comes into service in order: it installs a base, becomes ready, is
    staged, is activated. *)
Record disk_inv d : Prop := {
  inv_ready : is_Some (dk_ready d) → is_Some (dk_install d);
  inv_stage : tlp_learner cfg = true → is_Some (dk_stage d) → is_Some (dk_ready d);
  inv_activation : is_Some (dk_activation d) → is_Some (dk_stage d);
}.

Lemma disk_step_inv req s s' : disk_step req s s' → disk_inv s.1 → disk_inv s'.1.
Proof. by destruct 1; intros []; split; cbn; eauto. Qed.
Lemma disk_steps_inv req s s' : rtc (disk_step req) s s' → disk_inv s.1 → disk_inv s'.1.
Proof. induction 1 as [|s s1 s' Hs _ IH]; [done|]. intros. by eapply IH, disk_step_inv. Qed.

(** A process that is in service stays in service. *)
Lemma disk_step_active req s s' : disk_step req s s' → learning s.1 = false → learning s'.1 = false.
Proof.
  destruct 1; cbn; try done. unfold learning. cbn. by rewrite andb_false_r.
Qed.

(** ** Computations that only take steps *)
Definition wal_of d log : Prop := ∃ t, single_log sha256 (dk_wal d) log t.

(** From a disk where [P], the computation takes disk steps, and where it
    returns a value, [Q] holds. *)
Definition tl_safe (req : TaggedLogRequest) {A} (P : TLogDisk → list bytes → Prop) (m : TL A)
    (Q : A → TLogDisk → list bytes → Prop) : Prop :=
  ∀ d log d' r, P d log → wal_of d log → disk_inv d → m d = (d', r) →
  ∃ log', rtc (disk_step req) (d, log) (d', log') ∧ wal_of d' log' ∧
    ∀ a, r = Ok a → Q a d' log'.

Section rules.
Context (req : TaggedLogRequest).

Lemma safe_bind {A B} P (m : TL A) R (k : A → TL B) Q :
  tl_safe req P m R → (∀ a, tl_safe req (R a) (k a) Q) → tl_safe req P (tl_bind m k) Q.
Proof.
  intros Hm Hk d log d' r HP Hw Hi. unfold tl_bind.
  destruct (m d) as [d1 r1] eqn:E. destruct (Hm d log d1 r1) as (log1 & Hs & Hw1 & HR); [done..|].
  destruct r1 as [a|e|]; intros E'.
  - destruct (Hk a d1 log1 d' r) as (log' & Hs' & ?); [by apply HR|done| |done|].
    { by apply (disk_steps_inv _ _ _ Hs). }
    exists log'. split; [by etrans|done].
  - injection E' as <- <-. by exists log1.
  - injection E' as <- <-. by exists log1.
Qed.

Lemma safe_bind_lift {A B} P (x : res TLogError A) (k : A → TL B) Q :
  (∀ a, x = Ok a → tl_safe req P (k a) Q) → tl_safe req P (tl_bind (tl_lift x) k) Q.
Proof.
  intros Hk d log d' r HP Hw Hi. unfold tl_bind, tl_lift.
  destruct x as [a|e|]; intros E; [by eapply Hk|injection E as <- <-; by exists log..].
Qed.

Lemma safe_bind_get {B} P (k : TLogDisk → TL B) Q :
  (∀ d0, tl_safe req (λ d log, d = d0 ∧ P d log) (k d0) Q) → tl_safe req P (tl_bind tl_get k) Q.
Proof. intros Hk d log d' r HP Hw Hi E. by eapply Hk. Qed.

Lemma safe_check {A} P (b : bool) e (k : TL A) Q :
  (b = true → tl_safe req P k Q) → tl_safe req P (if b then k else tl_fail e) Q.
Proof.
  intros Hk. destruct b; [by apply Hk|]. intros d log d' r _ Hw _ [= <- <-]. by exists log.
Qed.

Lemma safe_fail {A} P e Q : tl_safe (A:=A) req P (tl_fail e) Q.
Proof. intros d log d' r _ Hw _ [= <- <-]. by exists log. Qed.

Lemma safe_ret {A} (P : TLogDisk → list bytes → Prop) (a : A) (Q : A → TLogDisk → list bytes → Prop) :
  (∀ d log, P d log → Q a d log) → tl_safe req P (tl_ret a) Q.
Proof.
  intros HQ d log d' r HP Hw _ [= <- <-]. exists log. split_and!; [done|done|].
  intros a' [= <-]. by apply HQ.
Qed.

Lemma safe_pre {A} P P' (m : TL A) Q :
  tl_safe req P' m Q → (∀ d log, P d log → disk_inv d → P' d log) → tl_safe req P m Q.
Proof. intros Hm HP d log d' r ????. eapply Hm; eauto. Qed.

(** A change of the disk that leaves the log's file. *)
Lemma safe_step {A} d log d' (r : res TLogError A) (Q : A → TLogDisk → list bytes → Prop) :
  dk_wal d' = dk_wal d → wal_of d log → disk_step req (d, log) (d', log) ∨ d' = d →
  (∀ a, r = Ok a → Q a d' log) →
  ∃ log', rtc (disk_step req) (d, log) (d', log') ∧ wal_of d' log' ∧ ∀ a, r = Ok a → Q a d' log'.
Proof.
  intros Hw Hwal Hs HQ. exists log. split_and!; [|by unfold wal_of; rewrite Hw|done].
  destruct Hs as [Hs| ->]; [by apply rtc_once|done].
Qed.

Lemma safe_persist_retention P s io (Q : () → TLogDisk → list bytes → Prop) :
  (∀ d log, P d log → Q tt { d with dk_retention := Some s } log) →
  tl_safe req P (persist_retention s io) Q.
Proof.
  intros HQ d log d' r HP Hw _. unfold persist_retention.
  destruct io; intros [= <- <-]; apply safe_step; try done; [right; by destruct d|left; constructor..|].
  intros [] _. by apply HQ.
Qed.

Lemma create_once_spec `{EqDecision A} (value : A) io f f' r :
  create_once value io f = (f', r) →
  (is_Some (of_final f) → is_Some (of_final f')) ∧ (r = Ok tt → of_final f' = Some value).
Proof.
  unfold create_once. destruct (of_final f) as [v|] eqn:Hf.
  { intros [= <- <-]. rewrite Hf. split; [done|]. by case_decide; subst. }
  destruct (of_temporary f) as [[v|]|]; [case_decide| |]; destruct io; intros [= <- <-]; by rewrite ?Hf.
Qed.

Lemma safe_persist_fence P st io (Q : () → TLogDisk → list bytes → Prop) :
  (∀ d log f, P d log → of_final f = Some st →
     Q tt { d with dk_fences := <[tfs_generation st := f]> (dk_fences d) } log) →
  tl_safe req P (persist_fence st io) Q.
Proof.
  intros HQ d log d' r HP Hw _. unfold persist_fence.
  destruct (create_once _ _ _) as [f r'] eqn:Hc. apply create_once_spec in Hc as [Hk Hf].
  intros [= <- <-]. apply safe_step; try done; [left; by constructor|].
  intros [] ->. by apply HQ, Hf.
Qed.

Lemma safe_persist_prefix_fence P st io (Q : () → TLogDisk → list bytes → Prop) :
  (∀ d log f, P d log → of_final f = Some st →
     Q tt { d with dk_prefix_fences := <[pfs_generation st := f]> (dk_prefix_fences d) } log) →
  tl_safe req P (persist_prefix_fence st io) Q.
Proof.
  intros HQ d log d' r HP Hw _. unfold persist_prefix_fence.
  destruct (create_once _ _ _) as [f r'] eqn:Hc. apply create_once_spec in Hc as [Hk Hf].
  intros [= <- <-]. apply safe_step; try done; [left; by constructor|].
  intros [] ->. by apply HQ, Hf.
Qed.

Lemma safe_receipt P phase receipt io :
  (∀ d log, P d log → phase = RepairLearnerReady → is_Some (dk_install d)) →
  tl_safe req P (persist_repair_receipt phase receipt io) (λ _ _ _, True).
Proof.
  intros HP d log d' r Hd Hw _. unfold persist_repair_receipt. specialize (HP d log Hd).
  destruct phase, io; intros [= <- <-]; apply (safe_step _ _ _ _ (λ _ _ _, True)); try done;
    first [right; by destruct d|left; constructor; auto].
Qed.

Lemma safe_stage P receipt io :
  (∀ d log, P d log → tlp_learner cfg = true → is_Some (dk_ready d)) →
  tl_safe req P (persist_policy_stage receipt io) (λ _ _ _, True).
Proof.
  intros HP d log d' r Hd Hw _. unfold persist_policy_stage. specialize (HP d log Hd).
  destruct (dk_stage d) eqn:Hs; [|destruct io]; intros [= <- <-]; apply (safe_step _ _ _ _ (λ _ _ _, True)); try done;
    first [by right|right; destruct d; cbn in *; by subst|left; constructor; auto].
Qed.

Lemma safe_activation P receipt io :
  (∀ d log, P d log → is_Some (dk_stage d)) →
  tl_safe req P (persist_policy_activation receipt io) (λ _ _ _, True).
Proof.
  intros HP d log d' r Hd Hw _. unfold persist_policy_activation. specialize (HP d log Hd).
  destruct (dk_activation d) eqn:Hs; [|destruct io]; intros [= <- <-]; apply (safe_step _ _ _ _ (λ _ _ _, True)); try done;
    first [by right|right; destruct d; cbn in *; by subst|left; constructor; auto].
Qed.

Lemma safe_transfer P transfer io :
  tl_safe req P (persist_repair_transfer transfer io) (λ _ _ _, True).
Proof.
  intros d log d' r _ Hw _. unfold persist_repair_transfer.
  destruct (_ !! _); [|destruct io]; intros [= <- <-]; apply (safe_step _ _ _ _ (λ _ _ _, True)); try done;
    first [by right|left; constructor].
Qed.

Lemma safe_rewrite P payloads io (Q : () → TLogDisk → list bytes → Prop) :
  (∀ d log, P d log → wal_of d log → (len payloads < U64_MAX)%N) →
  (∀ d log w, P d log → disk_step req (d, log) ({ d with dk_wal := w }, payloads)) →
  (∀ d log w, P d log → Q tt { d with dk_wal := w } payloads) →
  tl_safe req P (rewrite_wal sha256 payloads io) Q.
Proof.
  intros Hlen Hs HQ d log d' r HP [t Ht] _. unfold rewrite_wal.
  destruct (wal_rewrite _ _ _ _) as [w r'] eqn:Hw. intros [= <- <-].
  specialize (Hlen d log HP (ex_intro _ t Ht)).
  assert ((number_records payloads).*2 = payloads) as Hn.
  { unfold number_records. rewrite fmap_imap, (imap_const id). apply list_fmap_id. }
  assert (len (number_records payloads) < U64_MAX)%N as Hlen'
    by (unfold len, number_records in *; by rewrite length_imap).
  destruct (rewrite_single sha256 _ _ _ _ _ _ _ Ht Hlen' Hw) as [[-> Hr]|Hw'].
  - exists log. split_and!; [destruct d; done|by exists t|]. destruct r'; [destruct a|..]; done.
  - rewrite Hn in Hw'. exists payloads. split_and!; [by apply rtc_once, Hs|by exists []|].
    intros [] _. by eapply HQ.
Qed.

(** The log is complete, and there is room for one more index. *)
Definition append_ready d log : Prop :=
  single_log sha256 (dk_wal d) log [] ∧ (len log + 1 < U64_MAX)%N.

Lemma safe_append P index payload record envelope io (Q : AppendOutcome → TLogDisk → list bytes → Prop) :
  req = TqAppend record → parses payload record envelope →
  (∀ d log, P d log → append_ready d log ∧ index = saturating_add (len log) 1 ∧
     learning d = false ∧ generation_is_fenced d (env_generation envelope) = false) →
  (∀ d log w o, P d log → ao_frame_bytes o = (len payload + 50)%N →
     Q o { d with dk_wal := w } (log ++ [payload])) →
  tl_safe req P (append_wal sha256 index payload io) Q.
Proof.
  intros Hreq Hp HP HQ d log d' r Hd _ _. unfold append_wal.
  destruct (HP d log Hd) as ([Hs Hlt] & -> & Hl & Hg).
  destruct (wal_append _ _ _ _ _ _) as [w r'] eqn:Hw. intros [= <- <-].
  destruct (append_single sha256 sha256_len _ _ _ _ _ _ Hs Hlt Hw)
    as [(-> & e & ->)|[(Hw' & Hr)|(-> & t & Hw')]].
  - exists log. split_and!; [destruct d; done|by exists []|done].
  - exists (log ++ [payload]). split_and!; [apply rtc_once; by eapply step_append; eauto|by exists []|].
    destruct Hr as [->|(o & -> & _ & Ho)]; [done|]. intros a [= <-]. by apply HQ.
  - exists log. split_and!; [apply rtc_once; by eapply step_append; eauto|by exists t|done].
Qed.
End rules.

(** ** Requests *)

(** Runs through the part of a handler that touches no file. *)
Ltac safe :=
  unfold sign_as, signing_seed;
  repeat (cbv zeta; match goal with
    | |- tl_safe _ _ (tl_lift (Err _)) _ => apply safe_fail
    | |- tl_safe _ _ (if _ then _ else tl_lift (Err _)) _ => apply safe_check; intros ?
    | |- tl_safe _ _ (tl_bind (tl_lift _) _) _ => apply safe_bind_lift; intros ? ?; try discriminate
    | |- tl_safe _ _ (tl_bind tl_get _) _ => apply safe_bind_get; intros ?
    | |- tl_safe _ _ (match ?x with _ => _ end) _ => destruct x eqn:?
    | |- tl_safe _ _ (tl_bind (match ?x with _ => _ end) _) _ =>
        lazymatch type of x with bool => fail | _ => destruct x eqn:? end
    | |- tl_safe _ _ (tl_lift (Ok _)) _ => apply safe_ret
    end).

(** What the context of a request says of the disk. *)
Definition ctx_ok (cx : TLogContext) d log : Prop :=
  rr_payload <$> cx_records cx = log ∧ cx_last_index cx = len log ∧ cx_learner cx = learning d.

(** What an answer says of the log. *)
Definition response_ok (req : TaggedLogRequest) (r : TaggedLogResponse) d log : Prop :=
  match r with
  | TaAppended _ digest _ retained_bytes =>
      ∃ record envelope p, req = TqAppend record ∧ parses p record envelope ∧ p ∈ log ∧
        to_vec record = Some p ∧ sha256 p = digest ∧ learning d = false ∧
        (retained_bytes ≤ tlp_retained_bytes_limit cfg)%N
  | TaAttested st _ => log_holds (statement_key st) log ∧ learning d = false
  | TaFenced st a _ =>
      generation_is_fenced d (tfs_generation st) = true ∧ learning d = false ∧
      (tfa_record_present a = false → ¬ log_holds (fence_key st) log)
  | TaPrefixFenced st a _ =>
      generation_is_fenced d (pfs_generation st) = true ∧ learning d = false ∧
      ∀ o, o ∈ pfa_observations a → pfo_record_present o = false →
        ¬ log_holds (observed_key st o) log
  | _ => True
  end.

Lemma fence_file_insert d g f :
  fence_file { d with dk_fences := <[g := f]> (dk_fences d) } g = f.
Proof. exact (f_equal (default OnceFile_empty) (lookup_insert_eq (dk_fences d) g f)). Qed.
Lemma prefix_fence_file_insert d g f :
  prefix_fence_file { d with dk_prefix_fences := <[g := f]> (dk_prefix_fences d) } g = f.
Proof. exact (f_equal (default OnceFile_empty) (lookup_insert_eq (dk_prefix_fences d) g f)). Qed.

Lemma sign_fence_present n seed st present a :
  map_err TeSign (sign_tagged_log_fence_statement n seed st present) = Ok a →
  tfa_record_present a = present.
Proof.
  unfold sign_tagged_log_fence_statement. destruct (sign_bytes _ _) as [s|e|]; [|done..].
  by intros [= <-].
Qed.
Lemma sign_prefix_observations n seed st observations a :
  map_err TeSign (sign_tagged_log_prefix_fence_statement n seed st observations) = Ok a →
  pfa_observations a = observations.
Proof.
  unfold sign_tagged_log_prefix_fence_statement. destruct (sign_bytes _ _) as [s|e|]; [|done..].
  by intros [= <-].
Qed.

Section handlers.
Context (req : TaggedLogRequest).
Implicit Types (io : TLogIo) (cx : TLogContext) (P : TLogDisk → list bytes → Prop).

Lemma safe_recover P :
  tl_safe req P (recover_wal sha256) (λ rec d log, P d log ∧
    rr_payload <$> rc_records rec = log ∧ last_index rec = len log).
Proof.
  intros d log d' r HP [t Ht] _. unfold recover_wal.
  destruct (recover_single sha256 sha256_len _ _ _ Ht) as (rec & -> & Hp & Hl & _).
  intros [= <- <-]. exists log. split_and!; [done|by exists t|]. by intros ? [= <-].
Qed.

Lemma safe_context P io :
  (∀ d log s, P d log → P { d with dk_retention := s } log) →
  tl_safe req P (tlog_context sha256 cfg io) (λ cx d log, ctx_ok cx d log ∧ P d log).
Proof.
  intros Hst. eapply safe_bind; [apply safe_recover|]. intros rec. cbv beta zeta.
  set (R d log := P d log ∧ rr_payload <$> rc_records rec = log ∧ last_index rec = len log).
  apply (safe_bind req _ _ (λ _, R)).
  - unfold load_or_recover_retention. safe;
      try (apply (safe_bind req _ _ (λ _, R)); [apply safe_persist_retention|intros []; safe]);
      unfold R; naive_solver.
  - intros retention. safe. intros d log (-> & HP & Hp & Hl). split; [|done]. done.
Qed.

Lemma encode_record_parses record envelope p :
  encode_tlog_record record = Ok p → decode_envelope sha256 (tr_envelope record) = Ok envelope →
  to_vec record = Some p ∧ parses p record envelope.
Proof.
  unfold encode_tlog_record, parses, parse_record. destruct (to_vec record) as [b|] eqn:Hv; [|done].
  intros [= <-] ?. by rewrite (record_codec _ _ Hv).
Qed.

Lemma safe_tlog_append cx io record :
  req = TqAppend record →
  tl_safe req (λ d log, ctx_ok cx d log ∧ append_ready d log) (tlog_append sha256 cfg io cx record)
    (response_ok req).
Proof.
  intros Hreq. unfold tlog_append. safe; [done|]. rename a into envelope, a0 into p.
  destruct (encode_record_parses record envelope p) as [Hvec Hp]; [done..|].
  set (R o d log := p ∈ log ∧ learning d = false ∧ ao_frame_bytes o = (len p + 50)%N).
  apply (safe_bind req _ _ R).
  - apply (safe_append req _ _ _ record envelope); [done|done| |].
    + intros d log (-> & (_ & -> & Hl) & Hr). split_and!; [done|done| |].
      * rewrite <-Hl. by apply negb_true_iff.
      * by apply negb_true_iff.
    + intros d log w o (-> & (_ & _ & Hl) & _) Ho. split_and!; [set_solver| |done].
      change (learning d0 = false). rewrite <-Hl. by apply negb_true_iff.
  - intros o. safe. apply (safe_bind req _ _ (λ _, R o)); [by apply safe_persist_retention|].
    intros []. safe. intros d log (Hin & Hl & Ho). exists record, envelope, p.
    split_and!; try done. rewrite Ho.
    match goal with Hlim : (_ <? _)%N = false |- _ => apply N.ltb_ge in Hlim;
      revert Hlim; unfold frame_size, saturating_add, FRAME_CHECKSUM_BYTES, FRAME_HEADER_BYTES; lia end.
Qed.

Lemma safe_tlog_attest cx st :
  tl_safe req (ctx_ok cx) (tlog_attest sha256 cfg cx st) (response_ok req).
Proof.
  unfold tlog_attest. safe. intros d log (<- & _ & Hl). split; [|rewrite <-Hl; by apply negb_true_iff].
  match goal with Hf : find_position _ _ = Some ?rr |- _ => apply find_some in Hf as [Hin%list_elem_of_In _];
    exists (rr_payload rr) end.
  eexists _, _. split_and!; [by apply list_elem_of_fmap_2|done|].
  repeat match goal with Hc : (_ && _) = true |- _ => apply andb_true_iff in Hc as [] end.
  rewrite ?bool_decide_eq_true, ?N.eqb_eq in *. unfold record_matches. cbn.
  split_and!; congruence.
Qed.

Lemma safe_tlog_fence cx io st :
  tl_safe req (ctx_ok cx) (tlog_fence sha256 cfg io cx st) (response_ok req).
Proof.
  destruct cfg_faultless as (Hpf & _). unfold tlog_fence. rewrite Hpf. safe.
  match goal with Hr : record_present _ _ _ _ _ _ _ _ _ = Ok ?b |- _ =>
    pose proof (record_present_spec _ _ _ _ _ _ _ _ Hr) as Hspec; eapply (safe_bind req _ _ (λ _ d log,
      ctx_ok cx d log ∧ generation_is_fenced d (tfs_generation st) = true)) end.
  - apply safe_persist_fence. intros d log f (-> & Hcx) Hf. split; [done|].
    unfold generation_is_fenced. by rewrite fence_file_insert, Hf.
  - intros []. safe. intros d log [(<- & _ & Hl) Hg]. split_and!; [done| |].
    + rewrite <-Hl. by apply negb_true_iff.
    + match goal with Hs : map_err _ _ = Ok _ |- _ => apply sign_fence_present in Hs as -> end.
      intros ->. intros Hh. by apply Hspec in Hh.
Qed.

Lemma safe_tlog_prefix_fence cx io st :
  tl_safe req (ctx_ok cx) (tlog_prefix_fence sha256 cfg io cx st) (response_ok req).
Proof.
  destruct cfg_faultless as (Hpf & _). unfold tlog_prefix_fence. rewrite Hpf. safe.
  match goal with Hr : observe_window _ _ _ _ = Ok ?b |- _ => rename Hr into Hobs end.
  eapply (safe_bind req _ _ (λ _ d log,
    ctx_ok cx d log ∧ generation_is_fenced d (pfs_generation st) = true)).
  - apply safe_persist_prefix_fence. intros d log f (-> & Hcx) Hf. split; [done|].
    unfold generation_is_fenced. rewrite prefix_fence_file_insert, Hf. apply orb_true_r.
  - intros []. safe. intros d log [(<- & _ & Hl) Hg]. split_and!; [done| |].
    + rewrite <-Hl. by apply negb_true_iff.
    + match goal with Hs : map_err _ _ = Ok _ |- _ => apply sign_prefix_observations in Hs as -> end.
      intros o Ho. apply res_collect_Ok in Hobs.
      apply list_elem_of_lookup in Ho as [i Hi].
      destruct (Forall2_lookup_r _ _ _ _ _ Hobs Hi) as (e & He & (present & Hp & [= <-])%res_bind_Ok).
      intros Hfalse. cbn in Hfalse. subst present. intros Hh.
      by apply (record_present_spec _ _ _ _ _ _ _ _ Hp) in Hh.
Qed.

Lemma payloads_above_spec records frontier l :
  payloads_above sha256 records frontier = Ok l →
  length l ≤ length records ∧
  (∀ p, p ∈ l → p ∈ rr_payload <$> records) ∧
  (∀ p record envelope, p ∈ rr_payload <$> records → parses p record envelope →
     p ∈ l ∨ (sequence (env_version envelope) ≤ frontier)%N).
Proof.
  unfold payloads_above. revert l. induction records as [|rr records IH] using rev_ind; cbn.
  { intros l [= <-]. split_and!; [done|set_solver|set_solver]. }
  intros l. rewrite res_fold_app. intros (l1 & Hl1 & Hl)%res_bind_Ok. cbn in Hl.
  apply res_bind_Ok in Hl as (l2 & (record & Hr & (envelope & He & [= <-])%res_bind_Ok)%res_bind_Ok & [= <-]).
  destruct (IH _ Hl1) as (Hlen & Hsub & Hall). rewrite fmap_app, length_app. split_and!.
  - case_match; rewrite ?length_app; cbn; lia.
  - intros p. case_match; set_solver.
  - intros p r e [Hp|Hp]%elem_of_app Hpe.
    + destruct (Hall p r e Hp Hpe); [left|by right]. case_match; set_solver.
    + apply list_elem_of_singleton in Hp as ->. destruct Hpe as [Hr' He'].
      assert (r = record) as -> by congruence. assert (e = envelope) as -> by congruence.
      destruct (_ <? _)%N eqn:Hlt; [left; set_solver|right]. by apply N.ltb_ge in Hlt.
Qed.

Lemma safe_tlog_pop cx io st capability manifest_bytes :
  req = TqPop st capability manifest_bytes →
  tl_safe req (ctx_ok cx) (tlog_pop sha256 cfg io cx st capability manifest_bytes) (response_ok req).
Proof.
  intros Hreq. destruct cfg_faultless as (_ & Hauth & _). unfold tlog_pop. safe.
  match goal with Hv : validate_pop_statement _ _ _ _ _ _ _ _ = Ok _ |- _ => rename Hv into Hval end.
  assert (pop_authorized sha256 cfg st capability manifest_bytes = Ok tt) as Hok.
  { unfold validate_pop_statement in Hval. rewrite Hauth in Hval. case_match; [|done].
    apply res_bind_Ok in Hval as ([] & ? & _). done. }
  eapply (safe_bind req _ _ (λ _ _ _, True)).
  - safe; [|done]. eapply (safe_bind req _ _ (λ _, ctx_ok cx)); [by apply safe_persist_retention|].
    intros []. safe.
    match goal with Hp : payloads_above _ _ _ = Ok _ |- _ =>
      apply payloads_above_spec in Hp as (Hlen & Hsub & Hall) end.
    eapply (safe_bind req _ _ (λ _ _ _, True)); [|intros []; by safe].
    apply safe_rewrite; [| |done].
    + intros d log (<- & _) (t & _ & [_ Hlt] & _). rewrite length_fmap in Hlt. unfold len. lia.
    + intros d log w (<- & _ & Hl). eapply step_pop; [|done..].
      rewrite <-Hl. by apply negb_true_iff.
  - intros retention. eapply safe_bind; [apply safe_recover|]. intros rec. by safe.
Qed.

(** A learner without the receipt of the phase is still learning. *)
Lemma learner_without_receipt d phase :
  tlp_learner cfg = true → disk_inv d → repair_receipt phase d = None → learning d = true.
Proof.
  intros Hl [Hr Hs Ha]. unfold learning. rewrite Hl. cbn.
  destruct (dk_activation d) eqn:E; [|done].
  destruct (Hs Hl (Ha ltac:(by eexists))) as [r Hready], phase; cbn; [|by rewrite Hready].
  destruct (Hr ltac:(by eexists)) as [? ->]. done.
Qed.

Lemma safe_install_records io st certificate l epoch :
  (len l < U64_MAX)%N →
  tl_safe req (λ d log, learning d = true ∧ (trs_phase st = RepairLearnerReady → is_Some (dk_install d)))
    (install_records sha256 io st certificate l epoch) (λ _ _ _, True).
Proof.
  intros Hlt. unfold install_records.
  set (R d (_ : list bytes) := trs_phase st = RepairLearnerReady → is_Some (dk_install d)).
  safe. match goal with Hc : res_collect _ _ = Ok _ |- _ =>
    apply res_collect_Ok, Forall2_length in Hc as Hlen end.
  eapply (safe_bind req _ _ (λ _, R)).
  { apply safe_rewrite.
    - intros. unfold len in *. lia.
    - intros d log w [Hl _]. by apply step_install.
    - intros d log w [_ Hi]. exact Hi. }
  intros []. eapply (safe_bind req _ _ (λ _, R)); [by apply safe_persist_retention|].
  intros []. eapply safe_bind; [by apply safe_receipt|]. intros []. by safe.
Qed.

Lemma repair_target_learner certificate u :
  validate_repair_target cfg certificate = Ok u → tlp_learner cfg = true.
Proof.
  unfold validate_repair_target. destruct (tlp_repair_source_policy cfg); [|done].
  destruct (tlp_signing_seed cfg); [|done]. intros (key & _ & Hg)%res_bind_Ok.
  destruct (tlp_learner cfg); [done|]. by cbn in Hg.
Qed.

Lemma repair_snapshot_records st b records retention m l :
  validate_repair_snapshot sha256 cfg st b records retention m = Ok l →
  tlog_records_from_slice b = Some l.
Proof.
  unfold validate_repair_snapshot. case_match; [|done].
  destruct (tlog_records_from_slice b) as [l'|]; [|done]. case_match; [|done].
  intros (u & _ & Hl)%res_bind_Ok. destruct (_ && _) in Hl; [|by injection Hl as ->].
  destruct (_ && _) in Hl; [|done]. apply res_bind_Ok in Hl as (local & _ & Hl).
  destruct (bool_decide _) in Hl; [|done]. by injection Hl as ->.
Qed.

Lemma finalize_response_ok st n d log : response_ok req (repair_finalize_response st n) d log.
Proof. unfold repair_finalize_response. by case_match. Qed.

Lemma safe_tlog_repair_install cx io certificate snapshot_bytes :
  tl_safe req (ctx_ok cx) (tlog_repair_install sha256 cfg io cx certificate snapshot_bytes) (response_ok req).
Proof.
  unfold tlog_repair_install. safe.
  { intros. apply finalize_response_ok. }
  eapply safe_bind; [|intros n; safe; intros; apply finalize_response_ok].
  eapply safe_pre; [apply safe_install_records; eapply records_bounded, repair_snapshot_records; eauto|].
  intros ? ? (-> & _) Hi. split.
  - eapply (learner_without_receipt _ BaseSnapshot); [by eapply repair_target_learner|done|done].
  - match goal with Hp : bool_decide (trs_phase _ = _) = true |- _ =>
      apply bool_decide_eq_true in Hp as -> end. done.
Qed.

Lemma safe_tlog_repair_ready cx io certificate snapshot_bytes :
  tl_safe req (ctx_ok cx) (tlog_repair_ready sha256 cfg io cx certificate snapshot_bytes) (response_ok req).
Proof.
  unfold tlog_repair_ready. safe.
  - eapply (safe_bind req _ _ (λ _ _ _, True)); [by safe|intros []; safe].
    intros; apply finalize_response_ok.
  - eapply safe_bind; [|intros []; safe; intros; apply finalize_response_ok].
    apply safe_receipt. intros ? ? (-> & _) _. by eexists.
Qed.

Lemma safe_store_repair_chunk io transfer index chunk :
  tl_safe req (λ _ _, True) (store_repair_chunk cfg io transfer index chunk) (response_ok req).
Proof.
  unfold store_repair_chunk. safe. eapply safe_bind; [apply safe_transfer|]. intros [].
  eapply (safe_bind req _ _ (λ _ _ _, True)); [|intros []; by safe].
  intros d log d' r _ Hw _. destruct (store_chunk _ _ _) as [f r']. intros [= <- <-].
  apply (safe_step req _ _ _ _ (λ _ _ _, True)); try done. left. constructor.
Qed.

Lemma combine_ready_installed d records retention transfer payload_records l :
  combine_repair_records sha256 d records retention transfer payload_records = Ok l →
  trs_phase (trc_statement (rtx_certificate transfer)) = RepairLearnerReady → is_Some (dk_install d).
Proof. unfold combine_repair_records. intros Hc Hp. rewrite Hp in Hc. by destruct (dk_install d). Qed.

Lemma safe_finalize_repair_transfer cx io transfer :
  tl_safe req (ctx_ok cx) (finalize_repair_transfer sha256 cfg io cx transfer) (response_ok req).
Proof.
  unfold finalize_repair_transfer. safe; [intros; apply finalize_response_ok|].
  eapply safe_bind; [|intros n; safe; intros; apply finalize_response_ok].
  eapply safe_pre; [apply safe_install_records|].
  - match goal with Hb : encode_tagged_log_repair_snapshot ?l = Ok ?b |- _ =>
      apply (records_bounded b), records_codec; unfold encode_tagged_log_repair_snapshot in Hb;
      destruct (to_vec l); [congruence|done] end.
  - intros ? ? (-> & _) Hi. split; [|by eapply combine_ready_installed].
    eapply learner_without_receipt; [|done|done].
    match goal with Hv : validate_repair_transfer _ _ = Ok _ |- _ =>
      unfold validate_repair_transfer in Hv; apply res_bind_Ok in Hv as (? & Hv & _) end.
    by eapply repair_target_learner.
Qed.

Lemma stage_valid_ready d retention public_key root t :
  stage_valid sha256 cfg d retention public_key root t = true → tlp_learner cfg = true → is_Some (dk_ready d).
Proof.
  unfold stage_valid. intros Hs Hl. rewrite Hl in Hs. apply andb_true_iff in Hs as [_ Hs].
  by destruct (dk_ready d).
Qed.

Lemma safe_tlog_policy_stage cx io t :
  tl_safe req (ctx_ok cx) (tlog_policy_stage sha256 cfg io cx t) (response_ok req).
Proof.
  destruct cfg_faultless as (_ & _ & Hf). unfold tlog_policy_stage. rewrite Hf. safe.
  eapply safe_bind; [apply safe_stage|intros []; by safe].
  intros d log (-> & _). eapply stage_valid_ready. by rewrite orb_false_r in *.
Qed.

Lemma safe_tlog_policy_activate io t stage activation :
  tl_safe req (λ _ _, True) (tlog_policy_activate sha256 cfg io t stage activation) (response_ok req).
Proof.
  unfold tlog_policy_activate. safe; [done|].
  eapply safe_bind; [apply safe_activation|intros []; by safe].
  intros ? ? (-> & _). by eexists.
Qed.

(** Whatever the request and however its disk operations go, the process takes
    disk steps only, and its answer is true of the log it leaves. An append is
    served from a log that has no torn tail. *)
Lemma safe_handle_request io :
  tl_safe req (λ d log, (∃ record, req = TqAppend record) → append_ready d log)
    (handle_request_inner sha256 cfg io req) (response_ok req).
Proof.
  unfold handle_request_inner. eapply safe_bind; [by apply safe_context|]. intros cx.
  assert (∀ m : TL TaggedLogResponse, tl_safe req (ctx_ok cx) m (response_ok req) →
    tl_safe req (λ d log, ctx_ok cx d log ∧ ((∃ record, req = TqAppend record) → append_ready d log))
      m (response_ok req)) as Hweak by (intros m Hm; eapply safe_pre; [done|naive_solver]).
  assert (∀ m : TL TaggedLogResponse, tl_safe req (λ _ _, True) m (response_ok req) →
    tl_safe req (ctx_ok cx) m (response_ok req)) as Hweak' by (intros m Hm; by eapply safe_pre).
  destruct req eqn:Hreq; rewrite <-Hreq in *.
  { eapply safe_pre; [by apply safe_tlog_append|]. naive_solver. }
  all: apply Hweak; auto using safe_tlog_attest, safe_tlog_fence, safe_tlog_prefix_fence,
    safe_tlog_pop, safe_tlog_repair_install, safe_tlog_repair_ready, safe_store_repair_chunk,
    safe_finalize_repair_transfer, safe_tlog_policy_stage, safe_tlog_policy_activate.
  all: unfold tlog_read, tlog_capacity, tlog_repair_attest; by safe.
Qed.
End handlers.
End steps.
