(* ===== verification/TLogRuns.v ===== *)
(** * Runs of a tagged-log process

    A process serves requests from an empty disk on, with any failure of its
    disk operations; between two requests it may be restarted, since it keeps
    nothing in memory. As long as no append finds a torn tail, what it has signed
    stays true: an appended or attested
    record is kept until an authorized pop passes it, a record whose absence was
    attested never enters the log, and so the same process does not attest a
    record and its absence. *)

From S2P Require Import Prelude Order BTree Bytes Version Quorum Envelope Persist Publication.
From S2P Require Import Wal WalCodec WalRuns WalSingle CellState CellDemo LogCert TLog TLogDemo TLogSteps.

Section runs.
Context (sha256 : bytes → bytes).
Context `{Ed25519} `{Ed25519Sign} `{CellJson} `{LogJson} `{TLogJson}.
Implicit Types (d : TLogDisk) (log : list bytes) (key : RecordKey).

(** What a process served, and what it answered. *)
Definition tlog_trace : Type := list (TaggedLogRequest * res TLogError TaggedLogResponse).

(** An append that finds the log with a torn tail, or with no index left. *)
Definition behind_torn_tail (req : TaggedLogRequest) d : bool :=
  match req with
  | TqAppend _ =>
      match recover sha256 (dk_wal d) with
      | Ok rec => bool_decide (rc_torn_tail_replicas rec ≠ [])
                  || (U64_MAX <=? len (rc_records rec) + 1)%N
      | _ => true
      end
  | _ => false
  end.

(** A process serves any request, whatever its disk does; [behind] records that an
    append found a torn tail. *)
Inductive tlog_run (cfg : TaggedLogProcessConfig) : bool → tlog_trace → TLogDisk → Prop :=
  | run_new : tlog_run cfg false [] TLogDisk_empty
  | run_serve behind trace d req io d' r :
      tlog_run cfg behind trace d → handle_request_inner sha256 cfg io req d = (d', r) →
      tlog_run cfg (behind || behind_torn_tail req d) (trace ++ [(req, r)]) d'.

Definition answered (trace : tlog_trace) (r : TaggedLogResponse) : Prop :=
  ∃ req, (req, Ok r) ∈ trace.

(** A pop the publication authority permitted, at or above a sequence. *)
Definition popped cfg (trace : tlog_trace) (commit_sequence : N) : Prop :=
  ∃ st capability manifest_bytes, TqPop st capability manifest_bytes ∈ trace.*1 ∧
    pop_authorized sha256 cfg st capability manifest_bytes = Ok tt ∧
    (commit_sequence ≤ tps_object_frontier st)%N.

Lemma popped_app cfg trace trace' n : popped cfg trace n → popped cfg (trace ++ trace') n.
Proof.
  intros (st & c & m & Hin & Hp). exists st, c, m. split; [|done]. rewrite fmap_app. set_solver.
Qed.

(** One request after the other, with the disk's behaviour for each. *)
Fixpoint serve cfg d (requests : list (TaggedLogRequest * TLogIo)) : tlog_trace * TLogDisk :=
  match requests with
  | [] => ([], d)
  | (req, io) :: requests =>
      let '(d, r) := handle_request_inner sha256 cfg io req d in
      let '(trace, d) := serve cfg d requests in ((req, r) :: trace, d)
  end.

(** An append among them found a torn tail. *)
Fixpoint serve_behind cfg d (requests : list (TaggedLogRequest * TLogIo)) : bool :=
  match requests with
  | [] => false
  | (req, io) :: requests =>
      behind_torn_tail req d || serve_behind cfg (handle_request_inner sha256 cfg io req d).1 requests
  end.

Lemma serve_run cfg behind trace d requests :
  tlog_run cfg behind trace d →
  tlog_run cfg (behind || serve_behind cfg d requests)
    (trace ++ (serve cfg d requests).1) (serve cfg d requests).2.
Proof.
  revert behind trace d. induction requests as [|[req io] requests IH]; intros behind trace d Hrun; cbn.
  { by rewrite app_nil_r, orb_false_r. }
  destruct (handle_request_inner _ _ _ _ _) as [d1 r] eqn:Hh.
  destruct (serve cfg d1 requests) as [trace' d'] eqn:Hs. cbn.
  specialize (IH _ _ _ (run_serve _ _ _ _ _ _ _ _ Hrun Hh)).
  by rewrite Hs, <-app_assoc, <-orb_assoc in IH.
Qed.

Lemma serve_run_new cfg requests :
  tlog_run cfg (serve_behind cfg TLogDisk_empty requests)
    (serve cfg TLogDisk_empty requests).1 (serve cfg TLogDisk_empty requests).2.
Proof. apply (serve_run cfg false []). constructor. Qed.

Section process.
Context (cfg : TaggedLogProcessConfig).
Implicit Types (trace : tlog_trace).

(** A record that is kept unless popped; a record that cannot enter the log. *)
Definition kept trace (p : bytes) log : Prop :=
  p ∈ log ∨ ∃ record envelope, parses sha256 p record envelope ∧
    popped cfg trace (sequence (env_version envelope)).
Definition excluded key d log : Prop :=
  generation_is_fenced d (rk_generation key) = true ∧ ¬ log_holds sha256 cfg key log.

Lemma step_kept trace req s s' p record envelope :
  disk_step sha256 cfg req s s' → learning cfg s.1 = false → req ∈ trace.*1 →
  parses sha256 p record envelope → kept trace p s.2 → kept trace p s'.2.
Proof.
  intros Hs Hl Hreq Hp [Hin|?]; [|by right].
  destruct Hs as [| | |d log w q r e log' _ _ _ _ Hlog
                 |d log w st c m log' _ -> Hok Hsub Hall|d log w log' Hlearn| | | | | |];
    cbn in *; try by left.
  - left. destruct Hlog; set_solver.
  - destruct (Hall p record envelope Hin Hp) as [|Hle]; [by left|right].
    exists record, envelope. split; [done|]. by exists st, c, m.
  - congruence.
Qed.

Lemma fenced_insert d g g' f :
  (is_Some (of_final (fence_file d g)) → is_Some (of_final f)) →
  generation_is_fenced d g' = true →
  generation_is_fenced { d with dk_fences := <[g := f]> (dk_fences d) } g' = true.
Proof.
  intros Hf. unfold generation_is_fenced. rewrite !orb_true_iff. intros [Hg|]; [left|by right].
  destruct (decide (g = g')) as [->|Hne].
  - rewrite fence_file_insert. destruct (of_final (fence_file d g')); [|done].
    by destruct Hf as [? ->].
  - unfold fence_file in *. assert ((dk_fences { d with dk_fences := <[g := f]> (dk_fences d) })
      !! g' = dk_fences d !! g') as -> by (by apply lookup_insert_ne). done.
Qed.
Lemma prefix_fenced_insert d g g' f :
  (is_Some (of_final (prefix_fence_file d g)) → is_Some (of_final f)) →
  generation_is_fenced d g' = true →
  generation_is_fenced { d with dk_prefix_fences := <[g := f]> (dk_prefix_fences d) } g' = true.
Proof.
  intros Hf. unfold generation_is_fenced. rewrite !orb_true_iff. intros [|Hg]; [by left|right].
  destruct (decide (g = g')) as [->|Hne].
  - rewrite prefix_fence_file_insert. destruct (of_final (prefix_fence_file d g')); [|done].
    by destruct Hf as [? ->].
  - unfold prefix_fence_file in *.
    assert ((dk_prefix_fences { d with dk_prefix_fences := <[g := f]> (dk_prefix_fences d) })
      !! g' = dk_prefix_fences d !! g') as -> by (by apply lookup_insert_ne). done.
Qed.

Lemma step_excluded req s s' key :
  disk_step sha256 cfg req s s' → learning cfg s.1 = false →
  excluded key s.1 s.2 → excluded key s'.1 s'.2.
Proof.
  intros Hs Hl [Hf Hn].
  destruct Hs as [|d log g f Hfile|d log g f Hfile|d log w q r e log' _ Hpe Hg _ Hlog
                 |d log w st c m log' _ _ _ Hsub _|d log w log' Hlearn| | | | | |];
    cbn [fst snd] in *; try done.
  - split; [by apply fenced_insert|done].
  - split; [by apply prefix_fenced_insert|done].
  - split; [done|]. destruct Hlog as [->| ->]; [done|].
    intros (q' & r' & e' & [Hq|Hq]%elem_of_app & Hpe' & Hm); [by apply Hn; exists q', r', e'|].
    apply list_elem_of_singleton in Hq as ->. destruct Hpe as [Hp1 Hp2], Hpe' as [Hr He].
    assert (r' = r) as -> by congruence. assert (e' = e) as -> by congruence.
    destruct Hm as (_ & _ & _ & Hgen & _). congruence.
  - split; [done|]. intros (q & r & e & Hq & Hm). apply Hn. exists q, r, e. split; [by auto|done].
  - congruence.
Qed.

(** What an answer says, from then on. *)
Definition promise trace (req : TaggedLogRequest) (r : TaggedLogResponse) d log : Prop :=
  match r with
  | TaAppended _ digest _ retained_bytes =>
      ∃ record envelope p, req = TqAppend record ∧ parses sha256 p record envelope ∧
        to_vec record = Some p ∧ sha256 p = digest ∧ kept trace p log ∧ learning cfg d = false ∧
        (retained_bytes ≤ tlp_retained_bytes_limit cfg)%N
  | TaAttested st _ =>
      ∃ p record envelope, parses sha256 p record envelope ∧
        record_matches sha256 cfg (statement_key st) record envelope ∧
        kept trace p log ∧ learning cfg d = false
  | TaFenced st a _ =>
      learning cfg d = false ∧ (tfa_record_present a = false → excluded (fence_key st) d log)
  | TaPrefixFenced st a _ =>
      learning cfg d = false ∧
      ∀ o, o ∈ pfa_observations a → pfo_record_present o = false →
        excluded (observed_key st o) d log
  | _ => True
  end.

Lemma response_promise trace req r d log :
  response_ok sha256 cfg req r d log → promise trace req r d log.
Proof.
  destruct r; cbn; try done.
  - intros (record & envelope & p & ? & ? & ? & ? & ? & ? & ?). exists record, envelope, p.
    split_and!; try done. by left.
  - intros [(p & record & envelope & ? & ? & ?) ?]. exists p, record, envelope.
    split_and!; try done. by left.
  - intros (? & ? & ?). split; [done|]. intros ?. split; auto.
  - intros (? & ? & ?). split; [done|]. intros o ? ?. split; auto.
Qed.

Lemma kept_app trace trace' p log : kept trace p log → kept (trace ++ trace') p log.
Proof.
  intros [|(r & e & ? & ?)]; [by left|right]. exists r, e. split; [done|by apply popped_app].
Qed.

Lemma step_promise trace req0 req r s s' :
  disk_step sha256 cfg req s s' → req ∈ trace.*1 →
  promise trace req0 r s.1 s.2 → promise trace req0 r s'.1 s'.2.
Proof.
  intros Hs Hreq. pose proof (disk_step_active _ _ _ _ _ Hs) as Hact. destruct r; cbn; try done.
  - intros (record & envelope & p & ? & ? & ? & ? & ? & ? & ?). exists record, envelope, p.
    split_and!; auto. by eapply step_kept.
  - intros (p & record & envelope & ? & ? & ? & ?). exists p, record, envelope.
    split_and!; auto. by eapply step_kept.
  - intros [? Hx]. split; [by auto|]. intros. eapply step_excluded; eauto.
  - intros [? Hx]. split; [by auto|]. intros. eapply step_excluded; eauto.
Qed.

Lemma steps_promise trace req0 req r s s' :
  rtc (disk_step sha256 cfg req) s s' → req ∈ trace.*1 →
  promise trace req0 r s.1 s.2 → promise trace req0 r s'.1 s'.2.
Proof. induction 1 as [|s s1 s' Hs _ IH]; [done|]. intros. apply IH; [done|]. by eapply step_promise. Qed.

Lemma promise_app trace trace' req r d log :
  promise trace req r d log → promise (trace ++ trace') req r d log.
Proof.
  destruct r; cbn; try done.
  - intros (record & envelope & p & ? & ? & ? & ? & ? & ? & ?). exists record, envelope, p.
    split_and!; auto using kept_app.
  - intros (p & record & envelope & ? & ? & ? & ?). exists p, record, envelope.
    split_and!; auto using kept_app.
Qed.
End process.

Section facts.
Context (sha256_len : digest_len sha256).
Context (record_codec : ∀ r b, to_vec r = Some b → tlog_record_from_slice b = Some r).
Context (records_codec : ∀ l b, to_vec l = Some b → tlog_records_from_slice b = Some l).
Context (records_bounded : ∀ b l, tlog_records_from_slice b = Some l → (len l < U64_MAX)%N).
Context (cfg : TaggedLogProcessConfig) (cfg_faultless : faultless cfg).

Lemma append_is_ready req d log :
  behind_torn_tail req d = false → wal_of sha256 d log → (∃ record, req = TqAppend record) →
  append_ready sha256 d log.
Proof.
  intros Hb [t Ht] [record ->]. cbn in Hb.
  destruct (recover_single sha256 sha256_len _ _ _ Ht) as (rec & Hrec & Hp & _ & Htorn).
  rewrite Hrec, Htorn in Hb. apply orb_false_iff in Hb as [Hnil Hlt%N.leb_gt].
  apply bool_decide_eq_false, dec_stable in Hnil. case_decide; [subst|done]. split; [done|].
  unfold len in *. by rewrite length_fmap.
Qed.

(** Every promise made in a run still stands at its end. *)
Lemma run_promises behind trace d :
  tlog_run cfg behind trace d → behind = false → ∃ log, wal_of sha256 d log ∧ disk_inv cfg d ∧
    ∀ req r, (req, Ok r) ∈ trace → promise cfg trace req r d log.
Proof.
  induction 1 as [|behind trace d req io d' r _ IH Hh]; intros Hb.
  - exists []. split_and!; [|by split; cbn; intros; eauto|by intros ?? []%elem_of_nil].
    exists []. by split_and!; [|split; [constructor|]|left|].
  - apply orb_false_iff in Hb as [(log & Hw & Hi & Hall)%IH Hb]. clear IH.
    pose proof (append_is_ready _ _ _ Hb Hw) as Hready.
    eapply (safe_handle_request sha256 sha256_len record_codec records_codec records_bounded cfg
      cfg_faultless req) in Hh as (log' & Hs & Hw' & Hr); [|done..].
    exists log'. split_and!; [done|by eapply (disk_steps_inv _ _ _ _ _ Hs)|].
    intros req0 r0 [Hin|Hin]%elem_of_app.
    + eapply (steps_promise _ _ _ _ _ (d, log) (d', log')); [done| |].
      * rewrite fmap_app. set_solver.
      * by apply promise_app, Hall.
    + apply list_elem_of_singleton in Hin as [= <- <-]. by apply response_promise, Hr.
Qed.

(** The answers that attest a record's absence. *)
Definition attests_absence (r : TaggedLogResponse) (key : RecordKey) : Prop :=
  match r with
  | TaFenced st a _ => tfa_record_present a = false ∧ fence_key st = key
  | TaPrefixFenced st a _ =>
      ∃ o, o ∈ pfa_observations a ∧ pfo_record_present o = false ∧ observed_key st o = key
  | _ => False
  end.

(** A process does not attest a record and its absence, in whatever order,
    unless the record was popped. *)
Lemma attested_or_absent trace d st a r :
  tlog_run cfg false trace d → answered trace (TaAttested st a) → answered trace r →
  attests_absence r (statement_key st) → popped cfg trace (tls_commit_sequence st).
Proof.
  intros (log & _ & _ & Hall)%run_promises; [|done]. intros [req1 Hatt%Hall] [req2 Habs%Hall] Hr.
  destruct Hatt as (p & record & envelope & Hp & Hm & [Hin|(record' & envelope' & Hp' & Hpop)] & _).
  - assert (excluded cfg (statement_key st) d log) as [_ []].
    { destruct r; cbn in Hr, Habs; try done.
      - destruct Hr as [? <-]. by apply Habs.
      - destruct Hr as (o & ? & ? & <-). by apply Habs. }
    by exists p, record, envelope.
  - destruct Hp as [Hp1 Hp2], Hp' as [Hp1' Hp2'].
    assert (record' = record) as -> by congruence. assert (envelope' = envelope) as -> by congruence.
    destruct Hm as (_ & _ & _ & _ & Hseq & _). cbn in Hseq. by rewrite <-Hseq.
Qed.

(** C26. A process without injected faults serves any requests from an empty disk on, each with any failure
    of its disk operations. As long as no append is requested while the log has a
    torn tail (or its indexes are used up), an acknowledged append is recovered at
    the end, unless a pop the publication authority permitted has passed it; and it
    kept within the limit of retained bytes. Behind a torn tail an append is
    acknowledged and lost ([append_after_torn_tail_lost]). *)
Theorem acknowledged_append_kept trace d record position digest frame_bytes retained_bytes :
  tlog_run cfg false trace d →
  (TqAppend record, Ok (TaAppended position digest frame_bytes retained_bytes)) ∈ trace →
  ∃ p envelope rec, to_vec record = Some p ∧ digest = sha256 p ∧
    decode_envelope sha256 (tr_envelope record) = Ok envelope ∧
    recover sha256 (dk_wal d) = Ok rec ∧
    (p ∈ rr_payload <$> rc_records rec ∨ popped cfg trace (sequence (env_version envelope))) ∧
    (retained_bytes ≤ tlp_retained_bytes_limit cfg)%N.
Proof.
  intros (log & [t Ht] & _ & Hall)%run_promises Hin; [|done].
  destruct (Hall _ _ Hin) as (record' & envelope & p & [= <-] & Hp & Hv & <- & Hk & _ & Hle).
  destruct (recover_single sha256 sha256_len _ _ _ Ht) as (rec & Hrec & Hlog & _).
  exists p, envelope, rec. split_and!; try done; [apply Hp|].
  rewrite Hlog. destruct Hk as [|(record' & envelope' & [Hp1 Hp2] & Hpop)]; [by left|right].
  destruct Hp as [Hp1' Hp2']. assert (record' = record) as -> by congruence. congruence.
Qed.
End facts.
End runs.

(** ** Concrete runs *)
Module demo_tlog_runs.
Import demo_tlog.
(** An append, a second one that tears, and a restart. *)
Definition torn_run :=
  [(TqAppend (record 1), tlog_io_ok); (TqAppend (record 2), torn_append 20); (TqStatus, tlog_io_ok)].
(** The second one is tried again. *)
Definition retried_run :=
  [(TqAppend (record 1), tlog_io_ok); (TqAppend (record 2), torn_append 20);
   (TqAppend (record 2), tlog_io_ok)].
Definition acknowledged (r : res TLogError TaggedLogResponse) : bool :=
  match r with Ok (TaAppended _ _ _ _) => true | _ => false end.
Definition recovered (d : TLogDisk) : list bytes :=
  match recover prefix_digest (dk_wal d) with Ok rec => rr_payload <$> rc_records rec | _ => [] end.
End demo_tlog_runs.
Import demo_tlog demo_tlog_runs.

Lemma acknowledged_append_kept_witness :
  ∃ p envelope rec, to_vec (record 1) = Some p ∧
    decode_envelope prefix_digest (tr_envelope (record 1)) = Ok envelope ∧
    recover prefix_digest (dk_wal (serve prefix_digest (config 10 1) TLogDisk_empty torn_run).2) = Ok rec ∧
    (p ∈ rr_payload <$> rc_records rec ∨
     popped prefix_digest (config 10 1) (serve prefix_digest (config 10 1) TLogDisk_empty torn_run).1
       (sequence (env_version envelope))).
Proof.
  destruct (acknowledged_append_kept prefix_digest prefix_digest_len demo_record_codec
    demo_records_codec demo_records_bounded (config 10 1) ltac:(done)
    (serve prefix_digest (config 10 1) TLogDisk_empty torn_run).1
    (serve prefix_digest (config 10 1) TLogDisk_empty torn_run).2
    (record 1) 1 (prefix_digest (default [] (to_vec (record 1)))) 51 51)
    as (p & envelope & rec & Hp & _ & He & Hrec & Hkept & _).
  - exact (serve_run_new prefix_digest (config 10 1) torn_run).
  - vm_compute. left.
  - exact (ex_intro _ p (ex_intro _ envelope (ex_intro _ rec (conj Hp (conj He (conj Hrec Hkept)))))).
Defined.

(** An append after a torn one is acknowledged and lost. Recovery ignores a
    torn tail and leaves it in the file, and the next append writes behind it, so
    recovery never reaches what was written. The process answers that position 2
    is stored, and the log it recovers holds the first record only. *)
Theorem append_after_torn_tail_lost :
  acknowledged <$> (serve prefix_digest (config 10 1) TLogDisk_empty retried_run).1.*2
    = [true; false; true] ∧
  recovered (serve prefix_digest (config 10 1) TLogDisk_empty retried_run).2
    = [default [] (to_vec (record 1))].
Proof. split; vm_compute; reflexivity. Qed.
