(* ===== verification/TLogFence.v ===== *)
(** * Fences against certificates

    The cell authority aborts a staged transaction in a takeover when a quorum
    of one log set has attested that it does not hold the record; it publishes
    one when quorums attest that they do. Here the nodes of the log sets are runs
    of [TLog.v] and the authority is [CellState.v]: since a node never attests
    both, and quorums of a majority meet, no certificate for an aborted
    transaction exists or will exist. *)

From S2P Require Import Prelude Order BTree Bytes Version Quorum Envelope Publication.
From S2P Require Import CellCert CellState CellDemo CellStaged CellDurable LogCert TLog TLogDemo TLogSteps TLogRuns.

(** The key of a staged transaction's record. *)
Definition staged_key (sha256 : bytes → bytes) (cell_id tenant_id : bytes) (generation : N)
    (s : StagedTransaction) : RecordKey :=
  {| rk_cell_id := cell_id; rk_tenant_id := tenant_id; rk_generation := generation;
     rk_commit_sequence := st_commit_sequence s; rk_identity := st_identity s;
     rk_envelope_sha256 := sha256 (st_envelope s) |}.

Section fence.
Context (sha256 : bytes → bytes) (sha256_len : digest_len sha256).
Context `{Ed25519} `{Ed25519Sign} `{CellJson} `{LogJson} `{TLogJson}.

(** The message whose signature an answer carries. *)
Definition signed_message (req : TaggedLogRequest) (r : TaggedLogResponse) : option bytes :=
  match r with
  | TaAttested st _ => log_signing_bytes st
  | TaFenced st a _ => fence_signing_bytes st (tfa_record_present a)
  | TaPrefixFenced st a _ => prefix_signing_bytes st (pfa_observations a)
  | TaCapacityAttested st a => capacity_signing_bytes st a
  | TaPopped st a => pop_signing_bytes st a
  | TaRepairAttested st a => repair_signing_bytes st a
  | TaPolicyStaged _ a =>
      match req with
      | TqPolicyStage t => policy_stage_signing_bytes (stage_statement sha256 t) a
      | _ => None
      end
  | _ => None
  end.

(** [serde_json] writes different values differently. *)
Class JsonInjective := {
  json_log_inj : ∀ (s s' : CellTaggedLogStatement) b, to_vec s = Some b → to_vec s' = Some b → s = s';
  json_fence_inj : ∀ (s s' : CellTaggedLogFenceStatement) b,
    to_vec s = Some b → to_vec s' = Some b → s = s';
  json_prefix_inj :
    ∀ (s s' : CellTaggedLogPrefixFenceStatement * list CellTaggedLogPrefixObservation) b,
    to_vec s = Some b → to_vec s' = Some b → s = s';
}.
Context `{JsonInjective}.

(** The messages that attest a record's absence. *)
Definition absence_message (key : RecordKey) (message : bytes) : Prop :=
  (∃ st, fence_signing_bytes st false = Some message ∧ fence_key st = key) ∨
  (∃ st observations o, prefix_signing_bytes st observations = Some message ∧
     o ∈ observations ∧ pfo_record_present o = false ∧ observed_key st o = key).

(** The first bytes of a message tell its kind. *)
Definition message_kind (r : TaggedLogResponse) : bytes :=
  take 18 (match r with
    | TaAttested _ _ => TAGGED_LOG_CERTIFICATE_MAGIC
    | TaFenced _ _ _ => TAGGED_LOG_FENCE_CERTIFICATE_MAGIC
    | TaPrefixFenced _ _ _ => TAGGED_LOG_PREFIX_FENCE_CERTIFICATE_MAGIC
    | TaCapacityAttested _ _ => TAGGED_LOG_CAPACITY_CERTIFICATE_MAGIC
    | TaPopped _ _ => TAGGED_LOG_POP_CERTIFICATE_MAGIC
    | TaRepairAttested _ _ => TAGGED_LOG_REPAIR_CERTIFICATE_MAGIC
    | TaPolicyStaged _ _ => TAGGED_LOG_POLICY_STAGE_CERTIFICATE_MAGIC
    | _ => []
    end).

Lemma signed_message_kind req r message :
  signed_message req r = Some message → take 18 message = message_kind r.
Proof.
  destruct r; cbn [signed_message]; try done;
    try (unfold log_signing_bytes, fence_signing_bytes, prefix_signing_bytes, capacity_signing_bytes,
           pop_signing_bytes, repair_signing_bytes; by intros (json & _ & ->)%fmap_Some).
  destruct req; try done. unfold policy_stage_signing_bytes. by intros (json & _ & ->)%fmap_Some.
Qed.

Lemma fence_message_inj st b st' b' message :
  fence_signing_bytes st b = Some message → fence_signing_bytes st' b' = Some message →
  st = st' ∧ b = b'.
Proof.
  unfold fence_signing_bytes.
  intros (json & Hj & ->)%fmap_Some (json' & Hj' & Heq)%fmap_Some.
  apply app_inv_head, app_inj_tail in Heq as [-> Hb].
  split; [by eapply json_fence_inj|]. by destruct b, b'.
Qed.

(** A signed message came from the answer it says. *)
Lemma attested_answer req r st message :
  signed_message req r = Some message → log_signing_bytes st = Some message →
  ∃ a, r = TaAttested st a.
Proof.
  intros Hr Hst. pose proof (signed_message_kind _ _ _ Hr) as Hk.
  pose proof (signed_message_kind TqStatus (TaAttested st {| tla_signer_id := 0; tla_signature := [] |})
    message Hst) as Hk'. rewrite Hk in Hk'. destruct r; try done. cbn in Hr.
  apply fmap_Some in Hst as (json & Hj & ->), Hr as (json' & Hj' & Heq).
  apply app_inv_head in Heq as ->.
  eexists. f_equal. by eapply json_log_inj.
Qed.

Lemma absence_answer req r key message :
  signed_message req r = Some message → absence_message key message → attests_absence r key.
Proof.
  intros Hr Hm. pose proof (signed_message_kind _ _ _ Hr) as Hk.
  destruct Hm as [(st & Hst & <-)|(st & obs & o & Hst & Ho & Hp & <-)].
  - pose proof (signed_message_kind TqStatus (TaFenced st {| tfa_signer_id := 0; tfa_record_present := false;
      tfa_signature := [] |} false) message Hst) as Hk'. rewrite Hk in Hk'. destruct r; try done.
    destruct (fence_message_inj _ _ _ _ _ Hr Hst) as [-> ?]. done.
  - pose proof (signed_message_kind TqStatus (TaPrefixFenced st {| pfa_signer_id := 0;
      pfa_observations := obs; pfa_signature := [] |} false) message Hst) as Hk'. rewrite Hk in Hk'.
    destruct r; try done. apply fmap_Some in Hst as (json & Hj & ->), Hr as (json' & Hj' & Heq).
    apply app_inv_head in Heq as ->.
    assert ((st, obs) = (statement, pfa_observations attestation)) as [= -> ->] by (by eapply json_prefix_inj).
    by exists o.
Qed.

(** ** What verified certificates say of their signers *)

(** The messages with their signatures that anyone holds. *)
Context (presented : bytes → bytes → Prop).

(** Someone holds a signature of the message under the node's key. *)
Definition vouched policy (message : bytes) (n : N) : Prop :=
  ∃ signature, presented message signature ∧ signed_with policy message n signature.

Definition certificate_presented (c : CellTaggedLogCertificate) : Prop :=
  ∀ a message, a ∈ tlc_attestations c → log_signing_bytes (tlc_statement c) = Some message →
    presented message (tla_signature a).
Definition fence_presented (c : CellTaggedLogFenceCertificate) : Prop :=
  ∀ a message, a ∈ tfc_attestations c →
    fence_signing_bytes (tfc_statement c) (tfa_record_present a) = Some message →
    presented message (tfa_signature a).

Lemma certificate_signers c policy s cell tenant generation :
  verify_tagged_log_certificate sha256 c policy s cell tenant generation = true →
  certificate_presented c →
  statement_key (tlc_statement c) = staged_key sha256 cell tenant generation s ∧
  ∃ message, log_signing_bytes (tlc_statement c) = Some message ∧
    quorum_of policy (vouched policy message).
Proof.
  unfold verify_tagged_log_certificate, verify_tagged_log_envelope_certificate.
  case_match eqn:Hg1; [done|]. case_match eqn:Hdec; [|done..]. case_match; [done|].
  case_match eqn:Hg2; [done|]. intros [Hm Hat]%andb_true_iff Hpres.
  repeat match goal with Hg : _ || _ = false |- _ => apply orb_false_iff in Hg as [? ?] end.
  destruct_bool_hyps. destruct Hm as [message Hm]. split.
  { unfold statement_key, staged_key. f_equal; done. }
  exists message. split; [done|]. eapply attested_quorum; [exact Hat|]. intros att Hin Ha.
  apply member_signed_with in Ha as (bytes & Hb & Hs). simplify_eq.
  split; [destruct Hs as (key & Hk & _); eauto|]. exists (tla_signature att). auto.
Qed.

Lemma fence_signers c policy s cell tenant generation recovery_id :
  verify_tagged_log_fence_certificate sha256 c policy s cell tenant generation recovery_id = true →
  fence_presented c →
  N.to_nat (lsp_quorum_size policy)
    ≤ length (List.filter (λ a, negb (tfa_record_present a)) (tfc_attestations c)) →
  tfs_log_set_id (tfc_statement c) ∈ ct_durable_log_tags (st_transaction s) ∧
  quorum_of policy (λ n, ∃ message, vouched policy message n ∧
    absence_message (staged_key sha256 cell tenant generation s) message).
Proof.
  unfold verify_tagged_log_fence_certificate. case_match eqn:Hg; [done|]. intros Hat Hpres Hq.
  repeat match goal with Hg : _ || _ = false |- _ => apply orb_false_iff in Hg as [? ?] end.
  destruct_bool_hyps. split; [done|].
  eapply attested_filter_quorum; [exact Hat|exact Hq|]. intros att Hin Ha Hf%negb_true_iff.
  apply member_signed_with in Ha as (message & Hb & Hs). split.
  - destruct Hs as (key & Hk & _). eauto.
  - exists message. split; [exists (tfa_signature att); auto|]. left. exists (tfc_statement c).
    rewrite Hf in Hb. split; [done|]. unfold fence_key, staged_key. f_equal; done.
Qed.

(** Any two quorums of the policy meet. The code leaves this to whoever installs
    the policy. *)
Definition intersecting (policy : CellLogSetPolicy) : Prop :=
  length (lsp_members policy) < 2 * N.to_nat (lsp_quorum_size policy).

Lemma quorums_meet policy P Q :
  intersecting policy → quorum_of policy P → quorum_of policy Q →
  ∃ n, is_Some (member_map (lsp_members policy) !! n) ∧ P n ∧ Q n.
Proof.
  intros Hi (q1 & Hs1 & Hq1 & HP) (q2 & Hs2 & Hq2 & HQ). unfold intersecting in Hi.
  destruct (quorums_intersect (dom (member_map (lsp_members policy))) q1 q2) as (n & H1n & H2n);
    [done|done| |].
  - assert (size (dom (member_map (lsp_members policy))) ≤ length (lsp_members policy)); [|lia].
    unfold member_map. etrans; [apply size_collect_map|]. by rewrite length_fmap.
  - exists n. split_and!; [|by auto..]. apply elem_of_dom. by apply Hs1.
Qed.

(** ** Log sets and their nodes *)

(** The members of a log set run the process, and no append found a torn tail. Of
    the signatures anyone holds, one that verifies under a member's key was made by
    that member, in one of its answers: the key stays with it. *)
Record log_cluster (policy : CellLogSetPolicy) (cfg : N → TaggedLogProcessConfig)
    (trace : N → tlog_trace) : Prop := {
  lc_faultless : ∀ n, is_Some (member_map (lsp_members policy) !! n) → faultless (cfg n);
  lc_run : ∀ n, is_Some (member_map (lsp_members policy) !! n) →
    ∃ d, tlog_run sha256 (cfg n) false (trace n) d;
  lc_unforgeable : ∀ n message, vouched policy message n →
    ∃ req r, (req, Ok r) ∈ trace n ∧ signed_message req r = Some message;
}.

Context (record_codec : ∀ r b, to_vec r = Some b → tlog_record_from_slice b = Some r).
Context (records_codec : ∀ l b, to_vec l = Some b → tlog_records_from_slice b = Some l).
Context (records_bounded : ∀ b l, tlog_records_from_slice b = Some l → (len l < U64_MAX)%N).

(** An absence quorum and a certificate for the same record: popped meanwhile. *)
Lemma absence_excludes policy cfg trace key c message :
  log_cluster policy cfg trace → intersecting policy →
  quorum_of policy (λ n, ∃ message, vouched policy message n ∧ absence_message key message) →
  statement_key c = key → log_signing_bytes c = Some message →
  quorum_of policy (vouched policy message) →
  ∃ n, popped sha256 (cfg n) (trace n) (rk_commit_sequence key).
Proof.
  intros [Hf Hrun Hu] Hi Habs <- Hm Hdur.
  destruct (quorums_meet _ _ _ Hi Habs Hdur) as (n & Hn & (message' & Hs' & Ha) & Hs).
  destruct (Hu _ _ Hs) as (req & r & Hin & Hr), (Hu _ _ Hs') as (req' & r' & Hin' & Hr').
  destruct (attested_answer _ _ _ _ Hr Hm) as [a ->]. exists n.
  destruct (Hrun n Hn) as [d Hd].
  eapply (attested_or_absent sha256 sha256_len record_codec records_codec records_bounded (cfg n)
    (Hf n Hn)); [done|by exists req|by exists req'|by eapply absence_answer].
Qed.

Lemma abort_proof_absent cmd previous_generation recovery_id fences staged d :
  abort_proof_valid sha256 cmd previous_generation recovery_id fences staged d = true →
  (∀ c, c ∈ fences → fence_presented c) →
  ∃ log_set policy, log_set ∈ ct_durable_log_tags (st_transaction staged) ∧
    cd_log_set_policies d !! log_set = Some policy ∧
    quorum_of policy (λ n, ∃ message, vouched policy message n ∧
      absence_message (staged_key sha256 (cs_cell_id cmd) (cs_tenant_id cmd) previous_generation staged)
        message).
Proof.
  unfold abort_proof_valid. intros [[_ [_ Hall]%andb_true_iff]%andb_true_iff Hex]%andb_true_iff Hpres.
  apply existsb_exists in Hex as (c & Hc & Hq). unfold absence_quorum in Hq.
  apply andb_true_iff in Hq as [_ Hq]. rewrite forallb_forall in Hall. specialize (Hall c Hc). cbv beta in Hall.
  destruct (cd_log_set_policies d !! _) as [policy|] eqn:Hp; [|done].
  apply Nat.leb_le in Hq. apply list_elem_of_In in Hc.
  destruct (fence_signers _ _ _ _ _ _ _ Hall (Hpres _ Hc) Hq) as [Htag Hquorum].
  by exists (tfs_log_set_id (tfc_statement c)), policy.
Qed.

(** C7. Take log sets with intersecting quorums whose members run the process, with
    any requests and disk failures as long as no append finds a torn tail, and keep
    their keys: of the signatures anyone presents, one that verifies under a
    member's key was made by that member. A takeover aborts a staged transaction
    only if, in one of the log sets it needs, no certificate of its durability can
    be presented that verifies, then or ever after, unless an authorized pop has
    passed the record: such a certificate would need a member that attested both
    the record and its absence. *)
Theorem abort_excludes_certificate cmd previous_generation recovery_id expected_sequence
    expected_digest fences authority faults d d' response
    (cfg : N → N → TaggedLogProcessConfig) (trace : N → N → tlog_trace) :
  (∀ log_set policy, cd_log_set_policies d !! log_set = Some policy →
     intersecting policy ∧ log_cluster policy (cfg log_set) (trace log_set)) →
  (∀ c, c ∈ fences → fence_presented c) →
  accept_invalid_staged_abort_proof faults = false →
  takeover_abort sha256 cmd previous_generation recovery_id expected_sequence expected_digest
    fences authority faults d = Ok (d', response) →
  csr_status response = SAborted →
  ∃ staged log_set policy,
    find_staged d (cs_transaction_identity cmd) = Some staged ∧
    log_set ∈ ct_durable_log_tags (st_transaction staged) ∧
    cd_log_set_policies d !! log_set = Some policy ∧
    ∀ certificate, certificate_presented certificate →
      verify_tagged_log_certificate sha256 certificate policy staged (cs_cell_id cmd)
        (cs_tenant_id cmd) previous_generation = true →
      ∃ n, popped sha256 (cfg log_set n) (trace log_set n) (st_commit_sequence staged).
Proof.
  intros Hcl Hpres Hf Ht Hst. unfold takeover_abort, on_staged in Ht.
  destruct (staged_position _ _) as [i|] eqn:Hpos; [|by injection Ht as <- <-].
  destruct (_ !! i) as [staged|] eqn:Hi; [|done]. case_match; [by injection Ht as <- <-|].
  case_match eqn:Hg; [by injection Ht as <- <-|]. rewrite Hf in Hg.
  cbn [negb andb] in Hg.
  assert (abort_proof_valid sha256 cmd previous_generation recovery_id fences staged d = true)
    as (log_set & policy & Htag & Hpol & Hq)%abort_proof_absent by (by destruct_bool_hyps); [|done].
  destruct (Hcl _ _ Hpol) as [Hint Hcluster]. exists staged, log_set, policy.
  split_and!; [by unfold find_staged; rewrite Hpos|done|done|].
  intros c Hpc (Hkey & message & Hm & Hdur)%certificate_signers; [|done].
  exact (absence_excludes _ _ _ _ _ _ Hcluster Hint Hq Hkey Hm Hdur).
Qed.
End fence.

(** *** A takeover that aborts a transaction two nodes of each log set never saw

    The third node of each log set has stored it and attests that. *)
Module demo_abort.
Import demo_cell demo_staged demo_takeover demo_tlog.
#[export] Instance demo_injective : JsonInjective :=
  {| json_log_inj := write_inj; json_fence_inj := write_inj; json_prefix_inj := write_inj |}.

Definition staged_domain : CellDomainState := ok_or fresh (staged_run prefix_digest
  [command 8 (InstallLogSetPolicies (demo_tlog.log_policy <$> [10; 20]%N));
   command 1 (Stage (txn 1 0 [] key_a 1))] fresh).
Definition certificates : list CellTaggedLogFenceCertificate :=
  (λ log_set, {| tfc_statement := fence log_set;
                 tfc_attestations := fence_attestation log_set <$> [1; 2]%N |}) <$> [10; 20]%N.
Definition abort_reply := ok_or (fresh, staged_response fresh (ident 1) SInvalidRequest None)
  (takeover_abort prefix_digest takeover 1 5 1 (prefix_digest (envelope 1 1)) certificates successor
     no_fence_faults staged_domain).

Definition stored (log_set : N) : CellTaggedLogStatement :=
  {| tls_format_version := 1; tls_cell_id := CELL; tls_tenant_id := TENANT; tls_generation := 1;
     tls_transaction_identity := ident 1; tls_commit_sequence := 1; tls_log_set_id := log_set;
     tls_policy_epoch := 1; tls_envelope_sha256 := prefix_digest (envelope 1 1);
     tls_durable_position := 1 |}.
Definition node_requests (log_set n : N) : list (TaggedLogRequest * TLogIo) :=
  if (n =? 3)%N then [(TqAppend (record 1), tlog_io_ok); (TqAttest (stored log_set), tlog_io_ok)]
  else [(TqFence (fence log_set), tlog_io_ok)].
Definition node_trace (log_set n : N) : tlog_trace :=
  (serve prefix_digest (config log_set n) TLogDisk_empty (node_requests log_set n)).1.

(** What the nodes signed in their answers. *)
Definition in_circulation (message signature : bytes) : Prop :=
  ∃ log_set n req r, log_set ∈ [10; 20]%N ∧ n ∈ [1; 2; 3]%N ∧ (req, Ok r) ∈ node_trace log_set n ∧
    signed_message prefix_digest req r = Some message ∧
    signature = ed25519_sign (node_key log_set n) message.

Lemma demo_members log_set n :
  is_Some (member_map (lsp_members (demo_tlog.log_policy log_set)) !! n) → n ∈ [1; 2; 3]%N.
Proof. by intros Hn%elem_of_collect_map. Qed.

Lemma node_run log_set n :
  log_set ∈ [10; 20]%N → n ∈ [1; 2; 3]%N →
  ∃ d, tlog_run prefix_digest (config log_set n) false (node_trace log_set n) d.
Proof.
  intros HL Hn. eexists.
  assert (serve_behind prefix_digest (config log_set n) TLogDisk_empty (node_requests log_set n)
    = false) as <-; [|apply serve_run_new].
  apply list_elem_of_In in HL, Hn.
  destruct HL as [<-|[<-|[]]], Hn as [<-|[<-|[<-|[]]]]; vm_compute; reflexivity.
Qed.

Lemma node_key_inj log_set n log_set' n' :
  log_set ∈ [10; 20]%N → n ∈ [1; 2; 3]%N → log_set' ∈ [10; 20]%N → n' ∈ [1; 2; 3]%N →
  node_key log_set n = node_key log_set' n' → log_set' = log_set ∧ n' = n.
Proof.
  unfold node_key. intros HL Hn HL' Hn' [= Heq]. set_unfold. lia.
Qed.

Lemma demo_cluster log_set :
  log_set ∈ [10; 20]%N →
  log_cluster prefix_digest in_circulation (demo_tlog.log_policy log_set) (config log_set)
    (node_trace log_set).
Proof.
  intros HL. split.
  - done.
  - intros n Hn%demo_members. by apply node_run.
  - intros n message (signature & (L & n' & req & r & HL' & Hn' & Hin & Hm & ->) & key & Hkey & Hv).
    pose proof (demo_members _ _ (mk_is_Some _ _ Hkey)) as Hn.
    assert (key = node_key log_set n) as ->.
    { enough (Some key = Some (node_key log_set n)) by congruence. rewrite <-Hkey.
      apply list_elem_of_In in Hn. by destruct Hn as [<-|[<-|[<-|[]]]]. }
    apply bool_decide_eq_true, app_inv_tail in Hv. symmetry in Hv.
    destruct (node_key_inj log_set n L n' HL Hn HL' Hn' Hv) as [-> ->]. by exists req, r.
Qed.

Lemma demo_fences c : c ∈ certificates → fence_presented in_circulation c.
Proof.
  intros (log_set & -> & HL)%list_elem_of_fmap a message (n & -> & Hn)%list_elem_of_fmap Hm.
  exists log_set, n, (TqFence (fence log_set)),
    (TaFenced (fence log_set) (fence_attestation log_set n) true).
  apply list_elem_of_In in HL as HL', Hn as Hn'.
  split_and!; [done|set_solver| |done|].
  - destruct HL' as [<-|[<-|[]]], Hn' as [<-|[<-|[]]]; vm_compute; left.
  - change (fence_signing_bytes (fence log_set) false = Some message) in Hm.
    unfold fence_attestation, fence_bytes. by rewrite Hm.
Qed.
End demo_abort.
Import demo_cell demo_staged demo_takeover demo_tlog demo_abort.

Lemma abort_excludes_certificate_witness :
  csr_status abort_reply.2 = SAborted ∧
  ∃ staged log_set policy,
    find_staged staged_domain (ident 1) = Some staged ∧
    log_set ∈ ct_durable_log_tags (st_transaction staged) ∧
    cd_log_set_policies staged_domain !! log_set = Some policy ∧
    ∀ certificate, certificate_presented in_circulation certificate →
      verify_tagged_log_certificate prefix_digest certificate policy staged CELL TENANT 1 = true →
      ∃ n, popped prefix_digest (config log_set n) (node_trace log_set n) (st_commit_sequence staged).
Proof.
  split; [vm_compute; reflexivity|].
  refine (abort_excludes_certificate prefix_digest prefix_digest_len in_circulation demo_record_codec
    demo_records_codec demo_records_bounded takeover 1 5 1 (prefix_digest (envelope 1 1)) certificates
    successor no_fence_faults staged_domain abort_reply.1 abort_reply.2 config node_trace _ demo_fences _ _ _);
    [|vm_compute; reflexivity..].
  intros log_set policy Hp.
  assert (cd_log_set_policies staged_domain = <[10%N := demo_tlog.log_policy 10]>
    (<[20%N := demo_tlog.log_policy 20]> ∅)) as E by (vm_compute; reflexivity).
  rewrite E in Hp. clear E.
  apply lookup_insert_Some in Hp as [[<- <-]|[_ [[<- <-]|[_ []%lookup_empty_Some]]%lookup_insert_Some]];
    (split; [apply Nat.ltb_lt; reflexivity|apply demo_cluster, list_elem_of_In; cbn; auto]).
Defined.
