(* ===== verification/RangeView.v ===== *)
(** * The serving view of a range

    [AuthorityBoundRangeView] and [RangeServingState] of
    [okv-object/src/range_serving_view.rs]: an immutable base the authority
    selected, overlaid by the certified suffix of the transaction log. The base
    is used through [SnapshotBase], the calls the view makes on
    [AuthorityBoundSlateReader]; [RangeViewSpec.v] shows that the reader of
    [SlateEngine.v] serves them. *)

From S2P Require Import Prelude Order BTree Bytes Version Mvcc SlateCodec SlateEngine SlateOps.
From S2P Require Import Quorum Envelope CellTypes CellCert CellState Publication.

(** ** The base *)

(** [B] is an opened reader and [C] a cursor. [base_remaining] bounds the rows a
    cursor still has; [base_reliable] says that no storage call fails. *)
Class SnapshotBase (B C : Type) := {
  base_latest_version : B → res AdapterError Version;
  base_get_at_retained : B → bytes → Version → Version → res AdapterError (option bytes);
  base_scan_cursor_at_retained :
    B → bytes → bytes → Version → Version → res AdapterError C;
  base_cursor_next : C → res AdapterError (option Row * C);
  base_remaining : C → nat;
  base_reliable : Prop;
}.

(** The reader of [SlateEngine.v]. *)
#[global] Instance slate_base {D I} `{OrderedStore D I}
    : SnapshotBase D (AuthorityBoundSlateScan (I := I)) := {
  base_latest_version := latest_version;
  base_get_at_retained := reader_get_at_retained;
  base_scan_cursor_at_retained := scan_cursor_at_retained;
  base_cursor_next := cursor_next;
  base_remaining c := length (iter_remaining (as_iterator c));
  base_reliable := store_reliable D I;
}.

(** ** Data *)
Record AuthorityManifestReference := {
  amr_key : string;
  amr_length : N;
  amr_sha256 : string;
}.
#[global] Instance AuthorityManifestReference_eq_dec : EqDecision AuthorityManifestReference.
Proof. solve_decision. Defined.

Record AuthorityRangeRoot := {
  arr_cell_id : bytes;
  arr_tenant_id : bytes;
  arr_generation : N;
  arr_manifest : AuthorityManifestReference;
  arr_covered_through : N;
  arr_minimum_readable_version : N;
  arr_log_chain_sha256 : bytes;
}.
#[global] Instance AuthorityRangeRoot_eq_dec : EqDecision AuthorityRangeRoot.
Proof. solve_decision. Defined.

Record CertifiedTxLogRecord := {
  ctl_envelope : bytes;
  ctl_certificates : list CellTaggedLogCertificate;
}.

Record RangeServingViewToken := {
  rvt_root : AuthorityRangeRoot;
  rvt_target_version : N;
  rvt_final_log_chain_sha256 : bytes;
}.
#[global] Instance RangeServingViewToken_eq_dec : EqDecision RangeServingViewToken.
Proof. solve_decision. Defined.

(** The texts of [Envelope] and [StaleRootSwap] are kept as the values they
    render. *)
Inductive RangeServingViewError :=
  | Base (error : AdapterError)
  | BaseFrontierMismatch (expected observed : N)
  | CertificateCoverageMismatch (sequence : N)
  | EnvelopeInvalid (error : option CommitCodecError)
  | IdentityMismatch (sequence : N)
  | InvalidReadRange (start end_ : bytes)
  | InvalidRoot (detail : string)
  | LeaseAuthority (error : SnapshotLeaseValidationError)
  | LeaseRootMismatch (detail : string)
  | LogChainMismatch (sequence : N)
  | NonMonotonicTail (prior observed : N)
  | ViewSnapshotExpired (requested minimum : N)
  | ViewSnapshotUnavailable (requested applied : N)
  | StaleRootSwap (expected observed : RangeServingViewToken)
  | StatePoisoned
  | TailDoesNotReachTarget (target observed : N).

(** The tail: for every key touched, its values by commit sequence. *)
Abbreviation TailVersions := (gmap N (option bytes)).
Abbreviation Tail := (gmap bytes TailVersions).

Record AuthorityBoundRangeView {B : Type} := {
  arv_base : B;
  arv_root : AuthorityRangeRoot;
  arv_target_version : N;
  arv_tail : Tail;
  arv_authenticated_tail_records : N;
  arv_final_log_chain_sha256 : bytes;
}.
Arguments AuthorityBoundRangeView : clear implicits.

Inductive TailValue := Untouched | Cleared | TailSet (value : bytes).

(** ** Opening a view *)
Definition validate_root (root : AuthorityRangeRoot) (target : N)
    : res RangeServingViewError unit :=
  if (arr_generation root =? 0)%N then Err (InvalidRoot "generation must be nonzero")
  else if (arr_covered_through root =? 0)%N
          || (arr_covered_through root <? arr_minimum_readable_version root)%N
  then Err (InvalidRoot "base frontier must be nonzero and retain its minimum version")
  else if (target <? arr_covered_through root)%N
  then Err (InvalidRoot "target precedes the immutable base frontier")
  else Ok tt.

Definition validate_snapshot_lease_for_root (authority : PublicationAuthorityState)
    (lease : SnapshotLeaseToken) (publication_root : ObjectReference)
    (root : AuthorityRangeRoot) (target_version : N) : res RangeServingViewError unit :=
  let? _ := map_err LeaseAuthority (validate_active_snapshot_lease authority lease) in
  if negb (lt_snapshot_version lease =? target_version)%N
  then Err (LeaseRootMismatch "lease snapshot differs from target")
  else if negb (bool_decide (closure_manifest (lt_closure lease) = publication_root))
  then Err (LeaseRootMismatch "lease manifest identity differs from published range root")
  else if negb (bool_decide (ref_key publication_root ∈ closure_object_keys (lt_closure lease)))
  then Err (LeaseRootMismatch "lease closure omits the published range root")
  else if negb (bool_decide (amr_key (arr_manifest root) ∈
                             closure_object_keys (lt_closure lease)))
  then Err (LeaseRootMismatch "lease closure omits the immutable-base manifest")
  else Ok tt.

Section view.
Context (sha256 : bytes → bytes).
Context `{Ed25519} `{CellJson}.
(** [serde_json::from_slice] at [Vec<CellMutation>]. *)
Context (mutations_from_slice : bytes → option (list CellMutation)).
Context {B C : Type} `{SnapshotBase B C}.
(** [AuthorityBoundSlateReader::open], for a fixed path, store and seed. *)
Context (open_base : AuthorityManifestReference → res AdapterError B).

Abbreviation view := (AuthorityBoundRangeView B).

Definition authenticate_record (record : CertifiedTxLogRecord) (envelope : CommitEnvelope)
    (policies : gmap N CellLogSetPolicy) : res RangeServingViewError unit :=
  let sequence := sequence (env_version envelope) in
  let required : gset N := list_to_set (env_required_log_tags envelope) in
  let supplied : gset N :=
    list_to_set ((λ c, tls_log_set_id (tlc_statement c)) <$> ctl_certificates record) in
  if negb (size required =? length (ctl_certificates record))
     || negb (bool_decide (required = supplied))
  then Err (CertificateCoverageMismatch sequence)
  else
    res_fold (λ _ certificate,
      match policies !! tls_log_set_id (tlc_statement certificate) with
      | None => Err (CertificateCoverageMismatch sequence)
      | Some policy =>
          if verify_tagged_log_envelope_certificate sha256 certificate policy
               (ctl_envelope record)
          then Ok tt else Err (CertificateCoverageMismatch sequence)
      end) (ctl_certificates record) tt.

(** [tail.entry(key).or_default().insert(sequence, value)]. *)
Definition tail_insert (sequence : N) (tail : Tail) (mutation : CellMutation) : Tail :=
  match mutation with
  | CClear key => <[key := <[sequence := None]> (tail !!! key)]> tail
  | CSet key value => <[key := <[sequence := Some value]> (tail !!! key)]> tail
  end.

(** The body of the record loop; the state is the observed frontier, the
    previous chain and the tail. *)
Definition overlay_record (root : AuthorityRangeRoot) (target_version : N)
    (policies : gmap N CellLogSetPolicy) (state : N * bytes * Tail)
    (record : CertifiedTxLogRecord) : res RangeServingViewError (N * bytes * Tail) :=
  let '(observed_frontier, previous_chain, tail) := state in
  let? envelope := map_err (λ e, EnvelopeInvalid (Some e))
                     (envelope_decode sha256 (ctl_envelope record)) in
  let sequence := sequence (env_version envelope) in
  if (sequence <=? observed_frontier)%N || (target_version <? sequence)%N
  then Err (NonMonotonicTail observed_frontier sequence)
  else if negb (bool_decide (env_cell_id envelope = arr_cell_id root))
          || negb (bool_decide (env_tenant_id envelope = arr_tenant_id root))
          || negb (env_generation envelope =? arr_generation root)%N
  then Err (IdentityMismatch sequence)
  else if negb (bool_decide (env_previous_log_chain envelope = previous_chain))
  then Err (LogChainMismatch sequence)
  else
    let? _ := authenticate_record record envelope policies in
    match mutations_from_slice (env_canonical_mutations envelope) with
    | None => Err (EnvelopeInvalid None)
    | Some mutations =>
        Ok (sequence, sha256 (ctl_envelope record),
            foldl (tail_insert sequence) tail mutations)
    end.

Definition open_inner (root : AuthorityRangeRoot) (target_version : N)
    (records : list CertifiedTxLogRecord) (policies : gmap N CellLogSetPolicy)
    : res RangeServingViewError view :=
  let? _ := validate_root root target_version in
  let? base := map_err Base (open_base (arr_manifest root)) in
  let? latest := map_err Base (base_latest_version base) in
  let observed := sequence latest in
  if negb (observed =? arr_covered_through root)%N
  then Err (BaseFrontierMismatch (arr_covered_through root) observed)
  else
    let? '(observed_frontier, previous_chain, tail) :=
      res_fold (overlay_record root target_version policies) records
        (arr_covered_through root, arr_log_chain_sha256 root, ∅) in
    if negb (observed_frontier =? target_version)%N
    then Err (TailDoesNotReachTarget target_version observed_frontier)
    else Ok {| arv_base := base; arv_root := root; arv_target_version := target_version;
               arv_tail := tail;
               arv_authenticated_tail_records := N.min (len records) U64_MAX;
               arv_final_log_chain_sha256 := previous_chain |}.

Definition open_historical (publication_root : ObjectReference) (root : AuthorityRangeRoot)
    (target_version : N) (records : list CertifiedTxLogRecord)
    (policies : gmap N CellLogSetPolicy) (authority : PublicationAuthorityState)
    (lease : SnapshotLeaseToken) : res RangeServingViewError view :=
  let? _ := validate_snapshot_lease_for_root authority lease publication_root root
              target_version in
  open_inner root target_version records policies.

Definition publication_token (v : view) : RangeServingViewToken :=
  {| rvt_root := arv_root v; rvt_target_version := arv_target_version v;
     rvt_final_log_chain_sha256 := arv_final_log_chain_sha256 v |}.

(** ** Reads *)
Definition view_require_readable (v : view) (requested : N) : res RangeServingViewError unit :=
  if (requested <? arr_minimum_readable_version (arv_root v))%N
  then Err (ViewSnapshotExpired requested (arr_minimum_readable_version (arv_root v)))
  else if (arv_target_version v <? requested)%N
  then Err (ViewSnapshotUnavailable requested (arv_target_version v))
  else Ok tt.

(** [versions.range(..=read_version).next_back()]. *)
Definition newest_tail (versions : TailVersions) (read_version : N) : option (option bytes) :=
  snd <$> bt_range_last (λ v, (v <=? read_version)%N) versions.

Definition tail_value (v : view) (key : bytes) (read_version : N) : TailValue :=
  match (arv_tail v !! key) ≫= (λ versions, newest_tail versions read_version) with
  | None => Untouched
  | Some None => Cleared
  | Some (Some value) => TailSet value
  end.

Definition view_base_version (v : view) (read_version : N) : Version :=
  version_new (N.min read_version (arr_covered_through (arv_root v))).
Definition view_minimum (v : view) : Version :=
  version_new (arr_minimum_readable_version (arv_root v)).

Definition view_get_at (v : view) (key : bytes) (read_version : N)
    : res RangeServingViewError (option bytes) :=
  let? _ := view_require_readable v read_version in
  match (if (arr_covered_through (arv_root v) <? read_version)%N
         then tail_value v key read_version else Untouched) with
  | Cleared => Ok None
  | TailSet value => Ok (Some value)
  | Untouched =>
      map_err Base (base_get_at_retained (arv_base v) key
                      (view_base_version v read_version) (view_minimum v))
  end.

(** [tail_iter]: the entries of the tail visible at the version. *)
Definition tail_entries (v : view) (start end_ : bytes) (read_version : N)
    : list (bytes * option bytes) :=
  omap (λ e, pair e.1 <$> newest_tail e.2 read_version)
    (bt_range (λ k, (start ≤ₖ? k) && (k <ₖ? end_)) (arv_tail v)).

Definition push_set (rows : list Row) (e : bytes * option bytes) : list Row :=
  match e.2 with Some value => rows ++ [(e.1, value)] | None => rows end.

(** The merge loop. Each turn consumes an entry of one side, so one turn more
    than both sides have entries is enough fuel; running out of it is [Panic]. *)
Fixpoint merge_loop (fuel : nat) (cursor : C) (base_next : option Row)
    (tail : list (bytes * option bytes)) (limit : nat) (rows : list Row)
    : res RangeServingViewError (list Row) :=
  match fuel with
  | O => Panic
  | S fuel =>
      if limit <=? length rows then Ok rows
      else
        match base_next, tail with
        | Some row, e :: rest =>
            match kcmp row.1 e.1 with
            | Lt =>
                let? '(next, cursor) := map_err Base (base_cursor_next cursor) in
                merge_loop fuel cursor next tail limit (rows ++ [row])
            | Eq =>
                let? '(next, cursor) := map_err Base (base_cursor_next cursor) in
                merge_loop fuel cursor next rest limit (push_set rows (row.1, e.2))
            | Gt => merge_loop fuel cursor base_next rest limit (push_set rows e)
            end
        | Some row, [] =>
            let? '(next, cursor) := map_err Base (base_cursor_next cursor) in
            merge_loop fuel cursor next [] limit (rows ++ [row])
        | None, e :: rest => merge_loop fuel cursor None rest limit (push_set rows e)
        | None, [] => Ok rows
        end
  end.

Definition view_scan_at (v : view) (start end_ : bytes) (read_version : N) (limit : nat)
    : res RangeServingViewError (list Row) :=
  if end_ ≤ₖ? start then Err (InvalidReadRange start end_)
  else
    let? _ := view_require_readable v read_version in
    if limit =? 0 then Ok []
    else
      let? cursor := map_err Base (base_scan_cursor_at_retained (arv_base v) start end_
                                     (view_base_version v read_version) (view_minimum v)) in
      let tail := tail_entries v start end_ read_version in
      let fuel := S (base_remaining cursor + length tail) in
      let? '(next, cursor) := map_err Base (base_cursor_next cursor) in
      merge_loop fuel cursor next tail limit [].

(** ** The published view *)

(** The lock is poisoned when a thread panicked while it held it. *)
Record RangeServingState := { rss_current : view; rss_poisoned : bool }.

Definition serving_current (s : RangeServingState) : res RangeServingViewError view :=
  if rss_poisoned s then Err StatePoisoned else Ok (rss_current s).

(** Installs the replacement and returns the view it replaced. *)
Definition install_if_current (s : RangeServingState) (expected : RangeServingViewToken)
    (replacement : view) : RangeServingState * res RangeServingViewError view :=
  if rss_poisoned s then (s, Err StatePoisoned)
  else
    let observed := publication_token (rss_current s) in
    if negb (bool_decide (observed = expected)) then (s, Err (StaleRootSwap expected observed))
    else ({| rss_current := replacement; rss_poisoned := false |}, Ok (rss_current s)).
End view.
