(* ===== verification/RangeViewSpec.v ===== *)
(** * What a serving view answers

    The contract of the base ([base_serves]), discharged by the reader of
    [SlateEngine.v]; the tail of a view as the replay of its records; the merge
    loop of a scan; and the exactness of both reads. *)

From S2P Require Import Prelude Order BTree Bytes Version Mvcc Oracle SlateCodec SlateEngine SlateView.
From S2P Require Import SlateOps Quorum Envelope CellTypes CellCert CellState Publication RangeView.

(** The rows of a key range in which [value] is defined. *)
Definition rows_at (value : bytes → option bytes) (start end_ : bytes) (rows : list Row) : Prop :=
  keys_sorted rows ∧
  ∀ k x, (k, x) ∈ rows ↔ start ≤ₖ k ∧ k <ₖ end_ ∧ value k = Some x.

Lemma rows_at_unique value start end_ rows1 rows2 :
  rows_at value start end_ rows1 → rows_at value start end_ rows2 → rows1 = rows2.
Proof.
  intros [S1 E1] [S2 E2]. apply keys_sorted_ext; [done..|]. intros [k x]. by rewrite E1, E2.
Qed.

Lemma rows_at_ext value value' start end_ rows :
  (∀ k, value k = value' k) → rows_at value start end_ rows → rows_at value' start end_ rows.
Proof. intros Hv [Hs He]. split; [done|]. intros k x. by rewrite He, Hv. Qed.

(** The first [limit] of these rows. *)
Record first_rows (value : bytes → option bytes) (start end_ : bytes) (limit : nat)
    (rows : list Row) : Prop := {
  fr_sorted : keys_sorted rows;
  fr_limit : length rows ≤ limit;
  fr_sound k x : (k, x) ∈ rows → start ≤ₖ k ∧ k <ₖ end_ ∧ value k = Some x;
  fr_complete k x : start ≤ₖ k → k <ₖ end_ → value k = Some x →
    (k, x) ∈ rows ∨ length rows = limit ∧ ∀ q, q ∈ rows → q.1 <ₖ k;
}.

Lemma first_rows_zero value start end_ : first_rows value start end_ 0 [].
Proof.
  split; [constructor|done|by intros k x []%elem_of_nil|].
  intros k x _ _ _. right. split; [done|]. by intros q []%elem_of_nil.
Qed.

Lemma rows_at_first value start end_ limit rows :
  rows_at value start end_ rows → first_rows value start end_ limit (take limit rows).
Proof.
  intros [Hs He]. pose proof (take_drop limit rows) as Htd. split.
  - rewrite <-Htd in Hs. by eapply StronglySorted_app_1_l.
  - rewrite length_take. lia.
  - intros k x Hk. apply He. rewrite <-Htd. apply elem_of_app. by left.
  - intros k x H1 H2 Hv. assert ((k, x) ∈ rows) as Hin by by apply He.
    rewrite <-Htd in Hin. apply elem_of_app in Hin as [?|Hd]; [by left|]. right.
    destruct (decide (limit ≤ length rows)).
    + rewrite length_take. split; [lia|]. intros q Hq. rewrite <-Htd in Hs.
      apply (StronglySorted_app_1_elem_of _ _ _ q (k, x) Hs Hq Hd).
    + rewrite drop_ge in Hd by lia. by apply elem_of_nil in Hd.
Qed.

(** Fewer than [limit] rows are all of them. *)
Lemma first_rows_all value start end_ limit rows :
  first_rows value start end_ limit rows → length rows < limit → rows_at value start end_ rows.
Proof.
  intros [Hs Hl Hf Hc] Hlt. split; [done|]. intros k x. split; [apply Hf|].
  intros (H1 & H2 & H3). destruct (Hc k x) as [?|[? _]]; [done..|lia].
Qed.

Lemma first_rows_ext value value' start end_ limit rows :
  (∀ k, value k = value' k) → first_rows value start end_ limit rows →
  first_rows value' start end_ limit rows.
Proof.
  intros Hv [? ? Hs Hc]. split; [done..| |].
  - intros k x. rewrite <-Hv. apply Hs.
  - intros k x. rewrite <-Hv. apply Hc.
Qed.

(** ** The contract of the base *)
Section contract.
Context {B C : Type} `{SnapshotBase B C}.

Definition base_failed {A} (r : res AdapterError A) : Prop :=
  r = Err Adapter.Backend ∧ ¬ base_reliable (B := B) (C := C).

(** The cursor goes through exactly these rows, unless storage fails. *)
Fixpoint yields (c : C) (rows : list Row) : Prop :=
  base_failed (base_cursor_next c) ∨
  match rows with
  | [] => ∃ c', base_cursor_next c = Ok (None, c')
  | row :: rows => ∃ c', base_cursor_next c = Ok (Some row, c') ∧ yields c' rows
  end.

(** [b] holds the values [value] up to [latest]. *)
Record base_serves (b : B) (latest : Version) (value : Version → bytes → option bytes) : Prop := {
  bs_wf : version_wf latest;
  bs_latest : base_failed (base_latest_version b) ∨ base_latest_version b = Ok latest;
  bs_get k v minimum : version_wf v → minimum ≤ₖ v → v ≤ₖ latest →
    base_failed (base_get_at_retained b k v minimum) ∨
    base_get_at_retained b k v minimum = Ok (value v k);
  bs_scan start end_ v minimum :
    start <ₖ end_ → version_wf v → minimum ≤ₖ v → v ≤ₖ latest →
    base_failed (base_scan_cursor_at_retained b start end_ v minimum) ∨
    ∃ c rows, base_scan_cursor_at_retained b start end_ v minimum = Ok c ∧ yields c rows ∧
      length rows ≤ base_remaining c ∧ rows_at (value v) start end_ rows;
}.
End contract.
Arguments base_serves : clear implicits.
Arguments base_serves {B} C {_} b latest value.
Arguments base_failed {B} C {_ A} r.
Arguments yields {B C _} c rows.

(** ** The reader of the engine keeps the contract *)
Section slate.
Context (sha256 : bytes → bytes) (P : CommitBatch → Prop).
Context {D I : Type} `{OrderedStoreLaws D I}.

Lemma length_rows_from rv skip es : length (rows_from rv skip es) ≤ length es.
Proof.
  revert skip. induction es as [|[[k v] y] es IH]; intros skip; [done|]. cbn [rows_from].
  destruct (_ || _); [specialize (IH skip); simpl; lia|].
  specialize (IH (Some k)). rewrite length_app. simpl. destruct y; simpl; lia.
Qed.

Lemma slate_yields (c : AuthorityBoundSlateScan) end_ es :
  pending (as_iterator c) end_ es → as_physical_end c = user_key_prefix end_ →
  as_finished c = false → yields c (rows_from (as_read_version c) None es).
Proof.
  remember (length es) as n eqn:Hn. revert c es Hn.
  induction (lt_wf n) as [n _ IH]. intros c es -> Hp He Hfin.
  assert (length (iter_remaining (as_iterator c)) = length es) as Hlen.
  { by rewrite (pend_remaining _ _ _ Hp), length_fmap. }
  assert (base_cursor_next c = cursor_next c) as Hnext by done.
  unfold cursor_next in Hnext. rewrite Hfin, He, Hlen in Hnext.
  destruct (cursor_loop_spec (S (length es)) _ _ (as_read_version c) _ Hp)
    as [[Hl Hr]|(row & it & fin & Hl & Hrow)]; [lia|..]; rewrite Hl in Hnext; cbn [res_bind] in Hnext.
  { destruct (rows_from _ _ _); left; by split. }
  destruct row as [row|].
  - destruct Hrow as (-> & es' & Hp' & Hlt & Heq). rewrite Heq. right. eexists. split; [done|].
    by apply (IH (length es') Hlt {| as_iterator := it |}).
  - rewrite Hrow. right. by eexists.
Qed.

Lemma slate_base_serves (d : D) m :
  represents sha256 P (store_contents d) m →
  base_serves (AuthorityBoundSlateScan (I := I)) d (latest m) (λ v k, visible m k v).
Proof.
  intros Hrep. split.
  - apply Hrep.
  - by apply (latest_version_spec sha256 P).
  - intros k v minimum Hv Hmin Hlat. change (base_failed _
      (get_at_retained d k v minimum) ∨ get_at_retained d k v minimum = Ok (visible m k v)).
    destruct (get_at_retained_spec sha256 P d m k v minimum Hrep Hv) as [?| ->]; [by left|].
    right. unfold admission. rewrite (proj2 (key_ltb_false v minimum)) by done.
    by rewrite (proj2 (key_ltb_false (latest m) v)).
  - intros start end_ v minimum Hse Hv Hmin Hlat.
    assert (base_scan_cursor_at_retained d start end_ v minimum =
      scan_cursor_at_retained d start end_ v minimum) as -> by done.
    unfold scan_cursor_at_retained. rewrite (proj2 (key_leb_false end_ start)) by done.
    destruct (require_readable_spec sha256 P d m v minimum Hrep) as [[-> Hr]| ->]; [by left; split|].
    unfold admission. rewrite (proj2 (key_ltb_false v minimum)) by done.
    rewrite (proj2 (key_ltb_false (latest m) v)) by done. cbn [res_bind].
    destruct (store_scan d _ _) as [it|] eqn:Hs.
    + right. destruct (pending_rows d start end_ v it (rep_shape _ _ _ _ Hrep) Hs)
        as (es & Hp & Hlen & Hrows).
      eexists _, _. split; [done|]. split_and!; [by eapply slate_yields| |].
      * cbn. rewrite Hlen. apply length_rows_from.
      * by apply (model_rows_phys sha256 P (store_contents d)).
    + left. split; [done|]. intros Hr. destruct (rel_scan _ _ Hr d (user_key_prefix start)
        (user_key_prefix end_)); congruence.
Qed.
End slate.

(** ** The tail is the replay of its records *)

(** A record of the log: its commit sequence and its mutations. *)
Abbreviation logged := (N * list CellMutation)%type.

Definition logged_tail (T : list logged) : Tail :=
  foldl (λ tail r, foldl (tail_insert r.1) tail r.2) ∅ T.

(** The rows after the records at or below [rv]. *)
Definition logged_rows (rows : gmap bytes bytes) (rv : N) (T : list logged) : gmap bytes bytes :=
  foldl (λ rows r, apply_mutations r.2 rows) rows (List.filter (λ r, (r.1 <=? rv)%N) T).

Definition logged_sorted (T : list logged) : Prop := StronglySorted (λ r r', (r.1 < r'.1)%N) T.

(** What the tail says of a key: nothing, or its value. *)
Definition tail_read (tail : Tail) (k : bytes) (rv : N) : option (option bytes) :=
  tail !! k ≫= λ versions, newest_tail versions rv.

Definition mutation_value (m : CellMutation) : option bytes :=
  match m with CClear _ => None | CSet _ value => Some value end.

Lemma newest_tail_insert versions s y rv :
  (∀ s', is_Some (versions !! s') → (s' ≤ s)%N) →
  newest_tail (<[s := y]> versions) rv =
    if (s <=? rv)%N then Some y else newest_tail versions rv.
Proof.
  intros Hmax. unfold newest_tail. destruct (s <=? rv)%N eqn:E.
  - rewrite (proj2 (bt_range_last_Some _ _ s y)); [done|]. split_and!; [|done|].
    + by rewrite lookup_insert_eq.
    + intros s' y' Hs' _. apply N.compare_le_iff. destruct (decide (s = s')) as [->|Hne]; [lia|].
      rewrite lookup_insert_ne in Hs' by done. by apply Hmax.
  - f_equal. unfold bt_range_last. f_equal. apply keys_sorted_ext; [apply bt_range_sorted..|].
    intros [s' y']. rewrite !elem_of_bt_range. destruct (decide (s = s')) as [->|Hne].
    + rewrite E. naive_solver.
    + by rewrite lookup_insert_ne.
Qed.

Definition tail_bounded (tail : Tail) (s : N) : Prop :=
  ∀ k s', is_Some ((tail !!! k) !! s') → (s' ≤ s)%N.

Lemma tail_read_total tail k rv : tail_read tail k rv = newest_tail (tail !!! k) rv.
Proof.
  unfold tail_read. rewrite lookup_total_alt. by destruct (tail !! k).
Qed.

Lemma tail_insert_entry s tail m k :
  tail_insert s tail m !!! k =
    if decide (mutation_key m = k) then <[s := mutation_value m]> (tail !!! k) else tail !!! k.
Proof.
  destruct m as [key|key value]; cbn [tail_insert mutation_key mutation_value];
    destruct (decide (key = k)) as [->|Hne];
    by rewrite ?lookup_total_insert_eq, ?lookup_total_insert_ne.
Qed.

Lemma tail_insert_bounded s tail m : tail_bounded tail s → tail_bounded (tail_insert s tail m) s.
Proof.
  intros Hb k s'. rewrite tail_insert_entry. destruct (decide _); [|apply Hb].
  destruct (decide (s = s')) as [->|]; [lia|]. rewrite lookup_insert_ne by done. apply Hb.
Qed.

Lemma tail_insert_read s tail m k rv :
  tail_bounded tail s →
  tail_read (tail_insert s tail m) k rv =
    if decide (mutation_key m = k ∧ (s ≤ rv)%N) then Some (mutation_value m)
    else tail_read tail k rv.
Proof.
  intros Hb. rewrite !tail_read_total, tail_insert_entry.
  destruct (decide (mutation_key m = k)) as [Hk|Hne].
  - rewrite newest_tail_insert by apply Hb. destruct (s <=? rv)%N eqn:E.
    + apply N.leb_le in E. by rewrite decide_True.
    + apply N.leb_gt in E. rewrite decide_False; [done|]. intros [_ ?]. lia.
  - by rewrite decide_False by naive_solver.
Qed.

Lemma tail_mutation_lookup rows m k :
  CellState.apply_mutation rows m !! k =
    if decide (mutation_key m = k) then mutation_value m else rows !! k.
Proof.
  destruct m as [key|key value]; cbn [mutation_key mutation_value CellState.apply_mutation];
    destruct (decide (key = k)) as [->|Hne];
    by rewrite ?lookup_delete_eq, ?lookup_insert_eq, ?lookup_delete_ne, ?lookup_insert_ne by done.
Qed.

(** One record: what the tail overlays on [rows] is what the rows become. *)
Lemma tail_record (s : N) (ms : list CellMutation) (tail : Tail)
    (rows0 rows : gmap bytes bytes) (rv : N) :
  tail_bounded tail s →
  (∀ k, rows !! k = default (rows0 !! k) (tail_read tail k rv)) →
  tail_bounded (foldl (tail_insert s) tail ms) s ∧
  ∀ k, (if (s <=? rv)%N then apply_mutations ms rows else rows) !! k =
    default (rows0 !! k) (tail_read (foldl (tail_insert s) tail ms) k rv).
Proof.
  revert tail rows. induction ms as [|m ms IH]; intros tail rows Hb Hr.
  { split; [done|]. intros k. by destruct (s <=? rv)%N. }
  cbn [foldl apply_mutations].
  destruct (IH (tail_insert s tail m)
    (if (s <=? rv)%N then CellState.apply_mutation rows m else rows)) as [Hb' Hr'].
  - by apply tail_insert_bounded.
  - intros k. rewrite tail_insert_read by done. destruct (s <=? rv)%N eqn:E.
    + apply N.leb_le in E. rewrite tail_mutation_lookup.
      destruct (decide (mutation_key m = k)) as [?|?].
      * by rewrite decide_True.
      * rewrite decide_False by naive_solver. apply Hr.
    + apply N.leb_gt in E. rewrite decide_False; [apply Hr|]. intros [_ ?]. lia.
  - split; [done|]. intros k. rewrite <-Hr'. by destruct (s <=? rv)%N.
Qed.

Lemma tail_bounded_weaken tail s s' : tail_bounded tail s → (s ≤ s')%N → tail_bounded tail s'.
Proof. intros Hb Hle k t Ht. specialize (Hb k t Ht). lia. Qed.

Lemma logged_rows_snoc rows rv T s ms :
  logged_rows rows rv (T ++ [(s, ms)]) =
    if (s <=? rv)%N then apply_mutations ms (logged_rows rows rv T) else logged_rows rows rv T.
Proof.
  unfold logged_rows. rewrite List.filter_app, foldl_app. cbn [List.filter fst].
  by destruct (s <=? rv)%N.
Qed.

Lemma logged_tail_snoc T s ms :
  logged_tail (T ++ [(s, ms)]) = foldl (tail_insert s) (logged_tail T) ms.
Proof. unfold logged_tail. by rewrite foldl_app. Qed.

(** Reading through the tail is reading the replayed rows. *)
Lemma logged_tail_read rows0 T rv :
  logged_sorted T →
  (∀ s, (∀ r, r ∈ T → (r.1 ≤ s)%N) → tail_bounded (logged_tail T) s) ∧
  ∀ k, logged_rows rows0 rv T !! k = default (rows0 !! k) (tail_read (logged_tail T) k rv).
Proof.
  induction T as [|[s ms] T IH] using rev_ind; intros Hs.
  { split; [|done]. intros s _ k s' [y Hy]. change (logged_tail []) with (∅ : Tail) in Hy.
    rewrite lookup_total_empty in Hy. change ((∅ : TailVersions) !! s' = Some y) in Hy.
    by rewrite lookup_empty in Hy. }
  pose proof (StronglySorted_app_1_l _ _ _ Hs) as HsT.
  destruct (IH HsT) as [Hb Hr].
  assert (tail_bounded (logged_tail T) s) as Hbs.
  { apply Hb. intros r HrT.
    apply N.lt_le_incl. apply (StronglySorted_app_1_elem_of _ T [(s, ms)] r (s, ms) Hs HrT).
    constructor. }
  destruct (tail_record s ms (logged_tail T) rows0 (logged_rows rows0 rv T) rv Hbs Hr) as [Hb' Hr'].
  rewrite logged_tail_snoc. split.
  - intros s' Hs'. eapply tail_bounded_weaken; [exact Hb'|]. apply (Hs' (s, ms)).
    apply elem_of_app. right. constructor.
  - intros k. by rewrite logged_rows_snoc, <-Hr'.
Qed.

(** ** The merge of a scan *)

Definition tail_row (e : bytes * option bytes) : list Row :=
  match e.2 with Some x => [(e.1, x)] | None => [] end.

(** The merge without a limit and without storage. *)
Fixpoint merge_rows (n : nat) (bs : list Row) (es : list (bytes * option bytes)) : list Row :=
  match n with
  | O => []
  | S n =>
      match bs, es with
      | row :: bs', e :: es' =>
          match kcmp row.1 e.1 with
          | Lt => row :: merge_rows n bs' es
          | Eq => tail_row (row.1, e.2) ++ merge_rows n bs' es'
          | Gt => tail_row e ++ merge_rows n bs es'
          end
      | row :: bs', [] => row :: merge_rows n bs' []
      | [], e :: es' => tail_row e ++ merge_rows n [] es'
      | [], [] => []
      end
  end.

Lemma keys_sorted_cons {V} (p : bytes * V) l :
  keys_sorted (p :: l) ↔ keys_sorted l ∧ ∀ q, q ∈ l → p.1 <ₖ q.1.
Proof.
  unfold keys_sorted. split.
  - intros [? Hall]%StronglySorted_inv. split; [done|]. by apply Forall_forall.
  - intros [? Hall]. constructor; [done|]. by apply Forall_forall.
Qed.

Lemma elem_of_tail_row e k x : (k, x) ∈ tail_row e ↔ e = (k, Some x).
Proof.
  destruct e as [k' [x'|]]; unfold tail_row; cbn [fst snd].
  - rewrite list_elem_of_singleton. naive_solver.
  - rewrite elem_of_nil. naive_solver.
Qed.

(** A row is in the merge when the tail sets it, or when the base has it and
    the tail does not touch it. *)
Definition merged (bs : list Row) (es : list (bytes * option bytes)) (k x : bytes) : Prop :=
  (k, Some x) ∈ es ∨ (k, x) ∈ bs ∧ ∀ y, (k, y) ∉ es.

Lemma merged_nil_l es k x : merged [] es k x ↔ (k, Some x) ∈ es.
Proof. unfold merged. rewrite elem_of_nil. naive_solver. Qed.

Lemma merged_nil_r bs k x : merged bs [] k x ↔ (k, x) ∈ bs.
Proof. unfold merged. setoid_rewrite elem_of_nil. naive_solver. Qed.

(** A base row below every tail entry. *)
Lemma merged_base row bs es k x :
  (∀ e, e ∈ es → row.1 <ₖ e.1) →
  merged (row :: bs) es k x ↔ row = (k, x) ∨ merged bs es k x.
Proof.
  intros Hlt. unfold merged. rewrite elem_of_cons. split; [naive_solver|].
  intros [->|[?|[? ?]]]; [|naive_solver..]. right. split; [by left|].
  intros y Hy%Hlt. cbn in Hy. key_order.
Qed.

(** A tail entry below every base row, or at the first one. *)
Lemma merged_tail e bs es k x :
  (∀ row, row ∈ bs → e.1 <ₖ row.1) → (∀ e', e' ∈ es → e.1 <ₖ e'.1) →
  merged bs (e :: es) k x ↔ e = (k, Some x) ∨ merged bs es k x.
Proof.
  intros Hbs Hes. unfold merged. setoid_rewrite elem_of_cons. split.
  - intros [[?|?]|[? Hn]]; [by left|naive_solver..].
  - intros [?|[?|[Hk Hn]]]; [naive_solver..|]. right. split; [done|].
    intros y [Heq|Hy]; [|by eapply Hn]. apply Hbs in Hk. rewrite <-Heq in Hk. cbn in Hk. key_order.
Qed.

Lemma merged_both row e bs es k x :
  row.1 = e.1 → merged (row :: bs) (e :: es) k x ↔ merged bs (e :: es) k x.
Proof.
  intros Heq. unfold merged. setoid_rewrite elem_of_cons. split; [|naive_solver].
  intros [?|[[Hrow|?] Hn]]; [naive_solver| |naive_solver].
  destruct (Hn e.2). left. subst row. cbn in Heq. destruct e; cbn in *. congruence.
Qed.

Lemma kcmp_gt (k k' : bytes) : kcmp k k' = Gt → k' <ₖ k.
Proof. intros E. apply key_not_le. unfold key_le. rewrite E. by intros []. Qed.

Lemma merge_rows_elem n bs es k x :
  keys_sorted bs → keys_sorted es → length bs + length es ≤ n →
  (k, x) ∈ merge_rows n bs es ↔ merged bs es k x.
Proof.
  revert bs es. induction n as [|n IH]; intros [|row bs] [|e es] Hb He Hn; simpl in Hn; try lia;
    cbn [merge_rows]; try (rewrite merged_nil_l, !elem_of_nil; done);
    try apply keys_sorted_cons in Hb as [Hb Hbl]; try apply keys_sorted_cons in He as [He Hel].
  - rewrite elem_of_app, elem_of_tail_row, IH by (done || constructor || simpl; lia).
    rewrite merged_tail; [done| |done]. intros ? []%elem_of_nil.
  - rewrite elem_of_cons, IH by (done || constructor || simpl; lia).
    rewrite merged_base by (intros ? []%elem_of_nil). naive_solver.
  - destruct (kcmp row.1 e.1) eqn:E.
    + apply kcmp_eq in E. rewrite elem_of_app, elem_of_tail_row, IH by (done || simpl; lia).
      rewrite merged_both, merged_tail; [|intros p Hp; rewrite <-E; by apply Hbl|done|done].
      rewrite E. by destruct e.
    + rewrite elem_of_cons, IH by (done || (by apply keys_sorted_cons) || simpl; lia).
      rewrite merged_base; [naive_solver|].
      intros e' [->|Hin]%elem_of_cons; [done|]. specialize (Hel _ Hin). key_order.
    + apply kcmp_gt in E.
      rewrite elem_of_app, elem_of_tail_row, IH by (done || (by apply keys_sorted_cons) || simpl; lia).
      rewrite merged_tail; [done| |done].
      intros p [->|Hin]%elem_of_cons; [key_order|]. specialize (Hbl _ Hin). key_order.
Qed.

Lemma merge_rows_sorted n bs es :
  keys_sorted bs → keys_sorted es → length bs + length es ≤ n → keys_sorted (merge_rows n bs es).
Proof.
  assert (∀ n (p : Row) bs es, keys_sorted bs → keys_sorted es → length bs + length es ≤ n →
    (∀ q, q ∈ bs → p.1 <ₖ q.1) → (∀ q, q ∈ es → p.1 <ₖ q.1) →
    ∀ q, q ∈ merge_rows n bs es → p.1 <ₖ q.1) as Hbelow.
  { intros n' p bs' es' Hb He Hn Hpb Hpe [k x] Hq. apply merge_rows_elem in Hq; [|done..].
    destruct Hq as [Hq|[Hq _]]; [apply (Hpe _ Hq)|apply (Hpb _ Hq)]. }
  revert bs es. induction n as [|n IH]; intros [|row bs] [|e es] Hb He Hn; simpl in Hn; try lia;
    cbn [merge_rows]; try (by constructor);
    pose proof Hb as Hb0; pose proof He as He0;
    try apply keys_sorted_cons in Hb as [Hb Hbl]; try apply keys_sorted_cons in He as [He Hel].
  - unfold tail_row. destruct e as [k [x|]]; cbn [fst snd app] in *; [|apply IH; simpl; done || lia].
    apply keys_sorted_cons. split; [apply IH; simpl; done || lia|].
    apply (Hbelow n); simpl; try done; try lia. intros ? []%elem_of_nil.
  - apply keys_sorted_cons. split; [apply IH; simpl; done || lia|].
    apply (Hbelow n); simpl; try done; try lia. intros ? []%elem_of_nil.
  - destruct (kcmp row.1 e.1) eqn:E.
    + apply kcmp_eq in E. unfold tail_row. cbn [fst snd].
      destruct e.2; cbn [app]; [|apply IH; done || lia].
      apply keys_sorted_cons. split; [apply IH; done || lia|].
      apply (Hbelow n); try done; try lia. cbn. by rewrite E.
    + apply keys_sorted_cons. split; [apply IH; simpl; done || lia|].
      apply (Hbelow n); simpl; try done; try lia.
      intros e' [->|Hin]%elem_of_cons; [done|]. specialize (Hel _ Hin). key_order.
    + apply kcmp_gt in E. unfold tail_row.
      destruct e as [k [x|]]; cbn [fst snd app] in *; [|apply IH; simpl; done || lia].
      apply keys_sorted_cons. split; [apply IH; simpl; done || lia|].
      apply (Hbelow n); simpl; try done; try lia.
      intros p [->|Hin]%elem_of_cons; [key_order|]. specialize (Hbl _ Hin). key_order.
Qed.

(** ** The reads of a view *)
Section reads.
Context {B C : Type} `{SnapshotBase B C}.
Implicit Types v : AuthorityBoundRangeView B.

Definition view_failed {A} (r : res RangeServingViewError A) : Prop :=
  r = Err (Base Adapter.Backend) ∧ ¬ base_reliable (B := B) (C := C).

(** The cursor and the row taken from it together have [bs] left. *)
Definition ahead (c : C) (next : option Row) (bs : list Row) : Prop :=
  match next with
  | None => bs = []
  | Some row => ∃ bs', bs = row :: bs' ∧ yields c bs'
  end.

Lemma cursor_step c bs :
  yields c bs →
  base_failed C (base_cursor_next c) ∨
  ∃ next c', ahead c' next bs ∧ base_cursor_next c = Ok (next, c').
Proof.
  destruct bs as [|row bs]; intros [?|Hy]; [by left| |by left|].
  - destruct Hy as [c' ->]. right. by exists None, c'.
  - destruct Hy as (c' & -> & Hy). right. exists (Some row), c'. split; [by exists bs|done].
Qed.

Lemma push_set_app rows e : push_set rows e = rows ++ tail_row e.
Proof. unfold push_set, tail_row. destruct e.2; [done|by rewrite app_nil_r]. Qed.

Lemma length_tail_row e : length (tail_row e) ≤ 1.
Proof. unfold tail_row. destruct e.2; simpl; lia. Qed.

Lemma merge_loop_spec n c next tail limit rows bs :
  ahead c next bs → length bs + length tail ≤ n → length rows ≤ limit →
  view_failed (merge_loop (S n) c next tail limit rows) ∨
  merge_loop (S n) c next tail limit rows = Ok (take limit (rows ++ merge_rows n bs tail)).
Proof.
  revert c next tail rows bs. induction n as [|n IH]; intros c next tail rows bs Ha Hn Hl.
  { destruct bs, tail; simpl in Hn; try lia. destruct next as [row|]; [by destruct Ha as (? & ? & _)|].
    right. cbn. rewrite app_nil_r, take_ge by done. by destruct (limit <=? length rows). }
  remember (S n) as n' eqn:Hn'. cbn [merge_loop]. subst n'.
  destruct (limit <=? length rows) eqn:Hfull.
  { right. apply Nat.leb_le in Hfull. rewrite take_app_le, take_ge by lia. done. }
  apply Nat.leb_gt in Hfull.
  assert (∀ c next tail e bs, ahead c next bs → length bs + length tail ≤ n →
    length e ≤ 1 →
    view_failed (merge_loop (S n) c next tail limit (rows ++ e)) ∨
    merge_loop (S n) c next tail limit (rows ++ e) =
      Ok (take limit (rows ++ (e ++ merge_rows n bs tail)))) as Hstep.
  { intros c0 next0 tail0 e bs0 Ha0 Hn0 He. rewrite app_assoc.
    apply IH; [done..|]. rewrite length_app. lia. }
  destruct next as [row|]; [destruct Ha as (bs' & -> & Hy)|cbn in Ha; subst bs]; simpl in Hn.
  - destruct tail as [|e rest]; cbn [merge_rows].
    { destruct (cursor_step c bs' Hy) as [[-> ?]|(next & c' & Ha & ->)]; [by left|].
      cbn [map_err res_bind].
      apply (Hstep _ _ _ [row] bs'); simpl in *; done || lia. }
    simpl in Hn. destruct (kcmp row.1 e.1) eqn:E.
    + destruct (cursor_step c bs' Hy) as [[-> ?]|(next & c' & Ha & ->)]; [by left|].
      cbn [map_err res_bind].
      rewrite push_set_app. apply Hstep; [done|lia|apply length_tail_row].
    + destruct (cursor_step c bs' Hy) as [[-> ?]|(next & c' & Ha & ->)]; [by left|].
      cbn [map_err res_bind].
      apply (Hstep _ _ _ [row] bs'); simpl in *; done || lia.
    + rewrite push_set_app. apply Hstep; [by exists bs'|simpl; lia|apply length_tail_row].
  - destruct tail as [|e rest]; cbn [merge_rows].
    + right. by rewrite app_nil_r, take_ge by lia.
    + rewrite push_set_app. simpl in Hn. apply Hstep; [done|simpl; lia|apply length_tail_row].
Qed.
(** A view over a base that serves [value] and over the records [T]. *)
Record view_ok v (latest : Version) (value : Version → bytes → option bytes) (T : list logged)
    : Prop := {
  vo_base : base_serves C (arv_base v) latest value;
  vo_latest : sequence latest = arr_covered_through (arv_root v);
  vo_minimum : (arr_minimum_readable_version (arv_root v) ≤ arr_covered_through (arv_root v))%N;
  vo_target : (arr_covered_through (arv_root v) ≤ arv_target_version v)%N;
  vo_tail : arv_tail v = logged_tail T;
  vo_sorted : logged_sorted T;
  vo_above r : r ∈ T → (arr_covered_through (arv_root v) < r.1 ≤ arv_target_version v)%N;
}.

Definition readable v (rv : N) : Prop :=
  (arr_minimum_readable_version (arv_root v) ≤ rv ≤ arv_target_version v)%N.

(** The value of a key at a version: below the frontier the base's, above it
    the tail's where it has one. *)
Definition view_value v (value : Version → bytes → option bytes) (T : list logged) (rv : N)
    (k : bytes) : option bytes :=
  default (value (view_base_version v rv) k) (tail_read (logged_tail T) k rv).

Lemma tail_read_low v latest value T k rv :
  view_ok v latest value T → (rv ≤ arr_covered_through (arv_root v))%N →
  tail_read (logged_tail T) k rv = None.
Proof.
  intros Hok Hle.
  destruct (tail_read (logged_tail T) k rv) as [y|] eqn:E; [|done]. exfalso.
  pose (junk := [0%N]).
  assert (∀ rows0 : gmap bytes bytes, rows0 !! k = default (rows0 !! k) (Some y)) as Hall.
  { intros rows0. rewrite <-E.
    destruct (logged_tail_read rows0 T rv (vo_sorted _ _ _ _ Hok)) as [_ Hr]. rewrite <-Hr.
    unfold logged_rows. assert (List.filter (λ r : logged, (r.1 <=? rv)%N) T = []) as ->; [|done].
    pose proof (vo_above _ _ _ _ Hok) as Habove. clear -Hle Habove.
    induction T as [|r T IH]; [done|]. cbn.
    assert (r ∈ r :: T) as Hin%Habove by constructor.
    rewrite (proj2 (N.leb_gt _ _)) by lia. apply IH. intros r' Hr'. apply Habove. by constructor. }
  destruct y as [x|].
  - specialize (Hall ∅). by rewrite lookup_empty in Hall.
  - specialize (Hall {[k := junk]}). by rewrite lookup_singleton_eq in Hall.
Qed.

Lemma view_readable_ok v rv : readable v rv → view_require_readable v rv = Ok tt.
Proof.
  intros [H1 H2]. unfold view_require_readable.
  by rewrite (proj2 (N.ltb_ge _ _) H1), (proj2 (N.ltb_ge _ _) H2).
Qed.

Lemma base_version_ok v latest value T rv :
  view_ok v latest value T → readable v rv →
  version_wf (view_base_version v rv) ∧ view_minimum v ≤ₖ view_base_version v rv ∧
  view_base_version v rv ≤ₖ latest.
Proof.
  intros [[[_ Hs] _ _ _] Hl Hm Ht _ _ _] [H1 H2]. unfold view_base_version, view_minimum, version_new.
  split_and!.
  - split; [done|]. unfold u64_wf in *. cbn in *. lia.
  - apply key_not_lt. unfold key_lt. cbn. intros Hc. rewrite N.compare_lt_iff in Hc. lia.
  - apply key_not_lt. unfold key_lt. destruct latest as [g s]; cbn in *.
    destruct g; cbn; [|done]. intros Hc. rewrite N.compare_lt_iff in Hc. lia.
Qed.

Lemma view_get_exact v latest value T k rv :
  view_ok v latest value T → readable v rv →
  view_failed (view_get_at v k rv) ∨ view_get_at v k rv = Ok (view_value v value T rv k).
Proof.
  intros Hok Hr. unfold view_get_at. rewrite view_readable_ok by done. cbn [res_bind].
  destruct (base_version_ok _ _ _ _ _ Hok Hr) as (Hwf & Hmin & Hlat).
  assert ((if (arr_covered_through (arv_root v) <? rv)%N then tail_value v k rv else Untouched) =
    match tail_read (logged_tail T) k rv with
    | None => Untouched | Some None => Cleared | Some (Some x) => TailSet x end) as ->.
  { destruct (_ <? _)%N eqn:E.
    - unfold tail_value. by rewrite (vo_tail _ _ _ _ Hok).
    - apply N.ltb_ge in E. by erewrite tail_read_low. }
  unfold view_value. destruct (tail_read (logged_tail T) k rv) as [[x|]|]; [by right..|].
  destruct (bs_get _ _ _ (vo_base _ _ _ _ Hok) k _ _ Hwf Hmin Hlat) as [[-> ?]| ->];
    [by left|by right].
Qed.
Lemma omap_values_sorted {V W} (f : V → option W) (l : list (bytes * V)) :
  keys_sorted l → keys_sorted (omap (λ e, pair e.1 <$> f e.2) l).
Proof.
  induction l as [|[k x] l IH]; [constructor|]. intros [Hs Hlt]%keys_sorted_cons. cbn.
  destruct (f x) as [y|]; cbn; [|by apply IH]. apply keys_sorted_cons. split; [by apply IH|].
  intros q ([k' x'] & Hin & Hq)%list_elem_of_omap. cbn in Hq.
  destruct (f x') as [y'|]; [|done]. injection Hq as <-. apply (Hlt _ Hin).
Qed.

Lemma elem_of_tail_entries v start end_ rv k y :
  (k, y) ∈ tail_entries v start end_ rv ↔
  start ≤ₖ k ∧ k <ₖ end_ ∧ tail_read (arv_tail v) k rv = Some y.
Proof.
  unfold tail_entries, tail_read. rewrite list_elem_of_omap. split.
  - intros ([k' versions] & [Hk Hf]%elem_of_bt_range & (y' & Hy & [= <- <-])%fmap_Some).
    cbn in Hy. apply andb_true_iff in Hf as [?%key_leb_spec ?%key_ltb_spec]. by rewrite Hk.
  - intros (H1 & H2 & (versions & Hk & Hy)%bind_Some). exists (k, versions). cbn.
    rewrite Hy. split; [|done]. apply elem_of_bt_range. split; [done|].
    apply andb_true_iff. split; key_order.
Qed.

(** Base rows and tail entries merge to the rows of the view. *)
Lemma merged_value v value T start end_ rv bs n :
  arv_tail v = logged_tail T →
  rows_at (value (view_base_version v rv)) start end_ bs →
  length bs + length (tail_entries v start end_ rv) ≤ n →
  rows_at (view_value v value T rv) start end_
    (merge_rows n bs (tail_entries v start end_ rv)).
Proof.
  intros Ht [Hbs Hb] Hn.
  assert (keys_sorted (tail_entries v start end_ rv)) as Hts.
  { unfold tail_entries. apply (omap_values_sorted (λ versions, newest_tail versions rv)),
      bt_range_sorted. }
  split; [by apply merge_rows_sorted|]. intros k x. rewrite merge_rows_elem by done.
  unfold merged, view_value. rewrite Hb, elem_of_tail_entries.
  setoid_rewrite elem_of_tail_entries. rewrite Ht.
  destruct (tail_read (logged_tail T) k rv) as [y|]; cbn [default]; naive_solver.
Qed.

Lemma view_scan_exact v latest value T start end_ rv limit :
  view_ok v latest value T → readable v rv → start <ₖ end_ →
  view_failed (view_scan_at v start end_ rv limit) ∨
  ∃ rows, first_rows (view_value v value T rv) start end_ limit rows ∧
    view_scan_at v start end_ rv limit = Ok rows.
Proof.
  intros Hok Hr Hse. unfold view_scan_at. rewrite (proj2 (key_leb_false end_ start)) by done.
  rewrite view_readable_ok by done. cbn [res_bind].
  destruct (limit =? 0) eqn:E.
  { apply Nat.eqb_eq in E as ->. right. exists []. split; [apply first_rows_zero|done]. }
  destruct (base_version_ok _ _ _ _ _ Hok Hr) as (Hwf & Hmin & Hlat).
  destruct (bs_scan _ _ _ (vo_base _ _ _ _ Hok) start end_ _ _ Hse Hwf Hmin Hlat)
    as [[-> ?]|(c & bs & -> & Hy & Hlen & Hrows)]; [by left|]. cbn [map_err res_bind].
  destruct (cursor_step c bs Hy) as [[-> ?]|(next & c' & Ha & ->)]; [by left|].
  cbn [map_err res_bind]. set (n := base_remaining c + _).
  destruct (merge_loop_spec n c' next (tail_entries v start end_ rv) limit [] bs)
    as [?| ->]; [done|unfold n; lia|simpl; lia|by left|].
  right. eexists. split; [|done]. apply rows_at_first.
  apply merged_value; [apply Hok|done|unfold n; lia].
Qed.
End reads.
