(* ===== verification/RangeViewRuns.v ===== *)
(** * Serving views over a cell

    What a view that opened without an error was built from, why the digest of
    the last record determines all of them, and that such a view answers with
    the rows of the cell. *)

From S2P Require Import Prelude Order BTree Bytes Version Mvcc SlateCodec SlateEngine.
From S2P Require Import SlateOps Quorum Envelope EnvelopeCodec CellTypes CellCert CellState Publication.
From S2P Require Import CellSerial CellDirect CellFeed RangeView RangeViewSpec.
From S2P Require Import Oracle SlateRuns CellDemo TLogDemo.

(** ** Opening *)
Section opening.
Context (sha256 : bytes → bytes) `{Ed25519} `{CellJson}.
Context (mutations_from_slice : bytes → option (list CellMutation)).
Context {B C : Type} `{SnapshotBase B C}.
Context (open_base : AuthorityManifestReference → res AdapterError B).

Definition record_logged (e : bytes) (t : logged) : Prop :=
  ∃ env, envelope_decode sha256 e = Ok env ∧ sequence (env_version env) = t.1 ∧
    mutations_from_slice (env_canonical_mutations env) = Some t.2.

(** Every envelope names the digest of the one before it. *)
Fixpoint linked (previous : bytes) (es : list bytes) : Prop :=
  match es with
  | [] => True
  | e :: es =>
      (∃ env, envelope_decode sha256 e = Ok env ∧ env_previous_log_chain env = previous) ∧
      linked (sha256 e) es
  end.

Abbreviation overlay := (overlay_record sha256 mutations_from_slice).
Abbreviation envelopes := (fmap (M := list) ctl_envelope).

Lemma overlay_record_Ok root target policies f ch tail record f' ch' tail' :
  overlay root target policies (f, ch, tail) record = Ok (f', ch', tail') →
  (f < f' ≤ target)%N ∧ linked ch [ctl_envelope record] ∧ ch' = sha256 (ctl_envelope record) ∧
  ∃ ms, record_logged (ctl_envelope record) (f', ms) ∧ tail' = foldl (tail_insert f') tail ms.
Proof.
  unfold overlay_record. intros (env & Hd & Hrest)%res_bind_Ok.
  destruct (envelope_decode sha256 _) as [env'| |] eqn:Hdec; try done.
  cbn [map_err] in Hd. injection Hd as ->.
  destruct (_ || _) eqn:E1 in Hrest; [done|]. destruct (_ || _) eqn:E2 in Hrest; [done|].
  destruct (negb _) eqn:E3 in Hrest; [done|]. apply negb_false_iff, bool_decide_eq_true in E3.
  apply res_bind_Ok in Hrest as ([] & _ & Hrest).
  destruct (mutations_from_slice _) as [ms|] eqn:Hm; [|done]. injection Hrest as <- <- <-.
  apply orb_false_iff in E1 as [?%N.leb_gt ?%N.ltb_ge].
  split; [lia|]. split; [split; [by exists env|done]|]. split; [done|].
  exists ms. split; [|done]. by exists env.
Qed.

Lemma overlay_fold root target policies records f ch tail f' ch' tail' :
  res_fold (overlay root target policies) records (f, ch, tail) = Ok (f', ch', tail') →
  ∃ T, Forall2 record_logged (envelopes records) T ∧
    tail' = foldl (λ tail r, foldl (tail_insert r.1) tail r.2) tail T ∧
    StronglySorted N.lt (f :: T.*1) ∧ Forall (λ r, (r.1 ≤ target)%N) T ∧
    linked ch (envelopes records) ∧ ch' = chain_end sha256 ch (envelopes records) ∧
    f' = List.last T.*1 f.
Proof.
  revert f ch tail. induction records as [|record records IH]; intros f ch tail; cbn [res_fold].
  { intros [= <- <- <-]. exists []. split_and!; try done; repeat constructor. }
  intros ([[f1 ch1] tail1] & (Hf & Hlink & -> & ms & Hlog & ->)%overlay_record_Ok & Hfold)%res_bind_Ok.
  destruct (IH _ _ _ Hfold) as (T & HT & -> & Hs & Ht & Hl & -> & ->).
  exists ((f1, ms) :: T). rewrite fmap_cons, chain_end_cons. split_and!; try done.
  - by constructor.
  - constructor; [done|]. rewrite fmap_cons. constructor; [cbn; lia|].
    apply StronglySorted_inv in Hs as [_ Hs]. eapply Forall_impl; [exact Hs|]. cbn. lia.
  - constructor; [cbn; lia|done].
  - split; [apply Hlink|done].
  - rewrite fmap_cons. cbn [fst]. destruct (T.*1) as [|x l] eqn:E; [done|].
    clear. change (List.last (x :: l) f1 = List.last (x :: l) f). revert x.
    induction l as [|y l IH]; intros x; [done|]. apply IH.
Qed.
(** What an opened view was built from. *)
Lemma open_inner_Ok root target records policies v latest value :
  (∀ b, open_base (arr_manifest root) = Ok b → base_serves C b latest value) →
  open_inner sha256 mutations_from_slice open_base root target records policies = Ok v →
  arv_root v = root ∧ arv_target_version v = target ∧
  ∃ T, view_ok v latest value T ∧ Forall2 record_logged (envelopes records) T ∧
    linked (arr_log_chain_sha256 root) (envelopes records) ∧
    arv_final_log_chain_sha256 v = chain_end sha256 (arr_log_chain_sha256 root) (envelopes records) ∧
    StronglySorted N.lt (arr_covered_through root :: T.*1) ∧
    target = List.last T.*1 (arr_covered_through root).
Proof.
  intros Hbase. unfold open_inner. intros ([] & Hroot & Hrest)%res_bind_Ok.
  apply res_bind_Ok in Hrest as (b & Hb & Hrest).
  destruct (open_base _) as [b'| |]; try done. injection Hb as ->.
  apply res_bind_Ok in Hrest as (seen & Hl & Hrest). specialize (Hbase b eq_refl).
  assert (seen = latest) as ->.
  { destruct (bs_latest _ _ _ Hbase) as [[Hf _]|Hf]; rewrite Hf in Hl; [done|]. by injection Hl as ->. }
  destruct (negb _) eqn:E in Hrest; [done|]. apply negb_false_iff, N.eqb_eq in E.
  apply res_bind_Ok in Hrest as ([[f ch] tail] & Hfold & Hrest).
  destruct (negb _) eqn:Et in Hrest; [done|]. apply negb_false_iff, N.eqb_eq in Et. subst f.
  injection Hrest as <-. cbn [arv_root arv_target_version arv_final_log_chain_sha256].
  apply overlay_fold in Hfold as (T & HT & -> & Hs & Ht & Hlink & -> & ->).
  split; [done|]. split; [done|]. exists T. split_and!; try done.
  unfold validate_root in Hroot.
  destruct (arr_generation root =? 0)%N; [done|].
  destruct (_ || _) eqn:Ez in Hroot; [done|]. apply orb_false_iff in Ez as [_ ?%N.ltb_ge].
  destruct (_ <? _)%N eqn:Elt in Hroot; [done|]. apply N.ltb_ge in Elt.
  split; cbn; try done.
  - apply StronglySorted_inv in Hs as [Hs _]. clear -Hs.
    induction T as [|r T IH]; [constructor|]. apply StronglySorted_inv in Hs as [Hs Hr].
    constructor; [by apply IH|]. by apply (Forall_fmap fst) in Hr.
  - intros r Hr. apply StronglySorted_inv in Hs as [_ Hs]. rewrite Forall_forall in Ht.
    apply (Forall_fmap fst) in Hs. rewrite Forall_forall in Hs. split; [by apply Hs|by apply Ht].
Qed.

Lemma open_inner_covered root target records policies v :
  open_inner sha256 mutations_from_slice open_base root target records policies = Ok v →
  arr_covered_through root ≠ 0%N.
Proof.
  unfold open_inner, validate_root. intros ([] & Hroot & _)%res_bind_Ok Hz.
  rewrite Hz in Hroot. by destruct (_ =? 0)%N.
Qed.

(** ** The digest of the last record determines the records *)
Definition digests_differ (es : list bytes) : Prop :=
  ∀ e e', e ∈ es → e' ∈ es → sha256 e = sha256 e' → e = e'.

Lemma linked_snoc previous es e :
  linked previous (es ++ [e]) ↔ linked previous es ∧
    ∃ env, envelope_decode sha256 e = Ok env ∧
      env_previous_log_chain env = chain_end sha256 previous es.
Proof.
  revert previous. induction es as [|e' es IH]; intros previous; cbn [app linked].
  - cbn. naive_solver.
  - rewrite IH, chain_end_cons. naive_solver.
Qed.

Lemma chain_end_snoc previous es e : chain_end sha256 previous (es ++ [e]) = sha256 e.
Proof. unfold chain_end. by rewrite last_snoc. Qed.

Lemma chains_agree e0 es1 es2 :
  digests_differ (e0 :: es1 ++ es2) → linked (sha256 e0) es1 → linked (sha256 e0) es2 →
  e0 ∉ es1 → e0 ∉ es2 → chain_end sha256 (sha256 e0) es1 = chain_end sha256 (sha256 e0) es2 →
  es1 = es2.
Proof.
  revert es2. induction es1 as [|e1 es1 IH] using rev_ind; intros es2 Hd Hl1 Hl2 Hn1 Hn2 Hend;
    destruct es2 as [|e2 es2 _] using rev_ind; [done|..].
  - rewrite chain_end_snoc in Hend. destruct Hn2. cbn in Hend.
    rewrite (Hd e0 e2); [set_solver..|done].
  - rewrite chain_end_snoc in Hend. destruct Hn1. cbn in Hend.
    rewrite (Hd e0 e1); [set_solver..|done].
  - rewrite !chain_end_snoc in Hend.
    assert (e1 = e2) as -> by (apply Hd; [set_solver..|done]).
    apply linked_snoc in Hl1 as [Hl1 (env & Henv & Hp1)], Hl2 as [Hl2 (env' & Henv' & Hp2)].
    rewrite Henv in Henv'. injection Henv' as <-. f_equal.
    apply IH; [|done|done|set_solver..|congruence].
    intros e e' He He'. apply Hd; set_solver.
Qed.

(** A record behind the frontier is none of the records above it. *)
Lemma record_not_covered e0 es (T : list logged) env covered :
  envelope_decode sha256 e0 = Ok env → (sequence (env_version env) ≤ covered)%N →
  Forall2 record_logged es T → Forall (λ r, (covered < r.1)%N) T → e0 ∉ es.
Proof.
  intros Hd Hle HT Hs Hin.
  apply list_elem_of_lookup in Hin as [i Hi].
  destruct (Forall2_lookup_l _ _ _ _ _ HT Hi) as (t & Ht & env' & Hd' & Hseq & _).
  rewrite Hd in Hd'. injection Hd' as <-.
  pose proof (Forall_lookup_1 _ _ _ _ Hs Ht) as Hlt. cbn in Hlt. lia.
Qed.

Lemma record_logged_functional es T1 T2 :
  Forall2 record_logged es T1 → Forall2 record_logged es T2 → T1 = T2.
Proof.
  intros HT1. revert T2. induction HT1 as [|e [s ms] es T (env & Hd & Hs & Hm) HT IH];
    intros T2 HT2'; inversion HT2' as [|? [s2 ms2] ? T2' (env2 & Hd2 & Hs2 & Hm2) HT2]; simplify_eq; [done|].
  f_equal; [|by apply IH]. rewrite Hd in Hd2. injection Hd2 as <-. cbn in *. congruence.
Qed.
End opening.

(** ** The token of a view determines its answers *)
Section token.
Context (sha256 : bytes → bytes) `{Ed25519} `{CellJson}.
Context (mutations_from_slice : bytes → option (list CellMutation)).
Context {B C : Type} `{SnapshotBase B C}.
Context (open_base : AuthorityManifestReference → res AdapterError B).

(** Two views with the same token, over a root whose digest is that of an
    envelope it covers, have the same tail, unless two of the envelopes involved
    have the same digest: exchanging one for the other changes no answer. *)
Theorem token_determines_view root e0 env target1 target2 records1 records2 policies1 policies2
    v1 v2 latest value :
  arr_log_chain_sha256 root = sha256 e0 → envelope_decode sha256 e0 = Ok env →
  (sequence (env_version env) ≤ arr_covered_through root)%N →
  digests_differ sha256 (e0 :: (ctl_envelope <$> records1) ++ (ctl_envelope <$> records2)) →
  (∀ b, open_base (arr_manifest root) = Ok b → base_serves C b latest value) →
  open_inner sha256 mutations_from_slice open_base root target1 records1 policies1 = Ok v1 →
  open_inner sha256 mutations_from_slice open_base root target2 records2 policies2 = Ok v2 →
  publication_token v1 = publication_token v2 → arv_tail v1 = arv_tail v2.
Proof.
  intros Hchain He0 Hle Hdiff Hbase Hopen1 Hopen2 [= _ _ Hfinal].
  destruct (open_inner_Ok _ _ _ _ _ _ _ _ _ _ Hbase Hopen1)
    as (_ & _ & T1 & Hok1 & HT1 & Hlink1 & Hfin1 & [_ Hs1]%StronglySorted_inv & _).
  destruct (open_inner_Ok _ _ _ _ _ _ _ _ _ _ Hbase Hopen2)
    as (_ & _ & T2 & Hok2 & HT2 & Hlink2 & Hfin2 & [_ Hs2]%StronglySorted_inv & _).
  rewrite Hfin1, Hfin2, Hchain in Hfinal. rewrite Hchain in Hlink1, Hlink2.
  apply (Forall_fmap fst) in Hs1, Hs2.
  assert (ctl_envelope <$> records1 = ctl_envelope <$> records2) as Heq.
  { eapply chains_agree; try done; by eapply record_not_covered. }
  rewrite <-Heq in HT2. rewrite (record_logged_functional _ _ _ _ _ HT1 HT2) in Hok1.
  by rewrite (vo_tail _ _ _ _ Hok1), (vo_tail _ _ _ _ Hok2).
Qed.
End token.

(** ** A view over a cell *)
Section cell.
Context (sha256 : bytes → bytes) (sha256_len : digest_len sha256).
Context `{Ed25519} `{CellJson}.
Context (mutations_from_slice : bytes → option (list CellMutation)).
Context {B C : Type} `{SnapshotBase B C}.
Context (open_base : AuthorityManifestReference → res AdapterError B).
(** JSON reads back the mutations it wrote. *)
Hypothesis mutations_codec : ∀ ms b, to_vec ms = Some b → mutations_from_slice b = Some ms.

Definition logged_commit (c : commit) : logged := (c.1, ct_mutations c.2).

Lemma chained_linked previous h es :
  length previous = 32 → Forall commit_wf h → chained sha256 previous h es →
  linked sha256 previous es ∧
  Forall2 (record_logged sha256 mutations_from_slice) es (logged_commit <$> h).
Proof.
  revert previous es. induction h as [|[i c] h IH]; intros previous [|e es] Hp Hwf Hc; try done.
  apply Forall_cons in Hwf as [(Hw & Hi & Hi0) Hwf]. destruct Hc as [He Hc].
  destruct (IH (sha256 e) es) as [Hl HT]; [apply sha256_len|done..|].
  destruct (commit_envelope_decodes sha256 sha256_len c i i REQUIRED_LOG_TAGS previous e Hw)
    as (env & Hd & Hv & _ & _ & _ & Hm & _ & Hprev); try done.
  { split_and!; [done..|]. repeat constructor; by vm_compute. }
  split; [split; [by exists env|done]|]. constructor; [|done].
  exists env. rewrite Hv. split_and!; [done..|]. by apply mutations_codec.
Qed.

Lemma logged_rows_replay rows rv h :
  logged_rows rows rv (logged_commit <$> h) = replay rows (upto rv h).
Proof.
  unfold logged_rows, replay, upto. revert rows. induction h as [|[i c] h IH]; intros rows; [done|].
  cbn. destruct (i <=? rv)%N; [apply IH|apply IH].
Qed.

Lemma upto_low rv h : (∀ c, c ∈ h → (c.1 ≤ rv)%N) → upto rv h = h.
Proof.
  intros Hle. unfold upto. induction h as [|c h IH]; [done|]. cbn.
  rewrite (proj2 (N.leb_le _ _)) by (apply Hle; constructor). f_equal. apply IH.
  intros c' Hc'. apply Hle. by constructor.
Qed.

Lemma upto_app rv h1 h2 : upto rv (h1 ++ h2) = upto rv h1 ++ upto rv h2.
Proof. apply List.filter_app. Qed.
Lemma chained_functional previous h es es' :
  chained sha256 previous h es → chained sha256 previous h es' → es = es'.
Proof.
  revert previous es es'. induction h as [|[i c] h IH]; intros previous [|e es] [|e' es'] Hc Hc';
    try done. destruct Hc as [He Hc], Hc' as [He' Hc']. rewrite He in He'. injection He' as <-.
  f_equal. by eapply IH.
Qed.

(** The envelopes of the second of two runs continue those of the first. *)
Lemma runs_envelopes d1 h1 d h2 :
  direct_inv sha256 d1 h1 → direct_inv sha256 d (h1 ++ h2) →
  ∃ es2, cd_committed_envelopes d = cd_committed_envelopes d1 ++ es2 ∧
    chained sha256 (cd_previous_log_chain d1) h2 es2 ∧
    cd_previous_log_chain d = chain_end sha256 (cd_previous_log_chain d1) es2.
Proof.
  intros Hinv1 Hinv. destruct Hinv1 as [_ _ _ _ Hc1 Hp1 _ _], Hinv as [_ _ _ _ Hc Hp _ _].
  apply chained_app in Hc as (es1 & es2 & Hes & Hc1' & Hc2).
  rewrite (chained_functional _ _ _ _ Hc1' Hc1) in *. exists es2.
  rewrite Hp1, Hp, Hes, chain_end_app. by rewrite <-Hp1 in Hc2 |- *.
Qed.

(** The records of a view that ends at the digest the cell ends at are the
    cell's. *)
Lemma records_are_cells d1 h1 h2 es2 covered es T :
  direct_inv sha256 d1 h1 → Forall commit_wf (h1 ++ h2) →
  chained sha256 (cd_previous_log_chain d1) h2 es2 →
  covered = cd_latest_sequence d1 → covered ≠ 0%N → (∀ c, c ∈ h2 → (covered < c.1)%N) →
  linked sha256 (cd_previous_log_chain d1) es →
  Forall2 (record_logged sha256 mutations_from_slice) es T →
  Forall (λ r, (covered < r.1)%N) T →
  digests_differ sha256 ((cd_committed_envelopes d1 ++ es2) ++ es) →
  chain_end sha256 (cd_previous_log_chain d1) es = chain_end sha256 (cd_previous_log_chain d1) es2 →
  es = es2 ∧ T = logged_commit <$> h2.
Proof.
  intros [_ Hs1 Hl1 _ Hc1 Hp1 _ _] Hwf Hc2 -> Hne Habove Hlink HT HsT Hdiff Hend.
  apply Forall_app in Hwf as [Hwf1 Hwf2].
  pose proof (chained_last _ _ _ _ Hc1) as Hlast. rewrite Hl1 in Hne.
  destruct (last h1) as [[i c]|] eqn:El1; [|done].
  destruct (last (cd_committed_envelopes d1)) as [e0|] eqn:Ee; [|done].
  assert (cd_previous_log_chain d1 = sha256 e0) as Hp by (rewrite Hp1; unfold chain_end; by rewrite Ee).
  destruct (chained_decodes sha256 sha256_len ZERO32 h1 _ i c e0 eq_refl Hwf1 Hc1 Hlast)
    as (env & Hd & Hi & _).
  assert (length (cd_previous_log_chain d1) = 32) as Hp32 by (rewrite Hp; apply sha256_len).
  destruct (chained_linked _ _ _ Hp32 Hwf2 Hc2) as [Hlink2 HT2].
  assert (es = es2) as ->; [|split; [done|by eapply record_logged_functional]].
  assert (e0 ∈ cd_committed_envelopes d1) as He0 by by apply last_Some_elem_of.
  rewrite Hp in Hlink, Hlink2, Hend.
  assert ((sequence (env_version env) ≤ cd_latest_sequence d1)%N) as Hle by by rewrite Hl1, Hi.
  eapply chains_agree; try done.
  - intros e e' He He'. apply Hdiff; set_solver.
  - by eapply record_not_covered.
  - eapply record_not_covered; [done..|]. apply Forall_fmap, Forall_forall. exact Habove.
Qed.
Lemma upto_high rv h : (∀ c, c ∈ h → (rv < c.1)%N) → upto rv h = [].
Proof.
  intros Hlt. unfold upto. induction h as [|c h IH]; [done|]. cbn.
  rewrite (proj2 (N.leb_gt _ _)) by (apply Hlt; constructor). apply IH.
  intros c' Hc'. apply Hlt. by constructor.
Qed.

(** The base holds the cell's rows from [minimum] to [covered]. *)
Definition base_holds (value : Version → bytes → option bytes) (h : list commit)
    (minimum covered : N) : Prop :=
  ∀ rv k, (minimum ≤ rv ≤ covered)%N → value (version_new rv) k = replay ∅ (upto rv h) !! k.

Lemma view_value_cell v latest value h1 h2 rv k :
  view_ok (C := C) v latest value (logged_commit <$> h2) → readable v rv →
  base_holds value h1 (arr_minimum_readable_version (arv_root v)) (arr_covered_through (arv_root v)) →
  (∀ c, c ∈ h1 → (c.1 ≤ arr_covered_through (arv_root v))%N) →
  view_value v value (logged_commit <$> h2) rv k = replay ∅ (upto rv (h1 ++ h2)) !! k.
Proof.
  intros Hok [Hmin Hmax] Hbase Hh1. rewrite upto_app, replay_app.
  unfold view_value, view_base_version.
  destruct (decide (rv ≤ arr_covered_through (arv_root v))%N) as [Hle|Hgt%N.nle_gt].
  - erewrite tail_read_low by done. rewrite N.min_l by done. cbn [default].
    rewrite Hbase by done. rewrite (upto_high rv h2); [done|]. intros c Hc.
    assert (logged_commit c ∈ logged_commit <$> h2) as [Hlt _]%(vo_above _ _ _ _ Hok)
      by by apply list_elem_of_fmap_2. cbn in Hlt. lia.
  - pose proof (vo_minimum _ _ _ _ Hok) as Hm. rewrite N.min_r, Hbase by lia.
    rewrite !(upto_low _ h1) by (intros c Hc%Hh1; lia). rewrite <-logged_rows_replay.
    by destruct (logged_tail_read (replay ∅ h1) (logged_commit <$> h2) rv (vo_sorted _ _ _ _ Hok))
      as [_ ->].
Qed.

(** Every read of the view between two versions is one of [H]. *)
Definition view_answers (v : AuthorityBoundRangeView B) (H : N → bytes → option bytes) : Prop :=
  ∀ rv, readable v rv →
    (∀ k, view_failed (C := C) (view_get_at v k rv) ∨ view_get_at v k rv = Ok (H rv k)) ∧
    (∀ start end_ limit, start <ₖ end_ →
       view_failed (C := C) (view_scan_at v start end_ rv limit) ∨
       ∃ out, first_rows (H rv) start end_ limit out ∧
         view_scan_at v start end_ rv limit = Ok out).

(** The rows of a history at a version. *)
Definition cell_rows (h : list commit) (rv : N) (k : bytes) : option bytes :=
  replay ∅ (upto rv h) !! k.

Lemma view_ok_answers v latest value h1 h2 :
  view_ok (C := C) v latest value (logged_commit <$> h2) →
  base_holds value h1 (arr_minimum_readable_version (arv_root v)) (arr_covered_through (arv_root v)) →
  (∀ c, c ∈ h1 → (c.1 ≤ arr_covered_through (arv_root v))%N) →
  view_answers v (cell_rows (h1 ++ h2)).
Proof.
  intros Hok Hbase Hh1 rv Hread.
  assert (∀ k, view_value v value (logged_commit <$> h2) rv k = cell_rows (h1 ++ h2) rv k) as Hrows
    by (intros k; by eapply view_value_cell).
  split.
  - intros k. rewrite <-Hrows. by eapply view_get_exact.
  - intros start end_ limit Hse.
    destruct (view_scan_exact _ _ _ _ start end_ rv limit Hok Hread Hse) as [?|(out & Hout & ->)];
      [by left|]. right. exists out. split; [|done]. by eapply first_rows_ext.
Qed.

Lemma cell_view_answers cell tenant g ops1 ops2 d1 h1 d h root records policies v latest value :
  StronglySorted N.lt (0%N :: (ops1 ++ ops2).*2) → Forall op_wf (ops1 ++ ops2) →
  direct_run sha256 ops1 (CellDomainState_new cell tenant g) [] = Ok (d1, h1) →
  direct_run sha256 ops2 d1 h1 = Ok (d, h) →
  arr_covered_through root = cd_latest_sequence d1 →
  arr_log_chain_sha256 root = cd_previous_log_chain d1 →
  (∀ b, open_base (arr_manifest root) = Ok b → base_serves C b latest value) →
  base_holds value h1 (arr_minimum_readable_version root) (arr_covered_through root) →
  open_inner sha256 mutations_from_slice open_base root (cd_latest_sequence d) records policies
    = Ok v →
  arv_final_log_chain_sha256 v = cd_previous_log_chain d →
  digests_differ sha256 (cd_committed_envelopes d ++ (ctl_envelope <$> records)) →
  cd_committed_envelopes d = cd_committed_envelopes d1 ++ (ctl_envelope <$> records) ∧
  view_answers v (cell_rows h).
Proof.
  intros Hs Hops Hrun1 Hrun2 Hcov Hchain Hbase Hvalue Hopen Hfinal Hdiff.
  destruct (direct_runs_inv sha256 _ _ _ _ _ _ _ _ _ Hs Hrun1 Hrun2) as (Hinv1 & Hinv & h2 & -> & Hh2).
  destruct (runs_envelopes _ _ _ _ Hinv1 Hinv) as (es2 & Hes & Hc2 & Hend).
  assert (Forall commit_wf (h1 ++ h2)) as Hwf.
  { eapply run_commits_wf; [exact Hs|exact Hops|]. by rewrite direct_run_app, Hrun1. }
  assert (arr_covered_through root ≠ 0%N) as Hne by by eapply open_inner_covered.
  destruct (open_inner_Ok _ _ _ _ _ _ _ _ _ _ Hbase Hopen)
    as (Hroot & Htarget & T & Hok & HT & Hlink & Hfin & HsT & _).
  rewrite Hchain in Hlink, Hfin. apply StronglySorted_inv in HsT as [_ HsT].
  apply (Forall_fmap fst) in HsT. rewrite Hes in Hdiff |- *.
  destruct (records_are_cells d1 h1 h2 es2 (arr_covered_through root) (ctl_envelope <$> records) T)
    as [-> ->]; try done.
  { intros c Hc. rewrite Hcov. by apply Hh2. }
  { by rewrite <-Hfin, Hfinal, Hend. }
  split; [done|]. eapply view_ok_answers; rewrite ?Hroot; try done. intros c Hc. rewrite Hcov.
  rewrite (di_latest _ _ _ Hinv1). apply sorted_last_le; [apply Hinv1|done].
Qed.

(** C12. A serving view answers with the rows of its cell. A cell runs on the direct
    commit path, and later runs on. A view opens over a base that holds the rows of the cell up to
    the first state, from the root that names this state's sequence and log
    digest, with any certified records up to the sequence of the second state.
    If the view's final digest is the cell's and no two of the envelopes involved
    have the same digest, the records are the cell's own, and at every version
    from the root's minimum to the sequence of the second state a read of a key
    returns its value in the cell's rows at that version, and a scan returns the
    first [limit] rows of the range; the only other answer is a storage error of
    an unreliable store. *)
Theorem serving_view_exact cell tenant g ops1 ops2 d1 h1 d h root records policies v latest value :
  StronglySorted N.lt (0%N :: (ops1 ++ ops2).*2) → Forall op_wf (ops1 ++ ops2) →
  direct_run sha256 ops1 (CellDomainState_new cell tenant g) [] = Ok (d1, h1) →
  direct_run sha256 ops2 d1 h1 = Ok (d, h) →
  arr_covered_through root = cd_latest_sequence d1 →
  arr_log_chain_sha256 root = cd_previous_log_chain d1 →
  (∀ b, open_base (arr_manifest root) = Ok b → base_serves C b latest value) →
  base_holds value h1 (arr_minimum_readable_version root) (arr_covered_through root) →
  open_inner sha256 mutations_from_slice open_base root (cd_latest_sequence d) records policies
    = Ok v →
  arv_final_log_chain_sha256 v = cd_previous_log_chain d →
  digests_differ sha256 (cd_committed_envelopes d ++ (ctl_envelope <$> records)) →
  cd_committed_envelopes d = cd_committed_envelopes d1 ++ (ctl_envelope <$> records) ∧
  ∀ rv, (arr_minimum_readable_version root ≤ rv ≤ cd_latest_sequence d)%N →
    (∀ k, view_failed (C := C) (view_get_at v k rv) ∨ view_get_at v k rv = Ok (cell_rows h rv k)) ∧
    (∀ start end_ limit, start <ₖ end_ →
       view_failed (C := C) (view_scan_at v start end_ rv limit) ∨
       ∃ out, first_rows (cell_rows h rv) start end_ limit out ∧
         view_scan_at v start end_ rv limit = Ok out).
Proof.
  intros Hs Hops Hrun1 Hrun2 Hcov Hchain Hbase Hvalue Hopen Hfinal Hdiff.
  destruct (cell_view_answers cell tenant g ops1 ops2 d1 h1 d h root records policies v latest value)
    as [Henv Hv]; try done.
  split; [done|]. intros rv Hrv. apply Hv.
  destruct (open_inner_Ok _ _ _ _ _ _ _ _ _ _ Hbase Hopen) as (Hroot & Htarget & _).
  unfold readable. by rewrite Hroot, Htarget.
Qed.
End cell.

(** ** A concrete view *)

(** A decidable form of [digests_differ]. *)
Definition digests_differ_b (sha256 : bytes → bytes) (es : list bytes) : bool :=
  forallb (λ e, forallb (λ e', negb (bool_decide (sha256 e = sha256 e')) || bool_decide (e = e')) es) es.

Lemma digests_differ_spec sha256 es : digests_differ_b sha256 es = true → digests_differ sha256 es.
Proof.
  unfold digests_differ_b. rewrite forallb_Forall, Forall_forall. intros Hall e e' He He' Heq.
  specialize (Hall e He). cbn in Hall. rewrite forallb_Forall, Forall_forall in Hall.
  specialize (Hall e' He'). cbn in Hall. rewrite (bool_decide_true _ Heq) in Hall.
  by apply bool_decide_eq_true in Hall.
Qed.

Module demo_view.
Import demo_cell.

(** A digest that depends on every byte. *)
Definition weighted (b : bytes) : N :=
  foldl (λ acc x, (acc * 31 + x + 1) mod 18446744073709551616)%N 7%N b.
Definition sha (b : bytes) : bytes := u64_be (weighted b) ++ replicate 24 0%N.
Lemma sha_len : digest_len sha.
Proof. intros b. unfold sha. by rewrite length_app, length_u64_be. Qed.

#[export] Instance mutation_countable : Countable CellMutation :=
  inj_countable' (λ m, match m with CClear k => inl k | CSet k x => inr (k, x) end)
    (λ s, match s with inl k => CClear k | inr (k, x) => CSet k x end) ltac:(by intros []).
#[export] Instance view_json : CellJson :=
  {| json_ranges := λ _, Some []; json_mutations := demo_tlog.write;
     json_transaction := λ t, Some [rid_request_id (ct_identity t)];
     json_partitions := λ _, Some []; json_decision := λ _, Some []; json_log := @json_log demo_tlog.demo_cell_json;
     json_fence := λ _, Some []; json_prefix := λ _, Some []; json_window := λ _, Some [];
     json_capacity := λ _, Some []; json_repair := λ _, Some []; json_policy_stage := λ _, Some [];
     json_transition := λ _, Some []; json_repair_certificate := λ _, Some [];
     json_stage_certificate := λ _, Some [] |}.
Definition mutations_from_slice : bytes → option (list CellMutation) := demo_tlog.read.
Lemma mutations_codec (ms : list CellMutation) b :
  to_vec ms = Some b → mutations_from_slice b = Some ms.
Proof. apply demo_tlog.read_write. Qed.

(** The cell commits one transaction, then another. *)
Definition ops1 : list (CellTransactionCommand * N) := [(txn 1 0 [] key_a 1, 5%N)].
Definition ops2 : list (CellTransactionCommand * N) := [(txn 2 5 [key_a] key_b 2, 8%N)].
Definition first := ok_or (fresh, []) (direct_run sha ops1 fresh []).
Definition second := ok_or (fresh, []) (direct_run sha ops2 first.1 first.2).

(** The base holds the first commit. *)
Definition batch : CommitBatch := demo.batch 5 [MSet key_a [1%N]].
Definition model : Model := next_model demo_history.sha Model_default batch.
Definition base : gmap bytes bytes := (slate_apply demo_history.sha (∅ : gmap bytes bytes) batch).1.
Definition open_base (manifest : AuthorityManifestReference)
    : res AdapterError (gmap bytes bytes) := Ok base.
Abbreviation cursor := (AuthorityBoundSlateScan (I := list (bytes * bytes))).

Lemma base_represents : represents demo_history.sha (λ b, b = batch) base model.
Proof.
  assert (applies demo_history.sha (λ b, b = batch) (∅ : gmap bytes bytes) Model_default batch base
    (slate_apply demo_history.sha (∅ : gmap bytes bytes) batch).2) as [[_ H]|[Hr _]].
  - eapply slate_apply_spec.
    + intros b ->. apply (batches_checked [batch]); [vm_compute; reflexivity|constructor].
    + apply (separated_collision_free _ [batch]); [by intros b ->; constructor|].
      vm_compute; reflexivity.
    + apply map_store_laws.
    + apply represents_empty.
    + by split; vm_compute.
    + done.
    + unfold base. by destruct (slate_apply _ _ _).
  - exact H.
  - by destruct Hr; apply map_store_reliable.
Qed.

Lemma model_value : base_holds (λ v k, visible model k v) first.2 5 5.
Proof.
  intros rv k Hrv. assert (rv = 5%N) as -> by lia.
  assert (keys model = {[key_a := [(version_new 5, Some [1%N])]]}) as Hkeys by (by vm_compute).
  assert (replay ∅ (upto 5 first.2) = {[key_a := [1%N]]}) as -> by (by vm_compute).
  assert (range_clears model = []) as Hclears by (by vm_compute).
  unfold visible, find_point, find_clear. rewrite Hkeys, Hclears. clear.
  destruct (decide (k = key_a)) as [->|Hne]; [by vm_compute|].
  by rewrite !lookup_singleton_ne.
Qed.

(** The record of the second commit, certified by two nodes of each log set. *)
Definition envelope : bytes := List.last (cd_committed_envelopes second.1) [].
Definition certificate (log_set : N) : CellTaggedLogCertificate :=
  let statement :=
    {| tls_format_version := 1; tls_cell_id := CELL; tls_tenant_id := TENANT;
       tls_generation := 1; tls_transaction_identity := ident 2; tls_commit_sequence := 8;
       tls_log_set_id := log_set; tls_policy_epoch := 1; tls_envelope_sha256 := sha envelope;
       tls_durable_position := 1 |} in
  {| tlc_statement := statement;
     tlc_attestations := (λ n, {| tla_signer_id := n;
       tla_signature := demo_tlog.node_key log_set n ++ default [] (log_signing_bytes statement) |})
       <$> [1; 2]%N |}.
Definition record : CertifiedTxLogRecord :=
  {| ctl_envelope := envelope; ctl_certificates := [certificate 10; certificate 20] |}.
Definition policies : gmap N CellLogSetPolicy :=
  list_to_map ((λ s, (s, demo_tlog.log_policy s)) <$> [10; 20]%N).
Definition root : AuthorityRangeRoot :=
  {| arr_cell_id := CELL; arr_tenant_id := TENANT; arr_generation := 1;
     arr_manifest := {| amr_key := "manifest"; amr_length := 1; amr_sha256 := "digest" |};
     arr_covered_through := 5; arr_minimum_readable_version := 5;
     arr_log_chain_sha256 := cd_previous_log_chain first.1 |}.
Definition opened : res RangeServingViewError (AuthorityBoundRangeView (gmap bytes bytes)) :=
  open_inner sha mutations_from_slice open_base root 8 [record] policies.

Definition unopened : AuthorityBoundRangeView (gmap bytes bytes) :=
  Build_AuthorityBoundRangeView _ (∅ : gmap bytes bytes) root 0%N (∅ : Tail) 0%N [].
Definition view : AuthorityBoundRangeView (gmap bytes bytes) := ok_or unopened opened.
Lemma opened_ok : opened = Ok view.
Proof. vm_compute. reflexivity. Qed.
Lemma final_chain : arv_final_log_chain_sha256 view = cd_previous_log_chain second.1.
Proof. vm_compute. reflexivity. Qed.
Lemma differ : digests_differ sha (cd_committed_envelopes second.1 ++ (ctl_envelope <$> [record])).
Proof. apply digests_differ_spec. vm_compute. reflexivity. Qed.
Lemma base_ok b :
  open_base (arr_manifest root) = Ok b → base_serves cursor b (latest model) (λ v k, visible model k v).
Proof. intros [= <-]. exact (slate_base_serves _ _ base model base_represents). Qed.
Lemma ops_sorted : StronglySorted N.lt (0%N :: (ops1 ++ ops2).*2).
Proof. repeat constructor. Qed.
Lemma ops_wf : Forall op_wf (ops1 ++ ops2).
Proof. repeat constructor; by vm_compute. Qed.
Lemma first_run : direct_run sha ops1 fresh [] = Ok (first.1, first.2).
Proof. vm_compute. reflexivity. Qed.
Lemma second_run : direct_run sha ops2 first.1 first.2 = Ok (second.1, second.2).
Proof. vm_compute. reflexivity. Qed.
Lemma covered : arr_covered_through root = cd_latest_sequence first.1.
Proof. vm_compute. reflexivity. Qed.
Lemma target : open_inner sha mutations_from_slice open_base root (cd_latest_sequence second.1)
  [record] policies = Ok view.
Proof. assert (cd_latest_sequence second.1 = 8%N) as -> by (by vm_compute). exact opened_ok. Qed.

Lemma view_exact : view_answers (C := cursor) view (cell_rows second.2).
Proof.
  exact (proj2 (cell_view_answers sha sha_len mutations_from_slice open_base mutations_codec
    CELL TENANT 1 ops1 ops2 first.1 first.2 second.1 second.2 root [record] policies view
    (latest model) (λ v k, visible model k v) ops_sorted ops_wf first_run second_run covered eq_refl
    base_ok model_value target final_chain differ)).
Qed.
End demo_view.
Import demo_cell demo_view.

Lemma serving_view_exact_witness :
  view_get_at view key_a 7 = Ok (cell_rows second.2 7 key_a) ∧
  ∃ out, first_rows (cell_rows second.2 8) [] [200%N] 3 out ∧
    view_scan_at view [] [200%N] 8 3 = Ok out.
Proof.
  destruct (serving_view_exact sha sha_len mutations_from_slice open_base mutations_codec
    CELL TENANT 1 ops1 ops2 first.1 first.2 second.1 second.2 root [record] policies view
    (latest model) (λ v k, visible model k v) ops_sorted ops_wf first_run second_run covered eq_refl
    base_ok model_value target final_chain differ) as [_ Hreads].
  destruct (Hreads 7%N) as [Hget _]; [split; vm_compute; discriminate|].
  destruct (Hreads 8%N) as [_ Hscan]; [split; vm_compute; discriminate|].
  split.
  - destruct (Hget key_a) as [[_ []]|Hg]; [exact map_store_reliable|exact Hg].
  - destruct (Hscan [] [200%N] 3) as [[_ []]|Hout]; [reflexivity|exact map_store_reliable|exact Hout].
Defined.
