(* ===== verification/RangeRead.v ===== *)
(** * Routed reads

    The read router of a KV runtime ([okv-object/src/range_read_service.rs]) and
    the client that routes, refreshes and fans out
    ([okv-object/src/range_read_client.rs]). The serving states are shared with
    the controllers that replace their views, so the router refers to them
    through a heap. Sockets are a parameter of the client. *)

From S2P Require Import Prelude Order BTree Bytes Version Mvcc SlateEngine.
From S2P Require Import RangeView.

Definition RANGE_READ_PROTOCOL_VERSION : N := 1.

(** ** Requests and replies *)
Record KvReadRouterConfig := {
  krc_cell_id : bytes;
  krc_max_in_flight : nat;
  krc_max_key_bytes : nat;
  krc_max_scan_rows : nat;
}.

Record RangeReadAssignment := {
  rra_tenant_id : bytes;
  rra_range_id : N;
  rra_routing_epoch : N;
  rra_start : bytes;
  rra_end : bytes;
}.

Inductive RangeReadOperation :=
  | Point (key : bytes)
  | Scan (start end_ : bytes) (limit : nat).

Record RoutedRangeReadRequest := {
  rrq_protocol_version : N;
  rrq_cell_id : bytes;
  rrq_tenant_id : bytes;
  rrq_expected_range_id : N;
  rrq_routing_epoch : N;
  rrq_read_version : N;
  rrq_operation : RangeReadOperation;
}.

Record RangeReadStamp := {
  rst_range_id : N;
  rst_routing_epoch : N;
  rst_transaction_generation : N;
  rst_base_frontier : N;
  rst_applied_frontier : N;
}.

Inductive RoutedRangeReadReply :=
  | PointReply (stamp : RangeReadStamp) (value : option bytes)
  | ScanReply (stamp : RangeReadStamp) (rows : list Row).

Inductive RoutedRangeReadError :=
  | UnsupportedProtocol (requested supported : N)
  | WrongCell
  | TenantNotAssigned
  | RangeNotAssigned
  | StaleRoute (expected_range_id current_range_id expected_epoch current_epoch : N)
  | KeyOutsideRange
  | ScanCrossesRange (split_at : bytes)
  | InvalidRange
  | KeyTooLarge (maximum : nat)
  | ScanLimitExceeded (maximum : nat)
  | ReadSnapshotExpired (requested minimum : N)
  | ReadSnapshotUnavailable (requested applied : N)
  | Overloaded
  | DeadlineExceeded
  | FrameTooLarge (maximum : nat)
  | MalformedRequest
  | StorageUnavailable.

(** ** The router *)
Section router.
Context {B C : Type} `{SnapshotBase B C}.

(** The address of a shared [RangeServingState]. *)
Record ServingRange := { sr_assignment : RangeReadAssignment; sr_state : N }.
Abbreviation heap := (gmap N (RangeServingState (B := B))).
Abbreviation TenantRanges := (gmap bytes ServingRange).

(** [krr_available] counts the free permits of the semaphore. *)
Record KvReadRouter := {
  krr_config : KvReadRouterConfig;
  krr_tenants : gmap bytes TenantRanges;
  krr_poisoned : bool;
  krr_available : nat;
}.

Definition router_new (config : KvReadRouterConfig) : res string KvReadRouter :=
  if (krc_max_in_flight config =? 0) || (krc_max_key_bytes config =? 0)
     || (krc_max_scan_rows config =? 0)
  then Err "KV read-router bounds must be positive"
  else Ok {| krr_config := config; krr_tenants := ∅; krr_poisoned := false;
             krr_available := krc_max_in_flight config |}.

(** [ranges.range(..=key).next_back()] and [ranges.range(key..).next()]. *)
Definition range_at_or_before (ranges : TenantRanges) (key : bytes) : option ServingRange :=
  snd <$> bt_range_last (λ start, start ≤ₖ? key) ranges.
Definition range_at_or_after (ranges : TenantRanges) (key : bytes) : option bytes :=
  fst <$> head (bt_range (λ start, key ≤ₖ? start) ranges).

Definition overlaps_predecessor (ranges : TenantRanges) (assignment : RangeReadAssignment) : bool :=
  match range_at_or_before ranges (rra_start assignment) with
  | Some preceding => rra_start assignment <ₖ? rra_end (sr_assignment preceding)
  | None => false
  end.
Definition overlaps_successor (ranges : TenantRanges) (assignment : RangeReadAssignment) : bool :=
  match range_at_or_after ranges (rra_start assignment) with
  | Some following_start => following_start <ₖ? rra_end assignment
  | None => false
  end.

(** The tenant's entry stays behind when the range is refused. *)
Definition assign (states : heap) (r : KvReadRouter) (assignment : RangeReadAssignment) (state : N)
    : KvReadRouter * res string unit :=
  if (rra_end assignment ≤ₖ? rra_start assignment) || (rra_routing_epoch assignment =? 0)%N
  then (r, Err "range assignment requires ordered bounds and a nonzero epoch")
  else
    match states !! state ≫= (λ s, match serving_current s with Ok v => Some v | _ => None end) with
    | None => (r, Err "serving root state is poisoned")
    | Some view =>
        if negb (bool_decide (arr_cell_id (arv_root view) = krc_cell_id (krr_config r)))
           || negb (bool_decide (arr_tenant_id (arv_root view) = rra_tenant_id assignment))
        then (r, Err "range assignment identity differs from its serving view")
        else if krr_poisoned r
        then (r, Err "KV read-router assignment state is poisoned")
        else
          let ranges : TenantRanges := krr_tenants r !!! rra_tenant_id assignment in
          let install ranges :=
            {| krr_config := krr_config r;
               krr_tenants := <[rra_tenant_id assignment := ranges]> (krr_tenants r);
               krr_poisoned := false; krr_available := krr_available r |} in
          let inserted :=
            install (<[rra_start assignment :=
                        {| sr_assignment := assignment; sr_state := state |}]> ranges) in
          if overlaps_predecessor ranges assignment
          then (install ranges, Err "range assignment overlaps its predecessor")
          else if overlaps_successor ranges assignment
          then (install ranges, Err "range assignment overlaps its successor")
          else if is_some (ranges !! rra_start assignment)
          then (inserted, Err "range assignment start is already present")
          else (inserted, Ok tt)
    end.

Definition lookup_range (r : KvReadRouter) (tenant_id key : bytes)
    : res RoutedRangeReadError ServingRange :=
  if krr_poisoned r then Err StorageUnavailable
  else
    match krr_tenants r !! tenant_id with
    | None => Err TenantNotAssigned
    | Some ranges =>
        match range_at_or_before ranges key with
        | None => Err RangeNotAssigned
        | Some serving =>
            if rra_end (sr_assignment serving) ≤ₖ? key then Err RangeNotAssigned else Ok serving
        end
    end.

Definition validate_operation (config : KvReadRouterConfig) (assignment : RangeReadAssignment)
    (operation : RangeReadOperation) : res RoutedRangeReadError unit :=
  match operation with
  | Point key =>
      if (key <ₖ? rra_start assignment) || (rra_end assignment ≤ₖ? key)
      then Err KeyOutsideRange else Ok tt
  | Scan start end_ limit =>
      if end_ ≤ₖ? start then Err InvalidRange
      else if (krc_max_key_bytes config <? length start)
              || (krc_max_key_bytes config <? length end_)
      then Err (KeyTooLarge (krc_max_key_bytes config))
      else if krc_max_scan_rows config <? limit
      then Err (ScanLimitExceeded (krc_max_scan_rows config))
      else if (start <ₖ? rra_start assignment) || (rra_end assignment ≤ₖ? start)
      then Err KeyOutsideRange
      else if rra_end assignment <ₖ? end_
      then Err (ScanCrossesRange (rra_end assignment))
      else Ok tt
  end.

Definition map_view_error (error : RangeServingViewError) : RoutedRangeReadError :=
  match error with
  | ViewSnapshotExpired requested minimum => ReadSnapshotExpired requested minimum
  | ViewSnapshotUnavailable requested applied => ReadSnapshotUnavailable requested applied
  | InvalidReadRange _ _ => InvalidRange
  | _ => StorageUnavailable
  end.

Definition route_key (operation : RangeReadOperation) : bytes :=
  match operation with Point key => key | Scan start _ _ => start end.

(** The permit is taken for the duration of the call. *)
Definition execute (states : heap) (r : KvReadRouter) (request : RoutedRangeReadRequest)
    : res RoutedRangeReadError RoutedRangeReadReply :=
  if krr_available r =? 0 then Err Overloaded
  else if negb (rrq_protocol_version request =? RANGE_READ_PROTOCOL_VERSION)%N
  then Err (UnsupportedProtocol (rrq_protocol_version request) RANGE_READ_PROTOCOL_VERSION)
  else if negb (bool_decide (rrq_cell_id request = krc_cell_id (krr_config r)))
  then Err WrongCell
  else if krc_max_key_bytes (krr_config r) <? length (route_key (rrq_operation request))
  then Err (KeyTooLarge (krc_max_key_bytes (krr_config r)))
  else
    let? serving := lookup_range r (rrq_tenant_id request) (route_key (rrq_operation request)) in
    let assignment := sr_assignment serving in
    if negb (rrq_expected_range_id request =? rra_range_id assignment)%N
       || negb (rrq_routing_epoch request =? rra_routing_epoch assignment)%N
    then Err (StaleRoute (rrq_expected_range_id request) (rra_range_id assignment)
                (rrq_routing_epoch request) (rra_routing_epoch assignment))
    else
      let? _ := validate_operation (krr_config r) assignment (rrq_operation request) in
      match states !! sr_state serving ≫=
            (λ s, match serving_current s with Ok v => Some v | _ => None end) with
      | None => Err StorageUnavailable
      | Some view =>
          let stamp :=
            {| rst_range_id := rra_range_id assignment;
               rst_routing_epoch := rra_routing_epoch assignment;
               rst_transaction_generation := arr_generation (arv_root view);
               rst_base_frontier := arr_covered_through (arv_root view);
               rst_applied_frontier := arv_target_version view |} in
          match rrq_operation request with
          | Point key =>
              res_map (PointReply stamp)
                (map_err map_view_error (view_get_at view key (rrq_read_version request)))
          | Scan start end_ limit =>
              res_map (ScanReply stamp)
                (map_err map_view_error
                   (view_scan_at view start end_ (rrq_read_version request) limit))
          end
      end.
End router.

(** ** The client *)
Record ClientRangeRoute := {
  crr_endpoint : string;
  crr_range_id : N;
  crr_routing_epoch : N;
  crr_start : bytes;
  crr_end : bytes;
}.

Record ClientRangeMapSnapshot := {
  crm_cell_id : bytes;
  crm_tenant_id : bytes;
  crm_map_version : N;
  crm_routes : list ClientRangeRoute;
}.

Inductive KvReadClientError :=
  | InvalidRangeMap (detail : string)
  | RouteNotFound (key : bytes) (map_version : N)
  | RouteRefreshFailed (detail : string)
  | RouteRefreshDidNotAdvance (current refreshed : N)
  | RouteRefreshLimit (maximum : nat)
  | InvalidScan
  | Transport (detail : string)
  | Server (error : RoutedRangeReadError)
  | ProtocolViolation (detail : string).

Inductive ScanAttemptError :=
  | AttemptRefresh
  | AttemptTransport (detail : string)
  | AttemptFatal (error : KvReadClientError).

(** The loop of [ClientRangeMapSnapshot::validate]. *)
Fixpoint validate_routes (prior_end : option bytes) (range_ids : gset N)
    (routes : list ClientRangeRoute) : res string unit :=
  match routes with
  | [] => Ok tt
  | route :: routes =>
      if bool_decide (crr_endpoint route = "")%string
      then Err "range-map endpoint must not be empty"
      else if (crr_routing_epoch route =? 0)%N || (crr_end route ≤ₖ? crr_start route)
      then Err "range-map route requires ordered bounds and a nonzero epoch"
      else if match prior_end with Some end_ => crr_start route <ₖ? end_ | None => false end
      then Err "range-map routes overlap or are out of order"
      else if bool_decide (crr_range_id route ∈ range_ids)
      then Err "range-map range identity is duplicated"
      else validate_routes (Some (crr_end route)) ({[crr_range_id route]} ∪ range_ids) routes
  end.

Definition validate_range_map (s : ClientRangeMapSnapshot) : res string unit :=
  if (crm_map_version s =? 0)%N then Err "range-map version must be nonzero"
  else match crm_routes s with
       | [] => Err "range-map snapshot must contain a route"
       | routes => validate_routes None ∅ routes
       end.

Definition route_of (s : ClientRangeMapSnapshot) (key : bytes) : option ClientRangeRoute :=
  rfind (λ route, (crr_start route ≤ₖ? key) && (key <ₖ? crr_end route)) (crm_routes s).

Definition validate_snapshot_identity (cell_id tenant_id : bytes) (s : ClientRangeMapSnapshot)
    : res KvReadClientError unit :=
  if negb (bool_decide (crm_cell_id s = cell_id)) || negb (bool_decide (crm_tenant_id s = tenant_id))
  then Err (InvalidRangeMap "range-map identity differs from the client session")
  else map_err InvalidRangeMap (validate_range_map s).

Definition route_retryable (error : RoutedRangeReadError) : bool :=
  match error with
  | StaleRoute _ _ _ _ | RangeNotAssigned | TenantNotAssigned | ScanCrossesRange _ => true
  | _ => false
  end.

Definition validate_stamp (route : ClientRangeRoute) (read_version : N) (stamp : RangeReadStamp)
    : res KvReadClientError unit :=
  if negb (rst_range_id stamp =? crr_range_id route)%N
     || negb (rst_routing_epoch stamp =? crr_routing_epoch route)%N
  then Err (ProtocolViolation "reply route identity differs from the selected route")
  else if (rst_applied_frontier stamp <? read_version)%N
  then Err (ProtocolViolation "reply applied frontier is below the requested version")
  else Ok tt.

(** The loop of [validate_rows]. *)
Fixpoint validate_order (start end_ : bytes) (prior : option bytes) (rows : list Row)
    : res KvReadClientError unit :=
  match rows with
  | [] => Ok tt
  | (key, _) :: rows =>
      if (key <ₖ? start) || (end_ ≤ₖ? key)
      then Err (ProtocolViolation "scan reply contains a key outside the routed subrange")
      else if match prior with Some prior => key ≤ₖ? prior | None => false end
      then Err (ProtocolViolation "scan reply is not strictly ordered")
      else validate_order start end_ (Some key) rows
  end.

Definition validate_rows (rows : list Row) (start end_ : bytes) (limit : nat)
    : res KvReadClientError unit :=
  if limit <? length rows
  then Err (ProtocolViolation "scan reply exceeds the requested row limit")
  else validate_order start end_ None rows.

(** What a call over the network comes back with. *)
Inductive Outcome :=
  | Replied (reply : RoutedRangeReadReply)
  | Refused (error : RoutedRangeReadError)
  | Unreachable (detail : string).

Record KvReadClient := {
  kcl_cell_id : bytes;
  kcl_tenant_id : bytes;
  kcl_max_route_refreshes : nat;
  kcl_routes : ClientRangeMapSnapshot;
  kcl_poisoned : bool;
}.

Definition client_new (cell_id tenant_id : bytes) (max_route_refreshes : nat)
    (initial : ClientRangeMapSnapshot) : res KvReadClientError KvReadClient :=
  if max_route_refreshes =? 0
  then Err (InvalidRangeMap "route refresh budget must be positive")
  else
    let? _ := validate_snapshot_identity cell_id tenant_id initial in
    Ok {| kcl_cell_id := cell_id; kcl_tenant_id := tenant_id;
          kcl_max_route_refreshes := max_route_refreshes; kcl_routes := initial;
          kcl_poisoned := false |}.

Definition current_snapshot (c : KvReadClient) : res KvReadClientError ClientRangeMapSnapshot :=
  if kcl_poisoned c then Err (InvalidRangeMap "cached range map is poisoned")
  else Ok (kcl_routes c).

Definition with_routes (c : KvReadClient) (s : ClientRangeMapSnapshot) : KvReadClient :=
  {| kcl_cell_id := kcl_cell_id c; kcl_tenant_id := kcl_tenant_id c;
     kcl_max_route_refreshes := kcl_max_route_refreshes c; kcl_routes := s;
     kcl_poisoned := kcl_poisoned c |}.

Section client.
(** The world outside the client. A call to a server or to the routing
    authority returns with an answer; meanwhile another task of the client may
    have cached another snapshot. *)
Context {W : Type}.
Context (request_range_read :
  W → string → RoutedRangeReadRequest → Outcome * option ClientRangeMapSnapshot * W).
Context (range_map_snapshot :
  W → bytes → bytes → (string + ClientRangeMapSnapshot) * option ClientRangeMapSnapshot * W).

Definition resumed (c : KvReadClient) (cached : option ClientRangeMapSnapshot) : KvReadClient :=
  match cached with Some s => with_routes c s | None => c end.

Definition point_request (c : KvReadClient) (route : ClientRangeRoute) (read_version : N)
    (key : bytes) : RoutedRangeReadRequest :=
  {| rrq_protocol_version := RANGE_READ_PROTOCOL_VERSION; rrq_cell_id := kcl_cell_id c;
     rrq_tenant_id := kcl_tenant_id c; rrq_expected_range_id := crr_range_id route;
     rrq_routing_epoch := crr_routing_epoch route; rrq_read_version := read_version;
     rrq_operation := Point key |}.
Definition scan_request (c : KvReadClient) (route : ClientRangeRoute) (read_version : N)
    (start end_ : bytes) (limit : nat) : RoutedRangeReadRequest :=
  {| rrq_protocol_version := RANGE_READ_PROTOCOL_VERSION; rrq_cell_id := kcl_cell_id c;
     rrq_tenant_id := kcl_tenant_id c; rrq_expected_range_id := crr_range_id route;
     rrq_routing_epoch := crr_routing_epoch route; rrq_read_version := read_version;
     rrq_operation := Scan start end_ limit |}.

Definition refresh_or_limit (w : W) (c : KvReadClient) (prior_version : N) (refreshes : nat)
    : W * KvReadClient * res KvReadClientError unit :=
  if refreshes =? kcl_max_route_refreshes c
  then (w, c, Err (RouteRefreshLimit (kcl_max_route_refreshes c)))
  else
    let '(answer, cached, w) := range_map_snapshot w (kcl_cell_id c) (kcl_tenant_id c) in
    let c := resumed c cached in
    match answer with
    | inl detail => (w, c, Err (RouteRefreshFailed detail))
    | inr refreshed =>
        match validate_snapshot_identity (kcl_cell_id c) (kcl_tenant_id c) refreshed with
        | Ok _ =>
            if (crm_map_version refreshed <=? prior_version)%N
            then (w, c, Err (RouteRefreshDidNotAdvance prior_version (crm_map_version refreshed)))
            else if kcl_poisoned c
            then (w, c, Err (InvalidRangeMap "cached range map is poisoned"))
            else if (crm_map_version (kcl_routes c) <? crm_map_version refreshed)%N
            then (w, with_routes c refreshed, Ok tt)
            else (w, c, Ok tt)
        | Err e => (w, c, Err e)
        | Panic => (w, c, Panic)
        end
    end.

(** The retry loop of both reads: [todo] attempts are left after this one. *)
Section retry.
Context {A : Type}.
Context (attempt : W → KvReadClient → ClientRangeMapSnapshot →
  W * KvReadClient * res ScanAttemptError A).

(** One turn of the loop; [None] is another turn. *)
Definition retry_step (refreshes : nat) (w : W) (c : KvReadClient)
    : W * KvReadClient * option (res KvReadClientError A) :=
  match current_snapshot c with
  | Err e => (w, c, Some (Err e))
  | Panic => (w, c, Some Panic)
  | Ok snapshot =>
      let '(w, c, r) := attempt w c snapshot in
      match r with
      | Ok x => (w, c, Some (Ok x))
      | Panic => (w, c, Some Panic)
      | Err (AttemptFatal e) => (w, c, Some (Err e))
      | Err AttemptRefresh =>
          let '(w, c, refreshed) := refresh_or_limit w c (crm_map_version snapshot) refreshes in
          (w, c, match refreshed with
                 | Ok _ => None
                 | Err e => Some (Err e)
                 | Panic => Some Panic
                 end)
      | Err (AttemptTransport detail) =>
          let '(w, c, refreshed) := refresh_or_limit w c (crm_map_version snapshot) refreshes in
          (w, c, match refreshed with
                 | Ok _ => if refreshes =? kcl_max_route_refreshes c
                           then Some (Err (Transport detail)) else None
                 | Err e => Some (Err e)
                 | Panic => Some Panic
                 end)
      end
  end.

Fixpoint retry_loop (todo : nat) (refreshes : nat) (w : W) (c : KvReadClient)
    : W * KvReadClient * res KvReadClientError A :=
  let '(w, c, r) := retry_step refreshes w c in
  match r, todo with
  | Some r, _ => (w, c, r)
  | None, O => (w, c, Err (RouteRefreshLimit (kcl_max_route_refreshes c)))
  | None, S todo => retry_loop todo (S refreshes) w c
  end.
End retry.

(** One turn of the loop of [point_at]. *)
Definition point_once (key : bytes) (read_version : N) (w : W) (c : KvReadClient)
    (snapshot : ClientRangeMapSnapshot) : W * KvReadClient * res ScanAttemptError (option bytes) :=
  match route_of snapshot key with
  | None => (w, c, Err (AttemptFatal (RouteNotFound key (crm_map_version snapshot))))
  | Some route =>
      let '(outcome, cached, w) :=
        request_range_read w (crr_endpoint route) (point_request c route read_version key) in
      let c := resumed c cached in
      match outcome with
      | Replied (PointReply stamp value) =>
          (w, c, map_err AttemptFatal
                   (res_map (λ _, value) (validate_stamp route read_version stamp)))
      | Replied (ScanReply _ _) =>
          (w, c, Err (AttemptFatal (ProtocolViolation "point request received a scan reply")))
      | Refused error =>
          (w, c, Err (if route_retryable error then AttemptRefresh
                      else AttemptFatal (Server error)))
      | Unreachable detail => (w, c, Err (AttemptTransport detail))
      end
  end.

Definition point_at (w : W) (c : KvReadClient) (key : bytes) (read_version : N)
    : W * KvReadClient * res KvReadClientError (option bytes) :=
  retry_loop (point_once key read_version) (kcl_max_route_refreshes c) 0 w c.

(** The loop of [scan_once]. Each turn ends one route, so one turn more than
    the snapshot has routes is enough fuel; running out of it is [Panic]. *)
Fixpoint scan_once_loop (fuel : nat) (snapshot : ClientRangeMapSnapshot) (end_ : bytes)
    (read_version : N) (limit : nat) (w : W) (c : KvReadClient) (cursor : bytes) (rows : list Row)
    : W * KvReadClient * res ScanAttemptError (list Row) :=
  match fuel with
  | O => (w, c, Panic)
  | S fuel =>
      if negb (cursor <ₖ? end_) || (limit <=? length rows) then (w, c, Ok rows)
      else
        match route_of snapshot cursor with
        | None => (w, c, Err (AttemptFatal (RouteNotFound cursor (crm_map_version snapshot))))
        | Some route =>
            let sub_end := if crr_end route <ₖ? end_ then crr_end route else end_ in
            let remaining := limit - length rows in
            let '(outcome, cached, w) :=
              request_range_read w (crr_endpoint route)
                (scan_request c route read_version cursor sub_end remaining) in
            let c := resumed c cached in
            match outcome with
            | Replied (ScanReply stamp part) =>
                match (let? _ := validate_stamp route read_version stamp in
                       validate_rows part cursor sub_end remaining) with
                | Ok _ =>
                    scan_once_loop fuel snapshot end_ read_version limit w c sub_end (rows ++ part)
                | Err e => (w, c, Err (AttemptFatal e))
                | Panic => (w, c, Panic)
                end
            | Replied (PointReply _ _) =>
                (w, c, Err (AttemptFatal (ProtocolViolation "scan request received a point reply")))
            | Refused error =>
                (w, c, Err (if route_retryable error then AttemptRefresh
                            else AttemptFatal (Server error)))
            | Unreachable detail => (w, c, Err (AttemptTransport detail))
            end
        end
  end.

Definition scan_once (start end_ : bytes) (read_version : N) (limit : nat) (w : W)
    (c : KvReadClient) (snapshot : ClientRangeMapSnapshot)
    : W * KvReadClient * res ScanAttemptError (list Row) :=
  scan_once_loop (S (length (crm_routes snapshot))) snapshot end_ read_version limit w c start [].

Definition client_scan_at (w : W) (c : KvReadClient) (start end_ : bytes) (read_version : N)
    (limit : nat) : W * KvReadClient * res KvReadClientError (list Row) :=
  if end_ ≤ₖ? start then (w, c, Err InvalidScan)
  else if limit =? 0 then (w, c, Ok [])
  else retry_loop (scan_once start end_ read_version limit) (kcl_max_route_refreshes c) 0 w c.
End client.
