(* ===== verification/RangeReadRuns.v ===== *)
(** * Routed reads are exact

    The router finds the one range that owns a key and answers through its view;
    the client, whatever routes it started with and however often it refreshes
    them, returns the rows at the version it was asked for. *)

From S2P Require Import Prelude Order BTree Bytes Version Mvcc SlateEngine SlateOps.
From S2P Require Import SlateRuns CellDemo RangeView RangeViewSpec RangeViewRuns RangeRead.

(** ** The router *)
Section router.
Context {B C : Type} `{SnapshotBase B C}.
Abbreviation heap := (gmap N (RangeServingState (B := B))).
Implicit Types (states : heap) (r : KvReadRouter).

Definition owns (s : ServingRange) (k : bytes) : Prop :=
  rra_start (sr_assignment s) ≤ₖ k ∧ k <ₖ rra_end (sr_assignment s).

(** The ranges of a tenant are filed under their start, and no two own a key. *)
Record ranges_wf (tenant : bytes) (ranges : gmap bytes ServingRange) : Prop := {
  rw_start k s : ranges !! k = Some s → rra_start (sr_assignment s) = k;
  rw_tenant k s : ranges !! k = Some s → rra_tenant_id (sr_assignment s) = tenant;
  rw_bounds k s : ranges !! k = Some s → rra_start (sr_assignment s) <ₖ rra_end (sr_assignment s);
  rw_disjoint k1 s1 k2 s2 : ranges !! k1 = Some s1 → ranges !! k2 = Some s2 → k1 <ₖ k2 →
    rra_end (sr_assignment s1) ≤ₖ k2;
}.
Definition router_wf r : Prop := ∀ tenant ranges, krr_tenants r !! tenant = Some ranges → ranges_wf tenant ranges.

Lemma range_at_or_before_Some ranges k s :
  range_at_or_before ranges k = Some s →
  ∃ start, ranges !! start = Some s ∧ start ≤ₖ k ∧
    ∀ start' s', ranges !! start' = Some s' → start' ≤ₖ k → start' ≤ₖ start.
Proof.
  unfold range_at_or_before. intros ([start s'] & Hl & [= ->])%fmap_Some.
  apply bt_range_last_Some in Hl as (Hin & Hle & Hmax). apply key_leb_spec in Hle.
  exists start. split_and!; [done..|]. intros start' s'' Hs' Hle'. apply (Hmax _ s''); [done|].
  by apply key_leb_spec.
Qed.

Lemma range_at_or_before_None ranges k start s :
  range_at_or_before ranges k = None → ranges !! start = Some s → k <ₖ start.
Proof.
  unfold range_at_or_before. intros Hn%fmap_None Hs. rewrite bt_range_last_None in Hn.
  apply Hn in Hs. by apply key_leb_false.
Qed.

(** The range a lookup finds is the only one that owns the key. *)
Lemma lookup_range_spec r tenant ranges k :
  router_wf r → krr_poisoned r = false → krr_tenants r !! tenant = Some ranges →
  match lookup_range r tenant k with
  | Ok s => ranges !! rra_start (sr_assignment s) = Some s ∧ owns s k ∧
      ∀ start s', ranges !! start = Some s' → owns s' k → s' = s
  | Err e => e = RangeNotAssigned ∧ ∀ start s, ranges !! start = Some s → ¬ owns s k
  | Panic => False
  end.
Proof.
  intros Hwf Hp Ht. unfold lookup_range. rewrite Hp, Ht. destruct (Hwf _ _ Ht) as [Hst _ Hb Hd].
  destruct (range_at_or_before ranges k) as [s|] eqn:E.
  - apply range_at_or_before_Some in E as (start & Hs & Hle & Hmax).
    assert (∀ start' s', ranges !! start' = Some s' → owns s' k → start' = start) as Honly.
    { intros start' s' Hs' [Hlo Hhi]. rewrite (Hst _ _ Hs') in Hlo.
      destruct (key_trichotomy start' start) as [Hlt|[?|Hgt]]; [|done|].
      - pose proof (key_le_trans _ _ _ (Hd _ _ _ _ Hs' Hs Hlt) Hle). key_order.
      - pose proof (Hmax _ _ Hs' Hlo). key_order. }
    destruct (rra_end (sr_assignment s) ≤ₖ? k) eqn:Ee.
    + apply key_leb_spec in Ee. split; [done|]. intros start' s' Hs' Ho.
      pose proof (Honly _ _ Hs' Ho). subst start'. rewrite Hs in Hs'. injection Hs' as <-.
      destruct Ho as [_ ?]. key_order.
    + apply key_leb_false in Ee. rewrite (Hst _ _ Hs). split; [done|]. split.
      * split; [|done]. by rewrite (Hst _ _ Hs).
      * intros start' s' Hs' Ho. pose proof (Honly _ _ Hs' Ho). subst. congruence.
  - split; [done|]. intros start s Hs [Hlo _]. rewrite (Hst _ _ Hs) in Hlo.
    pose proof (range_at_or_before_None _ _ _ _ E Hs). key_order.
Qed.

Lemma range_at_or_after_spec ranges k :
  match range_at_or_after ranges k with
  | Some next => ∀ start s, ranges !! start = Some s → k ≤ₖ start → next ≤ₖ start
  | None => ∀ start s, ranges !! start = Some s → start <ₖ k
  end.
Proof.
  unfold range_at_or_after. pose proof (bt_range_sorted (λ start, k ≤ₖ? start) ranges) as Hs.
  destruct (bt_range _ ranges) as [|[next s0] l] eqn:E; cbn.
  - intros start s Hst. apply key_not_le. intros Hle.
    assert ((start, s) ∈ bt_range (λ start, k ≤ₖ? start) ranges) as Hin.
    { apply elem_of_bt_range. split; [done|]. by apply key_leb_spec. }
    rewrite E in Hin. by apply elem_of_nil in Hin.
  - intros start s Hst Hle.
    assert ((start, s) ∈ bt_range (λ start, k ≤ₖ? start) ranges) as Hin.
    { apply elem_of_bt_range. split; [done|]. by apply key_leb_spec. }
    rewrite E in Hin. apply keys_sorted_cons in Hs as [_ Hlt].
    apply elem_of_cons in Hin as [[= -> ->]|Hin]; [apply key_le_refl|].
    apply key_lt_le, (Hlt _ Hin).
Qed.
Lemma insert_range_wf tenant ranges s :
  ranges_wf tenant ranges → rra_tenant_id (sr_assignment s) = tenant →
  rra_start (sr_assignment s) <ₖ rra_end (sr_assignment s) →
  (∀ p, range_at_or_before ranges (rra_start (sr_assignment s)) = Some p →
     rra_end (sr_assignment p) ≤ₖ rra_start (sr_assignment s)) →
  (∀ next, range_at_or_after ranges (rra_start (sr_assignment s)) = Some next →
     rra_end (sr_assignment s) ≤ₖ next) →
  ranges_wf tenant (<[rra_start (sr_assignment s) := s]> ranges).
Proof.
  intros [Hst Ht Hb Hd] Hten Hlt Hpre Hsuc.
  split; [intros k s' [[<- <-]|[_ ?]]%lookup_insert_Some; by eauto..|].
  pose proof (range_at_or_after_spec ranges (rra_start (sr_assignment s))) as Hafter.
  intros k1 s1 k2 s2 [[<- <-]|[Hn1 H1]]%lookup_insert_Some [[<- <-]|[Hn2 H2]]%lookup_insert_Some Hk.
  - key_order.
  - destruct (range_at_or_after ranges _) as [next|].
    + specialize (Hsuc next eq_refl). pose proof (Hafter _ _ H2 (key_lt_le _ _ Hk)). key_order.
    + pose proof (Hafter _ _ H2). key_order.
  - destruct (range_at_or_before ranges _) as [p|] eqn:E.
    + specialize (Hpre p eq_refl). apply range_at_or_before_Some in E as (start & Hp & Hle & Hmax).
      pose proof (Hmax _ _ H1 (key_lt_le _ _ Hk)) as [Hlt1| ->]%key_le_lt_eq.
      * pose proof (Hd _ _ _ _ H1 Hp Hlt1). key_order.
      * congruence.
    + pose proof (range_at_or_before_None _ _ _ _ E H1). key_order.
  - by eauto.
Qed.

Lemma assign_wf states r a st : router_wf r → router_wf (assign states r a st).1.
Proof.
  intros Hwf. unfold assign. destruct (_ || _) eqn:E0; [done|].
  apply orb_false_iff in E0 as [E0%key_leb_false _].
  destruct (states !! st ≫= _) as [v|]; [|done].
  destruct (_ || _); [done|]. destruct (krr_poisoned r); [done|]. cbn zeta.
  set (ranges := krr_tenants r !!! rra_tenant_id a).
  assert (ranges_wf (rra_tenant_id a) ranges) as Hr.
  { unfold ranges. rewrite lookup_total_alt.
    destruct (krr_tenants r !! rra_tenant_id a) as [l|] eqn:El; cbn; [by apply Hwf|].
    split; intros *; by rewrite lookup_empty. }
  assert (∀ l, ranges_wf (rra_tenant_id a) l → router_wf
    {| krr_config := krr_config r; krr_tenants := <[rra_tenant_id a := l]> (krr_tenants r);
       krr_poisoned := false; krr_available := krr_available r |}) as Hinstall.
  { intros l Hl tenant l'. cbn. intros [[<- <-]|[_ ?]]%lookup_insert_Some; [done|by apply Hwf]. }
  destruct (overlaps_predecessor ranges a) eqn:Epre; [by apply Hinstall|].
  destruct (overlaps_successor ranges a) eqn:Esuc; [by apply Hinstall|].
  unfold overlaps_predecessor in Epre. unfold overlaps_successor in Esuc.
  assert (ranges_wf (rra_tenant_id a) (<[rra_start a := {| sr_assignment := a; sr_state := st |}]> ranges))
    as Hins.
  { apply (insert_range_wf _ _ {| sr_assignment := a; sr_state := st |}); try done; cbn.
    - intros p Hp. rewrite Hp in Epre. by apply key_ltb_false.
    - intros next Hn. rewrite Hn in Esuc. by apply key_ltb_false. }
  destruct (is_some _); by apply Hinstall.
Qed.

(** ** Execution *)

(** What a reply says of the request. *)
Definition reply_exact (hist : N → bytes → option bytes) (request : RoutedRangeReadRequest)
    (reply : RoutedRangeReadReply) : Prop :=
  match rrq_operation request, reply with
  | Point key, PointReply _ value => value = hist (rrq_read_version request) key
  | Scan start end_ limit, ScanReply _ rows =>
      first_rows (hist (rrq_read_version request)) start end_ limit rows
  | _, _ => False
  end.

Definition heap_answers states (hist : N → bytes → option bytes) : Prop :=
  ∀ id s v, states !! id = Some s → serving_current s = Ok v → view_answers (C := C) v hist.

Lemma require_readable_Ok (v : AuthorityBoundRangeView B) rv :
  view_require_readable v rv = Ok tt → readable v rv.
Proof.
  unfold view_require_readable, readable.
  destruct (_ <? _)%N eqn:E1; [done|]. destruct (arv_target_version v <? rv)%N eqn:E2; [done|].
  by apply N.ltb_ge in E1, E2.
Qed.
Lemma view_get_readable (v : AuthorityBoundRangeView B) k rv x :
  view_get_at v k rv = Ok x → readable v rv.
Proof. intros ([] & ?%require_readable_Ok & _)%res_bind_Ok. done. Qed.
Lemma view_scan_readable (v : AuthorityBoundRangeView B) start end_ rv limit x :
  view_scan_at v start end_ rv limit = Ok x → readable v rv ∧ start <ₖ end_.
Proof.
  unfold view_scan_at. destruct (end_ ≤ₖ? start) eqn:Es; [done|].
  intros ([] & ?%require_readable_Ok & _)%res_bind_Ok. split; [done|key_order].
Qed.

Lemma execute_exact states r hist request reply :
  heap_answers states hist → execute states r request = Ok reply → reply_exact hist request reply.
Proof.
  intros Hheap. unfold execute. case_guards; try done.
  intros (serving & _ & Hrest)%res_bind_Ok. destruct (_ || _) in Hrest; [done|].
  apply res_bind_Ok in Hrest as ([] & _ & Hrest).
  destruct (states !! sr_state serving) as [st|] eqn:Est; [|done]. cbn in Hrest.
  destruct (serving_current st) as [v| |] eqn:Ev; try done.
  pose proof (Hheap _ _ _ Est Ev) as Hv. unfold reply_exact.
  destruct (rrq_operation request) as [key|start end_ limit].
  - destruct (view_get_at v key _) as [x| |] eqn:Eg; try done. injection Hrest as <-.
    pose proof (view_get_readable _ _ _ _ Eg) as Hr.
    destruct (Hv _ Hr) as [Hget _]. destruct (Hget key) as [[Hf _]|Hx]; [congruence|].
    rewrite Eg in Hx. by injection Hx.
  - destruct (view_scan_at v start end_ _ limit) as [rows| |] eqn:Eg; try done.
    injection Hrest as <-. destruct (view_scan_readable _ _ _ _ _ _ Eg) as [Hr Hse].
    destruct (Hv _ Hr) as [_ Hscan].
    destruct (Hscan start end_ limit Hse) as [[Hf _]|(out & Hout & Hx)]; [congruence|].
    rewrite Eg in Hx. by injection Hx as ->.
Qed.
End router.

(** ** Composing the parts of a scan *)
Lemma first_rows_empty value start limit : first_rows value start start limit [].
Proof.
  split; [constructor|simpl; lia|by intros k x []%elem_of_nil|].
  intros k x H1 H2. key_order.
Qed.

Lemma keys_sorted_app (l1 l2 : list Row) :
  keys_sorted l1 → keys_sorted l2 → (∀ p q, p ∈ l1 → q ∈ l2 → p.1 <ₖ q.1) → keys_sorted (l1 ++ l2).
Proof.
  intros H1 H2 Hlt. induction l1 as [|p l1 IH]; [done|].
  apply keys_sorted_cons in H1 as [H1 Hp]. cbn [app]. apply keys_sorted_cons. split.
  - apply IH; [done|]. intros q q' Hq Hq'. apply Hlt; [by constructor|done].
  - intros q [Hq|Hq]%elem_of_app; [by apply Hp|]. apply Hlt; [by constructor|done].
Qed.

(** The rows of a range that is not full, then the first rows of the next. *)
Lemma first_rows_app value a b c limit rows part :
  first_rows value a b limit rows → length rows < limit → a ≤ₖ b → b ≤ₖ c →
  first_rows value b c (limit - length rows) part →
  first_rows value a c limit (rows ++ part).
Proof.
  intros H1 Hlt Hab Hbc [Ps Pl Pf Pc].
  destruct (first_rows_all _ _ _ _ _ H1 Hlt) as [Rs Re]. split.
  - apply keys_sorted_app; [done..|]. intros [k x] [k' x'] (_ & Hk & _)%Re (Hk' & _ & _)%Pf.
    cbn. key_order.
  - rewrite length_app. lia.
  - intros k x [(? & ? & ?)%Re|(? & ? & ?)%Pf]%elem_of_app; (split_and!; [key_order..|done]).
  - intros k x Ha Hc Hv. destruct (decide (k <ₖ b)) as [Hk|Hk%key_not_lt].
    { left. apply elem_of_app. left. by apply Re. }
    destruct (Pc k x Hk Hc Hv) as [?|[Hlen Hq]]; [left; apply elem_of_app; by right|].
    right. split; [rewrite length_app; lia|].
    intros [k' x'] [(_ & Hk' & _)%Re|Hin]%elem_of_app; [cbn; key_order|by apply Hq].
Qed.

(** A full prefix is a prefix of every larger range. *)
Lemma first_rows_full value a b c limit rows :
  first_rows value a b limit rows → limit ≤ length rows → b ≤ₖ c →
  first_rows value a c limit rows.
Proof.
  intros [Rs Rl Rf Rc] Hfull Hbc. split; [done..| |].
  - intros k x (? & ? & ?)%Rf. split_and!; [done|key_order|done].
  - intros k x Ha Hc Hv. destruct (decide (k <ₖ b)) as [Hk|Hk%key_not_lt]; [by apply Rc|].
    right. split; [lia|]. intros [k' x'] (_ & ? & _)%Rf. cbn. key_order.
Qed.

(** ** The client *)
Section client.
Context {W : Type}.
Context (request_range_read :
  W → string → RoutedRangeReadRequest → Outcome * option ClientRangeMapSnapshot * W).
Context (range_map_snapshot :
  W → bytes → bytes → (string + ClientRangeMapSnapshot) * option ClientRangeMapSnapshot * W).
Context (hist : N → bytes → option bytes).

Lemma validate_routes_total prior ids routes : validate_routes prior ids routes ≠ Panic.
Proof.
  revert prior ids. induction routes as [|route routes IH]; intros prior ids; [done|].
  cbn [validate_routes]. repeat (case_match; try done); apply IH.
Qed.
Lemma validate_identity_total cell tenant s : validate_snapshot_identity cell tenant s ≠ Panic.
Proof.
  unfold validate_snapshot_identity, validate_range_map. destruct (_ || _); [done|].
  destruct (_ =? 0)%N; [done|]. destruct (crm_routes s); [done|].
  pose proof (validate_routes_total None ∅ (c :: l)). by destruct (validate_routes _ _ _).
Qed.

(** The snapshots other tasks of the client cache have been validated. *)
Definition tasks_valid (cell tenant : bytes) : Prop :=
  (∀ w endpoint request o s w', request_range_read w endpoint request = (o, Some s, w') →
     validate_snapshot_identity cell tenant s = Ok tt) ∧
  (∀ w c t o s w', range_map_snapshot w c t = (o, Some s, w') →
     validate_snapshot_identity cell tenant s = Ok tt).

(** The cached routes of a client of a session are valid. *)
Record client_ok (cell tenant : bytes) (maximum : nat) (c : KvReadClient) : Prop := {
  co_cell : kcl_cell_id c = cell;
  co_tenant : kcl_tenant_id c = tenant;
  co_maximum : kcl_max_route_refreshes c = maximum;
  co_routes : validate_snapshot_identity cell tenant (kcl_routes c) = Ok tt;
}.

Section session.
Context (cell tenant : bytes) (maximum : nat).
Context (Htasks : tasks_valid cell tenant).
Abbreviation session := (client_ok cell tenant maximum).

Lemma with_routes_ok c s :
  session c → validate_snapshot_identity cell tenant s = Ok tt → session (with_routes c s).
Proof. by intros []. Qed.

Lemma resumed_ok c w endpoint request o cached w' :
  session c → request_range_read w endpoint request = (o, cached, w') → session (resumed c cached).
Proof.
  intros Hc Hr. destruct cached as [s|]; [|done]. apply with_routes_ok; [done|].
  by eapply (proj1 Htasks).
Qed.

(** An error that is reported to the caller. *)
Definition reported (e : KvReadClientError) : Prop := ∀ detail, e ≠ Transport detail.

Lemma refresh_ok w c prior refreshes w' c' r :
  session c → refresh_or_limit range_map_snapshot w c prior refreshes = (w', c', r) →
  session c' ∧
  match r with Ok _ => refreshes ≠ maximum | Err e => reported e | Panic => False end.
Proof.
  intros Hc. unfold refresh_or_limit. rewrite (co_maximum _ _ _ _ Hc).
  destruct (refreshes =? maximum) eqn:E; [by intros [= <- <- <-]|]. apply Nat.eqb_neq in E.
  rewrite (co_cell _ _ _ _ Hc), (co_tenant _ _ _ _ Hc).
  destruct (range_map_snapshot _ _ _) as [[answer cached] w1] eqn:Es.
  assert (session (resumed c cached)) as Hc1.
  { destruct cached as [s|]; [|done]. apply with_routes_ok; [done|]. by eapply (proj2 Htasks). }
  destruct answer as [detail|s]; [by intros [= <- <- <-]|].
  rewrite (co_cell _ _ _ _ Hc1), (co_tenant _ _ _ _ Hc1).
  pose proof (validate_identity_total cell tenant s) as Hnp.
  destruct (validate_snapshot_identity cell tenant s) as [[]|e|] eqn:Ev; [| |done].
  - repeat case_match; intros [= <- <- <-]; (split; [|done]); try done. by apply with_routes_ok.
  - intros [= <- <- <-]. split; [done|]. intros detail ->. revert Ev.
    unfold validate_snapshot_identity. destruct (_ || _); [done|].
    by destruct (validate_range_map s).
Qed.
(** What an attempt may return: a result, a reason to refresh, or an error. *)
Definition attempt_ok {A} (P : A → Prop) (r : res ScanAttemptError A) : Prop :=
  match r with
  | Ok x => P x
  | Err (AttemptFatal e) => reported e
  | Err _ => True
  | Panic => False
  end.
Definition result_ok {A} (P : A → Prop) (r : res KvReadClientError A) : Prop :=
  match r with Ok x => P x | Err e => reported e | Panic => False end.

Lemma retry_step_ok {A} (P : A → Prop) attempt refreshes w c w' c' r :
  (∀ w c s w' c' r, session c → validate_snapshot_identity cell tenant s = Ok tt →
     attempt w c s = (w', c', r) → session c' ∧ attempt_ok P r) →
  session c → retry_step range_map_snapshot attempt refreshes w c = (w', c', r) →
  session c' ∧ match r with Some r => result_ok P r | None => True end.
Proof.
  intros Ha Hc. unfold retry_step, current_snapshot.
  destruct (kcl_poisoned c); [by intros [= <- <- <-]; split|].
  destruct (attempt w c (kcl_routes c)) as [[w1 c1] r1] eqn:Ea.
  apply Ha in Ea as [Hc1 Hr1]; [|done|apply Hc].
  destruct r1 as [x|[|detail|e]|]; try (by intros [= <- <- <-]; split); try done;
    destruct (refresh_or_limit _ _ _ _ _) as [[w2 c2] r2] eqn:Er;
    apply refresh_ok in Er as [Hc2 Hr2]; try done; intros [= <- <- <-]; (split; [done|]);
    destruct r2 as [[]|e2|]; try done.
  by rewrite (co_maximum _ _ _ _ Hc2), (proj2 (Nat.eqb_neq _ _) Hr2).
Qed.

Lemma retry_loop_ok {A} (P : A → Prop) attempt todo refreshes w c w' c' r :
  (∀ w c s w' c' r, session c → validate_snapshot_identity cell tenant s = Ok tt →
     attempt w c s = (w', c', r) → session c' ∧ attempt_ok P r) →
  session c → retry_loop range_map_snapshot attempt todo refreshes w c = (w', c', r) →
  session c' ∧ result_ok P r.
Proof.
  intros Ha. revert refreshes w c. induction todo as [|todo IH]; intros refreshes w c Hc;
    cbn [retry_loop];
    destruct (retry_step _ attempt refreshes w c) as [[w1 c1] r1] eqn:Es;
    apply (retry_step_ok P) in Es as [Hc1 Hr1]; try done;
    destruct r1 as [r1|]; try (by intros [= <- <- <-]; split).
  by apply IH.
Qed.

(** ** Point reads *)
Definition served : Prop :=
  ∀ w endpoint request reply cached w',
    request_range_read w endpoint request = (Replied reply, cached, w') →
    reply_exact hist request reply.
Context (Hserved : served).

Lemma validate_stamp_total route rv stamp :
  match validate_stamp route rv stamp with Ok _ => True | Err e => reported e | Panic => False end.
Proof. unfold validate_stamp. destruct (_ || _); [done|]. by destruct (_ <? _)%N. Qed.

Lemma point_once_ok key rv w c s w' c' r :
  session c → point_once request_range_read key rv w c s = (w', c', r) →
  session c' ∧ attempt_ok (λ x, x = hist rv key) r.
Proof.
  intros Hc. unfold point_once. destruct (route_of s key) as [route|]; [|by intros [= <- <- <-]; split].
  destruct (request_range_read _ _ _) as [[o cached] w1] eqn:Er.
  pose proof (resumed_ok _ _ _ _ _ _ _ Hc Er) as Hc1.
  destruct o as [[stamp value|stamp rows]|e|detail]; intros [= <- <- <-]; (split; [done|]); try done.
  - apply Hserved in Er. cbn in Er. pose proof (validate_stamp_total route rv stamp) as Hv.
    by destruct (validate_stamp route rv stamp).
  - by destruct (route_retryable e).
Qed.

(** ** Scans *)

(** The routes a scan still has to visit. *)
Definition ahead_of (cursor : bytes) (routes : list ClientRangeRoute) : nat :=
  length (List.filter (λ route, cursor <ₖ? crr_end route) routes).

Lemma ahead_of_lt cursor cursor' route routes :
  route ∈ routes → cursor <ₖ crr_end route → crr_end route ≤ₖ cursor' → cursor ≤ₖ cursor' →
  ahead_of cursor' routes < ahead_of cursor routes.
Proof.
  intros Hin Hlt Hle Hcc. unfold ahead_of.
  assert (∀ l, length (List.filter (λ route, cursor' <ₖ? crr_end route) l) ≤
    length (List.filter (λ route, cursor <ₖ? crr_end route) l)) as Hmono.
  { induction l as [|x l IH]; [done|]. cbn. destruct (cursor' <ₖ? crr_end x) eqn:E1.
    - assert (cursor <ₖ? crr_end x = true) as -> by key_order. simpl. lia.
    - destruct (cursor <ₖ? crr_end x); simpl; lia. }
  induction routes as [|x routes IH]; [by apply elem_of_nil in Hin|]. cbn.
  apply elem_of_cons in Hin as [->|Hin].
  - assert (cursor' <ₖ? crr_end x = false) as -> by key_order.
    assert (cursor <ₖ? crr_end x = true) as -> by key_order. simpl. specialize (Hmono routes). lia.
  - specialize (IH Hin). destruct (cursor' <ₖ? crr_end x) eqn:E1.
    + assert (cursor <ₖ? crr_end x = true) as -> by key_order. simpl. lia.
    + destruct (cursor <ₖ? crr_end x); simpl; lia.
Qed.

Lemma validate_rows_total rows start end_ limit :
  match validate_rows rows start end_ limit with
  | Ok _ => True | Err e => reported e | Panic => False end.
Proof.
  unfold validate_rows. destruct (_ <? _); [done|]. generalize (None : option bytes).
  induction rows as [|[k x] rows IH]; intros prior; [done|]. cbn [validate_order].
  destruct (_ || _); [done|].
  destruct prior as [prior|]; [destruct (k ≤ₖ? prior); [done|]|]; apply IH.
Qed.
Lemma route_of_spec s k route :
  route_of s k = Some route → route ∈ crm_routes s ∧ crr_start route ≤ₖ k ∧ k <ₖ crr_end route.
Proof.
  unfold route_of. intros [Hin [H1%key_leb_spec H2%key_ltb_spec]%andb_true_iff]%rfind_Some. done.
Qed.

Lemma scan_once_loop_ok fuel s start end_ rv limit w c cursor rows w' c' r :
  session c → start ≤ₖ cursor → cursor ≤ₖ end_ →
  first_rows (hist rv) start cursor limit rows →
  (if cursor <ₖ? end_ then ahead_of cursor (crm_routes s) else 0) < fuel →
  scan_once_loop request_range_read fuel s end_ rv limit w c cursor rows = (w', c', r) →
  session c' ∧ attempt_ok (first_rows (hist rv) start end_ limit) r.
Proof.
  revert w c cursor rows. induction fuel as [|fuel IH]; intros w c cursor rows Hc Hlo Hhi Hrows Hf;
    [lia|]. cbn [scan_once_loop].
  destruct (negb (cursor <ₖ? end_) || (limit <=? length rows)) eqn:Estop.
  { intros [= <- <- <-]. split; [done|]. cbn.
    apply orb_true_iff in Estop as [Hend%negb_true_iff|Hfull%Nat.leb_le].
    - assert (cursor = end_) as <- by (apply key_le_antisymm; key_order). done.
    - by eapply first_rows_full. }
  apply orb_false_iff in Estop as [Hlt%negb_false_iff Hroom%Nat.leb_gt].
  rewrite Hlt in Hf. apply key_ltb_spec in Hlt.
  destruct (route_of s cursor) as [route|] eqn:Eroute; [|by intros [= <- <- <-]; split].
  apply route_of_spec in Eroute as (Hin & Hs & He).
  set (sub_end := if crr_end route <ₖ? end_ then crr_end route else end_).
  assert (cursor <ₖ sub_end ∧ sub_end ≤ₖ end_) as [Hcs Hse].
  { unfold sub_end. destruct (crr_end route <ₖ? end_) eqn:E; split; key_order. }
  assert ((if sub_end <ₖ? end_ then ahead_of sub_end (crm_routes s) else 0) < fuel) as Hf'.
  { pose proof (ahead_of_lt cursor (crr_end route) route _ Hin He (key_le_refl _) (key_lt_le _ _ He)).
    unfold sub_end. destruct (crr_end route <ₖ? end_) eqn:E; [rewrite E; lia|].
    assert (end_ <ₖ? end_ = false) as -> by (apply key_ltb_false, key_le_refl). lia. }
  destruct (request_range_read _ _ _) as [[o cached] w1] eqn:Er.
  pose proof (resumed_ok _ _ _ _ _ _ _ Hc Er) as Hc1.
  destruct o as [[stamp value|stamp part]|e|detail]; [by intros [= <- <- <-]; split| | |].
  - apply Hserved in Er. cbn in Er. pose proof (validate_stamp_total route rv stamp) as Hv.
    destruct (validate_stamp route rv stamp) as [[]|e|]; cbn [res_bind];
      [|by intros [= <- <- <-]; split|done].
    pose proof (validate_rows_total part cursor sub_end (limit - length rows)) as Hv2.
    destruct (validate_rows _ _ _ _) as [[]|e|]; [|by intros [= <- <- <-]; split|done].
    apply IH; [done|key_order|done| |done].
    eapply (first_rows_app _ start cursor); [done..|key_order|done].
  - intros [= <- <- <-]; split; [done|]. by destruct (route_retryable e).
  - by intros [= <- <- <-]; split.
Qed.

Lemma scan_once_ok start end_ rv limit w c s w' c' r :
  start <ₖ end_ → session c →
  scan_once request_range_read start end_ rv limit w c s = (w', c', r) →
  session c' ∧ attempt_ok (first_rows (hist rv) start end_ limit) r.
Proof.
  intros Hse Hc. apply scan_once_loop_ok; [done|apply key_le_refl|key_order|apply first_rows_empty|].
  assert (start <ₖ? end_ = true) as -> by key_order. unfold ahead_of.
  pose proof (length_lfilter (λ route, start <ₖ? crr_end route) (crm_routes s)). lia.
Qed.
End session.

(** Every reply comes from a router whose views answer [hist]. *)
Definition routed {B C} `{SnapshotBase B C} : Prop :=
  ∀ w endpoint request reply cached w',
    request_range_read w endpoint request = (Replied reply, cached, w') →
    ∃ (states : gmap N (RangeServingState (B := B))) router,
      heap_answers (C := C) states hist ∧ execute states router request = Ok reply.

Section replies.
Context {B C : Type} `{SnapshotBase B C} (cell tenant : bytes) (maximum : nat).
Context (Htasks : tasks_valid cell tenant) (Hrouted : routed (B := B) (C := C)).

Lemma routed_served : served.
Proof.
  intros w1 endpoint request reply cached w2 (states & router & Hheap & Hex)%Hrouted.
  by eapply execute_exact.
Qed.

Lemma client_point_ok w c key rv w' c' r :
  client_ok cell tenant maximum c →
  point_at request_range_read range_map_snapshot w c key rv = (w', c', r) →
  client_ok cell tenant maximum c' ∧ result_ok (λ x, x = hist rv key) r.
Proof.
  intros Hc. pose proof routed_served as Hserved. apply retry_loop_ok; [done| |done].
  intros w1 c1 s w2 c2 r1 Hc1 _. by apply point_once_ok.
Qed.

Lemma client_scan_ok w c start end_ rv limit w' c' r :
  client_ok cell tenant maximum c →
  client_scan_at request_range_read range_map_snapshot w c start end_ rv limit = (w', c', r) →
  client_ok cell tenant maximum c' ∧
  result_ok (λ rows, start <ₖ end_ ∧ first_rows (hist rv) start end_ limit rows) r.
Proof.
  intros Hc. pose proof routed_served as Hserved. unfold client_scan_at.
  destruct (end_ ≤ₖ? start) eqn:Es; [by intros [= <- <- <-]; split|].
  apply key_leb_false in Es. destruct (limit =? 0) eqn:El.
  { apply Nat.eqb_eq in El as ->. intros [= <- <- <-]. split; [done|].
    split; [done|apply first_rows_zero]. }
  intros Hloop. destruct (retry_loop_ok _ _ _ Htasks (first_rows (hist rv) start end_ limit)
    (scan_once request_range_read start end_ rv limit) _ _ _ _ _ _ _
    (λ w c s w' c' r Hc _, scan_once_ok cell tenant maximum Htasks Hserved start end_ rv limit
      w c s w' c' r Es Hc) Hc Hloop) as [? Hr].
  split; [done|]. by destruct r.
Qed.
End replies.

(** C8. Reads through the client are exact. Servers are routers over views that
    answer as the history does; the network may lose any call and change anything
    else between calls, the routes may be refreshed, also by other tasks of the
    client, and any server may refuse. A point read that returns, returns the
    value of the key at the requested version, whatever route it went through in
    the end. A scan that returns, returns exactly the first [limit] rows of the
    whole range at that version, also when it was collected from many ranges or
    restarted with new routes. Both loops end, the cached routes stay valid, and
    every failure is an error; the error for a failed transport is never
    reported, because the refresh limit is hit first. *)
Theorem client_reads_exact {B C} `{SnapshotBase B C} cell tenant maximum c w :
  tasks_valid cell tenant → routed (B := B) (C := C) → client_ok cell tenant maximum c →
  (∀ key rv w' c' r,
     point_at request_range_read range_map_snapshot w c key rv = (w', c', r) →
     client_ok cell tenant maximum c' ∧ result_ok (λ x, x = hist rv key) r) ∧
  (∀ start end_ rv limit w' c' r,
     client_scan_at request_range_read range_map_snapshot w c start end_ rv limit = (w', c', r) →
     client_ok cell tenant maximum c' ∧
     result_ok (λ rows, start <ₖ end_ ∧ first_rows (hist rv) start end_ limit rows) r).
Proof.
  intros Htasks Hrouted Hc. split.
  - intros key rv w' c' r. by apply (client_point_ok cell tenant maximum Htasks Hrouted).
  - intros start end_ rv limit w' c' r. by apply (client_scan_ok cell tenant maximum Htasks Hrouted).
Qed.
End client.

(** *** A concrete network: one router with two ranges, one endpoint each *)
Module demo_read.
Import demo_cell demo_view.

Definition states : gmap N (RangeServingState (B := gmap bytes bytes)) :=
  {[1%N := {| rss_current := view; rss_poisoned := false |}]}.
Definition router_config : KvReadRouterConfig :=
  {| krc_cell_id := CELL; krc_max_in_flight := 4; krc_max_key_bytes := 16; krc_max_scan_rows := 10 |}.
Definition assignment (id : N) (start end_ : bytes) : RangeReadAssignment :=
  {| rra_tenant_id := TENANT; rra_range_id := id; rra_routing_epoch := 1; rra_start := start;
     rra_end := end_ |}.
Definition empty_router : KvReadRouter :=
  {| krr_config := router_config; krr_tenants := ∅; krr_poisoned := false; krr_available := 4 |}.
Definition router : KvReadRouter :=
  (assign states (assign states empty_router (assignment 1 [] key_b) 1).1
     (assignment 2 key_b [200%N]) 1).1.

Definition outcome_of (r : res RoutedRangeReadError RoutedRangeReadReply) : Outcome :=
  match r with Ok reply => Replied reply | Err e => Refused e | Panic => Unreachable "" end.
Lemma outcome_replied r reply : outcome_of r = Replied reply → r = Ok reply.
Proof. destruct r; by intros [= ->]. Qed.

(** The first call is refused. *)
Definition send (w : nat) (_ : string) (request : RoutedRangeReadRequest)
    : Outcome * option ClientRangeMapSnapshot * nat :=
  match w with
  | O => (Refused RangeNotAssigned, None, 1)
  | S _ => (outcome_of (execute (C := cursor) states router request), None, w)
  end.
Definition route (id : N) (start end_ : bytes) : ClientRangeRoute :=
  {| crr_endpoint := "node"; crr_range_id := id; crr_routing_epoch := 1; crr_start := start;
     crr_end := end_ |}.
Definition snapshot (version : N) : ClientRangeMapSnapshot :=
  {| crm_cell_id := CELL; crm_tenant_id := TENANT; crm_map_version := version;
     crm_routes := [route 1 [] key_b; route 2 key_b [200%N]] |}.
Definition authority (w : nat) (_ _ : bytes)
    : (string + ClientRangeMapSnapshot) * option ClientRangeMapSnapshot * nat :=
  (inr (snapshot 2), None, w).
Definition client : KvReadClient :=
  {| kcl_cell_id := CELL; kcl_tenant_id := TENANT; kcl_max_route_refreshes := 2;
     kcl_routes := snapshot 1; kcl_poisoned := false |}.
Definition scanned : nat * KvReadClient * res KvReadClientError (list Row) :=
  client_scan_at send authority 0 client [] [200%N] 8 3.

Lemma tasks : tasks_valid send authority CELL TENANT.
Proof.
  split.
  - intros w endpoint request o s w'. unfold send.
    destruct w; intros Hs; assert (None = Some s) as Hn by exact (f_equal (λ o, o.1.2) Hs);
      discriminate Hn.
  - intros w c t o s w'. unfold authority. discriminate.
Qed.
Lemma client_valid : client_ok CELL TENANT 2 client.
Proof. by split. Qed.
Lemma heap_exact : heap_answers (C := cursor) states (cell_rows second.2).
Proof.
  intros id s v Hs Hv. unfold states in Hs. apply lookup_singleton_Some in Hs as [_ <-].
  assert (view = v) as <- by exact (f_equal (ok_or view) Hv). exact view_exact.
Qed.
Lemma network : routed send (cell_rows second.2) (B := gmap bytes bytes) (C := cursor).
Proof.
  intros w endpoint request reply cached w'. unfold send. destruct w; intros Hs.
  { assert (Refused RangeNotAssigned = Replied reply) as Hn by exact (f_equal (λ o, o.1.1) Hs).
    discriminate Hn. }
  exists states, router. split; [exact heap_exact|].
  apply outcome_replied. exact (f_equal (λ o, o.1.1) Hs).
Qed.
Lemma scanned_ok : match scanned with
  | (_, c, Ok rows) => length rows = 2 ∧ crm_map_version (kcl_routes c) = 2%N
  | _ => False end.
Proof. vm_compute. split; reflexivity. Qed.
End demo_read.
Import demo_cell demo_view demo_read.

Lemma client_reads_exact_witness :
  ∃ w c rows, client_scan_at send authority 0 client [] [200%N] 8 3 = (w, c, Ok rows) ∧
    length rows = 2 ∧ first_rows (cell_rows second.2 8) [] [200%N] 3 rows.
Proof.
  pose proof scanned_ok as Hok. unfold scanned in Hok.
  destruct (client_scan_at send authority 0 client [] [200%N] 8 3) as [[w c] [rows| |]] eqn:E;
    [|destruct Hok..].
  destruct (proj2 (client_reads_exact send authority (cell_rows second.2) (B := gmap bytes bytes)
    (C := cursor) CELL TENANT 2 client 0 tasks network client_valid)
    _ _ _ _ _ _ _ E) as [_ [_ Hrows]].
  exists w, c, rows. split; [exact eq_refl|]. split; [exact (proj1 Hok)|exact Hrows].
Defined.
