(* ===== verification/KvRuntime.v ===== *)
(** * The resource envelope of a KV runtime

    [KvRuntime] of [okv-object/src/kv_runtime.rs]: which ranges a process
    serves, how much memory they hold, and what it does under pressure. *)

From S2P Require Import Prelude Order BTree Bytes.

Record RangeEngineUsage := {
  reu_metadata_bytes : N;
  reu_recent_mvcc_bytes : N;
  reu_objectification_debt_bytes : N;
}.

Record KvRuntimeConfig := {
  kvc_ram_limit_bytes : N;
  kvc_nvme_limit_bytes : N;
  kvc_max_range_engines : nat;
  kvc_soft_objectification_debt_bytes : N;
  kvc_hard_objectification_debt_bytes : N;
}.

Inductive KvRuntimeAction :=
  | EvictRamCache | EvictNvmeCache | RequestObjectification | RequestRangeMove | ActionRateLimit
  | RefuseCommit.

Inductive KvRuntimeAdmission := Admit | AdmissionRateLimit | Refuse.

Record KvRuntimeSnapshot := {
  kvs_range_engine_count : nat;
  kvs_fixed_range_ram_bytes : N;
  kvs_objectification_debt_bytes : N;
  kvs_accounted_ram_bytes : N;
  kvs_accounted_nvme_bytes : N;
  kvs_evicted_ram_cache_bytes : N;
  kvs_evicted_nvme_cache_bytes : N;
}.

Record KvRuntimeDecision := {
  kvd_admission : KvRuntimeAdmission;
  kvd_actions : list KvRuntimeAction;
  kvd_snapshot : KvRuntimeSnapshot;
}.

Record KvRuntime := {
  kvr_config : KvRuntimeConfig;
  kvr_ranges : gmap N RangeEngineUsage;
  kvr_ram_cache_demand_bytes : N;
  kvr_nvme_cache_demand_bytes : N;
}.

Definition runtime_new (config : KvRuntimeConfig) : res string KvRuntime :=
  if (kvc_ram_limit_bytes config =? 0)%N then Err "KV Runtime RAM limit must be positive"
  else if (kvc_nvme_limit_bytes config =? 0)%N then Err "KV Runtime NVMe limit must be positive"
  else if kvc_max_range_engines config =? 0 then Err "KV Runtime range limit must be positive"
  else if (kvc_hard_objectification_debt_bytes config
           <? kvc_soft_objectification_debt_bytes config)%N
  then Err "soft objectification debt cannot exceed hard debt"
  else Ok {| kvr_config := config; kvr_ranges := ∅; kvr_ram_cache_demand_bytes := 0;
             kvr_nvme_cache_demand_bytes := 0 |}.

Definition assign_range_engine (r : KvRuntime) (id : N) (usage : RangeEngineUsage)
    : KvRuntime * res string unit :=
  if is_some (kvr_ranges r !! id) then (r, Err "Range Engine is already assigned")
  else if kvc_max_range_engines (kvr_config r) <=? size (kvr_ranges r)
  then (r, Err "KV Runtime range limit reached")
  else ({| kvr_config := kvr_config r; kvr_ranges := <[id := usage]> (kvr_ranges r);
           kvr_ram_cache_demand_bytes := kvr_ram_cache_demand_bytes r;
           kvr_nvme_cache_demand_bytes := kvr_nvme_cache_demand_bytes r |}, Ok tt).

Definition set_cache_demand (r : KvRuntime) (ram_bytes nvme_bytes : N) : KvRuntime :=
  {| kvr_config := kvr_config r; kvr_ranges := kvr_ranges r;
     kvr_ram_cache_demand_bytes := ram_bytes; kvr_nvme_cache_demand_bytes := nvme_bytes |}.

(** [ranges.values().fold(0, …)] with saturating additions. *)
Definition fixed_range_ram (r : KvRuntime) : N :=
  foldl (λ total e, saturating_add (saturating_add total (reu_metadata_bytes e.2))
                      (reu_recent_mvcc_bytes e.2)) 0%N (bt_items (kvr_ranges r)).
Definition objectification_debt (r : KvRuntime) : N :=
  foldl (λ total e, saturating_add total (reu_objectification_debt_bytes e.2)) 0%N
    (bt_items (kvr_ranges r)).

Definition pressure_decision (r : KvRuntime) : KvRuntimeDecision :=
  let config := kvr_config r in
  let fixed := fixed_range_ram r in
  let debt := objectification_debt r in
  let admitted_ram :=
    N.min (kvr_ram_cache_demand_bytes r) (saturating_sub (kvc_ram_limit_bytes config) fixed) in
  let admitted_nvme := N.min (kvr_nvme_cache_demand_bytes r) (kvc_nvme_limit_bytes config) in
  let evicted_ram := saturating_sub (kvr_ram_cache_demand_bytes r) admitted_ram in
  let evicted_nvme := saturating_sub (kvr_nvme_cache_demand_bytes r) admitted_nvme in
  let non_evictable_ram_exceeded := (kvc_ram_limit_bytes config <? fixed)%N in
  let soft_debt_exceeded := (kvc_soft_objectification_debt_bytes config <? debt)%N in
  let hard_debt_exceeded := (kvc_hard_objectification_debt_bytes config <? debt)%N in
  {| kvd_admission :=
       if non_evictable_ram_exceeded || hard_debt_exceeded then Refuse
       else if soft_debt_exceeded then AdmissionRateLimit else Admit;
     kvd_actions :=
       (if (0 <? evicted_ram)%N then [EvictRamCache] else [])
       ++ (if (0 <? evicted_nvme)%N then [EvictNvmeCache] else [])
       ++ (if non_evictable_ram_exceeded || soft_debt_exceeded
           then [RequestObjectification] else [])
       ++ (if non_evictable_ram_exceeded then [RequestRangeMove] else [])
       ++ (if soft_debt_exceeded then [ActionRateLimit] else [])
       ++ (if non_evictable_ram_exceeded || hard_debt_exceeded then [RefuseCommit] else []);
     kvd_snapshot :=
       {| kvs_range_engine_count := size (kvr_ranges r);
          kvs_fixed_range_ram_bytes := fixed;
          kvs_objectification_debt_bytes := debt;
          kvs_accounted_ram_bytes := saturating_add fixed admitted_ram;
          kvs_accounted_nvme_bytes := admitted_nvme;
          kvs_evicted_ram_cache_bytes := evicted_ram;
          kvs_evicted_nvme_cache_bytes := evicted_nvme |} |}.

(** ** What a runtime promises *)

(** The number of ranges stays within the limit and the debt bounds are ordered. *)
Record runtime_wf (r : KvRuntime) : Prop := {
  rwf_count : size (kvr_ranges r) ≤ kvc_max_range_engines (kvr_config r);
  rwf_debt : (kvc_soft_objectification_debt_bytes (kvr_config r)
              ≤ kvc_hard_objectification_debt_bytes (kvr_config r))%N;
  rwf_ram : (kvc_ram_limit_bytes (kvr_config r) ≤ U64_MAX)%N;
}.

Lemma runtime_new_wf config r :
  (kvc_ram_limit_bytes config ≤ U64_MAX)%N → runtime_new config = Ok r → runtime_wf r.
Proof.
  intros Hram. unfold runtime_new. case_guards; try done. intros [= <-].
  split; cbn; [rewrite map_size_empty; lia| |done]. by apply N.ltb_ge.
Qed.

Lemma assign_range_engine_wf r id usage : runtime_wf r → runtime_wf (assign_range_engine r id usage).1.
Proof.
  intros [Hc Hd Hr]. unfold assign_range_engine.
  destruct (is_some _) eqn:E1; [by split|]. destruct (_ <=? _) eqn:E2; [by split|].
  apply Nat.leb_gt in E2. split; cbn [fst kvr_ranges kvr_config]; try done.
  rewrite map_size_insert. destruct (kvr_ranges r !! id); [done|]. lia.
Qed.

(** The cache gives way first: what is accounted stays within the limits unless
    the ranges alone exceed them, cache is evicted exactly by the missing
    amount, and commits are refused exactly when evicting cannot help. *)
Theorem pressure_bounded r :
  runtime_wf r →
  let d := pressure_decision r in
  let s := kvd_snapshot d in
  let config := kvr_config r in
  (kvs_accounted_nvme_bytes s ≤ kvc_nvme_limit_bytes config)%N ∧
  (kvs_accounted_nvme_bytes s + kvs_evicted_nvme_cache_bytes s = kvr_nvme_cache_demand_bytes r)%N ∧
  (kvs_fixed_range_ram_bytes s ≤ kvc_ram_limit_bytes config →
     kvs_accounted_ram_bytes s ≤ kvc_ram_limit_bytes config ∧
     kvs_accounted_ram_bytes s + kvs_evicted_ram_cache_bytes s
       = kvs_fixed_range_ram_bytes s + kvr_ram_cache_demand_bytes r)%N ∧
  (RefuseCommit ∈ kvd_actions d ↔ kvd_admission d = Refuse) ∧
  (ActionRateLimit ∈ kvd_actions d ↔ (kvc_soft_objectification_debt_bytes config
     < kvs_objectification_debt_bytes s)%N) ∧
  (kvd_admission d = Admit ↔
     (kvs_fixed_range_ram_bytes s ≤ kvc_ram_limit_bytes config ∧
      kvs_objectification_debt_bytes s ≤ kvc_soft_objectification_debt_bytes config)%N).
Proof.
  intros [_ Hd Hram]. cbn zeta. unfold pressure_decision.
  cbn [kvd_snapshot kvd_actions kvd_admission kvs_accounted_nvme_bytes kvs_evicted_nvme_cache_bytes
    kvs_fixed_range_ram_bytes kvs_accounted_ram_bytes kvs_evicted_ram_cache_bytes
    kvs_objectification_debt_bytes].
  unfold saturating_sub, saturating_add.
  set (fixed := fixed_range_ram r). set (debt := objectification_debt r).
  split_and!; [lia|lia|intros; lia|..].
  - rewrite !elem_of_app. repeat case_match; set_solver.
  - rewrite !elem_of_app, <-N.ltb_lt. repeat case_match; set_solver.
  - destruct (kvc_ram_limit_bytes (kvr_config r) <? fixed)%N eqn:E1;
      destruct (kvc_hard_objectification_debt_bytes (kvr_config r) <? debt)%N eqn:E2;
      destruct (kvc_soft_objectification_debt_bytes (kvr_config r) <? debt)%N eqn:E3;
      cbn [orb]; rewrite ?N.ltb_lt, ?N.ltb_ge in *; (split; [done || lia|]); done || lia.
Qed.
