(* ===== verification/PgPage.v ===== *)
(** * PostgreSQL relation pages over objectKV

    The keys and values of relation pages and relation extents, the admission of
    page writes, their plan as a cell transaction and its receipt, and the reads
    through the routed client: [okv-postgres/src/lib.rs], [extent.rs], [write.rs]
    and [commit.rs]. *)

From S2P Require Import Prelude Order BTree Bytes Version Mvcc Quorum Envelope.
From S2P Require Import CellTypes CellCert CellState StateMachine RangeRead.

(** ** Identities *)
Definition POSTGRES_PAGE_SIZE : nat := 8 * 1024.
Definition PAGE_KEY_PREFIX : bytes := 1%N :: string_bytes "okv/pg/page/v1/".
Definition PAGE_VALUE_MAGIC : bytes := string_bytes "OKVPGP01".
Definition PAGE_VALUE_FORMAT_VERSION : N := 1.
Definition PAGE_VALUE_HEADER_BYTES : nat := 8 + 2 + 8 + 2 + 4 + 32.
Definition EXTENT_KEY_PREFIX : bytes := 1%N :: string_bytes "okv/pg/extent/v1/".
Definition EXTENT_VALUE_MAGIC : bytes := string_bytes "OKVPGX01".
Definition EXTENT_VALUE_FORMAT_VERSION : N := 1.
Definition EXTENT_VALUE_BYTES : nat := 8 + 2 + 4 + 32.
Definition MAXIMUM_PAGES_PER_BATCH : nat := 128.

Record PostgresRelationForkIdentity := {
  prf_cluster_id : bytes;
  prf_tablespace_oid : N;
  prf_database_oid : N;
  prf_relation_number : N;
  prf_temporary_backend_id : N;
  prf_fork_number : N;
}.
#[global] Instance PostgresRelationForkIdentity_eq_dec : EqDecision PostgresRelationForkIdentity.
Proof. solve_decision. Defined.

Record PostgresPageIdentity := {
  ppi_cluster_id : bytes;
  ppi_tablespace_oid : N;
  ppi_database_oid : N;
  ppi_relation_number : N;
  ppi_temporary_backend_id : N;
  ppi_fork_number : N;
  ppi_block_number : N;
}.

Definition encode_key (p : PostgresPageIdentity) : bytes :=
  PAGE_KEY_PREFIX ++ ppi_cluster_id p ++ u32_be (ppi_tablespace_oid p)
  ++ u32_be (ppi_database_oid p) ++ u32_be (ppi_relation_number p)
  ++ u32_be (ppi_temporary_backend_id p) ++ [ppi_fork_number p] ++ u32_be (ppi_block_number p).

Definition relation_fork (p : PostgresPageIdentity) : PostgresRelationForkIdentity :=
  {| prf_cluster_id := ppi_cluster_id p; prf_tablespace_oid := ppi_tablespace_oid p;
     prf_database_oid := ppi_database_oid p; prf_relation_number := ppi_relation_number p;
     prf_temporary_backend_id := ppi_temporary_backend_id p;
     prf_fork_number := ppi_fork_number p |}.

Definition encode_extent_key (f : PostgresRelationForkIdentity) : bytes :=
  EXTENT_KEY_PREFIX ++ prf_cluster_id f ++ u32_be (prf_tablespace_oid f)
  ++ u32_be (prf_database_oid f) ++ u32_be (prf_relation_number f)
  ++ u32_be (prf_temporary_backend_id f) ++ [prf_fork_number f].

Definition page_of (f : PostgresRelationForkIdentity) (block_number : N) : PostgresPageIdentity :=
  {| ppi_cluster_id := prf_cluster_id f; ppi_tablespace_oid := prf_tablespace_oid f;
     ppi_database_oid := prf_database_oid f; ppi_relation_number := prf_relation_number f;
     ppi_temporary_backend_id := prf_temporary_backend_id f;
     ppi_fork_number := prf_fork_number f; ppi_block_number := block_number |}.

Definition with_block (p : PostgresPageIdentity) (block_number : N) : PostgresPageIdentity :=
  page_of (relation_fork p) block_number.

(** ** Page values *)
Record PostgresPage := {
  pg_page_lsn : N;
  pg_postgres_checksum : N;
  pg_bytes : bytes;
}.
#[global] Instance PostgresPage_eq_dec : EqDecision PostgresPage.
Proof. solve_decision. Defined.

Inductive PostgresPageBridgeError :=
  | InvalidPageLength (expected actual : nat)
  | UnsupportedPageFormat (requested supported : N)
  | MalformedPageValue
  | PagePayloadChecksumMismatch
  | PageLsnBeyondSnapshot (page_lsn maximum : N)
  | PageBlockRangeOverflow
  | MissingPage (block_number : N)
  | UnexpectedPageKey (block_number : N)
  | PageObjectKvRead (error : KvReadClientError).

Inductive PostgresRelationExtentError :=
  | MalformedExtent
  | UnsupportedExtentFormat (requested supported : N)
  | ExtentDigestMismatch
  | ExtentObjectKvRead (error : KvReadClientError).

Definition page_new (page_lsn postgres_checksum : N) (b : bytes)
    : res PostgresPageBridgeError PostgresPage :=
  if negb (length b =? POSTGRES_PAGE_SIZE)
  then Err (InvalidPageLength POSTGRES_PAGE_SIZE (length b))
  else Ok {| pg_page_lsn := page_lsn; pg_postgres_checksum := postgres_checksum; pg_bytes := b |}.

(** [checked_add] on [u32]. *)
Definition checked_add_u32 (a b : N) : option N :=
  if (a + b <=? U32_MAX)%N then Some (a + b)%N else None.

(** [encoded.get(offset..offset + width)]. *)
Definition read_be (encoded : bytes) (offset width : nat) : res PostgresPageBridgeError N :=
  if offset + width <=? length encoded then Ok (of_be (slice offset (offset + width) encoded))
  else Err MalformedPageValue.

Section pages.
Context (sha256 : bytes → bytes).

Definition page_encode (p : PostgresPage) : bytes :=
  PAGE_VALUE_MAGIC ++ u16_be PAGE_VALUE_FORMAT_VERSION ++ u64_be (pg_page_lsn p)
  ++ u16_be (pg_postgres_checksum p) ++ u32_be (N.min (len (pg_bytes p)) U32_MAX)
  ++ sha256 (pg_bytes p) ++ pg_bytes p.

Definition page_decode (encoded : bytes) : res PostgresPageBridgeError PostgresPage :=
  if length encoded <? PAGE_VALUE_HEADER_BYTES then Err MalformedPageValue
  else if negb (bool_decide (take 8 encoded = PAGE_VALUE_MAGIC)) then Err MalformedPageValue
  else
    let? format_version := read_be encoded 8 2 in
    if negb (format_version =? PAGE_VALUE_FORMAT_VERSION)%N
    then Err (UnsupportedPageFormat format_version PAGE_VALUE_FORMAT_VERSION)
    else
      let? page_lsn := read_be encoded 10 8 in
      let? postgres_checksum := read_be encoded 18 2 in
      let? payload_length := read_be encoded 20 4 in
      let payload_length := N.to_nat payload_length in
      if negb (payload_length =? POSTGRES_PAGE_SIZE)
         || negb (length encoded =? PAGE_VALUE_HEADER_BYTES + payload_length)
      then Err (InvalidPageLength POSTGRES_PAGE_SIZE payload_length)
      else
        let b := drop PAGE_VALUE_HEADER_BYTES encoded in
        if negb (bool_decide (slice 24 56 encoded = sha256 b))
        then Err PagePayloadChecksumMismatch
        else Ok {| pg_page_lsn := page_lsn; pg_postgres_checksum := postgres_checksum;
                   pg_bytes := b |}.

(** ** Extents *)
Definition extent_digest (nblocks : N) : bytes :=
  sha256 (string_bytes "objectkv/postgres/relation-extent/v1" ++ u32_be nblocks).

Definition extent_encode (nblocks : N) : bytes :=
  EXTENT_VALUE_MAGIC ++ u16_be EXTENT_VALUE_FORMAT_VERSION ++ u32_be nblocks
  ++ extent_digest nblocks.

Definition extent_decode (encoded : bytes) : res PostgresRelationExtentError N :=
  if negb (length encoded =? EXTENT_VALUE_BYTES)
     || negb (bool_decide (take 8 encoded = EXTENT_VALUE_MAGIC))
  then Err MalformedExtent
  else
    let format_version := of_be (slice 8 10 encoded) in
    if negb (format_version =? EXTENT_VALUE_FORMAT_VERSION)%N
    then Err (UnsupportedExtentFormat format_version EXTENT_VALUE_FORMAT_VERSION)
    else
      let nblocks := of_be (slice 10 14 encoded) in
      if negb (bool_decide (drop 14 encoded = extent_digest nblocks))
      then Err ExtentDigestMismatch
      else Ok nblocks.

(** ** Reads *)
Record PostgresPageReadSnapshot := { prs_objectkv_version : N; prs_maximum_page_lsn : N }.

Definition decode_at_snapshot (snapshot : PostgresPageReadSnapshot) (encoded : bytes)
    : res PostgresPageBridgeError PostgresPage :=
  let? page := page_decode encoded in
  if (prs_maximum_page_lsn snapshot <? pg_page_lsn page)%N
  then Err (PageLsnBeyondSnapshot (pg_page_lsn page) (prs_maximum_page_lsn snapshot))
  else Ok page.

(** The turn of the loop of [decode_page_rows] at an offset. *)
Definition decode_page_row (first : PostgresPageIdentity) (snapshot : PostgresPageReadSnapshot)
    (rows : list Row) (offset : nat) : res PostgresPageBridgeError PostgresPage :=
  if (U32_MAX <? N.of_nat offset)%N then Err PageBlockRangeOverflow
  else
    match checked_add_u32 (ppi_block_number first) (N.of_nat offset) with
    | None => Err PageBlockRangeOverflow
    | Some block_number =>
        let expected_key := encode_key (with_block first block_number) in
        match rows !! offset with
        | None => Err (MissingPage block_number)
        | Some (key, value) =>
            if negb (bool_decide (key = expected_key)) then
              if expected_key <ₖ? key then Err (MissingPage block_number)
              else Err (UnexpectedPageKey block_number)
            else decode_at_snapshot snapshot value
        end
    end.

Definition decode_page_rows (first : PostgresPageIdentity) (block_count : nat)
    (snapshot : PostgresPageReadSnapshot) (rows : list Row)
    : res PostgresPageBridgeError (list PostgresPage) :=
  let? pages := res_collect (decode_page_row first snapshot rows) (seq 0 block_count) in
  if negb (length rows =? block_count) then
    match checked_add_u32 (ppi_block_number first) (N.of_nat block_count) with
    | None => Err PageBlockRangeOverflow
    | Some block_number =>
        if (U32_MAX <? N.of_nat block_count)%N then Err PageBlockRangeOverflow
        else Err (UnexpectedPageKey block_number)
    end
  else Ok pages.

Section reader.
(** The client of [RangeRead.v] and the world around it. *)
Context {W : Type}.
Context (request_range_read :
  W → string → RoutedRangeReadRequest → Outcome * option ClientRangeMapSnapshot * W).
Context (range_map_snapshot :
  W → bytes → bytes → (string + ClientRangeMapSnapshot) * option ClientRangeMapSnapshot * W).

Abbreviation point := (point_at request_range_read range_map_snapshot).
Abbreviation scan := (client_scan_at request_range_read range_map_snapshot).

(** [value.map(decode).transpose()]. *)
Definition transpose {E A} (decode : bytes → res E A) (value : option bytes) : res E (option A) :=
  match value with None => Ok None | Some encoded => res_map Some (decode encoded) end.

Definition read_page (w : W) (c : KvReadClient) (identity : PostgresPageIdentity)
    (snapshot : PostgresPageReadSnapshot)
    : W * KvReadClient * res PostgresPageBridgeError (option PostgresPage) :=
  let '(w, c, value) := point w c (encode_key identity) (prs_objectkv_version snapshot) in
  (w, c, let? value := map_err PageObjectKvRead value in
         transpose (decode_at_snapshot snapshot) value).

Definition read_nblocks (w : W) (c : KvReadClient) (relation : PostgresRelationForkIdentity)
    (objectkv_version : N) : W * KvReadClient * res PostgresRelationExtentError (option N) :=
  let '(w, c, value) := point w c (encode_extent_key relation) objectkv_version in
  (w, c, let? value := map_err ExtentObjectKvRead value in transpose extent_decode value).

Definition read_pages (w : W) (c : KvReadClient) (first : PostgresPageIdentity)
    (block_count : nat) (snapshot : PostgresPageReadSnapshot)
    : W * KvReadClient * res PostgresPageBridgeError (list PostgresPage) :=
  if block_count =? 0 then (w, c, Ok [])
  else if (U32_MAX <? N.of_nat block_count)%N then (w, c, Err PageBlockRangeOverflow)
  else
    match checked_add_u32 (ppi_block_number first) (N.of_nat block_count) with
    | None => (w, c, Err PageBlockRangeOverflow)
    | Some exclusive_block =>
        let '(w, c, rows) :=
          scan w c (encode_key first) (encode_key (with_block first exclusive_block))
            (prs_objectkv_version snapshot) block_count in
        (w, c, let? rows := map_err PageObjectKvRead rows in
               decode_page_rows first block_count snapshot rows)
    end.
End reader.
End pages.
