(* ===== verification/PgCommit.v ===== *)
(** * PostgreSQL page writes

    WAL-before-page admission ([okv-postgres/src/write.rs]) and the cell
    transaction an admitted batch becomes, with the check of its receipt
    ([commit.rs]). *)

From S2P Require Import Prelude Order BTree Bytes Version Mvcc Quorum Envelope.
From S2P Require Import CellTypes CellCert CellState StateMachine PgPage.

(** ** Admission *)
Record PostgresPageWriteBatch := {
  pwb_first : PostgresPageIdentity;
  pwb_expected_objectkv_version : N;
  pwb_postgres_wal_flush_lsn : N;
  pwb_request_id : bytes;
  pwb_pages : list PostgresPage;
}.

Record PostgresPageWriteAdmission := {
  pwa_relation : PostgresRelationForkIdentity;
  pwa_expected_objectkv_version : N;
  pwa_postgres_wal_flush_lsn : N;
  pwa_maximum_page_lsn : N;
  pwa_first_block : N;
  pwa_page_count : nat;
  pwa_request_id : bytes;
  pwa_mutation_sha256 : bytes;
  pwa_mutations : list CellMutation;
}.

Inductive PostgresPageWriteError :=
  | ZeroObjectKvVersion
  | EmptyBatch
  | BatchTooLarge (maximum actual : nat)
  | WriteBlockRangeOverflow
  | WalBehindPage (block_number page_lsn wal_flush_lsn : N).

(** [first_block + offset], both conversions checked. *)
Definition block_at (first_block : N) (offset : nat) : option N :=
  if (U32_MAX <? N.of_nat offset)%N then None else checked_add_u32 first_block (N.of_nat offset).

Section write.
Context (sha256 : bytes → bytes).

(** The turn of the loop that checks a page against the flushed WAL. *)
Definition check_page_wal (batch : PostgresPageWriteBatch) (maximum_page_lsn : N)
    (entry : nat * PostgresPage) : res PostgresPageWriteError N :=
  match block_at (ppi_block_number (pwb_first batch)) entry.1 with
  | None => Err WriteBlockRangeOverflow
  | Some block_number =>
      if (pwb_postgres_wal_flush_lsn batch <? pg_page_lsn entry.2)%N
      then Err (WalBehindPage block_number (pg_page_lsn entry.2) (pwb_postgres_wal_flush_lsn batch))
      else Ok (N.max maximum_page_lsn (pg_page_lsn entry.2))
  end.

Definition page_mutation (batch : PostgresPageWriteBatch) (entry : nat * PostgresPage)
    : res PostgresPageWriteError CellMutation :=
  match block_at (ppi_block_number (pwb_first batch)) entry.1 with
  | None => Err WriteBlockRangeOverflow
  | Some block_number =>
      Ok (CSet (encode_key (with_block (pwb_first batch) block_number))
            (page_encode sha256 entry.2))
  end.

Definition digest_mutation (m : CellMutation) : bytes :=
  match m with
  | CSet key value =>
      [1%N] ++ u64_be (len key) ++ key ++ u64_be (len value) ++ value
  | CClear key => [2%N] ++ u64_be (len key) ++ key
  end.

Definition mutation_digest (batch : PostgresPageWriteBatch) (mutations : list CellMutation)
    : bytes :=
  sha256 (string_bytes "objectkv/postgres/page-write-admission/v1"
    ++ u64_be (pwb_expected_objectkv_version batch)
    ++ u64_be (pwb_postgres_wal_flush_lsn batch)
    ++ pwb_request_id batch ++ concat (digest_mutation <$> mutations)).

Definition admit_postgres_page_write (batch : PostgresPageWriteBatch)
    : res PostgresPageWriteError PostgresPageWriteAdmission :=
  if (pwb_expected_objectkv_version batch =? 0)%N then Err ZeroObjectKvVersion
  else if length (pwb_pages batch) =? 0 then Err EmptyBatch
  else if MAXIMUM_PAGES_PER_BATCH <? length (pwb_pages batch)
  then Err (BatchTooLarge MAXIMUM_PAGES_PER_BATCH (length (pwb_pages batch)))
  else
    match block_at (ppi_block_number (pwb_first batch)) (length (pwb_pages batch)) with
    | None => Err WriteBlockRangeOverflow
    | Some _ =>
        let? maximum_page_lsn :=
          res_fold (check_page_wal batch) (imap pair (pwb_pages batch)) 0%N in
        let? mutations := res_collect (page_mutation batch) (imap pair (pwb_pages batch)) in
        Ok {| pwa_relation := relation_fork (pwb_first batch);
              pwa_expected_objectkv_version := pwb_expected_objectkv_version batch;
              pwa_postgres_wal_flush_lsn := pwb_postgres_wal_flush_lsn batch;
              pwa_maximum_page_lsn := maximum_page_lsn;
              pwa_first_block := ppi_block_number (pwb_first batch);
              pwa_page_count := length (pwb_pages batch);
              pwa_request_id := pwb_request_id batch;
              pwa_mutation_sha256 := mutation_digest batch mutations;
              pwa_mutations := mutations |}
    end.

(** ** The transaction of a batch *)
Inductive PostgresPageCommitOperation := WriteExisting | Extend.

Record PostgresPageCommitContext := {
  pcc_cell_id : bytes;
  pcc_tenant_id : bytes;
  pcc_generation : N;
  pcc_accepted_resolvers : list N;
  pcc_durable_log_tags : list N;
}.

Record PostgresPageCommitPlan := {
  pcp_operation : PostgresPageCommitOperation;
  pcp_relation : PostgresRelationForkIdentity;
  pcp_previous_nblocks : N;
  pcp_resulting_nblocks : N;
  pcp_maximum_page_lsn : N;
  pcp_admission_mutation_sha256 : bytes;
  pcp_command_sha256 : bytes;
  pcp_command : CellTransactionCommand;
}.

Record PostgresPageCommitReceipt := {
  pcr_transaction_identity : RequestIdentity;
  pcr_generation : N;
  pcr_previous_objectkv_version : N;
  pcr_committed_objectkv_version : N;
  pcr_previous_nblocks : N;
  pcr_resulting_nblocks : N;
  pcr_maximum_page_lsn : N;
  pcr_admission_mutation_sha256 : bytes;
  pcr_command_sha256 : bytes;
  pcr_committed_envelope_sha256 : bytes;
}.

(** The texts of [CommandEncoding] and [AuthorityRefused] are not kept. *)
Inductive PostgresPageCommitError :=
  | InvalidContext
  | CommitBlockRangeOverflow
  | PagesBeyondExtent (exclusive_end nblocks : N)
  | ExtentChangedForExistingWrite (previous resulting : N)
  | NonContiguousExtend (first_block : N) (page_count : nat) (previous resulting : N)
  | CommandEncoding
  | ResponseIdentityMismatch
  | AuthorityRefused (error : ApplyError)
  | MissingTransactionOutcome
  | TransactionNotCommitted (status : CellTransactionStatus)
  | GenerationMismatch (expected observed : N)
  | MissingCommitVersion
  | NonAdvancingCommitVersion (read_version commit_version : N)
  | MissingCommittedEnvelope.

Definition request_identity (request_id : bytes) : RequestIdentity :=
  {| rid_client_id := of_be (slice 0 8 request_id);
     rid_request_id := of_be (slice 8 16 request_id) |}.

(** The extent rules of the two operations. *)
Definition check_extent (admission : PostgresPageWriteAdmission)
    (operation : PostgresPageCommitOperation) (previous_nblocks resulting_nblocks exclusive_end : N)
    : res PostgresPageCommitError () :=
  match operation with
  | WriteExisting =>
      if negb (previous_nblocks =? resulting_nblocks)%N
      then Err (ExtentChangedForExistingWrite previous_nblocks resulting_nblocks)
      else if (previous_nblocks <? exclusive_end)%N
      then Err (PagesBeyondExtent exclusive_end previous_nblocks)
      else Ok ()
  | Extend =>
      if negb (pwa_first_block admission =? previous_nblocks)%N
         || negb (exclusive_end =? resulting_nblocks)%N
         || (resulting_nblocks <=? previous_nblocks)%N
      then Err (NonContiguousExtend (pwa_first_block admission) (pwa_page_count admission)
                  previous_nblocks resulting_nblocks)
      else Ok ()
  end.

Definition plan_command (admission : PostgresPageWriteAdmission) (resulting_nblocks : N)
    (context : PostgresPageCommitContext) : CellTransactionCommand :=
  let extent_key := encode_extent_key (pwa_relation admission) in
  let mutations :=
    pwa_mutations admission ++ [CSet extent_key (extent_encode sha256 resulting_nblocks)] in
  {| ct_identity := request_identity (pwa_request_id admission); ct_credential := None;
     ct_cell_id := pcc_cell_id context; ct_tenant_id := pcc_tenant_id context;
     ct_generation := pcc_generation context;
     ct_read_version :=
       {| crv_generation := pcc_generation context;
          crv_sequence := pwa_expected_objectkv_version admission |};
     ct_read_conflicts := [range_point extent_key];
     ct_write_conflicts := sort_dedup ((λ m, range_point (mutation_key m)) <$> mutations);
     ct_mutations := mutations; ct_partitioned_resolution := None;
     ct_accepted_resolvers := pcc_accepted_resolvers context;
     ct_durable_log_tags := pcc_durable_log_tags context |}.

Context `{CellJson}.

Definition plan_postgres_page_commit (admission : PostgresPageWriteAdmission)
    (operation : PostgresPageCommitOperation) (previous_nblocks resulting_nblocks : N)
    (context : PostgresPageCommitContext) : res PostgresPageCommitError PostgresPageCommitPlan :=
  if (pcc_generation context =? 0)%N || bool_decide (pcc_accepted_resolvers context = [])
     || bool_decide (pcc_durable_log_tags context = [])
  then Err InvalidContext
  else
    match block_at (pwa_first_block admission) (pwa_page_count admission) with
    | None => Err CommitBlockRangeOverflow
    | Some exclusive_end =>
        let? _ := check_extent admission operation previous_nblocks resulting_nblocks
                    exclusive_end in
        let command := plan_command admission resulting_nblocks context in
        match cell_partitioned_transaction_sha256 sha256 command with
        | None => Err CommandEncoding
        | Some command_sha256 =>
            Ok {| pcp_operation := operation; pcp_relation := pwa_relation admission;
                  pcp_previous_nblocks := previous_nblocks;
                  pcp_resulting_nblocks := resulting_nblocks;
                  pcp_maximum_page_lsn := pwa_maximum_page_lsn admission;
                  pcp_admission_mutation_sha256 := pwa_mutation_sha256 admission;
                  pcp_command_sha256 := command_sha256; pcp_command := command |}
        end
    end.

(** ** The receipt of a commit *)
Definition verify_postgres_page_commit (plan : PostgresPageCommitPlan) (response : ApplyResponse)
    : res PostgresPageCommitError PostgresPageCommitReceipt :=
  if negb (bool_decide (ar_identity response = Some (ct_identity (pcp_command plan))))
  then Err ResponseIdentityMismatch
  else
    match ar_error response, ar_cell_transaction response with
    | Some error, _ => Err (AuthorityRefused error)
    | None, None => Err MissingTransactionOutcome
    | None, Some outcome =>
        if negb (bool_decide (ctr_status outcome = TCommitted))
        then Err (TransactionNotCommitted (ctr_status outcome))
        else if negb (ctr_generation outcome =? ct_generation (pcp_command plan))%N
        then Err (GenerationMismatch (ct_generation (pcp_command plan)) (ctr_generation outcome))
        else
          let read_version := crv_sequence (ct_read_version (pcp_command plan)) in
          match ctr_commit_sequence outcome, ctr_envelope outcome with
          | None, _ => Err MissingCommitVersion
          | Some committed_objectkv_version, envelope =>
              if (committed_objectkv_version <=? read_version)%N
              then Err (NonAdvancingCommitVersion read_version committed_objectkv_version)
              else
                match envelope with
                | None => Err MissingCommittedEnvelope
                | Some envelope =>
                    Ok {| pcr_transaction_identity := ct_identity (pcp_command plan);
                          pcr_generation := ctr_generation outcome;
                          pcr_previous_objectkv_version := read_version;
                          pcr_committed_objectkv_version := committed_objectkv_version;
                          pcr_previous_nblocks := pcp_previous_nblocks plan;
                          pcr_resulting_nblocks := pcp_resulting_nblocks plan;
                          pcr_maximum_page_lsn := pcp_maximum_page_lsn plan;
                          pcr_admission_mutation_sha256 := pcp_admission_mutation_sha256 plan;
                          pcr_command_sha256 := pcp_command_sha256 plan;
                          pcr_committed_envelope_sha256 := sha256 envelope |}
                end
          end
    end.
End write.
