(* ===== verification/PgCodec.v ===== *)
(** * The PostgreSQL keys and values are exact

    What [PostgresPage::decode] and [PostgresRelationExtent::decode] accept is
    what [encode] writes; the keys of different blocks, forks and kinds differ,
    the blocks of a fork sort by number, and nothing else sorts between them but
    keys of the same fork. *)

From S2P Require Import Prelude Order BTree Bytes Version Mvcc Envelope EnvelopeCodec.
From S2P Require Import CellTypes PgPage.

Definition u32_fits (n : N) : Prop := (n ≤ U32_MAX)%N.

(** ** Values *)
Record page_wf (p : PostgresPage) : Prop := {
  pwf_lsn : u64_wf (pg_page_lsn p);
  pwf_checksum : (pg_postgres_checksum p < 65536)%N;
  pwf_length : length (pg_bytes p) = POSTGRES_PAGE_SIZE;
}.

Lemma u32_fits_pow n : u32_fits n ↔ (n < 256 ^ N.of_nat 4)%N.
Proof. unfold u32_fits. rewrite U32_pow. lia. Qed.

Lemma of_be_slice_bound w a b (l : bytes) :
  bytes_wf l → b ≤ length l → b - a = w → (of_be (slice a b l) < 256 ^ N.of_nat w)%N.
Proof.
  intros Hl Hb <-. rewrite <-(length_slice a b l) by done. apply of_be_bound, slice_wf, Hl.
Qed.

Lemma be_of_be_slice w a b (l : bytes) :
  bytes_wf l → b ≤ length l → b - a = w → be w (of_be (slice a b l)) = slice a b l.
Proof. intros Hl Hb <-. apply be_of_be_len; [by apply length_slice|by apply slice_wf]. Qed.

(** The payload length field of a page. *)
Lemma page_length_field :
  N.min (N.of_nat POSTGRES_PAGE_SIZE) U32_MAX = 8192%N ∧ N.to_nat 8192 = POSTGRES_PAGE_SIZE.
Proof. by vm_compute. Qed.

#[local] Opaque POSTGRES_PAGE_SIZE.

Section codec.
Context (sha256 : bytes → bytes) (sha256_len : digest_len sha256).

Lemma page_decode_encode p : page_wf p → page_decode sha256 (page_encode sha256 p) = Ok p.
Proof.
  intros [Hlsn Hck Hlen]. destruct page_length_field as [Hf Hn].
  assert (N.min (len (pg_bytes p)) U32_MAX = 8192%N) as Hlf by (unfold len; by rewrite Hlen).
  unfold page_encode. rewrite Hlf.
  set (e := PAGE_VALUE_MAGIC ++ _).
  assert (length e = 56 + POSTGRES_PAGE_SIZE) as He.
  { unfold e. rewrite !length_app, !length_u16_be, length_u64_be, length_u32_be, sha256_len, Hlen.
    by change (length PAGE_VALUE_MAGIC) with 8. }
  unfold page_decode, PAGE_VALUE_HEADER_BYTES, read_be. rewrite He.
  assert (take 8 e = PAGE_VALUE_MAGIC) as -> by by (unfold e; apply take_app_length').
  assert (slice 8 10 e = u16_be 1) as Hs1 by by apply slice_app_at.
  assert (slice 10 18 e = u64_be (pg_page_lsn p)) as Hs2.
  { unfold e. rewrite (app_assoc PAGE_VALUE_MAGIC). by apply slice_app_at. }
  assert (slice 18 20 e = u16_be (pg_postgres_checksum p)) as Hs3.
  { unfold e. rewrite 2!app_assoc. by apply slice_app_at. }
  assert (slice 20 24 e = u32_be 8192) as Hs4.
  { unfold e. rewrite 3!app_assoc. by apply slice_app_at. }
  assert (slice 24 56 e = sha256 (pg_bytes p)) as Hs5.
  { unfold e. rewrite 4!app_assoc. apply slice_app_at; [done|]. by rewrite sha256_len. }
  assert (drop 56 e = pg_bytes p) as Hs6.
  { unfold e. rewrite 5!app_assoc. apply drop_app_length'.
    rewrite !length_app, sha256_len. done. }
  cbn [Nat.ltb Nat.leb Nat.add negb res_bind]. rewrite bool_decide_true by done. cbn [negb].
  rewrite Hs1, Hs2, Hs3, Hs4, Hs5, Hs6. change (of_be (u16_be 1)) with 1%N.
  cbn [negb N.eqb Pos.eqb PAGE_VALUE_FORMAT_VERSION res_bind].
  rewrite of_u64_be by done.
  assert (of_be (u16_be (pg_postgres_checksum p)) = pg_postgres_checksum p) as -> by by apply of_be_be.
  assert (of_be (u32_be 8192) = 8192%N) as -> by by apply of_be_be.
  rewrite Hn, !Nat.eqb_refl, bool_decide_true by done. by destruct p.
Qed.

Lemma page_decode_Ok b p :
  bytes_wf b → page_decode sha256 b = Ok p → page_wf p ∧ b = page_encode sha256 p.
Proof.
  intros Hb. unfold page_decode, read_be. change PAGE_VALUE_HEADER_BYTES with 56.
  destruct (_ <? _) eqn:E1; [done|]. apply Nat.ltb_ge in E1.
  case_bool_decide as E2; [|done]. cbn [negb].
  rewrite !(proj2 (Nat.leb_le _ (length b))) by lia. cbn [res_bind].
  destruct (_ =? PAGE_VALUE_FORMAT_VERSION)%N eqn:E3; [|done]. apply N.eqb_eq in E3.
  cbn [negb]. destruct (_ || _) eqn:E4; [done|].
  apply orb_false_iff in E4 as [E4 E5]. apply negb_false_iff, Nat.eqb_eq in E4, E5.
  case_bool_decide as E6; [|done]. intros [= <-]. cbn [negb] in *.
  destruct page_length_field as [Hf Hn].
  assert (length (drop 56 b) = POSTGRES_PAGE_SIZE) as Hlen by (rewrite length_drop; lia).
  split.
  - split; cbn [pg_bytes pg_page_lsn pg_postgres_checksum]; [|by apply (of_be_slice_bound 2); [|lia|]|done].
    apply u64_wf_pow, of_be_slice_bound; [done|lia|done].
  - unfold page_encode. cbn [pg_bytes pg_page_lsn pg_postgres_checksum]. unfold len.
    rewrite Hlen, Hf. unfold u16_be, u32_be, u64_be.
    assert (8192%N = of_be (slice 20 24 b)) as ->.
    { apply (inj N.to_nat). etransitivity; [exact Hn|symmetry; exact E4]. }
    rewrite <-E3, <-E6, <-E2, !be_of_be_slice by (done || lia).
    rewrite !slice_drop by lia. symmetry. apply take_drop.
Qed.

(** A page value is decoded exactly when it is the encoding of a page. *)
Theorem page_codec_exact b p :
  bytes_wf b → page_decode sha256 b = Ok p ↔ page_wf p ∧ b = page_encode sha256 p.
Proof.
  intros Hb. split; [by apply page_decode_Ok|]. intros [Hp ->]. by apply page_decode_encode.
Qed.

Lemma extent_decode_encode n : u32_fits n → extent_decode sha256 (extent_encode sha256 n) = Ok n.
Proof.
  intros Hn%u32_fits_pow. unfold extent_decode, extent_encode. set (e := _ ++ _).
  assert (length e = EXTENT_VALUE_BYTES) as ->.
  { unfold e, extent_digest.
    by rewrite !length_app, length_u16_be, length_u32_be, sha256_len. }
  assert (take 8 e = EXTENT_VALUE_MAGIC) as -> by by (unfold e; apply take_app_length').
  assert (slice 8 10 e = u16_be 1) as -> by by apply slice_app_at.
  assert (slice 10 14 e = u32_be n) as ->.
  { unfold e. rewrite (app_assoc EXTENT_VALUE_MAGIC). by apply slice_app_at. }
  assert (of_be (u32_be n) = n) as -> by by apply of_be_be.
  assert (drop 14 e = extent_digest sha256 n) as ->.
  { unfold e. rewrite 2!app_assoc. by apply drop_app_length'. }
  rewrite Nat.eqb_refl, !bool_decide_true by done. done.
Qed.

(** An extent value is decoded exactly when it is the encoding of a count. *)
Theorem extent_codec_exact b n :
  bytes_wf b → extent_decode sha256 b = Ok n ↔ u32_fits n ∧ b = extent_encode sha256 n.
Proof.
  intros Hb. split; [|by intros [Hn ->]; apply extent_decode_encode].
  unfold extent_decode. destruct (_ || _) eqn:E1; [done|].
  apply orb_false_iff in E1 as [E1 E2]. apply negb_false_iff in E1, E2.
  apply Nat.eqb_eq in E1. apply bool_decide_eq_true in E2.
  assert (length b = 46) as Hl by done.
  destruct (_ =? EXTENT_VALUE_FORMAT_VERSION)%N eqn:E3; [|done]. apply N.eqb_eq in E3.
  cbn [negb]. case_bool_decide as E4; [|done]. intros [= <-]. split.
  - apply u32_fits_pow, of_be_slice_bound; [done|lia|done].
  - unfold extent_encode, u16_be, u32_be.
    rewrite <-E2, <-E3, <-E4, !be_of_be_slice by (done || lia).
    rewrite !slice_drop by lia. symmetry. apply take_drop.
Qed.
End codec.

(** ** Keys *)
Record fork_wf (f : PostgresRelationForkIdentity) : Prop := {
  fwf_cluster : length (prf_cluster_id f) = 16;
  fwf_tablespace : u32_fits (prf_tablespace_oid f);
  fwf_database : u32_fits (prf_database_oid f);
  fwf_relation : u32_fits (prf_relation_number f);
  fwf_backend : u32_fits (prf_temporary_backend_id f);
}.

(** The part of both keys that names the fork. *)
Definition fork_bytes (f : PostgresRelationForkIdentity) : bytes :=
  prf_cluster_id f ++ u32_be (prf_tablespace_oid f) ++ u32_be (prf_database_oid f)
  ++ u32_be (prf_relation_number f) ++ u32_be (prf_temporary_backend_id f)
  ++ [prf_fork_number f].

Definition page_key (f : PostgresRelationForkIdentity) (b : N) : bytes := encode_key (page_of f b).

Lemma page_key_fork f b : page_key f b = PAGE_KEY_PREFIX ++ fork_bytes f ++ u32_be b.
Proof. unfold page_key, encode_key, fork_bytes. by rewrite <-!app_assoc. Qed.
Lemma extent_key_fork f : encode_extent_key f = EXTENT_KEY_PREFIX ++ fork_bytes f.
Proof. done. Qed.

Lemma length_fork_bytes f : fork_wf f → length (fork_bytes f) = 33.
Proof.
  intros Hf. unfold fork_bytes. rewrite !length_app, !length_u32_be, (fwf_cluster _ Hf). done.
Qed.

Lemma u32_be_inj n1 n2 : u32_fits n1 → u32_fits n2 → u32_be n1 = u32_be n2 → n1 = n2.
Proof. rewrite !u32_fits_pow. apply be_inj. Qed.

Lemma fork_bytes_inj f1 f2 : fork_wf f1 → fork_wf f2 → fork_bytes f1 = fork_bytes f2 → f1 = f2.
Proof.
  intros [C1 T1 D1 R1 B1] [C2 T2 D2 R2 B2]. unfold fork_bytes.
  intros (E1 & (E2 & (E3 & (E4 & (E5 & [= E6])%app_inj_1)%app_inj_1)%app_inj_1)%app_inj_1)%app_inj_1;
    rewrite ?length_u32_be; [|congruence..].
  destruct f1, f2; cbn in *. f_equal; auto using u32_be_inj.
Qed.

Lemma page_key_inj f1 b1 f2 b2 :
  fork_wf f1 → fork_wf f2 → u32_fits b1 → u32_fits b2 →
  page_key f1 b1 = page_key f2 b2 → f1 = f2 ∧ b1 = b2.
Proof.
  intros Hf1 Hf2 Hb1 Hb2. rewrite !page_key_fork.
  intros (E1 & E2)%app_inv_head%app_inj_1; [|by rewrite !length_fork_bytes].
  split; [by apply fork_bytes_inj|by apply u32_be_inj].
Qed.

Lemma extent_key_inj f1 f2 :
  fork_wf f1 → fork_wf f2 → encode_extent_key f1 = encode_extent_key f2 → f1 = f2.
Proof. rewrite !extent_key_fork. intros ?? ?%app_inv_head. by apply fork_bytes_inj. Qed.

(** The two kinds of keys. *)
Definition pg_key (k : bytes) : Prop :=
  PAGE_KEY_PREFIX `prefix_of` k ∨ EXTENT_KEY_PREFIX `prefix_of` k.

Lemma page_key_pg f b : PAGE_KEY_PREFIX `prefix_of` page_key f b.
Proof. rewrite page_key_fork. by eexists. Qed.
Lemma extent_key_pg f : EXTENT_KEY_PREFIX `prefix_of` encode_extent_key f.
Proof. by eexists. Qed.
Lemma extent_key_not_page f : ¬ PAGE_KEY_PREFIX `prefix_of` encode_extent_key f.
Proof. by intros [l [=]]. Qed.
Lemma page_not_extent_key f1 b f2 : page_key f1 b ≠ encode_extent_key f2.
Proof. intros E. eapply (extent_key_not_page f2). rewrite <-E. apply page_key_pg. Qed.

(** Keys between two keys with a common prefix have it. *)
Lemma between_prefix (p a b k : bytes) : p ++ a ≤ₖ k → k <ₖ p ++ b → p `prefix_of` k.
Proof.
  revert k. induction p as [|x p IH]; intros k Ha Hb; [by exists k|].
  destruct k as [|y k]; [by destruct Ha|].
  unfold key_le, key_lt in *. cbn in Ha, Hb.
  destruct (N.compare_spec x y) as [->|Hlt|Hgt].
  - rewrite N.compare_refl in Hb. apply prefix_cons, IH; [done|exact Hb].
  - rewrite (proj2 (N.compare_gt_iff y x) Hlt) in Hb. done.
  - by destruct Ha.
Qed.

(** The blocks of a fork sort by number. *)
Lemma page_key_cmp f b1 b2 :
  u32_fits b1 → u32_fits b2 → kcmp (page_key f b1) (page_key f b2) = (b1 ?= b2)%N.
Proof.
  rewrite !u32_fits_pow. intros H1 H2. rewrite !page_key_fork, !list_cmp_app_l. by apply be_cmp.
Qed.
Lemma page_key_lt f b1 b2 :
  u32_fits b1 → u32_fits b2 → page_key f b1 <ₖ page_key f b2 ↔ (b1 < b2)%N.
Proof. intros. unfold key_lt. by rewrite page_key_cmp, N.compare_lt_iff. Qed.
Lemma page_key_le f b1 b2 :
  u32_fits b1 → u32_fits b2 → page_key f b1 ≤ₖ page_key f b2 ↔ (b1 ≤ b2)%N.
Proof.
  intros. unfold key_le. rewrite page_key_cmp by done. unfold N.le.
  destruct (b1 ?= b2)%N; naive_solver.
Qed.

(** A page key between two blocks of a fork is a block of that fork. *)
Lemma page_key_between f b1 b2 f' b :
  fork_wf f → fork_wf f' → u32_fits b1 → u32_fits b2 → u32_fits b →
  page_key f b1 ≤ₖ page_key f' b → page_key f' b <ₖ page_key f b2 →
  f' = f ∧ (b1 ≤ b < b2)%N.
Proof.
  intros Hf Hf' Hb1 Hb2 Hb Hle Hlt.
  assert (f' = f) as ->.
  { pose proof (between_prefix (PAGE_KEY_PREFIX ++ fork_bytes f) (u32_be b1) (u32_be b2)
      (page_key f' b)) as [l Hl]; [by rewrite <-app_assoc, <-page_key_fork..|].
    rewrite page_key_fork, <-app_assoc in Hl.
    apply app_inv_head, app_inj_1 in Hl as [E _]; [|by rewrite !length_fork_bytes].
    by apply fork_bytes_inj. }
  apply page_key_le in Hle; [|done..]. apply page_key_lt in Hlt; [|done..]. done.
Qed.
