(* ===== verification/PgRuns.v ===== *)
(** * PostgreSQL relations over the cell

    Runs in which page writes, planned from the extent read at some version, and
    transactions of other clients commit on one cell domain. The rows at every
    version hold, for each relation fork, the pages the acknowledged writes left,
    and nothing else; every acknowledged write found its fork as it was at the
    version it was prepared on. *)

From S2P Require Import Prelude Order BTree Bytes Version Mvcc Quorum Envelope EnvelopeCodec.
From S2P Require Import Generation CellCert CellState CellSerial CellDirect CellDemo StateMachine.
From S2P Require Import CommandCodec PgPage PgCommit PgCodec.

#[local] Opaque POSTGRES_PAGE_SIZE.

(** ** The abstract relations *)
Record pg_write := {
  pw_fork : PostgresRelationForkIdentity;
  pw_version : N;
  pw_first : nat;
  pw_pages : list PostgresPage;
  pw_wal_flush_lsn : N;
}.
Abbreviation pg_log := (list (N * pg_write)).

Definition overwrite {A} (first : nat) (new old : list A) : list A :=
  take first old ++ new ++ drop (first + length new) old.

Definition write_apply (f : PostgresRelationForkIdentity) (pages : list PostgresPage)
    (e : N * pg_write) : list PostgresPage :=
  if decide (pw_fork e.2 = f) then overwrite (pw_first e.2) (pw_pages e.2) pages else pages.

(** The pages of a fork after a log of writes. *)
Definition relation_of (log : pg_log) (f : PostgresRelationForkIdentity) : list PostgresPage :=
  foldl (write_apply f) [] log.

Definition log_upto (v : N) (log : pg_log) : pg_log := List.filter (λ e, (e.1 <=? v)%N) log.
Definition log_before (v : N) (log : pg_log) : pg_log := List.filter (λ e, (e.1 <? v)%N) log.

(** ** Admission and plan *)
Definition write_of (batch : PostgresPageWriteBatch) : pg_write :=
  {| pw_fork := relation_fork (pwb_first batch); pw_version := pwb_expected_objectkv_version batch;
     pw_first := N.to_nat (ppi_block_number (pwb_first batch)); pw_pages := pwb_pages batch;
     pw_wal_flush_lsn := pwb_postgres_wal_flush_lsn batch |}.

Lemma block_at_Some a n b :
  block_at a n = Some b ↔ (a + N.of_nat n ≤ U32_MAX)%N ∧ b = (a + N.of_nat n)%N.
Proof.
  unfold block_at, checked_add_u32. destruct (U32_MAX <? _)%N eqn:E1.
  { apply N.ltb_lt in E1. split; [done|lia]. }
  destruct (_ <=? _)%N eqn:E2; [apply N.leb_le in E2|apply N.leb_gt in E2]; naive_solver lia.
Qed.

Lemma elem_of_imap_pair {A} (l : list A) i x : (i, x) ∈ imap pair l → l !! i = Some x.
Proof. intros (i' & y & [= <- <-] & ?)%elem_of_lookup_imap. done. Qed.

Section plan.
Context (sha256 : bytes → bytes).

(** The mutations of a batch of pages. *)
Fixpoint page_sets (f : PostgresRelationForkIdentity) (first : N) (pages : list PostgresPage)
    : list CellMutation :=
  match pages with
  | [] => []
  | p :: pages => CSet (page_key f first) (page_encode sha256 p) :: page_sets f (first + 1) pages
  end.

Lemma page_mutations batch k pages ms :
  res_collect (page_mutation sha256 batch) (imap (λ i, pair (k + i)) pages) = Ok ms →
  ms = page_sets (relation_fork (pwb_first batch))
         (ppi_block_number (pwb_first batch) + N.of_nat k) pages.
Proof.
  revert k ms. induction pages as [|p pages IH]; intros k ms; cbn [imap res_collect page_sets].
  { by intros [= <-]. }
  intros (m & Hm & (ms' & Hms & [= <-])%res_bind_Ok)%res_bind_Ok. f_equal.
  - unfold page_mutation in Hm. destruct (block_at _ _) as [b|] eqn:Hb; [|done].
    apply block_at_Some in Hb as [_ ->]. injection Hm as <-. cbn [fst snd].
    by rewrite Nat.add_0_r.
  - rewrite (IH (S k) ms'); [f_equal; lia|].
    rewrite <-Hms. f_equal. apply imap_ext. intros i x _. cbn. f_equal. lia.
Qed.

Lemma check_wal_Ok batch entries m m' :
  res_fold (check_page_wal batch) entries m = Ok m' →
  (m ≤ m')%N ∧ ∀ e, e ∈ entries →
    (pg_page_lsn e.2 ≤ m')%N ∧ (pg_page_lsn e.2 ≤ pwb_postgres_wal_flush_lsn batch)%N.
Proof.
  revert m. induction entries as [|e entries IH]; intros m; cbn [res_fold].
  { intros [= ->]. split; [done|]. by intros e []%elem_of_nil. }
  intros (m1 & Hm1 & [Hle Hall]%IH)%res_bind_Ok. unfold check_page_wal in Hm1.
  destruct (block_at _ _); [|done]. destruct (_ <? _)%N eqn:E; [done|]. apply N.ltb_ge in E.
  injection Hm1 as <-. split; [lia|]. intros e' [->|He']%elem_of_cons; [|by apply Hall].
  split; [lia|done].
Qed.

Record admitted (batch : PostgresPageWriteBatch) (a : PostgresPageWriteAdmission) : Prop := {
  ad_relation : pwa_relation a = relation_fork (pwb_first batch);
  ad_version : pwa_expected_objectkv_version a = pwb_expected_objectkv_version batch;
  ad_version_pos : pwb_expected_objectkv_version batch ≠ 0%N;
  ad_first : pwa_first_block a = ppi_block_number (pwb_first batch);
  ad_count : pwa_page_count a = length (pwb_pages batch);
  ad_pos : 0 < length (pwb_pages batch) ≤ MAXIMUM_PAGES_PER_BATCH;
  ad_fits : (ppi_block_number (pwb_first batch) + len (pwb_pages batch) ≤ U32_MAX)%N;
  ad_mutations : pwa_mutations a =
    page_sets (relation_fork (pwb_first batch)) (ppi_block_number (pwb_first batch))
      (pwb_pages batch);
  ad_wal p : p ∈ pwb_pages batch →
    (pg_page_lsn p ≤ pwa_maximum_page_lsn a)%N ∧
    (pg_page_lsn p ≤ pwb_postgres_wal_flush_lsn batch)%N;
}.

Lemma admit_Ok batch a : admit_postgres_page_write sha256 batch = Ok a → admitted batch a.
Proof.
  unfold admit_postgres_page_write. destruct (_ =? 0)%N eqn:E1; [done|].
  apply N.eqb_neq in E1. destruct (_ =? 0) eqn:E2; [done|]. apply Nat.eqb_neq in E2.
  destruct (_ <? _) eqn:E3; [done|]. apply Nat.ltb_ge in E3.
  destruct (block_at _ _) as [b|] eqn:Eb; [|done]. apply block_at_Some in Eb as [Hb _].
  intros (m & Hm & (ms & Hms & [= <-])%res_bind_Ok)%res_bind_Ok.
  split; cbn; try done; [lia| |].
  - rewrite (page_mutations batch 0 (pwb_pages batch) ms Hms). f_equal. lia.
  - intros p (i & Hi)%list_elem_of_lookup_1.
    destruct (check_wal_Ok _ _ _ _ Hm) as [_ Hall]. apply (Hall (i, p)).
    apply elem_of_lookup_imap_2 with (f := pair) in Hi. done.
Qed.
End plan.

(** ** Rows that hold relations *)
Lemma lookup_overwrite_in {A} first (new old : list A) i :
  first ≤ length old → first ≤ i < first + length new →
  overwrite first new old !! i = new !! (i - first).
Proof.
  intros Hf Hi. unfold overwrite. rewrite lookup_app_r; rewrite length_take_le by done; [|lia].
  by rewrite lookup_app_l by lia.
Qed.

Lemma lookup_overwrite_out {A} first (new old : list A) i :
  first ≤ length old → i < first ∨ first + length new ≤ i →
  overwrite first new old !! i = old !! i.
Proof.
  intros Hf Hi. unfold overwrite. destruct (decide (i < first)).
  - rewrite lookup_app_l by (rewrite length_take_le; lia). by rewrite lookup_take_lt.
  - rewrite lookup_app_r; rewrite length_take_le by done; [|lia].
    rewrite lookup_app_r by lia. rewrite lookup_drop. f_equal. lia.
Qed.

Lemma length_overwrite {A} first (new old : list A) :
  first ≤ length old → length (overwrite first new old) = length old `max` (first + length new).
Proof. intros Hf. unfold overwrite. rewrite !length_app, length_take_le, length_drop by done. lia. Qed.

Section rows.
Context (sha256 : bytes → bytes).
Abbreviation sets := (page_sets sha256).

Lemma elem_of_page_sets f first pages m :
  m ∈ sets f first pages →
  ∃ b, (first ≤ b < first + len pages)%N ∧ mutation_key m = page_key f b.
Proof.
  revert first. induction pages as [|p pages IH]; intros first; [by intros []%elem_of_nil|].
  unfold len in *. cbn [page_sets length].
  intros [->|(b & Hb & ->)%IH]%elem_of_cons; [exists first|exists b]; split; (done || lia).
Qed.

Lemma apply_page_sets f first pages rows i p :
  (first + len pages ≤ U32_MAX)%N → fork_wf f → pages !! i = Some p →
  apply_mutations (sets f first pages) rows !! page_key f (first + N.of_nat i)
  = Some (page_encode sha256 p).
Proof.
  unfold len. revert first rows i.
  induction pages as [|q pages IH]; intros first rows i Hfit Hf Hi; [done|].
  cbn [page_sets length] in *. unfold apply_mutations in *. cbn [foldl].
  destruct i as [|i]; cbn in Hi.
  - injection Hi as ->. rewrite N.add_0_r.
    pose proof (apply_mutations_untouched (sets f (first + 1) pages)) as Hu.
    unfold apply_mutations in Hu. rewrite Hu; [apply lookup_insert_eq|].
    intros m (b & Hb & ->)%elem_of_page_sets Heq. unfold len in Hb.
    apply page_key_inj in Heq as [_ ->]; unfold u32_fits; (done || lia).
  - replace (first + N.of_nat (S i))%N with (first + 1 + N.of_nat i)%N by lia.
    apply IH; [lia|done..].
Qed.

Definition extent_row (pages : list PostgresPage) : option bytes :=
  match pages with [] => None | _ => Some (extent_encode sha256 (len pages)) end.

Record rows_hold (rows : gmap bytes bytes)
    (R : PostgresRelationForkIdentity → list PostgresPage) : Prop := {
  rh_extent f : fork_wf f → rows !! encode_extent_key f = extent_row (R f);
  rh_page f b : fork_wf f → u32_fits b →
    rows !! page_key f b = page_encode sha256 <$> R f !! N.to_nat b;
  rh_only k x : rows !! k = Some x → PAGE_KEY_PREFIX `prefix_of` k →
    ∃ f b, fork_wf f ∧ u32_fits b ∧ k = page_key f b;
  rh_wf f : Forall page_wf (R f);
  rh_fits f : u32_fits (len (R f));
}.

Lemma rows_hold_empty : rows_hold ∅ (λ _, []).
Proof. split; try done; try (by intros; rewrite lookup_empty); intros; by constructor. Qed.

Lemma rows_hold_ext rows R R' : (∀ f, R f = R' f) → rows_hold rows R → rows_hold rows R'.
Proof. intros HR []. split; intros; rewrite <-?HR; eauto. Qed.

(** Commits of other clients. *)
Definition foreign (ms : list CellMutation) : Prop := ∀ m, m ∈ ms → ¬ pg_key (mutation_key m).

Lemma foreign_untouched ms rows k :
  foreign ms → pg_key k → apply_mutations ms rows !! k = rows !! k.
Proof. intros Hms Hk. apply apply_mutations_untouched. intros m Hm <-. by apply (Hms m). Qed.

Lemma rows_hold_foreign ms rows R :
  foreign ms → rows_hold rows R → rows_hold (apply_mutations ms rows) R.
Proof.
  intros Hms []. split; try done.
  - intros f Hf. rewrite foreign_untouched by (done || right; apply extent_key_pg). auto.
  - intros f b Hf Hb. rewrite foreign_untouched by (done || left; apply page_key_pg). auto.
  - intros k x Hk Hp. rewrite foreign_untouched in Hk by (done || by left). eauto.
Qed.

(** Commits of pages. *)
Definition update_fork (R : PostgresRelationForkIdentity → list PostgresPage)
    (w : pg_write) (f : PostgresRelationForkIdentity) : list PostgresPage :=
  if decide (pw_fork w = f) then overwrite (pw_first w) (pw_pages w) (R f) else R f.

Definition write_mutations (w : pg_write) (nblocks : N) : list CellMutation :=
  sets (pw_fork w) (N.of_nat (pw_first w)) (pw_pages w)
  ++ [CSet (encode_extent_key (pw_fork w)) (extent_encode sha256 nblocks)].

Lemma apply_write_extent w n rows :
  apply_mutations (write_mutations w n) rows !! encode_extent_key (pw_fork w)
  = Some (extent_encode sha256 n).
Proof.
  unfold apply_mutations, write_mutations. rewrite foldl_app. cbn. apply lookup_insert_eq.
Qed.

Lemma apply_write_page w n rows f b :
  apply_mutations (write_mutations w n) rows !! page_key f b
  = apply_mutations (sets (pw_fork w) (N.of_nat (pw_first w)) (pw_pages w)) rows !! page_key f b.
Proof.
  unfold apply_mutations, write_mutations. rewrite foldl_app. cbn.
  apply lookup_insert_ne. intros E. symmetry in E. revert E. apply page_not_extent_key.
Qed.

(** The other keys. *)
Lemma apply_write_other w n rows k :
  k ≠ encode_extent_key (pw_fork w) →
  (∀ b, (N.of_nat (pw_first w) ≤ b < N.of_nat (pw_first w) + len (pw_pages w))%N →
     k ≠ page_key (pw_fork w) b) →
  apply_mutations (write_mutations w n) rows !! k = rows !! k.
Proof.
  intros He Hp. apply apply_mutations_untouched.
  intros m [(b & Hb & ->)%elem_of_page_sets|Hm%list_elem_of_singleton]%elem_of_app.
  - intros <-. by eapply Hp.
  - subst m. by intros <-.
Qed.

Record write_wf (w : pg_write) : Prop := {
  ww_fork : fork_wf (pw_fork w);
  ww_pages : Forall page_wf (pw_pages w);
  ww_fits : (N.of_nat (pw_first w) + len (pw_pages w) ≤ U32_MAX)%N;
  ww_nonempty : 0 < length (pw_pages w);
}.

Lemma page_after_write w n rows R f b :
  write_wf w → rows_hold rows R → pw_first w ≤ length (R (pw_fork w)) →
  fork_wf f → u32_fits b →
  apply_mutations (write_mutations w n) rows !! page_key f b
  = page_encode sha256 <$> update_fork R w f !! N.to_nat b.
Proof.
  intros [Hwf Hwp Hfit Hne] Hrows Hlen Hf Hb. unfold update_fork, len in *.
  destruct (decide (f = pw_fork w ∧ pw_first w ≤ N.to_nat b < pw_first w + length (pw_pages w)))
    as [[-> Hin]|Hout].
  - rewrite decide_True by done. rewrite lookup_overwrite_in by lia.
    destruct (lookup_lt_is_Some_2 (pw_pages w) (N.to_nat b - pw_first w)) as [p Hp]; [lia|].
    rewrite apply_write_page, Hp. replace b with (N.of_nat (pw_first w)
      + N.of_nat (N.to_nat b - pw_first w))%N at 1 by lia.
    by apply apply_page_sets.
  - rewrite apply_write_other.
    + rewrite (rh_page _ _ Hrows) by done. case_decide; [|done]. subst f.
      rewrite lookup_overwrite_out; [done|done|].
      assert (¬ (pw_first w ≤ N.to_nat b < pw_first w + length (pw_pages w))) by naive_solver. lia.
    + apply page_not_extent_key.
    + intros b' Hb' Heq. unfold len in Hb'. apply page_key_inj in Heq as [-> ->];
        [|unfold u32_fits in *; (done || lia)..].
      apply Hout. split; [done|lia].
Qed.

Lemma rows_hold_write w rows R :
  write_wf w → rows_hold rows R → pw_first w ≤ length (R (pw_fork w)) →
  rows_hold
    (apply_mutations (write_mutations w (len (update_fork R w (pw_fork w)))) rows)
    (update_fork R w).
Proof.
  intros Hw Hrows Hlen. pose proof Hw as [Hwf Hwp Hfit Hne].
  assert (length (update_fork R w (pw_fork w))
    = length (R (pw_fork w)) `max` (pw_first w + length (pw_pages w))) as Hl.
  { unfold update_fork. rewrite decide_True by done. by apply length_overwrite. }
  split.
  - intros f Hf. destruct (decide (f = pw_fork w)) as [->|Hne'].
    + rewrite apply_write_extent. unfold extent_row.
      destruct (update_fork R w (pw_fork w)); [cbn in Hl; lia|done].
    + rewrite apply_write_other.
      * rewrite (rh_extent _ _ Hrows) by done. unfold update_fork. by rewrite decide_False by done.
      * intros Heq%extent_key_inj; done.
      * intros b _ Heq. symmetry in Heq. revert Heq. apply page_not_extent_key.
  - intros f b Hf Hb. by apply page_after_write.
  - intros k x Hk Hp.
    destruct (decide (k ∈ mutation_key <$>
      sets (pw_fork w) (N.of_nat (pw_first w)) (pw_pages w)))
      as [(m & -> & (b & Hb & ->)%elem_of_page_sets)%list_elem_of_fmap|Hno].
    + exists (pw_fork w), b. split_and!; [done| |done]. unfold u32_fits. lia.
    + rewrite apply_mutations_untouched in Hk; [by eapply (rh_only _ _ Hrows)|].
      intros m [Hm| ->%list_elem_of_singleton]%elem_of_app <-.
      { by apply Hno, list_elem_of_fmap_2. }
      by apply (extent_key_not_page (pw_fork w)).
  - intros f. unfold update_fork. case_decide; [subst f|apply (rh_wf _ _ Hrows)].
    pose proof (rh_wf _ _ Hrows (pw_fork w)). unfold overwrite.
    rewrite !Forall_app. split_and!; [by apply Forall_take|done|by apply Forall_drop].
  - intros f. destruct (decide (pw_fork w = f)) as [<-|Hne'].
    + pose proof (rh_fits _ _ Hrows (pw_fork w)). unfold u32_fits, len in *. rewrite Hl. lia.
    + unfold update_fork. rewrite decide_False by done. apply (rh_fits _ _ Hrows).
Qed.
End rows.

(** ** Histories and logs at a version *)
Section at_version.
Context {A : Type}.
Implicit Types l : list (N * A).

Lemma filter_upto_lt v l i (x : A) :
  (v < i)%N → List.filter (λ e, (e.1 <=? v)%N) (l ++ [(i, x)]) = List.filter (λ e, (e.1 <=? v)%N) l.
Proof.
  intros Hv. rewrite List.filter_app. cbn. rewrite (proj2 (N.leb_gt i v)) by done.
  by rewrite app_nil_r.
Qed.

Lemma filter_upto_all v l :
  (∀ e, e ∈ l → (e.1 ≤ v)%N) → List.filter (λ e, (e.1 <=? v)%N) l = l.
Proof.
  induction l as [|e l IH]; intros Hl; [done|]. cbn.
  rewrite (proj2 (N.leb_le e.1 v)) by (apply Hl; by constructor).
  f_equal. apply IH. intros e' He'. apply Hl. by constructor.
Qed.

Lemma filter_before_all v l :
  (∀ e, e ∈ l → (e.1 < v)%N) → List.filter (λ e, (e.1 <? v)%N) l = l.
Proof.
  induction l as [|e l IH]; intros Hl; [done|]. cbn.
  rewrite (proj2 (N.ltb_lt e.1 v)) by (apply Hl; by constructor).
  f_equal. apply IH. intros e' He'. apply Hl. by constructor.
Qed.

Lemma filter_before_le v l i (x : A) :
  (v ≤ i)%N → List.filter (λ e, (e.1 <? v)%N) (l ++ [(i, x)]) = List.filter (λ e, (e.1 <? v)%N) l.
Proof.
  intros Hv. rewrite List.filter_app. cbn. rewrite (proj2 (N.ltb_ge i v)) by done.
  by rewrite app_nil_r.
Qed.
End at_version.

(** Entries of other forks do not matter to a fork. *)
Lemma relation_of_filter P log f :
  (∀ e, e ∈ log → pw_fork e.2 = f → P e = true) →
  relation_of (List.filter P log) f = relation_of log f.
Proof.
  unfold relation_of. generalize (@nil PostgresPage). induction log as [|e log IH]; intros pages Hl; [done|].
  cbn [List.filter foldl]. unfold write_apply at 3. case_decide as He.
  - rewrite (Hl e) by (done || by constructor). cbn [foldl]. unfold write_apply at 2.
    rewrite decide_True by done. apply IH. intros e' He'. apply Hl. by constructor.
  - destruct (P e); cbn [foldl]; [unfold write_apply at 2; rewrite decide_False by done|];
      (apply IH; intros e' He'; apply Hl; by constructor).
Qed.

Lemma relation_of_snoc log i w f : relation_of (log ++ [(i, w)]) f = update_fork (relation_of log) w f.
Proof. unfold relation_of. by rewrite foldl_app. Qed.

Lemma point_contains_self k : range_contains (range_point k) k = true.
Proof.
  apply andb_true_iff. cbn. split; apply key_leb_spec || apply key_ltb_spec; [apply key_le_refl|].
  unfold key_lt. rewrite <-(app_nil_r k) at 1. by rewrite list_cmp_app_l.
Qed.

(** ** Runs *)
Section runs.
Context (sha256 : bytes → bytes) (sha256_len : digest_len sha256).
Context `{Ed25519} `{CellJson}.
Abbreviation direct := (direct_apply sha256).
Abbreviation hold := (rows_hold sha256).

(** The answer of the replicated state machine to the command of a plan that is
    not fenced and has no recorded outcome ([apply_cell_served] below). *)
Definition cell_response (plan : PostgresPageCommitPlan) (i : N) (r : CellTransactionApplyResponse)
    : ApplyResponse :=
  { response_new i with ar_identity := Some (ct_identity (pcp_command plan));
                        ar_cell_transaction := Some r }.

Lemma direct_response c i d d' r :
  direct c i no_fence_faults d = Ok (d', r) → ctr_status r = TCommitted →
  ctr_generation r = ct_generation c ∧ ctr_commit_sequence r = Some i ∧ is_Some (ctr_envelope r).
Proof.
  unfold direct_apply. cbn [allow_successor_to_skip_staged_head no_fence_faults andb].
  repeat match goal with
  | |- (if ?b then Ok (direct_reject _ _ _) else _) = _ → _ =>
      destruct b; [by intros [= <- <-]|]
  end.
  assert (∀ d0, direct_commit sha256 d0 c i = Ok (d', r) →
    ctr_generation r = ct_generation c ∧ ctr_commit_sequence r = Some i ∧ is_Some (ctr_envelope r))
    as Hcommit.
  { intros d0 (e & _ & [= <- <-])%res_bind_Ok. done. }
  intros (ev & _ & Hap)%res_bind_Ok Hst.
  destruct ev as [|d0 [|]| |]; [|by eapply Hcommit|by injection Hap as <- <-..].
  repeat match goal with
  | Hap : (if ?b then Ok (direct_reject _ _ _) else _) = _ |- _ =>
      destruct b; [by injection Hap as <- <-|]
  end.
  by eapply Hcommit.
Qed.

(** The bridge accepts the answer exactly when the transaction committed. *)
Lemma receipt_exact plan c i d d' r :
  ct_generation c = ct_generation (pcp_command plan) →
  ct_read_version c = ct_read_version (pcp_command plan) →
  direct c i no_fence_faults d = Ok (d', r) → (cd_latest_sequence d < i)%N →
  match verify_postgres_page_commit sha256 plan (cell_response plan i r) with
  | Ok receipt => ctr_status r = TCommitted ∧ pcr_committed_objectkv_version receipt = i ∧
      pcr_resulting_nblocks receipt = pcp_resulting_nblocks plan
  | Err _ => ctr_status r ≠ TCommitted
  | Panic => False
  end.
Proof.
  intros Hg Hrv0 Hap Hi. unfold verify_postgres_page_commit, cell_response. repeat (progress record.simp).
  cbn [response_new ar_error].
  rewrite bool_decide_true by done. cbn [negb].
  case_bool_decide as Hst; [|done]. cbn [negb].
  destruct (direct_response _ _ _ _ _ Hap Hst) as (-> & -> & [e ->]).
  rewrite Hg, N.eqb_refl. cbn [negb].
  destruct (direct_apply_cases _ _ _ _ _ _ Hap) as [[? _]|(_ & _ & _ & Hrv & _)]; [done|].
  unfold read_sequence in Hrv. rewrite Hrv0 in Hrv. rewrite (proj2 (N.leb_gt _ _)) by lia. done.
Qed.

(** The block count a client finds recorded, 0 where there is none. *)
Definition recorded_extent (rows : gmap bytes bytes) (f : PostgresRelationForkIdentity)
    : res PostgresRelationExtentError N :=
  res_map (default 0%N) (transpose (extent_decode sha256) (rows !! encode_extent_key f)).

Record pg_state := {
  ps_domain : CellDomainState;
  ps_history : list commit;
  ps_log : pg_log;
}.

Definition batch_wf (batch : PostgresPageWriteBatch) : Prop :=
  fork_wf (relation_fork (pwb_first batch)) ∧ Forall page_wf (pwb_pages batch).

(** The history after a command. *)
Definition recorded (h : list commit) (i : N) (c : CellTransactionCommand)
    (r : CellTransactionApplyResponse) : list commit :=
  if decide (ctr_status r = TCommitted) then h ++ [(i, c)] else h.

(** The log of the writes the bridge acknowledges. *)
Definition acknowledged (log : pg_log) (plan : PostgresPageCommitPlan) (i : N)
    (r : CellTransactionApplyResponse) (batch : PostgresPageWriteBatch) : pg_log :=
  match verify_postgres_page_commit sha256 plan (cell_response plan i r) with
  | Ok receipt => log ++ [(pcr_committed_objectkv_version receipt, write_of batch)]
  | _ => log
  end.

Inductive pg_step : pg_state → pg_state → Prop :=
  | pg_page_write d h log batch operation previous resulting context admission plan i d' r :
      batch_wf batch →
      admit_postgres_page_write sha256 batch = Ok admission →
      recorded_extent (replay ∅ (upto (pwb_expected_objectkv_version batch) h))
        (relation_fork (pwb_first batch)) = Ok previous →
      plan_postgres_page_commit sha256 admission operation previous resulting context = Ok plan →
      (cd_latest_sequence d < i)%N →
      direct (pcp_command plan) i no_fence_faults d = Ok (d', r) →
      pg_step {| ps_domain := d; ps_history := h; ps_log := log |}
        {| ps_domain := d'; ps_history := recorded h i (pcp_command plan) r;
           ps_log := acknowledged log plan i r batch |}
  | pg_other d h log c i d' r :
      foreign (ct_mutations c) →
      (cd_latest_sequence d < i)%N →
      direct c i no_fence_faults d = Ok (d', r) →
      pg_step {| ps_domain := d; ps_history := h; ps_log := log |}
        {| ps_domain := d'; ps_history := recorded h i c r; ps_log := log |}.

Definition pg_new (cell tenant : bytes) (g : N) : pg_state :=
  {| ps_domain := CellDomainState_new cell tenant g; ps_history := []; ps_log := [] |}.

(** ** The invariant *)
Record pg_inv (s : pg_state) : Prop := {
  pi_direct : direct_inv sha256 (ps_domain s) (ps_history s);
  pi_rows v : hold (replay ∅ (upto v (ps_history s))) (relation_of (log_upto v (ps_log s)));
  pi_commits e : e ∈ ps_log s → ∃ c, (e.1, c) ∈ ps_history s ∧
    range_point (encode_extent_key (pw_fork e.2)) ∈ ct_write_conflicts c;
  pi_serial e : e ∈ ps_log s → (pw_version e.2 < e.1)%N ∧
    relation_of (log_upto (pw_version e.2) (ps_log s)) (pw_fork e.2)
    = relation_of (log_before e.1 (ps_log s)) (pw_fork e.2);
  pi_wal e p : e ∈ ps_log s → p ∈ pw_pages e.2 → (pg_page_lsn p ≤ pw_wal_flush_lsn e.2)%N;
}.

Lemma pg_inv_new cell tenant g : pg_inv (pg_new cell tenant g).
Proof.
  split; cbn; try (by intros e []%elem_of_nil); try (by intros e p []%elem_of_nil).
  - apply direct_inv_new.
  - intros v. apply rows_hold_empty.
Qed.

Lemma history_bound d h c i :
  direct_inv sha256 d h → (cd_latest_sequence d < i)%N → c ∈ h → (c.1 < i)%N.
Proof.
  intros Hd Hi Hc. pose proof (sorted_last_le _ _ (di_sorted _ _ _ Hd) Hc).
  rewrite <-(di_latest _ _ _ Hd) in *. lia.
Qed.

Lemma log_bound s i e :
  pg_inv s → (cd_latest_sequence (ps_domain s) < i)%N → e ∈ ps_log s → (e.1 < i)%N.
Proof.
  intros Hs Hi (c & Hc & _)%(pi_commits _ Hs). by apply (history_bound _ _ _ _ (pi_direct _ Hs) Hi) in Hc.
Qed.

(** A command that does not commit. *)
Lemma pg_inv_same d h log d' :
  same_commits d d' → pg_inv {| ps_domain := d; ps_history := h; ps_log := log |} →
  pg_inv {| ps_domain := d'; ps_history := h; ps_log := log |}.
Proof. intros Hsame []. split; cbn in *; try done. by eapply direct_inv_same. Qed.

(** The rows of both parts of a longer history. *)
Lemma rows_snoc d h log c i log' :
  let s := {| ps_domain := d; ps_history := h; ps_log := log |} in
  pg_inv s → (cd_latest_sequence d < i)%N →
  (∀ v, (v < i)%N → log_upto v log' = log_upto v log) →
  (∀ v, (i ≤ v)%N → log_upto v log' = log') →
  (hold (replay ∅ h) (relation_of log) →
   hold (apply_mutations (ct_mutations c) (replay ∅ h)) (relation_of log')) →
  ∀ v, hold (replay ∅ (upto v (h ++ [(i, c)]))) (relation_of (log_upto v log')).
Proof.
  intros s Hs Hi Hlt Hge Hstep v. destruct (decide (v < i)%N) as [Hv|Hv].
  - rewrite Hlt by done. unfold upto. rewrite filter_upto_lt by done. apply (pi_rows _ Hs).
  - rewrite Hge by lia. unfold upto. rewrite filter_upto_all.
    + rewrite replay_app. apply Hstep. pose proof (pi_rows _ Hs i) as Hrows. cbn in Hrows.
      unfold upto, log_upto in Hrows. rewrite !filter_upto_all in Hrows; [done|..].
      * intros e He. apply N.lt_le_incl. by apply (log_bound s).
      * intros e He. apply N.lt_le_incl. by eapply history_bound; [apply (pi_direct _ Hs)|..].
    + intros e [He|He%list_elem_of_singleton]%elem_of_app; [|subst e; cbn; lia].
      enough (e.1 < i)%N by lia. by eapply history_bound; [apply (pi_direct _ Hs)|..].
Qed.

Lemma log_upto_all s i v :
  pg_inv s → (cd_latest_sequence (ps_domain s) < i)%N → (i ≤ v)%N →
  log_upto v (ps_log s) = ps_log s.
Proof.
  intros Hs Hi Hv. apply filter_upto_all. intros e He.
  pose proof (log_bound _ _ _ Hs Hi He). lia.
Qed.

Lemma pg_inv_foreign d h log c i d' :
  pg_inv {| ps_domain := d; ps_history := h; ps_log := log |} →
  foreign (ct_mutations c) → (cd_latest_sequence d < i)%N →
  direct_inv sha256 d' (h ++ [(i, c)]) →
  pg_inv {| ps_domain := d'; ps_history := h ++ [(i, c)]; ps_log := log |}.
Proof.
  intros Hs Hf Hi Hd'. split; cbn; try apply Hs; [done| |].
  - apply (rows_snoc d h log c i log Hs Hi); [done| |by apply rows_hold_foreign].
    intros v Hv. by apply (log_upto_all _ _ _ Hs Hi).
  - intros e (c' & Hc' & ?)%(pi_commits _ Hs). exists c'. split; [|done].
    apply elem_of_app. by left.
Qed.

(** *** Page writes *)
Lemma recorded_extent_Ok rows R f n :
  hold rows R → fork_wf f → recorded_extent rows f = Ok n → n = len (R f).
Proof.
  intros Hrows Hf. unfold recorded_extent. rewrite (rh_extent _ _ _ Hrows) by done.
  unfold extent_row. pose proof (rh_fits _ _ _ Hrows f) as Hfit.
  destruct (R f) as [|p ps]; [by intros [= <-]|]. cbn [transpose].
  rewrite extent_decode_encode by done. by intros [= <-].
Qed.

Lemma plan_Ok admission operation previous resulting context plan :
  plan_postgres_page_commit sha256 admission operation previous resulting context = Ok plan →
  pcp_command plan = plan_command sha256 admission resulting context ∧
  pcp_resulting_nblocks plan = resulting ∧
  (pwa_first_block admission ≤ previous)%N ∧
  resulting = N.max previous (pwa_first_block admission + N.of_nat (pwa_page_count admission)).
Proof.
  unfold plan_postgres_page_commit. case_guards; [done|].
  destruct (block_at _ _) as [b|] eqn:Hb; [|done]. apply block_at_Some in Hb as [_ ->].
  intros (u & Hext & Hp)%res_bind_Ok. destruct (cell_partitioned_transaction_sha256 _ _); [|done].
  injection Hp as <-. split_and!; [done|done|..]; unfold check_extent in Hext; destruct operation.
  all: case_guards; try done; destruct_bool_hyps.
  all: repeat match goal with
    | Hq : negb _ = false |- _ => apply negb_false_iff, N.eqb_eq in Hq
    | Hq : (_ <? _)%N = false |- _ => apply N.ltb_ge in Hq
    | Hq : (_ <=? _)%N = false |- _ => apply N.leb_gt in Hq
    end; lia.
Qed.

(** No write to the fork was committed after the version a plan was made at. *)
Lemma no_write_since s d' i cmd f e :
  pg_inv s → (cd_latest_sequence (ps_domain s) < i)%N →
  direct_inv sha256 d' (ps_history s ++ [(i, cmd)]) →
  ct_partitioned_resolution cmd = None → range_point (encode_extent_key f) ∈ ct_read_conflicts cmd →
  e ∈ ps_log s → pw_fork e.2 = f → (e.1 ≤ read_sequence cmd)%N.
Proof.
  intros Hs Hi Hd' Hnone Hread He <-. apply N.le_ngt. intros Hlt.
  destruct (pi_commits _ Hs _ He) as (c & Hc & Hw).
  pose proof (history_bound _ _ _ _ (pi_direct _ Hs) Hi Hc) as Hci.
  assert (undisturbed cmd (ct_write_conflicts c)) as Hu.
  { apply (di_free _ _ _ Hd' i cmd (e.1, c)); [|done| |done|done]; apply elem_of_app;
      [right; by apply list_elem_of_singleton|by left]. }
  specialize (Hu _ _ Hread Hw).
  by rewrite (contains_overlaps _ _ (encode_extent_key (pw_fork e.2))) in Hu
    by apply point_contains_self.
Qed.

Lemma plan_command_mutations batch admission n context :
  admitted sha256 batch admission →
  ct_mutations (plan_command sha256 admission n context) = write_mutations sha256 (write_of batch) n.
Proof.
  intros []. unfold plan_command, write_mutations. cbn -[page_sets]. rewrite ad_mutations0, ad_relation0.
  by rewrite N2Nat.id.
Qed.

Lemma write_of_wf batch admission :
  batch_wf batch → admitted sha256 batch admission → write_wf (write_of batch).
Proof. intros [? ?] []. split; cbn; rewrite ?N2Nat.id; (done || lia). Qed.

Lemma pg_inv_write d h log batch previous n context admission i d' :
  let s := {| ps_domain := d; ps_history := h; ps_log := log |} in
  let cmd := plan_command sha256 admission n context in
  pg_inv s → batch_wf batch → admitted sha256 batch admission →
  recorded_extent (replay ∅ (upto (pwb_expected_objectkv_version batch) h))
    (relation_fork (pwb_first batch)) = Ok previous →
  (pwa_first_block admission ≤ previous)%N →
  n = N.max previous (pwa_first_block admission + N.of_nat (pwa_page_count admission)) →
  (cd_latest_sequence d < i)%N → (read_sequence cmd ≤ cd_latest_sequence d)%N →
  direct_inv sha256 d' (h ++ [(i, cmd)]) →
  pg_inv {| ps_domain := d'; ps_history := h ++ [(i, cmd)]; ps_log := log ++ [(i, write_of batch)] |}.
Proof.
  intros s cmd Hs Hbw Hadm Hext Hfirst Hn Hi Hrv Hd'.
  pose proof (write_of_wf _ _ Hbw Hadm) as Hw. set (w := write_of batch) in *.
  assert (read_sequence cmd = pw_version w) as Hver by apply Hadm.
  assert (∀ e, e ∈ log → pw_fork e.2 = pw_fork w → (e.1 ≤ pw_version w)%N) as Hsince.
  { intros e He Hf. rewrite <-Hver. apply (no_write_since s d' i cmd (pw_fork w)); try done.
    cbn. rewrite (ad_relation _ _ _ Hadm). by constructor. }
  assert (relation_of (log_upto (pw_version w) log) (pw_fork w) = relation_of log (pw_fork w)) as Hrel.
  { apply relation_of_filter. intros e He Hf. by apply N.leb_le, Hsince. }
  assert (previous = len (relation_of log (pw_fork w))) as Hprev.
  { rewrite <-Hrel. by apply (recorded_extent_Ok _ _ _ _ (pi_rows _ Hs (pw_version w)) (ww_fork _ Hw)). }
  rewrite (ad_first _ _ _ Hadm) in *. rewrite (ad_count _ _ _ Hadm) in Hn. unfold len in Hprev.
  assert (pw_first w ≤ length (relation_of log (pw_fork w))) as Hle by (cbn in Hprev |- *; lia).
  assert (n = len (update_fork (relation_of log) w (pw_fork w))) as Hlen.
  { unfold update_fork. rewrite decide_True by done. unfold len. rewrite length_overwrite by done.
    cbn in Hprev |- *. lia. }
  split; cbn [ps_domain ps_history ps_log]; [done|..].
  - apply (rows_snoc d h log cmd i _ Hs Hi).
    + intros v Hv. by apply filter_upto_lt.
    + intros v Hv. apply filter_upto_all.
      intros e [He|He%list_elem_of_singleton]%elem_of_app; [|by subst e].
      pose proof (log_bound _ _ _ Hs Hi He). lia.
    + intros Hrows. eapply rows_hold_ext; [intros f; symmetry; apply relation_of_snoc|].
      unfold cmd. rewrite (plan_command_mutations batch) by done. rewrite Hlen. by apply rows_hold_write.
  - intros e [He|He%list_elem_of_singleton]%elem_of_app.
    + destruct (pi_commits _ Hs _ He) as (c & Hc & ?). exists c. split; [|done].
      apply elem_of_app. by left.
    + subst e. exists cmd. split; [apply elem_of_app; right; by apply list_elem_of_singleton|].
      cbn. rewrite elem_of_sort_dedup, fmap_app, (ad_relation _ _ _ Hadm). apply elem_of_app. right.
      by apply list_elem_of_singleton.
  - intros e [He|He%list_elem_of_singleton]%elem_of_app.
    + destruct (pi_serial _ Hs _ He) as [Hlt Hser]. pose proof (log_bound _ _ _ Hs Hi He).
      split; [done|]. unfold log_upto, log_before in *.
      rewrite filter_upto_lt, filter_before_le by lia. done.
    + subst e. cbn [fst snd]. split; [rewrite <-Hver; lia|].
      unfold log_upto, log_before in *. rewrite filter_upto_lt, filter_before_le by lia.
      rewrite filter_before_all; [done|]. intros e He. by apply (log_bound s).
  - intros e p [He|He%list_elem_of_singleton]%elem_of_app Hp; [by apply (pi_wal _ Hs)|].
    subst e. by apply (ad_wal _ _ _ Hadm).
Qed.

Lemma pg_step_inv s s' : pg_inv s → pg_step s s' → pg_inv s'.
Proof.
  intros Hs Hstep.
  destruct Hstep as [d h log batch operation previous n context adm plan i d' r Hbw Hadm Hext Hplan Hi Hap
                    |d h log c i d' r Hf Hi Hap].
  - apply admit_Ok in Hadm. apply plan_Ok in Hplan as (Hcmd & _ & Hfirst & Hn).
    pose proof (receipt_exact _ _ _ _ _ _ eq_refl eq_refl Hap Hi) as Hr. unfold recorded, acknowledged.
    rewrite Hcmd in *.
    destruct (direct_apply_cases _ _ _ _ _ _ Hap) as [[Hst Hsame]|(Hst & Hto & Hv & Hrv & Hnc)].
    + rewrite decide_False by done. destruct (verify_postgres_page_commit _ _ _) as [receipt| |];
        [by destruct Hr|by eapply pg_inv_same|done].
    + rewrite decide_True by done. destruct (verify_postgres_page_commit _ _ _) as [receipt| |];
        [|done|done]. destruct Hr as (_ & -> & _).
      eapply pg_inv_write; try done.
      by eapply direct_inv_commit; [apply (pi_direct _ Hs)|..].
  - unfold recorded.
    destruct (direct_apply_cases _ _ _ _ _ _ Hap) as [[Hst Hsame]|(Hst & Hto & Hv & Hrv & Hnc)].
    + rewrite decide_False by done. by eapply pg_inv_same.
    + rewrite decide_True by done. eapply pg_inv_foreign; [done..|].
      by eapply direct_inv_commit; [apply (pi_direct _ Hs)|..].
Qed.

Lemma pg_reachable cell tenant g s : rtc pg_step (pg_new cell tenant g) s → pg_inv s.
Proof.
  intros Hrun. remember (pg_new cell tenant g) as s0 eqn:E.
  assert (pg_inv s0) as Hnew by (subst; apply pg_inv_new). clear E.
  induction Hrun; eauto using pg_step_inv.
Qed.

(** ** Progress *)
Lemma page_sets_NoDup f first pages :
  fork_wf f → (first + len pages ≤ U32_MAX)%N → NoDup (mutation_key <$> page_sets sha256 f first pages).
Proof.
  intros Hf. unfold len. revert first. induction pages as [|p pages IH]; intros first Hfit; [constructor|].
  cbn [page_sets length fmap list_fmap] in *. constructor; [|apply IH; lia].
  intros (m & Hk & (b & Hb & Hm)%elem_of_page_sets)%list_elem_of_fmap. unfold len in Hb.
  rewrite Hm in Hk. cbn in Hk. apply page_key_inj in Hk as [_ Hk]; unfold u32_fits; (done || lia).
Qed.

Lemma valid_request_points c :
  ct_mutations c ≠ [] → NoDup (mutation_key <$> ct_mutations c) →
  (∀ r, r ∈ ct_read_conflicts c ++ ct_write_conflicts c → ∃ k, r = range_point k) →
  (∀ m, m ∈ ct_mutations c → range_point (mutation_key m) ∈ ct_write_conflicts c) →
  valid_request c = true.
Proof.
  intros Hne Hnd Hpoints Hcovers. unfold valid_request. rewrite bool_decide_false by done. cbn [orb].
  assert (existsb (λ r, negb (range_valid r)) (ct_read_conflicts c ++ ct_write_conflicts c) = false) as ->.
  { apply existsb_false. intros r (k & ->)%Hpoints. apply negb_false_iff.
    pose proof (point_contains_self k) as [_ Hk]%andb_true_iff. exact Hk. }
  rewrite size_list_to_set by done. rewrite length_fmap, Nat.eqb_refl. cbn [andb].
  apply forallb_Forall, Forall_forall. intros m Hm%Hcovers. apply existsb_exists'.
  eexists. split; [exact Hm|apply point_contains_self].
Qed.

(** The command of a plan is a valid request. *)
Lemma plan_valid batch admission n context :
  batch_wf batch → admitted sha256 batch admission →
  valid_request (plan_command sha256 admission n context) = true.
Proof.
  intros [Hf _] Hadm. pose proof (plan_command_mutations batch admission n context Hadm) as Hms.
  apply valid_request_points.
  - rewrite Hms. unfold write_mutations. by destruct (page_sets _ _ _ _).
  - rewrite Hms. unfold write_mutations. rewrite fmap_app. apply NoDup_app. split_and!.
    + apply page_sets_NoDup; [done|]. cbn. rewrite N2Nat.id. apply Hadm.
    + intros k (m & -> & (b & _ & ->)%elem_of_page_sets)%list_elem_of_fmap.
      intros E%list_elem_of_singleton. by apply page_not_extent_key in E.
    + apply NoDup_singleton.
  - intros r. cbn. intros [->|Hr]%elem_of_cons; [by eexists|]. rewrite elem_of_sort_dedup in Hr.
    apply list_elem_of_fmap in Hr as (m & -> & _). by eexists.
  - intros m Hm. cbn. rewrite elem_of_sort_dedup. by apply (list_elem_of_fmap_2 (λ m, range_point (mutation_key m))).
Qed.

(** Nothing committed conflicts with what was read at the latest version. *)
Lemma latest_no_conflict d h c :
  direct_inv sha256 d h → read_sequence c = cd_latest_sequence d → committed_conflict d c = false.
Proof.
  intros Hd Hrv. unfold committed_conflict. apply existsb2_false. intros r w _ Hw.
  rewrite (di_writes _ _ _ Hd) in Hw. unfold history_writes in Hw.
  apply list_elem_of_In, in_concat in Hw as (ws & (c' & <- & Hc')%in_map_iff & Hw).
  apply list_elem_of_In in Hw. unfold pushed_writes in Hw. apply list_elem_of_fmap in Hw as (x & -> & _).
  cbn. pose proof (sorted_last_le _ c' (di_sorted _ _ _ Hd)) as Hle.
  rewrite <-(di_latest _ _ _ Hd) in Hle. apply list_elem_of_In, Hle in Hc'.
  unfold read_sequence in Hrv. rewrite Hrv. by rewrite (proj2 (N.ltb_ge _ _)).
Qed.

Lemma direct_commits d c i e :
  ct_generation c ≠ 0%N ∧ crv_generation (ct_read_version c) = ct_generation c →
  cd_generation d = ct_generation c → (read_sequence c ≤ cd_latest_sequence d)%N →
  contains_all (ct_durable_log_tags c) REQUIRED_LOG_TAGS = true → valid_request c = true →
  ct_partitioned_resolution c = None →
  contains_all (ct_accepted_resolvers c) REQUIRED_RESOLVERS = true →
  committed_conflict d c = false →
  commit_envelope sha256 c i i REQUIRED_LOG_TAGS (cd_previous_log_chain d) = Ok e →
  ∃ d' r, direct c i no_fence_faults d = Ok (d', r) ∧ ctr_status r = TCommitted.
Proof.
  intros [Hg Hrg] Hgen Hrv Htags Hv Hnone Hres Hnc He. unfold direct_apply.
  cbn [allow_successor_to_skip_staged_head no_fence_faults andb]. unfold read_sequence in Hrv.
  rewrite Hgen, Hrg, (proj2 (N.eqb_neq _ _) Hg), !N.eqb_refl, andb_false_r.
  rewrite (proj2 (N.ltb_ge _ _) Hrv), Htags, Hv. unfold resolver_evidence. rewrite Hnone.
  cbn [negb orb res_bind]. rewrite Hres, Hnc. cbn [negb]. unfold direct_commit. rewrite He.
  by eexists _, _.
Qed.

(** The command of a plan commits on the domain it was prepared on. *)
Lemma page_command_commits s batch operation previous resulting context admission plan i e :
  let d := ps_domain s in
  let command := canonicalize_transaction (pcp_command plan) in
  pg_inv s → batch_wf batch → admit_postgres_page_write sha256 batch = Ok admission →
  plan_postgres_page_commit sha256 admission operation previous resulting context = Ok plan →
  pwb_expected_objectkv_version batch = cd_latest_sequence d →
  pcc_generation context = cd_generation d →
  contains_all (pcc_accepted_resolvers context) REQUIRED_RESOLVERS = true →
  contains_all (pcc_durable_log_tags context) REQUIRED_LOG_TAGS = true →
  commit_envelope sha256 command i i REQUIRED_LOG_TAGS (cd_previous_log_chain d) = Ok e →
  ∃ d' r, direct command i no_fence_faults d = Ok (d', r) ∧ ctr_status r = TCommitted ∧
    ct_cell_id (pcp_command plan) = pcc_cell_id context ∧
    ct_tenant_id (pcp_command plan) = pcc_tenant_id context ∧ pcp_resulting_nblocks plan = resulting.
Proof.
  intros d command Hs Hbw Hadm Hplan Hver Hgen Hres Htags He.
  assert (pcc_generation context ≠ 0%N) as Hg0.
  { unfold plan_postgres_page_commit in Hplan. destruct (pcc_generation context =? 0)%N eqn:E; [done|].
    by apply N.eqb_neq in E. }
  apply admit_Ok in Hadm. apply plan_Ok in Hplan as (Hcmd & Hn & _ & _).
  assert (read_sequence command = cd_latest_sequence d) as Hrv.
  { unfold command. rewrite Hcmd. unfold plan_command, read_sequence. cbn.
    by rewrite (ad_version _ _ _ Hadm). }
  assert (∃ d' r, direct command i no_fence_faults d = Ok (d', r) ∧ ctr_status r = TCommitted)
    as (d' & r & Hap & Hst).
  { eapply direct_commits; [..|exact He].
    8: by eapply latest_no_conflict; [apply (pi_direct _ Hs)|].
    3: by rewrite Hrv.
    all: unfold command; rewrite ?Hcmd; try done.
    - by rewrite (contains_all_same _ (pcc_durable_log_tags context))
        by (intros; apply elem_of_sort_dedup).
    - apply canonical_valid. by eapply plan_valid.
    - by rewrite (contains_all_same _ (pcc_accepted_resolvers context))
        by (intros; apply elem_of_sort_dedup). }
  exists d', r. rewrite Hcmd. done.
Qed.

(** C9. Page writes are serial and keep WAL before pages. In every state of a
    cell domain reached on the direct commit path by page batches, each planned from
    the extent recorded at the version it was prepared on, and by transactions of
    other clients that leave the PostgreSQL keys alone: at every version the rows hold for each fork exactly the pages
    that the batches acknowledged up to that version left, with their count, and
    no other page keys. Every acknowledged batch is a committed transaction, it
    found the fork as it was at the version it was prepared on, so no batch
    overwrites one it has not seen, and none of its pages has an LSN above the
    flushed WAL it was admitted with. *)
Theorem page_writes_serial cell tenant g s :
  rtc pg_step (pg_new cell tenant g) s →
  cd_rows (ps_domain s) = replay ∅ (ps_history s) ∧
  (∀ v, rows_hold sha256 (replay ∅ (upto v (ps_history s))) (relation_of (log_upto v (ps_log s)))) ∧
  ∀ seq w, (seq, w) ∈ ps_log s →
    (∃ command, (seq, command) ∈ ps_history s) ∧ (pw_version w < seq)%N ∧
    relation_of (log_upto (pw_version w) (ps_log s)) (pw_fork w)
      = relation_of (log_before seq (ps_log s)) (pw_fork w) ∧
    ∀ p, p ∈ pw_pages w → (pg_page_lsn p ≤ pw_wal_flush_lsn w)%N.
Proof.
  intros Hs%pg_reachable. split; [apply (pi_direct _ Hs)|]. split; [apply (pi_rows _ Hs)|].
  intros seq w Hw. destruct (pi_serial _ Hs _ Hw) as [? ?].
  split_and!; [|done|done|by intros p; apply (pi_wal _ Hs _ p Hw)].
  destruct (pi_commits _ Hs _ Hw) as (c & Hc & _). by exists c.
Qed.

End runs.

(** ** Page writes through the state machine *)
Section machine.
Context (sha256 : bytes → bytes) (sha256_len : digest_len sha256).
Context `{Ed25519} `{CellJson} `{CommandJson}.
Context `{Serialize RecoveryCertificateStatement}.
Context `{Serialize RoutineReconfigurationCertificateStatement}.
Context {Membership : Type}.
Implicit Types (m : @StateMachineData Membership).
(** [serde_json] reads back what it wrote. *)
Context (cell_round : ∀ (c : CellTransactionCommand) b, to_vec c = Some b → cell_from_slice b = Some c).

Lemma cell_dispatch c payload :
  cell_command_encode c = Some payload →
  decode_command payload = Decoded (AnyCell (canonicalize_transaction c)).
Proof.
  intros (j & Hj & ->)%fmap_Some. unfold decode_command. cbn [or_decode].
  rewrite (decode_with_magic CELL_COMMAND_MAGIC _ _ _ (cell_round _ _ Hj)).
  by rewrite !decode_with_other by done.
Qed.

(** The domain a command is applied to. *)
Definition domain_of m (cell tenant : bytes) : option CellDomainState :=
  cell_transactions m !! domain_position (cell_transactions m) cell tenant.

Lemma cell_apply_found cells c i d d' r :
  cells !! domain_position cells (ct_cell_id c) (ct_tenant_id c) = Some d →
  direct_apply sha256 c i no_fence_faults d = Ok (d', r) →
  cell_apply sha256 cells c i no_fence_faults
    = Ok (<[domain_position cells (ct_cell_id c) (ct_tenant_id c) := d']> cells, r).
Proof.
  intros Hd Hap. unfold cell_apply, with_domain.
  rewrite (proj2 (Nat.ltb_lt _ _) (lookup_lt_Some _ _ _ Hd)), Hd. cbn [expect res_bind].
  by rewrite Hap.
Qed.

(** A command without a recorded outcome, on an authority that was never
    initialized: the answer, and the state that records it. *)
Lemma apply_cell_served m log_id payload plan c d d' r :
  ct_identity c = ct_identity (pcp_command plan) →
  durable_outcomes m !! ct_identity c = None →
  ga_phase (generation_authority m) = Uninitialized →
  domain_of m (ct_cell_id c) (ct_tenant_id c) = Some d →
  direct_apply sha256 c (li_index log_id) no_fence_faults d = Ok (d', r) →
  ∃ m', apply_cell_command sha256 default_config m log_id payload c
          = Ok (m', cell_response plan (li_index log_id) r) ∧
    durable_outcomes m' !! ct_identity c = Some (cell_response plan (li_index log_id) r) ∧
    request_fingerprints m' !! ct_identity c = Some (sha256 payload).
Proof.
  intros Hid Hnone Hph Hd Hap.
  unfold apply_cell_command, fenced_command, recovered_outcome, generation_fenced.
  cbn [deduplicate_requests default_config]. rewrite Hnone, Hph, bool_decide_true by done.
  cbn [negb andb]. change (generation_fence_faults default_config) with no_fence_faults.
  rewrite (cell_apply_found _ _ _ _ _ _ Hd Hap).
  cbn [panics res_bind]. unfold cell_response. rewrite <-Hid. eexists. split; [reflexivity|].
  unfold record_outcome. destruct m. cbn. unfold constant. by rewrite !lookup_insert_eq.
Qed.

(** A retry is answered from the record. *)
Lemma apply_cell_retried m log_id payload c response :
  durable_outcomes m !! ct_identity c = Some response →
  request_fingerprints m !! ct_identity c = Some (sha256 payload) →
  apply_cell_command sha256 default_config m log_id payload c = Ok (m, response).
Proof.
  intros Ho Hf. unfold apply_cell_command, fenced_command, recovered_outcome, recovered_reply.
  cbn [deduplicate_requests default_config]. rewrite Ho. unfold request_fingerprint.
  by rewrite decide_True.
Qed.

(** Once the generation authority is initialized, a plan is refused: it carries
    no credential. *)
Lemma page_write_fenced m log_id payload admission n context :
  let c := canonicalize_transaction (plan_command sha256 admission n context) in
  durable_outcomes m !! ct_identity c = None →
  ga_phase (generation_authority m) ≠ Uninitialized →
  ∃ m' response, apply_cell_command sha256 default_config m log_id payload c = Ok (m', response) ∧
    ar_error response = Some AeGenerationFenced ∧ cell_transactions m' = cell_transactions m.
Proof.
  intros c Hnone Hph. unfold apply_cell_command, fenced_command, recovered_outcome, generation_fenced.
  cbn [deduplicate_requests default_config]. rewrite Hnone, bool_decide_false by done.
  cbn. eexists _, _. split; [reflexivity|]. by destruct m.
Qed.

End machine.

(** *** A concrete run: a foreign commit, a relation of one page, a rewrite *)
Module demo_pg.
Import demo_cell.

Definition fork : PostgresRelationForkIdentity :=
  {| prf_cluster_id := replicate 16 5%N; prf_tablespace_oid := 1663; prf_database_oid := 5;
     prf_relation_number := 16402; prf_temporary_backend_id := 0; prf_fork_number := 0 |}.
Definition page (lsn byte : N) : PostgresPage :=
  {| pg_page_lsn := lsn; pg_postgres_checksum := 0; pg_bytes := replicate POSTGRES_PAGE_SIZE byte |}.
Definition batch (version request lsn : N) : PostgresPageWriteBatch :=
  {| pwb_first := page_of fork 0; pwb_expected_objectkv_version := version;
     pwb_postgres_wal_flush_lsn := 900; pwb_request_id := replicate 16 request;
     pwb_pages := [page lsn request] |}.
Definition context : PostgresPageCommitContext :=
  {| pcc_cell_id := CELL; pcc_tenant_id := TENANT; pcc_generation := 1;
     pcc_accepted_resolvers := [1; 2]%N; pcc_durable_log_tags := [10; 20]%N |}.

Definition no_admission : PostgresPageWriteAdmission :=
  {| pwa_relation := fork; pwa_expected_objectkv_version := 0; pwa_postgres_wal_flush_lsn := 0;
     pwa_maximum_page_lsn := 0; pwa_first_block := 0; pwa_page_count := 0; pwa_request_id := [];
     pwa_mutation_sha256 := []; pwa_mutations := [] |}.
Definition admission (version request lsn : N) : PostgresPageWriteAdmission :=
  ok_or no_admission (admit_postgres_page_write prefix_digest (batch version request lsn)).
(** The JSON forms of the commands below: each has a number. *)
Definition stripped (c : CellTransactionCommand) : CellTransactionCommand :=
  { c with ct_accepted_resolvers := [] }.
Definition known : list CellTransactionCommand :=
  c ← [plan_command prefix_digest (admission 5 8 100) 1 context;
       plan_command prefix_digest (admission 8 9 200) 1 context];
  [canonicalize_transaction c; canonicalize_transaction (stripped c)].
#[export] Instance pg_json : CellJson :=
  {| json_ranges := λ _, Some []; json_mutations := λ _, Some [];
     json_transaction := λ c, (λ e, [N.of_nat e.1]) <$> list_find (eq c) known;
     json_partitions := λ _, None; json_decision := λ _, None; json_log := λ _, None;
     json_fence := λ _, None; json_prefix := λ _, None; json_window := λ _, None;
     json_capacity := λ _, None; json_repair := λ _, None; json_policy_stage := λ _, None;
     json_transition := λ _, None; json_repair_certificate := λ _, None;
     json_stage_certificate := λ _, None |}.
#[export] Instance pg_commands : CommandJson :=
  {| json_generation_command := λ _, None; json_publication_command := λ _, None;
     json_staged_command := λ _, None; json_client_command := λ _, None;
     generation_from_slice := λ _, None; publication_from_slice := λ _, None;
     staged_from_slice := λ _, None;
     cell_from_slice := λ b, match b with [n] => known !! N.to_nat n | _ => None end;
     client_from_slice := λ _, None |}.
Lemma known_round (c : CellTransactionCommand) b : to_vec c = Some b → cell_from_slice b = Some c.
Proof.
  unfold to_vec. cbn [json_transaction pg_json cell_from_slice pg_commands].
  intros ([i c'] & (Hi & <- & _)%list_find_Some & ->)%fmap_Some. by rewrite Nat2N.id.
Qed.

Definition no_plan : PostgresPageCommitPlan :=
  {| pcp_operation := Extend; pcp_relation := fork; pcp_previous_nblocks := 0;
     pcp_resulting_nblocks := 0; pcp_maximum_page_lsn := 0; pcp_admission_mutation_sha256 := [];
     pcp_command_sha256 := []; pcp_command := txn 9 0 [] key_a 0 |}.
Definition planned (a : PostgresPageWriteAdmission) (op : PostgresPageCommitOperation)
    (previous resulting : N) : PostgresPageCommitPlan :=
  ok_or no_plan (plan_postgres_page_commit prefix_digest a op previous resulting context).
Definition answered (c : CellTransactionCommand) (i : N) (d : CellDomainState)
    : CellDomainState * CellTransactionApplyResponse :=
  ok_or (direct_reject d c TInvalidRequest) (direct_apply prefix_digest c i no_fence_faults d).

(** The three states. *)
Definition first_txn : CellTransactionCommand := txn 1 0 [] key_a 1.
Definition answered1 := answered first_txn 5 fresh.
Definition state1 : pg_state :=
  {| ps_domain := answered1.1; ps_history := recorded [] 5 first_txn answered1.2; ps_log := [] |}.
Definition plan2 : PostgresPageCommitPlan := planned (admission 5 8 100) Extend 0 1.
Definition answered2 := answered (pcp_command plan2) 8 answered1.1.
Definition state2 : pg_state :=
  {| ps_domain := answered2.1;
     ps_history := recorded (ps_history state1) 8 (pcp_command plan2) answered2.2;
     ps_log := acknowledged prefix_digest [] plan2 8 answered2.2 (batch 5 8 100) |}.
Definition plan3 : PostgresPageCommitPlan := planned (admission 8 9 200) WriteExisting 1 1.
Definition answered3 := answered (pcp_command plan3) 9 answered2.1.
Definition state3 : pg_state :=
  {| ps_domain := answered3.1;
     ps_history := recorded (ps_history state2) 9 (pcp_command plan3) answered3.2;
     ps_log := acknowledged prefix_digest (ps_log state2) plan3 9 answered3.2 (batch 8 9 200) |}.

Lemma fork_ok : fork_wf fork.
Proof. by split. Qed.
Lemma page_ok lsn byte : u64_wf lsn → page_wf (page lsn byte).
Proof. intros Hlsn. split; [done|done|]. apply length_replicate. Qed.
Lemma pg_batch_ok version request lsn : u64_wf lsn → batch_wf (batch version request lsn).
Proof. intros Hlsn. split; [exact fork_ok|]. repeat constructor; by apply page_ok. Qed.
Lemma first_foreign : foreign (ct_mutations first_txn).
Proof.
  intros m Hm%list_elem_of_singleton. subst m.
  intros [[l Hl]|[l Hl]]; apply (f_equal head) in Hl; vm_compute in Hl; discriminate Hl.
Qed.

Lemma pg_step1 : pg_step prefix_digest (pg_new CELL TENANT 1) state1.
Proof.
  apply pg_other; [exact first_foreign|vm_compute; reflexivity|vm_compute; reflexivity].
Qed.
Lemma pg_step2 : pg_step prefix_digest state1 state2.
Proof.
  apply (pg_page_write prefix_digest _ _ _ (batch 5 8 100) Extend 0 1 context (admission 5 8 100));
    [by apply pg_batch_ok|vm_compute; reflexivity..].
Qed.
Lemma pg_state_eta s :
  {| ps_domain := ps_domain s; ps_history := ps_history s; ps_log := ps_log s |} = s.
Proof. by destruct s. Qed.
Lemma pg_step3 : pg_step prefix_digest state2 state3.
Proof.
  refine (eq_ind _ (λ s, pg_step prefix_digest s state3) _ _ (pg_state_eta state2)).
  refine (pg_page_write prefix_digest (ps_domain state2) (ps_history state2) (ps_log state2)
    (batch 8 9 200) WriteExisting 1 1 context (admission 8 9 200) plan3 9 answered3.1 answered3.2
    _ _ _ _ _ _); [by apply pg_batch_ok|vm_compute; reflexivity..].
Qed.
Lemma run2 : rtc (pg_step prefix_digest) (pg_new CELL TENANT 1) state2.
Proof. eapply rtc_l; [exact pg_step1|]. eapply rtc_l; [exact pg_step2|]. apply rtc_refl. Qed.
Lemma run3 : rtc (pg_step prefix_digest) (pg_new CELL TENANT 1) state3.
Proof. eapply rtc_r; [exact run2|exact pg_step3]. Qed.
Definition envelope3 : bytes :=
  ok_or [] (commit_envelope prefix_digest (canonicalize_transaction (pcp_command plan3)) 9 9
    REQUIRED_LOG_TAGS (cd_previous_log_chain answered2.1)).
(** A replica that holds the second state. *)
Definition replica : @StateMachineData unit :=
  { StateMachineData_default tt with cell_transactions := [ps_domain state2] }.
Definition payload3 : bytes := default [] (cell_command_encode (pcp_command plan3)).
Definition entry3 (i : N) : @Entry unit :=
  {| en_log_id := {| li_term := 1; li_node_id := 1; li_index := i |}; en_payload := Normal payload3 |}.
#[export] Instance pg_recovery_json : Serialize RecoveryCertificateStatement := λ _, None.
#[export] Instance pg_routine_json : Serialize RoutineReconfigurationCertificateStatement := λ _, None.
End demo_pg.
Import demo_cell demo_pg.

Lemma page_writes_serial_witness :
  (ps_log state3).*1 = [8; 9]%N ∧
  relation_of (log_upto 8 (ps_log state3)) fork = relation_of (log_before 9 (ps_log state3)) fork ∧
  rows_hold prefix_digest (replay ∅ (upto 9 (ps_history state3)))
    (relation_of (log_upto 9 (ps_log state3))).
Proof.
  destruct (page_writes_serial prefix_digest prefix_digest_len CELL TENANT 1 state3 run3)
    as (_ & Hrows & Hlog).
  split; [vm_compute; reflexivity|]. split; [|exact (Hrows 9%N)].
  destruct (Hlog 9%N (write_of (batch 8 9 200))) as (_ & _ & Hser & _).
  - vm_compute. right. left.
  - exact Hser.
Defined.

