(* ===== verification/PgReads.v ===== *)
(** * Reading PostgreSQL relations

    The page reader over the routed client: what it returns of a relation fork
    whose pages were committed through the cell. *)

From S2P Require Import Prelude Order BTree Bytes Version Mvcc SlateEngine SlateOps Quorum Envelope.
From S2P Require Import CellState CellSerial CellDirect CellDemo StateMachine.
From S2P Require Import SlateRuns RangeView RangeViewSpec RangeViewRuns RangeRead RangeReadRuns.
From S2P Require Import PgPage PgCommit PgCodec PgRuns.

#[local] Opaque POSTGRES_PAGE_SIZE.

(** ** Rows that are all within the limit *)
Lemma keys_sorted_NoDup (rows : list Row) : keys_sorted rows → NoDup rows.
Proof.
  intros Hs. apply (NoDup_fmap_1 fst), sorted_lt_NoDup.
  induction Hs as [|p rows Hs IH Hp]; constructor; [done|]. apply Forall_fmap.
  eapply Forall_impl; [exact Hp|]. done.
Qed.

Lemma first_rows_within value start end_ limit rows all :
  rows_at value start end_ all → length all ≤ limit →
  first_rows value start end_ limit rows → rows = all.
Proof.
  intros [Hs Hall] Hlen [Hsr Hlr Hsound Hcomplete]. apply keys_sorted_ext; [done..|].
  intros [k x]. split; [intros Hin; by apply Hall, Hsound|]. intros Hin.
  pose proof (proj1 (Hall k x) Hin) as (H1 & H2 & H3).
  destruct (Hcomplete k x H1 H2 H3) as [?|[Hfull Hlt]]; [done|].
  assert (NoDup ((k, x) :: rows)) as Hnd.
  { constructor; [|by apply keys_sorted_NoDup]. intros Hq%Hlt. by apply key_lt_irrefl in Hq. }
  assert ((k, x) :: rows ⊆+ all) as Hsub%submseteq_length.
  { apply NoDup_submseteq; [done|]. intros [k' x'] [->|Hq]%elem_of_cons; [done|]. by apply Hall, Hsound. }
  cbn in Hsub. lia.
Qed.

Lemma res_collect_Err {E A B} (f : A → res E B) l e :
  res_collect f l = Err e → ∃ x, x ∈ l ∧ f x = Err e.
Proof.
  induction l as [|x l IH]; cbn; [done|]. destruct (f x) as [y| |] eqn:Ex; cbn; [|intros [= <-]|done].
  - destruct (res_collect f l) as [ys| |]; cbn; [done| |done]. intros [= <-].
    destruct IH as (z & ? & ?); [done|]. exists z. split; [by constructor|done].
  - exists x. split; [by constructor|done].
Qed.

Lemma res_collect_Panic {E A B} (f : A → res E B) l :
  (∀ x, x ∈ l → f x ≠ Panic) → res_collect f l ≠ Panic.
Proof.
  induction l as [|x l IH]; cbn; intros Hf; [done|].
  pose proof (Hf x ltac:(by constructor)). destruct (f x); [|done|done]. cbn.
  assert (res_collect f l ≠ Panic) by (apply IH; intros z Hz; apply Hf; by constructor).
  by destruct (res_collect f l).
Qed.

Section reads.
Context (sha256 : bytes → bytes) (sha256_len : digest_len sha256).
Abbreviation encode := (page_encode sha256).

(** The rows of consecutive pages. *)
Fixpoint page_rows (f : PostgresRelationForkIdentity) (first : N) (pages : list PostgresPage)
    : list Row :=
  match pages with
  | [] => []
  | p :: pages => (page_key f first, encode p) :: page_rows f (first + 1) pages
  end.

Lemma lookup_page_rows f first pages i :
  page_rows f first pages !! i =
  (λ p, (page_key f (first + N.of_nat i), encode p)) <$> pages !! i.
Proof.
  revert first i. induction pages as [|p pages IH]; intros first [|i]; [done..| |].
  - cbn [page_rows lookup list_lookup fmap option_fmap option_map]. by rewrite N.add_0_r.
  - cbn [page_rows lookup list_lookup]. rewrite IH. apply option_fmap_ext.
    intros q. do 2 f_equal. lia.
Qed.

Lemma length_page_rows f first pages : length (page_rows f first pages) = length pages.
Proof. revert first. induction pages; intros first; cbn; by f_equal. Qed.

Lemma elem_of_page_rows f first pages k x :
  (k, x) ∈ page_rows f first pages ↔
  ∃ i p, pages !! i = Some p ∧ k = page_key f (first + N.of_nat i) ∧ x = encode p.
Proof.
  rewrite list_elem_of_lookup. setoid_rewrite lookup_page_rows.
  setoid_rewrite fmap_Some. naive_solver.
Qed.

Lemma page_rows_sorted f first pages :
  (first + len pages ≤ U32_MAX + 1)%N → keys_sorted (page_rows f first pages).
Proof.
  unfold len. revert first. induction pages as [|p pages IH]; intros first Hfit; [constructor|].
  cbn [page_rows length] in *. constructor; [apply IH; lia|]. apply Forall_forall.
  intros [k x] (i & q & Hi & -> & _)%elem_of_page_rows. apply lookup_lt_Some in Hi.
  apply page_key_lt; unfold u32_fits; lia.
Qed.

(** The blocks of a fork are all there is between two of its page keys. *)
Lemma relation_rows rows R f b n :
  rows_hold sha256 rows R → fork_wf f → (b + N.of_nat n ≤ U32_MAX)%N →
  rows_at (λ k, rows !! k) (page_key f b) (page_key f (b + N.of_nat n))
    (page_rows f b (take n (drop (N.to_nat b) (R f)))).
Proof.
  intros Hrows Hf Hfit. set (pages := take _ _).
  assert (length pages ≤ n) as Hn by (unfold pages; rewrite length_take; lia).
  assert (∀ i, i < n → pages !! i = R f !! (N.to_nat b + i)) as Hlook.
  { intros i Hi. unfold pages. by rewrite lookup_take_lt, lookup_drop. }
  split; [apply page_rows_sorted; unfold len; lia|]. intros k x. rewrite elem_of_page_rows. split.
  - intros (i & p & Hi & -> & ->). pose proof (lookup_lt_Some _ _ _ Hi).
    rewrite page_key_le, page_key_lt by (unfold u32_fits; lia). split_and!; [lia|lia|].
    rewrite (rh_page _ _ _ Hrows) by (unfold u32_fits; done || lia).
    rewrite Hlook in Hi by lia. replace (N.to_nat (b + N.of_nat i)) with (N.to_nat b + i) by lia.
    by rewrite Hi.
  - intros (Hle & Hlt & Hk).
    assert (PAGE_KEY_PREFIX `prefix_of` k) as Hp.
    { rewrite !page_key_fork in Hle, Hlt. by eapply between_prefix. }
    destruct (rh_only _ _ _ Hrows _ _ Hk Hp) as (f' & b' & Hf' & Hb' & ->).
    destruct (page_key_between f b (b + N.of_nat n) f' b') as [-> Hbb]; [unfold u32_fits; done || lia..|].
    rewrite (rh_page _ _ _ Hrows) in Hk by done. apply fmap_Some in Hk as (p & Hp' & ->).
    exists (N.to_nat (b' - b)), p. split_and!; [|f_equal; lia|done].
    rewrite Hlook by lia. rewrite <-Hp'. f_equal. lia.
Qed.

(** ** Decoding *)
Lemma decode_at_snapshot_encode snapshot p :
  page_wf p →
  decode_at_snapshot sha256 snapshot (encode p) =
    if (prs_maximum_page_lsn snapshot <? pg_page_lsn p)%N
    then Err (PageLsnBeyondSnapshot (pg_page_lsn p) (prs_maximum_page_lsn snapshot)) else Ok p.
Proof. intros Hp. unfold decode_at_snapshot. by rewrite page_decode_encode. Qed.

Lemma decode_page_row_at f b n snapshot pages offset :
  fork_wf f → (b + N.of_nat n ≤ U32_MAX)%N → offset < n → Forall page_wf pages →
  decode_page_row sha256 (page_of f b) snapshot (page_rows f b pages) offset =
    match pages !! offset with
    | None => Err (MissingPage (b + N.of_nat offset))
    | Some p =>
        if (prs_maximum_page_lsn snapshot <? pg_page_lsn p)%N
        then Err (PageLsnBeyondSnapshot (pg_page_lsn p) (prs_maximum_page_lsn snapshot))
        else Ok p
    end.
Proof.
  intros Hf Hfit Ho Hpages. unfold decode_page_row, checked_add_u32.
  rewrite (proj2 (N.ltb_ge _ _)) by lia. cbn [page_of ppi_block_number].
  rewrite (proj2 (N.leb_le _ _)) by lia. rewrite lookup_page_rows.
  change (encode_key (with_block (page_of f b) (b + N.of_nat offset)))
    with (page_key f (b + N.of_nat offset)).
  destruct (pages !! offset) as [p|] eqn:Hp; [|done].
  cbn [fmap option_fmap option_map]. rewrite bool_decide_true by done. cbn [negb].
  apply decode_at_snapshot_encode. by eapply Forall_lookup_1.
Qed.

(** What the reader may answer for blocks [b] to [b + n] of a relation. *)
Definition pages_answer (relation : list PostgresPage) (b : N) (n : nat)
    (snapshot : PostgresPageReadSnapshot)
    (r : res PostgresPageBridgeError (list PostgresPage)) : Prop :=
  match r with
  | Ok pages =>
      pages = take n (drop (N.to_nat b) relation) ∧ length pages = n ∧
      Forall (λ p, (pg_page_lsn p ≤ prs_maximum_page_lsn snapshot)%N) pages
  | Err (MissingPage k) => (b ≤ k < b + N.of_nat n)%N ∧ relation !! N.to_nat k = None
  | Err (PageLsnBeyondSnapshot lsn maximum) =>
      maximum = prs_maximum_page_lsn snapshot ∧ (maximum < lsn)%N ∧
      ∃ k p, (b ≤ k < b + N.of_nat n)%N ∧ relation !! N.to_nat k = Some p ∧ pg_page_lsn p = lsn
  | Err PageBlockRangeOverflow => (U32_MAX < b + N.of_nat n)%N
  | Err (PageObjectKvRead e) => reported e
  | Err _ | Panic => False
  end.

Lemma decode_relation_rows f b n snapshot relation :
  fork_wf f → (b + N.of_nat n ≤ U32_MAX)%N → Forall page_wf relation →
  pages_answer relation b n snapshot
    (decode_page_rows sha256 (page_of f b) n snapshot
       (page_rows f b (take n (drop (N.to_nat b) relation)))).
Proof.
  intros Hf Hfit Hwf. unfold decode_page_rows. set (pages := take _ _).
  assert (length pages ≤ n) as Hn by (unfold pages; rewrite length_take; lia).
  assert (∀ i, i < n → pages !! i = relation !! N.to_nat (b + N.of_nat i)) as Hlook.
  { intros i Hi. unfold pages. rewrite lookup_take_lt, lookup_drop by done. f_equal. lia. }
  assert (Forall page_wf pages) as Hpages by by apply Forall_take, Forall_drop.
  assert (∀ o, o < n → _) as Hrow by (intros o Ho; exact (decode_page_row_at f b n snapshot pages o Hf Hfit Ho Hpages)).
  set (decode := decode_page_row _ _ _ _) in *.
  destruct (res_collect decode (seq 0 n)) as [l|e|] eqn:Hc; cbn [res_bind].
  - apply res_collect_Ok in Hc. rewrite length_page_rows.
    assert (pages = l) as <-.
    { apply list_eq. intros i. destruct (decide (i < n)) as [Hi|Hi].
      - destruct (Forall2_lookup_l _ _ _ _ _ Hc (lookup_seq_lt 0 n i Hi)) as (p & -> & Hd).
        rewrite Hrow in Hd by lia. cbn [Nat.add] in Hd. destruct (pages !! i); [|done].
        case_guards; [done|]. by injection Hd as ->.
      - apply Forall2_length in Hc. rewrite length_seq in Hc.
        rewrite !lookup_ge_None_2 by lia. done. }
    apply Forall2_length in Hc as Hl. rewrite length_seq in Hl. rewrite <-Hl, Nat.eqb_refl. cbn [negb].
    split_and!; [done|by symmetry|]. apply Forall_lookup. intros i p Hp.
    pose proof (lookup_lt_Some _ _ _ Hp).
    destruct (Forall2_lookup_l _ _ _ _ _ Hc (lookup_seq_lt 0 n i ltac:(lia))) as (q & Hq & Hd).
    rewrite Hrow in Hd by lia. cbn [Nat.add] in Hd. rewrite Hp in Hd.
    destruct (_ <? _)%N eqn:E; [done|]. by apply N.ltb_ge in E.
  - apply res_collect_Err in Hc as (o & Ho%elem_of_seq & Hd). rewrite Hrow in Hd by lia.
    rewrite Hlook in Hd by lia.
    destruct (relation !! _) as [p|] eqn:Hp.
    + destruct (_ <? _)%N eqn:E; [|done]. apply N.ltb_lt in E. injection Hd as <-.
      split_and!; [done|done|]. exists (b + N.of_nat o)%N, p. split_and!; (done || lia).
    + injection Hd as <-. split; [lia|done].
  - exfalso. revert Hc. apply res_collect_Panic. intros o Ho%elem_of_seq. rewrite Hrow by lia.
    repeat case_match; done.
Qed.
End reads.

(** ** The reader *)
Definition nblocks_of (relation : list PostgresPage) : option N :=
  match relation with [] => None | _ => Some (len relation) end.

Definition nblocks_answer (relation : list PostgresPage)
    (r : res PostgresRelationExtentError (option N)) : Prop :=
  match r with
  | Ok n => n = nblocks_of relation
  | Err (ExtentObjectKvRead e) => reported e
  | Err _ | Panic => False
  end.

Definition page_answer (relation : list PostgresPage) (b : N) (snapshot : PostgresPageReadSnapshot)
    (r : res PostgresPageBridgeError (option PostgresPage)) : Prop :=
  match r with
  | Ok page =>
      page = relation !! N.to_nat b ∧
      ∀ p, page = Some p → (pg_page_lsn p ≤ prs_maximum_page_lsn snapshot)%N
  | Err (PageLsnBeyondSnapshot lsn maximum) =>
      maximum = prs_maximum_page_lsn snapshot ∧ (maximum < lsn)%N ∧
      ∃ p, relation !! N.to_nat b = Some p ∧ pg_page_lsn p = lsn
  | Err (PageObjectKvRead e) => reported e
  | Err _ | Panic => False
  end.

Section reader.
Context (sha256 : bytes → bytes) (sha256_len : digest_len sha256).
Context `{Ed25519} `{CellJson}.
Context {W : Type}.
Context (request_range_read :
  W → string → RoutedRangeReadRequest → Outcome * option ClientRangeMapSnapshot * W).
Context (range_map_snapshot :
  W → bytes → bytes → (string + ClientRangeMapSnapshot) * option ClientRangeMapSnapshot * W).
Context {B C : Type} `{SnapshotBase B C}.
Context (s : pg_state) (cell tenant : bytes) (maximum : nat).
Context (Hinv : pg_inv sha256 s).
Context (Htasks : tasks_valid request_range_read range_map_snapshot cell tenant).
Context (Hrouted : routed request_range_read (cell_rows (ps_history s)) (B := B) (C := C)).
Abbreviation session := (client_ok cell tenant maximum).
Abbreviation relation v f := (relation_of (log_upto v (ps_log s)) f).

Lemma read_nblocks_exact w c f v w' c' r :
  session c → fork_wf f →
  read_nblocks sha256 request_range_read range_map_snapshot w c f v = (w', c', r) →
  session c' ∧ nblocks_answer (relation v f) r.
Proof.
  intros Hc Hf. unfold read_nblocks.
  destruct (point_at _ _ _ _ _ _) as [[w1 c1] value] eqn:Hp. intros [= <- <- <-].
  destruct (client_point_ok _ _ _ cell tenant maximum Htasks Hrouted _ _ _ _ _ _ _ Hc Hp) as [Hc1 Hv].
  split; [done|]. destruct value as [x| |]; [|done..]. unfold result_ok in Hv. subst x.
  pose proof (pi_rows _ _ Hinv v) as Hrows. unfold cell_rows. cbn [map_err res_bind].
  rewrite (rh_extent _ _ _ Hrows) by done. pose proof (rh_fits _ _ _ Hrows f) as Hfit.
  unfold extent_row, nblocks_answer, nblocks_of.
  destruct (relation_of _ f); [done|]. cbn [transpose]. by rewrite extent_decode_encode.
Qed.

Lemma read_page_exact w c f b snapshot w' c' r :
  session c → fork_wf f → u32_fits b →
  read_page sha256 request_range_read range_map_snapshot w c (page_of f b) snapshot = (w', c', r) →
  session c' ∧ page_answer (relation (prs_objectkv_version snapshot) f) b snapshot r.
Proof.
  intros Hc Hf Hb. unfold read_page.
  destruct (point_at _ _ _ _ _ _) as [[w1 c1] value] eqn:Hp. intros [= <- <- <-].
  destruct (client_point_ok _ _ _ cell tenant maximum Htasks Hrouted _ _ _ _ _ _ _ Hc Hp) as [Hc1 Hv].
  split; [done|]. destruct value as [x| |]; [|done..]. unfold result_ok in Hv. subst x.
  pose proof (pi_rows _ _ Hinv (prs_objectkv_version snapshot)) as Hrows. unfold cell_rows.
  cbn [map_err res_bind]. change (encode_key (page_of f b)) with (page_key f b).
  rewrite (rh_page _ _ _ Hrows) by done. unfold page_answer.
  pose proof (rh_wf _ _ _ Hrows f) as Hwf.
  destruct (relation_of _ f !! N.to_nat b) as [p|] eqn:Hlook; [|done].
  cbn [fmap option_fmap option_map transpose].
  rewrite decode_at_snapshot_encode by (done || by eapply Forall_lookup_1).
  destruct (_ <? _)%N eqn:E; cbn [res_map].
  - apply N.ltb_lt in E. split_and!; [done|done|]. by exists p.
  - apply N.ltb_ge in E. split; [done|]. by intros ? [= <-].
Qed.

Lemma read_pages_exact w c f b n snapshot w' c' r :
  session c → fork_wf f →
  read_pages sha256 request_range_read range_map_snapshot w c (page_of f b) n snapshot = (w', c', r) →
  session c' ∧ pages_answer (relation (prs_objectkv_version snapshot) f) b n snapshot r.
Proof.
  intros Hc Hf. unfold read_pages. destruct (n =? 0) eqn:En.
  { apply Nat.eqb_eq in En as ->. by intros [= <- <- <-]. }
  destruct (U32_MAX <? N.of_nat n)%N eqn:Eu.
  { apply N.ltb_lt in Eu. intros [= <- <- <-]. split; [done|]. cbn. lia. }
  cbn [page_of ppi_block_number]. unfold checked_add_u32. destruct (_ <=? _)%N eqn:Ea.
  2: { apply N.leb_gt in Ea. by intros [= <- <- <-]. }
  apply N.leb_le in Ea. destruct (client_scan_at _ _ _ _ _ _ _ _) as [[w1 c1] rows] eqn:Hs.
  intros [= <- <- <-].
  destruct (client_scan_ok _ _ _ cell tenant maximum Htasks Hrouted _ _ _ _ _ _ _ _ _ Hc Hs)
    as [Hc1 Hv].
  split; [done|]. destruct rows as [rows| |]; [|done..]. destruct Hv as [_ Hfirst].
  pose proof (pi_rows _ _ Hinv (prs_objectkv_version snapshot)) as Hrows.
  apply (first_rows_within _ _ _ _ _ _ (relation_rows _ _ _ f b n Hrows Hf Ea)) in Hfirst as ->.
  - cbn [map_err res_bind]. apply decode_relation_rows; [done|done|done|]. apply (rh_wf _ _ _ Hrows).
  - rewrite length_page_rows, length_take. lia.
Qed.
End reader.

Section claims.
Context (sha256 : bytes → bytes) (sha256_len : digest_len sha256).
Context `{Ed25519} `{CellJson}.

(** C13. PostgreSQL relations are read back exactly. Page batches are admitted,
    planned from the extent recorded at the version they were prepared on, and
    committed on one cell among transactions of other clients that leave the
    PostgreSQL keys alone. Afterwards, through a client whose servers answer with
    the cell's rows, at every version and for every relation fork: the block
    count returned is the number of pages the writes acknowledged up to that
    version left; a page returned is the page at its block, and none is returned
    only where the fork has none; and a batch of blocks returned is exactly that
    stretch of the fork. A block reported missing is past the end, a page is held
    back only when its LSN is above the snapshot's, and no stored value is ever
    found malformed. *)
Theorem postgres_reads_exact {W} request_range_read range_map_snapshot {B C} `{SnapshotBase B C}
    cell0 tenant0 g s cell tenant maximum c (w : W) :
  rtc (pg_step sha256) (pg_new cell0 tenant0 g) s →
  tasks_valid request_range_read range_map_snapshot cell tenant →
  routed request_range_read (cell_rows (ps_history s)) (B := B) (C := C) →
  client_ok cell tenant maximum c →
  (∀ f v w' c' r, fork_wf f →
     read_nblocks sha256 request_range_read range_map_snapshot w c f v = (w', c', r) →
     client_ok cell tenant maximum c' ∧ nblocks_answer (relation_of (log_upto v (ps_log s)) f) r) ∧
  (∀ f b snapshot w' c' r, fork_wf f → u32_fits b →
     read_page sha256 request_range_read range_map_snapshot w c (page_of f b) snapshot
       = (w', c', r) →
     client_ok cell tenant maximum c' ∧
     page_answer (relation_of (log_upto (prs_objectkv_version snapshot) (ps_log s)) f) b snapshot r) ∧
  (∀ f b n snapshot w' c' r, fork_wf f →
     read_pages sha256 request_range_read range_map_snapshot w c (page_of f b) n snapshot
       = (w', c', r) →
     client_ok cell tenant maximum c' ∧
     pages_answer (relation_of (log_upto (prs_objectkv_version snapshot) (ps_log s)) f) b n
       snapshot r).
Proof.
  intros Hinv%pg_reachable Htasks Hrouted Hc; [|done]. split_and!.
  - intros f v w' c' r. by apply (read_nblocks_exact sha256 sha256_len request_range_read
      range_map_snapshot s cell tenant maximum Hinv Htasks Hrouted).
  - intros f b snapshot w' c' r. by apply (read_page_exact sha256 sha256_len request_range_read
      range_map_snapshot s cell tenant maximum Hinv Htasks Hrouted).
  - intros f b n snapshot w' c' r. by apply (read_pages_exact sha256 sha256_len request_range_read
      range_map_snapshot s cell tenant maximum Hinv Htasks Hrouted).
Qed.
End claims.

(** *** A concrete reader: one router over a view of the run of [PgRuns.v] *)
Module demo_pg_read.
Import demo_cell demo_view demo_pg.

Definition committed : list commit := [(8%N, pcp_command plan2); (9%N, pcp_command plan3)].
Definition pg_view : AuthorityBoundRangeView (gmap bytes bytes) :=
  Build_AuthorityBoundRangeView _ demo_view.base demo_view.root 9%N
    (logged_tail (logged_commit <$> committed)) 0%N [].

Lemma history_split : ps_history state3 = demo_view.first.2 ++ committed.
Proof. vm_compute. reflexivity. Qed.
Lemma pg_view_ok :
  view_ok (C := cursor) pg_view (latest model) (λ v k, visible model k v) (logged_commit <$> committed).
Proof.
  split; [by apply base_ok|vm_compute; reflexivity|by vm_compute|by vm_compute|reflexivity| |].
  - repeat constructor.
  - intros r (c & -> & Hc)%list_elem_of_fmap.
    apply elem_of_cons in Hc as [->|Hc%list_elem_of_singleton]; [|subst c]; by split.
Qed.
Lemma pg_view_answers : view_answers (C := cursor) pg_view (cell_rows (ps_history state3)).
Proof.
  rewrite history_split. eapply view_ok_answers; [exact pg_view_ok|exact model_value|].
  assert (demo_view.first.2 = [(5%N, first_txn)]) as -> by (vm_compute; reflexivity).
  intros c Hc%list_elem_of_singleton. subst c. cbn. lia.
Qed.

Definition pg_states : gmap N (RangeServingState (B := gmap bytes bytes)) :=
  {[1%N := {| rss_current := pg_view; rss_poisoned := false |}]}.
Definition pg_router : KvReadRouter :=
  (assign pg_states
    {| krr_config := {| krc_cell_id := CELL; krc_max_in_flight := 4; krc_max_key_bytes := 64;
         krc_max_scan_rows := 10 |};
       krr_tenants := ∅; krr_poisoned := false; krr_available := 4 |}
    (demo_read.assignment 1 [] [200%N]) 1).1.
Definition pg_send (w : ()) (_ : string) (request : RoutedRangeReadRequest)
    : Outcome * option ClientRangeMapSnapshot * () :=
  (demo_read.outcome_of (execute (C := cursor) pg_states pg_router request), None, tt).
Definition pg_snapshot : ClientRangeMapSnapshot :=
  {| crm_cell_id := CELL; crm_tenant_id := TENANT; crm_map_version := 1;
     crm_routes := [demo_read.route 1 [] [200%N]] |}.
Definition pg_authority (w : ()) (_ _ : bytes)
    : (string + ClientRangeMapSnapshot) * option ClientRangeMapSnapshot * () :=
  (inr pg_snapshot, None, tt).
Definition pg_client : KvReadClient :=
  {| kcl_cell_id := CELL; kcl_tenant_id := TENANT; kcl_max_route_refreshes := 2;
     kcl_routes := pg_snapshot; kcl_poisoned := false |}.
Definition at_version (v : N) : PostgresPageReadSnapshot :=
  {| prs_objectkv_version := v; prs_maximum_page_lsn := 900 |}.

Lemma pg_tasks : tasks_valid pg_send pg_authority CELL TENANT.
Proof.
  split.
  - intros w endpoint request o s w' Hs.
    assert (None = Some s) as Hn by exact (f_equal (λ o, o.1.2) Hs). discriminate Hn.
  - intros w c t o s w' Hs.
    assert (None = Some s) as Hn by exact (f_equal (λ o, o.1.2) Hs). discriminate Hn.
Qed.
Lemma pg_network : routed pg_send (cell_rows (ps_history state3)) (B := gmap bytes bytes) (C := cursor).
Proof.
  intros w endpoint request reply cached w' Hs. exists pg_states, pg_router. split.
  - intros id s v Hid Hv. unfold pg_states in Hid. apply lookup_singleton_Some in Hid as [_ <-].
    assert (pg_view = v) as <- by exact (f_equal (ok_or pg_view) Hv). exact pg_view_answers.
  - apply demo_read.outcome_replied. exact (f_equal (λ o, o.1.1) Hs).
Qed.
Lemma pg_client_valid : client_ok CELL TENANT 2 pg_client.
Proof. by split. Qed.
Lemma pg_pages_read : match read_pages prefix_digest pg_send pg_authority tt pg_client
    (page_of fork 0) 1 (at_version 9) with
  | (_, _, Ok [p]) => pg_page_lsn p = 200%N
  | _ => False end.
Proof. vm_compute. reflexivity. Qed.
End demo_pg_read.
Import demo_cell demo_view demo_pg demo_pg_read.

Lemma postgres_reads_exact_witness :
  ∃ w c pages, read_pages prefix_digest pg_send pg_authority tt pg_client (page_of fork 0) 1
      (at_version 9) = (w, c, Ok pages) ∧ length pages = 1 ∧
    pages = take 1 (drop 0 (relation_of (log_upto 9 (ps_log state3)) fork)).
Proof.
  pose proof pg_pages_read as Hok.
  destruct (read_pages prefix_digest pg_send pg_authority tt pg_client (page_of fork 0) 1
    (at_version 9)) as [[w c] [pages| |]] eqn:E; [|destruct Hok..].
  destruct (proj2 (proj2 (postgres_reads_exact prefix_digest prefix_digest_len pg_send pg_authority
    (B := gmap bytes bytes) (C := cursor) CELL TENANT 1 state3 CELL TENANT 2 pg_client tt
    run3 pg_tasks pg_network pg_client_valid))
    fork 0%N 1 (at_version 9) w c (Ok pages) fork_ok E) as [_ (Hpages & Hlen & _)].
  exists w, c, pages. split; [exact eq_refl|]. split; [exact Hlen|exact Hpages].
Defined.
