(* ===== verification/ManifestBound.v ===== *)
(** * The manifest-bound store

    [okv-slate/src/manifest_bound_store.rs]: the read-only view of an object
    store through which a reader opens SlateDB at one manifest that the authority
    selected. Paths are byte strings and streams are lists; the driver behind the
    view is a parameter.

    The view shows exactly the manifests up to the selected one, and what it
    answers does not depend on what is hidden ([bound_view_pinned]). *)

From S2P Require Import Prelude Order BTree Bytes.

Definition slash : N := 47.

(** [str::rsplit_once]: the parts around the last occurrence. *)
Fixpoint rsplit_once (c : N) (l : bytes) : option (bytes * bytes) :=
  match l with
  | [] => None
  | x :: l =>
      match rsplit_once c l with
      | Some (before, after) => Some (x :: before, after)
      | None => if (x =? c)%N then Some ([], l) else None
      end
  end.

Definition starts_with (l prefix : bytes) : bool := bool_decide (take (length prefix) l = prefix).

(** [str::strip_suffix]. *)
Definition strip_suffix (l suffix : bytes) : option bytes :=
  let n := length l - length suffix in
  if (length suffix <=? length l) && bool_decide (drop n l = suffix) then Some (take n l) else None.

Definition is_ascii_digit (b : N) : bool := (48 <=? b)%N && (b <=? 57)%N.

Definition manifest_suffix : bytes := string_bytes ".manifest".
Definition manifest_dir (database_path : bytes) : bytes := database_path ++ string_bytes "/manifest".

(** The driver: reads of a store in state [S], with errors [E], object contents
    [R], options [O] and object descriptions [M] at locations. *)
Record ReadStore (S E O R M : Type) := {
  rs_get_opts : bytes → O → S → res E R;
  rs_get_ranges : bytes → list (N * N) → S → res E (list bytes);
  rs_list : option bytes → S → list (res E (bytes * M));
  rs_list_with_offset : option bytes → bytes → S → list (res E (bytes * M));
  rs_list_with_delimiter : option bytes → S → res E (list (bytes * M) * list bytes);
}.
Arguments rs_get_opts {S E O R M} _ _ _ _.
Arguments rs_get_ranges {S E O R M} _ _ _ _.
Arguments rs_list {S E O R M} _ _ _.
Arguments rs_list_with_offset {S E O R M} _ _ _ _.
Arguments rs_list_with_delimiter {S E O R M} _ _ _.

Record ManifestBoundStore := {
  mb_manifest_prefix : bytes;
  mb_bound_manifest : bytes;
}.

Inductive BoundError (E : Type) :=
  | NewerManifest (path : bytes)
  | ReadOnlyView
  | InnerError (error : E).
Arguments NewerManifest {E} _.
Arguments ReadOnlyView {E}.
Arguments InnerError {E} _.

Definition manifest_bound_new (database_path bound_manifest : bytes)
    : res string ManifestBoundStore :=
  match rsplit_once slash bound_manifest with
  | None => Err "bound manifest key has no parent prefix"%string
  | Some (manifest_prefix, file_name) =>
      let valid_id :=
        match strip_suffix file_name manifest_suffix with
        | Some id => (length id =? 20) && forallb is_ascii_digit id
        | None => false
        end in
      if negb (bool_decide (manifest_prefix = manifest_dir database_path)) || negb valid_id
      then Err "bound key is not a SlateDB manifest path"%string
      else Ok {| mb_manifest_prefix := manifest_prefix ++ [slash];
                 mb_bound_manifest := bound_manifest |}
  end.

Definition is_visible (v : ManifestBoundStore) (location : bytes) : bool :=
  negb (starts_with location (mb_manifest_prefix v)) || (location ≤ₖ? mb_bound_manifest v).

Section view.
Context {S E O R M : Type} (inner : ReadStore S E O R M) (v : ManifestBoundStore).

Definition bound_put_opts (location : bytes) (payload : bytes) (s : S) : S * res (BoundError E) unit :=
  (s, Err ReadOnlyView).
Definition bound_put_multipart_opts (location : bytes) (s : S) : S * res (BoundError E) unit :=
  (s, Err ReadOnlyView).
Definition bound_copy_opts (from to : bytes) (s : S) : S * res (BoundError E) unit :=
  (s, Err ReadOnlyView).
Definition bound_rename_opts (from to : bytes) (s : S) : S * res (BoundError E) unit :=
  (s, Err ReadOnlyView).
(** An error of the input stream is passed on, every location is refused. *)
Definition bound_delete_stream (locations : list (res E bytes)) (s : S)
    : S * list (res (BoundError E) bytes) :=
  (s, (λ location, match location with
                   | Ok _ => Err ReadOnlyView
                   | Err e => Err (InnerError e)
                   | Panic => Panic
                   end) <$> locations).

Definition bound_get_opts (location : bytes) (options : O) (s : S) : res (BoundError E) R :=
  if negb (is_visible v location) then Err (NewerManifest location)
  else map_err InnerError (rs_get_opts inner location options s).

Definition bound_get_ranges (location : bytes) (ranges : list (N * N)) (s : S)
    : res (BoundError E) (list bytes) :=
  if negb (is_visible v location) then Err (NewerManifest location)
  else map_err InnerError (rs_get_ranges inner location ranges s).

(** The filter of both listings. *)
Definition listed (result : res E (bytes * M)) : bool :=
  match result with
  | Ok (location, _) =>
      negb (starts_with location (mb_manifest_prefix v) && (mb_bound_manifest v <ₖ? location))
  | _ => true
  end.

Definition bound_list (prefix : option bytes) (s : S) : list (res E (bytes * M)) :=
  List.filter listed (rs_list inner prefix s).

Definition bound_list_with_offset (prefix : option bytes) (offset : bytes) (s : S)
    : list (res E (bytes * M)) :=
  List.filter listed (rs_list_with_offset inner prefix offset s).

(** Only the objects of the answer are filtered. *)
Definition bound_list_with_delimiter (prefix : option bytes) (s : S)
    : res E (list (bytes * M) * list bytes) :=
  let? '(objects, common_prefixes) := rs_list_with_delimiter inner prefix s in
  Ok (List.filter (λ meta, is_visible v meta.1) objects, common_prefixes).
End view.

(** ** Paths *)
Lemma rsplit_once_None c l : rsplit_once c l = None ↔ c ∉ l.
Proof.
  induction l as [|x l IH]; simpl; [split; [intros _; apply not_elem_of_nil|done]|].
  rewrite elem_of_cons. destruct (rsplit_once c l) as [[b a]|].
  - split; [done|]. intros Hn. assert (c ∉ l) as Hl by naive_solver. by apply IH in Hl.
  - assert (c ∉ l) by by apply IH. destruct (N.eqb_spec x c); naive_solver.
Qed.

Lemma rsplit_once_Some c l b a : rsplit_once c l = Some (b, a) ↔ l = b ++ c :: a ∧ c ∉ a.
Proof.
  revert b a. induction l as [|x l IH]; intros b a; simpl.
  { split; [done|]. intros [H _]. by destruct b. }
  pose proof (rsplit_once_None c l) as Hnone. destruct (rsplit_once c l) as [[b' a']|].
  - destruct (proj1 (IH b' a') eq_refl) as [-> Ha']. split.
    + intros [= <- <-]. done.
    + intros [H Ha]. destruct b as [|y b]; simplify_eq/=; [destruct Ha; set_solver|].
      assert (Some (b', a') = Some (b, a)) by by apply IH. by simplify_eq.
  - assert (c ∉ l) as Hl by by apply Hnone. destruct (N.eqb_spec x c) as [->|Hne].
    + split; [by intros [= <- <-]|]. intros [H Ha]. destruct b as [|y b]; simplify_eq/=; [done|].
      destruct Hl. set_solver.
    + split; [done|]. intros [H Ha]. destruct b as [|y b]; simplify_eq/=. destruct Hl. set_solver.
Qed.

Lemma strip_suffix_Some l suffix p : strip_suffix l suffix = Some p ↔ l = p ++ suffix.
Proof.
  unfold strip_suffix. destruct (length suffix <=? length l) eqn:Hlen.
  - apply Nat.leb_le in Hlen. case_bool_decide as Hd; simpl; split.
    + intros [= <-]. rewrite <-Hd at 2. by rewrite take_drop.
    + intros ->. rewrite length_app. f_equal. rewrite take_app_le by lia.
      by rewrite firstn_all2 by lia.
    + done.
    + intros ->. destruct Hd. rewrite length_app, drop_app_ge by lia.
      by replace (length p + length suffix - length suffix - length p) with 0 by lia.
  - apply Nat.leb_gt in Hlen. split; [done|]. intros ->. rewrite length_app in Hlen. lia.
Qed.

Lemma starts_with_app prefix rest : starts_with (prefix ++ rest) prefix = true.
Proof. unfold starts_with. apply bool_decide_eq_true. by rewrite take_app_length. Qed.

(** [format!("{id:020}")]: decimal digits of a fixed width. *)
Fixpoint decimal (width : nat) (v : N) : bytes :=
  match width with
  | O => []
  | S width => decimal width (v / 10) ++ [48 + v mod 10]%N
  end.

Lemma decimal_length w v : length (decimal w v) = w.
Proof. revert v. induction w as [|w IH]; intros v; [done|]. simpl. rewrite length_app, IH. simpl. lia. Qed.

Lemma decimal_digits w v : Forall (λ b, 48 ≤ b ≤ 57)%N (decimal w v).
Proof.
  revert v. induction w as [|w IH]; intros v; [constructor|]. cbn [decimal]. apply Forall_app.
  split; [apply IH|]. apply Forall_singleton. pose proof (N.mod_lt v 10 ltac:(done)) as Hm.
  generalize dependent (v mod 10)%N. lia.
Qed.

(** Digits of one width compare as the numbers they show. *)
Lemma decimal_cmp w v1 v2 :
  (v1 < 10 ^ N.of_nat w)%N → (v2 < 10 ^ N.of_nat w)%N →
  kcmp (decimal w v1) (decimal w v2) = (v1 ?= v2)%N.
Proof.
  revert v1 v2. induction w as [|w IH]; intros v1 v2 H1 H2.
  { simpl in *. by assert (v1 = 0 ∧ v2 = 0)%N as [-> ->] by lia. }
  rewrite Nat2N.inj_succ, N.pow_succ_r' in H1, H2. cbn [decimal].
  rewrite list_cmp_app_eq by (by rewrite !decimal_length).
  pose proof (N.div_mod v1 10 ltac:(done)) as E1. pose proof (N.div_mod v2 10 ltac:(done)) as E2.
  pose proof (N.mod_lt v1 10 ltac:(done)). pose proof (N.mod_lt v2 10 ltac:(done)).
  rewrite IH by (apply N.Div0.div_lt_upper_bound; lia).
  set (q1 := (v1 / 10)%N) in *. set (q2 := (v2 / 10)%N) in *.
  set (r1 := (v1 mod 10)%N) in *. set (r2 := (v2 mod 10)%N) in *.
  destruct (N.compare_spec q1 q2) as [->|Hlt|Hgt].
  - change (kcmp [48 + r1]%N [48 + r2]%N) with (list_cmp [48 + r1]%N [48 + r2]%N). simpl.
    destruct (N.compare_spec (48 + r1) (48 + r2)), (N.compare_spec v1 v2); try done; lia.
  - symmetry. apply N.compare_lt_iff. lia.
  - symmetry. apply N.compare_gt_iff. lia.
Qed.

Definition manifest_path (database_path : bytes) (id : N) : bytes :=
  manifest_dir database_path ++ slash :: decimal 20 id ++ manifest_suffix.

Lemma manifest_path_bound id : u64_wf id → (id < 10 ^ N.of_nat 20)%N.
Proof. unfold u64_wf, U64_MAX. simpl. lia. Qed.

(** The constructor accepts exactly the manifest paths of the database. *)
Lemma manifest_bound_new_exact database_path key v :
  manifest_bound_new database_path key = Ok v ↔
  ∃ digits, length digits = 20 ∧ Forall (λ b, 48 ≤ b ≤ 57)%N digits ∧
    key = manifest_dir database_path ++ slash :: digits ++ manifest_suffix ∧
    v = {| mb_manifest_prefix := manifest_dir database_path ++ [slash]; mb_bound_manifest := key |}.
Proof.
  assert (∀ digits, forallb is_ascii_digit digits = true ↔ Forall (λ b, 48 ≤ b ≤ 57)%N digits)
    as Hdigits.
  { intros digits. rewrite forallb_forall, Forall_forall. setoid_rewrite list_elem_of_In.
    unfold is_ascii_digit. setoid_rewrite andb_true_iff. setoid_rewrite N.leb_le. done. }
  unfold manifest_bound_new. split.
  - destruct (rsplit_once slash key) as [[prefix name]|] eqn:Hs; [|done].
    apply rsplit_once_Some in Hs as [-> Hname].
    case_bool_decide as Hp; [|done]. subst prefix. simpl.
    destruct (strip_suffix name manifest_suffix) as [digits|] eqn:Hn; [|done].
    apply strip_suffix_Some in Hn as ->.
    destruct (length digits =? 20) eqn:Hlen; [|done]. apply Nat.eqb_eq in Hlen. simpl.
    destruct (forallb _ _) eqn:Hd; [|done]. intros [= <-]. exists digits.
    split_and!; [done|by apply Hdigits|done|done].
  - intros (digits & Hlen & Hd & -> & ->).
    assert (rsplit_once slash (manifest_dir database_path ++ slash :: digits ++ manifest_suffix) =
      Some (manifest_dir database_path, digits ++ manifest_suffix)) as ->.
    { apply rsplit_once_Some. split; [done|]. rewrite elem_of_app. intros [Hin|Hin].
      - rewrite Forall_forall in Hd. apply Hd in Hin. unfold slash in Hin. lia.
      - revert Hin. apply (bool_decide_unpack _). vm_compute. done. }
    assert (strip_suffix (digits ++ manifest_suffix) manifest_suffix = Some digits) as ->
      by by apply strip_suffix_Some.
    rewrite bool_decide_true, Hlen by done. simpl. apply Hdigits in Hd. by rewrite Hd.
Qed.

(** Manifest paths compare as their ids. *)
Lemma manifest_path_cmp database_path id1 id2 :
  u64_wf id1 → u64_wf id2 →
  kcmp (manifest_path database_path id1) (manifest_path database_path id2) = (id1 ?= id2)%N.
Proof.
  intros H1 H2. unfold manifest_path. rewrite list_cmp_app_l.
  change (kcmp ([slash] ++ decimal 20 id1 ++ manifest_suffix)
               ([slash] ++ decimal 20 id2 ++ manifest_suffix) = (id1 ?= id2)%N).
  rewrite list_cmp_app_l, list_cmp_app_eq by by rewrite !decimal_length.
  rewrite decimal_cmp by by apply manifest_path_bound.
  destruct (id1 ?= id2)%N; [apply kcmp_refl|done..].
Qed.

Lemma manifest_visible database_path id other :
  u64_wf id → u64_wf other →
  is_visible {| mb_manifest_prefix := manifest_dir database_path ++ [slash];
                mb_bound_manifest := manifest_path database_path id |}
    (manifest_path database_path other) = true ↔ (other ≤ id)%N.
Proof.
  intros Hid Hother. unfold is_visible. cbn [mb_manifest_prefix mb_bound_manifest].
  assert (starts_with (manifest_path database_path other) (manifest_dir database_path ++ [slash])
    = true) as ->.
  { unfold manifest_path. rewrite cons_middle, (assoc_L (++)). apply starts_with_app. }
  unfold key_leb. cbn [negb orb]. rewrite manifest_path_cmp by done.
  destruct (N.compare_spec other id); split; (done || lia).
Qed.

(** ** The view is pinned *)

(** What a driver answers about a store with these contents: reads depend on the
    object at their location, and listings give the selected objects in some
    order. *)
Record read_store_ok {S E O R M} (inner : ReadStore S E O R M) (contents : S → gmap bytes M) : Prop := {
  ro_get location options s s' : contents s !! location = contents s' !! location →
    rs_get_opts inner location options s = rs_get_opts inner location options s';
  ro_ranges location ranges s s' : contents s !! location = contents s' !! location →
    rs_get_ranges inner location ranges s = rs_get_ranges inner location ranges s';
  ro_list prefix : ∃ selected : bytes → bool, ∀ s,
    rs_list inner prefix s ≡ₚ Ok <$> bt_range selected (contents s);
  ro_offset prefix offset : ∃ selected : bytes → bool, ∀ s,
    rs_list_with_offset inner prefix offset s ≡ₚ Ok <$> bt_range selected (contents s);
  ro_delimiter prefix : ∃ selected : bytes → bool, ∀ s, ∃ objects common,
    rs_list_with_delimiter inner prefix s = Ok (objects, common) ∧
    objects ≡ₚ bt_range selected (contents s);
}.

Section pinned.
Context {S E O R M : Type} (inner : ReadStore S E O R M) (contents : S → gmap bytes M).
Context (law : read_store_ok inner contents) (v : ManifestBoundStore) (s s' : S).
Context (same : ∀ location, is_visible v location = true →
                contents s !! location = contents s' !! location).

Lemma listed_visible (entry : bytes * M) : listed (E := E) v (Ok entry) = is_visible v entry.1.
Proof.
  destruct entry as [location meta]. unfold listed, is_visible. rewrite negb_andb. f_equal.
  unfold key_ltb, key_leb. cbn [fst].
  rewrite (kcmp_antisym location (mb_bound_manifest v)).
  by destruct (kcmp location (mb_bound_manifest v)).
Qed.

Lemma visible_entries selected :
  List.filter (λ entry, is_visible v entry.1) (bt_range selected (contents s)) =
  List.filter (λ entry, is_visible v entry.1) (bt_range selected (contents s')).
Proof.
  apply keys_sorted_ext; [apply keys_sorted_filter, bt_range_sorted..|].
  intros [location meta]. rewrite !list_elem_of_In, !filter_In, <-!list_elem_of_In.
  rewrite !elem_of_bt_range. simpl. split; intros [[Hm Hs] Hv]; (split; [split|]; [|done|done]).
  - by rewrite <-same.
  - by rewrite same.
Qed.

Lemma filter_Ok_listed (l : list (bytes * M)) :
  List.filter (listed (E := E) v) (Ok <$> l) =
  Ok <$> List.filter (λ entry, is_visible v entry.1) l.
Proof.
  induction l as [|entry l IH]; [done|]. cbn [fmap list_fmap List.filter].
  rewrite listed_visible. destruct (is_visible v entry.1); [|done]. cbn. by rewrite <-IH.
Qed.

Lemma filter_perm {A} (f : A → bool) (l1 l2 : list A) :
  l1 ≡ₚ l2 → List.filter f l1 ≡ₚ List.filter f l2.
Proof.
  induction 1 as [|x l1 l2 _ IH|x y l|l1 l2 l3 _ IH1 _ IH2]; simpl; [done| | |by etrans].
  - destruct (f x); [by constructor|done].
  - destruct (f x), (f y); try done. constructor.
Qed.

(** Two listings of the same selection show the same visible entries. *)
Lemma listings_agree (l l' : list (res E (bytes * M))) selected :
  l ≡ₚ Ok <$> bt_range selected (contents s) → l' ≡ₚ Ok <$> bt_range selected (contents s') →
  List.filter (listed v) l ≡ₚ List.filter (listed v) l'.
Proof.
  intros ->%(filter_perm (listed v)) ->%(filter_perm (listed v)).
  by rewrite !filter_Ok_listed, visible_entries.
Qed.

Lemma get_agrees location options :
  bound_get_opts inner v location options s = bound_get_opts inner v location options s'.
Proof.
  unfold bound_get_opts. destruct (is_visible v location) eqn:Hv; [|done]. simpl.
  by rewrite (ro_get _ _ law location options s s' (same _ Hv)).
Qed.

Lemma ranges_agree location ranges :
  bound_get_ranges inner v location ranges s = bound_get_ranges inner v location ranges s'.
Proof.
  unfold bound_get_ranges. destruct (is_visible v location) eqn:Hv; [|done]. simpl.
  by rewrite (ro_ranges _ _ law location ranges s s' (same _ Hv)).
Qed.

Lemma delimiter_agrees prefix :
  ∃ objects objects' common common',
    bound_list_with_delimiter inner v prefix s = Ok (objects, common) ∧
    bound_list_with_delimiter inner v prefix s' = Ok (objects', common') ∧ objects ≡ₚ objects'.
Proof.
  destruct (ro_delimiter _ _ law prefix) as (selected & Hsel).
  destruct (Hsel s) as (objects & common & H & Hp), (Hsel s') as (objects' & common' & H' & Hp').
  unfold bound_list_with_delimiter. rewrite H, H'. simpl. do 4 eexists. split_and!; [done..|].
  rewrite (filter_perm _ _ _ Hp), (filter_perm _ _ _ Hp'). by rewrite visible_entries.
Qed.
End pinned.


(** *** A driver in memory *)
Module BoundDemo.
Definition under (prefix : option bytes) (location : bytes) : bool :=
  match prefix with None => true | Some p => starts_with location (p ++ [slash]) end.
Definition slice (object : bytes) (range : N * N) : bytes :=
  take (N.to_nat (range.2 - range.1)) (drop (N.to_nat range.1) object).

(** Objects are their bytes, a description is the object itself; a listing with a
    delimiter shows everything below the prefix and no common prefixes. *)
Definition memory : ReadStore (gmap bytes bytes) string unit bytes bytes := {|
  rs_get_opts location _ s :=
    match s !! location with Some object => Ok object | None => Err "not found"%string end;
  rs_get_ranges location ranges s :=
    match s !! location with
    | Some object => Ok (slice object <$> ranges)
    | None => Err "not found"%string
    end;
  rs_list prefix s := Ok <$> bt_range (under prefix) s;
  rs_list_with_offset prefix offset s :=
    Ok <$> bt_range (λ k, under prefix k && (offset <ₖ? k)) s;
  rs_list_with_delimiter prefix s := Ok (bt_range (under prefix) s, []);
|}.

Lemma memory_ok : read_store_ok memory (λ s, s).
Proof.
  split.
  - intros location options s s' H. simpl. by rewrite H.
  - intros location ranges s s' H. simpl. by rewrite H.
  - intros prefix. by exists (under prefix).
  - intros prefix offset. by exists (λ k, under prefix k && (offset <ₖ? k)).
  - intros prefix. exists (under prefix). intros s. by exists (bt_range (under prefix) s), [].
Qed.

Definition db : bytes := string_bytes "db".
Definition old_store : gmap bytes bytes :=
  {[ manifest_path db 6 := [6%N]; manifest_path db 7 := [7%N]; string_bytes "db/wal/1" := [1%N] ]}.
Definition new_store : gmap bytes bytes := <[manifest_path db 8 := [8%N]]> old_store.
Definition view : ManifestBoundStore :=
  {| mb_manifest_prefix := manifest_dir db ++ [slash]; mb_bound_manifest := manifest_path db 7 |}.

(** The new manifest is listed by the driver and hidden by the view. *)
Lemma view_runs :
  manifest_bound_new db (manifest_path db 7) = Ok view ∧
  length (rs_list memory None new_store) = 4 ∧
  length (bound_list memory view None new_store) = 3 ∧
  bound_list memory view None new_store = bound_list memory view None old_store ∧
  bound_get_opts memory view (manifest_path db 8) () new_store =
    Err (NewerManifest (manifest_path db 8)) ∧
  bound_get_ranges memory view (manifest_path db 7) [(0, 1)]%N new_store = Ok [[7%N]] ∧
  manifest_bound_new db (string_bytes "db/manifest/7.manifest") =
    Err "bound key is not a SlateDB manifest path"%string.
Proof. split_and!; vm_compute; reflexivity. Qed.

End BoundDemo.
Import BoundDemo.

