(* ===== verification/ObjStore.v ===== *)
(** * The object client

    [okv-object/src/lib.rs]: the backend interface of a named-object store with
    conditional writes, the wrappers that observe it and inject faults into it,
    the adapter to the [object_store] crate, and the client that turns
    unreliable responses into verified identities. A backend acts on a state of
    its own; the [object_store] crate and SHA-256 are parameters. *)

From coqutil Require Import Datatypes.RecordSetters.
Import OCamlLikeNotations.
From S2P Require Import Prelude Order BTree Bytes.

(** ** Names, conditions and errors *)
Record BackendDescriptor := {
  bd_id : string;
  bd_driver : string;
  bd_driver_version : string;
  bd_server_version : string;
  bd_conditional_primitive : string;
  bd_guarded_delete : bool;
  bd_delete_strategy : string;
}.

Record RevisionToken := { rt_e_tag : option string; rt_version : option string }.
#[global] Instance RevisionToken_eq_dec : EqDecision RevisionToken.
Proof. solve_decision. Defined.

Definition is_present (t : RevisionToken) : bool := is_some (rt_e_tag t) || is_some (rt_version t).

Definition token_matches (t other : RevisionToken) : bool :=
  match rt_version t, rt_version other with
  | Some expected, Some actual => bool_decide (expected = actual)
  | _, _ =>
      match rt_e_tag t, rt_e_tag other with
      | Some expected, Some actual => bool_decide (expected = actual)
      | _, _ => false
      end
  end.

Record ObjectIdentity := { oi_revision : RevisionToken; oi_length : N; oi_sha256 : string }.
#[global] Instance ObjectIdentity_eq_dec : EqDecision ObjectIdentity.
Proof. solve_decision. Defined.

Inductive WriteCondition := CondOverwrite | CondCreate | CondUpdate (revision : RevisionToken).

Definition api_name (c : WriteCondition) : string :=
  match c with
  | CondOverwrite => "put.overwrite"
  | CondCreate => "put.create"
  | CondUpdate _ => "put.update"
  end.

Inductive ErrorClass :=
  | AlreadyExists
  | PreconditionFailed
  | ClassNotFound
  | ClassCorrupt
  | RetryableUnobserved
  | RetryableUnknown
  | Throttled
  | PermissionDenied
  | Unsupported
  | OtherClass.
#[global] Instance ErrorClass_eq_dec : EqDecision ErrorClass.
Proof. solve_decision. Defined.

Definition class_name (c : ErrorClass) : string :=
  match c with
  | AlreadyExists => "already_exists"
  | PreconditionFailed => "precondition_failed"
  | ClassNotFound => "not_found"
  | ClassCorrupt => "corrupt"
  | RetryableUnobserved => "retryable_unobserved"
  | RetryableUnknown => "retryable_unknown"
  | Throttled => "throttled"
  | PermissionDenied => "permission_denied"
  | Unsupported => "unsupported"
  | OtherClass => "other"
  end.

Record StoreError := { se_class : ErrorClass; se_detail : string }.
#[global] Instance StoreError_eq_dec : EqDecision StoreError.
Proof. solve_decision. Defined.
Definition store_error (class : ErrorClass) (detail : string) : StoreError :=
  {| se_class := class; se_detail := detail |}.
(** [Display]. *)
Definition store_error_text (e : StoreError) : string :=
  class_name (se_class e) +:+ ": " +:+ se_detail e.

(** A [Range<u64>] is its two ends. *)
Abbreviation Span := (N * N)%type (only parsing).

Record BackendRead := {
  br_bytes : bytes;
  br_revision : RevisionToken;
  br_object_length : N;
  br_returned_range : Span;
}.

Definition byte_len (b : bytes) : N := N.min (len b) U64_MAX.

(** ** Effects on a store

    A call runs on the store's state; [let! x := m in k] is [m.await?]. *)
Definition io (S A : Type) : Type := S → S * A.
Definition io_ret {S A} (a : A) : io S A := λ s, (s, a).
Definition io_bind {S A B} (m : io S A) (k : A → io S B) : io S B :=
  λ s, let '(s, a) := m s in k a s.
Definition io_try {S E A B} (m : io S (res E A)) (k : A → io S (res E B)) : io S (res E B) :=
  io_bind m (λ r, match r with Ok a => k a | Err e => io_ret (Err e) | Panic => io_ret Panic end).

Notation "'do!' x := m 'in' k" := (io_bind m (λ x, k))
  (at level 10, x binder, m at level 100, k at level 200) : okv_scope.
Notation "'let!' x := m 'in' k" := (io_try m (λ x, k))
  (at level 10, x binder, m at level 100, k at level 200) : okv_scope.

(** ** The backend interface *)
Record Backend (S : Type) := {
  descriptor : BackendDescriptor;
  backend_put : string → bytes → WriteCondition → io S (res StoreError RevisionToken);
  backend_get : string → option Span → option RevisionToken → io S (res StoreError BackendRead);
  backend_delete : string → option RevisionToken → io S (res StoreError unit);
  backend_list : string → io S (res StoreError (list string));
}.
#[global] Arguments descriptor {_}.
#[global] Arguments backend_put {_}.
#[global] Arguments backend_get {_}.
#[global] Arguments backend_delete {_}.
#[global] Arguments backend_list {_}.

(** ** The [object_store] adapter *)
Module driver.
Inductive PutMode := ModeOverwrite | ModeCreate | ModeUpdate (e_tag version : option string).
Record GetOptions := {
  go_range : option Span; go_if_match : option string; go_version : option string }.
Record ObjectMeta := {
  om_e_tag : option string; om_version : option string; om_size : N; om_location : string }.

(** The crate's errors that are told apart; [DriverOther] is any other. *)
Inductive ObjectStoreError :=
  | DriverAlreadyExists | DriverPrecondition | DriverNotModified | DriverNotFound
  | DriverNotImplemented | DriverNotSupported | DriverPermissionDenied
  | DriverUnauthenticated | DriverGeneric | DriverOther.

(** The calls of the crate the adapter makes, on keys parsed by [ObjectPath::from]. *)
Record ObjectStore (S : Type) := {
  put_opts : string → bytes → PutMode → io S (res ObjectStoreError (option string * option string));
  (** The answer to a get, and its body, which is read later and can fail. *)
  get_opts : string → GetOptions → io S (res ObjectStoreError (ObjectMeta * Span * res ObjectStoreError bytes));
  store_delete : string → io S (res ObjectStoreError unit);
  store_list : string → io S (res ObjectStoreError (list ObjectMeta));
}.
#[global] Arguments put_opts {_}.
#[global] Arguments get_opts {_}.
#[global] Arguments store_delete {_}.
#[global] Arguments store_list {_}.
End driver.
Import driver.

Definition classify_object_store_error (error : ObjectStoreError) : StoreError :=
  let class :=
    match error with
    | DriverAlreadyExists => AlreadyExists
    | DriverPrecondition | DriverNotModified => PreconditionFailed
    | DriverNotFound => ClassNotFound
    | DriverNotImplemented | DriverNotSupported => Unsupported
    | DriverPermissionDenied | DriverUnauthenticated => PermissionDenied
    | DriverGeneric => RetryableUnknown
    | DriverOther => OtherClass
    end in
  store_error class "object_store operation failed".

Definition driver_call {S A} (m : io S (res ObjectStoreError A)) : io S (res StoreError A) :=
  λ s, let '(s, r) := m s in (s, map_err classify_object_store_error r).

(** [impl Backend for ObjectStoreBackend]. *)
Definition object_store_backend {S} (d : BackendDescriptor) (store : ObjectStore S) : Backend S := {|
  descriptor := d;
  backend_put key b condition :=
    let mode :=
      match condition with
      | CondOverwrite => ModeOverwrite
      | CondCreate => ModeCreate
      | CondUpdate revision => ModeUpdate (rt_e_tag revision) (rt_version revision)
      end in
    let! '(e_tag, version) := driver_call (put_opts store key b mode) in
    io_ret (Ok {| rt_e_tag := e_tag; rt_version := version |});
  backend_get key range expected :=
    let options := {| go_range := range; go_if_match := expected ≫= rt_e_tag;
                      go_version := expected ≫= rt_version |} in
    let! '(meta, returned_range, body) := driver_call (get_opts store key options) in
    let! b := driver_call (io_ret body) in
    io_ret (Ok {| br_bytes := b;
                  br_revision := {| rt_e_tag := om_e_tag meta; rt_version := om_version meta |};
                  br_object_length := om_size meta; br_returned_range := returned_range |});
  backend_delete key expected :=
    match expected with
    | Some _ =>
        io_ret (Err (store_error Unsupported
          "the shared object_store API has no guarded delete operation"))
    | None => driver_call (store_delete store key)
    end;
  backend_list prefix :=
    let! metas := driver_call (store_list store prefix) in
    io_ret (Ok (om_location <$> metas));
|}.

(** ** Observation *)
Record StatAggregate := {
  sa_count : N; sa_request_bytes : N; sa_response_bytes : N; sa_elapsed_micros : N }.
Record RequestStat := {
  rq_api : string; rq_result : string; rq_count : N; rq_request_bytes : N;
  rq_response_bytes : N; rq_elapsed_micros : N }.

(** The wrapped store, the statistics and the durations still to be measured. *)
Record Observed (S : Type) := {
  ob_inner : S;
  ob_stats : gmap (string * string) StatAggregate;
  ob_clock : nat → N;
}.
#[global] Arguments Build_Observed {_}.
#[global] Arguments ob_inner {_}.
#[global] Arguments ob_stats {_}.
#[global] Arguments ob_clock {_}.

Definition observed_record {S} (api : string) (error : option StoreError)
    (request_bytes response_bytes : N) (o : Observed S) : Observed S :=
  let result := from_option (λ e, class_name (se_class e)) "ok"%string error in
  let elapsed_micros := N.min (ob_clock o 0) U64_MAX in
  let aggregate :=
    default {| sa_count := 0; sa_request_bytes := 0; sa_response_bytes := 0; sa_elapsed_micros := 0 |}
      (ob_stats o !! (api, result)) in
  {| ob_inner := ob_inner o;
     ob_stats := <[(api, result) :=
       {| sa_count := saturating_add (sa_count aggregate) 1;
          sa_request_bytes := saturating_add (sa_request_bytes aggregate) request_bytes;
          sa_response_bytes := saturating_add (sa_response_bytes aggregate) response_bytes;
          sa_elapsed_micros := saturating_add (sa_elapsed_micros aggregate) elapsed_micros |}]>
       (ob_stats o);
     ob_clock := λ n, ob_clock o (n + 1) |}.

Definition res_err {E A} (r : res E A) : option E := match r with Err e => Some e | _ => None end.

(** Run the wrapped call and record it. *)
Definition observe {S A} (api : string) (request_bytes : N) (response_bytes : A → N)
    (m : io S (res StoreError A)) : io (Observed S) (res StoreError A) :=
  λ o, let '(inner, r) := m (ob_inner o) in
       let o := {| ob_inner := inner; ob_stats := ob_stats o; ob_clock := ob_clock o |} in
       (observed_record api (res_err r) request_bytes
          (match r with Ok a => response_bytes a | _ => 0%N end) o, r).

(** [impl Backend for ObservedBackend]. *)
Definition observed_backend {S} (inner : Backend S) : Backend (Observed S) := {|
  descriptor := descriptor inner;
  backend_put key b condition :=
    observe (api_name condition) (byte_len b) (λ _, 0%N) (backend_put inner key b condition);
  backend_get key range expected :=
    observe (if is_some range then "get.range" else "get") 0 (λ read, byte_len (br_bytes read))
      (backend_get inner key range expected);
  backend_delete key expected :=
    observe (if is_some expected then "delete.guarded" else "delete") 0 (λ _, 0%N)
      (backend_delete inner key expected);
  backend_list prefix := observe "list" 0 (λ _, 0%N) (backend_list inner prefix);
|}.

Definition stats {S} (o : Observed S) : list RequestStat :=
  (λ '((api, result), a),
     {| rq_api := api; rq_result := result; rq_count := sa_count a;
        rq_request_bytes := sa_request_bytes a; rq_response_bytes := sa_response_bytes a;
        rq_elapsed_micros := sa_elapsed_micros a |}) <$> bt_items (ob_stats o).

(** ** Fault injection *)
Record Faulty (S : Type) := {
  fb_inner : S;
  fb_lose_next_put_response : bool;
  fb_lose_next_delete_response : bool;
  fb_corrupt_next_get : bool;
  fb_shorten_next_get : bool;
  fb_stale_next_list : bool;
  fb_list_calls : N;
}.
#[global] Arguments Build_Faulty {_}.
#[global] Arguments fb_inner {_}.
#[global] Arguments fb_lose_next_put_response {_}.
#[global] Arguments fb_lose_next_delete_response {_}.
#[global] Arguments fb_corrupt_next_get {_}.
#[global] Arguments fb_shorten_next_get {_}.
#[global] Arguments fb_stale_next_list {_}.
#[global] Arguments fb_list_calls {_}.

Definition fault_new {S} (inner : S) : Faulty S :=
  {| fb_inner := inner; fb_lose_next_put_response := false; fb_lose_next_delete_response := false;
     fb_corrupt_next_get := false; fb_shorten_next_get := false; fb_stale_next_list := false;
     fb_list_calls := 0 |}.
Definition lose_next_put_response {S} (f : Faulty S) : Faulty S :=
  { f with fb_lose_next_put_response := true }.
Definition lose_next_delete_response {S} (f : Faulty S) : Faulty S :=
  { f with fb_lose_next_delete_response := true }.
Definition corrupt_next_get {S} (f : Faulty S) : Faulty S := { f with fb_corrupt_next_get := true }.
Definition shorten_next_get {S} (f : Faulty S) : Faulty S := { f with fb_shorten_next_get := true }.
Definition stale_next_list {S} (f : Faulty S) : Faulty S := { f with fb_stale_next_list := true }.

Definition on_inner {S A} (m : io S A) : io (Faulty S) A :=
  λ f, let '(inner, a) := m (fb_inner f) in ({ f with fb_inner := inner }, a).

(** The damage a get may take: a byte short, and the first bit flipped. *)
Definition damage (shorten corrupt : bool) (b : bytes) : bytes :=
  let b := if shorten && negb (bool_decide (b = [])) then removelast b else b in
  if corrupt then match b with [] => [] | x :: b' => N.lxor x 128 :: b' end else b.

(** [impl Backend for FaultBackend]. *)
Definition fault_backend {S} (inner : Backend S) : Backend (Faulty S) := {|
  descriptor := descriptor inner;
  backend_put key b condition :=
    let! revision := on_inner (backend_put inner key b condition) in
    λ f, ({ f with fb_lose_next_put_response := false },
          if fb_lose_next_put_response f
          then Err (store_error RetryableUnknown "injected lost successful write response")
          else Ok revision);
  backend_get key range expected :=
    let! read := on_inner (backend_get inner key range expected) in
    λ f, ({ f with fb_shorten_next_get := false; fb_corrupt_next_get := false },
          Ok { read with br_bytes :=
                 damage (fb_shorten_next_get f) (fb_corrupt_next_get f) (br_bytes read) });
  backend_delete key expected :=
    let! _ := on_inner (backend_delete inner key expected) in
    λ f, ({ f with fb_lose_next_delete_response := false },
          if fb_lose_next_delete_response f
          then Err (store_error RetryableUnknown "injected lost successful delete response")
          else Ok tt);
  backend_list prefix := λ f,
    let f := { f with fb_list_calls := ((fb_list_calls f + 1) `mod` (U64_MAX + 1))%N } in
    if fb_stale_next_list f then ({ f with fb_stale_next_list := false }, Ok [])
    else on_inner (backend_list inner prefix) f;
|}.

(** [impl Backend for BrokenConditionalBackend]. *)
Definition broken_conditional_backend {S} (inner : Backend S) : Backend S := {|
  descriptor := { descriptor inner with bd_id := (bd_id (descriptor inner) +:+ "-broken-overwrite")%string };
  backend_put key b _ := backend_put inner key b CondOverwrite;
  backend_get := backend_get inner;
  backend_delete := backend_delete inner;
  backend_list := backend_list inner;
|}.

(** ** The client *)
Inductive PutOutcome := PutCreated | PutExistingIdentical | PutLostResponseRecovered.
#[global] Instance PutOutcome_eq_dec : EqDecision PutOutcome.
Proof. solve_decision. Defined.
Inductive UpdateOutcome := Updated | UpdateLostResponseRecovered.
#[global] Instance UpdateOutcome_eq_dec : EqDecision UpdateOutcome.
Proof. solve_decision. Defined.
Inductive DeleteOutcome := Deleted | DeleteLostResponseRecovered | AlreadyAbsent.
#[global] Instance DeleteOutcome_eq_dec : EqDecision DeleteOutcome.
Proof. solve_decision. Defined.

Record DeletePermit := {
  dp_key : string;
  dp_identity : ObjectIdentity;
  dp_plan_id : string;
  dp_authority_revision : N;
}.
#[global] Instance DeletePermit_eq_dec : EqDecision DeletePermit.
Proof. solve_decision. Defined.

Section client.
Context {S : Type} (sha256 : bytes → bytes) (b : Backend S).

(** [sha256(bytes)], in lower-case hexadecimal. *)
Definition sha256_hex (data : bytes) : string := bytes_string (hex_bytes (sha256 data)).

Definition list_candidates (prefix : string) : io S (res StoreError (list string)) :=
  backend_list b prefix.

Definition read_full_verified (key : string) (expected_revision : option RevisionToken)
    (expected_length : N) (expected_digest : string)
    : io S (res StoreError (bytes * ObjectIdentity)) :=
  let! read := backend_get b key None expected_revision in
  io_ret (
    if negb (bool_decide (br_returned_range read = (0%N, expected_length)))
       || negb (br_object_length read =? expected_length)%N
       || negb (byte_len (br_bytes read) =? expected_length)%N
       || negb (bool_decide (sha256_hex (br_bytes read) = expected_digest))
    then Err (store_error ClassCorrupt "full object length, range, or digest mismatch")
    else if from_option (λ r, negb (token_matches r (br_revision read))) false expected_revision
    then Err (store_error ClassCorrupt "object revision changed during verified read")
    else Ok (br_bytes read,
             {| oi_revision := br_revision read; oi_length := br_object_length read;
                oi_sha256 := expected_digest |})).

Definition get_full_verified (key : string) (expected_revision : option RevisionToken)
    (expected_length : N) (expected_digest : string) : io S (res StoreError ObjectIdentity) :=
  let! '(_, identity) := read_full_verified key expected_revision expected_length expected_digest in
  io_ret (Ok identity).

Definition get_range_verified (key : string) (range : Span) (expected : ObjectIdentity)
    (expected_range_digest : string) : io S (res StoreError bytes) :=
  let! read := backend_get b key (Some range) (Some (oi_revision expected)) in
  let expected_length := saturating_sub range.2 range.1 in
  io_ret (
    if negb (bool_decide (br_returned_range read = range))
       || negb (br_object_length read =? oi_length expected)%N
       || negb (byte_len (br_bytes read) =? expected_length)%N
       || negb (token_matches (oi_revision expected) (br_revision read))
       || negb (bool_decide (sha256_hex (br_bytes read) = expected_range_digest))
    then Err (store_error ClassCorrupt "range length, revision, or digest mismatch")
    else Ok (br_bytes read)).

Definition put_if_absent (key : string) (data : bytes)
    : io S (res StoreError (PutOutcome * ObjectIdentity)) :=
  let expected_length := byte_len data in
  let expected_digest := sha256_hex data in
  do! r := backend_put b key data CondCreate in
  match r with
  | Ok revision =>
      let! identity := get_full_verified key (Some revision) expected_length expected_digest in
      io_ret (Ok (PutCreated, identity))
  | Err error =>
      match se_class error with
      | AlreadyExists =>
          do! r := get_full_verified key None expected_length expected_digest in
          io_ret (
            let? identity :=
              map_err (λ read_error,
                if bool_decide (se_class read_error = ClassCorrupt)
                then store_error ClassCorrupt "immutable identity conflict" else read_error) r in
            Ok (PutExistingIdentical, identity))
      | RetryableUnknown =>
          let! identity := get_full_verified key None expected_length expected_digest in
          io_ret (Ok (PutLostResponseRecovered, identity))
      | _ => io_ret (Err error)
      end
  | Panic => io_ret Panic
  end.

Definition compare_and_put (key : string) (expected : ObjectIdentity) (data : bytes)
    : io S (res StoreError (UpdateOutcome * ObjectIdentity)) :=
  let expected_length := byte_len data in
  let expected_digest := sha256_hex data in
  do! r := backend_put b key data (CondUpdate (oi_revision expected)) in
  match r with
  | Ok revision =>
      let! identity := get_full_verified key (Some revision) expected_length expected_digest in
      io_ret (Ok (Updated, identity))
  | Err error =>
      match se_class error with
      | RetryableUnknown =>
          let! identity := get_full_verified key None expected_length expected_digest in
          io_ret (Ok (UpdateLostResponseRecovered, identity))
      | _ => io_ret (Err error)
      end
  | Panic => io_ret Panic
  end.

(** What the read after an unknown delete says. *)
Definition unknown_delete (permit : DeletePermit) (r : res StoreError BackendRead)
    : res StoreError DeleteOutcome :=
  match r with
  | Err read_error =>
      if bool_decide (se_class read_error = ClassNotFound) then Ok DeleteLostResponseRecovered
      else Err read_error
  | Ok read =>
      if (br_object_length read =? oi_length (dp_identity permit))%N
         && (byte_len (br_bytes read) =? oi_length (dp_identity permit))%N
         && bool_decide (sha256_hex (br_bytes read) = oi_sha256 (dp_identity permit))
      then Err (store_error RetryableUnknown
             "delete outcome remains unresolved while exact object exists")
      else Err (store_error ClassCorrupt
             "delete outcome read found a different immutable identity")
  | Panic => Panic
  end.

(** Without guarded deletes the object is verified first. *)
Definition verify_permit (permit : DeletePermit) : io S (res StoreError unit) :=
  if bd_guarded_delete (descriptor b) then io_ret (Ok tt)
  else
    let identity := dp_identity permit in
    let! _ := get_full_verified (dp_key permit) (Some (oi_revision identity))
                (oi_length identity) (oi_sha256 identity) in
    io_ret (Ok tt).

(** The delete and the answer to its outcome. *)
Definition delete_permitted (permit : DeletePermit) : io S (res StoreError DeleteOutcome) :=
  let guarded := bd_guarded_delete (descriptor b) in
  let expected := if guarded then Some (oi_revision (dp_identity permit)) else None in
  do! r := backend_delete b (dp_key permit) expected in
  match r with
  | Ok _ => io_ret (Ok Deleted)
  | Err error =>
      match se_class error with
      | ClassNotFound => io_ret (Ok AlreadyAbsent)
      | RetryableUnknown =>
          do! read := backend_get b (dp_key permit) None None in
          io_ret (unknown_delete permit read)
      | class =>
          if guarded && bool_decide (class = Unsupported)
          then io_ret (Err (store_error Unsupported
                 "backend declared guarded delete but rejected the operation"))
          else io_ret (Err error)
      end
  | Panic => io_ret Panic
  end.

Definition delete_reserved (permit : DeletePermit) : io S (res StoreError DeleteOutcome) :=
  let! _ := verify_permit permit in
  delete_permitted permit.
End client.
