(* ===== verification/ObjStoreRuns.v ===== *)
(** * What the object client guarantees

    Over a backend with atomic conditional writes whose responses can be lost,
    while other clients act on the store: a create never replaces an object and
    ends with the intended bytes, a conditional update replaces exactly the
    expected revision, a reserved delete removes only the permitted object, and
    a verified read returns only bytes with the expected digest. *)

From coqutil Require Import Datatypes.RecordSetters.
From S2P Require Import Prelude Order BTree Bytes ObjStore.

(** ** The contract of a backend *)
Abbreviation objects_map := (gmap string (bytes * RevisionToken)) (only parsing).

(** Whether the condition of a write holds of what is stored under its key. *)
Definition allowed (c : WriteCondition) (o : option (bytes * RevisionToken)) : Prop :=
  match c with
  | CondOverwrite => True
  | CondCreate => o = None
  | CondUpdate expected => ∃ data rev, o = Some (data, rev) ∧ token_matches expected rev = true
  end.

(** A put takes effect at once or not at all; an unknown outcome can be either. *)
Definition put_effect (m m' : objects_map) (key : string) (data : bytes) (c : WriteCondition)
    (r : res StoreError RevisionToken) : Prop :=
  match r with
  | Ok rev => allowed c (m !! key) ∧ m' = <[key := (data, rev)]> m
  | Err e =>
      m' = m ∨
      (se_class e = RetryableUnknown ∧ allowed c (m !! key) ∧ ∃ rev, m' = <[key := (data, rev)]> m)
  | Panic => False
  end.

(** A get of a whole object answers what is stored. *)
Definition get_result (m : objects_map) (key : string) (r : res StoreError BackendRead) : Prop :=
  match r with
  | Ok read => m !! key = Some (br_bytes read, br_revision read)
  | Err e => se_class e = ClassNotFound → m !! key = None
  | Panic => False
  end.

Definition delete_effect (m m' : objects_map) (key : string) (expected : option RevisionToken)
    (r : res StoreError unit) : Prop :=
  let guard := ∀ rev, expected = Some rev → allowed (CondUpdate rev) (m !! key) in
  match r with
  | Ok _ => guard ∧ m' = delete key m
  | Err e =>
      (m' = m ∧ (se_class e = ClassNotFound → m !! key = None)) ∨
      (se_class e = RetryableUnknown ∧ guard ∧ m' = delete key m)
  | Panic => False
  end.

(** [env] is what other clients may do around the point where a call acts. *)
Record lawful {S} (env : relation objects_map) (b : Backend S) (objects : S → objects_map) : Prop := {
  law_put key data c s s' r :
    backend_put b key data c s = (s', r) →
    ∃ m m', env (objects s) m ∧ put_effect m m' key data c r ∧ env m' (objects s');
  law_get key expected s s' r :
    backend_get b key None expected s = (s', r) →
    ∃ m, env (objects s) m ∧ get_result m key r ∧ env m (objects s');
  law_delete key expected s s' r :
    backend_delete b key expected s = (s', r) →
    ∃ m m', env (objects s) m ∧ delete_effect m m' key expected r ∧ env m' (objects s');
  law_list prefix s s' r : backend_list b prefix s = (s', r) → env (objects s) (objects s');
}.

(** ** The monad *)
Lemma io_bind_inv {S A B} (m : io S A) (k : A → io S B) s s' r :
  io_bind m k s = (s', r) → ∃ s1 a, m s = (s1, a) ∧ k a s1 = (s', r).
Proof. unfold io_bind. destruct (m s) as [s1 a]. eauto. Qed.

Lemma io_try_inv {S E A B} (m : io S (res E A)) (k : A → io S (res E B)) s s' r :
  io_try m k s = (s', r) →
  (∃ s1 a, m s = (s1, Ok a) ∧ k a s1 = (s', r)) ∨ (∃ e, m s = (s', Err e) ∧ r = Err e) ∨
  (m s = (s', Panic) ∧ r = Panic).
Proof.
  unfold io_try. intros (s1&a&Hm&Hk)%io_bind_inv. destruct a as [a|e|]; [eauto|..];
    unfold io_ret in Hk; simplify_eq; eauto 10.
Qed.

Ltac io_inv H := first
  [ apply io_try_inv in H as [(?&?&?Hm&H)|[(?&?Hm&?Hr)|[?Hm ?Hr]]]; simplify_eq/=
  | apply io_bind_inv in H as (?&?&?Hm&H) ].

(** ** Verified reads *)
Section client.
Context {S : Type} (sha256 : bytes → bytes) (b : Backend S).

(** Whatever the backend answers, verified bytes have the expected digest, length
    and revision. *)
Lemma read_full_verified_inv key expected length digest s s' r :
  read_full_verified sha256 b key expected length digest s = (s', r) →
  ∃ r0, backend_get b key None expected s = (s', r0) ∧
  match r with
  | Ok (data, id) =>
      ∃ read, r0 = Ok read ∧ data = br_bytes read ∧ sha256_hex sha256 data = digest ∧
        byte_len data = length ∧
        id = {| oi_revision := br_revision read; oi_length := length; oi_sha256 := digest |} ∧
        (∀ rev, expected = Some rev → token_matches rev (br_revision read) = true)
  | Err e => r0 = Err e ∨ se_class e = ClassCorrupt
  | Panic => r0 = Panic
  end.
Proof.
  unfold read_full_verified. intros H. io_inv H; [|eauto 10..].
  unfold io_ret in H. repeat case_match; simplify_eq; eexists; (split; [done|]);
    try (by right).
  repeat match goal with E : _ || _ = false |- _ => apply orb_false_elim in E as [? ?] end.
  repeat match goal with E : negb _ = false |- _ => apply negb_false_iff in E end.
  repeat match goal with
    | E : bool_decide _ = true |- _ => apply bool_decide_eq_true in E
    | E : (_ =? _)%N = true |- _ => apply N.eqb_eq in E
    end. subst.
  eexists. split_and!; try done.
  intros rev ->. cbn in *. by apply negb_false_iff.
Qed.

Lemma get_full_verified_inv key expected length digest s s' r :
  get_full_verified sha256 b key expected length digest s = (s', r) →
  ∃ r0, read_full_verified sha256 b key expected length digest s = (s', r0) ∧
  match r with Ok id => ∃ data, r0 = Ok (data, id) | Err e => r0 = Err e | Panic => r0 = Panic end.
Proof.
  unfold get_full_verified. intros H. io_inv H; [|eauto..].
  destruct x0 as [data id]. unfold io_ret in H. simplify_eq. eauto.
Qed.

Context (env : relation objects_map) `{!PreOrder env} (objects : S → objects_map).
Context (Hlaw : lawful env b objects).

Lemma read_verified_stored key expected length digest s s' data id :
  read_full_verified sha256 b key expected length digest s = (s', Ok (data, id)) →
  ∃ m, env (objects s) m ∧ env m (objects s') ∧ m !! key = Some (data, oi_revision id) ∧
    sha256_hex sha256 data = digest ∧
    id = {| oi_revision := oi_revision id; oi_length := length; oi_sha256 := digest |} ∧
    (∀ rev, expected = Some rev → token_matches rev (oi_revision id) = true).
Proof.
  intros (r0&Hget&read&->&->&Hdig&_&->&Hrev)%read_full_verified_inv.
  destruct (law_get _ _ _ Hlaw _ _ _ _ _ Hget) as (m&?&Hm&?). exists m. cbn. split_and!; done.
Qed.

Lemma get_verified_stored key expected length digest s s' id :
  get_full_verified sha256 b key expected length digest s = (s', Ok id) →
  ∃ m data, env (objects s) m ∧ env m (objects s') ∧ m !! key = Some (data, oi_revision id) ∧
    sha256_hex sha256 data = digest ∧
    id = {| oi_revision := oi_revision id; oi_length := length; oi_sha256 := digest |} ∧
    (∀ rev, expected = Some rev → token_matches rev (oi_revision id) = true).
Proof.
  intros (r0&Hread&data&->)%get_full_verified_inv.
  apply read_verified_stored in Hread as (m&?). by exists m, data.
Qed.

(** A verified read leaves the store to the environment. *)
Lemma get_verified_env key expected length digest s s' r :
  get_full_verified sha256 b key expected length digest s = (s', r) →
  env (objects s) (objects s') ∧ r ≠ Panic ∧
  (∀ e, r = Err e → se_class e = ClassNotFound →
     ∃ m, env (objects s) m ∧ m !! key = None ∧ env m (objects s')).
Proof.
  intros (r0&(r1&Hget&Hr)%read_full_verified_inv&Hr0)%get_full_verified_inv.
  destruct (law_get _ _ _ Hlaw _ _ _ _ _ Hget) as (m&Hm1&Hm&Hm2).
  split; [by etrans|]. split.
  - intros ->. subst r0. by subst r1.
  - intros e -> He. subst r0. destruct Hr as [->|He']; [|congruence]. eauto.
Qed.

(** From here on other clients only create objects. *)
Context (Henv : ∀ m m', env m m' → m ⊆ m').

(** No stored object has the digest of [data] and other bytes. *)
Definition digest_apart (m : objects_map) (data : bytes) : Prop :=
  ∀ key d rev, m !! key = Some (d, rev) → sha256_hex sha256 d = sha256_hex sha256 data → d = data.

Lemma get_verified_now key expected length digest s s' id :
  get_full_verified sha256 b key expected length digest s = (s', Ok id) →
  objects s ⊆ objects s' ∧
  ∃ data, objects s' !! key = Some (data, oi_revision id) ∧ sha256_hex sha256 data = digest ∧
    id = {| oi_revision := oi_revision id; oi_length := length; oi_sha256 := digest |} ∧
    (∀ rev, expected = Some rev → token_matches rev (oi_revision id) = true).
Proof.
  intros (m&data&H1%Henv&H2%Henv&Hm&Hrest)%get_verified_stored.
  split; [by etrans|]. exists data. split; [by eapply lookup_weaken|done].
Qed.

Lemma get_verified_mono key expected length digest s s' r :
  get_full_verified sha256 b key expected length digest s = (s', r) →
  objects s ⊆ objects s' ∧ r ≠ Panic.
Proof. intros (?%Henv&?&_)%get_verified_env. done. Qed.

(** What a put does while others create objects. *)
Definition put_point (key : string) (data : bytes) (c : WriteCondition) (m0 m1 : objects_map) : Prop :=
  ∃ m, m0 ⊆ m ∧
    (m ⊆ m1 ∨ (allowed c (m !! key) ∧ ∃ rev, <[key := (data, rev)]> m ⊆ m1)).

Lemma put_phase key data c s s1 r1 :
  backend_put b key data c s = (s1, r1) →
  r1 ≠ Panic ∧ put_point key data c (objects s) (objects s1) ∧
  (∀ rev, r1 = Ok rev →
     objects s1 !! key = Some (data, rev) ∧ ∃ m, objects s ⊆ m ∧ allowed c (m !! key)).
Proof.
  intros (m&m'&Hm%Henv&Heff&Hm'%Henv)%(law_put _ _ _ Hlaw).
  destruct r1 as [rev|e|]; [| |done]; (split; [done|]); split.
  - destruct Heff as [? ->]. exists m. eauto.
  - destruct Heff as [? ->]. intros ? [= <-]. split; [|eauto].
    eapply lookup_weaken; [|done]. apply lookup_insert_eq.
  - exists m. split; [done|]. destruct Heff as [->|(_&?&rev&->)]; eauto.
  - done.
Qed.

Lemma put_point_mono key data c m0 m1 m2 :
  put_point key data c m0 m1 → m1 ⊆ m2 → put_point key data c m0 m2.
Proof.
  intros (m&?&H) Hm. exists m. split; [done|]. destruct H as [?|(?&rev&?)]; [left|right]; [by etrans|].
  split; [done|]. exists rev. by etrans.
Qed.

Lemma put_point_create key data m0 m1 : put_point key data CondCreate m0 m1 → m0 ⊆ m1.
Proof.
  intros (m&?&[?|(Hnone&rev&?)]); [by etrans|]. etrans; [done|]. etrans; [|done].
  by apply insert_subseteq.
Qed.

(** After a put whose outcome is unknown, or that found an object. *)
Lemma read_back key data s s' id :
  digest_apart (objects s') data →
  get_full_verified sha256 b key None (byte_len data) (sha256_hex sha256 data) s = (s', Ok id) →
  objects s' !! key = Some (data, oi_revision id) ∧
  id = {| oi_revision := oi_revision id; oi_length := byte_len data; oi_sha256 := sha256_hex sha256 data |}.
Proof.
  intros Hnc (_&d&Hd&Hsha&Hid&_)%get_verified_now. by rewrite (Hnc _ _ _ Hd Hsha) in Hd.
Qed.

(** After a put that was acknowledged with a revision. *)
Lemma read_acknowledged key data rev s s' id :
  objects s !! key = Some (data, rev) →
  get_full_verified sha256 b key (Some rev) (byte_len data) (sha256_hex sha256 data) s = (s', Ok id) →
  objects s' !! key = Some (data, oi_revision id) ∧
  id = {| oi_revision := oi_revision id; oi_length := byte_len data; oi_sha256 := sha256_hex sha256 data |}.
Proof.
  intros Hs (Hmono&d&Hd&_&Hid&_)%get_verified_now.
  assert (Hs' := lookup_weaken _ _ _ _ Hs Hmono). by simplify_eq.
Qed.

Lemma put_if_absent_exact key data s s' r :
  digest_apart (objects s') data → put_if_absent sha256 b key data s = (s', r) →
  r ≠ Panic ∧ objects s ⊆ objects s' ∧
  ∀ outcome id, r = Ok (outcome, id) →
    objects s' !! key = Some (data, oi_revision id) ∧
    id = {| oi_revision := oi_revision id; oi_length := byte_len data; oi_sha256 := sha256_hex sha256 data |}.
Proof.
  intros Hnc H. unfold put_if_absent in H. io_inv H. rename x into s1, x0 into r1.
  destruct (put_phase _ _ _ _ _ _ Hm) as (Hnp&Hpt%put_point_create&Hok).
  destruct r1 as [rev|e|]; [| |done].
  - destruct (Hok _ eq_refl) as [Hs1 _]. io_inv H; destruct (get_verified_mono _ _ _ _ _ _ _ Hm0).
    + unfold io_ret in H. simplify_eq. split; [done|]. split; [by etrans|].
      intros ? ? [= <- <-]. by eapply read_acknowledged.
    + split; [done|]. split; [by etrans|done].
    + done.
  - destruct (se_class e); try (unfold io_ret in H; by injection H as <- <-).
    + io_inv H. destruct (get_verified_mono _ _ _ _ _ _ _ Hm0). unfold io_ret in H. simplify_eq.
      destruct x0 as [id|e'|]; [|by split_and!; [|etrans|]|done].
      split; [done|]. split; [by etrans|]. intros ? ? [= <- <-]. by eapply read_back.
    + io_inv H; destruct (get_verified_mono _ _ _ _ _ _ _ Hm0).
      * unfold io_ret in H. simplify_eq. split; [done|]. split; [by etrans|].
        intros ? ? [= <- <-]. by eapply read_back.
      * split; [done|]. split; [by etrans|done].
      * done.
Qed.

Lemma compare_and_put_exact key expected data s s' r :
  let c := CondUpdate (oi_revision expected) in
  digest_apart (objects s') data → compare_and_put sha256 b key expected data s = (s', r) →
  r ≠ Panic ∧ put_point key data c (objects s) (objects s') ∧
  ∀ outcome id, r = Ok (outcome, id) →
    objects s' !! key = Some (data, oi_revision id) ∧
    id = {| oi_revision := oi_revision id; oi_length := byte_len data; oi_sha256 := sha256_hex sha256 data |} ∧
    (outcome = Updated → ∃ m, objects s ⊆ m ∧ allowed c (m !! key)).
Proof.
  intros c Hnc H. unfold compare_and_put in H. io_inv H. rename x into s1, x0 into r1.
  destruct (put_phase _ _ _ _ _ _ Hm) as (Hnp&Hpt&Hok). destruct r1 as [rev|e|]; [| |done].
  - destruct (Hok _ eq_refl) as [Hs1 Hallowed]. io_inv H; destruct (get_verified_mono _ _ _ _ _ _ _ Hm0).
    + unfold io_ret in H. simplify_eq. split; [done|]. split; [by eapply put_point_mono|].
      intros ? ? [= <- <-]. apply and_assoc. split; [by eapply read_acknowledged|done].
    + split; [done|]. split; [by eapply put_point_mono|done].
    + done.
  - destruct (se_class e); try (unfold io_ret in H; by injection H as <- <-).
    io_inv H; destruct (get_verified_mono _ _ _ _ _ _ _ Hm0).
    + unfold io_ret in H. simplify_eq. split; [done|]. split; [by eapply put_point_mono|].
      intros ? ? [= <- <-]. apply and_assoc. split; [by eapply read_back|done].
    + split; [done|]. split; [by eapply put_point_mono|done].
    + done.
Qed.

(** The object a permit allows to be deleted; without guarded deletes its bytes
    have been verified. *)
Definition permitted (permit : DeletePermit) (o : option (bytes * RevisionToken)) : Prop :=
  ∃ data rev, o = Some (data, rev) ∧ token_matches (oi_revision (dp_identity permit)) rev = true ∧
    (bd_guarded_delete (descriptor b) = false → sha256_hex sha256 data = oi_sha256 (dp_identity permit)).

(** The point where the delete acts, if it does. *)
Definition delete_point (permit : DeletePermit) (m0 m1 : objects_map) : Prop :=
  ∃ m, m0 ⊆ m ∧
    (m ⊆ m1 ∨ (permitted permit (m !! dp_key permit) ∧ delete (dp_key permit) m ⊆ m1)).

(** The key is seen absent. *)
Definition absent_point (key : string) (m0 m1 : objects_map) : Prop :=
  ∃ m, delete key m0 ⊆ m ∧ m !! key = None ∧ m ⊆ m1.

Lemma delete_phase permit s s1 r1 :
  (bd_guarded_delete (descriptor b) = false → permitted permit (objects s !! dp_key permit)) →
  backend_delete b (dp_key permit)
    (if bd_guarded_delete (descriptor b) then Some (oi_revision (dp_identity permit)) else None) s
    = (s1, r1) →
  r1 ≠ Panic ∧ delete_point permit (objects s) (objects s1) ∧
  ((r1 = Ok tt ∨ ∃ e, r1 = Err e ∧ se_class e = ClassNotFound) →
     absent_point (dp_key permit) (objects s) (objects s1)).
Proof.
  set (key := dp_key permit).
  intros Hver (m&m'&Hm%Henv&Heff&Hm'%Henv)%(law_delete _ _ _ Hlaw).
  assert (Hperm : (∀ rev, (if bd_guarded_delete (descriptor b)
      then Some (oi_revision (dp_identity permit)) else None) = Some rev →
      allowed (CondUpdate rev) (m !! key)) → permitted permit (m !! key)).
  { intros Hg. destruct (bd_guarded_delete (descriptor b)) eqn:Hgd.
    - destruct (Hg _ eq_refl) as (d&rev&?&?). exists d, rev. rewrite Hgd. done.
    - destruct (Hver eq_refl) as (d&rev&Hd&Hrest). exists d, rev.
      split; [by eapply lookup_weaken|done]. }
  assert (Hdel : m' = delete key m → absent_point key (objects s) (objects s1)).
  { intros ->. exists (delete key m). split_and!; [by apply delete_mono|apply lookup_delete_eq|done]. }
  destruct r1 as [[]|e|]; [| |done]; (split; [done|]); cbn in Heff.
  - destruct Heff as [Hg ->]. split; [|by intros _; apply Hdel]. exists m. eauto.
  - destruct Heff as [[-> Hnf]|(He&Hg&->)].
    + split; [exists m; eauto|]. intros [?|(?&[= <-]&He)]; [done|]. exists m.
      split_and!; [|by apply Hnf|done]. etrans; [apply delete_subseteq|done].
    + split; [exists m; eauto|]. intros [?|(?&[= <-]&He')]; [done|congruence].
Qed.

Lemma delete_point_mono permit m0 m1 m2 m3 :
  m0 ⊆ m1 → delete_point permit m1 m2 → m2 ⊆ m3 → delete_point permit m0 m3.
Proof.
  intros H01 (m&?&H) H23. exists m. split; [by etrans|].
  destruct H as [?|[??]]; [left|right]; [by etrans|]. split; [done|by etrans].
Qed.

Lemma delete_point_others permit m0 m1 : delete_point permit m0 m1 → delete (dp_key permit) m0 ⊆ m1.
Proof.
  intros (m&?&[?|[_ ?]]); (etrans; [by apply delete_mono|]); [|done].
  etrans; [apply delete_subseteq|done].
Qed.

Lemma absent_point_mono key m0 m1 m2 m3 :
  m0 ⊆ m1 → absent_point key m1 m2 → m2 ⊆ m3 → absent_point key m0 m3.
Proof.
  intros ? (m&?&?&?) ?. exists m. split_and!; [|done|by etrans]. etrans; [by apply delete_mono|done].
Qed.

Lemma verify_permit_exact permit s s' r :
  verify_permit sha256 b permit s = (s', r) →
  r ≠ Panic ∧ objects s ⊆ objects s' ∧
  (r = Ok tt → bd_guarded_delete (descriptor b) = false → permitted permit (objects s' !! dp_key permit)).
Proof.
  unfold verify_permit. destruct (bd_guarded_delete (descriptor b)) eqn:Hg.
  { intros [= <- <-]. done. }
  intros H. io_inv H; destruct (get_verified_mono _ _ _ _ _ _ _ Hm); [|done..].
  unfold io_ret in H. simplify_eq. split; [done|]. split; [done|]. intros _ _.
  destruct (get_verified_now _ _ _ _ _ _ _ Hm) as (_&d&?&?&_&Hrev).
  exists d, (oi_revision x0). split; [done|]. split; [by apply Hrev|done].
Qed.

Lemma unknown_delete_phase permit s s' r0 :
  backend_get b (dp_key permit) None None s = (s', r0) →
  objects s ⊆ objects s' ∧ unknown_delete sha256 permit r0 ≠ Panic ∧
  ∀ outcome, unknown_delete sha256 permit r0 = Ok outcome →
    ∃ m, objects s ⊆ m ∧ m !! dp_key permit = None ∧ m ⊆ objects s'.
Proof.
  intros (m&Hm1%Henv&Hans&Hm2%Henv)%(law_get _ _ _ Hlaw). split; [by etrans|].
  destruct r0 as [read|e|]; cbn in Hans |- *; [by case_match| |done].
  case_bool_decide as He; [|done]. split; [done|]. intros _ _. exists m. auto.
Qed.

Lemma delete_permitted_exact permit s s' r :
  (bd_guarded_delete (descriptor b) = false → permitted permit (objects s !! dp_key permit)) →
  delete_permitted sha256 b permit s = (s', r) →
  r ≠ Panic ∧ delete_point permit (objects s) (objects s') ∧
  (∀ outcome, r = Ok outcome → absent_point (dp_key permit) (objects s) (objects s')).
Proof.
  intros Hver H. unfold delete_permitted in H. io_inv H. rename x into s1, x0 into r1.
  destruct (delete_phase _ _ _ _ Hver Hm) as (Hnp&Hpt&Habs).
  destruct r1 as [[]|e|]; [| |done].
  { unfold io_ret in H. simplify_eq. split; [done|]. split; [done|]. intros _ _. apply Habs. by left. }
  destruct (decide (se_class e = RetryableUnknown)) as [He|He].
  - rewrite He in H. io_inv H. unfold io_ret in H. simplify_eq.
    destruct (unknown_delete_phase _ _ _ _ Hm0) as (?&?&Hread). split; [done|].
    split; [by eapply delete_point_mono|].
    intros outcome (m&?&?&?)%Hread. exists m. split_and!; [|done|done].
    etrans; [by apply delete_point_others|done].
  - assert (Hr : s' = s1 ∧ r ≠ Panic ∧ (∀ o, r = Ok o → se_class e = ClassNotFound)).
    { destruct (se_class e); try done; cbn [andb] in H;
        repeat case_match; unfold io_ret in H; by simplify_eq. }
    destruct Hr as (->&?&Hok). split_and!; [done|done|]. intros o Ho. apply Habs. right. eauto.
Qed.

Lemma delete_reserved_exact permit s s' r :
  delete_reserved sha256 b permit s = (s', r) →
  r ≠ Panic ∧ delete_point permit (objects s) (objects s') ∧
  (∀ outcome, r = Ok outcome → absent_point (dp_key permit) (objects s) (objects s')).
Proof.
  unfold delete_reserved. intros H. io_inv H; destruct (verify_permit_exact _ _ _ _ Hm) as (?&?&Hver).
  - destruct x0. destruct (delete_permitted_exact _ _ _ _ (Hver eq_refl) H) as (?&?&Habs).
    split; [done|]. split; [by eapply delete_point_mono|]. intros o Ho.
    by eapply absent_point_mono; [done|eapply Habs|].
  - split; [done|]. split; [|done]. exists (objects s'). auto.
  - done.
Qed.
End client.

(** C17. The object client is exact. Take any backend whose conditional writes,
    deletes and whole-object reads are atomic and whose responses can be lost,
    used while other clients create objects, and objects whose digests do not collide. A create leaves every object as it
    was; when it succeeds, directly or after a lost response or a conflict, the
    store holds the given bytes under the key at the revision returned. A
    conditional update replaces the object only at the expected revision, and when
    it succeeds the store holds the given bytes. A reserved delete removes nothing
    but the object the permit identifies, and when it succeeds the key has been
    absent. *)
Theorem object_client_exact {S} sha256 (b : Backend S) env objects
    (Hpre : PreOrder env) (Hlaw : lawful env b objects) (Henv : ∀ m m', env m m' → m ⊆ m') :
  (∀ key data s s' r,
     digest_apart sha256 (objects s') data → put_if_absent sha256 b key data s = (s', r) →
     r ≠ Panic ∧ objects s ⊆ objects s' ∧
     ∀ outcome id, r = Ok (outcome, id) →
       objects s' !! key = Some (data, oi_revision id) ∧
       id = {| oi_revision := oi_revision id; oi_length := byte_len data;
               oi_sha256 := sha256_hex sha256 data |}) ∧
  (∀ key expected data s s' r,
     digest_apart sha256 (objects s') data → compare_and_put sha256 b key expected data s = (s', r) →
     r ≠ Panic ∧ put_point key data (CondUpdate (oi_revision expected)) (objects s) (objects s') ∧
     ∀ outcome id, r = Ok (outcome, id) → objects s' !! key = Some (data, oi_revision id)) ∧
  (∀ permit s s' r,
     delete_reserved sha256 b permit s = (s', r) →
     r ≠ Panic ∧ delete_point sha256 b permit (objects s) (objects s') ∧
     ∀ outcome, r = Ok outcome → absent_point (dp_key permit) (objects s) (objects s')).
Proof.
  split; [|split].
  - intros. by eapply put_if_absent_exact.
  - intros key expected data s s' r Hnc H.
    destruct (compare_and_put_exact sha256 b env objects Hlaw Henv _ _ _ _ _ _ Hnc H) as (?&?&Hok).
    split; [done|]. split; [done|]. intros outcome id Hr. by destruct (Hok _ _ Hr).
  - intros. by eapply delete_reserved_exact.
Qed.

(** ** A store in memory *)
Module memory.
Record Mem := { mem_objects : objects_map; mem_puts : N }.

Definition mem_token (puts : N) : RevisionToken :=
  {| rt_e_tag := Some (bytes_string (hex_bytes (u64_be puts))); rt_version := None |}.

Definition admits (c : WriteCondition) (o : option (bytes * RevisionToken)) : option ErrorClass :=
  match c, o with
  | CondOverwrite, _ => None
  | CondCreate, None => None
  | CondCreate, Some _ => Some AlreadyExists
  | CondUpdate expected, Some (_, rev) =>
      if token_matches expected rev then None else Some PreconditionFailed
  | CondUpdate _, None => Some PreconditionFailed
  end.

(** A listing names every object. *)
Definition mem_backend : Backend Mem := {|
  descriptor := {| bd_id := "memory"; bd_driver := "apache-object_store"; bd_driver_version := "0.14.1";
    bd_server_version := "in-process"; bd_conditional_primitive := "etag";
    bd_guarded_delete := false; bd_delete_strategy := "immutable-digest-reachability-horizon" |};
  backend_put key data c s :=
    match admits c (mem_objects s !! key) with
    | None =>
        let token := mem_token (mem_puts s) in
        ({| mem_objects := <[key := (data, token)]> (mem_objects s); mem_puts := mem_puts s + 1 |},
         Ok token)
    | Some class => (s, Err (store_error class "memory"))
    end;
  backend_get key range _ s :=
    (s, match mem_objects s !! key with
        | Some (data, rev) =>
            let '(i, j) := default (0, len data)%N range in
            Ok {| br_bytes := slice (N.to_nat i) (N.to_nat j) data; br_revision := rev;
                  br_object_length := len data; br_returned_range := (i, j) |}
        | None => Err (store_error ClassNotFound "memory")
        end);
  backend_delete key expected s :=
    match expected with
    | Some _ => (s, Err (store_error Unsupported "memory"))
    | None =>
        match mem_objects s !! key with
        | Some _ =>
            ({| mem_objects := delete key (mem_objects s); mem_puts := mem_puts s |}, Ok tt)
        | None => (s, Err (store_error ClassNotFound "memory"))
        end
    end;
  backend_list _ s := (s, Ok (bt_items (mem_objects s)).*1);
|}.
End memory.
Import memory.

Lemma admits_allowed c o : admits c o = None → allowed c o.
Proof.
  destruct c as [| |expected], o as [[data rev]|]; cbn; try done. intros H. exists data, rev.
  by destruct (token_matches expected rev).
Qed.

Lemma mem_lawful : lawful (=) mem_backend mem_objects.
Proof.
  split.
  - intros key data c s s' r H. cbn in H. exists (mem_objects s), (mem_objects s').
    split; [done|]. split; [|done]. destruct (admits c (mem_objects s !! key)) eqn:E; simplify_eq/=.
    + by left.
    + split; [by apply admits_allowed|done].
  - intros key expected s s' r [= <- <-]. exists (mem_objects s). split; [done|]. split; [|done].
    destruct (mem_objects s !! key) as [[data rev]|] eqn:E; cbn; [|done].
    unfold slice. rewrite drop_0, Nat.sub_0_r, E. unfold len. rewrite Nat2N.id. by rewrite firstn_all.
  - intros key expected s s' r H. cbn in H. exists (mem_objects s), (mem_objects s').
    split; [done|]. split; [|done]. destruct expected as [rev|]; [simplify_eq/=; by left|].
    destruct (mem_objects s !! key) as [[data rev]|] eqn:E; simplify_eq/=; [done|by left].
  - intros prefix s s' r [= <- <-]. done.
Qed.

(** ** Wrappers *)

(** [m'] on the observed store is [m] on the store it wraps. *)
Definition same_run {S A} (m' : io (Observed S) A) (m : io S A) : Prop :=
  ∀ o, m (ob_inner o) = (ob_inner (m' o).1, (m' o).2).

Lemma same_ret {S A} (a : A) : same_run (S:=S) (io_ret a) (io_ret a).
Proof. done. Qed.

Lemma same_bind {S A B} (m' : io (Observed S) A) m (k' : A → io (Observed S) B) k :
  same_run m' m → (∀ a, same_run (k' a) (k a)) → same_run (io_bind m' k') (io_bind m k).
Proof.
  intros Hm Hk o. unfold io_bind. rewrite Hm. destruct (m' o) as [o1 a]. apply Hk.
Qed.

Lemma same_try {S E A B} (m' : io (Observed S) (res E A)) m (k' : A → io (Observed S) (res E B)) k :
  same_run m' m → (∀ a, same_run (k' a) (k a)) → same_run (io_try m' k') (io_try m k).
Proof. intros Hm Hk. apply same_bind; [done|]. intros []; auto using same_ret. Qed.

Lemma same_observe {S A} api n f (m : io S (res StoreError A)) : same_run (observe api n f m) m.
Proof. intros o. unfold observe. by destruct (m (ob_inner o)). Qed.

(** Observing a backend changes nothing. Every operation of the client gives
    on an observed backend the result and the store it gives on the backend itself. *)
Theorem observed_transparent {S} sha256 (b : Backend S) :
  (∀ key data, same_run (put_if_absent sha256 (observed_backend b) key data) (put_if_absent sha256 b key data)) ∧
  (∀ key expected data, same_run (compare_and_put sha256 (observed_backend b) key expected data)
                                 (compare_and_put sha256 b key expected data)) ∧
  (∀ permit, same_run (delete_reserved sha256 (observed_backend b) permit) (delete_reserved sha256 b permit)) ∧
  (∀ key expected length digest,
     same_run (read_full_verified sha256 (observed_backend b) key expected length digest)
              (read_full_verified sha256 b key expected length digest)) ∧
  (∀ key range expected digest,
     same_run (get_range_verified sha256 (observed_backend b) key range expected digest)
              (get_range_verified sha256 b key range expected digest)).
Proof.
  assert (Hfull : ∀ key expected length digest,
     same_run (read_full_verified sha256 (observed_backend b) key expected length digest)
              (read_full_verified sha256 b key expected length digest)).
  { intros. unfold read_full_verified. apply same_try; [apply same_observe|]. intros. apply same_ret. }
  assert (Hget : ∀ key expected length digest,
     same_run (get_full_verified sha256 (observed_backend b) key expected length digest)
              (get_full_verified sha256 b key expected length digest)).
  { intros. unfold get_full_verified. apply same_try; [apply Hfull|]. intros []. apply same_ret. }
  split_and!; [| | |exact Hfull|].
  - intros key data. unfold put_if_absent. apply same_bind; [apply same_observe|].
    intros [rev|e|]; [|destruct (se_class e)|];
      repeat first [apply same_ret|apply same_try; [apply Hget|intros ?]|apply same_bind; [apply Hget|intros ?]].
  - intros key expected data. unfold compare_and_put. apply same_bind; [apply same_observe|].
    intros [rev|e|]; [|destruct (se_class e)|];
      repeat first [apply same_ret|apply same_try; [apply Hget|intros ?]].
  - intros permit. unfold delete_reserved, verify_permit, delete_permitted. cbn [descriptor observed_backend].
    apply same_try.
    + case_match; [apply same_ret|]. apply same_try; [apply Hget|]. intros. apply same_ret.
    + intros _. apply same_bind; [apply same_observe|].
      intros [rev|e|]; [apply same_ret| |apply same_ret].
      destruct (se_class e); repeat first [apply same_ret|case_match];
        (apply same_bind; [apply same_observe|intros; apply same_ret]).
  - intros. unfold get_range_verified. apply same_try; [apply same_observe|]. intros. apply same_ret.
Qed.

Lemma damage_ne shorten corrupt data :
  data ≠ [] → corrupt = true ∨ shorten = true → damage shorten corrupt data ≠ data.
Proof.
  intros Hdata Hflag Heq. apply (f_equal length) in Heq as Hlen. unfold damage in *.
  rewrite bool_decide_false in * by done. destruct shorten; cbn [andb negb] in *.
  - assert (length (removelast data) < length data).
    { destruct data using rev_ind; [done|]. rewrite removelast_last, length_app. cbn. lia. }
    destruct corrupt; [destruct (removelast data)|]; cbn in *; lia.
  - destruct Hflag as [->|?]; [|done]. destruct data as [|x data]; [done|].
    injection Heq as Heq. apply (f_equal (N.lxor x)) in Heq.
    by rewrite <-N.lxor_assoc, N.lxor_nilpotent in Heq.
Qed.

(** A damaged read of a non-empty object is never taken for the object. *)
Theorem damaged_read_rejected {S} sha256 (b : Backend S) key expected s inner read
    (Hget : backend_get b key None expected (fb_inner s) = (inner, Ok read))
    (Hdata : br_bytes read ≠ [])
    (Hnc : ∀ x, sha256_hex sha256 x = sha256_hex sha256 (br_bytes read) → x = br_bytes read)
    (Hflag : fb_corrupt_next_get s = true ∨ fb_shorten_next_get s = true) :
  (read_full_verified sha256 (fault_backend b) key expected (byte_len (br_bytes read))
     (sha256_hex sha256 (br_bytes read)) s).2
  = Err (store_error ClassCorrupt "full object length, range, or digest mismatch").
Proof.
  destruct s as [inner0 lp ld c sh sl n]. cbn in Hget, Hflag.
  assert (Hne := damage_ne sh c _ Hdata Hflag).
  assert (Hfault : ∃ f, backend_get (fault_backend b) key None expected
    {| fb_inner := inner0; fb_lose_next_put_response := lp; fb_lose_next_delete_response := ld;
       fb_corrupt_next_get := c; fb_shorten_next_get := sh; fb_stale_next_list := sl; fb_list_calls := n |} =
    (f, Ok {| br_bytes := damage sh c (br_bytes read); br_revision := br_revision read;
              br_object_length := br_object_length read; br_returned_range := br_returned_range read |})).
  { eexists. cbn [backend_get fault_backend]. unfold io_try, io_bind, on_inner. cbn [fb_inner].
    rewrite Hget. destruct read. reflexivity. }
  destruct Hfault as [f Hfault]. unfold read_full_verified, io_try, io_bind. rewrite Hfault.
  cbn -[sha256_hex damage byte_len].
  rewrite (bool_decide_false (sha256_hex sha256 (damage sh c (br_bytes read)) = _)) by naive_solver.
  cbn [negb]. by rewrite !orb_true_r.
Qed.

(** Without guarded deletes a permit whose object is gone is an error, never
    [AlreadyAbsent]: retrying a delete that took effect does not report it done. *)
Theorem absent_delete_fails {S} sha256 (b : Backend S) objects permit s s' r
    (Hlaw : lawful (=) b objects) (Hguard : bd_guarded_delete (descriptor b) = false)
    (Habsent : objects s !! dp_key permit = None)
    (Hdel : delete_reserved sha256 b permit s = (s', r)) :
  ∃ e, r = Err e.
Proof.
  unfold delete_reserved in Hdel. io_inv Hdel; [|by eauto|].
  - exfalso. unfold verify_permit in Hm. rewrite Hguard in Hm. io_inv Hm.
    apply (get_verified_stored sha256 b (=) objects Hlaw) in Hm0 as (m&d&<-&_&Hm0&_). congruence.
  - unfold verify_permit in Hm. rewrite Hguard in Hm. io_inv Hm.
    by apply (get_verified_env sha256 b (=) objects Hlaw) in Hm as (_&?&_).
Qed.

(** *** A create, its retry, an update and a delete *)
Module demo_store.
Definition empty : Mem := {| mem_objects := ∅; mem_puts := 0 |}.
Definition created := put_if_absent prefix_digest mem_backend "segments/a" [1; 2; 3]%N empty.
Definition permit : DeletePermit :=
  {| dp_key := "segments/a";
     dp_identity := {| oi_revision := mem_token 0; oi_length := 3;
                       oi_sha256 := sha256_hex prefix_digest [1; 2; 3]%N |};
     dp_plan_id := "plan"; dp_authority_revision := 1 |}.
End demo_store.
Import demo_store.

Lemma object_client_exact_witness :
  mem_objects created.1 !! "segments/a"%string = Some ([1; 2; 3]%N, mem_token 0) ∧
  absent_point "segments/a" (mem_objects created.1)
    (mem_objects (delete_reserved prefix_digest mem_backend permit created.1).1).
Proof.
  destruct (object_client_exact prefix_digest mem_backend (=) mem_objects ltac:(split; [intros ?; done|intros ??? -> ->; done])
    mem_lawful ltac:(intros m m' ->; done)) as (Hput&_&Hdel). split.
  - destruct (Hput "segments/a"%string [1; 2; 3]%N empty created.1 created.2) as (_&_&Hok).
    + intros key d rev Hd%elem_of_bt_items. vm_compute in Hd.
      apply list_elem_of_singleton in Hd as [= -> -> ->]. done.
    + apply surjective_pairing.
    + destruct (Hok PutCreated (dp_identity permit)) as [Hs _]; [by vm_compute|exact Hs].
  - eapply (Hdel permit created.1 _ _ (surjective_pairing _)). by vm_compute.
Defined.
