(* ===== verification/PubAdapter.v ===== *)
(** * The physical publication adapter

    [okv-object/src/publication_adapter.rs]: a publication authority whose state
    transitions are frames of the replicated log, the mark that walks manifests
    through the object client, and the sweep that reserves, deletes and retires.
    JSON, SHA-256 and the texts of errors are parameters.

    Reopening the authority from its log gives the state it had, and a request
    whose write fails or tears takes effect as a whole or not at all; an
    acknowledged outcome is found again ([authority_request_atomic]). *)

From coqutil Require Import Datatypes.RecordSetters.
Import OCamlLikeNotations.
From stdpp Require Import pretty.
From S2P Require Import Prelude Order BTree Bytes Wal ObjStore WalCodec WalRuns.

Definition AUTHORITY_FORMAT_VERSION : N := 1.
Definition MANIFEST_FORMAT_VERSION : N := 1.

Inductive PubAdapterError :=
  | AdapterAuthority (detail : string)
  | AdapterStore (error : StoreError)
  | AdapterJson (detail : string).

Inductive ObjectKind := KindData | KindManifest.
#[global] Instance ObjectKind_eq_dec : EqDecision ObjectKind.
Proof. solve_decision. Defined.

Record ObjectReference := {
  ref_kind : ObjectKind;
  ref_key : string;
  ref_length : N;
  ref_sha256 : string;
}.
#[global] Instance ObjectReference_eq_dec : EqDecision ObjectReference.
Proof. solve_decision. Defined.

Record PhysicalManifest := {
  pm_format_version : N;
  pm_children : list ObjectReference;
}.

Record PublicationIntent := {
  pi_object_keys : gset string;
  pi_manifest : ObjectReference;
}.
#[global] Instance PublicationIntent_eq_dec : EqDecision PublicationIntent.
Proof. solve_decision. Defined.

(** [DeletionReservation] has a permit only. *)
Inductive AuthorityOutcome := OutcomeApplied | OutcomeDeleteReserved (permit : DeletePermit).
#[global] Instance AuthorityOutcome_eq_dec : EqDecision AuthorityOutcome.
Proof. solve_decision. Defined.

Record AuthorityState := {
  as_revision : N;
  as_root_intent_epoch : N;
  as_request_outcomes : gmap string AuthorityOutcome;
  as_intents : gmap string PublicationIntent;
  as_roots : gmap string ObjectReference;
  as_pins : gmap string ObjectReference;
  as_deletion_reservations : gmap string DeletePermit;
}.
#[global] Instance AuthorityState_eq_dec : EqDecision AuthorityState.
Proof. solve_decision. Defined.

Definition authority_default : AuthorityState :=
  {| as_revision := 0; as_root_intent_epoch := 0; as_request_outcomes := ∅; as_intents := ∅;
     as_roots := ∅; as_pins := ∅; as_deletion_reservations := ∅ |}.

Inductive AuthorityCommand :=
  | CmdPrepare (publication_id : string) (intent : PublicationIntent)
  | CmdPublish (publication_id root_id : string) (manifest : ObjectReference)
  | CmdPin (pin_id : string) (manifest : ObjectReference)
  | CmdUnpin (pin_id : string)
  | CmdReserveDelete (plan_id : string) (mark_epoch : N) (key : string) (identity : ObjectIdentity)
  | CmdRetireDelete (plan_id key : string).

Record AuthorityFrame := {
  af_format_version : N;
  af_revision : N;
  af_previous_payload_sha256 : string;
  af_state : AuthorityState;
}.

Inductive AuthorityError :=
  | AuthConflict (detail : string)
  | AuthUnknownOutcome
  | AuthCorrupt (detail : string)
  | AuthWal (detail : string).

(** [Display]. *)
Definition authority_error_text (e : AuthorityError) : string :=
  match e with
  | AuthConflict detail => "conflict: " +:+ detail
  | AuthUnknownOutcome => "unknown durable authority outcome"
  | AuthCorrupt detail => "corrupt authority state: " +:+ detail
  | AuthWal detail => "authority WAL: " +:+ detail
  end.

(** ** Commands *)
Definition bump_epoch (state : AuthorityState) : AuthorityState :=
  { state with as_root_intent_epoch := saturating_add (as_root_intent_epoch state) 1 }.

Definition apply_authority_command (state : AuthorityState) (command : AuthorityCommand) (revision : N)
    : res AuthorityError (AuthorityState * AuthorityOutcome) :=
  match command with
  | CmdPrepare publication_id intent =>
      if is_some (as_intents state !! publication_id) then
        Err (AuthConflict "publication already exists")
      else if bts_any (λ key, bt_any (λ permit, bool_decide (dp_key permit = key))
                                (as_deletion_reservations state)) (pi_object_keys intent) then
        Err (AuthConflict "object deletion is reserved")
      else
        Ok (bump_epoch { state with as_intents := <[publication_id := intent]> (as_intents state) },
            OutcomeApplied)
  | CmdPublish publication_id root_id manifest =>
      match as_intents state !! publication_id with
      | None => Err (AuthConflict "publication intent is absent")
      | Some intent =>
          if negb (bool_decide (pi_manifest intent = manifest))
             || negb (bool_decide (ref_key manifest ∈ pi_object_keys intent))
          then Err (AuthConflict "published manifest differs from prepared intent")
          else
            Ok (bump_epoch { state with as_roots := <[root_id := manifest]> (as_roots state);
                                        as_intents := delete publication_id (as_intents state) },
                OutcomeApplied)
      end
  | CmdPin pin_id manifest =>
      Ok (bump_epoch { state with as_pins := <[pin_id := manifest]> (as_pins state) }, OutcomeApplied)
  | CmdUnpin pin_id =>
      Ok (bump_epoch { state with as_pins := delete pin_id (as_pins state) }, OutcomeApplied)
  | CmdReserveDelete plan_id mark_epoch key identity =>
      if negb (mark_epoch =? as_root_intent_epoch state)%N then
        Err (AuthConflict "root or intent epoch changed")
      else if bt_any (λ intent, bool_decide (key ∈ pi_object_keys intent)) (as_intents state) then
        Err (AuthConflict "current publication intent names candidate")
      else if is_some (as_deletion_reservations state !! key) then
        Err (AuthConflict "delete already reserved")
      else
        let permit := {| dp_key := key; dp_identity := identity; dp_plan_id := plan_id;
                         dp_authority_revision := revision |} in
        Ok ({ state with as_deletion_reservations := <[key := permit]> (as_deletion_reservations state) },
            OutcomeDeleteReserved permit)
  | CmdRetireDelete plan_id key =>
      match as_deletion_reservations state !! key with
      | None => Err (AuthConflict "delete reservation is absent")
      | Some permit =>
          if negb (bool_decide (dp_plan_id permit = plan_id))
          then Err (AuthConflict "delete plan identity differs")
          else
            Ok ({ state with as_deletion_reservations := delete key (as_deletion_reservations state) },
                OutcomeApplied)
      end
  end.

(** ** The durable authority *)
Record LocalDurableAuthority := {
  la_wal : LocalReplicatedWal;
  la_state : AuthorityState;
  la_previous_payload_sha256 : string;
  la_ram_only : bool;
}.

Section authority.
Context (sha256 : bytes → bytes) (wal_error_text : WalError → string).
(** [serde_json] on frames. *)
Context (frame_to_vec : AuthorityFrame → res string bytes)
        (frame_from_slice : bytes → res string AuthorityFrame).

(** The loop of [open] over the recovered records. *)
Fixpoint replay_frames (records : list RecoveredRecord) (state : AuthorityState) (previous : string)
    : res AuthorityError (AuthorityState * string) :=
  match records with
  | [] => Ok (state, previous)
  | record :: records =>
      let? frame := map_err AuthCorrupt (frame_from_slice (rr_payload record)) in
      if negb (af_format_version frame =? AUTHORITY_FORMAT_VERSION)%N
         || negb (af_revision frame =? rr_log_index record)%N
         || negb (as_revision (af_state frame) =? rr_log_index record)%N
         || negb (bool_decide (af_previous_payload_sha256 frame = previous))
      then Err (AuthCorrupt "frame version, revision, or hash chain mismatch")
      else replay_frames records (af_state frame) (sha256_hex sha256 (rr_payload record))
  end.

(** [LocalDurableAuthority::open] on the directory whose log is [wal], opened
    with three replicas and a quorum of two. *)
Definition authority_open (wal : LocalReplicatedWal) (ram_only : bool)
    : res AuthorityError LocalDurableAuthority :=
  let? recovery := map_err (λ e, AuthWal (wal_error_text e)) (recover sha256 wal) in
  let? '(state, previous) := replay_frames (rc_records recovery) authority_default (sha256_hex sha256 []) in
  Ok {| la_wal := wal; la_state := state; la_previous_payload_sha256 := previous;
        la_ram_only := ram_only |}.

(** The frame of a transition is appended to all replicas; [io] is the disk's
    answer to each write. *)
Definition persist_frame (a : LocalDurableAuthority) (next : AuthorityState) (io : ReplicaId → option nat)
    : LocalDurableAuthority * res AuthorityError unit :=
  let frame := {| af_format_version := AUTHORITY_FORMAT_VERSION; af_revision := as_revision next;
                  af_previous_payload_sha256 := la_previous_payload_sha256 a; af_state := next |} in
  match map_err AuthCorrupt (frame_to_vec frame) with
  | Ok payload =>
      let '(wal, r) := wal_append sha256 (la_wal a) (as_revision next) payload [0; 1; 2] io in
      let a := { a with la_wal := wal } in
      match map_err (λ e, AuthWal (wal_error_text e)) r with
      | Ok append =>
          if negb (ao_quorum_durable append)
          then (a, Err (AuthWal "state transition lacked a synchronized quorum"))
          else ({ a with la_previous_payload_sha256 := sha256_hex sha256 payload }, Ok tt)
      | Err e => (a, Err e)
      | Panic => (a, Panic)
      end
  | Err e => (a, Err e)
  | Panic => (a, Panic)
  end.

(** The state after a request, its outcome recorded. *)
Definition authority_transition (state : AuthorityState) (request_id : string) (command : AuthorityCommand)
    : res AuthorityError (AuthorityState * AuthorityOutcome) :=
  let next_revision := saturating_add (as_revision state) 1 in
  let next := { state with as_revision := next_revision } in
  let? '(next, outcome) := apply_authority_command next command next_revision in
  Ok ({ next with as_request_outcomes := <[request_id := outcome]> (as_request_outcomes next) }, outcome).

Definition authority_apply (a : LocalDurableAuthority) (request_id : string) (command : AuthorityCommand)
    (lose_response : bool) (io : ReplicaId → option nat)
    : LocalDurableAuthority * res AuthorityError AuthorityOutcome :=
  match as_request_outcomes (la_state a) !! request_id with
  | Some outcome => (a, Ok outcome)
  | None =>
      match authority_transition (la_state a) request_id command with
      | Ok (next, outcome) =>
          let '(a, r) := if la_ram_only a then (a, Ok tt) else persist_frame a next io in
          match r with
          | Ok _ =>
              ({ a with la_state := next },
               if lose_response then Err AuthUnknownOutcome else Ok outcome)
          | Err e => (a, Err e)
          | Panic => (a, Panic)
          end
      | Err e => (a, Err e)
      | Panic => (a, Panic)
      end
  end.

Definition authority_resolve (a : LocalDurableAuthority) (request_id : string) : option AuthorityOutcome :=
  as_request_outcomes (la_state a) !! request_id.
End authority.

(** ** Marking *)
Record MarkSnapshot := {
  ms_root_intent_epoch : N;
  ms_manifests : list ObjectReference;
  ms_intent_objects : gset string;
}.
Record MarkReceipt := {
  mr_root_intent_epoch : N;
  mr_reachable : gset string;
  mr_complete : bool;
}.

Definition authority_snapshot (a : LocalDurableAuthority) : MarkSnapshot :=
  {| ms_root_intent_epoch := as_root_intent_epoch (la_state a);
     ms_manifests := (bt_items (as_roots (la_state a))).*2 ++ (bt_items (as_pins (la_state a))).*2;
     ms_intent_objects :=
       foldl (λ keys intent, pi_object_keys intent ∪ keys) ∅ (bt_items (as_intents (la_state a))).*2 |}.

Section marking.
Context {S : Type} (sha256 : bytes → bytes) (b : Backend S).
Context (manifest_from_slice : bytes → res string PhysicalManifest).

(** The references an object adds to the stack. *)
Definition manifest_children (reference : ObjectReference) (data : bytes) : res PubAdapterError (list ObjectReference) :=
  match ref_kind reference with
  | KindData => Ok []
  | KindManifest =>
      let? manifest := map_err AdapterJson (manifest_from_slice data) in
      if negb (pm_format_version manifest =? MANIFEST_FORMAT_VERSION)%N
      then Err (AdapterJson "unsupported physical manifest version")
      else Ok (pm_children manifest)
  end.

(** [pending] is the stack, its top first: the children are pushed in reverse
    order, so that the first is on top. Running out of fuel is [Panic]. *)
Fixpoint walk_closure (fuel : nat) (pending : list ObjectReference) (reachable : gset string)
    : io S (gset string * res PubAdapterError unit) :=
  match pending with
  | [] => io_ret (reachable, Ok tt)
  | reference :: pending =>
      match fuel with
      | O => io_ret (reachable, Panic)
      | Datatypes.S fuel =>
          if bool_decide (ref_key reference ∈ reachable) then walk_closure fuel pending reachable
          else
            let reachable := {[ref_key reference]} ∪ reachable in
            do! r := read_full_verified sha256 b (ref_key reference) None (ref_length reference)
                       (ref_sha256 reference) in
            match map_err AdapterStore r with
            | Ok (data, _) =>
                match manifest_children reference data with
                | Ok children => walk_closure fuel (children ++ pending) reachable
                | Err e => io_ret (reachable, Err e)
                | Panic => io_ret (reachable, Panic)
                end
            | Err e => io_ret (reachable, Err e)
            | Panic => io_ret (reachable, Panic)
            end
      end
  end.

(** The loop of [mark_snapshot] over the manifests, each walked on its own stack. *)
Fixpoint mark_manifests (fuel : nat) (manifests : list ObjectReference) (reachable : gset string)
    : io S (gset string * res PubAdapterError bool) :=
  match manifests with
  | [] => io_ret (reachable, Ok true)
  | manifest :: manifests =>
      do! '(reachable, r) := walk_closure fuel [manifest] reachable in
      match r with
      | Ok _ => mark_manifests fuel manifests reachable
      | Err _ => io_ret (reachable, Ok false)
      | Panic => io_ret (reachable, Panic)
      end
  end.

Definition mark_snapshot (fuel : nat) (snapshot : MarkSnapshot) : io S (res PubAdapterError MarkReceipt) :=
  do! '(reachable, r) := mark_manifests fuel (ms_manifests snapshot) (ms_intent_objects snapshot) in
  io_ret (let? complete := r in
    Ok {| mr_root_intent_epoch := ms_root_intent_epoch snapshot; mr_reachable := reachable;
          mr_complete := complete |}).

(** [all_manifests_readable]. *)
Fixpoint all_manifests_readable (fuel : nat) (manifests : list ObjectReference)
    : io S (res PubAdapterError bool) :=
  match manifests with
  | [] => io_ret (Ok true)
  | manifest :: manifests =>
      do! '(_, r) := walk_closure fuel [manifest] ∅ in
      match r with
      | Ok _ => all_manifests_readable fuel manifests
      | Err _ => io_ret (Ok false)
      | Panic => io_ret Panic
      end
  end.
End marking.

(** ** Sweeping *)
Definition request (seed : N) (operation : string) : string :=
  "seed-" +:+ pretty seed +:+ ":" +:+ operation.

Section sweeping.
Context {S : Type} (sha256 : bytes → bytes) (b : Backend S).
Context (wal_error_text : WalError → string) (frame_to_vec : AuthorityFrame → res string bytes).
(** The disk's answer to the writes of each request. *)
Context (disk : string → ReplicaId → option nat).

Definition sweep_apply (a : LocalDurableAuthority) (request_id : string) (command : AuthorityCommand)
    : LocalDurableAuthority * res string AuthorityOutcome :=
  let '(a, r) := authority_apply sha256 wal_error_text frame_to_vec a request_id command false
                   (disk request_id) in
  (a, map_err authority_error_text r).

(** One candidate: verify its identity, reserve it, delete it and retire the
    reservation. *)
Definition sweep_candidate (references : gmap string ObjectReference) (mark_epoch seed : N) (phase : string)
    (reclaimed : N) (key : string) (a : LocalDurableAuthority) (s : S)
    : LocalDurableAuthority * S * res string unit :=
  match references !! key with
  | None => (a, s, Err ("missing reference for GC candidate " +:+ key))
  | Some reference =>
      match get_full_verified sha256 b key None (ref_length reference) (ref_sha256 reference) s with
      | (s, Ok found) =>
          let plan_id := phase +:+ "-" +:+ pretty reclaimed in
          match sweep_apply a (request seed ("reserve-" +:+ plan_id))
                  (CmdReserveDelete plan_id mark_epoch key found) with
          | (a, Ok (OutcomeDeleteReserved permit)) =>
              match delete_reserved sha256 b permit s with
              | (s, Ok _) =>
                  match sweep_apply a (request seed ("retire-" +:+ plan_id)) (CmdRetireDelete plan_id key) with
                  | (a, Ok _) => (a, s, Ok tt)
                  | (a, Err e) => (a, s, Err e)
                  | (a, Panic) => (a, s, Panic)
                  end
              | (s, Err e) => (a, s, Err (store_error_text e))
              | (s, Panic) => (a, s, Panic)
              end
          | (a, Ok OutcomeApplied) => (a, s, Err "root-graph reservation returned applied"%string)
          | (a, Err e) => (a, s, Err e)
          | (a, Panic) => (a, s, Panic)
          end
      | (s, Err e) => (a, s, Err (store_error_text e))
      | (s, Panic) => (a, s, Panic)
      end
  end.

Fixpoint sweep_loop (references : gmap string ObjectReference) (mark_epoch seed : N) (phase : string)
    (candidates : list string) (reclaimed : N) (a : LocalDurableAuthority) (s : S)
    : LocalDurableAuthority * S * res string N :=
  match candidates with
  | [] => (a, s, Ok reclaimed)
  | key :: candidates =>
      match sweep_candidate references mark_epoch seed phase reclaimed key a s with
      | (a, s, Ok _) => sweep_loop references mark_epoch seed phase candidates (saturating_add reclaimed 1) a s
      | (a, s, Err e) => (a, s, Err e)
      | (a, s, Panic) => (a, s, Panic)
      end
  end.

Definition sweep_root_graph_candidates (references : gmap string ObjectReference) (mark : MarkReceipt)
    (seed : N) (phase : string) (a : LocalDurableAuthority) (s : S)
    : LocalDurableAuthority * S * res string N :=
  if negb (mr_complete mark) then (a, s, Ok 0%N)
  else
    match list_candidates b "objects" s with
    | (s, Ok candidates) =>
        sweep_loop references (mr_root_intent_epoch mark) seed phase
          (List.filter (λ key, negb (bool_decide (key ∈ mr_reachable mark))) candidates) 0 a s
    | (s, Err e) => (a, s, Err (store_error_text e))
    | (s, Panic) => (a, s, Panic)
    end.
End sweeping.

(** ** References *)
Section references.
Context (sha256 : bytes → bytes) (manifest_to_vec : PhysicalManifest → res string bytes).

Definition content_reference (kind : ObjectKind) (data : bytes) : ObjectReference :=
  let key := ("objects/" +:+ match kind with KindData => "data" | KindManifest => "manifest" end
              +:+ "/sha256/" +:+ sha256_hex sha256 data)%string in
  {| ref_kind := kind; ref_key := key; ref_length := byte_len data; ref_sha256 := sha256_hex sha256 data |}.

Definition manifest_reference (children : list ObjectReference)
    : res PubAdapterError (bytes * ObjectReference) :=
  let? data := map_err AdapterJson
    (manifest_to_vec {| pm_format_version := MANIFEST_FORMAT_VERSION; pm_children := children |}) in
  Ok (data, content_reference KindManifest data).

Definition publication_intent (manifest : ObjectReference) (children : list ObjectReference)
    : PublicationIntent :=
  {| pi_object_keys := {[ref_key manifest]} ∪ list_to_set (ref_key <$> children);
     pi_manifest := manifest |}.
End references.

Section durable.
Context (sha256 : bytes → bytes) (sha256_len : digest_len sha256).
Context (wal_error_text : WalError → string).
Context (frame_to_vec : AuthorityFrame → res string bytes)
        (frame_from_slice : bytes → res string AuthorityFrame).
(** What [serde_json] writes it reads back. *)
Context (json_round_trip : ∀ frame payload,
  frame_to_vec frame = Ok payload → frame_from_slice payload = Ok frame).

Definition apply_with := authority_apply sha256 wal_error_text frame_to_vec.
Definition reopen := authority_open sha256 wal_error_text frame_from_slice.
Definition replay_all := replay_frames sha256 frame_from_slice.

(** ** Frames of a log *)

(** The frames of [payloads] chain from the empty state to [state]. *)
Inductive frames_ok : list bytes → AuthorityState → string → Prop :=
  | frames_nil : frames_ok [] authority_default (sha256_hex sha256 [])
  | frames_snoc payloads state previous payload frame :
      frames_ok payloads state previous →
      frame_from_slice payload = Ok frame →
      af_format_version frame = AUTHORITY_FORMAT_VERSION →
      af_revision frame = (N.of_nat (length payloads) + 1)%N →
      as_revision (af_state frame) = (N.of_nat (length payloads) + 1)%N →
      af_previous_payload_sha256 frame = previous →
      frames_ok (payloads ++ [payload]) (af_state frame) (sha256_hex sha256 payload).

Lemma frames_revision payloads state previous :
  frames_ok payloads state previous → as_revision state = N.of_nat (length payloads).
Proof. destruct 1; [done|]. rewrite length_app. cbn. lia. Qed.

Lemma replay_frames_app records1 records2 state previous :
  replay_all (records1 ++ records2) state previous =
  let? '(state, previous) := replay_all records1 state previous in replay_all records2 state previous.
Proof.
  revert state previous. induction records1 as [|r records1 IH]; intros; [done|].
  unfold replay_all. cbn [app replay_frames]. destruct (map_err _ _); cbn [res_bind]; [|done..].
  case_match; [done|]. apply IH.
Qed.

Lemma replay_frames_ok payloads state previous records :
  frames_ok payloads state previous → recovers payloads (length payloads) records →
  replay_all records authority_default (sha256_hex sha256 []) = Ok (state, previous).
Proof.
  intros Hok. revert records. induction Hok as [|payloads state previous payload frame Hok IH Hf Hv Hr Hs Hp];
    intros records [Hpay Hidx].
  { apply fmap_nil_inv in Hpay as ->. done. }
  rewrite take_ge in Hpay by done. rewrite length_app, Nat.add_1_r in Hidx.
  destruct records as [|record records _] using rev_ind; [by destruct payloads|].
  rewrite fmap_app in Hpay. rewrite fmap_app in Hidx. apply app_inj_tail in Hpay as [Hpay Hlast].
  rewrite indices_snoc in Hidx. apply app_inj_tail in Hidx as [Hidx Hilast].
  rewrite replay_frames_app, IH by (split; [by rewrite take_ge|done]).
  cbn. rewrite Hlast, Hf. cbn. rewrite Hv, Hr, Hs, Hp, Hilast.
  rewrite !N.eqb_refl, bool_decide_true by done. done.
Qed.

(** ** The authority between requests *)
Record authority_ok (a : LocalDurableAuthority) (payloads : list bytes) : Prop := {
  ao_files : la_wal a = {| wal_files := replicate 3 (log_file sha256 payloads); wal_quorum := 2 |};
  ao_log : log_ok payloads;
  ao_frames : frames_ok payloads (la_state a) (la_previous_payload_sha256 a);
  ao_durable : la_ram_only a = false;
}.

Lemma wal_inv_ok a payloads :
  authority_ok a payloads → wal_inv sha256 payloads (length payloads) (la_wal a) (replicate 3 (length payloads)).
Proof.
  intros [-> Hlog _ _]. split; cbn; [done|apply (holds_all sha256 payloads 3)|lia|]. intros i Hi. pose proof (held_all 3 (length payloads) i Hi). cbn in *. lia.
Qed.

(** Recovery of a log whose first [acked] records a quorum holds. *)
Lemma reopen_inv log acked w ks :
  wal_inv sha256 log acked w ks → acked ≤ length log →
  ∃ q rec, recover sha256 w = Ok rec ∧ recovers log q (rc_records rec) ∧ acked ≤ q ≤ length log.
Proof.
  intros [Hlog Hh [Hpos Hle] Hack] Hacked.
  destruct (quorum_prefix_exists (wal_quorum w) ks Hpos) as [q Hq].
  destruct (recover_holds sha256 sha256_len log w ks q Hlog Hh Hpos Hq) as (rec&Hrec&Hr&_&Hql).
  exists q, rec. split_and!; [done|done| |done].
  destruct acked as [|n]; [lia|]. apply Hq. apply Hack. lia.
Qed.

Lemma reopen_log log state previous w q rec :
  recover sha256 w = Ok rec → recovers log q (rc_records rec) → q ≤ length log →
  frames_ok (take q log) state previous →
  reopen w false = Ok {| la_wal := w; la_state := state; la_previous_payload_sha256 := previous;
                         la_ram_only := false |}.
Proof.
  intros Hrec [Hp Hi] Hq Hok. unfold reopen, authority_open. rewrite Hrec. cbn [map_err res_bind].
  assert (Hlen : length (take q log) = q) by (rewrite length_take; lia).
  pose proof (replay_frames_ok _ _ _ (rc_records rec) Hok) as Hrep. unfold replay_all in Hrep.
  rewrite Hrep; [done|]. unfold recovers. rewrite Hlen. by rewrite take_take, Nat.min_id.
Qed.

Lemma reopen_ok a payloads : authority_ok a payloads → reopen (la_wal a) false = Ok a.
Proof.
  intros Hok. assert (Hinv := wal_inv_ok a payloads Hok).
  destruct (reopen_inv _ _ _ _ Hinv) as (q&rec&Hrec&Hr&Hq); [done|].
  assert (q = length payloads) as -> by lia.
  rewrite (reopen_log payloads (la_state a) (la_previous_payload_sha256 a) _ _ _ Hrec Hr); [|done|].
  - destruct Hok as [_ _ _ Hd]. destruct a. cbn in *. by subst.
  - rewrite take_ge by done. apply Hok.
Qed.

Lemma open_ok w a : wal_open 3 2 = Ok w → reopen w false = Ok a → authority_ok a [].
Proof.
  intros [= <-] Ho.
  assert (Hok : authority_ok {| la_wal := {| wal_files := replicate 3 []; wal_quorum := 2 |};
    la_state := authority_default; la_previous_payload_sha256 := sha256_hex sha256 [];
    la_ram_only := false |} []).
  { split; cbn; [done|by split; [constructor|]|constructor|done]. }
  pose proof (reopen_ok _ _ Hok) as Heq. cbn [la_wal] in Heq.
  change (reopen {| wal_files := replicate 3 []; wal_quorum := 2 |} false = Ok a) in Ho.
  rewrite Heq in Ho. by injection Ho as <-.
Qed.

(** ** One request *)

Lemma transition_revision state req cmd state' o :
  authority_transition state req cmd = Ok (state', o) →
  as_revision state' = saturating_add (as_revision state) 1 ∧ as_request_outcomes state' !! req = Some o.
Proof.
  unfold authority_transition. intros H. apply res_bind_Ok in H as ([next outcome]&Happ&[= <- <-]).
  cbn. split; [|apply lookup_insert_eq].
  destruct cmd; cbn in Happ; repeat case_match; by simplify_eq/=.
Qed.

(** The frame of a transition extends the chain. *)
Lemma frame_snoc a payloads next payload :
  authority_ok a payloads → as_revision next = (N.of_nat (length payloads) + 1)%N →
  frame_to_vec {| af_format_version := AUTHORITY_FORMAT_VERSION; af_revision := as_revision next;
                  af_previous_payload_sha256 := la_previous_payload_sha256 a; af_state := next |} = Ok payload →
  frames_ok (payloads ++ [payload]) next (sha256_hex sha256 payload).
Proof.
  intros Hok Hrev Hvec%json_round_trip.
  apply (frames_snoc payloads (la_state a) _ payload _ (ao_frames _ _ Hok) Hvec); done.
Qed.

Lemma acknowledged_attempted r : acknowledged r = true → attempted r = true.
Proof. by destruct r as [o|[]|]. Qed.

(** An append of the next frame, whatever the disk answers. *)
Lemma append_reopens a payloads next payload io w r :
  authority_ok a payloads → (N.of_nat (length payloads) + 1 < U64_MAX)%N →
  frames_ok (payloads ++ [payload]) next (sha256_hex sha256 payload) →
  wal_append sha256 (la_wal a) (N.of_nat (length payloads) + 1) payload [0; 1; 2] io = (w, r) →
  ∃ a2, reopen w false = Ok a2 ∧
    (la_state a2 = next ∨ (la_state a2 = la_state a ∧ acknowledged r = false)).
Proof.
  intros Hok Hlt Hnext Happ. assert (Hinv := wal_inv_ok _ _ Hok).
  assert (Hsel : ∀ id, id ∈ [0; 1; 2] → wal_files (la_wal a) !! id = Some (log_file sha256 payloads)).
  { rewrite (ao_files _ _ Hok). intros id Hid. cbn [wal_files]. apply lookup_replicate. split; [done|].
    rewrite !elem_of_cons in Hid. destruct Hid as [->|[->|[->|[]%not_elem_of_nil]]]; lia. }
  destruct (append_inv sha256 sha256_len _ _ _ _ _ _ _ _ _ Hinv Hlt Hsel Happ) as [ks' Hinv'].
  destruct (reopen_inv _ _ _ _ Hinv') as (q&rec&Hrec&Hr&Hq1&Hq2).
  { destruct (acknowledged r) eqn:Hack; [rewrite (acknowledged_attempted _ Hack)|destruct (attempted r)];
      rewrite ?length_app; cbn; lia. }
  destruct (decide (q = length payloads)) as [->|Hne].
  - assert (Hack : acknowledged r = false) by (destruct (acknowledged r); [lia|done]).
    eexists. split; [|right; split; [|exact Hack]].
    + apply (reopen_log _ (la_state a) (la_previous_payload_sha256 a) _ _ _ Hrec Hr Hq2).
      destruct (attempted r); rewrite ?take_app_length, ?take_ge by done; apply Hok.
    + done.
  - assert (Hatt : attempted r = true ∧ q = length (payloads ++ [payload])).
    { destruct (attempted r) eqn:E; cycle 1.
      { destruct (acknowledged r) eqn:E'; [by rewrite (acknowledged_attempted _ E') in E|lia]. }
      split; [done|]. rewrite length_app in *. cbn in *. destruct (acknowledged r); lia. }
    destruct Hatt as [Hatt ->]. rewrite Hatt in *. eexists. split.
    + apply (reopen_log _ next (sha256_hex sha256 payload) _ _ _ Hrec Hr Hq2). by rewrite take_ge.
    + by left.
Qed.

Lemma persist_reopens a payloads next io a' r :
  authority_ok a payloads → as_revision next = (N.of_nat (length payloads) + 1)%N →
  (N.of_nat (length payloads) + 1 < U64_MAX)%N →
  persist_frame sha256 wal_error_text frame_to_vec a next io = (a', r) →
  la_state a' = la_state a ∧ la_ram_only a' = false ∧
  ∃ a2, reopen (la_wal a') false = Ok a2 ∧
    (la_state a2 = next ∨ (la_state a2 = la_state a ∧ r ≠ Ok tt)).
Proof.
  intros Hok Hrev Hlt. unfold persist_frame.
  destruct (frame_to_vec _) as [payload|e|] eqn:Hvec; cbn [map_err];
    [|intros [= <- <-]; split; [done|]; split; [apply Hok|]; exists a; split; [by eapply reopen_ok|by right]..].
  assert (Hnext := frame_snoc _ _ _ _ Hok Hrev Hvec). rewrite Hrev.
  destruct (wal_append _ _ _ _ _ _) as [w r0] eqn:Happ.
  destruct (append_reopens _ _ _ _ _ _ _ Hok Hlt Hnext Happ) as (a2&Ha2&Hst).
  assert (Hd := ao_durable _ _ Hok). destruct a as [wal0 st prev ram]. cbn in *. subst ram.
  destruct r0 as [o|e|]; cbn [map_err acknowledged] in *; [destruct (ao_quorum_durable o) eqn:Eq; cbn [negb]|..];
    intros [= <- <-]; (split; [done|]); (split; [done|]); exists a2; (split; [done|]); naive_solver.
Qed.

Lemma transition_err state req cmd e :
  authority_transition state req cmd = Err e → e ≠ AuthUnknownOutcome.
Proof.
  unfold authority_transition. intros H -> . destruct cmd; cbn in H; repeat case_match; by simplify_eq/=.
Qed.

Lemma persist_err a next io a' e :
  persist_frame sha256 wal_error_text frame_to_vec a next io = (a', Err e) → e ≠ AuthUnknownOutcome.
Proof.
  unfold persist_frame. intros H ->. destruct (frame_to_vec _); cbn [map_err] in H; [|by simplify_eq..].
  destruct (wal_append _ _ _ _ _ _) as [w [o|e|]]; cbn [map_err] in H; repeat case_match; by simplify_eq/=.
Qed.

(** The request failed, and some of its bytes are on a replica. *)
Definition left_traces (a a' : LocalDurableAuthority) {A} (r : res AuthorityError A) : bool :=
  match r with
  | Err (AuthWal _) => negb (bool_decide (wal_files (la_wal a') = wal_files (la_wal a)))
  | _ => false
  end.

Lemma write_all_ok files frame io files' :
  write_selected files frame io [0; 1; 2] = (files', true) →
  write_selected files frame (λ _, None) [0; 1; 2] = (files', true).
Proof. cbn. repeat case_match; by intros [= <-]. Qed.

(** A frame is on all three replicas, or on none unless it left traces. *)
Lemma persist_ok a payloads next io a' r :
  authority_ok a payloads → as_revision next = (N.of_nat (length payloads) + 1)%N →
  (N.of_nat (length payloads) + 1 < U64_MAX)%N →
  persist_frame sha256 wal_error_text frame_to_vec a next io = (a', r) → left_traces a a' r = false →
  a' = a ∧ r ≠ Ok tt ∨
  r = Ok tt ∧ ∃ payload, frames_ok (payloads ++ [payload]) next (la_previous_payload_sha256 a') ∧
    la_wal a' = {| wal_files := replicate 3 (log_file sha256 (payloads ++ [payload])); wal_quorum := 2 |} ∧
    log_ok (payloads ++ [payload]) ∧ la_ram_only a' = la_ram_only a.
Proof.
  intros Hok Hrev Hlt. unfold persist_frame.
  destruct (frame_to_vec _) as [payload|e|] eqn:Hvec; cbn [map_err]; [|intros [= <- <-]; by left..].
  assert (Hnext := frame_snoc _ _ _ _ Hok Hrev Hvec). rewrite Hrev.
  destruct (wal_append _ _ _ _ _ _) as [w r0] eqn:Happ. destruct Hok as [Hf Hlog _ _].
  apply (wal_append_cases sha256 sha256_len) in Happ as [(->&e&->&_)|(Hp&_&files&ok&Hw&->&->)]; [..|lia].
  { cbn [map_err]. intros [= <- <-]. left. destruct a. done. }
  destruct ok; cycle 1.
  { cbn [map_err]. intros [= <- <-] Ht. left. split; [|done]. cbn in Ht.
    apply negb_false_iff, bool_decide_eq_true in Ht. destruct a as [[]]. cbn in *.
    by rewrite Ht. }
  apply write_all_ok in Hw.
  rewrite Hf in Hw |- *. cbn in Hw. injection Hw as <-. cbn [map_err ao_quorum_durable].
  intros [= <- <-] _. right. split; [done|]. exists payload. cbn. split_and!; [done| |split|done].
  - by rewrite log_file_snoc.
  - apply Forall_app. split; [apply Hlog|by constructor].
  - rewrite length_app. cbn. lia.
Qed.

Lemma apply_ok a payloads req cmd lose io a' r :
  authority_ok a payloads → (as_revision (la_state a) + 1 < U64_MAX)%N →
  apply_with a req cmd lose io = (a', r) → left_traces a a' r = false →
  ∃ payloads', authority_ok a' payloads'.
Proof.
  intros Hok Hlt. assert (Hrev := frames_revision _ _ _ (ao_frames _ _ Hok)). rewrite Hrev in Hlt.
  unfold apply_with, authority_apply. destruct (as_request_outcomes (la_state a) !! req).
  { intros [= <- <-]. eauto. }
  destruct (authority_transition (la_state a) req cmd) as [[next o]|e|] eqn:Htr; [|intros [= <- <-]; eauto..].
  apply transition_revision in Htr as [Hnext _]. rewrite Hrev, saturating_add_succ in Hnext by lia.
  rewrite (ao_durable _ _ Hok). destruct (persist_frame _ _ _ _ _ _) as [a1 r1] eqn:Hpers.
  intros Hr Ht. assert (left_traces a a1 r1 = false) as Ht1.
  { destruct r1 as [[]|e|]; [done|by injection Hr as <- <-|done]. }
  apply (persist_ok _ _ _ _ _ _ Hok Hnext Hlt) in Hpers as [[-> Hr1]|(->&payload&Hfr&Hw&Hlog&Hram)]; [..|done].
  - destruct r1 as [[]|e|]; [done|injection Hr as <- <-; eauto..].
  - rewrite (ao_durable _ _ Hok) in Hram. destruct a1. cbn in *.
    injection Hr as <- <-. exists (payloads ++ [payload]). by split.
Qed.

(** The states an authority reaches from a fresh directory by requests, the disk
    answering each in any way, and by being reopened. The flag says whether some
    request failed with bytes of it left on a replica. *)
Inductive authority_run : bool → LocalDurableAuthority → Prop :=
  | run_fresh w a : wal_open 3 2 = Ok w → reopen w false = Ok a → authority_run false a
  | run_request traces a req cmd lose io a' r :
      authority_run traces a → (as_revision (la_state a) + 1 < U64_MAX)%N →
      apply_with a req cmd lose io = (a', r) → authority_run (traces || left_traces a a' r) a'
  | run_reopened traces a a' :
      authority_run traces a → reopen (la_wal a) false = Ok a' → authority_run traces a'.

Lemma authority_run_ok traces a :
  authority_run traces a → traces = false → ∃ payloads, authority_ok a payloads.
Proof.
  induction 1 as [w a Hw Ho|traces a req cmd lose io a' r _ IH Hlt Happ|traces a a' _ IH Ho]; intros Ht.
  - exists []. by eapply open_ok.
  - apply orb_false_iff in Ht as [Ht Hl]. destruct (IH Ht) as [payloads Hok]. by eapply apply_ok.
  - destruct (IH Ht) as [payloads Hok]. rewrite (reopen_ok _ _ Hok) in Ho. injection Ho as <-. eauto.
Qed.

Lemma request_atomic a req cmd lose io a' r :
  authority_run false a → (as_revision (la_state a) + 1 < U64_MAX)%N →
  apply_with a req cmd lose io = (a', r) →
  ∃ a2, reopen (la_wal a') false = Ok a2 ∧
    (la_state a2 = la_state a ∨ ∃ o, authority_transition (la_state a) req cmd = Ok (la_state a2, o)) ∧
    (∀ o, r = Ok o → authority_resolve a2 req = Some o) ∧
    (r = Err AuthUnknownOutcome → is_Some (authority_resolve a2 req)).
Proof.
  intros [payloads Hok]%authority_run_ok Hlt; [|done]. unfold apply_with, authority_apply.
  assert (Hrev := frames_revision _ _ _ (ao_frames _ _ Hok)). rewrite Hrev in Hlt.
  assert (Hsame : ∀ r, (∀ o, r = Ok o → authority_resolve a req = Some o) → r ≠ Err AuthUnknownOutcome →
    ∃ a2, reopen (la_wal a) false = Ok a2 ∧
    (la_state a2 = la_state a ∨ ∃ o, authority_transition (la_state a) req cmd = Ok (la_state a2, o)) ∧
    (∀ o, r = Ok o → authority_resolve a2 req = Some o) ∧
    (r = Err AuthUnknownOutcome → is_Some (authority_resolve a2 req))).
  { intros r0 Ho He. exists a. split; [by eapply reopen_ok|]. split; [by left|]. done. }
  destruct (as_request_outcomes (la_state a) !! req) as [o|] eqn:Hreq.
  { intros [= <- <-]. apply Hsame; [|done]. by intros ? [= <-]. }
  destruct (authority_transition (la_state a) req cmd) as [[next o]|e|] eqn:Htr; cycle 1.
  { intros [= <- <-]. apply Hsame; [done|]. intros [= ->]. by apply transition_err in Htr. }
  { intros [= <- <-]. by apply Hsame. }
  destruct (transition_revision _ _ _ _ _ Htr) as [Hnext Hout]. rewrite Hrev, saturating_add_succ in Hnext by lia.
  rewrite (ao_durable _ _ Hok). destruct (persist_frame _ _ _ _ _ _) as [a1 r1] eqn:Hpers.
  destruct (persist_reopens _ _ _ _ _ _ Hok Hnext Hlt Hpers) as (Hst&_&a2&Ha2&Hcase).
  assert (Hresolve : la_state a2 = next → authority_resolve a2 req = Some o).
  { intros Ha. unfold authority_resolve. by rewrite Ha. }
  destruct r1 as [[]|e|]; intros [= <- <-]; exists a2; (split; [done|]).
  - destruct Hcase as [Ha|[_ ?]]; [|done]. split; [right; exists o; by rewrite Ha|].
    destruct lose; naive_solver.
  - split; [destruct Hcase as [->|[-> _]]; eauto|]. split; [done|]. intros [= ->].
    by apply persist_err in Hpers.
  - split; [destruct Hcase as [->|[-> _]]; eauto|]. done.
Qed.
End durable.

(** C27. The publication authority is atomic, and durable until a request fails
    part-way. Take any state it reaches from a fresh directory by requests, the disk
    answering each write in any way, and by reopening, in which no earlier request
    failed with some of its bytes left on a replica. The next request, whose writes
    succeed, fail or tear on each replica, leaves a log that reopens to the state
    before the request or to the state after it; after an acknowledged request, or
    one whose response was lost, the outcome is found again under its request id. *)
Theorem authority_request_atomic sha256 wal_error_text frame_to_vec frame_from_slice
    (Hsha : digest_len sha256)
    (Hjson : ∀ frame payload, frame_to_vec frame = Ok payload → frame_from_slice payload = Ok frame)
    a req cmd lose io a' r
    (Hrun : authority_run sha256 wal_error_text frame_to_vec frame_from_slice false a)
    (Hrev : (as_revision (la_state a) + 1 < U64_MAX)%N)
    (Happ : authority_apply sha256 wal_error_text frame_to_vec a req cmd lose io = (a', r)) :
  ∃ a2, authority_open sha256 wal_error_text frame_from_slice (la_wal a') false = Ok a2 ∧
    (la_state a2 = la_state a ∨ ∃ o, authority_transition (la_state a) req cmd = Ok (la_state a2, o)) ∧
    (∀ o, r = Ok o → authority_resolve a2 req = Some o) ∧
    (r = Err AuthUnknownOutcome → is_Some (authority_resolve a2 req)).
Proof. by eapply (request_atomic sha256 Hsha wal_error_text frame_to_vec frame_from_slice Hjson). Qed.

(** *** Pins whose third replica tears *)
Module demo_authority.
Definition manifest : ObjectReference :=
  {| ref_kind := KindManifest; ref_key := "objects/manifest/m"; ref_length := 1; ref_sha256 := "m" |}.
Definition fresh : LocalDurableAuthority :=
  {| la_wal := {| wal_files := replicate 3 []; wal_quorum := 2 |}; la_state := authority_default;
     la_previous_payload_sha256 := sha256_hex prefix_digest []; la_ram_only := false |}.
Definition pinned (pin_id : string) (state : AuthorityState) : AuthorityState :=
  match authority_transition state pin_id (CmdPin pin_id manifest) with
  | Ok (next, _) => next
  | _ => state
  end.
Definition pin_frame (previous : bytes) (state : AuthorityState) : AuthorityFrame :=
  {| af_format_version := 1; af_revision := as_revision state;
     af_previous_payload_sha256 := sha256_hex prefix_digest previous; af_state := state |}.
(** A codec that knows three frames: two first ones, and one after the first. *)
#[global] Instance AuthorityFrame_eq_dec : EqDecision AuthorityFrame.
Proof. solve_decision. Defined.
Definition frame1 : AuthorityFrame := pin_frame [] (pinned "one" authority_default).
Definition frame2 : AuthorityFrame := pin_frame [] (pinned "two" authority_default).
Definition frame12 : AuthorityFrame := pin_frame [7%N] (pinned "two" (pinned "one" authority_default)).
Definition to_vec (f : AuthorityFrame) : res string bytes :=
  if bool_decide (f = frame1) then Ok [7%N]
  else if bool_decide (f = frame2) then Ok [8%N]
  else if bool_decide (f = frame12) then Ok [9%N]
  else Err "unknown frame"%string.
Definition from_slice (p : bytes) : res string AuthorityFrame :=
  match p with
  | [7%N] => Ok frame1
  | [8%N] => Ok frame2
  | [9%N] => Ok frame12
  | _ => Err "unknown payload"%string
  end.
Lemma from_slice_to_vec f p : to_vec f = Ok p → from_slice p = Ok f.
Proof.
  unfold to_vec. repeat case_bool_decide; try done; intros [= <-]; cbn; by subst f.
Qed.

Definition torn (id : nat) : option nat := if id =? 2 then Some 3 else None.
Definition request_pin (a : LocalDurableAuthority) (pin_id : string) :=
  authority_apply prefix_digest (λ _, "wal"%string) to_vec a pin_id (CmdPin pin_id manifest) false.
Definition reopens (a : LocalDurableAuthority) :=
  authority_open prefix_digest (λ _, "wal"%string) from_slice (la_wal a) false.
Definition one := request_pin fresh "one" (λ _, None).
Definition then_torn := request_pin one.1 "two" torn.
Definition one_torn := request_pin fresh "one" torn.
Definition then_two := request_pin one_torn.1 "two" (λ _, None).

Lemma one_run : authority_run prefix_digest (λ _, "wal"%string) to_vec from_slice false one.1.
Proof.
  apply (run_request _ _ _ _ false fresh "one" (CmdPin "one" manifest) false (λ _, None) one.1 one.2).
  - apply (run_fresh _ _ _ _ {| wal_files := replicate 3 []; wal_quorum := 2 |}); vm_compute; reflexivity.
  - vm_compute. reflexivity.
  - exact (surjective_pairing one).
Qed.
End demo_authority.
Import demo_authority.

Lemma authority_request_atomic_witness :
  ∃ a2, reopens then_torn.1 = Ok a2 ∧
    (la_state a2 = la_state one.1 ∨
     ∃ o, authority_transition (la_state one.1) "two" (CmdPin "two" manifest) = Ok (la_state a2, o)).
Proof.
  destruct (authority_request_atomic prefix_digest (λ _, "wal"%string) to_vec from_slice prefix_digest_len
    from_slice_to_vec one.1 "two" (CmdPin "two" manifest) false torn then_torn.1 then_torn.2 one_run
    ltac:(vm_compute; reflexivity) ltac:(exact (surjective_pairing then_torn))) as (a2&Ho&Hst&_).
  exact (ex_intro _ a2 (conj Ho Hst)).
Defined.

(** A request that failed part-way takes a later, acknowledged one with it. The
    authority goes on from the state it has in memory and writes the next frame
    with the same index behind the failed one, so that the log reopens to the
    request that failed and not to the one that was acknowledged. *)
Lemma acknowledged_after_failure_lost :
  one_torn.2 = Err (AuthWal "wal") ∧ then_two.2 = Ok OutcomeApplied ∧
  match reopens then_two.1 with
  | Ok a2 => authority_resolve a2 "one" = Some OutcomeApplied ∧ authority_resolve a2 "two" = None
  | _ => False
  end.
Proof. vm_compute. split_and!; reflexivity. Qed.
