(* ===== verification/AdapterSweep.v ===== *)
(** * Marking and sweeping the object store

    The mark of [PubAdapter.v] reaches everything the roots and pins refer to, and a
    sweep from it keeps every readable root readable, while other clients create
    objects and the authority moves on between the mark and the sweep. Two gaps
    are shown by runs: an intent that hides the closure of a published manifest,
    and a pin that ignores a live reservation. *)

From coqutil Require Import Datatypes.RecordSetters.
From stdpp Require Import pretty.
From S2P Require Import Prelude Order BTree Bytes Wal ObjStore ObjStoreRuns PubAdapter.

Section sweep.
Context {S : Type} (sha256 : bytes → bytes) (b : Backend S).
Context (manifest_from_slice : bytes → res string PhysicalManifest).

(** ** References over a store *)
Definition resolves (m : objects_map) (r : ObjectReference) (children : list ObjectReference) : Prop :=
  ∃ data rev, m !! ref_key r = Some (data, rev) ∧ sha256_hex sha256 data = ref_sha256 r ∧
    byte_len data = ref_length r ∧ manifest_children manifest_from_slice r data = Ok children.

Definition child (m : objects_map) (r r' : ObjectReference) : Prop :=
  ∃ children, resolves m r children ∧ r' ∈ children.

(** Everything a reference leads to is stored with the bytes it names. *)
Definition readable (m : objects_map) (r : ObjectReference) : Prop :=
  ∀ r', rtc (child m) r r' → ∃ children, resolves m r' children.

Lemma resolves_mono m m' r cs :
  (∀ x, m !! ref_key r = Some x → m' !! ref_key r = Some x) → resolves m r cs → resolves m' r cs.
Proof. intros Hm (data&rev&H&?). exists data, rev. split; [by apply Hm|done]. Qed.

Lemma resolves_fun m r cs cs' : resolves m r cs → resolves m r cs' → cs = cs'.
Proof. intros (d&rev&?&_&_&?) (d'&rev'&?&_&_&?). simplify_eq. congruence. Qed.

(** A store that keeps the closure of a readable reference keeps it readable. *)
Lemma readable_kept (kept : string → Prop) m m' r :
  readable m r → (∀ r', rtc (child m) r r' → kept (ref_key r')) →
  (∀ k x, kept k → m !! k = Some x → m' !! k = Some x) → readable m' r.
Proof.
  intros Hread Hkeys Hm.
  assert (Hback : ∀ r', rtc (child m') r r' → rtc (child m) r r').
  { apply (rtc_ind_r (λ r', rtc (child m) r r') r); [constructor|]. intros x y _ Hxy' IH.
    eapply rtc_r; [exact IH|]. destruct Hxy' as (cs&Hcs&Hy). destruct (Hread x IH) as [cs' Hcs'].
    exists cs'. split; [done|]. rewrite (resolves_fun m' x cs' cs); [done| |done].
    eapply resolves_mono; [|exact Hcs']. intros ?. apply Hm. by apply Hkeys. }
  intros r' Hr'%Hback. destruct (Hread r' Hr') as [cs Hcs]. exists cs.
  eapply resolves_mono; [|exact Hcs]. intros ?. apply Hm. by apply Hkeys.
Qed.

Lemma readable_mono m m' r : m ⊆ m' → readable m r → readable m' r.
Proof.
  intros Hm Hread. apply (readable_kept (λ _, True) m); [done|done|].
  intros k x _ Hx. by eapply lookup_weaken.
Qed.

(** ** Walking *)
Context (env : relation objects_map) `{!PreOrder env} (objects : S → objects_map).
Context (Hlaw : lawful env b objects) (Henv : ∀ m m', env m m' → m ⊆ m').

Lemma read_grows r s s' res :
  read_full_verified sha256 b (ref_key r) None (ref_length r) (ref_sha256 r) s = (s', res) →
  objects s ⊆ objects s'.
Proof.
  intros (r0&Hget&_)%read_full_verified_inv.
  destruct (law_get _ _ _ Hlaw _ _ _ _ _ Hget) as (m1&?%Henv&_&?%Henv). by etrans.
Qed.

Lemma walk_grows fuel pending reachable s s' reachable' res :
  walk_closure sha256 b manifest_from_slice fuel pending reachable s = (s', (reachable', res)) →
  objects s ⊆ objects s' ∧ reachable ⊆ reachable'.
Proof.
  revert pending reachable s. induction fuel as [|fuel IH]; intros [|r pending] reachable s; cbn;
    try (intros [= <- <- <-]; done).
  case_bool_decide; [apply IH|]. intros Hw. apply io_bind_inv in Hw as (s1&res1&Hread%read_grows&Hw).
  destruct res1 as [[data id]|e|]; cbn [map_err] in Hw;
    [|unfold io_ret in Hw; simplify_eq; split; [done|set_solver]..].
  destruct (manifest_children _ _ _) as [cs|e|];
    [|unfold io_ret in Hw; simplify_eq; split; [done|set_solver]..].
  apply IH in Hw as [??]. split; [by etrans|set_solver].
Qed.

Lemma mark_manifests_grows fuel manifests reachable s s' res :
  mark_manifests sha256 b manifest_from_slice fuel manifests reachable s = (s', res) → objects s ⊆ objects s'.
Proof.
  revert reachable s. induction manifests as [|r manifests IH]; intros reachable s; cbn.
  { by intros [= <- <-]. }
  intros Hw. apply io_bind_inv in Hw as (s2&[reachable2 res2]&Hwalk&Hw).
  destruct (walk_grows _ _ _ _ _ _ _ Hwalk) as [? _].
  destruct res2 as [[]|e|]; [|by injection Hw as <- <-..]. etrans; [done|]. by eapply IH.
Qed.

(** The references in use: each key is named by one of them. *)
Context (good : ObjectReference → Prop).
Context (good_key : ∀ r r', good r → good r' → ref_key r = ref_key r' → r = r').
(** The store when the sweep begins. *)
Context (m : objects_map) (good_child : ∀ r cs, good r → resolves m r cs → Forall good cs).

(** The references of the marked keys lead to marked keys or to the stack. *)
Definition marked_closed (reachable : gset string) (pending : list ObjectReference) : Prop :=
  ∀ r cs c, good r → ref_key r ∈ reachable → resolves m r cs → c ∈ cs →
    ref_key c ∈ reachable ∨ c ∈ pending.

Lemma read_resolves r s s' data id cs :
  read_full_verified sha256 b (ref_key r) None (ref_length r) (ref_sha256 r) s = (s', Ok (data, id)) →
  manifest_children manifest_from_slice r data = Ok cs → objects s' ⊆ m →
  resolves m r cs ∧ objects s ⊆ objects s'.
Proof.
  intros Hread Hcs Hm.
  pose proof (read_full_verified_inv _ _ _ _ _ _ _ _ _ Hread) as (r0&_&read&_&->&_&Hlen&_&_).
  apply (read_verified_stored sha256 b env objects Hlaw) in Hread as (m1&H1%Henv&H2%Henv&Hm1&Hsha&_).
  split; [|by etrans]. exists (br_bytes read), (oi_revision id). split_and!; try done.
  eapply lookup_weaken; [exact Hm1|]. by etrans.
Qed.

Lemma walk_marks fuel pending reachable s s' reachable' :
  walk_closure sha256 b manifest_from_slice fuel pending reachable s = (s', (reachable', Ok tt)) →
  objects s' ⊆ m → Forall good pending → marked_closed reachable pending →
  marked_closed reachable' [] ∧ (∀ r, r ∈ pending → ref_key r ∈ reachable').
Proof.
  revert pending reachable s. induction fuel as [|fuel IH]; intros [|r pending] reachable s; cbn;
    try (intros [= <- <-]; intros; split; [done|by intros ? ?%not_elem_of_nil]); try done.
  intros Hw Hm [Hr Hpending]%Forall_cons Hclosed. case_bool_decide as Hin.
  - assert (Hgrow := walk_grows _ _ _ _ _ _ _ Hw).
    apply IH in Hw as [Hc Hkeys]; [|done|done|].
    + split; [done|]. intros r' [->|?]%elem_of_cons; [set_solver|by apply Hkeys].
    + intros x cs c Hx Hxin Hres Hc. destruct (Hclosed x cs c Hx Hxin Hres Hc) as [?|[->|?]%elem_of_cons]; auto.
  - apply io_bind_inv in Hw as (s1&res1&Hread&Hw).
    destruct res1 as [[data id]|e|]; cbn [map_err] in Hw; [|done..].
    destruct (manifest_children _ _ _) as [cs|e|] eqn:Hcs; [|done..].
    assert (Hgrow := walk_grows _ _ _ _ _ _ _ Hw).
    destruct (read_resolves _ _ _ _ _ _ Hread Hcs) as [Hres _]; [by etrans; [apply Hgrow|]|].
    apply IH in Hw as [Hc Hkeys]; [|done| |].
    + split; [done|]. intros r' [->|?]%elem_of_cons; [set_solver|]. apply Hkeys, elem_of_app. by right.
    + apply Forall_app. split; [by eapply good_child|done].
    + intros x xs c Hx Hxin Hxs Hc. rewrite elem_of_union, elem_of_singleton in Hxin.
      destruct Hxin as [Heq|Hxin].
      * assert (x = r) as -> by by apply good_key. rewrite (resolves_fun _ _ _ _ Hxs Hres) in Hc.
        right. apply elem_of_app. by left.
      * destruct (Hclosed x xs c Hx Hxin Hxs Hc) as [?|[->|?]%elem_of_cons]; [set_solver|set_solver|].
        right. apply elem_of_app. by right.
Qed.

Lemma marked_closed_weaken reachable pending : marked_closed reachable [] → marked_closed reachable pending.
Proof. intros H r cs c Hr Hin Hres Hc. destruct (H r cs c Hr Hin Hres Hc) as [?|[]%not_elem_of_nil]. by left. Qed.

Lemma mark_manifests_closed fuel manifests reachable s s' reachable' :
  mark_manifests sha256 b manifest_from_slice fuel manifests reachable s = (s', (reachable', Ok true)) →
  objects s' ⊆ m → Forall good manifests → marked_closed reachable [] →
  objects s ⊆ objects s' ∧ marked_closed reachable' [] ∧ reachable ⊆ reachable' ∧
  (∀ r, r ∈ manifests → ref_key r ∈ reachable').
Proof.
  revert reachable s. induction manifests as [|r manifests IH]; intros reachable s; cbn.
  { intros [= <- <-] ? _ ?. split_and!; [done..|]. by intros ? ?%not_elem_of_nil. }
  intros Hw Hm [Hr Hms]%Forall_cons Hclosed. apply io_bind_inv in Hw as (s1&[reachable1 res1]&Hwalk&Hw).
  destruct res1 as [[]|e|]; [|done..].
  assert (Hg := walk_grows _ _ _ _ _ _ _ Hwalk). destruct Hg as [Hg1 Hg2].
  assert (Hgrow := mark_manifests_grows _ _ _ _ _ _ Hw).
  destruct (walk_marks _ _ _ _ _ _ Hwalk) as [Hc1 Hk1];
    [by etrans|by constructor|by apply marked_closed_weaken|].
  destruct (IH _ _ Hw Hm Hms Hc1) as (_&Hc&Hsub&Hkeys).
  split_and!; [by etrans|done|by etrans|]. intros x [->|?]%elem_of_cons; [|by apply Hkeys].
  apply Hsub, Hk1. by left.
Qed.

Lemma mark_closure fuel snapshot s s' mark :
  mark_snapshot sha256 b manifest_from_slice fuel snapshot s = (s', Ok mark) →
  mr_complete mark = true → objects s' ⊆ m → Forall good (ms_manifests snapshot) →
  marked_closed (ms_intent_objects snapshot) [] →
  mr_root_intent_epoch mark = ms_root_intent_epoch snapshot ∧
  ∀ manifest r, manifest ∈ ms_manifests snapshot → rtc (child m) manifest r → ref_key r ∈ mr_reachable mark.
Proof.
  unfold mark_snapshot. intros Hmark Hcomplete Hm Hgood Hclosed.
  apply io_bind_inv in Hmark as (s1&[reachable res]&Hw&Hmark).
  unfold io_ret in Hmark. destruct res as [complete|e|]; cbn [res_bind] in Hmark; simplify_eq/=.
  destruct (mark_manifests_closed _ _ _ _ _ _ Hw Hm Hgood Hclosed) as (_&Hc&_&Hkeys).
  split; [done|]. intros manifest r Hin Hr.
  assert (Hall : good r ∧ ref_key r ∈ reachable); [|apply Hall].
  rewrite Forall_forall in Hgood. revert r Hr.
  apply (rtc_ind_r (λ r, good r ∧ ref_key r ∈ reachable)); [auto|].
  intros x y _ (cs&Hcs&Hy) [Hx Hxin]. split.
  - pose proof (good_child _ _ Hx Hcs) as Hall. rewrite Forall_forall in Hall. by apply Hall.
  - destruct (Hc x cs y Hx Hxin Hcs Hy) as [?|[]%not_elem_of_nil]. done.
Qed.
End sweep.

(** ** The authority between the mark and the sweep *)
Section evolution.
Context (sha256 : bytes → bytes) (wal_error_text : WalError → string).
Context (frame_to_vec : AuthorityFrame → res string bytes).

Definition requested (a a' : LocalDurableAuthority) : Prop :=
  ∃ req cmd lose io r, authority_apply sha256 wal_error_text frame_to_vec a req cmd lose io = (a', r).

(** The roots, pins and intents are the same. *)
Definition same_graph (st st' : AuthorityState) : Prop :=
  as_roots st' = as_roots st ∧ as_pins st' = as_pins st ∧ as_intents st' = as_intents st.

Lemma transition_graph st req cmd st' o :
  authority_transition st req cmd = Ok (st', o) →
  (as_root_intent_epoch st' = as_root_intent_epoch st ∧ same_graph st st') ∨
  as_root_intent_epoch st' = saturating_add (as_root_intent_epoch st) 1.
Proof.
  unfold authority_transition. intros H. apply res_bind_Ok in H as ([next outcome]&Happ&[= <- <-]).
  destruct cmd; cbn in Happ; repeat case_match; simplify_eq/=; auto; left; by split_and!.
Qed.

Lemma apply_state a req cmd lose io a' r :
  authority_apply sha256 wal_error_text frame_to_vec a req cmd lose io = (a', r) →
  (la_state a' = la_state a ∧
     (∀ o, r = Ok o → as_request_outcomes (la_state a) !! req = Some o)) ∨
  (as_request_outcomes (la_state a) !! req = None ∧
   ∃ o, authority_transition (la_state a) req cmd = Ok (la_state a', o) ∧ (∀ o', r = Ok o' → o' = o)).
Proof.
  unfold authority_apply. destruct (as_request_outcomes (la_state a) !! req) as [o|] eqn:Hreq.
  { intros [= <- <-]. left. split; [done|]. by intros ? [= <-]. }
  destruct (authority_transition _ _ _) as [[next o]|e|] eqn:Htr; [|intros [= <- <-]; by left..].
  destruct (if la_ram_only a then _ else _) as [a1 r1] eqn:Hp.
  assert (Hst : la_state a1 = la_state a).
  { destruct (la_ram_only a); [by injection Hp as <- _|]. unfold persist_frame in Hp.
    destruct a. repeat case_match; by simplify_eq/=. }
  destruct r1 as [[]|e|]; intros [= <- <-]; [|by left..].
  right. split; [done|]. exists o. destruct a1. cbn in *. split; [done|]. destruct lose; naive_solver.
Qed.

Lemma requested_graph a a' :
  requested a a' → (as_root_intent_epoch (la_state a') < U64_MAX)%N →
  (as_root_intent_epoch (la_state a) < as_root_intent_epoch (la_state a'))%N ∨
  (as_root_intent_epoch (la_state a') = as_root_intent_epoch (la_state a) ∧
   same_graph (la_state a) (la_state a')).
Proof.
  intros (req&cmd&lose&io&r&[[Heq _]|(_&o&Htr&_)]%apply_state) Hlt.
  { right. rewrite Heq. done. }
  apply transition_graph in Htr as [?|Hep]; [by right|]. left. rewrite Hep in *. unfold saturating_add in *. lia.
Qed.

Lemma evolved_graph a a' :
  rtc requested a a' → (as_root_intent_epoch (la_state a') < U64_MAX)%N →
  (as_root_intent_epoch (la_state a) < as_root_intent_epoch (la_state a'))%N ∨
  (as_root_intent_epoch (la_state a') = as_root_intent_epoch (la_state a) ∧
   same_graph (la_state a) (la_state a')).
Proof.
  intros Hrun Hlt. revert a Hrun.
  apply (rtc_ind_l (λ a, (as_root_intent_epoch (la_state a) < as_root_intent_epoch (la_state a'))%N ∨
  (as_root_intent_epoch (la_state a') = as_root_intent_epoch (la_state a) ∧
   same_graph (la_state a) (la_state a')))); [by right|].
  intros x y Hxy _ IH. apply requested_graph in Hxy.
  - unfold same_graph in *. destruct IH as [?|[He (?&?&?)]], Hxy as [?|[He' (?&?&?)]]; [left; lia..|].
    right. split_and!; congruence.
  - destruct IH as [?|[He _]]; lia.
Qed.
End evolution.

(** ** One sweep *)
Section sweeping.
Context {S : Type} (sha256 : bytes → bytes) (b : Backend S).
Context (wal_error_text : WalError → string) (frame_to_vec : AuthorityFrame → res string bytes).
Context (disk : string → ReplicaId → option nat) (seed : N) (phase : string).
Context (env : relation objects_map) `{!PreOrder env} (objects : S → objects_map).
Context (Hlaw : lawful env b objects) (Henv : ∀ m m', env m m' → m ⊆ m').

Definition reserve_id (n : N) : string := request seed ("reserve-" +:+ (phase +:+ "-" +:+ pretty n)).
Definition retire_id (n : N) : string := request seed ("retire-" +:+ (phase +:+ "-" +:+ pretty n)).

Lemma reserve_id_inj n n' : reserve_id n = reserve_id n' → n = n'.
Proof. unfold reserve_id, request. intros H. by repeat apply (inj _) in H. Qed.

Lemma reserve_retire n n' : reserve_id n ≠ retire_id n'.
Proof. unfold reserve_id, retire_id, request. intros H. do 3 apply (inj _) in H. done. Qed.

(** No reservation from number [n] on has been requested. *)
Definition unrequested (a : LocalDurableAuthority) (n : N) : Prop :=
  ∀ i, (n ≤ i)%N → as_request_outcomes (la_state a) !! reserve_id i = None.

Lemma transition_outcomes st req cmd st' o :
  authority_transition st req cmd = Ok (st', o) →
  as_request_outcomes st' = <[req := o]> (as_request_outcomes st).
Proof.
  unfold authority_transition. intros H. apply res_bind_Ok in H as ([next outcome]&Happ&[= <- <-]).
  destruct cmd; cbn in Happ; repeat case_match; by simplify_eq/=.
Qed.

Lemma sweep_apply_outcomes a req cmd a' r req' :
  sweep_apply sha256 wal_error_text frame_to_vec disk a req cmd = (a', r) → req' ≠ req →
  as_request_outcomes (la_state a') !! req' = as_request_outcomes (la_state a) !! req'.
Proof.
  unfold sweep_apply. destruct (authority_apply _ _ _ _ _ _ _ _) as [a1 r1] eqn:Happ. intros [= <- <-] Hne.
  apply apply_state in Happ as [[-> _]|(_&o&Htr&_)]; [done|].
  rewrite (transition_outcomes _ _ _ _ _ Htr). by rewrite lookup_insert_ne.
Qed.

(** The epoch and the graph do not change. *)
Definition same_epoch (a a' : LocalDurableAuthority) : Prop :=
  as_root_intent_epoch (la_state a') = as_root_intent_epoch (la_state a) ∧ same_graph (la_state a) (la_state a').

Lemma same_epoch_refl a : same_epoch a a.
Proof. done. Qed.
#[local] Hint Resolve same_epoch_refl : core.

Lemma same_epoch_trans a a' a'' : same_epoch a a' → same_epoch a' a'' → same_epoch a a''.
Proof. unfold same_epoch, same_graph. intros (?&?&?&?) (?&?&?&?). split_and!; congruence. Qed.

Definition deletion_command (cmd : AuthorityCommand) : bool :=
  match cmd with CmdReserveDelete _ _ _ _ | CmdRetireDelete _ _ => true | _ => false end.

Lemma deletion_transition st req cmd st' o :
  deletion_command cmd = true → authority_transition st req cmd = Ok (st', o) →
  as_root_intent_epoch st' = as_root_intent_epoch st ∧ same_graph st st' ∧
  (∀ plan epoch key id, cmd = CmdReserveDelete plan epoch key id →
     epoch = as_root_intent_epoch st ∧ ∃ permit, o = OutcomeDeleteReserved permit ∧ dp_key permit = key).
Proof.
  unfold authority_transition. intros Hcmd H. apply res_bind_Ok in H as ([next outcome]&Happ&[= <- <-]).
  destruct cmd as [| | | |plan epoch key id|]; try done; cbn in Happ; repeat case_match; simplify_eq/=;
    (split; [done|]); (split; [by split_and!|]); intros ? ? ? ? [= <- <- <- <-].
  split; [|eauto]. by apply N.eqb_eq, negb_false_iff.
Qed.

Lemma sweep_apply_deletion a req cmd a' r :
  deletion_command cmd = true →
  sweep_apply sha256 wal_error_text frame_to_vec disk a req cmd = (a', r) →
  same_epoch a a' ∧
  (∀ plan epoch key id permit, cmd = CmdReserveDelete plan epoch key id →
     as_request_outcomes (la_state a) !! req = None → r = Ok (OutcomeDeleteReserved permit) →
     epoch = as_root_intent_epoch (la_state a) ∧ dp_key permit = key).
Proof.
  unfold sweep_apply. destruct (authority_apply _ _ _ _ _ _ _ _) as [a1 r1] eqn:Happ. intros Hcmd [= <- <-].
  apply apply_state in Happ as [[Hst Hold]|(_&o&Htr&Ho)].
  - split; [unfold same_epoch; by rewrite Hst|]. intros ? ? ? ? permit -> Hnone Hr.
    destruct r1 as [o|e|]; [|done..]. cbn in Hr. specialize (Hold o eq_refl). congruence.
  - apply (deletion_transition _ _ _ _ _ Hcmd) in Htr as (He&Hg&Hres). split; [done|].
    intros plan epoch key id permit -> _ Hr. destruct (Hres _ _ _ _ eq_refl) as (->&permit'&->&<-).
    split; [done|]. destruct r1 as [o|e|]; [|done..]. cbn in Hr. specialize (Ho o eq_refl). by simplify_eq.
Qed.

Lemma delete_reserved_grows permit s s' r :
  delete_reserved sha256 b permit s = (s', r) → delete (dp_key permit) (objects s) ⊆ objects s'.
Proof.
  intros H. apply (delete_reserved_exact sha256 b env objects Hlaw Henv) in H as (_&Hpt&_).
  by eapply delete_point_others.
Qed.

Lemma sweep_candidate_step references epoch n key a s a' s' r :
  unrequested a n →
  sweep_candidate sha256 b wal_error_text frame_to_vec disk references epoch seed phase n key a s = (a', s', r) →
  same_epoch a a' ∧ unrequested a' (n + 1) ∧
  (objects s ⊆ objects s' ∨
   (epoch = as_root_intent_epoch (la_state a) ∧ delete key (objects s) ⊆ objects s')).
Proof.
  intros Hun. unfold sweep_candidate.
  destruct (references !! key) as [reference|]; cycle 1.
  { intros [= <- <- <-]. split; [done|]. split; [|by left]. intros i Hi. apply Hun. lia. }
  destruct (get_full_verified _ _ _ _ _ _ _) as [s1 r1] eqn:Hget.
  apply (get_verified_mono sha256 b env objects Hlaw Henv) in Hget as [Hs1 _].
  assert (Hweak : unrequested a (n + 1)) by (intros i Hi; apply Hun; lia).
  destruct r1 as [found|e|]; [|intros [= <- <- <-]; by auto..]. cbv zeta.
  destruct (sweep_apply _ _ _ _ _ _ _) as [a1 r1] eqn:Hres.
  assert (Hd := Hres). apply sweep_apply_deletion in Hd as [Hsame Hpermit]; [|done].
  assert (Hun1 : unrequested a1 (n + 1)).
  { intros i Hi. rewrite (sweep_apply_outcomes _ _ _ _ _ _ Hres); [by apply Hweak|].
    intros Heq%reserve_id_inj. lia. }
  destruct r1 as [[|permit]|e|]; [intros [= <- <- <-]; by auto| |intros [= <- <- <-]; by auto..].
  destruct (Hpermit _ _ _ _ permit eq_refl) as [-> Hkey]; [by apply Hun|done|].
  destruct (delete_reserved _ _ _ _) as [s2 r2] eqn:Hdel.
  apply delete_reserved_grows in Hdel. rewrite Hkey in Hdel.
  assert (Hgrow : delete key (objects s) ⊆ objects s2) by (etrans; [by apply delete_mono|done]).
  destruct r2 as [o|e|]; [|intros [= <- <- <-]; by auto..].
  destruct (sweep_apply _ _ _ _ a1 _ _) as [a2 r2] eqn:Hret.
  assert (Hd := Hret). apply sweep_apply_deletion in Hd as [Hsame2 _]; [|done].
  assert (Hun2 : unrequested a2 (n + 1)).
  { intros i Hi. rewrite (sweep_apply_outcomes _ _ _ _ _ _ Hret); [by apply Hun1|]. apply reserve_retire. }
  assert (same_epoch a a2) by by eapply same_epoch_trans.
  destruct r2; intros [= <- <- <-]; by auto.
Qed.

Lemma sweep_loop_step references epoch candidates n a s a' s' r (keys : gset string) :
  (n + N.of_nat (length candidates) ≤ U64_MAX)%N → unrequested a n → (∀ k, k ∈ candidates → k ∉ keys) →
  sweep_loop sha256 b wal_error_text frame_to_vec disk references epoch seed phase candidates n a s
    = (a', s', r) →
  same_epoch a a' ∧
  (objects s ⊆ objects s' ∨
   (epoch = as_root_intent_epoch (la_state a) ∧
    ∀ k x, k ∈ keys → objects s !! k = Some x → objects s' !! k = Some x)).
Proof.
  revert n a s. induction candidates as [|key candidates IH]; intros n a s Hn Hun Hkeys; cbn.
  { intros [= <- <- <-]. auto. }
  destruct (sweep_candidate _ _ _ _ _ _ _ _ _ _ _ _ _) as [[a1 s1] r1] eqn:Hstep.
  destruct (sweep_candidate_step _ _ _ _ _ _ _ _ _ Hun Hstep) as (Hsame&Hun1&Hobj).
  assert (Hobj' : objects s ⊆ objects s1 ∨ (epoch = as_root_intent_epoch (la_state a) ∧
    ∀ k x, k ∈ keys → objects s !! k = Some x → objects s1 !! k = Some x)).
  { destruct Hobj as [?|[He Hdel]]; [by left|right]. split; [done|]. intros k x Hk Hx.
    eapply lookup_weaken; [|exact Hdel]. rewrite lookup_delete_ne; [done|]. intros ->.
    apply (Hkeys k); [by left|done]. }
  destruct r1 as [[]|e|]; [|intros [= <- <- <-]; auto..].
  cbn in Hn. rewrite saturating_add_succ by lia. intros Hloop.
  apply IH in Hloop as [Hsame2 Hobj2]; [|lia|done|by intros k Hk; apply Hkeys; right].
  split; [by eapply same_epoch_trans|]. destruct Hsame as [He _]. rewrite He in Hobj2.
  destruct Hobj' as [H1|[He1 H1]], Hobj2 as [H2|[He2 H2]]; [left; by etrans|right..];
    (split; [done|]); intros k x Hk Hx.
  - apply H2; [done|]. by eapply lookup_weaken.
  - eapply lookup_weaken; [by apply H1|done].
  - apply H2; [done|]. by apply H1.
Qed.
End sweeping.

Lemma snapshot_manifests a manifest :
  (∃ id, as_roots (la_state a) !! id = Some manifest ∨ as_pins (la_state a) !! id = Some manifest) →
  manifest ∈ ms_manifests (authority_snapshot a).
Proof.
  intros (id&Hid). cbn. apply elem_of_app. rewrite !list_elem_of_fmap.
  destruct Hid as [Hid%elem_of_bt_items|Hid%elem_of_bt_items]; [left|right]; by exists (id, manifest).
Qed.

Lemma same_graph_snapshot a a' :
  as_root_intent_epoch (la_state a') = as_root_intent_epoch (la_state a) →
  same_graph (la_state a) (la_state a') → authority_snapshot a' = authority_snapshot a.
Proof. intros He (Hr&Hp&Hi). unfold authority_snapshot. by rewrite He, Hr, Hp, Hi. Qed.

(** C14. A sweep keeps every root readable. Take a mark of the authority's roots,
    pins and intents over an object store, any requests to the authority after it,
    and a sweep from the mark, other clients creating objects all the while.
    Whatever the disk and the store answer, the sweep leaves the roots, pins and
    intents as they are, and each root or pin that could be read in full when the
    sweep began can be read in full after it. This needs that a key is named by one
    reference, that the objects named by intents refer only to objects named by
    intents, and that the reservations of this sweep have not been requested
    before. *)
Theorem sweep_keeps_roots_readable {S} sha256 (b : Backend S) manifest_from_slice wal_error_text
    frame_to_vec disk env objects
    (Hpre : PreOrder env) (Hlaw : lawful env b objects) (Henv : ∀ m m', env m m' → m ⊆ m')
    (good : ObjectReference → Prop) (Hkey : ∀ r r', good r → good r' → ref_key r = ref_key r' → r = r')
    fuel a0 s0 s1 mark a s references seed phase a' s' r
    (Hmark : mark_snapshot sha256 b manifest_from_slice fuel (authority_snapshot a0) s0 = (s1, Ok mark))
    (Hrequests : rtc (requested sha256 wal_error_text frame_to_vec) a0 a)
    (Hepoch : (as_root_intent_epoch (la_state a) < U64_MAX)%N)
    (Hcreated : objects s1 ⊆ objects s)
    (Hgood : Forall good (ms_manifests (authority_snapshot a)))
    (Hchild : ∀ x cs, good x → resolves sha256 manifest_from_slice (objects s) x cs → Forall good cs)
    (Hintents : marked_closed sha256 manifest_from_slice good (objects s)
                  (ms_intent_objects (authority_snapshot a)) [])
    (Hfresh : unrequested seed phase a 0)
    (Hlist : ∀ s2 l, list_candidates b "objects" s = (s2, Ok l) → (len l ≤ U64_MAX)%N)
    (Hsweep : sweep_root_graph_candidates sha256 b wal_error_text frame_to_vec disk references mark
                seed phase a s = (a', s', r)) :
  same_graph (la_state a) (la_state a') ∧
  ∀ manifest,
    (∃ id, as_roots (la_state a) !! id = Some manifest ∨ as_pins (la_state a) !! id = Some manifest) →
    readable sha256 manifest_from_slice (objects s) manifest →
    readable sha256 manifest_from_slice (objects s') manifest.
Proof.
  unfold sweep_root_graph_candidates in Hsweep. destruct (mr_complete mark) eqn:Hcomplete; cycle 1.
  { injection Hsweep as <- <- <-. done. }
  cbn [negb] in Hsweep. destruct (list_candidates b "objects" s) as [s2 r2] eqn:Hl.
  assert (Hs2 : objects s ⊆ objects s2) by (apply Henv; eapply law_list; [exact Hlaw|exact Hl]).
  destruct r2 as [candidates|e|];
    [|injection Hsweep as <- <- <-; split; [done|]; intros manifest _; by apply readable_mono..].
  apply (sweep_loop_step sha256 b wal_error_text frame_to_vec disk seed phase env objects Hlaw Henv
    _ _ _ _ _ _ _ _ _ (mr_reachable mark)) in Hsweep as [[_ Hsame] Hobj]; [|..|done|].
  2: { specialize (Hlist s2 candidates eq_refl). pose proof (filter_length_le
         (λ key, negb (bool_decide (key ∈ mr_reachable mark))) candidates). unfold len in Hlist. lia. }
  2: { intros k Hk%list_elem_of_In%filter_In. destruct Hk as [_ Hk%negb_true_iff%bool_decide_eq_false]. done. }
  split; [done|]. intros manifest Hroot Hread. destruct Hobj as [Hobj|[Hep Hobj]].
  { eapply readable_mono; [|exact Hread]. by etrans. }
  (* Something was deleted: the authority is as it was when marked. *)
  assert (Hme : mr_root_intent_epoch mark = as_root_intent_epoch (la_state a0)).
  { unfold mark_snapshot in Hmark. apply io_bind_inv in Hmark as (s3&[reachable res]&_&Hmark).
    unfold io_ret in Hmark. destruct res; by simplify_eq/=. }
  destruct (evolved_graph _ _ _ _ _ Hrequests Hepoch) as [?|[He Hgraph]]; [lia|].
  rewrite (same_graph_snapshot _ _ He Hgraph) in Hgood, Hintents.
  destruct (mark_closure sha256 b manifest_from_slice env objects Hlaw Henv good Hkey (objects s) Hchild
    _ _ _ _ _ Hmark Hcomplete Hcreated Hgood Hintents) as [_ Hclosure].
  apply (readable_kept _ _ (λ k, k ∈ mr_reachable mark) (objects s)); [done| |].
  - intros r' Hr'. eapply Hclosure; [|exact Hr']. rewrite <-(same_graph_snapshot _ _ He Hgraph).
    by apply snapshot_manifests.
  - intros k x Hk Hx. apply Hobj; [done|]. by eapply lookup_weaken.
Qed.

(** ** The walk ends *)
Section termination.
Context {S : Type} (sha256 : bytes → bytes) (b : Backend S).
Context (manifest_from_slice : bytes → res string PhysicalManifest).
Context (json_total : ∀ data, manifest_from_slice data ≠ Panic).
Context (objects : S → objects_map) (Hlaw : lawful (=) b objects).

(** How many references a stored object can add. *)
Definition fanout (m : objects_map) (k : string) : nat :=
  match m !! k with
  | Some (data, _) =>
      match manifest_from_slice data with Ok manifest => length (pm_children manifest) | _ => 0 end
  | None => 0
  end.

(** Enough fuel: the references on the stack and those still to be read. *)
Definition walk_fuel (m : objects_map) (pending : list ObjectReference) (reachable : gset string) : nat :=
  length pending + sum_list_with (fanout m) (elements (dom m ∖ reachable)).

Lemma fanout_children m r data rev cs :
  m !! ref_key r = Some (data, rev) → manifest_children manifest_from_slice r data = Ok cs →
  length cs ≤ fanout m (ref_key r).
Proof.
  intros Hm. unfold fanout, manifest_children. rewrite Hm. destruct (ref_kind r); [by intros [= <-]; cbn; lia|].
  destruct (manifest_from_slice data); cbn [map_err res_bind]; [|done..]. case_match; [done|]. by intros [= <-].
Qed.

Lemma walk_fuel_insert m k reachable :
  is_Some (m !! k) → k ∉ reachable →
  sum_list_with (fanout m) (elements (dom m ∖ reachable)) =
  fanout m k + sum_list_with (fanout m) (elements (dom m ∖ ({[k]} ∪ reachable))).
Proof.
  intros Hk%elem_of_dom Hn.
  assert (Hset : dom m ∖ reachable = {[k]} ∪ dom m ∖ ({[k]} ∪ reachable)).
  { apply set_eq. intros x. destruct (decide (x = k)); set_solver. }
  rewrite Hset at 1. rewrite elements_union_singleton by set_solver. done.
Qed.

Lemma walk_closure_total fuel pending reachable s :
  walk_fuel (objects s) pending reachable ≤ fuel →
  (walk_closure sha256 b manifest_from_slice fuel pending reachable s).2.2 ≠ Panic.
Proof.
  revert pending reachable s. induction fuel as [|fuel IH]; intros [|r pending] reachable s Hfuel; cbn; try done.
  { unfold walk_fuel in Hfuel. cbn in Hfuel. lia. }
  case_bool_decide as Hin.
  { apply IH. unfold walk_fuel in *. cbn in Hfuel. lia. }
  unfold io_bind. destruct (read_full_verified _ _ _ _ _ _ _) as [s1 r1] eqn:Hread.
  destruct r1 as [[data id]|e|]; cbn [map_err]; [|done|].
  - apply (read_verified_stored sha256 b (=) objects Hlaw) in Hread as (m&<-&Hs1&Hm&_).
    destruct (manifest_children _ _ _) as [cs|e|] eqn:Hcs; [|done|].
    + apply IH. rewrite <-Hs1. unfold walk_fuel in *. rewrite (walk_fuel_insert _ (ref_key r)) in Hfuel by eauto.
      pose proof (fanout_children _ _ _ _ _ Hm Hcs). rewrite length_app. cbn in Hfuel. lia.
    + exfalso. unfold manifest_children in Hcs. destruct (ref_kind r); [done|].
      destruct (manifest_from_slice data) eqn:E; cbn in Hcs; [by case_match|done|]. by apply json_total in E.
  - exfalso. apply read_full_verified_inv in Hread as (r0&Hget&->).
    destruct (law_get _ _ _ Hlaw _ _ _ _ _ Hget) as (?&_&?&_). done.
Qed.
End termination.

(** ** Runs *)
Module demo_sweep.
Definition data : bytes := [1%N].
Definition inner : bytes := [2%N].
Definition outer : bytes := [3%N].
Definition ref_data := content_reference prefix_digest KindData data.
Definition ref_inner := content_reference prefix_digest KindManifest inner.
Definition ref_outer := content_reference prefix_digest KindManifest outer.
(** [outer] refers to [inner], which refers to [data]. *)
Definition decode (b : bytes) : res string PhysicalManifest :=
  if bool_decide (b = inner) then Ok {| pm_format_version := 1; pm_children := [ref_data] |}
  else if bool_decide (b = outer) then Ok {| pm_format_version := 1; pm_children := [ref_inner] |}
  else Err "not a manifest"%string.

Definition put (r : ObjectReference) (b : bytes) (s : memory.Mem) : memory.Mem :=
  (put_if_absent prefix_digest memory.mem_backend (ref_key r) b s).1.
Definition store : memory.Mem :=
  put ref_outer outer (put ref_inner inner (put ref_data data demo_store.empty)).

Definition disk (_ : string) (_ : nat) : option nat := None.
Definition to_vec (_ : AuthorityFrame) : res string bytes := Ok [].
Definition ask (req : string) (cmd : AuthorityCommand) (a : LocalDurableAuthority)
  : LocalDurableAuthority * res AuthorityError AuthorityOutcome :=
  authority_apply prefix_digest (λ _, "wal"%string) to_vec a req cmd false (disk req).
Definition fresh : LocalDurableAuthority :=
  {| la_wal := {| wal_files := replicate 3 []; wal_quorum := 2 |}; la_state := authority_default;
     la_previous_payload_sha256 := ""; la_ram_only := false |}.
Definition references : gmap string ObjectReference :=
  {[ref_key ref_data := ref_data; ref_key ref_inner := ref_inner; ref_key ref_outer := ref_outer]}.
Definition mark_of (a : LocalDurableAuthority) (s : memory.Mem) : memory.Mem * res PubAdapterError MarkReceipt :=
  mark_snapshot prefix_digest memory.mem_backend decode 9 (authority_snapshot a) s.
Definition sweep (mark : MarkReceipt) (a : LocalDurableAuthority) (s : memory.Mem) :=
  sweep_root_graph_candidates prefix_digest memory.mem_backend (λ _, "wal"%string) to_vec disk references
    mark 7 "sweep" a s.
Definition walk (r : ObjectReference) (s : memory.Mem) : res PubAdapterError unit :=
  (walk_closure prefix_digest memory.mem_backend decode 9 [r] ∅ s).2.2.

(** [outer] is published as a root. *)
Definition published : LocalDurableAuthority :=
  (ask "publish" (CmdPublish "first" "main" ref_outer)
    (ask "prepare" (CmdPrepare "first" (publication_intent ref_outer [ref_inner])) fresh).1).1.
(** The same manifest is prepared again, for a second root. *)
Definition republishing : LocalDurableAuthority :=
  (ask "prepare-again" (CmdPrepare "second" (publication_intent ref_outer [ref_inner])) published).1.
Definition hidden_mark : MarkReceipt :=
  {| mr_root_intent_epoch := 3; mr_reachable := {[ref_key ref_outer; ref_key ref_inner]}; mr_complete := true |}.

(** With no root [data] is reserved, and [inner], which refers to it, is pinned. *)
Definition permit : DeletePermit :=
  {| dp_key := ref_key ref_data;
     dp_identity := {| oi_revision := memory.mem_token 0; oi_length := 1; oi_sha256 := ref_sha256 ref_data |};
     dp_plan_id := "plan"; dp_authority_revision := 1 |}.
Definition reserved := ask "reserve" (CmdReserveDelete "plan" 0 (ref_key ref_data) (dp_identity permit)) fresh.
Definition pinned := ask "pin" (CmdPin "backup" ref_inner) reserved.1.
End demo_sweep.
Import demo_sweep.

(** An intent hides the closure of a root. The mark starts from the keys that
    intents name and skips a manifest it has already marked, so when a published
    manifest is named by an intent its children are not walked. With a manifest of
    manifests, whose intent names two levels as [publication_intent] does, the mark
    is complete without the data, the sweep deletes the data, and the root that
    could be read cannot be read any more. *)
Theorem intent_hides_root_closure :
  as_roots (la_state republishing) = {["main"%string := ref_outer]} ∧
  (mark_of republishing store).2 = Ok hidden_mark ∧
  walk ref_outer store = Ok tt ∧
  (sweep hidden_mark republishing store).2 = Ok 1%N ∧
  walk ref_outer (sweep hidden_mark republishing store).1.2
    = Err (AdapterStore (store_error ClassNotFound "memory")).
Proof. vm_compute. split_and!; reflexivity. Qed.

(** A pin ignores a live reservation. Once an object is reserved for deletion a
    publication that names it is refused, but a pin of a manifest that refers to it
    is applied; the permitted delete then succeeds and the pinned manifest cannot be
    read. *)
Theorem pin_ignores_reservation :
  reserved.2 = Ok (OutcomeDeleteReserved permit) ∧
  pinned.2 = Ok OutcomeApplied ∧
  walk ref_inner store = Ok tt ∧
  (delete_reserved prefix_digest memory.mem_backend permit store).2 = Ok Deleted ∧
  walk ref_inner (delete_reserved prefix_digest memory.mem_backend permit store).1
    = Err (AdapterStore (store_error ClassNotFound "memory")).
Proof. vm_compute. split_and!; reflexivity. Qed.

Module demo_kept.
Definition orphan : bytes := [4%N].
Definition ref_orphan := content_reference prefix_digest KindData orphan.
Definition store' : memory.Mem := put ref_orphan orphan store.
Definition references' : gmap string ObjectReference := <[ref_key ref_orphan := ref_orphan]> references.
Definition mark : MarkReceipt :=
  {| mr_root_intent_epoch := 2; mr_reachable := {[ref_key ref_outer; ref_key ref_inner; ref_key ref_data]};
     mr_complete := true |}.
Definition swept :=
  sweep_root_graph_candidates prefix_digest memory.mem_backend (λ _, "wal"%string) to_vec disk references'
    mark 7 "sweep" published store'.
Definition known (r : ObjectReference) : Prop := r ∈ [ref_data; ref_inner; ref_outer].

Lemma known_key r r' : known r → known r' → ref_key r = ref_key r' → r = r'.
Proof.
  unfold known. rewrite !elem_of_cons. intros [->|[->|[->|[]%not_elem_of_nil]]] [->|[->|[->|[]%not_elem_of_nil]]];
    vm_compute; intros H; (reflexivity || discriminate H).
Qed.

Lemma known_child r cs :
  known r → resolves prefix_digest decode (memory.mem_objects store') r cs → Forall known cs.
Proof.
  unfold known. rewrite !elem_of_cons.
  intros [->|[->|[->|[]%not_elem_of_nil]]] (data&rev&Hm&_&_&Hcs); vm_compute in Hm; injection Hm as <- <-;
    vm_compute in Hcs; injection Hcs as <-; repeat constructor.
Qed.
End demo_kept.
Import demo_kept.

Lemma sweep_keeps_roots_readable_witness :
  swept.2 = Ok 1%N ∧
  (readable prefix_digest decode (memory.mem_objects store') ref_outer →
   readable prefix_digest decode (memory.mem_objects swept.1.2) ref_outer).
Proof.
  split; [vm_compute; reflexivity|].
  destruct (sweep_keeps_roots_readable prefix_digest memory.mem_backend decode (λ _, "wal"%string) to_vec disk (=)
    memory.mem_objects ltac:(split; [intros ?; done|intros ??? -> ->; done]) mem_lawful
    ltac:(intros ?? ->; done) known known_key 9 published store' store' mark published store' references' 7
    "sweep" swept.1.1 swept.1.2 swept.2) as [_ Hread].
  - vm_compute. reflexivity.
  - constructor.
  - vm_compute. reflexivity.
  - done.
  - apply Forall_forall. intros r Hr. vm_compute in Hr. apply list_elem_of_singleton in Hr as ->. right. right. left.
  - exact known_child.
  - intros r cs c _ Hin. vm_compute in Hin. done.
  - intros i _. assert (Hout : as_request_outcomes (la_state published) =
      <["publish"%string := OutcomeApplied]> {["prepare"%string := OutcomeApplied]}) by (vm_compute; reflexivity).
    rewrite Hout. unfold reserve_id, request.
    rewrite lookup_insert_ne, lookup_singleton_ne; [reflexivity|discriminate..].
  - intros s2 l Hl. vm_compute in Hl. injection Hl as <- <-. vm_compute. discriminate.
  - exact (eq_trans (surjective_pairing swept) (f_equal (λ p, (p, swept.2)) (surjective_pairing swept.1))).
  - apply Hread. exists "main"%string. left. vm_compute. reflexivity.
Defined.
