(* ===== verification/CommitSim.v ===== *)
(** * The commit contract

    The model that [okv-sim/src/commit.rs] runs its contract on: a transaction
    system that numbers requests, writes their envelopes to three replicas and
    rebuilds what it knows from them, and the scenario with its deliberately
    broken modes. Counters that overflow panic. SHA-256 and the [Debug] text of
    answers are parameters.

    The second half shows that in the correct mode an outcome is final: it
    survives recovery, retries get it back, and no other request shares its
    version ([commit_outcomes_final]). *)

From coqutil Require Import Datatypes.RecordSetters.
Import OCamlLikeNotations.
From S2P Require Import Prelude Order BTree Bytes Version Envelope EnvelopeCodec.
From S2P Require Import CellTypes CellCert.

Inductive CommitContractMode :=
  | CommitCorrect
  | RamOnlyDedup
  | AcceptConflictingRetry
  | AcceptPartialResolver
  | OmitRequiredLogTag
  | AcceptStaleGeneration
  | AckBeforeQuorum.
#[global] Instance CommitContractMode_eq_dec : EqDecision CommitContractMode.
Proof. solve_decision. Defined.

Definition commit_mode_id (mode : CommitContractMode) : string :=
  match mode with
  | CommitCorrect => "correct"
  | RamOnlyDedup => "ram_only_dedup"
  | AcceptConflictingRetry => "accept_conflicting_retry"
  | AcceptPartialResolver => "accept_partial_resolver"
  | OmitRequiredLogTag => "omit_required_log_tag"
  | AcceptStaleGeneration => "accept_stale_generation"
  | AckBeforeQuorum => "ack_before_quorum"
  end.

Definition COMMIT_QUORUM : nat := 2.

Inductive RejectReason := ConflictingRetry | MissingResolver | MissingLogTag | StaleGeneration.
Inductive CommitOutcome :=
  | Committed (version : Version)
  | Unknown
  | Unavailable
  | Rejected (reason : RejectReason).
#[global] Instance RejectReason_eq_dec : EqDecision RejectReason.
Proof. solve_decision. Defined.
#[global] Instance CommitOutcome_eq_dec : EqDecision CommitOutcome.
Proof. solve_decision. Defined.

(** [CommitCertificate::is_quorum], of the acknowledgers. *)
Definition is_quorum (acknowledgers : list N) : bool :=
  COMMIT_QUORUM <=? size (set_of (List.filter (λ id, id <? 3)%N acknowledgers)).

Record StoredRecord := {
  str_envelope : CommitEnvelope;
  str_acknowledgers : list N;
}.

(** The three replicas are a list. *)
Record CommitModel := {
  cm_mode : CommitContractMode;
  cm_active_generation : N;
  cm_next_sequence : N;
  cm_next_log_index : N;
  cm_previous_log_chain : bytes;
  cm_replicas : list (gmap N StoredRecord);
  cm_outcomes : gmap (bytes * N) (bytes * Version);
}.

Definition commit_model_new (mode : CommitContractMode) : CommitModel :=
  {| cm_mode := mode; cm_active_generation := 3; cm_next_sequence := 0; cm_next_log_index := 0;
     cm_previous_log_chain := replicate 32 0%N; cm_replicas := replicate 3 ∅; cm_outcomes := ∅ |}.

Definition cm_is (m : CommitModel) (mode : CommitContractMode) : bool :=
  bool_decide (cm_mode m = mode).

Definition request_key (q : CommitRequest) : bytes * N := (creq_client_id q, creq_request_id q).

(** The record goes to each replica that synced it and exists. *)
Definition store_record (replicas : list (gmap N StoredRecord)) (log_index : N)
    (record : StoredRecord) : list (gmap N StoredRecord) :=
  foldl (λ replicas id, alter (<[log_index := record]>) (N.to_nat id) replicas) replicas
    (str_acknowledgers record).

Section commit_model.
Context (sha256 : bytes → bytes).

(** The answer to a request that passed the checks. *)
Definition submit_new (m : CommitModel) (q : CommitRequest) (routed_tags fsynced_replicas : list N)
    (deliver_reply : bool) : CommitModel * res CommitCodecError CommitOutcome :=
  if (cm_next_sequence m =? U64_MAX)%N || (cm_next_log_index m =? U64_MAX)%N then (m, Panic)
  else
    let next_sequence := (cm_next_sequence m + 1)%N in
    let log_index := (cm_next_log_index m + 1)%N in
    let version := Version.from_parts (cm_active_generation m) next_sequence in
    match (let? envelope := envelope_new sha256 q version log_index (sort_dedup routed_tags)
                              (cm_previous_log_chain m) in
           let? encoded := envelope_encode envelope in Ok (envelope, encoded)) with
    | Ok (envelope, encoded) =>
        let record := {| str_envelope := envelope; str_acknowledgers := fsynced_replicas |} in
        let m := { m with cm_next_sequence := next_sequence; cm_next_log_index := log_index;
                          cm_previous_log_chain := sha256 encoded;
                          cm_replicas := store_record (cm_replicas m) log_index record } in
        if is_quorum fsynced_replicas
        then ({ m with cm_outcomes := <[request_key q := (fingerprint sha256 q, version)]>
                                        (cm_outcomes m) },
              Ok (if deliver_reply then Committed version else Unknown))
        else (m, Ok (if cm_is m AckBeforeQuorum then Committed version else Unavailable))
    | Err e => (m, Err e)
    | Panic => (m, Panic)
    end.

Definition submit (m : CommitModel) (q : CommitRequest)
    (accepted_resolvers routed_tags fsynced_replicas : list N) (deliver_reply : bool)
    : CommitModel * res CommitCodecError CommitOutcome :=
  match cm_outcomes m !! request_key q with
  | Some (recorded, version) =>
      (m, Ok (if bool_decide (recorded = fingerprint sha256 q) || cm_is m AcceptConflictingRetry
              then Committed version else Rejected ConflictingRetry))
  | None =>
      if negb (creq_generation q =? cm_active_generation m)%N && negb (cm_is m AcceptStaleGeneration)
      then (m, Ok (Rejected StaleGeneration))
      else if negb (contains_all accepted_resolvers SIM_REQUIRED_RESOLVERS)
              && negb (cm_is m AcceptPartialResolver)
      then (m, Ok (Rejected MissingResolver))
      else if negb (contains_all routed_tags REQUIRED_LOG_TAGS) && negb (cm_is m OmitRequiredLogTag)
      then (m, Ok (Rejected MissingLogTag))
      else submit_new m q routed_tags fsynced_replicas deliver_reply
  end.

(** What the loop of [recover] has gathered. *)
Record Recovered := {
  rv_outcomes : gmap (bytes * N) (bytes * Version);
  rv_maximum_sequence : N;
  rv_maximum_index : N;
  rv_log_chain : bytes;
}.

Definition recover_record (r : Recovered) (record : StoredRecord) : res CommitCodecError Recovered :=
  if negb (is_quorum (str_acknowledgers record)) then Ok r
  else
    let? encoded := envelope_encode (str_envelope record) in
    match envelope_decode sha256 encoded with
    | Ok envelope =>
        let newer := (rv_maximum_index r <? env_log_index envelope)%N in
        Ok {| rv_outcomes :=
                <[(env_client_id envelope, env_request_id envelope) :=
                    (env_logical_fingerprint envelope, env_version envelope)]> (rv_outcomes r);
              rv_maximum_sequence :=
                N.max (rv_maximum_sequence r) (sequence (env_version envelope));
              rv_maximum_index := if newer then env_log_index envelope else rv_maximum_index r;
              rv_log_chain := if newer then sha256 encoded else rv_log_chain r |}
    | Err _ => Ok r
    | Panic => Panic
    end.

Definition recover (m : CommitModel) : CommitModel * res CommitCodecError N :=
  match res_fold recover_record (concat ((λ replica, (bt_items replica).*2) <$> cm_replicas m))
          {| rv_outcomes := ∅; rv_maximum_sequence := 0; rv_maximum_index := 0;
             rv_log_chain := replicate 32 0%N |} with
  | Ok r =>
      let outcomes := if cm_is m RamOnlyDedup then ∅ else rv_outcomes r in
      ({ m with cm_next_sequence := rv_maximum_sequence r;
                cm_next_log_index := rv_maximum_index r;
                cm_previous_log_chain := rv_log_chain r;
                cm_outcomes := outcomes }, Ok (N.of_nat (size outcomes)))
  | Err e => (m, Err e)
  | Panic => (m, Panic)
  end.
End commit_model.

#[global] Instance CommitEnvelope_eq_dec : EqDecision CommitEnvelope.
Proof. solve_decision. Defined.

(** ** The scenario *)
Record CommitContractReport := {
  ccr_seed : N;
  ccr_mode : CommitContractMode;
  ccr_executed_steps : N;
  ccr_anomaly_count : N;
  ccr_first_mismatch_step : option N;
  ccr_first_mismatch : option string;
  ccr_acknowledged_commits : N;
  ccr_recovered_commits : N;
  ccr_retry_count : N;
  ccr_leader_only_attempts : N;
  ccr_trace_sha256 : string;
}.

(** The bytes fed to the trace digest are kept in [cs_trace]. *)
Record CommitScenario := {
  cs_seed : N;
  cs_mode : CommitContractMode;
  cs_model : CommitModel;
  cs_trace : bytes;
  cs_step : N;
  cs_first_mismatch : option string;
  cs_first_mismatch_step : option N;
  cs_acknowledged_commits : N;
  cs_recovered_commits : N;
  cs_retry_count : N;
  cs_leader_only_attempts : N;
}.

Definition commit_scenario_new (seed : N) (mode : CommitContractMode) : CommitScenario :=
  {| cs_seed := seed; cs_mode := mode; cs_model := commit_model_new mode;
     cs_trace := string_bytes "okv-commit-contract-v1" ++ u64_be seed
                 ++ string_bytes (commit_mode_id mode);
     cs_step := 0; cs_first_mismatch := None; cs_first_mismatch_step := None;
     cs_acknowledged_commits := 0; cs_recovered_commits := 0; cs_retry_count := 0;
     cs_leader_only_attempts := 0 |}.

Definition commit_check (s : CommitScenario) (action : string) (passed : bool) (detail : string)
    : CommitScenario :=
  let step := (cs_step s + 1)%N in
  let s := { s with cs_step := step;
                    cs_trace := cs_trace s ++ u64_be step ++ string_bytes action
                                ++ [if passed then 1%N else 0%N] ++ string_bytes detail } in
  match passed, cs_first_mismatch s with
  | false, None => { s with cs_first_mismatch_step := Some step;
                            cs_first_mismatch := Some (action +:+ ": " +:+ detail) }
  | _, _ => s
  end.

Definition committed_count (outcome : CommitOutcome) : N :=
  match outcome with Committed _ => 1 | _ => 0 end.

Definition acknowledge (s : CommitScenario) (outcome : CommitOutcome) : CommitScenario :=
  { s with cs_acknowledged_commits := cs_acknowledged_commits s + committed_count outcome }%N.
Definition retried (s : CommitScenario) : CommitScenario :=
  { s with cs_retry_count := cs_retry_count s + 1 }%N.

Section scenario.
Context (sha256 : bytes → bytes).
Context (debug_outcome : CommitOutcome → string).
Context (debug_decoded : res CommitCodecError CommitEnvelope → string).

Definition tagged_digest (seed ordinal : N) (label : string) : bytes :=
  sha256 (string_bytes "okv-commit-fixture-v1" ++ u64_be seed ++ u64_be ordinal
          ++ string_bytes label).

Definition commit_request (seed ordinal generation : N) : CommitRequest :=
  {| creq_cell_id := replicate 16 17%N; creq_tenant_id := replicate 16 34%N;
     creq_generation := generation;
     creq_client_id := take 16 (tagged_digest seed ordinal "client");
     creq_request_id := ordinal;
     creq_read_conflicts := tagged_digest seed ordinal "read-conflict";
     creq_write_conflicts := tagged_digest seed ordinal "write-conflict";
     creq_canonical_mutations := tagged_digest seed ordinal "mutation" |}.

Definition fixture_envelope (seed ordinal generation sequence log_index : N)
    (previous_log_chain : bytes) : res CommitCodecError CommitEnvelope :=
  envelope_new sha256 (commit_request seed ordinal generation)
    (Version.from_parts generation sequence) log_index REQUIRED_LOG_TAGS previous_log_chain.

Definition scenario_submit (s : CommitScenario) (q : CommitRequest)
    (resolvers tags replicas : list N) (deliver : bool)
    : res CommitCodecError (CommitScenario * CommitOutcome) :=
  let '(model, r) := submit sha256 (cs_model s) q resolvers tags replicas deliver in
  let? outcome := r in
  Ok ({ s with cs_model := model }, outcome).

Definition scenario_recover (s : CommitScenario) : res CommitCodecError CommitScenario :=
  let '(model, r) := recover sha256 (cs_model s) in
  let? recovered := r in
  Ok { s with cs_model := model; cs_recovered_commits := recovered }.

Definition outcome_text (outcome : CommitOutcome) : string := "outcome=" +:+ debug_outcome outcome.
Definition show_flag (b : bool) : string := if b then "true" else "false".

Definition codec_round_trip (s : CommitScenario) : res CommitCodecError CommitScenario :=
  let? envelope := fixture_envelope (cs_seed s) 0 3 1 1 (replicate 32 0%N) in
  let? encoded := envelope_encode envelope in
  let decoded := envelope_decode sha256 encoded in
  if length encoded <=? 12 then Panic
  else
    let corrupt := alter (λ b, N.lxor b 255) 12 encoded in
    let corruption_rejected :=
      match envelope_decode sha256 corrupt with Err ChecksumMismatch => true | _ => false end in
    let same := match decoded with Ok e => bool_decide (e = envelope) | _ => false end in
    Ok (commit_check s "codec_round_trip" (same && corruption_rejected)
          ("decoded=" +:+ debug_decoded decoded +:+ ", corruption_rejected="
           +:+ show_flag corruption_rejected)).

Definition happy_commit (s : CommitScenario) : res CommitCodecError CommitScenario :=
  let? '(s, outcome) := scenario_submit s (commit_request (cs_seed s) 1 3)
                          SIM_REQUIRED_RESOLVERS REQUIRED_LOG_TAGS [0; 1]%N true in
  Ok (commit_check (acknowledge s outcome) "quorum_commit"
        (bool_decide (outcome = Committed (Version.from_parts 3 1))) (outcome_text outcome)).

Definition lost_reply_retry (s : CommitScenario) : res CommitCodecError CommitScenario :=
  let q := commit_request (cs_seed s) 2 3 in
  let? '(s, first) := scenario_submit s q SIM_REQUIRED_RESOLVERS REQUIRED_LOG_TAGS [0; 2]%N false in
  let? s := scenario_recover s in
  let? '(s, retry) := scenario_submit s q SIM_REQUIRED_RESOLVERS REQUIRED_LOG_TAGS [1; 2]%N true in
  Ok (commit_check (acknowledge (retried s) retry) "lost_reply_retry"
        (bool_decide (first = Unknown) && bool_decide (retry = Committed (Version.from_parts 3 2)))
        ("first=" +:+ debug_outcome first +:+ ", retry=" +:+ debug_outcome retry)).

Definition conflicting_retry (s : CommitScenario) : res CommitCodecError CommitScenario :=
  let q := commit_request (cs_seed s) 2 3 in
  let conflicting :=
    {| creq_cell_id := creq_cell_id q; creq_tenant_id := creq_tenant_id q;
       creq_generation := creq_generation q; creq_client_id := creq_client_id q;
       creq_request_id := creq_request_id q; creq_read_conflicts := creq_read_conflicts q;
       creq_write_conflicts := creq_write_conflicts q;
       creq_canonical_mutations := tagged_digest (cs_seed s) 2 "conflicting" |} in
  let? '(s, outcome) := scenario_submit s conflicting SIM_REQUIRED_RESOLVERS REQUIRED_LOG_TAGS
                          [0; 1]%N true in
  Ok (commit_check (retried s) "conflicting_retry"
        (bool_decide (outcome = Rejected ConflictingRetry)) (outcome_text outcome)).

Definition partial_resolver (s : CommitScenario) : res CommitCodecError CommitScenario :=
  let? '(s, outcome) := scenario_submit s (commit_request (cs_seed s) 3 3) [1%N] REQUIRED_LOG_TAGS
                          [0; 1]%N true in
  Ok (commit_check s "partial_resolver" (bool_decide (outcome = Rejected MissingResolver))
        (outcome_text outcome)).

Definition missing_log_tag (s : CommitScenario) : res CommitCodecError CommitScenario :=
  let? '(s, outcome) := scenario_submit s (commit_request (cs_seed s) 4 3) SIM_REQUIRED_RESOLVERS
                          [10%N] [0; 1]%N true in
  Ok (commit_check s "missing_log_tag" (bool_decide (outcome = Rejected MissingLogTag))
        (outcome_text outcome)).

Definition stale_generation (s : CommitScenario) : res CommitCodecError CommitScenario :=
  let? '(s, outcome) := scenario_submit s (commit_request (cs_seed s) 5 2) SIM_REQUIRED_RESOLVERS
                          REQUIRED_LOG_TAGS [0; 1]%N true in
  Ok (commit_check s "stale_generation" (bool_decide (outcome = Rejected StaleGeneration))
        (outcome_text outcome)).

Definition leader_only_fsync (s : CommitScenario) : res CommitCodecError CommitScenario :=
  let q := commit_request (cs_seed s) 6 3 in
  let? '(s, outcome) := scenario_submit s q SIM_REQUIRED_RESOLVERS REQUIRED_LOG_TAGS [0%N] true in
  let s := { s with cs_leader_only_attempts := cs_leader_only_attempts s + 1 }%N in
  let? s := scenario_recover (acknowledge s outcome) in
  let survived := is_some (cm_outcomes (cs_model s) !! request_key q) in
  Ok (commit_check s "leader_only_fsync"
        (bool_decide (outcome = Unavailable) && negb survived)
        (outcome_text outcome +:+ ", survived=" +:+ show_flag survived)).

Definition commit_run (s : CommitScenario) : res CommitCodecError CommitScenario :=
  let? s := codec_round_trip s in
  let? s := happy_commit s in
  let? s := lost_reply_retry s in
  let? s := conflicting_retry s in
  let? s := partial_resolver s in
  let? s := missing_log_tag s in
  let? s := stale_generation s in
  leader_only_fsync s.

Definition commit_report (s : CommitScenario) : CommitContractReport :=
  {| ccr_seed := cs_seed s; ccr_mode := cs_mode s; ccr_executed_steps := cs_step s;
     ccr_anomaly_count := if is_some (cs_first_mismatch s) then 1 else 0;
     ccr_first_mismatch_step := cs_first_mismatch_step s;
     ccr_first_mismatch := cs_first_mismatch s;
     ccr_acknowledged_commits := cs_acknowledged_commits s;
     ccr_recovered_commits := cs_recovered_commits s; ccr_retry_count := cs_retry_count s;
     ccr_leader_only_attempts := cs_leader_only_attempts s;
     ccr_trace_sha256 := bytes_string (hex_bytes (sha256 (cs_trace s))) |}.

Definition run_commit_contract (seed : N) (mode : CommitContractMode)
    : res CommitCodecError CommitContractReport :=
  res_map commit_report (commit_run (commit_scenario_new seed mode)).
End scenario.

(** ** Outcomes are final *)

Lemma store_record_lookup replicas n record k :
  store_record replicas n record !! k =
    (λ replica : gmap N StoredRecord,
       if decide (k ∈ N.to_nat <$> str_acknowledgers record) then <[n := record]> replica
       else replica) <$> replicas !! k.
Proof.
  unfold store_record. generalize (str_acknowledgers record) as l. intros l. revert replicas.
  induction l as [|id l IH]; intros replicas; cbn [foldl fmap list_fmap].
  { by destruct (replicas !! k). }
  rewrite IH. destruct (decide (k = N.to_nat id)) as [->|Hne].
  - rewrite list_lookup_alter_eq. destruct (replicas !! N.to_nat id) as [replica|]; [|done]. simpl.
    rewrite (decide_True (P := N.to_nat id ∈ N.to_nat id :: _)) by constructor.
    case_decide; [|done]. by rewrite insert_insert_eq.
  - rewrite list_lookup_alter_ne by done. destruct (replicas !! k); [|done]. simpl.
    f_equal. repeat case_decide; set_solver.
Qed.

Lemma store_record_length replicas n record :
  length (store_record replicas n record) = length replicas.
Proof.
  unfold store_record. generalize (str_acknowledgers record) as l. intros l. revert replicas.
  induction l as [|id l IH]; intros replicas; [done|]. cbn [foldl]. by rewrite IH, length_alter.
Qed.

(** A quorum names two different replicas. *)
Lemma is_quorum_two acks :
  is_quorum acks = true → ∃ i j, i ≠ j ∧ (i < 3)%N ∧ (j < 3)%N ∧ i ∈ acks ∧ j ∈ acks.
Proof.
  unfold is_quorum, COMMIT_QUORUM, set_of. intros Hq%Nat.leb_le.
  set (X := list_to_set _ : gset N) in Hq.
  assert (∀ x, x ∈ X → x ∈ acks ∧ (x < 3)%N) as HX.
  { intros x. unfold X. rewrite elem_of_list_to_set, list_elem_of_In, filter_In, <-list_elem_of_In.
    by rewrite N.ltb_lt. }
  destruct (size_pos_elem_of X) as [i Hi]; [lia|].
  destruct (size_pos_elem_of (X ∖ {[i]})) as [j Hj].
  { rewrite size_difference by set_solver. rewrite size_singleton. lia. }
  exists i, j. destruct (HX i Hi), (HX j ltac:(set_solver)). set_solver.
Qed.

(** The routed tags of an envelope are a set. *)
Lemma strictly_sorted_spec (l : list N) : StronglySorted key_lt l → strictly_sorted l = true.
Proof.
  induction 1 as [|x l Hl IH Hx]; [done|]. destruct l as [|y l]; [done|].
  change ((x <? y)%N && strictly_sorted (y :: l) = true). rewrite IH, andb_true_r. apply N.ltb_lt.
  apply Forall_cons in Hx as [Hx _]. by apply N_key_lt.
Qed.

Lemma dedup_length (l : list N) : length (dedup l) ≤ length l.
Proof.
  induction l as [|x l IH]; [done|]. simpl. destruct l as [|y l]; [simpl; lia|].
  case_match; simpl in *; lia.
Qed.

Lemma sort_dedup_u16_set tags :
  Forall (λ t, t ≤ U16_MAX)%N tags → contains_all tags REQUIRED_LOG_TAGS = true →
  u16_set (sort_dedup tags).
Proof.
  intros Hw Hc. split_and!.
  - apply andb_prop in Hc as [H10%bool_decide_eq_true _]. intros He.
    unfold set_of in H10. rewrite elem_of_list_to_set, <-elem_of_sort_dedup, He in H10.
    by apply not_elem_of_nil in H10.
  - apply strictly_sorted_spec, sort_dedup_sorted.
  - rewrite Forall_forall in Hw |- *. intros t Ht. apply Hw. by rewrite <-elem_of_sort_dedup.
Qed.

Section final.
Context (sha256 : bytes → bytes) (sha256_len : digest_len sha256).

(** The ids have their width and the whole request fits an envelope. *)
Definition request_ok (q : CommitRequest) : Prop :=
  length (creq_cell_id q) = 16 ∧ length (creq_tenant_id q) = 16 ∧
  length (creq_client_id q) = 16 ∧ u64_wf (creq_generation q) ∧ u64_wf (creq_request_id q) ∧
  (len (creq_read_conflicts q) + len (creq_write_conflicts q) + len (creq_canonical_mutations q)
   ≤ 4000000000)%N.
Definition tags_ok (tags : list N) : Prop :=
  Forall (λ t, t ≤ U16_MAX)%N tags ∧ (len tags ≤ U16_MAX)%N.

Inductive commit_step : CommitModel → CommitModel → Prop :=
  | submit_step m q resolvers tags acks deliver m' r :
      request_ok q → tags_ok tags → submit sha256 m q resolvers tags acks deliver = (m', r) →
      commit_step m m'
  | recover_step m m' r : recover sha256 m = (m', r) → commit_step m m'.

Definition holds (m : CommitModel) (k : nat) (i : N) (record : StoredRecord) : Prop :=
  ∃ replica, cm_replicas m !! k = Some replica ∧ replica !! i = Some record.

Definition envelope_key (e : CommitEnvelope) : bytes * N := (env_client_id e, env_request_id e).
Definition envelope_outcome (e : CommitEnvelope) : bytes * Version :=
  (env_logical_fingerprint e, env_version e).

(** A record that carries a quorum certificate. *)
Definition certified (m : CommitModel) (i : N) (record : StoredRecord) : Prop :=
  (∃ k, holds m k i record) ∧ is_quorum (str_acknowledgers record) = true.

Record commit_wf (m : CommitModel) : Prop := {
  cw_mode : cm_mode m = CommitCorrect;
  cw_generation : cm_active_generation m = 3%N;
  cw_replicas : length (cm_replicas m) = 3;
  cw_chain : length (cm_previous_log_chain m) = 32;
  cw_numbering : cm_next_sequence m = cm_next_log_index m;
  cw_width : u64_wf (cm_next_log_index m);
  cw_record k i record : holds m k i record →
    fields_wf (str_envelope record) ∧ sealed sha256 (str_envelope record) ∧
    env_log_index (str_envelope record) = i ∧ sequence (env_version (str_envelope record)) = i;
  cw_certified i record : certified m i record →
    (i ≤ cm_next_log_index m)%N ∧
    cm_outcomes m !! envelope_key (str_envelope record)
      = Some (envelope_outcome (str_envelope record)) ∧
    ∀ id, id ∈ str_acknowledgers record → (id < 3)%N → holds m (N.to_nat id) i record;
  cw_agree i r1 r2 : certified m i r1 → certified m i r2 → r1 = r2;
  cw_outcome key outcome : cm_outcomes m !! key = Some outcome →
    ∃ i record, certified m i record ∧ envelope_key (str_envelope record) = key ∧
      envelope_outcome (str_envelope record) = outcome;
}.

Lemma commit_wf_new : commit_wf (commit_model_new CommitCorrect).
Proof.
  assert (∀ k i record, ¬ holds (commit_model_new CommitCorrect) k i record) as Hnone.
  { intros k i record (replica & Hk & Hi). unfold commit_model_new in Hk.
    cbn [cm_replicas] in Hk. apply lookup_replicate in Hk as [-> _].
    by rewrite lookup_empty in Hi. }
  assert (∀ i record, ¬ certified (commit_model_new CommitCorrect) i record) as Hnone'.
  { intros i record [[k Hk] _]. by eapply Hnone. }
  split; try done.
  - intros k i record Hk. by destruct (Hnone k i record).
  - intros i record Hc. by destruct (Hnone' i record).
  - intros i r1 r2 Hc. by destruct (Hnone' i r1).
Qed.

Lemma new_envelope m q tags :
  commit_wf m → request_ok q → creq_generation q = 3%N → tags_ok tags →
  contains_all tags REQUIRED_LOG_TAGS = true → (cm_next_log_index m < U64_MAX)%N →
  let n := (cm_next_log_index m + 1)%N in
  ∃ e encoded,
    envelope_new sha256 q (Version.from_parts 3 n) n (sort_dedup tags) (cm_previous_log_chain m)
      = Ok e ∧
    envelope_encode e = Ok encoded ∧ fields_wf e ∧ sealed sha256 e ∧ env_log_index e = n ∧
    envelope_key e = request_key q ∧
    envelope_outcome e = (fingerprint sha256 q, Version.from_parts 3 n).
Proof.
  intros W (Hcell & Htenant & Hclient & Hgen & Hreq & Hsize) Hg [Hw Hlen] Hc Hn n.
  unfold envelope_new. set (e0 := Build_CommitEnvelope _ _ _ _ _ _ _ _ _ _ _ _ _ _ _ _ _ _).
  assert (fields_wf e0) as Hwf.
  { split; cbn; try done; try apply (cw_chain _ W); try (unfold u64_wf, n, U64_MAX in *; lia).
    - split; cbn; unfold u64_wf, n, U64_MAX in *; lia.
    - split_and!; [done|done|repeat constructor; done].
    - by apply sort_dedup_u16_set. }
  assert (env_logical_fingerprint e0 = fingerprint sha256 (request_of e0)) as Hfp by by destruct q.
  assert (fits e0) as Hfit.
  { assert (len (sort_dedup tags) ≤ len tags)%N as Hd.
    { unfold len, sort_dedup. pose proof (dedup_length (merge_sort key_le tags)) as H.
      rewrite (Permutation_length (merge_sort_Permutation key_le tags)) in H. lia. }
    unfold fits, payload_len. cbn [env_read_conflicts env_write_conflicts env_canonical_mutations
      env_required_resolvers env_required_log_tags e0]. change (len SIM_REQUIRED_RESOLVERS) with 2%N.
    unfold U32_MAX, U16_MAX in *. lia. }
  destruct (seal_fits sha256 sha256_len e0 Hwf Hfp Hfit) as (e & Hs & (l & c & ->) & Hwf' & Hsealed).
  destruct Hsealed as (Hfp' & payload & Henc & Hrest).
  eexists _, _. split; [exact Hs|].
  split; [unfold envelope_encode; rewrite Henc; reflexivity|].
  split_and!; try done. by split; [|exists payload].
Qed.

(** The state after writing an envelope at the next index. *)
Definition appended (m : CommitModel) (q : CommitRequest) (e : CommitEnvelope) (encoded : bytes)
    (acks : list N) : CommitModel :=
  let n := (cm_next_log_index m + 1)%N in
  {| cm_mode := cm_mode m; cm_active_generation := cm_active_generation m;
     cm_next_sequence := n; cm_next_log_index := n; cm_previous_log_chain := sha256 encoded;
     cm_replicas := store_record (cm_replicas m) n
                      {| str_envelope := e; str_acknowledgers := acks |};
     cm_outcomes := if is_quorum acks then <[envelope_key e := envelope_outcome e]> (cm_outcomes m)
                    else cm_outcomes m |}.

Lemma submit_cases m q resolvers tags acks deliver m' r :
  commit_wf m → request_ok q → tags_ok tags →
  submit sha256 m q resolvers tags acks deliver = (m', r) →
  (∃ recorded v, cm_outcomes m !! request_key q = Some (recorded, v) ∧ m' = m ∧
     r = Ok (if bool_decide (recorded = fingerprint sha256 q) then Committed v
             else Rejected ConflictingRetry)) ∨
  cm_outcomes m !! request_key q = None ∧
  ((m' = m ∧ (r = Panic ∧ cm_next_log_index m = U64_MAX ∨ ∃ reason, r = Ok (Rejected reason))) ∨
   ∃ e encoded, let n := (cm_next_log_index m + 1)%N in
     fields_wf e ∧ sealed sha256 e ∧ env_log_index e = n ∧ envelope_key e = request_key q ∧
     envelope_outcome e = (fingerprint sha256 q, Version.from_parts 3 n) ∧
     (cm_next_log_index m < U64_MAX)%N ∧ m' = appended m q e encoded acks ∧
     r = Ok (if is_quorum acks
             then if deliver then Committed (Version.from_parts 3 n) else Unknown
             else Unavailable)).
Proof.
  intros W Hq Ht H. unfold submit, cm_is in H. rewrite (cw_mode _ W) in H.
  destruct (cm_outcomes m !! request_key q) as [[recorded v]|] eqn:Hk.
  { left. exists recorded, v. injection H as <- <-. by rewrite orb_false_r. }
  right. split; [done|]. rewrite (cw_generation _ W) in H.
  destruct (creq_generation q =? 3)%N eqn:Hg; [|injection H as <- <-; eauto].
  destruct (contains_all resolvers _); [|injection H as <- <-; eauto].
  destruct (contains_all tags _) eqn:Hc; [|injection H as <- <-; eauto].
  apply N.eqb_eq in Hg. cbn [negb andb] in H. unfold submit_new in H.
  rewrite (cw_generation _ W), (cw_numbering _ W), orb_diag in H. pose proof (cw_width _ W) as Hw.
  destruct (_ =? U64_MAX)%N eqn:Hn; [injection H as <- <-; apply N.eqb_eq in Hn; by eauto|].
  apply N.eqb_neq in Hn. assert (cm_next_log_index m < U64_MAX)%N as Hn' by (unfold u64_wf in Hw; lia).
  destruct (new_envelope m q tags W Hq Hg Ht Hc Hn')
    as (e & encoded & Hnew & Henc & Hf & Hs & Hi & Hkey & Hout).
  rewrite Hnew in H. cbn [res_bind] in H. rewrite Henc in H. cbn [res_bind] in H.
  right. exists e, encoded. unfold cm_is in H.
  destruct m as [mode gen ns ni chain reps outs]. cbn -[is_quorum store_record] in *.
  unfold RecordSetters.constant in H. pose proof (cw_mode _ W) as Hmode. cbn in Hmode. subst mode.
  unfold appended. cbn -[is_quorum store_record]. rewrite Hkey, Hout.
  destruct (is_quorum acks); injection H as <- <-; eauto 10.
Qed.

Section append.
Context (m : CommitModel) (q : CommitRequest) (e : CommitEnvelope) (encoded : bytes) (acks : list N).
Context (W : commit_wf m) (Hwf : fields_wf e) (Hsealed : sealed sha256 e).
Context (Hindex : env_log_index e = (cm_next_log_index m + 1)%N).
Context (Hout : envelope_outcome e =
                (fingerprint sha256 q, Version.from_parts 3 (cm_next_log_index m + 1))).
Context (Hnew : cm_outcomes m !! envelope_key e = None).
Context (Hbound : (cm_next_log_index m < U64_MAX)%N).

Abbreviation n := (cm_next_log_index m + 1)%N.
Abbreviation m' := (appended m q e encoded acks).
Abbreviation written := {| str_envelope := e; str_acknowledgers := acks |}.

Lemma appended_holds k i record :
  holds m' k i record ↔
  (k < 3 ∧ k ∈ N.to_nat <$> acks ∧ i = n ∧ record = written) ∨
  (holds m k i record ∧ ¬ (k ∈ N.to_nat <$> acks ∧ i = n)).
Proof.
  unfold holds. cbn [cm_replicas appended]. rewrite store_record_lookup. cbn [str_acknowledgers].
  destruct (cm_replicas m !! k) as [replica|] eqn:Hk; simpl.
  - assert (k < 3) as Hk3 by (rewrite <-(cw_replicas _ W); by eapply lookup_lt_Some).
    case_decide as Hin; (split; [intros (? & [= <-] & Hi)|]).
    + apply lookup_insert_Some in Hi as [[<- <-]|[Hne Hi]]; [by left|right; naive_solver].
    + intros [(_ & _ & -> & ->)|[(? & [= <-] & Hi) Hne]]; eexists; (split; [done|]).
      * apply lookup_insert_eq.
      * rewrite lookup_insert_ne; naive_solver.
    + naive_solver.
    + naive_solver.
  - split; [naive_solver|]. intros [(Hk3 & _)|[(? & ? & _) _]]; [|done].
    apply lookup_ge_None in Hk. rewrite (cw_replicas _ W) in Hk. lia.
Qed.

Lemma appended_certified i record :
  certified m' i record ↔
  certified m i record ∨ i = n ∧ record = written ∧ is_quorum acks = true.
Proof.
  unfold certified. split.
  - intros [[k Hk] Hq]. apply appended_holds in Hk as [(_ & _ & -> & ->)|[Hk _]]; [by right|].
    left. eauto.
  - intros [[[k Hk] Hq]|(-> & -> & Hq)].
    + split; [|done]. exists k. apply appended_holds. right. split; [done|]. intros [_ ->].
      destruct (cw_certified _ W n record) as [Hle _]; [|lia]. split; eauto.
    + split; [|done]. destruct (is_quorum_two _ Hq) as (id & _ & _ & Hid & _ & Hin & _).
      exists (N.to_nat id). apply appended_holds. left. split; [lia|].
      split; [|done]. apply list_elem_of_fmap. eauto.
Qed.

Lemma appended_wf : commit_wf m'.
Proof.
  pose proof W as [Hmode Hgen Hreps Hchain Hnum Hwidth Hrec Hcert Hagree Houtcome].
  assert (∀ i record, certified m i record → (i < n)%N) as Hlt.
  { intros i record Hc. destruct (Hcert _ _ Hc). lia. }
  split; try done.
  - cbn [cm_replicas appended]. by rewrite store_record_length.
  - cbn. apply sha256_len.
  - cbn. unfold u64_wf, U64_MAX in *. lia.
  - intros k i record [(_ & _ & -> & ->)|[Hk _]]%appended_holds; [|by eapply Hrec].
    cbn. split_and!; [done..|]. by injection Hout as _ ->.
  - intros i record Hc. pose proof Hc as Hc'.
    apply appended_certified in Hc as [Hc|(-> & -> & Hq)]; cbn [cm_next_log_index cm_outcomes appended].
    + destruct (Hcert _ _ Hc) as (Hle & Hk & Hall). split_and!; [lia| |].
      * case_match; [|done]. rewrite lookup_insert_ne; [done|]. congruence.
      * intros id Hid H3. apply appended_holds. right. split; [auto|]. intros [_ ->].
        specialize (Hlt _ _ Hc). lia.
    + rewrite Hq. split_and!; [lia|by rewrite lookup_insert_eq|].
      intros id Hid H3. apply appended_holds. left. split; [lia|]. split; [|done].
      apply list_elem_of_fmap. eauto.
  - intros i r1 r2 [H1|(-> & -> & _)]%appended_certified [H2|(Hi & -> & _)]%appended_certified;
      [by eapply Hagree| | |done].
    + specialize (Hlt _ _ H1). lia.
    + specialize (Hlt _ _ H2). lia.
  - cbn [cm_outcomes appended]. intros key outcome Hk.
    assert (cm_outcomes m !! key = Some outcome ∨
            is_quorum acks = true ∧ key = envelope_key e ∧ outcome = envelope_outcome e) as Hcases.
    { case_match; [|by left]. apply lookup_insert_Some in Hk as [[<- <-]|[_ Hk]]; [by right|by left]. }
    destruct Hcases as [Hold|(Hq & -> & ->)].
    + destruct (Houtcome _ _ Hold) as (i & record & Hc & ?). exists i, record.
      split; [|done]. apply appended_certified. by left.
    + exists n, written. split; [|done]. apply appended_certified. by right.
Qed.

Lemma appended_outcomes : cm_outcomes m ⊆ cm_outcomes m'.
Proof. cbn -[is_quorum]. case_match; [|done]. by apply insert_subseteq. Qed.
End append.

Section recovery.
Context (m : CommitModel) (W : commit_wf m).

(** What has been gathered agrees with what was known. *)
Record gathered (r : Recovered) : Prop := {
  ga_numbering : rv_maximum_sequence r = rv_maximum_index r;
  ga_chain : length (rv_log_chain r) = 32;
  ga_bound : (rv_maximum_index r ≤ cm_next_log_index m)%N;
  ga_outcomes : rv_outcomes r ⊆ cm_outcomes m;
}.

Definition includes (r : Recovered) (record : StoredRecord) : Prop :=
  rv_outcomes r !! envelope_key (str_envelope record)
    = Some (envelope_outcome (str_envelope record)) ∧
  (env_log_index (str_envelope record) ≤ rv_maximum_index r)%N.

Definition grows (r r' : Recovered) : Prop :=
  rv_outcomes r ⊆ rv_outcomes r' ∧ (rv_maximum_index r ≤ rv_maximum_index r')%N.

Lemma recover_record_gathers k i record r :
  holds m k i record → gathered r →
  ∃ r', recover_record sha256 r record = Ok r' ∧ gathered r' ∧ grows r r' ∧
    (is_quorum (str_acknowledgers record) = true → includes r' record).
Proof.
  intros Hh G. unfold recover_record.
  destruct (is_quorum (str_acknowledgers record)) eqn:Hq; [|by exists r].
  destruct (cw_record _ W _ _ _ Hh) as (Hwf & Hs & Hi & Hseq).
  destruct (cw_certified _ W i record) as (Hle & Hk & _); [split; eauto|].
  pose proof Hs as (_ & payload & Henc & _). cbn [negb].
  assert (envelope_encode (str_envelope record) =
            Ok (payload ++ env_checksum (str_envelope record))) as He
    by (unfold envelope_encode; by rewrite Henc).
  rewrite He. cbn [res_bind]. rewrite (decode_encode sha256 sha256_len _ _ Hwf Hs He).
  eexists. split; [done|]. rewrite Hi. destruct G as [Gn Gc Gb Go].
  assert (rv_outcomes r ⊆ <[envelope_key (str_envelope record) :=
            envelope_outcome (str_envelope record)]> (rv_outcomes r)) as Hsub.
  { apply map_subseteq_spec. intros key o Hko.
    destruct (decide (envelope_key (str_envelope record) = key)) as [<-|Hne];
      [|by rewrite lookup_insert_ne].
    rewrite lookup_insert_eq. eapply lookup_weaken in Hko; [|done]. congruence. }
  assert (∀ a, (if (a <? i)%N then i else a) = N.max a i) as Hmax.
  { intros a. destruct (a <? i)%N eqn:E; [apply N.ltb_lt in E|apply N.ltb_ge in E]; lia. }
  split_and!.
  - split; cbn; rewrite ?Hmax, ?Hseq; [lia|case_match; [apply sha256_len|done]|lia|].
    by apply insert_subseteq_l.
  - split; cbn; [done|]. rewrite Hmax. lia.
  - intros _. split; cbn; [by rewrite lookup_insert_eq|]. rewrite Hmax, Hi. lia.
Qed.

Lemma recover_records_gather records r :
  (∀ record, record ∈ records → ∃ k i, holds m k i record) → gathered r →
  ∃ r', res_fold (recover_record sha256) records r = Ok r' ∧ gathered r' ∧ grows r r' ∧
    ∀ record, record ∈ records → is_quorum (str_acknowledgers record) = true → includes r' record.
Proof.
  revert r. induction records as [|record records IH]; intros r Hall G.
  { exists r. split_and!; [done..|]. intros record Hin. by apply not_elem_of_nil in Hin. }
  destruct (Hall record) as (k & i & Hh); [left|].
  destruct (recover_record_gathers k i record r Hh G) as (r1 & H1 & G1 & [Ho1 Hm1] & Hin1).
  destruct (IH r1) as (r2 & H2 & G2 & [Ho2 Hm2] & Hin2); [by intros; apply Hall; right|done|].
  exists r2. simpl. rewrite H1. split_and!; [done|done|split; [by etrans|lia]|].
  intros record' [->|Hr]%elem_of_cons Hq; [|by apply Hin2].
  destruct (Hin1 Hq) as [Hk Hi]. split; [by eapply lookup_weaken|lia].
Qed.

Lemma elem_of_all_records record :
  record ∈ concat ((λ replica, (bt_items replica).*2) <$> cm_replicas m) ↔
  ∃ k i, holds m k i record.
Proof.
  rewrite list_elem_of_In, in_concat. setoid_rewrite <-list_elem_of_In. split.
  - intros (l & (replica & -> & Hrep)%list_elem_of_fmap & ([i ?] & -> & Hi)%list_elem_of_fmap).
    apply list_elem_of_lookup in Hrep as [k Hk]. apply elem_of_bt_items in Hi.
    exists k, i, replica. done.
  - intros (k & i & replica & Hk & Hi). exists (bt_items replica).*2. split.
    + apply list_elem_of_fmap. exists replica. split; [done|]. by eapply list_elem_of_lookup_2.
    + apply list_elem_of_fmap. exists (i, record). by rewrite elem_of_bt_items.
Qed.

(** Recovery knows what was known; only the numbering goes back to the last
    certified record. *)
Lemma recover_spec :
  ∃ n chain, (n ≤ cm_next_log_index m)%N ∧
    recover sha256 m =
      ({| cm_mode := cm_mode m; cm_active_generation := cm_active_generation m;
          cm_next_sequence := n; cm_next_log_index := n; cm_previous_log_chain := chain;
          cm_replicas := cm_replicas m; cm_outcomes := cm_outcomes m |},
       Ok (N.of_nat (size (cm_outcomes m)))) ∧
    commit_wf {| cm_mode := cm_mode m; cm_active_generation := cm_active_generation m;
                 cm_next_sequence := n; cm_next_log_index := n; cm_previous_log_chain := chain;
                 cm_replicas := cm_replicas m; cm_outcomes := cm_outcomes m |}.
Proof.
  destruct (recover_records_gather
    (concat ((λ replica, (bt_items replica).*2) <$> cm_replicas m))
    {| rv_outcomes := ∅; rv_maximum_sequence := 0; rv_maximum_index := 0;
       rv_log_chain := replicate 32 0%N |}) as (r & Hr & [Gn Gc Gb Go] & _ & Hin).
  { intros record. apply elem_of_all_records. }
  { split; cbn; [done|done|lia|apply map_empty_subseteq]. }
  assert (∀ i record, certified m i record → includes r record) as Hall.
  { intros i record [[k Hk] Hq]. apply Hin; [|done]. apply elem_of_all_records. eauto. }
  assert (rv_outcomes r = cm_outcomes m) as Hout.
  { apply (anti_symm (⊆)); [done|]. apply map_subseteq_spec. intros key o Hk.
    destruct (cw_outcome _ W _ _ Hk) as (i & record & Hc & <- & <-). apply (Hall _ _ Hc). }
  exists (rv_maximum_index r), (rv_log_chain r). split; [done|]. split.
  - unfold recover. rewrite Hr. unfold cm_is. rewrite (cw_mode _ W), bool_decide_false by done.
    rewrite Hout, Gn. destruct m as [mode gen ns ni chain reps outs]. cbn.
    pose proof (cw_mode _ W) as Hm. cbn in Hm. by subst.
  - destruct W as [Hmode Hgen Hreps Hchain Hnum Hwidth Hrec Hcert Hagree Houtcome].
    split; cbn; try done; [unfold u64_wf in *; lia|].
    intros i record Hc. destruct (Hcert i record Hc) as (_ & Hk & Hids). split_and!; [|done|done].
    destruct (Hall i record Hc) as [_ Hle]. destruct Hc as [[k Hh] _].
    destruct (Hrec _ _ _ Hh) as (_ & _ & Hi & _). by rewrite Hi in Hle.
Qed.
End recovery.

Lemma commit_step_wf m m1 :
  commit_wf m → commit_step m m1 → commit_wf m1 ∧ cm_outcomes m ⊆ cm_outcomes m1.
Proof.
  intros W Hstep. revert W.
  destruct Hstep as [m' q resolvers tags acks deliver m2 r Hq Ht Hs|m' m2 r Hr]; intros W.
  - destruct (submit_cases _ _ _ _ _ _ _ _ W Hq Ht Hs)
      as [(? & ? & _ & -> & _)|[Hk [[-> _]|(e & encoded & Hf & Hse & Hi & Hkey & Ho & Hb & -> & _)]]];
      [done|done|].
    rewrite <-Hkey in Hk. split; [by eapply appended_wf|by apply appended_outcomes].
  - destruct (recover_spec m' W) as (n & chain & _ & Hrec & W'). rewrite Hrec in Hr.
    injection Hr as <- _. by split.
Qed.

Lemma commit_steps_wf m m1 :
  commit_wf m → rtc commit_step m m1 → commit_wf m1 ∧ cm_outcomes m ⊆ cm_outcomes m1.
Proof.
  intros W Hsteps. revert W. induction Hsteps as [|m m1 m2 Hstep _ IH]; intros W; [done|].
  destruct (commit_step_wf _ _ W Hstep) as [W1 Hsub]. destruct (IH W1) as [W2 Hsub2].
  split; [done|]. by etrans.
Qed.

(** A recorded outcome is held by two replicas, and is the only one of its version. *)
Lemma recorded_facts m key fp v :
  commit_wf m → cm_outcomes m !! key = Some (fp, v) →
  (∃ i j record, i ≠ j ∧ holds m i (sequence v) record ∧ holds m j (sequence v) record ∧
     envelope_key (str_envelope record) = key ∧ envelope_outcome (str_envelope record) = (fp, v)) ∧
  (∀ key' fp', cm_outcomes m !! key' = Some (fp', v) → key' = key).
Proof.
  intros W Hk. destruct (cw_outcome _ W _ _ Hk) as (n & record & Hc & <- & Ho).
  assert (∀ i record, certified m i record → sequence (env_version (str_envelope record)) = i)
    as Hseq.
  { intros i rec [[k Hh] _]. by destruct (cw_record _ W _ _ _ Hh) as (_ & _ & _ & ?). }
  pose proof (Hseq _ _ Hc) as Hn. injection Ho as <- <-. split.
  - destruct (cw_certified _ W _ _ Hc) as (_ & _ & Hids). destruct Hc as [_ Hq].
    destruct (is_quorum_two _ Hq) as (i & j & Hne & Hi & Hj & Hini & Hinj). rewrite Hn.
    exists (N.to_nat i), (N.to_nat j), record. split; [lia|]. auto.
  - intros key' fp' Hk'. destruct (cw_outcome _ W _ _ Hk') as (n' & record' & Hc' & <- & [= _ Hv]).
    pose proof (Hseq _ _ Hc') as Hn'. rewrite Hv, Hn in Hn'. subst n'.
    by rewrite (cw_agree _ W _ _ _ Hc Hc').
Qed.
End final.

(** C29. Commit outcomes are final. Take any history of submissions and recoveries in
    the correct mode, with any resolvers, tags and replicas answering. A request
    that is answered as committed, or whose answer is lost after it reached a
    quorum, has one version for good: after any further submissions and
    recoveries, submitting the request again answers with that version and changes
    nothing, a different request under the same identity is rejected, no other
    request has the version, and two replicas hold the envelope that records it.
    Submissions and recoveries do not fail until the counters are exhausted. *)
Theorem commit_outcomes_final sha256 m q resolvers tags acks deliver m1 outcome :
  digest_len sha256 → rtc (commit_step sha256) (commit_model_new CommitCorrect) m →
  request_ok q → tags_ok tags →
  submit sha256 m q resolvers tags acks deliver = (m1, Ok outcome) →
  outcome = Unknown ∨ (∃ v, outcome = Committed v) →
  ∃ v, (outcome = Unknown ∨ outcome = Committed v) ∧
    ∀ m2, rtc (commit_step sha256) m1 m2 →
      (∀ q' resolvers' tags' acks' deliver', request_key q' = request_key q →
         submit sha256 m2 q' resolvers' tags' acks' deliver' =
           (m2, Ok (if bool_decide (fingerprint sha256 q = fingerprint sha256 q')
                    then Committed v else Rejected ConflictingRetry))) ∧
      (∀ key fp, cm_outcomes m2 !! key = Some (fp, v) → key = request_key q) ∧
      (∃ i j record, i ≠ j ∧ holds m2 i (sequence v) record ∧ holds m2 j (sequence v) record ∧
         envelope_key (str_envelope record) = request_key q ∧
         env_version (str_envelope record) = v) ∧
      (recover sha256 m2).2 = Ok (N.of_nat (size (cm_outcomes m2))) ∧
      ∀ q' resolvers' tags' acks' deliver', request_ok q' → tags_ok tags' →
        (cm_next_log_index m2 < U64_MAX)%N →
        ∃ o, (submit sha256 m2 q' resolvers' tags' acks' deliver').2 = Ok o.
Proof.
  intros Hlen Hreach Hq Ht Hs Ho.
  destruct (commit_steps_wf sha256 Hlen _ _ (commit_wf_new sha256) Hreach) as [W _].
  assert (commit_wf sha256 m1) as W1.
  { by destruct (commit_step_wf sha256 Hlen m m1 W) as [? _]; [econstructor|]. }
  assert (∃ v, (outcome = Unknown ∨ outcome = Committed v) ∧
    cm_outcomes m1 !! request_key q = Some (fingerprint sha256 q, v)) as (v & Hv & Hk).
  { destruct (submit_cases sha256 Hlen _ _ _ _ _ _ _ _ W Hq Ht Hs)
      as [(recorded & v & Hk & -> & [= ->])|[_ [[-> [[? _]|[reason [= ->]]]]|
          (e & encoded & _ & _ & _ & Hkey & Hout & _ & -> & [= ->])]]]; [|done|naive_solver|].
    - exists v. case_bool_decide; [subst; by auto|naive_solver].
    - cbn [cm_outcomes appended]. rewrite Hkey, Hout. destruct (is_quorum acks); [|naive_solver].
      eexists. rewrite lookup_insert_eq. split; [|done]. destruct deliver; auto. }
  exists v. split; [done|]. intros m2 Hsteps.
  destruct (commit_steps_wf sha256 Hlen _ _ W1 Hsteps) as [W2 Hsub].
  pose proof (lookup_weaken _ _ _ _ Hk Hsub) as Hk2.
  destruct (recorded_facts sha256 m2 _ _ _ W2 Hk2) as [(i & j & record & ? & ? & ? & ? & [= _ ?]) Huniq].
  split_and!; [|done|by exists i, j, record| |].
  - intros q' ? ? ? ? Hkey. unfold submit. rewrite Hkey, Hk2. unfold cm_is.
    by rewrite (cw_mode _ _ W2), orb_false_r.
  - destruct (recover_spec sha256 Hlen m2 W2) as (? & ? & _ & -> & _). done.
  - intros q' rs ts acks' d' Hq' Ht' Hn.
    destruct (submit sha256 m2 q' rs ts acks' d') as [m3 r3] eqn:Hs3.
    destruct (submit_cases sha256 Hlen _ _ _ _ _ _ _ _ W2 Hq' Ht' Hs3)
      as [(? & ? & _ & _ & ->)|[_ [[_ [[_ ?]|[? ->]]]|(? & ? & _ & _ & _ & _ & _ & _ & _ & ->)]]];
      eauto; lia.
Qed.

(** ** An example: a commit whose answer is lost, a recovery and a retry. *)
Module demo_commit.
Definition q : CommitRequest := commit_request prefix_digest 1 1 3.
Definition lost : CommitModel * res CommitCodecError CommitOutcome :=
  submit prefix_digest (commit_model_new CommitCorrect) q [1; 2]%N [20; 10]%N [0; 2]%N false.
Definition recovered : CommitModel := (recover prefix_digest lost.1).1.

Lemma q_ok : request_ok q.
Proof. unfold request_ok, u64_wf. split_and!; vm_compute; done. Qed.
Lemma tags_20_10 : tags_ok [20; 10]%N.
Proof. split; [repeat constructor; done|done]. Qed.
End demo_commit.

Lemma commit_outcomes_final_witness :
  demo_commit.lost.2 = Ok Unknown ∧
  ∃ v, submit prefix_digest demo_commit.recovered demo_commit.q [] [] [] true =
         (demo_commit.recovered, Ok (Committed v)).
Proof.
  split; [vm_compute; reflexivity|].
  destruct (commit_outcomes_final prefix_digest (commit_model_new CommitCorrect) demo_commit.q
    [1; 2]%N [20; 10]%N [0; 2]%N false demo_commit.lost.1 Unknown) as (v & _ & Hfinal).
  - apply prefix_digest_len.
  - constructor.
  - apply demo_commit.q_ok.
  - apply demo_commit.tags_20_10.
  - vm_compute. reflexivity.
  - by left.
  - destruct (Hfinal demo_commit.recovered) as (Hretry & _).
    { apply rtc_once, (recover_step _ _ _ (recover prefix_digest demo_commit.lost.1).2).
      exact (surjective_pairing _). }
    exists v. rewrite Hretry by reflexivity. by rewrite bool_decide_true.
Defined.
