(* ===== verification/Routine.v ===== *)
(** * The routine reconfiguration contract

    The model that [okv-model/src/routine_reconfiguration.rs] runs its contract
    on: an authority that replaces one voter of a data quorum at a time, and the
    scenario with its deliberately broken modes. SHA-256 is a parameter.

    In the correct mode the voters change only through a reconfiguration that was
    prepared for the current epoch, whose learner caught up before the membership
    change ([routine_change_justified]). *)

From coqutil Require Import Datatypes.RecordSetters.
Import OCamlLikeNotations.
From S2P Require Import Prelude Order BTree Bytes.

Inductive RoutineReconfigurationMode :=
  | RoutineCorrect
  | ReuseNodeIdentity
  | AdmitLearnerWithoutAuthority
  | PromoteBeforeCatchup
  | AcceptStaleMembershipEpoch
  | AcceptConcurrentReconfiguration
  | DoubleApplyFinalizeRetry
  | AcceptRemovedVoterCommit
  | RepairWithoutDataQuorum.
#[global] Instance RoutineReconfigurationMode_eq_dec : EqDecision RoutineReconfigurationMode.
Proof. solve_decision. Defined.

Definition routine_mode_id (mode : RoutineReconfigurationMode) : string :=
  match mode with
  | RoutineCorrect => "correct"
  | ReuseNodeIdentity => "reuse_node_identity"
  | AdmitLearnerWithoutAuthority => "admit_learner_without_authority"
  | PromoteBeforeCatchup => "promote_before_catchup"
  | AcceptStaleMembershipEpoch => "accept_stale_membership_epoch"
  | AcceptConcurrentReconfiguration => "accept_concurrent_reconfiguration"
  | DoubleApplyFinalizeRetry => "double_apply_finalize_retry"
  | AcceptRemovedVoterCommit => "accept_removed_voter_commit"
  | RepairWithoutDataQuorum => "repair_without_data_quorum"
  end.

(** ** The authority *)

(** An incarnation is 16 bytes. *)
Record PendingReconfiguration := {
  pr_id : N;
  pr_expected_epoch : N;
  pr_old_voters : gset N;
  pr_next_voters : gset N;
  pr_replacement_node : N;
  pr_replacement_incarnation : bytes;
  pr_learner_ready_position : option N;
  pr_membership_position : option N;
}.
#[global] Instance PendingReconfiguration_eq_dec : EqDecision PendingReconfiguration.
Proof. solve_decision. Defined.

Record RoutineAuthority := {
  ra_generation : N;
  ra_membership_epoch : N;
  ra_active_voters : gset N;
  ra_active_incarnations : gmap N bytes;
  ra_pending : option PendingReconfiguration;
  ra_completed : gmap N (N * gset N);
  ra_mode : RoutineReconfigurationMode;
}.

Definition ra_is (a : RoutineAuthority) (mode : RoutineReconfigurationMode) : bool :=
  bool_decide (ra_mode a = mode).

Definition routine_new (mode : RoutineReconfigurationMode) : RoutineAuthority :=
  {| ra_generation := 7; ra_membership_epoch := 4; ra_active_voters := {[1; 2; 3]}%N;
     ra_active_incarnations :=
       list_to_map [(1, replicate 16 17); (2, replicate 16 34); (3, replicate 16 51)]%N;
     ra_pending := None; ra_completed := ∅; ra_mode := mode |}.

Definition routine_prepare (a : RoutineAuthority) (expected_generation expected_epoch id : N)
    (next_voters : gset N) (replacement_node : N) (replacement_incarnation : bytes)
    : RoutineAuthority * bool :=
  let stale_epoch := negb (expected_epoch =? ra_membership_epoch a)%N in
  if negb (expected_generation =? ra_generation a)%N
     || stale_epoch && negb (ra_is a AcceptStaleMembershipEpoch)
     || (id =? 0)%N
     || negb (size next_voters =? size (ra_active_voters a))
     || negb (bool_decide (replacement_node ∈ next_voters))
  then (a, false)
  else if bool_decide (replacement_node ∈ ra_active_voters a) && negb (ra_is a ReuseNodeIdentity)
  then (a, false)
  else if bt_any (λ existing, bool_decide (existing = replacement_incarnation))
            (ra_active_incarnations a)
          && negb (ra_is a ReuseNodeIdentity)
  then (a, false)
  else
    let candidate :=
      {| pr_id := id; pr_expected_epoch := expected_epoch; pr_old_voters := ra_active_voters a;
         pr_next_voters := next_voters; pr_replacement_node := replacement_node;
         pr_replacement_incarnation := replacement_incarnation;
         pr_learner_ready_position := None; pr_membership_position := None |} in
    let accept := ({ a with ra_pending := Some candidate }, true) in
    match ra_pending a with
    | Some pending =>
        if bool_decide (pending = candidate) then (a, true)
        else if negb (ra_is a AcceptConcurrentReconfiguration) then (a, false)
        else accept
    | None => accept
    end.

Definition authorize_learner (a : RoutineAuthority) (id node_id : N) (incarnation : bytes) : bool :=
  match ra_pending a with
  | Some pending =>
      (pr_id pending =? id)%N && (pr_replacement_node pending =? node_id)%N
      && bool_decide (pr_replacement_incarnation pending = incarnation)
  | None => false
  end || ra_is a AdmitLearnerWithoutAuthority.

Definition mark_learner_ready (a : RoutineAuthority) (id snapshot_position applied_position : N)
    (next_voters : gset N) : RoutineAuthority * bool :=
  match ra_pending a with
  | None => (a, false)
  | Some pending =>
      if negb (pr_id pending =? id)%N || (snapshot_position =? 0)%N
         || (applied_position <? snapshot_position)%N
         || negb (bool_decide (pr_next_voters pending = next_voters))
      then (a, false)
      else ({ a with ra_pending :=
                Some { pending with pr_learner_ready_position := Some applied_position } }, true)
  end.

Definition commit_membership (a : RoutineAuthority) (id : N) (next_voters : gset N)
    (membership_position : N) : RoutineAuthority * bool :=
  match ra_pending a with
  | None => (a, false)
  | Some pending =>
      let ready :=
        match pr_learner_ready_position pending with
        | Some ready_position => (ready_position <? membership_position)%N
        | None => false
        end in
      if negb (pr_id pending =? id)%N || negb (bool_decide (pr_next_voters pending = next_voters))
         || negb ready && negb (ra_is a PromoteBeforeCatchup)
      then (a, false)
      else ({ a with ra_pending :=
                Some { pending with pr_membership_position := Some membership_position } }, true)
  end.

(** The switch to the voters of a pending reconfiguration. *)
Definition routine_switch (a : RoutineAuthority) (id : N) (pending : PendingReconfiguration)
    : RoutineAuthority :=
  let epoch := saturating_add (ra_membership_epoch a) 1 in
  { a with ra_pending := None;
           ra_active_voters := pr_next_voters pending;
           ra_active_incarnations :=
             <[pr_replacement_node pending := pr_replacement_incarnation pending]>
               (filter (λ p, p.1 ∈ pr_next_voters pending) (ra_active_incarnations a));
           ra_membership_epoch := epoch;
           ra_completed := <[id := (epoch, pr_next_voters pending)]> (ra_completed a) }.

Definition routine_finalize (a : RoutineAuthority) (id certified_position : N)
    : RoutineAuthority * bool :=
  match ra_completed a !! id with
  | Some (_, voters) =>
      if ra_is a DoubleApplyFinalizeRetry
      then ({ a with ra_membership_epoch := saturating_add (ra_membership_epoch a) 1;
                     ra_active_voters := voters }, true)
      else (a, true)
  | None =>
      match ra_pending a with
      | None => (a, false)
      | Some pending =>
          if negb (pr_id pending =? id)%N
             || negb (bool_decide (pr_membership_position pending = Some certified_position))
          then (a, false)
          else (routine_switch a id pending, true)
      end
  end.

Definition can_commit (a : RoutineAuthority) (node_id generation : N) (quorum_available : bool)
    : bool :=
  if negb quorum_available || negb (generation =? ra_generation a)%N then false
  else bool_decide (node_id ∈ ra_active_voters a)
       || ra_is a AcceptRemovedVoterCommit && (node_id =? 1)%N.

Definition can_complete_routine_repair (a : RoutineAuthority) (quorum_available : bool) : bool :=
  quorum_available || ra_is a RepairWithoutDataQuorum.

(** ** The scenario *)
Record RoutineReconfigurationReport := {
  rr_seed : N;
  rr_mode : RoutineReconfigurationMode;
  rr_executed_checks : N;
  rr_anomaly_count : N;
  rr_first_mismatch_step : option N;
  rr_first_mismatch : option string;
  rr_authority_preparations : N;
  rr_learner_admissions : N;
  rr_learner_ready_certificates : N;
  rr_membership_changes : N;
  rr_finalize_attempts : N;
  rr_committed_transactions : N;
  rr_rejected_controls : N;
  rr_generation : N;
  rr_membership_epoch : N;
  rr_active_voters : list N;
  rr_trace_sha256 : string;
}.

(** The bytes fed to the trace digest are kept in [rs_trace]. *)
Record RoutineScenario := {
  rs_seed : N;
  rs_mode : RoutineReconfigurationMode;
  rs_authority : RoutineAuthority;
  rs_trace : bytes;
  rs_step : N;
  rs_anomaly_count : N;
  rs_first_mismatch_step : option N;
  rs_first_mismatch : option string;
  rs_authority_preparations : N;
  rs_learner_admissions : N;
  rs_learner_ready_certificates : N;
  rs_membership_changes : N;
  rs_finalize_attempts : N;
  rs_committed_transactions : N;
  rs_rejected_controls : N;
}.

Definition routine_scenario_new (seed : N) (mode : RoutineReconfigurationMode) : RoutineScenario :=
  {| rs_seed := seed; rs_mode := mode; rs_authority := routine_new mode;
     rs_trace := string_bytes "okv-routine-reconfiguration-v0" ++ u64_be seed
                 ++ string_bytes (routine_mode_id mode);
     rs_step := 0; rs_anomaly_count := 0; rs_first_mismatch_step := None;
     rs_first_mismatch := None; rs_authority_preparations := 0; rs_learner_admissions := 0;
     rs_learner_ready_certificates := 0; rs_membership_changes := 0; rs_finalize_attempts := 0;
     rs_committed_transactions := 0; rs_rejected_controls := 0 |}.

Definition routine_check (s : RoutineScenario) (invariant : string) (passed : bool)
    : RoutineScenario :=
  let step := saturating_add (rs_step s) 1 in
  let s := { s with rs_step := step;
                    rs_trace := rs_trace s ++ u64_be step ++ string_bytes invariant
                                ++ [if passed then 1%N else 0%N] } in
  if passed then s
  else
    let s := { s with rs_anomaly_count := saturating_add (rs_anomaly_count s) 1 } in
    match rs_first_mismatch s with
    | Some _ => s
    | None => { s with rs_first_mismatch_step := Some (rs_step s);
                       rs_first_mismatch := Some (invariant +:+ " failed") }
    end.

(** [counter.saturating_add(u64::from(passed))]. *)
Definition add_bool (counter : N) (passed : bool) : N :=
  saturating_add counter (if passed then 1 else 0)%N.

Definition rejected (s : RoutineScenario) (passed : bool) : RoutineScenario :=
  { s with rs_rejected_controls := add_bool (rs_rejected_controls s) passed }.
Definition committed_one (s : RoutineScenario) (passed : bool) : RoutineScenario :=
  { s with rs_committed_transactions := add_bool (rs_committed_transactions s) passed }.

Section contract.
Context (sha256 : bytes → bytes).

Definition incarnation (seed : N) : bytes := take 16 (sha256 (u64_be seed)).

Definition reuses (s : RoutineScenario) : bool := bool_decide (rs_mode s = ReuseNodeIdentity).
Definition next_voters_of (s : RoutineScenario) : gset N :=
  if reuses s then {[1; 2; 3]}%N else {[2; 3; 4]}%N.
Definition replacement_node_of (s : RoutineScenario) : N := if reuses s then 1 else 4.
Definition replacement_incarnation_of (s : RoutineScenario) : bytes :=
  if reuses s then replicate 16 17%N else incarnation (rs_seed s).
Definition reconfiguration_id (s : RoutineScenario) : N := N.max (rs_seed s) 1.

(** The checks up to the preparation, and the probes of a second one. *)
Definition routine_preparation (generation initial_epoch : N) (s : RoutineScenario)
    : RoutineScenario :=
  let id := reconfiguration_id s in
  let node := replacement_node_of s in
  let inc := replacement_incarnation_of s in
  let next := next_voters_of s in
  let unauthorized := authorize_learner (rs_authority s) id node inc in
  let s := routine_check (rejected s (negb unauthorized)) "learner_requires_authority"
             (negb unauthorized) in
  let stale_accepted :=
    (routine_prepare (rs_authority s) generation (saturating_sub initial_epoch 1) id next node
       inc).2 in
  let s := routine_check (rejected s (negb stale_accepted)) "stale_membership_epoch_rejected"
             (negb stale_accepted) in
  let '(authority, prepared) :=
    routine_prepare (rs_authority s) generation initial_epoch id next node inc in
  let s := { s with rs_authority := authority;
                    rs_authority_preparations :=
                      add_bool (rs_authority_preparations s) prepared } in
  let s := routine_check s "reconfiguration_prepared" prepared in
  let s := routine_check s "replacement_identity_and_incarnation_are_fresh"
             ((node =? 4)%N && negb (bool_decide (inc = replicate 16 17%N))) in
  let s := routine_check s "prepare_preserves_generation"
             (ra_generation (rs_authority s) =? generation)%N in
  let concurrent :=
    (routine_prepare (rs_authority s) generation initial_epoch (saturating_add id 1)
       {[1; 3; 5]}%N 5 (replicate 16 85%N)).2 in
  routine_check (rejected s (negb concurrent)) "concurrent_reconfiguration_rejected"
    (negb concurrent).

(** The checks of the learner's catch-up and of the membership change. *)
Definition routine_promotion (generation : N) (s : RoutineScenario) : RoutineScenario :=
  let id := reconfiguration_id s in
  let next := next_voters_of s in
  let authorized :=
    authorize_learner (rs_authority s) id (replacement_node_of s) (replacement_incarnation_of s) in
  let s := { s with rs_learner_admissions := add_bool (rs_learner_admissions s) authorized } in
  let s := routine_check s "prepared_learner_is_authorized" authorized in
  let during_catchup := can_commit (rs_authority s) 2 generation true in
  let s := routine_check (committed_one s during_catchup) "commits_continue_during_catchup"
             during_catchup in
  let early_promoted := (commit_membership (rs_authority s) id next 10).2 in
  let s := routine_check (rejected s (negb early_promoted))
             "promotion_requires_snapshot_and_suffix" (negb early_promoted) in
  let '(authority, learner_ready) := mark_learner_ready (rs_authority s) id 8 11 next in
  let s := { s with rs_authority := authority;
                    rs_learner_ready_certificates :=
                      add_bool (rs_learner_ready_certificates s) learner_ready } in
  let s := routine_check s "learner_ready_binds_exact_position" learner_ready in
  let '(authority, membership_committed) := commit_membership (rs_authority s) id next 12 in
  let s := { s with rs_authority := authority;
                    rs_membership_changes :=
                      add_bool (rs_membership_changes s) membership_committed } in
  routine_check s "membership_change_committed_once" membership_committed.

(** The checks of the finalization and of the voters it leaves. *)
Definition routine_finalization (generation initial_epoch : N) (s : RoutineScenario)
    : RoutineScenario :=
  let id := reconfiguration_id s in
  let attempt := λ s authority,
    { s with rs_authority := authority;
             rs_finalize_attempts := saturating_add (rs_finalize_attempts s) 1 } in
  let '(authority, finalized) := routine_finalize (rs_authority s) id 12 in
  let s := routine_check (attempt s authority) "authority_finalizes_exact_membership" finalized in
  let '(authority, retry) := routine_finalize (rs_authority s) id 12 in
  let s := routine_check (attempt s authority) "lost_finalize_reply_retries_exactly" retry in
  let s := routine_check s "membership_epoch_advances_once"
             (ra_membership_epoch (rs_authority s) =? saturating_add initial_epoch 1)%N in
  let s := routine_check s "active_voter_set_is_exact"
             (bool_decide (ra_active_voters (rs_authority s) = {[2; 3; 4]}%N)) in
  let s := routine_check s "routine_repair_preserves_generation"
             (ra_generation (rs_authority s) =? generation)%N in
  let removed_rejected := negb (can_commit (rs_authority s) 1 generation true) in
  let s := routine_check (rejected s removed_rejected) "removed_voter_cannot_commit"
             removed_rejected in
  let repaired_commit := can_commit (rs_authority s) 4 generation true in
  let s := routine_check (committed_one s repaired_commit) "new_voter_set_can_commit"
             repaired_commit in
  let no_quorum_rejected := negb (can_complete_routine_repair (rs_authority s) false) in
  routine_check (rejected s no_quorum_rejected) "lost_data_quorum_requires_generation_recovery"
    no_quorum_rejected.

Definition routine_run (s : RoutineScenario) : RoutineReconfigurationReport :=
  let generation := ra_generation (rs_authority s) in
  let initial_epoch := ra_membership_epoch (rs_authority s) in
  let s := routine_finalization generation initial_epoch (routine_promotion generation
             (routine_preparation generation initial_epoch s)) in
  {| rr_seed := rs_seed s; rr_mode := rs_mode s; rr_executed_checks := rs_step s;
     rr_anomaly_count := rs_anomaly_count s;
     rr_first_mismatch_step := rs_first_mismatch_step s;
     rr_first_mismatch := rs_first_mismatch s;
     rr_authority_preparations := rs_authority_preparations s;
     rr_learner_admissions := rs_learner_admissions s;
     rr_learner_ready_certificates := rs_learner_ready_certificates s;
     rr_membership_changes := rs_membership_changes s;
     rr_finalize_attempts := rs_finalize_attempts s;
     rr_committed_transactions := rs_committed_transactions s;
     rr_rejected_controls := rs_rejected_controls s;
     rr_generation := ra_generation (rs_authority s);
     rr_membership_epoch := ra_membership_epoch (rs_authority s);
     rr_active_voters := bts_items (ra_active_voters (rs_authority s));
     rr_trace_sha256 := bytes_string (hex_bytes (sha256 (rs_trace s))) |}.

Definition run_routine_reconfiguration_contract (seed : N) (mode : RoutineReconfigurationMode)
    : RoutineReconfigurationReport := routine_run (routine_scenario_new seed mode).
End contract.

(** ** Runs *)
Inductive routine_op :=
  | OpPrepare (generation epoch id : N) (next : gset N) (node : N) (inc : bytes)
  | OpReady (id snapshot applied : N) (next : gset N)
  | OpCommit (id : N) (next : gset N) (position : N)
  | OpFinalize (id position : N).

Definition routine_step (a : RoutineAuthority) (op : routine_op) : RoutineAuthority * bool :=
  match op with
  | OpPrepare generation epoch id next node inc =>
      routine_prepare a generation epoch id next node inc
  | OpReady id snapshot applied next => mark_learner_ready a id snapshot applied next
  | OpCommit id next position => commit_membership a id next position
  | OpFinalize id position => routine_finalize a id position
  end.

(** The operations so far with their answers, and the authority they lead to. *)
Inductive routine_history : list (routine_op * bool) → RoutineAuthority → Prop :=
  | history_new : routine_history [] (routine_new RoutineCorrect)
  | history_step h a op a' b :
      routine_history h a → routine_step a op = (a', b) → routine_history (h ++ [(op, b)]) a'.

(** ** The invariant *)

(** Nodes have different incarnations, and only voters have one. *)
Record routine_wf (a : RoutineAuthority) : Prop := {
  rw_mode : ra_mode a = RoutineCorrect;
  rw_generation : ra_generation a = 7%N;
  rw_size : size (ra_active_voters a) = 3;
  rw_incarnations : dom (ra_active_incarnations a) ⊆ ra_active_voters a;
  rw_distinct i j inc : ra_active_incarnations a !! i = Some inc →
    ra_active_incarnations a !! j = Some inc → i = j;
}.

(** How a pending reconfiguration came to be where it is. *)
Record prepared_in (h : list (routine_op * bool)) (a : RoutineAuthority)
    (p : PendingReconfiguration) (since : list (routine_op * bool)) : Prop := {
  pi_prepared : ∃ before,
    h = before ++ (OpPrepare (ra_generation a) (ra_membership_epoch a) (pr_id p) (pr_next_voters p)
                     (pr_replacement_node p) (pr_replacement_incarnation p), true) :: since;
  pi_old : pr_old_voters p = ra_active_voters a;
  pi_size : size (pr_next_voters p) = size (ra_active_voters a);
  pi_node : pr_replacement_node p ∈ pr_next_voters p;
  pi_fresh : pr_replacement_node p ∉ ra_active_voters a;
  pi_inc : ∀ i, ra_active_incarnations a !! i ≠ Some (pr_replacement_incarnation p);
  pi_ready : ∀ r, pr_learner_ready_position p = Some r →
    ∃ s, (0 < s ≤ r)%N ∧ (OpReady (pr_id p) s r (pr_next_voters p), true) ∈ since;
  pi_committed : ∀ m, pr_membership_position p = Some m →
    ∃ s r, (0 < s ≤ r)%N ∧ (r < m)%N ∧
      [(OpReady (pr_id p) s r (pr_next_voters p), true);
       (OpCommit (pr_id p) (pr_next_voters p) m, true)] `sublist_of` since;
}.

Definition pending_justified (h : list (routine_op * bool)) (a : RoutineAuthority) : Prop :=
  ∀ p, ra_pending a = Some p → ∃ since, prepared_in h a p since.

Lemma prepared_extend h a p since e :
  prepared_in h a p since → prepared_in (h ++ [e]) a p (since ++ [e]).
Proof.
  intros [[before ->] ? ? ? ? ? Hr Hc]. split; try done.
  - exists before. by rewrite <-(assoc_L (++)).
  - intros r (s & ? & ?)%Hr. exists s. set_solver.
  - intros m (s & r & ? & ? & Hsub)%Hc. exists s, r.
    do 2 (split; [done|]). by apply sublist_inserts_r.
Qed.

Lemma justified_extend h a e : pending_justified h a → pending_justified (h ++ [e]) a.
Proof. intros J p (since & Hp)%J. eauto using prepared_extend. Qed.

Lemma prepare_justified h a generation epoch id next node inc a' b :
  routine_wf a → pending_justified h a →
  routine_prepare a generation epoch id next node inc = (a', b) →
  routine_wf a' ∧
  pending_justified (h ++ [(OpPrepare generation epoch id next node inc, b)]) a'.
Proof.
  intros W J H. pose proof (rw_mode _ W) as Hm. unfold routine_prepare, ra_is in H.
  rewrite Hm, !bool_decide_false in H by done. cbn [negb] in H. rewrite !andb_true_r in H.
  destruct (_ || _) eqn:Hguard in H; [injection H as <- <-; by auto using justified_extend|].
  case_bool_decide as Hfresh; [injection H as <- <-; by auto using justified_extend|].
  destruct (bt_any _ _) eqn:Hany; [injection H as <- <-; by auto using justified_extend|].
  destruct (ra_pending a) as [pending|] eqn:Hpending.
  { case_bool_decide; injection H as <- <-; by auto using justified_extend. }
  injection H as <- <-. destruct a as [g e voters incs pend completed mode]. simpl in *.
  unfold RecordSetters.constant.
  apply orb_false_iff in Hguard as [Hguard Hnode]. apply orb_false_iff in Hguard as [Hguard Hsize].
  apply orb_false_iff in Hguard as [Hguard _]. apply orb_false_iff in Hguard as [Hgen Hepoch].
  apply negb_false_iff, bool_decide_eq_true in Hnode.
  apply negb_false_iff, Nat.eqb_eq in Hsize.
  apply negb_false_iff, N.eqb_eq in Hgen, Hepoch. subst.
  split; [by destruct W; split|]. intros p [= <-]. exists []. split; simpl; try done.
  - by exists h.
  - intros i Hi. rewrite bt_any_false in Hany. specialize (Hany _ _ Hi).
    by rewrite bool_decide_true in Hany.
Qed.

Lemma ready_justified h a id snapshot applied next a' b :
  routine_wf a → pending_justified h a → mark_learner_ready a id snapshot applied next = (a', b) →
  routine_wf a' ∧ pending_justified (h ++ [(OpReady id snapshot applied next, b)]) a'.
Proof.
  intros W J H. unfold mark_learner_ready in H.
  destruct (ra_pending a) as [p|] eqn:Hp; [|injection H as <- <-; by auto using justified_extend].
  destruct (_ || _) eqn:Hguard in H; [injection H as <- <-; by auto using justified_extend|].
  injection H as <- <-.
  apply orb_false_iff in Hguard as [Hguard Hnext]. apply orb_false_iff in Hguard as [Hguard Hpos].
  apply orb_false_iff in Hguard as [Hid Hsnap].
  apply negb_false_iff, bool_decide_eq_true in Hnext. apply negb_false_iff, N.eqb_eq in Hid.
  apply N.eqb_neq in Hsnap. apply N.ltb_ge in Hpos. subst.
  destruct (J p Hp) as (since & Hin).
  apply (prepared_extend _ _ _ _
    (OpReady (pr_id p) snapshot applied (pr_next_voters p), true)) in Hin.
  destruct a as [g e voters incs pend completed mode], p. simpl in *. unfold RecordSetters.constant.
  split; [by destruct W; split|]. intros p' [= <-]. eexists.
  destruct Hin as [Hh ? ? ? ? ? _ Hc]. split; simpl; try done.
  intros r [= <-]. exists snapshot. split; [lia|]. set_solver.
Qed.

Lemma commit_justified h a id next position a' b :
  routine_wf a → pending_justified h a → commit_membership a id next position = (a', b) →
  routine_wf a' ∧ pending_justified (h ++ [(OpCommit id next position, b)]) a'.
Proof.
  intros W J H. pose proof (rw_mode _ W) as Hm. unfold commit_membership, ra_is in H.
  destruct (ra_pending a) as [p|] eqn:Hp; [|injection H as <- <-; by auto using justified_extend].
  cbv zeta in H. rewrite Hm, (bool_decide_false (RoutineCorrect = _)), andb_true_r in H by done.
  destruct (_ || _) eqn:Hguard in H; [injection H as <- <-; by auto using justified_extend|].
  injection H as <- <-.
  apply orb_false_iff in Hguard as [Hguard Hready]. apply orb_false_iff in Hguard as [Hid Hnext].
  apply negb_false_iff in Hready. apply negb_false_iff, bool_decide_eq_true in Hnext.
  apply negb_false_iff, N.eqb_eq in Hid. subst.
  destruct (pr_learner_ready_position p) as [r|] eqn:Hr; [|done]. apply N.ltb_lt in Hready.
  destruct (J p Hp) as (since & Hin). pose proof (pi_ready _ _ _ _ Hin r Hr) as (s & Hs & Hready').
  apply (prepared_extend _ _ _ _ (OpCommit (pr_id p) (pr_next_voters p) position, true)) in Hin.
  destruct a as [g e voters incs pend completed mode], p. simpl in *. unfold RecordSetters.constant.
  split; [by destruct W; split|]. intros p' [= <-]. eexists.
  destruct Hin as [Hh ? ? ? ? ? Hrd _]. split; simpl; try done.
  intros m [= <-]. exists s, r. do 2 (split; [lia|]).
  apply (sublist_app [_] since [_]); [by apply singleton_sublist_l|done].
Qed.

(** The switch keeps incarnations different. *)
Lemma switch_wf h a id p since :
  routine_wf a → prepared_in h a p since → routine_wf (routine_switch a id p).
Proof.
  intros [? ? Hsize Hdom Hdis] [_ _ Hps Hnode Hfresh Hinc _ _].
  destruct a as [g e voters incs pend completed mode]. simpl in *.
  split; unfold routine_switch, RecordSetters.constant; simpl; try done; [congruence|..].
  - intros i. rewrite elem_of_dom. intros [x Hx].
    apply lookup_insert_Some in Hx as [[<- _]|[_ Hx]]; [done|].
    by apply map_lookup_filter_Some in Hx as [_ Hx].
  - intros i j x Hi Hj.
    apply lookup_insert_Some in Hi, Hj.
    destruct Hi as [[<- <-]|[? [Hi _]%map_lookup_filter_Some]],
      Hj as [[<- Hj]|[? [Hj _]%map_lookup_filter_Some]]; eauto.
    + by destruct (Hinc j).
    + subst. by destruct (Hinc i).
Qed.

(** A finalization answers without effect, or switches to the pending voters. *)
Lemma finalize_cases a id position a' b :
  routine_wf a → routine_finalize a id position = (a', b) →
  a' = a ∨ ∃ p, ra_pending a = Some p ∧ pr_id p = id ∧
    pr_membership_position p = Some position ∧ a' = routine_switch a id p ∧ b = true.
Proof.
  intros W H. unfold routine_finalize, ra_is in H.
  rewrite (rw_mode _ W), bool_decide_false in H by done.
  destruct (ra_completed a !! id) as [[e voters]|]; [injection H as <- <-; by left|].
  destruct (ra_pending a) as [p|]; [|injection H as <- <-; by left].
  destruct (_ || _) eqn:Hguard in H; injection H as <- <-; [by left|right].
  apply orb_false_iff in Hguard as [Hid Hpos]. exists p.
  by apply negb_false_iff, N.eqb_eq in Hid; apply negb_false_iff, bool_decide_eq_true in Hpos.
Qed.

Lemma step_invariant h a op a' b :
  routine_wf a → pending_justified h a → routine_step a op = (a', b) →
  routine_wf a' ∧ pending_justified (h ++ [(op, b)]) a'.
Proof.
  intros W J H. destruct op as [g e id next node inc|id s r next|id next m|id m]; simpl in H.
  - by eapply prepare_justified.
  - by eapply ready_justified.
  - by eapply commit_justified.
  - destruct (finalize_cases _ _ _ _ _ W H) as [->|(p & Hp & _ & _ & -> & ->)].
    + by auto using justified_extend.
    + destruct (J p Hp) as (since & Hin). split; [by eapply switch_wf|].
      by destruct a.
Qed.

Lemma history_invariant h a : routine_history h a → routine_wf a ∧ pending_justified h a.
Proof.
  induction 1 as [|h a op a' b _ [W J] Hstep]; [|by eapply step_invariant].
  split; [|done]. split; try done.
  assert (map_Forall (λ i inc, i = match inc with k :: _ => (k / 17)%N | [] => 0%N end)
      (ra_active_incarnations (routine_new RoutineCorrect))) as Hall
      by (apply (bool_decide_unpack _); vm_compute; done).
  intros i j inc Hi Hj. rewrite (Hall i inc Hi). by rewrite (Hall j inc Hj).
Qed.

Lemma prepare_voters a generation epoch id next node inc :
  let a' := (routine_prepare a generation epoch id next node inc).1 in
  ra_active_voters a' = ra_active_voters a ∧ ra_membership_epoch a' = ra_membership_epoch a.
Proof. unfold routine_prepare. destruct a. simpl. by repeat case_match. Qed.

(** C31. Voters change only with a justification. Over any sequence of operations in
    the correct mode, whatever their arguments, nodes have different
    incarnations, the number of voters and the generation stay, and an operation
    that changes the voters or the epoch is a finalization of a reconfiguration
    that was prepared at the current epoch and generation for a node that was not
    a voter; after its preparation the learner was certified ready from a
    snapshot, and then the membership change was committed above that position,
    at the certified one. It advances the epoch by one and installs exactly the
    prepared voters, and repeating it changes nothing. *)
Theorem routine_change_justified h a op a' b :
  routine_history h a → routine_step a op = (a', b) →
  routine_wf a' ∧
  (ra_active_voters a' = ra_active_voters a ∧ ra_membership_epoch a' = ra_membership_epoch a ∨
   ∃ id position next node inc s r before since,
     op = OpFinalize id position ∧ b = true ∧
     h = before ++ (OpPrepare (ra_generation a) (ra_membership_epoch a) id next node inc, true)
                   :: since ∧
     ([(OpReady id s r next, true); (OpCommit id next position, true)] `sublist_of` since) ∧
     (0 < s ≤ r)%N ∧ (r < position)%N ∧ node ∈ next ∧
     (node ∉ ra_active_voters a) ∧
     ra_active_voters a' = next ∧ ra_active_incarnations a' !! node = Some inc ∧
     ra_membership_epoch a' = saturating_add (ra_membership_epoch a) 1 ∧
     (∀ position', routine_finalize a' id position' = (a', true))).
Proof.
  intros [W J]%history_invariant Hstep.
  destruct (step_invariant _ _ _ _ _ W J Hstep) as [W' _]. split; [done|].
  destruct op as [g e id next node inc|id s r next|id next m|id m]; simpl in Hstep.
  - left. pose proof (prepare_voters a g e id next node inc) as Hv. by rewrite Hstep in Hv.
  - left. unfold mark_learner_ready in Hstep. destruct a. simpl in *. by repeat case_match; simplify_eq.
  - left. unfold commit_membership in Hstep. destruct a. simpl in *. by repeat case_match; simplify_eq.
  - destruct (finalize_cases _ _ _ _ _ W Hstep) as [->|(p & Hp & <- & Hm & -> & ->)]; [by left|right].
    destruct (J p Hp) as (since & [[before Hh] Ho Hs Hn Hf Hi Hr Hc]).
    destruct (Hc m Hm) as (s & r & Hsr & Hrm & Hsub).
    exists (pr_id p), m, (pr_next_voters p), (pr_replacement_node p),
      (pr_replacement_incarnation p), s, r, before, since.
    unfold routine_switch in W' |- *. destruct a. simpl in *. unfold RecordSetters.constant in *.
    repeat (split; [first [done|by rewrite lookup_insert_eq]|]).
    intros position'. unfold routine_finalize. simpl. rewrite lookup_insert_eq.
    pose proof (rw_mode _ W') as Hmode. simpl in Hmode. by rewrite Hmode.
Qed.

(** ** Examples *)
Module demo_routine.
Definition next : gset N := {[2; 3; 4]}%N.
Definition inc : bytes := replicate 16 68%N.
Definition repair : list routine_op :=
  [OpPrepare 7 4 1 next 4 inc; OpReady 1 8 11 next; OpCommit 1 next 12]%N.

Fixpoint record_run (a : RoutineAuthority) (h : list (routine_op * bool)) (ops : list routine_op)
    : list (routine_op * bool) * RoutineAuthority :=
  match ops with
  | [] => (h, a)
  | op :: ops =>
      let '(a', b) := routine_step a op in record_run a' (h ++ [(op, b)]) ops
  end.

Lemma record_history a h ops :
  routine_history h a → routine_history (record_run a h ops).1 (record_run a h ops).2.
Proof.
  revert a h. induction ops as [|op ops IH]; intros a h H; [done|]. simpl.
  destruct (routine_step a op) as [a' b] eqn:Hs. apply IH. by econstructor.
Qed.

Definition repaired := record_run (routine_new RoutineCorrect) [] repair.

(** A preparation that replaces every voter but declares one replacement. *)
Definition strangers : gset N := {[4; 5; 6]}%N.
Definition taken_over : RoutineAuthority :=
  (record_run (routine_new RoutineCorrect) []
     [OpPrepare 7 4 1 strangers 4 inc; OpReady 1 8 11 strangers; OpCommit 1 strangers 12;
      OpFinalize 1 12]%N).2.

(** A second repair under the id of a completed one. *)
Definition stuck : RoutineAuthority :=
  (record_run (routine_new RoutineCorrect) []
     (repair ++ [OpFinalize 1 12; OpPrepare 7 5 1 {[3; 4; 5]} 5 (replicate 16 85);
                 OpReady 1 20 21 {[3; 4; 5]}; OpCommit 1 {[3; 4; 5]} 22])%N).2.
End demo_routine.
Import demo_routine.

Lemma routine_change_justified_witness :
  let a' := (routine_step repaired.2 (OpFinalize 1 12)).1 in
  routine_wf a' ∧ ra_membership_epoch a' = 5%N.
Proof.
  intros a'. split; [|vm_compute; reflexivity].
  apply (routine_change_justified repaired.1 repaired.2 (OpFinalize 1 12) a' true).
  - apply record_history. constructor.
  - vm_compute. reflexivity.
Defined.

(** [prepare] compares the number of voters and the replacement only: a
    reconfiguration may also exchange voters it does not name, who then commit
    without a learner certificate or an incarnation of their own. *)
Theorem unnamed_voters_admitted :
  ra_active_voters taken_over = strangers ∧
  can_commit taken_over 5 7 true = true ∧ can_commit taken_over 1 7 true = false ∧
  ra_active_incarnations taken_over !! 5%N = None.
Proof. vm_compute. done. Qed.

(** [prepare] accepts the id of a completed reconfiguration, whose finalization
    is then answered from the completed one: it reports success, the voters do
    not change, and the reconfiguration stays pending, so no other can be
    prepared. *)
Theorem reused_id_blocks :
  (∀ position, routine_finalize stuck 1 position = (stuck, true)) ∧
  is_Some (ra_pending stuck) ∧ ra_active_voters stuck = next ∧
  (routine_prepare stuck 7 5 2 {[3; 4; 5]} 5 (replicate 16 85))%N.2 = false.
Proof. split; [intros position; vm_compute; reflexivity|]. vm_compute. eauto. Qed.
