(* ===== verification/GcModel.v ===== *)
(** * The publication and collection contract

    The model that [okv-model/src/publication_gc.rs] runs its contract on: an
    object store, an authority with roots and intents, reachability marks, and
    the scenario with its deliberately broken modes.

    The second half shows when a mark is complete, what a collection from it keeps,
    and the verdict of the contract in every mode. *)

From stdpp Require Import fin_sets fin_map_dom.
From coqutil Require Import Datatypes.RecordSetters.
Import OCamlLikeNotations.
From S2P Require Import Prelude Order BTree Bytes.

Inductive PublicationGcMode :=
  | GcCorrect
  | PublishPointerBeforeBlocks
  | OmitPublicationIntent
  | TrustAccountingCounter
  | TrustListForLiveness
  | ContinueIncompleteMark
  | DeleteWithoutRevalidation.
#[global] Instance PublicationGcMode_eq_dec : EqDecision PublicationGcMode.
Proof. solve_decision. Defined.

Definition gc_mode_id (mode : PublicationGcMode) : string :=
  match mode with
  | GcCorrect => "correct"
  | PublishPointerBeforeBlocks => "publish_pointer_before_blocks"
  | OmitPublicationIntent => "omit_publication_intent"
  | TrustAccountingCounter => "trust_accounting_counter"
  | TrustListForLiveness => "trust_list_for_liveness"
  | ContinueIncompleteMark => "continue_incomplete_mark"
  | DeleteWithoutRevalidation => "delete_without_revalidation"
  end.

(** ** The object store *)
Record StoredObject := {
  so_bytes : N;
  so_verified : bool;
  so_children : gset string;
}.

Record ObjectModel := {
  om_objects : gmap string StoredObject;
  om_requests : N;
  om_bytes_written : N;
}.

Definition om_default : ObjectModel :=
  {| om_objects := ∅; om_requests := 0; om_bytes_written := 0 |}.

Definition om_put (store : ObjectModel) (id : string) (bytes : N) (children : list string)
    : ObjectModel :=
  {| om_objects :=
       <[id := {| so_bytes := bytes; so_verified := true; so_children := list_to_set children |}]>
         (om_objects store);
     om_requests := saturating_add (om_requests store) 1;
     om_bytes_written := saturating_add (om_bytes_written store) bytes |}.

Definition om_verify_named (store : ObjectModel) (id : string) : ObjectModel * bool :=
  ({| om_objects := om_objects store; om_requests := saturating_add (om_requests store) 1;
      om_bytes_written := om_bytes_written store |},
   match om_objects store !! id with Some object => so_verified object | None => false end).

Definition om_delete (store : ObjectModel) (id : string) : ObjectModel :=
  {| om_objects := delete id (om_objects store);
     om_requests := saturating_add (om_requests store) 1;
     om_bytes_written := om_bytes_written store |}.

Definition om_physical_bytes (store : ObjectModel) : N :=
  foldl (λ total entry, saturating_add total (so_bytes entry.2)) 0%N
    (bt_items (om_objects store)).

(** ** The authority *)
Record GcAuthorityModel := {
  gam_roots : gmap string string;
  gam_intents : gmap string (gset string);
  gam_epoch : N;
}.

Definition gam_default : GcAuthorityModel :=
  {| gam_roots := ∅; gam_intents := ∅; gam_epoch := 0 |}.

Definition gam_prepare (a : GcAuthorityModel) (publication : string) (objects : list string)
    : GcAuthorityModel :=
  {| gam_roots := gam_roots a;
     gam_intents := <[publication := list_to_set objects]> (gam_intents a);
     gam_epoch := saturating_add (gam_epoch a) 1 |}.

Definition gam_publish (a : GcAuthorityModel) (publication root manifest : string)
    : GcAuthorityModel :=
  {| gam_roots := <[root := manifest]> (gam_roots a);
     gam_intents := delete publication (gam_intents a);
     gam_epoch := saturating_add (gam_epoch a) 1 |}.

(** ** Reachability *)
Record Mark := {
  mk_authority_epoch : N;
  mk_reachable : gset string;
  mk_complete : bool;
}.

(** The loop over the children, which the first error ends. *)
Fixpoint walk_children
    (visit : string → gset string → gset string * res unit unit)
    (children : list string) (reachable : gset string) : gset string * res unit unit :=
  match children with
  | [] => (reachable, Ok tt)
  | child :: children =>
      let '(reachable, r) := visit child reachable in
      match r with
      | Ok _ => walk_children visit children reachable
      | _ => (reachable, r)
      end
  end.

(** [fuel] bounds the depth of the recursion; running out of it is [Panic]. *)
Fixpoint collect_closure_fuel (fuel : nat) (store : ObjectModel) (object : string)
    (reachable : gset string) : gset string * res unit unit :=
  match fuel with
  | O => (reachable, Panic)
  | S fuel =>
      if decide (object ∈ reachable) then (reachable, Ok tt)
      else
        let reachable := {[object]} ∪ reachable in
        match om_objects store !! object with
        | None => (reachable, Err tt)
        | Some stored =>
            if negb (so_verified stored) then (reachable, Err tt)
            else walk_children (collect_closure_fuel fuel store)
                   (bts_items (so_children stored)) reachable
        end
  end.

(** Every nested call adds a stored object, and a missing one ends the walk. *)
Definition collect_closure (store : ObjectModel) (object : string) (reachable : gset string)
    : gset string * res unit unit :=
  collect_closure_fuel (2 + size (om_objects store)) store object reachable.

Definition is_ok {E A} (r : res E A) : bool := match r with Ok _ => true | _ => false end.

(** The loops of [mark] over the roots and over the objects of the intents. *)
Definition mark_root (store : ObjectModel) (fail_root : option string)
    (state : gset string * bool) (entry : string * string) : gset string * bool :=
  let '(reachable, complete) := state in
  if bool_decide (fail_root = Some entry.1) then (reachable, false)
  else
    let '(reachable, r) := collect_closure store entry.2 reachable in
    (reachable, complete && is_ok r).

Definition mark_intent_object (store : ObjectModel) (reachable : gset string) (object : string)
    : gset string :=
  let reachable := {[object]} ∪ reachable in
  match om_objects store !! object with
  | Some _ => (collect_closure store object reachable).1
  | None => reachable
  end.

Definition mark_of (authority : GcAuthorityModel) (store : ObjectModel) (fail_root : option string)
    : Mark :=
  let '(reachable, complete) :=
    foldl (mark_root store fail_root) (∅, true) (bt_items (gam_roots authority)) in
  let reachable :=
    foldl (λ reachable entry, foldl (mark_intent_object store) reachable (bts_items entry.2))
      reachable (bt_items (gam_intents authority)) in
  {| mk_authority_epoch := gam_epoch authority; mk_reachable := reachable;
     mk_complete := complete |}.

Definition candidates (store : ObjectModel) (mark : Mark) : list string :=
  List.filter (λ object, negb (bool_decide (object ∈ mk_reachable mark)))
    (bt_items (om_objects store)).*1.

Definition root_is_readable (authority : GcAuthorityModel) (store : ObjectModel) (root : string)
    : bool :=
  match gam_roots authority !! root with
  | None => false
  | Some manifest => is_ok (collect_closure store manifest ∅).2
  end.

Definition all_roots_are_readable (authority : GcAuthorityModel) (store : ObjectModel) : bool :=
  forallb (root_is_readable authority store) (bt_items (gam_roots authority)).*1.

(** [None] when a closure is incomplete. *)
Definition reachable_bytes (authority : GcAuthorityModel) (store : ObjectModel) : option N :=
  reachable ← foldl (λ acc entry,
      reachable ← acc;
      let '(reachable, r) := collect_closure store entry.2 reachable in
      if is_ok r then Some reachable else None)
    (Some ∅) (bt_items (gam_roots authority));
  Some (foldl (λ total object,
      match om_objects store !! object with
      | Some stored => saturating_add total (so_bytes stored)
      | None => total
      end) 0%N (bts_items reachable)).

(** ** The scenario *)
Record PublicationGcReport := {
  pgr_seed : N;
  pgr_mode : PublicationGcMode;
  pgr_executed_steps : N;
  pgr_anomaly_count : N;
  pgr_first_mismatch_step : option N;
  pgr_first_mismatch : option string;
  pgr_exact_checks : N;
  pgr_publication_intents : N;
  pgr_published_roots : N;
  pgr_verified_unknown_outcomes : N;
  pgr_complete_marks : N;
  pgr_incomplete_marks : N;
  pgr_drifted_counters : N;
  pgr_stale_list_observations : N;
  pgr_deferred_deletes : N;
  pgr_reclaimed_objects : N;
  pgr_object_requests : N;
  pgr_object_bytes_written : N;
  pgr_physical_bytes : N;
  pgr_live_bytes : N;
  pgr_trace_sha256 : string;
}.

(** The bytes fed to the trace digest are kept in [sc_trace]. *)
Record GcScenario := {
  sc_seed : N;
  sc_mode : PublicationGcMode;
  sc_authority : GcAuthorityModel;
  sc_store : ObjectModel;
  sc_trace : bytes;
  sc_step : N;
  sc_anomaly_count : N;
  sc_first_mismatch_step : option N;
  sc_first_mismatch : option string;
  sc_exact_checks : N;
  sc_publication_intents : N;
  sc_published_roots : N;
  sc_verified_unknown_outcomes : N;
  sc_complete_marks : N;
  sc_incomplete_marks : N;
  sc_drifted_counters : N;
  sc_stale_list_observations : N;
  sc_deferred_deletes : N;
  sc_reclaimed_objects : N;
}.

Definition gc_scenario_new (seed : N) (mode : PublicationGcMode) : GcScenario :=
  {| sc_seed := seed; sc_mode := mode; sc_authority := gam_default; sc_store := om_default;
     sc_trace := string_bytes "object-publication-gc-v1" ++ u64_be seed
                 ++ string_bytes (gc_mode_id mode);
     sc_step := 0; sc_anomaly_count := 0; sc_first_mismatch_step := None;
     sc_first_mismatch := None; sc_exact_checks := 0; sc_publication_intents := 0;
     sc_published_roots := 0; sc_verified_unknown_outcomes := 0; sc_complete_marks := 0;
     sc_incomplete_marks := 0; sc_drifted_counters := 0; sc_stale_list_observations := 0;
     sc_deferred_deletes := 0; sc_reclaimed_objects := 0 |}.

Definition gc_is (s : GcScenario) (mode : PublicationGcMode) : bool :=
  bool_decide (sc_mode s = mode).

Definition gc_trace (s : GcScenario) (l : bytes) : GcScenario :=
  { s with sc_trace := sc_trace s ++ l }.

Definition gc_store (s : GcScenario) (store : ObjectModel) : GcScenario :=
  { s with sc_store := store }.
Definition gc_put (s : GcScenario) (id : string) (bytes : N) (children : list string) : GcScenario :=
  gc_store s (om_put (sc_store s) id bytes children).
Definition gc_delete_all (s : GcScenario) (objects : list string) : GcScenario :=
  gc_store s (foldl om_delete (sc_store s) objects).

Definition gc_prepare (s : GcScenario) (publication : string) (objects : list string) : GcScenario :=
  let s := { s with sc_authority := gam_prepare (sc_authority s) publication objects;
                    sc_publication_intents := saturating_add (sc_publication_intents s) 1 } in
  gc_trace s (string_bytes "prepare" ++ string_bytes publication).

Definition gc_publish (s : GcScenario) (publication root manifest : string) : GcScenario :=
  let s := { s with sc_authority := gam_publish (sc_authority s) publication root manifest;
                    sc_published_roots := saturating_add (sc_published_roots s) 1 } in
  gc_trace s (string_bytes "publish" ++ string_bytes root ++ string_bytes manifest).

Definition gc_mark (s : GcScenario) (fail_root : option string) : GcScenario * Mark :=
  let mark := mark_of (sc_authority s) (sc_store s) fail_root in
  let s :=
    if mk_complete mark
    then { s with sc_complete_marks := saturating_add (sc_complete_marks s) 1 }
    else { s with sc_incomplete_marks := saturating_add (sc_incomplete_marks s) 1 } in
  (gc_trace s (string_bytes (if mk_complete mark then "complete-mark" else "incomplete-mark")),
   mark).

Definition gc_check (s : GcScenario) (invariant : string) (passed : bool) : GcScenario :=
  let s := { s with sc_step := saturating_add (sc_step s) 1;
                    sc_exact_checks := saturating_add (sc_exact_checks s) 1 } in
  let s := gc_trace s (u64_be (sc_step s) ++ string_bytes invariant ++ [if passed then 1%N else 0%N]) in
  if passed then s
  else
    let s := { s with sc_anomaly_count := saturating_add (sc_anomaly_count s) 1 } in
    match sc_first_mismatch s with
    | Some _ => s
    | None => { s with sc_first_mismatch_step := Some (sc_step s);
                       sc_first_mismatch := Some (invariant +:+ " failed") }
    end.

Definition gc_check_readable (s : GcScenario) (invariant root : string) : GcScenario :=
  gc_check s invariant (root_is_readable (sc_authority s) (sc_store s) root).

Definition primary_publication (s : GcScenario) : GcScenario :=
  let s := gc_prepare s "p1" ["block-a"; "block-b"; "manifest-1"] in
  let s :=
    if gc_is s PublishPointerBeforeBlocks
    then gc_check_readable (gc_publish s "p1" "orders" "manifest-1")
           "blocks_precede_visibility" "orders"
    else s in
  let s := gc_put s "block-a" 1024 [] in
  let '(store, verified) := om_verify_named (sc_store s) "block-a" in
  let s := gc_store s store in
  let s :=
    if verified
    then { s with sc_verified_unknown_outcomes := saturating_add (sc_verified_unknown_outcomes s) 1 }
    else s in
  let s := gc_put s "block-b" 1024 [] in
  let s := gc_put s "manifest-1" 256 ["block-a"; "block-b"] in
  if gc_is s PublishPointerBeforeBlocks then s
  else gc_check_readable (gc_publish s "p1" "orders" "manifest-1")
         "blocks_precede_visibility" "orders".

Definition inflight_publication_race (s : GcScenario) : GcScenario :=
  let s := if gc_is s OmitPublicationIntent then s else gc_prepare s "p2" ["block-c"; "manifest-2"] in
  let s := gc_put s "block-c" 768 [] in
  let s := gc_put s "manifest-2" 192 ["block-c"] in
  let s := gc_put s "orphan-o" 640 [] in
  let s := gc_put s "orphan-z" 512 [] in
  let '(s, mark) := gc_mark s None in
  let found := candidates (sc_store s) mark in
  let s := if gc_is s OmitPublicationIntent then gc_delete_all s found else s in
  let s := gc_publish s "p2" "inventory" "manifest-2" in
  gc_check_readable s "inflight_publication_is_rooted" "inventory".

Definition counter_drift (s : GcScenario) : GcScenario :=
  let s := { s with sc_drifted_counters := saturating_add (sc_drifted_counters s) 1 } in
  let s := if gc_is s TrustAccountingCounter then gc_delete_all s ["block-a"] else s in
  gc_check_readable s "accounting_counters_are_non_authoritative" "orders".

Definition stale_listing (s : GcScenario) : GcScenario :=
  let s := { s with sc_stale_list_observations := saturating_add (sc_stale_list_observations s) 1 } in
  let s := if gc_is s TrustListForLiveness then gc_delete_all s ["block-b"] else s in
  gc_check_readable s "list_is_non_authoritative" "orders".

Definition incomplete_walk (s : GcScenario) : GcScenario :=
  let '(s, mark) := gc_mark s (Some "orders"%string) in
  let s :=
    if gc_is s ContinueIncompleteMark then gc_delete_all s (candidates (sc_store s) mark) else s in
  gc_check s "gc_walk_is_complete_or_fails_closed"
    (negb (mk_complete mark) && all_roots_are_readable (sc_authority s) (sc_store s)).

Definition put_if_absent (s : GcScenario) (id : string) (bytes : N) : GcScenario :=
  match om_objects (sc_store s) !! id with Some _ => s | None => gc_put s id bytes [] end.

Definition delete_revalidation (s : GcScenario) : GcScenario :=
  let s := put_if_absent (put_if_absent s "orphan-o" 640) "orphan-z" 512 in
  let '(s, mark) := gc_mark s None in
  let found := candidates (sc_store s) mark in
  let s := gc_prepare s "snapshot-p" ["orphan-o"; "snapshot-manifest"] in
  let s := gc_put s "snapshot-manifest" 128 ["orphan-o"] in
  let s := gc_publish s "snapshot-p" "snapshot" "snapshot-manifest" in
  let s :=
    if gc_is s DeleteWithoutRevalidation then gc_delete_all s found
    else if negb (mk_authority_epoch mark =? gam_epoch (sc_authority s))%N
    then { s with sc_deferred_deletes :=
             saturating_add (sc_deferred_deletes s) (N.min (len found) U64_MAX) }
    else s in
  gc_check_readable s "delete_plan_is_revalidated" "snapshot".

Definition final_complete_collection (s : GcScenario) : GcScenario :=
  let '(s, mark) := gc_mark s None in
  let s :=
    if mk_complete mark then
      foldl (λ s candidate,
          let s := gc_delete_all s [candidate] in
          { s with sc_reclaimed_objects := saturating_add (sc_reclaimed_objects s) 1 })
        s (candidates (sc_store s) mark)
    else s in
  gc_check s "complete_mark_reclaims_only_unreachable_objects"
    (all_roots_are_readable (sc_authority s) (sc_store s) && (0 <? sc_reclaimed_objects s)%N).

Section report.
Context (sha256 : bytes → bytes).

Definition gc_run (s : GcScenario) : PublicationGcReport :=
  let s := final_complete_collection (delete_revalidation (incomplete_walk (stale_listing
             (counter_drift (inflight_publication_race (primary_publication s)))))) in
  {| pgr_seed := sc_seed s; pgr_mode := sc_mode s; pgr_executed_steps := sc_step s;
     pgr_anomaly_count := sc_anomaly_count s;
     pgr_first_mismatch_step := sc_first_mismatch_step s;
     pgr_first_mismatch := sc_first_mismatch s; pgr_exact_checks := sc_exact_checks s;
     pgr_publication_intents := sc_publication_intents s;
     pgr_published_roots := sc_published_roots s;
     pgr_verified_unknown_outcomes := sc_verified_unknown_outcomes s;
     pgr_complete_marks := sc_complete_marks s; pgr_incomplete_marks := sc_incomplete_marks s;
     pgr_drifted_counters := sc_drifted_counters s;
     pgr_stale_list_observations := sc_stale_list_observations s;
     pgr_deferred_deletes := sc_deferred_deletes s;
     pgr_reclaimed_objects := sc_reclaimed_objects s;
     pgr_object_requests := om_requests (sc_store s);
     pgr_object_bytes_written := om_bytes_written (sc_store s);
     pgr_physical_bytes := om_physical_bytes (sc_store s);
     pgr_live_bytes := default 0%N (reachable_bytes (sc_authority s) (sc_store s));
     pgr_trace_sha256 := bytes_string (hex_bytes (sha256 (sc_trace s))) |}.

Definition run_publication_gc_contract (seed : N) (mode : PublicationGcMode) : PublicationGcReport :=
  gc_run (gc_scenario_new seed mode).
End report.

Section closure.
Context (store : ObjectModel).
Implicit Types (R : gset string) (x y object : string).

Definition edge x y : Prop :=
  ∃ stored, om_objects store !! x = Some stored ∧ y ∈ so_children stored.
Definition intact x : Prop :=
  ∃ stored, om_objects store !! x = Some stored ∧ so_verified stored = true.
Definition reaches : string → string → Prop := rtc edge.

(** What was added is intact, and so are the ends of its references. *)
Definition closed_new R R' : Prop :=
  ∀ x, x ∈ R' → x ∉ R → intact x ∧ ∀ y, edge x y → y ∈ R'.

Lemma closed_new_trans R R1 R2 :
  R1 ⊆ R2 → closed_new R R1 → closed_new R1 R2 → closed_new R R2.
Proof.
  intros Hsub H1 H2 x Hx Hn. destruct (decide (x ∈ R1)) as [Hx1|Hx1]; [|by apply H2].
  destruct (H1 x Hx1 Hn) as [? Hy]. split; [done|]. intros y Hxy. by apply Hsub, Hy.
Qed.

(** The stored objects that were not visited yet. *)
Definition unvisited R : nat := size (dom (om_objects store) ∖ R).

Lemma unvisited_mono R R' : R ⊆ R' → unvisited R' ≤ unvisited R.
Proof. intros Hsub. unfold unvisited. apply subseteq_size. set_solver. Qed.

Lemma unvisited_add R x : is_Some (om_objects store !! x) → x ∉ R → unvisited ({[x]} ∪ R) < unvisited R.
Proof.
  intros Hx Hn. apply elem_of_dom in Hx. unfold unvisited. apply subset_size.
  split; [set_solver|]. intros Hsub. assert (x ∈ dom (om_objects store) ∖ ({[x]} ∪ R)) by set_solver.
  set_solver.
Qed.

(** A walk from some objects. *)
Record walked (n : nat) (from : list string) R (out : gset string * res unit unit) : Prop := {
  wk_grows : R ⊆ out.1;
  wk_reached x : x ∈ out.1 → x ∈ R ∨ ∃ o, o ∈ from ∧ reaches o x;
  wk_result : match out.2 with
    | Ok _ => (∀ o, o ∈ from → o ∈ out.1) ∧ closed_new R out.1
    | Err _ => ∃ o x, o ∈ from ∧ reaches o x ∧ ¬ intact x
    | Panic => n ≤ S (unvisited R)
    end;
}.

Lemma walk_children_walked n visit children R :
  (∀ x R, walked n [x] R (visit x R)) → walked n children R (walk_children visit children R).
Proof.
  intros Hvisit. revert R. induction children as [|c children IH]; intros R; cbn [walk_children].
  { split; cbn; [done|by left|]. split; [by intros o []%elem_of_nil|by intros x]. }
  pose proof (Hvisit c R) as Hc. destruct (visit c R) as [R1 r]. destruct Hc as [Hg Hr Hres].
  cbn in Hg, Hr, Hres.
  assert (∀ x, x ∈ R1 → x ∈ R ∨ ∃ o, o ∈ c :: children ∧ reaches o x) as Hr'.
  { intros x [?|(o & Ho%list_elem_of_singleton & Hx)]%Hr; [by left|]. right. subst o.
    exists c. split; [by constructor|done]. }
  destruct r as [[]|e|].
  - destruct Hres as [Hin Hclosed]. destruct (IH R1) as [Hg2 Hr2 Hres2].
    destruct (walk_children visit children R1) as [R2 r2]. cbn in *. split; cbn; [set_solver| |].
    + intros x [Hx|(o & Ho & Hx)]%Hr2; [by apply Hr'|]. right. exists o. split; [by constructor|done].
    + destruct r2 as [[]|e|].
      * destruct Hres2 as [Hin2 Hclosed2]. split; [|by eapply closed_new_trans].
        intros o [->|Ho]%elem_of_cons; [|by apply Hin2]. apply Hg2, Hin. by constructor.
      * destruct Hres2 as (o & x & ? & ? & ?). exists o, x. split; [by constructor|done].
      * pose proof (unvisited_mono _ _ Hg). lia.
  - split; cbn; [done|done|]. destruct Hres as (o & x & Ho%list_elem_of_singleton & ? & ?). subst o.
    exists c, x. split; [by constructor|done].
  - by split.
Qed.

Lemma collect_closure_walked n object R : walked n [object] R (collect_closure_fuel n store object R).
Proof.
  revert object R. induction n as [|n IH]; intros object R; cbn [collect_closure_fuel].
  { split; cbn; [done|by left|lia]. }
  destruct (decide (object ∈ R)) as [Hin|Hin].
  { split; cbn; [done|by left|]. split; [|by intros x].
    intros o Ho%list_elem_of_singleton. by subst o. }
  assert (∀ x, x ∈ {[object]} ∪ R → x ∈ R ∨ ∃ o, o ∈ [object] ∧ reaches o x) as Hself.
  { intros x [Hx%elem_of_singleton|?]%elem_of_union; [|by left]. subst x. right. exists object.
    split; [by constructor|apply rtc_refl]. }
  assert (¬ intact object → ∃ o x, o ∈ [object] ∧ reaches o x ∧ ¬ intact x) as Hbad.
  { intros Hb. exists object, object. split; [by constructor|]. split; [apply rtc_refl|done]. }
  destruct (om_objects store !! object) as [stored|] eqn:Hs.
  2: { split; cbn; [set_solver|done|]. apply Hbad. intros (s & Hs' & _). congruence. }
  destruct (so_verified stored) eqn:Hv; cbn [negb].
  2: { split; cbn; [set_solver|done|]. apply Hbad. intros (s & Hs' & ?). congruence. }
  destruct (walk_children_walked n (collect_closure_fuel n store) (bts_items (so_children stored))
    ({[object]} ∪ R) IH) as [Hg Hr Hres].
  destruct (walk_children _ _ _) as [R' r]. cbn in *.
  assert (∀ o, o ∈ bts_items (so_children stored) → edge object o) as Hedge.
  { intros o Ho%elem_of_bts_items. by exists stored. }
  split; cbn; [set_solver| |].
  - intros x [Hx|(o & Ho%Hedge & Hx)]%Hr; [by apply Hself|]. right. exists object.
    split; [by constructor|by eapply rtc_l].
  - destruct r as [[]|e|].
    + destruct Hres as [Hin' Hclosed]. split.
      { intros o Ho%list_elem_of_singleton. subst o. set_solver. }
      intros x Hx Hn. destruct (decide (x = object)) as [->|Hne]; [|apply Hclosed; set_solver].
      split; [by exists stored|]. intros y (s & Hs' & Hy). apply Hin', elem_of_bts_items. congruence.
    + destruct Hres as (o & x & Ho%Hedge & Hx & Hbad'). exists object, x.
      split; [by constructor|]. split; [by eapply rtc_l|done].
    + pose proof (unvisited_add R object ltac:(by eexists) Hin). lia.
Qed.

Lemma unvisited_le R : unvisited R ≤ size (om_objects store).
Proof. unfold unvisited. rewrite <-size_dom. apply subseteq_size. set_solver. Qed.

(** The fuel is enough. *)
Lemma collect_closure_total object R : (collect_closure store object R).2 ≠ Panic.
Proof.
  intros Hp. pose proof (wk_result _ _ _ _
    (collect_closure_walked (2 + size (om_objects store)) object R)) as Hres.
  unfold collect_closure in Hp. rewrite Hp in Hres. pose proof (unvisited_le R). lia.
Qed.

(** ** Sets closed under references *)
Definition good (P : string → Prop) : Prop := ∀ x, P x → intact x ∧ ∀ y, edge x y → P y.

Lemma good_reaches (P : string → Prop) x y : good P → P x → reaches x y → P y.
Proof. intros Hg Hx Hr. induction Hr as [|x z y Hxz _ IH]; [done|]. apply IH. by apply (Hg x Hx). Qed.

Definition closure_intact object : Prop := ∀ x, reaches object x → intact x.

(** The walk from nothing succeeds exactly when everything reachable is intact,
    and then it has visited exactly that. *)
Lemma collect_closure_exact object :
  (is_ok (collect_closure store object ∅).2 = true ↔ closure_intact object) ∧
  (is_ok (collect_closure store object ∅).2 = true →
   ∀ x, x ∈ (collect_closure store object ∅).1 ↔ reaches object x).
Proof.
  pose proof (collect_closure_total object ∅) as Ht. unfold collect_closure in *.
  destruct (collect_closure_walked (2 + size (om_objects store)) object ∅) as [_ Hr Hres].
  destruct (collect_closure_fuel _ _ _ _) as [R r]. cbn in *. destruct r as [[]|e|]; [| |done].
  - destruct Hres as [Hin Hclosed]. assert (good (.∈ R)) as Hgood by (intros x Hx; by apply Hclosed).
    assert (object ∈ R) as Ho by (apply Hin; by constructor).
    assert (∀ x, x ∈ R ↔ reaches object x) as Heq.
    { intros x. split; [|by apply (good_reaches (.∈ R))].
      intros [?|(o & Ho'%list_elem_of_singleton & ?)]%Hr; [set_solver|by subst o]. }
    split; [|done]. split; [|done]. intros _ x Hx. by apply (Hgood x), Heq.
  - destruct Hres as (o & x & Ho%list_elem_of_singleton & Hx & Hbad). subst o.
    split; [|done]. split; [done|]. intros Hall. by destruct (Hbad (Hall x Hx)).
Qed.
End closure.

(** ** Marks *)
Section marks.
Context (store : ObjectModel).
Implicit Types (R : gset string) (entries : list (string * string)).

(** The walk of the roots, none of them failing for another reason. *)
Lemma mark_roots_spec entries R c :
  let out := foldl (mark_root store None) (R, c) entries in
  R ⊆ out.1 ∧
  (∀ x, x ∈ out.1 → x ∈ R ∨ ∃ e, e ∈ entries ∧ reaches store e.2 x) ∧
  (out.2 = true → c = true ∧ (∀ e, e ∈ entries → e.2 ∈ out.1) ∧ closed_new store R out.1) ∧
  (out.2 = false → c = false ∨ ∃ e, e ∈ entries ∧ ¬ closure_intact store e.2).
Proof.
  revert R c. induction entries as [|e entries IH]; intros R c; cbn [foldl].
  { cbn. split_and!; [done|by left| |by left]. intros Hc.
    split_and!; [done|by intros e []%elem_of_nil|by intros x]. }
  assert (mark_root store None (R, c) e =
    let '(R1, r) := collect_closure store e.2 R in (R1, c && is_ok r)) as ->
    by (unfold mark_root; by rewrite bool_decide_false).
  unfold collect_closure.
  pose proof (collect_closure_total store e.2 R) as Ht. unfold collect_closure in Ht.
  destruct (collect_closure_walked store (2 + size (om_objects store)) e.2 R) as [Hg Hr Hres].
  destruct (collect_closure_fuel _ _ _ _) as [R1 r]. cbn in Hg, Hr, Hres, Ht.
  destruct (IH R1 (c && is_ok r)) as (Hg2 & Hr2 & Hok & Hfail). clear IH.
  set (out := foldl _ _ _) in *. split_and!; [set_solver| | |].
  - intros x [Hx|(e' & He' & Hx)]%Hr2; [|right; exists e'; split; [by constructor|done]].
    apply Hr in Hx as [?|(o & Ho%list_elem_of_singleton & ?)]; [by left|]. subst o. right.
    exists e. split; [by constructor|done].
  - intros Hout. destruct (Hok Hout) as ([Hc Hr1]%andb_true_iff & Hin & Hclosed).
    destruct r as [[]|?|]; [|done..]. destruct Hres as [Hin1 Hclosed1].
    split_and!; [done| |by eapply closed_new_trans].
    intros e' [->|He']%elem_of_cons; [|by apply Hin]. apply Hg2, Hin1. by constructor.
  - intros Hout. destruct (Hfail Hout) as [Hc|(e' & He' & ?)].
    2: { right. exists e'. split; [by constructor|done]. }
    destruct c; [|by left]. right. destruct r as [[]|?|]; [done| |done].
    destruct Hres as (o & x & Ho%list_elem_of_singleton & Hx & Hbad). subst o.
    exists e. split; [by constructor|]. intros Hall. by apply Hbad, Hall.
Qed.

(** Marking an object of an intent adds it, and nothing else: the walk starts
    from an object that is marked already. *)
Lemma mark_intent_object_exact R object : mark_intent_object store R object = {[object]} ∪ R.
Proof.
  unfold mark_intent_object. destruct (om_objects store !! object); [|done].
  unfold collect_closure. cbn [collect_closure_fuel Nat.add].
  by rewrite decide_True by set_solver.
Qed.

Lemma mark_intent_exact l R x : x ∈ foldl (mark_intent_object store) R l ↔ x ∈ R ∨ x ∈ l.
Proof.
  revert R. induction l as [|o l IH]; intros R; cbn [foldl]; [set_solver|].
  rewrite IH, mark_intent_object_exact, elem_of_cons. set_solver.
Qed.

Lemma mark_intents_exact (l : list (string * gset string)) R x :
  x ∈ foldl (λ R entry, foldl (mark_intent_object store) R (bts_items entry.2)) R l ↔
  x ∈ R ∨ ∃ entry, entry ∈ l ∧ x ∈ entry.2.
Proof.
  revert R. induction l as [|e l IH]; intros R; cbn [foldl].
  { split; [by left|]. intros [?|(e & []%elem_of_nil & _)]. done. }
  rewrite IH, mark_intent_exact, elem_of_bts_items. setoid_rewrite elem_of_cons. naive_solver.
Qed.

Context (authority : GcAuthorityModel).

Definition rooted x : Prop := ∃ root m, gam_roots authority !! root = Some m ∧ reaches store m x.
Definition intended x : Prop := ∃ p objects, gam_intents authority !! p = Some objects ∧ x ∈ objects.
Definition roots_intact : Prop :=
  ∀ root m, gam_roots authority !! root = Some m → closure_intact store m.

Lemma mark_exact :
  let mark := mark_of authority store None in
  (mk_complete mark = true ↔ roots_intact) ∧
  (mk_complete mark = true → ∀ x, x ∈ mk_reachable mark ↔ rooted x ∨ intended x).
Proof.
  unfold mark_of. pose proof (mark_roots_spec (bt_items (gam_roots authority)) ∅ true)
    as (_ & Hr & Hok & Hfail).
  destruct (foldl (mark_root store None) _ _) as [R c]. cbn in *.
  assert (∀ root m, (root, m) ∈ bt_items (gam_roots authority) ↔ gam_roots authority !! root = Some m)
    as Hitems by (intros; apply elem_of_bt_items).
  assert (c = true → good store (.∈ R) ∧ ∀ x, x ∈ R ↔ rooted x) as Htrue.
  { intros Hc. destruct (Hok Hc) as (_ & Hin & Hclosed).
    assert (good store (.∈ R)) as Hgood by (intros x Hx; by apply Hclosed). split; [done|]. intros x. split.
    - intros [?|([root m] & He%Hitems & ?)]%Hr; [set_solver|]. by exists root, m.
    - intros (root & m & Hm%Hitems & Hx). eapply (good_reaches store (.∈ R)); [done| |done]. by apply (Hin (root, m)). }
  split.
  - split.
    + intros Hc root m Hm x Hx. destruct (Htrue Hc) as [Hgood Heq]. apply (Hgood x), Heq. by exists root, m.
    + intros Hall. destruct c; [done|]. destruct (Hfail eq_refl) as [?|([root m] & He%Hitems & Hbad)];
        [done|]. destruct Hbad. by eapply Hall.
  - intros Hc x. rewrite mark_intents_exact, (proj2 (Htrue Hc)). f_equiv. split.
    + intros ([p objects] & Hp%elem_of_bt_items & ?). by exists p, objects.
    + intros (p & objects & Hp & ?). exists (p, objects). split; [by apply elem_of_bt_items|done].
Qed.
End marks.

(** ** Deletion *)
Lemma lookup_deleted ds store x :
  om_objects (foldl om_delete store ds) !! x =
  if decide (x ∈ ds) then None else om_objects store !! x.
Proof.
  revert store. induction ds as [|d ds IH]; intros store; cbn [foldl].
  { rewrite decide_False by apply not_elem_of_nil. done. }
  rewrite IH. cbn [om_delete om_objects]. destruct (decide (x ∈ ds)) as [Hin|Hin].
  { rewrite decide_True by by constructor. done. }
  destruct (decide (x = d)) as [->|Hne].
  - rewrite decide_True by by constructor. apply lookup_delete_eq.
  - rewrite decide_False by (rewrite elem_of_cons; naive_solver). by apply lookup_delete_ne.
Qed.

(** A closed set of intact objects survives the deletion of others. *)
Lemma good_deleted store ds (P : string → Prop) :
  good store P → (∀ x, x ∈ ds → ¬ P x) → good (foldl om_delete store ds) P.
Proof.
  intros Hgood Hds x Hx. destruct (Hgood x Hx) as [(s & Hs & Hv) Hy].
  assert (om_objects (foldl om_delete store ds) !! x = Some s) as Hs'.
  { rewrite lookup_deleted, decide_False; [done|]. intros Hin. by apply (Hds x). }
  split; [by exists s|]. intros y (s' & Hs'' & Hys). apply Hy. exists s. split; [done|congruence].
Qed.

Lemma closure_intact_deleted store ds m :
  closure_intact store m → (∀ x, x ∈ ds → ¬ reaches store m x) →
  closure_intact (foldl om_delete store ds) m.
Proof.
  intros Hm Hds.
  assert (good (foldl om_delete store ds) (reaches store m)) as Hgood.
  { apply good_deleted; [|done]. intros x Hx. split; [by apply Hm|]. intros y Hxy. by eapply rtc_r. }
  intros x Hx. apply (Hgood x). eapply good_reaches; [done|apply rtc_refl|done].
Qed.

Lemma root_is_readable_iff authority store root :
  root_is_readable authority store root = true ↔
  ∃ m, gam_roots authority !! root = Some m ∧ closure_intact store m.
Proof.
  unfold root_is_readable. destruct (gam_roots authority !! root) as [m|]; [|naive_solver].
  rewrite (proj1 (collect_closure_exact store m)). naive_solver.
Qed.

Lemma all_roots_are_readable_iff authority store :
  all_roots_are_readable authority store = true ↔ roots_intact store authority.
Proof.
  unfold all_roots_are_readable, roots_intact. rewrite forallb_Forall, Forall_forall. split.
  - intros Hall root m Hm. assert (root_is_readable authority store root = true) as Hr.
    { apply Hall, list_elem_of_fmap. exists (root, m). split; [done|]. by apply elem_of_bt_items. }
    apply root_is_readable_iff in Hr as (m' & Hm' & ?). by simplify_eq.
  - intros Hall root ([root' m] & -> & Hm%elem_of_bt_items)%list_elem_of_fmap.
    apply root_is_readable_iff. exists m. split; [done|]. by eapply Hall.
Qed.


(** *** A concrete store: a published manifest, a prepared one and an orphan *)
Module demo_gc.
Definition objects : ObjectModel :=
  om_put (om_put (om_put (om_put (om_put om_default "block" 8 []) "manifest" 2 ["block"])
    "next-block" 8 []) "next" 2 ["next-block"]) "orphan" 4 [].
Definition published : GcAuthorityModel := gam_publish gam_default "p1" "table" "manifest".
(** The intent names the manifest and its block, or the manifest only. *)
Definition prepared : GcAuthorityModel := gam_prepare published "p2" ["next"; "next-block"].
Definition underprepared : GcAuthorityModel := gam_prepare published "p2" ["next"].
End demo_gc.
Import demo_gc.


(** An intent does not protect what its objects refer to. [mark] means to
    walk from every object of an intent, but it marks the object first, and the
    walk stops at a marked object. With a stored manifest as the only object of
    an intent, a complete mark makes the block it refers to a candidate; after
    the block is deleted and the publication goes ahead the new root cannot be
    read, though it could before. *)
Theorem intent_closure_unprotected :
  mk_complete (mark_of underprepared objects None) = true ∧
  "next-block"%string ∈ candidates objects (mark_of underprepared objects None) ∧
  root_is_readable (gam_publish underprepared "p2" "view" "next") objects "view" = true ∧
  root_is_readable (gam_publish underprepared "p2" "view" "next")
    (om_delete objects "next-block") "view" = false.
Proof. vm_compute. split_and!; [done|left|done|done]. Qed.

(** The contract tells the broken modes apart. For every seed and whatever
    the digest function, the correct mode reports no anomaly, executes all seven
    checks and reclaims an object, and each broken mode is reported at the check
    that is about it. *)
Theorem gc_contract_verdicts sha256 seed :
  let report := run_publication_gc_contract sha256 seed in
  pgr_anomaly_count (report GcCorrect) = 0%N ∧
  pgr_executed_steps (report GcCorrect) = 7%N ∧
  (0 < pgr_reclaimed_objects (report GcCorrect))%N ∧
  pgr_physical_bytes (report GcCorrect) = pgr_live_bytes (report GcCorrect) ∧
  (λ mode, pgr_first_mismatch_step (report mode)) <$>
    [GcCorrect; PublishPointerBeforeBlocks; OmitPublicationIntent; TrustAccountingCounter;
     TrustListForLiveness; ContinueIncompleteMark; DeleteWithoutRevalidation]
  = [None; Some 1; Some 2; Some 3; Some 4; Some 5; Some 6]%N.
Proof. vm_compute. done. Qed.
