(* ===== verification/Htap.v ===== *)
(** * The base-plus-tail contract of the analytical store

    The model [okv-model/src/htap.rs] runs its contract on: rows written under
    two schemas, partitions that were materialized at different versions, the
    overlay of the later changes on them, and the scenario with its deliberately
    broken modes.

    The second half shows that a base with its tail answers as the whole history
    does, and the verdict of the contract in every mode. *)

From stdpp Require Import pretty.
From coqutil Require Import Datatypes.RecordSetters.
Import OCamlLikeNotations.
From S2P Require Import Prelude Order BTree Bytes.

Inductive HtapContractMode :=
  | HtapCorrect
  | PushdownPoison
  | SchemaPartitionMove
  | WalPopConflation
  | LeaseGcRace
  | CertificateToctou.
#[global] Instance HtapContractMode_eq_dec : EqDecision HtapContractMode.
Proof. solve_decision. Defined.

Definition htap_mode_id (mode : HtapContractMode) : string :=
  match mode with
  | HtapCorrect => "correct"
  | PushdownPoison => "pushdown_poison"
  | SchemaPartitionMove => "schema_partition_move"
  | WalPopConflation => "wal_pop_conflation"
  | LeaseGcRace => "lease_gc_race"
  | CertificateToctou => "certificate_toctou"
  end.

(** ** Rows and queries *)
Inductive RowStatus := StatusOpen | StatusClosed.
#[global] Instance RowStatus_eq_dec : EqDecision RowStatus.
Proof. solve_decision. Defined.

Inductive WriterFields :=
  | FieldsV1 (total_cents : N)
  | FieldsV2 (amount_cents priority : N).

Record WriterRow := {
  wr_id : N;
  wr_status : RowStatus;
  wr_partition : string;
  wr_fields : WriterFields;
}.

Record NormalizedRow := {
  nr_id : N;
  nr_status : RowStatus;
  nr_partition : string;
  nr_amount_cents : N;
  nr_priority : N;
}.

Record ProjectedRow := {
  pr_id : option N;
  pr_status : RowStatus;
  pr_partition : string;
  pr_amount_cents : N;
  pr_priority : N;
}.
#[global] Instance ProjectedRow_eq_dec : EqDecision ProjectedRow.
Proof. solve_decision. Defined.

Definition normalize (row : WriterRow) : NormalizedRow :=
  let '(amount_cents, priority) :=
    match wr_fields row with
    | FieldsV1 total_cents => (total_cents, 0%N)
    | FieldsV2 amount_cents priority => (amount_cents, priority)
    end in
  {| nr_id := wr_id row; nr_status := wr_status row; nr_partition := wr_partition row;
     nr_amount_cents := amount_cents; nr_priority := priority |}.

(** [sort_by], which is stable. *)
Section sort_by.
Context {A : Type} (cmp : A → A → comparison).
Fixpoint insert_by (x : A) (l : list A) : list A :=
  match l with
  | [] => [x]
  | y :: l' => match cmp x y with Gt => y :: insert_by x l' | _ => x :: l end
  end.
Definition sort_by (l : list A) : list A := foldr insert_by [] l.
End sort_by.

Record Query := {
  q_status : option RowStatus;
  q_include_id : bool;
  q_order_amount_desc : bool;
  q_limit : option nat;
}.

Definition query_pushdown_poison : Query :=
  {| q_status := Some StatusOpen; q_include_id := false; q_order_amount_desc := true;
     q_limit := Some 1 |}.
Definition query_all : Query :=
  {| q_status := None; q_include_id := true; q_order_amount_desc := false; q_limit := None |}.

Definition amount_desc (left right : NormalizedRow) : comparison :=
  match kcmp (nr_amount_cents right) (nr_amount_cents left) with
  | Eq => kcmp (nr_id left) (nr_id right)
  | c => c
  end.
Definition id_partition (left right : NormalizedRow) : comparison :=
  match kcmp (nr_id left) (nr_id right) with
  | Eq => kcmp (nr_partition left) (nr_partition right)
  | c => c
  end.

Definition project (query : Query) (row : NormalizedRow) : ProjectedRow :=
  {| pr_id := if q_include_id query then Some (nr_id row) else None; pr_status := nr_status row;
     pr_partition := nr_partition row; pr_amount_cents := nr_amount_cents row;
     pr_priority := nr_priority row |}.

Definition query_execute (query : Query) (rows : list NormalizedRow) : list ProjectedRow :=
  let rows :=
    match q_status query with
    | Some status => List.filter (λ row, bool_decide (nr_status row = status)) rows
    | None => rows
    end in
  let rows := sort_by (if q_order_amount_desc query then amount_desc else id_partition) rows in
  let rows := match q_limit query with Some limit => take limit rows | None => rows end in
  project query <$> rows.

(** ** Histories and bases *)
Record Change := {
  ch_version : N;
  ch_id : N;
  ch_previous_partition : option string;
  ch_after : option WriterRow;
}.

Record HtapHistory := {
  hh_initial : list WriterRow;
  hh_changes : list Change;
}.

Record BasePartition := {
  bp_partition : string;
  bp_watermark : N;
  bp_rows : list WriterRow;
}.

Definition writer_change (rows : gmap N WriterRow) (change : Change) : gmap N WriterRow :=
  match ch_after change with
  | Some after => <[ch_id change := after]> rows
  | None => delete (ch_id change) rows
  end.

Definition changes_upto (version : N) (changes : list Change) : list Change :=
  List.filter (λ change, (ch_version change <=? version)%N) changes.

Definition initial_rows (h : HtapHistory) : gmap N WriterRow :=
  foldl (λ rows row, <[wr_id row := row]> rows) ∅ (hh_initial h).

Definition writer_rows_at (h : HtapHistory) (version : N) : gmap N WriterRow :=
  foldl writer_change (initial_rows h) (changes_upto version (hh_changes h)).

Definition oracle (h : HtapHistory) (version : N) (query : Query) : list ProjectedRow :=
  query_execute query (normalize <$> (bt_items (writer_rows_at h version)).*2).

Definition base (h : HtapHistory) (partition : string) (watermark : N) : BasePartition :=
  {| bp_partition := partition; bp_watermark := watermark;
     bp_rows := List.filter (λ row, bool_decide (wr_partition row = partition))
                  (bt_items (writer_rows_at h watermark)).*2 |}.

(** ** The overlay *)
Record OverlayResult := {
  or_rows : list NormalizedRow;
  or_tail_rows : N;
  or_tail_bytes : N;
  or_peak_rows : N;
}.

Definition count_of (n : nat) : N := N.min (N.of_nat n) U64_MAX.
Definition str_len (s : string) : N := count_of (String.length s).

Definition change_size (change : Change) : N :=
  let old := match ch_previous_partition change with Some p => str_len p | None => 0%N end in
  let after :=
    match ch_after change with
    | Some row => (8 + 1 + str_len (wr_partition row) + 8 + 1)%N
    | None => 0%N
    end in
  saturating_add (saturating_add (8 + 8 + 1) old) after.

Record OverlayState := {
  os_rows : gmap (string * N) WriterRow;
  os_tail_rows : N;
  os_tail_bytes : N;
  os_peak_rows : N;
}.

Definition needed (watermarks : gmap string N) (change : Change) (partition : option string) : bool :=
  match partition with
  | None => false
  | Some partition =>
      match watermarks !! partition with
      | Some watermark => (watermark <? ch_version change)%N
      | None => false
      end
  end.

(** The row is filtered out by the query before it can hide the base's. *)
Definition poisoned (mode : HtapContractMode) (query : Query) (change : Change) : bool :=
  bool_decide (mode = PushdownPoison)
  && match q_status query with
     | None => false
     | Some status =>
         match ch_after change with
         | None => true
         | Some after => negb (bool_decide (nr_status (normalize after) = status))
         end
     end.

Definition skips_invalidation (mode : HtapContractMode) (change : Change) : bool :=
  bool_decide (mode = SchemaPartitionMove)
  && match ch_after change with
     | None => false
     | Some after => negb (bool_decide (ch_previous_partition change = Some (wr_partition after)))
     end.

(** The turn of the loop for one change. *)
Definition overlay_change (watermarks : gmap string N) (query : Query) (mode : HtapContractMode)
    (s : OverlayState) (change : Change) : OverlayState :=
  let previous_needed := needed watermarks change (ch_previous_partition change) in
  let next_needed := needed watermarks change (wr_partition <$> ch_after change) in
  if negb previous_needed && negb next_needed then s
  else if poisoned mode query change then s
  else
    let rows := os_rows s in
    let rows :=
      match ch_previous_partition change with
      | Some partition =>
          if previous_needed && negb (skips_invalidation mode change)
          then delete (partition, ch_id change) rows else rows
      | None => rows
      end in
    let rows :=
      match ch_after change with
      | Some after =>
          if next_needed then <[(wr_partition after, ch_id change) := after]> rows else rows
      | None => rows
      end in
    {| os_rows := rows; os_tail_rows := saturating_add (os_tail_rows s) 1;
       os_tail_bytes := saturating_add (os_tail_bytes s) (change_size change);
       os_peak_rows := N.max (os_peak_rows s) (count_of (size rows)) |}.

Definition base_watermarks (bases : list BasePartition) : gmap string N :=
  foldl (λ m b, <[bp_partition b := bp_watermark b]> m) ∅ bases.

Definition base_rows (bases : list BasePartition) : gmap (string * N) WriterRow :=
  foldl (λ m b, foldl (λ m row, <[(bp_partition b, wr_id row) := row]> m) m (bp_rows b)) ∅ bases.

Definition overlay (bases : list BasePartition) (changes : list Change) (target : N)
    (query : Query) (mode : HtapContractMode) : OverlayResult :=
  let rows := base_rows bases in
  let s :=
    foldl (overlay_change (base_watermarks bases) query mode)
      {| os_rows := rows; os_tail_rows := 0; os_tail_bytes := 0;
         os_peak_rows := count_of (size rows) |}
      (changes_upto target changes) in
  {| or_rows := normalize <$> (bt_items (os_rows s)).*2; or_tail_rows := os_tail_rows s;
     or_tail_bytes := os_tail_bytes s; or_peak_rows := os_peak_rows s |}.

(** ** The scenario *)
Record HtapContractReport := {
  hcr_seed : N;
  hcr_mode : HtapContractMode;
  hcr_executed_steps : N;
  hcr_anomaly_count : N;
  hcr_first_mismatch_step : option N;
  hcr_first_mismatch : option string;
  hcr_exact_checks : N;
  hcr_tail_rows : N;
  hcr_tail_bytes : N;
  hcr_peak_memory_bytes : N;
  hcr_spill_bytes : N;
  hcr_trace_sha256 : string;
}.

Inductive ApprovalDecision := ApprovalRetry | ApprovalApproved.
#[global] Instance ApprovalDecision_eq_dec : EqDecision ApprovalDecision.
Proof. solve_decision. Defined.

(** The bytes fed to the trace digest are kept in [hs_trace]. *)
Record HtapScenario := {
  hs_seed : N;
  hs_mode : HtapContractMode;
  hs_trace : bytes;
  hs_step : N;
  hs_anomaly_count : N;
  hs_first_mismatch_step : option N;
  hs_first_mismatch : option string;
  hs_exact_checks : N;
  hs_tail_rows : N;
  hs_tail_bytes : N;
  hs_peak_rows : N;
}.

Definition htap_scenario_new (seed : N) (mode : HtapContractMode) : HtapScenario :=
  {| hs_seed := seed; hs_mode := mode;
     hs_trace := string_bytes "okv-htap-contract-v1" ++ u64_be seed
                 ++ string_bytes (htap_mode_id mode);
     hs_step := 0; hs_anomaly_count := 0; hs_first_mismatch_step := None;
     hs_first_mismatch := None; hs_exact_checks := 0; hs_tail_rows := 0; hs_tail_bytes := 0;
     hs_peak_rows := 0 |}.

Definition row_v1 (id : N) (status : RowStatus) (partition : string) (total_cents : N) : WriterRow :=
  {| wr_id := id; wr_status := status; wr_partition := partition; wr_fields := FieldsV1 total_cents |}.
Definition row_v2 (id : N) (status : RowStatus) (partition : string) (amount_cents priority : N)
  : WriterRow :=
  {| wr_id := id; wr_status := status; wr_partition := partition;
     wr_fields := FieldsV2 amount_cents priority |}.

Definition run_overlay (s : HtapScenario) (bases : list BasePartition) (changes : list Change)
    (target : N) (query : Query) : HtapScenario * list ProjectedRow :=
  let result := overlay bases changes target query (hs_mode s) in
  ({ s with hs_tail_rows := saturating_add (hs_tail_rows s) (or_tail_rows result);
            hs_tail_bytes := saturating_add (hs_tail_bytes s) (or_tail_bytes result);
            hs_peak_rows := N.max (hs_peak_rows s) (or_peak_rows result) },
   query_execute query (or_rows result)).

Definition htap_check (s : HtapScenario) (action : string) (passed : bool) (detail : string)
  : HtapScenario :=
  let s := { s with hs_step := (hs_step s + 1)%N } in
  let s := { s with hs_trace := hs_trace s ++ u64_be (hs_step s) ++ string_bytes action
                     ++ [if passed then 1%N else 0%N] ++ string_bytes detail } in
  if passed then { s with hs_exact_checks := (hs_exact_checks s + 1)%N }
  else
    let s := { s with hs_anomaly_count := (hs_anomaly_count s + 1)%N } in
    match hs_first_mismatch s with
    | Some _ => s
    | None =>
        { s with hs_first_mismatch_step := Some (hs_step s);
                 hs_first_mismatch := Some (action +:+ ": " +:+ detail) }
    end.

Definition show_bool (b : bool) : string := if b then "true" else "false".
Definition show_decision (d : ApprovalDecision) : string :=
  match d with ApprovalRetry => "Retry" | ApprovalApproved => "Approved" end.

Section scenario.
(** The derived [Debug] text of rows, and SHA-256. *)
Context (debug_rows : list ProjectedRow → string) (sha256 : bytes → bytes).

Definition show_outcome (expected actual : list ProjectedRow) : string :=
  "expected=" +:+ debug_rows expected +:+ ", actual=" +:+ debug_rows actual.

Definition pushdown_history (bump : N) : HtapHistory :=
  {| hh_initial := [row_v1 1 StatusOpen "p0" (100 + bump); row_v1 2 StatusOpen "p0" (90 + bump)];
     hh_changes :=
       [{| ch_version := 11; ch_id := 1; ch_previous_partition := Some "p0";
           ch_after := Some (row_v2 1 StatusClosed "p0" (100 + bump) 1) |};
        {| ch_version := 12; ch_id := 3; ch_previous_partition := None;
           ch_after := Some (row_v2 3 StatusOpen "p0" (80 + bump) 2) |}] |}.
Definition pushdown_poison (s : HtapScenario) : HtapScenario :=
  let history := pushdown_history (hs_seed s `mod` 17)%N in
  let query := query_pushdown_poison in
  let expected := oracle history 12 query in
  let '(s, actual) := run_overlay s [base history "p0" 10] (hh_changes history) 12 query in
  htap_check s "pushdown_poison" (bool_decide (actual = expected)) (show_outcome expected actual).

Definition move_history (bump : N) : HtapHistory :=
  {| hh_initial := [row_v1 7 StatusOpen "west" (500 + bump)];
     hh_changes :=
       [{| ch_version := 11; ch_id := 7; ch_previous_partition := Some "west";
           ch_after := Some (row_v2 7 StatusOpen "east" (505 + bump) 7) |}] |}.
Definition schema_partition_move (s : HtapScenario) : HtapScenario :=
  let history := move_history (hs_seed s `mod` 19)%N in
  let query := query_all in
  let expected := oracle history 12 query in
  let '(s, actual) :=
    run_overlay s [base history "west" 10; base history "east" 9] (hh_changes history) 12 query in
  htap_check s "schema_partition_move" (bool_decide (actual = expected))
    (show_outcome expected actual).

Definition wal_pop_history (bump : N) : HtapHistory :=
  {| hh_initial := [row_v2 9 StatusOpen "p0" (40 + bump) 1];
     hh_changes :=
       [{| ch_version := 21; ch_id := 9; ch_previous_partition := Some "p0";
           ch_after := Some (row_v2 9 StatusOpen "p0" (60 + bump) 2) |}] |}.
Definition wal_pop_conflation (s : HtapScenario) : HtapScenario :=
  let history := wal_pop_history (hs_seed s `mod` 23)%N in
  let query := query_all in
  let expected := oracle history 25 query in
  let retained_changes :=
    if bool_decide (hs_mode s = WalPopConflation) then [] else hh_changes history in
  let analytical_tail_retained := negb (bool_decide (hs_mode s = WalPopConflation)) in
  let '(s, actual) := run_overlay s [base history "p0" 20] retained_changes 25 query in
  htap_check s "wal_pop_conflation"
    (analytical_tail_retained && bool_decide (actual = expected))
    ("recovery_watermark=25, base_watermark=20, tail_retained="
     +:+ show_bool analytical_tail_retained +:+ ", " +:+ show_outcome expected actual).

Definition lease_history (bump : N) : HtapHistory :=
  {| hh_initial := [row_v2 11 StatusOpen "p0" (100 + bump) 1];
     hh_changes :=
       [{| ch_version := 11; ch_id := 11; ch_previous_partition := Some "p0";
           ch_after := Some (row_v2 11 StatusOpen "p0" (120 + bump) 2) |};
        {| ch_version := 15; ch_id := 11; ch_previous_partition := Some "p0";
           ch_after := Some (row_v2 11 StatusOpen "p0" (150 + bump) 3) |}] |}.
Definition lease_gc_race (s : HtapScenario) : HtapScenario :=
  let history := lease_history (hs_seed s `mod` 29)%N in
  let query := query_all in
  let expected := oracle history 12 query in
  let '(bases, changes, closure_matches_lease) :=
    if bool_decide (hs_mode s = LeaseGcRace) then ([base history "p0" 15], [], false)
    else ([base history "p0" 10], hh_changes history, true) in
  let '(s, actual) := run_overlay s bases changes 12 query in
  htap_check s "lease_gc_race" (closure_matches_lease && bool_decide (actual = expected))
    ("lease_target=12, closure_matches_lease=" +:+ show_bool closure_matches_lease
     +:+ ", " +:+ show_outcome expected actual).

Definition certificate_toctou (s : HtapScenario) : HtapScenario :=
  let exposure_at_snapshot := (80 + hs_seed s `mod` 3)%N in
  let new_order := 15%N in
  let concurrent_order := 10%N in
  let limit := 100%N in
  let certificate_token := 30%N in
  let current_token := 31%N in
  let expected := ApprovalRetry in
  let actual :=
    if bool_decide (hs_mode s = CertificateToctou) then ApprovalApproved
    else if negb (certificate_token =? current_token)%N
            || (limit <? exposure_at_snapshot + concurrent_order + new_order)%N
    then ApprovalRetry
    else ApprovalApproved in
  htap_check s "certificate_toctou" (bool_decide (actual = expected))
    ("snapshot_exposure=" +:+ pretty exposure_at_snapshot +:+ ", concurrent="
     +:+ pretty concurrent_order +:+ ", new=" +:+ pretty new_order +:+ ", limit="
     +:+ pretty limit +:+ ", certificate_token=" +:+ pretty certificate_token
     +:+ ", current_token=" +:+ pretty current_token +:+ ", expected="
     +:+ show_decision expected +:+ ", actual=" +:+ show_decision actual).

Definition orders_history (bump : N) : HtapHistory :=
  {| hh_initial := [row_v2 21 StatusOpen "orders" (50 + bump) 1];
     hh_changes :=
       [{| ch_version := 12; ch_id := 21; ch_previous_partition := Some "orders";
           ch_after := Some (row_v2 21 StatusOpen "orders" (70 + bump) 2) |}] |}.
Definition customers_history : HtapHistory :=
  {| hh_initial := [row_v2 42 StatusOpen "customers" 0 1];
     hh_changes :=
       [{| ch_version := 13; ch_id := 42; ch_previous_partition := Some "customers";
           ch_after := Some (row_v2 42 StatusOpen "customers" 0 3) |}] |}.
Definition show_pair (p : list ProjectedRow * list ProjectedRow) : string :=
  "(" +:+ debug_rows p.1 +:+ ", " +:+ debug_rows p.2 +:+ ")".
Definition multi_table_snapshot (s : HtapScenario) : HtapScenario :=
  let orders := orders_history (hs_seed s `mod` 31)%N in
  let customers := customers_history in
  let query := query_all in
  let expected := (oracle orders 14 query, oracle customers 14 query) in
  let '(s, actual_orders) :=
    run_overlay s [base orders "orders" 10] (hh_changes orders) 14 query in
  let '(s, actual_customers) :=
    run_overlay s [base customers "customers" 11] (hh_changes customers) 14 query in
  let actual := (actual_orders, actual_customers) in
  htap_check s "multi_table_snapshot" (bool_decide (actual = expected))
    ("target=14, expected=" +:+ show_pair expected +:+ ", actual=" +:+ show_pair actual).

Definition htap_run (s : HtapScenario) : HtapScenario :=
  let s := pushdown_poison s in
  let s := schema_partition_move s in
  let s := wal_pop_conflation s in
  let s := lease_gc_race s in
  let s := certificate_toctou s in
  multi_table_snapshot s.

Definition htap_report (s : HtapScenario) : HtapContractReport :=
  {| hcr_seed := hs_seed s; hcr_mode := hs_mode s; hcr_executed_steps := hs_step s;
     hcr_anomaly_count := hs_anomaly_count s;
     hcr_first_mismatch_step := hs_first_mismatch_step s;
     hcr_first_mismatch := hs_first_mismatch s; hcr_exact_checks := hs_exact_checks s;
     hcr_tail_rows := hs_tail_rows s; hcr_tail_bytes := hs_tail_bytes s;
     hcr_peak_memory_bytes := N.min (hs_peak_rows s * 128) U64_MAX; hcr_spill_bytes := 0;
     hcr_trace_sha256 := bytes_string (hex_bytes (sha256 (hs_trace s))) |}.

Definition run_htap_contract (seed : N) (mode : HtapContractMode) : HtapContractReport :=
  htap_report (htap_run (htap_scenario_new seed mode)).
End scenario.

(** ** Sorting does not depend on the order of the input *)
Section sort_by_key.
Context {A K : Type} `{KeyOrder K} (key : A → K).
Let cmp (x y : A) : comparison := kcmp (key x) (key y).

Lemma insert_by_cons x y l :
  insert_by cmp x (y :: l) =
    if decide (key x ≤ₖ key y) then x :: y :: l else y :: insert_by cmp x l.
Proof.
  cbn. unfold cmp. case_decide as Hle; unfold key_le in Hle; destruct (kcmp _ _); naive_solver.
Qed.

Lemma insert_by_lt x y l :
  key x <ₖ key y → insert_by cmp x (insert_by cmp y l) = insert_by cmp y (insert_by cmp x l).
Proof.
  intros Hlt. assert (Hle := key_lt_le _ _ Hlt). assert (¬ key y ≤ₖ key x) by by apply key_not_le.
  induction l as [|z l IH].
  { change (insert_by cmp x [y] = insert_by cmp y [x]). rewrite !insert_by_cons.
    by rewrite decide_True, decide_False. }
  rewrite !(insert_by_cons _ z).
  destruct (decide (key y ≤ₖ key z)) as [Hy|Hy].
  - assert (key x ≤ₖ key z) by by eapply key_le_trans.
    rewrite (decide_True (P:=key x ≤ₖ key z)) by done. rewrite !insert_by_cons.
    by repeat case_decide.
  - destruct (decide (key x ≤ₖ key z)) as [Hx|Hx]; rewrite !insert_by_cons.
    + by repeat case_decide.
    + repeat case_decide; by rewrite ?IH.
Qed.

Lemma insert_by_comm x y l :
  (key x = key y → x = y) →
  insert_by cmp x (insert_by cmp y l) = insert_by cmp y (insert_by cmp x l).
Proof.
  intros Hinj. destruct (key_trichotomy (key x) (key y)) as [?|[Heq|?]];
    [by apply insert_by_lt|by rewrite (Hinj Heq)|symmetry; by apply insert_by_lt].
Qed.

Lemma sort_by_perm l1 l2 :
  l1 ≡ₚ l2 → (∀ x y, x ∈ l1 → y ∈ l1 → key x = key y → x = y) → sort_by cmp l1 = sort_by cmp l2.
Proof.
  intros Hperm Hinj. unfold sort_by.
  induction Hperm as [|x l1 l2 Hp IH|x y l|l1 l2 l3 H1 IH1 H2 IH2]; cbn [foldr].
  - done.
  - rewrite IH; [done|]. intros a b Ha Hb. apply Hinj; by right.
  - apply insert_by_comm. apply Hinj; repeat constructor.
  - rewrite IH1 by done. apply IH2. intros a b. rewrite <-!H1. apply Hinj.
Qed.
End sort_by_key.

(** Amounts are sorted from the largest down. *)
Record Desc := { desc : N }.
#[global] Program Instance desc_key_order : KeyOrder Desc :=
  {| kcmp x y := kcmp (desc y) (desc x) |}.
Next Obligation. intros [x] [y]. cbn -[kcmp]. rewrite kcmp_eq. naive_solver. Qed.
Next Obligation. intros [x] [y]. cbn -[kcmp]. apply kcmp_antisym. Qed.
Next Obligation. intros [x] [y] [z]; cbn -[kcmp]. intros. by eapply kcmp_trans. Qed.

Definition distinct_ids (rows : list NormalizedRow) : Prop :=
  ∀ x y, x ∈ rows → y ∈ rows → nr_id x = nr_id y → x = y.

Lemma query_execute_perm query l1 l2 :
  l1 ≡ₚ l2 → distinct_ids l1 → query_execute query l1 = query_execute query l2.
Proof.
  intros Hperm Hids. unfold query_execute.
  set (f := λ l, match q_status query with Some status =>
    List.filter (λ row, bool_decide (nr_status row = status)) l | None => l end).
  assert (Hf : f l1 ≡ₚ f l2).
  { unfold f. destruct (q_status query); [|done]. clear Hids.
    induction Hperm as [| | |]; cbn; repeat case_match; eauto using Permutation. }
  assert (Hdis : distinct_ids (f l1)).
  { intros x y Hx Hy. apply Hids; [revert Hx|revert Hy]; unfold f; destruct (q_status query);
      try done; rewrite !list_elem_of_In, filter_In; tauto. }
  change (match q_status query with Some status => _ | None => l1 end) with (f l1).
  change (match q_status query with Some status => _ | None => l2 end) with (f l2).
  assert (Hsort : sort_by (if q_order_amount_desc query then amount_desc else id_partition) (f l1) =
                  sort_by (if q_order_amount_desc query then amount_desc else id_partition) (f l2)).
  { destruct (q_order_amount_desc query).
    - refine (sort_by_perm (λ r, ({| desc := nr_amount_cents r |}, nr_id r)) _ _ Hf _).
      intros x y Hx Hy [= _ Heq]. by apply Hdis.
    - refine (sort_by_perm (λ r, (nr_id r, nr_partition r)) _ _ Hf _).
      intros x y Hx Hy [= Heq _]. by apply Hdis. }
  by rewrite Hsort.
Qed.

(** ** The state of a partition through the changes *)

(** What partition [p] holds of a row. *)
Definition in_partition (p : string) (o : option WriterRow) : option WriterRow :=
  match o with
  | Some row => if decide (wr_partition row = p) then Some row else None
  | None => None
  end.

Definition change_ok (rows : gmap N WriterRow) (c : Change) : Prop :=
  ch_previous_partition c = wr_partition <$> rows !! ch_id c ∧
  (∀ row, ch_after c = Some row → wr_id row = ch_id c).

(** Each change names the partition its row was in and the row's own id. *)
Fixpoint changes_ok (rows : gmap N WriterRow) (cs : list Change) : Prop :=
  match cs with
  | [] => True
  | c :: cs' => change_ok rows c ∧ changes_ok (writer_change rows c) cs'
  end.

Record history_ok (h : HtapHistory) : Prop := {
  ho_changes : changes_ok (initial_rows h) (hh_changes h);
  ho_sorted : StronglySorted (λ c d, (ch_version c ≤ ch_version d)%N) (hh_changes h);
}.

Definition exact_mode (mode : HtapContractMode) : Prop :=
  mode ≠ PushdownPoison ∧ mode ≠ SchemaPartitionMove.

Lemma changes_ok_app rows cs1 cs2 :
  changes_ok rows (cs1 ++ cs2) ↔ changes_ok rows cs1 ∧ changes_ok (foldl writer_change rows cs1) cs2.
Proof. revert rows. induction cs1 as [|c cs1 IH]; intros rows; cbn; [tauto|]. rewrite IH. tauto. Qed.

Lemma changes_upto_none v cs : Forall (λ c, (v < ch_version c)%N) cs → changes_upto v cs = [].
Proof.
  unfold changes_upto. induction 1 as [|c cs Hc _ IH]; [done|]. cbn. rewrite IH.
  by destruct (N.leb_spec (ch_version c) v); [lia|].
Qed.

(** The changes up to a version are a prefix of the history. *)
Lemma changes_upto_split v cs :
  StronglySorted (λ c d, (ch_version c ≤ ch_version d)%N) cs →
  ∃ rest, cs = changes_upto v cs ++ rest ∧ Forall (λ c, (v < ch_version c)%N) rest.
Proof.
  induction 1 as [|c cs Hs [rest [IH Hrest]] Hle]; [by exists []|].
  destruct (N.leb_spec (ch_version c) v) as [Hc|Hc].
  - exists rest. split; [|done]. rewrite IH at 1. unfold changes_upto. cbn.
    by destruct (N.leb_spec (ch_version c) v); [|lia].
  - assert (Hall : Forall (λ d, (v < ch_version d)%N) (c :: cs)).
    { constructor; [done|]. eapply Forall_impl; [exact Hle|]; cbn; lia. }
    exists (c :: cs). by rewrite changes_upto_none.
Qed.

Lemma changes_upto_upto v w cs : (v ≤ w)%N → changes_upto v (changes_upto w cs) = changes_upto v cs.
Proof.
  intros Hvw. unfold changes_upto. induction cs as [|c cs IH]; [done|]. cbn.
  destruct (N.leb_spec (ch_version c) w); cbn; rewrite IH; [done|].
  destruct (N.leb_spec (ch_version c) v); [lia|done].
Qed.

Section partition.
Context (ws : gmap string N) (query : Query) (mode : HtapContractMode) (Hmode : exact_mode mode).
Context (p : string) (w : N) (Hp : ws !! p = Some w).

(** The rows once the change has invalidated the one it replaces. *)
Definition invalidated (s : OverlayState) (c : Change) : gmap (string * N) WriterRow :=
  match ch_previous_partition c with
  | Some q => if needed ws c (Some q) then delete (q, ch_id c) (os_rows s) else os_rows s
  | None => os_rows s
  end.

Lemma overlay_change_rows s c :
  os_rows (overlay_change ws query mode s c) =
    match ch_after c with
    | Some row =>
        if needed ws c (Some (wr_partition row))
        then <[(wr_partition row, ch_id c) := row]> (invalidated s c) else invalidated s c
    | None => invalidated s c
    end.
Proof.
  destruct Hmode as [Hm1 Hm2]. unfold overlay_change, poisoned, skips_invalidation, invalidated.
  rewrite !bool_decide_false by done.
  destruct (ch_previous_partition c) as [q|], (ch_after c) as [row|]; cbn [fmap option_fmap option_map];
    change (needed ws c None) with false; repeat destruct (needed ws c (Some _)); done.
Qed.

Lemma needed_partition c : needed ws c (Some p) = (w <? ch_version c)%N.
Proof. cbn. by rewrite Hp. Qed.

Lemma invalidated_lookup s c id :
  invalidated s c !! (p, id) =
    if decide (id = ch_id c ∧ (w < ch_version c)%N ∧ ch_previous_partition c = Some p)
    then None else os_rows s !! (p, id).
Proof.
  unfold invalidated. destruct (ch_previous_partition c) as [q|]; [|by rewrite decide_False by naive_solver].
  destruct (decide (q = p)) as [->|Hq].
  - rewrite needed_partition. destruct (N.ltb_spec w (ch_version c)).
    + rewrite lookup_delete. case_decide; case_decide; naive_solver.
    + rewrite decide_False; [done|]. intros (?&?&?). lia.
  - rewrite decide_False by naive_solver. destruct (needed ws c (Some q)); [|done].
    rewrite lookup_delete_ne; [done|]. naive_solver.
Qed.

(** One change at the keys of one partition. *)
Lemma overlay_change_lookup s c id :
  os_rows (overlay_change ws query mode s c) !! (p, id) =
    if decide (id = ch_id c ∧ (w < ch_version c)%N) then
      match in_partition p (ch_after c) with
      | Some row => Some row
      | None => if decide (ch_previous_partition c = Some p) then None else os_rows s !! (p, id)
      end
    else os_rows s !! (p, id).
Proof.
  assert (Hinv := invalidated_lookup s c id).
  rewrite overlay_change_rows. unfold in_partition. destruct (ch_after c) as [row|]; cycle 1.
  { rewrite Hinv. repeat case_decide; naive_solver. }
  destruct (decide (wr_partition row = p)) as [Heq|Hrow].
  - rewrite Heq, needed_partition. destruct (N.ltb_spec w (ch_version c)).
    + rewrite lookup_insert. repeat case_decide; naive_solver.
    + rewrite Hinv, !decide_False; [done|intros [??]; lia|intros (?&?&?); lia].
  - destruct (needed _ _ _); [rewrite lookup_insert_ne by naive_solver|];
      rewrite Hinv; repeat case_decide; naive_solver.
Qed.

(** Changes the base already holds leave the partition alone. *)
Lemma overlay_before s cs :
  Forall (λ c, (ch_version c ≤ w)%N) cs →
  ∀ id, os_rows (foldl (overlay_change ws query mode) s cs) !! (p, id) = os_rows s !! (p, id).
Proof.
  intros Hall id. revert s. induction Hall as [|c cs Hc _ IH]; intros s; [done|]. cbn [foldl].
  rewrite IH, overlay_change_lookup, decide_False; [done|]. intros [_ ?]. lia.
Qed.

(** Later changes keep the partition at the writer's state. *)
Lemma overlay_after rows s cs :
  Forall (λ c, (w < ch_version c)%N) cs → changes_ok rows cs →
  (∀ id, os_rows s !! (p, id) = in_partition p (rows !! id)) →
  ∀ id, os_rows (foldl (overlay_change ws query mode) s cs) !! (p, id) =
        in_partition p (foldl writer_change rows cs !! id).
Proof.
  intros Hall. revert rows s. induction Hall as [|c cs Hc _ IH]; intros rows s Hok Hs; [done|].
  cbn [foldl]. destruct Hok as [[Hprev Hid] Hok]. apply IH; [done|]. intros id.
  rewrite overlay_change_lookup, Hprev, Hs. unfold writer_change.
  destruct (decide (id = ch_id c)) as [->|Hne].
  - rewrite decide_True by done. destruct (ch_after c) as [row|].
    + rewrite lookup_insert_eq. unfold in_partition.
      destruct (decide (wr_partition row = p)); [done|].
      destruct (rows !! ch_id c) as [old|]; cbn; repeat case_decide; naive_solver.
    + rewrite lookup_delete_eq. unfold in_partition. cbn.
      destruct (rows !! ch_id c) as [old|]; cbn; repeat case_decide; naive_solver.
  - rewrite decide_False by naive_solver.
    destruct (ch_after c); [rewrite lookup_insert_ne|rewrite lookup_delete_ne]; done.
Qed.
End partition.

(** Partitions without a base are left out. *)
Lemma overlay_uncovered ws query mode p s cs id :
  exact_mode mode → ws !! p = None →
  os_rows (foldl (overlay_change ws query mode) s cs) !! (p, id) = os_rows s !! (p, id).
Proof.
  intros Hmode Hp. revert s. induction cs as [|c cs IH]; intros s; [done|]. cbn [foldl].
  rewrite IH, overlay_change_rows by done. unfold invalidated.
  assert (Hn : needed ws c (Some p) = false) by (cbn; by rewrite Hp).
  assert (Hinv : (match ch_previous_partition c with
      | Some q => if needed ws c (Some q) then delete (q, ch_id c) (os_rows s) else os_rows s
      | None => os_rows s end) !! (p, id) = os_rows s !! (p, id)).
  { destruct (ch_previous_partition c) as [q|]; [|done].
    destruct (decide (q = p)) as [->|?]; [by rewrite Hn|].
    destruct (needed ws c (Some q)); [|done]. apply lookup_delete_ne. naive_solver. }
  destruct (ch_after c) as [row|]; [|done].
  destruct (decide (wr_partition row = p)) as [->|?]; [by rewrite Hn|].
  destruct (needed ws c (Some (wr_partition row))); [|done].
  rewrite lookup_insert_ne; [done|]. naive_solver.
Qed.

(** ** What the bases hold *)
Lemma base_watermarks_lookup bases p w :
  NoDup (bp_partition <$> bases) →
  base_watermarks bases !! p = Some w ↔ ∃ b, b ∈ bases ∧ bp_partition b = p ∧ bp_watermark b = w.
Proof.
  unfold base_watermarks. induction bases as [|b bases IH] using rev_ind; intros Hnd.
  { split; [done|]. intros (b&Hb&_). by apply not_elem_of_nil in Hb. }
  rewrite fmap_app, NoDup_app in Hnd. destruct Hnd as (Hnd&Hdis&_). specialize (IH Hnd).
  rewrite foldl_app. cbn. rewrite lookup_insert_Some, IH. setoid_rewrite elem_of_app.
  setoid_rewrite list_elem_of_singleton. split.
  - intros [[<- <-]|[Hne (b'&?&?&?)]]; eauto 10.
  - intros (b'&[Hb'| ->]&<-&<-); [|by left]. right. split; [|eauto].
    intros Heq. apply (Hdis (bp_partition b')); [by apply list_elem_of_fmap_2|].
    rewrite <-Heq. by left.
Qed.

Definition keyed (rows : gmap N WriterRow) : Prop := ∀ id row, rows !! id = Some row → wr_id row = id.

Lemma base_rows_inner (q : string) (rows : list WriterRow) (m : gmap (string * N) WriterRow)
    (p : string) (id : N) (row : WriterRow) :
  (∀ x y, x ∈ rows → y ∈ rows → wr_id x = wr_id y → x = y) →
  foldl (λ m row, <[(q, wr_id row) := row]> m) m rows !! (p, id) = Some row ↔
  (q = p ∧ row ∈ rows ∧ wr_id row = id) ∨
  ((q = p → ∀ x, x ∈ rows → wr_id x ≠ id) ∧ m !! (p, id) = Some row).
Proof.
  induction rows as [|x rows IH] using rev_ind; intros Hinj.
  { cbn. split; [intros ?; right; split; [|done]; intros _ x Hx; by apply not_elem_of_nil in Hx|].
    intros [(_&Hx&_)|[_ ?]]; [by apply not_elem_of_nil in Hx|done]. }
  rewrite foldl_app. cbn. rewrite lookup_insert_Some, IH; cycle 1.
  { intros a b Ha Hb. apply Hinj; apply elem_of_app; by left. }
  setoid_rewrite elem_of_app. setoid_rewrite list_elem_of_singleton. split.
  - intros [[[= -> <-] <-]|[Hne [(->&?&<-)|[Hno ?]]]]; [left; naive_solver|left; naive_solver|].
    right. split; [|done]. intros -> y [Hy| ->]; naive_solver.
  - intros [(->&[Hy| ->]&<-)|[Hno ?]]; [|by left; eauto|right; split; [naive_solver|right; naive_solver]].
    destruct (decide (wr_id x = wr_id row)) as [Heq|Hne]; [left|right; naive_solver].
    rewrite Heq. split; [done|].
    apply Hinj; [apply elem_of_app; right; by left|apply elem_of_app; by left|done].
Qed.

Definition partition_ok (b : BasePartition) : Prop :=
  ∀ x y, x ∈ bp_rows b → y ∈ bp_rows b → wr_id x = wr_id y → x = y.

Lemma base_rows_lookup bases p id row :
  NoDup (bp_partition <$> bases) → Forall partition_ok bases →
  base_rows bases !! (p, id) = Some row ↔
  ∃ b, b ∈ bases ∧ bp_partition b = p ∧ row ∈ bp_rows b ∧ wr_id row = id.
Proof.
  unfold base_rows. induction bases as [|b bases IH] using rev_ind; intros Hnd Hok.
  { split; [done|]. intros (b&Hb&_). by apply not_elem_of_nil in Hb. }
  rewrite fmap_app, NoDup_app in Hnd. destruct Hnd as (Hnd&Hdis&_).
  apply Forall_app in Hok as [Hok Hb]. rewrite Forall_singleton in Hb. specialize (IH Hnd Hok).
  rewrite foldl_app. cbn. rewrite base_rows_inner by exact Hb. rewrite IH.
  setoid_rewrite elem_of_app. setoid_rewrite list_elem_of_singleton. split.
  - intros [(?&?&?)|[_ (b'&?&?&?&?)]]; eauto 10.
  - intros (b'&[Hb'| ->]&<-&?&?); [|left; eauto]. right. split; [|eauto].
    intros Heq. exfalso. apply (Hdis (bp_partition b')); [by apply list_elem_of_fmap_2|].
    rewrite <-Heq. by left.
Qed.

Lemma elem_of_bt_values `{KeyOrder K, Countable K} {V} (m : gmap K V) v :
  v ∈ (bt_items m).*2 ↔ ∃ k, m !! k = Some v.
Proof.
  rewrite list_elem_of_fmap. split.
  - intros ([k v']&->&Hin%elem_of_bt_items). eauto.
  - intros [k Hk%elem_of_bt_items]. by exists (k, v).
Qed.

Lemma bt_values_NoDup `{KeyOrder K, Countable K} {V} (m : gmap K V) (f : V → K) :
  (∀ k v, m !! k = Some v → f v = k) → NoDup (bt_items m).*2.
Proof.
  intros Hf. apply (NoDup_fmap_1 f). rewrite <-list_fmap_compose.
  erewrite list_fmap_ext; [apply (bt_items_NoDup m)|].
  intros i [k v] Hi. cbn. apply Hf, elem_of_bt_items. by eapply list_elem_of_lookup_2.
Qed.

Lemma initial_rows_keyed h : keyed (initial_rows h).
Proof.
  unfold keyed, initial_rows. induction (hh_initial h) as [|x l IH] using rev_ind; intros id row; [done|].
  rewrite foldl_app. cbn. rewrite lookup_insert_Some. naive_solver.
Qed.

Lemma writer_changes_keyed rows cs : keyed rows → changes_ok rows cs → keyed (foldl writer_change rows cs).
Proof.
  revert rows. induction cs as [|c cs IH]; intros rows Hk; [done|]. intros [[_ Hid] Hok]. cbn [foldl].
  apply IH; [|done]. intros id row. unfold writer_change. destruct (ch_after c) as [after|].
  - rewrite lookup_insert_Some. naive_solver.
  - rewrite lookup_delete_Some. naive_solver.
Qed.

Section history.
Context (h : HtapHistory) (Hh : history_ok h).

Lemma changes_upto_ok v : changes_ok (initial_rows h) (changes_upto v (hh_changes h)).
Proof.
  destruct Hh as [Hok Hs]. destruct (changes_upto_split v _ Hs) as (rest&Heq&_).
  rewrite Heq in Hok. by apply changes_ok_app in Hok as [Hok _].
Qed.

Lemma writer_rows_keyed v : keyed (writer_rows_at h v).
Proof. apply writer_changes_keyed; [apply initial_rows_keyed|apply changes_upto_ok]. Qed.

Lemma base_of_ok p w : partition_ok (base h p w).
Proof.
  intros x y Hx Hy. cbn in Hx, Hy. rewrite list_elem_of_In, filter_In, <-list_elem_of_In in Hx, Hy.
  destruct Hx as [[k Hk]%elem_of_bt_values _], Hy as [[k' Hk']%elem_of_bt_values _].
  rewrite (writer_rows_keyed w _ _ Hk), (writer_rows_keyed w _ _ Hk'). intros <-. congruence.
Qed.

Lemma elem_of_base p w row :
  row ∈ bp_rows (base h p w) ↔ in_partition p (writer_rows_at h w !! wr_id row) = Some row.
Proof.
  cbn. rewrite list_elem_of_In, filter_In, <-list_elem_of_In, elem_of_bt_values, bool_decide_eq_true.
  unfold in_partition. split.
  - intros [[k Hk] Hp]. rewrite (writer_rows_keyed w _ _ Hk), Hk. by rewrite decide_True.
  - destruct (writer_rows_at h w !! wr_id row) eqn:E; [|done]. case_decide; [|done].
    intros [= ->]. eauto.
Qed.

Context (parts : list (string * N)) (target : N).
Context (Hnd : NoDup parts.*1) (Hle : ∀ p w, (p, w) ∈ parts → (w ≤ target)%N).
Let bases : list BasePartition := (λ pw, base h pw.1 pw.2) <$> parts.

Lemma bases_partitions : bp_partition <$> bases = parts.*1.
Proof. unfold bases. by rewrite <-list_fmap_compose. Qed.

Lemma bases_watermark p w : base_watermarks bases !! p = Some w ↔ (p, w) ∈ parts.
Proof.
  rewrite base_watermarks_lookup by by rewrite bases_partitions. unfold bases.
  setoid_rewrite list_elem_of_fmap. split.
  - intros (b&([q v]&->&?)&<-&<-). done.
  - intros Hin. exists (base h p w). split; [by exists (p, w)|done].
Qed.

Lemma bases_row p w id : (p, w) ∈ parts → base_rows bases !! (p, id) = in_partition p (writer_rows_at h w !! id).
Proof.
  intros Hin. apply option_eq. intros row. rewrite base_rows_lookup.
  - unfold bases. setoid_rewrite list_elem_of_fmap. split.
    + intros (b&([q v]&->&Hqv)&Hq&Hrow&<-). cbn in Hq. subst q.
      assert (v = w) as ->. { apply bases_watermark in Hqv, Hin. congruence. }
      by apply elem_of_base.
    + intros Hrow. exists (base h p w). split; [by exists (p, w)|]. split; [done|].
      assert (wr_id row = id) as Hid.
      { unfold in_partition in Hrow. destruct (writer_rows_at h w !! id) as [r|] eqn:E; [|done].
        case_decide; [|done]. injection Hrow as ->. by apply (writer_rows_keyed w). }
      split; [|done]. apply elem_of_base. by rewrite Hid.
  - by rewrite bases_partitions.
  - unfold bases. apply Forall_fmap, Forall_true. intros [q v]. apply base_of_ok.
Qed.

(** The overlay holds, of every partition with a base, the rows at the target. *)
Lemma overlay_lookup query mode p id s :
  exact_mode mode → os_rows s = base_rows bases →
  os_rows (foldl (overlay_change (base_watermarks bases) query mode) s
             (changes_upto target (hh_changes h))) !! (p, id) =
  if decide (p ∈ parts.*1) then in_partition p (writer_rows_at h target !! id) else None.
Proof.
  intros Hmode Hs. case_decide as Hin.
  - apply list_elem_of_fmap in Hin as ([q w]&->&Hin). cbn.
    assert (Hw := proj2 (bases_watermark q w) Hin).
    destruct Hh as [_ Hsorted]. destruct (changes_upto_split w (changes_upto target (hh_changes h)))
      as (rest&Heq&Hrest); [by apply ssorted_lfilter|].
    rewrite changes_upto_upto in Heq by by eapply Hle. rewrite Heq, foldl_app.
    assert (Hok := changes_upto_ok target). rewrite Heq, changes_ok_app in Hok. destruct Hok as [_ Hok].
    rewrite (overlay_after _ query mode Hmode q w Hw (writer_rows_at h w)); [|done|done|].
    { unfold writer_rows_at. by rewrite Heq, foldl_app. }
    intros i. rewrite (overlay_before _ query mode Hmode q w Hw), Hs; [by apply bases_row|].
    apply Forall_forall. intros c Hc%list_elem_of_In%filter_In. destruct Hc as [_ Hc%N.leb_le]. done.
  - rewrite overlay_uncovered, Hs; [|done|].
    + apply eq_None_not_Some. intros [row Hrow]. apply Hin. rewrite <-bases_partitions.
      apply base_rows_lookup in Hrow as (b&Hb&<-&_); [by apply list_elem_of_fmap_2|by rewrite bases_partitions|].
      unfold bases. apply Forall_fmap, Forall_true. intros [q v]. apply base_of_ok.
    + apply eq_None_not_Some. intros [w Hw%bases_watermark]. apply Hin.
      by apply (list_elem_of_fmap_2 fst) in Hw.
Qed.

Lemma overlay_values query mode :
  exact_mode mode →
  (∀ id row, writer_rows_at h target !! id = Some row → wr_partition row ∈ parts.*1) →
  or_rows (overlay bases (hh_changes h) target query mode) ≡ₚ
  normalize <$> (bt_items (writer_rows_at h target)).*2.
Proof.
  intros Hmode Hcover. apply Permutation_map.
  set (s := foldl _ _ _).
  assert (Hlook : ∀ p id row, os_rows s !! (p, id) = Some row ↔
    writer_rows_at h target !! id = Some row ∧ wr_partition row = p).
  { intros p id row. unfold s. rewrite overlay_lookup by done. unfold in_partition. split.
    - case_decide; [|done]. destruct (writer_rows_at h target !! id); [|done]. case_decide; naive_solver.
    - intros [Hrow <-]. rewrite decide_True by by eapply Hcover. rewrite Hrow. by rewrite decide_True. }
  apply NoDup_Permutation.
  - apply (bt_values_NoDup _ (λ row, (wr_partition row, wr_id row))). intros [p id] row Hrow%Hlook.
    destruct Hrow as [Hrow <-]. f_equal. by apply (writer_rows_keyed target).
  - apply (bt_values_NoDup _ wr_id). apply writer_rows_keyed.
  - intros row. rewrite !elem_of_bt_values. split.
    + intros [[p id] Hrow%Hlook]. naive_solver.
    + intros [id Hrow]. exists (wr_partition row, id). by apply Hlook.
Qed.

Lemma overlay_query query mode :
  exact_mode mode →
  (∀ id row, writer_rows_at h target !! id = Some row → wr_partition row ∈ parts.*1) →
  query_execute query (or_rows (overlay bases (hh_changes h) target query mode)) = oracle h target query.
Proof.
  intros Hmode Hcover. unfold oracle. symmetry. apply query_execute_perm.
  - symmetry. by apply overlay_values.
  - intros x y (rx&->&[kx Hx]%elem_of_bt_values)%list_elem_of_fmap
      (ry&->&[ky Hy]%elem_of_bt_values)%list_elem_of_fmap Heq.
    assert (Hid : ∀ r, nr_id (normalize r) = wr_id r) by (intros [? ? ? []]; done).
    rewrite !Hid, (writer_rows_keyed target _ _ Hx), (writer_rows_keyed target _ _ Hy) in Heq.
    subst. by simplify_eq.
Qed.

(** Changes that every base already holds can be dropped. *)
Definition retained (low : N) (changes : list Change) : list Change :=
  List.filter (λ c, (low <? ch_version c)%N) changes.

Lemma overlay_retained low changes query mode :
  (∀ p w, (p, w) ∈ parts → (low ≤ w)%N) →
  overlay bases (retained low changes) target query mode = overlay bases changes target query mode.
Proof.
  intros Hlow. unfold overlay. set (s := {| os_rows := _ |}).
  assert (Hfold : ∀ s, foldl (overlay_change (base_watermarks bases) query mode) s
      (changes_upto target (retained low changes)) =
    foldl (overlay_change (base_watermarks bases) query mode) s (changes_upto target changes));
    [|by rewrite Hfold].
  clear s. unfold changes_upto, retained. induction changes as [|c cs IH]; intros s; [done|]. cbn.
  destruct (N.ltb_spec low (ch_version c)) as [Hc|Hc]; cbn;
    destruct (ch_version c <=? target)%N; cbn; rewrite ?IH; try done.
  f_equal. unfold overlay_change.
  assert (Hn : ∀ o, needed (base_watermarks bases) c o = false).
  { intros [q|]; [|done]. cbn. destruct (base_watermarks bases !! q) as [w|] eqn:E; [|done].
    apply bases_watermark, Hlow in E. by destruct (N.ltb_spec w (ch_version c)); [lia|]. }
  by rewrite !Hn.
Qed.
End history.

(** Each partition materialized at its own version. *)
Definition materialize (h : HtapHistory) (parts : list (string * N)) : list BasePartition :=
  (λ pw, base h pw.1 pw.2) <$> parts.

(** C30. Base plus tail is exact. Take a history whose changes are in version
    order and name the partition their row was in, any partitions materialized
    at any versions up to the target, each once, that cover the rows at the
    target, and any query. The query over the overlay of the changes on the bases
    answers what it answers over the rows at the target, and so it does when the
    changes that every base already holds have been dropped from the tail. *)
Theorem overlay_exact h parts target low query
    (Hh : history_ok h) (Hnd : NoDup parts.*1)
    (Hle : ∀ p w, (p, w) ∈ parts → (low ≤ w ∧ w ≤ target)%N)
    (Hcover : ∀ id row, writer_rows_at h target !! id = Some row → wr_partition row ∈ parts.*1) :
  query_execute query
    (or_rows (overlay (materialize h parts) (hh_changes h) target query HtapCorrect))
  = oracle h target query ∧
  query_execute query
    (or_rows (overlay (materialize h parts) (retained low (hh_changes h)) target query HtapCorrect))
  = oracle h target query.
Proof.
  assert (Hq : query_execute query
    (or_rows (overlay (materialize h parts) (hh_changes h) target query HtapCorrect))
    = oracle h target query) by (apply overlay_query; [done|done|naive_solver|by split|done]).
  split; [done|]. unfold materialize in *. rewrite overlay_retained; [done|done|naive_solver].
Qed.

(** *** Two partitions behind the target at different versions *)
Module demo_htap.
Definition history : HtapHistory :=
  {| hh_initial := [row_v1 1 StatusOpen "west" 100; row_v1 2 StatusOpen "east" 90];
     hh_changes :=
       [{| ch_version := 5; ch_id := 2; ch_previous_partition := Some "east"; ch_after := None |};
        {| ch_version := 11; ch_id := 1; ch_previous_partition := Some "west";
           ch_after := Some (row_v2 1 StatusClosed "east" 105 1) |};
        {| ch_version := 12; ch_id := 3; ch_previous_partition := None;
           ch_after := Some (row_v2 3 StatusOpen "west" 80 2) |}] |}.
End demo_htap.
Import demo_htap.

Lemma overlay_exact_witness :
  pr_id <$> query_execute query_all (or_rows (overlay
    (materialize history [("west"%string, 10%N); ("east"%string, 11%N)])
    (retained 10 (hh_changes history)) 12 query_all HtapCorrect)) = [Some 1%N; Some 3%N].
Proof.
  rewrite (proj2 (overlay_exact history [("west"%string, 10%N); ("east"%string, 11%N)] 12 10 query_all
    ltac:(split; [vm_compute; repeat split; intros ? [= <-]; done
                 |repeat (constructor; cbn; try done)])
    ltac:(apply (bool_decide_unpack _); vm_compute; exact I)
    ltac:(intros p w Hin; repeat (apply elem_of_cons in Hin as [[= -> ->]|Hin]; [lia|]);
          by apply not_elem_of_nil in Hin)
    ltac:(intros id row Hrow; apply elem_of_bt_items in Hrow; vm_compute in Hrow;
          repeat (apply elem_of_cons in Hrow as [[= -> ->]|Hrow];
                  [apply (bool_decide_unpack _); vm_compute; exact I|]);
          by apply not_elem_of_nil in Hrow))).
  vm_compute. reflexivity.
Defined.

(** ** The scenario's verdict *)

(** What a run reports, apart from texts, digests and measurements. *)
Definition verdict (s : HtapScenario) : N * N * option N * N :=
  (hs_step s, hs_anomaly_count s, hs_first_mismatch_step s, hs_exact_checks s).

(** The first mismatch and its step are recorded together. *)
Definition mismatch_recorded (s : HtapScenario) : Prop :=
  hs_first_mismatch s = None ↔ hs_first_mismatch_step s = None.

Definition verdict_step (passed : bool) (v : N * N * option N * N) : N * N * option N * N :=
  let '(step, anomalies, first, exact) := v in
  if passed then (step + 1, anomalies, first, exact + 1)%N
  else (step + 1, anomalies + 1, Some (from_option id (step + 1) first), exact)%N.

(** [s'] is [s] with the accounting of overlays and one check after. *)
Record checked (s s' : HtapScenario) (passed : bool) : Prop := {
  ck_seed : hs_seed s' = hs_seed s;
  ck_mode : hs_mode s' = hs_mode s;
  ck_verdict : verdict s' = verdict_step passed (verdict s);
  ck_recorded : mismatch_recorded s';
}.

Lemma htap_check_checked s t action passed pass detail :
  mismatch_recorded s → passed = pass → hs_seed t = hs_seed s → hs_mode t = hs_mode s → verdict t = verdict s →
  hs_first_mismatch t = hs_first_mismatch s →
  checked s (htap_check t action passed detail) pass.
Proof.
  unfold verdict, mismatch_recorded. destruct t as [seed mode trace step anomalies first text exact ? ? ?].
  cbn. intros Hrec <- -> -> [= -> -> -> ->] ->. unfold htap_check. cbn. unfold RecordSetters.constant.
  destruct passed; [by split|]. unfold mismatch_recorded.
  destruct (hs_first_mismatch s) eqn:E; split; cbn; try done.
  - unfold verdict. cbn. destruct (hs_first_mismatch_step s) eqn:Et; [done|naive_solver].
  - unfold verdict. cbn. by rewrite (proj1 Hrec eq_refl).
Qed.

Lemma bump_cases (n : nat) (f : N → bool) b :
  forallb f (N.of_nat <$> seq 0 n) = true → (0 < n)%nat → f (b `mod` N.of_nat n)%N = true.
Proof.
  intros Hall Hn. rewrite forallb_forall in Hall. apply Hall, list_elem_of_In, list_elem_of_fmap.
  exists (N.to_nat (b `mod` N.of_nat n)). split; [by rewrite N2Nat.id|]. apply elem_of_seq.
  assert (Hlt : (b `mod` N.of_nat n < N.of_nat n)%N) by (apply N.mod_lt; lia).
  revert Hlt. generalize (b `mod` N.of_nat n)%N. lia.
Qed.

Definition modes : list HtapContractMode :=
  [HtapCorrect; PushdownPoison; SchemaPartitionMove; WalPopConflation; LeaseGcRace; CertificateToctou].
Definition in_modes (f : HtapContractMode → bool) : bool := forallb f modes.

Lemma in_modes_spec f mode : in_modes f = true → f mode = true.
Proof. unfold in_modes. rewrite forallb_forall. intros Hall. apply Hall. destruct mode; cbn; tauto. Qed.

(** Whether a scenario passes depends on the mode and the seed's bump only. *)
Lemma all_cases (n : nat) (f : HtapContractMode → N → bool) (g : HtapContractMode → bool) mode seed :
  in_modes (λ mode, forallb (λ b, eqb (f mode b) (g mode)) (N.of_nat <$> seq 0 n)) = true →
  (0 < n)%nat → f mode (seed `mod` N.of_nat n)%N = g mode.
Proof.
  intros Hall Hn. apply (in_modes_spec _ mode) in Hall.
  apply eqb_prop. exact (bump_cases n (λ b, eqb (f mode b) (g mode)) seed Hall Hn).
Qed.

Definition spares (broken mode : HtapContractMode) : bool := negb (bool_decide (mode = broken)).

(** Whether the overlay answers as the oracle. *)
Definition answers (h : HtapHistory) (bases : list BasePartition) (changes : list Change) (target : N)
    (query : Query) (mode : HtapContractMode) : bool :=
  bool_decide (query_execute query (or_rows (overlay bases changes target query mode))
               = oracle h target query).

Section verdicts.
Context (debug_rows : list ProjectedRow → string) (s : HtapScenario) (Hrec : mismatch_recorded s).

Lemma pushdown_checked : checked s (pushdown_poison debug_rows s) (spares PushdownPoison (hs_mode s)).
Proof.
  apply htap_check_checked; [done| |done..].
  refine (all_cases 17 (λ mode b, let h := pushdown_history b in
    answers h [base h "p0" 10] (hh_changes h) 12 query_pushdown_poison mode) _ _ _ _ _);
    [by vm_compute|lia].
Qed.

Lemma move_checked : checked s (schema_partition_move debug_rows s) (spares SchemaPartitionMove (hs_mode s)).
Proof.
  apply htap_check_checked; [done| |done..].
  refine (all_cases 19 (λ mode b, let h := move_history b in
    answers h [base h "west" 10; base h "east" 9] (hh_changes h) 12 query_all mode) _ _ _ _ _);
    [by vm_compute|lia].
Qed.

Lemma wal_pop_checked : checked s (wal_pop_conflation debug_rows s) (spares WalPopConflation (hs_mode s)).
Proof.
  apply htap_check_checked; [done| |done..].
  refine (all_cases 23 (λ mode b, let h := wal_pop_history b in
    negb (bool_decide (mode = WalPopConflation)) &&
    answers h [base h "p0" 20] (if bool_decide (mode = WalPopConflation) then [] else hh_changes h)
      25 query_all mode) _ _ _ _ _); [by vm_compute|lia].
Qed.

Lemma lease_checked : checked s (lease_gc_race debug_rows s) (spares LeaseGcRace (hs_mode s)).
Proof.
  unfold lease_gc_race. cbv zeta.
  destruct (bool_decide (hs_mode s = LeaseGcRace)) eqn:E.
  { apply htap_check_checked; [done| |done..]. unfold spares. by rewrite E. }
  apply htap_check_checked; [done| |done..].
  unfold spares. rewrite E.
  refine (all_cases 29 (λ mode b, let h := lease_history b in
    true && answers h [base h "p0" 10] (hh_changes h) 12 query_all mode) (λ _, true) (hs_mode s) _ _ _);
    [by vm_compute|lia].
Qed.

Lemma certificate_checked : checked s (certificate_toctou s) (spares CertificateToctou (hs_mode s)).
Proof.
  apply htap_check_checked; [done| |done..]. unfold spares. by destruct (hs_mode s).
Qed.

Lemma tables_checked : checked s (multi_table_snapshot debug_rows s) true.
Proof.
  apply htap_check_checked; [done| |done..].
  refine (all_cases 31 (λ mode b, let h := orders_history b in let c := customers_history in
    bool_decide ((query_execute query_all
        (or_rows (overlay [base h "orders" 10] (hh_changes h) 14 query_all mode)),
      query_execute query_all
        (or_rows (overlay [base c "customers" 11] (hh_changes c) 14 query_all mode)))
      = (oracle h 14 query_all, oracle c 14 query_all))) (λ _, true) (hs_mode s) _ _ _); [by vm_compute|lia].
Qed.
End verdicts.

(** The contract tells the broken modes apart. For every seed, whatever
    the debug text and the digest function, the correct mode passes all six
    checks, and each broken mode fails exactly one, the check about it. *)
Theorem htap_contract_verdicts debug_rows sha256 seed mode :
  let report := run_htap_contract debug_rows sha256 seed mode in
  hcr_executed_steps report = 6%N ∧
  (hcr_anomaly_count report, hcr_first_mismatch_step report, hcr_exact_checks report) =
    match mode with
    | HtapCorrect => (0, None, 6)
    | PushdownPoison => (1, Some 1, 5)
    | SchemaPartitionMove => (1, Some 2, 5)
    | WalPopConflation => (1, Some 3, 5)
    | LeaseGcRace => (1, Some 4, 5)
    | CertificateToctou => (1, Some 5, 5)
    end%N.
Proof.
  unfold run_htap_contract, htap_run. cbn zeta.
  set (s0 := htap_scenario_new seed mode).
  destruct (pushdown_checked debug_rows s0 ltac:(done)) as [_ M1 V1 R1].
  destruct (move_checked debug_rows _ R1) as [_ M2 V2 R2].
  destruct (wal_pop_checked debug_rows _ R2) as [_ M3 V3 R3].
  destruct (lease_checked debug_rows _ R3) as [_ M4 V4 R4].
  destruct (certificate_checked _ R4) as [_ M5 V5 R5].
  destruct (tables_checked debug_rows _ R5) as [_ M6 V6 _].
  rewrite V5, V4, V3, V2, V1, M4, M3, M2, M1 in V6. revert V6.
  generalize (multi_table_snapshot debug_rows (certificate_toctou (lease_gc_race debug_rows
    (wal_pop_conflation debug_rows (schema_partition_move debug_rows (pushdown_poison debug_rows s0)))))).
  intros s6. unfold verdict at 1. cbn [htap_report hcr_executed_steps hcr_anomaly_count
    hcr_first_mismatch_step hcr_exact_checks].
  clear. destruct mode; intros [= -> -> -> ->]; done.
Qed.
